(* ===== verification/_CoqProject ===== *)
-Q . S2P
Prelude.v
Words.v
Heap.v
Range.v
Rbtree.v
RbWalk.v
Rangemap.v
Memops.v
Buffer.v
Bitmap.v
IdHeap.v
Vector.v
Pqueue.v
Table.v
Circular.v
Queue.v
QueueConc.v
Mutex.v
MutexSafe.v
Ringbuf.v
Text.v
Value.v
Tuple.v
TupleDecode.v
TupleRound.v
Sha256.v
Page.v
PageTable.v
PageMap.v
PageWalk.v
PageOps.v
Chacha.v
Random.v
Dlist.v
Objcache.v
ObjcacheSafe.v
Buddy.v
BuddyArea.v
BuddyInit.v
BuddyHeap.v
BuddyAlloc.v
BuddyRoom.v
BuddyPages.v
Compose.v
Netip.v
Netstore.v
