(* ===== verification/Prelude.v ===== *)
(** Verification of the runtime library of the Jerboa unikernel, and of parts of its tools.

    Jerboa runs a program in a virtual machine of its own: a command line and a daemon
    in Go ([cmd], [internal]) build images and start machines, and a kernel in C
    ([kernel]) runs in them.  This development is about the C of the kernel's runtime,
    [kernel/src/runtime], on which all of the kernel is built, about its mutexes and
    page tables, and about two parts of the Go programs that compute: the order of services
    and the networks with their addresses.  Paths below are relative to the runtime unless
    they start with [kernel] or [internal].

    * The parts and how they interact

    Data structures:
    - [rbtree.c] (Rbtree.v, RbWalk.v): left-leaning red-black trees.  The tree is
      [tree A], its nodes with colour and parent link; each function of the source is a
      definition of the same name.
    - [range.h], [range.c] (Range.v, Rangemap.v): maps from disjoint ranges to nodes, kept
      in a tree of Rbtree.v.  [rangemap] is the record of the code.
    - [list.h] (Dlist.v): doubly linked lists whose links are inside their elements, as
      links in a memory.
    - [memops.c] (Memops.v): copying, filling and comparing memory word by word.
    - [buffer.h], [buffer.c] (Buffer.v): byte buffers with a window; integers of fixed
      and of variable length in them.  Words.v holds the bytes and words of memory.
    - [bitmap.c], [bitmap.h] (Bitmap.v): bitmaps in buffers, and allocation in them.
    - [vector.h], [vector.c] (Vector.v): vectors in buffers; the class [VecOps] with
      [VecLaws] is what they promise.
    - [pqueue.c] (Pqueue.v): priority queues, over any vector with these laws.
    - [table.c], [table.h] (Table.v): hash tables with chains.
    - [ringbuf.c] (Ringbuf.v): queues of bytes in buffers.

    Memory:
    - [heap/id.c] (IdHeap.v): the allocator of pages and identifiers, a range map whose
      nodes carry bitmaps.
    - [heap/page.c] (Buddy.v): the buddy allocator of physical pages, over range maps and
      lists.  BuddyArea.v is about the blocks of one area, BuddyInit.v about the size and
      the first blocks of a new area, BuddyHeap.v has the invariant of the heap with its
      lists of areas, BuddyAlloc.v and BuddyRoom.v the operations on it, BuddyPages.v the
      heap as the set of the pages in use.
    - [heap/objcache.c] (Objcache.v, ObjcacheSafe.v): caches of objects of one size in
      pages of a parent heap.  The class [PageHeap] with [PageHeapLaws] is what they rely
      on, and what the page heap is shown to provide.
    - [kernel/src/kernel/page.c] with [kernel/src/x86_64/page_machine.h] (Page.v):
      page tables as words of memory.  PageTable.v says what they translate, PageMap.v is
      about mapping, PageWalk.v and PageOps.v about what walks over them.

    Processors:
    - [queue.h] (Queue.v, QueueConc.v): lock-free queues for several processors, as a
      step per access to shared memory; Circular.v has the arithmetic of their slots.
    - [kernel/src/kernel/mutex.c] (Mutex.v, MutexSafe.v): mutexes, with a queue of
      processors that spin and may leave it, and a list of suspended contexts; again a
      step per access to shared memory.

    Text, values and cryptography:
    - [text.h], [string.c], and the printing of numbers in [runtime_init.c] (Text.v).
    - [tuple.h], [tuple.c] (Value.v, Tuple.v, TupleDecode.v, TupleRound.v): tagged
      values, tuples and vectors, and the encoding in which the file system's log, the
      boot loader and the image builder exchange them.
    - [sha256.c] (Sha256.v), [crypto/chacha.c] (Chacha.v) and, over the cipher, [random.c]
      (Random.v).

    The Go programs:
    - [internal/compose/graph.go] (Compose.v): the order in which the services of a compose
      file are started.
    - [internal/network/store.go] with [internal/naming/naming.go] (Netstore.v): the networks
      that the daemon keeps in a directory, their subnets, bridges and addresses, as a map
      from names.  Netip.v has what they use of Go's package net: addresses, subnets, and
      their text.

    Memory of the data structures comes from heaps, through the class [Heap] of Heap.v:
    [allocate] returns memory of any contents or fails, and the theorems hold for every
    such heap ([HeapLaws]); those that need success say so ([HeapTotal]).

    * How the code is read

    An integer of the code is a [Z] and the operations that may wrap are followed by
    [u64], [u32], [s32] and the like.  Bytes are integers below 256.  A function that
    asserts, halts or leaves its memory returns [None] there (in Tuple.v an [outcome],
    which tells these apart), so that a theorem whose conclusion is [Some] also shows that
    it does not.  Results of the code such as [INVALID_ADDRESS] and false are values.
    State is passed explicitly.  Function pointers and hash functions are parameters, with
    what the code relies on as hypotheses that the witnesses discharge.  In Go, maps are
    finite maps, the order in which a loop visits one is an argument, errors are values of
    a sum, and the text of IPv6 addresses is a pair of parameters.

    * What is shown

    - Trees ([rbtree_refines_dictionary], [rbtree_height_log]): every sequence of
      operations behaves as on a sorted list and keeps the tree balanced, hence of
      logarithmic height.
    - Range maps ([rangemap_insert_disjoint], [rangemap_insert_range_union],
      [rangemap_insert_hole_difference]): insertion, union and holes are set operations on
      the covered points.
    - Lists refine sequences ([lists_refine_sequences]), vectors lists
      ([vector_refines_list]), tables maps through every resizing ([table_refines_map]),
      ring buffers queues of bytes ([ringbuf_refines_bytes]), and priority queues keep
      their order ([pqueue_insert_pop]).
    - Memory: the copies move bytes for every alignment and overlap
      ([runtime_memcpy_moves]); integers of variable length read back ([varint_roundtrip]).
    - Bitmaps: allocation is first fit ([bitmap_alloc_first_fit]), and a start that is not
      aligned breaks it ([unaligned_start_overlaps]).
    - Identifier heaps: what is allocated was free and is returned aligned
      ([id_alloc_fresh]), what is released becomes free ([id_dealloc_frees]), and a case in
      which the code does not keep this ([id_randomize_overlaps]).
    - The page heap: through any allocations and releases it hands out only pages that
      nobody has, aligned, and never fails an access ([pageheap_safe]); it fails only when
      there is no aligned run of free pages ([pageheap_complete]); it is what the object
      caches rely on ([pageheap_serves_objcache]).  The layouts of memory for which this
      holds are those of [well_placed]; [pageheap_defects] has a run that goes wrong for
      each of the two that it leaves out.
    - Object caches: objects are disjoint and accounted for ([objcache_safe]), the audit,
      draining and destruction agree with the pages held ([objcache_pages]).
    - Page tables: [map_translates], [unmap_unmaps], [update_map_flags_protects] and
      [validate_virtual_mapped] say what the operations do to the translation of every
      address and what is flushed, [page_table_defects] where they go wrong.
    - Queues refine bounded queues ([queue_refines_fifo]); in every interleaving of any
      number of processors each word is returned once and in order ([concurrent_fifo]), and
      every operation completes under a fair schedule ([fair_completion]).
    - Mutexes: mutual exclusion, one contender from the queue, no failed assertion
      ([mutex_exclusive]) and no lost wake-up ([mutex_no_lost_wakeup]), in every
      interleaving of any number of contexts.
    - UTF-8 reads back as written ([utf8_round_trip]).
    - SHA-256 and ChaCha equal specifications after FIPS 180-4 and RFC 8439
      ([sha256_correct], [chacha_correct]); random bytes are a stream of the cipher under
      changing keys ([random_stream]).
    - Encoded values: decoding gives back the graph that was encoded, up to the names of
      its objects ([encode_decode]); on arbitrary bytes the decoder ends
      ([decode_terminates]) and what it returns is well typed ([decode_typed]).
    - Services are started in the least order that respects their dependencies, and an error
      means that there is none ([topological_sort_least]).
    - Networks share no address and no bridge ([networks_disjoint]); an address is given to
      one machine at a time and the search for one ends ([addresses_assigned]).
      [network_store_defects] has runs in which the broadcast address is handed out, released
      addresses are lost, and a gateway is outside its subnet.

    * Bounds and fuel

    Recursions that are not structural take fuel, and the callers give enough: the number
    of nodes of a tree ([map_fuel], [ranges_fuel]), the height in a tree's removals, the
    bits or the words that are left of a bitmap, the length of a vector ([pq_fuel]), the
    digits of a 64-bit number, the bytes of a buffer, one more than the objects of a store
    for the encoder, twice the bytes for the decoder, the pages and objects of a cache, the
    orders and pages of an area, one more than the smallest areas that the memory of the
    page heap has room for, and for the size of an area twice the largest one, each round
    making it smaller or its header, one more than the services of a compose file, one more
    than the addresses taken in a network.  The theorems conclude that there is a result, so fuel
    that ran out would make them false.  The hypotheses on sizes are those of memory: no
    buffer wraps the 64-bit address space.

    * Not modelled

    Output and debug code; closures, which [rangemap] handlers and [foreach] loops are
    given as functions; spinlocks, which the modelled operations hold around them where they
    are not lock-free, and weaker memory than sequentially consistent; heaps that wrap
    another one ([heap/mcache.c], [heap/freelist.c], [heap/reserve.c],
    [heap/mem_debug.c]); timers and scatter-gather lists; interning of symbols (a symbol is
    its name); tuples backed by functions; parsers written as chains of closures
    ([tuple_parser.c], [json.c]); formatted output, which is variadic.  Outside the runtime:
    file systems, page cache, storage and network, which are asynchronous input and output;
    the page tables of machines other than x86-64; interrupts, scheduling and drivers, which
    are hardware; system calls, whose state is the whole kernel.  Of the Go programs, all
    that is not named above: they start processes and exchange files and messages.  Of the
    network store, its lock, the files and the bridges of the host. *)

From Stdlib Require Export ZArith Lia Bool.
From stdpp Require Export base option list numbers sets sorting.

#[export] Set Default Goal Selector "1".

Declare Scope kernel_scope.
Delimit Scope kernel_scope with K.
Open Scope Z_scope.

(** ** Fixed-width integers *)

Definition u64 (x : Z) : Z := x mod 2 ^ 64.
Definition u32 (x : Z) : Z := x mod 2 ^ 32.
Definition u16 (x : Z) : Z := x mod 2 ^ 16.
Definition u8 (x : Z) : Z := x mod 2 ^ 8.
Definition s32 (x : Z) : Z := (x + 2 ^ 31) mod 2 ^ 32 - 2 ^ 31.
Definition s64 (x : Z) : Z := (x + 2 ^ 63) mod 2 ^ 64 - 2 ^ 63.

Definition infinity : Z := 2 ^ 64 - 1.
Definition INVALID_PHYSICAL : Z := infinity.

Definition U64_FROM_BIT (x : Z) : Z := u64 (Z.shiftl 1 x).
Definition MASK (x : Z) : Z := u64 (U64_FROM_BIT x - 1).

Definition PAGELOG : Z := 12.
Definition PAGESIZE : Z := U64_FROM_BIT PAGELOG.
Definition PAGEMASK : Z := MASK PAGELOG.

(** [pad(x, s)]: round [x] up to a multiple of [s], a power of two. *)
Definition pad (x s : Z) : Z :=
  u64 (Z.land (u64 (x - 1)) (u64 (Z.lnot (s - 1))) + s).

Definition msb (x : Z) : Z := if x =? 0 then infinity else Z.log2 x.

Fixpoint pos_lsb (p : positive) : Z :=
  match p with
  | xO q => pos_lsb q + 1
  | _ => 0
  end.

Definition lsb (x : Z) : Z :=
  match x with
  | Zpos p => pos_lsb p
  | _ => infinity
  end.

Definition find_order (x : Z) : Z := if 1 <? x then msb (x - 1) + 1 else 0.

Definition bool_to_Z (b : bool) : Z := if b then 1 else 0.

(** [assert(c)]: the kernel halts when [c] is false. *)
Definition kassert (c : bool) : option unit := if c then Some tt else None.

(** ** Tactics and hint databases *)

Create HintDb kernel.

Ltac destruct_bool :=
  repeat match goal with
  | H : andb _ _ = true |- _ => apply andb_true_iff in H; destruct H
  | H : orb _ _ = false |- _ => apply orb_false_iff in H; destruct H
  | H : negb _ = true |- _ => apply negb_true_iff in H
  | H : negb _ = false |- _ => apply negb_false_iff in H
  end.

(** Turn the integer comparisons of a context into propositions. *)
Ltac breflect :=
  destruct_bool;
  repeat match goal with
  | H : (_ <? _) = true |- _ => apply Z.ltb_lt in H
  | H : (_ <? _) = false |- _ => apply Z.ltb_ge in H
  | H : (_ <=? _) = true |- _ => apply Z.leb_le in H
  | H : (_ <=? _) = false |- _ => apply Z.leb_gt in H
  | H : (_ =? _) = true |- _ => apply Z.eqb_eq in H
  | H : (_ =? _) = false |- _ => apply Z.eqb_neq in H
  end.

(** Case on the first test the goal is stuck on. *)
Ltac case_test :=
  match goal with
  | |- context [if ?b then _ else _] =>
      let E := fresh "E" in destruct b eqn:E; breflect
  end.

Ltac simplify_some :=
  repeat match goal with
  | H : Some _ = Some _ |- _ => injection H as H; subst
  | H : None = Some _ |- _ => discriminate H
  | H : Some _ = None |- _ => discriminate H
  | H : (_, _) = (_, _) |- _ => injection H as ?; subst
  end.

Lemma kassert_Some c u : kassert c = Some u -> c = true.
Proof. by destruct c. Qed.

(** Open up a monadic computation that returned. *)
Ltac inv_bind :=
  repeat match goal with
  | H : (_ ≫= _) = Some _ |- _ =>
      let x := fresh "v" in let E := fresh "E" in
      apply bind_Some in H as (x & E & H); lazymatch type of x with (_ * _)%type => destruct x as [? ?] | unit => destruct x | _ => idtac end
  | H : kassert _ = Some _ |- _ => apply kassert_Some in H
  | _ => progress simplify_some
  end.

(** ** Generic lemmas *)

Lemma u64_small x : 0 <= x < 2 ^ 64 -> u64 x = x.
Proof. apply Z.mod_small. Qed.

Lemma u64_range x : 0 <= u64 x < 2 ^ 64.
Proof. apply Z.mod_pos_bound. lia. Qed.

Lemma u64_add_l a n : u64 (u64 a + n) = u64 (a + n).
Proof. unfold u64. apply Zplus_mod_idemp_l. Qed.

Lemma u32_small x : 0 <= x < 2 ^ 32 -> u32 x = x.
Proof. apply Z.mod_small. Qed.

Lemma u32_range x : 0 <= u32 x < 2 ^ 32.
Proof. apply Z.mod_pos_bound. lia. Qed.

Lemma U64_FROM_BIT_pow n : 0 <= n < 64 -> U64_FROM_BIT n = 2 ^ n.
Proof.
  intros Hn. unfold U64_FROM_BIT. rewrite Z.shiftl_1_l. apply u64_small.
  split; [lia | by apply Z.pow_lt_mono_r; lia].
Qed.

Lemma MASK_ones n : 0 <= n < 64 -> MASK n = Z.ones n.
Proof.
  intros Hn. unfold MASK. rewrite U64_FROM_BIT_pow, Z.ones_equiv, <- Z.sub_1_r by lia.
  apply u64_small. pose proof (Z.pow_pos_nonneg 2 n). 
  pose proof (Z.pow_lt_mono_r 2 n 64). lia.
Qed.

Lemma filter_none {A} (P : A -> Prop) `{!forall x, Decision (P x)} (l : list A) :
  Forall (fun x => ~ P x) l -> filter P l = [].
Proof. induction 1; [done|]. by rewrite filter_cons_False. Qed.

Lemma filter_all {A} (P : A -> Prop) `{!forall x, Decision (P x)} (l : list A) :
  Forall P l -> filter P l = l.
Proof. induction 1; [done|]. rewrite filter_cons_True by done. by f_equal. Qed.

Lemma head_app_some {A} (l1 l2 : list A) a : head l1 = Some a -> head (l1 ++ l2) = Some a.
Proof. by destruct l1. Qed.

Lemma NoDup_split_unique {A} (z : A) l1 l2 l1' l2' :
  NoDup (l1 ++ z :: l2) -> l1 ++ z :: l2 = l1' ++ z :: l2' -> l1 = l1' /\ l2 = l2'.
Proof.
  revert l1'. induction l1 as [|y l1 IH]; intros [|y' l1'] Hd E; simpl in *; simplify_eq; [done|..].
  - apply NoDup_cons in Hd as [Hd _]. exfalso. apply Hd. rewrite elem_of_app. right. by left.
  - apply NoDup_cons in Hd as [Hd _]. exfalso. apply Hd. rewrite elem_of_app. right. by left.
  - apply NoDup_cons in Hd as [_ Hd]. destruct (IH l1' Hd) as [-> ->]; done.
Qed.

Lemma find_app {A} (f : A -> bool) l1 l2 :
  find f (l1 ++ l2) = match find f l1 with Some x => Some x | None => find f l2 end.
Proof. induction l1 as [|x l1 IH]; simpl; [done|]. by destruct (f x). Qed.

Lemma drop_cons_lookup {A} (l : list A) i x : l !! i = Some x -> drop i l = x :: drop (S i) l.
Proof. revert i. induction l as [|y l IH]; intros [|i]; simpl; try done; [by intros [= ->]|auto]. Qed.

Lemma s32_small x : - 2 ^ 31 <= x < 2 ^ 31 -> s32 x = x.
Proof. intros Hx. unfold s32. rewrite Z.mod_small; lia. Qed.

Lemma NoDup_bounded (l : list Z) n : NoDup l -> Forall (fun x => 0 <= x < n) l -> Z.of_nat (length l) <= Z.max 0 n.
Proof.
  intros Hd Hf. assert (Hs : l ⊆+ seqZ 0 n).
  { apply NoDup_submseteq; [done|]. intros x Hx. rewrite Forall_forall in Hf. apply elem_of_seqZ. specialize (Hf x Hx). lia. }
  apply submseteq_length in Hs. rewrite length_seqZ in Hs. lia.
Qed.

(** A computation that returns a value with a decidable property. *)
Lemma run_check {A} (o : option A) (P : A -> Prop) `{!forall s, Decision (P s)} :
  (if o is Some s then bool_decide (P s) else false) = true -> exists s, o = Some s /\ P s.
Proof. destruct o as [s|]; [|done]. intros Hs%bool_decide_eq_true. eauto. Qed.
