(* ===== verification/Words.v ===== *)
(** Bytes, little-endian words and byte arrays: the memory the runtime's data
    structures are laid out in. *)

From S2P Require Import Prelude.

Definition is_byte (x : Z) : Prop := 0 <= x < 256.

#[export] Instance is_byte_dec x : Decision (is_byte x).
Proof. unfold is_byte. apply _. Defined.

(** ** Words as bytes *)

Fixpoint le_join (l : list Z) : Z :=
  match l with [] => 0 | x :: l' => x + 256 * le_join l' end.

Fixpoint le_split (n : nat) (w : Z) : list Z :=
  match n with O => [] | S n' => w mod 256 :: le_split n' (w / 256) end.

(** The [j]-th byte of a word. *)
Definition byte_of (w j : Z) : Z := Z.land (Z.shiftr w (8 * j)) 255.

Lemma length_le_split n w : length (le_split n w) = n.
Proof. revert w. induction n; simpl; auto. Qed.

Lemma le_split_bytes n w : Forall is_byte (le_split n w).
Proof.
  revert w. induction n as [|n IH]; intros w; simpl; constructor; [|done].
  apply Z.mod_pos_bound. lia.
Qed.

Lemma pow256_succ n : 256 ^ Z.of_nat (S n) = 256 * 256 ^ Z.of_nat n.
Proof. rewrite Nat2Z.inj_succ, Z.pow_succ_r; lia. Qed.

Lemma pow256_pos n : 0 < 256 ^ Z.of_nat n.
Proof. apply Z.pow_pos_nonneg; lia. Qed.

Lemma le_join_range l : Forall is_byte l -> 0 <= le_join l < 256 ^ Z.of_nat (length l).
Proof.
  induction 1 as [|x l Hx Hl IH]; [simpl; lia|].
  cbn [length le_join]. rewrite pow256_succ. unfold is_byte in Hx. lia.
Qed.

Lemma le_join_split n w : le_join (le_split n w) = w mod 256 ^ Z.of_nat n.
Proof.
  revert w. induction n as [|n IH]; intros w; [by rewrite Z.mod_1_r|].
  cbn [le_split le_join]. rewrite IH, pow256_succ, Z.rem_mul_r; [done|lia|apply pow256_pos].
Qed.

Lemma le_split_join l : Forall is_byte l -> le_split (length l) (le_join l) = l.
Proof.
  induction 1 as [|x l Hx Hl IH]; [done|]. cbn [length le_join le_split]. unfold is_byte in Hx.
  rewrite (Z.mul_comm 256), Z.mod_add, Z.mod_small by lia.
  rewrite Z.div_add, Z.div_small, Z.add_0_l by lia. by rewrite IH.
Qed.

Lemma byte_of_div w j : 0 <= j -> byte_of w j = (w / 256 ^ j) mod 256.
Proof.
  intros Hj. unfold byte_of. rewrite Z.shiftr_div_pow2 by lia.
  change 255 with (Z.ones 8). rewrite Z.land_ones by lia.
  by rewrite Z.pow_mul_r by lia.
Qed.

Lemma byte_of_range w j : is_byte (byte_of w j).
Proof.
  unfold byte_of, is_byte. change 255 with (Z.ones 8). rewrite Z.land_ones by lia.
  apply Z.mod_pos_bound. lia.
Qed.

Lemma byte_of_testbit w j i :
  0 <= j -> 0 <= i -> Z.testbit (byte_of w j) i = (i <? 8) && Z.testbit w (8 * j + i).
Proof.
  intros Hj Hi. unfold byte_of. change 255 with (Z.ones 8).
  rewrite Z.land_spec, Z.shiftr_spec, Z.testbit_ones by lia.
  rewrite (Z.add_comm i), andb_comm. f_equal. destruct (Z.leb_spec 0 i); [done|lia].
Qed.

Lemma le_join_lookup l j : Forall is_byte l -> (j < length l)%nat ->
  byte_of (le_join l) (Z.of_nat j) = nth j l 0.
Proof.
  intros Hl. revert j. induction Hl as [|x l Hx Hl IH]; intros j Hj; [simpl in Hj; lia|].
  unfold is_byte in Hx. rewrite byte_of_div by lia. cbn [le_join length] in *. destruct j as [|j].
  - simpl (256 ^ _). rewrite Z.div_1_r, (Z.mul_comm 256), Z.mod_add, Z.mod_small by lia. done.
  - rewrite pow256_succ, <- Z.div_div by (lia || apply pow256_pos).
    rewrite (Z.mul_comm 256 (le_join l)), Z.div_add, (Z.div_small x 256), Z.add_0_l by lia.
    rewrite <- byte_of_div by lia. apply IH. lia.
Qed.

Lemma testbit_above w i : 0 <= w < 2 ^ 64 -> 64 <= i -> Z.testbit w i = false.
Proof.
  intros Hw Hi. destruct (Z.eq_dec w 0) as [->|]; [apply Z.testbit_0_l|].
  apply Z.bits_above_log2; [lia|]. apply Z.log2_lt_pow2; [lia|].
  apply Z.lt_le_trans with (2 ^ 64); [lia|]. apply Z.pow_le_mono_r; lia.
Qed.

Lemma u64_testbit x i : 0 <= i -> Z.testbit (u64 x) i = (i <? 64) && Z.testbit x i.
Proof.
  intros Hi. unfold u64. rewrite <- Z.land_ones, Z.land_spec, Z.testbit_ones, andb_comm by lia.
  f_equal. destruct (Z.leb_spec 0 i); [done|lia].
Qed.

Lemma lor_range x y : 0 <= x < 2 ^ 64 -> 0 <= y < 2 ^ 64 -> 0 <= Z.lor x y < 2 ^ 64.
Proof.
  intros Hx Hy. assert (E : u64 (Z.lor x y) = Z.lor x y); [|rewrite <- E; apply u64_range].
  apply Z.bits_inj'. intros i Hi. rewrite u64_testbit, Z.lor_spec by done.
  destruct (Z.ltb_spec i 64); [done|]. by rewrite !testbit_above.
Qed.

(** Clearing the low bits of a word. *)
Lemma land_clear_low x k : 0 <= x < 2 ^ 64 -> 0 <= k < 64 ->
  Z.land x (u64 (Z.lnot (2 ^ k - 1))) = 2 ^ k * (x / 2 ^ k).
Proof.
  intros Hx Hk. rewrite (Z.mul_comm (2 ^ k)), <- Z.shiftr_div_pow2, <- Z.shiftl_mul_pow2 by lia.
  apply Z.bits_inj'. intros j Hj. rewrite Z.land_spec, u64_testbit, Z.lnot_spec by lia.
  replace (2 ^ k - 1) with (Z.ones k) by (rewrite Z.ones_equiv; lia). rewrite Z.testbit_ones by lia.
  destruct (Z.lt_ge_cases j k).
  - rewrite Z.shiftl_spec_low by lia. destruct (Z.leb_spec 0 j), (Z.ltb_spec j k); lia.
  - rewrite Z.shiftl_spec, Z.shiftr_spec by lia. replace (j - k + k) with j by lia.
    destruct (Z.ltb_spec j k); [lia|]. rewrite andb_false_r. simpl. rewrite andb_true_r.
    destruct (Z.ltb_spec j 64); [by rewrite andb_true_r|]. by rewrite testbit_above by lia.
Qed.

(** Padding to a power of two. *)
Lemma pad_pow2 x k : 0 < x < 2 ^ 62 -> 0 <= k <= 62 ->
  (2 ^ k | pad x (2 ^ k)) /\ x <= pad x (2 ^ k) < x + 2 ^ k.
Proof.
  intros Hx Hk. assert (0 < 2 ^ k <= 2 ^ 62) by (split; [lia|apply Z.pow_le_mono_r; lia]).
  unfold pad. rewrite (u64_small (x - 1)), land_clear_low by lia.
  pose proof (Z.div_mod (x - 1) (2 ^ k)). pose proof (Z.mod_pos_bound (x - 1) (2 ^ k)).
  rewrite u64_small by lia. split; [exists ((x - 1) / 2 ^ k + 1); lia|lia].
Qed.

(** ** Byte arrays *)

(** [len] bytes at [off]; [None] when they are not all inside. *)
Definition read_bytes (c : list Z) (off len : Z) : option (list Z) :=
  if (0 <=? off) && (0 <=? len) && (off + len <=? Z.of_nat (length c))
  then Some (take (Z.to_nat len) (drop (Z.to_nat off) c)) else None.

Definition write_bytes (c : list Z) (off : Z) (src : list Z) : option (list Z) :=
  if (0 <=? off) && (off + Z.of_nat (length src) <=? Z.of_nat (length c))
  then Some (take (Z.to_nat off) c ++ src ++ drop (Z.to_nat off + length src) c) else None.

Definition read_u64 (c : list Z) (off : Z) : option Z :=
  l ← read_bytes c off 8; Some (le_join l).

Definition write_u64 (c : list Z) (off : Z) (w : Z) : option (list Z) :=
  write_bytes c off (le_split 8 w).

Lemma read_bytes_Some c off len l :
  read_bytes c off len = Some l <->
  0 <= off /\ 0 <= len /\ off + len <= Z.of_nat (length c) /\
  l = take (Z.to_nat len) (drop (Z.to_nat off) c).
Proof.
  unfold read_bytes. split.
  - case_match; [|done]. breflect. intros [= <-]. done.
  - intros (? & ? & ? & ->). case_match; [done|].
    repeat match goal with H : _ && _ = false |- _ => apply andb_false_iff in H as [H|H] end; breflect; lia.
Qed.

Lemma write_bytes_Some c off src c' :
  write_bytes c off src = Some c' <->
  0 <= off /\ off + Z.of_nat (length src) <= Z.of_nat (length c) /\
  c' = take (Z.to_nat off) c ++ src ++ drop (Z.to_nat off + length src) c.
Proof.
  unfold write_bytes. split.
  - case_match; [|done]. breflect. intros [= <-]. done.
  - intros (? & ? & ->). case_match; [done|].
    repeat match goal with H : _ && _ = false |- _ => apply andb_false_iff in H as [H|H] end; breflect; lia.
Qed.

Lemma read_bytes_length c off len l : read_bytes c off len = Some l -> Z.of_nat (length l) = len.
Proof. intros (? & ? & ? & ->)%read_bytes_Some. rewrite length_take, length_drop. lia. Qed.

Lemma write_bytes_length c off src c' : write_bytes c off src = Some c' -> length c' = length c.
Proof.
  intros (? & ? & ->)%write_bytes_Some. rewrite !length_app, length_take, length_drop. lia.
Qed.

Lemma write_bytes_bytes c off src c' :
  write_bytes c off src = Some c' -> Forall is_byte c -> Forall is_byte src -> Forall is_byte c'.
Proof.
  intros (? & ? & ->)%write_bytes_Some Hc Hs.
  repeat apply Forall_app_2; [by apply Forall_take|done|by apply Forall_drop].
Qed.

Lemma read_write_same c off src c' :
  write_bytes c off src = Some c' -> read_bytes c' off (Z.of_nat (length src)) = Some src.
Proof.
  intros Hw. pose proof (write_bytes_length _ _ _ _ Hw) as Hl.
  apply write_bytes_Some in Hw as (H0 & H1 & ->). apply read_bytes_Some.
  split; [done|]. split; [lia|]. split; [lia|].
  rewrite drop_app_length' by (rewrite length_take; lia).
  rewrite take_app_length' by lia. done.
Qed.

Lemma take_drop_write c off src c' n k :
  write_bytes c off src = Some c' -> Z.of_nat (n + k) <= off ->
  take k (drop n c') = take k (drop n c).
Proof.
  intros (H0 & H1 & ->)%write_bytes_Some Hk.
  rewrite drop_app_le, take_app_le by (rewrite ?length_drop, ?length_take; lia).
  rewrite skipn_firstn_comm, take_take. f_equal. lia.
Qed.

Lemma drop_write c off src c' n :
  write_bytes c off src = Some c' -> off + Z.of_nat (length src) <= Z.of_nat n ->
  drop n c' = drop n c.
Proof.
  intros (H0 & H1 & ->)%write_bytes_Some Hk.
  rewrite drop_app_ge by (rewrite length_take; lia).
  rewrite drop_app_ge by (rewrite length_take; lia).
  rewrite drop_drop, length_take. f_equal. lia.
Qed.

(** Element by element. *)
Lemma write_bytes_spec l i ws : 0 <= i -> i + Z.of_nat (length ws) <= Z.of_nat (length l) ->
  exists l', write_bytes l i ws = Some l' /\ length l' = length l /\
    forall j : nat, l' !! j = if decide (i <= Z.of_nat j < i + Z.of_nat (length ws))
                              then ws !! (j - Z.to_nat i)%nat else l !! j.
Proof.
  intros Hi Hl. eexists. split; [by apply write_bytes_Some|].
  split; [rewrite !length_app, length_take, length_drop; lia|]. intros j.
  destruct (decide (Z.of_nat j < i)).
  - rewrite lookup_app_l by (rewrite length_take; lia). rewrite lookup_take_lt by lia. by case_decide; [lia|].
  - rewrite lookup_app_r by (rewrite length_take; lia). rewrite length_take.
    replace (j - Z.to_nat i `min` length l)%nat with (j - Z.to_nat i)%nat by lia. case_decide.
    + by rewrite lookup_app_l by lia.
    + rewrite lookup_app_r by lia. rewrite lookup_drop. f_equal. lia.
Qed.

Lemma write_bytes_one l i w : 0 <= i < Z.of_nat (length l) -> write_bytes l i [w] = Some (<[Z.to_nat i := w]> l).
Proof.
  intros Hi. destruct (write_bytes_spec l i [w]) as (l' & -> & Hl & Hj); [simpl; lia..|]. f_equal.
  apply list_eq. intros j. rewrite Hj. cbn [length]. destruct (decide (Z.to_nat i = j)) as [<-|Hne].
  - rewrite list_lookup_insert_eq by lia. case_decide; [|lia]. by rewrite Nat.sub_diag.
  - rewrite list_lookup_insert_ne by done. case_decide; [lia|done].
Qed.

Lemma read_bytes_one l i w : 0 <= i -> l !! Z.to_nat i = Some w -> read_bytes l i 1 = Some [w].
Proof.
  intros Hi E. pose proof (lookup_lt_Some _ _ _ E). apply read_bytes_Some. split; [done|]. split; [done|].
  split; [lia|]. by rewrite (drop_S _ _ _ E).
Qed.

(** ** Orders *)

Lemma find_order_pow n m : 0 <= m -> 1 <= n <= 2 ^ m -> 0 <= find_order n <= m /\ n <= 2 ^ find_order n < 2 * n.
Proof.
  intros Hm Hn. unfold find_order, msb. destruct (Z.ltb_spec 1 n).
  - destruct (Z.eqb_spec (n - 1) 0); [lia|]. pose proof (Z.log2_spec (n - 1) ltac:(lia)) as Hl.
    assert (Z.log2 (n - 1) < m) by (apply Z.log2_lt_pow2; lia). pose proof (Z.log2_nonneg (n - 1)).
    rewrite Z.pow_succ_r in Hl by lia. rewrite Z.add_1_r, Z.pow_succ_r by lia. lia.
  - assert (n = 1) as -> by lia. lia.
Qed.

Lemma find_order_exact k : 0 <= k -> find_order (2 ^ k) = k.
Proof.
  intros Hk. destruct (find_order_pow (2 ^ k) k Hk ltac:(lia)) as [H1 [H2 H3]].
  apply Z.pow_le_mono_r_iff in H2; lia.
Qed.

(** ** Joining bits *)

Lemma lor_pow2 a y n : 0 <= n -> 0 <= y < 2 ^ n -> Z.lor (a * 2 ^ n) y = a * 2 ^ n + y.
Proof.
  intros Hn Hy. assert (Z.land (a * 2 ^ n) y = 0).
  { apply Z.bits_inj'. intros i Hi. rewrite Z.land_spec, Z.mul_pow2_bits, Z.bits_0 by lia.
    destruct (decide (i < n)); [by rewrite (Z.testbit_neg_r a) by lia|].
    by rewrite <- (Z.mod_small y (2 ^ n)), Z.mod_pow2_bits_high, andb_false_r by lia. }
  by rewrite <- Z.lxor_lor, <- Z.add_nocarry_lxor.
Qed.

(** Whether a bit is set. *)
Lemma land_pow2 x k : 0 <= k -> (Z.land x (2 ^ k) =? 0) = negb (Z.testbit x k).
Proof.
  intros Hk. destruct (Z.testbit x k) eqn:E; cbn [negb]; [apply Z.eqb_neq|apply Z.eqb_eq].
  - intros H. assert (Hb : Z.testbit (Z.land x (2 ^ k)) k = true) by (by rewrite Z.land_spec, E, Z.pow2_bits_true by done). by rewrite H, Z.testbit_0_l in Hb.
  - apply Z.bits_inj'. intros n Hn. rewrite Z.land_spec, Z.pow2_bits_eqb, Z.testbit_0_l by done. destruct (Z.eqb_spec k n) as [<- |]; [by rewrite E|apply andb_false_r].
Qed.

(** ** Words of 32 bits *)

Definition is_u32 (x : Z) : Prop := 0 <= x < 2 ^ 32.

Lemma u32_word x : is_u32 (u32 x).
Proof. apply u32_range. Qed.

Lemma lxor_word x y : is_u32 x -> is_u32 y -> is_u32 (Z.lxor x y).
Proof.
  unfold is_u32. intros Hx Hy. split; [apply Z.lxor_nonneg; lia|].
  destruct (decide (Z.lxor x y = 0)) as [->|]; [done|]. apply Z.log2_lt_pow2; [apply Z.le_neq; split; [apply Z.lxor_nonneg; lia|done]|].
  eapply Z.le_lt_trans; [apply Z.log2_lxor; lia|]. apply Z.max_lub_lt.
  - destruct (decide (x = 0)) as [->|]; [done|]. apply Z.log2_lt_pow2; lia.
  - destruct (decide (y = 0)) as [->|]; [done|]. apply Z.log2_lt_pow2; lia.
Qed.

Lemma shiftr_div x n : 0 <= n -> Z.shiftr x n = x / 2 ^ n.
Proof. apply Z.shiftr_div_pow2. Qed.
