(* ===== verification/Heap.v ===== *)
(** The allocator interface ([struct heap], [kernel/src/runtime/runtime.h]) as the
    data structures use it: [allocate] returns fresh memory with unspecified
    contents, or fails.  The instance stands for what the allocator does during
    one operation, so every theorem holds for every behaviour of it. *)

From S2P Require Import Prelude Words.

Class Heap := allocate : Z -> option (list Z).

Class HeapLaws (h : Heap) : Prop := {
  allocate_length n c : allocate n = Some c -> Z.of_nat (length c) = n;
  allocate_bytes n c : allocate n = Some c -> Forall is_byte c;
}.

(** A heap that does not run out. *)
Class HeapTotal (h : Heap) : Prop := allocate_total n : 0 <= n -> allocate n <> None.

(** Two heaps: one that always fails, one that always gives zeroed memory. *)
Definition failing_heap : Heap := fun _ => None.
Definition zero_heap : Heap := fun n => if 0 <=? n then Some (replicate (Z.to_nat n) 0) else None.

Lemma failing_heap_laws : HeapLaws failing_heap.
Proof. by split. Qed.

Lemma zero_heap_laws : HeapLaws zero_heap.
Proof.
  split; unfold allocate, zero_heap; intros n c; case_test; [|done| |done]; intros [= <-].
  - rewrite length_replicate. lia.
  - by apply Forall_replicate.
Qed.

Lemma zero_heap_total : HeapTotal zero_heap.
Proof. intros n Hn. unfold allocate, zero_heap. case_test; [done|lia]. Qed.
