(* ===== verification/Range.v ===== *)
(** Ranges of addresses: the first part of [kernel/src/runtime/range.h], which range
    maps, the id heap and the page tables use. *)

From S2P Require Import Prelude.

Record range := irange { start : Z; end_ : Z }.

#[export] Instance range_eq_dec : EqDecision range.
Proof. solve_decision. Defined.

Definition irangel (s l : Z) : range := irange s (u64 (s + l)).

Definition point_in_range (r : range) (p : Z) : bool := (start r <=? p) && (p <? end_ r).

Definition range_rshift (r : range) (order : Z) : range :=
  irange (Z.shiftr (start r) order) (Z.shiftr (end_ r) order).

Definition range_rshift_pad (r : range) (order : Z) : range :=
  irange (Z.shiftr (start r) order) (Z.shiftr (u64 (end_ r + MASK order)) order).

Definition range_lshift (r : range) (order : Z) : range :=
  irange (u64 (Z.shiftl (start r) order)) (u64 (Z.shiftl (end_ r) order)).

Definition range_intersection (a b : range) : range :=
  let dest := irange (Z.max (start a) (start b)) (Z.min (end_ a) (end_ b)) in
  if end_ dest <=? start dest then irange 0 0 else dest.

Definition range_span (r : range) : Z := u64 (end_ r - start r).

Definition range_empty (a : range) : bool := range_span a =? 0.

Definition ranges_intersect (a b : range) : bool := negb (range_empty (range_intersection a b)).

Definition range_contains (a b : range) : bool := (start a <=? start b) && (end_ b <=? end_ a).

Definition range_equal (a b : range) : bool := (start a =? start b) && (end_ a =? end_ b).

Definition range_valid (r : range) : bool := start r <=? end_ r.

Definition range_add (r : range) (delta : Z) : range :=
  irange (u64 (start r + delta)) (u64 (end_ r + delta)).

Definition range_difference (a b : range) : range * range :=
  let b := range_intersection a b in
  if negb (range_span b =? 0) then (irange (start a) (start b), irange (end_ b) (end_ a))
  else (irange (start a) (end_ a), irange 0 0).
