(* ===== verification/Rbtree.v ===== *)
(** Left-leaning red-black trees: [kernel/src/runtime/rbtree.c].

    A tree is the tree-shaped part of memory that hangs off [rbtree.root]: a
    [Node] is one [struct rbnode] with its colour and parent link (the two
    halves of [parent_color]) and the two subtrees its child pointers lead to.
    The element [a : A] is the structure the [rbnode] is embedded in, and
    [addr a] its address; the null pointer is 0 for a parent link and [Leaf]
    for a child.  A failed [assert] is [None]. *)

From S2P Require Import Prelude.

Inductive color := black | red.
Inductive side := left | right.

#[export] Instance color_eq_dec : EqDecision color.
Proof. solve_decision. Defined.
#[export] Instance side_eq_dec : EqDecision side.
Proof. solve_decision. Defined.

(** What the tree relies on in the [key_compare] closure its owner installs. *)
Class KeyCompare (A : Type) := {
  addr : A -> Z;
  key_compare : A -> A -> Z;
}.

Class KeyOrder (A : Type) `{KeyCompare A} : Prop := {
  key_compare_opp a b : Z.sgn (key_compare b a) = - Z.sgn (key_compare a b);
  key_compare_trans a b c :
    key_compare a b <= 0 -> key_compare b c <= 0 -> key_compare a c <= 0;
}.

Inductive tree (A : Type) :=
| Leaf
| Node (c : color) (parent : Z) (l : tree A) (a : A) (r : tree A).
Arguments Leaf {A}.
Arguments Node {A} c parent l a r.

Inductive traversal := RB_INORDER | RB_PREORDER | RB_POSTORDER.

(** The outcomes of [rbtree_validate]: [STATUS_OK] or one of its messages. *)
Inductive status :=
| STATUS_OK
| parent_mismatch
| consecutive_red
| black_count_mismatch
| right_leaning
| prev_mismatch
| next_mismatch
| first_has_prev
| last_has_next.

(** ** The code *)

Section Code.
Context {A : Type} `{KeyCompare A}.
Implicit Types (h n t x : tree A) (a k : A).

Definition is_null h : bool := match h with Leaf => true | _ => false end.

Definition node_addr h : Z := match h with Leaf => 0 | Node _ _ _ a _ => addr a end.

Definition parent h : Z := match h with Leaf => 0 | Node _ p _ _ _ => p end.

Definition set_parent h (p : Z) : tree A :=
  match h with Leaf => Leaf | Node c _ l a r => Node c p l a r end.

Definition child h (i : side) : tree A :=
  match h with
  | Leaf => Leaf
  | Node _ _ l _ r => match i with left => l | right => r end
  end.

Definition set_child h (i : side) x : tree A :=
  match h with
  | Leaf => Leaf
  | Node c p l a r => match i with left => Node c p x a r | right => Node c p l a x end
  end.

Definition get_color h : color := match h with Leaf => black | Node c _ _ _ _ => c end.

Definition set_color h (c : color) : tree A :=
  match h with Leaf => Leaf | Node _ p l a r => Node c p l a r end.

Definition set_parent_and_color h (p : Z) (c : color) : tree A :=
  match h with Leaf => Leaf | Node _ _ l a r => Node c p l a r end.

Definition other_color (c : color) : color :=
  match c with black => red | red => black end.

Definition invert_color h : tree A :=
  match h with Leaf => Leaf | Node c p l a r => Node (other_color c) p l a r end.

Definition is_black h : bool := match get_color h with black => true | red => false end.
Definition is_red h : bool := negb (is_null h) && negb (is_black h).
Definition is_black_or_null h : bool := negb (is_red h).
Definition is_leaf h : bool := is_null (child h left) && is_null (child h right).

Definition other (i : side) : side := match i with left => right | right => left end.

Definition rotate (hand : side) h : option (tree A) :=
  let oh := other hand in
  let x := child h oh in
  _ ← kassert (negb (is_null x));
  let xh := child x hand in
  let h1 := set_child h oh (set_parent xh (node_addr h)) in
  let x1 := set_parent_and_color x (parent h) (get_color h) in
  Some (set_child x1 hand (set_parent_and_color h1 (node_addr x) red)).

Definition color_flip n : option (tree A) :=
  _ ← kassert (negb (is_null n));
  let n1 := invert_color n in
  _ ← kassert (negb (is_null (child n left)));
  let n2 := set_child n1 left (invert_color (child n1 left)) in
  _ ← kassert (negb (is_null (child n right)));
  Some (set_child n2 right (invert_color (child n2 right))).

Fixpoint find_limit h (max : bool) : option (tree A) :=
  match h with
  | Leaf => None
  | Node _ _ l _ r =>
      if max then match r with Leaf => Some h | _ => find_limit r max end
      else match l with Leaf => Some h | _ => find_limit l max end
  end.

Fixpoint node_at t (p : Z) : option (tree A) :=
  match t with
  | Leaf => None
  | Node _ _ l a r =>
      if addr a =? p then Some t
      else match node_at l p with Some x => Some x | None => node_at r p end
  end.

Fixpoint tree_size t : nat :=
  match t with Leaf => O | Node _ _ l _ r => S (tree_size l + tree_size r) end.

(** The [do] loop of [find_ancestor_of_hand] climbs parent links; [fuel] bounds
    the number of steps.  [Some None] is [INVALID_ADDRESS]. *)
Fixpoint find_ancestor_of_hand (fuel : nat) t h (hand : side) : option (option (tree A)) :=
  match fuel with
  | O => None
  | S fuel' =>
      let p := parent h in
      if p =? 0 then Some None
      else
        pn ← node_at t p;
        if node_addr (child pn (other hand)) =? node_addr h then Some (Some pn)
        else find_ancestor_of_hand fuel' t pn hand
  end.

Definition get_adjacent_inorder t h (hand : side) : option (option (tree A)) :=
  let hh := child h hand in
  if negb (is_null hh)
  then x ← find_limit hh (match hand with left => true | right => false end); Some (Some x)
  else find_ancestor_of_hand (tree_size t) t h hand.

Definition rbnode_get_prev t h := get_adjacent_inorder t h left.
Definition rbnode_get_next t h := get_adjacent_inorder t h right.

Fixpoint lookup_node h k : option (tree A) :=
  match h with
  | Leaf => None
  | Node _ _ l a r =>
      let d := key_compare k a in
      if d =? 0 then Some h
      else if d <? 0 then lookup_node l k else lookup_node r k
  end.

Fixpoint max_lte_internal h k : option (tree A) :=
  match h with
  | Leaf => None
  | Node _ _ l a r =>
      let d := key_compare k a in
      if d =? 0 then Some h
      else if 0 <? d then
        match r with
        | Leaf => Some h
        | _ =>
            match max_lte_internal r k with
            | None => Some h
            | Some next =>
                match next with
                | Leaf => Some h
                | Node _ _ _ b _ => if 0 <? key_compare b k then Some h else Some next
                end
            end
        end
      else match l with Leaf => None | _ => max_lte_internal l k end
  end.

Definition check_move_red h (hand : side) : option (tree A) :=
  let oh := other hand in
  let hh := child h hand in
  if is_null hh || (is_black hh && is_black_or_null (child hh left)) then
    h ← color_flip h;
    let ho := child h oh in
    if is_null ho || is_black_or_null (child ho left) then Some h
    else
      h ← (match hand with
           | left => x ← rotate right (child h right); Some (set_child h right x)
           | right => Some h
           end);
      h ← rotate hand h;
      color_flip h
  else Some h.

Definition fix_up h : option (tree A) :=
  h ← (if is_black_or_null (child h left) && is_red (child h right)
       then rotate left h else Some h);
  h ← (if is_red (child h left) && is_red (child (child h left) left)
       then rotate right h else Some h);
  if is_red (child h left) && is_red (child h right) then color_flip h else Some h.

(** The second component is [*removed]. *)
Fixpoint remove_min (fuel : nat) h : option (tree A * tree A) :=
  match fuel with
  | O => None
  | S fuel' =>
      if is_null (child h left) then Some (Leaf, h)
      else
        h ← check_move_red h left;
        '(l, removed) ← remove_min fuel' (child h left);
        h ← fix_up (set_child h left l);
        Some (h, removed)
  end.

Definition compare_nodes k h : Z :=
  match h with Leaf => 0 | Node _ _ _ a _ => key_compare k a end.

(** The boolean is [*result].  The store into the parent's child link just
    before the last [fix_up] is the one the caller makes with the returned
    pointer. *)
Fixpoint remove_internal (fuel : nat) h k (result : bool) : option (tree A * bool) :=
  match fuel with
  | O => None
  | S fuel' =>
  if is_null h then Some (h, result)
  else
    let d := compare_nodes k h in
    if d <? 0 then
      if is_null (child h left) then Some (h, result)
      else
        h ← check_move_red h left;
        '(l, result) ← remove_internal fuel' (child h left) k result;
        h ← fix_up (set_child h left l);
        Some (h, result)
    else if (0 <? d) && is_null (child h right) then Some (h, result)
    else
      h ← (if is_red (child h left) then rotate right h else Some h);
      _ ← kassert (negb (is_null h));
      let d := compare_nodes k h in
      if (d =? 0) && is_leaf h then Some (Leaf, true)
      else
        h ← check_move_red h right;
        _ ← kassert (negb (is_null h));
        let d := compare_nodes k h in
        if negb (d =? 0) then
          if is_null (child h right) then Some (h, result)
          else
            '(r, result) ← remove_internal fuel' (child h right) k result;
            h ← fix_up (set_child h right r);
            Some (h, result)
        else
          _ ← kassert (negb (is_null (child h right)));
          '(rnew, rmin) ← remove_min fuel' (child h right);
          _ ← kassert (negb (is_null rmin));
          let rnew := set_parent rnew (node_addr rmin) in
          let rmin := set_parent_and_color rmin (parent h) (get_color h) in
          _ ← kassert (is_null (child rmin left));
          let hl := set_parent (child h left) (node_addr rmin) in
          let rmin := set_child rmin left hl in
          let rmin := set_child rmin right rnew in
          h ← fix_up rmin;
          Some (h, true)
  end.

Fixpoint insert_node_internal h n (result : bool) : option (tree A * bool) :=
  match h, n with
  | Node c p l a r, Node _ _ _ b _ =>
      let d := key_compare b a in
      '(h, result) ←
        (if negb (d =? 0) then
           if d <? 0 then
             match l with
             | Leaf => Some (Node c p (set_parent n (addr a)) a r, true)
             | _ => '(l, result) ← insert_node_internal l n result; Some (Node c p l a r, result)
             end
           else
             match r with
             | Leaf => Some (Node c p l a (set_parent n (addr a)), true)
             | _ => '(r, result) ← insert_node_internal r n result; Some (Node c p l a r, result)
             end
         else Some (h, result));
      h ← fix_up h;
      Some (h, result)
  | _, _ => None
  end.

Record rbtree := { root : tree A; count : Z }.

Definition init_rbtree : rbtree := {| root := Leaf; count := 0 |}.

Definition init_rbnode a : tree A := Node black 0 Leaf a Leaf.

Definition rbtree_find_first (t : rbtree) : option (option (tree A)) :=
  match root t with
  | Leaf => Some None
  | h => x ← find_limit h false; Some (Some x)
  end.

Definition rbtree_lookup (t : rbtree) k : option (tree A) := lookup_node (root t) k.

Definition rbtree_lookup_max_lte (t : rbtree) k : option (tree A) :=
  match root t with Leaf => None | h => max_lte_internal h k end.

Definition rbtree_insert_node (t : rbtree) n : option (rbtree * bool) :=
  '(r, result) ←
    (match root t with
     | Leaf => Some (n, true)
     | h => insert_node_internal h (set_color n red) false
     end);
  let r := set_color r black in
  Some ({| root := r; count := if (result : bool) then u64 (count t + 1) else count t |}, result).

Definition rbtree_remove_by_key (t : rbtree) k : option (rbtree * bool) :=
  '(r, result) ← remove_internal (S (tree_size (root t))) (root t) k false;
  let r := if is_null r then r else set_color r black in
  if (result : bool) then
    _ ← kassert (0 <? count t);
    Some ({| root := r; count := count t - 1 |}, true)
  else Some ({| root := r; count := count t |}, false).

Definition rbtree_remove_node (t : rbtree) k : option rbtree :=
  '(t, result) ← rbtree_remove_by_key t k;
  _ ← kassert result;
  Some t.

Definition rbtree_get_count (t : rbtree) : Z := count t.

(** Traversals thread the state [S] of the handler closure; the boolean is the
    handler's verdict, [false] stops the walk. *)
Section Traverse.
Context {S : Type} (rh : S -> tree A -> option (S * bool)).

Fixpoint traverse_inorder n (s : S) : option (S * bool) :=
  match n with
  | Leaf => Some (s, true)
  | Node _ _ l _ r =>
      '(s, ok) ← traverse_inorder l s;
      if negb ok then Some (s, false)
      else
        '(s, ok) ← rh s n;
        if negb ok then Some (s, false) else traverse_inorder r s
  end.

Fixpoint traverse_preorder n (s : S) : option (S * bool) :=
  match n with
  | Leaf => Some (s, true)
  | Node _ _ l _ r =>
      '(s, ok) ← rh s n;
      if negb ok then Some (s, false)
      else
        '(s, ok) ← traverse_preorder l s;
        if negb ok then Some (s, false) else traverse_preorder r s
  end.

Fixpoint traverse_postorder n (s : S) : option (S * bool) :=
  match n with
  | Leaf => Some (s, true)
  | Node _ _ l _ r =>
      '(s, ok) ← traverse_postorder l s;
      if negb ok then Some (s, false)
      else
        '(s, ok) ← traverse_postorder r s;
        if negb ok then Some (s, false) else rh s n
  end.

Definition rbtree_traverse (t : rbtree) (order : traversal) (s : S) : option (S * bool) :=
  match order with
  | RB_INORDER => traverse_inorder (root t) s
  | RB_PREORDER => traverse_preorder (root t) s
  | RB_POSTORDER => traverse_postorder (root t) s
  end.

(** The destructor walks the nodes in post-order and drops the root; the count
    is left as it is. *)
Definition destruct_rbtree (t : rbtree) (s : S) : option (rbtree * S) :=
  '(s, _) ← rbtree_traverse t RB_POSTORDER s;
  Some ({| root := Leaf; count := count t |}, s).
End Traverse.

Definition parent_child_check p (hand : side) : status :=
  let c := child p hand in
  if is_null c then STATUS_OK
  else if negb (parent c =? node_addr p) then parent_mismatch
  else if is_red p && is_red c then consecutive_red
  else STATUS_OK.

(** The last component is [*black_count]. *)
Fixpoint validate_tree_invariants n (black_links black_count : Z) : status * Z :=
  match n with
  | Leaf => (STATUS_OK, black_count)
  | Node _ _ nl _ nr =>
      if is_null nl && is_null nr then
        if negb (black_count =? infinity) then
          if negb (black_count =? black_links) then (black_count_mismatch, black_count)
          else (STATUS_OK, black_count)
        else (STATUS_OK, black_links)
      else if is_black_or_null nl && (negb (is_null nr) && is_red nr)
      then (right_leaning, black_count)
      else
        match parent_child_check n left with
        | STATUS_OK =>
            match parent_child_check n right with
            | STATUS_OK =>
                let links x := u64 (black_links + if is_black x then 1 else 0) in
                let '(s, black_count) :=
                  if is_null nl then (STATUS_OK, black_count)
                  else validate_tree_invariants nl (links nl) black_count in
                match s with
                | STATUS_OK =>
                    if is_null nr then (s, black_count)
                    else validate_tree_invariants nr (links nr) black_count
                | _ => (s, black_count)
                end
            | s => (s, black_count)
            end
        | s => (s, black_count)
        end
  end.

(** Pointer equality with an adjacent node, which may be [INVALID_ADDRESS]. *)
Definition same_node (o : option (tree A)) h : bool :=
  match o with None => false | Some x => node_addr x =? node_addr h end.

Definition test_inorder_node t (st : tree A * status) n : option (tree A * status * bool) :=
  let '(last, result) := st in
  if negb (is_null last) then
    prev ← rbnode_get_prev t n;
    if negb (same_node prev last) then Some (last, prev_mismatch, false)
    else
      next ← rbnode_get_next t last;
      if negb (same_node next n) then Some (last, next_mismatch, false)
      else Some (n, result, true)
  else
    prev ← rbnode_get_prev t n;
    match prev with
    | Some _ => Some (last, first_has_prev, false)
    | None => Some (n, result, true)
    end.

Definition test_inorder (t : rbtree) : option status :=
  '(last, result, _) ← rbtree_traverse (test_inorder_node (root t)) t RB_INORDER (Leaf, STATUS_OK);
  match result with
  | STATUS_OK =>
      if is_null last then Some result
      else
        next ← rbnode_get_next (root t) last;
        match next with Some _ => Some last_has_next | None => Some result end
  | _ => Some result
  end.

Definition rbtree_validate (t : rbtree) : option status :=
  match validate_tree_invariants (root t) 0 infinity with
  | (STATUS_OK, _) => test_inorder t
  | (s, _) => Some s
  end.

End Code.

(** ** In-order contents *)

Section Contents.
Context {A : Type} `{KeyCompare A}.
Implicit Types (h n t x : tree A) (a k : A).

Fixpoint inorder t : list A :=
  match t with Leaf => [] | Node _ _ l a r => inorder l ++ a :: inorder r end.

Lemma tree_size_inorder t : tree_size t = length (inorder t).
Proof. induction t; simpl; rewrite ?length_app; simpl; lia. Qed.

Lemma inorder_set_parent t p : inorder (set_parent t p) = inorder t.
Proof. by destruct t. Qed.

Lemma inorder_invert_color t : inorder (invert_color t) = inorder t.
Proof. by destruct t. Qed.

Lemma inorder_set_color t c : inorder (set_color t c) = inorder t.
Proof. by destruct t. Qed.

Lemma rotate_inorder hand h x : rotate hand h = Some x -> inorder x = inorder h.
Proof.
  destruct h as [|c p l a r], hand; simpl; try done;
    [destruct r as [|? ? rl ? ?]; [done|] | destruct l as [|? ? ? ? lr]; [done|]];
    intros [= <-]; simpl; by rewrite inorder_set_parent, <- app_assoc.
Qed.

Lemma color_flip_inorder h x : color_flip h = Some x -> inorder x = inorder h.
Proof.
  destruct h as [|c p [|] a [|]]; simpl; try done; by intros [= <-].
Qed.

Lemma fix_up_inorder h x : fix_up h = Some x -> inorder x = inorder h.
Proof.
  unfold fix_up. intros Hx. inv_bind.
  transitivity (inorder v0); [case_match; simplify_some; eauto using color_flip_inorder|].
  transitivity (inorder v); repeat case_match; simplify_some; eauto using rotate_inorder.
Qed.

Lemma inorder_set_child h i x :
  inorder x = inorder (child h i) -> inorder (set_child h i x) = inorder h.
Proof. destruct h, i; simpl; congruence. Qed.

Lemma check_move_red_inorder h hand x :
  check_move_red h hand = Some x -> inorder x = inorder h.
Proof.
  unfold check_move_red. intros Hx. case_match; [|by simplify_some].
  inv_bind. erewrite <- (color_flip_inorder h) by eassumption.
  case_match; [by simplify_some|]. inv_bind.
  rewrite (color_flip_inorder _ _ Hx), (rotate_inorder _ _ _ E1).
  destruct hand; inv_bind; [|done].
  apply inorder_set_child. eauto using rotate_inorder.
Qed.

Definition elt_of h : list A := match h with Leaf => [] | Node _ _ _ a _ => [a] end.

Lemma inorder_split h : inorder h = inorder (child h left) ++ elt_of h ++ inorder (child h right).
Proof. by destruct h. Qed.

End Contents.

(** ** Balance *)

(** [llrb t c n]: [t] is a left-leaning red-black tree with root colour [c] and
    [n] black nodes on every path: no right child is red and no red node has a
    red child (the invariants [validate_tree_invariants] tests). *)
Inductive llrb {A} : tree A -> color -> nat -> Prop :=
| llrb_leaf : llrb Leaf black 0
| llrb_red p l a r n :
    llrb l black n -> llrb r black n -> llrb (Node red p l a r) red n
| llrb_black p l a r c n :
    llrb l c n -> llrb r black n -> llrb (Node black p l a r) black (S n).

#[export] Hint Constructors llrb : kernel.

Section Balance.
Context {A : Type} `{KeyCompare A}.
Implicit Types (h t x : tree A) (a k : A).

Definition both_red (c1 c2 : color) : color :=
  match c1, c2 with red, red => red | _, _ => black end.

Lemma llrb_color t c n : llrb t c n -> get_color t = c.
Proof. by destruct 1. Qed.

Lemma llrb_is_red t c n : llrb t c n -> is_red t = match c with red => true | black => false end.
Proof. by destruct 1. Qed.

Lemma llrb_set_parent t p c n : llrb t c n -> llrb (set_parent t p) c n.
Proof. destruct 1; simpl; eauto with kernel. Qed.

Lemma llrb_blacken t c n : llrb t c n -> exists m, llrb (set_color t black) black m.
Proof. destruct 1; simpl; eauto with kernel. Qed.

Hint Resolve llrb_set_parent : kernel.

Ltac invert_llrb :=
  repeat match goal with
  | H : llrb Leaf _ _ |- _ => inversion H; clear H; subst
  | H : llrb (Node _ _ _ _ _) _ _ |- _ => inversion H; clear H; subst
  | H : llrb _ _ O |- _ => inversion H; clear H; subst
  | H : llrb _ red _ |- _ => inversion H; clear H; subst
  | H : llrb _ black (S _) |- _ => inversion H; clear H; subst
  end.

Ltac solve_llrb := simpl; repeat econstructor; eauto with kernel.

Lemma is_red_set_parent t p : is_red (set_parent t p) = is_red t.
Proof. by destruct t. Qed.

(** Evaluate colour tests on subtrees whose colour is known. *)
Ltac red_simpl :=
  unfold is_black_or_null;
  repeat (simpl; rewrite ?is_red_set_parent;
    match goal with
    | H : llrb ?t ?c ?n |- context [is_red ?t] => rewrite (llrb_is_red t c n H)
    end); simpl.

Lemma fix_up_black p l a r cl cr n :
  llrb l cl n -> llrb r cr n ->
  exists h, fix_up (Node black p l a r) = Some h /\ llrb h (both_red cl cr) (S n).
Proof.
  intros Hl Hr. unfold fix_up.
  destruct cr, cl; try (inversion Hl; subst; []); try (inversion Hr; subst; []);
    red_simpl; eexists; (split; [done|]); solve_llrb.
Qed.

(** Breaking up two consecutive red links on the left spine. *)
Lemma fix_up_black_rr p pl ll la lr a r n :
  llrb ll red n -> llrb lr black n -> llrb r black n ->
  exists h, fix_up (Node black p (Node red pl ll la lr) a r) = Some h /\ llrb h red (S n).
Proof.
  intros Hll Hlr Hr. unfold fix_up. red_simpl.
  inversion Hll; subst. eexists; split; [done|]. solve_llrb.
Qed.

Lemma fix_up_red p l a r n :
  llrb l black n -> llrb r black n ->
  fix_up (Node red p l a r) = Some (Node red p l a r).
Proof. intros Hl Hr. unfold fix_up. by red_simpl. Qed.

(** A red node one of whose children became red by an insertion below it. *)
Lemma fix_up_red_one p l a r cl cr n :
  llrb l cl n -> llrb r cr n -> both_red cl cr = black ->
  exists p' l' a' r' c, fix_up (Node red p l a r) = Some (Node red p' l' a' r') /\
    llrb l' c n /\ llrb r' black n.
Proof.
  intros Hl Hr Hc. unfold fix_up.
  destruct cl, cr; try done; try (inversion Hl; subst; []); try (inversion Hr; subst; []);
    red_simpl; do 5 eexists; (split; [done|]); split; solve_llrb.
Qed.

(** What [insert_node_internal] returns for a subtree of colour [c]. *)
Definition inserted (h : tree A) (c : color) (n : nat) : Prop :=
  match c with
  | black => exists c', llrb h c' n
  | red => exists p l a r c', h = Node red p l a r /\ llrb l c' n /\ llrb r black n
  end.

(** Insertion below [a] in the subtree [s]: link the new node or recurse. *)
Definition insert_below s (b a : A) (res : bool) : option (tree A * bool) :=
  match s with
  | Leaf => Some (Node red (addr a) Leaf b Leaf, true)
  | _ => insert_node_internal s (Node red 0 Leaf b Leaf) res
  end.

Lemma insert_node_internal_below c p l a r b res :
  insert_node_internal (Node c p l a r) (Node red 0 Leaf b Leaf) res =
  '(h, res) ← (let d := key_compare b a in
    if d =? 0 then Some (Node c p l a r, res)
    else if d <? 0
    then '(l, res) ← insert_below l b a res; Some (Node c p l a r, res)
    else '(r, res) ← insert_below r b a res; Some (Node c p l a r, res));
  h ← fix_up h; Some (h, res).
Proof. simpl. destruct (_ =? 0), (_ <? 0), l, r; reflexivity. Qed.

Lemma fix_up_inserted c p l a r cl cr n :
  llrb l cl n -> llrb r cr n -> (c = red -> both_red cl cr = black) ->
  exists h, fix_up (Node c p l a r) = Some h /\
    inserted h c (match c with red => n | black => S n end).
Proof.
  intros Hl Hr Hc. destruct c; simpl.
  - destruct (fix_up_black p l a r cl cr n) as (h & ? & ?); eauto.
  - destruct (fix_up_red_one p l a r cl cr n) as (p' & l' & a' & r' & c & ? & ? & ?); eauto 12.
Qed.

(** The left child of a black node may come back with a red left child. *)
Lemma fix_up_inserted_left p l cl a r n :
  inserted l cl n -> llrb r black n ->
  exists h, fix_up (Node black p l a r) = Some h /\ inserted h black (S n).
Proof.
  intros Hl Hr. destruct cl; simpl in Hl.
  - destruct Hl as [c Hl]. by apply (fix_up_inserted black p l a r c black n).
  - destruct Hl as (p' & l' & a' & r' & [] & -> & Hl' & Hr').
    + apply (fix_up_inserted black _ _ _ _ red black n); solve_llrb.
    + destruct (fix_up_black_rr p p' l' a' r' a r n) as (h & ? & ?); eauto.
      exists h. split; [done|]. by exists red.
Qed.

Lemma insert_node_internal_llrb h c n b res :
  llrb h c n -> h <> Leaf ->
  exists h' res', insert_node_internal h (Node red 0 Leaf b Leaf) res = Some (h', res') /\
    inserted h' c n.
Proof.
  intros Hh. revert res.
  assert (Hbelow : forall s c n, llrb s c n ->
    (s <> Leaf -> forall res, exists h' res',
       insert_node_internal s (Node red 0 Leaf b Leaf) res = Some (h', res') /\
       inserted h' c n) ->
    forall a res, exists h' res', insert_below s b a res = Some (h', res') /\ inserted h' c n).
  { intros [|] ? ? Hs IH a0 res; [|by apply IH].
    inversion Hs; subst. do 2 eexists; split; [done|]. exists red. solve_llrb. }
  induction Hh as [|p l a r n Hl IHl Hr IHr|p l a r cl n Hl IHl Hr IHr]; intros res Hne;
    [done| |]; rewrite insert_node_internal_below; simpl.
  all: destruct (_ =? 0); [|destruct (_ <? 0)]; simpl.
  - destruct (fix_up_inserted red p l a r black black n) as (h & -> & ?); simpl; eauto.
  - destruct (Hbelow l black n Hl (fun H res => IHl res H) a res) as (l' & res' & -> & c' & ?).
    simpl. destruct (fix_up_inserted red p l' a r c' black n) as (h & -> & ?); simpl; eauto; by destruct c'.
  - destruct (Hbelow r black n Hr (fun H res => IHr res H) a res) as (r' & res' & -> & c' & ?).
    simpl. destruct (fix_up_inserted red p l a r' black c' n) as (h & -> & ?); simpl; eauto.
  - destruct (fix_up_inserted black p l a r cl black n) as (h & -> & ?); simpl; eauto; done.
  - destruct (Hbelow l cl n Hl (fun H res => IHl res H) a res) as (l' & res' & -> & Hi).
    simpl. destruct (fix_up_inserted_left p l' cl a r n) as (h & -> & ?); simpl; eauto.
  - destruct (Hbelow r black n Hr (fun H res => IHr res H) a res) as (r' & res' & -> & c' & ?).
    simpl. destruct (fix_up_inserted black p l a r' cl c' n) as (h & -> & ?); simpl; eauto; done.
Qed.

End Balance.

(** ** The order on keys *)

Section Order.
Context {A : Type} `{KeyOrder A}.
Implicit Types a b k : A.

Definition key_lt a b : Prop := key_compare a b < 0.

#[global] Instance key_lt_trans : Transitive key_lt.
Proof.
  unfold key_lt. intros a b c Hab Hbc.
  pose proof (key_compare_trans a b c). pose proof (key_compare_trans b c a).
  pose proof (key_compare_opp a b). pose proof (key_compare_opp b c).
  pose proof (key_compare_opp c a). lia.
Qed.

Lemma key_compare_refl a : key_compare a a = 0.
Proof. pose proof (key_compare_opp a a). lia. Qed.

Lemma key_compare_lt_trans k a b : key_compare k a <= 0 -> key_lt a b -> key_compare k b < 0.
Proof.
  unfold key_lt. intros Hka Hab.
  pose proof (key_compare_trans b k a). pose proof (key_compare_trans k a b).
  pose proof (key_compare_opp a b). pose proof (key_compare_opp k b). lia.
Qed.

Lemma key_compare_gt_trans k a b : 0 <= key_compare k b -> key_lt a b -> 0 < key_compare k a.
Proof.
  unfold key_lt. intros Hka Hab.
  pose proof (key_compare_trans b k a). pose proof (key_compare_opp a b).
  pose proof (key_compare_opp k b). lia.
Qed.

End Order.

(** ** Removal keeps the balance *)

Section Removal.
Context {A : Type} `{KeyOrder A}.
Implicit Types (h t x l r : tree A) (a k : A).

(** The subtrees the descent visits: red, or a 3-node. *)
Inductive ready : tree A -> color -> nat -> Prop :=
| ready_red h n : llrb h red n -> ready h red n
| ready_3node p l a r n :
    llrb l red n -> llrb r black n -> ready (Node black p l a r) black (S n).

(** On the way to a key [k] that is not below the node, also a 3-node leaning
    to the right, which [check_move_red] leaves after its rotation. *)
Inductive removable (k : A) : tree A -> color -> nat -> Prop :=
| removable_ready h c n : ready h c n -> removable k h c n
| removable_right p l a r n :
    llrb l black n -> llrb r red n -> 0 <= key_compare k a ->
    removable k (Node black p l a r) black (S n).

(** What removal returns for a subtree of colour [c]. *)
Definition removed h (c : color) (n : nat) : Prop :=
  match c with red => exists c', llrb h c' n | black => llrb h black n end.

#[local] Hint Constructors ready removable : kernel.
#[local] Hint Resolve llrb_set_parent : kernel.

Ltac solve_llrb := simpl; repeat econstructor; eauto with kernel.

Ltac solve_ready :=
  try apply removable_ready;
  first [solve [apply ready_3node; solve_llrb] | solve [apply ready_red; solve_llrb]].

Ltac red_simpl :=
  unfold is_black_or_null;
  repeat (simpl; rewrite ?is_red_set_parent;
    match goal with
    | H : llrb ?t ?c ?n |- context [is_red ?t] => rewrite (llrb_is_red t c n H)
    end); simpl.

Lemma removed_set_parent h c n p : removed h c n -> removed (set_parent h p) c n.
Proof. destruct c; simpl; [apply llrb_set_parent|]. intros [c' ?]. exists c'. by apply llrb_set_parent. Qed.

Lemma removed_inv h c n : removed h c n -> exists c', llrb h c' n /\ (c = black -> c' = black).
Proof. destruct c; simpl; [eauto|]. intros [c' ?]. by exists c'. Qed.

Lemma fix_up_black_removed p l a r cl cr n c :
  llrb l cl n -> llrb r cr n -> (c = black -> both_red cl cr = black) ->
  exists h, fix_up (Node black p l a r) = Some h /\ removed h c (S n).
Proof.
  intros Hl Hr Hc. destruct (fix_up_black p l a r cl cr n) as (h & ? & Hh); [done..|].
  exists h. split; [done|]. destruct c; [|by exists (both_red cl cr)].
  by rewrite Hc in Hh.
Qed.

Lemma fix_up_red_removed p l a r n :
  llrb l black n -> llrb r black n ->
  exists h, fix_up (Node red p l a r) = Some h /\ removed h red n.
Proof.
  intros Hl Hr. rewrite (fix_up_red _ _ _ _ n) by done. eexists; split; [done|].
  exists red. solve_llrb.
Qed.

Arguments removed : simpl never.

Lemma check_move_red_left h c n :
  ready h c n -> child h left <> Leaf ->
  exists c' p l a r cl nl, check_move_red h left = Some (Node c' p l a r) /\
    a ∈ elt_of h ++ inorder (child h right) /\ ready l cl nl /\
    forall l', removed l' cl nl ->
      exists h', fix_up (Node c' p l' a r) = Some h' /\ removed h' c n.
Proof.
  destruct 1 as [h n Hh|p l a r n Hl Hr]; intros Hne; unfold check_move_red.
  2: { inversion Hl; subst. do 7 eexists. split; [done|]. split; [by left|]. split; [solve_ready|].
       intros l' (c' & ? & _)%removed_inv. apply (fix_up_black_removed _ _ _ _ c' black); [done..|].
       by destruct c'. }
  inversion Hh as [|p l a r n' Hl Hr|]; subst. simpl in *.
  inversion Hl as [| |pl ll la lr cll m Hll Hlr]; subst; [done|].
  inversion Hr as [| |pr rl ra rr crl m' Hrl Hrr]; subst.
  destruct cll; red_simpl.
  2: { do 7 eexists. split; [done|]. split; [by left|]. split; [solve_ready|]. intros l' Hl'.
       by apply fix_up_red_removed. }
  destruct crl; red_simpl.
  - do 7 eexists. split; [done|]. split; [by left|]. split; [solve_ready|].
    intros l' (c' & ? & _)%removed_inv. eapply fix_up_black_removed; [done|solve_llrb|done].
  - inversion Hrl; subst. simpl. do 7 eexists. split; [done|].
    split; [rewrite !elem_of_cons, !elem_of_app, !elem_of_cons; tauto|]. split; [solve_ready|].
    intros l' Hl'. apply fix_up_red_removed; [done|solve_llrb].
Qed.

Lemma remove_min_llrb fuel h c n :
  ready h c n -> (tree_size h < fuel)%nat ->
  exists h' p a, remove_min fuel h = Some (h', Node red p Leaf a Leaf) /\ removed h' c n.
Proof.
  revert h c n. induction fuel as [|fuel IH]; intros h c n Hh Hf; [lia|]. simpl.
  destruct (child h left) as [|lc lp ll la lr] eqn:El; simpl.
  - destruct Hh as [h n Hh|]; simpl in El; subst; [|inversion H1].
    inversion Hh; subst. simpl in El; subst. inversion H1; subst.
    inversion H2; subst. do 3 eexists. split; [done|]. by exists black; constructor.
  - destruct (check_move_red_left h c n) as (c' & p & l & a & r & cl & nl & E & _ & Hl & Hup);
      [done|by rewrite El|].
    rewrite E; simpl. pose proof (check_move_red_inorder _ _ _ E) as Hin.
    destruct (IH l cl nl Hl) as (l' & pm & m & -> & Hl').
    { apply (f_equal length) in Hin. rewrite <- !tree_size_inorder in Hin. simpl in Hin. lia. }
    destruct (Hup l' Hl') as (h' & E' & Hh'). simpl. rewrite E'. simpl. eauto 8.
Qed.

Ltac solve_move :=
  do 9 eexists; split; [done|]; split; [simpl in *; lia|]; split; [solve_ready|];
  split; [intros _; solve_ready|]; split; [done|]; split; [solve_llrb|]; intros.

Ltac invert_removed :=
  match goal with Hr : removed _ _ _ |- _ => apply removed_inv in Hr as (? & ? & ?) end.

(** Descending to the right from a subtree whose key is not above [k]. *)
Lemma check_move_red_right k h c n :
  removable k h c n -> 0 <= compare_nodes k h -> ~ (0 < compare_nodes k h /\ child h right = Leaf) ->
  (forall hc p l a r, h = Node hc p l a r -> forall b, b ∈ elt_of l -> key_lt b a) ->
  exists h1, (if is_red (child h left) then rotate right h else Some h) = Some h1 /\
    is_null h1 = false /\
    if is_leaf h1 then h1 = h /\ compare_nodes k h = 0 /\ removed Leaf c n
    else exists c' p l a r cl nl cr nr, check_move_red h1 right = Some (Node c' p l a r) /\
      0 <= key_compare k a /\ removable k r cr nr /\ (key_compare k a = 0 -> ready r cr nr) /\ r <> Leaf /\
      llrb l cl nl /\
      forall p l' a r', llrb l' cl nl -> removed r' cr nr ->
        exists h', fix_up (Node c' p l' a r') = Some h' /\ removed h' c n.
Proof.
  intros Hh Hd Hend Hord.
  assert (Hlow : forall b, b ∈ elt_of (child h left) -> 0 < key_compare k b).
  { intros b Hb. destruct h as [|hc hp hl ha hr]; [by apply not_elem_of_nil in Hb|].
    eapply key_compare_gt_trans; [exact Hd|]. by eapply Hord. }
  clear Hord. unfold check_move_red.
  destruct Hh as [h c n [h' n' Hred|p l a r m Hl Hr]|p l a r m Hl Hr Hka].
  - inversion Hred as [|p l a r n'' Hl Hr|]; subst. red_simpl.
    eexists. split; [done|]. split; [done|].
    destruct n' as [|m].
    + inversion Hl; inversion Hr; subst; simpl in *. split; [done|].
      split; [|by exists black; constructor]. destruct (Z.eq_dec (key_compare k a) 0); [done|].
      exfalso. apply Hend. split; [lia|done].
    + inversion Hl as [| |pl ll la lr cll m' Hll Hlr]; subst.
      inversion Hr as [| |pr rl ra rr crl m'' Hrl Hrr]; subst.
      specialize (Hlow la ltac:(by left)).
      destruct crl; red_simpl; [destruct cll; red_simpl|].
      * solve_move. invert_removed. by eapply fix_up_black_removed.
      * inversion Hll; subst; simpl. do 9 eexists. split; [done|]. split; [lia|].
        split; [apply removable_right; [solve_llrb..|done]|]. split; [lia|].
        split; [done|]. split; [solve_llrb|]. intros. by apply fix_up_red_removed.
      * solve_move. by apply fix_up_red_removed.
  - inversion Hl; subst. red_simpl. eexists. split; [done|]. split; [done|].
    unfold is_leaf. red_simpl. rewrite andb_false_r. specialize (Hlow _ ltac:(by left)).
    solve_move. invert_removed. by eapply fix_up_black_removed.
  - inversion Hr; subst. red_simpl. eexists. split; [done|]. split; [done|].
    unfold is_leaf. red_simpl. rewrite andb_false_r. solve_move. invert_removed. by eapply fix_up_black_removed.
Qed.

Lemma ready_removed h c n : ready h c n -> removed h c n.
Proof. intros []; [by exists red|by eapply llrb_black]. Qed.

End Removal.

(** ** Sorted contents *)

Section Sorted.
Context {A : Type} `{KeyOrder A}.
Implicit Types (a b k : A) (l : list A).

Definition sorted l : Prop := StronglySorted key_lt l.

(** The abstract dictionary the tree implements: a sorted list of elements. *)
Definition remove_key k l : list A := filter (fun x => key_compare k x <> 0) l.
Definition has_key k l : bool := existsb (fun x => key_compare k x =? 0) l.

Fixpoint insert_sorted b l : list A :=
  match l with
  | [] => [b]
  | x :: l' =>
      if key_compare b x <? 0 then b :: l
      else if key_compare b x =? 0 then l
      else x :: insert_sorted b l'
  end.

Lemma sorted_mid l1 a l2 :
  sorted (l1 ++ a :: l2) <->
  sorted l1 /\ sorted l2 /\ Forall (fun x => key_lt x a) l1 /\ Forall (key_lt a) l2.
Proof.
  unfold sorted. induction l1 as [|x l1 IH]; simpl.
  - rewrite StronglySorted_cons, Forall_nil. intuition constructor.
  - rewrite !StronglySorted_cons, IH, Forall_cons, Forall_app, Forall_cons.
    split; [intuition|]. intros ((Hx & Hl1) & Hl2 & (Hxa & Hf) & Ha).
    repeat split; try done. eapply Forall_impl; [exact Ha|]. intros y Hy. by trans a.
Qed.

Lemma remove_key_app k l1 l2 : remove_key k (l1 ++ l2) = remove_key k l1 ++ remove_key k l2.
Proof. apply filter_app. Qed.

Lemma has_key_app k l1 l2 : has_key k (l1 ++ l2) = has_key k l1 || has_key k l2.
Proof. apply existsb_app. Qed.

Lemma has_key_true k l : has_key k l = true <-> exists x, x ∈ l /\ key_compare k x = 0.
Proof.
  unfold has_key. rewrite existsb_exists.
  split; intros (x & Hx & E); exists x.
  - rewrite list_elem_of_In. split; [done|]. by apply Z.eqb_eq.
  - rewrite <- list_elem_of_In. split; [done|]. by apply Z.eqb_eq.
Qed.

Lemma remove_key_absent k l :
  Forall (fun x => key_compare k x <> 0) l -> remove_key k l = l /\ has_key k l = false.
Proof.
  induction 1 as [|x l Hx Hl [IH1 IH2]]; [done|]. split.
  - unfold remove_key. rewrite filter_cons_True by done. f_equal. exact IH1.
  - simpl. rewrite IH2. apply Z.eqb_neq in Hx. by rewrite Hx.
Qed.

Lemma remove_key_above k a l :
  key_compare k a <= 0 -> Forall (key_lt a) l -> remove_key k l = l /\ has_key k l = false.
Proof.
  intros Hk Hl. apply remove_key_absent. eapply Forall_impl; [exact Hl|].
  intros x Hx. pose proof (key_compare_lt_trans k a x Hk Hx). lia.
Qed.

Lemma remove_key_below k a l :
  0 <= key_compare k a -> Forall (fun x => key_lt x a) l -> remove_key k l = l /\ has_key k l = false.
Proof.
  intros Hk Hl. apply remove_key_absent. eapply Forall_impl; [exact Hl|].
  intros x Hx. simpl in Hx. pose proof (key_compare_gt_trans k x a Hk Hx). lia.
Qed.

(** Removal from a sorted list looks on one side of any pivot. *)
Lemma remove_key_lt k l1 a l2 :
  sorted (l1 ++ a :: l2) -> key_compare k a < 0 ->
  remove_key k (l1 ++ a :: l2) = remove_key k l1 ++ a :: l2 /\
  has_key k (l1 ++ a :: l2) = has_key k l1.
Proof.
  intros (_ & _ & _ & Hl2)%sorted_mid Hk.
  destruct (remove_key_above k a l2 ltac:(lia) Hl2) as [E1 E2].
  rewrite remove_key_app, has_key_app. simpl. rewrite E2, orb_false_r.
  replace (key_compare k a =? 0) with false by (symmetry; apply Z.eqb_neq; lia).
  rewrite orb_false_r. unfold remove_key at 2. rewrite filter_cons_True by lia.
  fold (remove_key k l2). by rewrite E1.
Qed.

Lemma remove_key_gt k l1 a l2 :
  sorted (l1 ++ a :: l2) -> 0 < key_compare k a ->
  remove_key k (l1 ++ a :: l2) = l1 ++ a :: remove_key k l2 /\
  has_key k (l1 ++ a :: l2) = has_key k l2.
Proof.
  intros (_ & _ & Hl1 & _)%sorted_mid Hk.
  destruct (remove_key_below k a l1 ltac:(lia) Hl1) as [E1 E2].
  rewrite remove_key_app, has_key_app. simpl. rewrite E1, E2. simpl.
  replace (key_compare k a =? 0) with false by (symmetry; apply Z.eqb_neq; lia).
  split; [|done]. unfold remove_key at 1. by rewrite filter_cons_True by lia.
Qed.

Lemma remove_key_eq k l1 a l2 :
  sorted (l1 ++ a :: l2) -> key_compare k a = 0 ->
  remove_key k (l1 ++ a :: l2) = l1 ++ l2 /\ has_key k (l1 ++ a :: l2) = true.
Proof.
  intros (_ & _ & Hl1 & Hl2)%sorted_mid Hk.
  destruct (remove_key_below k a l1 ltac:(lia) Hl1) as [E1 E2].
  destruct (remove_key_above k a l2 ltac:(lia) Hl2) as [E3 E4].
  rewrite remove_key_app, has_key_app. simpl. rewrite E1, E2, Hk. split; [|done].
  unfold remove_key. rewrite filter_cons_False by lia. fold (remove_key k l2). by rewrite E3.
Qed.

Lemma insert_sorted_lt b l1 a l2 :
  key_compare b a < 0 -> sorted (l1 ++ a :: l2) ->
  insert_sorted b (l1 ++ a :: l2) = insert_sorted b l1 ++ a :: l2.
Proof.
  intros Hb. induction l1 as [|x l1 IH]; simpl; intros Hs.
  - case_test; [done|lia].
  - apply StronglySorted_cons in Hs as [? ?].
    case_test; [done|]. case_test; [done|]. by rewrite IH.
Qed.

Lemma insert_sorted_ge b l1 a l2 :
  0 <= key_compare b a -> sorted (l1 ++ a :: l2) ->
  insert_sorted b (l1 ++ a :: l2) =
  if key_compare b a =? 0 then l1 ++ a :: l2 else l1 ++ a :: insert_sorted b l2.
Proof.
  intros Hb Hs. induction l1 as [|x l1 IH]; simpl.
  - case_test; [lia|]. by case_test.
  - simpl in Hs. apply StronglySorted_cons in Hs as [Hx Hs].
    assert (key_lt x a).
    { rewrite Forall_forall in Hx. apply Hx. set_solver. }
    pose proof (key_compare_gt_trans b x a Hb ltac:(done)).
    case_test; [lia|]. case_test; [lia|]. rewrite IH by done. by case_test.
Qed.

Lemma insert_sorted_elem b l x :
  x ∈ insert_sorted b l -> x = b \/ x ∈ l.
Proof.
  induction l as [|y l IH]; simpl; [set_solver|]. repeat case_test; rewrite ?elem_of_cons; tauto.
Qed.

Lemma insert_sorted_sorted b l : sorted l -> sorted (insert_sorted b l).
Proof.
  unfold sorted. induction l as [|x l IH]; simpl; intros Hs; [by repeat constructor|].
  pose proof Hs as (Hx & Hl)%StronglySorted_cons.
  case_test; [|case_test; [done|]].
  - apply StronglySorted_cons. split; [|done]. apply Forall_cons. split; [done|].
    eapply Forall_impl; [exact Hx|]. intros y Hy. by trans x.
  - apply StronglySorted_cons. split; [|by apply IH]. apply Forall_forall.
    intros y [->|Hy]%insert_sorted_elem.
    + unfold key_lt. pose proof (key_compare_opp b x). lia.
    + by eapply Forall_forall in Hx.
Qed.

Lemma has_key_insert b l :
  sorted l -> length (insert_sorted b l) = if has_key b l then length l else S (length l).
Proof.
  unfold sorted. induction l as [|x l IH]; simpl; [done|]. intros (Hx & Hl)%StronglySorted_cons.
  case_test; [|case_test].
  - destruct (remove_key_above b x l ltac:(lia) Hx) as [_ ->].
    replace (_ =? 0) with false by (symmetry; apply Z.eqb_neq; lia). done.
  - done.
  - simpl. rewrite IH by done. by destruct (has_key b l).
Qed.

Lemma remove_key_sorted k l : sorted l -> sorted (remove_key k l).
Proof.
  unfold sorted. induction 1 as [|x l Hl IH Hx]; [constructor|]. unfold remove_key.
  destruct (decide (key_compare k x <> 0)).
  - rewrite filter_cons_True by done. constructor; [done|].
    apply Forall_forall. intros y [_ Hy]%list_elem_of_filter. by eapply Forall_forall in Hx.
  - by rewrite filter_cons_False by done.
Qed.

Lemma length_remove_key k l :
  sorted l -> length l = ((if has_key k l then 1 else 0) + length (remove_key k l))%nat.
Proof.
  unfold sorted. induction 1 as [|x l Hl IH Hx]; [done|]. unfold remove_key. simpl.
  destruct (Z.eqb_spec (key_compare k x) 0) as [E|E]; simpl.
  - rewrite filter_cons_False by lia.
    destruct (remove_key_above k x l ltac:(lia) Hx) as [E1 _]. unfold remove_key in E1. by rewrite E1.
  - rewrite filter_cons_True by done. simpl. unfold remove_key in IH. rewrite IH. lia.
Qed.

End Sorted.

(** ** Insertion and removal against the sorted list *)

Section Operations.
Context {A : Type} `{KeyOrder A}.
Implicit Types (h t x l r : tree A) (a b k : A).

Lemma insert_below_inorder c p s a b y q res s' res' :
  (forall res s' res', insert_node_internal s (Node red 0 Leaf b Leaf) res = Some (s', res') ->
     inorder s' = insert_sorted b (inorder s) /\ res' = res || negb (has_key b (inorder s))) ->
  insert_below s b y res = Some (s', res') ->
  inorder (Node c p s' a q) = insert_sorted b (inorder s) ++ a :: inorder q /\
  inorder (Node c p q a s') = inorder q ++ a :: insert_sorted b (inorder s) /\
  res' = res || negb (has_key b (inorder s)).
Proof.
  destruct s as [|sc sp sl sa sr]; intros IH Eb; simpl in Eb.
  - injection Eb as <- <-. simpl. by rewrite orb_true_r.
  - destruct (IH _ _ _ Eb) as [E1 ->]. simpl. by rewrite !E1.
Qed.

Lemma insert_node_internal_inorder h b res h' res' :
  insert_node_internal h (Node red 0 Leaf b Leaf) res = Some (h', res') ->
  sorted (inorder h) ->
  inorder h' = insert_sorted b (inorder h) /\ res' = res || negb (has_key b (inorder h)).
Proof.
  revert res h' res'. induction h as [|c p l IHl a r IHr]; intros res h' res' E Hs; [done|].
  simpl in Hs. rewrite insert_node_internal_below in E. inv_bind.
  match goal with E : fix_up _ = _ |- _ => rewrite (fix_up_inorder _ _ E) end.
  simpl (inorder (Node c p l a r)). pose proof Hs as (Hl & Hr & Hla & Har)%sorted_mid.
  cbv zeta in *.
  destruct (Z.eqb_spec (key_compare b a) 0) as [Ed|Ed]; [|destruct (Z.ltb_spec (key_compare b a) 0)].
  - inv_bind. rewrite insert_sorted_ge, Ed by (done || lia). split; [done|].
    destruct (remove_key_eq b (inorder l) a (inorder r) Hs Ed) as [_ ->]. by rewrite orb_false_r.
  - inv_bind. edestruct (insert_below_inorder c p l a b a r) as (Ein & _ & ->); [by eauto|done|].
    rewrite Ein, insert_sorted_lt by done. split; [done|].
    by destruct (remove_key_lt b (inorder l) a (inorder r) Hs ltac:(lia)) as [_ ->].
  - inv_bind. edestruct (insert_below_inorder c p r a b a l) as (_ & Ein & ->); [by eauto|done|].
    rewrite Ein, insert_sorted_ge by (done || lia). apply Z.eqb_neq in Ed as Ed'. rewrite Ed'.
    split; [done|].
    by destruct (remove_key_gt b (inorder l) a (inorder r) Hs ltac:(lia)) as [_ ->].
Qed.

Lemma remove_min_inorder fuel h h' m :
  remove_min fuel h = Some (h', m) -> is_null (child m left) = true -> child m right = Leaf ->
  inorder h = elt_of m ++ inorder h'.
Proof.
  revert h h' m. induction fuel as [|fuel IH]; intros h h' m E Hm Hmr; [done|]. simpl in E.
  destruct (is_null (child h left)) eqn:El; inv_bind.
  - rewrite inorder_split. rewrite Hmr. by destruct (child m left).
  - match goal with
    | Ec : check_move_red _ _ = _, Em : remove_min _ _ = _, Ef : fix_up _ = _ |- _ =>
        rewrite <- (check_move_red_inorder _ _ _ Ec), (fix_up_inorder _ _ Ef);
        specialize (IH _ _ _ Em Hm Hmr); destruct v as [|c p l a r]; simpl in *
    end.
    + by destruct (elt_of m).
    + by rewrite IH, <- app_assoc.
Qed.

(** What [remove_internal] does to a subtree, for a given fuel. *)
Definition removes fuel k : Prop :=
  forall h res c n, removable k h c n -> (tree_size h < fuel)%nat -> sorted (inorder h) ->
  exists h' res', remove_internal fuel h k res = Some (h', res') /\ removed h' c n /\
    inorder h' = remove_key k (inorder h) /\ res' = res || has_key k (inorder h).

Lemma move_tree_size h s x : check_move_red h s = Some x -> tree_size x = tree_size h.
Proof. intros E%check_move_red_inorder. by rewrite !tree_size_inorder, E. Qed.

Lemma remove_internal_left fuel h k res c n :
  removes fuel k -> ready h c n -> compare_nodes k h < 0 -> child h left <> Leaf ->
  (tree_size h <= fuel)%nat -> sorted (inorder h) ->
  exists h' res', remove_internal (S fuel) h k res = Some (h', res') /\ removed h' c n /\
    inorder h' = remove_key k (inorder h) /\ res' = res || has_key k (inorder h).
Proof.
  intros IH Hh Hd Hl0 Hf Hs. simpl.
  destruct h as [|hc hp hl ha hr]; [done|]. set (h := Node hc hp hl ha hr) in *.
  destruct (Z.ltb_spec (compare_nodes k h) 0); [|lia].
  destruct (is_null (child h left)) eqn:El; [by destruct hl|].
  destruct (check_move_red_left h c n) as (c' & p & l & a & r & cl & nl & E & Ha & Hl & Hup); [done..|].
  pose proof (check_move_red_inorder _ _ _ E) as Hin. pose proof (move_tree_size _ _ _ E) as Hsz.
  assert (key_compare k a < 0) as Hka.
  { simpl in Ha, Hs, Hd. apply sorted_mid in Hs as (_ & _ & _ & Hs). rewrite Forall_forall in Hs.
    apply elem_of_cons in Ha as [->|Ha]; [done|]. apply (key_compare_lt_trans k ha); [lia|by apply Hs]. }
  rewrite E. rewrite <- Hin in Hs |- *. simpl in Hs, Hsz |- *.
  destruct (remove_key_lt _ _ _ _ Hs Hka) as [-> ->].
  destruct (IH l res cl nl) as (l' & res' & -> & Hl' & El' & ->).
  { by apply removable_ready. } { simpl in *; lia. } { by apply sorted_mid in Hs as (? & _). }
  simpl. destruct (Hup l' Hl') as (h' & E' & Hh'). rewrite E'. simpl.
  do 2 eexists. split; [done|]. split; [done|].
  rewrite (fix_up_inorder _ _ E'). simpl. by rewrite El'.
Qed.
Lemma elt_of_inorder t b : b ∈ elt_of t -> b ∈ inorder t.
Proof. rewrite inorder_split. rewrite !elem_of_app. tauto. Qed.

Lemma sorted_child_left h :
  sorted (inorder h) -> forall hc p l a r, h = Node hc p l a r ->
  forall b, b ∈ elt_of l -> key_lt b a.
Proof.
  intros Hs hc p l a r -> b Hb%elt_of_inorder. simpl in Hs.
  apply sorted_mid in Hs as (_ & _ & Hl & _). rewrite Forall_forall in Hl. by apply Hl.
Qed.

(** The removal proper: the node is replaced by the successor that
    [remove_min] takes out of its right subtree. *)
Lemma remove_here fuel c' p l a r cl nl cr nr c n k :
  llrb l cl nl -> ready r cr nr -> (tree_size r < fuel)%nat ->
  (forall p l' a r', llrb l' cl nl -> removed r' cr nr ->
     exists h', fix_up (Node c' p l' a r') = Some h' /\ removed h' c n) ->
  sorted (inorder l ++ a :: inorder r) -> key_compare k a = 0 ->
  exists rnew rmin, remove_min fuel r = Some (rnew, rmin) /\ is_null rmin = false /\
    child rmin left = Leaf /\
    exists h', fix_up (set_child (set_child (set_parent_and_color rmin p c') left
        (set_parent l (node_addr rmin))) right (set_parent rnew (node_addr rmin))) = Some h' /\
      removed h' c n /\ inorder h' = remove_key k (inorder l ++ a :: inorder r).
Proof.
  intros Hl Hr Hf Hup Hs Hk.
  destruct (remove_min_llrb fuel r cr nr Hr Hf) as (rnew & pm & m & E & Hrn).
  pose proof (remove_min_inorder _ _ _ _ E eq_refl eq_refl) as Hin. simpl in Hin.
  do 2 eexists. split; [exact E|]. split; [done|]. split; [done|]. simpl.
  destruct (Hup p (set_parent l (addr m)) m (set_parent rnew (addr m))) as (h' & E' & Hh').
  { by apply llrb_set_parent. } { by apply removed_set_parent. }
  exists h'. split; [done|]. split; [done|].
  rewrite (fix_up_inorder _ _ E'). simpl. rewrite !inorder_set_parent.
  destruct (remove_key_eq _ _ _ _ Hs Hk) as [-> _]. by rewrite Hin.
Qed.

Lemma removable_not_null k h c n : removable k h c n -> is_null h = false.
Proof. intros [h' ? ? [? ? Hr|]|]; [|done..]. by inversion Hr. Qed.

Lemma remove_internal_right fuel h k res c n :
  removes fuel k -> removable k h c n -> 0 <= compare_nodes k h ->
  ~ (0 < compare_nodes k h /\ child h right = Leaf) ->
  (tree_size h <= fuel)%nat -> sorted (inorder h) ->
  exists h' res', remove_internal (S fuel) h k res = Some (h', res') /\ removed h' c n /\
    inorder h' = remove_key k (inorder h) /\ res' = res || has_key k (inorder h).
Proof.
  intros IH Hh Hd Hend Hf Hs. pose proof (sorted_child_left h Hs) as Hord. simpl.
  rewrite (removable_not_null _ _ _ _ Hh).
  destruct (Z.ltb_spec (compare_nodes k h) 0); [lia|].
  destruct ((0 <? compare_nodes k h) && is_null (child h right)) eqn:Ee.
  { exfalso. apply Hend. breflect. by destruct (child h right). }
  destruct (check_move_red_right k h c n Hh Hd Hend Hord) as (h1 & Hrot & Hn1 & Hcase). rewrite Hrot. simpl.
  rewrite Hn1; simpl. destruct (is_leaf h1) eqn:El.
  - destruct Hcase as (-> & Hd0 & Hrem). rewrite Hd0; simpl.
    do 2 eexists. split; [done|]. split; [done|].
    destruct h as [|hc hp [|] ha [|]]; try done. simpl in *.
    destruct (remove_key_eq k [] ha [] Hs Hd0) as [E1 E2]. simpl in E1, E2. rewrite E1, E2.
    by rewrite orb_true_r.
  - rewrite andb_false_r.
    destruct Hcase as (c' & p & l & a & r & cl & nl & cr & nr & E & Ha & Hr & Hrdy & Hne & Hl & Hup).
    rewrite E. simpl. assert (Hin : inorder (Node c' p l a r) = inorder h).
    { rewrite (check_move_red_inorder _ _ _ E). destruct (is_red (child h left)).
      - by apply rotate_inorder in Hrot. - congruence. }
    assert (Hsz : (tree_size r < fuel)%nat).
    { apply (f_equal length) in Hin. rewrite <- !tree_size_inorder in Hin. simpl in Hin. lia. }
    assert (Hnr : is_null r = false) by (by destruct r).
    rewrite <- Hin in Hs |- *. clear Hin E Hrot. simpl in Hs |- *.
    destruct (Z.eqb_spec (key_compare k a) 0) as [Hk|Hk]; simpl.
    + rewrite Hnr. simpl.
      edestruct remove_here as (rnew & rmin & -> & Hm & Hml & h' & E' & Hh' & Hin');
        [exact Hl|by apply Hrdy|exact Hsz|exact Hup|exact Hs|exact Hk|].
      simpl. rewrite Hm; simpl.
      destruct rmin as [|mc mp ml m mr]; [done|]. simpl in Hml. subst ml. simpl in E' |- *.
      rewrite E'. simpl. do 2 eexists. split; [done|]. split; [done|]. split; [done|].
      destruct (remove_key_eq _ _ _ _ Hs Hk) as [_ ->]. by rewrite orb_true_r.
    + rewrite Hnr.
      destruct (remove_key_gt k _ _ _ Hs ltac:(lia)) as [-> ->].
      destruct (IH r res cr nr) as (r' & res' & -> & Hr' & Er' & ->); [done..| |].
      { by apply sorted_mid in Hs as (_ & ? & _). }
      simpl. destruct (Hup p l a r' Hl Hr') as (h' & E' & Hh'). rewrite E'. simpl.
      do 2 eexists. split; [done|]. split; [done|].
      rewrite (fix_up_inorder _ _ E'). simpl. by rewrite Er'.
Qed.

Lemma remove_internal_spec fuel k : removes fuel k.
Proof.
  induction fuel as [|fuel IH]; intros h res c n Hh Hf Hs; [lia|].
  destruct (Z.lt_ge_cases (compare_nodes k h) 0) as [Hd|Hd].
  - assert (ready h c n) as Hrdy by (inversion Hh; subst; simpl in *; done || lia).
    destruct (child h left) as [|lc lp ll la lr] eqn:El;
      [|apply remove_internal_left; try done; [by rewrite El|lia]].
    destruct h as [|hc hp hl ha hr]; [done|]. simpl in El, Hd, Hs. subst hl. simpl.
    destruct (Z.ltb_spec (key_compare k ha) 0); [|lia].
    do 2 eexists. split; [done|]. split; [by apply ready_removed|].
    destruct (remove_key_lt k [] ha (inorder hr) Hs Hd) as [E1 E2].
    simpl in E1, E2 |- *. rewrite E1, E2. by rewrite orb_false_r.
  - destruct (child h right) as [|rc rp rl ra rr] eqn:Er;
      [|apply remove_internal_right; try done; [by rewrite Er; intros []|lia]].
    destruct (Z.eq_dec (compare_nodes k h) 0);
      [apply remove_internal_right; try done; lia|].
    destruct h as [|hc hp hl ha hr]; [done|]. simpl in *. subst hr.
    destruct (Z.ltb_spec (key_compare k ha) 0); [lia|].
    destruct (Z.ltb_spec 0 (key_compare k ha)); [|lia]. simpl.
    do 2 eexists. split; [done|].
    assert (ready (Node hc hp hl ha Leaf) c n) as Hrdy by (inversion Hh as [|? ? ? ? ? ? Hr]; [done|inversion Hr]).
    split; [by apply ready_removed|].
    destruct (remove_key_gt k (inorder hl) ha [] Hs ltac:(lia)) as [E1 E2].
    rewrite E1, E2. by rewrite orb_false_r.
Qed.

End Operations.

(** ** Parent links *)

(** [linked p t]: the root's parent link is [p] and every other node's parent
    link is the address of the node it hangs off. *)
Fixpoint linked `{KeyCompare A} (p : Z) (t : tree A) : Prop :=
  match t with
  | Leaf => True
  | Node _ q l a r => q = p /\ linked (addr a) l /\ linked (addr a) r
  end.

Section Linked.
Context {A : Type} `{KeyCompare A}.
Implicit Types (h t x l r : tree A) (a b k : A).

Lemma linked_set_parent p q t : linked p t -> linked q (set_parent t q).
Proof. destruct t; simpl; tauto. Qed.

Lemma linked_set_color p c t : linked p t -> linked p (set_color t c).
Proof. by destruct t. Qed.

Lemma linked_set_child p h i x :
  linked p h -> linked (node_addr h) x -> linked p (set_child h i x).
Proof. destruct h, i; simpl; tauto. Qed.

Lemma linked_child p h i : linked p h -> linked (node_addr h) (child h i).
Proof. destruct h, i; simpl; tauto. Qed.

Lemma rotate_linked p hand h x : rotate hand h = Some x -> linked p h -> linked p x.
Proof.
  destruct h as [|c q l a r], hand; simpl; try done;
    [destruct r as [|? ? rl ? ?]; [done|] | destruct l as [|? ? ? ? lr]; [done|]];
    intros [= <-]; simpl; intros; destruct_and!; repeat split; eauto using linked_set_parent.
Qed.

Lemma color_flip_linked p h x : color_flip h = Some x -> linked p h -> linked p x.
Proof. destruct h as [|c q [|] a [|]]; simpl; try done. by intros [= <-]. Qed.

Lemma fix_up_linked p h x : fix_up h = Some x -> linked p h -> linked p x.
Proof.
  unfold fix_up. intros Hx Hh. inv_bind.
  assert (linked p v) by (repeat case_match; simplify_some; eauto using rotate_linked).
  assert (linked p v0) by (repeat case_match; simplify_some; eauto using rotate_linked).
  repeat case_match; simplify_some; eauto using color_flip_linked.
Qed.

Lemma check_move_red_linked p h hand x :
  check_move_red h hand = Some x -> linked p h -> linked p x.
Proof.
  unfold check_move_red. intros Hx Hh. case_match; [|by simplify_some].
  inv_bind. assert (linked p v) by eauto using color_flip_linked.
  case_match; [by simplify_some|]. inv_bind.
  eapply color_flip_linked; [done|]. eapply rotate_linked; [done|].
  destruct hand; inv_bind; [|done].
  apply linked_set_child; [done|]. eapply rotate_linked; [done|].
  by apply (linked_child p v right).
Qed.

Lemma node_addr_elt h h' : elt_of h = elt_of h' -> node_addr h = node_addr h'.
Proof. destruct h, h'; simpl; congruence. Qed.

Lemma remove_min_linked fuel p h h' m :
  remove_min fuel h = Some (h', m) -> linked p h -> linked p h'.
Proof.
  revert p h h' m. induction fuel as [|fuel IH]; intros p h h' m E Hh; [done|]. simpl in E.
  case_match; inv_bind; [done|].
  eapply fix_up_linked; [done|]. assert (linked p v) by eauto using check_move_red_linked.
  apply linked_set_child; eauto using linked_child.
Qed.

Lemma remove_internal_linked fuel p h k res h' res' :
  remove_internal fuel h k res = Some (h', res') -> linked p h -> linked p h'.
Proof.
  revert p h res h' res'. induction fuel as [|fuel IH]; intros p h res h' res' E Hh; [done|].
  simpl in E. case_match; [by simplify_some|]. case_match.
  { case_match; [by simplify_some|]. inv_bind.
    assert (linked p v) by eauto using check_move_red_linked.
    eapply fix_up_linked; [done|]. apply linked_set_child; eauto using linked_child. }
  case_match; [by simplify_some|]. inv_bind.
  assert (linked p v) by (repeat case_match; simplify_some; eauto using rotate_linked).
  case_match; [by simplify_some|]. inv_bind.
  assert (linked p v0) by eauto using check_move_red_linked.
  case_match; [case_match; [by simplify_some|]|]; inv_bind.
  - eapply fix_up_linked; [done|]. apply linked_set_child; eauto using linked_child.
  - eapply fix_up_linked; [done|].
    assert (linked (node_addr v0) t) by eauto using remove_min_linked, linked_child.
    pose proof (linked_child p v0 left ltac:(done)).
    destruct v0 as [|? q ? ? ?], t0 as [|? ? ? m ?]; try done. simpl in *.
    destruct_and!. subst. repeat split; eauto using linked_set_parent.
Qed.

Lemma insert_node_internal_linked p h b res h' res' :
  insert_node_internal h (Node red 0 Leaf b Leaf) res = Some (h', res') ->
  linked p h -> linked p h'.
Proof.
  revert p res h' res'.
  induction h as [|c q l IHl a r IHr]; intros p res h' res' E Hh; [done|].
  rewrite insert_node_internal_below in E. inv_bind. eapply fix_up_linked; [done|].
  assert (Hbelow : forall s res s' res', linked (addr a) s ->
    (forall p res s' res', insert_node_internal s (Node red 0 Leaf b Leaf) res = Some (s', res') ->
       linked p s -> linked p s') ->
    insert_below s b a res = Some (s', res') -> linked (addr a) s').
  { intros [|] rs s' rs' Hs IH Eb; simpl in Eb; [by simplify_some|by eauto]. }
  simpl in Hh. destruct_and!. subst. cbv zeta in *.
  repeat case_match; inv_bind; simpl; eauto.
Qed.

End Linked.

(** ** The root: removal from a black 2-node *)

Section Root.
Context {A : Type} `{KeyOrder A}.
Implicit Types (h t x l r : tree A) (a b k : A).

(** No operation on a subtree looks at the colour of its root, so inverting
    that colour commutes with all of them.  [rbtree_remove_by_key] starts the
    descent at a black root, which need not be [ready]; its inversion is. *)
Lemma rotate_invert hand h : rotate hand (invert_color h) = invert_color <$> rotate hand h.
Proof. by destruct hand, h as [|c p [|] a [|]]. Qed.

Lemma color_flip_invert h : color_flip (invert_color h) = invert_color <$> color_flip h.
Proof. by destruct h as [|c p [|] a [|]]. Qed.

Lemma child_invert h i : child (invert_color h) i = child h i.
Proof. by destruct h, i. Qed.

Lemma compare_nodes_invert k h : compare_nodes k (invert_color h) = compare_nodes k h.
Proof. by destruct h. Qed.

Lemma set_child_invert h i x : set_child (invert_color h) i x = invert_color (set_child h i x).
Proof. by destruct h, i. Qed.

Lemma is_null_invert h : is_null (invert_color h) = is_null h.
Proof. by destruct h. Qed.

Lemma fix_up_invert h : fix_up (invert_color h) = invert_color <$> fix_up h.
Proof.
  unfold fix_up. rewrite !child_invert.
  destruct (is_black_or_null (child h left) && is_red (child h right));
    rewrite ?rotate_invert; [destruct (rotate left h) as [x|]; [|done]|set (x := h)]; simpl;
    rewrite !child_invert; destruct (is_red (child x left) && is_red (child (child x left) left));
    rewrite ?rotate_invert;
    try (destruct (rotate right x) as [y|]; [|done]); simpl; rewrite !child_invert;
    case_match; by rewrite ?color_flip_invert.
Qed.

Lemma check_move_red_invert h hand :
  check_move_red (invert_color h) hand = invert_color <$> check_move_red h hand.
Proof.
  unfold check_move_red. rewrite !child_invert. case_match; [|done].
  rewrite color_flip_invert. destruct (color_flip h) as [x|]; [|done]. simpl.
  rewrite !child_invert. case_match; [done|].
  destruct hand; simpl; rewrite ?child_invert.
  - destruct (rotate right (child x right)) as [y|]; [|done]. simpl.
    rewrite set_child_invert, rotate_invert.
    destruct (rotate left _); simpl; [by rewrite color_flip_invert|done].
  - rewrite rotate_invert. destruct (rotate right x); simpl; [by rewrite color_flip_invert|done].
Qed.

Definition invert_result (o : option (tree A * bool)) : option (tree A * bool) :=
  (fun '(x, b) => (invert_color x, b)) <$> o.

(** The two ways [remove_internal] rebuilds a node around a new subtree. *)
Lemma rebuild_invert h i (o : option (tree A * bool)) :
  ('(y, b) ← o; z ← fix_up (set_child (invert_color h) i y); Some (z, b)) =
  invert_result ('(y, b) ← o; z ← fix_up (set_child h i y); Some (z, b)).
Proof.
  destruct o as [[y b]|]; [|done]. simpl. rewrite set_child_invert, fix_up_invert.
  by destruct (fix_up _).
Qed.

Lemma replace_invert h m rnew p :
  (z ← fix_up (set_child (set_child (set_parent_and_color m p (get_color (invert_color h)))
        left (set_parent (child h left) (node_addr m))) right rnew);
   Some (z, true)) =
  (if is_null h then fun o => o else invert_result)
  (z ← fix_up (set_child (set_child (set_parent_and_color m p (get_color h))
        left (set_parent (child h left) (node_addr m))) right rnew);
   Some (z, true)).
Proof.
  destruct h as [|c q l a r]; [done|]. simpl.
  replace (set_parent_and_color m p (other_color c))
    with (invert_color (set_parent_and_color m p c)) by (by destruct m).
  rewrite !set_child_invert, fix_up_invert. by destruct (fix_up _).
Qed.

Lemma remove_internal_invert fuel h k res :
  remove_internal fuel (invert_color h) k res = invert_result (remove_internal fuel h k res).
Proof.
  destruct fuel as [|fuel]; [done|]. simpl.
  rewrite is_null_invert, compare_nodes_invert, !child_invert.
  destruct (is_null h); [done|]. case_match.
  { case_match; [done|]. rewrite check_move_red_invert.
    destruct (check_move_red h left) as [x|]; [|done]. simpl. rewrite child_invert.
    apply rebuild_invert. }
  case_match; [done|].
  assert (Hrot : (if is_red (child h left) then rotate right (invert_color h)
                  else Some (invert_color h)) =
                 invert_color <$> (if is_red (child h left) then rotate right h else Some h))
    by (case_match; [apply rotate_invert|done]).
  rewrite Hrot. clear Hrot.
  destruct (if is_red (child h left) then rotate right h else Some h) as [x|]; [|done]. simpl.
  rewrite is_null_invert, compare_nodes_invert. destruct (is_null x) eqn:Ex; [done|]. simpl.
  unfold is_leaf. rewrite !child_invert. case_match; [done|].
  rewrite check_move_red_invert. destruct (check_move_red x right) as [y|]; [|done]. simpl.
  rewrite is_null_invert, compare_nodes_invert. destruct (is_null y) eqn:Ey; [done|]. simpl.
  rewrite !child_invert. case_match; [case_match; [done|apply rebuild_invert]|].
  destruct (is_null (child y right)); [done|]. simpl.
  destruct (remove_min fuel (child y right)) as [[rnew m]|]; [|done]. simpl.
  destruct m as [|mc mp ml ma mr]; [done|]. simpl. destruct (is_null ml); [|done]. simpl.
  pose proof (replace_invert y (Node mc mp ml ma mr) (set_parent rnew (addr ma)) (parent y)) as Hr.
  rewrite Ey in Hr. by destruct y.
Qed.

End Root.

(** ** The tree as a sorted dictionary *)

Section Dictionary.
Context {A : Type} `{KeyOrder A}.
Implicit Types (h x l r : tree A) (t : rbtree (A:=A)) (a b k : A).

Definition contents t : list A := inorder (root t).

Record rbtree_inv t : Prop := {
  inv_balanced : exists n, llrb (root t) black n;
  inv_sorted : sorted (contents t);
  inv_linked : linked 0 (root t);
  inv_count : count t = Z.of_nat (length (contents t));
}.

Lemma init_rbtree_inv : rbtree_inv init_rbtree.
Proof. split; [eexists; constructor|constructor|done|done]. Qed.

Lemma insert_root h a n :
  llrb h black n -> h <> Leaf -> sorted (inorder h) -> linked 0 h ->
  exists h', insert_node_internal h (Node red 0 Leaf a Leaf) false =
      Some (h', negb (has_key a (inorder h))) /\
    inorder h' = insert_sorted a (inorder h) /\ linked 0 h' /\
    exists m, llrb (set_color h' black) black m.
Proof.
  intros Hb Hne Hs Hl.
  destruct (insert_node_internal_llrb h black n a false Hb Hne) as (h' & res' & E & c' & Hh').
  destruct (insert_node_internal_inorder _ _ _ _ _ E Hs) as [Hin ->].
  exists h'. split; [done|]. split; [done|].
  split; [by eapply insert_node_internal_linked|by eapply llrb_blacken].
Qed.

Lemma insert_node_spec t a :
  rbtree_inv t -> count t < 2 ^ 64 - 1 ->
  exists t', rbtree_insert_node t (init_rbnode a) = Some (t', negb (has_key a (contents t))) /\
    rbtree_inv t' /\ contents t' = insert_sorted a (contents t).
Proof.
  intros [[n Hb] Hs Hl Hc] Hcap. unfold rbtree_insert_node, contents in *.
  assert (Hcnt : u64 (count t + 1) = count t + 1) by (apply u64_small; lia).
  destruct (root t) as [|rc rp rl ra rr] eqn:Er.
  - eexists. split; [done|]. split; [|done]. rewrite Hc.
    by split; simpl; [eexists; apply (llrb_black _ _ _ _ black); constructor|repeat constructor|..].
  - destruct (insert_root _ a n Hb) as (h' & E & Hin & Hl' & m & Hb'); [done..|].
    simpl (set_color _ red). rewrite E. simpl mbind. eexists. split; [done|].
    unfold contents in *. simpl (root _).
    split; [|by rewrite inorder_set_color]. split; unfold contents; simpl (root _); simpl (count _).
    + by exists m.
    + rewrite inorder_set_color, Hin. by apply insert_sorted_sorted.
    + by apply linked_set_color.
    + rewrite inorder_set_color, Hin, has_key_insert by done.
      destruct (has_key a _); simpl negb; lia.
Qed.

Lemma remove_root h k n :
  llrb h black n -> sorted (inorder h) -> linked 0 h ->
  exists h', remove_internal (S (tree_size h)) h k false = Some (h', has_key k (inorder h)) /\
    inorder h' = remove_key k (inorder h) /\ linked 0 h' /\
    exists m, llrb (set_color h' black) black m.
Proof.
  intros Hb Hs Hl.
  inversion Hb as [|?|p l a r c m Hbl Hbr]; subst.
  { eexists. do 3 (split; [done|]). eexists. constructor. }
  assert (Hcases : exists h1 x c' n', (h1 = x \/ h1 = invert_color x) /\ x = Node black p l a r /\
    removable k h1 c' n').
  { destruct c.
    - exists (Node red p l a r), (Node black p l a r), red, m. split; [by right|]. split; [done|].
      apply removable_ready, ready_red. by constructor.
    - exists (Node black p l a r), (Node black p l a r), black, (S m). split; [by left|]. split; [done|].
      by apply removable_ready, ready_3node. }
  destruct Hcases as (h1 & x & c' & n' & Hx & Ex & Hrem). rewrite <- Ex in *. clear Ex Hbl Hbr.
  assert (Hin1 : inorder h1 = inorder x) by (destruct Hx as [-> | ->]; rewrite ?inorder_invert_color; done).
  destruct (remove_internal_spec (S (tree_size x)) k h1 false c' n') as (h' & res' & E & Hr & Hin & ->).
  { done. } { rewrite !tree_size_inorder, Hin1. lia. } { by rewrite Hin1. }
  rewrite Hin1 in Hin, E. simpl orb in E. apply removed_inv in Hr as (c'' & Hr & _).
  destruct (llrb_blacken _ _ _ Hr) as [m' Hm'].
  destruct Hx as [-> | ->].
  - exists h'. do 2 (split; [done|]). split; [by eapply remove_internal_linked|by exists m'].
  - rewrite remove_internal_invert in E. unfold invert_result in E.
    apply fmap_Some in E as ([h0 res0] & E & E0). simplify_eq.
    rewrite inorder_invert_color in Hin.
    exists h0. do 2 (split; [done|]). split; [by eapply remove_internal_linked|].
    exists m'. by destruct h0.
Qed.

Lemma remove_by_key_spec t k :
  rbtree_inv t ->
  exists t', rbtree_remove_by_key t k = Some (t', has_key k (contents t)) /\
    rbtree_inv t' /\ contents t' = remove_key k (contents t).
Proof.
  intros [[n Hb] Hs Hl Hc]. unfold rbtree_remove_by_key, contents in *.
  destruct (remove_root (root t) k n Hb Hs Hl) as (h' & -> & Hin & Hl' & m & Hb').
  pose proof (length_remove_key k _ Hs) as Hlen. simpl mbind.
  assert (Eh : (if is_null h' then h' else set_color h' black) = set_color h' black) by (by destruct h').
  rewrite Eh.
  assert (Hinv : forall cnt, cnt = Z.of_nat (length (remove_key k (inorder (root t)))) ->
    rbtree_inv {| root := set_color h' black; count := cnt |}).
  { intros cnt Hcnt. split; unfold contents; simpl (root _); simpl (count _);
      rewrite ?inorder_set_color, ?Hin; [by exists m|by apply remove_key_sorted|by apply linked_set_color|done]. }
  destruct (has_key k (inorder (root t))) eqn:Ek.
  - unfold kassert. replace (0 <? count t) with true by (symmetry; apply Z.ltb_lt; lia).
    eexists. split; [done|]. simpl root. rewrite inorder_set_color. split; [|done].
    apply Hinv. simpl in Hlen. lia.
  - eexists. split; [done|]. simpl root. rewrite inorder_set_color. split; [|done].
    apply Hinv. simpl in Hlen. lia.
Qed.

End Dictionary.

(** ** Lookups *)

Section Lookup.
Context {A : Type} `{KeyOrder A}.
Implicit Types (h x : tree A) (t : rbtree (A:=A)) (a b k : A).

Lemma lookup_node_spec h k :
  sorted (inorder h) ->
  match lookup_node h k with
  | Some x => exists c p l a r, x = Node c p l a r /\ a ∈ inorder h /\ key_compare k a = 0
  | None => has_key k (inorder h) = false
  end.
Proof.
  induction h as [|c p l IHl a r IHr]; simpl; intros Hs; [done|].
  pose proof Hs as (Hl & Hr & _)%sorted_mid.
  destruct (Z.eqb_spec (key_compare k a) 0) as [E|E].
  { do 5 eexists. split; [done|]. split; [|done]. rewrite elem_of_app. right. by left. }
  destruct (Z.ltb_spec (key_compare k a) 0).
  - destruct (remove_key_lt _ _ _ _ Hs ltac:(done)) as [_ ->]. specialize (IHl Hl).
    destruct (lookup_node l k); [|done].
    destruct IHl as (c1 & p1 & l1 & a1 & r1 & -> & Hin & E1).
    do 5 eexists. split; [done|]. split; [|done]. rewrite elem_of_app. by left.
  - destruct (remove_key_gt k _ _ _ Hs ltac:(lia)) as [_ ->]. specialize (IHr Hr).
    destruct (lookup_node r k); [|done].
    destruct IHr as (c1 & p1 & l1 & a1 & r1 & -> & Hin & E1).
    do 5 eexists. split; [done|]. split; [|done]. rewrite elem_of_app. right. by right.
Qed.

(** The greatest element not above [k], in the abstract. *)
Definition max_lte k (l : list A) : option A :=
  last (filter (fun a => 0 <= key_compare k a) l).

Lemma max_lte_gt k l1 a l2 :
  sorted (l1 ++ a :: l2) -> 0 <= key_compare k a ->
  max_lte k (l1 ++ a :: l2) = Some (default a (max_lte k l2)).
Proof.
  intros Hs Hk. unfold max_lte. rewrite filter_app, filter_cons_True by done.
  rewrite last_app, last_cons. by destruct (last (filter _ l2)).
Qed.

Lemma max_lte_lt k l1 a l2 :
  sorted (l1 ++ a :: l2) -> key_compare k a < 0 -> max_lte k (l1 ++ a :: l2) = max_lte k l1.
Proof.
  intros (_ & _ & _ & Ha)%sorted_mid Hk. unfold max_lte.
  rewrite filter_app, filter_cons_False by lia.
  assert (E : filter (fun b => 0 <= key_compare k b) l2 = []).
  { apply filter_none. eapply Forall_impl; [exact Ha|]. intros b Hb.
    assert (key_compare k b < 0); [|lia]. apply (key_compare_lt_trans k a); [lia|done]. }
  by rewrite E, app_nil_r.
Qed.

Lemma max_lte_above k a l : key_compare k a <= 0 -> Forall (key_lt a) l -> max_lte k l = None.
Proof.
  intros Hk Ha. unfold max_lte.
  assert (E : filter (fun b => 0 <= key_compare k b) l = []); [|by rewrite E].
  apply filter_none. eapply Forall_impl; [exact Ha|]. intros b Hb.
  pose proof (key_compare_lt_trans k a b Hk Hb). lia.
Qed.

Lemma max_lte_le k l a : max_lte k l = Some a -> a ∈ l /\ 0 <= key_compare k a.
Proof.
  unfold max_lte. intros Ha. apply last_Some in Ha as [l' E].
  assert (Hin : a ∈ filter (fun a => 0 <= key_compare k a) l)
    by (rewrite E, elem_of_app; right; by left).
  apply list_elem_of_filter in Hin. tauto.
Qed.

Lemma max_lte_internal_spec h k :
  sorted (inorder h) ->
  option_map elt_of (max_lte_internal h k) = option_map (fun a => [a]) (max_lte k (inorder h)).
Proof.
  induction h as [|c p l IHl a r IHr]; intros Hs; [done|]. simpl in Hs.
  pose proof Hs as (Hl & Hr & _ & Har)%sorted_mid. simpl (inorder _).
  specialize (IHl Hl). specialize (IHr Hr). cbn [max_lte_internal]. cbv zeta.
  destruct (Z.eqb_spec (key_compare k a) 0) as [E|E].
  { rewrite max_lte_gt by (done || lia). by rewrite (max_lte_above k a) by (done || lia). }
  destruct (Z.ltb_spec 0 (key_compare k a)) as [E'|E'].
  2: { rewrite max_lte_lt by (done || lia). by destruct l. }
  rewrite max_lte_gt by (done || lia).
  destruct r as [|rc rp rl ra rr]; [done|]. set (s := Node rc rp rl ra rr) in *.
  destruct (max_lte_internal s k) as [[|c1 p1 l1 b r1]|], (max_lte k (inorder s)) as [b'|] eqn:Em;
    try done.
  simpl in IHr. injection IHr as ->.
  apply max_lte_le in Em as [_ Hle]. pose proof (key_compare_opp k b').
  destruct (Z.ltb_spec 0 (key_compare b' k)); [lia|done].
Qed.

Lemma find_limit_min h : h <> Leaf ->
  exists x a, find_limit h false = Some x /\ elt_of x = [a] /\ head (inorder h) = Some a.
Proof.
  induction h as [|c p l IHl a r IHr]; [done|]. intros _.
  destruct l as [|lc lp ll la lr]; [by do 2 eexists|].
  destruct IHl as (x & b & E & Hx & Hh); [done|]. exists x, b. split; [exact E|]. split; [done|].
  change (head (inorder (Node lc lp ll la lr) ++ a :: inorder r) = Some b). by apply head_app_some.
Qed.

(** ** Height *)

Fixpoint height h : nat :=
  match h with Leaf => O | Node _ _ l _ r => S (height l `max` height r) end.

Lemma llrb_height h c n :
  llrb h c n -> (height h <= 2 * n + match c with red => 1 | black => 0 end)%nat /\
    2 ^ Z.of_nat n <= Z.of_nat (tree_size h) + 1.
Proof.
  induction 1 as [|p l a r n Hl IHl Hr IHr|p l a r c n Hl IHl Hr IHr]; [simpl; lia|simpl; lia|].
  destruct IHl as [Hhl Hsl], IHr as [Hhr Hsr]. split; [destruct c; simpl in *; lia|].
  rewrite Nat2Z.inj_succ, Z.pow_succ_r by lia. simpl. lia.
Qed.

End Lookup.

(** ** Refinement of the sorted dictionary *)

Section Refinement.
Context {A : Type} `{KeyOrder A}.
Implicit Types (h : tree A) (t : rbtree (A:=A)) (a b k : A) (l : list A).

Inductive operation :=
| Insert a
| Remove k
| Lookup k
| LookupMaxLte k
| FindFirst.

Inductive answer :=
| Done (result : bool)
| Found (e : option A).

Definition node_elt (x : tree A) : option A := match x with Leaf => None | Node _ _ _ a _ => Some a end.

(** One operation on the tree; a failed assertion is [None]. *)
Definition perform t (o : operation) : option (rbtree (A:=A) * answer) :=
  match o with
  | Insert a => '(t, r) ← rbtree_insert_node t (init_rbnode a); Some (t, Done r)
  | Remove k => '(t, r) ← rbtree_remove_by_key t k; Some (t, Done r)
  | Lookup k => Some (t, Found (rbtree_lookup t k ≫= node_elt))
  | LookupMaxLte k => Some (t, Found (rbtree_lookup_max_lte t k ≫= node_elt))
  | FindFirst => x ← rbtree_find_first t; Some (t, Found (x ≫= node_elt))
  end.

Fixpoint perform_all t (os : list operation) : option (rbtree (A:=A) * list answer) :=
  match os with
  | [] => Some (t, [])
  | o :: os' => '(t, r) ← perform t o; '(t, rs) ← perform_all t os'; Some (t, r :: rs)
  end.

(** The same on a sorted list. *)
Definition specify l (o : operation) : list A * answer :=
  match o with
  | Insert a => (insert_sorted a l, Done (negb (has_key a l)))
  | Remove k => (remove_key k l, Done (has_key k l))
  | Lookup k => (l, Found (find (fun x => key_compare k x =? 0) l))
  | LookupMaxLte k => (l, Found (max_lte k l))
  | FindFirst => (l, Found (head l))
  end.

Fixpoint specify_all l (os : list operation) : list A * list answer :=
  match os with
  | [] => (l, [])
  | o :: os' => let '(l, r) := specify l o in let '(l, rs) := specify_all l os' in (l, r :: rs)
  end.

Lemma find_absent k l : has_key k l = false -> find (fun x => key_compare k x =? 0) l = None.
Proof. unfold has_key. induction l as [|x l IH]; simpl; [done|]. by destruct (_ =? 0). Qed.

Lemma lookup_node_find h k :
  sorted (inorder h) ->
  lookup_node h k ≫= node_elt = find (fun x => key_compare k x =? 0) (inorder h).
Proof.
  induction h as [|c p l IHl a r IHr]; simpl; intros Hs; [done|].
  pose proof Hs as (Hl & Hr & Hla & Har)%sorted_mid.
  assert (Hfind : find (fun x => key_compare k x =? 0) (inorder l ++ a :: inorder r) =
    if key_compare k a <? 0 then find (fun x => key_compare k x =? 0) (inorder l)
    else if key_compare k a =? 0 then Some a else find (fun x => key_compare k x =? 0) (inorder r)).
  { rewrite find_app. simpl. destruct (Z.ltb_spec (key_compare k a) 0) as [Hk|Hk].
    - destruct (Z.eqb_spec (key_compare k a) 0); [lia|].
      rewrite (find_absent k (inorder r)) by (apply (remove_key_above k a); [lia|done]).
      by destruct (find _ _).
    - rewrite (find_absent k (inorder l)) by (by apply (remove_key_below k a)). done. }
  rewrite Hfind. destruct (Z.eqb_spec (key_compare k a) 0) as [E|E].
  - by rewrite E.
  - destruct (_ <? 0); auto.
Qed.

Lemma perform_spec t o :
  rbtree_inv t -> count t < 2 ^ 64 - 1 ->
  exists t', perform t o = Some (t', snd (specify (contents t) o)) /\
    contents t' = fst (specify (contents t) o) /\ rbtree_inv t' /\ count t' <= count t + 1.
Proof.
  intros Hinv Hc. destruct o as [a|k|k|k|]; simpl.
  - destruct (insert_node_spec t a Hinv Hc) as (t' & -> & Hinv' & Hin). simpl.
    exists t'. do 3 (split; [done|]).
    rewrite (inv_count _ Hinv), (inv_count _ Hinv'), Hin, has_key_insert by apply inv_sorted, Hinv.
    case_match; lia.
  - destruct (remove_by_key_spec t k Hinv) as (t' & -> & Hinv' & Hin). simpl.
    exists t'. do 3 (split; [done|]).
    rewrite (inv_count _ Hinv), (inv_count _ Hinv'), Hin.
    pose proof (length_remove_key k (contents t) (inv_sorted _ Hinv)). lia.
  - exists t. split; [|split; [done|split; [done|lia]]]. unfold rbtree_lookup.
    by rewrite lookup_node_find by apply Hinv.
  - exists t. split; [|split; [done|split; [done|lia]]]. unfold rbtree_lookup_max_lte.
    pose proof (max_lte_internal_spec (root t) k (inv_sorted _ Hinv)) as Hm. unfold contents in *.
    do 3 f_equal. destruct (root t); [done|].
    destruct (max_lte_internal _ k) as [[]|], (max_lte k _); simpl in *; congruence.
  - exists t. unfold rbtree_find_first, contents. destruct (root t) as [|c p l a r] eqn:Er.
    { split; [done|]. split; [done|]. split; [done|]. lia. }
    destruct (find_limit_min (Node c p l a r)) as (x & b & E & Hx & Hb); [done|].
    rewrite E, Hb. simpl (_ ≫= _).
    split; [|split; [done|split; [done|lia]]]. by destruct x; simplify_eq/=.
Qed.

Lemma perform_all_spec t os :
  rbtree_inv t -> count t + Z.of_nat (length os) < 2 ^ 64 ->
  exists t' rs, perform_all t os = Some (t', rs) /\ specify_all (contents t) os = (contents t', rs) /\
    rbtree_inv t'.
Proof.
  revert t. induction os as [|o os IH]; intros t Hinv Hc; simpl; [by do 2 eexists|].
  simpl length in Hc.
  destruct (perform_spec t o Hinv) as (t' & -> & Hin & Hinv' & Hcount); [lia|]. simpl.
  destruct (specify (contents t) o) as [l r]. simpl in *. subst l.
  destruct (IH t' Hinv') as (t'' & rs & -> & -> & ?); [lia|]. simpl. by do 2 eexists.
Qed.

End Refinement.

(** An instance for evaluation: elements that are their own address and key. *)
Module IntKey.
#[export] Instance int_key : KeyCompare Z := {| addr a := a; key_compare a b := a - b |}.
#[export] Instance int_key_order : KeyOrder Z.
Proof. split; simpl; intros; lia. Qed.
End IntKey.
Import IntKey.

(** C1: any sequence of insertions, removals, lookups, greatest-at-or-below
    lookups and first-element queries from the empty tree runs without a
    failed assertion, gives the answers of the same sequence on a sorted list
    without duplicate keys, and leaves a tree that holds that list, is a
    balanced left-leaning red-black tree with correct parent links, and counts
    its elements.  The bound is the width of the counter. *)
Theorem rbtree_refines_dictionary {A} `{KeyOrder A} (os : list operation) :
  Z.of_nat (length os) < 2 ^ 64 ->
  exists t rs, perform_all init_rbtree os = Some (t, rs) /\
    specify_all [] os = (contents t, rs) /\ rbtree_inv t.
Proof. intros Hos. by apply (perform_all_spec init_rbtree os init_rbtree_inv). Qed.

Lemma rbtree_refines_dictionary_witness :
  let os := [Insert 3; Insert 1; Insert 2; Insert 3; LookupMaxLte 9; Remove 2; Lookup 2; FindFirst] in
  exists t rs, perform_all init_rbtree os = Some (t, rs) /\
    specify_all [] os = (contents t, rs) /\ rbtree_inv t.
Proof.
  by apply rbtree_refines_dictionary.
Defined.

(** The height of a well-formed tree, which is the depth of every recursion
    over it, is at most twice the logarithm of one more than its count. *)
Theorem rbtree_height_log {A} `{KeyOrder A} (t : rbtree (A:=A)) :
  rbtree_inv t -> Z.of_nat (height (root t)) <= 2 * Z.log2 (rbtree_get_count t + 1).
Proof.
  intros [[n Hb] _ _ Hc]. unfold rbtree_get_count, contents in *.
  rewrite Hc, <- tree_size_inorder. destruct (llrb_height _ _ _ Hb) as [Hh Hs].
  apply Z.log2_le_pow2 in Hs; lia.
Qed.
