(* ===== verification/RbWalk.v ===== *)
(** Walking a red-black tree: adjacent nodes, traversal and validation. *)

From S2P Require Import Prelude Rbtree.

(** ** Adjacent nodes *)

Section Adjacent.
Context {A : Type} `{KeyCompare A}.
Implicit Types (h t x s : tree A) (a b k : A).

(** The path from a subtree up to the root: on each step, the side the subtree
    hangs on, the parent's colour, parent link and element, and its sibling. *)
Record frame := {
  f_side : side; f_color : color; f_parent : Z; f_elt : A; f_sib : tree A;
}.
Implicit Types (f : frame) (fs : list frame).

Definition plug1 f s : tree A :=
  match f_side f with
  | left => Node (f_color f) (f_parent f) s (f_elt f) (f_sib f)
  | right => Node (f_color f) (f_parent f) (f_sib f) (f_elt f) s
  end.

Lemma plug1_addr f s : node_addr (plug1 f s) = addr (f_elt f).
Proof. unfold plug1. by destruct (f_side f). Qed.

Fixpoint plug fs s : tree A := match fs with [] => s | f :: fs' => plug fs' (plug1 f s) end.

Fixpoint before fs : list A :=
  match fs with
  | [] => []
  | f :: fs' => before fs' ++
      match f_side f with left => [] | right => inorder (f_sib f) ++ [f_elt f] end
  end.

Fixpoint after fs : list A :=
  match fs with
  | [] => []
  | f :: fs' =>
      match f_side f with left => f_elt f :: inorder (f_sib f) | right => [] end ++ after fs'
  end.

Definition top_addr fs : Z := match fs with [] => 0 | f :: _ => addr (f_elt f) end.

(** Nodes live at distinct non-null addresses. *)
Definition distinct_addrs t : Prop :=
  NoDup (addr <$> inorder t) /\ Forall (fun a => addr a <> 0) (inorder t).

Lemma plug_inorder fs s : inorder (plug fs s) = before fs ++ inorder s ++ after fs.
Proof.
  revert s. induction fs as [|f fs IH]; intros s; simpl; [by rewrite app_nil_r|].
  rewrite IH. unfold plug1. destruct (f_side f); simpl; by rewrite <- ?app_assoc.
Qed.

Lemma plug_app fs1 fs2 s : plug (fs1 ++ fs2) s = plug fs2 (plug fs1 s).
Proof. revert s. induction fs1; simpl; auto. Qed.

Lemma plug_linked fs s : linked 0 (plug fs s) -> linked (top_addr fs) s.
Proof.
  revert s. induction fs as [|f fs IH]; intros s; simpl; [done|].
  intros Hl%IH. unfold plug1 in Hl. destruct (f_side f); simpl in Hl; tauto.
Qed.

Lemma plug_size fs s : (length fs + tree_size s <= tree_size (plug fs s))%nat.
Proof.
  revert s. induction fs as [|f fs IH]; intros s; simpl; [lia|].
  specialize (IH (plug1 f s)). unfold plug1 in *. destruct (f_side f); simpl in *; lia.
Qed.

Lemma node_at_absent t p : p ∉ addr <$> inorder t -> node_at t p = None.
Proof.
  induction t as [|c q l IHl a r IHr]; simpl; [done|].
  rewrite fmap_app, fmap_cons, elem_of_app, elem_of_cons. intros Hp.
  destruct (Z.eqb_spec (addr a) p) as [<-|]; [naive_solver|].
  rewrite IHl, IHr; tauto.
Qed.

Lemma node_at_plug fs s p x :
  node_at s p = Some x -> p ∉ addr <$> before fs -> p ∉ addr <$> after fs ->
  node_at (plug fs s) p = Some x.
Proof.
  revert s. induction fs as [|f fs IH]; intros s Hx; simpl; [done|].
  rewrite !fmap_app, !elem_of_app. intros Hb Ha. apply IH; [|tauto..].
  unfold plug1. destruct (f_side f); simpl in *; rewrite ?fmap_app, ?fmap_cons in *.
  - destruct (Z.eqb_spec (addr (f_elt f)) p) as [<-|]; [set_solver|]. by rewrite Hx.
  - destruct (Z.eqb_spec (addr (f_elt f)) p) as [<-|]; [set_solver|].
    rewrite node_at_absent; [done|set_solver].
Qed.

Lemma node_at_subtree fs s : distinct_addrs (plug fs s) -> s <> Leaf ->
  node_at (plug fs s) (node_addr s) = Some s.
Proof.
  intros [Hd _] Hs. destruct s as [|c p l a r]; [done|]. rewrite plug_inorder in Hd.
  simpl in Hd. rewrite !fmap_app, fmap_cons in Hd.
  apply node_at_plug; [simpl; by rewrite Z.eqb_refl|..].
  - intros Hin. apply NoDup_app in Hd as (_ & Hd & _). apply (Hd _ Hin). set_solver.
  - apply NoDup_app in Hd as (_ & _ & Hd). apply NoDup_app in Hd as (_ & Hd & _).
    intros Hin. apply (Hd (addr a)); [set_solver|done].
Qed.

Lemma node_at_inv t p x : node_at t p = Some x -> exists fs, t = plug fs x /\ node_addr x = p /\ x <> Leaf.
Proof.
  induction t as [|c q l IHl a r IHr]; simpl; [done|].
  destruct (Z.eqb_spec (addr a) p) as [E|E].
  { intros [= <-]. by exists []. }
  destruct (node_at l p) as [y|] eqn:El.
  - intros [= ->]. destruct IHl as (fs & -> & ? & ?); [done|].
    exists (fs ++ [{| f_side := left; f_color := c; f_parent := q; f_elt := a; f_sib := r |}]).
    by rewrite plug_app.
  - intros Hr. destruct IHr as (fs & -> & ? & ?); [done|].
    exists (fs ++ [{| f_side := right; f_color := c; f_parent := q; f_elt := a; f_sib := l |}]).
    by rewrite plug_app.
Qed.

Lemma distinct_plug fs s : distinct_addrs (plug fs s) -> distinct_addrs s.
Proof.
  intros [Hd Hnz]. rewrite plug_inorder in Hd, Hnz.
  rewrite !fmap_app, !NoDup_app in Hd. rewrite !Forall_app in Hnz. split; tauto.
Qed.

Lemma sibling_distinct f fs c p l a r :
  distinct_addrs (plug fs (plug1 f (Node c p l a r))) -> node_addr (f_sib f) = addr a -> False.
Proof.
  intros [Hd Hnz]%distinct_plug E. unfold plug1 in *.
  destruct (f_sib f) as [|sc sp sl sa sr]; simpl in E.
  - apply (proj1 (Forall_forall _ _) Hnz a); [|done].
    destruct (f_side f); simpl; set_solver.
  - destruct (f_side f); simpl in Hd; rewrite !fmap_app, NoDup_app in Hd;
      destruct Hd as (_ & Hd & _); apply (Hd (addr a)); rewrite ?E; simpl;
      rewrite ?fmap_app, ?fmap_cons; set_solver.
Qed.

Fixpoint ancestor (hand : side) fs s : option (tree A) :=
  match fs with
  | [] => None
  | f :: fs' =>
      if decide (f_side f = other hand) then Some (plug1 f s) else ancestor hand fs' (plug1 f s)
  end.

(** The loop climbs exactly the path, so its fuel, the size of the tree, is
    enough. *)
Lemma find_ancestor_spec fuel fs s hand :
  linked 0 (plug fs s) -> distinct_addrs (plug fs s) -> s <> Leaf -> (length fs < fuel)%nat ->
  find_ancestor_of_hand fuel (plug fs s) s hand = Some (ancestor hand fs s).
Proof.
  revert fuel s. induction fs as [|f fs IH]; intros fuel s Hl Hd Hs Hf;
    (destruct fuel as [|fuel]; [simpl in Hf; lia|]); simpl in Hf.
  { simpl in *. destruct s as [|c p l a r]; [done|]. destruct Hl as [-> _]. done. }
  pose proof (plug_linked _ _ Hl) as Hp. destruct s as [|c p l a r]; [done|]. destruct Hp as [-> _].
  assert (Hne : plug1 f (Node c (addr (f_elt f)) l a r) <> Leaf)
    by (unfold plug1; by destruct (f_side f)).
  simpl plug in *. set (t := plug fs _) in *. simpl find_ancestor_of_hand.
  assert (Hin : inorder t = before fs ++
    inorder (plug1 f (Node c (addr (f_elt f)) l a r)) ++ after fs) by apply plug_inorder.
  destruct (Z.eqb_spec (addr (f_elt f)) 0) as [E|_].
  { exfalso. destruct Hd as [_ Hnz]. rewrite Hin, !Forall_app in Hnz. unfold plug1 in Hnz.
    destruct (f_side f); simpl in Hnz; rewrite Forall_app, Forall_cons in Hnz; tauto. }
  pose proof (node_at_subtree fs _ Hd Hne) as Ea. rewrite plug1_addr in Ea. fold t in Ea.
  rewrite Ea. simpl. case_decide as Hside.
  { unfold plug1. destruct (f_side f), hand; try done; simpl; by rewrite Z.eqb_refl. }
  assert (Esib : child (plug1 f (Node c (addr (f_elt f)) l a r)) (other hand) = f_sib f)
    by (unfold plug1; destruct (f_side f), hand; simpl in *; congruence).
  rewrite Esib. destruct (Z.eqb_spec (node_addr (f_sib f)) (addr a)) as [E|_].
  - by destruct (sibling_distinct _ _ _ _ _ _ _ Hd E).
  - apply IH; [done..|lia].
Qed.

Lemma ancestor_spec hand fs s :
  match ancestor hand fs s with
  | Some y => exists fs', plug fs s = plug fs' y /\ y <> Leaf /\
      option_map addr (match hand with right => head (after fs) | left => last (before fs) end) =
      Some (node_addr y)
  | None => match hand with right => after fs | left => before fs end = []
  end.
Proof.
  revert s. induction fs as [|f fs IH]; intros s; simpl; [by destruct hand|].
  case_decide as Hside.
  - exists fs. split; [done|].
    split; [unfold plug1; by destruct (f_side f)|]. rewrite plug1_addr.
    destruct hand, (f_side f); try done; simpl. by rewrite app_assoc, last_snoc.
  - specialize (IH (plug1 f s)).
    destruct hand, (f_side f); try done; simpl in *; by rewrite ?app_nil_r.
Qed.

Lemma find_limit_spec h max : h <> Leaf ->
  exists x fs, find_limit h max = Some x /\ h = plug fs x /\ x <> Leaf /\
    option_map addr (if max then last (inorder h) else head (inorder h)) = Some (node_addr x).
Proof.
  induction h as [|c p l IHl a r IHr]; [done|]. intros _. destruct max.
  - destruct r as [|rc rp rl ra rr].
    { exists (Node c p l a Leaf), []. simpl. by rewrite last_snoc. }
    destruct IHr as (x & fs & E & Hx & Hn & Ha); [done|].
    set (r := Node rc rp rl ra rr) in *.
    exists x, (fs ++ [{| f_side := right; f_color := c; f_parent := p; f_elt := a; f_sib := l |}]).
    rewrite plug_app, <- Hx. split; [exact E|]. split; [done|]. split; [done|].
    change (inorder (Node c p l a r)) with (inorder l ++ a :: inorder r). rewrite last_app, last_cons.
    by destruct (last (inorder r)).
  - destruct l as [|lc lp ll la lr].
    { by exists (Node c p Leaf a r), []. }
    destruct IHl as (x & fs & E & Hx & Hn & Ha); [done|].
    set (l := Node lc lp ll la lr) in *.
    exists x, (fs ++ [{| f_side := left; f_color := c; f_parent := p; f_elt := a; f_sib := r |}]).
    rewrite plug_app, <- Hx. split; [exact E|]. split; [done|]. split; [done|].
    change (inorder (Node c p l a r)) with (inorder l ++ a :: inorder r). by destruct (inorder l).
Qed.

(** The element next to [x] on a given side, by its address. *)
Definition neighbour (hand : side) fs x : option A :=
  match hand with
  | right => head (inorder (child x right) ++ after fs)
  | left => last (before fs ++ inorder (child x left))
  end.

Lemma get_adjacent_spec fs x hand :
  linked 0 (plug fs x) -> distinct_addrs (plug fs x) -> x <> Leaf ->
  exists o, get_adjacent_inorder (plug fs x) x hand = Some o /\
    match o with
    | Some y => node_at (plug fs x) (node_addr y) = Some y /\
        option_map addr (neighbour hand fs x) = Some (node_addr y)
    | None => neighbour hand fs x = None
    end.
Proof.
  intros Hl Hd Hx. unfold get_adjacent_inorder.
  destruct (is_null (child x hand)) eqn:Ec; simpl.
  - rewrite find_ancestor_spec; [|done..|].
    2: { pose proof (plug_size fs x). destruct x; [done|]. simpl in *. lia. }
    eexists. split; [done|]. pose proof (ancestor_spec hand fs x) as Ha.
    assert (En : neighbour hand fs x =
      match hand with right => head (after fs) | left => last (before fs) end).
    { unfold neighbour. destruct hand, (child x _) eqn:E; try done. simpl. by rewrite app_nil_r. }
    rewrite En. destruct (ancestor hand fs x) as [y|].
    + destruct Ha as (fs' & E & Hy & Ha). split; [|done]. rewrite E in Hd |- *.
      by apply node_at_subtree.
    + by destruct hand; rewrite Ha.
  - destruct (find_limit_spec (child x hand) match hand with left => true | right => false end)
      as (y & fs' & -> & Hy & Hn & Ha); [by destruct (child x hand)|]. simpl.
    eexists. split; [done|]. split.
    + destruct x as [|c p l a r]; [done|].
      assert (Hsub : exists f, Node c p l a r = plug1 f (child (Node c p l a r) hand)).
      { destruct hand.
        - by exists {| f_side := left; f_color := c; f_parent := p; f_elt := a; f_sib := r |}.
        - by exists {| f_side := right; f_color := c; f_parent := p; f_elt := a; f_sib := l |}. }
      destruct Hsub as [f Hf]. rewrite Hy in Hf.
      assert (E : plug fs (Node c p l a r) = plug (fs' ++ f :: fs) y) by (by rewrite plug_app, Hf).
      rewrite E in Hd |- *. by apply node_at_subtree.
    + unfold neighbour. destruct hand.
      * rewrite last_app. by destruct (last (inorder _)).
      * by destruct (inorder (child x right)).
Qed.

End Adjacent.

(** ** Traversal and validation *)

Section Traversal.
Context {A : Type} `{KeyCompare A}.
Implicit Types (h t x n : tree A) (a b k : A).

Fixpoint nodes t : list (tree A) :=
  match t with Leaf => [] | Node _ _ l _ r => nodes l ++ t :: nodes r end.

Fixpoint nodes_preorder t : list (tree A) :=
  match t with Leaf => [] | Node _ _ l _ r => t :: nodes_preorder l ++ nodes_preorder r end.

Fixpoint nodes_postorder t : list (tree A) :=
  match t with Leaf => [] | Node _ _ l _ r => nodes_postorder l ++ nodes_postorder r ++ [t] end.

(** Applying the handler to a list of nodes until it says [false]. *)
Fixpoint visit {S} (rh : S -> tree A -> option (S * bool)) (l : list (tree A)) (s : S) :
    option (S * bool) :=
  match l with
  | [] => Some (s, true)
  | x :: l' => '(s, ok) ← rh s x; if negb ok then Some (s, false) else visit rh l' s
  end.

Lemma visit_app {S} (rh : S -> tree A -> option (S * bool)) l1 l2 s :
  visit rh (l1 ++ l2) s = ('(s, ok) ← visit rh l1 s; if negb ok then Some (s, false) else visit rh l2 s).
Proof.
  revert s. induction l1 as [|x l1 IH]; intros s; simpl; [done|].
  destruct (rh s x) as [[s' []]|]; simpl; auto.
Qed.

Lemma traverse_inorder_visit {S} (rh : S -> tree A -> option (S * bool)) t s :
  traverse_inorder rh t s = visit rh (nodes t) s.
Proof.
  revert s. induction t as [|c p l IHl a r IHr]; intros s; simpl; [done|].
  rewrite visit_app, IHl. destruct (visit rh (nodes l) s) as [[s' []]|]; simpl; [|done..].
  destruct (rh s' _) as [[s'' []]|]; simpl; auto.
Qed.

Lemma traverse_preorder_visit {S} (rh : S -> tree A -> option (S * bool)) t s :
  traverse_preorder rh t s = visit rh (nodes_preorder t) s.
Proof.
  revert s. induction t as [|c p l IHl a r IHr]; intros s; simpl; [done|].
  destruct (rh s _) as [[s' []]|]; simpl; [|done..].
  rewrite visit_app, IHl. by destruct (visit rh (nodes_preorder l) s') as [[s'' []]|]; simpl.
Qed.

Lemma traverse_postorder_visit {S} (rh : S -> tree A -> option (S * bool)) t s :
  traverse_postorder rh t s = visit rh (nodes_postorder t) s.
Proof.
  revert s. induction t as [|c p l IHl a r IHr]; intros s; cbn [traverse_postorder nodes_postorder]; [done|].
  rewrite !visit_app, IHl. destruct (visit rh (nodes_postorder l) s) as [[s' []]|]; simpl; [|done..].
  rewrite visit_app, IHr. destruct (visit rh (nodes_postorder r) s') as [[s'' []]|]; simpl; [|done..].
  by destruct (rh s'' _) as [[? []]|].
Qed.

Lemma nodes_elts t : elt_of <$> nodes t = (fun a => [a]) <$> inorder t.
Proof. induction t as [|c p l IHl a r IHr]; simpl; [done|]. by rewrite !fmap_app, !fmap_cons, IHl, IHr. Qed.

Lemma nodes_orders_perm t : nodes_preorder t ≡ₚ nodes t /\ nodes_postorder t ≡ₚ nodes t.
Proof.
  induction t as [|c p l [IHl1 IHl2] a r [IHr1 IHr2]]; simpl; [done|].
  split; [rewrite IHl1, IHr1|rewrite IHl2, IHr2].
  - by rewrite Permutation_middle.
  - apply Permutation_app_head. by rewrite Permutation_app_comm.
Qed.

Lemma nodes_subtree t x : x ∈ nodes t -> x <> Leaf /\ exists fs, t = plug fs x.
Proof.
  induction t as [|c p l IHl a r IHr]; simpl; [by intros ?%elem_of_nil|].
  rewrite elem_of_app, elem_of_cons. intros [Hx|[->|Hx]].
  - destruct (IHl Hx) as [? [fs ->]]. split; [done|].
    exists (fs ++ [{| f_side := left; f_color := c; f_parent := p; f_elt := a; f_sib := r |}]).
    by rewrite plug_app.
  - split; [done|]. by exists [].
  - destruct (IHr Hx) as [? [fs ->]]. split; [done|].
    exists (fs ++ [{| f_side := right; f_color := c; f_parent := p; f_elt := a; f_sib := l |}]).
    by rewrite plug_app.
Qed.

Lemma nodes_addrs t : node_addr <$> nodes t = addr <$> inorder t.
Proof. induction t as [|c p l IHl a r IHr]; simpl; [done|]. by rewrite !fmap_app, !fmap_cons, IHl, IHr. Qed.

Lemma node_at_nodes t x : distinct_addrs t -> x ∈ nodes t -> node_at t (node_addr x) = Some x.
Proof. intros Hd Hx. apply nodes_subtree in Hx as [Hx [fs ->]]. by apply node_at_subtree. Qed.

(** [get_next] and [get_prev] step through the in-order list of nodes. *)
Lemma get_adjacent_nodes t l1 x l2 :
  linked 0 t -> distinct_addrs t -> nodes t = l1 ++ x :: l2 ->
  rbnode_get_next t x = Some (head l2) /\ rbnode_get_prev t x = Some (last l1).
Proof.
  intros Hl Hd E.
  assert (Hx : x ∈ nodes t) by (rewrite E, elem_of_app; right; by left).
  destruct (nodes_subtree t x Hx) as [Hn [fs ->]].
  assert (Hpos : addr <$> (before fs ++ inorder (child x left)) = node_addr <$> l1 /\
                 addr <$> (inorder (child x right) ++ after fs) = node_addr <$> l2).
  { pose proof (nodes_addrs (plug fs x)) as Ha. rewrite E, plug_inorder in Ha.
    destruct Hd as [Hd _]. rewrite plug_inorder in Hd. destruct x as [|c p l a r]; [done|].
    simpl in Ha, Hd |- *.
    rewrite !fmap_app, !fmap_cons in Ha. rewrite !fmap_app, !fmap_cons in Hd. rewrite !fmap_app.
    apply (NoDup_split_unique (addr a)); rewrite <- !app_assoc in *; simpl in *; [done|].
    by rewrite Ha. }
  destruct Hpos as [Hp1 Hp2].
  assert (Hsame : forall y z, node_at (plug fs x) (node_addr y) = Some y ->
    z ∈ nodes (plug fs x) -> node_addr y = node_addr z -> y = z).
  { intros y z Hy Hz Eyz. rewrite Eyz, node_at_nodes in Hy by done. congruence. }
  unfold rbnode_get_next, rbnode_get_prev. split.
  - destruct (get_adjacent_spec fs x right Hl Hd Hn) as (o & -> & Ho). f_equal. simpl in Ho.
    rewrite E in Hsame. destruct (inorder (child x right) ++ after fs), l2 as [|z l2];
      simpl in Hp2, Ho; try done; destruct o as [y|]; try done; [by destruct Ho|].
    destruct Ho as [Hy Ho]. simpl in Ho |- *. f_equal. apply Hsame; [done| |congruence].
    rewrite elem_of_app. right. right. by left.
  - destruct (get_adjacent_spec fs x left Hl Hd Hn) as (o & -> & Ho). f_equal. simpl in Ho.
    rewrite E in Hsame.
    assert (Hlast : option_map addr (last (before fs ++ inorder (child x left))) =
                    option_map node_addr (last l1)) by (rewrite <- !(fmap_last _ _), Hp1; done).
    destruct (last (before fs ++ inorder (child x left))), (last l1) as [z|] eqn:El;
      simpl in Hlast; try done; destruct o as [y|]; try done; [|by destruct Ho].
    destruct Ho as [Hy Ho]. simpl in Ho |- *. f_equal. apply Hsame; [done| |congruence].
    apply last_Some in El as [l' ->]. rewrite !elem_of_app. left. right. by left.
Qed.

End Traversal.

Section Validation.
Context {A : Type} `{KeyCompare A}.
Implicit Types (h t x : tree A) (a b k : A).

Definition black_bit (c : color) : Z := match c with black => 1 | red => 0 end.

(** Parent links, colours and leaning as the local checks see them. *)
Lemma local_checks p c' l a r c n :
  llrb (Node c' p l a r) c n -> linked p (Node c' p l a r) ->
  is_black_or_null l && (negb (is_null r) && is_red r) = false /\
  parent_child_check (Node c' p l a r) left = STATUS_OK /\
  parent_child_check (Node c' p l a r) right = STATUS_OK.
Proof.
  intros Hb (_ & Hl & Hr). unfold parent_child_check.
  assert (Hchild : forall x cx m, llrb x cx m -> linked (addr a) x ->
     is_null x = false -> (parent x =? addr a) = true).
  { intros [|] ? ? _ Hx Hn; [done|]. destruct Hx as [-> _]. apply Z.eqb_refl. }
  inversion Hb as [|? ? ? ? ? Hbl Hbr|? ? ? ? cl ? Hbl Hbr]; subst; simpl;
    (destruct (is_null l) eqn:El; [|rewrite (Hchild l _ _ Hbl Hl El)]);
    (destruct (is_null r) eqn:Er; [|rewrite (Hchild r _ _ Hbr Hr Er)]);
    unfold is_red, is_black_or_null, is_red, is_black, is_null, negb;
    inversion Hbl; inversion Hbr; subst; simpl in *; done.
Qed.

Lemma llrb_node_inv p c' l a r c n :
  llrb (Node c' p l a r) c n ->
  exists cl m, llrb l cl m /\ llrb r black m /\ c' = c /\ Z.of_nat n = Z.of_nat m + black_bit c.
Proof. inversion 1; subst; do 2 eexists; (split; [done|]); (split; [done|]); (split; [done|]); simpl; lia. Qed.

Lemma validate_tree_ok h c n p links bc :
  llrb h c n -> linked p h -> h <> Leaf -> 0 <= links -> links + Z.of_nat n - black_bit c < infinity ->
  bc = infinity \/ bc = links + Z.of_nat n - black_bit c ->
  validate_tree_invariants h links bc = (STATUS_OK, links + Z.of_nat n - black_bit c).
Proof.
  revert c n p links bc. induction h as [|c' q l IHl a r IHr];
    intros c n p links bc Hb Hl Hne H0 Hn Hbc; [done|].
  pose proof Hl as (-> & Hll & Hlr).
  destruct (local_checks _ _ _ _ _ _ _ Hb Hl) as (E1 & E2 & E3).
  cbn [validate_tree_invariants]. rewrite E1, E2, E3. clear E1 E2 E3.
  destruct (llrb_node_inv _ _ _ _ _ _ _ Hb) as (cl & m & Hbl & Hbr & -> & En).
  assert (0 <= black_bit c <= 1) by (destruct c; simpl; lia).
  replace (links + Z.of_nat n - black_bit c) with (links + Z.of_nat m) in * by lia.
  assert (Hchild : forall x cx bc, llrb x cx m -> linked (addr a) x -> is_null x = false ->
    (forall c n p links bc, llrb x c n -> linked p x -> x <> Leaf -> 0 <= links ->
       links + Z.of_nat n - black_bit c < infinity -> bc = infinity \/ bc = links + Z.of_nat n - black_bit c ->
       validate_tree_invariants x links bc = (STATUS_OK, links + Z.of_nat n - black_bit c)) ->
    bc = infinity \/ bc = links + Z.of_nat m ->
    validate_tree_invariants x (u64 (links + if is_black x then 1 else 0)) bc =
      (STATUS_OK, links + Z.of_nat m)).
  { intros x cx bc0 Hx Hlx Hnx IH Hbc0.
    assert (Eb : (if is_black x then 1 else 0) = black_bit cx)
      by (unfold is_black; rewrite (llrb_color _ _ _ Hx); by destruct cx).
    assert (0 <= black_bit cx <= 1) by (destruct cx; simpl; lia).
    assert (black_bit cx <= Z.of_nat m).
    { pose proof Hx as Hx'. destruct Hx'; [done|simpl; lia..]. }
    rewrite Eb, u64_small by (unfold infinity in *; lia).
    rewrite (IH cx m (addr a)); [f_equal; lia|done|done|by destruct x|lia|lia|].
    destruct Hbc0 as [-> | ->]; [by left|right; lia]. }
  destruct (is_null l) eqn:El, (is_null r) eqn:Er; simpl.
  - destruct l; [|done]. inversion Hbl; subst. simpl in Hbc |- *.
    destruct Hbc as [-> | ->]; [simpl; f_equal; lia|].
    rewrite Z.add_0_r, Z.eqb_refl. by case_match.
  - destruct l; [|done]. inversion Hbl; subst. by inversion Hbr; subst.
  - by rewrite (Hchild l cl bc).
  - rewrite (Hchild l cl bc) by done. apply (Hchild r black); try done. by right.
Qed.

Lemma run_test_inorder t l1 l2 :
  linked 0 t -> distinct_addrs t -> nodes t = l1 ++ l2 ->
  visit (test_inorder_node t) l2 (default Leaf (last l1), STATUS_OK) =
    Some (default Leaf (last (nodes t)), STATUS_OK, true).
Proof.
  intros Hl Hd. revert l1. induction l2 as [|x l2 IH]; intros l1 E; cbn [visit].
  { by rewrite E, app_nil_r. }
  destruct (get_adjacent_nodes t l1 x l2 Hl Hd E) as [_ Hprev].
  assert (Hnext : test_inorder_node t (default Leaf (last l1), STATUS_OK) x =
    Some (x, STATUS_OK, true)).
  { unfold test_inorder_node. rewrite Hprev.
    destruct (last l1) as [y|] eqn:Ey; simpl; [|done].
    apply last_Some in Ey as [l1' ->]. rewrite <- app_assoc in E. simpl in E.
    destruct (get_adjacent_nodes t l1' y (x :: l2) Hl Hd E) as [Hnext _].
    destruct (nodes_subtree t y) as [Hy _]; [rewrite E, elem_of_app; right; by left|].
    destruct y as [|yc yp yl ya yr]; [done|]. simpl. rewrite Z.eqb_refl. simpl.
    rewrite Hnext. simpl. by rewrite Z.eqb_refl. }
  rewrite Hnext. simpl. rewrite <- (IH (l1 ++ [x])); [by rewrite last_snoc|].
  by rewrite <- app_assoc.
Qed.

Lemma test_inorder_ok (t : rbtree) :
  linked 0 (root t) -> distinct_addrs (root t) -> test_inorder t = Some STATUS_OK.
Proof.
  intros Hl Hd. unfold test_inorder, rbtree_traverse.
  pose proof (run_test_inorder (root t) [] (nodes (root t)) Hl Hd eq_refl) as Hrun. simpl in Hrun.
  rewrite traverse_inorder_visit, Hrun. simpl. destruct (last (nodes (root t))) as [y|] eqn:Ey; simpl; [|done].
  apply last_Some in Ey as [l1 E].
  destruct (get_adjacent_nodes _ _ _ _ Hl Hd E) as [-> _]. simpl. by case_match.
Qed.

End Validation.

Import IntKey.

(** On a well-formed tree whose nodes have distinct non-null addresses,
    [rbnode_get_next] and [rbnode_get_prev] give the neighbours of a node in the
    in-order sequence of nodes, and [INVALID_ADDRESS] at its ends; the climb
    through parent links ends within its bound. *)
Theorem rbnode_adjacent {A} `{KeyOrder A} (t : rbtree (A:=A)) l1 x l2 :
  rbtree_inv t -> distinct_addrs (root t) -> nodes (root t) = l1 ++ x :: l2 ->
  rbnode_get_next (root t) x = Some (head l2) /\ rbnode_get_prev (root t) x = Some (last l1).
Proof. intros Hinv. apply get_adjacent_nodes, Hinv. Qed.

(** A tree of three nodes, as the insertions build it. *)
Definition three_nodes : rbtree :=
  default init_rbtree (fst <$> perform_all init_rbtree [Insert 3; Insert 1; Insert 2]).

Lemma three_nodes_inv : rbtree_inv three_nodes.
Proof.
  destruct (perform_all_spec init_rbtree [Insert 3; Insert 1; Insert 2] init_rbtree_inv)
    as (t & rs & E & _ & Hinv); [done|].
  unfold three_nodes. by rewrite E.
Qed.

Lemma three_nodes_distinct : distinct_addrs (root three_nodes).
Proof. split; vm_compute; repeat constructor; set_solver. Qed.

(** [rbtree_validate] accepts every well-formed tree whose nodes have
    distinct non-null addresses. *)
Theorem rbtree_validate_ok {A} `{KeyOrder A} (t : rbtree (A:=A)) :
  rbtree_inv t -> distinct_addrs (root t) -> rbtree_get_count t < 2 ^ 64 - 1 ->
  rbtree_validate t = Some STATUS_OK.
Proof.
  intros [[n Hb] Hs Hl Hc] Hd Hcap. unfold rbtree_validate, rbtree_get_count, contents in *.
  pose proof (test_inorder_ok t Hl Hd) as Htest.
  destruct (llrb_height _ _ _ Hb) as [_ Hn]. rewrite tree_size_inorder in Hn.
  assert (Z.of_nat n < 2 ^ Z.of_nat n) by (apply Z.pow_gt_lin_r; lia).
  destruct (root t) as [|c p l a r] eqn:Er; [done|].
  rewrite (validate_tree_ok _ black n 0); [done|done|done|done|lia| |by left].
  simpl black_bit. unfold infinity. lia.
Qed.
