(* ===== verification/Rangemap.v ===== *)
(** Range maps: [kernel/src/runtime/range.h] and [range.c].

    A range map is a red-black tree of [rmnode]s keyed by the start of their
    ranges.  A node is named by its address, as the code's pointers do, and read
    through the tree ([rm_deref]); [None] stands for [INVALID_ADDRESS].  The
    address [allocate] returns for a new node is an argument of the operations
    that allocate ([None] is a failed allocation), and [freed] records the nodes
    handed to [deallocate]. *)

From S2P Require Import Prelude Range Rbtree RbWalk.

(** ** The map *)

Record rmnode := { n_addr : Z; n_r : range }.

Definition rmnode_compare (a b : rmnode) : Z :=
  let sa := start (n_r a) in
  let sb := start (n_r b) in
  if sa =? sb then 0 else if sa <? sb then -1 else 1.

#[export] Instance rmnode_key : KeyCompare rmnode :=
  {| addr := n_addr; key_compare := rmnode_compare |}.

#[export] Instance rmnode_order : KeyOrder rmnode.
Proof.
  split; simpl; unfold rmnode_compare; intros; repeat case_match; breflect; simpl in *; lia.
Qed.

Record rangemap := { t : rbtree (A := rmnode); freed : list Z }.

Definition init_rangemap : rangemap := {| t := init_rbtree; freed := [] |}.

Definition set_t (rm : rangemap) (x : rbtree) : rangemap := {| t := x; freed := freed rm |}.

(** Reading the node at an address; every pointer the code follows is to a node
    of the map. *)
Definition rm_node (rm : rangemap) (p : Z) : option (tree rmnode) := node_at (root (t rm)) p.

Definition rm_deref (rm : rangemap) (p : Z) : option rmnode :=
  x ← rm_node rm p; node_elt x.

Definition rm_addr (o : option (tree rmnode)) : option Z := x ← o; Some (node_addr x).

Definition rangemap_prev_node (rm : rangemap) (p : Z) : option (option Z) :=
  x ← rm_node rm p; y ← rbnode_get_prev (root (t rm)) x; Some (rm_addr y).

Definition rangemap_next_node (rm : rangemap) (p : Z) : option (option Z) :=
  x ← rm_node rm p; y ← rbnode_get_next (root (t rm)) x; Some (rm_addr y).

Definition rangemap_first_node (rm : rangemap) : option (option Z) :=
  x ← rbtree_find_first (t rm); Some (rm_addr x).

(** The key node the lookups build on the stack. *)
Definition key_node (r : range) : rmnode := {| n_addr := 0; n_r := r |}.

Definition rangemap_lookup_max_lte (rm : rangemap) (point : Z) : option Z :=
  if is_null (root (t rm)) then None
  else rm_addr (rbtree_lookup_max_lte (t rm) (key_node (irange point (u64 (point + 1))))).

Definition rangemap_remove_node (rm : rangemap) (n : rmnode) : option rangemap :=
  x ← rbtree_remove_node (t rm) n; Some (set_t rm x).

Definition rangemap_count (rm : rangemap) : Z := rbtree_get_count (t rm).

(** In-place stores to [n->r] of a node in the tree. *)
Fixpoint tree_set_range (p : Z) (r : range) (x : tree rmnode) : tree rmnode :=
  match x with
  | Leaf => Leaf
  | Node c q l a rt =>
      Node c q (tree_set_range p r l)
        (if n_addr a =? p then {| n_addr := n_addr a; n_r := r |} else a)
        (tree_set_range p r rt)
  end.

Definition rmnode_set_range (rm : rangemap) (p : Z) (r : range) : rangemap :=
  set_t rm {| root := tree_set_range p r (root (t rm)); count := count (t rm) |}.

(** The [while] loop of [rangemap_lookup_at_or_next]. *)
Fixpoint skip_before (fuel : nat) (rm : rangemap) (n : option Z) (point : Z) : option (option Z) :=
  match fuel with
  | O => None
  | S fuel' =>
      match n with
      | None => Some None
      | Some p =>
          a ← rm_deref rm p;
          if end_ (n_r a) <=? point then
            n ← rangemap_next_node rm p;
            skip_before fuel' rm n point
          else Some n
      end
  end.

Definition map_fuel (rm : rangemap) : nat := S (tree_size (root (t rm))).
#[global] Arguments map_fuel : simpl never.

Definition rangemap_lookup_at_or_next (rm : rangemap) (point : Z) : option (option Z) :=
  if is_null (root (t rm)) then Some None
  else
    let n := rm_addr (rbtree_lookup_max_lte (t rm) (key_node (irange point (u64 (point + 1))))) in
    n ← (match n with
         | None => n ← rangemap_first_node rm; _ ← kassert (negb (bool_decide (n = Some 0))); Some n
         | Some _ => Some n
         end);
    skip_before (map_fuel rm) rm n point.

(** [rangemap_foreach_of_range]: the next node is fetched before the body runs,
    and the loop ends at the first node that does not intersect the range.  A
    body continues with its variables ([inl]) or leaves the loop ([inr]). *)
Section Foreach.
Context {S R : Type} (body : rangemap -> S -> rmnode -> option (rangemap * (S + R))).

Fixpoint foreach_of_range (fuel : nat) (rm : rangemap) (k : range) (n : option Z) (s : S)
    : option (rangemap * (S + R)) :=
  match fuel with
  | O => None
  | Datatypes.S fuel' =>
      match n with
      | None => Some (rm, inl s)
      | Some p =>
          a ← rm_deref rm p;
          next ← rangemap_next_node rm p;
          if 0 <? range_span (range_intersection k (n_r a)) then
            '(rm, o) ← body rm s a;
            match o with
            | inl s => foreach_of_range fuel' rm k next s
            | inr r => Some (rm, inr r)
            end
          else Some (rm, inl s)
      end
  end.

Definition rangemap_foreach_of_range (rm : rangemap) (k : range) (s : S)
    : option (rangemap * (S + R)) :=
  n ← rangemap_lookup_at_or_next rm (start k);
  foreach_of_range (map_fuel rm) rm k n s.
End Foreach.

Definition rangemap_insert (rm : rangemap) (n : rmnode) : option (rangemap * bool) :=
  '(rm, o) ← rangemap_foreach_of_range (S:=unit) (R:=bool)
    (fun rm (_ : unit) curr =>
       if end_ (n_r n) <=? start (n_r curr) then Some (rm, inr true)
       else if negb (range_span (range_intersection (n_r curr) (n_r n)) =? 0)
       then Some (rm, inr false)
       else Some (rm, inl tt)) rm (n_r n) tt;
  match o with
  | inr false => Some (rm, false)
  | _ =>
      '(x, inserted) ← rbtree_insert_node (t rm) (init_rbnode n);
      _ ← kassert inserted;
      Some (set_t rm x, true)
  end.

Definition rangemap_reinsert (rm : rangemap) (n : rmnode) (k : range) : option (rangemap * bool) :=
  rm ← rangemap_remove_node rm n;
  '(rm, ok) ← rangemap_insert rm {| n_addr := n_addr n; n_r := k |};
  if (ok : bool) then Some (rm, true)
  else
    '(rm, ok) ← rangemap_insert rm n;
    _ ← kassert ok;
    Some (rm, false).

Definition rangemap_remove_range (rm : rangemap) (n : rmnode) : option rangemap :=
  rm ← rangemap_remove_node rm n;
  Some {| t := t rm; freed := n_addr n :: freed rm |}.

(** The [while] loop of [rangemap_insert_range]; [merged] is the address of the
    node that absorbs the others. *)
Fixpoint merge_range (fuel : nat) (rm : rangemap) (r : range) (n merged : option Z)
    : option (rangemap * option Z) :=
  match fuel with
  | O => None
  | S fuel' =>
      match n with
      | None => Some (rm, merged)
      | Some p =>
          a ← rm_deref rm p;
          if start (n_r a) <=? end_ r then
            next ← rangemap_next_node rm p;
            match merged with
            | None =>
                let s := if start r <? start (n_r a) then start r else start (n_r a) in
                let e := if end_ (n_r a) <? end_ r then end_ r else end_ (n_r a) in
                merge_range fuel' (rmnode_set_range rm p (irange s e)) r next (Some p)
            | Some m =>
                b ← rm_deref rm m;
                let rm :=
                  if end_ (n_r b) <? end_ (n_r a)
                  then rmnode_set_range rm m (irange (start (n_r b)) (end_ (n_r a))) else rm in
                rm ← rangemap_remove_range rm a;
                merge_range fuel' rm r next merged
            end
          else Some (rm, merged)
      end
  end.

(** Where the search of [rangemap_insert_range] starts. *)
Definition insert_range_start (rm : rangemap) (r : range) : option (option Z) :=
  n ← (match rm_addr (rbtree_lookup_max_lte (t rm) (key_node r)) with
       | None => rangemap_first_node rm
       | Some p => Some (Some p)
       end);
  match n with
  | None => Some None
  | Some p =>
      a ← rm_deref rm p;
      if end_ (n_r a) <? start r then rangemap_next_node rm p else Some n
  end.

Definition rangemap_insert_range (rm : rangemap) (r : range) (alloc : option Z)
    : option (rangemap * bool) :=
  n ← insert_range_start rm r;
  '(rm, merged) ← merge_range (map_fuel rm) rm r n None;
  match merged with
  | Some _ => Some (rm, true)
  | None =>
      match alloc with
      | None => Some (rm, false)
      | Some p =>
          '(rm, _) ← rangemap_insert rm {| n_addr := p; n_r := r |};
          Some (rm, true)
      end
  end.

(** The body of the loop of [rangemap_insert_hole]: it always leaves the loop. *)
Definition insert_hole_node (r : range) (alloc : option Z) (rm : rangemap) (_ : unit)
    (curr : rmnode) : option (rangemap * (unit + bool)) :=
  let cr := n_r curr in
  if (start r <? start cr) || (end_ cr <? end_ r) then Some (rm, inr false)
  else if start cr <? start r then
    if end_ r <? end_ cr then
      match alloc with
      | None => Some (rm, inr false)
      | Some p =>
          let n := {| n_addr := p; n_r := irange (end_ r) (end_ cr) |} in
          '(rm, _) ← rangemap_reinsert rm curr (irange (start cr) (start r));
          '(rm, _) ← rangemap_insert rm n;
          Some (rm, inr true)
      end
    else
      '(rm, _) ← rangemap_reinsert rm curr (irange (start cr) (start r));
      Some (rm, inr true)
  else if end_ r <? end_ cr then
    '(rm, _) ← rangemap_reinsert rm curr (irange (end_ r) (end_ cr));
    Some (rm, inr true)
  else
    rm ← rangemap_remove_range rm curr;
    Some (rm, inr true).

Definition rangemap_insert_hole (rm : rangemap) (r : range) (alloc : option Z)
    : option (rangemap * bool) :=
  '(rm, o) ← rangemap_foreach_of_range (insert_hole_node r alloc) rm r tt;
  Some (rm, match o with inr b => b | inl _ => false end).

Definition rangemap_lookup (rm : rangemap) (point : Z) : option (option Z) :=
  let k := irange point (u64 (point + 1)) in
  '(_, o) ← rangemap_foreach_of_range (S:=unit) (R:=option Z)
    (fun rm (_ : unit) curr =>
       if end_ k <=? start (n_r curr) then Some (rm, inr None)
       else if negb (range_span (range_intersection (n_r curr) k) =? 0)
       then Some (rm, inr (Some (n_addr curr)))
       else Some (rm, inl tt)) rm k tt;
  Some (match o with inr x => x | inl _ => None end).

Definition rangemap_range_intersects (rm : rangemap) (q : range) : option bool :=
  '(_, o) ← rangemap_foreach_of_range (S:=unit) (R:=bool)
    (fun rm (_ : unit) n =>
       if negb (range_empty (range_intersection (n_r n) q)) then Some (rm, inr true)
       else Some (rm, inl tt)) rm q tt;
  Some (match o with inr b => b | inl _ => false end).

Inductive lookup_result := RM_NOMATCH | RM_ABORT | RM_MATCH.

(** The handlers thread a state [H]; [false] aborts the walk. *)
Section RangeLookup.
Context {H : Type}.
Implicit Types (node_handler : option (H -> rmnode -> H * bool))
  (gap_handler : option (H -> range -> H * bool)).

Definition apply_gap gap_handler (q : range) (lastedge edge : Z) (s : H) (mtch : bool)
    : H * bool * bool :=
  match gap_handler with
  | None => (s, mtch, true)
  | Some gh =>
      let i := range_intersection (irange lastedge edge) q in
      if negb (range_span i =? 0) then let '(s, ok) := gh s i in (s, true, ok)
      else (s, mtch, true)
  end.

Definition apply_node node_handler (q : range) (curr : rmnode) (s : H) (mtch : bool)
    : H * bool * bool :=
  match node_handler with
  | None => (s, mtch, true)
  | Some nh =>
      let i := range_intersection (n_r curr) q in
      if negb (range_empty i) then let '(s, ok) := nh s curr in (s, true, ok)
      else (s, mtch, true)
  end.

Definition lookup_step node_handler gap_handler (q : range) (rm : rangemap)
    (st : H * bool * Z) (curr : rmnode) : option (rangemap * ((H * bool * Z) + H)) :=
  let '(s, mtch, lastedge) := st in
  let '(s, mtch, ok) := apply_gap gap_handler q lastedge (start (n_r curr)) s mtch in
  if negb ok then Some (rm, inr s)
  else
    let lastedge := match gap_handler with None => lastedge | Some _ => end_ (n_r curr) end in
    let '(s, mtch, ok) := apply_node node_handler q curr s mtch in
    if negb ok then Some (rm, inr s) else Some (rm, inl (s, mtch, lastedge)).

Definition rangemap_range_lookup_internal (rm : rangemap) (q : range) node_handler gap_handler
    (s : H) : option (H * lookup_result) :=
  '(_, o) ← rangemap_foreach_of_range (lookup_step node_handler gap_handler q) rm q
    (s, false, start q);
  match o with
  | inr s => Some (s, RM_ABORT)
  | inl (s, mtch, lastedge) =>
      let '(s, mtch, ok) := apply_gap gap_handler q lastedge (end_ q) s mtch in
      if negb ok then Some (s, RM_ABORT)
      else Some (s, if (mtch : bool) then RM_MATCH else RM_NOMATCH)
  end.

Definition rangemap_range_lookup rm q nh s :=
  rangemap_range_lookup_internal rm q (Some nh) None s.

Definition rangemap_range_lookup_with_gaps rm q nh gh s :=
  rangemap_range_lookup_internal rm q (Some nh) (Some gh) s.

Definition rangemap_range_find_gaps rm q gh s :=
  rangemap_range_lookup_internal rm q None (Some gh) s.
End RangeLookup.

(** Destruction: the destructor sees every node in post-order. *)
Definition destruct_rangemap {H} (rm : rangemap) (destructor : H -> rmnode -> H) (s : H)
    : option (rangemap * H) :=
  '(x, s) ← destruct_rbtree
    (fun s n => a ← node_elt n; Some (destructor s a, true)) (t rm) s;
  Some (set_t rm x, s).

(** ** Well-formed maps *)

Definition valid_range (r : range) : Prop := 0 <= start r < end_ r /\ end_ r < 2 ^ 64.

Definition in_range (r : range) (x : Z) : Prop := start r <= x < end_ r.

Definition overlap (a b : range) : bool := Z.max (start a) (start b) <? Z.min (end_ a) (end_ b).

Definition rm_contents (rm : rangemap) : list rmnode := contents (t rm).

(** The node ends where or before the next one starts. *)
Definition precedes (a b : rmnode) : Prop := end_ (n_r a) <= start (n_r b).

Record wf_nodes (l : list rmnode) : Prop := {
  wf_valid : Forall (fun a => valid_range (n_r a)) l;
  wf_disjoint : StronglySorted precedes l;
  wf_addrs : NoDup (n_addr <$> l);
  wf_nonnull : Forall (fun a => n_addr a <> 0) l;
}.

(** What following pointers needs. *)
Definition rm_ok (rm : rangemap) : Prop :=
  rbtree_inv (t rm) /\ distinct_addrs (root (t rm)).

Record rm_wf (rm : rangemap) : Prop := {
  wf_tree : rbtree_inv (t rm);
  wf_contents : wf_nodes (rm_contents rm);
}.

(** The set of points the map covers. *)
Definition covers (l : list rmnode) (x : Z) : Prop := exists a, a ∈ l /\ in_range (n_r a) x.

Lemma intersection_span a b :
  valid_range a -> (range_span (range_intersection a b) =? 0) = negb (overlap a b).
Proof.
  unfold valid_range, range_intersection, overlap, range_span. intros Ha. simpl.
  destruct (Z.leb_spec (Z.min (end_ a) (end_ b)) (Z.max (start a) (start b))); simpl;
    destruct (Z.ltb_spec (Z.max (start a) (start b)) (Z.min (end_ a) (end_ b))); try lia; simpl.
  rewrite u64_small by lia. apply Z.eqb_neq. lia.
Qed.

Lemma range_intersection_comm a b : range_intersection a b = range_intersection b a.
Proof. unfold range_intersection. by rewrite Z.max_comm, Z.min_comm. Qed.

Lemma overlap_comm a b : overlap a b = overlap b a.
Proof. unfold overlap. by rewrite Z.max_comm, Z.min_comm. Qed.

Lemma intersection_span_r a b :
  valid_range b -> (range_span (range_intersection a b) =? 0) = negb (overlap a b).
Proof. rewrite range_intersection_comm, overlap_comm. apply intersection_span. Qed.

Lemma intersection_span_pos a b :
  valid_range b -> (0 <? range_span (range_intersection a b)) = overlap a b.
Proof.
  intros Hb. pose proof (intersection_span_r a b Hb) as E.
  assert (0 <= range_span (range_intersection a b)) by apply u64_range.
  destruct (Z.ltb_spec 0 (range_span (range_intersection a b))) as [Hlt|Hge].
  - destruct (Z.eqb_spec (range_span (range_intersection a b)) 0); [lia|].
    destruct (overlap a b); [done|discriminate].
  - destruct (Z.eqb_spec (range_span (range_intersection a b)) 0); [|lia].
    destruct (overlap a b); [discriminate|done].
Qed.

Lemma overlap_spec a b : overlap a b = true <-> exists x, in_range a x /\ in_range b x.
Proof.
  unfold overlap, in_range. rewrite Z.ltb_lt. split.
  - intros Hlt. exists (Z.max (start a) (start b)). lia.
  - intros (x & ? & ?). lia.
Qed.

Lemma rmnode_compare_lt a b : key_lt a b <-> start (n_r a) < start (n_r b).
Proof. unfold key_lt. simpl. unfold rmnode_compare. repeat case_match; breflect; lia. Qed.

Lemma rmnode_compare_sign a b :
  Z.sgn (key_compare a b) = Z.sgn (start (n_r a) - start (n_r b)).
Proof. simpl. unfold rmnode_compare. repeat case_match; breflect; simpl; lia. Qed.

Lemma wf_nodes_app l1 l2 : wf_nodes (l1 ++ l2) -> wf_nodes l1 /\ wf_nodes l2.
Proof.
  intros [Hv Hs Hd Hn]. rewrite Forall_app in Hv, Hn. rewrite fmap_app, NoDup_app in Hd.
  apply StronglySorted_app in Hs as (? & ? & ?). split; split; tauto.
Qed.

Lemma precedes_mid l1 a l2 :
  wf_nodes (l1 ++ a :: l2) ->
  Forall (fun b => end_ (n_r b) <= start (n_r a)) l1 /\
  Forall (fun b => end_ (n_r a) <= start (n_r b)) l2 /\ valid_range (n_r a).
Proof.
  intros [Hv Hs _ _]. apply StronglySorted_app in Hs as (Hx & Hl1 & Hl2).
  apply StronglySorted_cons in Hl2 as [Ha _].
  rewrite Forall_app, Forall_cons in Hv. split; [|split; [exact Ha|tauto]].
  apply Forall_forall. intros b Hb. apply Hx; [done|by left].
Qed.

Lemma wf_ok rm : rm_wf rm -> rm_ok rm.
Proof. by intros [Ht [_ _ Hd Hn]]. Qed.
#[export] Hint Resolve wf_ok : kernel.

(** ** Following pointers *)

Lemma nodes_node_elt (x : tree rmnode) : node_elt <$> nodes x = Some <$> inorder x.
Proof. induction x as [|c p l IHl a r IHr]; simpl; [done|]. by rewrite !fmap_app, !fmap_cons, IHl, IHr. Qed.

Lemma nodes_split (x : tree rmnode) l1 a l2 :
  inorder x = l1 ++ a :: l2 ->
  exists n1 y n2, nodes x = n1 ++ y :: n2 /\ node_elt y = Some a /\
    node_elt <$> n1 = Some <$> l1 /\ node_elt <$> n2 = Some <$> l2.
Proof.
  intros E. pose proof (nodes_node_elt x) as Hn. rewrite E, fmap_app, fmap_cons in Hn.
  apply fmap_app_inv in Hn as (n1 & n2' & E1 & E2 & En).
  destruct n2' as [|y n2]; [done|]. rewrite fmap_cons in E2. simplify_eq/=. eauto 10.
Qed.

Lemma node_elt_addr (y : tree rmnode) a : node_elt y = Some a -> node_addr y = n_addr a.
Proof. destruct y; simpl; congruence. Qed.

Section Pointers.
Variables (rm : rangemap) (l1 : list rmnode) (a : rmnode) (l2 : list rmnode).
Hypothesis Hok : rm_ok rm.
Hypothesis Hin : rm_contents rm = l1 ++ a :: l2.

Lemma node_of : exists n1 y n2, nodes (root (t rm)) = n1 ++ y :: n2 /\ node_elt y = Some a /\
  node_elt <$> n1 = Some <$> l1 /\ node_elt <$> n2 = Some <$> l2 /\ rm_node rm (n_addr a) = Some y.
Proof.
  destruct (nodes_split _ _ _ _ Hin) as (n1 & y & n2 & En & Ey & E1 & E2).
  do 3 eexists. do 4 (split; [done|]).
  unfold rm_node. rewrite <- (node_elt_addr y a Ey). apply node_at_nodes; [apply Hok|].
  rewrite En, elem_of_app. right. by left.
Qed.

Lemma rm_deref_spec : rm_deref rm (n_addr a) = Some a.
Proof. destruct node_of as (n1 & y & n2 & _ & Ey & _ & _ & E). unfold rm_deref. by rewrite E. Qed.

Lemma head_addr (n : list (tree rmnode)) (l : list rmnode) :
  node_elt <$> n = Some <$> l -> rm_addr (head n) = n_addr <$> head l.
Proof.
  destruct n as [|y n], l as [|b l]; try done. rewrite !fmap_cons. intros [= Ey _]. simpl.
  by rewrite (node_elt_addr _ _ Ey).
Qed.

Lemma next_node_spec : rangemap_next_node rm (n_addr a) = Some (n_addr <$> head l2).
Proof.
  destruct node_of as (n1 & y & n2 & En & Ey & E1 & E2 & E).
  unfold rangemap_next_node. rewrite E. simpl.
  destruct (get_adjacent_nodes (root (t rm)) n1 y n2) as [-> _];
    [apply Hok|apply Hok|done|]. simpl. by rewrite (head_addr _ _ E2).
Qed.

End Pointers.

Lemma max_lte_spec rm k :
  rm_wf rm -> rm_addr (rbtree_lookup_max_lte (t rm) k) = n_addr <$> max_lte k (rm_contents rm).
Proof.
  intros Hwf. unfold rbtree_lookup_max_lte, rm_contents, contents.
  pose proof (max_lte_internal_spec (root (t rm)) k (inv_sorted _ (wf_tree _ Hwf))) as Hm.
  destruct (root (t rm)) as [|c p l a r] eqn:E; [done|].
  destruct (max_lte_internal _ k) as [[]|], (max_lte k _); simpl in *; congruence.
Qed.

Lemma first_node_spec rm :
  rm_wf rm -> rangemap_first_node rm = Some (n_addr <$> head (rm_contents rm)).
Proof.
  intros Hwf. unfold rangemap_first_node, rbtree_find_first, rm_contents, contents.
  destruct (root (t rm)) as [|c p l a r] eqn:E; [done|].
  destruct (find_limit_min (Node c p l a r)) as (x & b & Ex & Hx & Hb); [done|].
  rewrite Ex, Hb. destruct x; simpl in *; congruence.
Qed.

(** The nodes that end after [point]. *)
Definition from (point : Z) (l : list rmnode) : list rmnode :=
  filter (fun a => point < end_ (n_r a)) l.

Lemma from_split point l :
  wf_nodes l -> exists l1, l = l1 ++ from point l /\ Forall (fun a => end_ (n_r a) <= point) l1.
Proof.
  induction l as [|a l IH]; intros Hwf; [by exists []|]. unfold from.
  destruct (decide (point < end_ (n_r a))) as [Ha|Ha].
  - exists []. split; [|constructor]. rewrite filter_all; [done|].
    constructor; [done|]. destruct (precedes_mid [] a l Hwf) as (_ & Hl & _).
    pose proof (wf_valid _ Hwf) as [_ Hv]%Forall_cons.
    apply Forall_forall. intros b Hb. rewrite Forall_forall in Hl, Hv.
    specialize (Hl b Hb). specialize (Hv b Hb). unfold valid_range in Hv. lia.
  - rewrite filter_cons_False by done.
    destruct IH as (l1 & E & Hl1); [by apply (wf_nodes_app [a] l)|].
    exists (a :: l1). split; [simpl; by f_equal|]. constructor; [lia|done].
Qed.

Lemma from_valid point l : wf_nodes l -> Forall (fun a => valid_range (n_r a)) (from point l).
Proof.
  intros [Hv _ _ _]. apply Forall_forall. intros a [_ Ha]%list_elem_of_filter.
  by eapply Forall_forall in Hv.
Qed.

Lemma skip_before_spec fuel rm l1 l2 point :
  rm_wf rm -> rm_contents rm = l1 ++ l2 -> (length l2 < fuel)%nat ->
  skip_before fuel rm (n_addr <$> head l2) point = Some (n_addr <$> head (from point l2)).
Proof.
  intros Hwf. revert fuel l1. induction l2 as [|a l2 IH]; intros fuel l1 E Hf;
    (destruct fuel as [|fuel]; [simpl in Hf; lia|]); [done|].
  simpl in Hf |- *. rewrite (rm_deref_spec _ _ _ _ (wf_ok _ Hwf) E). simpl. unfold from.
  destruct (Z.leb_spec (end_ (n_r a)) point).
  - rewrite (next_node_spec _ _ _ _ (wf_ok _ Hwf) E). simpl. rewrite filter_cons_False by lia.
    apply (IH fuel (l1 ++ [a])); [by rewrite <- app_assoc|lia].
  - by rewrite filter_cons_True by lia.
Qed.


Lemma max_lte_split k l a :
  max_lte k l = Some a -> exists l1 l2, l = l1 ++ a :: l2 /\
    Forall (fun b => ~ 0 <= key_compare k b) l2 /\ 0 <= key_compare k a.
Proof.
  unfold max_lte. intros E. pose proof E as Hlast. apply last_Some in Hlast as [l' E'].
  clear E. revert l' E'. induction l as [|x l IH]; intros l' E'; [by destruct l'|].
  destruct (decide (0 <= key_compare k x)) as [Hx|Hx].
  - rewrite filter_cons_True in E' by done. destruct l' as [|y l'].
    + cbn [app] in E'. injection E' as -> E'. exists [], l. split; [done|]. split; [|done].
      apply Forall_forall. intros b Hb Hle.
      apply (not_elem_of_nil b). rewrite <- E'. by apply list_elem_of_filter.
    + cbn [app] in E'. injection E' as -> E'. destruct (IH _ E') as (l1 & l2 & -> & ? & ?).
      by exists (y :: l1), l2.
  - rewrite filter_cons_False in E' by done. destruct (IH _ E') as (l1 & l2 & -> & ? & ?).
    by exists (x :: l1), l2.
Qed.

Lemma max_lte_none k l : max_lte k l = None -> Forall (fun b => ~ 0 <= key_compare k b) l.
Proof.
  unfold max_lte. intros E%last_None. apply Forall_forall. intros b Hb Hle.
  assert (Hin : b ∈ filter (fun a => 0 <= key_compare k a) l) by (by apply list_elem_of_filter).
  rewrite E in Hin. by apply not_elem_of_nil in Hin.
Qed.

Lemma key_ge k b : 0 <= key_compare k b <-> start (n_r b) <= start (n_r k).
Proof. pose proof (rmnode_compare_sign k b). lia. Qed.

Lemma is_null_contents rm : is_null (root (t rm)) = bool_decide (rm_contents rm = []).
Proof.
  unfold rm_contents, contents. destruct (root (t rm)); [done|]. simpl.
  rewrite bool_decide_false; [done|]. by destruct (inorder _).
Qed.

Lemma from_app_before point l1 l2 :
  Forall (fun a => end_ (n_r a) <= point) l1 -> from point (l1 ++ l2) = from point l2.
Proof.
  intros Hl1. unfold from. rewrite filter_app, filter_none; [done|].
  eapply Forall_impl; [exact Hl1|]. simpl. lia.
Qed.

(** [rangemap_lookup_at_or_next] finds the first node that ends after the point. *)
Lemma at_or_next_spec rm point :
  rm_wf rm ->
  rangemap_lookup_at_or_next rm point = Some (n_addr <$> head (from point (rm_contents rm))).
Proof.
  intros Hwf. unfold rangemap_lookup_at_or_next. rewrite is_null_contents.
  case_bool_decide as Hnil; [by rewrite Hnil|].
  assert (Hfuel : forall l1 l2, rm_contents rm = l1 ++ l2 -> (length l2 < map_fuel rm)%nat).
  { intros l1 l2 E. unfold map_fuel. rewrite tree_size_inorder.
    apply (f_equal length) in E. rewrite length_app in E. unfold rm_contents, contents in E. lia. }
  rewrite max_lte_spec by done.
  destruct (max_lte _ _) as [a|] eqn:Em.
  - apply max_lte_split in Em as (l1 & l2 & E & _ & Hle).
    apply key_ge in Hle. simpl in Hle. cbn [mbind option_bind fmap option_fmap option_map].
    etransitivity; [apply (skip_before_spec _ rm l1 (a :: l2) point); eauto|]. rewrite E.
    rewrite from_app_before; [done|].
    pose proof (wf_contents _ Hwf) as Hwl. rewrite E in Hwl.
    apply precedes_mid in Hwl as (Hl1 & _ & _).
    eapply Forall_impl; [exact Hl1|]. simpl. lia.
  - rewrite first_node_spec by done.
    destruct (rm_contents rm) as [|b l] eqn:Ec; [done|].
    cbn [mbind option_bind fmap option_fmap option_map head].
    rewrite bool_decide_false.
    2: { pose proof (wf_nonnull _ (wf_contents _ Hwf)) as Hn. rewrite Ec in Hn.
         apply Forall_cons in Hn as [Hn _]. congruence. }
    cbn [mbind option_bind kassert negb].
    apply (skip_before_spec _ rm [] (b :: l) point); [done|done|]. by apply (Hfuel []).
Qed.

(** ** Loops over a range *)

(** The loop over a list, for a body that leaves the map alone. *)
Section ForeachList.
Context {S R : Type} (pb : S -> rmnode -> S + R).

Fixpoint foreach_list (k : range) (l : list rmnode) (s : S) : S + R :=
  match l with
  | [] => inl s
  | a :: l' =>
      if overlap k (n_r a) then
        match pb s a with inl s => foreach_list k l' s | inr r => inr r end
      else inl s
  end.

Lemma foreach_of_range_pure body fuel rm k l1 l2 s :
  (forall s a, a ∈ l2 -> overlap k (n_r a) = true -> body rm s a = Some (rm, pb s a)) ->
  rm_wf rm -> rm_contents rm = l1 ++ l2 -> (length l2 < fuel)%nat ->
  foreach_of_range body fuel rm k (n_addr <$> head l2) s = Some (rm, foreach_list k l2 s).
Proof.
  intros Hbody Hwf. revert fuel l1 s Hbody.
  induction l2 as [|a l2 IH]; intros fuel l1 s Hbody E Hf;
    (destruct fuel as [|fuel]; [simpl in Hf; lia|]); [done|].
  simpl in Hf |- *. rewrite (rm_deref_spec _ _ _ _ (wf_ok _ Hwf) E), (next_node_spec _ _ _ _ (wf_ok _ Hwf) E). simpl.
  pose proof (wf_contents _ Hwf) as Hwl. rewrite E in Hwl.
  destruct (precedes_mid _ _ _ Hwl) as (_ & _ & Hv).
  rewrite intersection_span_pos by done.
  destruct (overlap k (n_r a)) eqn:Eo; [|done].
  rewrite Hbody by (done || by left). simpl. destruct (pb s a) as [s'|]; [|done].
  apply (IH fuel (l1 ++ [a])); [|by rewrite <- app_assoc|lia].
  intros s'' b Hb. apply Hbody. by right.
Qed.

Lemma foreach_pure body rm k s :
  (forall s a, a ∈ from (start k) (rm_contents rm) -> overlap k (n_r a) = true ->
     body rm s a = Some (rm, pb s a)) -> rm_wf rm ->
  rangemap_foreach_of_range body rm k s =
    Some (rm, foreach_list k (from (start k) (rm_contents rm)) s).
Proof.
  intros Hbody Hwf. unfold rangemap_foreach_of_range. rewrite at_or_next_spec by done.
  cbn [mbind option_bind].
  destruct (from_split (start k) _ (wf_contents _ Hwf)) as (l1 & E & _).
  apply (foreach_of_range_pure body _ rm k l1); [done..|].
  apply (f_equal length) in E. rewrite length_app in E. unfold map_fuel. rewrite tree_size_inorder.
  unfold rm_contents, contents in *. lia.
Qed.
End ForeachList.

Definition first_overlap (k : range) (l : list rmnode) : option rmnode :=
  match from (start k) l with
  | a :: _ => if overlap k (n_r a) then Some a else None
  | [] => None
  end.

Lemma first_overlap_some k l a :
  first_overlap k l = Some a -> a ∈ l /\ overlap k (n_r a) = true.
Proof.
  unfold first_overlap. destruct (from (start k) l) as [|b l'] eqn:E; [done|].
  case_match; [|done]. intros [= ->]. split; [|done].
  assert (Ha : a ∈ from (start k) l) by (rewrite E; by left).
  by apply list_elem_of_filter in Ha as [_ ?].
Qed.

Lemma first_overlap_none k l :
  wf_nodes l -> first_overlap k l = None -> Forall (fun a => overlap k (n_r a) = false) l.
Proof.
  unfold first_overlap. intros Hwf E. apply Forall_forall. intros a Ha.
  apply not_true_iff_false. intros Ho.
  assert (Hin : a ∈ from (start k) l).
  { apply list_elem_of_filter. split; [|done]. unfold overlap in Ho. breflect. lia. }
  destruct (from_split (start k) l Hwf) as (l1 & El & _). rewrite El in Hwf.
  apply wf_nodes_app in Hwf as [_ Hwf].
  destruct (from (start k) l) as [|b l'] eqn:Ef; [by apply not_elem_of_nil in Hin|].
  destruct (overlap k (n_r b)) eqn:Eb; [done|].
  assert (Hb : start k < end_ (n_r b)).
  { assert (Hb : b ∈ from (start k) l) by (rewrite Ef; by left).
    by apply list_elem_of_filter in Hb as [? _]. }
  apply elem_of_cons in Hin as [->|Hin]; [congruence|].
  destruct (precedes_mid [] b l' Hwf) as (_ & Hl' & Hv). rewrite Forall_forall in Hl'.
  specialize (Hl' a Hin). unfold overlap, valid_range in *. breflect. lia.
Qed.

(** ** Insertion *)

Lemma insert_sorted_perm n l : has_key n l = false -> insert_sorted n l ≡ₚ n :: l.
Proof.
  unfold has_key. induction l as [|a l IH]; simpl; [done|].
  intros [Ha Hl]%orb_false_iff. case_test; [done|]. case_test; [lia|].
  rewrite IH by done. apply Permutation_swap.
Qed.

Lemma disjoint_absent n l :
  valid_range (n_r n) -> wf_nodes l -> Forall (fun a => overlap (n_r n) (n_r a) = false) l ->
  has_key n l = false.
Proof.
  intros Hn Hwf Ho. apply not_true_iff_false. intros (a & Ha & E)%has_key_true.
  rewrite Forall_forall in Ho. specialize (Ho a Ha).
  pose proof (wf_valid _ Hwf) as Hv. rewrite Forall_forall in Hv. specialize (Hv a Ha).
  pose proof (rmnode_compare_sign n a). unfold overlap, valid_range in *. simpl in Hv. breflect. lia.
Qed.

Lemma insert_sorted_disjoint n l :
  valid_range (n_r n) -> wf_nodes l -> Forall (fun a => overlap (n_r n) (n_r a) = false) l ->
  StronglySorted precedes (insert_sorted n l).
Proof.
  intros Hn. induction l as [|a l IH]; intros Hwf Ho; simpl; [by repeat constructor|].
  destruct (precedes_mid [] a l Hwf) as (_ & Hl & Hva).
  apply Forall_cons in Ho as [Hoa Ho]. pose proof (rmnode_compare_sign n a) as Hs. simpl in Hs.
  apply (wf_nodes_app [a]) in Hwf as Hwl. destruct Hwl as [_ Hwl].
  assert (Hna : rmnode_compare n a <> 0) by (unfold overlap, valid_range in *; breflect; lia).
  case_test; [|case_test; [done|]].
  - apply StronglySorted_cons. split; [|apply Hwf]. constructor.
    + unfold precedes, overlap, valid_range in *. breflect. lia.
    + eapply Forall_impl; [exact Hl|]. unfold precedes, overlap, valid_range in *. breflect.
      intros b Hb. simpl in Hb. lia.
  - apply StronglySorted_cons. split; [|by apply IH].
    apply Forall_forall. intros b [->|Hb]%insert_sorted_elem.
    + unfold precedes, overlap, valid_range in *. breflect. lia.
    + rewrite Forall_forall in Hl. by apply Hl.
Qed.

Lemma wf_insert n l :
  valid_range (n_r n) -> n_addr n <> 0 -> n_addr n ∉ n_addr <$> l -> wf_nodes l ->
  Forall (fun a => overlap (n_r n) (n_r a) = false) l -> wf_nodes (insert_sorted n l).
Proof.
  intros Hn Hnz Hfresh Hwf Ho.
  pose proof (insert_sorted_perm n l (disjoint_absent n l Hn Hwf Ho)) as Hp.
  split.
  - rewrite Hp. constructor; [done|apply Hwf].
  - by apply insert_sorted_disjoint.
  - rewrite Hp, fmap_cons. constructor; [done|apply Hwf].
  - rewrite Hp. constructor; [done|apply Hwf].
Qed.

Lemma covers_insert n l x :
  has_key n l = false -> covers (insert_sorted n l) x <-> in_range (n_r n) x \/ covers l x.
Proof.
  intros Hk. unfold covers. setoid_rewrite (insert_sorted_perm n l Hk).
  setoid_rewrite elem_of_cons. naive_solver.
Qed.

Lemma insert_spec rm n :
  rm_wf rm -> valid_range (n_r n) -> n_addr n <> 0 ->
  n_addr n ∉ n_addr <$> rm_contents rm -> rangemap_count rm < 2 ^ 64 - 1 ->
  match first_overlap (n_r n) (rm_contents rm) with
  | Some _ => rangemap_insert rm n = Some (rm, false)
  | None => exists rm', rangemap_insert rm n = Some (rm', true) /\ rm_wf rm' /\
      rm_contents rm' = insert_sorted n (rm_contents rm) /\ freed rm' = freed rm /\
      has_key n (rm_contents rm) = false
  end.
Proof.
  intros Hwf Hn Hnz Hfresh Hcount. unfold rangemap_insert.
  rewrite (foreach_pure (fun _ curr => inr false : unit + bool)); [|intros s a Ha Ho|done].
  2: { rewrite range_intersection_comm, intersection_span, Ho by done. simpl.
       unfold overlap in Ho. breflect. case_test; [lia|done]. }
  cbn [mbind option_bind]. unfold first_overlap.
  pose proof (first_overlap_none (n_r n) (rm_contents rm) (wf_contents _ Hwf)) as Hnone.
  unfold first_overlap in Hnone.
  destruct (from (start (n_r n)) (rm_contents rm)) as [|a l'] eqn:Ef; simpl.
  2: destruct (overlap (n_r n) (n_r a)) eqn:Eo; [done|].
  all: pose proof (disjoint_absent n _ Hn (wf_contents _ Hwf) (Hnone eq_refl)) as Hk;
    destruct (insert_node_spec (t rm) n (wf_tree _ Hwf) Hcount) as (t' & -> & Hinv & Hc);
    fold (rm_contents rm) in Hc |- *; rewrite Hk; simpl; eexists; split; [done|];
    (split; [|done]); (split; [done|]); unfold rm_contents; simpl; rewrite Hc;
    by apply wf_insert; [..|apply Hwf|apply Hnone].
Qed.

(** ** Removal and resizing *)

Lemma remove_node_spec rm l1 a l2 :
  rm_ok rm -> rm_contents rm = l1 ++ a :: l2 ->
  exists rm', rangemap_remove_node rm a = Some rm' /\ rm_ok rm' /\ rm_contents rm' = l1 ++ l2 /\
    freed rm' = freed rm.
Proof.
  intros [Hinv [Hd Hn]] E. unfold rangemap_remove_node, rbtree_remove_node.
  destruct (remove_by_key_spec (t rm) a Hinv) as (t' & -> & Hinv' & Hc).
  pose proof (inv_sorted _ Hinv) as Hs. fold (rm_contents rm) in Hc, Hs |- *. rewrite E in Hc, Hs |- *.
  destruct (remove_key_eq a l1 a l2 Hs (key_compare_refl a)) as [E1 ->]. rewrite E1 in Hc. simpl.
  eexists. split; [done|]. split; [|done]. split; [done|].
  unfold rm_contents, contents in *. unfold distinct_addrs. simpl. rewrite E in Hd, Hn. rewrite Hc.
  rewrite fmap_app, fmap_cons in Hd. rewrite fmap_app. rewrite Forall_app, Forall_cons in Hn.
  rewrite Forall_app. split; [|tauto].
  rewrite NoDup_app in Hd |- *. rewrite NoDup_cons in Hd.
  destruct Hd as (H1 & H2 & H3 & H4). split; [done|]. split; [|done]. intros x Hx Hx'.
  apply (H2 x Hx). by right.
Qed.

Lemma wf_nodes_remove l1 a l2 : wf_nodes (l1 ++ a :: l2) -> wf_nodes (l1 ++ l2).
Proof.
  intros [Hv Hs Hd Hn]. rewrite fmap_app, fmap_cons in Hd. rewrite Forall_app, Forall_cons in Hv, Hn.
  apply StronglySorted_app in Hs as (Hx & Hl1 & [_ Hl2]%StronglySorted_cons).
  split; rewrite ?fmap_app, ?Forall_app; [tauto| | |tauto].
  - apply StronglySorted_app_2; [|done..]. intros x1 x2 H1 H2. apply Hx; [done|by right].
  - rewrite NoDup_app in Hd |- *. rewrite NoDup_cons in Hd.
    destruct Hd as (H1 & H2 & H3 & H4). split; [done|]. split; [|done]. intros x Hx1 Hx2.
    apply (H2 x Hx1). by right.
Qed.

Lemma wf_remove_node rm l1 a l2 :
  rm_wf rm -> rm_contents rm = l1 ++ a :: l2 ->
  exists rm', rangemap_remove_node rm a = Some rm' /\ rm_wf rm' /\ rm_contents rm' = l1 ++ l2 /\
    freed rm' = freed rm /\ rangemap_count rm' < rangemap_count rm.
Proof.
  intros Hwf E.
  destruct (remove_node_spec rm l1 a l2 (wf_ok _ Hwf) E) as (rm' & E' & [Hinv Hd] & Hc & Hf).
  exists rm'. split; [done|]. pose proof (wf_contents _ Hwf) as Hwl. rewrite E in Hwl.
  split; [|do 2 (split; [done|])].
  - split; [done|]. rewrite Hc. by eapply wf_nodes_remove.
  - unfold rangemap_count, rbtree_get_count.
    rewrite (inv_count _ Hinv), (inv_count _ (wf_tree _ Hwf)). fold (rm_contents rm) (rm_contents rm').
    rewrite Hc, E, !length_app. simpl. lia.
Qed.

Lemma covers_app l1 l2 x : covers (l1 ++ l2) x <-> covers l1 x \/ covers l2 x.
Proof. unfold covers. setoid_rewrite elem_of_app. naive_solver. Qed.

Lemma covers_cons a l x : covers (a :: l) x <-> in_range (n_r a) x \/ covers l x.
Proof. unfold covers. setoid_rewrite elem_of_cons. naive_solver. Qed.

Lemma covers_disjoint l1 a l2 x :
  wf_nodes (l1 ++ a :: l2) -> in_range (n_r a) x -> ~ covers (l1 ++ l2) x.
Proof.
  intros Hwf Hx. destruct (precedes_mid _ _ _ Hwf) as (Hl1 & Hl2 & _).
  rewrite Forall_forall in Hl1, Hl2.
  rewrite covers_app. intros [(b & Hb & Hbx)|(b & Hb & Hbx)]; unfold in_range in *.
  - specialize (Hl1 b Hb). simpl in Hl1. lia.
  - specialize (Hl2 b Hb). simpl in Hl2. lia.
Qed.

Lemma insert_sorted_mid n l1 l2 :
  Forall (fun a => key_lt a n) l1 -> Forall (key_lt n) l2 -> insert_sorted n (l1 ++ l2) = l1 ++ n :: l2.
Proof.
  intros Hl1 Hl2. induction Hl1 as [|a l1 Ha Hl1 IH]; simpl.
  - destruct l2 as [|b l2]; [done|]. apply Forall_cons in Hl2 as [Hb _]. apply rmnode_compare_lt in Hb.
    pose proof (rmnode_compare_sign n b) as Hs. simpl in *. case_test; [done|lia].
  - apply rmnode_compare_lt in Ha. pose proof (rmnode_compare_sign n a) as Hs. simpl in Hs.
    case_test; [lia|]. case_test; [lia|]. by rewrite IH.
Qed.

Lemma reinsert_spec rm l1 a l2 k :
  rm_wf rm -> rm_contents rm = l1 ++ a :: l2 -> valid_range k -> range_contains (n_r a) k = true ->
  rangemap_count rm < 2 ^ 64 ->
  exists rm', rangemap_reinsert rm a k = Some (rm', true) /\ rm_wf rm' /\
    rm_contents rm' = l1 ++ {| n_addr := n_addr a; n_r := k |} :: l2 /\ freed rm' = freed rm.
Proof.
  intros Hwf E Hk Hsub Hcount. unfold rangemap_reinsert, range_contains in *. breflect.
  destruct (wf_remove_node rm l1 a l2 Hwf E) as (rm1 & -> & Hwf1 & Hc1 & Hf1 & Hcnt). simpl.
  pose proof (wf_contents _ Hwf) as Hwl. rewrite E in Hwl.
  destruct (precedes_mid _ _ _ Hwl) as (Hl1 & Hl2 & Hva).
  set (n := {| n_addr := n_addr a; n_r := k |}).
  assert (Hnz : n_addr a <> 0 /\ n_addr a ∉ n_addr <$> rm_contents rm1).
  { destruct Hwl as [_ _ Hd Hn]. rewrite Hc1, fmap_app. rewrite fmap_app, fmap_cons in Hd.
    rewrite Forall_app, Forall_cons in Hn. split; [tauto|].
    apply NoDup_app in Hd as (_ & Hx & Hd). apply NoDup_cons in Hd as [Hd _].
    intros [Hin|Hin]%elem_of_app; [|done]. apply (Hx _ Hin). by left. }
  assert (Hno : Forall (fun b => overlap k (n_r b) = false) (rm_contents rm1)).
  { rewrite Hc1, Forall_app. split; (eapply Forall_impl; [eassumption|]); simpl;
      intros b Hb; apply Z.ltb_ge; lia. }
  pose proof (insert_spec rm1 n Hwf1 Hk (proj1 Hnz) (proj2 Hnz) ltac:(lia)) as Hins.
  destruct (first_overlap (n_r n) (rm_contents rm1)) as [b|] eqn:Ef.
  { apply first_overlap_some in Ef as [Hb Hob]. rewrite Forall_forall in Hno.
    specialize (Hno b Hb). simpl in Hno, Hob. congruence. }
  destruct Hins as (rm' & -> & Hwf' & Hc' & Hf' & _). simpl.
  eexists. split; [done|]. split; [done|]. split; [|congruence].
  rewrite Hc', Hc1. apply insert_sorted_mid; apply Forall_forall; intros b Hb; apply rmnode_compare_lt; simpl.
  - rewrite Forall_forall in Hl1. specialize (Hl1 b Hb). simpl in Hl1.
    pose proof (wf_valid _ Hwl) as Hv. rewrite Forall_app, Forall_forall in Hv. destruct Hv as [Hv _].
    specialize (Hv b Hb). unfold valid_range in Hv. simpl in Hv. lia.
  - rewrite Forall_forall in Hl2. specialize (Hl2 b Hb). simpl in Hl2. unfold valid_range in Hk. lia.
Qed.

(** ** Holes *)

Lemma foreach_first_none {S R} (body : rangemap -> S -> rmnode -> option (rangemap * (S + R))) rm k s :
  rm_wf rm -> first_overlap k (rm_contents rm) = None ->
  rangemap_foreach_of_range body rm k s = Some (rm, inl s).
Proof.
  intros Hwf Hf. unfold rangemap_foreach_of_range. rewrite at_or_next_spec by done.
  cbn [mbind option_bind]. destruct (from_split (start k) _ (wf_contents _ Hwf)) as (l1 & E & _).
  unfold first_overlap in Hf. destruct (from (start k) (rm_contents rm)) as [|a l2]; [done|].
  unfold map_fuel. simpl. rewrite (rm_deref_spec rm l1 a l2), (next_node_spec rm l1 a l2) by auto with kernel.
  simpl. pose proof (wf_contents _ Hwf) as Hwl. rewrite E in Hwl.
  destruct (precedes_mid _ _ _ Hwl) as (_ & _ & Hv).
  rewrite intersection_span_pos by done. by destruct (overlap k (n_r a)).
Qed.

Lemma foreach_first_some {S R} (body : rangemap -> S -> rmnode -> option (rangemap * (S + R)))
    rm k s a rm' r :
  rm_wf rm -> first_overlap k (rm_contents rm) = Some a -> body rm s a = Some (rm', inr r) ->
  rangemap_foreach_of_range body rm k s = Some (rm', inr r).
Proof.
  intros Hwf Hf Hb. unfold rangemap_foreach_of_range. rewrite at_or_next_spec by done.
  cbn [mbind option_bind]. destruct (from_split (start k) _ (wf_contents _ Hwf)) as (l1 & E & _).
  unfold first_overlap in Hf. destruct (from (start k) (rm_contents rm)) as [|b l2]; [done|].
  destruct (overlap k (n_r b)) eqn:Eo; [|done]. injection Hf as ->.
  unfold map_fuel. simpl. rewrite (rm_deref_spec rm l1 a l2), (next_node_spec rm l1 a l2) by auto with kernel.
  simpl. pose proof (wf_contents _ Hwf) as Hwl. rewrite E in Hwl.
  destruct (precedes_mid _ _ _ Hwl) as (_ & _ & Hv).
  rewrite intersection_span_pos, Eo by done. by rewrite Hb.
Qed.

(** The point set of a map in which the node [a] is replaced by the parts of it
    outside a contained hole. *)
Lemma covers_hole l1 a l2 (l' : list rmnode) r :
  wf_nodes (l1 ++ a :: l2) -> range_contains (n_r a) r = true ->
  (forall x, covers l' x <-> in_range (n_r a) x /\ ~ in_range r x) ->
  forall x, covers (l1 ++ l' ++ l2) x <-> covers (l1 ++ a :: l2) x /\ ~ in_range r x.
Proof.
  intros Hwf Hsub Hl' x. rewrite !covers_app, covers_cons, Hl'.
  pose proof (covers_disjoint l1 a l2 x Hwf) as Hdis. rewrite covers_app in Hdis.
  unfold range_contains in Hsub. breflect.
  assert (in_range r x -> in_range (n_r a) x) by (unfold in_range; lia). tauto.
Qed.

Lemma wf_fresh_insert rm n :
  rm_wf rm -> valid_range (n_r n) -> n_addr n <> 0 -> n_addr n ∉ n_addr <$> rm_contents rm ->
  rangemap_count rm < 2 ^ 64 - 1 -> Forall (fun a => overlap (n_r n) (n_r a) = false) (rm_contents rm) ->
  exists rm', rangemap_insert rm n = Some (rm', true) /\ rm_wf rm' /\ freed rm' = freed rm /\
    (forall x, covers (rm_contents rm') x <-> in_range (n_r n) x \/ covers (rm_contents rm) x).
Proof.
  intros Hwf Hn Hnz Hfresh Hcount Hno. pose proof (insert_spec rm n Hwf Hn Hnz Hfresh Hcount) as Hins.
  destruct (first_overlap _ _) as [b|] eqn:Ef.
  { apply first_overlap_some in Ef as [Hb Hob]. rewrite Forall_forall in Hno.
    specialize (Hno b Hb). simpl in Hno. congruence. }
  destruct Hins as (rm' & E & Hwf' & Hc & Hf & Hk). exists rm'. do 3 (split; [done|]).
  intros x. rewrite Hc. by apply covers_insert.
Qed.

Section Hole.
Variables (rm : rangemap) (l1 : list rmnode) (a : rmnode) (l2 : list rmnode) (r : range).
Hypothesis Hwf : rm_wf rm.
Hypothesis Hin : rm_contents rm = l1 ++ a :: l2.
Hypothesis Hr : valid_range r.
Hypothesis Hsub : range_contains (n_r a) r = true.
Hypothesis Hcount : rangemap_count rm < 2 ^ 64 - 1.

Lemma hole_bounds : wf_nodes (l1 ++ a :: l2) /\ valid_range (n_r a) /\
  start (n_r a) <= start r /\ end_ r <= end_ (n_r a).
Proof.
  pose proof (wf_contents _ Hwf) as Hwl. rewrite Hin in Hwl.
  destruct (precedes_mid _ _ _ Hwl) as (_ & _ & Hva). unfold range_contains in Hsub. breflect. done.
Qed.

(** Keeping one side of the node. *)
Lemma hole_side k :
  valid_range k -> range_contains (n_r a) k = true ->
  (forall x, in_range k x <-> in_range (n_r a) x /\ ~ in_range r x) ->
  exists rm', rangemap_reinsert rm a k = Some (rm', true) /\ rm_wf rm' /\
    forall x, covers (rm_contents rm') x <-> covers (rm_contents rm) x /\ ~ in_range r x.
Proof.
  intros Hk Hka Hx. destruct hole_bounds as (Hwl & _).
  destruct (reinsert_spec rm l1 a l2 k) as (rm' & E & Hwf' & Hc & _); [done..|lia|].
  exists rm'. do 2 (split; [done|]). rewrite Hc, Hin.
  apply (covers_hole l1 a l2 [{| n_addr := n_addr a; n_r := k |}]); [done..|].
  intros x. rewrite covers_cons. simpl. rewrite Hx. unfold covers. set_solver.
Qed.

Lemma hole_middle p :
  start (n_r a) < start r -> end_ r < end_ (n_r a) -> p <> 0 -> p ∉ n_addr <$> rm_contents rm ->
  exists rm1 rm', rangemap_reinsert rm a (irange (start (n_r a)) (start r)) = Some (rm1, true) /\
    rangemap_insert rm1 {| n_addr := p; n_r := irange (end_ r) (end_ (n_r a)) |} = Some (rm', true) /\
    rm_wf rm' /\ forall x, covers (rm_contents rm') x <-> covers (rm_contents rm) x /\ ~ in_range r x.
Proof.
  intros Hs He Hp Hfresh. destruct hole_bounds as (Hwl & Hva & _). unfold valid_range in Hva, Hr.
  destruct (reinsert_spec rm l1 a l2 (irange (start (n_r a)) (start r))) as (rm1 & E & Hwf1 & Hc1 & _);
    [done..|unfold valid_range; simpl; lia|unfold range_contains; simpl; breflect; apply andb_true_iff;
      rewrite !Z.leb_le; lia|lia|].
  destruct (precedes_mid _ _ _ Hwl) as (Hl1 & Hl2 & _).
  destruct (wf_fresh_insert rm1 {| n_addr := p; n_r := irange (end_ r) (end_ (n_r a)) |})
    as (rm' & E' & Hwf' & _ & Hc'); [done|unfold valid_range; simpl; lia|done| | | |].
  - rewrite Hc1. rewrite Hin in Hfresh. by rewrite fmap_app, fmap_cons in *.
  - assert (rangemap_count rm1 = rangemap_count rm); [|lia].
    unfold rangemap_count, rbtree_get_count.
    rewrite (inv_count _ (wf_tree _ Hwf1)), (inv_count _ (wf_tree _ Hwf)).
    fold (rm_contents rm) (rm_contents rm1). by rewrite Hc1, Hin, !length_app.
  - rewrite Hc1, Forall_app, Forall_cons. simpl. repeat split.
    + eapply Forall_impl; [exact Hl1|]. simpl. intros b Hb. apply Z.ltb_ge. simpl. lia.
    + apply Z.ltb_ge. simpl. lia.
    + eapply Forall_impl; [exact Hl2|]. simpl. intros b Hb. apply Z.ltb_ge. simpl. lia.
  - exists rm1, rm'. do 3 (split; [done|]). intros x. rewrite Hc', Hc1, Hin. simpl.
    rewrite !covers_app, !covers_cons. simpl.
    pose proof (covers_disjoint l1 a l2 x Hwl) as Hdis. rewrite covers_app in Hdis.
    unfold in_range in *. simpl.
    assert (end_ r <= x < end_ (n_r a) \/ start (n_r a) <= x < start r <->
      start (n_r a) <= x < end_ (n_r a) /\ ~ start r <= x < end_ r) by lia.
    assert (start r <= x < end_ r -> start (n_r a) <= x < end_ (n_r a)) by lia. tauto.
Qed.
Lemma hole_whole :
  start (n_r a) = start r -> end_ r = end_ (n_r a) ->
  exists rm', rangemap_remove_range rm a = Some rm' /\ rm_wf rm' /\
    forall x, covers (rm_contents rm') x <-> covers (rm_contents rm) x /\ ~ in_range r x.
Proof.
  intros Hs He. destruct hole_bounds as (Hwl & _). unfold rangemap_remove_range.
  destruct (wf_remove_node rm l1 a l2 Hwf Hin) as (rm1 & -> & Hwf1 & Hc1 & _). simpl.
  eexists. split; [done|]. split; [split; [apply Hwf1|exact (wf_contents _ Hwf1)]|].
  assert (Ec : rm_contents {| t := t rm1; freed := n_addr a :: freed rm1 |} = l1 ++ l2) by exact Hc1.
  rewrite Ec, Hin.
  apply (covers_hole l1 a l2 []); [done..|]. intros x. unfold in_range. split; [|lia].
  intros (b & Hb & _). by apply not_elem_of_nil in Hb.
Qed.

Lemma insert_hole_node_spec alloc :
  (forall p, alloc = Some p -> p <> 0 /\ p ∉ n_addr <$> rm_contents rm) ->
  exists rm' b, insert_hole_node r alloc rm tt a = Some (rm', inr b) /\ rm_wf rm' /\
    if (b : bool)
    then forall x, covers (rm_contents rm') x <-> covers (rm_contents rm) x /\ ~ in_range r x
    else rm' = rm /\ alloc = None /\ start (n_r a) < start r /\ end_ r < end_ (n_r a).
Proof.
  intros Halloc. destruct hole_bounds as (_ & Hva & Hs & He).
  pose proof Hr as Hr'. unfold valid_range in Hva, Hr'. unfold insert_hole_node.
  replace (_ || _) with false by (symmetry; apply orb_false_iff; rewrite !Z.ltb_ge; lia).
  assert (Hcont : forall k, start (n_r a) <= start k -> end_ k <= end_ (n_r a) ->
    range_contains (n_r a) k = true) by (intros; apply andb_true_iff; rewrite !Z.leb_le; lia).
  destruct (Z.ltb_spec (start (n_r a)) (start r)), (Z.ltb_spec (end_ r) (end_ (n_r a))).
  - destruct alloc as [p|]; [|by exists rm, false].
    destruct (Halloc p eq_refl) as [Hp Hfresh].
    destruct (hole_middle p) as (rm1 & rm' & -> & Ei & Hw & Hc); [done..|].
    simpl. rewrite Ei. by exists rm', true.
  - destruct (hole_side (irange (start (n_r a)) (start r))) as (rm' & -> & Hw & Hc);
      [unfold valid_range; simpl; lia|apply Hcont; simpl; lia|unfold in_range; simpl; lia|].
    by exists rm', true.
  - destruct (hole_side (irange (end_ r) (end_ (n_r a)))) as (rm' & -> & Hw & Hc);
      [unfold valid_range; simpl; lia|apply Hcont; simpl; lia|unfold in_range; simpl; lia|].
    by exists rm', true.
  - destruct hole_whole as (rm' & -> & Hw & Hc); [lia..|]. by exists rm', true.
Qed.
End Hole.

(** At most one node contains a point. *)
Lemma covering_unique l a b x :
  wf_nodes l -> a ∈ l -> b ∈ l -> in_range (n_r a) x -> in_range (n_r b) x -> a = b.
Proof.
  intros Hwf Ha Hb Hax Hbx. apply list_elem_of_split in Ha as (l1 & l2 & ->).
  pose proof (covers_disjoint l1 a l2 x Hwf Hax) as Hdis. rewrite covers_app in Hdis.
  rewrite elem_of_app, elem_of_cons in Hb.
  destruct Hb as [Hb|[->|Hb]]; [|done|]; exfalso; apply Hdis; [left|right]; by exists b.
Qed.


(** ** Lookups *)

Lemma lookup_spec rm point :
  rm_wf rm -> 0 <= point < 2 ^ 64 - 1 ->
  rangemap_lookup rm point =
    Some (n_addr <$> first_overlap (irange point (point + 1)) (rm_contents rm)).
Proof.
  intros Hwf Hp. unfold rangemap_lookup. rewrite u64_small by lia.
  destruct (first_overlap _ _) as [a|] eqn:Ef; [|by rewrite foreach_first_none].
  pose proof Ef as [Ha Ho]%first_overlap_some.
  pose proof (wf_valid _ (wf_contents _ Hwf)) as Hv. rewrite Forall_forall in Hv. specialize (Hv a Ha).
  erewrite foreach_first_some; [done|done..|]. simpl.
  rewrite intersection_span, overlap_comm, Ho by done. simpl.
  unfold overlap in Ho. simpl in Ho. breflect. by case_test; [lia|].
Qed.

(** ** Merging insertion *)

Lemma tree_set_range_inorder p r x :
  inorder (tree_set_range p r x) =
  (fun a => if n_addr a =? p then {| n_addr := n_addr a; n_r := r |} else a) <$> inorder x.
Proof.
  induction x as [|c q l IHl a rt IHr]; simpl; [done|]. by rewrite fmap_app, fmap_cons, IHl, IHr.
Qed.

Lemma tree_set_range_llrb p r x c n : llrb x c n -> llrb (tree_set_range p r x) c n.
Proof. induction 1; simpl; eauto with kernel. Qed.

Lemma tree_set_range_linked p r x q : linked q x -> linked q (tree_set_range p r x).
Proof.
  revert q. induction x as [|c q' l IHl a rt IHr]; intros q; simpl; [done|].
  intros (-> & Hl & Hr). split; [done|]. case_match; simpl; eauto.
Qed.

Lemma fmap_set_range_absent p r (l : list rmnode) :
  p ∉ n_addr <$> l ->
  (fun a => if n_addr a =? p then {| n_addr := n_addr a; n_r := r |} else a) <$> l = l.
Proof.
  induction l as [|a l IH]; [done|]. rewrite !fmap_cons, not_elem_of_cons. intros [Hp Hl].
  rewrite IH by done. by destruct (Z.eqb_spec (n_addr a) p).
Qed.

Lemma set_range_spec rm l1 a l2 r :
  rm_ok rm -> rm_contents rm = l1 ++ a :: l2 ->
  sorted (l1 ++ {| n_addr := n_addr a; n_r := r |} :: l2) ->
  rm_ok (rmnode_set_range rm (n_addr a) r) /\
  rm_contents (rmnode_set_range rm (n_addr a) r) = l1 ++ {| n_addr := n_addr a; n_r := r |} :: l2.
Proof.
  intros [[[n Hb] Hs Hl Hc] [Hd Hn]] E Hs'.
  assert (Hin : inorder (tree_set_range (n_addr a) r (root (t rm))) =
    l1 ++ {| n_addr := n_addr a; n_r := r |} :: l2).
  { rewrite tree_set_range_inorder. unfold rm_contents, contents in E. rewrite E in Hd |- *.
    rewrite fmap_app, fmap_cons in Hd. simpl in Hd.
    apply NoDup_app in Hd as (_ & Hx & Hd). apply NoDup_cons in Hd as [Hd _].
    rewrite fmap_app, fmap_cons, Z.eqb_refl, !fmap_set_range_absent; [done|done|].
    intros Hin. apply (Hx _ Hin). by left. }
  unfold rm_contents, contents in *. split; [|exact Hin]. split.
  - split; unfold contents; simpl.
    + exists n. by apply tree_set_range_llrb.
    + by rewrite Hin.
    + by apply tree_set_range_linked.
    + rewrite Hin, Hc, E, !length_app. done.
  - unfold distinct_addrs. simpl. rewrite Hin, fmap_app, fmap_cons.
    rewrite E, fmap_app, fmap_cons in Hd. split; [exact Hd|].
    rewrite E in Hn. by rewrite Forall_app, Forall_cons in *.
Qed.

Lemma remove_range_spec rm l1 a l2 :
  rm_ok rm -> rm_contents rm = l1 ++ a :: l2 ->
  exists rm', rangemap_remove_range rm a = Some rm' /\ rm_ok rm' /\ rm_contents rm' = l1 ++ l2.
Proof.
  intros Hok E. unfold rangemap_remove_range.
  destruct (remove_node_spec rm l1 a l2 Hok E) as (rm1 & -> & Hok1 & Hc1 & _). simpl. eauto.
Qed.

(** The right end after absorbing the nodes of [l]. *)
Fixpoint absorb (e : Z) (l : list rmnode) : Z :=
  match l with [] => e | a :: l' => absorb (if e <? end_ (n_r a) then end_ (n_r a) else e) l' end.

Lemma absorb_spec e l :
  e <= absorb e l /\ Forall (fun a => end_ (n_r a) <= absorb e l) l /\
  (absorb e l = e \/ exists a, a ∈ l /\ absorb e l = end_ (n_r a)).
Proof.
  revert e. induction l as [|a l IH]; intros e; simpl; [split; [lia|]; by split; [|left]|].
  destruct (Z.ltb_spec e (end_ (n_r a)));
    [destruct (IH (end_ (n_r a))) as (H1 & H2 & H3)|destruct (IH e) as (H1 & H2 & H3)];
    (split; [lia|]); (split; [constructor; [lia|done]|]).
  - right. destruct H3 as [->|(b & Hb & ->)]; [exists a|exists b]; rewrite elem_of_cons; auto.
  - destruct H3 as [->|(b & Hb & ->)]; [by left|right; exists b]; rewrite elem_of_cons; auto.
Qed.

Lemma sorted_same_start l1 a l2 r :
  sorted (l1 ++ a :: l2) -> start r = start (n_r a) ->
  sorted (l1 ++ {| n_addr := n_addr a; n_r := r |} :: l2).
Proof.
  rewrite !sorted_mid. intros (H1 & H2 & H3 & H4) E. do 2 (split; [done|]).
  split; (eapply Forall_impl; [eassumption|]); intros b; cbv beta;
    rewrite !rmnode_compare_lt; simpl; lia.
Qed.

Lemma merge_rest r l2 :
  forall fuel rm l1 m, rm_ok rm -> rm_contents rm = l1 ++ m :: l2 -> (length l2 < fuel)%nat ->
  exists rm' la lb,
    merge_range fuel rm r (n_addr <$> head l2) (Some (n_addr m)) = Some (rm', Some (n_addr m)) /\
    rm_ok rm' /\ l2 = la ++ lb /\ Forall (fun a => start (n_r a) <= end_ r) la /\
    (forall b, head lb = Some b -> end_ r < start (n_r b)) /\
    rm_contents rm' = l1 ++
      {| n_addr := n_addr m; n_r := irange (start (n_r m)) (absorb (end_ (n_r m)) la) |} :: lb.
Proof.
  induction l2 as [|a l2 IH]; intros fuel rm l1 m Hok E Hf;
    (destruct fuel as [|fuel]; [simpl in Hf; lia|]).
  { exists rm, [], []. do 5 (split; [done|]). simpl. rewrite E. by destruct m as [? []]. }
  assert (E' : rm_contents rm = (l1 ++ [m]) ++ a :: l2) by (by rewrite <- app_assoc).
  simpl in Hf |- *. rewrite (rm_deref_spec rm _ a l2 Hok E'). simpl.
  destruct (Z.leb_spec (start (n_r a)) (end_ r)) as [Ha|Ha].
  2: { exists rm, [], (a :: l2). do 4 (split; [done|]). split; [by intros b [= <-]|].
       simpl. rewrite E. by destruct m as [? []]. }
  rewrite (next_node_spec rm _ a l2 Hok E'). simpl. rewrite (rm_deref_spec rm _ m (a :: l2) Hok E). simpl.
  set (m' := {| n_addr := n_addr m; n_r := irange (start (n_r m))
     (if end_ (n_r m) <? end_ (n_r a) then end_ (n_r a) else end_ (n_r m)) |}).
  assert (Hset : let rm1 := if end_ (n_r m) <? end_ (n_r a)
      then rmnode_set_range rm (n_addr m) (irange (start (n_r m)) (end_ (n_r a))) else rm in
    rm_ok rm1 /\ rm_contents rm1 = l1 ++ m' :: a :: l2).
  { unfold m'. case_match; [|simpl; rewrite E; by destruct m as [? []]].
    apply set_range_spec; [done..|]. apply sorted_same_start; [|done]. rewrite <- E. apply Hok. }
  destruct Hset as [Hok1 Hc1].
  destruct (remove_range_spec _ (l1 ++ [m']) a l2 Hok1) as (rm2 & -> & Hok2 & Hc2);
    [by rewrite Hc1, <- app_assoc|]. simpl.
  destruct (IH fuel rm2 l1 m' Hok2) as (rm' & la & lb & E1 & Hok' & -> & Hla & Hlb & Hc');
    [by rewrite Hc2, <- app_assoc|lia|].
  exists rm', (a :: la), lb. do 2 (split; [done|]). split; [done|]. split; [by constructor|].
  split; [done|exact Hc'].
Qed.

Lemma insert_range_start_spec rm r :
  rm_wf rm -> exists l1 l2, rm_contents rm = l1 ++ l2 /\
    insert_range_start rm r = Some (n_addr <$> head l2) /\
    Forall (fun a => end_ (n_r a) <= start r) l1 /\
    Forall (fun a => start r <= end_ (n_r a)) l2.
Proof.
  intros Hwf. unfold insert_range_start. rewrite max_lte_spec by done.
  pose proof (wf_contents _ Hwf) as Hwl.
  assert (Hafter : forall l, wf_nodes l -> Forall (fun b => ~ 0 <= key_compare (key_node r) b) l ->
    Forall (fun a => start r <= end_ (n_r a)) l).
  { intros l Hl Hk. apply Forall_forall. intros b Hb. rewrite Forall_forall in Hk.
    specialize (Hk b Hb). rewrite key_ge in Hk. pose proof (wf_valid _ Hl) as Hv.
    rewrite Forall_forall in Hv. specialize (Hv b Hb). unfold valid_range in Hv. simpl in Hk. lia. }
  destruct (max_lte (key_node r) (rm_contents rm)) as [a|] eqn:Em.
  - apply max_lte_split in Em as (l1 & l2 & E & Hl2 & Hle). apply key_ge in Hle. simpl in Hle.
    rewrite E in Hwl. destruct (precedes_mid _ _ _ Hwl) as (Hl1 & _ & _).
    assert (Hb : Forall (fun b => end_ (n_r b) <= start r) l1)
      by (eapply Forall_impl; [exact Hl1|]; simpl; lia).
    specialize (Hafter l2 ltac:(by apply (wf_nodes_app (l1 ++ [a])); rewrite <- app_assoc) Hl2).
    simpl. rewrite (rm_deref_spec rm l1 a l2), (next_node_spec rm l1 a l2) by auto with kernel.
    simpl. destruct (Z.ltb_spec (end_ (n_r a)) (start r)).
    + exists (l1 ++ [a]), l2. rewrite <- app_assoc. do 2 (split; [done|]). split; [|done].
      rewrite Forall_app. split; [done|]. repeat constructor. lia.
    + exists l1, (a :: l2). do 3 (split; [done|]). by constructor.
  - apply max_lte_none in Em. rewrite first_node_spec by done. simpl.
    exists [], (rm_contents rm). split; [done|]. split; [|by split; [|auto]].
    destruct (rm_contents rm) as [|b l] eqn:Ec; [done|]. simpl.
    rewrite (rm_deref_spec rm [] b l) by auto with kernel. simpl.
    specialize (Hafter _ Hwl Em). apply Forall_cons in Hafter as [Hb _].
    destruct (Z.ltb_spec (end_ (n_r b)) (start r)); [lia|done].
Qed.

(** The node that absorbs the range and the nodes it reaches. *)
Definition merged_node (a : rmnode) (r : range) (la : list rmnode) : rmnode :=
  {| n_addr := n_addr a;
     n_r := irange (Z.min (start r) (start (n_r a))) (absorb (Z.max (end_ (n_r a)) (end_ r)) la) |}.

Section Merge.
Variables (l1 : list rmnode) (a : rmnode) (la lb : list rmnode) (r : range).
Hypothesis Hwf : wf_nodes (l1 ++ a :: la ++ lb).
Hypothesis Hr : valid_range r.
Hypothesis Hl1 : Forall (fun b => end_ (n_r b) <= start r) l1.
Hypothesis Hl2 : Forall (fun b => start r <= end_ (n_r b)) (a :: la ++ lb).
Hypothesis Ha : start (n_r a) <= end_ r.
Hypothesis Hla : Forall (fun b => start (n_r b) <= end_ r) la.
Hypothesis Hlb : forall b, head lb = Some b -> end_ r < start (n_r b).

Lemma merge_lb b : b ∈ lb -> end_ r < start (n_r b).
Proof.
  intros Hb. destruct lb as [|c l]; [by apply not_elem_of_nil in Hb|].
  specialize (Hlb c eq_refl). apply elem_of_cons in Hb as [->|Hb]; [done|].
  assert (Hwc : wf_nodes (c :: l)).
  { apply (wf_nodes_app (l1 ++ a :: la)). by rewrite <- app_assoc. }
  destruct (precedes_mid [] c l Hwc) as (_ & Hl & Hv). rewrite Forall_forall in Hl.
  specialize (Hl b Hb). simpl in Hl. unfold valid_range in Hv. lia.
Qed.

Lemma merge_bounds :
  (forall b, b ∈ l1 -> end_ (n_r b) <= start r /\ end_ (n_r b) <= start (n_r a) /\ valid_range (n_r b)) /\
  valid_range (n_r a) /\
  (forall b, b ∈ la -> end_ (n_r a) <= start (n_r b) <= end_ r /\ valid_range (n_r b)) /\
  (forall b, b ∈ lb -> end_ (n_r a) <= start (n_r b) /\ valid_range (n_r b)) /\
  (forall b c, b ∈ la -> c ∈ lb -> end_ (n_r b) <= start (n_r c)).
Proof.
  destruct (precedes_mid _ _ _ Hwf) as (H1 & H2 & Hv).
  pose proof (wf_valid _ Hwf) as Hval. pose proof (wf_disjoint _ Hwf) as Hs.
  apply StronglySorted_app in Hs as (_ & _ & [_ Hs]%StronglySorted_cons).
  apply StronglySorted_app in Hs as (Hx & _ & _).
  rewrite !Forall_forall in *. repeat split; try (by apply Hv); intros.
  all: try (apply Hl1; done). all: try (apply H1; done).
  all: try (apply Hval; rewrite ?elem_of_app, ?elem_of_cons, ?elem_of_app; tauto).
  all: try (apply H2; rewrite elem_of_app; tauto). all: try (by apply Hla). by apply Hx.
Qed.

Lemma merged_end :
  let e := absorb (Z.max (end_ (n_r a)) (end_ r)) la in
  end_ (n_r a) <= e /\ end_ r <= e /\ (forall b, b ∈ la -> end_ (n_r b) <= e) /\ e < 2 ^ 64 /\
  (forall b, b ∈ lb -> e <= start (n_r b)) /\
  (forall x, end_ r <= x < e -> in_range (n_r a) x \/ covers la x).
Proof.
  destruct merge_bounds as (_ & Hva & Hba & Hbb & Hab). unfold valid_range in *.
  destruct (absorb_spec (Z.max (end_ (n_r a)) (end_ r)) la) as (H1 & H2 & H3).
  rewrite Forall_forall in H2. set (e := absorb _ la) in *. simpl.
  split; [lia|]. split; [lia|]. split; [done|].
  destruct H3 as [H3|(c & Hc & H3)].
  - split; [lia|]. split.
    + intros b Hb. pose proof (merge_lb b Hb). destruct (Hbb b Hb). lia.
    + intros x Hx. left. unfold in_range. destruct (Z.max_spec (end_ (n_r a)) (end_ r)); lia.
  - destruct (Hba c Hc) as [Hcs Hcv]. split; [lia|]. split.
    + intros b Hb. rewrite H3. by apply Hab.
    + intros x Hx. right. exists c. split; [done|]. unfold in_range. lia.
Qed.

Lemma wf_merged : wf_nodes (l1 ++ merged_node a r la :: lb).
Proof.
  destruct merge_bounds as (Hb1 & Hva & Hba & Hbb & Hab). destruct merged_end as (E1 & E2 & E3 & E4 & E5 & _).
  pose proof Hwf as [Hv Hs Hd Hn]. unfold valid_range in *. split.
  - apply Forall_app in Hv as [Hv1 Hv]. apply Forall_cons in Hv as [_ Hv]. apply Forall_app in Hv as [_ Hv].
    rewrite Forall_app, Forall_cons. split; [done|]. split; [|done]. unfold valid_range; simpl. lia.
  - apply StronglySorted_app in Hs as (Hx & Hs1 & [_ Hs]%StronglySorted_cons).
    apply StronglySorted_app in Hs as (_ & _ & Hs).
    apply StronglySorted_app_2; [|done|apply StronglySorted_cons; split; [|done]].
    + intros b c Hb [->|Hc]%elem_of_cons; [|apply Hx; [done|]; right; rewrite elem_of_app; by right].
      unfold precedes. simpl. destruct (Hb1 b Hb) as (? & ? & _). lia.
    + apply Forall_forall. intros b Hb. by apply E5.
  - rewrite !fmap_app, !fmap_cons, fmap_app in Hd. rewrite fmap_app, fmap_cons. simpl.
    apply NoDup_app in Hd as (Hd1 & Hd2 & Hd). apply NoDup_cons in Hd as [Hda Hd].
    apply NoDup_app in Hd as (_ & _ & Hd3). apply NoDup_app. split; [done|]. split.
    + intros p Hp [->|Hp']%elem_of_cons; apply (Hd2 _ Hp); [by left|].
      right. rewrite elem_of_app. by right.
    + apply NoDup_cons. split; [|done]. intros Hp. apply Hda. rewrite elem_of_app. by right.
  - rewrite Forall_app, Forall_cons, Forall_app in Hn. rewrite Forall_app, Forall_cons. simpl. tauto.
Qed.

Lemma covers_merged x :
  covers (l1 ++ merged_node a r la :: lb) x <-> covers (l1 ++ a :: la ++ lb) x \/ in_range r x.
Proof.
  destruct merge_bounds as (_ & Hva & Hba & _). destruct merged_end as (E1 & E2 & E3 & _ & _ & E6).
  apply Forall_cons in Hl2 as [Hra _]. unfold valid_range in *.
  rewrite !covers_app, !covers_cons, covers_app.
  assert (Hm : in_range (n_r (merged_node a r la)) x <->
    in_range (n_r a) x \/ covers la x \/ in_range r x); [|tauto].
  unfold merged_node. simpl n_r. split.
  - intros Hx. unfold in_range in Hx. simpl in Hx.
    destruct (Z.lt_ge_cases x (end_ r)) as [Hlt|Hge]; [|destruct (E6 x ltac:(lia)); tauto].
    unfold in_range. destruct (Z.lt_ge_cases x (start r)); [left; lia|right; right; lia].
  - unfold in_range. simpl. intros [Hx|[(b & Hb & Hx)|Hx]]; [lia| |lia].
    specialize (E3 b Hb). destruct (Hba b Hb). unfold in_range in Hx. lia.
Qed.
End Merge.

Lemma merge_reached rm r l1 a l :
  rm_wf rm -> valid_range r -> rm_contents rm = l1 ++ a :: l -> start (n_r a) <= end_ r ->
  Forall (fun b => end_ (n_r b) <= start r) l1 ->
  Forall (fun b => start r <= end_ (n_r b)) (a :: l) ->
  exists rm', merge_range (map_fuel rm) rm r (Some (n_addr a)) None = Some (rm', Some (n_addr a)) /\
    rm_wf rm' /\ forall x, covers (rm_contents rm') x <-> covers (rm_contents rm) x \/ in_range r x.
Proof.
  intros Hwf Hr E Ha Hl1 Hl2. pose proof (wf_contents _ Hwf) as Hwl. rewrite E in Hwl.
  assert (Hfuel : (length l < tree_size (root (t rm)))%nat).
  { rewrite tree_size_inorder. apply (f_equal length) in E. rewrite length_app in E.
    unfold rm_contents, contents in E. simpl in E. lia. }
  unfold map_fuel. simpl.
  rewrite (rm_deref_spec rm l1 a l), (next_node_spec rm l1 a l) by auto with kernel. simpl.
  destruct (Z.leb_spec (start (n_r a)) (end_ r)); [|lia].
  set (s := if start r <? start (n_r a) then start r else start (n_r a)).
  set (e := if end_ (n_r a) <? end_ r then end_ r else end_ (n_r a)).
  assert (Es : s = Z.min (start r) (start (n_r a))) by (unfold s; case_test; lia).
  assert (Ee : e = Z.max (end_ (n_r a)) (end_ r)) by (unfold e; case_test; lia).
  destruct (precedes_mid _ _ _ Hwl) as (Hp1 & Hp2 & Hva). unfold valid_range in Hva.
  destruct (set_range_spec rm l1 a l (irange s e)) as [Hok Hc]; [auto with kernel|done| |].
  { pose proof (inv_sorted _ (wf_tree _ Hwf)) as Hs. fold (rm_contents rm) in Hs. rewrite E in Hs.
    rewrite sorted_mid in Hs |- *. destruct Hs as (Hs1 & Hs2 & _ & Hs4). do 2 (split; [done|]).
    pose proof (wf_valid _ Hwl) as [Hv _]%Forall_app. unfold valid_range in Hv.
    rewrite !Forall_forall in *. split; intros b Hb; apply rmnode_compare_lt; simpl.
    - specialize (Hl1 b Hb). specialize (Hp1 b Hb). specialize (Hv b Hb). simpl in Hv. lia.
    - specialize (Hp2 b Hb). simpl in Hp2. lia. }
  destruct (merge_rest r l (tree_size (root (t rm))) _ l1 _ Hok Hc Hfuel)
    as (rm' & la & lb & Em & [Hinv Hd] & -> & Hla & Hlb & Hc').
  simpl in Hc', Em. rewrite Em. rewrite Es, Ee in Hc'. fold (merged_node a r la) in Hc'.
  exists rm'. split; [done|]. rewrite Hc', E. split.
  - split; [done|]. rewrite Hc'. by apply wf_merged.
  - intros x. by apply covers_merged.
Qed.

Lemma merge_unreached rm r l1 l2 :
  rm_wf rm -> valid_range r -> rm_contents rm = l1 ++ l2 ->
  (forall a, head l2 = Some a -> end_ r < start (n_r a)) ->
  Forall (fun b => end_ (n_r b) <= start r) l1 ->
  merge_range (map_fuel rm) rm r (n_addr <$> head l2) None = Some (rm, None) /\
  Forall (fun a => overlap r (n_r a) = false) (rm_contents rm).
Proof.
  intros Hwf Hr E Hh Hl1. pose proof (wf_contents _ Hwf) as Hwl. rewrite E in Hwl.
  unfold map_fuel. split.
  - destruct l2 as [|a l2]; [done|]. simpl. rewrite (rm_deref_spec rm l1 a l2) by auto with kernel. simpl.
    specialize (Hh a eq_refl). destruct (Z.leb_spec (start (n_r a)) (end_ r)); [lia|done].
  - rewrite E, Forall_app. split.
    + eapply Forall_impl; [exact Hl1|]. simpl. intros b Hb. apply Z.ltb_ge. lia.
    + apply Forall_forall. intros b Hb. apply Z.ltb_ge. unfold valid_range in Hr.
      destruct l2 as [|a l2]; [by apply not_elem_of_nil in Hb|]. specialize (Hh a eq_refl).
      destruct (precedes_mid _ _ _ Hwl) as (_ & Hp & Hv). rewrite Forall_forall in Hp.
      unfold valid_range in Hv. apply elem_of_cons in Hb as [->|Hb]; [lia|].
      specialize (Hp b Hb). simpl in Hp. lia.
Qed.


(** ** Walks over nodes and gaps *)

Definition event : Type := rmnode + range.

Definition gap_event (q : range) (e1 e2 : Z) : list event :=
  let i := range_intersection (irange e1 e2) q in
  if range_span i =? 0 then [] else [inr i].

(** The nodes a walk over [q] meets and the gaps between them, from [edge] on. *)
Fixpoint walk_events (q : range) (edge : Z) (l : list rmnode) : list event :=
  match l with
  | [] => gap_event q edge (end_ q)
  | a :: l' =>
      if overlap q (n_r a)
      then gap_event q edge (start (n_r a)) ++ inl a :: walk_events q (end_ (n_r a)) l'
      else gap_event q edge (end_ q)
  end.

Section Dispatch.
Context {H : Type} (nh : H -> rmnode -> H * bool) (gh : H -> range -> H * bool).

(** The handlers run on the events in order until one of them says [false]. *)
Fixpoint dispatch (evs : list event) (s : H) (mtch : bool) : H * lookup_result :=
  match evs with
  | [] => (s, if mtch then RM_MATCH else RM_NOMATCH)
  | e :: evs' =>
      let '(s, ok) := match e with inl a => nh s a | inr g => gh s g end in
      if ok then dispatch evs' s true else (s, RM_ABORT)
  end.

Definition walk_step (q : range) (st : H * bool * Z) (curr : rmnode) : (H * bool * Z) + H :=
  let '(s, mtch, lastedge) := st in
  let '(s, mtch, ok) := apply_gap (Some gh) q lastedge (start (n_r curr)) s mtch in
  if negb ok then inr s
  else
    let '(s, mtch, ok) := apply_node (Some nh) q curr s mtch in
    if negb ok then inr s else inl (s, mtch, end_ (n_r curr)).

Lemma dispatch_gap q e1 e2 evs s m :
  dispatch (gap_event q e1 e2 ++ evs) s m =
  let '(s, m, ok) := apply_gap (Some gh) q e1 e2 s m in
  if ok then dispatch evs s m else (s, RM_ABORT).
Proof.
  unfold gap_event, apply_gap. destruct (range_span _ =? 0); simpl; [done|].
  by destruct (gh s _) as [s' ok].
Qed.

Lemma dispatch_walk q l s m edge :
  Forall (fun a => valid_range (n_r a)) l ->
  (match foreach_list (walk_step q) q l (s, m, edge) with
   | inr s => (s, RM_ABORT)
   | inl (s, m, e) =>
       let '(s, m, ok) := apply_gap (Some gh) q e (end_ q) s m in
       if negb ok then (s, RM_ABORT) else (s, if m then RM_MATCH else RM_NOMATCH)
   end) = dispatch (walk_events q edge l) s m.
Proof.
  intros Hv. revert s m edge. induction Hv as [|a l Ha Hv IH]; intros s m edge; cbn [foreach_list walk_events].
  { rewrite <- (app_nil_r (gap_event _ _ _)), dispatch_gap. by destruct (apply_gap _ _ _ _ _ _) as [[? ?] []]. }
  destruct (overlap q (n_r a)) eqn:Eo.
  2: { rewrite <- (app_nil_r (gap_event _ _ _)), dispatch_gap. by destruct (apply_gap _ _ _ _ _ _) as [[? ?] []]. }
  rewrite dispatch_gap. unfold walk_step at 1.
  destruct (apply_gap (Some gh) q edge (start (n_r a)) s m) as [[s1 m1] []]; [|done]. cbn [negb dispatch].
  unfold apply_node, range_empty. rewrite intersection_span, overlap_comm, Eo by done. cbn [negb].
  destruct (nh s1 a) as [s2 []]; cbn [negb]; [apply IH|done].
Qed.

Lemma lookup_with_gaps_spec rm q s :
  rm_wf rm ->
  rangemap_range_lookup_with_gaps rm q nh gh s =
    Some (dispatch (walk_events q (start q) (from (start q) (rm_contents rm))) s false).
Proof.
  intros Hwf. unfold rangemap_range_lookup_with_gaps, rangemap_range_lookup_internal.
  rewrite (foreach_pure (walk_step q)); [|intros [[s0 m0] e0] a _ _|done].
  2: { unfold lookup_step, walk_step.
       destruct (apply_gap _ _ _ _ _ _) as [[s1 m1] []]; [|done]. cbn [negb].
       by destruct (apply_node _ _ _ _ _) as [[s2 m2] []]. }
  cbn [mbind option_bind]. rewrite <- dispatch_walk by apply from_valid, Hwf.
  destruct (foreach_list _ _ _ _) as [[[s1 m1] e1]|s1]; [|done].
  by destruct (apply_gap _ _ _ _ _ _) as [[s2 m2] []].
Qed.
End Dispatch.

Lemma gap_event_points q e1 e2 x :
  valid_range q ->
  (exists g, inr g ∈ gap_event q e1 e2 /\ in_range g x) <-> e1 <= x < e2 /\ in_range q x.
Proof.
  intros Hq. unfold gap_event. rewrite intersection_span_r by done.
  destruct (overlap (irange e1 e2) q) eqn:Eo; simpl.
  - unfold overlap, range_intersection, in_range in *. simpl in *. breflect.
    destruct (Z.leb_spec (Z.min e2 (end_ q)) (Z.max e1 (start q))); [lia|]. split.
    + intros (g & Hg & Hx). apply list_elem_of_singleton in Hg. injection Hg as ->. simpl in Hx. lia.
    + intros Hx. eexists. split; [by apply list_elem_of_singleton|]. simpl. lia.
  - split; [intros (g & Hg & _); by apply not_elem_of_nil in Hg|]. intros [H1 H2]. exfalso.
    unfold overlap, in_range in *. simpl in *. breflect. lia.
Qed.

Lemma walk_gaps q edge l x :
  valid_range q -> wf_nodes l -> Forall (fun a => start q < end_ (n_r a)) l ->
  Forall (fun a => edge <= end_ (n_r a)) l ->
  (exists g, inr g ∈ walk_events q edge l /\ in_range g x) <->
    in_range q x /\ edge <= x /\ ~ covers l x.
Proof.
  intros Hq. revert edge. induction l as [|a l IH]; intros edge Hwf Hs He; simpl.
  { rewrite gap_event_points by done. unfold in_range.
    assert (~ covers [] x) by (intros (b & Hb & _); by apply not_elem_of_nil in Hb).
    split; [intros [? ?]; split; [done|]; split; [lia|done]|lia]. }
  destruct (precedes_mid [] a l Hwf) as (_ & Hl & Hv). unfold valid_range in Hv.
  rewrite Forall_forall in Hl. rewrite covers_cons.
  apply Forall_cons in Hs as [Hsa Hs], He as [Hea He].
  assert (Hafter : x < end_ (n_r a) -> ~ covers l x).
  { intros Hx (b & Hb & Hbx). specialize (Hl b Hb). unfold in_range in Hbx. simpl in Hl. lia. }
  destruct (overlap q (n_r a)) eqn:Eo.
  - setoid_rewrite elem_of_app. setoid_rewrite elem_of_cons.
    assert (Hsplit : (exists g, (inr g ∈ gap_event q edge (start (n_r a)) \/
        (inr g : event) = inl a \/ inr g ∈ walk_events q (end_ (n_r a)) l) /\ in_range g x) <->
      (edge <= x < start (n_r a) /\ in_range q x) \/
      (in_range q x /\ end_ (n_r a) <= x /\ ~ covers l x)).
    { rewrite <- (gap_event_points q edge (start (n_r a)) x Hq), <- (IH (end_ (n_r a))).
      - naive_solver.
      - by apply (wf_nodes_app [a]).
      - done.
      - apply Forall_forall. intros b Hb. specialize (Hl b Hb). simpl in Hl.
        pose proof (wf_valid _ Hwf) as [_ Hvl]%Forall_cons. rewrite Forall_forall in Hvl.
        specialize (Hvl b Hb). unfold valid_range in Hvl. simpl in Hvl. lia. }
    rewrite Hsplit. unfold in_range in *. split.
    + intros [[Hx Hqx]|(Hqx & Hx & Hn)]; (split; [done|]); (split; [lia|]); intros [?|?];
        [lia|by apply Hafter; [lia|]|lia|done].
    + intros (Hqx & Hx & Hn). destruct (Z.lt_ge_cases x (start (n_r a))); [left; lia|].
      right. split; [done|]. split; [|tauto].
      destruct (Z.lt_ge_cases x (end_ (n_r a))); [exfalso; apply Hn; left; lia|done].
  - rewrite gap_event_points by done. unfold in_range, overlap in *. breflect. split.
    + intros [Hx Hqx]. split; [done|]. split; [lia|]. intros [?|?]; [lia|by apply Hafter; [lia|]].
    + intros (Hqx & Hx & _). lia.
Qed.

Lemma walk_nodes q edge l a :
  wf_nodes l -> Forall (fun a => start q < end_ (n_r a)) l ->
  inl a ∈ walk_events q edge l <-> a ∈ l /\ overlap q (n_r a) = true.
Proof.
  assert (Hgap : forall e1 e2, ~ (inl a : event) ∈ gap_event q e1 e2).
  { intros e1 e2. unfold gap_event. destruct (range_span _ =? 0); simpl.
    - apply not_elem_of_nil. - rewrite list_elem_of_singleton. congruence. }
  revert edge. induction l as [|b l IH]; intros edge Hwf Hs; simpl.
  { split; [by intros ?%Hgap|]. intros [Ha _]. by apply not_elem_of_nil in Ha. }
  apply Forall_cons in Hs as [Hsb Hs]. pose proof (wf_nodes_app [b] l Hwf) as [_ Hwl].
  destruct (precedes_mid [] b l Hwf) as (_ & Hl & Hv). rewrite Forall_forall in Hl.
  rewrite elem_of_cons. destruct (overlap q (n_r b)) eqn:Eo.
  - rewrite elem_of_app, elem_of_cons, IH by done. specialize (Hgap edge (start (n_r b))).
    split; [|intuition congruence].
    intros [?|[[= ->]|[? ?]]]; [done| |]; (split; [|done]); [by left|by right].
  - split; [by intros ?%Hgap|]. intros [[->|Ha] Hoa]; [congruence|]. exfalso.
    specialize (Hl a Ha). unfold overlap, valid_range in *. simpl in Hl. breflect. lia.
Qed.

(** ** Properties *)

(** C15: inserting a node with a non-empty range succeeds exactly when no point of
    the range is covered; the map stays a balanced tree of disjoint ranges, and
    covers the old points and the new range, or is unchanged on failure. *)
Theorem rangemap_insert_disjoint rm n :
  rm_wf rm -> valid_range (n_r n) -> n_addr n <> 0 ->
  n_addr n ∉ n_addr <$> rm_contents rm -> rangemap_count rm < 2 ^ 64 - 1 ->
  exists rm' b, rangemap_insert rm n = Some (rm', b) /\ rm_wf rm' /\
    (b = true <-> forall x, in_range (n_r n) x -> ~ covers (rm_contents rm) x) /\
    if (b : bool)
    then forall x, covers (rm_contents rm') x <-> in_range (n_r n) x \/ covers (rm_contents rm) x
    else rm' = rm.
Proof.
  intros Hwf Hn Hnz Hfresh Hcount. pose proof (insert_spec rm n Hwf Hn Hnz Hfresh Hcount) as Hins.
  destruct (first_overlap _ _) as [a|] eqn:Ef.
  - exists rm, false. do 2 (split; [done|]). split; [|done]. split; [done|]. intros Hx. exfalso.
    apply first_overlap_some in Ef as [Ha (x & Hx1 & Hx2)%overlap_spec].
    apply (Hx x Hx1). by exists a.
  - destruct Hins as (rm' & E & Hwf' & Hc & _ & Hk). exists rm', true. do 2 (split; [done|]).
    split; [|intros x; rewrite Hc; by apply covers_insert]. split; [|done].
    intros _ x Hx (a & Ha & Hax).
    pose proof (first_overlap_none _ _ (wf_contents _ Hwf) Ef) as Hno. rewrite Forall_forall in Hno.
    specialize (Hno a Ha). assert (overlap (n_r n) (n_r a) = true) by (apply overlap_spec; eauto). congruence.
Qed.

(** Two nodes, as insertion places them. *)
Definition sample_map : rangemap :=
  default init_rangemap
    ('(rm, _) ← rangemap_insert init_rangemap {| n_addr := 100; n_r := irange 10 20 |};
     '(rm, _) ← rangemap_insert rm {| n_addr := 200; n_r := irange 30 40 |};
     Some rm).

Lemma sample_map_contents : rm_contents sample_map =
  [{| n_addr := 100; n_r := irange 10 20 |}; {| n_addr := 200; n_r := irange 30 40 |}].
Proof. reflexivity. Qed.

Lemma sample_map_wf : rm_wf sample_map.
Proof.
  split.
  - split.
    + exists 1%nat. vm_compute. repeat econstructor.
    + fold (rm_contents sample_map). rewrite sample_map_contents. repeat constructor.
    + vm_compute. tauto.
    + reflexivity.
  - rewrite sample_map_contents. split.
    + rewrite !Forall_cons, Forall_nil. unfold valid_range. simpl. lia.
    + repeat constructor. unfold precedes. simpl. lia.
    + simpl. repeat constructor; set_solver.
    + rewrite !Forall_cons, Forall_nil. simpl. lia.
Qed.

Lemma rangemap_insert_disjoint_witness :
  exists rm' b, rangemap_insert sample_map {| n_addr := 300; n_r := irange 15 25 |} = Some (rm', b) /\
    rm_wf rm' /\
    (b = true <-> forall x, 15 <= x < 25 -> ~ covers (rm_contents sample_map) x) /\
    if (b : bool)
    then forall x, covers (rm_contents rm') x <-> 15 <= x < 25 \/ covers (rm_contents sample_map) x
    else rm' = sample_map.
Proof.
  apply (rangemap_insert_disjoint sample_map {| n_addr := 300; n_r := irange 15 25 |} sample_map_wf);
    [by vm_compute|done|rewrite sample_map_contents; simpl; set_solver|reflexivity].
Defined.

(** C13: [rangemap_insert_range] never fails an assertion and keeps the map
    well-formed; when it returns true the map covers exactly the old points and
    the points of the range, and it returns false only when a needed allocation
    failed, leaving the map unchanged. *)
Theorem rangemap_insert_range_union rm r alloc :
  rm_wf rm -> valid_range r -> rangemap_count rm < 2 ^ 64 - 1 ->
  (forall p, alloc = Some p -> p <> 0 /\ p ∉ n_addr <$> rm_contents rm) ->
  exists rm' b, rangemap_insert_range rm r alloc = Some (rm', b) /\ rm_wf rm' /\
    if (b : bool)
    then forall x, covers (rm_contents rm') x <-> covers (rm_contents rm) x \/ in_range r x
    else rm' = rm /\ alloc = None.
Proof.
  intros Hwf Hr Hcount Halloc. unfold rangemap_insert_range.
  destruct (insert_range_start_spec rm r Hwf) as (l1 & l2 & E & -> & Hl1 & Hl2).
  cbn [mbind option_bind].
  assert (Hcases : (exists a l, l2 = a :: l /\ start (n_r a) <= end_ r) \/
    (forall a, head l2 = Some a -> end_ r < start (n_r a))).
  { destruct l2 as [|a l]; [by right|]. destruct (Z.le_gt_cases (start (n_r a)) (end_ r));
      [left; eauto|right; intros ? [= <-]; lia]. }
  destruct Hcases as [(a & l & -> & Ha)|Hh].
  - destruct (merge_reached rm r l1 a l) as (rm' & Em & Hw & Hc); [done..|].
    cbn [head fmap option_fmap option_map]. rewrite Em. by exists rm', true.
  - destruct (merge_unreached rm r l1 l2) as [-> Hno]; [done..|]. cbn [mbind option_bind].
    destruct alloc as [p|]; [|by exists rm, false].
    destruct (Halloc p eq_refl) as [Hp Hfresh].
    destruct (wf_fresh_insert rm {| n_addr := p; n_r := r |}) as (rm' & -> & Hw & _ & Hc); [done..|].
    exists rm', true. do 2 (split; [done|]). intros x. rewrite Hc. simpl. tauto.
Qed.

Lemma rangemap_insert_range_union_witness :
  exists rm' b, rangemap_insert_range sample_map (irange 15 35) None = Some (rm', b) /\ rm_wf rm' /\
    if (b : bool)
    then forall x, covers (rm_contents rm') x <->
      covers (rm_contents sample_map) x \/ in_range (irange 15 35) x
    else rm' = sample_map /\ (None : option Z) = None.
Proof.
  apply (rangemap_insert_range_union sample_map (irange 15 35) None sample_map_wf);
    [by vm_compute|reflexivity|done].
Defined.

(** C14: [rangemap_insert_hole] takes exactly the points of the hole out of the
    map, splitting, shrinking or removing the node that contains it; it returns
    false, with the map unchanged, only when no single node contains the hole or
    when the split needs a node that cannot be allocated. *)
Theorem rangemap_insert_hole_difference rm r alloc :
  rm_wf rm -> valid_range r -> rangemap_count rm < 2 ^ 64 - 1 ->
  (forall p, alloc = Some p -> p <> 0 /\ p ∉ n_addr <$> rm_contents rm) ->
  exists rm' b, rangemap_insert_hole rm r alloc = Some (rm', b) /\ rm_wf rm' /\
    if (b : bool)
    then forall x, covers (rm_contents rm') x <-> covers (rm_contents rm) x /\ ~ in_range r x
    else rm' = rm /\ forall a, a ∈ rm_contents rm -> range_contains (n_r a) r = true ->
      alloc = None /\ start (n_r a) < start r /\ end_ r < end_ (n_r a).
Proof.
  intros Hwf Hr Hcount Halloc. unfold rangemap_insert_hole.
  destruct (first_overlap r (rm_contents rm)) as [a|] eqn:Ef.
  2: { rewrite foreach_first_none by done. simpl. do 2 eexists. do 2 (split; [done|]).
       split; [done|]. intros a Ha Hc.
       pose proof (first_overlap_none _ _ (wf_contents _ Hwf) Ef) as Hno. rewrite Forall_forall in Hno.
       specialize (Hno a Ha). unfold range_contains, overlap, valid_range in *. breflect. lia. }
  pose proof Ef as [Ha Ho]%first_overlap_some.
  assert (Honly : forall b, b ∈ rm_contents rm -> range_contains (n_r b) r = true -> b = a).
  { intros b Hb Hc. apply overlap_spec in Ho as (x & Hx1 & Hx2).
    apply (covering_unique (rm_contents rm) b a x); [apply Hwf|done..| |done].
    unfold range_contains, in_range in *; breflect; lia. }
  destruct (range_contains (n_r a) r) eqn:Hsub.
  - pose proof Ha as (l1 & l2 & Hin)%list_elem_of_split.
    destruct (insert_hole_node_spec rm l1 a l2 r Hwf Hin Hr Hsub Hcount alloc Halloc)
      as (rm' & b & E & Hw & Hb).
    rewrite (foreach_first_some _ _ _ _ _ _ _ Hwf Ef E). simpl. exists rm', b. do 2 (split; [done|]).
    destruct b; [done|]. destruct Hb as [-> Hb]. split; [done|]. intros c Hc Hcr. by rewrite (Honly c).
  - erewrite foreach_first_some; [|done..|].
    2: { unfold insert_hole_node. replace (_ || _) with true; [done|]. symmetry.
         unfold range_contains in Hsub. apply orb_true_iff. rewrite !Z.ltb_lt.
         apply andb_false_iff in Hsub. rewrite !Z.leb_gt in Hsub. lia. }
    simpl. do 2 eexists. do 2 (split; [done|]). split; [done|].
    intros b Hb Hc. rewrite (Honly b Hb Hc) in Hc. congruence.
Qed.

Lemma rangemap_insert_hole_difference_witness :
  exists rm' b, rangemap_insert_hole sample_map (irange 12 15) (Some 300) = Some (rm', b) /\ rm_wf rm' /\
    if (b : bool)
    then forall x, covers (rm_contents rm') x <->
      covers (rm_contents sample_map) x /\ ~ in_range (irange 12 15) x
    else rm' = sample_map /\ forall a, a ∈ rm_contents sample_map ->
      range_contains (n_r a) (irange 12 15) = true ->
      Some 300 = None /\ start (n_r a) < 12 /\ 15 < end_ (n_r a).
Proof.
  apply (rangemap_insert_hole_difference sample_map (irange 12 15) (Some 300) sample_map_wf);
    [by vm_compute|reflexivity|].
  intros p [= <-]. rewrite sample_map_contents. simpl. set_solver.
Defined.

(** Looking a point up finds the node whose range holds it, and nothing when
    no range does. *)
Theorem rangemap_lookup_point rm point :
  rm_wf rm -> 0 <= point < 2 ^ 64 - 1 ->
  exists o, rangemap_lookup rm point = Some o /\
    match o with
    | Some p => exists a, rm_deref rm p = Some a /\ a ∈ rm_contents rm /\ in_range (n_r a) point
    | None => ~ covers (rm_contents rm) point
    end.
Proof.
  intros Hwf Hp. rewrite (lookup_spec rm point Hwf Hp). eexists. split; [done|].
  assert (Hpt : forall a, overlap (irange point (point + 1)) (n_r a) = true <-> in_range (n_r a) point).
  { intros a. unfold overlap, in_range. simpl. rewrite Z.ltb_lt. lia. }
  destruct (first_overlap _ _) as [a|] eqn:Ef; simpl.
  - apply first_overlap_some in Ef as [Ha Ho]. exists a.
    pose proof Ha as (l1 & l2 & E)%list_elem_of_split.
    split; [by apply (rm_deref_spec rm l1 a l2); auto with kernel|]. split; [done|by apply Hpt].
  - intros (a & Ha & Hx). pose proof (first_overlap_none _ _ (wf_contents _ Hwf) Ef) as Hno.
    rewrite Forall_forall in Hno. specialize (Hno a Ha). apply Hpt in Hx. congruence.
Qed.

(** A walk over [q] with both handlers calls them on a sequence of events in
    order, and stops when one says [false]; the nodes of the sequence are the
    nodes that meet [q], and its gaps cover exactly the points of [q] that no
    node covers. *)
Theorem rangemap_lookup_gaps {H} rm q (nh : H -> rmnode -> H * bool) (gh : H -> range -> H * bool) s :
  rm_wf rm -> valid_range q ->
  exists evs, rangemap_range_lookup_with_gaps rm q nh gh s = Some (dispatch nh gh evs s false) /\
    (forall a, inl a ∈ evs <-> a ∈ rm_contents rm /\ overlap q (n_r a) = true) /\
    (forall x, (exists g, inr g ∈ evs /\ in_range g x) <->
       in_range q x /\ ~ covers (rm_contents rm) x).
Proof.
  intros Hwf Hq. eexists. split; [by apply lookup_with_gaps_spec|].
  pose proof (wf_contents _ Hwf) as Hwl. destruct (from_split (start q) _ Hwl) as (l1 & E & Hl1).
  assert (Hwf2 : wf_nodes (from (start q) (rm_contents rm)))
    by (rewrite E in Hwl; by apply wf_nodes_app in Hwl as [_ ?]).
  assert (Hs : Forall (fun a => start q < end_ (n_r a)) (from (start q) (rm_contents rm)))
    by (apply Forall_forall; intros a [? _]%list_elem_of_filter; done).
  rewrite Forall_forall in Hl1. split.
  - intros a. rewrite walk_nodes by done. rewrite E at 2. rewrite elem_of_app. split; [tauto|].
    intros [[Ha|Ha] Ho]; [|done]. specialize (Hl1 a Ha). unfold overlap in Ho. simpl in Hl1. breflect. lia.
  - intros x. rewrite walk_gaps; [|done..|eapply Forall_impl; [exact Hs|]; simpl; lia].
    rewrite E at 2. rewrite covers_app. unfold in_range. split.
    + intros (Hx & _ & Hn). split; [done|]. intros [(a & Ha & Hax)|?]; [|done].
      specialize (Hl1 a Ha). unfold in_range in Hax. simpl in Hl1. lia.
    + intros [Hx Hn]. split; [done|]. split; [lia|tauto].
Qed.
