(* ===== verification/Memops.v ===== *)
(** Memory operations: [kernel/src/runtime/memops.c].

    Memory is a map from addresses to bytes; the copies work on it in place, so
    that overlapping source and destination are covered.  A [long] is a 64-bit
    little-endian word. *)

From S2P Require Import Prelude Words.

Definition mem := Z -> Z.

Definition store8 (m : mem) (p v : Z) : mem := fun x => if x =? p then v else m x.

Definition load64 (m : mem) (p : Z) : Z := le_join (map (fun i => m (p + Z.of_nat i)) (seq 0 8)).

Definition store64 (m : mem) (p w : Z) : mem :=
  fun x => if (p <=? x) && (x <? p + 8) then byte_of w (x - p) else m x.

Definition sizeof_long : Z := 8.

(** ** The code *)

Fixpoint memcpyf_loop (n : nat) (i : Z) (m : mem) (dst src : Z) : mem :=
  match n with
  | O => m
  | S n' => memcpyf_loop n' (i + 1) (store8 m (dst + i) (m (src + i))) dst src
  end.

Definition memcpyf_8 (m : mem) (dst src len : Z) : mem := memcpyf_loop (Z.to_nat len) 0 m dst src.

Fixpoint memcpyb_loop (n : nat) (m : mem) (dst src : Z) : mem :=
  match n with
  | O => m
  | S n' =>
      let i := Z.of_nat n' in
      memcpyb_loop n' (store8 m (dst + i) (m (src + i))) dst src
  end.

Definition memcpyb_8 (m : mem) (dst src len : Z) : mem := memcpyb_loop (Z.to_nat len) m dst src.

Fixpoint memset_loop (n : nat) (i : Z) (m : mem) (a b : Z) : mem :=
  match n with O => m | S n' => memset_loop n' (i + 1) (store8 m (a + i) b) a b end.

Definition memset_8 (m : mem) (a b len : Z) : mem := memset_loop (Z.to_nat len) 0 m a b.

Fixpoint memcmp_loop (n : nat) (i : Z) (m : mem) (a b : Z) : Z :=
  match n with
  | O => 0
  | S n' =>
      let res := m (a + i) - m (b + i) in
      if negb (res =? 0) then res else memcmp_loop n' (i + 1) m a b
  end.

Definition memcmp_8 (m : mem) (a b len : Z) : Z := memcmp_loop (Z.to_nat len) 0 m a b.

(** The word loops of [runtime_memcpy], forward and backward, with source and
    destination equally aligned or not; the result is the memory and the final
    destination pointer. *)
Fixpoint copyf_aligned (n : nat) (m : mem) (dest src : Z) : mem * Z :=
  match n with
  | O => (m, dest)
  | S n' => copyf_aligned n' (store64 m dest (load64 m src)) (dest + 8) (src + 8)
  end.

Fixpoint copyf_shifted (n : nat) (m : mem) (dest src word1 alignment : Z) : mem * Z :=
  match n with
  | O => (m, dest)
  | S n' =>
      let word2 := load64 m src in
      let w := Z.lor (Z.shiftr word1 (8 * (sizeof_long - alignment)))
                     (u64 (Z.shiftl word2 (8 * alignment))) in
      copyf_shifted n' (store64 m dest w) (dest + 8) (src + 8) word2 alignment
  end.

Fixpoint copyb_aligned (n : nat) (m : mem) (dest src : Z) : mem :=
  match n with
  | O => m
  | S n' => copyb_aligned n' (store64 m dest (load64 m src)) (dest - 8) (src - 8)
  end.

Fixpoint copyb_shifted (n : nat) (m : mem) (dest src word1 alignment : Z) : mem :=
  match n with
  | O => m
  | S n' =>
      let word2 := load64 m src in
      let w := Z.lor (u64 (Z.shiftl word1 (8 * (sizeof_long - alignment))))
                     (Z.shiftr word2 (8 * alignment)) in
      copyb_shifted n' (store64 m dest w) (dest - 8) (src - 8) word2 alignment
  end.

(** Bytes up to the next word boundary. *)
Definition align_cnt (p : Z) : Z :=
  let cnt := sizeof_long - Z.land p (sizeof_long - 1) in
  if cnt =? sizeof_long then 0 else cnt.

Definition runtime_memcpy (m : mem) (a b len : Z) : mem :=
  if a <? b then
    if len <? sizeof_long then memcpyf_8 m a b len
    else
      let src_cnt := align_cnt b in
      let dest_cnt := align_cnt a in
      let m := if dest_cnt =? 0 then m else memcpyf_8 m a b dest_cnt in
      let long_len := (len - dest_cnt) / sizeof_long in
      let end_len := Z.land (len - dest_cnt) (sizeof_long - 1) in
      let p_long_src := b + src_cnt in
      let p_long_src := if dest_cnt <? src_cnt then p_long_src - 8 else p_long_src in
      let p_long_dest := a + dest_cnt in
      let '(m, p_long_dest) :=
        if src_cnt =? dest_cnt
        then copyf_aligned (Z.to_nat long_len) m p_long_dest p_long_src
        else
          let alignment := Z.land (src_cnt - dest_cnt) (sizeof_long - 1) in
          let long_word1 := load64 m p_long_src in
          copyf_shifted (Z.to_nat long_len) m p_long_dest (p_long_src + 8) long_word1 alignment in
      memcpyf_8 m p_long_dest (b + len - end_len) end_len
  else
    if len <? sizeof_long then memcpyb_8 m a b len
    else
      let src_cnt := Z.land (b + len) (sizeof_long - 1) in
      let dest_cnt := Z.land (a + len) (sizeof_long - 1) in
      let p_long_dest := a + len - dest_cnt in
      let m := memcpyb_8 m p_long_dest (b + len - dest_cnt) dest_cnt in
      let p_long_src := b + len - src_cnt in
      let len := len - dest_cnt in
      let long_len := len / sizeof_long in
      let end_len := Z.land len (sizeof_long - 1) in
      let p_long_src := if src_cnt <=? dest_cnt then p_long_src - 8 else p_long_src in
      let p_long_dest := p_long_dest - 8 in
      let m :=
        if src_cnt =? dest_cnt
        then copyb_aligned (Z.to_nat long_len) m p_long_dest p_long_src
        else
          let alignment := Z.land (src_cnt - dest_cnt) (sizeof_long - 1) in
          let long_word1 := load64 m p_long_src in
          copyb_shifted (Z.to_nat long_len) m p_long_dest (p_long_src - 8) long_word1 alignment in
      memcpyb_8 m a b end_len.

Fixpoint fill_word (n : nat) (word b : Z) : Z :=
  match n with O => word | S n' => fill_word n' (Z.lor (u64 (Z.shiftl word 8)) b) b end.

Fixpoint memset_words (n : nat) (m : mem) (dest word : Z) : mem * Z :=
  match n with
  | O => (m, dest)
  | S n' => memset_words n' (store64 m dest word) (dest + 8) word
  end.

Definition runtime_memset (m : mem) (a b len : Z) : mem :=
  if len <? sizeof_long then memset_8 m a b len
  else
    let cnt := align_cnt a in
    let m := if cnt =? 0 then m else memset_8 m a b cnt in
    let len := len - cnt in
    let dest := a + cnt in
    let word := fill_word 8 0 b in
    let long_len := len / sizeof_long in
    let end_len := Z.land len (sizeof_long - 1) in
    let '(m, dest) := memset_words (Z.to_nat long_len) m dest word in
    memset_8 m dest b end_len.

(** The word loops of [runtime_memcmp]: [None] when two words differ. *)
Fixpoint cmp_aligned (n : nat) (m : mem) (a b : Z) : option Z :=
  match n with
  | O => Some b
  | S n' =>
      let res := u64 (load64 m a - load64 m b) in
      if negb (res =? 0) then None else cmp_aligned n' m (a + 8) (b + 8)
  end.

Fixpoint cmp_shifted (n : nat) (m : mem) (a b word1 alignment : Z) : option Z :=
  match n with
  | O => Some b
  | S n' =>
      let word2 := load64 m a in
      let w := Z.lor (Z.shiftr word1 (8 * (sizeof_long - alignment)))
                     (u64 (Z.shiftl word2 (8 * alignment))) in
      let res := u64 (w - load64 m b) in
      if negb (res =? 0) then None else cmp_shifted n' m (a + 8) (b + 8) word2 alignment
  end.

Definition runtime_memcmp (m : mem) (a b len : Z) : Z :=
  if len <? sizeof_long then memcmp_8 m a b len
  else
    let a_cnt := align_cnt a in
    let b_cnt := align_cnt b in
    let res := if b_cnt =? 0 then 0 else memcmp_8 m a b b_cnt in
    if negb (res =? 0) then res
    else
      let long_len := (len - b_cnt) / sizeof_long in
      let end_len := Z.land (len - b_cnt) (sizeof_long - 1) in
      let p_long_a := a + a_cnt in
      let p_long_a := if b_cnt <? a_cnt then p_long_a - 8 else p_long_a in
      let p_long_b := b + b_cnt in
      let o :=
        if a_cnt =? b_cnt then cmp_aligned (Z.to_nat long_len) m p_long_a p_long_b
        else
          let alignment := Z.land (a_cnt - b_cnt) (sizeof_long - 1) in
          cmp_shifted (Z.to_nat long_len) m (p_long_a + 8) p_long_b (load64 m p_long_a) alignment in
      match o with
      | None => 1
      | Some p_long_b => memcmp_8 m (a + len - end_len) p_long_b end_len
      end.

(** [char] is signed, so a byte matches [c] as a signed value. *)
Fixpoint memchr_loop (n : nat) (m : mem) (p c : Z) : option Z :=
  match n with
  | O => None
  | S n' =>
      let ch := if m p <? 128 then m p else m p - 256 in
      if ch =? c then Some p else memchr_loop n' m (p + 1) c
  end.

Definition runtime_memchr (m : mem) (a c len : Z) : option Z := memchr_loop (Z.to_nat len) m a c.

(** ** Reading and writing words *)

Definition is_mem (m : mem) : Prop := forall x, is_byte (m x).

(** Memory [m0] with the bytes [lo .. hi-1] of the region at [a] taken from the
    region at [b]. *)
Definition moved (m0 : mem) (a b lo hi : Z) : mem :=
  fun x => if (a + lo <=? x) && (x <? a + hi) then m0 (b + (x - a)) else m0 x.

Ltac mem_cases :=
  repeat match goal with
  | |- context [if ?c then _ else _] => let E := fresh "E" in destruct c eqn:E
  | H : context [if ?c then _ else _] |- _ => let E := fresh "E" in destruct c eqn:E
  end;
  repeat match goal with
  | H : _ && _ = true |- _ => apply andb_true_iff in H as [? ?]
  | H : _ && _ = false |- _ => apply andb_false_iff in H as [H|H]
  end; breflect; try lia.

Lemma load64_bytes m p : is_mem m -> Forall is_byte (map (fun i => m (p + Z.of_nat i)) (seq 0 8)).
Proof. intros Hm. apply Forall_map, Forall_true. intros i. apply Hm. Qed.

Lemma load64_byte m p j : is_mem m -> 0 <= j < 8 -> byte_of (load64 m p) j = m (p + j).
Proof.
  intros Hm Hj. unfold load64. replace j with (Z.of_nat (Z.to_nat j)) by lia.
  rewrite le_join_lookup; [|by apply load64_bytes|simpl; lia].
  rewrite (nth_indep _ 0 (m (p + Z.of_nat 0))) by (simpl; lia).
  rewrite (map_nth (fun i => m (p + Z.of_nat i))), seq_nth by lia. done.
Qed.

Lemma load64_range m p : is_mem m -> 0 <= load64 m p < 2 ^ 64.
Proof.
  intros Hm. pose proof (le_join_range _ (load64_bytes m p Hm)) as Hr.
  rewrite length_map, length_seq in Hr. exact Hr.
Qed.

Lemma load64_ext m m' p :
  (forall j, 0 <= j < 8 -> m (p + j) = m' (p + j)) -> load64 m p = load64 m' p.
Proof.
  intros E. unfold load64. f_equal. apply map_ext_in. intros i Hi.
  apply in_seq in Hi. apply E. lia.
Qed.

(** The bytes of a word put together from two neighbours. *)
Lemma byte_of_joined w1 w2 al j :
  0 <= w1 < 2 ^ 64 -> 0 <= w2 -> 0 < al < 8 -> 0 <= j < 8 ->
  byte_of (Z.lor (Z.shiftr w1 (8 * (8 - al))) (u64 (Z.shiftl w2 (8 * al)))) j =
  if j <? al then byte_of w1 (j + 8 - al) else byte_of w2 (j - al).
Proof.
  intros Hw1 Hw2 Hal Hj. apply Z.bits_inj'. intros i Hi.
  rewrite byte_of_testbit, Z.lor_spec, Z.shiftr_spec, u64_testbit, Z.shiftl_spec by lia.
  destruct (Z.ltb_spec j al); rewrite byte_of_testbit by lia.
  - destruct (Z.ltb_spec i 8); [|done]. simpl.
    rewrite (Z.testbit_neg_r w2) by lia. rewrite andb_false_r, orb_false_r. f_equal. lia.
  - destruct (Z.ltb_spec i 8); [|done]. simpl.
    rewrite (testbit_above w1) by lia. simpl.
    destruct (Z.ltb_spec (8 * j + i) 64); [|lia]. simpl. f_equal. lia.
Qed.

Lemma store64_eq m p w m' :
  (forall j, 0 <= j < 8 -> byte_of w j = m' (p + j)) ->
  forall x, store64 m p w x = if (p <=? x) && (x <? p + 8) then m' x else m x.
Proof.
  intros E x. unfold store64. mem_cases; try done.
  rewrite E by lia. f_equal. lia.
Qed.

(** ** Copies *)

Section Forward.
Variables (m0 : mem) (a b : Z).
Hypothesis Hm0 : is_mem m0.
Hypothesis Hab : a < b.

(** Source bytes ahead of the copied prefix are still the original ones. *)
Lemma moved_ahead c x : b + c <= x -> moved m0 a b 0 c x = m0 x.
Proof. intros Hx. unfold moved. by mem_cases. Qed.

Lemma moved_step8 m c w x :
  (forall y, m y = moved m0 a b 0 c y) -> 0 <= c ->
  (forall j, 0 <= j < 8 -> byte_of w j = m0 (b + c + j)) ->
  store64 m (a + c) w x = moved m0 a b 0 (c + 8) x.
Proof.
  intros Hm Hc Hw. unfold store64. rewrite Hm. unfold moved. mem_cases; try done.
  rewrite Hw by lia. f_equal. lia.
Qed.

Lemma memcpyf_loop_spec n i m c :
  (forall y, m y = moved m0 a b 0 (c + i) y) -> 0 <= c + i ->
  forall x, memcpyf_loop n i m (a + c) (b + c) x = moved m0 a b 0 (c + i + Z.of_nat n) x.
Proof.
  revert i m. induction n as [|n IH]; intros i m Hm Hc x; simpl.
  { rewrite Hm. f_equal. lia. }
  rewrite IH; [f_equal; lia| |lia]. intros y. unfold store8. rewrite !Hm.
  rewrite (moved_ahead (c + i)) by lia. unfold moved. mem_cases; try done. f_equal. lia.
Qed.

Lemma memcpyf_8_spec m c len :
  (forall y, m y = moved m0 a b 0 c y) -> 0 <= c -> 0 <= len ->
  forall x, memcpyf_8 m (a + c) (b + c) len x = moved m0 a b 0 (c + len) x.
Proof.
  intros Hm Hc Hl x. unfold memcpyf_8. rewrite (memcpyf_loop_spec _ 0 m c); [f_equal; lia| |lia].
  intros y. rewrite Hm. f_equal. lia.
Qed.

Lemma copyf_aligned_spec n m c :
  (forall y, m y = moved m0 a b 0 c y) -> 0 <= c ->
  let '(m', p) := copyf_aligned n m (a + c) (b + c) in
  p = a + (c + 8 * Z.of_nat n) /\ forall x, m' x = moved m0 a b 0 (c + 8 * Z.of_nat n) x.
Proof.
  revert m c. induction n as [|n IH]; intros m c Hm Hc; simpl.
  { split; [lia|]. intros x. rewrite Hm. f_equal. lia. }
  specialize (IH (store64 m (a + c) (load64 m (b + c))) (c + 8)).
  rewrite !(Z.add_assoc _ c 8) in IH.
  destruct (copyf_aligned n _ _ _) as [m' p]. destruct IH as [-> IH]; [|lia|].
  - intros y. apply moved_step8; [done|lia|]. intros j Hj.
    rewrite (load64_ext m m0) by (intros; rewrite Hm, moved_ahead by lia; done).
    by apply load64_byte.
  - split; [lia|]. intros x. rewrite IH. f_equal. lia.
Qed.

Lemma copyf_shifted_spec n m c w1 al :
  (forall y, m y = moved m0 a b 0 c y) -> 0 <= c -> 0 < al < 8 -> 0 <= w1 < 2 ^ 64 ->
  (forall j, 8 - al <= j < 8 -> byte_of w1 j = m0 (b + c + al - 8 + j)) ->
  let '(m', p) := copyf_shifted n m (a + c) (b + c + al) w1 al in
  p = a + (c + 8 * Z.of_nat n) /\ forall x, m' x = moved m0 a b 0 (c + 8 * Z.of_nat n) x.
Proof.
  revert m c w1. induction n as [|n IH]; intros m c w1 Hm Hc Hal Hr1 Hw1; cbn [copyf_shifted].
  { split; [lia|]. intros x. rewrite Hm. f_equal. lia. }
  assert (Ew : load64 m (b + c + al) = load64 m0 (b + c + al))
    by (apply load64_ext; intros; rewrite Hm, moved_ahead by lia; done).
  rewrite Ew. set (w := Z.lor _ _).
  specialize (IH (store64 m (a + c) w) (c + 8) (load64 m0 (b + c + al))).
  replace (a + (c + 8)) with (a + c + 8) in IH by lia.
  replace (b + (c + 8) + al) with (b + c + al + 8) in IH by lia.
  destruct (copyf_shifted n _ _ _ _ _) as [m' p].
  destruct IH as [-> IH]; [|lia|done|by apply load64_range| |].
  - intros y. apply moved_step8; [done|lia|]. intros j Hj. unfold w, sizeof_long.
    pose proof (load64_range m0 (b + c + al) Hm0). rewrite byte_of_joined by lia.
    destruct (Z.ltb_spec j al); [rewrite Hw1 by lia|rewrite load64_byte by (done || lia)];
      f_equal; lia.
  - intros j Hj. rewrite load64_byte by (done || lia). f_equal. lia.
  - split; [lia|]. intros x. rewrite IH. f_equal. lia.
Qed.
End Forward.

Section Backward.
Variables (m0 : mem) (a b len : Z).
Hypothesis Hm0 : is_mem m0.
Hypothesis Hab : b <= a.

Lemma moved_below lo x : x < b + lo -> moved m0 a b lo len x = m0 x.
Proof. intros Hx. unfold moved. by mem_cases. Qed.

Lemma moved_step8_down m lo w x :
  (forall y, m y = moved m0 a b lo len y) -> lo <= len ->
  (forall j, 0 <= j < 8 -> byte_of w j = m0 (b + lo - 8 + j)) ->
  store64 m (a + lo - 8) w x = moved m0 a b (lo - 8) len x.
Proof.
  intros Hm Hc Hw. unfold store64. rewrite Hm. unfold moved. mem_cases; try done.
  rewrite Hw by lia. f_equal. lia.
Qed.

Lemma memcpyb_loop_spec n m d :
  (forall y, m y = moved m0 a b (d + Z.of_nat n) len y) -> d + Z.of_nat n <= len ->
  forall x, memcpyb_loop n m (a + d) (b + d) x = moved m0 a b d len x.
Proof.
  revert m. induction n as [|n IH]; intros m Hm Hd x; cbn [memcpyb_loop].
  { rewrite Hm. f_equal. lia. }
  apply IH; [|lia]. intros y. unfold store8. rewrite !Hm.
  rewrite (moved_below (d + Z.of_nat (S n))) by lia. unfold moved. mem_cases; try done. f_equal. lia.
Qed.

Lemma copyb_aligned_spec n m lo :
  (forall y, m y = moved m0 a b lo len y) -> lo <= len ->
  forall x, copyb_aligned n m (a + lo - 8) (b + lo - 8) x = moved m0 a b (lo - 8 * Z.of_nat n) len x.
Proof.
  revert m lo. induction n as [|n IH]; intros m lo Hm Hc x; cbn [copyb_aligned].
  { rewrite Hm. f_equal. lia. }
  replace (a + lo - 8 - 8) with (a + (lo - 8) - 8) by lia.
  replace (b + lo - 8 - 8) with (b + (lo - 8) - 8) by lia.
  rewrite IH; [f_equal; lia| |lia].
  intros y. apply moved_step8_down; [done|lia|]. intros j Hj.
  rewrite (load64_ext m m0) by (intros; rewrite Hm, moved_below by lia; done).
  by apply load64_byte.
Qed.

Lemma copyb_shifted_spec n m lo w1 al :
  (forall y, m y = moved m0 a b lo len y) -> lo <= len -> 0 < al < 8 -> 0 <= w1 < 2 ^ 64 ->
  (forall j, 0 <= j < al -> byte_of w1 j = m0 (b + lo - al + j)) ->
  forall x, copyb_shifted n m (a + lo - 8) (b + lo - al - 8) w1 al x =
    moved m0 a b (lo - 8 * Z.of_nat n) len x.
Proof.
  revert m lo w1. induction n as [|n IH]; intros m lo w1 Hm Hc Hal Hr1 Hw1 x; cbn [copyb_shifted].
  { rewrite Hm. f_equal. lia. }
  assert (Ew : load64 m (b + lo - al - 8) = load64 m0 (b + lo - al - 8))
    by (apply load64_ext; intros; rewrite Hm, moved_below by lia; done).
  rewrite Ew. pose proof (load64_range m0 (b + lo - al - 8) Hm0).
  replace (a + lo - 8 - 8) with (a + (lo - 8) - 8) by lia.
  replace (b + lo - al - 8 - 8) with (b + (lo - 8) - al - 8) by lia.
  rewrite IH; [f_equal; lia| |lia|done|by apply load64_range|].
  - intros y. apply moved_step8_down; [done|lia|]. intros j Hj. unfold sizeof_long.
    pose proof (byte_of_joined (load64 m0 (b + lo - al - 8)) w1 (8 - al) j) as Hb.
    replace (8 - (8 - al)) with al in Hb by lia. rewrite Z.lor_comm, Hb by lia.
    destruct (Z.ltb_spec j (8 - al)); [rewrite load64_byte by (done || lia)|rewrite Hw1 by lia];
      f_equal; lia.
  - intros j Hj. rewrite load64_byte by (done || lia). f_equal. lia.
Qed.
End Backward.

(** ** Whole operations *)

Lemma land_7 x : Z.land x (sizeof_long - 1) = x mod 8.
Proof. change (sizeof_long - 1) with (Z.ones 3). rewrite Z.land_ones by lia. done. Qed.

Lemma align_cnt_spec p : align_cnt p = (- p) mod 8.
Proof.
  unfold align_cnt. rewrite land_7. unfold sizeof_long.
  pose proof (Z.mod_pos_bound p 8). pose proof (Z.mod_pos_bound (- p) 8).
  pose proof (Z.div_mod p 8). pose proof (Z.div_mod (- p) 8). case_test; lia.
Qed.

Lemma moved_empty m a b x : moved m a b 0 0 x = m x.
Proof. unfold moved. by mem_cases. Qed.

Lemma memcpy_forward m a b len x :
  is_mem m -> a < b -> 0 <= len -> runtime_memcpy m a b len x = moved m a b 0 len x.
Proof.
  intros Hm Hab Hlen. unfold runtime_memcpy. destruct (Z.ltb_spec a b); [|lia].
  destruct (Z.ltb_spec len sizeof_long) as [Hs|Hs].
  { pose proof (memcpyf_8_spec m a b Hab m 0 len) as E. rewrite !Z.add_0_r, Z.add_0_l in E.
    apply E; [|lia..]. intros y. by rewrite moved_empty. }
  rewrite !align_cnt_spec, !land_7. unfold sizeof_long in *.
  set (sc := (- b) mod 8). set (c := (- a) mod 8).
  assert (Hsc : 0 <= sc < 8) by (apply Z.mod_pos_bound; lia).
  assert (Hc : 0 <= c < 8) by (apply Z.mod_pos_bound; lia).
  set (m1 := if c =? 0 then m else memcpyf_8 m a b c).
  assert (Hm1 : forall y, m1 y = moved m a b 0 c y).
  { intros y. unfold m1. destruct (Z.eqb_spec c 0) as [->|]; [by rewrite moved_empty|].
    pose proof (memcpyf_8_spec m a b Hab m 0 c) as E. rewrite !Z.add_0_r, Z.add_0_l in E.
    apply E; [|lia..]. intros z. by rewrite moved_empty. }
  set (n := Z.to_nat ((len - c) / 8)). set (e := (len - c) mod 8).
  assert (Hn : c + 8 * Z.of_nat n = len - e /\ 0 <= e < 8).
  { unfold n, e. pose proof (Z.mod_pos_bound (len - c) 8). pose proof (Z.div_mod (len - c) 8).
    assert (0 <= (len - c) / 8) by (apply Z.div_pos; lia). lia. }
  assert (Htail : forall m2 p, p = a + (c + 8 * Z.of_nat n) ->
    (forall y, m2 y = moved m a b 0 (c + 8 * Z.of_nat n) y) ->
    memcpyf_8 m2 p (b + len - e) e x = moved m a b 0 len x).
  { intros m2 p -> Hm2. replace (b + len - e) with (b + (c + 8 * Z.of_nat n)) by lia.
    rewrite (memcpyf_8_spec m a b) by (done || lia). f_equal. lia. }
  destruct (Z.eqb_spec sc c) as [Esc|Esc].
  - destruct (Z.ltb_spec c sc); [lia|]. rewrite Esc.
    pose proof (copyf_aligned_spec m a b Hm Hab n m1 c Hm1) as E.
    destruct (copyf_aligned n m1 (a + c) (b + c)) as [m2 p]. destruct E as [Ep E2]; [lia|]. by apply Htail.
  - set (al := (sc - c) mod 8).
    assert (Hal : 0 < al < 8 /\ (if c <? sc then b + sc - 8 else b + sc) = b + c + al - 8).
    { unfold al. pose proof (Z.div_mod (sc - c) 8). pose proof (Z.mod_pos_bound (sc - c) 8).
      case_test; lia. }
    destruct Hal as [Hal ->]. replace (b + c + al - 8 + 8) with (b + c + al) by lia.
    pose proof (copyf_shifted_spec m a b Hm Hab n m1 c (load64 m1 (b + c + al - 8)) al Hm1) as E.
    destruct (copyf_shifted n m1 _ _ _ _) as [m2 p].
    assert (Hmem1 : is_mem m1) by (intros y; rewrite Hm1; unfold moved; case_match; apply Hm).
    destruct E as [Ep E2]; [lia|done|by apply load64_range| |by apply Htail].
    intros j Hj. rewrite load64_byte by (done || lia). rewrite Hm1. apply moved_ahead; lia.
Qed.

Lemma memcpy_backward m a b len x :
  is_mem m -> b <= a -> 0 <= len -> runtime_memcpy m a b len x = moved m a b 0 len x.
Proof.
  intros Hm Hab Hlen. unfold runtime_memcpy. destruct (Z.ltb_spec a b); [lia|].
  assert (Hall : forall m2 d e, 0 <= d -> 0 <= e -> d + e <= len ->
    (forall y, m2 y = moved m a b (d + e) len y) ->
    forall y, memcpyb_8 m2 (a + d) (b + d) e y = moved m a b d len y).
  { intros m2 d e Hd He Hle Hm2 y. unfold memcpyb_8. apply memcpyb_loop_spec; [done| |lia].
    intros z. rewrite Hm2. f_equal. lia. }
  assert (Hnone : forall y, m y = moved m a b len len y) by (intros y; unfold moved; by mem_cases).
  destruct (Z.ltb_spec len sizeof_long) as [Hs|Hs].
  { specialize (Hall m 0 len). rewrite !Z.add_0_r in Hall. apply Hall; done || lia. }
  rewrite !land_7. unfold sizeof_long in *.
  set (sc := (b + len) mod 8). set (c := (a + len) mod 8).
  assert (Hsc : 0 <= sc < 8) by (apply Z.mod_pos_bound; lia).
  assert (Hc : 0 <= c < 8) by (apply Z.mod_pos_bound; lia).
  set (m1 := memcpyb_8 m (a + len - c) (b + len - c) c).
  assert (Hm1 : forall y, m1 y = moved m a b (len - c) len y).
  { unfold m1. replace (a + len - c) with (a + (len - c)) by lia.
    replace (b + len - c) with (b + (len - c)) by lia. apply Hall; try lia.
    intros y. rewrite Hnone at 1. f_equal. lia. }
  set (n := Z.to_nat ((len - c) / 8)). set (e := (len - c) mod 8).
  assert (Hn : len - c - 8 * Z.of_nat n = e /\ 0 <= e < 8).
  { unfold n, e. pose proof (Z.mod_pos_bound (len - c) 8). pose proof (Z.div_mod (len - c) 8).
    assert (0 <= (len - c) / 8) by (apply Z.div_pos; lia). lia. }
  assert (Htail : forall m2, (forall y, m2 y = moved m a b (len - c - 8 * Z.of_nat n) len y) ->
    memcpyb_8 m2 a b e x = moved m a b 0 len x).
  { intros m2 Hm2. specialize (Hall m2 0 e). rewrite !Z.add_0_r in Hall. apply Hall; try lia.
    intros y. rewrite Hm2. f_equal. lia. }
  apply Htail. intros y. replace (a + len - c - 8) with (a + (len - c) - 8) by lia.
  destruct (Z.eqb_spec sc c) as [Esc|Esc].
  - destruct (Z.leb_spec sc c); [|lia]. rewrite Esc.
    replace (b + len - c - 8) with (b + (len - c) - 8) by lia.
    apply copyb_aligned_spec; [done..|lia].
  - set (al := (sc - c) mod 8).
    assert (Hal : 0 < al < 8 /\
      (if sc <=? c then b + len - sc - 8 else b + len - sc) = b + (len - c) - al).
    { unfold al. pose proof (Z.div_mod (sc - c) 8). pose proof (Z.mod_pos_bound (sc - c) 8).
      case_test; lia. }
    destruct Hal as [Hal ->].
    assert (Hmem1 : is_mem m1) by (intros z; rewrite Hm1; unfold moved; case_match; apply Hm).
    apply copyb_shifted_spec; [done|done|done|lia|done|by apply load64_range|].
    intros j Hj. rewrite load64_byte by (done || lia). rewrite Hm1. apply moved_below; lia.
Qed.

(** Memory [m0] with [len] bytes at [a] set to [b]. *)
Definition filled (m0 : mem) (a b len : Z) : mem :=
  fun x => if (a <=? x) && (x <? a + len) then b else m0 x.

Lemma fill_step w b : 0 <= w < 2 ^ 56 -> is_byte b -> Z.lor (u64 (Z.shiftl w 8)) b = b + 256 * w.
Proof.
  unfold is_byte. intros Hw Hb.
  rewrite Z.shiftl_mul_pow2, u64_small by lia.
  assert (Hd : Z.land b (w * 2 ^ 8) = 0).
  { apply Z.bits_inj'. intros i Hi. rewrite Z.land_spec, Z.bits_0.
    destruct (Z.lt_ge_cases i 8).
    - by rewrite Z.mul_pow2_bits_low, andb_false_r by lia.
    - destruct (Z.eq_dec b 0) as [->|]; [by rewrite Z.bits_0|].
      rewrite (Z.bits_above_log2 b); [done|lia|].
      apply Z.log2_lt_pow2; [lia|]. apply Z.lt_le_trans with (2 ^ 8); [lia|].
      apply Z.pow_le_mono_r; lia. }
  rewrite Z.lor_comm, <- Z.lxor_lor, <- Z.add_nocarry_lxor by exact Hd. lia.
Qed.

Lemma fill_word_spec n k b :
  is_byte b -> (n + k <= 8)%nat ->
  fill_word n (le_join (replicate k b)) b = le_join (replicate (n + k) b).
Proof.
  intros Hb. revert k. induction n as [|n IH]; intros k Hk; simpl; [done|].
  pose proof (le_join_range (replicate k b)) as Hr. rewrite length_replicate in Hr.
  rewrite fill_step; [|split|done].
  - specialize (IH (S k) ltac:(lia)). rewrite Nat.add_succ_r in IH. exact IH.
  - apply Hr. by apply Forall_replicate.
  - eapply Z.lt_le_trans; [apply Hr; by apply Forall_replicate|].
    change (2 ^ 56) with (256 ^ 7). apply Z.pow_le_mono_r; lia.
Qed.

Lemma fill_word_byte b j : is_byte b -> 0 <= j < 8 -> byte_of (fill_word 8 0 b) j = b.
Proof.
  intros Hb Hj. change 0 with (le_join (replicate 0 b)). rewrite fill_word_spec by (done || lia).
  replace j with (Z.of_nat (Z.to_nat j)) by lia.
  rewrite le_join_lookup; [|by apply Forall_replicate|rewrite length_replicate; lia].
  assert (Hk : (Z.to_nat j < 8)%nat) by lia. revert Hk. generalize (Z.to_nat j). intros k Hk.
  do 8 (destruct k as [|k]; [done|]). lia.
Qed.

Section Fill.
Variables (m0 : mem) (a b : Z).

Lemma memset_8_spec m c len :
  (forall y, m y = filled m0 a b c y) -> 0 <= c -> 0 <= len ->
  forall x, memset_8 m (a + c) b len x = filled m0 a b (c + len) x.
Proof.
  intros Hm Hc Hlen. unfold memset_8.
  assert (Hloop : forall n i m, (forall y, m y = filled m0 a b (c + i) y) -> 0 <= i ->
    forall x, memset_loop n i m (a + c) b x = filled m0 a b (c + i + Z.of_nat n) x).
  { clear m Hm. induction n as [|n IH]; intros i m Hm Hi x; cbn [memset_loop].
    { rewrite Hm. f_equal. lia. }
    rewrite IH; [f_equal; lia| |lia]. intros y. unfold store8. rewrite Hm. unfold filled. by mem_cases. }
  intros x. rewrite Hloop; [f_equal; lia| |lia]. intros y. rewrite Hm. f_equal. lia.
Qed.

Lemma memset_words_spec n m c :
  is_byte b -> (forall y, m y = filled m0 a b c y) -> 0 <= c ->
  let '(m', p) := memset_words n m (a + c) (fill_word 8 0 b) in
  p = a + (c + 8 * Z.of_nat n) /\ forall x, m' x = filled m0 a b (c + 8 * Z.of_nat n) x.
Proof.
  intros Hb. revert m c. induction n as [|n IH]; intros m c Hm Hc; cbn [memset_words].
  { split; [lia|]. intros x. rewrite Hm. f_equal. lia. }
  specialize (IH (store64 m (a + c) (fill_word 8 0 b)) (c + 8)).
  replace (a + (c + 8)) with (a + c + 8) in IH by lia.
  destruct (memset_words n _ _ _) as [m' p]. destruct IH as [-> IH]; [|lia|].
  - intros y. unfold store64. rewrite Hm. unfold filled. mem_cases; try done.
    apply fill_word_byte; [done|lia].
  - split; [lia|]. intros x. rewrite IH. f_equal. lia.
Qed.
End Fill.

Lemma filled_empty m a b x : filled m a b 0 x = m x.
Proof. unfold filled. by mem_cases. Qed.

Lemma memset_spec m a b len x :
  is_byte b -> 0 <= len -> runtime_memset m a b len x = filled m a b len x.
Proof.
  intros Hb Hlen. unfold runtime_memset.
  assert (Hbytes : forall c y, 0 <= c -> memset_8 m a b c y = filled m a b c y).
  { intros c y Hc. pose proof (memset_8_spec m a b m 0 c) as E. rewrite Z.add_0_r, Z.add_0_l in E.
    apply E; [|lia..]. intros z. by rewrite filled_empty. }
  destruct (Z.ltb_spec len sizeof_long) as [Hs|Hs]; [by apply Hbytes|].
  rewrite align_cnt_spec, land_7. unfold sizeof_long in *. set (c := (- a) mod 8).
  assert (Hc : 0 <= c < 8) by (apply Z.mod_pos_bound; lia).
  set (m1 := if c =? 0 then m else memset_8 m a b c).
  assert (Hm1 : forall y, m1 y = filled m a b c y).
  { intros y. unfold m1. destruct (Z.eqb_spec c 0) as [->|]; [by rewrite filled_empty|].
    apply Hbytes. lia. }
  set (n := Z.to_nat ((len - c) / 8)). set (e := (len - c) mod 8).
  assert (Hn : c + 8 * Z.of_nat n = len - e /\ 0 <= e < 8).
  { unfold n, e. pose proof (Z.mod_pos_bound (len - c) 8). pose proof (Z.div_mod (len - c) 8).
    assert (0 <= (len - c) / 8) by (apply Z.div_pos; lia). lia. }
  pose proof (memset_words_spec m a b n m1 c Hb Hm1) as E.
  destruct (memset_words n m1 _ _) as [m2 p]. destruct E as [-> E]; [lia|].
  rewrite (memset_8_spec m a b) by (done || lia). f_equal. lia.
Qed.

(** Equality of two regions. *)
Definition same_bytes (m : mem) (a b len : Z) : Prop :=
  forall i, 0 <= i < len -> m (a + i) = m (b + i).

Lemma memcmp_8_spec m a b len : 0 <= len -> memcmp_8 m a b len = 0 <-> same_bytes m a b len.
Proof.
  intros Hlen. unfold memcmp_8, same_bytes.
  assert (Hloop : forall n i, memcmp_loop n i m a b = 0 <->
    forall j, i <= j < i + Z.of_nat n -> m (a + j) = m (b + j)).
  { induction n as [|n IH]; intros i; cbn [memcmp_loop]; [split; [lia|done]|].
    destruct (Z.eqb_spec (m (a + i) - m (b + i)) 0) as [E|E]; simpl.
    - rewrite IH. split; intros Hj j Hr; [|apply Hj; lia].
      destruct (Z.eq_dec j i) as [->|]; [lia|apply Hj; lia].
    - split; [lia|]. intros Hj. specialize (Hj i ltac:(lia)). lia. }
  rewrite Hloop. split; intros Hj i Hi; apply Hj; lia.
Qed.

Lemma byte_of_inj w w' : 0 <= w < 2 ^ 64 -> 0 <= w' < 2 ^ 64 ->
  (forall j, 0 <= j < 8 -> byte_of w j = byte_of w' j) -> w = w'.
Proof.
  intros Hw Hw' E. apply Z.bits_inj'. intros i Hi.
  destruct (Z.lt_ge_cases i 64); [|by rewrite !testbit_above by lia].
  specialize (E (i / 8)). pose proof (Z.div_mod i 8). pose proof (Z.mod_pos_bound i 8).
  assert (Hb : Z.testbit (byte_of w (i / 8)) (i mod 8) = Z.testbit (byte_of w' (i / 8)) (i mod 8))
    by (rewrite E by lia; done).
  rewrite !byte_of_testbit in Hb by lia. destruct (Z.ltb_spec (i mod 8) 8); [|lia].
  simpl in Hb. replace (8 * (i / 8) + i mod 8) with i in Hb by lia. done.
Qed.

Lemma same_word m w b c a :
  is_mem m -> 0 <= w < 2 ^ 64 -> (forall j, 0 <= j < 8 -> byte_of w j = m (a + c + j)) ->
  u64 (w - load64 m (b + c)) = 0 <-> forall j, 0 <= j < 8 -> m (a + c + j) = m (b + c + j).
Proof.
  intros Hm Hw Hb. pose proof (load64_range m (b + c) Hm) as Hl. split.
  - intros E j Hj. unfold u64 in E. apply Z.mod_divide in E as [k E]; [|lia].
    assert (w = load64 m (b + c)) by nia. rewrite <- Hb by lia. subst w. by apply load64_byte.
  - intros E. replace w with (load64 m (b + c)); [by rewrite Z.sub_diag|].
    apply byte_of_inj; [done..|]. intros j Hj. rewrite Hb, E by lia. by rewrite load64_byte.
Qed.

Section Compare.
Variables (m : mem) (a b : Z).
Hypothesis Hm : is_mem m.

Definition same_between (lo hi : Z) : Prop := forall i, lo <= i < hi -> m (a + i) = m (b + i).

(** What a word loop that starts at offset [c] and has [n] words to go reports. *)
Definition cmp_verdict (c : Z) (n : nat) (o : option Z) : Prop :=
  match o with
  | Some p => p = b + (c + 8 * Z.of_nat n) /\ same_between c (c + 8 * Z.of_nat n)
  | None => ~ same_between c (c + 8 * Z.of_nat n)
  end.

Lemma cmp_verdict_step c n o :
  (forall j, 0 <= j < 8 -> m (a + c + j) = m (b + c + j)) ->
  cmp_verdict (c + 8) n o -> cmp_verdict c (S n) o.
Proof.
  unfold cmp_verdict, same_between. intros E.
  replace (c + 8 + 8 * Z.of_nat n) with (c + 8 * Z.of_nat (S n)) by lia. destruct o as [p|].
  - intros [-> Hs]. split; [done|]. intros i Hi. destruct (Z.lt_ge_cases i (c + 8)); [|apply Hs; lia].
    specialize (E (i - c) ltac:(lia)). by replace (a + c + (i - c)) with (a + i) in E by lia;
      replace (b + c + (i - c)) with (b + i) in E by lia.
  - intros Hn Hs. apply Hn. intros i Hi. apply Hs. lia.
Qed.

Lemma cmp_verdict_differ c n :
  ~ (forall j, 0 <= j < 8 -> m (a + c + j) = m (b + c + j)) -> cmp_verdict c (S n) None.
Proof.
  intros Hd Hs. apply Hd. intros j Hj. specialize (Hs (c + j) ltac:(lia)). by rewrite !Z.add_assoc in Hs.
Qed.

Lemma cmp_verdict_done c : cmp_verdict c 0 (Some (b + c)).
Proof. split; [lia|]. intros i Hi. lia. Qed.

Lemma cmp_aligned_spec n c : cmp_verdict c n (cmp_aligned n m (a + c) (b + c)).
Proof.
  revert c. induction n as [|n IH]; intros c; cbn [cmp_aligned]; [apply cmp_verdict_done|].
  pose proof (same_word m (load64 m (a + c)) b c a Hm (load64_range m (a + c) Hm)) as Hw.
  destruct Hw as [Hw1 Hw2]; [by intros; apply load64_byte|].
  destruct (Z.eqb_spec (u64 (load64 m (a + c) - load64 m (b + c))) 0) as [E|E]; simpl.
  - apply cmp_verdict_step; [by apply Hw1|].
    replace (a + c + 8) with (a + (c + 8)) by lia. replace (b + c + 8) with (b + (c + 8)) by lia. apply IH.
  - apply cmp_verdict_differ. intros Hs. by apply E, Hw2.
Qed.

Lemma cmp_shifted_spec n c al :
  0 < al < 8 ->
  cmp_verdict c n (cmp_shifted n m (a + c + al) (b + c) (load64 m (a + c + al - 8)) al).
Proof.
  intros Hal. revert c. induction n as [|n IH]; intros c; cbn [cmp_shifted]; [apply cmp_verdict_done|].
  pose proof (load64_range m (a + c + al) Hm) as H1. pose proof (load64_range m (a + c + al - 8) Hm) as H2.
  set (w := Z.lor _ _).
  assert (Hw : forall j, 0 <= j < 8 -> byte_of w j = m (a + c + j)).
  { intros j Hj. unfold w, sizeof_long. rewrite byte_of_joined by lia.
    destruct (Z.ltb_spec j al); rewrite load64_byte by (done || lia); f_equal; lia. }
  assert (Hwr : 0 <= w < 2 ^ 64).
  { apply lor_range; [|apply u64_range]. rewrite Z.shiftr_div_pow2 by (unfold sizeof_long; lia).
    split; [apply Z.div_pos; [lia|apply Z.pow_pos_nonneg; unfold sizeof_long; lia]|].
    apply Z.div_lt_upper_bound; [apply Z.pow_pos_nonneg; unfold sizeof_long; lia|].
    assert (1 <= 2 ^ (8 * (sizeof_long - al))) by (apply (Z.pow_le_mono_r 2 0); unfold sizeof_long; lia).
    nia. }
  destruct (same_word m w b c a Hm Hwr Hw) as [Hw1 Hw2].
  destruct (Z.eqb_spec (u64 (w - load64 m (b + c))) 0) as [E|E]; simpl.
  - apply cmp_verdict_step; [by apply Hw1|].
    replace (a + c + al + 8) with (a + (c + 8) + al) by lia. replace (b + c + 8) with (b + (c + 8)) by lia.
    replace (a + c + al) with (a + (c + 8) + al - 8) by lia. apply IH.
  - apply cmp_verdict_differ. intros Hs. by apply E, Hw2.
Qed.
End Compare.

Lemma memcmp_spec m a b len :
  is_mem m -> 0 <= len -> runtime_memcmp m a b len = 0 <-> same_bytes m a b len.
Proof.
  intros Hm Hlen. unfold runtime_memcmp.
  destruct (Z.ltb_spec len sizeof_long) as [Hs|Hs]; [by apply memcmp_8_spec|].
  rewrite !align_cnt_spec, !land_7. unfold sizeof_long in *.
  set (ac := (- a) mod 8). set (c := (- b) mod 8).
  assert (Hac : 0 <= ac < 8) by (apply Z.mod_pos_bound; lia).
  assert (Hc : 0 <= c < 8) by (apply Z.mod_pos_bound; lia).
  assert (Hhead : (if c =? 0 then 0 else memcmp_8 m a b c) = 0 <-> same_bytes m a b c).
  { destruct (Z.eqb_spec c 0) as [->|]; [|apply memcmp_8_spec; lia].
    split; [|done]. intros _ i Hi. lia. }
  set (res := if c =? 0 then 0 else memcmp_8 m a b c) in *.
  destruct (Z.eqb_spec res 0) as [E|E]; simpl.
  2: { split; [done|]. intros Hsame. apply Hhead. intros i Hi. apply Hsame. lia. }
  rewrite Hhead in E. clear Hhead res.
  set (n := Z.to_nat ((len - c) / 8)). set (e := (len - c) mod 8).
  assert (Hn : c + 8 * Z.of_nat n = len - e /\ 0 <= e < 8).
  { unfold n, e. pose proof (Z.mod_pos_bound (len - c) 8). pose proof (Z.div_mod (len - c) 8).
    assert (0 <= (len - c) / 8) by (apply Z.div_pos; lia). lia. }
  assert (Htail : forall o, cmp_verdict m a b c n o ->
    match o with None => 1 | Some p => memcmp_8 m (a + len - e) p e end = 0 <-> same_bytes m a b len).
  { intros [p|] Hv; [|split; [lia|]; intros Hsame; exfalso; apply Hv; intros i Hi; apply Hsame; lia].
    destruct Hv as [-> Hv]. rewrite memcmp_8_spec by lia. destruct Hn as [Hn He]. rewrite Hn.
    replace (b + (len - e)) with (b + len - e) by lia. split; intros Hsame i Hi.
    - destruct (Z.lt_ge_cases i c); [apply E; lia|]. destruct (Z.lt_ge_cases i (len - e)); [apply Hv; lia|].
      specialize (Hsame (i - (len - e)) ltac:(lia)).
      by replace (a + len - e + (i - (len - e))) with (a + i) in Hsame by lia;
        replace (b + len - e + (i - (len - e))) with (b + i) in Hsame by lia.
    - specialize (Hsame (len - e + i) ltac:(lia)).
      by replace (a + (len - e + i)) with (a + len - e + i) in Hsame by lia;
        replace (b + (len - e + i)) with (b + len - e + i) in Hsame by lia. }
  apply Htail. destruct (Z.eqb_spec ac c) as [Eac|Eac].
  - destruct (Z.ltb_spec c ac); [lia|]. rewrite Eac. by apply cmp_aligned_spec.
  - set (al := (ac - c) mod 8).
    assert (Hal : 0 < al < 8 /\ (if c <? ac then a + ac - 8 else a + ac) = a + c + al - 8).
    { unfold al. pose proof (Z.div_mod (ac - c) 8). pose proof (Z.mod_pos_bound (ac - c) 8).
      case_test; lia. }
    destruct Hal as [Hal ->]. replace (a + c + al - 8 + 8) with (a + c + al) by lia.
    by apply cmp_shifted_spec.
Qed.

(** ** Properties *)

(** A small memory, for evaluation. *)
Definition sample_mem : mem := fun x => x mod 256.

Lemma sample_mem_bytes : is_mem sample_mem.
Proof. intros x. apply Z.mod_pos_bound. lia. Qed.

(** C35: [runtime_memcpy] moves the [len] bytes at [b] to [a], for every
    alignment of the two and also when the regions overlap, and changes no other
    byte. *)
Theorem runtime_memcpy_moves m a b len :
  is_mem m -> 0 <= len ->
  forall x, runtime_memcpy m a b len x =
    if (a <=? x) && (x <? a + len) then m (b + (x - a)) else m x.
Proof.
  intros Hm Hlen x.
  transitivity (moved m a b 0 len x).
  - destruct (Z.lt_ge_cases a b); [by apply memcpy_forward|by apply memcpy_backward].
  - unfold moved. by rewrite Z.add_0_r.
Qed.

Lemma runtime_memcpy_moves_witness : runtime_memcpy sample_mem 103 96 29 110 = sample_mem 103.
Proof. apply (runtime_memcpy_moves sample_mem 103 96 29 sample_mem_bytes ltac:(lia) 110). Defined.

(** [runtime_memset] sets exactly the bytes of the region, and
    [runtime_memcmp] returns zero exactly when the two regions hold the same
    bytes, for every alignment. *)
Theorem runtime_memset_memcmp m a b c len :
  is_mem m -> 0 <= c < 256 -> 0 <= len ->
  (forall x, runtime_memset m a c len x = if (a <=? x) && (x <? a + len) then c else m x) /\
  (runtime_memcmp m a b len = 0 <-> forall i, 0 <= i < len -> m (a + i) = m (b + i)).
Proof. intros Hm Hc Hlen. split; [intros x; exact (memset_spec m a c len x Hc Hlen)|exact (memcmp_spec m a b len Hm Hlen)]. Qed.
