(* ===== verification/Buffer.v ===== *)
(** Buffers: [kernel/src/runtime/buffer.h] and [buffer.c].

    A buffer is a window [start, end) of a byte array of [length] bytes.  Sizes
    are 64-bit unsigned integers and wrap.  [None] is a failed assertion or an
    access outside the array; the boolean results are the code's own. *)

From S2P Require Import Prelude Words Heap.

Record buffer := {
  b_start : Z;
  b_end : Z;
  b_length : Z;
  b_wrapped : bool;
  b_contents : list Z;
}.

Definition set_window (b : buffer) (s e : Z) : buffer :=
  {| b_start := s; b_end := e; b_length := b_length b; b_wrapped := b_wrapped b;
     b_contents := b_contents b |}.

Definition set_contents (b : buffer) (c : list Z) : buffer :=
  {| b_start := b_start b; b_end := b_end b; b_length := b_length b; b_wrapped := b_wrapped b;
     b_contents := c |}.

(** ** The code *)

Section Code.
Context {h : Heap}.

Definition init_buffer (s : Z) (wrapped : bool) (contents : list Z) : buffer :=
  {| b_start := 0; b_end := 0; b_length := s; b_wrapped := wrapped; b_contents := contents |}.

(** [allocate_buffer]; the structure itself is allocated first. *)
Definition allocate_buffer (sizeof_buffer s : Z) : option buffer :=
  _ ← allocate sizeof_buffer;
  c ← (if negb (s =? 0) then allocate s else Some []);
  Some (init_buffer s false c).

Definition buffer_length (b : buffer) : Z := u64 (b_end b - b_start b).

(** The offset in the array of a reference into the window. *)
Definition buffer_ref (b : buffer) (offset : Z) : option Z :=
  _ ← kassert (u64 (b_start b + offset) <=? b_length b);
  Some (u64 (b_start b + offset)).

(** The unchecked accessor macro [byte]. *)
Definition byte (b : buffer) (i : Z) : option Z :=
  l ← read_bytes (b_contents b) (u64 (b_start b + i)) 1; head l.

Definition peek_char (b : buffer) : option Z :=
  off ← buffer_ref b 0; l ← read_bytes (b_contents b) off 1; head l.

Definition buffer_clear (b : buffer) : buffer := set_window b 0 0.

Definition buffer_consume (b : buffer) (s : Z) : option buffer :=
  _ ← kassert (u64 (b_start b + s) <=? b_end b);
  _ ← kassert (b_end b <=? b_length b);
  Some (set_window b (u64 (b_start b + s)) (b_end b)).

Definition buffer_produce (b : buffer) (s : Z) : option buffer :=
  _ ← kassert (b_start b <=? b_end b);
  _ ← kassert (u64 (b_end b + s) <=? b_length b);
  Some (set_window b (b_start b) (u64 (b_end b + s))).

Definition buffer_space (b : buffer) : Z := u64 (b_length b - b_end b).

Definition buffer_is_wrapped (b : buffer) : bool := b_wrapped b.

(** The second component is the returned capacity. *)
Definition buffer_set_capacity (b : buffer) (len : Z) : option (buffer * Z) :=
  let old_len := b_length b in
  if buffer_is_wrapped b then Some (b, old_len)
  else
    let content_len := u64 (b_end b - b_start b) in
    let len := if len <? content_len then content_len else len in
    if negb (len =? old_len) then
      match allocate len with
      | None => Some (b, old_len)
      | Some new =>
          new ← (if negb (old_len =? 0) then
                   src ← read_bytes (b_contents b) (b_start b) content_len;
                   write_bytes new 0 src
                 else Some new);
          Some ({| b_start := 0; b_end := content_len; b_length := len; b_wrapped := b_wrapped b;
                   b_contents := new |}, len)
      end
    else Some (b, len).

Definition buffer_extend (b : buffer) (len : Z) : option (buffer * bool) :=
  if b_length b <? u64 (b_end b + len) then
    let new_len := u64 (2 * (b_end b - b_start b + len)) in
    if b_length b <? new_len then
      '(b, cap) ← buffer_set_capacity b new_len;
      Some (b, cap =? new_len)
    else
      src ← read_bytes (b_contents b) (b_start b) (u64 (b_end b - b_start b));
      c ← write_bytes (b_contents b) 0 src;
      Some (set_window (set_contents b c) 0 (u64 (b_end b - b_start b)), true)
  else Some (b, true).

(** [offset] is an [int], compared and subtracted as an unsigned 64-bit value. *)
Definition extend_total (b : buffer) (offset : Z) : option (buffer * bool) :=
  let offset := u64 (s32 offset) in
  if b_end b <? offset then
    '(b, ok) ← buffer_extend b (u64 (offset - b_end b));
    if negb ok then Some (b, false)
    else
      c ← write_bytes (b_contents b) (b_end b) (replicate (Z.to_nat (u64 (offset - b_end b))) 0);
      Some (set_window (set_contents b c) (b_start b) offset, true)
  else Some (b, true).

Definition wrap_buffer (body : list Z) (length : Z) : buffer :=
  {| b_start := 0; b_end := length; b_length := length; b_wrapped := true; b_contents := body |}.

Definition buffer_write (b : buffer) (source : list Z) : option (buffer * bool) :=
  let length := Z.of_nat (length source) in
  '(b, ok) ← buffer_extend b length;
  if negb ok then Some (b, false)
  else
    off ← buffer_ref b (buffer_length b);
    c ← write_bytes (b_contents b) off source;
    b ← buffer_produce (set_contents b c) length;
    Some (b, true).

Definition buffer_append (b : buffer) (body : list Z) : option (buffer * bool) :=
  '(b, ok) ← buffer_extend b (Z.of_nat (length body));
  if negb ok then Some (b, false) else buffer_write b body.

(** The last component is what lands at [dest]. *)
Definition buffer_read (b : buffer) (length : Z) : option (buffer * bool * list Z) :=
  if buffer_length b <? length then Some (b, false, [])
  else
    off ← buffer_ref b 0;
    dest ← read_bytes (b_contents b) off length;
    b ← buffer_consume b length;
    Some (b, true, dest).

Definition buffer_read_at (b : buffer) (offset length : Z) : option (Z * list Z) :=
  let available := buffer_length b in
  if available <=? offset then Some (0, [])
  else
    let length := Z.min length (u64 (available - offset)) in
    off ← buffer_ref b offset;
    dest ← read_bytes (b_contents b) off length;
    Some (length, dest).

(** The bytes of the window. *)
Definition window (b : buffer) : option (list Z) :=
  off ← buffer_ref b 0; read_bytes (b_contents b) off (buffer_length b).

Definition push_buffer (d s : buffer) : option (buffer * bool) :=
  src ← window s; buffer_write d src.

Definition clone_buffer (sizeof_buffer : Z) (b : buffer) : option (option buffer) :=
  match allocate_buffer sizeof_buffer (buffer_length b) with
  | None => Some None
  | Some new => '(new, ok) ← push_buffer new b; _ ← kassert ok; Some (Some new)
  end.

Definition buffer_pop (b : buffer) (len : Z) : option (buffer * option Z) :=
  if buffer_length b <? len then Some (b, None)
  else
    ptr ← buffer_ref b 0;
    b ← buffer_consume b len;
    Some (b, Some ptr).

(** [BUF_WRITE_ENDIAN] and [BUF_READ_ENDIAN] at [n] bytes. *)
Definition endian (big : bool) (l : list Z) : list Z := if big then rev l else l.

Definition buffer_write_endian (big : bool) (n : nat) (b : buffer) (x : Z) : option (buffer * bool) :=
  let len := Z.of_nat n in
  '(b, ok) ← buffer_extend b len;
  if negb ok then Some (b, false)
  else
    c ← write_bytes (b_contents b) (b_end b) (endian big (le_split n x));
    Some (set_window (set_contents b c) (b_start b) (u64 (b_end b + len)), true).

Definition buffer_read_endian (big : bool) (n : nat) (b : buffer) : option (buffer * Z) :=
  let len := Z.of_nat n in
  l ← read_bytes (b_contents b) (b_start b) len;
  Some (set_window b (u64 (b_start b + len)) (b_end b), le_join (endian big l)).

Definition buffer_read_byte (b : buffer) : option (buffer * Z) :=
  if buffer_length b =? 0 then Some (b, u64 (-1))
  else
    off ← buffer_ref b 0;
    l ← read_bytes (b_contents b) off 1;
    r ← head l;
    Some (set_window b (u64 (b_start b + 1)) (b_end b), r).

Definition buffer_write_byte (b : buffer) (x : Z) : option (buffer * bool) :=
  '(b, ok) ← buffer_extend b 1;
  if negb ok then Some (b, false)
  else
    off ← buffer_ref b (buffer_length b);
    c ← write_bytes (b_contents b) off [u8 x];
    Some (set_window (set_contents b c) (b_start b) (u64 (b_end b + 1)), true).

Definition pop_u8 (b : buffer) : option (buffer * Z) :=
  _ ← kassert (u64 (b_start b + 1) <=? b_end b);
  _ ← kassert (b_end b <=? b_length b);
  off ← buffer_ref b 0;
  l ← read_bytes (b_contents b) off 1;
  x ← head l;
  Some (set_window b (u64 (b_start b + 1)) (b_end b), x).

Definition push_u8 (b : buffer) (x : Z) : option buffer :=
  '(b, ok) ← buffer_extend b 1;
  _ ← kassert ok;
  _ ← kassert (b_start b <=? b_end b);
  _ ← kassert (b_end b <? b_length b);
  off ← buffer_ref b (buffer_length b);
  c ← write_bytes (b_contents b) off [u8 x];
  Some (set_window (set_contents b c) (b_start b) (u64 (b_end b + 1))).

(** The first loop of [push_varint]: [tmp], the entry at [last] first. *)
Fixpoint varint_tmp (fuel : nat) (x : Z) (tmp : list Z) : option (list Z) :=
  match fuel with
  | O => None
  | S fuel' =>
      if x =? 0 then Some tmp
      else varint_tmp fuel' (Z.shiftr x 7) (Z.lor 0x80 (Z.land x 0x7f) :: tmp)
  end.

Fixpoint push_all (b : buffer) (l : list Z) : option buffer :=
  match l with [] => Some b | x :: l' => b ← push_u8 b x; push_all b l' end.

(** [tmp] has ten entries. *)
Definition push_varint (b : buffer) (x : Z) : option buffer :=
  tmp ← varint_tmp 11 (Z.shiftr x 7) [Z.land x 0x7f];
  _ ← kassert (Z.of_nat (length tmp) <=? 10);
  push_all b tmp.

Fixpoint pop_varint_loop (fuel : nat) (b : buffer) (out : Z) : option (buffer * Z) :=
  match fuel with
  | O => None
  | S fuel' =>
      '(b, m) ← pop_u8 b;
      let out := Z.lor (u64 (Z.shiftl out 7)) (Z.land m (MASK 7)) in
      if negb (Z.land m 0x80 =? 0) then pop_varint_loop fuel' b out else Some (b, out)
  end.

Definition pop_varint (b : buffer) : option (buffer * Z) :=
  pop_varint_loop (S (Z.to_nat (buffer_length b))) b 0.

(** ** Comparisons and searches *)

Fixpoint compare_loop (n : nat) (i : Z) (a b : buffer) : option bool :=
  match n with
  | O => Some true
  | S n' =>
      x ← byte a i; y ← byte b i;
      if negb (x =? y) then Some false else compare_loop n' (i + 1) a b
  end.

Definition buffer_compare (a b : buffer) : option bool :=
  let len := s32 (buffer_length a) in
  if negb (u64 len =? buffer_length b) then Some false
  else compare_loop (Z.to_nat len) 0 a b.

Fixpoint lt_loop (n : nat) (i alen : Z) (a b : buffer) : option bool :=
  match n with
  | O => Some false
  | S n' =>
      if alen <=? i then Some true
      else
        x ← byte a i; y ← byte b i;
        if x <? y then Some true
        else if y <? x then Some false
        else lt_loop n' (i + 1) alen a b
  end.

Definition buffer_lt (a b : buffer) : option bool :=
  let alen := s32 (buffer_length a) in
  let blen := s32 (buffer_length b) in
  lt_loop (Z.to_nat blen) 0 alen a b.

(** [runtime_memcmp] on two byte sequences of equal length: the difference of the
    first unequal bytes when the length is below a word; above, only whether it
    is zero is meaningful, and [1] stands for any difference. *)
Fixpoint first_difference (l k : list Z) : Z :=
  match l, k with
  | x :: l', y :: k' => if x =? y then first_difference l' k' else x - y
  | _, _ => 0
  end.

Definition buffer_memcmp (cmp : list Z -> list Z -> Z) (b : buffer) (mem : list Z) : option Z :=
  let len := buffer_length b in
  let n := Z.of_nat (length mem) in
  off ← buffer_ref b 0;
  l ← read_bytes (b_contents b) off (Z.min len n);
  let ret := cmp l (take (Z.to_nat (Z.min len n)) mem) in
  Some (if negb (ret =? 0) then ret else if len <? n then -1 else 0).

Definition buffer_compare_with_sstring (cmp : list Z -> list Z -> Z) (b : buffer) (str : list Z)
    : option Z :=
  let slen := Z.of_nat (length str) in
  res ← buffer_memcmp cmp b str;
  if negb (res =? 0) then Some res
  else
    let len := buffer_length b in
    if slen + 1 <? len then Some 1
    else if len =? slen + 1 then x ← byte b slen; Some (if negb (x =? 0) then 1 else 0)
    else Some 0.

(** The operands of the subtraction in [isupper] are promoted to [int]. *)
Definition isupper (a : Z) : bool := u8 a - 65 <? 26.
Definition tolower (a : Z) : Z := if isupper a then Z.lor a 0x20 else a.

Fixpoint ci_loop (n : nat) (i : Z) (b : buffer) (str : list Z) : option Z :=
  match n, str with
  | S n', y :: str' =>
      x ← byte b i;
      let res := tolower x - tolower y in
      if negb (res =? 0) then Some res else ci_loop n' (i + 1) b str'
  | _, _ => Some 0
  end.

Definition buffer_compare_with_sstring_ci (b : buffer) (str : list Z) : option Z :=
  let slen := Z.of_nat (length str) in
  let len := Z.min (buffer_length b) slen in
  res ← ci_loop (Z.to_nat len) 0 b str;
  if negb (res =? 0) then Some res
  else
    let len := buffer_length b in
    if len <? slen then Some (-1)
    else if slen + 1 <? len then Some 1
    else if len =? slen + 1 then x ← byte b slen; Some (if negb (x =? 0) then 1 else 0)
    else Some 0.

Fixpoint strchr_loop (n : nat) (i : Z) (b : buffer) (c : Z) : option Z :=
  match n with
  | O => Some (-1)
  | S n' => x ← byte b i; if x =? c then Some (s32 i) else strchr_loop n' (i + 1) b c
  end.

Definition buffer_strchr (b : buffer) (c : Z) : option Z :=
  strchr_loop (Z.to_nat (buffer_length b)) 0 b c.

Fixpoint strrchr_loop (n : nat) (b : buffer) (c : Z) : option Z :=
  match n with
  | O => Some (-1)
  | S n' =>
      let len := Z.of_nat n' in
      x ← byte b len; if x =? c then Some (s32 len) else strrchr_loop n' b c
  end.

Definition buffer_strrchr (b : buffer) (c : Z) : option Z :=
  strrchr_loop (Z.to_nat (buffer_length b)) b c.

Fixpoint strstr_loop (cmp : list Z -> list Z -> Z) (n : nat) (i : Z) (b : buffer) (str : list Z)
    : option Z :=
  match n with
  | O => Some (-1)
  | S n' =>
      if b_start b + i + Z.of_nat (length str) <=? b_end b then
        off ← buffer_ref b i;
        l ← read_bytes (b_contents b) off (Z.of_nat (length str));
        if cmp l str =? 0 then Some i else strstr_loop cmp n' (i + 1) b str
      else Some (-1)
  end.

Definition buffer_strstr (cmp : list Z -> list Z -> Z) (b : buffer) (str : list Z) : option Z :=
  strstr_loop cmp (S (Z.to_nat (buffer_length b))) 0 b str.

Fixpoint fnv_loop (n : nat) (i : Z) (b : buffer) (hash : Z) : option Z :=
  match n with
  | O => Some hash
  | S n' => x ← byte b i; fnv_loop n' (i + 1) b (u64 (Z.lxor hash x * 1099511628211))
  end.

Definition fnv64 (b : buffer) : option Z :=
  fnv_loop (Z.to_nat (buffer_length b)) 0 b 0xcbf29ce484222325.

Definition buffer_basename (b : buffer) : option buffer :=
  if buffer_length b <=? 1 then Some b
  else
    p ← buffer_strrchr b 47;
    if p =? -1 then Some b
    else if p =? buffer_length b - 1 then
      let b := set_window b (b_start b) (u64 (b_end b - 1)) in
      p ← buffer_strrchr b 47;
      if (p =? -1) || (buffer_length b =? 1) then Some b else buffer_consume b (p + 1)
    else buffer_consume b (p + 1).
End Code.

(** ** Well-formed buffers *)

Record buffer_ok (b : buffer) : Prop := {
  ok_window : 0 <= b_start b <= b_end b;
  ok_end : b_end b <= b_length b;
  ok_length : b_length b < 2 ^ 63;
  ok_contents : Z.of_nat (length (b_contents b)) = b_length b;
  ok_bytes : Forall is_byte (b_contents b);
}.

(** The bytes between start and end. *)
Definition payload (b : buffer) : list Z :=
  take (Z.to_nat (b_end b - b_start b)) (drop (Z.to_nat (b_start b)) (b_contents b)).

Section Proofs.
Context {h : Heap} {hl : HeapLaws h}.
Implicit Types b : buffer.

Lemma payload_length b : buffer_ok b -> Z.of_nat (length (payload b)) = b_end b - b_start b.
Proof.
  intros [Hw He Hl Hc _]. unfold payload. rewrite length_take, length_drop. lia.
Qed.

Lemma buffer_length_ok b : buffer_ok b -> buffer_length b = b_end b - b_start b.
Proof. intros [Hw He Hl _ _]. unfold buffer_length. apply u64_small. lia. Qed.

Lemma payload_bytes b : buffer_ok b -> Forall is_byte (payload b).
Proof. intros [_ _ _ _ Hb]. by apply Forall_take, Forall_drop. Qed.

Lemma read_window b n :
  buffer_ok b -> 0 <= n <= b_end b - b_start b ->
  read_bytes (b_contents b) (b_start b) n = Some (take (Z.to_nat n) (payload b)).
Proof.
  intros [Hw He Hl Hc _] Hn. apply read_bytes_Some. repeat split; try lia.
  unfold payload. rewrite take_take. f_equal. lia.
Qed.

(** The same bytes at the beginning of a new array. *)
Lemma buffer_relocate b c n :
  buffer_ok b -> Z.of_nat (length c) = n -> Forall is_byte c -> b_end b - b_start b <= n < 2 ^ 63 ->
  exists c', write_bytes c 0 (payload b) = Some c' /\
    forall w, let b' := {| b_start := 0; b_end := b_end b - b_start b; b_length := n; b_wrapped := w;
                           b_contents := c' |} in
      buffer_ok b' /\ payload b' = payload b.
Proof.
  intros Hok Hc Hb Hn. pose proof (payload_length b Hok) as Hpl.
  eexists. split; [apply write_bytes_Some; split; [done|]; split; [lia|done]|]. intros w. simpl.
  assert (Hwr : write_bytes c 0 (payload b) =
    Some (take (Z.to_nat 0) c ++ payload b ++ drop (Z.to_nat 0 + length (payload b)) c))
    by (apply write_bytes_Some; split; [done|]; split; [lia|done]).
  destruct Hok as [Hw He Hl Hcl Hbs] eqn:Eok. clear Eok. split.
  - split; simpl; try lia.
    + pose proof (write_bytes_length _ _ _ _ Hwr) as Hlen. simpl in Hlen. lia.
    + eapply write_bytes_bytes; [exact Hwr|done|]. by apply Forall_take, Forall_drop.
  - unfold payload at 1. simpl. rewrite drop_0. rewrite take_app_length' by lia. done.
Qed.

Lemma extend_spec b len :
  buffer_ok b -> 0 <= len -> b_end b - b_start b + len < 2 ^ 62 ->
  exists b' r, buffer_extend b len = Some (b', r) /\ buffer_ok b' /\ payload b' = payload b /\
    if (r : bool) then b_end b' + len <= b_length b' else b' = b.
Proof.
  intros Hok Hlen Hcap. pose proof Hok as [Hw He Hl Hc Hb]. unfold buffer_extend.
  rewrite (u64_small (b_end b + len)) by lia.
  destruct (Z.ltb_spec (b_length b) (b_end b + len)); [|by exists b, true].
  rewrite (u64_small (2 * _)) by lia. rewrite (u64_small (b_end b - b_start b)) by lia.
  assert (Hpay : take (Z.to_nat (b_end b - b_start b)) (payload b) = payload b).
  { apply take_ge. pose proof (payload_length b Hok). lia. }
  destruct (Z.ltb_spec (b_length b) (2 * (b_end b - b_start b + len))).
  - unfold buffer_set_capacity. rewrite (u64_small (b_end b - b_start b)) by lia.
    destruct (buffer_is_wrapped b); simpl.
    { exists b, false. split; [|done]. do 2 f_equal. apply Z.eqb_neq. lia. }
    destruct (Z.ltb_spec (2 * (b_end b - b_start b + len)) (b_end b - b_start b)); [lia|].
    destruct (Z.eqb_spec (2 * (b_end b - b_start b + len)) (b_length b)); [lia|]. simpl.
    destruct (allocate (2 * (b_end b - b_start b + len))) as [new|] eqn:Ea; simpl.
    2: { exists b, false. split; [|done]. do 2 f_equal. apply Z.eqb_neq. lia. }
    pose proof (allocate_length _ _ Ea) as Hnl. pose proof (allocate_bytes _ _ Ea) as Hnb.
    destruct (buffer_relocate b new _ Hok Hnl Hnb) as (c' & Ew & Hb'); [lia|].
    specialize (Hb' (b_wrapped b)).
    destruct (Z.eqb_spec (b_length b) 0) as [E0|E0]; simpl.
    + assert (payload b = []) as Ep by (apply nil_length_inv; pose proof (payload_length b Hok); lia).
      rewrite Ep in Ew. apply write_bytes_Some in Ew as (_ & _ & ->). simpl in Hb'.
      eexists _, true. rewrite Z.eqb_refl. split; [done|]. destruct Hb' as [Hb1 Hb2].
      split; [done|]. split; [done|]. simpl. lia.
    + rewrite read_window by (done || lia). simpl. rewrite Hpay, Ew. simpl.
      eexists _, true. rewrite Z.eqb_refl. split; [done|]. destruct Hb' as [Hb1 Hb2].
      split; [done|]. split; [done|]. simpl. lia.
  - rewrite read_window by (done || lia). simpl. rewrite Hpay.
    destruct (buffer_relocate b (b_contents b) _ Hok Hc Hb) as (c' & -> & Hb'); [lia|]. simpl.
    destruct (Hb' (b_wrapped b)) as [Hb1 Hb2]. eexists _, true. split; [done|].
    split; [done|]. split; [done|]. simpl. lia.
Qed.

(** Where the extended buffer begins, and why extending fails. *)
Lemma buffer_extend_shape (c : buffer) len c' r :
  buffer_extend c len = Some (c', r) -> buffer_ok c -> b_start c = 0 -> 0 <= len -> b_end c + len < 2 ^ 62 ->
  b_start c' = 0 /\ b_wrapped c' = b_wrapped c /\
  ((8 | b_length c) -> (8 | b_end c + len) -> (8 | b_length c')) /\
  (r = false -> b_wrapped c = true \/ exists n, 0 <= n /\ allocate n = None).
Proof.
  unfold buffer_extend. intros E [Hw He Hl Hc Hb] Hs Hlen Hsm. rewrite Hs, !u64_small in E by lia.
  destruct (b_length c <? b_end c + len); [|by injection E as <- <-].
  destruct (Z.ltb_spec (b_length c) (2 * (b_end c - 0 + len))) as [El|El].
  2: { inv_bind. done. }
  apply bind_Some in E as ([c1 cap] & E & E1). injection E1 as <- <-.
  unfold buffer_set_capacity, buffer_is_wrapped in E. rewrite Hs, !u64_small in E by lia.
  set (n := 2 * (b_end c - 0 + len)) in *.
  destruct (b_wrapped c) eqn:Ew. { injection E as <- <-. rewrite Ew. auto 10. }
  destruct (Z.ltb_spec n (b_end c - 0)); [lia|]. destruct (Z.eqb_spec n (b_length c)); [lia|]. cbn [negb] in E.
  destruct (allocate n) as [new|] eqn:Ea.
  - inv_bind. simpl. do 2 (split; [done|]). split.
    + intros _ [q Hq]. exists (2 * q). lia.
    + by rewrite Z.eqb_refl.
  - injection E as <- <-. do 3 (split; [done|]). intros _. right. exists n. split; [lia|done].
Qed.

(** Storing bytes after the end of the window, where there is room. *)
Lemma put_spec b src :
  buffer_ok b -> Forall is_byte src -> b_end b + Z.of_nat (length src) <= b_length b ->
  exists c, write_bytes (b_contents b) (b_end b) src = Some c /\
    let b' := set_window (set_contents b c) (b_start b) (u64 (b_end b + Z.of_nat (length src))) in
    buffer_ok b' /\ payload b' = payload b ++ src.
Proof.
  intros Hok Hs Hroom. pose proof Hok as [Hw He Hl Hc Hb].
  destruct (write_bytes (b_contents b) (b_end b) src) as [c|] eqn:Ew.
  2: { exfalso. assert (Hw2 : write_bytes (b_contents b) (b_end b) src = Some
         (take (Z.to_nat (b_end b)) (b_contents b) ++ src ++
          drop (Z.to_nat (b_end b) + length src) (b_contents b)))
         by (apply write_bytes_Some; split; [lia|]; split; [lia|done]). congruence. }
  exists c. split; [done|]. rewrite (u64_small (b_end b + _)) by lia. simpl.
  pose proof (write_bytes_length _ _ _ _ Ew) as Hlen. split.
  - split; simpl; try lia. by eapply write_bytes_bytes.
  - apply write_bytes_Some in Ew as (_ & _ & ->). unfold payload. simpl.
    rewrite drop_app_le by (rewrite length_take; lia). rewrite skipn_firstn_comm.
    rewrite take_app_ge by (rewrite length_take, length_drop; lia).
    f_equal; [f_equal; lia|]. rewrite length_take, length_drop.
    rewrite take_app_le by lia. apply take_ge. lia.
Qed.

Lemma ref_end b : buffer_ok b -> buffer_ref b (buffer_length b) = Some (b_end b).
Proof.
  intros Hok. pose proof Hok as [Hw He Hl Hc Hb]. unfold buffer_ref. rewrite buffer_length_ok by done.
  replace (b_start b + (b_end b - b_start b)) with (b_end b) by lia. rewrite u64_small by lia.
  unfold kassert. destruct (Z.leb_spec (b_end b) (b_length b)); [done|lia].
Qed.

Lemma ref_offset b i : buffer_ok b -> 0 <= i <= b_end b - b_start b -> buffer_ref b i = Some (b_start b + i).
Proof.
  intros [Hw He Hl Hc Hb] Hi. unfold buffer_ref. rewrite u64_small by lia.
  unfold kassert. destruct (Z.leb_spec (b_start b + i) (b_length b)); [done|lia].
Qed.

Lemma write_spec b src :
  buffer_ok b -> Forall is_byte src -> b_end b - b_start b + Z.of_nat (length src) < 2 ^ 62 ->
  exists b' r, buffer_write b src = Some (b', r) /\ buffer_ok b' /\
    if (r : bool) then payload b' = payload b ++ src else b' = b.
Proof.
  intros Hok Hs Hcap. unfold buffer_write.
  destruct (extend_spec b (Z.of_nat (length src)) Hok) as (b1 & r & -> & Hok1 & Hp1 & Hr); [lia..|].
  simpl. destruct r; simpl; [|subst b1; by exists b, false].
  rewrite ref_end by done. simpl.
  destruct (put_spec b1 src Hok1 Hs Hr) as (c & -> & Hok2 & Hp2). simpl.
  pose proof Hok1 as [Hw He Hl Hc Hb]. unfold buffer_produce. simpl.
  unfold kassert. destruct (Z.leb_spec (b_start b1) (b_end b1)); [|lia]. simpl.
  rewrite u64_small by lia. destruct (Z.leb_spec (b_end b1 + Z.of_nat (length src)) (b_length b1)); [|lia].
  simpl. eexists _, true. split; [done|]. rewrite <- Hp1. rewrite u64_small in Hok2, Hp2 by lia. done.
Qed.

Lemma drop_payload b n :
  buffer_ok b -> 0 <= n <= b_end b - b_start b ->
  buffer_ok (set_window b (b_start b + n) (b_end b)) /\
  payload (set_window b (b_start b + n) (b_end b)) = drop (Z.to_nat n) (payload b).
Proof.
  intros [Hw He Hl Hc Hb] Hn. split; [split; simpl; lia || done|].
  unfold payload. simpl. rewrite skipn_firstn_comm, drop_drop. f_equal; [lia|]. f_equal. lia.
Qed.

Lemma read_spec b n :
  buffer_ok b -> 0 <= n -> exists b', buffer_ok b' /\
    if n <=? Z.of_nat (length (payload b))
    then buffer_read b n = Some (b', true, take (Z.to_nat n) (payload b)) /\
         payload b' = drop (Z.to_nat n) (payload b)
    else buffer_read b n = Some (b, false, []).
Proof.
  intros Hok Hn. unfold buffer_read. rewrite buffer_length_ok, payload_length by done.
  destruct (Z.leb_spec n (b_end b - b_start b)), (Z.ltb_spec (b_end b - b_start b) n); try lia; [|by exists b].
  rewrite ref_offset by (done || lia). rewrite Z.add_0_r. simpl. rewrite read_window by (done || lia). simpl.
  pose proof Hok as [Hw He Hl Hc Hb]. unfold buffer_consume. rewrite u64_small by lia.
  unfold kassert. destruct (Z.leb_spec (b_start b + n) (b_end b)); [|lia]. simpl.
  destruct (Z.leb_spec (b_end b) (b_length b)); [|lia]. simpl.
  destruct (drop_payload b n Hok) as [H1' H2']; [lia|]. by eexists.
Qed.

Lemma push_u8_spec b x b' :
  buffer_ok b -> b_end b - b_start b + 1 < 2 ^ 62 -> push_u8 b x = Some b' ->
  buffer_ok b' /\ payload b' = payload b ++ [u8 x].
Proof.
  intros Hok Hcap E. unfold push_u8 in E.
  destruct (extend_spec b 1 Hok) as (b1 & r & E1 & Hok1 & Hp1 & Hr); [lia..|].
  rewrite E1 in E. simpl in E. destruct r; [|done]. inv_bind.
  rewrite ref_end in * by done. simplify_eq.
  destruct (put_spec b1 [u8 x] Hok1) as (c & Ec & Hok2 & Hp2);
    [repeat constructor; apply Z.mod_pos_bound; lia|done|].
  match goal with H : write_bytes _ _ _ = Some _ |- _ => rewrite Ec in H; injection H as <- end.
  split; [exact Hok2|]. rewrite <- Hp1. exact Hp2.
Qed.

Lemma pop_u8_spec b x l :
  buffer_ok b -> payload b = x :: l ->
  exists b', pop_u8 b = Some (b', x) /\ buffer_ok b' /\ payload b' = l.
Proof.
  intros Hok Hp. pose proof (payload_length b Hok) as Hlen. rewrite Hp in Hlen. simpl in Hlen.
  pose proof Hok as [Hw He Hl Hc Hb]. unfold pop_u8. rewrite u64_small by lia.
  unfold kassert. destruct (Z.leb_spec (b_start b + 1) (b_end b)); [|lia]. simpl.
  destruct (Z.leb_spec (b_end b) (b_length b)); [|lia]. simpl.
  rewrite ref_offset by (done || lia). rewrite Z.add_0_r. simpl. rewrite read_window by (done || lia).
  rewrite Hp. simpl. destruct (drop_payload b 1 Hok) as [H1' H2']; [lia|]. rewrite Hp in H2'. by eexists.
Qed.

Lemma push_all_spec l b b' :
  buffer_ok b -> b_end b - b_start b + Z.of_nat (length l) < 2 ^ 62 -> Forall is_byte l ->
  push_all b l = Some b' -> buffer_ok b' /\ payload b' = payload b ++ l.
Proof.
  revert b. induction l as [|x l IH]; intros b Hok Hcap Hl E; simpl in E.
  { injection E as <-. by rewrite app_nil_r. }
  simpl in Hcap. apply Forall_cons in Hl as [Hx Hl]. inv_bind.
  match goal with H : push_u8 _ _ = Some ?b1 |- _ =>
    destruct (push_u8_spec b x b1 Hok ltac:(lia) H) as [Hok1 Hp1] end.
  pose proof (payload_length _ Hok) as Hl0. pose proof (payload_length _ Hok1) as Hl1.
  rewrite Hp1, length_app in Hl1. simpl in Hl1.
  destruct (IH _ Hok1 ltac:(lia) Hl E) as [Hok' Hp']. split; [done|].
  rewrite Hp', Hp1, <- app_assoc. simpl. do 2 f_equal. unfold u8. apply Z.mod_small, Hx.
Qed.
End Proofs.

(** ** Variable-length integers *)

(** [pop_varint] on a byte sequence. *)
Fixpoint decode_varint (l : list Z) (out : Z) : option (Z * list Z) :=
  match l with
  | [] => None
  | m :: l' =>
      let out := Z.lor (u64 (Z.shiftl out 7)) (Z.land m (MASK 7)) in
      if negb (Z.land m 0x80 =? 0) then decode_varint l' out else Some (out, l')
  end.

Lemma low7_join x : 0 <= x < 2 ^ 64 ->
  Z.lor (u64 (Z.shiftl (Z.shiftr x 7) 7)) (Z.land x (MASK 7)) = x.
Proof.
  intros Hx. apply Z.bits_inj'. intros i Hi. change (MASK 7) with (Z.ones 7).
  rewrite Z.lor_spec, u64_testbit, Z.shiftl_spec, Z.land_spec, Z.testbit_ones by lia.
  destruct (Z.ltb_spec i 64); [|by rewrite (testbit_above x) by lia].
  destruct (Z.ltb_spec i 7).
  - rewrite (Z.testbit_neg_r _ (i - 7)) by lia. simpl.
    destruct (Z.leb_spec 0 i); [|lia]. by rewrite andb_true_r.
  - rewrite Z.shiftr_spec by lia. replace (i - 7 + 7) with i by lia.
    rewrite andb_false_r, andb_false_r, orb_false_r. done.
Qed.

Lemma land_MASK7 x : Z.land x 0x7f = Z.land x (MASK 7).
Proof. done. Qed.

Lemma continued x : Z.land (Z.lor 0x80 (Z.land x 0x7f)) 0x80 <> 0 /\
  Z.land (Z.lor 0x80 (Z.land x 0x7f)) (MASK 7) = Z.land x (MASK 7).
Proof.
  split.
  - intros E. apply (f_equal (fun z => Z.testbit z 7)) in E.
    rewrite Z.land_spec, Z.lor_spec, Z.land_spec in E. discriminate E.
  - rewrite (Z.land_comm (Z.lor _ _)), Z.land_lor_distr_r. change (Z.land (MASK 7) 0x80) with 0.
    rewrite Z.lor_0_l, Z.land_assoc, (Z.land_comm (MASK 7) x), <- Z.land_assoc. done.
Qed.

Lemma final x : Z.land (Z.land x 0x7f) 0x80 = 0 /\ Z.land (Z.land x 0x7f) (MASK 7) = Z.land x (MASK 7).
Proof. split; rewrite <- Z.land_assoc; [apply Z.land_0_r|done]. Qed.

Lemma varint_tmp_decode fuel x acc l rest :
  0 <= x < 2 ^ 64 -> varint_tmp fuel x acc = Some l ->
  decode_varint (l ++ rest) 0 = decode_varint (acc ++ rest) x.
Proof.
  revert x acc. induction fuel as [|fuel IH]; intros x acc Hx E; simpl in E; [done|].
  destruct (Z.eqb_spec x 0) as [->|]; [by injection E as ->|].
  assert (0 <= Z.shiftr x 7 < 2 ^ 64).
  { rewrite Z.shiftr_div_pow2 by lia. split; [apply Z.div_pos; lia|].
    apply Z.div_lt_upper_bound; lia. }
  rewrite (IH _ _ ltac:(done) E). destruct (continued x) as [E1 E2].
  cbn [app decode_varint]. rewrite E2, low7_join by done.
  destruct (Z.eqb_spec (Z.land (Z.lor 0x80 (Z.land x 0x7f)) 0x80) 0); [done|]. done.
Qed.

Lemma varint_tmp_total fuel n x acc :
  0 <= x < 2 ^ (7 * Z.of_nat n) -> (n < fuel)%nat -> Forall is_byte acc ->
  exists l, varint_tmp fuel x acc = Some l /\ (length l <= length acc + n)%nat /\ Forall is_byte l.
Proof.
  revert n x acc. induction fuel as [|fuel IH]; intros n x acc Hx Hf Ha; [lia|]. simpl.
  destruct (Z.eqb_spec x 0); [exists acc; split; [done|]; split; [lia|done]|].
  destruct n as [|n]; [simpl in Hx; lia|].
  destruct (IH n (Z.shiftr x 7) (Z.lor 0x80 (Z.land x 0x7f) :: acc)) as (l & E & Hl & Hb).
  - rewrite Z.shiftr_div_pow2 by lia. split; [apply Z.div_pos; lia|].
    apply Z.div_lt_upper_bound; [lia|]. rewrite <- Z.pow_add_r by lia.
    replace (7 + 7 * Z.of_nat n) with (7 * Z.of_nat (S n)) by lia. lia.
  - lia.
  - constructor; [|done]. unfold is_byte.
    assert (Hx7 : 0 <= Z.land x 0x7f < 128).
    { change 0x7f with (Z.ones 7). rewrite Z.land_ones by lia. apply Z.mod_pos_bound. lia. }
    assert (E7 : Z.lor 0x80 (Z.land x 0x7f) = 0x80 + Z.land x 0x7f).
    { assert (Hd : Z.land 0x80 (Z.land x 0x7f) = 0)
        by (rewrite Z.land_comm, <- Z.land_assoc; apply Z.land_0_r).
      rewrite <- Z.lxor_lor, <- Z.add_nocarry_lxor by exact Hd. done. }
    lia.
  - exists l. split; [done|]. simpl in Hl. split; [lia|done].
Qed.

(** The encoding [push_varint] writes. *)
Definition varint_bytes (x : Z) : list Z := default [] (varint_tmp 11 (Z.shiftr x 7) [Z.land x 0x7f]).

Lemma varint_bytes_spec x : 0 <= x < 2 ^ 64 ->
  varint_tmp 11 (Z.shiftr x 7) [Z.land x 0x7f] = Some (varint_bytes x) /\
  (length (varint_bytes x) <= 10)%nat /\ Forall is_byte (varint_bytes x) /\
  forall rest, decode_varint (varint_bytes x ++ rest) 0 = Some (x, rest).
Proof.
  intros Hx. unfold varint_bytes.
  assert (Hs : 0 <= Z.shiftr x 7 < 2 ^ 57).
  { rewrite Z.shiftr_div_pow2 by lia. split; [apply Z.div_pos; lia|].
    apply Z.div_lt_upper_bound; lia. }
  destruct (varint_tmp_total 11 9 (Z.shiftr x 7) [Z.land x 0x7f]) as (l & E & Hl & Hb).
  { split; [lia|]. apply Z.lt_le_trans with (2 ^ 57); [lia|]. apply Z.pow_le_mono_r; lia. }
  { lia. }
  { constructor; [|constructor]. unfold is_byte. change 0x7f with (Z.ones 7).
    rewrite Z.land_ones by lia. pose proof (Z.mod_pos_bound x (2 ^ 7) ltac:(done)). lia. }
  rewrite E. simpl default. split; [done|]. split; [simpl in Hl; lia|]. split; [done|].
  assert (Hs2 : 0 <= Z.shiftr x 7 < 2 ^ 64) by lia.
  intros rest. rewrite (varint_tmp_decode _ _ _ _ rest Hs2 E). destruct (final x) as [E1 E2].
  cbn [app decode_varint]. by rewrite E1, E2, low7_join by done.
Qed.

Section VarintProofs.
Context {h : Heap} {hl : HeapLaws h}.

Lemma push_varint_spec b x b' :
  buffer_ok b -> 0 <= x < 2 ^ 64 -> b_end b - b_start b + 10 < 2 ^ 62 ->
  push_varint b x = Some b' -> buffer_ok b' /\ payload b' = payload b ++ varint_bytes x.
Proof.
  intros Hok Hx Hcap E. unfold push_varint in E.
  destruct (varint_bytes_spec x Hx) as (Ev & Hl & Hb & _). rewrite Ev in E. inv_bind.
  apply push_all_spec; [done|lia|done|done].
Qed.

Lemma pop_varint_loop_spec l out v rest : forall fuel b,
  buffer_ok b -> payload b = l -> decode_varint l out = Some (v, rest) -> (length l < fuel)%nat ->
  exists b', pop_varint_loop fuel b out = Some (b', v) /\ buffer_ok b' /\ payload b' = rest.
Proof.
  revert out. induction l as [|m l IH]; intros out fuel b Hok Hp E Hf; [done|].
  destruct fuel as [|fuel]; [simpl in Hf; lia|]. simpl in E, Hf |- *.
  destruct (pop_u8_spec b m l Hok Hp) as (b1 & -> & Hok1 & Hp1). simpl.
  destruct (negb (Z.land m 128 =? 0)).
  - apply (IH _ fuel b1); [done..|lia].
  - injection E as <- <-. by exists b1.
Qed.

Lemma pop_varint_spec b x rest :
  buffer_ok b -> 0 <= x < 2 ^ 64 -> payload b = varint_bytes x ++ rest ->
  exists b', pop_varint b = Some (b', x) /\ buffer_ok b' /\ payload b' = rest.
Proof.
  intros Hok Hx Hp. destruct (varint_bytes_spec x Hx) as (_ & _ & _ & Hd).
  unfold pop_varint. apply (pop_varint_loop_spec (payload b)); [done|done|by rewrite Hp|].
  rewrite buffer_length_ok by done. pose proof (payload_length b Hok). lia.
Qed.
End VarintProofs.

(** ** Comparisons *)

(** Lexicographic order of byte strings, a proper prefix being smaller. *)
Fixpoint lex_lt (l k : list Z) : bool :=
  match k with
  | [] => false
  | y :: k' =>
      match l with
      | [] => true
      | x :: l' => if x <? y then true else if y <? x then false else lex_lt l' k'
      end
  end.

Section CompareProofs.
Context {h : Heap} {hl : HeapLaws h}.

Lemma byte_spec b i x : buffer_ok b -> payload b !! i = Some x -> byte b (Z.of_nat i) = Some x.
Proof.
  intros Hok Hx. pose proof (lookup_lt_Some _ _ _ Hx) as Hi. pose proof (payload_length b Hok) as Hl.
  pose proof Hok as [Hw He Hlen Hc Hb]. unfold byte. rewrite u64_small by lia.
  assert (Hr : read_bytes (b_contents b) (b_start b + Z.of_nat i) 1 =
    Some (take 1 (drop (Z.to_nat (b_start b + Z.of_nat i)) (b_contents b)))).
  { apply read_bytes_Some. repeat split; lia. }
  rewrite Hr. cbn [mbind option_bind]. unfold payload in Hx.
  rewrite lookup_take_lt, lookup_drop in Hx by lia.
  replace (Z.to_nat (b_start b + Z.of_nat i)) with (Z.to_nat (b_start b) + i)%nat by lia.
  by rewrite (drop_cons_lookup _ _ _ Hx).
Qed.

Lemma compare_loop_spec a b n i :
  buffer_ok a -> buffer_ok b -> (i + n = length (payload a))%nat -> (i + n = length (payload b))%nat ->
  compare_loop n (Z.of_nat i) a b =
    Some (bool_decide (drop i (payload a) = drop i (payload b))).
Proof.
  intros Ha Hb. revert i. induction n as [|n IH]; intros i Hla Hlb; cbn [compare_loop].
  { rewrite !drop_ge by lia. by rewrite bool_decide_true. }
  destruct (lookup_lt_is_Some_2 (payload a) i) as [x Hx]; [lia|].
  destruct (lookup_lt_is_Some_2 (payload b) i) as [y Hy]; [lia|].
  rewrite (byte_spec a i x), (byte_spec b i y) by done. cbn [mbind option_bind].
  rewrite (drop_cons_lookup _ _ _ Hx), (drop_cons_lookup _ _ _ Hy).
  destruct (Z.eqb_spec x y) as [->|Hxy]; cbn [negb].
  - replace (Z.of_nat i + 1) with (Z.of_nat (S i)) by lia. rewrite IH by lia.
    f_equal. apply bool_decide_ext. split; congruence.
  - f_equal. symmetry. apply bool_decide_false. congruence.
Qed.

Lemma lt_loop_spec a b n i :
  buffer_ok a -> buffer_ok b -> (i + n = length (payload b))%nat ->
  lt_loop n (Z.of_nat i) (Z.of_nat (length (payload a))) a b =
    Some (lex_lt (drop i (payload a)) (drop i (payload b))).
Proof.
  intros Ha Hb. revert i. induction n as [|n IH]; intros i Hlb; cbn [lt_loop].
  { by rewrite (drop_ge (payload b)) by lia; destruct (drop i (payload a)). }
  destruct (lookup_lt_is_Some_2 (payload b) i) as [y Hy]; [lia|].
  rewrite (drop_cons_lookup _ _ _ Hy). case_test.
  { by rewrite (drop_ge (payload a)) by lia. }
  destruct (lookup_lt_is_Some_2 (payload a) i) as [x Hx]; [lia|].
  rewrite (byte_spec a i x), (byte_spec b i y) by done. cbn [mbind option_bind].
  rewrite (drop_cons_lookup _ _ _ Hx). cbn [lex_lt]. repeat case_test; try done.
  replace (Z.of_nat i + 1) with (Z.of_nat (S i)) by lia. apply IH. lia.
Qed.

Definition fnv_bytes (l : list Z) : Z :=
  fold_left (fun hash x => u64 (Z.lxor hash x * 1099511628211)) l 0xcbf29ce484222325.

Lemma fnv64_spec b : buffer_ok b -> fnv64 b = Some (fnv_bytes (payload b)).
Proof.
  intros Hb. unfold fnv64, fnv_bytes. rewrite buffer_length_ok, <- payload_length by done.
  rewrite Nat2Z.id.
  assert (Hloop : forall n i hash, (i + n = length (payload b))%nat ->
    fnv_loop n (Z.of_nat i) b hash =
    Some (fold_left (fun hash x => u64 (Z.lxor hash x * 1099511628211)) (drop i (payload b)) hash)).
  { induction n as [|n IH]; intros i hash Hi; cbn [fnv_loop].
    { by rewrite drop_ge by lia. }
    destruct (lookup_lt_is_Some_2 (payload b) i) as [x Hx]; [lia|].
    rewrite (byte_spec b i x) by done. cbn [mbind option_bind].
    rewrite (drop_cons_lookup _ _ _ Hx). cbn [fold_left].
    replace (Z.of_nat i + 1) with (Z.of_nat (S i)) by lia. apply IH. lia. }
  apply (Hloop _ 0%nat). lia.
Qed.

(** ** Fixed-width integers *)

Lemma endian_bytes big l : Forall is_byte l -> Forall is_byte (endian big l).
Proof. destruct big; [apply Forall_rev|done]. Qed.

Lemma endian_length big l : length (endian big l) = length l.
Proof. destruct big; [apply length_rev|done]. Qed.

Lemma endian_involutive big l : endian big (endian big l) = l.
Proof. destruct big; [apply rev_involutive|done]. Qed.

Lemma write_endian_spec big n b x b' :
  buffer_ok b -> b_end b - b_start b + Z.of_nat n < 2 ^ 62 ->
  buffer_write_endian big n b x = Some (b', true) ->
  buffer_ok b' /\ payload b' = payload b ++ endian big (le_split n x).
Proof.
  intros Hok Hcap E. unfold buffer_write_endian in E.
  destruct (extend_spec b (Z.of_nat n) Hok) as (b1 & r & E1 & Hok1 & Hp1 & Hr); [lia..|].
  rewrite E1 in E. simpl in E. destruct r; [|done]. simpl in E.
  assert (Hlen : length (endian big (le_split n x)) = n)
    by (by rewrite endian_length, length_le_split).
  destruct (put_spec b1 (endian big (le_split n x)) Hok1) as (c & Ec & Hok2 & Hp2);
    [apply endian_bytes, le_split_bytes|by rewrite Hlen|].
  rewrite Ec in E. simpl in E. injection E as <-. rewrite Hlen in Hok2, Hp2. by rewrite <- Hp1.
Qed.

Lemma read_endian_spec big n b l rest :
  buffer_ok b -> payload b = l ++ rest -> length l = n ->
  exists b', buffer_read_endian big n b = Some (b', le_join (endian big l)) /\ buffer_ok b' /\
    payload b' = rest.
Proof.
  intros Hok Hp Hl. pose proof (payload_length b Hok) as Hlen. rewrite Hp, length_app in Hlen.
  unfold buffer_read_endian. rewrite read_window by (done || lia). rewrite Hp. simpl.
  rewrite take_app_length' by lia. destruct (drop_payload b (Z.of_nat n) Hok) as [H1 H2]; [lia|].
  pose proof Hok as [Hw He Hll _ _]. rewrite u64_small by lia.
  eexists. split; [done|]. split; [done|]. rewrite H2, Hp. rewrite drop_app_length' by lia. done.
Qed.
End CompareProofs.

(** ** Properties *)

(** An empty buffer of sixteen bytes, for evaluation. *)
Definition sample_buffer : buffer := init_buffer 16 false (replicate 16 0).

Lemma sample_buffer_ok : buffer_ok sample_buffer.
Proof. split; simpl; try lia. apply (Forall_replicate is_byte 16 0). unfold is_byte. lia. Qed.

(** [buffer_write] appends the bytes to the window or, when the buffer is
    wrapped or memory runs out, returns false and changes nothing; [buffer_read]
    takes the first bytes of the window, and refuses when there are too few.
    Neither fails an assertion or leaves the array, and moving or reallocating
    the contents keeps the window. *)
Theorem buffer_write_read {h : Heap} {hl : HeapLaws h} b src n :
  buffer_ok b -> Forall is_byte src -> b_end b - b_start b + Z.of_nat (length src) < 2 ^ 62 -> 0 <= n ->
  (exists b' r, buffer_write b src = Some (b', r) /\ buffer_ok b' /\
     if (r : bool) then payload b' = payload b ++ src else b' = b) /\
  (exists b', buffer_ok b' /\
     if n <=? Z.of_nat (length (payload b))
     then buffer_read b n = Some (b', true, take (Z.to_nat n) (payload b)) /\
          payload b' = drop (Z.to_nat n) (payload b)
     else buffer_read b n = Some (b, false, [])).
Proof. intros Hok Hs Hcap Hn. split; [by apply write_spec|by apply read_spec]. Qed.

(** [pop_varint] reads back what [push_varint] wrote, for every 64-bit
    value, and consumes exactly the bytes written; the encoding never exceeds
    the ten bytes of the scratch array. *)
Theorem varint_roundtrip {h : Heap} {hl : HeapLaws h} b x b' :
  buffer_ok b -> payload b = [] -> 0 <= x < 2 ^ 64 -> b_end b - b_start b + 10 < 2 ^ 62 ->
  push_varint b x = Some b' ->
  (length (payload b') <= 10)%nat /\
  exists b'', pop_varint b' = Some (b'', x) /\ buffer_ok b'' /\ payload b'' = [].
Proof.
  intros Hok Hp Hx Hcap E. destruct (push_varint_spec b x b' Hok Hx Hcap E) as [Hok' Hp'].
  rewrite Hp in Hp'. simpl in Hp'. destruct (varint_bytes_spec x Hx) as (_ & Hl & _).
  rewrite Hp'. split; [done|]. apply pop_varint_spec; [done..|]. by rewrite app_nil_r.
Qed.

(** A fixed-width integer written in either byte order and read back in the
    same order is the integer reduced to its width, and is written after what
    the buffer already holds. *)
Theorem endian_roundtrip {h : Heap} {hl : HeapLaws h} big n b x b' l :
  buffer_ok b -> payload b = l -> b_end b - b_start b + Z.of_nat n < 2 ^ 62 ->
  buffer_write_endian big n b x = Some (b', true) ->
  payload b' = l ++ endian big (le_split n x) /\
  (l = [] -> exists b'', buffer_read_endian big n b' = Some (b'', x mod 256 ^ Z.of_nat n) /\
    buffer_ok b'' /\ payload b'' = []).
Proof.
  intros Hok <- Hcap E. destruct (write_endian_spec big n b x b' Hok Hcap E) as [Hok' Hp'].
  split; [done|]. intros Hp. rewrite Hp in Hp'. simpl in Hp'.
  destruct (read_endian_spec big n b' (endian big (le_split n x)) []) as (b'' & E' & Hok'' & Hp'');
    [done|by rewrite app_nil_r|by rewrite endian_length, length_le_split|].
  rewrite endian_involutive, le_join_split in E'. by exists b''.
Qed.

(** [buffer_compare] decides equality of the windows, [buffer_lt] is the
    lexicographic order on them, and [fnv64] hashes the window alone, so that
    equal buffers have equal hashes. *)
Theorem buffer_comparisons {h : Heap} {hl : HeapLaws h} a b :
  buffer_ok a -> buffer_ok b ->
  Z.of_nat (length (payload a)) < 2 ^ 31 -> Z.of_nat (length (payload b)) < 2 ^ 31 ->
  buffer_compare a b = Some (bool_decide (payload a = payload b)) /\
  buffer_lt a b = Some (lex_lt (payload a) (payload b)) /\
  fnv64 a = Some (fnv_bytes (payload a)).
Proof.
  intros Ha Hb Hla Hlb. split; [|split; [|by apply fnv64_spec]].
  - unfold buffer_compare. rewrite !buffer_length_ok, <- !payload_length by done.
    rewrite s32_small, u64_small by lia.
    destruct (Z.eqb_spec (Z.of_nat (length (payload a))) (Z.of_nat (length (payload b)))) as [E|E]; simpl.
    + rewrite Nat2Z.id. by apply (compare_loop_spec a b _ 0); [..|lia].
    + rewrite bool_decide_false; [done|]. intros Ep. rewrite Ep in E. done.
  - unfold buffer_lt. rewrite !buffer_length_ok, <- !payload_length by done.
    rewrite !s32_small by lia. rewrite Nat2Z.id. by apply (lt_loop_spec a b _ 0).
Qed.


(** [isupper] subtracts promoted operands, so every byte below ['A'] passes its
    test: [tolower] changes characters that are not letters, and the
    case-insensitive comparison finds ["@"] (64) equal to ["`"] (96). *)
Lemma casecmp_confuses_symbols :
  isupper 64 = true /\ tolower 10 = 42 /\
  buffer_compare_with_sstring_ci (wrap_buffer [64] 1) [96] = Some 0.
Proof. repeat split. Qed.
