(* ===== verification/Bitmap.v ===== *)
(** Bitmaps and the bitmap allocator: [kernel/src/runtime/bitmap.h] and
    [bitmap.c].

    The map is a buffer of 64-bit words.  The functions that take the map's base
    pointer work on the buffer's bytes; [None] is a failed assertion or a word
    outside the buffer.  An allocation result of [None] is [INVALID_PHYSICAL]. *)

From S2P Require Import Prelude Words Heap Buffer.

Definition BITMAP_WORDLEN_LOG : Z := 6.
Definition BITMAP_WORDLEN : Z := 64.
Definition BITMAP_WORDMASK : Z := 63.
Definition ALLOC_EXTEND_BITS : Z := U64_FROM_BIT 12.

(** [map_heap] is whether there is a heap for the map: a bitmap over memory of
    the caller has none. *)
Record bitmap := { maxbits : Z; mapbits : Z; map_heap : bool; alloc_map : buffer }.

Definition set_map (b : bitmap) (m : Z) (c : buffer) : bitmap :=
  {| maxbits := maxbits b; mapbits := m; map_heap := map_heap b; alloc_map := c |}.

(** [~m] on 64 bits. *)
Definition not64 (m : Z) : Z := u64 (Z.lnot m).

(** ** The code *)

Section Code.
Context {h : Heap}.

Definition word_op (c : list Z) (k mask : Z) (set val : bool) : option (list Z * bool) :=
  w ← read_u64 c (8 * k);
  if set then
    c ← write_u64 c (8 * k) (if val then Z.lor w mask else Z.land w (not64 mask));
    Some (c, true)
  else
    let masked := Z.land mask w in
    Some (c, (if val then masked else Z.lxor masked mask) =? mask).

(** The words from [k] on. *)
Fixpoint words_op (n : nat) (c : list Z) (k : Z) (set val : bool) : option (list Z * bool) :=
  match n with
  | O => Some (c, true)
  | S n' =>
      '(c, r) ← word_op c k infinity set val;
      if negb r then Some (c, false) else words_op n' c (k + 1) set val
  end.

Definition for_range_in_map (c : list Z) (start nbits : Z) (set val : bool)
    : option (list Z * bool) :=
  let end_ := u64 (start + nbits) in
  let head := Z.land start BITMAP_WORDMASK in
  let tail := Z.land end_ BITMAP_WORDMASK in
  if nbits =? 0 then Some (c, true)
  else
    let mask := infinity in
    let single := head + nbits <=? BITMAP_WORDLEN in
    let mask := if negb (head =? 0) then Z.land mask (not64 (MASK head)) else mask in
    let mask := if negb (tail =? 0) && single then Z.land mask (MASK tail) else mask in
    '(c, r) ← word_op c (Z.shiftr start BITMAP_WORDLEN_LOG) mask set val;
    if negb r || single then Some (c, r)
    else
      let start := start + (BITMAP_WORDLEN - head) in
      let w := Z.shiftr start BITMAP_WORDLEN_LOG in
      let wend := Z.shiftr (Z.land end_ (not64 BITMAP_WORDMASK)) BITMAP_WORDLEN_LOG in
      '(c, r) ← words_op (Z.to_nat (wend - w)) c w set val;
      if negb r then Some (c, false)
      else if negb (tail =? 0) then
        '(c, r) ← word_op c wend (MASK tail) set val;
        Some (c, r)
      else Some (c, true).

Definition bitmap_extend (b : bitmap) (i : Z) : option (bitmap * bool) :=
  if mapbits b <=? i then
    let mb := pad (u64 (i + 1)) ALLOC_EXTEND_BITS in
    '(m, ok) ← extend_total (alloc_map b) (Z.shiftr mb 3);
    if (ok : bool) then Some (set_map b mb m, true) else Some (set_map b (mapbits b) m, false)
  else Some (b, false).

(** Running a map function on the words of a bitmap. *)
Definition with_map (b : bitmap) (f : list Z -> option (list Z * bool)) : option (bitmap * bool) :=
  _ ← kassert (b_start (alloc_map b) <=? b_length (alloc_map b));
  '(c, r) ← f (drop (Z.to_nat (b_start (alloc_map b))) (b_contents (alloc_map b)));
  Some (set_map b (mapbits b)
    (set_contents (alloc_map b) (take (Z.to_nat (b_start (alloc_map b))) (b_contents (alloc_map b)) ++ c)), r).

Definition bitmap_get (b : bitmap) (i : Z) : option bool :=
  if mapbits b <=? i then Some false
  else
    off ← buffer_ref (alloc_map b) 0;
    w ← read_u64 (b_contents (alloc_map b)) (off + 8 * Z.shiftr i 6);
    Some (negb (Z.land w (Z.shiftl 1 (Z.land i 63)) =? 0)).

Definition bitmap_set (b : bitmap) (i : Z) (val : bool) : option bitmap :=
  b ← (if mapbits b <=? i then '(b, ok) ← bitmap_extend b i; _ ← kassert ok; Some b else Some b);
  let mask := Z.shiftl 1 (Z.land i 63) in
  '(b, _) ← with_map b (fun c => word_op c (Z.shiftr i 6) mask true val);
  Some b.

Definition bitmap_range_check_and_set (b : bitmap) (start nbits : Z) (validate set : bool)
    : option (bitmap * bool) :=
  if (maxbits b <=? start) || (maxbits b <? u64 (start + nbits)) then Some (b, false)
  else
    '(b, _) ← bitmap_extend b (u64 (start + nbits - 1));
    '(b, ok) ← (if validate then with_map b (fun c => for_range_in_map c start nbits false (negb set))
                else Some (b, true));
    if negb ok then Some (b, false)
    else with_map b (fun c => for_range_in_map c start nbits true set).

Fixpoint get_first_loop (fuel : nat) (b : bitmap) (word_offset bit_offset nbits : Z)
    : option (option Z) :=
  match fuel with
  | O => None
  | S fuel' =>
      if 0 <? nbits then
        off ← buffer_ref (alloc_map b) 0;
        w ← read_u64 (b_contents (alloc_map b)) (off + 8 * word_offset);
        let w := if 0 <? bit_offset then Z.land w (not64 (MASK bit_offset)) else w in
        let w := if nbits <? 64 - bit_offset then Z.land w (MASK (bit_offset + nbits)) else w in
        let bit := lsb w in
        if negb (bit =? INVALID_PHYSICAL) then Some (Some (u64 (Z.shiftl word_offset 6) + bit))
        else
          let nbits := if 64 - bit_offset <=? nbits then nbits - (64 - bit_offset) else 0 in
          get_first_loop fuel' b (word_offset + 1) 0 nbits
      else Some None
  end.

Definition bitmap_range_get_first (b : bitmap) (start nbits : Z) : option (option Z) :=
  get_first_loop (S (Z.to_nat nbits)) b (Z.shiftr start 6) (Z.land start (MASK 6)) nbits.

(** The loop of [bitmap_alloc_internal] for strides of a word or more. *)
Fixpoint alloc_multi (fuel : nat) (b : bitmap) (nbits stride endbit bit : Z)
    : option (bitmap * option Z) :=
  match fuel with
  | O => None
  | S fuel' =>
      if bit <=? endbit then
        '(b, _) ← bitmap_extend b (bit + nbits);
        '(b, free) ← with_map b (fun c => for_range_in_map c bit nbits false false);
        if (free : bool) then
          '(b, _) ← with_map b (fun c => for_range_in_map c bit nbits true true);
          Some (b, Some bit)
        else alloc_multi fuel' b nbits stride endbit (bit + stride)
      else Some (b, None)
  end.

(** The [do] loop over one word: [Some] of the outcome when it returns from the
    function, [None] when it falls through. *)
Fixpoint alloc_word (fuel : nat) (b : bitmap) (nbits stride endbit bit bw mask word_offset : Z)
    : option (bitmap * option (option Z)) :=
  match fuel with
  | O => None
  | S fuel' =>
      if endbit <? bit + word_offset then Some (b, Some None)
      else if Z.land bw mask =? 0 then
        '(b, ok) ← with_map b (fun c => for_range_in_map c (bit + word_offset) nbits true true);
        _ ← kassert ok;
        Some (b, Some (Some (bit + word_offset)))
      else
        let mask := u64 (Z.shiftl mask stride) in
        let word_offset := word_offset + stride in
        if word_offset <? 64 then alloc_word fuel' b nbits stride endbit bit bw mask word_offset
        else Some (b, None)
  end.

Fixpoint alloc_words (fuel : nat) (b : bitmap) (nbits stride endbit bit : Z)
    : option (bitmap * option Z) :=
  match fuel with
  | O => None
  | S fuel' =>
      if bit <=? endbit then
        let word_offset := Z.land bit 63 in
        let bit := bit - word_offset in
        '(b, _) ← bitmap_extend b (bit + 64);
        let mask := u64 (Z.shiftl (MASK nbits) word_offset) in
        off ← buffer_ref (alloc_map b) 0;
        bw ← read_u64 (b_contents (alloc_map b)) (off + 8 * Z.shiftr bit 6);
        if bw =? infinity then alloc_words fuel' b nbits stride endbit (bit + 64)
        else
          '(b, o) ← alloc_word 65 b nbits stride endbit bit bw mask word_offset;
          match o with
          | Some r => Some (b, r)
          | None => alloc_words fuel' b nbits stride endbit (bit + 64)
          end
      else Some (b, None)
  end.

Definition bitmap_alloc_internal (b : bitmap) (nbits startbit endbit : Z)
    : option (bitmap * option Z) :=
  let order := find_order nbits in
  let stride := U64_FROM_BIT order in
  let endbit := Z.min endbit (maxbits b) in
  let bit := startbit in
  if endbit <? u64 (bit + nbits) then Some (b, None)
  else
    let endbit := endbit - nbits in
    let fuel := S (S (Z.to_nat (endbit - startbit))) in
    if 64 <=? stride then alloc_multi fuel b nbits stride endbit bit
    else alloc_words fuel b nbits stride endbit bit.

Definition bitmap_alloc (b : bitmap) (nbits : Z) : option (bitmap * option Z) :=
  bitmap_alloc_internal b nbits 0 (maxbits b).

Definition bitmap_alloc_within_range (b : bitmap) (nbits start end_ : Z)
    : option (bitmap * option Z) :=
  bitmap_alloc_internal b nbits start end_.

Definition bitmap_dealloc (b : bitmap) (bit size : Z) : option (bitmap * bool) :=
  if maxbits b <? u64 (bit + size) then Some (b, false)
  else
    '(b, ok) ← with_map b (fun c => for_range_in_map c bit size false true);
    if negb ok then Some (b, false)
    else
      '(b, _) ← with_map b (fun c => for_range_in_map c bit size true false);
      Some (b, true).

(** The structure; [None] inside is [INVALID_ADDRESS]. *)
Definition allocate_bitmap_internal (sizeof_bitmap length : Z) : option (option (Z * Z)) :=
  _ ← kassert (0 <? length);
  match allocate sizeof_bitmap with
  | None => Some None
  | Some _ =>
      let length := if length =? infinity then u64 (Z.shiftl (-1) 6) else length in
      Some (Some (length, Z.min ALLOC_EXTEND_BITS (pad length 64)))
  end.

Definition allocate_bitmap (sizeof_bitmap sizeof_buffer length : Z) : option (option bitmap) :=
  o ← allocate_bitmap_internal sizeof_bitmap length;
  match o with
  | None => Some None
  | Some (maxb, mapb) =>
      let mapbytes := Z.shiftr mapb 3 in
      match allocate_buffer sizeof_buffer mapbytes with
      | None => Some None
      | Some m =>
          off ← buffer_ref m 0;
          c ← write_bytes (b_contents m) off (replicate (Z.to_nat mapbytes) 0);
          m ← buffer_produce (set_contents m c) mapbytes;
          Some (Some {| maxbits := maxb; mapbits := mapb; map_heap := true; alloc_map := m |})
      end
  end.

Definition bitmap_wrap (sizeof_bitmap sizeof_buffer : Z) (map : list Z) (length : Z)
    : option (option bitmap) :=
  o ← allocate_bitmap_internal sizeof_bitmap length;
  match o with
  | None => Some None
  | Some (maxb, mapb) =>
      match allocate sizeof_buffer with
      | None => Some None
      | Some _ =>
          Some (Some {| maxbits := maxb; mapbits := mapb; map_heap := false;
                        alloc_map := wrap_buffer map (Z.shiftr maxb 3) |})
      end
  end.

(** The result of the first allocation is used without a test. *)
Definition bitmap_clone (sizeof_bitmap sizeof_buffer : Z) (b : bitmap) : option (option bitmap) :=
  if negb (map_heap b) then Some None
  else
    o ← allocate_bitmap_internal sizeof_bitmap (maxbits b);
    '(maxb, _) ← o;
    let mapbytes := Z.shiftr (mapbits b) 3 in
    match allocate_buffer sizeof_buffer mapbytes with
    | None => Some None
    | Some m =>
        doff ← buffer_ref m 0;
        off ← buffer_ref (alloc_map b) 0;
        src ← read_bytes (b_contents (alloc_map b)) off mapbytes;
        c ← write_bytes (b_contents m) doff src;
        m ← buffer_produce (set_contents m c) mapbytes;
        Some (Some {| maxbits := maxb; mapbits := mapbits b; map_heap := true; alloc_map := m |})
    end.

Definition bitmap_copy (dest src : bitmap) : option bitmap :=
  _ ← kassert (maxbits dest =? maxbits src);
  _ ← kassert (0 <? mapbits src);
  '(dest, _) ← bitmap_extend dest (mapbits src - 1);
  soff ← buffer_ref (alloc_map src) 0;
  bytes ← read_bytes (b_contents (alloc_map src)) soff (Z.shiftr (mapbits src) 3);
  doff ← buffer_ref (alloc_map dest) 0;
  c ← write_bytes (b_contents (alloc_map dest)) doff bytes;
  if mapbits src <? mapbits dest then
    let off := Z.shiftr (mapbits src) 3 in
    let len := Z.shiftr (mapbits dest - mapbits src) 3 in
    zoff ← buffer_ref (alloc_map dest) off;
    c ← write_bytes c zoff (replicate (Z.to_nat len) 0);
    Some (set_map dest (mapbits dest) (set_contents (alloc_map dest) c))
  else Some (set_map dest (mapbits dest) (set_contents (alloc_map dest) c)).
End Code.

(** ** Bits *)

(** Bit [i] of a byte array. *)
Definition bit (c : list Z) (i : Z) : bool :=
  Z.testbit (nth (Z.to_nat (i / 8)) c 0) (i mod 8).

(** The mask of the bits [lo, hi) of a word. *)
Definition mask_is (mask lo hi : Z) : Prop :=
  0 <= mask < 2 ^ 64 /\ forall j, 0 <= j < 64 -> Z.testbit mask j = (lo <=? j) && (j <? hi).

(** What an operation on the bits [lo, hi) does: setting makes them [val] and
    nothing else changes; checking tells whether they all are [val]. *)
Definition op_post (set val : bool) (c : list Z) (lo hi : Z) (o : list Z * bool) : Prop :=
  length o.1 = length c /\ Forall is_byte o.1 /\
  if set then o.2 = true /\
    forall i, 0 <= i -> bit o.1 i = if (lo <=? i) && (i <? hi) then val else bit c i
  else o.1 = c /\ (o.2 = true <-> forall i, lo <= i < hi -> bit c i = val).

Lemma div_mod_unique_add k j : 0 <= j < 64 -> (64 * k + j) / 8 = 8 * k + j / 8 /\ (64 * k + j) mod 8 = j mod 8.
Proof. intros Hj. pose proof (Z.div_mod j 8). pose proof (Z.mod_pos_bound j 8). split.
  - symmetry. apply Z.div_unique with (j mod 8); lia.
  - symmetry. apply Z.mod_unique with (8 * k + j / 8); lia.
Qed.

Lemma word_bit c k w j :
  read_u64 c (8 * k) = Some w -> Forall is_byte c -> 0 <= j < 64 ->
  Z.testbit w j = bit c (64 * k + j).
Proof.
  unfold read_u64. intros Hr Hb Hj. inv_bind.
  match goal with H : read_bytes _ _ _ = Some ?l |- _ => rename H into Hr, l into l0 end.
  pose proof (read_bytes_length _ _ _ _ Hr) as Hl. apply read_bytes_Some in Hr as (H0 & _ & H1 & ->).
  pose proof (Z.mod_pos_bound j 8). pose proof (Z.div_mod j 8).
  unfold bit. destruct (div_mod_unique_add k j Hj) as [-> ->].
  rewrite (Z.div_mod j 8) at 1 by lia.
  assert (0 <= j / 8 < 8) by lia. set (d := Z.to_nat (j / 8)).
  replace (nth (Z.to_nat (8 * k + j / 8)) c 0) with
    (nth d (take (Z.to_nat 8) (drop (Z.to_nat (8 * k)) c)) 0).
  - rewrite <- le_join_lookup by ((by apply Forall_take, Forall_drop) || lia).
    rewrite byte_of_testbit by lia. destruct (Z.ltb_spec (j mod 8) 8); [|lia]. simpl. f_equal. lia.
  - rewrite !nth_lookup. rewrite lookup_take_lt, lookup_drop by lia. do 2 f_equal. lia.
Qed.

Lemma read_word c k : 0 <= k -> 8 * k + 8 <= Z.of_nat (length c) -> Forall is_byte c ->
  exists w, read_u64 c (8 * k) = Some w /\ 0 <= w < 2 ^ 64.
Proof.
  intros Hk Hl Hb. unfold read_u64. destruct (read_bytes c (8 * k) 8) as [l|] eqn:E.
  - simpl. eexists. split; [done|]. pose proof (read_bytes_length _ _ _ _ E) as Hlen.
    apply read_bytes_Some in E as (_ & _ & _ & ->).
    pose proof (le_join_range (take (Z.to_nat 8) (drop (Z.to_nat (8 * k)) c))
      ltac:(by apply Forall_take, Forall_drop)) as Hr. rewrite Hlen in Hr. done.
  - exfalso. eapply eq_None_not_Some; [exact E|]. eexists. apply read_bytes_Some. repeat split; lia.
Qed.

Lemma write_word c k w :
  0 <= k -> 8 * k + 8 <= Z.of_nat (length c) -> Forall is_byte c -> 0 <= w < 2 ^ 64 ->
  exists c', write_u64 c (8 * k) w = Some c' /\ length c' = length c /\ Forall is_byte c' /\
    forall i, 0 <= i -> bit c' i = if (64 * k <=? i) && (i <? 64 * k + 64) then Z.testbit w (i - 64 * k) else bit c i.
Proof.
  intros Hk Hl Hb Hw. unfold write_u64.
  destruct (write_bytes c (8 * k) (le_split 8 w)) as [c'|] eqn:E.
  2: { exfalso. eapply eq_None_not_Some; [exact E|]. eexists. apply write_bytes_Some.
       rewrite length_le_split. repeat split; lia. }
  assert (Hb' : Forall is_byte c') by (eapply write_bytes_bytes; [done..|apply le_split_bytes]).
  exists c'. split; [done|]. split; [by eapply write_bytes_length|]. split; [done|].
  intros i Hi. pose proof (read_write_same _ _ _ _ E) as Hr. rewrite length_le_split in Hr.
  destruct (Z.leb_spec (64 * k) i); destruct (Z.ltb_spec i (64 * k + 64)); simpl.
  - assert (Hw' : read_u64 c' (8 * k) = Some w).
    { unfold read_u64. change (Z.of_nat 8) with 8 in Hr. rewrite Hr. cbn [mbind option_bind]. f_equal.
      rewrite le_join_split. apply Z.mod_small. done. }
    rewrite (word_bit c' k w (i - 64 * k)) by (done || lia). f_equal. lia.
  - assert (8 * k + 8 <= i / 8) by (apply Z.div_le_lower_bound; lia).
    unfold bit. f_equal. rewrite !nth_lookup. f_equal.
    apply write_bytes_Some in E as (_ & _ & ->).
    rewrite lookup_app_r by (rewrite length_take; lia).
    rewrite lookup_app_r by (rewrite length_take, length_le_split; lia).
    rewrite lookup_drop, length_take, length_le_split. f_equal. lia.
  - assert (i / 8 < 8 * k) by (apply Z.div_lt_upper_bound; lia).
    assert (0 <= i / 8) by (apply Z.div_pos; lia).
    unfold bit. f_equal. rewrite !nth_lookup. f_equal.
    apply write_bytes_Some in E as (_ & _ & ->).
    rewrite lookup_app_l by (rewrite length_take; lia). rewrite lookup_take_lt by lia. done.
  - lia.
Qed.

(** ** Masks *)

Lemma not64_testbit m j : 0 <= j < 64 -> Z.testbit (not64 m) j = negb (Z.testbit m j).
Proof.
  intros Hj. unfold not64. rewrite u64_testbit, Z.lnot_spec by lia.
  by destruct (Z.ltb_spec j 64); [|lia].
Qed.

Lemma land_range x y : 0 <= x < 2 ^ 64 -> 0 <= y -> 0 <= Z.land x y < 2 ^ 64.
Proof.
  intros Hx Hy. assert (E : u64 (Z.land x y) = Z.land x y); [|rewrite <- E; apply u64_range].
  apply Z.bits_inj'. intros i Hi. rewrite u64_testbit, Z.land_spec by done.
  destruct (Z.ltb_spec i 64); [done|]. by rewrite testbit_above.
Qed.

Lemma mask_full : mask_is infinity 0 64.
Proof.
  split; [done|]. intros j Hj. change infinity with (Z.ones 64). rewrite Z.testbit_ones by lia. done.
Qed.

Lemma mask_low n : 0 <= n < 64 -> mask_is (MASK n) 0 n.
Proof.
  intros Hn. split; [apply u64_range|]. intros j Hj. rewrite MASK_ones, Z.testbit_ones by lia. done.
Qed.

Lemma mask_land m lo hi m' lo' hi' :
  mask_is m lo hi -> mask_is m' lo' hi' -> mask_is (Z.land m m') (Z.max lo lo') (Z.min hi hi').
Proof.
  intros [Hr Hb] [Hr' Hb']. split; [apply land_range; lia|]. intros j Hj.
  rewrite Z.land_spec, Hb, Hb' by done.
  destruct (Z.leb_spec lo j), (Z.leb_spec lo' j), (Z.leb_spec (Z.max lo lo') j); try lia; simpl; try done;
    destruct (Z.ltb_spec j hi), (Z.ltb_spec j hi'), (Z.ltb_spec j (Z.min hi hi')); simpl; try lia; done.
Qed.

Lemma mask_high n : 0 <= n < 64 -> mask_is (not64 (MASK n)) n 64.
Proof.
  intros Hn. split; [apply u64_range|]. intros j Hj. rewrite not64_testbit by done.
  destruct (mask_low n Hn) as [_ ->]; [|done].
  destruct (Z.leb_spec 0 j), (Z.ltb_spec j n), (Z.leb_spec n j), (Z.ltb_spec j 64); try lia; done.
Qed.

(** ** Operations on ranges *)

Lemma word_op_spec c k mask lo hi set val :
  mask_is mask lo hi -> 0 <= lo -> hi <= 64 -> 0 <= k -> 8 * k + 8 <= Z.of_nat (length c) ->
  Forall is_byte c ->
  exists o, word_op c k mask set val = Some o /\ op_post set val c (64 * k + lo) (64 * k + hi) o.
Proof.
  intros [Hm Hbits] Hlo Hhi Hk Hl Hb. unfold word_op, op_post.
  destruct (read_word c k Hk Hl Hb) as (w & Er & Hw). rewrite Er. cbn [mbind option_bind].
  pose proof (fun j => word_bit c k w j Er Hb) as Hwb. destruct set.
  - set (w' := if val then Z.lor w mask else Z.land w (not64 mask)).
    assert (Hw' : 0 <= w' < 2 ^ 64).
    { unfold w'. destruct val; [by apply lor_range|]. apply land_range; [done|apply u64_range]. }
    destruct (write_word c k w' Hk Hl Hb Hw') as (c' & -> & Hl' & Hb' & Hi'). simpl.
    eexists. split; [done|]. simpl. do 3 (split; [done|]). intros i Hi. rewrite Hi' by done.
    destruct (Z.leb_spec (64 * k) i); destruct (Z.ltb_spec i (64 * k + 64)); simpl;
      try (destruct (Z.leb_spec (64 * k + lo) i), (Z.ltb_spec i (64 * k + hi)); simpl; done || lia).
    assert (E : i = 64 * k + (i - 64 * k)) by lia. rewrite E at 4. rewrite <- Hwb by lia.
    specialize (Hbits (i - 64 * k)).
    unfold w'. destruct val; rewrite ?Z.lor_spec, ?Z.land_spec, ?not64_testbit, Hbits by lia;
      destruct (Z.leb_spec lo (i - 64 * k)), (Z.ltb_spec (i - 64 * k) hi),
        (Z.leb_spec (64 * k + lo) i), (Z.ltb_spec i (64 * k + hi)); simpl; try lia;
      by rewrite ?orb_true_r, ?orb_false_r, ?andb_true_r, ?andb_false_r.
  - eexists. split; [done|]. cbn [fst snd]. do 3 (split; [done|]). rewrite Z.eqb_eq.
    set (x := if val then Z.land mask w else Z.lxor (Z.land mask w) mask).
    assert (Hx : forall j, 0 <= j < 64 -> Z.testbit x j = Z.testbit mask j && eqb (Z.testbit w j) val).
    { intros j Hj. unfold x. destruct val; rewrite ?Z.lxor_spec, Z.land_spec;
        by destruct (Z.testbit mask j), (Z.testbit w j). }
    split.
    + intros E i Hi. specialize (Hx (i - 64 * k)). rewrite E, Hbits in Hx by lia.
      destruct (Z.leb_spec lo (i - 64 * k)), (Z.ltb_spec (i - 64 * k) hi); try lia. simpl in Hx.
      replace i with (64 * k + (i - 64 * k)) by lia. rewrite <- Hwb by lia.
      symmetry in Hx. apply eqb_prop. apply Hx. lia.
    + intros Hall. apply Z.bits_inj'. intros j Hj. destruct (Z.lt_ge_cases j 64).
      * rewrite Hx, Hbits by lia. destruct (Z.leb_spec lo j), (Z.ltb_spec j hi); try done. simpl.
        rewrite Hwb, Hall by lia. apply eqb_reflx.
      * rewrite (testbit_above mask) by lia. unfold x. destruct val;
          rewrite ?Z.lxor_spec, Z.land_spec, (testbit_above mask) by lia; done.
Qed.

Lemma op_post_app set val c lo mid hi o o' :
  lo <= mid <= hi -> op_post set val c lo mid o -> o.2 = true ->
  op_post set val o.1 mid hi o' -> op_post set val c lo hi o'.
Proof.
  intros Hm (Hl & Hb & H) Ho (Hl' & Hb' & H'). unfold op_post. split; [congruence|]. split; [done|].
  destruct set.
  - destruct H as [_ H], H' as [Hr H']. split; [done|]. intros i Hi. rewrite H', H by done.
    destruct (Z.leb_spec lo i), (Z.leb_spec mid i), (Z.ltb_spec i mid), (Z.ltb_spec i hi); simpl; done || lia.
  - destruct H as [E H], H' as [E' H']. rewrite E in E', H'. split; [done|]. rewrite H'. pose proof (proj1 H Ho) as Hu. split.
    + intros Hi i Hr. destruct (Z.lt_ge_cases i mid); [apply Hu; lia|apply Hi; lia].
    + intros Hi i Hr. apply Hi. lia.
Qed.

Lemma op_post_stop set val c lo mid hi o :
  lo <= mid <= hi -> op_post set val c lo mid o -> o.2 = false ->
  op_post set val c lo hi (o.1, false).
Proof.
  intros Hm (Hl & Hb & H) Ho. split; [done|]. split; [done|]. rewrite Ho in H. destruct set.
  - by destruct H.
  - destruct H as [E H]. split; [done|]. simpl. split; [done|]. intros Hi. apply H. intros i Hr. apply Hi. lia.
Qed.

Lemma op_post_empty set val c lo : Forall is_byte c -> op_post set val c lo lo (c, true).
Proof.
  intros Hb. split; [done|]. split; [done|]. destruct set; simpl.
  - split; [done|]. intros i Hi. destruct (Z.leb_spec lo i), (Z.ltb_spec i lo); simpl; done || lia.
  - split; [done|]. split; [|done]. intros _ i Hi. lia.
Qed.

Lemma words_op_spec n set val : forall c k,
  0 <= k -> 8 * (k + Z.of_nat n) <= Z.of_nat (length c) -> Forall is_byte c ->
  exists o, words_op n c k set val = Some o /\ op_post set val c (64 * k) (64 * (k + Z.of_nat n)) o.
Proof.
  induction n as [|n IH]; intros c k Hk Hl Hb.
  - eexists. split; [done|]. rewrite Z.add_0_r. by apply op_post_empty.
  - cbn [words_op].
    destruct (word_op_spec c k infinity 0 64 set val) as ([c1 r1] & -> & Hp); [apply mask_full|lia|lia|lia|lia|done|].
    cbn [mbind option_bind]. rewrite Z.add_0_r in Hp. destruct r1; cbn [negb].
    + destruct (IH c1 (k + 1)) as (o & -> & Ho); [lia| |apply Hp|].
      { destruct Hp as (Hl1 & _). simpl in Hl1. lia. }
      eexists. split; [done|]. eapply op_post_app; [|exact Hp|done|].
      2: { replace (64 * k + 64) with (64 * (k + 1)) by lia.
           replace (64 * (k + Z.of_nat (S n))) with (64 * (k + 1 + Z.of_nat n)) by lia. exact Ho. } lia.
    + eexists. split; [done|]. eapply (op_post_stop _ _ _ _ _ _ (c1, false)); [|exact Hp|done]. lia.
Qed.

Lemma land_63 x : Z.land x BITMAP_WORDMASK = x mod 64.
Proof. change BITMAP_WORDMASK with (Z.ones 6). by rewrite Z.land_ones. Qed.

Lemma shiftr_6 x : Z.shiftr x BITMAP_WORDLEN_LOG = x / 64.
Proof. unfold BITMAP_WORDLEN_LOG. by rewrite Z.shiftr_div_pow2. Qed.

Lemma shiftr_word x : 0 <= x < 2 ^ 64 ->
  Z.shiftr (Z.land x (not64 BITMAP_WORDMASK)) BITMAP_WORDLEN_LOG = x / 64.
Proof.
  intros Hx. rewrite <- shiftr_6. apply Z.bits_inj'. intros j Hj. unfold BITMAP_WORDLEN_LOG.
  rewrite !Z.shiftr_spec, Z.land_spec by lia. destruct (Z.lt_ge_cases (j + 6) 64).
  - rewrite not64_testbit by lia. change BITMAP_WORDMASK with (Z.ones 6).
    rewrite Z.testbit_ones by lia. destruct (Z.ltb_spec (j + 6) 6); [lia|].
    by rewrite andb_false_r, andb_true_r.
  - by rewrite !(testbit_above x) by lia.
Qed.

(** The mask of the first word. *)
Lemma first_mask start nbits :
  0 <= start -> 0 < nbits -> start + nbits < 2 ^ 62 ->
  let head := Z.land start BITMAP_WORDMASK in
  let tail := Z.land (start + nbits) BITMAP_WORDMASK in
  let single := head + nbits <=? BITMAP_WORDLEN in
  let mask := if negb (head =? 0) then Z.land infinity (not64 (MASK head)) else infinity in
  let mask := if negb (tail =? 0) && single then Z.land mask (MASK tail) else mask in
  mask_is mask (start mod 64) (Z.min 64 (start mod 64 + nbits)).
Proof.
  intros Hs Hn Hb. cbv zeta. rewrite !land_63. unfold BITMAP_WORDLEN.
  pose proof (Z.mod_pos_bound start 64). pose proof (Z.mod_pos_bound (start + nbits) 64).
  set (m1 := if negb (start mod 64 =? 0) then _ else _).
  assert (Hm1 : mask_is m1 (start mod 64) 64).
  { unfold m1. destruct (Z.eqb_spec (start mod 64) 0) as [->|]; [apply mask_full|]. simpl.
    pose proof (mask_land _ _ _ _ _ _ mask_full (mask_high (start mod 64) ltac:(lia))) as Hm.
    rewrite Z.max_r, Z.min_l in Hm by lia. exact Hm. }
  destruct (Z.leb_spec (start mod 64 + nbits) 64) as [Hsg|Hsg]; rewrite ?andb_true_r, ?andb_false_r.
  - assert (Et : (start + nbits) mod 64 = if start mod 64 + nbits =? 64 then 0 else start mod 64 + nbits).
    { pose proof (Z.div_mod start 64). case_test; symmetry.
      - apply Z.mod_unique with (start / 64 + 1); lia.
      - apply Z.mod_unique with (start / 64); lia. }
    rewrite Et. destruct (Z.eqb_spec (start mod 64 + nbits) 64) as [E64|E64]; simpl.
    + by rewrite E64.
    + destruct (Z.eqb_spec (start mod 64 + nbits) 0); [lia|]. simpl.
      pose proof (mask_land _ _ _ _ _ _ Hm1 (mask_low (start mod 64 + nbits) ltac:(lia))) as Hm.
      rewrite Z.max_l in Hm by lia. exact Hm.
  - rewrite Z.min_l by lia. exact Hm1.
Qed.

Lemma for_range_spec c start nbits set val :
  Forall is_byte c -> (8 | Z.of_nat (length c)) -> 0 <= start -> 0 <= nbits -> start + nbits < 2 ^ 62 ->
  start + nbits <= 8 * Z.of_nat (length c) ->
  exists o, for_range_in_map c start nbits set val = Some o /\
    op_post set val c start (start + nbits) o.
Proof.
  intros Hb [q Hq] Hs Hn Hlt Hl. unfold for_range_in_map. rewrite (u64_small (start + nbits)) by lia.
  destruct (Z.eqb_spec nbits 0) as [->|Hn0].
  { eexists. split; [done|]. rewrite Z.add_0_r. by apply op_post_empty. }
  pose proof (first_mask start nbits Hs ltac:(lia) Hlt) as Hmask. cbv zeta in Hmask.
  rewrite shiftr_word, !shiftr_6 by lia. set (mask := if _ : bool then _ else _) in Hmask |- *.
  pose proof (Z.mod_pos_bound start 64). pose proof (Z.div_mod start 64).
  pose proof (Z.mod_pos_bound (start + nbits) 64). pose proof (Z.div_mod (start + nbits) 64).
  assert (0 <= start / 64) by (apply Z.div_pos; lia).
  destruct (word_op_spec c (start / 64) mask _ _ set val Hmask) as ([c1 r1] & -> & Hp1); [lia..|done|].
  replace (64 * (start / 64) + start mod 64) with start in Hp1 by lia.
  cbn [mbind option_bind]. rewrite !land_63. unfold BITMAP_WORDLEN.
  destruct (Z.leb_spec (start mod 64 + nbits) 64) as [Hsg|Hsg].
  { rewrite orb_true_r. eexists. split; [done|].
    replace (start + nbits) with (64 * (start / 64) + Z.min 64 (start mod 64 + nbits)) by lia. done. }
  rewrite orb_false_r. destruct r1; cbn [negb].
  2: { eexists. split; [done|]. eapply (op_post_stop _ _ _ _ _ _ (c1, false)); [|exact Hp1|done]. lia. }
  assert (Ew : (start + (64 - start mod 64)) / 64 = start / 64 + 1).
  { symmetry. apply Z.div_unique with 0; lia. }
  rewrite Ew. pose proof Hp1 as (Hl1 & Hb1 & _). cbn [fst snd] in Hl1, Hb1.
  set (e := (start + nbits) / 64) in *.
  destruct (words_op_spec (Z.to_nat (e - (start / 64 + 1))) set val c1 (start / 64 + 1))
    as ([c2 r2] & -> & Hp2); [lia|lia|done|]. cbn [mbind option_bind].
  assert (Hp12 : r2 = true -> op_post set val c start (64 * e) (c2, r2)).
  { intros ->. eapply op_post_app; [|exact Hp1|done|cbn [fst]].
    2: { replace (64 * (start / 64) + Z.min 64 (start mod 64 + nbits)) with (64 * (start / 64 + 1)) by lia.
         replace (64 * e) with (64 * (start / 64 + 1 + Z.of_nat (Z.to_nat (e - (start / 64 + 1))))) by lia.
         exact Hp2. } lia. }
  destruct r2; cbn [negb].
  2: { eexists. split; [done|]. eapply op_post_app; [|exact Hp1|done|cbn [fst]].
       2: { eapply (op_post_stop _ _ _ _ _ _ (c2, false)); [|rewrite Z.min_l by lia;
              replace (64 * (start / 64) + 64) with (64 * (start / 64 + 1)) by lia; exact Hp2|done]. lia. }
       lia. }
  specialize (Hp12 eq_refl). pose proof Hp12 as (Hl2 & Hb2 & _). cbn [fst snd] in Hl2, Hb2.
  destruct (Z.eqb_spec ((start + nbits) mod 64) 0) as [Et|Et]; cbn [negb].
  { eexists. split; [done|]. replace (start + nbits) with (64 * e) by lia. done. }
  destruct (word_op_spec c2 e (MASK ((start + nbits) mod 64)) 0 ((start + nbits) mod 64) set val)
    as ([c3 r3] & -> & Hp3); [apply mask_low; lia|lia|lia|lia| |done|].
  { assert (e < q); [|lia]. apply Z.div_lt_upper_bound; [lia|].
    destruct (Z.eq_dec (start + nbits) (64 * q)) as [E|]; [|lia].
    exfalso. apply Et. rewrite E, Z.mul_comm. apply Z.mod_mul. lia. }
  cbn [mbind option_bind]. eexists. split; [done|].
  eapply op_post_app; [|exact Hp12|done|]. 2: { cbn [fst].
    replace (64 * e) with (64 * e + 0) by lia. replace (start + nbits) with (64 * e + (start + nbits) mod 64) by lia.
    exact Hp3. } lia.
Qed.

(** ** Well-formed bitmaps *)

Record bitmap_ok (b : bitmap) : Prop := {
  bm_buffer : buffer_ok (alloc_map b);
  bm_start : b_start (alloc_map b) = 0;
  bm_end : 8 * b_end (alloc_map b) = mapbits b;
  bm_words : (64 | mapbits b);
  bm_align : (8 | b_length (alloc_map b));
  bm_owned : b_wrapped (alloc_map b) = false;
  bm_small : mapbits b < 2 ^ 34;
}.

(** Bit [i] of a bitmap; what lies beyond the map is clear. *)
Definition mapbit (b : bitmap) (i : Z) : bool :=
  (i <? mapbits b) && bit (b_contents (alloc_map b)) i.

(** The bits [p, p + n) are clear. *)
Definition clear_at (b : bitmap) (p n : Z) : Prop := forall i, p <= i < p + n -> mapbit b i = false.

(** [b'] is [b] with the bits [p, p + n) made [val]. *)
Definition updated (b : bitmap) (p n : Z) (val : bool) (b' : bitmap) : Prop :=
  bitmap_ok b' /\ maxbits b' = maxbits b /\
  forall i, 0 <= i -> mapbit b' i = if (p <=? i) && (i <? p + n) then val else mapbit b i.

Section Proofs.
Context {h : Heap} {hl : HeapLaws h}.
Implicit Types b : bitmap.

Lemma bit_take (c : list Z) n i : 0 <= i < 8 * Z.of_nat n -> bit (take n c) i = bit c i.
Proof.
  intros Hi. assert (0 <= i / 8 < Z.of_nat n).
  { split; [apply Z.div_pos; lia|apply Z.div_lt_upper_bound; lia]. }
  unfold bit. f_equal. rewrite !nth_lookup, lookup_take_lt by lia. done.
Qed.

Lemma bit_zeros (c : list Z) n i :
  8 * Z.of_nat (length c) <= i -> bit (c ++ replicate n 0) i = false.
Proof.
  intros Hi. assert (Z.of_nat (length c) <= i / 8) by (apply Z.div_le_lower_bound; lia).
  unfold bit. rewrite nth_lookup, lookup_app_r by lia.
  destruct (replicate n 0 !! _) as [x|] eqn:E; [|apply Z.testbit_0_l].
  apply lookup_replicate in E as [-> _]. apply Z.testbit_0_l.
Qed.

Lemma bitmap_map_length b : bitmap_ok b -> length (b_contents (alloc_map b)) = Z.to_nat (b_length (alloc_map b)).
Proof. intros [[] ? ? ? ? ? ?]. lia. Qed.

Lemma mapbit_payload b i : bitmap_ok b -> 0 <= i -> i < mapbits b ->
  mapbit b i = bit (payload (alloc_map b)) i.
Proof.
  intros [Hb Hs He ? ? ? ?] Hi Hm. unfold mapbit, payload. rewrite Hs, drop_0, Z.sub_0_r.
  destruct (Z.ltb_spec i (mapbits b)); [|lia]. rewrite bit_take by lia. done.
Qed.

Lemma pad_spec x : 0 < x < 2 ^ 62 -> (4096 | pad x ALLOC_EXTEND_BITS) /\
  x <= pad x ALLOC_EXTEND_BITS < x + 4096.
Proof. intros Hx. exact (pad_pow2 x 12 Hx ltac:(lia)). Qed.

(** Growing the map changes no bit; the first failure is that of the heap. *)
Lemma bitmap_extend_spec b i :
  bitmap_ok b -> 0 <= i < 2 ^ 34 - 4096 ->
  exists b' r, bitmap_extend b i = Some (b', r) /\ bitmap_ok b' /\ maxbits b' = maxbits b /\
    map_heap b' = map_heap b /\
    (forall j, 0 <= j -> mapbit b' j = mapbit b j) /\ mapbits b <= mapbits b' /\
    (HeapTotal h -> i < mapbits b').
Proof.
  intros Hok Hi. pose proof Hok as [Hb Hs He Hw Ha Ho Hsm]. unfold bitmap_extend.
  destruct (Z.leb_spec (mapbits b) i) as [Hle|Hle]; [|by exists b, false].
  rewrite (u64_small (i + 1)) by lia. pose proof (pad_spec (i + 1) ltac:(lia)) as [[q Hq] Hpad].
  set (mb := pad (i + 1) ALLOC_EXTEND_BITS) in *.
  assert (Emb : Z.shiftr mb 3 = 512 * q).
  { rewrite Z.shiftr_div_pow2 by lia. rewrite Hq. change (2 ^ 3) with 8.
    symmetry. apply Z.div_unique with 0; lia. }
  unfold extend_total. rewrite Emb, s32_small, u64_small by lia.
  pose proof Hb as [Hbw Hbe Hbl Hbc Hbb].
  destruct (Z.ltb_spec (b_end (alloc_map b)) (512 * q)); [|lia].
  rewrite u64_small by lia.
  destruct (extend_spec (alloc_map b) (512 * q - b_end (alloc_map b)) Hb) as (m & r & E & Hm & Hp & Hr); [lia..|].
  destruct (buffer_extend_shape _ _ _ _ E Hb Hs) as (Hs' & Ho' & Hd & Hf); [lia..|].
  rewrite E. cbn [mbind option_bind]. pose proof (payload_length _ Hb) as Hpl.
  pose proof (payload_length _ Hm) as Hpl'. rewrite Hp in Hpl'.
  destruct r; cbn [negb].
  - destruct (put_spec m (replicate (Z.to_nat (512 * q - b_end m)) 0) Hm) as (c & Ec & Hok' & Hp').
    { by apply Forall_replicate. } { rewrite length_replicate. lia. }
    rewrite u64_small by lia. rewrite Ec. cbn [mbind option_bind].
    rewrite length_replicate, u64_small in Hok', Hp' by lia.
    replace (b_end m + Z.of_nat (Z.to_nat (512 * q - b_end m))) with (512 * q) in Hok', Hp' by lia.
    set (m' := set_window _ _ _) in *. eexists _, true. split; [done|].
    assert (Hok2 : bitmap_ok (set_map b mb m')).
    { split; simpl; [done..| | | | |]; try lia; try congruence.
      - exists (64 * q). lia.
      - apply Hd; [done|]. exists (64 * q). lia. }
    split; [done|]. do 2 (split; [done|]). split; [|simpl; split; [lia|]; intros _; lia].
    intros j Hj. destruct (Z.lt_ge_cases j (mapbits b)).
    + rewrite !mapbit_payload by (done || simpl; lia). simpl. rewrite Hp', Hp. unfold bit. f_equal.
      assert (0 <= j / 8 < b_end (alloc_map b)).
      { split; [apply Z.div_pos; lia|apply Z.div_lt_upper_bound; lia]. }
      rewrite app_nth1 by lia. done.
    + replace (mapbit b j) with false by (unfold mapbit; destruct (Z.ltb_spec j (mapbits b)); [lia|done]).
      destruct (Z.lt_ge_cases j mb).
      * rewrite mapbit_payload by (done || simpl; lia). simpl. rewrite Hp', Hp. apply bit_zeros. lia.
      * unfold mapbit. simpl. destruct (Z.ltb_spec j mb); [lia|done].
  - subst m. eexists _, false. split; [done|].
    assert (Eb : set_map b (mapbits b) (alloc_map b) = b) by (by destruct b). rewrite Eb.
    do 3 (split; [done|]). split; [done|]. split; [lia|]. intros Ht.
    destruct (Hf eq_refl) as [?|(n & Hn & En)]; [congruence|]. by destruct (Ht n Hn).
Qed.

(** The range operations on a bitmap. *)
Lemma range_op_spec b start nbits set val :
  bitmap_ok b -> 0 <= start -> 0 <= nbits -> start + nbits <= mapbits b ->
  exists b' r, with_map b (fun c => for_range_in_map c start nbits set val) = Some (b', r) /\
    if set then r = true /\ mapbits b' = mapbits b /\ updated b start nbits val b'
    else b' = b /\ (r = true <-> forall i, start <= i < start + nbits -> mapbit b i = val).
Proof.
  intros Hok Hst Hn Hle. pose proof Hok as [Hb Hs He Hw Ha Ho Hsm]. pose proof Hb as [Hbw Hbe Hbl Hbc Hbb].
  unfold with_map. rewrite Hs. unfold kassert. destruct (Z.leb_spec 0 (b_length (alloc_map b))); [|lia].
  cbn [mbind option_bind]. rewrite drop_0.
  destruct (for_range_spec (b_contents (alloc_map b)) start nbits set val)
    as ([c r] & -> & Hl & Hby & Hp); [done|by rewrite Hbc|lia..|].
  cbn [mbind option_bind fst snd take app] in *. eexists _, r. split; [done|].
  assert (Hok' : bitmap_ok (set_map b (mapbits b) (set_contents (alloc_map b) c))).
  { split; simpl; try done. split; simpl; try done; lia. }
  destruct set; destruct Hp as [Hr Hp].
  - split; [done|]. split; [done|]. split; [done|]. split; [done|].
    intros i Hi. unfold mapbit. simpl. rewrite Hp by done.
    destruct (Z.leb_spec start i), (Z.ltb_spec i (start + nbits)), (Z.ltb_spec i (mapbits b)); simpl; done || lia.
  - subst c. split; [by destruct b as [? ? ? []]|]. rewrite Hp.
    split; intros Hi i Hir; specialize (Hi i Hir); unfold mapbit in *;
      destruct (Z.ltb_spec i (mapbits b)); done || lia.
Qed.

(** ** Allocation *)

(** First fit among the positions [start + k * stride] up to [endb]. *)
Definition alloc_post (b : bitmap) (nbits stride endb start : Z) (o : bitmap * option Z) : Prop :=
  match o.2 with
  | Some p => start <= p <= endb /\ (stride | p - start) /\ clear_at b p nbits /\
      updated b p nbits true o.1 /\
      forall q, start <= q < p -> (stride | q - start) -> ~ clear_at b q nbits
  | None => updated b 0 0 true o.1 /\
      forall q, start <= q <= endb -> (stride | q - start) -> ~ clear_at b q nbits
  end.

Definition same_bits (b b' : bitmap) : Prop :=
  maxbits b' = maxbits b /\ forall j, 0 <= j -> mapbit b' j = mapbit b j.

Lemma same_clear b b' p n : same_bits b b' -> 0 <= p -> clear_at b' p n <-> clear_at b p n.
Proof.
  intros [_ H] Hp. unfold clear_at.
  split; intros Hc i Hi; [rewrite <- H by lia|rewrite H by lia]; by apply Hc.
Qed.

Lemma same_updated b b1 p n val b2 : same_bits b b1 -> updated b1 p n val b2 -> updated b p n val b2.
Proof.
  intros [Hm H] (Hok & Hm' & Hu). split; [done|]. split; [congruence|].
  intros i Hi. rewrite Hu, H by done. done.
Qed.

Lemma alloc_post_same b b1 nbits stride endb start o :
  same_bits b b1 -> 0 <= start -> alloc_post b1 nbits stride endb start o ->
  alloc_post b nbits stride endb start o.
Proof.
  intros Hs H0. unfold alloc_post. destruct (o.2) as [p|].
  - intros (Hr & Hd & Hc & Hu & Hn). split; [done|]. split; [done|].
    split; [apply (same_clear b b1); done || lia|]. split; [by eapply same_updated|].
    intros q Hq Hdq. rewrite <- (same_clear b b1) by (done || lia). by apply Hn.
  - intros [Hu Hn]. split; [by eapply same_updated|].
    intros q Hq Hdq. rewrite <- (same_clear b b1) by (done || lia). by apply Hn.
Qed.

Lemma alloc_post_skip b nbits stride endb start start' o :
  start <= start' -> (stride | start' - start) ->
  (forall q, start <= q < start' -> (stride | q - start) -> q <= endb -> ~ clear_at b q nbits) ->
  alloc_post b nbits stride endb start' o -> alloc_post b nbits stride endb start o.
Proof.
  intros Hle Hd Hno. unfold alloc_post.
  assert (Hsub : forall q, (stride | q - start) -> (stride | q - start')).
  { intros q Hq. replace (q - start') with (q - start - (start' - start)) by lia. by apply Z.divide_sub_r. }
  destruct (o.2) as [p|].
  - intros (Hr & Hdp & Hc & Hu & Hn). split; [lia|]. split.
    { replace (p - start) with (p - start' + (start' - start)) by lia. by apply Z.divide_add_r. }
    split; [done|]. split; [done|]. intros q Hq Hdq.
    destruct (Z.lt_ge_cases q start'); [apply Hno; lia || done|]. apply Hn; [lia|auto].
  - intros [Hu Hn]. split; [done|]. intros q Hq Hdq.
    destruct (Z.lt_ge_cases q start'); [apply Hno; lia || done|]. apply Hn; [lia|auto].
Qed.

Lemma stride_gap stride start q : 0 < stride -> start <= q < start + stride -> (stride | q - start) -> q = start.
Proof. intros Hs Hq [k Hk]. assert (k = 0) by nia. subst. lia. Qed.

Context {ht : HeapTotal h}.

Lemma extend_same b i : bitmap_ok b -> 0 <= i < 2 ^ 34 - 4096 ->
  exists b' r, bitmap_extend b i = Some (b', r) /\ bitmap_ok b' /\ same_bits b b' /\ i < mapbits b'.
Proof.
  intros Hok Hi. destruct (bitmap_extend_spec b i Hok Hi) as (b' & r & E & Hok' & Hm & _ & Hs & _ & Hl).
  exists b', r. split; [done|]. split; [done|]. split; [by split|by apply Hl].
Qed.

Lemma alloc_post_end b nbits stride endb start :
  bitmap_ok b -> endb < start -> alloc_post b nbits stride endb start (b, None).
Proof.
  intros Hok Hlt. split; [|intros q Hq; lia]. split; [done|]. split; [done|].
  intros i Hi. destruct (Z.leb_spec 0 i), (Z.ltb_spec i (0 + 0)); simpl; done || lia.
Qed.

Lemma alloc_post_here b nbits stride endb start b' :
  start <= endb -> clear_at b start nbits -> updated b start nbits true b' ->
  alloc_post b nbits stride endb start (b', Some start).
Proof.
  intros Hle Hc Hu. split; [simpl; lia|]. rewrite Z.sub_diag. split; [apply Z.divide_0_r|].
  split; [done|]. split; [done|]. intros q Hq. lia.
Qed.

Lemma alloc_multi_spec nbits stride endb fuel : forall b bit,
  0 < stride -> 0 < nbits -> 0 <= bit -> endb + nbits < 2 ^ 33 -> bitmap_ok b ->
  Z.max 0 (endb - bit + 1) < Z.of_nat fuel ->
  exists o, alloc_multi fuel b nbits stride endb bit = Some o /\ alloc_post b nbits stride endb bit o.
Proof.
  induction fuel as [|fuel IH]; intros b bit Hst Hn Hbit Hend Hok Hfuel; [lia|]. cbn [alloc_multi].
  destruct (Z.leb_spec bit endb) as [Hle|Hle]; [|by eexists; split; [done|apply alloc_post_end]].
  destruct (extend_same b (bit + nbits) Hok) as (b1 & r & -> & Hok1 & Hs1 & Hl1); [lia|].
  cbn [mbind option_bind].
  destruct (range_op_spec b1 bit nbits false false Hok1) as (b2 & free & -> & -> & Hfree); [lia..|].
  cbn [mbind option_bind]. destruct free.
  - destruct (range_op_spec b1 bit nbits true true Hok1) as (b3 & r3 & -> & _ & _ & Hu); [lia..|].
    cbn [mbind option_bind]. eexists. split; [done|]. apply (alloc_post_same b b1); [done..|].
    apply alloc_post_here; [done|exact (proj1 Hfree eq_refl)|done].
  - destruct (IH b1 (bit + stride)) as (o & -> & Ho); [lia..|done|lia|].
    eexists. split; [done|]. apply (alloc_post_same b b1); [done..|].
    eapply alloc_post_skip; [| | |exact Ho]; [lia|exists 1; lia|].
    intros q Hq Hd _. apply stride_gap in Hq as ->; [|done..]. intros Hc.
    by pose proof (proj2 Hfree Hc).
Qed.

Lemma mask_shift m lo hi s : mask_is m lo hi -> 0 <= lo -> hi <= 64 -> 0 <= s ->
  mask_is (u64 (Z.shiftl m s)) (lo + s) (hi + s).
Proof.
  intros [Hr Hb] Hlo Hhi Hs. split; [apply u64_range|]. intros j Hj.
  rewrite u64_testbit, Z.shiftl_spec by lia. destruct (Z.ltb_spec j 64); [|lia]. simpl.
  destruct (Z.lt_ge_cases j s).
  - rewrite Z.testbit_neg_r by lia. destruct (Z.leb_spec (lo + s) j); [lia|done].
  - rewrite Hb by lia. destruct (Z.leb_spec lo (j - s)), (Z.leb_spec (lo + s) j),
      (Z.ltb_spec (j - s) hi), (Z.ltb_spec j (hi + s)); simpl; done || lia.
Qed.

(** The test on a word of the map. *)
Lemma word_clear b bit bw mask wo n :
  bitmap_ok b -> (64 | bit) -> 0 <= bit -> bit + 64 <= mapbits b ->
  read_u64 (b_contents (alloc_map b)) (8 * (bit / 64)) = Some bw ->
  mask_is mask wo (wo + n) -> 0 <= wo -> wo + n <= 64 ->
  Z.land bw mask = 0 <-> clear_at b (bit + wo) n.
Proof.
  intros Hok [q Hq] H0 Hm Hr [Hrg Hb] Hwo Hn. pose proof Hok as [Hbuf _ _ _ _ _ _].
  assert (Eq : bit / 64 = q) by (symmetry; apply Z.div_unique with 0; lia). rewrite Eq in Hr.
  pose proof (fun j => word_bit _ q bw j Hr (ok_bytes _ Hbuf)) as Hw.
  split.
  - intros Hz i Hi. unfold mapbit. destruct (Z.ltb_spec i (mapbits b)); [|done]. simpl.
    replace i with (64 * q + (i - bit)) by lia. rewrite <- Hw by lia.
    assert (Hzb : Z.testbit (Z.land bw mask) (i - bit) = false) by (rewrite Hz; apply Z.testbit_0_l).
    rewrite Z.land_spec, Hb in Hzb by lia.
    destruct (Z.leb_spec wo (i - bit)), (Z.ltb_spec (i - bit) (wo + n)); try lia.
    by rewrite andb_true_r in Hzb.
  - intros Hc. apply Z.bits_inj'. intros j Hj. rewrite Z.land_spec, Z.testbit_0_l.
    destruct (Z.lt_ge_cases j 64); [|by rewrite (testbit_above mask), andb_false_r by lia].
    rewrite Hb by lia. destruct (Z.leb_spec wo j), (Z.ltb_spec j (wo + n)); rewrite ?andb_false_r; try done.
    rewrite andb_true_r, Hw by lia. specialize (Hc (bit + j) ltac:(lia)). unfold mapbit in Hc.
    destruct (Z.ltb_spec (bit + j) (mapbits b)); [|lia]. simpl in Hc. rewrite <- Hc. f_equal. lia.
Qed.

(** One word of the map: either the search ends there, or no position of it fits. *)
Lemma alloc_word_spec b nbits stride endb bit bw fuel : forall mask wo,
  bitmap_ok b -> (64 | bit) -> 0 <= bit -> bit + 64 <= mapbits b ->
  read_u64 (b_contents (alloc_map b)) (8 * (bit / 64)) = Some bw ->
  mask_is mask wo (wo + nbits) -> 0 <= wo < 64 -> (stride | wo) -> (stride | 64) ->
  0 < nbits <= stride -> 64 - wo <= Z.of_nat fuel ->
  exists b' o, alloc_word fuel b nbits stride endb bit bw mask wo = Some (b', o) /\
    match o with
    | Some r => alloc_post b nbits stride endb (bit + wo) (b', r)
    | None => b' = b /\ forall q, bit + wo <= q < bit + 64 -> (stride | q - (bit + wo)) -> ~ clear_at b q nbits
    end.
Proof.
  induction fuel as [|fuel IH]; intros mask wo Hok H64 Hbit Hm Hr Hmask Hwo Hdw Hd64 Hn Hf; [lia|].
  cbn [alloc_word]. destruct (Z.ltb_spec endb (bit + wo)) as [He|He].
  { eexists b, (Some None). split; [done|]. by apply alloc_post_end. }
  assert (Hfit : wo + stride <= 64) by (destruct Hdw as [k ->], Hd64 as [l E]; assert (k < l) by nia; nia).
  pose proof (word_clear b bit bw mask wo nbits Hok H64 Hbit Hm Hr Hmask ltac:(lia) ltac:(lia)) as Hcl.
  destruct (Z.eqb_spec (Z.land bw mask) 0) as [Ez|Ez].
  { destruct (range_op_spec b (bit + wo) nbits true true Hok) as (b3 & r3 & -> & -> & _ & Hu); [lia..|].
    eexists b3, (Some (Some (bit + wo))). split; [done|]. apply alloc_post_here; [done| |done].
    exact (proj1 Hcl Ez). }
  assert (Hnc : ~ clear_at b (bit + wo) nbits) by (intros Hc; apply Ez; exact (proj2 Hcl Hc)).
  assert (Hsd : (stride | bit + (wo + stride) - (bit + wo))) by (exists 1; lia).
  assert (Hgap : forall q, bit + wo <= q < bit + (wo + stride) -> (stride | q - (bit + wo)) ->
    ~ clear_at b q nbits).
  { intros q Hq Hd. replace q with (bit + wo); [done|]. symmetry. apply (stride_gap stride); [lia..|done]. }
  destruct (Z.ltb_spec (wo + stride) 64) as [Hlt|Hlt].
  - destruct (IH (u64 (Z.shiftl mask stride)) (wo + stride)) as (b' & o & -> & Ho); try done; try lia.
    { replace (wo + stride + nbits) with (wo + nbits + stride) by lia. apply mask_shift; [done|lia..]. }
    { apply Z.divide_add_r; [done|apply Z.divide_refl]. }
    exists b', o. split; [done|]. destruct o as [r|].
    + eapply alloc_post_skip; [| | |exact Ho]; [lia|done|]. intros q Hq Hd _. by apply Hgap.
    + destruct Ho as [-> Ho]. split; [done|]. intros q Hq Hd.
      destruct (Z.lt_ge_cases q (bit + (wo + stride))); [apply Hgap; done || lia|]. apply Ho; [lia|].
      replace (q - (bit + (wo + stride))) with (q - (bit + wo) - (bit + (wo + stride) - (bit + wo))) by lia.
      by apply Z.divide_sub_r.
  - exists b, None. split; [done|]. split; [done|]. intros q Hq. apply Hgap. lia.
Qed.

Lemma full_word b bit wo nbits :
  bitmap_ok b -> (64 | bit) -> 0 <= bit -> bit + 64 <= mapbits b ->
  read_u64 (b_contents (alloc_map b)) (8 * (bit / 64)) = Some infinity -> 0 < nbits ->
  0 <= wo -> forall q, bit + wo <= q < bit + 64 -> ~ clear_at b q nbits.
Proof.
  intros Hok [k Hk] Hbit Hm Hr Hn Hwo q Hq Hc. specialize (Hc q ltac:(lia)). unfold mapbit in Hc.
  destruct (Z.ltb_spec q (mapbits b)); [|lia]. simpl in Hc.
  assert (Ek : bit / 64 = k) by (symmetry; apply Z.div_unique with 0; lia). rewrite Ek in Hr.
  replace q with (64 * k + (q - bit)) in Hc by lia.
  rewrite <- (word_bit _ _ _ _ Hr (ok_bytes _ (bm_buffer _ Hok))) in Hc by lia.
  destruct mask_full as [_ Hf]. rewrite Hf in Hc by lia.
  destruct (Z.leb_spec 0 (q - bit)), (Z.ltb_spec (q - bit) 64); done || lia.
Qed.

Lemma alloc_words_spec nbits stride endb fuel : forall b bit,
  0 < nbits <= stride -> nbits < 64 -> (stride | 64) -> (stride | bit) -> 0 <= bit ->
  endb + nbits < 2 ^ 33 -> bitmap_ok b -> Z.max 0 (endb - bit + 1) < Z.of_nat fuel ->
  exists o, alloc_words fuel b nbits stride endb bit = Some o /\ alloc_post b nbits stride endb bit o.
Proof.
  induction fuel as [|fuel IH]; intros b bit Hn Hn64 Hd64 Hdb Hbit Hend Hok Hfuel; [lia|].
  cbn [alloc_words]. destruct (Z.leb_spec bit endb) as [Hle|Hle]; [|by eexists; split; [done|apply alloc_post_end]].
  change 63 with BITMAP_WORDMASK. change 6 with BITMAP_WORDLEN_LOG. rewrite land_63.
  pose proof (Z.mod_pos_bound bit 64 ltac:(lia)) as Hwo. pose proof (Z.div_mod bit 64 ltac:(lia)) as Hdm.
  set (wo := bit mod 64) in *. assert (Hb64 : (64 | bit - wo)) by (exists (bit / 64); lia).
  assert (Hdw : (stride | wo)).
  { replace wo with (bit - (bit - wo)) by lia. apply Z.divide_sub_r; [done|]. by apply Z.divide_trans with 64. }
  set (base := bit - wo) in *. assert (Hbase : bit = base + wo) by lia.
  assert (0 <= bit / 64) by (apply Z.div_pos; lia).
  destruct (extend_same b (base + 64) Hok) as (b1 & r & -> & Hok1 & Hs1 & Hl1); [lia|].
  cbn [mbind option_bind]. pose proof Hok1 as [Hbuf Hst He Hw Ha Ho Hsm].
  rewrite ref_offset by (done || pose proof (ok_window _ Hbuf); lia). cbn [mbind option_bind].
  rewrite Hst, shiftr_6, !Z.add_0_l.
  assert (Eb : base / 64 = bit / 64) by (symmetry; apply Z.div_unique with 0; lia).
  destruct (read_word (b_contents (alloc_map b1)) (base / 64)) as (bw & Er & _).
  { lia. } { pose proof (ok_contents _ Hbuf). pose proof (ok_end _ Hbuf). lia. } { apply Hbuf. }
  rewrite Er. cbn [mbind option_bind].
  assert (Hnext : (forall q, bit <= q < base + 64 -> (stride | q - bit) -> ~ clear_at b1 q nbits) ->
    exists o, alloc_words fuel b1 nbits stride endb (base + 64) = Some o /\ alloc_post b nbits stride endb bit o).
  { intros Hno. destruct (IH b1 (base + 64)) as (o & -> & Hpost); try done; try lia.
    { apply Z.divide_add_r; [|done]. by apply Z.divide_trans with 64. }
    eexists. split; [done|]. apply (alloc_post_same b b1); [done..|].
    eapply alloc_post_skip; [| | |exact Hpost]; [lia| |intros q Hq Hd _; by apply Hno].
    replace (base + 64 - bit) with (64 - wo) by lia. by apply Z.divide_sub_r. }
  destruct (Z.eqb_spec bw infinity) as [->|Hne].
  { apply Hnext. intros q Hq _. apply (full_word b1 base wo); done || lia. }
  destruct (alloc_word_spec b1 nbits stride endb base bw 65 (u64 (Z.shiftl (MASK nbits) wo)) wo)
    as (b2 & o & -> & Hpost); try done; try lia.
  { replace wo with (0 + wo) at 2 by lia. replace (wo + nbits) with (nbits + wo) by lia.
    apply mask_shift; [apply mask_low; lia|lia..]. }
  cbn [mbind option_bind]. rewrite <- Hbase in Hpost. destruct o as [rr|].
  - eexists. split; [done|]. by apply (alloc_post_same b b1).
  - destruct Hpost as [-> Hno]. by apply Hnext.
Qed.

Lemma find_order_spec n : 0 < n < 2 ^ 33 ->
  0 <= find_order n <= 33 /\ n <= 2 ^ find_order n.
Proof.
  intros Hn. unfold find_order, msb. destruct (Z.ltb_spec 1 n).
  - destruct (Z.eqb_spec (n - 1) 0); [lia|]. pose proof (Z.log2_spec (n - 1) ltac:(lia)) as [_ Hl].
    assert (Z.log2 (n - 1) < 33) by (apply Z.log2_lt_pow2; lia). pose proof (Z.log2_nonneg (n - 1)).
    rewrite <- Z.add_1_r in Hl. split; lia.
  - split; [lia|]. simpl. lia.
Qed.

Lemma alloc_internal_spec b nbits start endb :
  bitmap_ok b -> 0 < nbits -> 0 <= start -> Z.min endb (maxbits b) < 2 ^ 33 -> start + nbits < 2 ^ 64 ->
  (2 ^ find_order nbits < 64 -> (2 ^ find_order nbits | start)) ->
  exists o, bitmap_alloc_internal b nbits start endb = Some o /\
    alloc_post b nbits (2 ^ find_order nbits) (Z.min endb (maxbits b) - nbits) start o.
Proof.
  intros Hok Hn Hs Hsm Hw Hal. unfold bitmap_alloc_internal. rewrite u64_small by lia.
  destruct (Z.ltb_spec (Z.min endb (maxbits b)) (start + nbits)) as [Hlt|Hge].
  { eexists. split; [done|]. apply alloc_post_end; [done|lia]. }
  destruct (find_order_spec nbits ltac:(lia)) as [Ho Hle].
  rewrite U64_FROM_BIT_pow by lia. set (stride := 2 ^ find_order nbits) in *.
  destruct (Z.leb_spec 64 stride) as [H64|H64].
  - apply alloc_multi_spec; done || lia.
  - assert (find_order nbits < 6) by (apply (Z.pow_lt_mono_r_iff 2); lia).
    apply alloc_words_spec; try done; try lia; [|by apply Hal].
    exists (2 ^ (6 - find_order nbits)). unfold stride. rewrite <- Z.pow_add_r by lia.
    by replace (6 - find_order nbits + find_order nbits) with 6 by lia.
Qed.

(** ** The other operations *)

Lemma dealloc_spec b p n :
  bitmap_ok b -> 0 <= p -> 0 < n -> p + n <= mapbits b -> p + n <= maxbits b ->
  exists b' r, bitmap_dealloc b p n = Some (b', r) /\
    (r = true <-> forall i, p <= i < p + n -> mapbit b i = true) /\
    if r then mapbits b' = mapbits b /\ updated b p n false b' else b' = b.
Proof.
  intros Hok Hp Hn Hm Hmax. pose proof (bm_small _ Hok). unfold bitmap_dealloc. rewrite u64_small by lia.
  destruct (Z.ltb_spec (maxbits b) (p + n)); [lia|].
  destruct (range_op_spec b p n false true Hok) as (b1 & ok & -> & -> & Hall); [lia..|].
  cbn [mbind option_bind]. destruct ok; cbn [negb].
  - destruct (range_op_spec b p n true false Hok) as (b2 & r2 & -> & _ & Hmb & Hu); [lia..|].
    eexists b2, true. split; [done|]. by split.
  - eexists b, false. split; [done|]. by split.
Qed.

Lemma set_in_map b p n : (forall i, p <= i < p + n -> mapbit b i = true) -> 0 < n -> p + n <= mapbits b.
Proof.
  intros Hall Hn. specialize (Hall (p + n - 1) ltac:(lia)). unfold mapbit in Hall.
  destruct (Z.ltb_spec (p + n - 1) (mapbits b)); [lia|done].
Qed.

Lemma bit_in_range p i n : p <= i < p + n -> (p <=? i) && (i <? p + n) = true.
Proof. intros Hi. destruct (Z.leb_spec p i), (Z.ltb_spec i (p + n)); done || lia. Qed.

Lemma pos_lsb_spec q : 0 <= pos_lsb q /\ Z.testbit (Zpos q) (pos_lsb q) = true /\
  forall j, 0 <= j < pos_lsb q -> Z.testbit (Zpos q) j = false.
Proof.
  induction q as [q IH|q IH|]; cbn [pos_lsb].
  - split; [done|]. split; [done|]. intros j Hj. lia.
  - destruct IH as (H0 & Ht & Hl). split; [lia|]. change (Zpos q~0) with (2 * Zpos q). split.
    + rewrite Z.add_1_r, Z.testbit_even_succ by lia. done.
    + intros j Hj. destruct (Z.eq_dec j 0) as [->|]; [apply Z.testbit_even_0|].
      replace j with (Z.succ (j - 1)) by lia. rewrite Z.testbit_even_succ by lia. apply Hl. lia.
  - split; [done|]. split; [done|]. intros j Hj. lia.
Qed.

(** The lowest set bit of a word. *)
Lemma lsb_spec w : 0 <= w < 2 ^ 64 ->
  (lsb w = INVALID_PHYSICAL /\ forall j, 0 <= j -> Z.testbit w j = false) \/
  (lsb w <> INVALID_PHYSICAL /\ 0 <= lsb w < 64 /\ Z.testbit w (lsb w) = true /\
   forall j, 0 <= j < lsb w -> Z.testbit w j = false).
Proof.
  intros Hw. destruct w as [|q|q]; [|right|lia].
  - left. split; [done|]. intros j _. apply Z.testbit_0_l.
  - destruct (pos_lsb_spec q) as (H0 & Ht & Hl). cbn [lsb].
    assert (pos_lsb q < 64).
    { destruct (Z.lt_ge_cases (pos_lsb q) 64); [done|]. by rewrite testbit_above in Ht. }
    split; [|done]. unfold INVALID_PHYSICAL, infinity. lia.
Qed.

(** [o] is the position of the first bit set in [s, e). *)
Definition first_set (b : bitmap) (s e : Z) (o : option Z) : Prop :=
  match o with
  | Some p => s <= p < e /\ mapbit b p = true /\ forall i, s <= i < p -> mapbit b i = false
  | None => forall i, s <= i < e -> mapbit b i = false
  end.

(** The bits of a word between two offsets, as the search masks them. *)
Lemma masked_word w bo n : 0 <= w < 2 ^ 64 -> 0 <= bo < 64 -> 0 < n ->
  let w1 := if 0 <? bo then Z.land w (not64 (MASK bo)) else w in
  let w2 := if n <? 64 - bo then Z.land w1 (MASK (bo + n)) else w1 in
  0 <= w2 < 2 ^ 64 /\
  forall j, 0 <= j < 64 -> Z.testbit w2 j = (bo <=? j) && (j <? bo + n) && Z.testbit w j.
Proof.
  intros Hw Hbo Hn w1.
  assert (H1 : 0 <= w1 < 2 ^ 64 /\ forall j, 0 <= j < 64 -> Z.testbit w1 j = (bo <=? j) && Z.testbit w j).
  { unfold w1. destruct (Z.ltb_spec 0 bo).
    - destruct (mask_high bo ltac:(lia)) as [Hr Hb]. split; [apply land_range; lia|]. intros j Hj.
      rewrite Z.land_spec, Hb, andb_comm by done. by destruct (Z.ltb_spec j 64); [rewrite andb_true_r|lia].
    - split; [done|]. intros j Hj. by destruct (Z.leb_spec bo j); [|lia]. }
  clearbody w1. destruct H1 as [Hr1 Hb1]. cbv zeta. destruct (Z.ltb_spec n (64 - bo)).
  - destruct (mask_low (bo + n) ltac:(lia)) as [Hr Hb]. split; [apply land_range; lia|]. intros j Hj.
    rewrite Z.land_spec, Hb, Hb1 by done. destruct (Z.leb_spec 0 j); [|lia].
    by destruct (bo <=? j), (j <? bo + n), (Z.testbit w j).
  - split; [done|]. intros j Hj. rewrite Hb1 by done. destruct (Z.ltb_spec j (bo + n)); [|lia].
    by rewrite andb_true_r.
Qed.

Lemma get_first_loop_spec b fuel : forall k bo n,
  bitmap_ok b -> 0 <= k -> 0 <= bo < 64 -> 0 <= n -> 64 * k + bo + n <= mapbits b ->
  n < Z.of_nat fuel ->
  exists o, get_first_loop fuel b k bo n = Some o /\ first_set b (64 * k + bo) (64 * k + bo + n) o.
Proof.
  induction fuel as [|fuel IH]; intros k bo n Hok Hk Hbo Hn Hm Hf; [lia|]. cbn [get_first_loop].
  pose proof Hok as [Hbuf Hst He [q Hq] Ha Ho Hsm].
  destruct (Z.ltb_spec 0 n) as [Hn0|Hn0].
  2: { exists None. split; [done|]. intros i Hi. lia. }
  rewrite ref_offset by (done || pose proof (ok_window _ Hbuf); lia). cbn [mbind option_bind].
  rewrite Hst, !Z.add_0_l.
  destruct (read_word (b_contents (alloc_map b)) k) as (w & Er & Hw); [lia| |apply Hbuf|].
  { pose proof (ok_contents _ Hbuf). pose proof (ok_end _ Hbuf). nia. }
  rewrite Er. cbn [mbind option_bind].
  pose proof (masked_word w bo n Hw Hbo Hn0) as [Hr2 Hb2].
  set (w2 := if n <? 64 - bo then _ else _) in *. clearbody w2.
  assert (Hmb : forall j, bo <= j < Z.min 64 (bo + n) -> mapbit b (64 * k + j) = Z.testbit w2 j).
  { intros j Hj. unfold mapbit. destruct (Z.ltb_spec (64 * k + j) (mapbits b)); [|lia]. simpl.
    rewrite <- (word_bit _ _ _ _ Er (ok_bytes _ Hbuf)), Hb2 by lia.
    by destruct (Z.leb_spec bo j), (Z.ltb_spec j (bo + n)); try lia. }
  destruct (lsb_spec w2 Hr2) as [[-> Hz]|(Hne & Hlr & Ht & Hl)].
  - rewrite Z.eqb_refl. cbn [negb].
    destruct (IH (k + 1) 0 (if 64 - bo <=? n then n - (64 - bo) else 0)) as (o & -> & Hfs);
      try done; try lia; try (case_test; lia).
    exists o. split; [done|].
    assert (Hz' : forall i, 64 * k + bo <= i < Z.min (64 * k + 64) (64 * k + bo + n) -> mapbit b i = false).
    { intros i Hi. replace i with (64 * k + (i - 64 * k)) by lia. rewrite Hmb by lia. apply Hz. lia. }
    rewrite Z.add_0_r in Hfs. destruct (Z.leb_spec (64 - bo) n); destruct o as [x|]; simpl in *.
    + destruct Hfs as (Hx & Hxt & Hxl). split; [lia|]. split; [done|]. intros i Hi.
      destruct (Z.lt_ge_cases i (64 * k + 64)); [apply Hz'; lia|apply Hxl; lia].
    + intros i Hi. destruct (Z.lt_ge_cases i (64 * k + 64)); [apply Hz'; lia|apply Hfs; lia].
    + lia.
    + intros i Hi. apply Hz'. lia.
  - destruct (Z.eqb_spec (lsb w2) INVALID_PHYSICAL); [done|]. cbn [negb].
    rewrite Z.shiftl_mul_pow2, u64_small by lia. eexists. split; [done|]. simpl.
    pose proof Ht as Ht'. rewrite Hb2 in Ht' by lia.
    destruct (Z.leb_spec bo (lsb w2)), (Z.ltb_spec (lsb w2) (bo + n)); try done.
    replace (k * 2 ^ 6 + lsb w2) with (64 * k + lsb w2) by lia.
    split; [lia|]. split; [rewrite Hmb by lia; done|]. intros i Hi.
    replace i with (64 * k + (i - 64 * k)) by lia. rewrite Hmb by lia. apply Hl. lia.
Qed.

(** A new bitmap is well formed and clear; its map covers at most a page of bits. *)
Lemma allocate_bitmap_spec sb sbuf len :
  0 <= sb -> 0 <= sbuf -> 0 < len < 2 ^ 62 -> exists o, allocate_bitmap sb sbuf len = Some o /\
    match o with
    | Some b => bitmap_ok b /\ maxbits b = len /\ map_heap b = true /\ forall i, 0 <= i -> mapbit b i = false
    | None => exists n, 0 <= n /\ allocate n = None
    end.
Proof.
  intros Hsb Hsbuf Hlen. unfold allocate_bitmap, allocate_bitmap_internal, kassert.
  destruct (Z.ltb_spec 0 len); [|lia]. cbn [mbind option_bind].
  destruct (allocate sb) eqn:Ea; cbn [mbind option_bind]; [|exists None; split; [done|eexists; split; [|done]; lia]].
  destruct (Z.eqb_spec len infinity); [unfold infinity in *; lia|].
  destruct (pad_pow2 len 6 ltac:(lia) ltac:(lia)) as [[q Hq] Hp]. change (2 ^ 6) with 64 in *.
  assert (Hmb : exists k, Z.min ALLOC_EXTEND_BITS (pad len 64) = 64 * k /\ 0 < k <= 64).
  { change ALLOC_EXTEND_BITS with 4096. destruct (Z.min_spec 4096 (pad len 64)) as [[? ->]|[? ->]].
    - exists 64. lia.
    - exists q. lia. }
  destruct Hmb as (k & -> & Hk). rewrite Z.shiftr_div_pow2 by lia.
  replace (64 * k / 2 ^ 3) with (8 * k) by (apply Z.div_unique with 0; lia).
  unfold allocate_buffer. destruct (allocate sbuf) eqn:Eb; simpl; [|exists None; split; [done|eexists; split; [|done]; lia]].
  destruct (Z.eqb_spec (8 * k) 0); [lia|]. simpl.
  destruct (allocate (8 * k)) as [c|] eqn:Ec; simpl; [|exists None; split; [done|eexists; split; [|done]; lia]].
  pose proof (allocate_length _ _ Ec) as Hl. pose proof (allocate_bytes _ _ Ec) as Hb.
  assert (Er : buffer_ref (init_buffer (8 * k) false c) 0 = Some 0).
  { unfold buffer_ref, kassert. cbn [init_buffer b_start b_length]. change (u64 (0 + 0)) with 0.
    destruct (Z.leb_spec 0 (8 * k)); [done|lia]. }
  rewrite Er. cbn [mbind option_bind].
  assert (Ew : write_bytes c 0 (replicate (Z.to_nat (8 * k)) 0) = Some (replicate (Z.to_nat (8 * k)) 0)).
  { apply write_bytes_Some. rewrite length_replicate. split; [done|]. split; [lia|].
    simpl. rewrite drop_ge by lia. by rewrite app_nil_r. }
  rewrite Ew. simpl. unfold buffer_produce, kassert. simpl. rewrite u64_small, !Z.add_0_l by lia.
  destruct (Z.leb_spec (8 * k) (8 * k)); [|lia]. simpl. eexists. split; [done|]. simpl.
  split; [|split; [done|]; split; [done|]].
  - split; simpl; try done; try lia; [|exists k; lia|exists k; lia].
    split; simpl; try lia; [rewrite length_replicate; lia|by apply Forall_replicate].
  - intros i Hi. unfold mapbit. simpl. rewrite <- (app_nil_l (replicate _ 0)), bit_zeros by (simpl; lia).
    by rewrite andb_false_r.
Qed.

Lemma get_spec b i : bitmap_ok b -> 0 <= i -> bitmap_get b i = Some (mapbit b i).
Proof.
  intros Hok Hi. pose proof Hok as [Hbuf Hst He [q Hq] Ha Ho Hsm]. unfold bitmap_get, mapbit.
  destruct (Z.leb_spec (mapbits b) i), (Z.ltb_spec i (mapbits b)); try lia; [done|].
  rewrite ref_offset by (done || pose proof (ok_window _ Hbuf); lia). cbn [mbind option_bind].
  change 63 with BITMAP_WORDMASK. change 6 with BITMAP_WORDLEN_LOG. rewrite land_63, shiftr_6, Hst, !Z.add_0_l.
  pose proof (Z.div_mod i 64). pose proof (Z.mod_pos_bound i 64).
  destruct (read_word (b_contents (alloc_map b)) (i / 64)) as (w & Er & Hw); [lia| |apply Hbuf|].
  { pose proof (ok_contents _ Hbuf). pose proof (ok_end _ Hbuf). lia. }
  rewrite Er. cbn [mbind option_bind andb]. f_equal.
  rewrite Z.shiftl_1_l. replace i with (64 * (i / 64) + i mod 64) at 2 by lia.
  rewrite <- (word_bit _ _ _ _ Er (ok_bytes _ Hbuf)) by lia.
  set (j := i mod 64) in *. destruct (Z.testbit w j) eqn:Et.
  - apply negb_true_iff, Z.eqb_neq. intros E.
    assert (Hf : Z.testbit (Z.land w (2 ^ j)) j = false) by (rewrite E; apply Z.testbit_0_l).
    rewrite Z.land_spec, Et, Z.pow2_bits_true in Hf by lia. done.
  - apply negb_false_iff, Z.eqb_eq. apply Z.bits_inj'. intros x Hx.
    rewrite Z.land_spec, Z.pow2_bits_eqb, Z.testbit_0_l by lia.
    destruct (Z.eqb_spec j x) as [<-|]; [by rewrite Et|apply andb_false_r].
Qed.

Lemma updated_get b p n val b' i : updated b p n val b' -> 0 <= i ->
  bitmap_get b' i = Some (if (p <=? i) && (i <? p + n) then val else mapbit b i).
Proof. intros (Hok & _ & Hu) Hi. rewrite get_spec by done. by rewrite Hu. Qed.
End Proofs.

(** ** The properties *)

(** A bitmap of 256 bits, and one with the bits 64 and 65 reserved. *)
Definition blank_bitmap : bitmap :=
  {| maxbits := 256; mapbits := 256; map_heap := true;
     alloc_map := {| b_start := 0; b_end := 32; b_length := 32; b_wrapped := false;
                     b_contents := replicate 32 0 |} |}.

Definition reserved_bitmap : bitmap :=
  default blank_bitmap (fst <$> @bitmap_range_check_and_set zero_heap blank_bitmap 64 2 true true).

Lemma blank_bitmap_ok : bitmap_ok blank_bitmap.
Proof.
  split; simpl; try done; [|by exists 4|by exists 4]. split; simpl; try done.
  repeat (constructor; [done|]). constructor.
Qed.

(** C27: [bitmap_alloc_within_range] on a map whose heap does not run out, with a
    start that is a multiple of the stride when the stride is below a word: it
    returns, and it is first fit over the positions [start + k * stride], where the
    stride is the least power of two that holds [nbits].  The bits of the position
    it returns were clear and are now set, no other bit changes, every earlier
    position has a set bit; it reports failure only when no position fits. *)
Theorem bitmap_alloc_first_fit {h : Heap} {hl : HeapLaws h} {ht : HeapTotal h} b nbits start endb :
  bitmap_ok b -> 0 < nbits -> 0 <= start -> start + nbits < 2 ^ 64 ->
  Z.min endb (maxbits b) < 2 ^ 33 ->
  (2 ^ find_order nbits < 64 -> (2 ^ find_order nbits | start)) ->
  exists b' o, bitmap_alloc_within_range b nbits start endb = Some (b', o) /\
    match o with
    | Some p =>
        start <= p /\ p + nbits <= Z.min endb (maxbits b) /\ (2 ^ find_order nbits | p - start) /\
        clear_at b p nbits /\ updated b p nbits true b' /\
        forall q, start <= q < p -> (2 ^ find_order nbits | q - start) -> ~ clear_at b q nbits
    | None =>
        same_bits b b' /\
        forall q, start <= q -> q + nbits <= Z.min endb (maxbits b) ->
          (2 ^ find_order nbits | q - start) -> ~ clear_at b q nbits
    end.
Proof.
  intros Hok Hn Hs Hw Hsm Hal.
  destruct (alloc_internal_spec b nbits start endb Hok Hn Hs Hsm Hw Hal) as ([b' o] & E & Hp).
  exists b', o. split; [exact E|]. unfold alloc_post in Hp. cbn [fst snd] in Hp. destruct o as [p|].
  - destruct Hp as (Hr & Hd & Hc & Hu & Hf). repeat (split; [done || lia|]). done.
  - destruct Hp as [(Hok' & Hm & Hu) Hf]. split.
    + split; [done|]. intros j Hj. rewrite Hu by done.
      by destruct (Z.leb_spec 0 j), (Z.ltb_spec j (0 + 0)); try lia.
    + intros q Hq Hqe. apply Hf. lia.
Qed.

Lemma bitmap_alloc_first_fit_witness :
  let h := zero_heap in
  exists b' o, bitmap_alloc_within_range reserved_bitmap 100 0 256 = Some (b', o) /\ o = Some 128.
Proof.
  intros h. pose proof zero_heap_laws. pose proof zero_heap_total.
  destruct (bitmap_alloc_first_fit reserved_bitmap 100 0 256) as (b' & o & E & Ho).
  - destruct (bitmap_extend_spec blank_bitmap 65 blank_bitmap_ok) as (b1 & r & E & Hok & _); [done|].
    injection E as <- <-. destruct (range_op_spec blank_bitmap 64 2 true true blank_bitmap_ok)
      as (b2 & r2 & E2 & _ & _ & Hu & _); [done..|]. vm_compute in E2. injection E2 as <- <-. exact Hu.
  - done.
  - done.
  - done.
  - done.
  - by vm_compute.
  - exists b', o. split; [exact E|]. vm_compute in E. congruence.
Defined.

(** What [bitmap_alloc_within_range] gave, [bitmap_dealloc] takes back: it
    succeeds, every bit is as before the allocation, and a second release of the
    same bits is refused and changes nothing. *)
Theorem bitmap_alloc_dealloc {h : Heap} {hl : HeapLaws h} {ht : HeapTotal h} b nbits start endb b' p :
  bitmap_ok b -> 0 < nbits -> 0 <= start -> start + nbits < 2 ^ 64 ->
  Z.min endb (maxbits b) < 2 ^ 33 ->
  (2 ^ find_order nbits < 64 -> (2 ^ find_order nbits | start)) ->
  bitmap_alloc_within_range b nbits start endb = Some (b', Some p) ->
  exists b'', bitmap_dealloc b' p nbits = Some (b'', true) /\ bitmap_ok b'' /\ same_bits b b'' /\
    bitmap_dealloc b'' p nbits = Some (b'', false).
Proof.
  intros Hok Hn Hs Hw Hsm Hal E.
  destruct (alloc_internal_spec b nbits start endb Hok Hn Hs Hsm Hw Hal) as (o & E' & Hp).
  unfold bitmap_alloc_within_range in E. rewrite E in E'. injection E' as <-.
  destruct Hp as (Hr & _ & Hc & (Hok' & Hmax & Hu) & _).
  cbn [fst snd] in *.
  assert (Hset : forall i, p <= i < p + nbits -> mapbit b' i = true).
  { intros i Hi. rewrite Hu, bit_in_range by lia. done. }
  pose proof (set_in_map b' p nbits Hset Hn) as Hin.
  destruct (dealloc_spec b' p nbits Hok') as (b2 & r & -> & Hiff & Hres); [lia..|].
  destruct r; [|by pose proof (proj2 Hiff Hset)]. destruct Hres as [Hmb (Hok2 & Hmax2 & Hu2)].
  exists b2. split; [done|]. split; [done|]. split.
  - split; [congruence|]. intros j Hj. rewrite Hu2, Hu by done.
    destruct ((p <=? j) && (j <? p + nbits)) eqn:Ej; [|done]. breflect. symmetry. apply Hc. lia.
  - destruct (dealloc_spec b2 p nbits Hok2) as (b3 & r & -> & Hiff3 & Hres); [lia..|].
    destruct r; [|by subst].
    pose proof (proj1 Hiff3 eq_refl p ltac:(lia)) as Hp. by rewrite Hu2, bit_in_range in Hp by lia.
Qed.

(** [bitmap_range_check_and_set] succeeds exactly when the range is inside
    the bitmap and, when asked to validate, every bit of it has the opposite
    value; then [bitmap_get] reads the new value inside the range and the old one
    outside, and otherwise every bit is as before. *)
Theorem bitmap_reserve {h : Heap} {hl : HeapLaws h} {ht : HeapTotal h} b start nbits validate set :
  bitmap_ok b -> 0 <= start -> 0 < nbits -> start + nbits < 2 ^ 33 ->
  exists b' r, bitmap_range_check_and_set b start nbits validate set = Some (b', r) /\ bitmap_ok b' /\
    (r = true <-> start + nbits <= maxbits b /\
       (validate = true -> forall i, start <= i < start + nbits -> bitmap_get b i = Some (negb set))) /\
    forall i, 0 <= i -> bitmap_get b' i =
      if r && (start <=? i) && (i <? start + nbits) then Some set else bitmap_get b i.
Proof.
  intros Hok Hs Hn Hsm. unfold bitmap_range_check_and_set. rewrite !u64_small by lia.
  destruct (Z.leb_spec (maxbits b) start); simpl.
  { exists b, false. split; [done|]. split; [done|]. split; [|done]. split; [done|lia]. }
  destruct (Z.ltb_spec (maxbits b) (start + nbits)); simpl.
  { exists b, false. split; [done|]. split; [done|]. split; [|done]. split; [done|lia]. }
  destruct (extend_same b (start + nbits - 1) Hok) as (b1 & r1 & -> & Hok1 & Hs1 & Hl1); [lia|].
  cbn [mbind option_bind].
  assert (Hget : forall i, 0 <= i -> bitmap_get b1 i = bitmap_get b i).
  { intros i Hi. rewrite !get_spec by done. f_equal. by apply Hs1. }
  destruct (range_op_spec b1 start nbits true set Hok1) as (b3 & r3 & Eset & -> & _ & Hu); [lia..|].
  assert (Hfin : forall i, 0 <= i ->
    bitmap_get b3 i = if true && (start <=? i) && (i <? start + nbits) then Some set else bitmap_get b i).
  { intros i Hi. rewrite (updated_get b1 start nbits set b3) by done. rewrite <- Hget, get_spec by done.
    simpl. by destruct ((start <=? i) && (i <? start + nbits)). }
  destruct validate.
  - destruct (range_op_spec b1 start nbits false (negb set) Hok1) as (b2 & ok & -> & -> & Hiff); [lia..|].
    cbn [mbind option_bind].
    assert (Hiff' : ok = true <-> forall i, start <= i < start + nbits -> bitmap_get b i = Some (negb set)).
    { rewrite Hiff. split; intros Hi i Hr; specialize (Hi i Hr);
        rewrite <- Hget, get_spec in * by (done || lia); congruence. }
    destruct ok; cbn [negb].
    + rewrite Eset. exists b3, true. split; [done|]. split; [apply Hu|]. split; [|done].
      split; [|done]. intros _. split; [lia|]. intros _. exact (proj1 Hiff' eq_refl).
    + exists b1, false. split; [done|]. split; [done|]. split; [|done].
      split; [done|]. intros [_ Hv]. exact (proj2 Hiff' (Hv eq_refl)).
  - cbn [mbind option_bind negb]. rewrite Eset. exists b3, true. split; [done|]. split; [apply Hu|].
    split; [|done]. split; [|done]. intros _. split; [lia|done].
Qed.

(** [bitmap_range_get_first] on a range inside the map returns the lowest
    set bit of the range, or [INVALID_PHYSICAL] when there is none. *)
Theorem bitmap_range_get_first_lowest b start nbits :
  bitmap_ok b -> 0 <= start -> 0 <= nbits -> start + nbits <= mapbits b ->
  exists o, bitmap_range_get_first b start nbits = Some o /\ first_set b start (start + nbits) o.
Proof.
  intros Hok Hs Hn Hm. unfold bitmap_range_get_first. change (MASK 6) with BITMAP_WORDMASK.
  change 6 with BITMAP_WORDLEN_LOG. rewrite land_63, shiftr_6.
  pose proof (Z.div_mod start 64). pose proof (Z.mod_pos_bound start 64).
  destruct (get_first_loop_spec b (S (Z.to_nat nbits)) (start / 64) (start mod 64) nbits)
    as (o & -> & Ho); [done|apply Z.div_pos; lia|lia..|].
  exists o. split; [done|]. by replace start with (64 * (start / 64) + start mod 64) at 1 2 by lia.
Qed.


