(* ===== verification/IdHeap.v ===== *)
(** Identifier heaps: [kernel/src/runtime/heap/id.c], the allocator of page-sized
    ranges behind the physical, virtual and identifier heaps of the kernel.

    A heap holds a range map of page ranges; each of its nodes carries a bitmap of
    the pages from the word boundary below the range ([info], by the address of
    the node) and the positions where the next search of each order begins.

    The node address [allocate] returns is an argument of the operations that add
    a range.  [random_u64] is the sequence of random numbers one operation draws
    and [parent_alloc] what the parent heap gives for a length.  [None] is a failed
    assertion or an access to memory that is not there; [None] inside is
    [INVALID_ADDRESS] or [INVALID_PHYSICAL]. *)

From stdpp Require Import gmap.
From S2P Require Import Prelude Words Heap Buffer Rbtree RbWalk Range Rangemap Bitmap.

Definition NEXT_BIT_COUNT : Z := 10.
Definition ID_HEAP_FLAG_RANDOMIZE : Z := 1.
Definition sizeof_bitmap : Z := 40.
Definition sizeof_buffer : Z := 48.

Record id_range := { ir_b : bitmap; bitmap_start : Z; next_bit : list Z }.

Record id_heap := {
  pagesize : Z;
  page_order : Z;
  allocated : Z;
  total : Z;
  flags : Z;
  parent : option Z;
  ranges : rangemap;
  info : gmap Z id_range;
}.

Definition set_info (i : id_heap) (x : gmap Z id_range) (a : Z) : id_heap :=
  {| pagesize := pagesize i; page_order := page_order i; allocated := a; total := total i;
     flags := flags i; parent := parent i; ranges := ranges i; info := x |}.

Definition set_ranges (i : id_heap) (rm : rangemap) (x : gmap Z id_range) (tot : Z) : id_heap :=
  {| pagesize := pagesize i; page_order := page_order i; allocated := allocated i; total := tot;
     flags := flags i; parent := parent i; ranges := rm; info := x |}.

Definition set_bitmap (r : id_range) (b : bitmap) : id_range :=
  {| ir_b := b; bitmap_start := bitmap_start r; next_bit := next_bit r |}.

Definition page_mask (i : id_heap) : Z := pagesize i - 1.

Definition get_next_bit (r : id_range) (order : Z) : Z :=
  nth (Z.to_nat (Z.min order (NEXT_BIT_COUNT - 1))) (next_bit r) 0.

Definition set_next_bit (r : id_range) (order bit : Z) : id_range :=
  if order <? NEXT_BIT_COUNT
  then {| ir_b := ir_b r; bitmap_start := bitmap_start r;
          next_bit := <[Z.to_nat order := bit]> (next_bit r) |}
  else r.

(** The page count is an [int] before it is a 64-bit value. *)
Definition pages_from_bytes (i : id_heap) (alloc_size : Z) : Z :=
  u64 (s32 (Z.shiftr (pad alloc_size (pagesize i)) (page_order i))).

Definition WHOLE_RANGE : range := irange 0 infinity.

Section Code.
Context {h : Heap}.

(** [ir] is the address of the new node; the code writes to it before it tests it. *)
Definition id_add_range (i : id_heap) (base length : Z) (ir : option Z)
    : option (id_heap * option Z) :=
  let length :=
    if length =? infinity then
      Z.land (u64 (length - base))
        (not64 (u64 (Z.shiftl 1 (page_order i + BITMAP_WORDLEN_LOG)) - 1))
    else length in
  _ ← kassert (pagesize i <=? length);
  _ ← kassert (Z.land base (page_mask i) =? 0);
  _ ← kassert (Z.land length (page_mask i) =? 0);
  let page_start := Z.shiftr base (page_order i) in
  let pages := Z.shiftr length (page_order i) in
  p ← ir;
  let n := {| n_addr := p; n_r := irangel page_start pages |} in
  '(rm, ok) ← rangemap_insert (ranges i) n;
  let fail rm :=
    Some (set_ranges i {| t := t rm; freed := p :: freed rm |} (info i) (total i), None) in
  if negb ok then fail rm
  else
    let page_start_mask := Z.land page_start BITMAP_WORDMASK in
    o ← allocate_bitmap sizeof_bitmap sizeof_buffer (u64 (pages + page_start_mask));
    match o with
    | None => fail rm
    | Some b =>
        b ← (if negb (page_start_mask =? 0) then
               '(b, _) ← bitmap_range_check_and_set b 0 page_start_mask false true; Some b
             else Some b);
        let r := {| ir_b := b; bitmap_start := Z.land page_start (not64 BITMAP_WORDMASK);
                    next_bit := replicate (Z.to_nat NEXT_BIT_COUNT) 0 |} in
        Some (set_ranges i rm (<[p := r]> (info i)) (u64 (total i + length)), Some p)
    end.

(** Search from [start_bit], wrapping around if needed. *)
Definition search_range (b : bitmap) (pages : Z) (ri : range) (start_bit : Z)
    : option (bitmap * option Z) :=
  '(b, bit) ← bitmap_alloc_within_range b pages start_bit (end_ ri);
  match bit with
  | Some bit => Some (b, Some bit)
  | None =>
      if start ri <? start_bit then bitmap_alloc_within_range b pages (start ri) start_bit
      else Some (b, None)
  end.

(** The search of one range; [rnd] is the random number it would draw. *)
Definition id_alloc_from_range (i : id_heap) (p : Z) (pages : Z) (subrange : range) (rnd : Z)
    : option (id_heap * option Z) :=
  n ← rm_deref (ranges i) p;
  r ← info i !! p;
  let order := find_order pages in
  let pages_rounded := U64_FROM_BIT order in
  let ri := range_intersection (n_r n) subrange in
  if range_empty ri then Some (i, None)
  else
    let ri := irange (u64 (pad (start ri) pages_rounded - bitmap_start r))
                     (u64 (end_ ri - bitmap_start r)) in
    if negb (range_valid ri) || (range_span ri <? pages) then Some (i, None)
    else
      let span := Z.land (range_span ri) (not64 (pages_rounded - 1)) in
      let margin := if pages_rounded <? span then span - pages_rounded else 0 in
      let start_bit :=
        if negb (Z.land (flags i) ID_HEAP_FLAG_RANDOMIZE =? 0) && (0 <? margin) then
          u64 (start ri + rnd mod margin)
        else
          let nb := get_next_bit r order in
          if point_in_range ri nb then Z.min nb (u64 (start ri + margin)) else start ri in
      '(b, bit) ← search_range (ir_b r) pages ri start_bit;
      match bit with
      | None => Some (set_info i (<[p := set_bitmap r b]> (info i)) (allocated i), None)
      | Some bit =>
          let r := set_next_bit (set_bitmap r b) order (u64 (bit + pages_rounded)) in
          Some (set_info i (<[p := r]> (info i))
                  (u64 (allocated i + u64 (Z.shiftl pages (page_order i)))),
                Some (u64 (Z.shiftl (u64 (bitmap_start r + bit)) (page_order i))))
      end.

Context (random_u64 : nat -> Z) (parent_alloc : Z -> option Z).

Definition id_get_backed_page (i : id_heap) (count : Z) (ir : option Z)
    : option (id_heap * option Z) :=
  ps ← parent i;
  let parent_pages := u64 (count - 1) / ps + 1 in
  let length := u64 (parent_pages * ps) in
  match parent_alloc length with
  | None => Some (i, None)
  | Some base => id_add_range i base length ir
  end.

(** The [while] loops over the ranges. *)
Fixpoint alloc_loop (fuel : nat) (k : nat) (i : id_heap) (r : option Z) (pages : Z) (subrange : range)
    : option (id_heap * option Z) :=
  match fuel with
  | O => None
  | S fuel' =>
      match r with
      | None => Some (i, None)
      | Some p =>
          '(i, a) ← id_alloc_from_range i p pages subrange (random_u64 k);
          match a with
          | Some a => Some (i, Some a)
          | None =>
              r ← rangemap_next_node (ranges i) p;
              alloc_loop fuel' (S k) i r pages subrange
          end
      end
  end.

Definition ranges_fuel (i : id_heap) : nat := S (S (tree_size (root (t (ranges i))))).

Definition id_alloc (i : id_heap) (count : Z) (ir : option Z) : option (id_heap * option Z) :=
  if count =? 0 then Some (i, None)
  else
    let pages := pages_from_bytes i count in
    r ← rangemap_first_node (ranges i);
    '(i, a) ← alloc_loop (ranges_fuel i) 0 i r pages WHOLE_RANGE;
    match a with
    | Some a => Some (i, Some a)
    | None =>
        match parent i with
        | None => Some (i, None)
        | Some _ =>
            '(i, r) ← id_get_backed_page i count ir;
            match r with
            | Some p => id_alloc_from_range i p pages WHOLE_RANGE (random_u64 (ranges_fuel i))
            | None => Some (i, None)
            end
        end
    end.

Definition alloc_subrange (i : id_heap) (count s e : Z) : option (id_heap * option Z) :=
  let subrange := irange (Z.shiftr (pad s (pagesize i)) (page_order i))
                         (if e =? infinity then infinity else Z.shiftr e (page_order i)) in
  if (count =? 0) || negb (range_valid subrange) || (range_span subrange =? 0) ||
     (start subrange =? infinity)
  then Some (i, None)
  else
    let pages := pages_from_bytes i count in
    if range_span subrange <? pages then Some (i, None)
    else
      r ← rangemap_first_node (ranges i);
      alloc_loop (ranges_fuel i) 0 i r pages subrange.

(** The handlers of a range walk work on a heap that may have faulted. *)
Definition dealloc_from_range (q : range) (st : option id_heap) (n : rmnode) : option id_heap * bool :=
  let body :=
    i ← st;
    let ri := range_intersection q (n_r n) in
    r ← info i !! n_addr n;
    let bit := u64 (s32 (start ri - bitmap_start r)) in
    let pages := range_span ri in
    let order := find_order pages in
    '(b, ok) ← bitmap_dealloc (ir_b r) bit pages;
    if negb ok then Some (set_info i (<[n_addr n := set_bitmap r b]> (info i)) (allocated i), false)
    else
      let pages_rounded := U64_FROM_BIT order in
      let r := set_bitmap r b in
      let r := if (pages =? pages_rounded) && (Z.land (start ri) (pages - 1) =? 0) &&
                  (bit <? get_next_bit r order)
               then set_next_bit r order bit else r in
      let deallocated := u64 (Z.shiftl pages (page_order i)) in
      _ ← kassert (deallocated <=? allocated i);
      Some (set_info i (<[n_addr n := r]> (info i)) (allocated i - deallocated), true) in
  match body with Some (i, ok) => (Some i, ok) | None => (None, false) end.

Definition dealloc_gap (st : option id_heap) (r : range) : option id_heap * bool := (st, false).

Definition id_dealloc (i : id_heap) (a count : Z) : option id_heap :=
  if count =? 0 then Some i
  else if negb (Z.land a (page_mask i) =? 0) || negb (Z.land count (page_mask i) =? 0) then Some i
  else
    let q := range_rshift (irangel a count) (page_order i) in
    '(st, _) ← rangemap_range_lookup_with_gaps (ranges i) q (dealloc_from_range q) dealloc_gap (Some i);
    st.

Definition add_range (i : id_heap) (base length : Z) (ir : option Z) : option (id_heap * bool) :=
  '(i, r) ← id_add_range i base length ir;
  Some (i, match r with Some _ => true | None => false end).

Definition set_intersection (q : range) (validate alloc : bool) (st : option id_heap) (n : rmnode)
    : option id_heap * bool :=
  let body :=
    i ← st;
    let ri := range_intersection q (n_r n) in
    r ← info i !! n_addr n;
    let bit := u64 (s32 (start ri - bitmap_start r)) in
    '(b, ok) ← bitmap_range_check_and_set (ir_b r) bit (range_span ri) validate alloc;
    Some (set_info i (<[n_addr n := set_bitmap r b]> (info i)) (allocated i), ok) in
  match body with Some (i, ok) => (Some i, ok) | None => (None, false) end.

Definition set_gap (st : option id_heap) (r : range) : option id_heap * bool := (st, false).

Definition set_area (i : id_heap) (base length : Z) (validate alloc : bool) : option (id_heap * bool) :=
  let base := Z.land base (not64 (page_mask i)) in
  let length := pad length (pagesize i) in
  let q := range_rshift (irangel base length) (page_order i) in
  '(st, result) ← rangemap_range_lookup_with_gaps (ranges i) q (set_intersection q validate alloc)
    set_gap (Some i);
  i ← st;
  let matched := match result with RM_MATCH => true | _ => false end in
  if validate && matched then
    if (alloc : bool) then Some (set_info i (info i) (u64 (allocated i + length)), matched)
    else
      _ ← kassert (length <=? allocated i);
      Some (set_info i (info i) (allocated i - length), matched)
  else Some (i, matched).

Definition set_randomize (i : id_heap) (randomize : bool) : id_heap :=
  {| pagesize := pagesize i; page_order := page_order i; allocated := allocated i; total := total i;
     flags := if randomize then Z.lor (flags i) ID_HEAP_FLAG_RANDOMIZE
              else Z.land (flags i) (not64 ID_HEAP_FLAG_RANDOMIZE);
     parent := parent i; ranges := ranges i; info := info i |}.

Definition set_next_node (order next : Z) (i : id_heap) (n : rmnode) : option id_heap :=
  r ← info i !! n_addr n;
  let upd r := set_info i (<[n_addr n := r]> (info i)) (allocated i) in
  if point_in_range (n_r n) next then Some (upd (set_next_bit r order (u64 (next - bitmap_start r))))
  else if next <? start (n_r n) then Some (upd (set_next_bit r order 0))
  else Some i.

Fixpoint set_next_loop (fuel : nat) (i : id_heap) (p : option Z) (order next : Z) : option id_heap :=
  match fuel with
  | O => None
  | S fuel' =>
      match p with
      | None => Some i
      | Some p =>
          n ← rm_deref (ranges i) p;
          i ← set_next_node order next i n;
          p ← rangemap_next_node (ranges i) p;
          set_next_loop fuel' i p order next
      end
  end.

Definition set_next (i : id_heap) (count next : Z) : option id_heap :=
  let order := find_order (pages_from_bytes i count) in
  p ← rangemap_first_node (ranges i);
  set_next_loop (ranges_fuel i) i p order next.

Definition node_foreach_handler {H} (rh : H -> range -> H) (order : Z) (s : H) (n : rmnode) : H * bool :=
  (rh s (range_lshift (n_r n) order), true).

Definition id_heap_range_foreach {H} (i : id_heap) (rh : H -> range -> H) (s : H) : option (H * bool) :=
  '(s, result) ← rangemap_range_lookup (ranges i) WHOLE_RANGE (node_foreach_handler rh (page_order i)) s;
  Some (s, match result with RM_MATCH => true | _ => false end).

Definition prealloc_foreach_handler (st : option id_heap) (r : range) : option id_heap :=
  i ← st; '(i, _) ← set_area i (start r) (range_span r) false false; Some i.

Definition id_heap_prealloc (i : id_heap) : option (id_heap * bool) :=
  '(st, ok) ← id_heap_range_foreach i prealloc_foreach_handler (Some i);
  i ← st; Some (i, ok).

(** The clone of one node: [s] is the address of the new one and [junk] what its
    memory held where [bitmap_start] lies, which the code does not set. *)
Definition clone_range (junk : Z -> Z) (st : rangemap * gmap Z id_range) (n : rmnode) (r : id_range) (s : Z)
    : option (option (rangemap * gmap Z id_range)) :=
  o ← bitmap_clone sizeof_bitmap sizeof_buffer (ir_b r);
  match o with
  | None => Some None
  | Some b =>
      '(rm, ok) ← rangemap_insert st.1 {| n_addr := s; n_r := n_r n |};
      _ ← kassert ok;
      Some (Some (rm, <[s := {| ir_b := b; bitmap_start := junk s; next_bit := next_bit r |}]> st.2))
  end.

Fixpoint clone_ranges (fuel : nat) (junk : Z -> Z) (i : id_heap) (p : option Z) (allocs : list (option Z))
    (st : rangemap * gmap Z id_range) : option (option (rangemap * gmap Z id_range)) :=
  match fuel, p with
  | O, _ => None
  | S fuel', None => Some (Some st)
  | S fuel', Some p =>
      n ← rm_deref (ranges i) p;
      r ← info i !! p;
      match allocs with
      | Some s :: allocs =>
          o ← clone_range junk st n r s;
          match o with
          | None => Some None
          | Some st =>
              p ← rangemap_next_node (ranges i) p;
              clone_ranges fuel' junk i p allocs st
          end
      | _ => Some None
      end
  end.

(** [id_size] and [rangemap_size] are the sizes of the structures allocated. *)
Context (id_size rangemap_size : Z).

Definition clone_id_heap (junk : Z -> Z) (source : id_heap) (allocs : list (option Z))
    : option (option id_heap) :=
  match allocate id_size, allocate rangemap_size with
  | Some _, Some _ =>
      p ← rangemap_first_node (ranges source);
      o ← clone_ranges (ranges_fuel source) junk source p allocs (init_rangemap, ∅);
      match o with
      | None => Some None
      | Some (rm, x) =>
          Some (Some {| pagesize := pagesize source; page_order := page_order source;
                        allocated := allocated source; total := total source; flags := flags source;
                        parent := parent source; ranges := rm; info := x |})
      end
  | _, _ => Some None
  end.

Definition allocate_id_heap (ps : Z) : option (option id_heap) :=
  _ ← kassert (Z.land ps (ps - 1) =? 0);
  match allocate id_size, allocate rangemap_size with
  | Some _, Some _ =>
      Some (Some {| pagesize := ps; page_order := msb ps; allocated := 0; total := 0; flags := 0;
                    parent := None; ranges := init_rangemap; info := ∅ |})
  | _, _ => Some None
  end.

Definition create_id_heap (base length ps : Z) (ir : option Z) : option (option id_heap) :=
  o ← allocate_id_heap ps;
  match o with
  | None => Some None
  | Some i =>
      '(i, r) ← id_add_range i base length ir;
      Some (match r with Some _ => Some i | None => None end)
  end.

Definition create_id_heap_backed (parent_pagesize ps : Z) (ir : option Z) : option (option id_heap) :=
  o ← allocate_id_heap ps;
  match o with
  | None => Some None
  | Some i =>
      let i := {| pagesize := pagesize i; page_order := page_order i; allocated := allocated i;
                  total := total i; flags := flags i; parent := Some parent_pagesize;
                  ranges := ranges i; info := info i |} in
      '(i, r) ← id_get_backed_page i 1 ir;
      Some (match r with Some _ => Some i | None => None end)
  end.
End Code.

(** ** Well-formed heaps *)

(** Ranges have less than 2^31 pages: the code keeps bit numbers in an [int]. *)
Record range_ok (a : rmnode) (r : id_range) : Prop := {
  ro_bitmap : bitmap_ok (ir_b r);
  ro_start : bitmap_start r = 64 * (start (n_r a) / 64);
  ro_max : maxbits (ir_b r) = end_ (n_r a) - bitmap_start r;
  ro_small : maxbits (ir_b r) < 2 ^ 31;
  ro_orders : length (next_bit r) = 10%nat;
  ro_next : forall o nb, next_bit r !! o = Some nb ->
    0 <= nb < 2 ^ 63 /\ (nb = 0 \/ (2 ^ Z.of_nat o | bitmap_start r + nb));
}.

Record id_ok (i : id_heap) : Prop := {
  id_order : 0 <= page_order i <= 52;
  id_pagesize : pagesize i = 2 ^ page_order i;
  id_ranges : rm_wf (ranges i);
  id_bound : Forall (fun a => end_ (n_r a) < 2 ^ 61 /\ end_ (n_r a) * pagesize i < 2 ^ 64)
               (rm_contents (ranges i));
  id_info : forall a, a ∈ rm_contents (ranges i) -> exists r, info i !! n_addr a = Some r /\ range_ok a r;
}.

(** Whether page [p], of the range of node [a], is in use. *)
Definition node_used (i : id_heap) (a : rmnode) (p : Z) : bool :=
  match info i !! n_addr a with
  | Some r => mapbit (ir_b r) (p - bitmap_start r)
  | None => false
  end.

(** Page [p] belongs to the heap and is in use. *)
Definition page_used (i : id_heap) (p : Z) : Prop :=
  exists a, a ∈ rm_contents (ranges i) /\ in_range (n_r a) p /\ node_used i a p = true.

(** [n] pages from [P] lie in the range of [a] and in [sub]. *)
Definition fits (a : rmnode) (sub : range) (n P : Z) : Prop :=
  start (n_r a) <= P /\ P + n <= end_ (n_r a) /\ start sub <= P /\ P + n <= end_ sub.

#[export] Instance rmnode_eq_dec : EqDecision rmnode.
Proof. solve_decision. Defined.

Section Proofs.
Context {h : Heap} {hl : HeapLaws h} {ht : HeapTotal h}.
Implicit Types i : id_heap.

Lemma search_range_spec b n s0 e sb :
  bitmap_ok b -> 0 < n -> 0 <= s0 -> s0 <= sb -> s0 + n < 2 ^ 63 -> sb + n < 2 ^ 63 -> e <= maxbits b ->
  maxbits b < 2 ^ 33 -> sb <= e ->
  (2 ^ find_order n < 64 -> (2 ^ find_order n | s0)) -> (2 ^ find_order n | sb - s0) -> n <= 2 ^ find_order n ->
  exists b' o, search_range b n (irange s0 e) sb = Some (b', o) /\
    match o with
    | Some p => s0 <= p /\ p + n <= e /\ (2 ^ find_order n | p - s0) /\ clear_at b p n /\ updated b p n true b'
    | None => updated b 0 0 true b' /\
        forall q, s0 <= q -> q + n <= e -> (2 ^ find_order n | q - s0) -> ~ clear_at b q n
    end.
Proof.
  intros Hok Hn Hs0 Hsb Hw1 Hw2 He Hm Hsbe Hal Hd Hnd. unfold search_range, bitmap_alloc_within_range.
  set (stride := 2 ^ find_order n) in *. cbn [start end_].
  assert (Hdsb : forall x, (stride | x - s0) -> (stride | x - sb)).
  { intros x Hx. replace (x - sb) with (x - s0 - (sb - s0)) by lia. by apply Z.divide_sub_r. }
  destruct (alloc_internal_spec b n sb e Hok Hn) as ([b1 o1] & -> & Hp1); [lia..| |].
  { intros Hlt. replace sb with (s0 + (sb - s0)) by lia. apply Z.divide_add_r; auto. }
  fold stride in Hp1. rewrite Z.min_l in Hp1 by lia. cbn [mbind option_bind].
  unfold alloc_post in Hp1. cbn [fst snd] in Hp1. destruct o1 as [p|].
  - destruct Hp1 as (Hr & Hdp & Hc & Hu & _). exists b1, (Some p). split; [done|].
    split; [lia|]. split; [lia|]. split; [|done].
    replace (p - s0) with (p - sb + (sb - s0)) by lia. by apply Z.divide_add_r.
  - destruct Hp1 as [Hu1 Hno1]. pose proof Hu1 as (Hok1 & Hm1 & Hbits1).
    assert (Hsame : same_bits b b1).
    { split; [done|]. intros j Hj. rewrite Hbits1 by done.
      by destruct (Z.leb_spec 0 j), (Z.ltb_spec j (0 + 0)); try lia. }
    destruct (Z.ltb_spec s0 sb) as [Hlt|Hge].
    + destruct (alloc_internal_spec b1 n s0 sb Hok1 Hn) as ([b2 o2] & -> & Hp2); [lia..|by apply Hal|].
      fold stride in Hp2. rewrite Z.min_l in Hp2 by lia.
      apply (alloc_post_same b b1) in Hp2; [|done..].
      unfold alloc_post in Hp2. cbn [fst snd] in Hp2. exists b2, o2. split; [done|]. destruct o2 as [p|].
      * destruct Hp2 as (Hr & Hdp & Hc & Hu & _). split; [lia|]. split; [lia|]. done.
      * destruct Hp2 as [Hu2 Hno2]. split; [done|]. intros q Hq1 Hq2 Hdq.
        destruct (Z.lt_ge_cases q sb); [|apply Hno1; [lia|auto]]. apply Hno2; [|done].
        destruct Hdq as [k Hk], Hd as [k' Hk']. assert (k < k') by nia. nia.
    + exists b1, None. split; [done|]. split; [done|]. intros q Hq1 Hq2 Hdq. apply Hno1; [lia|auto].
Qed.

Lemma find_order_small n : 0 < n <= 512 -> 0 <= find_order n < 10 /\ n <= 2 ^ find_order n <= 512.
Proof.
  intros Hn. destruct (find_order_spec n ltac:(lia)) as [Ho Hle].
  assert (Hlt : find_order n < 10).
  { unfold find_order, msb. destruct (Z.ltb_spec 1 n); [|lia]. destruct (Z.eqb_spec (n - 1) 0); [lia|].
    assert (Z.log2 (n - 1) < 9); [|lia]. apply Z.log2_lt_pow2; lia. }
  split; [lia|]. split; [done|]. change 512 with (2 ^ 9). apply Z.pow_le_mono_r; lia.
Qed.

Lemma get_next_bit_ok a r o : range_ok a r -> 0 <= o < 10 ->
  0 <= get_next_bit r o < 2 ^ 63 /\ (get_next_bit r o = 0 \/ (2 ^ o | bitmap_start r + get_next_bit r o)).
Proof.
  intros Hr Ho. unfold get_next_bit, NEXT_BIT_COUNT. rewrite Z.min_l by lia. rewrite nth_lookup.
  destruct (next_bit r !! Z.to_nat o) as [nb|] eqn:E.
  - pose proof (ro_next _ _ Hr _ _ E) as Hn. rewrite Z2Nat.id in Hn by lia. done.
  - simpl. split; [lia|by left].
Qed.

Lemma set_next_bit_ok a r o nb : range_ok a r -> 0 <= o < 10 -> 0 <= nb < 2 ^ 63 ->
  (2 ^ o | bitmap_start r + nb) -> range_ok a (set_next_bit r o nb).
Proof.
  intros Hr Ho Hnb Hd. unfold set_next_bit, NEXT_BIT_COUNT. destruct (Z.ltb_spec o 10); [|lia].
  destruct Hr as [H1 H2 H3 H4 H5 H6]. split; simpl; try done; [by rewrite length_insert|].
  intros o' nb' E. destruct (decide (o' = Z.to_nat o)) as [->|Hne].
  - rewrite list_lookup_insert_eq in E by lia. injection E as <-. rewrite Z2Nat.id by lia. by split; [|right].
  - rewrite list_lookup_insert_ne in E by done. by apply H6.
Qed.

Lemma bitmap_start_bounds a r : range_ok a r -> valid_range (n_r a) ->
  0 <= bitmap_start r <= start (n_r a) /\ start (n_r a) < bitmap_start r + 64 /\ (64 | bitmap_start r).
Proof.
  intros Hr [Hv1 Hv2]. rewrite (ro_start _ _ Hr).
  pose proof (Z.div_mod (start (n_r a)) 64). pose proof (Z.mod_pos_bound (start (n_r a)) 64).
  split; [lia|]. split; [lia|]. exists (start (n_r a) / 64). lia.
Qed.

(** The bit positions searched for [n] pages in a range. *)
Section Positions.
Context (a : rmnode) (r : id_range) (sub : range) (n : Z).
Hypothesis Hr : range_ok a r.
Hypothesis Hv : valid_range (n_r a).
Hypothesis Hb : end_ (n_r a) < 2 ^ 61.
Hypothesis Hsub : 0 <= start sub /\ end_ sub < 2 ^ 64.
Hypothesis Hn : 0 < n <= 512.

Let stride := 2 ^ find_order n.
Let ri0 := range_intersection (n_r a) sub.
Let ri := irange (u64 (pad (start ri0) (U64_FROM_BIT (find_order n)) - bitmap_start r))
                 (u64 (end_ ri0 - bitmap_start r)).

Lemma no_position_empty : range_empty ri0 = true -> forall P, fits a sub n P -> False.
Proof.
  intros He P (H1 & H2 & H3 & H4). unfold range_empty, ri0 in He.
  destruct Hv as [Hv1 Hv2]. unfold range_intersection in He. cbv zeta in He. cbn [start end_] in He.
  destruct (Z.leb_spec (Z.min (end_ (n_r a)) (end_ sub)) (Z.max (start (n_r a)) (start sub))); [lia|].
  unfold range_span in He. cbn [start end_] in He. rewrite u64_small in He by lia. apply Z.eqb_eq in He. lia.
Qed.

(** When the intersection is not empty. *)
Hypothesis Hne : range_empty ri0 = false.

Lemma ri0_bounds : start ri0 = Z.max (start (n_r a)) (start sub) /\
  end_ ri0 = Z.min (end_ (n_r a)) (end_ sub) /\ start ri0 < end_ ri0.
Proof.
  unfold range_empty, ri0 in Hne |- *. unfold range_intersection in *. cbv zeta in *. cbn [start end_] in *.
  destruct (Z.leb_spec (Z.min (end_ (n_r a)) (end_ sub)) (Z.max (start (n_r a)) (start sub))); [done|].
  cbn [start end_]. lia.
Qed.

Lemma ri_bounds : exists P0, (stride | P0) /\ start ri0 <= P0 < start ri0 + stride /\
  start ri = P0 - bitmap_start r /\ end_ ri = end_ ri0 - bitmap_start r /\
  0 <= start ri < 2 ^ 62 /\ 0 < end_ ri <= maxbits (ir_b r).
Proof.
  destruct ri0_bounds as (E1 & E2 & Hlt). destruct (bitmap_start_bounds a r Hr Hv) as (B1 & B2 & _).
  destruct (find_order_small n Hn) as [Ho Hst]. destruct Hv as [Hv1 Hv2].
  unfold ri. cbn [start end_]. rewrite U64_FROM_BIT_pow by lia. fold stride in Hst |- *.
  assert (Hpad : (stride | pad (start ri0) stride) /\ start ri0 <= pad (start ri0) stride < start ri0 + stride).
  { destruct (Z.eq_dec (start ri0) 0) as [E0|].
    - rewrite E0. assert (Hz : pad 0 stride = 0); [|rewrite Hz; split; [apply Z.divide_0_r|lia]].
      unfold pad. change (u64 (0 - 1)) with (2 ^ 64 - 1).
      unfold stride. rewrite land_clear_low by lia.
      assert (Hq : 2 ^ find_order n * ((2 ^ 64 - 1) / 2 ^ find_order n) = 2 ^ 64 - 2 ^ find_order n).
      { replace (2 ^ 64) with (2 ^ (64 - find_order n) * 2 ^ find_order n)
          by (rewrite <- Z.pow_add_r by lia; f_equal; lia).
        replace (_ - 1) with ((2 ^ (64 - find_order n) - 1) * 2 ^ find_order n + (2 ^ find_order n - 1)) by lia.
        rewrite Z.div_add_l, Z.div_small by lia. lia. }
      rewrite Hq. replace (2 ^ 64 - 2 ^ find_order n + 2 ^ find_order n) with (2 ^ 64) by lia. done.
    - unfold stride. apply pad_pow2; lia. }
  destruct Hpad as [Hd Hp]. exists (pad (start ri0) stride). rewrite !u64_small by lia.
  split; [done|]. split; [done|]. split; [done|]. split; [done|].
  rewrite (ro_max _ _ Hr). lia.
Qed.

(** A page position is a bit position. *)
Lemma position_bit P : fits a sub n P -> (stride | P) ->
  start ri <= P - bitmap_start r /\ P - bitmap_start r + n <= end_ ri /\ (stride | P - bitmap_start r - start ri).
Proof.
  intros (H1 & H2 & H3 & H4) Hd. destruct ri_bounds as (P0 & Hd0 & Hp0 & -> & -> & _).
  destruct ri0_bounds as (E1 & E2 & _).
  assert (P0 <= P).
  { destruct Hd as [k ->], Hd0 as [k0 ->]. assert (k0 <= k) by nia. nia. }
  split; [lia|]. split; [lia|].
  replace (P - bitmap_start r - (P0 - bitmap_start r)) with (P - P0) by lia. by apply Z.divide_sub_r.
Qed.

Lemma bit_position q : start ri <= q -> q + n <= end_ ri -> (stride | q - start ri) ->
  fits a sub n (bitmap_start r + q) /\ (stride | bitmap_start r + q).
Proof.
  intros H1 H2 Hd. destruct ri_bounds as (P0 & Hd0 & Hp0 & Es & Ee & _).
  destruct ri0_bounds as (E1 & E2 & _). split.
  - unfold fits. lia.
  - replace (bitmap_start r + q) with (q - start ri + P0) by lia. by apply Z.divide_add_r.
Qed.

(** The first position of the search. *)
Definition first_bit : Z :=
  let span := Z.land (range_span ri) (not64 (U64_FROM_BIT (find_order n) - 1)) in
  let margin := if U64_FROM_BIT (find_order n) <? span then span - U64_FROM_BIT (find_order n) else 0 in
  if point_in_range ri (get_next_bit r (find_order n))
  then Z.min (get_next_bit r (find_order n)) (u64 (start ri + margin)) else start ri.

Lemma first_bit_spec : start ri <= end_ ri ->
  start ri <= first_bit <= end_ ri /\ (stride | first_bit - start ri).
Proof.
  intros Hle. destruct ri_bounds as (P0 & Hd0 & Hp0 & Es & Ee & Hs & Hm).
  destruct (find_order_small n Hn) as [Ho Hst]. fold stride in Hst.
  unfold first_bit, point_in_range. rewrite U64_FROM_BIT_pow by lia. fold stride.
  assert (Hsp : range_span ri = end_ ri - start ri) by (apply u64_small; pose proof (ro_small _ _ Hr); lia).
  rewrite Hsp. set (nb := get_next_bit r (find_order n)).
  assert (Espan : Z.land (end_ ri - start ri) (not64 (stride - 1)) = stride * ((end_ ri - start ri) / stride)).
  { apply land_clear_low; pose proof (ro_small _ _ Hr); lia. }
  rewrite Espan. set (k := (end_ ri - start ri) / stride).
  assert (Hk : 0 <= k /\ stride * k <= end_ ri - start ri).
  { split; [apply Z.div_pos; lia|apply Z.mul_div_le; lia]. }
  set (margin := if stride <? stride * k then stride * k - stride else 0).
  assert (Hmg : 0 <= margin <= end_ ri - start ri /\ (stride | margin)).
  { unfold margin. destruct (Z.ltb_spec stride (stride * k)); [|split; [lia|apply Z.divide_0_r]].
    split; [lia|]. exists (k - 1). lia. }
  destruct ((start ri <=? nb) && (nb <? end_ ri)) eqn:Epr; [|split; [lia|]; rewrite Z.sub_diag; apply Z.divide_0_r].
  breflect. rewrite u64_small by (pose proof (ro_small _ _ Hr); lia).
  assert (Hdn : (stride | nb - start ri)).
  { pose proof (get_next_bit_ok a r (find_order n) Hr Ho) as Hgn. fold nb in Hgn. destruct Hgn as [_ [E0|Hd]].
    - replace (start ri) with nb by lia. rewrite Z.sub_diag. apply Z.divide_0_r.
    - replace (nb - start ri) with (bitmap_start r + nb - P0) by lia. by apply Z.divide_sub_r. }
  destruct (Z.min_spec nb (start ri + margin)) as [[? ->]|[? ->]].
  - split; [lia|done].
  - split; [lia|]. replace (start ri + margin - start ri) with margin by lia. apply Hmg.
Qed.

Lemma start_stride : stride < 64 -> (stride | start ri).
Proof.
  intros Hlt. destruct ri_bounds as (P0 & Hd0 & _ & -> & _). destruct (bitmap_start_bounds a r Hr Hv) as (_ & _ & Hd64).
  destruct (find_order_small n Hn) as [Ho _].
  apply Z.divide_sub_r; [done|]. apply Z.divide_trans with 64; [|done].
  assert (find_order n < 6) by (apply (Z.pow_lt_mono_r_iff 2); unfold stride in Hlt; lia).
  exists (2 ^ (6 - find_order n)). unfold stride. rewrite <- Z.pow_add_r by lia.
  by replace (6 - find_order n + find_order n) with 6 by lia.
Qed.
End Positions.

(** The parts of a heap that allocation does not touch. *)
Definition same_frame i i' : Prop :=
  pagesize i' = pagesize i /\ page_order i' = page_order i /\ total i' = total i /\ flags i' = flags i /\
  parent i' = parent i /\ ranges i' = ranges i.

Lemma node_addr_inj i a b : id_ok i -> a ∈ rm_contents (ranges i) -> b ∈ rm_contents (ranges i) ->
  n_addr a = n_addr b -> a = b.
Proof.
  intros Hok Ha Hb E. pose proof (wf_addrs _ (wf_contents _ (id_ranges _ Hok))) as Hnd.
  apply list_elem_of_lookup in Ha as [x Hx], Hb as [y Hy].
  assert (x = y) as <-; [|congruence].
  eapply NoDup_lookup; [exact Hnd|rewrite list_lookup_fmap, Hx; done|].
  rewrite list_lookup_fmap, Hy. simpl. by rewrite E.
Qed.

Lemma set_info_ok i a r acc : id_ok i -> a ∈ rm_contents (ranges i) -> range_ok a r ->
  id_ok (set_info i (<[n_addr a := r]> (info i)) acc).
Proof.
  intros Hok Ha Hr. pose proof Hok as [H1 H2 H3 H4 H5]. split; simpl; try done. intros b Hb.
  destruct (decide (n_addr b = n_addr a)) as [E|Hne].
  - rewrite E, lookup_insert_eq. exists r. split; [done|].
    by rewrite (node_addr_inj i b a) by done.
  - rewrite lookup_insert_ne by congruence. by apply H5.
Qed.

Lemma set_info_other i a r acc b p : id_ok i -> a ∈ rm_contents (ranges i) -> b ∈ rm_contents (ranges i) ->
  b <> a -> node_used (set_info i (<[n_addr a := r]> (info i)) acc) b p = node_used i b p.
Proof.
  intros Hok Ha Hb Hne. unfold node_used. simpl. rewrite lookup_insert_ne; [done|].
  intros E. apply Hne. symmetry. by apply (node_addr_inj i).
Qed.

Lemma set_info_same i a r acc p :
  node_used (set_info i (<[n_addr a := r]> (info i)) acc) a p = mapbit (ir_b r) (p - bitmap_start r).
Proof. unfold node_used. simpl. by rewrite lookup_insert_eq. Qed.

Lemma range_ok_bitmap a r b p n v : range_ok a r -> updated (ir_b r) p n v b -> range_ok a (set_bitmap r b).
Proof. intros [H1 H2 H3 H4 H5 H6] (Hb & Hm & _). split; simpl; try done; congruence. Qed.

(** What a search of one range did. *)
Definition range_post i (a : rmnode) (sub : range) (n : Z) (i' : id_heap) (o : option Z) : Prop :=
  match o with
  | Some x => exists P, x = P * pagesize i /\ fits a sub n P /\ (2 ^ find_order n | P) /\
      (forall p, P <= p < P + n -> node_used i a p = false) /\
      (forall p, in_range (n_r a) p -> node_used i' a p = (P <=? p) && (p <? P + n) || node_used i a p) /\
      allocated i' = u64 (allocated i + n * pagesize i)
  | None => (forall p, in_range (n_r a) p -> node_used i' a p = node_used i a p) /\
      allocated i' = allocated i /\
      forall P, fits a sub n P -> (2 ^ find_order n | P) ->
        exists p, P <= p < P + n /\ node_used i a p = true
  end.

Definition range_result i a sub n i' o : Prop :=
  id_ok i' /\ same_frame i i' /\
  (forall b, b ∈ rm_contents (ranges i) -> b <> a -> forall p, node_used i' b p = node_used i b p) /\
  range_post i a sub n i' o.

Lemma same_frame_refl i : same_frame i i.
Proof. repeat split. Qed.

Lemma range_result_none i a sub n : id_ok i ->
  (forall P, fits a sub n P -> (2 ^ find_order n | P) -> False) -> range_result i a sub n i None.
Proof.
  intros Hok Hno. split; [done|]. split; [apply same_frame_refl|]. split; [done|]. split; [done|].
  split; [done|]. intros P Hf Hd. by destruct (Hno P).
Qed.

(** The bits of a range, read as pages. *)
Lemma clear_pages i a r P n : info i !! n_addr a = Some r ->
  clear_at (ir_b r) (P - bitmap_start r) n <-> forall p, P <= p < P + n -> node_used i a p = false.
Proof.
  intros E. unfold clear_at, node_used. rewrite E. split.
  - intros Hc p Hp. apply Hc. lia.
  - intros Hc q Hq. specialize (Hc (q + bitmap_start r) ltac:(lia)).
    by replace (q + bitmap_start r - bitmap_start r) with q in Hc by lia.
Qed.

Lemma not_clear_pages i a r P n : info i !! n_addr a = Some r -> ~ clear_at (ir_b r) (P - bitmap_start r) n ->
  exists p, P <= p < P + n /\ node_used i a p = true.
Proof.
  intros E Hnc. destruct (decide (Forall (fun k => node_used i a (P + Z.of_nat k) = false) (seq 0 (Z.to_nat n))))
    as [Hall|Hex].
  - exfalso. apply Hnc. apply (clear_pages i a r P n E). intros p Hp. rewrite Forall_forall in Hall.
    specialize (Hall (Z.to_nat (p - P))). replace (P + Z.of_nat (Z.to_nat (p - P))) with p in Hall by lia.
    apply Hall. apply elem_of_seq. lia.
  - apply not_Forall_Exists in Hex; [|apply _]. apply Exists_exists in Hex as (k & Hk & Hu).
    apply elem_of_seq in Hk. exists (P + Z.of_nat k). split; [lia|]. by apply not_false_is_true.
Qed.

Lemma set_next_fields r o nb :
  bitmap_start (set_next_bit r o nb) = bitmap_start r /\ ir_b (set_next_bit r o nb) = ir_b r.
Proof. unfold set_next_bit. by case_match. Qed.

Lemma found_result i a r sub n b q :
  id_ok i -> a ∈ rm_contents (ranges i) -> info i !! n_addr a = Some r -> range_ok a r ->
  valid_range (n_r a) -> end_ (n_r a) < 2 ^ 61 -> end_ (n_r a) * pagesize i < 2 ^ 64 -> 0 < n <= 512 ->
  fits a sub n (bitmap_start r + q) -> (2 ^ find_order n | bitmap_start r + q) ->
  clear_at (ir_b r) q n -> updated (ir_b r) q n true b ->
  let r' := set_next_bit (set_bitmap r b) (find_order n) (u64 (q + U64_FROM_BIT (find_order n))) in
  range_result i a sub n
    (set_info i (<[n_addr a := r']> (info i)) (u64 (allocated i + u64 (Z.shiftl n (page_order i)))))
    (Some (u64 (Z.shiftl (u64 (bitmap_start r' + q)) (page_order i)))).
Proof.
  intros Hok Ha Er Hr Hv Hb1 Hb2 Hn Hf HdP Hc Hu r'. pose proof Hf as (Hf1 & Hf2 & _).
  destruct (bitmap_start_bounds a r Hr Hv) as (Hbs & Hbs2 & _). destruct (find_order_small n Hn) as [Ho Hst].
  pose proof (id_order _ Hok) as Hpo. pose proof (ro_small _ _ Hr) as Hsm. rewrite (ro_max _ _ Hr) in Hsm.
  destruct (set_next_fields (set_bitmap r b) (find_order n) (u64 (q + U64_FROM_BIT (find_order n)))) as [Ebs Eib].
  fold r' in Ebs, Eib. cbn [set_bitmap bitmap_start ir_b] in Ebs, Eib.
  assert (Hr' : range_ok a r').
  { unfold r'. rewrite U64_FROM_BIT_pow, u64_small by lia.
    apply set_next_bit_ok; [by eapply range_ok_bitmap|lia|lia|].
    simpl. rewrite Z.add_assoc. apply Z.divide_add_r; [done|apply Z.divide_refl]. }
  split; [by apply set_info_ok|]. split; [repeat split|].
  split; [intros c Hc' Hne p; by apply set_info_other|]. exists (bitmap_start r + q). rewrite Ebs.
  assert (Hpq : (bitmap_start r + q + n) * pagesize i < 2 ^ 64) by (rewrite (id_pagesize _ Hok) in *; nia).
  assert (Hps : 0 < pagesize i) by (rewrite (id_pagesize _ Hok); lia).
  split.
  { rewrite (u64_small (bitmap_start r + q)) by lia.
    rewrite Z.shiftl_mul_pow2, <- (id_pagesize _ Hok) by lia. apply u64_small. nia. }
  split; [done|]. split; [done|]. split.
  { apply (clear_pages i a r _ _ Er). by replace (bitmap_start r + q - bitmap_start r) with q by lia. }
  split.
  - intros p Hp. rewrite set_info_same, Ebs, Eib. unfold in_range in Hp.
    destruct Hu as (_ & _ & Hu). rewrite Hu by lia. unfold node_used. rewrite Er.
    destruct (Z.leb_spec q (p - bitmap_start r)), (Z.leb_spec (bitmap_start r + q) p),
      (Z.ltb_spec (p - bitmap_start r) (q + n)), (Z.ltb_spec p (bitmap_start r + q + n)); simpl; done || lia.
  - simpl. rewrite Z.shiftl_mul_pow2, <- (id_pagesize _ Hok) by lia. f_equal. f_equal. apply u64_small. nia.
Qed.

Lemma missed_result i a r sub n b :
  id_ok i -> a ∈ rm_contents (ranges i) -> info i !! n_addr a = Some r -> range_ok a r ->
  valid_range (n_r a) -> updated (ir_b r) 0 0 true b ->
  (forall P, fits a sub n P -> (2 ^ find_order n | P) -> ~ clear_at (ir_b r) (P - bitmap_start r) n) ->
  range_result i a sub n (set_info i (<[n_addr a := set_bitmap r b]> (info i)) (allocated i)) None.
Proof.
  intros Hok Ha Er Hr Hv Hu Hno.
  split; [apply set_info_ok; [done..|by eapply range_ok_bitmap]|]. split; [repeat split|].
  split; [intros c Hc' Hne p; by apply set_info_other|]. split; [|split; [done|]].
  - intros p Hp. rewrite set_info_same. simpl. destruct (bitmap_start_bounds a r Hr Hv) as (Hbs & _ & _).
    unfold in_range in Hp. destruct Hu as (_ & _ & Hu). rewrite Hu by lia. unfold node_used. rewrite Er.
    by destruct (Z.leb_spec 0 (p - bitmap_start r)), (Z.ltb_spec (p - bitmap_start r) (0 + 0)); try lia.
  - intros P Hf Hd. apply (not_clear_pages i a r _ _ Er). by apply Hno.
Qed.

Lemma alloc_from_range_spec i a sub n rnd :
  id_ok i -> a ∈ rm_contents (ranges i) -> Z.land (flags i) ID_HEAP_FLAG_RANDOMIZE = 0 ->
  0 <= start sub /\ end_ sub < 2 ^ 64 -> 0 < n <= 512 ->
  exists i' o, id_alloc_from_range i (n_addr a) n sub rnd = Some (i', o) /\ range_result i a sub n i' o.
Proof.
  intros Hok Ha Hfl Hsub Hn. destruct (id_info _ Hok a Ha) as (r & Er & Hr).
  pose proof (id_bound _ Hok) as Hbd. rewrite Forall_forall in Hbd. destruct (Hbd a Ha) as [Hb1 Hb2].
  pose proof (wf_valid _ (wf_contents _ (id_ranges _ Hok))) as Hv. rewrite Forall_forall in Hv. specialize (Hv a Ha).
  unfold id_alloc_from_range. apply list_elem_of_split in Ha as Hsp. destruct Hsp as (l1 & l2 & Hin).
  rewrite (rm_deref_spec _ _ _ _ (wf_ok _ (id_ranges _ Hok)) Hin). cbn [mbind option_bind].
  rewrite Er. cbn [mbind option_bind].
  destruct (range_empty (range_intersection (n_r a) sub)) eqn:Ene.
  { exists i, None. split; [done|]. apply range_result_none; [done|]. intros P Hf _.
    by eapply (no_position_empty a sub n). }
  set (ri := irange _ _).
  destruct (ri_bounds a r sub n) as (P0 & Hd0 & Hp0 & Es & Ee & Hrs & Hre); [done..|].
  fold ri in Es, Ee, Hrs, Hre. pose proof (ro_small _ _ Hr) as Hsm.
  destruct (find_order_small n Hn) as [Ho Hst].
  destruct (negb (range_valid ri) || (range_span ri <? n)) eqn:Ebad.
  { exists i, None. split; [done|]. apply range_result_none; [done|]. intros P Hf Hd.
    destruct (position_bit a r sub n) with P as (H1 & H2 & _); [done..|]. fold ri in H1, H2.
    unfold range_valid, range_span in Ebad. rewrite u64_small in Ebad by lia.
    apply orb_true_iff in Ebad as [Ebad|Ebad]; breflect; lia. }
  breflect. unfold range_valid in *. breflect.
  rewrite Hfl. cbn [negb andb Z.eqb].
  change (if point_in_range ri (get_next_bit r (find_order n)) then _ else _) with (first_bit a r sub n).
  destruct (first_bit_spec a r sub n) as [Hfb Hfd]; [done..|fold ri; lia|].
  fold ri in Hfb, Hfd. set (sb := first_bit a r sub n) in *.
  destruct (search_range_spec (ir_b r) n (start ri) (end_ ri) sb) as (b & o & Esr & Hpost);
    [apply Hr|lia..| |done|lia|].
  { intros Hlt. apply (start_stride a r sub n); done. }
  replace (irange (start ri) (end_ ri)) with ri in Esr by (by destruct ri). rewrite Esr. cbn [mbind option_bind].
  destruct o as [q|].
  - destruct Hpost as (Hq1 & Hq2 & Hqd & Hc & Hu).
    destruct (bit_position a r sub n) with q as [Hf HdP]; [done..|].
    eexists _, _. split; [done|]. by apply found_result.
  - destruct Hpost as [Hu Hno]. eexists _, _. split; [done|]. apply missed_result; try done.
    intros P Hf Hd. destruct (position_bit a r sub n) with P as (H1' & H2' & H3'); [done..|]. by apply Hno.
Qed.

Definition same_use i i' : Prop :=
  forall b, b ∈ rm_contents (ranges i) -> forall p, in_range (n_r b) p -> node_used i' b p = node_used i b p.

(** What a search of the ranges [l] did. *)
Definition loop_post i (l : list rmnode) (sub : range) (n : Z) (i' : id_heap) (o : option Z) : Prop :=
  match o with
  | Some x => exists a, a ∈ l /\ range_post i a sub n i' (Some x) /\
      forall b, b ∈ rm_contents (ranges i) -> b <> a -> forall p, in_range (n_r b) p ->
        node_used i' b p = node_used i b p
  | None => same_use i i' /\ allocated i' = allocated i /\
      forall a P, a ∈ l -> fits a sub n P -> (2 ^ find_order n | P) ->
        exists p, P <= p < P + n /\ node_used i a p = true
  end.

Lemma same_frame_trans i i1 i2 : same_frame i i1 -> same_frame i1 i2 -> same_frame i i2.
Proof. unfold same_frame. intros (? & ? & ? & ? & ? & ?) (? & ? & ? & ? & ? & ?). repeat split; congruence. Qed.

Lemma fits_in_range a sub n P p : fits a sub n P -> P <= p < P + n -> in_range (n_r a) p.
Proof. unfold fits, in_range. lia. Qed.

Lemma loop_post_next i i1 a l1 l sub n i' o :
  rm_contents (ranges i) = l1 ++ a :: l -> same_frame i i1 -> same_use i i1 -> allocated i1 = allocated i ->
  (forall P, fits a sub n P -> (2 ^ find_order n | P) -> exists p, P <= p < P + n /\ node_used i a p = true) ->
  loop_post i1 l sub n i' o -> loop_post i (a :: l) sub n i' o.
Proof.
  intros Hin (Hps & _ & _ & _ & _ & Hrg) Hsu Hal Hno. unfold loop_post, same_use in *. rewrite Hrg.
  assert (Hl : forall b, b ∈ l -> b ∈ rm_contents (ranges i)).
  { intros b Hb. rewrite Hin, elem_of_app, elem_of_cons. auto. }
  destruct o as [x|].
  - intros (b & Hb & (P & -> & Hf & Hd & Hfree & Hnew & Hacc) & Hoth). exists b.
    split; [by right|]. split.
    + exists P. rewrite Hps. split; [done|]. split; [done|]. split; [done|]. split.
      { intros p Hp. rewrite <- (Hsu b) by eauto using fits_in_range. auto. }
      split; [|by rewrite Hacc, Hal, Hps]. intros p Hp. rewrite Hnew by done. f_equal. by apply Hsu; auto.
    + intros c Hc Hne p Hp. rewrite Hoth by done. by apply Hsu.
  - intros (Hsame & Hacc & Hmiss). split.
    { intros b Hb p Hp. rewrite Hsame by done. by apply Hsu. }
    split; [congruence|]. intros b P Hb Hf Hd. apply elem_of_cons in Hb as [->|Hb]; [by apply Hno|].
    destruct (Hmiss b P Hb Hf Hd) as (p & Hp & Hu). exists p. split; [done|].
    rewrite <- (Hsu b) by eauto using fits_in_range. done.
Qed.

Context (random_u64 : nat -> Z) (parent_alloc : Z -> option Z).

Lemma alloc_loop_spec sub n fuel : forall l1 l k i,
  id_ok i -> rm_contents (ranges i) = l1 ++ l -> Z.land (flags i) ID_HEAP_FLAG_RANDOMIZE = 0 ->
  0 <= start sub /\ end_ sub < 2 ^ 64 -> 0 < n <= 512 -> (length l < fuel)%nat ->
  exists i' o, alloc_loop random_u64 fuel k i (n_addr <$> head l) n sub = Some (i', o) /\
    id_ok i' /\ same_frame i i' /\ loop_post i l sub n i' o.
Proof.
  induction fuel as [|fuel IH]; intros l1 l k i Hok Hin Hfl Hsub Hn Hf; [lia|].
  destruct l as [|a l]; cbn [alloc_loop head fmap option_fmap option_map].
  { exists i, None. split; [done|]. split; [done|]. split; [apply same_frame_refl|]. split; [done|]. split; [done|].
    intros a P Ha. by apply not_elem_of_nil in Ha. }
  assert (Ha : a ∈ rm_contents (ranges i)) by (rewrite Hin, elem_of_app, elem_of_cons; auto).
  destruct (alloc_from_range_spec i a sub n (random_u64 k) Hok Ha Hfl Hsub Hn)
    as (i1 & o & -> & Hok1 & Hfr & Hoth & Hpost).
  cbn [mbind option_bind]. destruct o as [x|].
  { exists i1, (Some x). split; [done|]. split; [done|]. split; [done|]. exists a. split; [by left|].
    split; [done|]. intros b Hb Hne p _. by apply Hoth. }
  destruct Hpost as (Hsame & Hacc & Hno). pose proof Hfr as (_ & _ & _ & Hfl1 & _ & Hrg).
  rewrite (next_node_spec (ranges i1) l1 a l) by (rewrite ?Hrg; done || apply wf_ok, Hok). cbn [mbind option_bind].
  destruct (IH (l1 ++ [a]) l (S k) i1) as (i' & o & -> & Hok' & Hfr' & Hpost); try done; try congruence.
  { rewrite Hrg, Hin, <- app_assoc. done. } { simpl in Hf. lia. }
  exists i', o. split; [done|]. split; [done|]. split; [by eapply same_frame_trans|].
  eapply loop_post_next; [exact Hin|exact Hfr| |done|exact Hno|exact Hpost].
  intros b Hb p Hp. destruct (decide (b = a)) as [->|Hne]; [by apply Hsame|by apply Hoth].
Qed.

Lemma inorder_size {A} (x : tree A) : length (inorder x) = tree_size x.
Proof. induction x; simpl; [done|]. rewrite length_app. simpl. lia. Qed.

Lemma use_after i a n P i' : id_ok i -> a ∈ rm_contents (ranges i) -> ranges i' = ranges i ->
  start (n_r a) <= P -> P + n <= end_ (n_r a) ->
  (forall p, in_range (n_r a) p -> node_used i' a p = (P <=? p) && (p <? P + n) || node_used i a p) ->
  (forall b, b ∈ rm_contents (ranges i) -> b <> a -> forall p, in_range (n_r b) p ->
     node_used i' b p = node_used i b p) ->
  forall p, page_used i' p <-> P <= p < P + n \/ page_used i p.
Proof.
  intros Hok Ha Hrg H1 H2 Hnew Hoth p. unfold page_used. rewrite Hrg. split.
  - intros (b & Hb & Hp & Hu). destruct (decide (b = a)) as [->|Hne].
    + rewrite Hnew in Hu by done. apply orb_true_iff in Hu as [Hu|Hu]; [left; breflect; lia|right; eauto].
    + rewrite Hoth in Hu by done. right. eauto.
  - intros [Hp|(b & Hb & Hp & Hu)].
    + exists a. split; [done|]. split; [unfold in_range; lia|]. rewrite Hnew by (unfold in_range; lia).
      apply orb_true_iff. left. by apply bit_in_range.
    + exists b. split; [done|]. split; [done|]. destruct (decide (b = a)) as [->|Hne].
      * rewrite Hnew, Hu by done. apply orb_true_r.
      * by rewrite Hoth.
Qed.

Lemma not_used i a p : id_ok i -> a ∈ rm_contents (ranges i) -> in_range (n_r a) p ->
  page_used i p <-> node_used i a p = true.
Proof.
  intros Hok Ha Hp. split; [|intros Hu; by exists a].
  intros (b & Hb & Hpb & Hu).
  by rewrite (covering_unique _ a b p (wf_contents _ (id_ranges _ Hok)) Ha Hb Hp Hpb).
Qed.

Lemma pages_from_bytes_spec i count : id_ok i -> 0 < count <= 512 * pagesize i ->
  let n := (count + pagesize i - 1) / pagesize i in 0 < n <= 512 /\ pages_from_bytes i count = n.
Proof.
  intros Hok Hc n. pose proof (id_order _ Hok) as Ho. pose proof (id_pagesize _ Hok) as Hp.
  assert (0 < pagesize i <= 2 ^ 52) by (rewrite Hp; split; [lia|apply Z.pow_le_mono_r; lia]).
  assert (Hn : 0 < n <= 512).
  { unfold n. split.
    - assert (1 <= (count + pagesize i - 1) / pagesize i); [|lia]. apply Z.div_le_lower_bound; lia.
    - assert ((count + pagesize i - 1) / pagesize i < 513); [|lia]. apply Z.div_lt_upper_bound; lia. }
  split; [done|]. unfold pages_from_bytes.
  destruct (pad_pow2 count (page_order i)) as [[k Hk] Hb]; [lia..|]. rewrite <- Hp in Hk, Hb.
  rewrite Z.shiftr_div_pow2, <- Hp, Hk, Z.div_mul by lia.
  assert (k = n); [|rewrite s32_small, u64_small by lia; done].
  unfold n. apply Z.div_unique with (count + pagesize i - 1 - pagesize i * k); lia.
Qed.

(** A walk over pages inside one range sees just that range. *)
Lemma single_walk i a q : id_ok i -> a ∈ rm_contents (ranges i) ->
  start (n_r a) <= start q < end_ q -> end_ q <= end_ (n_r a) ->
  walk_events q (start q) (from (start q) (rm_contents (ranges i))) = [inl a].
Proof.
  intros Hok Ha Hs He. apply list_elem_of_split in Ha as (l1 & l2 & Hin). rewrite Hin.
  pose proof (wf_contents _ (id_ranges _ Hok)) as Hwf. rewrite Hin in Hwf.
  destruct (precedes_mid l1 a l2 Hwf) as (H1 & H2 & _).
  assert (Hgap : forall x y, y <= start q \/ end_ q <= x -> gap_event q x y = []).
  { intros x y Hxy. unfold gap_event, range_intersection. cbv zeta. cbn [start end_].
    destruct (Z.leb_spec (Z.min y (end_ q)) (Z.max x (start q))); [done|lia]. }
  rewrite from_app_before by (eapply Forall_impl; [exact H1|]; unfold precedes; simpl; lia).
  unfold from. rewrite filter_cons_True by lia. cbn [walk_events].
  assert (Ho : overlap q (n_r a) = true) by (apply overlap_spec; exists (start q); unfold in_range; lia).
  rewrite Ho, Hgap by lia. cbn [app]. f_equal. rewrite filter_all.
  2: { pose proof (wf_valid _ Hwf) as [_ [_ Hv]%Forall_cons]%Forall_app.
       apply Forall_forall. intros b Hb. rewrite Forall_forall in H2, Hv.
       specialize (H2 b Hb). destruct (Hv b Hb). lia. }
  destruct l2 as [|b l2]; cbn [walk_events]; [by rewrite Hgap by lia|].
  apply Forall_cons in H2 as [Hb _]. unfold precedes in Hb.
  replace (overlap q (n_r b)) with false; [by rewrite Hgap by lia|].
  symmetry. apply not_true_iff_false. rewrite overlap_spec. unfold in_range. intros (x & Hx1 & Hx2). lia.
Qed.

(** Giving back [n] pages from [P], inside the range of [a]. *)
Lemma dealloc_from_range_spec i a n P :
  id_ok i -> a ∈ rm_contents (ranges i) -> start (n_r a) <= P -> P + n <= end_ (n_r a) -> 0 < n ->
  n * pagesize i <= allocated i -> (forall p, P <= p < P + n -> node_used i a p = true) ->
  exists i', dealloc_from_range (irange P (P + n)) (Some i) a = (Some i', true) /\ id_ok i' /\ same_frame i i' /\
    (forall c, c ∈ rm_contents (ranges i) -> c <> a -> forall p, node_used i' c p = node_used i c p) /\
    (forall p, in_range (n_r a) p ->
       node_used i' a p = negb ((P <=? p) && (p <? P + n)) && node_used i a p) /\
    allocated i' = allocated i - n * pagesize i.
Proof.
  intros Hok Ha HP1 HP2 Hn Hacc Hused. destruct (id_info _ Hok a Ha) as (r & Er & Hr).
  pose proof (wf_valid _ (wf_contents _ (id_ranges _ Hok))) as Hv. rewrite Forall_forall in Hv. specialize (Hv a Ha).
  pose proof (id_bound _ Hok) as Hbd. rewrite Forall_forall in Hbd. destruct (Hbd a Ha) as [Hb1 Hb2].
  destruct (bitmap_start_bounds a r Hr Hv) as (Hbs & Hbs2 & _). pose proof (ro_small _ _ Hr) as Hsm.
  pose proof (ro_max _ _ Hr) as Hmax. rewrite Hmax in Hsm. pose proof (id_order _ Hok) as Hpo.
  unfold dealloc_from_range. cbn [mbind option_bind].
  assert (Eri : range_intersection (irange P (P + n)) (n_r a) = irange P (P + n)).
  { unfold range_intersection. cbv zeta. cbn [start end_]. rewrite Z.max_l, Z.min_l by lia.
    destruct (Z.leb_spec (P + n) P); [lia|done]. }
  rewrite Eri, Er. cbn [mbind option_bind start end_]. rewrite s32_small, u64_small by lia.
  assert (Espan : range_span (irange P (P + n)) = n).
  { unfold range_span. cbn [start end_]. rewrite u64_small by lia. lia. }
  rewrite Espan. set (q := P - bitmap_start r).
  assert (Hset : forall x, q <= x < q + n -> mapbit (ir_b r) x = true).
  { intros x Hx. specialize (Hused (x + bitmap_start r) ltac:(lia)). unfold node_used in Hused. rewrite Er in Hused.
    by replace (x + bitmap_start r - bitmap_start r) with x in Hused by lia. }
  destruct (dealloc_spec (ir_b r) q n (ro_bitmap _ _ Hr)) as (b & ok & -> & Hiff & Hres);
    [lia..|by apply set_in_map|lia|].
  destruct ok; [|by pose proof (proj2 Hiff Hset)]. destruct Hres as [_ Hu].
  cbn [mbind option_bind negb].
  pose proof (range_ok_bitmap a r b _ _ _ Hr Hu) as Hrb.
  set (r' := if _ && _ && _ then _ else _).
  assert (Hr' : range_ok a r' /\ bitmap_start r' = bitmap_start r /\ ir_b r' = b).
  { unfold r'. case_test; [|done]. destruct (set_next_fields (set_bitmap r b) (find_order n) q) as [-> ->].
    split; [|done]. unfold set_next_bit. destruct (find_order n <? NEXT_BIT_COUNT) eqn:Eo; [|done].
    unfold NEXT_BIT_COUNT in Eo. breflect.
    destruct (find_order_spec n ltac:(lia)) as [Ho _].
    pose proof (set_next_bit_ok a (set_bitmap r b) (find_order n) q Hrb ltac:(lia) ltac:(lia)) as Hs.
    unfold set_next_bit, NEXT_BIT_COUNT in Hs. destruct (Z.ltb_spec (find_order n) 10); [|lia]. apply Hs. simpl.
    replace (bitmap_start r + q) with P by lia. rewrite U64_FROM_BIT_pow in * by lia.
    apply Z.mod_divide; [lia|]. rewrite <- Z.land_ones, Z.ones_equiv, <- Z.sub_1_r by lia. congruence. }
  destruct Hr' as (Hr' & Ebs & Eib).
  assert (Hpp : 0 < pagesize i) by (rewrite (id_pagesize _ Hok); lia).
  rewrite Z.shiftl_mul_pow2, <- (id_pagesize _ Hok) by lia. rewrite u64_small by nia.
  unfold kassert. destruct (Z.leb_spec (n * pagesize i) (allocated i)); [|lia]. cbn [mbind option_bind].
  eexists. split; [done|]. split; [by apply set_info_ok|]. split; [repeat split|].
  split; [intros c Hc Hne p; by apply set_info_other|]. split; [|done].
  intros p Hp. rewrite set_info_same, Ebs, Eib. unfold in_range in Hp. destruct Hu as (_ & _ & Hu).
  rewrite Hu by lia. unfold node_used. rewrite Er.
  destruct (Z.leb_spec q (p - bitmap_start r)), (Z.leb_spec P p),
    (Z.ltb_spec (p - bitmap_start r) (q + n)), (Z.ltb_spec p (P + n)); simpl; done || lia.
Qed.

Lemma mark_head b k : bitmap_ok b -> 0 < k < 64 -> k <= maxbits b ->
  exists b', bitmap_range_check_and_set b 0 k false true = Some (b', true) /\ updated b 0 k true b'.
Proof.
  intros Hok Hk Hm. unfold bitmap_range_check_and_set. rewrite !u64_small by lia.
  destruct (Z.leb_spec (maxbits b) 0); [lia|]. destruct (Z.ltb_spec (maxbits b) (0 + k)); [lia|]. cbn [orb].
  destruct (extend_same b (0 + k - 1) Hok) as (b1 & r & -> & Hok1 & Hs1 & Hl1); [lia|]. cbn [mbind option_bind negb].
  destruct (range_op_spec b1 0 k true true Hok1) as (b2 & r2 & -> & -> & _ & Hu); [lia..|].
  exists b2. split; [done|]. by eapply same_updated.
Qed.

Lemma land_mask k x : 0 <= k -> Z.land (2 ^ k * x) (2 ^ k - 1) = 0.
Proof.
  intros Hk. replace (2 ^ k - 1) with (Z.ones k) by (rewrite Z.ones_equiv; lia).
  rewrite Z.land_ones by lia. rewrite Z.mul_comm. apply Z.mod_mul. lia.
Qed.

Lemma shift_pages k x : 0 <= k -> Z.shiftr (2 ^ k * x) k = x.
Proof. intros Hk. rewrite Z.shiftr_div_pow2, Z.mul_comm by lia. apply Z.div_mul. lia. Qed.

(** The bitmap of a new range: all its pages are free. *)
Lemma new_range_bitmap s n : 0 <= s -> 0 < n -> n + 64 < 2 ^ 31 ->
  exists b, allocate_bitmap sizeof_bitmap sizeof_buffer (u64 (n + s mod 64)) = Some (Some b) /\
  exists b', (if negb (s mod 64 =? 0) then
      '(b, _) ← bitmap_range_check_and_set b 0 (s mod 64) false true; Some b else Some b) = Some b' /\
    range_ok {| n_addr := 0; n_r := irange s (s + n) |}
      {| ir_b := b'; bitmap_start := 64 * (s / 64); next_bit := replicate (Z.to_nat NEXT_BIT_COUNT) 0 |} /\
    forall p, s <= p < s + n -> mapbit b' (p - 64 * (s / 64)) = false.
Proof.
  intros Hs Hn Hsm. pose proof (Z.div_mod s 64 ltac:(lia)) as Hdm. pose proof (Z.mod_pos_bound s 64 ltac:(lia)) as Hm.
  rewrite u64_small by lia.
  destruct (allocate_bitmap_spec sizeof_bitmap sizeof_buffer (n + s mod 64)) as (o & -> & Ho); [done|done|lia|].
  destruct o as [b|]; [|destruct Ho as (x & Hx & Ex); by destruct (allocate_total x Hx)].
  destruct Ho as (Hok & Hmax & _ & Hclear). exists b. split; [done|].
  assert (Hb' : exists b', (if negb (s mod 64 =? 0) then
      '(b, _) ← bitmap_range_check_and_set b 0 (s mod 64) false true; Some b else Some b) = Some b' /\
    bitmap_ok b' /\ maxbits b' = maxbits b /\ forall x, s mod 64 <= x -> mapbit b' x = false).
  { destruct (Z.eqb_spec (s mod 64) 0) as [E|E]; cbn [negb].
    - exists b. split; [done|]. split; [done|]. split; [done|]. intros x Hx. apply Hclear. lia.
    - destruct (mark_head b (s mod 64) Hok) as (b' & -> & Hok' & Hm' & Hu); [lia..|].
      exists b'. split; [done|]. split; [done|]. split; [done|]. intros x Hx. rewrite Hu by lia.
      destruct (Z.ltb_spec x (0 + s mod 64)); [lia|]. rewrite andb_false_r. apply Hclear. lia. }
  destruct Hb' as (b' & Eb & Hok' & Hmax' & Hcl). exists b'. split; [exact Eb|]. split.
  - split; cbn [ir_b bitmap_start next_bit n_r start end_]; try done; try lia.
    intros o nb E. apply lookup_replicate in E as [-> _]. split; [lia|by left].
  - intros p Hp. apply Hcl. lia.
Qed.

Lemma same_ranges_use i i' p : ranges i' = ranges i -> same_use i i' -> page_used i' p <-> page_used i p.
Proof.
  intros Hr Hs. unfold page_used. rewrite Hr.
  split; intros (a & Ha & Hp & Hu); exists a; (split; [done|]); (split; [done|]);
    [rewrite <- (Hs a)|rewrite (Hs a)]; done.
Qed.

Lemma add_range_spec i s n p :
  id_ok i -> 0 <= s -> 0 < n -> n + 64 < 2 ^ 31 -> s + n < 2 ^ 61 -> (s + n) * pagesize i < 2 ^ 64 ->
  p <> 0 -> p ∉ n_addr <$> rm_contents (ranges i) -> rangemap_count (ranges i) < 2 ^ 64 - 1 ->
  Forall (fun a => overlap (irange s (s + n)) (n_r a) = false) (rm_contents (ranges i)) ->
  exists i' r, id_add_range i (s * pagesize i) (n * pagesize i) (Some p) = Some (i', Some p) /\
    let a := {| n_addr := p; n_r := irange s (s + n) |} in
    id_ok i' /\ rm_contents (ranges i') ≡ₚ a :: rm_contents (ranges i) /\
    info i' = <[p := r]> (info i) /\ (forall x, in_range (n_r a) x -> node_used i' a x = false) /\
    total i' = u64 (total i + n * pagesize i) /\ allocated i' = allocated i.
Proof.
  intros Hok Hs Hn Hsm Hb Hbp Hp0 Hfresh Hcnt Hdis. pose proof (id_order _ Hok) as Ho.
  pose proof (id_pagesize _ Hok) as Hps. assert (0 < pagesize i) by (rewrite Hps; lia).
  unfold id_add_range. rewrite <- !(Z.mul_comm (pagesize i)).
  destruct (Z.eqb_spec (pagesize i * n) infinity) as [E|_].
  { exfalso. rewrite Hps in E. unfold infinity in E. destruct (Z.eq_dec (page_order i) 0) as [Ez|Ez].
    - rewrite Ez in E. lia.
    - replace (page_order i) with (Z.succ (page_order i - 1)) in E by lia.
      rewrite Z.pow_succ_r, <- Z.mul_assoc in E by lia. lia. }
  unfold page_mask, kassert. destruct (Z.leb_spec (pagesize i) (pagesize i * n)); [|nia].
  rewrite Hps, !land_mask, !shift_pages by lia. cbn [mbind option_bind Z.eqb].
  unfold irangel. rewrite (u64_small (s + n)) by lia. set (a := {| n_addr := p; n_r := irange s (s + n) |}).
  assert (Hva : valid_range (n_r a)) by (unfold valid_range; simpl; lia).
  pose proof (insert_spec (ranges i) a (id_ranges _ Hok) Hva Hp0 Hfresh Hcnt) as Hins.
  destruct (first_overlap (n_r a) (rm_contents (ranges i))) as [c|] eqn:Ef.
  { apply first_overlap_some in Ef as [Hc Hoc]. rewrite Forall_forall in Hdis. by rewrite Hdis in Hoc. }
  destruct Hins as (rm' & -> & Hwf' & Hc' & Hfr & Hkey). cbn [mbind option_bind negb].
  rewrite land_63. destruct (new_range_bitmap s n Hs Hn Hsm) as (b & -> & b' & Eb & Hro & Hfree).
  cbn [mbind option_bind]. rewrite Eb. cbn [mbind option_bind].
  assert (Ebs : Z.land s (not64 BITMAP_WORDMASK) = 64 * (s / 64)) by (apply (land_clear_low s 6); lia).
  rewrite Ebs. eexists _, _. split; [done|]. cbv zeta.
  assert (Hperm : rm_contents rm' ≡ₚ a :: rm_contents (ranges i)) by (rewrite Hc'; by apply insert_sorted_perm).
  split; [|split; [done|]; split; [done|]; split; [|done]].
  - split; simpl; [done|done|done| |].
    + rewrite Hperm. constructor; [|apply Hok]. simpl. done.
    + intros c Hc. rewrite Hperm in Hc. apply elem_of_cons in Hc as [->|Hc].
      * rewrite lookup_insert_eq. eexists. split; [done|]. destruct Hro. by split.
      * rewrite lookup_insert_ne; [by apply (id_info _ Hok)|]. intros E. apply Hfresh.
        rewrite E. by apply list_elem_of_fmap_2.
  - intros x Hx. unfold node_used. simpl. rewrite lookup_insert_eq. cbn [ir_b bitmap_start]. by apply Hfree.
Qed.
End Proofs.

(** ** The properties *)

(** A heap of pages with no range yet. *)
Definition empty_heap (order : Z) : id_heap :=
  {| pagesize := 2 ^ order; page_order := order; allocated := 0; total := 0; flags := 0; parent := None;
     ranges := init_rangemap; info := ∅ |}.

Lemma empty_heap_ok order : 0 <= order <= 52 -> id_ok (empty_heap order).
Proof.
  intros Ho. split; simpl; try done.
  - split; [apply init_rbtree_inv|split; constructor].
  - intros a Ha. by apply not_elem_of_nil in Ha.
Qed.

(** [id_add_range] on a range of whole pages that meets no range of the heap,
    with memory for it: the heap then owns exactly the new pages besides its own,
    the new pages are free, the use of the others is unchanged, the total grows by
    the length, and the heap is well formed. *)
Theorem id_add_range_free {h : Heap} {hl : HeapLaws h} {ht : HeapTotal h} i s n p :
  id_ok i -> 0 <= s -> 0 < n -> n + 64 < 2 ^ 31 -> s + n < 2 ^ 61 -> (s + n) * pagesize i < 2 ^ 64 ->
  p <> 0 -> p ∉ n_addr <$> rm_contents (ranges i) -> rangemap_count (ranges i) < 2 ^ 64 - 1 ->
  (forall x, s <= x < s + n -> ~ covers (rm_contents (ranges i)) x) ->
  exists i', add_range i (s * pagesize i) (n * pagesize i) (Some p) = Some (i', true) /\ id_ok i' /\
    (forall x, covers (rm_contents (ranges i')) x <-> s <= x < s + n \/ covers (rm_contents (ranges i)) x) /\
    (forall x, page_used i' x <-> page_used i x) /\
    total i' = u64 (total i + n * pagesize i) /\ allocated i' = allocated i.
Proof.
  intros Hok Hs Hn Hsm Hb Hbp Hp Hf Hc Hno.
  destruct (add_range_spec i s n p Hok Hs Hn Hsm Hb Hbp Hp Hf Hc) as (i' & r & E & Hok' & Hperm & Hinfo & Hfree & Ht & Ha).
  { apply Forall_forall. intros a Ha. apply not_true_iff_false. rewrite overlap_spec. intros (x & Hx1 & Hx2).
    apply (Hno x Hx1). by exists a. }
  exists i'. unfold add_range. rewrite E. split; [done|]. split; [done|]. split; [|split; [|done]].
  - intros x. unfold covers. setoid_rewrite Hperm. setoid_rewrite elem_of_cons. split.
    + intros (a & [->|Hin] & Hx); [by left|right; eauto].
    + intros [Hx|(a & Hin & Hx)]; eauto 10.
  - intros x. unfold page_used. setoid_rewrite Hperm. setoid_rewrite elem_of_cons.
    assert (Hother : forall a, a ∈ rm_contents (ranges i) -> node_used i' a x = node_used i a x).
    { intros a Hin. unfold node_used. rewrite Hinfo, lookup_insert_ne; [done|].
      intros ->. by apply Hf, list_elem_of_fmap_2. }
    split.
    + intros (a & [->|Hin] & Hx & Hu); [by rewrite Hfree in Hu|]. rewrite Hother in Hu by done. eauto.
    + intros (a & Hin & Hx & Hu). exists a. rewrite Hother by done. eauto.
Qed.

(** C16: [id_alloc] of up to 512 pages from a heap without randomisation and
    without a parent.  It returns.  An address it gives is a multiple of the page
    size and of the power of two that holds the allocation; its pages belong to the
    heap and were free, they are now used and no other page changes.  It fails only
    when every aligned run of that many pages in a range of the heap has a used
    page, and then nothing changes. *)
Theorem id_alloc_fresh {h : Heap} {hl : HeapLaws h} {ht : HeapTotal h} random_u64 parent_alloc i count ir :
  id_ok i -> Z.land (flags i) ID_HEAP_FLAG_RANDOMIZE = 0 -> parent i = None ->
  0 < count <= 512 * pagesize i ->
  let n := (count + pagesize i - 1) / pagesize i in
  exists i' o, id_alloc random_u64 parent_alloc i count ir = Some (i', o) /\ id_ok i' /\ same_frame i i' /\
    match o with
    | Some x => exists P, x = P * pagesize i /\ (2 ^ find_order n | P) /\
        (forall p, P <= p < P + n -> covers (rm_contents (ranges i)) p /\ ~ page_used i p) /\
        (forall p, page_used i' p <-> P <= p < P + n \/ page_used i p) /\
        allocated i' = u64 (allocated i + n * pagesize i)
    | None => (forall p, page_used i' p <-> page_used i p) /\ allocated i' = allocated i /\
        forall a P, a ∈ rm_contents (ranges i) -> start (n_r a) <= P -> P + n <= end_ (n_r a) ->
          (2 ^ find_order n | P) -> exists p, P <= p < P + n /\ page_used i p
    end.
Proof.
  intros Hok Hfl Hpar Hc n. destruct (pages_from_bytes_spec i count Hok Hc) as [Hn Epg]. fold n in Hn, Epg.
  unfold id_alloc. destruct (Z.eqb_spec count 0); [lia|]. rewrite Epg, first_node_spec by apply Hok.
  cbn [mbind option_bind].
  destruct (alloc_loop_spec random_u64 WHOLE_RANGE n (ranges_fuel i) [] (rm_contents (ranges i)) 0 i)
    as (i' & o & -> & Hok' & Hfr & Hpost); try done.
  { unfold ranges_fuel, rm_contents, contents. rewrite inorder_size. lia. }
  cbn [mbind option_bind]. pose proof Hfr as (_ & _ & _ & _ & Hpar' & Hrg).
  destruct o as [x|].
  - exists i', (Some x). split; [done|]. split; [done|]. split; [done|].
    destruct Hpost as (a & Ha & (P & -> & Hf & Hd & Hfree & Hnew & Hacc) & Hoth).
    exists P. split; [done|]. split; [done|]. split; [|split; [|done]].
    + intros p Hp. pose proof (fits_in_range _ _ _ _ _ Hf Hp) as Hin. split; [by exists a|].
      rewrite (not_used i a p Hok Ha Hin), Hfree by done. done.
    + destruct Hf as (Hf1 & Hf2 & _). by apply (use_after i a).
  - rewrite Hpar', Hpar. exists i', None. split; [done|]. split; [done|]. split; [done|].
    destruct Hpost as (Hsame & Hacc & Hno). split; [intros p; by apply same_ranges_use|]. split; [done|].
    intros a P Ha H1 H2 Hd. pose proof (id_bound _ Hok) as Hbd. rewrite Forall_forall in Hbd. destruct (Hbd a Ha).
    pose proof (wf_valid _ (wf_contents _ (id_ranges _ Hok))) as Hv. rewrite Forall_forall in Hv. destruct (Hv a Ha).
    assert (Hf : fits a WHOLE_RANGE n P) by (unfold fits; simpl; unfold infinity; lia).
    destruct (Hno a P Ha Hf Hd) as (p & Hp & Hu). exists p. split; [done|].
    apply (not_used i a p Hok Ha); [by eapply fits_in_range|done].
Qed.

Lemma id_alloc_fresh_witness :
  let h := zero_heap in
  exists i0 i1 x, add_range (empty_heap 12) (70 * 4096) (100 * 4096) (Some 1) = Some (i0, true) /\
    id_alloc (fun _ => 0) (fun _ => None) i0 5000 None = Some (i1, Some x) /\ x = 70 * 4096.
Proof.
  intros h. pose proof zero_heap_laws. pose proof zero_heap_total.
  destruct (add_range_spec (empty_heap 12) 70 100 1) as (i' & r & E & Hok & _); try done.
  { by apply empty_heap_ok. } { simpl. apply not_elem_of_nil. }
  assert (E' : add_range (empty_heap 12) (70 * 4096) (100 * 4096) (Some 1) = Some (i', true)).
  { unfold add_range. change 4096 with (pagesize (empty_heap 12)). by rewrite E. }
  assert (Hfr : Z.land (flags i') ID_HEAP_FLAG_RANDOMIZE = 0 /\ parent i' = None /\ pagesize i' = 4096).
  { vm_compute in E. by injection E as <-. }
  destruct Hfr as (Hfl & Hpar & Hps).
  destruct (id_alloc_fresh (fun _ => 0) (fun _ => None) i' 5000 None Hok Hfl Hpar) as (i1 & o & Ea & _).
  - rewrite Hps. done.
  - exists i', i1, (70 * 4096). split; [exact E'|]. split; [|done].
    rewrite Ea. vm_compute in E. injection E as <-. vm_compute in Ea. by injection Ea as <- <-.
Defined.

(** C17: [id_dealloc] of pages that lie in one range and are all in use: exactly
    those pages become free, and the count of allocated bytes goes down by their
    size. *)
Theorem id_dealloc_frees {h : Heap} {hl : HeapLaws h} {ht : HeapTotal h} i a n P :
  id_ok i -> a ∈ rm_contents (ranges i) -> start (n_r a) <= P -> P + n <= end_ (n_r a) -> 0 < n ->
  n * pagesize i <= allocated i -> (forall p, P <= p < P + n -> page_used i p) ->
  exists i', id_dealloc i (P * pagesize i) (n * pagesize i) = Some i' /\ id_ok i' /\
    (forall p, page_used i' p <-> page_used i p /\ ~ P <= p < P + n) /\
    allocated i' = allocated i - n * pagesize i.
Proof.
  intros Hok Ha HP1 HP2 Hn Hacc Hused. pose proof (id_order _ Hok) as Ho. pose proof (id_pagesize _ Hok) as Hps.
  assert (Hpp : 0 < pagesize i) by (rewrite Hps; lia).
  pose proof (id_bound _ Hok) as Hbd. rewrite Forall_forall in Hbd. destruct (Hbd a Ha) as [Hb1 Hb2].
  pose proof (wf_valid _ (wf_contents _ (id_ranges _ Hok))) as Hv. rewrite Forall_forall in Hv.
  destruct (Hv a Ha) as [Hv1 Hv2].
  unfold id_dealloc. destruct (Z.eqb_spec (n * pagesize i) 0); [nia|].
  unfold page_mask. rewrite !(Z.mul_comm _ (pagesize i)), Hps, !land_mask by lia. cbn [negb orb Z.eqb].
  unfold irangel, range_rshift. cbn [start end_]. rewrite (u64_small (_ + _)) by (rewrite <- Hps; nia).
  rewrite <- Z.mul_add_distr_l, !shift_pages by lia.
  rewrite (lookup_with_gaps_spec _ _ (ranges i)) by apply Hok.
  rewrite (single_walk i a (irange P (P + n)) Hok Ha) by (simpl; lia). cbn [dispatch].
  destruct (dealloc_from_range_spec i a n P Hok Ha) as (i' & -> & Hok' & Hfr & Hoth & Hnew & Hal); try done.
  { intros p Hp. apply (not_used i a p Hok Ha); [unfold in_range; lia|by apply Hused]. }
  cbn [mbind option_bind dispatch]. exists i'. split; [done|]. split; [done|].
  split; [|rewrite Hal, Hps; lia]. intros p. unfold page_used.
  destruct Hfr as (_ & _ & _ & _ & _ & ->). split.
  - intros (b & Hb & Hp & Hu). destruct (decide (b = a)) as [->|Hne].
    + rewrite Hnew in Hu by done. apply andb_true_iff in Hu as [Hnr Hu]. split; [eauto|].
      intros Hr. by rewrite (bit_in_range P p n Hr) in Hnr.
    + rewrite Hoth in Hu by done. split; [eauto|]. intros Hr. apply Hne.
      apply (covering_unique (rm_contents (ranges i)) b a p); [apply Hok|done..|unfold in_range; lia].
  - intros [(b & Hb & Hp & Hu) Hnr]. exists b. split; [done|]. split; [done|].
    destruct (decide (b = a)) as [->|Hne]; [|by rewrite Hoth].
    rewrite Hnew, Hu by done. destruct (Z.leb_spec P p), (Z.ltb_spec p (P + n)); done || lia.
Qed.

(** A heap of 100 pages from page 70 on, the first two of them taken. *)
Definition sample_heap : id_heap :=
  default (empty_heap 12)
    (i ← fst <$> @add_range zero_heap (empty_heap 12) (70 * 4096) (100 * 4096) (Some 1);
     fst <$> @id_alloc zero_heap (fun _ => 0) (fun _ => None) i 8192 None).

Lemma id_dealloc_frees_witness :
  let h := zero_heap in
  exists i', id_dealloc sample_heap (70 * 4096) (2 * 4096) = Some i' /\ allocated i' = 0.
Proof.
  intros h. pose proof zero_heap_laws. pose proof zero_heap_total.
  set (a := {| n_addr := 1; n_r := irange 70 170 |}).
  assert (Ha : a ∈ rm_contents (ranges sample_heap)) by (vm_compute; left).
  destruct (add_range_spec (empty_heap 12) 70 100 1) as (i0 & r & E & Hok0 & Hp0 & _ & Hfree & _); try done.
  { by apply empty_heap_ok. } { simpl. apply not_elem_of_nil. }
  destruct (alloc_loop_spec (fun _ => 0) WHOLE_RANGE 2 (ranges_fuel i0) [] (rm_contents (ranges i0)) 0 i0)
    as (i1 & o & E1 & Hok1 & _); try done.
  { vm_compute in E. by injection E as <-. }
  { unfold ranges_fuel, rm_contents, contents. rewrite inorder_size. lia. }
  assert (Hok : id_ok sample_heap).
  { vm_compute in E. injection E as <-. vm_compute in E1. injection E1 as <- <-. exact Hok1. }
  destruct (id_dealloc_frees sample_heap a 2 70) as (i' & Ed & _ & _ & Hal);
    [exact Hok|exact Ha|done|done|done|by vm_compute| |].
  - intros p Hp. exists a. split; [exact Ha|]. split; [unfold in_range; simpl; lia|].
    assert (p = 70 \/ p = 71) as [->| ->] by lia; by vm_compute.
  - exists i'. split; [exact Ed|]. rewrite Hal. by vm_compute.
Defined.

(** C39: with randomisation on, two allocations can share pages.  In a heap of
    4096 pages where the pages 64 and 65 are taken, a request for four pages whose
    random number is 62 is given the pages 62 to 65. *)
Theorem id_randomize_overlaps :
  exists i i1 i2, @create_id_heap zero_heap 0 0 0 (4096 * 4096) 4096 (Some 1) = Some (Some i) /\
    @set_area zero_heap i (64 * 4096) (2 * 4096) true true = Some (i1, true) /\
    page_used i1 64 /\ page_used i1 65 /\
    @id_alloc zero_heap (fun _ => 62) (fun _ => None) (set_randomize i1 true) (4 * 4096) None =
      Some (i2, Some (62 * 4096)).
Proof.
  do 3 eexists. split; [by vm_compute|]. split; [by vm_compute|].
  set (a := {| n_addr := 1; n_r := irange 0 4096 |}).
  split; [|split; [|by vm_compute]]; exists a; (split; [vm_compute; left|]);
    (split; [unfold in_range; simpl; lia|by vm_compute]).
Qed.

(** Beyond 512 pages the position of the next search is that of 512 pages,
    and an allocation need not be aligned to its size: after one of 512 pages, one
    of 1024 pages starts at page 512. *)
Theorem id_alloc_misaligned :
  exists i i1 i2, @create_id_heap zero_heap 0 0 0 (4096 * 4096) 4096 (Some 1) = Some (Some i) /\
    @id_alloc zero_heap (fun _ => 0) (fun _ => None) i (512 * 4096) None = Some (i1, Some 0) /\
    @id_alloc zero_heap (fun _ => 0) (fun _ => None) i1 (1024 * 4096) None = Some (i2, Some (512 * 4096)) /\
    512 mod 2 ^ find_order 1024 <> 0.
Proof. do 3 eexists. split; [by vm_compute|]. split; [by vm_compute|]. split; [by vm_compute|done]. Qed.
