(* ===== verification/Vector.v ===== *)
(** Vectors: [kernel/src/runtime/vector.h] and [vector.c], buffers used as arrays
    of 64-bit words.

    [VecOps] and [VecLaws] are what a vector promises to the code that keeps its
    data in one; the functions of the source are the instance on buffers.  [None]
    is a failed assertion or an access outside the memory of the buffer. *)

From S2P Require Import Prelude Words Heap Buffer.

Definition sizeof_pointer : Z := 8.

(** ** The interface *)

Class VecOps (V : Type) := {
  vget : V -> Z -> option Z;
  vset : V -> Z -> Z -> option (V * bool);
  vlength : V -> Z;
  vpush : V -> Z -> option V;
  vpeek : V -> option Z;
  vpop : V -> option (V * Z);
}.

Definition is_word (x : Z) : Prop := 0 <= x < 2 ^ 64.

(** The number of elements up to which the sizes fit the types of the code. *)
Definition vec_max : Z := 2 ^ 27.

(** [vrep v l]: the vector [v] holds the words [l]. *)
Class VecLaws (V : Type) `{VecOps V} := {
  vrep : V -> list Z -> Prop;
  vrep_words v l : vrep v l -> Forall is_word l;
  vrep_length v l : vrep v l -> Z.of_nat (length l) <= vec_max -> vlength v = Z.of_nat (length l);
  vrep_get v l i : vrep v l -> Z.of_nat (length l) <= vec_max -> 0 <= i < 2 ^ 31 ->
    vget v i = Some (nth (Z.to_nat i) l 0);
  vrep_set v l i x : vrep v l -> Z.of_nat (length l) <= vec_max -> 0 <= i < Z.of_nat (length l) -> is_word x ->
    exists v', vset v i x = Some (v', true) /\ vrep v' (<[Z.to_nat i := x]> l);
  vrep_push v l x v' : vrep v l -> Z.of_nat (length l) < vec_max -> is_word x -> vpush v x = Some v' ->
    vrep v' (l ++ [x]);
  vrep_peek v l : vrep v l -> vpeek v = Some (default 0 (last l));
  vrep_pop v l x : vrep v (l ++ [x]) -> exists v', vpop v = Some (v', x) /\ vrep v' l;
}.

(** ** The code *)

Section Code.
Context {h : Heap}.

Definition vector_get (v : buffer) (offset : Z) : option Z :=
  let boffset := u64 (offset * sizeof_pointer) in
  if (offset <? 0) || (buffer_length v <? u64 (boffset + sizeof_pointer)) then Some 0
  else off ← buffer_ref v boffset; read_u64 (b_contents v) off.

Definition vector_set (v : buffer) (offset value : Z) : option (buffer * bool) :=
  '(v, ok) ← extend_total v (u64 (s32 (offset + 1) * sizeof_pointer));
  if negb ok then Some (v, false)
  else
    c ← write_u64 (b_contents v) (b_start v + 8 * offset) value;
    Some (set_contents v c, true).

Definition vector_length (v : buffer) : Z := s32 (buffer_length v / sizeof_pointer).

Definition vector_clear (v : buffer) : buffer := set_window v 0 0.

(** The loop of [vector_delete]: each element moves one place down. *)
Fixpoint delete_shift (n : nat) (c : list Z) (base : Z) : option (list Z) :=
  match n with
  | O => Some c
  | S n' =>
      w ← read_bytes c (base + sizeof_pointer) sizeof_pointer;
      c ← write_bytes c base w;
      delete_shift n' c (base + sizeof_pointer)
  end.

Definition vector_delete (v : buffer) (offset : Z) : option (buffer * Z) :=
  let base := u64 (b_start v + u64 (offset * sizeof_pointer)) in
  if b_end v <? u64 (base + sizeof_pointer) then Some (v, 0)
  else
    res ← read_u64 (b_contents v) base;
    let len := vector_length v in
    c ← delete_shift (Z.to_nat (len - 1 - offset)) (b_contents v) base;
    Some (set_window (set_contents v c) (b_start v) (u64 (b_end v - sizeof_pointer)), res).

Definition vector_delete_range (v : buffer) (start end_ : Z) : option (buffer * Z) :=
  let start_offset := u64 (b_start v + u64 (start * sizeof_pointer)) in
  let end_offset := u64 (b_start v + u64 (end_ * sizeof_pointer)) in
  let end_offset := Z.min end_offset (b_end v) in
  if end_offset <=? start_offset then Some (v, 0)
  else
    c ← (if end_offset <? b_end v then
           src ← read_bytes (b_contents v) end_offset (b_end v - end_offset);
           write_bytes (b_contents v) start_offset src
         else Some (b_contents v));
    Some (set_window (set_contents v c) (b_start v) (u64 (b_end v - (end_offset - start_offset))),
          s32 ((end_offset - start_offset) / sizeof_pointer)).

Definition allocate_vector (sizeof_buffer length : Z) : option buffer :=
  allocate_buffer sizeof_buffer (u64 (length * sizeof_pointer)).

Definition vector_push (v : buffer) (i : Z) : option buffer :=
  '(v, ok) ← buffer_extend v sizeof_pointer;
  _ ← kassert ok;
  c ← write_u64 (b_contents v) (b_end v) i;
  Some (set_window (set_contents v c) (b_start v) (u64 (b_end v + sizeof_pointer))).

Definition vector_peek (v : buffer) : option Z :=
  if u64 (b_end v - b_start v) <? sizeof_pointer then Some 0
  else read_u64 (b_contents v) (b_end v - sizeof_pointer).

Definition vector_pop (v : buffer) : option (buffer * Z) :=
  if u64 (b_end v - b_start v) <? sizeof_pointer then Some (v, 0)
  else
    let v := set_window v (b_start v) (u64 (b_end v - sizeof_pointer)) in
    x ← read_u64 (b_contents v) (b_end v);
    Some (v, x).

Definition vector_consume (v : buffer) (n : Z) : option buffer :=
  buffer_consume v (u64 (n * sizeof_pointer)).

(** The arguments up to the terminator. *)
Fixpoint build_vector (v : buffer) (args : list Z) : option buffer :=
  match args with
  | [] => Some v
  | x :: args => v ← vector_push v x; build_vector v args
  end.

Definition bitvector_set (b : buffer) (position : Z) : option buffer :=
  '(b, ok) ← extend_total b (Z.shiftr (pad position 8) 3);
  _ ← kassert ok;
  l ← read_bytes (b_contents b) (Z.shiftr position 3) 1;
  x ← head l;
  c ← write_bytes (b_contents b) (Z.shiftr position 3) [u8 (Z.lor x (Z.shiftl 1 (Z.land position 7)))];
  Some (set_contents b c).

#[export] Instance vector_ops : VecOps buffer := {|
  vget := vector_get; vset := vector_set; vlength := vector_length;
  vpush := vector_push; vpeek := vector_peek; vpop := vector_pop |}.
End Code.

(** ** Words as bytes *)

Definition encode (l : list Z) : list Z := concat (le_split 8 <$> l).

Lemma encode_app l k : encode (l ++ k) = encode l ++ encode k.
Proof. unfold encode. by rewrite fmap_app, concat_app. Qed.

Lemma encode_length l : length (encode l) = (8 * length l)%nat.
Proof.
  induction l as [|x l IH]; [done|]. unfold encode in *. rewrite fmap_cons. cbn [concat length].
  rewrite length_app, length_le_split, IH. lia.
Qed.

Lemma encode_bytes l : Forall is_byte (encode l).
Proof.
  induction l as [|x l IH]; [constructor|]. unfold encode in *. rewrite fmap_cons. cbn [concat].
  apply Forall_app. split; [apply le_split_bytes|done].
Qed.

(** The bytes of the element after [l]. *)
Lemma encode_mid l x k : take 8 (drop (8 * length l) (encode (l ++ x :: k))) = le_split 8 x.
Proof.
  rewrite encode_app, drop_app_length' by (by rewrite encode_length).
  change (encode (x :: k)) with (le_split 8 x ++ encode k).
  rewrite take_app_length' by (by rewrite length_le_split). done.
Qed.

Lemma word_split x : is_word x -> le_join (le_split 8 x) = x.
Proof. intros Hx. rewrite le_join_split. apply Z.mod_small. exact Hx. Qed.

(** ** Windows *)

Section Proofs.
Context {h : Heap} {hl : HeapLaws h}.
Implicit Types v : buffer.

Lemma payload_read v o n : buffer_ok v -> 0 <= o -> 0 <= n -> o + n <= b_end v - b_start v ->
  read_bytes (b_contents v) (b_start v + o) n = Some (take (Z.to_nat n) (drop (Z.to_nat o) (payload v))).
Proof.
  intros [Hw He Hl Hc _] Ho Hn Hle. apply read_bytes_Some. repeat split; try lia.
  unfold payload. rewrite skipn_firstn_comm, take_take, drop_drop. f_equal; [lia|]. f_equal. lia.
Qed.

Lemma payload_write v o src : buffer_ok v -> Forall is_byte src -> 0 <= o ->
  o + Z.of_nat (length src) <= b_end v - b_start v ->
  exists c, write_bytes (b_contents v) (b_start v + o) src = Some c /\ buffer_ok (set_contents v c) /\
    payload (set_contents v c) =
      take (Z.to_nat o) (payload v) ++ src ++ drop (Z.to_nat o + length src) (payload v).
Proof.
  intros [Hw He Hl Hc Hb] Hs Ho Hle. eexists. split; [apply write_bytes_Some; repeat split; lia|].
  split.
  - split; simpl; try done.
    + rewrite !length_app, length_take, length_drop. lia.
    + repeat apply Forall_app_2; [by apply Forall_take|done|by apply Forall_drop].
  - unfold payload. simpl. rewrite drop_app_le by (rewrite length_take; lia).
    rewrite skipn_firstn_comm, take_app_ge by (rewrite length_take, length_drop; lia).
    rewrite take_take. f_equal; [f_equal; lia|]. rewrite length_take, length_drop.
    rewrite take_app_ge by lia. f_equal. rewrite skipn_firstn_comm, drop_drop. f_equal; [lia|]. f_equal. lia.
Qed.

(** [v] holds the words [l]. *)
Record vector_holds v (l : list Z) : Prop := {
  vh_ok : buffer_ok v;
  vh_start : b_start v = 0;
  vh_payload : payload v = encode l;
  vh_words : Forall is_word l;
}.

Lemma holds_end v l : vector_holds v l -> b_end v = 8 * Z.of_nat (length l).
Proof.
  intros [Hok Hs Hp _]. pose proof (payload_length v Hok) as Hl. rewrite Hp, encode_length in Hl. lia.
Qed.

Lemma holds_bytes v l x k : vector_holds v (l ++ x :: k) ->
  read_bytes (b_contents v) (8 * Z.of_nat (length l)) 8 = Some (le_split 8 x).
Proof.
  intros Hv. pose proof Hv as [Hok Hs Hp Hw]. pose proof (holds_end _ _ Hv) as He.
  rewrite length_app in He. simpl in He.
  rewrite <- (Z.add_0_l (8 * _)), <- Hs, payload_read by (done || lia).
  rewrite Hp. replace (Z.to_nat (8 * Z.of_nat (length l))) with (8 * length l)%nat by lia.
  change (Z.to_nat 8) with 8%nat. by rewrite encode_mid.
Qed.

Lemma holds_read v l x k : vector_holds v (l ++ x :: k) ->
  read_u64 (b_contents v) (8 * Z.of_nat (length l)) = Some x.
Proof.
  intros Hv. unfold read_u64. rewrite (holds_bytes _ _ _ _ Hv). cbn [mbind option_bind].
  f_equal. apply word_split. pose proof (vh_words _ _ Hv) as Hw.
  apply Forall_app in Hw as [_ Hw]. by apply Forall_cons in Hw as [Hx _].
Qed.

Lemma get_holds v l i : vector_holds v l -> Z.of_nat (length l) <= vec_max -> 0 <= i < 2 ^ 31 ->
  vector_get v i = Some (nth (Z.to_nat i) l 0).
Proof.
  intros Hv Hl Hi. pose proof Hv as [Hok Hs Hp Hw]. pose proof (holds_end _ _ Hv) as He.
  assert (Hm : vec_max = 2 ^ 27) by done.
  unfold vector_get, sizeof_pointer. rewrite (u64_small (i * 8)), u64_small, buffer_length_ok by (done || lia).
  destruct (Z.ltb_spec i 0); [lia|]. cbn [orb].
  destruct (Z.ltb_spec (b_end v - b_start v) (i * 8 + 8)).
  - rewrite nth_overflow by lia. done.
  - rewrite ref_offset by (done || lia). cbn [mbind option_bind]. rewrite Hs, Z.add_0_l.
    destruct (lookup_lt_is_Some_2 l (Z.to_nat i)) as [x Hx]; [lia|].
    rewrite nth_lookup, Hx. simpl. pose proof (take_drop_middle _ _ _ Hx) as Hmid. rewrite <- Hmid in Hv.
    apply holds_read in Hv. rewrite length_take in Hv.
    replace (8 * Z.of_nat (Z.to_nat i `min` length l)) with (i * 8) in Hv by lia. done.
Qed.

Lemma length_holds v l : vector_holds v l -> Z.of_nat (length l) <= vec_max ->
  vector_length v = Z.of_nat (length l).
Proof.
  intros Hv Hl. pose proof (holds_end _ _ Hv) as He. destruct Hv as [Hok Hs _ _].
  assert (Hm : vec_max = 2 ^ 27) by done.
  unfold vector_length, sizeof_pointer. rewrite buffer_length_ok by done.
  rewrite He, Hs, Z.sub_0_r, (Z.mul_comm 8), Z.div_mul by lia. apply s32_small. lia.
Qed.

Lemma write_holds v l x y k : vector_holds v (l ++ x :: k) -> is_word y ->
  exists c, write_u64 (b_contents v) (8 * Z.of_nat (length l)) y = Some c /\
    vector_holds (set_contents v c) (l ++ y :: k).
Proof.
  intros Hv Hy. pose proof Hv as [Hok Hs Hp Hw]. pose proof (holds_end _ _ Hv) as He.
  rewrite length_app in He. simpl in He.
  destruct (payload_write v (8 * Z.of_nat (length l)) (le_split 8 y) Hok) as (c & Ec & Hok' & Hp').
  { apply le_split_bytes. } { lia. } { rewrite length_le_split. lia. }
  rewrite Hs, Z.add_0_l in Ec. exists c. split; [done|]. split; [done|done| |].
  - rewrite Hp', Hp, length_le_split, !encode_app.
    replace (Z.to_nat (8 * Z.of_nat (length l))) with (length (encode l)) by (rewrite encode_length; lia).
    rewrite take_app_length. f_equal.
    change (encode (x :: k)) with (le_split 8 x ++ encode k).
    change (encode (y :: k)) with (le_split 8 y ++ encode k). f_equal.
    rewrite app_assoc, drop_app_length' by (rewrite length_app, length_le_split; lia). done.
  - apply Forall_app in Hw as [Hw1 Hw2]. apply Forall_cons in Hw2 as [_ Hw2].
    apply Forall_app. split; [done|]. by constructor.
Qed.

Lemma set_holds v l i x : vector_holds v l -> Z.of_nat (length l) <= vec_max ->
  0 <= i < Z.of_nat (length l) -> is_word x ->
  exists v', vector_set v i x = Some (v', true) /\ vector_holds v' (<[Z.to_nat i := x]> l).
Proof.
  intros Hv Hl Hi Hx. pose proof (holds_end _ _ Hv) as He. pose proof (vh_start _ _ Hv) as Hs.
  assert (Hm : vec_max = 2 ^ 27) by done.
  unfold vector_set, extend_total, sizeof_pointer.
  rewrite (s32_small (i + 1)), (u64_small ((i + 1) * 8)), s32_small, u64_small by lia.
  destruct (Z.ltb_spec (b_end v) ((i + 1) * 8)); [lia|]. cbn [mbind option_bind negb].
  destruct (lookup_lt_is_Some_2 l (Z.to_nat i)) as [y Hy]; [lia|].
  pose proof (take_drop_middle _ _ _ Hy) as Hmid. rewrite <- Hmid in Hv.
  destruct (write_holds _ _ _ x _ Hv Hx) as (c & Ec & Hv').
  rewrite length_take in Ec. replace (8 * Z.of_nat (Z.to_nat i `min` length l)) with (8 * i) in Ec by lia.
  rewrite Hs, Z.add_0_l, Ec. cbn [mbind option_bind]. eexists. split; [done|].
  rewrite insert_take_drop by lia. done.
Qed.

Lemma push_holds v l x v' : vector_holds v l -> Z.of_nat (length l) < vec_max -> is_word x ->
  vector_push v x = Some v' -> vector_holds v' (l ++ [x]).
Proof.
  intros Hv Hl Hx E. pose proof (holds_end _ _ Hv) as He. pose proof Hv as [Hok Hs Hp Hw].
  assert (Hm : vec_max = 2 ^ 27) by done. unfold vector_push, sizeof_pointer in E.
  destruct (extend_spec v 8 Hok) as (v1 & r & Ee & Hok1 & Hp1 & Hr); [lia..|].
  rewrite Ee in E. cbn [mbind option_bind] in E. destruct r; [|done]. cbn [kassert mbind option_bind] in E.
  pose proof (payload_length v Hok) as Hl0. pose proof (payload_length v1 Hok1) as Hl1. rewrite Hp1 in Hl1.
  destruct (buffer_extend_shape v 8 v1 true Ee Hok Hs) as [Hs1 _]; [lia..|].
  destruct (put_spec v1 (le_split 8 x) Hok1) as (c & Ec & Hok2 & Hp2);
    [apply le_split_bytes|rewrite length_le_split; lia|].
  unfold write_u64 in E. rewrite Ec in E. cbn [mbind option_bind] in E. injection E as <-.
  rewrite length_le_split in Hok2, Hp2. change (Z.of_nat 8) with 8 in Hok2, Hp2.
  split; [done|done| |].
  - rewrite Hp2, Hp1, Hp, encode_app. unfold encode at 3. simpl. done.
  - apply Forall_app. split; [done|by constructor].
Qed.

(** Pushing fails only when the heap does. *)
Lemma push_total v l x : HeapTotal h -> vector_holds v l -> Z.of_nat (length l) < vec_max -> b_wrapped v = false ->
  exists v', vector_push v x = Some v'.
Proof.
  intros Ht Hv Hl Hwr. pose proof (holds_end _ _ Hv) as He. pose proof Hv as [Hok Hs Hp Hw].
  assert (Hm : vec_max = 2 ^ 27) by done. unfold vector_push, sizeof_pointer.
  destruct (extend_spec v 8 Hok) as (v1 & r & Ee & Hok1 & Hp1 & Hr); [lia..|].
  destruct (buffer_extend_shape v 8 v1 r Ee Hok Hs) as (_ & _ & _ & Hf); [lia..|].
  destruct r; [|destruct (Hf eq_refl) as [?|(n & Hn & En)]; [congruence|by destruct (Ht n Hn)]].
  rewrite Ee. cbn [mbind option_bind kassert].
  destruct (put_spec v1 (le_split 8 x) Hok1) as (c & Ec & _);
    [apply le_split_bytes|rewrite length_le_split; lia|].
  unfold write_u64. rewrite Ec. by eexists.
Qed.

Lemma last_holds v l x : vector_holds v (l ++ [x]) ->
  (u64 (b_end v - b_start v) <? sizeof_pointer) = false /\
  read_u64 (b_contents v) (b_end v - sizeof_pointer) = Some x /\
  b_end v = 8 * Z.of_nat (length l) + 8 /\ b_end v < 2 ^ 63.
Proof.
  intros Hv. pose proof (holds_end _ _ Hv) as He. pose proof (holds_read _ _ _ _ Hv) as Hr.
  destruct Hv as [[? ? ? ? ?] Hs _ _]. rewrite length_app in He. simpl in He. unfold sizeof_pointer.
  rewrite u64_small by lia. split; [apply Z.ltb_ge; lia|]. split; [|lia].
  by replace (b_end v - 8) with (8 * Z.of_nat (length l)) by lia.
Qed.

Lemma shrink_holds v l x : vector_holds v (l ++ [x]) ->
  vector_holds (set_window v (b_start v) (u64 (b_end v - sizeof_pointer))) l.
Proof.
  intros Hv. destruct (last_holds v l x Hv) as (_ & _ & He & Hlt). pose proof Hv as [Hok Hs Hp Hw].
  unfold sizeof_pointer. rewrite u64_small by lia. destruct Hok as [? ? ? ? ?]. split; simpl; [|done| |].
  - split; simpl; try done; lia.
  - unfold payload in *. simpl in *. rewrite Hs in *. rewrite drop_0, Z.sub_0_r in *.
    replace (Z.to_nat (b_end v - 8)) with (length (encode l)) by (rewrite encode_length; lia).
    assert (Ht2 : take (length (encode l)) (take (Z.to_nat (b_end v)) (b_contents v)) = encode l)
      by (rewrite Hp, encode_app; apply take_app_length).
    rewrite take_take in Ht2. rewrite <- Ht2 at 2. f_equal. rewrite encode_length. lia.
  - by apply Forall_app in Hw as [? _].
Qed.

Lemma pop_holds v l x : vector_holds v (l ++ [x]) ->
  exists v', vector_pop v = Some (v', x) /\ vector_holds v' l.
Proof.
  intros Hv. destruct (last_holds v l x Hv) as (Ht & Hr & He & Hlt). unfold vector_pop. rewrite Ht.
  cbn [b_end b_contents set_window]. rewrite (u64_small (b_end v - _)) by (unfold sizeof_pointer; lia).
  rewrite Hr. cbn [mbind option_bind]. eexists. split; [done|].
  rewrite <- (u64_small (b_end v - _)) by (unfold sizeof_pointer; lia). by eapply shrink_holds.
Qed.

Lemma peek_holds v l : vector_holds v l -> vector_peek v = Some (default 0 (last l)).
Proof.
  intros Hv. destruct l as [|x l _] using rev_ind.
  - pose proof (holds_end _ _ Hv) as He. destruct Hv as [_ Hs _ _]. unfold vector_peek. rewrite He, Hs. done.
  - destruct (last_holds v l x Hv) as (Ht & Hr & _). unfold vector_peek. by rewrite Ht, Hr, last_snoc.
Qed.

#[export] Instance vector_laws : VecLaws buffer := {|
  vrep := vector_holds;
  vrep_words v l Hv := vh_words v l Hv;
  vrep_length := length_holds; vrep_get := get_holds; vrep_set := set_holds;
  vrep_push := push_holds; vrep_peek := peek_holds; vrep_pop := pop_holds |}.

Lemma build_holds args : forall v l v', vector_holds v l -> Z.of_nat (length l + length args) <= vec_max ->
  Forall is_word args -> build_vector v args = Some v' -> vector_holds v' (l ++ args).
Proof.
  induction args as [|x args IH]; intros v l v' Hv Hl Hw E; simpl in E.
  - injection E as <-. by rewrite app_nil_r.
  - cbn [length] in Hl. apply Forall_cons in Hw as [Hx Hw]. inv_bind.
    match goal with H : vector_push _ _ = Some ?v1 |- _ => apply (push_holds v l x v1) in H; [|done|lia|done] end.
    replace (l ++ x :: args) with ((l ++ [x]) ++ args) by (by rewrite <- app_assoc).
    eapply IH; [done| |done|done]. rewrite length_app. simpl. lia.
Qed.

Lemma delete_shift_holds k : forall v l x, vector_holds v (l ++ x :: k) ->
  exists c y, delete_shift (length k) (b_contents v) (8 * Z.of_nat (length l)) = Some c /\
    vector_holds (set_contents v c) (l ++ k ++ [y]).
Proof.
  induction k as [|z k IH]; intros v l x Hv; cbn [delete_shift length].
  { exists (b_contents v), x. split; [done|]. by replace (set_contents v (b_contents v)) with v by (by destruct v). }
  assert (Hz : vector_holds v ((l ++ [x]) ++ z :: k)) by (by rewrite <- app_assoc).
  apply holds_bytes in Hz as Hrd. rewrite length_app in Hrd. cbn [length] in Hrd. unfold sizeof_pointer.
  replace (8 * Z.of_nat (length l) + 8) with (8 * Z.of_nat (length l + 1)) by lia. rewrite Hrd. cbn [mbind option_bind].
  assert (Hzw : is_word z).
  { apply vh_words in Hz. apply Forall_app in Hz as [_ Hz]. by apply Forall_cons in Hz as [? _]. }
  destruct (write_holds v l x z (z :: k) Hv Hzw) as (c & Ec & Hv'). unfold write_u64 in Ec. rewrite Ec.
  cbn [mbind option_bind].
  destruct (IH (set_contents v c) (l ++ [z]) z) as (c' & y & Ed & Hv''); [by rewrite <- app_assoc|].
  exists c', y. rewrite length_app in Ed. simpl in Ed. split; [done|].
  by rewrite <- app_assoc in Hv''.
Qed.

Lemma delete_holds v l x k : vector_holds v (l ++ x :: k) -> Z.of_nat (length (l ++ x :: k)) <= vec_max ->
  exists v', vector_delete v (Z.of_nat (length l)) = Some (v', x) /\ vector_holds v' (l ++ k).
Proof.
  intros Hv Hl. assert (Hm : vec_max = 2 ^ 27) by done.
  pose proof (holds_end _ _ Hv) as He. pose proof (vh_start _ _ Hv) as Hs.
  rewrite length_app in He, Hl. cbn [length] in He, Hl. unfold vector_delete.
  rewrite (length_holds v (l ++ x :: k)) by (done || rewrite length_app; simpl; lia).
  unfold sizeof_pointer. rewrite Hs, Z.add_0_l, !(u64_small (Z.of_nat (length l) * 8)), (u64_small (b_end v - 8)), u64_small by lia.
  destruct (Z.ltb_spec (b_end v) (Z.of_nat (length l) * 8 + 8)); [lia|].
  rewrite (Z.mul_comm _ 8), (holds_read _ _ _ _ Hv). cbn [mbind option_bind].
  replace (Z.to_nat (Z.of_nat (length (l ++ x :: k)) - 1 - Z.of_nat (length l))) with (length k)
    by (rewrite length_app; simpl; lia).
  destruct (delete_shift_holds k v l x Hv) as (c & y & -> & Hv'). cbn [mbind option_bind].
  eexists. split; [done|]. rewrite app_assoc in Hv'. apply shrink_holds in Hv'. simpl in Hv'.
  rewrite u64_small, Hs in Hv' by (unfold sizeof_pointer; lia). exact Hv'.
Qed.
End Proofs.

(** ** The property *)

Definition sample_vector : buffer :=
  default (init_buffer 80 false (replicate 80 0))
    (@build_vector zero_heap (init_buffer 80 false (replicate 80 0)) [5; 7; 9]).

Lemma init_vector_holds n : 0 <= n < 2 ^ 62 ->
  vector_holds (init_buffer n false (replicate (Z.to_nat n) 0)) [].
Proof.
  intros Hn. split; [|done|done|constructor].
  split; simpl; try lia; [rewrite length_replicate; lia|by apply Forall_replicate].
Qed.

Lemma sample_vector_holds : vector_holds sample_vector [5; 7; 9].
Proof.
  unfold sample_vector. pose proof zero_heap_laws as Hz.
  destruct (build_vector (init_buffer 80 false (replicate 80 0)) [5; 7; 9]) as [v|] eqn:E; [|by vm_compute in E].
  apply (build_holds (h := zero_heap) [5; 7; 9] (init_buffer 80 false (replicate 80 0)) []); [|done| |exact E].
  - by apply (init_vector_holds 80).
  - repeat (constructor; [done|]). constructor.
Qed.

(** A vector refines a list of words.  On a vector that holds [l], reading
    gives the element or 0 past the end, writing replaces an element, pushing
    appends (when the heap has room), popping and peeking give the last element,
    and deleting an element closes the gap. *)
Theorem vector_refines_list {h : Heap} {hl : HeapLaws h} {ht : HeapTotal h} v l :
  vector_holds v l -> Z.of_nat (length l) < vec_max -> b_wrapped v = false ->
  vector_length v = Z.of_nat (length l) /\
  (forall i, 0 <= i < 2 ^ 31 -> vector_get v i = Some (nth (Z.to_nat i) l 0)) /\
  (forall i x, 0 <= i < Z.of_nat (length l) -> is_word x ->
     exists v', vector_set v i x = Some (v', true) /\ vector_holds v' (<[Z.to_nat i := x]> l)) /\
  (forall x, is_word x -> exists v', vector_push v x = Some v' /\ vector_holds v' (l ++ [x])) /\
  vector_peek v = Some (default 0 (last l)) /\
  (forall k x, l = k ++ [x] -> exists v', vector_pop v = Some (v', x) /\ vector_holds v' k) /\
  (forall k x k', l = k ++ x :: k' ->
     exists v', vector_delete v (Z.of_nat (length k)) = Some (v', x) /\ vector_holds v' (k ++ k')).
Proof.
  intros Hv Hl Hw. split; [apply length_holds; [done|lia]|].
  split; [intros i Hi; apply get_holds; [done|lia|done]|].
  split; [intros i x Hi Hx; apply set_holds; [done|lia|done..]|]. split; [|split; [by apply peek_holds|split]].
  - intros x Hx. destruct (push_total v l x ht Hv Hl Hw) as [v' E].
    exists v'. split; [done|by eapply push_holds].
  - intros k x ->. by apply pop_holds.
  - intros k x k' ->. apply delete_holds; [done|lia].
Qed.

(** [bitvector_set] makes room for the bits before the one it sets: at a multiple of
    8 the byte it writes is not part of the buffer. *)
Lemma bitvector_set_short :
  exists b, @bitvector_set zero_heap (init_buffer 8 false (replicate 8 0)) 0 = Some b /\ buffer_length b = 0.
Proof. eexists. split; [by vm_compute|by vm_compute]. Qed.

(** [vector_set] counts from the start of the memory to make room and from the
    start of the window to write: after [vector_consume] the element is past the end. *)
Lemma vector_set_after_consume :
  (v ← vector_consume sample_vector 3;
   '(v', ok) ← @vector_set zero_heap v 0 11;
   Some (ok, vector_length v')) = Some (true, 0).
Proof. by vm_compute. Qed.
