(* ===== verification/Pqueue.v ===== *)
(** Priority queues: [kernel/src/runtime/pqueue.c], binary heaps in a vector.

    The functions use the vector only through its interface ([VecOps]), and the
    proofs only its laws.  Elements are words and [sort x y] is the caller's
    comparison: true when [y] is to come out before [x].  [None] is a failed
    assertion; [INVALID_ADDRESS] results are [None] inside. *)

From S2P Require Import Prelude Heap Words Buffer Vector.

(** ** The code *)

Section Code.
Context {V : Type} `{VecOps V} (sort : Z -> Z -> bool).

(** Indices count from 1. *)
Definition swap (q : V) (x y : Z) : option V :=
  temp ← vget q (x - 1);
  vy ← vget q (y - 1);
  '(q, ok) ← vset q (x - 1) vy;
  _ ← kassert ok;
  '(q, ok) ← vset q (y - 1) temp;
  _ ← kassert ok;
  Some q.

Definition qcompare (q : V) (x y : Z) : option bool :=
  vx ← vget q (x - 1); vy ← vget q (y - 1); Some (sort vx vy).

Fixpoint heal_down (fuel : nat) (q : V) (where_ : Z) : option V :=
  match fuel with
  | O => None
  | S fuel' =>
      let last := u32 (vlength q) in
      let i := u32 (Z.shiftl where_ 1) in
      if i <=? last then
        right ← (if i <? last then qcompare q i (i + 1) else Some false);
        let i := if (right : bool) then i + 1 else i in
        lt ← qcompare q where_ i;
        if negb lt then Some q
        else q ← swap q where_ i; heal_down fuel' q i
      else Some q
  end.

Fixpoint heal_up (fuel : nat) (q : V) (where_ : Z) : option V :=
  match fuel with
  | O => None
  | S fuel' =>
      if 1 <? where_ then
        lt ← qcompare q (Z.shiftr where_ 1) where_;
        if (lt : bool) then
          q ← swap q (Z.shiftr where_ 1) where_;
          heal_up fuel' q (Z.shiftr where_ 1)
        else Some q
      else Some q
  end.

Fixpoint pqueue_validate (fuel : nat) (q : V) (x : Z) : option bool :=
  match fuel with
  | O => None
  | S fuel' =>
      let last := u32 (vlength q) in
      let i := u32 (Z.shiftl x 1) in
      if last <? i then Some true
      else
        r ← (if i <? last then qcompare q x (i + 1) else Some false);
        l ← qcompare q x i;
        if (r : bool) || l then Some false
        else
          a ← pqueue_validate fuel' q i;
          if negb a then Some false
          else if i =? last then Some true else pqueue_validate fuel' q (i + 1)
  end.

Fixpoint add_pqueue (fuel : nat) (q : V) (i parent : Z) : option V :=
  match fuel with
  | O => None
  | S fuel' =>
      if 0 <? parent then
        lt ← qcompare q parent i;
        if (lt : bool) then
          q ← swap q i parent;
          add_pqueue fuel' q parent (Z.shiftr parent 1)
        else Some q
      else Some q
  end.

Definition pq_fuel (q : V) : nat := S (S (Z.to_nat (vlength q))).

Definition pqueue_insert (q : V) (v : Z) : option V :=
  q ← vpush q v;
  let i := u32 (vlength q) in
  add_pqueue (pq_fuel q) q i (Z.shiftr i 1).

Definition pqueue_remove_at (q : V) (i : Z) : option V :=
  '(body, n) ← vpop q;
  if negb (i =? vlength body) then
    let idx := i + 1 in
    '(body, ok) ← vset body i n;
    _ ← kassert ok;
    lt ← (if 1 <? idx then qcompare body (Z.shiftr idx 1) idx else Some false);
    if (lt : bool) then heal_up (pq_fuel q) body (i + 1) else heal_down (pq_fuel q) body (i + 1)
  else Some body.

Fixpoint remove_loop (n : nat) (q : V) (i : Z) (v : Z) : option (V * bool) :=
  match n with
  | O => Some (q, false)
  | S n' =>
      e ← vget q i;
      if e =? v then q ← pqueue_remove_at q i; Some (q, true)
      else remove_loop n' q (i + 1) v
  end.

Definition pqueue_remove (q : V) (v : Z) : option (V * bool) :=
  remove_loop (Z.to_nat (vlength q)) q 0 v.

Definition pqueue_pop (q : V) : option (V * option Z) :=
  if 0 <? vlength q then
    result ← vget q 0;
    '(body, n) ← vpop q;
    p ← vpeek body;
    if negb (p =? 0) then
      '(body, ok) ← vset body 0 n;
      _ ← kassert ok;
      body ← heal_down (pq_fuel q) body 1;
      Some (body, Some result)
    else Some (body, Some result)
  else Some (q, None).

Definition pqueue_peek_at (q : V) (i : Z) : option (option Z) :=
  if i <? vlength q then v ← vget q i; Some (Some v) else Some None.

Definition pqueue_peek (q : V) : option (option Z) := pqueue_peek_at q 0.

Definition pqueue_length (q : V) : Z := u64 (vlength q).

Fixpoint reorder_loop (n : nat) (q : V) : option V :=
  match n with
  | O => Some q
  | S n' => q ← heal_down (pq_fuel q) q (Z.of_nat n); reorder_loop n' q
  end.

Definition pqueue_reorder (q : V) : option V := reorder_loop (Z.to_nat (vlength q / 2)) q.

(** [h] is the element handler with its state. *)
Fixpoint walk_loop {S} (h : S -> Z -> S * bool) (n : nat) (q : V) (i : Z) (s : S) : option (S * bool) :=
  match n with
  | O => Some (s, true)
  | Datatypes.S n' =>
      e ← vget q i;
      let '(s, ok) := h s e in
      if negb ok then Some (s, false) else walk_loop h n' q (i + 1) s
  end.

Definition pqueue_walk {S} (q : V) (h : S -> Z -> S * bool) (s : S) : option (S * bool) :=
  walk_loop h (Z.to_nat (vlength q)) q 0 s.
End Code.

(** A queue starts as a vector with room for ten elements. *)
Definition allocate_pqueue {h : Heap} (sizeof_pqueue sizeof_buffer : Z) : option buffer :=
  _ ← allocate sizeof_pqueue;
  allocate_vector sizeof_buffer 10.

(** ** Heap order *)

(** [sort] is a strict weak order. *)
Class SortOrder (sort : Z -> Z -> bool) : Prop := {
  sort_asym a b : sort a b = true -> sort b a = false;
  sort_negtrans a b c : sort a b = false -> sort b c = false -> sort a c = false;
}.

Definition key (l : list Z) (i : nat) : Z := nth (i - 1) l 0.

Definition child (i j : nat) : Prop := j = (2 * i)%nat \/ j = (2 * i + 1)%nat.

Definition lswap (l : list Z) (x y : nat) : list Z :=
  <[(y - 1)%nat := key l x]> (<[(x - 1)%nat := key l y]> l).

Section Order.
Context (sort : Z -> Z -> bool) {so : SortOrder sort}.
Implicit Types (l : list Z) (i j k p w x y : nat).

(** The element at [i] may stand above the one at [j]. *)
Definition above l i j : Prop := sort (key l i) (key l j) = false.

(** Every element from index [k] on stands above its children. *)
Definition heap_from k l : Prop :=
  forall i j, (k <= i)%nat -> (1 <= i)%nat -> child i j -> (j <= length l)%nat -> above l i j.

Definition down_inv k l w : Prop :=
  (forall i j, (k <= i)%nat -> (1 <= i)%nat -> i <> w -> child i j -> (j <= length l)%nat -> above l i j) /\
  (forall p j, (k <= p)%nat -> (1 <= p)%nat -> child p w -> child w j -> (j <= length l)%nat -> above l p j).

Definition up_inv l w : Prop :=
  (forall i j, (1 <= i)%nat -> child i j -> (j <= length l)%nat -> j <> w -> above l i j) /\
  (forall p j, (1 <= p)%nat -> child p w -> child w j -> (j <= length l)%nat -> above l p j).

Lemma sort_irrefl a : sort a a = false.
Proof. destruct (sort a a) eqn:E; [|done]. by apply sort_asym in E as E2; congruence. Qed.

Lemma above_refl l i : above l i i.
Proof. apply sort_irrefl. Qed.

Lemma above_trans l i j k : above l i j -> above l j k -> above l i k.
Proof. apply sort_negtrans. Qed.

Lemma lswap_length l x y : length (lswap l x y) = length l.
Proof. unfold lswap. by rewrite !length_insert. Qed.

Lemma key_swap l x y i : (1 <= x <= length l)%nat -> (1 <= y <= length l)%nat -> x <> y -> (1 <= i)%nat ->
  key (lswap l x y) i = if decide (i = x) then key l y else if decide (i = y) then key l x else key l i.
Proof.
  intros Hx Hy Hne Hi. unfold lswap. unfold key at 1. rewrite nth_lookup.
  destruct (decide (i = x)) as [->|Hix]; [|destruct (decide (i = y)) as [->|Hiy]].
  - rewrite list_lookup_insert_ne by lia. rewrite list_lookup_insert_eq by lia. done.
  - rewrite list_lookup_insert_eq by (rewrite length_insert; lia). done.
  - rewrite !list_lookup_insert_ne by lia. unfold key. by rewrite nth_lookup.
Qed.

Lemma key_lookup l i : (1 <= i <= length l)%nat -> l !! (i - 1)%nat = Some (key l i).
Proof.
  intros Hi. destruct (lookup_lt_is_Some_2 l (i - 1)) as [z Hz]; [lia|].
  unfold key. by rewrite nth_lookup, Hz.
Qed.

Lemma insert_perm l i a b : l !! i = Some a -> a :: <[i := b]> l ≡ₚ b :: l.
Proof.
  intros Hi. pose proof (lookup_lt_Some _ _ _ Hi) as Hlt.
  rewrite insert_take_drop by done. rewrite <- (take_drop_middle l i a Hi) at 3.
  rewrite <- !Permutation_middle. apply Permutation_swap.
Qed.

Lemma lswap_perm l x y : (1 <= x <= length l)%nat -> (1 <= y <= length l)%nat -> x <> y -> lswap l x y ≡ₚ l.
Proof.
  intros Hx Hy Hne. unfold lswap. apply (Permutation_cons_inv (a := key l y)).
  rewrite (insert_perm _ (y - 1) (key l y) (key l x)).
  2: { rewrite list_lookup_insert_ne by lia. by apply key_lookup. }
  apply insert_perm. by apply key_lookup.
Qed.

Lemma lswap_comm l x y : (1 <= x)%nat -> (1 <= y)%nat -> x <> y -> lswap l x y = lswap l y x.
Proof. intros Hx Hy Hne. unfold lswap. apply list_insert_insert_ne. lia. Qed.

(** Case analysis on which elements of a swapped list are the swapped ones. *)
Ltac swapped :=
  unfold above, child in *; rewrite !key_swap by lia;
  repeat case_decide; subst; try lia.

Lemma heap_root l j : heap_from 1 l -> (1 <= j <= length l)%nat -> above l 1 j.
Proof.
  intros Hh. induction j as [j IH] using lt_wf_ind. intros Hj.
  destruct (decide (j = 1%nat)) as [->|Hne]; [apply above_refl|].
  assert (Hp : exists p, (1 <= p < j)%nat /\ child p j).
  { destruct (Nat.Even_or_Odd j) as [[p ->]|[p ->]]; exists p; unfold child; lia. }
  destruct Hp as (p & Hp & Hc). apply above_trans with p; [apply IH; lia|]. apply Hh; lia || done.
Qed.

Lemma down_step k l w c : (1 <= k <= w)%nat -> child w c -> (c <= length l)%nat ->
  (forall j, child w j -> (j <= length l)%nat -> above l c j) -> sort (key l w) (key l c) = true ->
  down_inv k l w -> down_inv k (lswap l w c) c.
Proof.
  intros Hk Hc Hlen Hmax Hlt [H1 H2]. unfold child in *. split.
  - intros i j Hki Hi Hne Hcj Hj. rewrite lswap_length in Hj. swapped.
    + by apply sort_asym.
    + apply Hmax; lia.
    + apply H2; lia.
    + apply H1; lia.
  - intros p j Hkp Hp Hcp Hcj Hj. rewrite lswap_length in Hj. swapped. apply H1; lia.
Qed.

Lemma down_done k l w c : (1 <= k <= w)%nat ->
  (forall j, child w j -> (j <= length l)%nat -> above l c j) -> above l w c ->
  down_inv k l w -> heap_from k l.
Proof.
  intros Hk Hmax Hw [H1 H2] i j Hki Hi Hc Hj.
  destruct (decide (i = w)) as [->|Hne]; [|by apply H1]. apply above_trans with c; [done|by apply Hmax].
Qed.

Lemma down_leaf k l w : (length l < 2 * w)%nat -> down_inv k l w -> heap_from k l.
Proof.
  intros Hl [H1 _] i j Hki Hi Hc Hj. apply H1; try done. intros ->. unfold child in Hc. lia.
Qed.

Lemma up_step l p w : (1 <= p)%nat -> child p w -> (w <= length l)%nat ->
  sort (key l p) (key l w) = true -> up_inv l w -> up_inv (lswap l p w) p.
Proof.
  intros Hp Hc Hlen Hlt [H1 H2]. unfold child in *. split.
  - intros i j Hi Hcj Hj Hne. rewrite lswap_length in Hj.
    assert (Hs : forall x, sort (key l p) (key l x) = false -> sort (key l w) (key l x) = false).
    { intros x Hx. apply sort_negtrans with (key l p); [by apply sort_asym|done]. }
    swapped; first [by apply sort_asym | apply H1; lia | apply H2; lia | apply Hs, H1; lia].
  - intros g j Hg Hcg Hcj Hj. rewrite lswap_length in Hj.
    swapped; first [apply H1; lia | apply (above_trans l g p j); apply H1; lia].
Qed.

Lemma up_root l w : (w <= 1)%nat -> up_inv l w -> heap_from 1 l.
Proof. intros Hw [H1 _] i j _ Hi Hc Hj. apply H1; try done. unfold child in Hc. lia. Qed.

Lemma up_done l p w : (1 <= p)%nat -> child p w -> above l p w -> up_inv l w -> heap_from 1 l.
Proof.
  intros Hp Hc Hpw [H1 _] i j _ Hi Hcj Hj. destruct (decide (j = w)) as [->|Hne]; [|by apply H1].
  replace i with p by (unfold child in *; lia). done.
Qed.

(** ** Changing one element *)

Lemma key_insert l i n j : (i < length l)%nat -> (1 <= j)%nat ->
  key (<[i := n]> l) j = if decide (j = S i) then n else key l j.
Proof.
  intros Hi Hj. unfold key. rewrite !nth_lookup. destruct (decide (j = S i)) as [->|Hne].
  - replace (S i - 1)%nat with i by lia. by rewrite list_lookup_insert_eq.
  - by rewrite list_lookup_insert_ne by lia.
Qed.

Lemma heap_prefix l n : heap_from 1 (l ++ [n]) -> heap_from 1 l.
Proof.
  intros Hh i j Hk Hi Hc Hj. unfold above, key in *. unfold child in Hc.
  specialize (Hh i j Hk Hi Hc). rewrite length_app in Hh. unfold above, key in Hh.
  rewrite !app_nth1 in Hh by lia. apply Hh. simpl. lia.
Qed.

Lemma push_up_inv l n : heap_from 1 l -> up_inv (l ++ [n]) (S (length l)).
Proof.
  intros Hh. split.
  - intros i j Hi Hc Hj Hne. rewrite length_app in Hj. simpl in Hj. unfold above, key, child in *.
    rewrite !app_nth1 by lia. apply Hh; [done|done|done|lia].
  - intros p j Hp Hc Hcj Hj. rewrite length_app in Hj. simpl in Hj. unfold child in *. lia.
Qed.

Lemma replace_inv l i n : heap_from 1 l -> (i < length l)%nat ->
  let l' := <[i := n]> l in
  (forall p, (1 <= p)%nat -> child p (S i) -> sort (key l' p) n = true -> up_inv l' (S i)) /\
  ((forall p, (1 <= p)%nat -> child p (S i) -> sort (key l' p) n = false) -> down_inv 1 l' (S i)).
Proof.
  intros Hh Hi l'. assert (Hlen : length l' = length l) by apply length_insert.
  assert (Hkey : forall j, (1 <= j)%nat -> key l' j = if decide (j = S i) then n else key l j)
    by (intros j Hj; by apply key_insert).
  assert (Hgp : forall p j, (1 <= p)%nat -> child p (S i) -> child (S i) j -> (j <= length l)%nat ->
    sort (key l' p) (key l' j) = false).
  { intros p j Hp Hc Hcj Hj. unfold child in *. rewrite !Hkey by lia. repeat case_decide; try lia.
    apply (above_trans l p (S i) j); apply Hh; unfold child; lia. }
  split.
  - intros p0 Hp0 Hc0 Hlt. split; [|intros p j Hp Hc Hcj Hj; rewrite Hlen in Hj; by apply Hgp].
    intros a j Ha Hc Hj Hne. rewrite Hlen in Hj. unfold above. destruct (decide (a = S i)) as [->|Hna].
    + apply sort_negtrans with (key l' p0); [|by apply Hgp].
      rewrite (Hkey (S i)) by lia. rewrite decide_True by done. by apply sort_asym.
    + rewrite !Hkey by (unfold child in Hc; lia). rewrite !decide_False by done. apply Hh; done || lia.
  - intros Hge. split; [|intros p j _ Hp Hc Hcj Hj; rewrite Hlen in Hj; by apply Hgp].
    intros a j _ Ha Hne Hc Hj. rewrite Hlen in Hj. unfold above. destruct (decide (j = S i)) as [->|Hnj].
    + rewrite (Hkey (S i)) by lia. rewrite decide_True by done. by apply Hge.
    + rewrite !Hkey by (unfold child in Hc; lia). rewrite !decide_False by done. apply Hh; done || lia.
Qed.
End Order.

(** ** The functions *)

Section Proofs.
Context {V : Type} `{VL : VecLaws V} (sort : Z -> Z -> bool) {so : SortOrder sort}.
Implicit Types (q : V) (l : list Z) (i j k p w x y : nat).

Definition fits_vec l : Prop := Z.of_nat (length l) <= vec_max.

Lemma get_key q l i : vrep q l -> fits_vec l -> (1 <= i)%nat -> Z.of_nat i < 2 ^ 31 ->
  vget q (Z.of_nat i - 1) = Some (key l i).
Proof.
  intros Hq Hl Hi Hb. rewrite (vrep_get q l) by (done || lia). unfold key. do 2 f_equal. lia.
Qed.

Lemma qcompare_spec q l x y : vrep q l -> fits_vec l -> (1 <= x <= length l)%nat -> (1 <= y <= length l)%nat ->
  qcompare sort q (Z.of_nat x) (Z.of_nat y) = Some (sort (key l x) (key l y)).
Proof.
  intros Hq Hl Hx Hy. unfold fits_vec, vec_max in Hl. unfold qcompare.
  rewrite !(get_key q l) by (done || lia). done.
Qed.

Lemma pq_swap_spec q l x y : vrep q l -> fits_vec l -> (1 <= x <= length l)%nat -> (1 <= y <= length l)%nat ->
  exists q', swap q (Z.of_nat x) (Z.of_nat y) = Some q' /\ vrep q' (lswap l x y).
Proof.
  intros Hq Hl Hx Hy. pose proof (vrep_words _ _ Hq) as Hw. pose proof Hl as Hl'. unfold fits_vec, vec_max in Hl'.
  assert (Hkw : forall i, is_word (key l i)).
  { intros i. unfold key. rewrite nth_lookup. destruct (l !! (i - 1)%nat) as [z|] eqn:E; [|done].
    rewrite Forall_lookup in Hw. by eapply Hw. }
  unfold swap. rewrite !(get_key q l) by (done || lia). cbn [mbind option_bind].
  destruct (vrep_set q l (Z.of_nat x - 1) (key l y) Hq Hl) as (q1 & -> & Hq1); [lia|done|].
  cbn [mbind option_bind kassert].
  destruct (vrep_set q1 _ (Z.of_nat y - 1) (key l x) Hq1) as (q2 & -> & Hq2); [|rewrite length_insert; lia|done|].
  { unfold fits_vec. by rewrite length_insert. }
  exists q2. split; [done|]. unfold lswap.
  replace (Z.to_nat (Z.of_nat y - 1)) with (y - 1)%nat in Hq2 by lia.
  replace (Z.to_nat (Z.of_nat x - 1)) with (x - 1)%nat in Hq2 by lia. done.
Qed.

(** The larger child. *)
Lemma larger_child l w : (2 * w <= length l)%nat ->
  let right := if (2 * w <? length l)%nat then sort (key l (2 * w)) (key l (2 * w + 1)) else false in
  let c := (if right then 2 * w + 1 else 2 * w)%nat in
  child w c /\ (c <= length l)%nat /\ forall j, child w j -> (j <= length l)%nat -> above sort l c j.
Proof.
  intros Hl right c. unfold c, right, child. destruct (Nat.ltb_spec (2 * w) (length l)) as [Hlt|Hge].
  - destruct (sort (key l (2 * w)) (key l (2 * w + 1))) eqn:E; (split; [lia|]); (split; [lia|]);
      intros j [->| ->] Hj; try apply above_refl; auto. by apply sort_asym.
  - split; [lia|]. split; [lia|]. intros j [->| ->] Hj; [apply above_refl; auto|lia].
Qed.

Lemma heal_down_spec k fuel : forall q l w,
  vrep q l -> fits_vec l -> (1 <= k <= w)%nat -> (w <= length l)%nat -> down_inv sort k l w ->
  (length l - w < fuel)%nat ->
  exists q' l', heal_down sort fuel q (Z.of_nat w) = Some q' /\ vrep q' l' /\ l' ≡ₚ l /\ heap_from sort k l'.
Proof.
  induction fuel as [|fuel IH]; intros q l w Hq Hl Hk Hw Hinv Hf; [lia|]. cbn [heal_down].
  pose proof Hl as Hl'. unfold fits_vec, vec_max in Hl'.
  rewrite (vrep_length q l), (u32_small (Z.of_nat (length l))) by (done || lia).
  rewrite Z.shiftl_mul_pow2 by lia. change (2 ^ 1) with 2. rewrite (u32_small (Z.of_nat w * 2)) by lia.
  destruct (Z.leb_spec (Z.of_nat w * 2) (Z.of_nat (length l))) as [Hle|Hgt].
  2: { exists q, l. split; [done|]. split; [done|]. split; [done|]. eapply down_leaf; [|exact Hinv]. lia. }
  destruct (larger_child l w ltac:(lia)) as (Hc & Hclen & Hmax). cbv zeta in Hc, Hclen, Hmax.
  replace (Z.of_nat w * 2) with (Z.of_nat (2 * w)) by lia.
  set (right := if (2 * w <? length l)%nat then sort (key l (2 * w)) (key l (2 * w + 1)) else false) in *.
  set (c := (if right then 2 * w + 1 else 2 * w)%nat) in *.
  assert (Er : (if Z.of_nat (2 * w) <? Z.of_nat (length l)
                then qcompare sort q (Z.of_nat (2 * w)) (Z.of_nat (2 * w) + 1) else Some false) = Some right).
  { unfold right. destruct (Z.ltb_spec (Z.of_nat (2 * w)) (Z.of_nat (length l))),
      (Nat.ltb_spec (2 * w) (length l)); try lia; [|done].
    replace (Z.of_nat (2 * w) + 1) with (Z.of_nat (2 * w + 1)) by lia. apply qcompare_spec; done || lia. }
  rewrite Er. cbn [mbind option_bind].
  assert (Ec : (if right then Z.of_nat (2 * w) + 1 else Z.of_nat (2 * w)) = Z.of_nat c)
    by (unfold c; destruct right; lia).
  rewrite Ec, (qcompare_spec q l) by (done || unfold child in Hc; lia). cbn [mbind option_bind].
  destruct (sort (key l w) (key l c)) eqn:Elt; cbn [negb].
  - destruct (pq_swap_spec q l w c) as (q1 & -> & Hq1); [done|done|lia|unfold child in Hc; lia|].
    cbn [mbind option_bind]. destruct (IH q1 (lswap l w c) c) as (q' & l' & -> & Hq' & Hp & Hh).
    + done.
    + unfold fits_vec. by rewrite lswap_length.
    + unfold child in Hc. lia.
    + by rewrite lswap_length.
    + by apply down_step.
    + rewrite lswap_length. unfold child in Hc. lia.
    + exists q', l'. split; [done|]. split; [done|]. split; [|done].
      rewrite Hp. apply lswap_perm; unfold child in Hc; lia.
  - exists q, l. split; [done|]. split; [done|]. split; [done|]. by eapply (down_done sort k l w c).
Qed.

Lemma shiftr_parent w : (1 < w)%nat ->
  exists p, (1 <= p < w)%nat /\ child p w /\ Z.shiftr (Z.of_nat w) 1 = Z.of_nat p.
Proof.
  intros Hw. rewrite Z.shiftr_div_pow2 by lia. change (2 ^ 1) with 2. unfold child.
  destruct (Nat.Even_or_Odd w) as [[p ->]|[p ->]]; exists p; (split; [lia|]); (split; [lia|]); symmetry.
  - apply Z.div_unique with 0; lia.
  - apply Z.div_unique with 1; lia.
Qed.

Lemma heal_up_spec fuel : forall q l w,
  vrep q l -> fits_vec l -> (1 <= w <= length l)%nat -> up_inv sort l w -> (w < fuel)%nat ->
  exists q' l', heal_up sort fuel q (Z.of_nat w) = Some q' /\ vrep q' l' /\ l' ≡ₚ l /\ heap_from sort 1 l'.
Proof.
  induction fuel as [|fuel IH]; intros q l w Hq Hl Hw Hinv Hf; [lia|]. cbn [heal_up].
  destruct (Z.ltb_spec 1 (Z.of_nat w)) as [Hgt|Hle].
  2: { exists q, l. split; [done|]. split; [done|]. split; [done|]. eapply up_root; [|exact Hinv]. lia. }
  destruct (shiftr_parent w ltac:(lia)) as (p & Hp & Hc & ->).
  rewrite (qcompare_spec q l) by (done || lia). cbn [mbind option_bind].
  destruct (sort (key l p) (key l w)) eqn:Elt.
  - destruct (pq_swap_spec q l p w) as (q1 & -> & Hq1); [done|done|lia|lia|]. cbn [mbind option_bind].
    destruct (IH q1 (lswap l p w) p) as (q' & l' & -> & Hq' & Hperm & Hh); [done| | | |lia|].
    + unfold fits_vec. by rewrite lswap_length.
    + rewrite lswap_length. lia.
    + apply up_step; try done; lia.
    + exists q', l'. split; [done|]. split; [done|]. split; [|done]. rewrite Hperm. apply lswap_perm; lia.
  - exists q, l. split; [done|]. split; [done|]. split; [done|]. eapply (up_done sort l p w); done || lia.
Qed.

(** [add_pqueue] is the same climb with the parent kept in a variable. *)
Lemma add_pqueue_spec fuel : forall q l w,
  vrep q l -> fits_vec l -> (1 <= w <= length l)%nat -> up_inv sort l w -> (w < fuel)%nat ->
  exists q' l', add_pqueue sort fuel q (Z.of_nat w) (Z.shiftr (Z.of_nat w) 1) = Some q' /\ vrep q' l' /\
    l' ≡ₚ l /\ heap_from sort 1 l'.
Proof.
  induction fuel as [|fuel IH]; intros q l w Hq Hl Hw Hinv Hf; [lia|]. cbn [add_pqueue].
  destruct (decide (w = 1%nat)) as [->|Hne].
  { exists q, l. split; [done|]. split; [done|]. split; [done|]. eapply up_root; [|exact Hinv]. lia. }
  destruct (shiftr_parent w ltac:(lia)) as (p & Hp & Hc & ->).
  destruct (Z.ltb_spec 0 (Z.of_nat p)); [|lia].
  rewrite (qcompare_spec q l) by (done || lia). cbn [mbind option_bind].
  destruct (sort (key l p) (key l w)) eqn:Elt.
  - destruct (pq_swap_spec q l w p) as (q1 & -> & Hq1); [done|done|lia|lia|]. cbn [mbind option_bind].
    rewrite lswap_comm in Hq1 by lia.
    destruct (IH q1 (lswap l p w) p) as (q' & l' & -> & Hq' & Hperm & Hh); [done| | | |lia|].
    + unfold fits_vec. by rewrite lswap_length.
    + rewrite lswap_length. lia.
    + apply up_step; try done; lia.
    + exists q', l'. split; [done|]. split; [done|]. split; [|done]. rewrite Hperm. apply lswap_perm; lia.
  - exists q, l. split; [done|]. split; [done|]. split; [done|]. eapply (up_done sort l p w); done || lia.
Qed.

Lemma fuel_length q l : vrep q l -> fits_vec l -> pq_fuel q = S (S (length l)).
Proof. intros Hq Hl. unfold pq_fuel. rewrite (vrep_length q l) by done. lia. Qed.

Lemma pq_insert_spec q l v q1 : vrep q l -> Z.of_nat (length l) < vec_max -> heap_from sort 1 l -> is_word v ->
  vpush q v = Some q1 ->
  exists q' l', pqueue_insert sort q v = Some q' /\ vrep q' l' /\ l' ≡ₚ v :: l /\ heap_from sort 1 l'.
Proof.
  intros Hq Hl Hh Hv E. pose proof (vrep_push q l v q1 Hq Hl Hv E) as Hq1.
  assert (Hl1 : fits_vec (l ++ [v])) by (unfold fits_vec; rewrite length_app; simpl; lia).
  pose proof Hl as Hm. unfold vec_max in Hm.
  unfold pqueue_insert. rewrite E. cbn [mbind option_bind].
  rewrite (fuel_length q1 (l ++ [v])) by done. rewrite (vrep_length q1 (l ++ [v])) by done.
  rewrite length_app. cbn [length]. rewrite u32_small by lia. rewrite Nat.add_1_r.
  destruct (add_pqueue_spec (S (S (S (length l)))) q1 (l ++ [v]) (S (length l))) as (q' & l' & -> & Hq' & Hp & Hh');
    [done|done|rewrite length_app; simpl; lia|by apply push_up_inv|lia|].
  exists q', l'. split; [done|]. split; [done|]. split; [|done]. rewrite Hp. symmetry. apply Permutation_cons_append.
Qed.

(** Putting [n] in the place of an element, then restoring the order. *)
Lemma pq_replace_spec fuel q l i n : vrep q l -> fits_vec l -> heap_from sort 1 l -> (i < length l)%nat ->
  is_word n -> (S (length l) < fuel)%nat ->
  exists q' l',
    ('(body, ok) ← vset q (Z.of_nat i) n;
     _ ← kassert ok;
     lt ← (if 1 <? Z.of_nat i + 1
           then qcompare sort body (Z.shiftr (Z.of_nat i + 1) 1) (Z.of_nat i + 1) else Some false);
     if (lt : bool) then heal_up sort fuel body (Z.of_nat i + 1)
     else heal_down sort fuel body (Z.of_nat i + 1)) = Some q' /\
    vrep q' l' /\ nth i l 0 :: l' ≡ₚ n :: l /\ heap_from sort 1 l'.
Proof.
  intros Hq Hl Hh Hi Hn Hf.
  destruct (vrep_set q l (Z.of_nat i) n Hq Hl) as (q1 & -> & Hq1); [lia|done|]. cbn [mbind option_bind kassert].
  rewrite Nat2Z.id in Hq1. destruct (replace_inv sort l i n Hh Hi) as [Hup Hdown]. cbv zeta in Hup, Hdown.
  set (l1 := <[i := n]> l) in *. assert (Hlen : length l1 = length l) by apply length_insert.
  assert (Hl1 : fits_vec l1) by (unfold fits_vec; by rewrite Hlen).
  assert (Hk : key l1 (S i) = n) by (unfold l1; rewrite key_insert by lia; by rewrite decide_True).
  assert (Hperm : nth i l 0 :: l1 ≡ₚ n :: l).
  { apply insert_perm. destruct (lookup_lt_is_Some_2 l i Hi) as [z Hz]. by rewrite nth_lookup, Hz. }
  replace (Z.of_nat i + 1) with (Z.of_nat (S i)) by lia.
  assert (Hfin : forall q' l', vrep q' l' -> l' ≡ₚ l1 -> heap_from sort 1 l' ->
    vrep q' l' /\ nth i l 0 :: l' ≡ₚ n :: l /\ heap_from sort 1 l').
  { intros q' l' Hq' Hp Hh'. split; [done|]. split; [|done]. by rewrite Hp. }
  assert (Hlt : exists lt, (if 1 <? Z.of_nat (S i) then
      qcompare sort q1 (Z.shiftr (Z.of_nat (S i)) 1) (Z.of_nat (S i)) else Some false) = Some lt /\
    if (lt : bool) then up_inv sort l1 (S i) else down_inv sort 1 l1 (S i)).
  { destruct (Z.ltb_spec 1 (Z.of_nat (S i))) as [Hgt|Hle].
    - destruct (shiftr_parent (S i) ltac:(lia)) as (p & Hp & Hc & ->).
      rewrite (qcompare_spec q1 l1) by (done || lia). eexists. split; [done|]. rewrite Hk.
      destruct (sort (key l1 p) n) eqn:E; [by apply (Hup p); [lia|..]|].
      apply Hdown. intros p' Hp' Hc'. replace p' with p by (unfold child in *; lia). done.
    - exists false. split; [done|]. apply Hdown. intros p' Hp' Hc'. unfold child in Hc'. lia. }
  destruct Hlt as ([] & -> & Hinv); cbn [mbind option_bind].
  - destruct (heal_up_spec fuel q1 l1 (S i)) as (q' & l' & -> & H1 & H2 & H3); [done|done|lia|done|lia|]. eauto.
  - destruct (heal_down_spec 1 fuel q1 l1 (S i)) as (q' & l' & -> & H1 & H2 & H3); [done|done|lia|lia|done|lia|]. eauto.
Qed.

Lemma last_word q l n : vrep q (l ++ [n]) -> is_word n.
Proof. intros Hw%vrep_words. apply Forall_app in Hw as [_ Hw]. by apply Forall_cons in Hw as [? _]. Qed.

Lemma pq_remove_at_spec q l i : vrep q l -> fits_vec l -> heap_from sort 1 l -> (i < length l)%nat ->
  exists q' l', pqueue_remove_at sort q (Z.of_nat i) = Some q' /\ vrep q' l' /\
    l ≡ₚ nth i l 0 :: l' /\ heap_from sort 1 l'.
Proof.
  intros Hq Hl Hh Hi. unfold pqueue_remove_at. rewrite (fuel_length q l) by done.
  destruct l as [|n l _] using rev_ind; [simpl in Hi; lia|]. rewrite length_app in Hi. simpl in Hi.
  assert (Hn : is_word n) by (eapply last_word; exact Hq).
  destruct (vrep_pop q l n Hq) as (b & -> & Hb). cbn [mbind option_bind].
  assert (Hlb : fits_vec l) by (unfold fits_vec in *; rewrite length_app in Hl; lia).
  rewrite (vrep_length b l) by done. apply heap_prefix in Hh.
  destruct (Z.eqb_spec (Z.of_nat i) (Z.of_nat (length l))) as [E|E]; cbn [negb].
  - exists b, l. split; [done|]. split; [done|]. split; [|done]. assert (i = length l) as -> by lia.
    rewrite nth_middle. symmetry. apply Permutation_cons_append.
  - destruct (pq_replace_spec (S (S (length (l ++ [n])))) b l i n) as (q' & l' & -> & Hq' & Hp & Hh');
      [done|done|done|lia|done|rewrite length_app; lia|].
    exists q', l'. split; [done|]. split; [done|]. split; [|done].
    rewrite app_nth1, Hp by lia. symmetry. apply Permutation_cons_append.
Qed.

Lemma remove_loop_spec v q l : vrep q l -> fits_vec l -> heap_from sort 1 l -> forall n i,
  length l = (i + n)%nat -> v ∉ take i l ->
  if decide (v ∈ l)
  then exists q' l', remove_loop sort n q (Z.of_nat i) v = Some (q', true) /\ vrep q' l' /\ l ≡ₚ v :: l' /\
    heap_from sort 1 l'
  else remove_loop sort n q (Z.of_nat i) v = Some (q, false).
Proof.
  intros Hq Hl Hh. pose proof Hl as Hm. unfold fits_vec, vec_max in Hm.
  induction n as [|n IH]; intros i Hn Hni; cbn [remove_loop].
  - rewrite decide_False; [done|]. by rewrite take_ge in Hni by lia.
  - rewrite (vrep_get q l), Nat2Z.id by (done || lia). cbn [mbind option_bind].
    destruct (lookup_lt_is_Some_2 l i) as [z Hz]; [lia|].
    assert (Ez : nth i l 0 = z) by (by rewrite nth_lookup, Hz).
    destruct (Z.eqb_spec (nth i l 0) v) as [E|E].
    + rewrite decide_True by (rewrite <- E, Ez; by eapply list_elem_of_lookup_2).
      destruct (pq_remove_at_spec q l i) as (q' & l' & -> & Hq' & Hp & Hh'); [done..|lia|].
      exists q', l'. rewrite E in Hp. done.
    + replace (Z.of_nat i + 1) with (Z.of_nat (S i)) by lia. apply IH; [lia|].
      rewrite (take_S_r l i z) by done. rewrite not_elem_of_app, list_elem_of_singleton. split; [done|]. congruence.
Qed.

Lemma pq_pop_spec q l : vrep q l -> fits_vec l -> heap_from sort 1 l -> Forall (fun z : Z => z <> 0) l -> l <> [] ->
  exists r q' l', pqueue_pop sort q = Some (q', Some r) /\ vrep q' l' /\ l ≡ₚ r :: l' /\
    heap_from sort 1 l' /\ head l = Some r /\ forall z : Z, z ∈ l -> sort r z = false.
Proof.
  intros Hq Hl Hh Hnz Hne. pose proof Hl as Hm. unfold fits_vec, vec_max in Hm.
  assert (Hmin : forall z : Z, z ∈ l -> sort (key l 1) z = false).
  { intros z [i Hi]%list_elem_of_lookup. pose proof (lookup_lt_Some _ _ _ Hi).
    pose proof (heap_root sort l (S i) Hh ltac:(lia)) as Ha. unfold above in Ha.
    unfold key at 2 in Ha. replace (S i - 1)%nat with i in Ha by lia. by rewrite nth_lookup, Hi in Ha. }
  assert (Hhead : head l = Some (key l 1)) by (by destruct l).
  unfold pqueue_pop. rewrite (fuel_length q l), (vrep_length q l) by done.
  destruct (Z.ltb_spec 0 (Z.of_nat (length l))); [|destruct l; [done|simpl in *; lia]].
  rewrite (vrep_get q l) by (done || lia). cbn [mbind option_bind].
  destruct l as [|n l _] using rev_ind; [done|]. destruct (vrep_pop q l n Hq) as (b & -> & Hb).
  cbn [mbind option_bind].
  assert (Hlb : fits_vec l) by (unfold fits_vec in *; rewrite length_app in Hl; lia).
  assert (Hn : is_word n) by (eapply last_word; exact Hq).
  apply Forall_app in Hnz as [Hnz Hn0]. rewrite (vrep_peek b l) by done. cbn [mbind option_bind].
  change (nth (Z.to_nat 0) (l ++ [n]) 0) with (key (l ++ [n]) 1). set (r := key (l ++ [n]) 1) in *.
  apply heap_prefix in Hh. destruct l as [|z l].
  - exists r, b, []. simpl. split; [done|]. split; [done|]. split; [done|]. by split.
  - assert (Hlast : exists x : Z, last (z :: l) = Some x /\ x <> 0).
    { destruct (last (z :: l)) as [x|] eqn:E; [|by apply last_None in E]. exists x. split; [done|].
      rewrite Forall_forall in Hnz. apply Hnz. by apply last_Some_elem_of. }
    destruct Hlast as (x & -> & Hx). cbn [from_option id]. destruct (Z.eqb_spec x 0); [done|]. cbn [negb].
    destruct (pq_replace_spec (S (S (length ((z :: l) ++ [n])))) b (z :: l) 0 n) as (q' & l' & E & Hq' & Hp & Hh');
      [done|done|done|simpl; lia|done|rewrite length_app; lia|].
    change (Z.of_nat 0) with 0 in E. destruct (vset b 0 n) as [[b1 ok]|]; [|done]. cbn [mbind option_bind] in E |- *.
    destruct ok; [|done]. cbn [kassert mbind option_bind] in E |- *.
    change (1 <? 0 + 1) with false in E. cbv iota in E. cbn [mbind option_bind] in E. change (0 + 1) with 1 in E.
    rewrite E. cbn [mbind option_bind]. exists r, q', l'. split; [done|]. split; [done|].
    split; [|done]. change r with (nth 0 (z :: l) 0). rewrite Hp. symmetry. apply Permutation_cons_append.
Qed.

Lemma reorder_loop_spec n : forall q l, vrep q l -> fits_vec l -> (n <= length l)%nat -> heap_from sort (S n) l ->
  exists q' l', reorder_loop sort n q = Some q' /\ vrep q' l' /\ l' ≡ₚ l /\ heap_from sort 1 l'.
Proof.
  induction n as [|n IH]; intros q l Hq Hl Hn Hh; cbn [reorder_loop]; [by exists q, l|].
  rewrite (fuel_length q l) by done.
  destruct (heal_down_spec (S n) (S (S (length l))) q l (S n)) as (q1 & l1 & -> & Hq1 & Hp1 & Hh1);
    [done|done|lia|lia| |lia|].
  { split; [intros i j Hi H1 Hne Hc Hj; apply Hh; done || lia|]. intros p j Hp H1 Hc. unfold child in Hc. lia. }
  cbn [mbind option_bind]. pose proof (Permutation_length Hp1) as Hlen.
  destruct (IH q1 l1) as (q' & l' & -> & Hq' & Hp' & Hh'); [done|unfold fits_vec; by rewrite Hlen|lia|done|].
  exists q', l'. split; [done|]. split; [done|]. split; [by rewrite Hp'|done].
Qed.
End Proofs.

(** ** The properties *)

(** The order of the timers: smaller first. *)
Definition smaller_first (x y : Z) : bool := y <? x.

#[export] Instance smaller_first_order : SortOrder smaller_first.
Proof. split; unfold smaller_first; intros; breflect; apply Z.ltb_ge; lia. Qed.

(** C28: a priority queue over any vector that keeps its laws, with a strict weak
    order and non-null elements.  Inserting adds the element and keeps the heap
    order; popping a non-empty queue removes an element before which no other is
    to come out, the one [pqueue_peek] shows, and keeps the order. *)
Theorem pqueue_insert_pop {V} `{VL : VecLaws V} sort `{SortOrder sort} (q : V) l :
  vrep q l -> Z.of_nat (length l) < vec_max -> heap_from sort 1 l -> Forall (fun z : Z => z <> 0) l ->
  (forall v q1, is_word v -> vpush q v = Some q1 ->
     exists q' l', pqueue_insert sort q v = Some q' /\ vrep q' l' /\ l' ≡ₚ v :: l /\ heap_from sort 1 l') /\
  (l = [] -> pqueue_pop sort q = Some (q, None)) /\
  (l <> [] -> exists r q' l', pqueue_peek q = Some (Some r) /\ pqueue_pop sort q = Some (q', Some r) /\
     vrep q' l' /\ l ≡ₚ r :: l' /\ heap_from sort 1 l' /\ forall z, z ∈ l -> sort r z = false).
Proof.
  intros Hq Hl Hh Hnz. assert (Hf : fits_vec l) by (unfold fits_vec; lia). split; [|split].
  - intros v q1 Hv E. by eapply pq_insert_spec.
  - intros ->. unfold pqueue_pop. by rewrite (vrep_length q []).
  - intros Hne. destruct (pq_pop_spec sort q l) as (r & q' & l' & Ep & Hq' & Hp & Hh' & Hd & Hmin); [done..|].
    exists r, q', l'. split; [|done]. unfold pqueue_peek, pqueue_peek_at. rewrite (vrep_length q l) by done.
    rewrite (vrep_get q l) by (done || lia). destruct l as [|z l]; [done|]. injection Hd as ->.
    destruct (Z.ltb_spec 0 (Z.of_nat (length (r :: l)))); [done|simpl in *; lia].
Qed.

Lemma pqueue_insert_pop_witness :
  let h := zero_heap in
  exists r q', pqueue_pop smaller_first sample_vector = Some (q', Some r) /\ r = 5.
Proof.
  intros h. pose proof zero_heap_laws as Hz.
  destruct (pqueue_insert_pop smaller_first sample_vector [5; 7; 9]) as (_ & _ & Hp).
  - apply sample_vector_holds.
  - done.
  - intros i j _ Hi Hc Hj. unfold child in Hc. simpl in Hj. assert (i = 1%nat) as -> by lia.
    destruct Hc as [->| ->]; done.
  - repeat (constructor; [done|]). constructor.
  - destruct Hp as (r & q' & l' & _ & E & _ & _ & _ & Hmin); [done|].
    exists r, q'. split; [exact E|]. vm_compute in E. congruence.
Defined.

(** Removing a value that is in the queue takes one occurrence of it out and
    keeps the heap order, removing one that is not changes nothing; and
    [pqueue_reorder] establishes the heap order on any vector, keeping its elements. *)
Theorem pqueue_remove_reorder {V} `{VL : VecLaws V} sort `{SortOrder sort} (q : V) l :
  vrep q l -> Z.of_nat (length l) <= vec_max ->
  (forall v, heap_from sort 1 l -> v ∈ l ->
     exists q' l', pqueue_remove sort q v = Some (q', true) /\ vrep q' l' /\ l ≡ₚ v :: l' /\
       heap_from sort 1 l') /\
  (forall v, heap_from sort 1 l -> v ∉ l -> pqueue_remove sort q v = Some (q, false)) /\
  exists q' l', pqueue_reorder sort q = Some q' /\ vrep q' l' /\ l' ≡ₚ l /\ heap_from sort 1 l'.
Proof.
  intros Hq Hl. unfold pqueue_remove, pqueue_reorder. rewrite (vrep_length q l), Nat2Z.id by done.
  split; [|split].
  - intros v Hh Hv. pose proof (remove_loop_spec sort v q l Hq Hl Hh (length l) 0 eq_refl) as Hr.
    rewrite decide_True in Hr by done. apply Hr. simpl. apply not_elem_of_nil.
  - intros v Hh Hv. pose proof (remove_loop_spec sort v q l Hq Hl Hh (length l) 0 eq_refl) as Hr.
    rewrite decide_False in Hr by done. apply Hr. simpl. apply not_elem_of_nil.
  - pose proof (Z.div_mod (Z.of_nat (length l)) 2 ltac:(lia)). pose proof (Z.mod_pos_bound (Z.of_nat (length l)) 2 ltac:(lia)).
    apply (reorder_loop_spec sort); [done|done|lia|]. intros i j Hk Hi Hc Hj. unfold child in Hc. lia.
Qed.
