(* ===== verification/Table.v ===== *)
(** Hash tables: [kernel/src/runtime/table.c] and [table.h].

    A table is an array of buckets, each a chain of entries.  Keys and values are
    pointers, as words; the two functions of a table are parameters, with what the
    code relies on stated in [KeyFunctions].  [EMPTY] is 0.  [None] is a failed
    assertion or a halt, which is what a failed allocation leads to. *)

From S2P Require Import Prelude Words Heap.

Definition EMPTY : Z := 0.
Definition TABLE_MAX_BUCKETS : Z := 131072.
Definition sizeof_entry : Z := 32.

Record entry := { e_v : Z; e_k : Z; e_c : Z }.

(** [h_is_eh] is [t->h == t->eh]: the entries do not come from a preallocated cache. *)
Record table := { buckets : Z; count : Z; entries : list (list entry); h_is_eh : bool }.

Definition pointer_equal (a b : Z) : bool := a =? b.
Definition identity_key (a : Z) : Z := a.

Definition position (buckets x : Z) : Z := Z.land x (u64 (buckets - 1)).

(** What a table needs of its functions. *)
Class KeyFunctions (key_function : Z -> Z) (equals_function : Z -> Z -> bool) : Prop := {
  key_word c : 0 <= key_function c < 2 ^ 64;
  equals_refl c : equals_function c c = true;
  equals_sym c d : equals_function c d = true -> equals_function d c = true;
  equals_trans c d e : equals_function c d = true -> equals_function d e = true -> equals_function c e = true;
  equals_key c d : equals_function c d = true -> key_function c = key_function d;
}.

#[export] Instance pointer_functions : KeyFunctions (fun a => u64 a) (fun a b => u64 a =? u64 b).
Proof.
  split; intros *; rewrite ?Z.eqb_eq; try congruence. apply u64_range.
Qed.

(** ** The code *)

Section Code.
Context {h : Heap} (key_function : Z -> Z) (equals_function : Z -> Z -> bool).

Definition allocate_table_internal (sizeof_table prealloc_count : Z) : option table :=
  _ ← allocate sizeof_table;
  let buckets := if negb (prealloc_count =? 0) then prealloc_count else 4 in
  _ ← allocate (buckets * 8);
  Some {| buckets := buckets; count := 0; entries := replicate (Z.to_nat buckets) [];
          h_is_eh := prealloc_count =? 0 |}.

Definition allocate_table (sizeof_table : Z) : option table := allocate_table_internal sizeof_table 0.

(** The chain of a bucket, and the table with another chain there. *)
Definition chain_at (t : table) (p : Z) : option (list entry) := entries t !! Z.to_nat p.

Definition set_chain (t : table) (p : Z) (l : list entry) (c : Z) : table :=
  {| buckets := buckets t; count := c; entries := <[Z.to_nat p := l]> (entries t); h_is_eh := h_is_eh t |}.

(** Moving one entry of an old chain to the head of its new one. *)
Definition rehash_entry (nbuckets : Z) (ne : list (list entry)) (j : entry) : option (list (list entry)) :=
  let km := Z.to_nat (position nbuckets (e_k j)) in
  l ← ne !! km; Some (<[km := j :: l]> ne).

Fixpoint rehash_chain (nbuckets : Z) (ne : list (list entry)) (l : list entry) : option (list (list entry)) :=
  match l with
  | [] => Some ne
  | j :: l => ne ← rehash_entry nbuckets ne j; rehash_chain nbuckets ne l
  end.

Fixpoint rehash (nbuckets : Z) (ne old : list (list entry)) : option (list (list entry)) :=
  match old with
  | [] => Some ne
  | l :: old => ne ← rehash_chain nbuckets ne l; rehash nbuckets ne old
  end.

Definition resize_table (t : table) (nbuckets : Z) : option table :=
  _ ← kassert (Z.land nbuckets (nbuckets - 1) =? 0);
  _ ← kassert (nbuckets <=? TABLE_MAX_BUCKETS);
  _ ← kassert (h_is_eh t);
  _ ← allocate (nbuckets * 8);
  ne ← rehash nbuckets (replicate (Z.to_nat nbuckets) []) (entries t);
  Some {| buckets := nbuckets; count := count t; entries := ne; h_is_eh := h_is_eh t |}.

(** The new entry goes where the walk of the chain of bucket [p] ended. *)
Definition table_insert_internal (t : table) (k p : Z) (l : list entry) (c v : Z) : option table :=
  _ ← allocate sizeof_entry;
  let n := {| e_v := v; e_k := k; e_c := c |} in
  let old := count t in
  let t := set_chain t p (l ++ [n]) (s32 (count t + 1)) in
  if (buckets t <? old) && (buckets t <=? TABLE_MAX_BUCKETS / 2)
  then resize_table t (buckets t * 2)
  else Some t.

Definition match_entry (k c : Z) (e : entry) : bool := (e_k e =? k) && equals_function (e_c e) c.

(** The walk of a chain up to the entry that matches. *)
Fixpoint split_chain (k c : Z) (l : list entry) : list entry * option (entry * list entry) :=
  match l with
  | [] => ([], None)
  | e :: l' =>
      if match_entry k c e then ([], Some (e, l'))
      else let '(before, r) := split_chain k c l' in (e :: before, r)
  end.

Definition table_remove_internal (t : table) (p : Z) (before after : list entry) : option table :=
  _ ← kassert (0 <? count t);
  Some (set_chain t p (before ++ after) (count t - 1)).

Definition table_find (t : table) (c : Z) : option Z :=
  let k := key_function c in
  l ← chain_at t (position (buckets t) k);
  Some (match snd (split_chain k c l) with Some (e, _) => e_v e | None => EMPTY end).

Definition table_set (t : table) (c v : Z) : option table :=
  let k := key_function c in
  let p := position (buckets t) k in
  l ← chain_at t p;
  match split_chain k c l with
  | (before, Some (e, after)) =>
      if v =? EMPTY then table_remove_internal t p before after
      else Some (set_chain t p (before ++ {| e_v := v; e_k := e_k e; e_c := e_c e |} :: after) (count t))
  | (_, None) => if negb (v =? EMPTY) then table_insert_internal t k p l c v else Some t
  end.

Definition table_set_noreplace (t : table) (c v : Z) : option (table * bool) :=
  let k := key_function c in
  let p := position (buckets t) k in
  l ← chain_at t p;
  match snd (split_chain k c l) with
  | Some _ => Some (t, false)
  | None => t ← table_insert_internal t k p l c v; Some (t, true)
  end.

Definition table_remove (t : table) (c : Z) : option (table * Z) :=
  let k := key_function c in
  let p := position (buckets t) k in
  l ← chain_at t p;
  match split_chain k c l with
  | (before, Some (e, after)) => t ← table_remove_internal t p before after; Some (t, e_v e)
  | (_, None) => Some (t, EMPTY)
  end.

Definition table_elements (t : table) : Z := count t.

Definition table_clear (t : table) : table :=
  {| buckets := buckets t; count := 0; entries := (fun _ => []) <$> entries t; h_is_eh := h_is_eh t |}.

(** [table_foreach]: the test of the inner loop is the value of the entry, so a
    chain is left at an [EMPTY] value. *)
Fixpoint foreach_chain (l : list entry) : list (Z * Z) :=
  match l with
  | [] => []
  | e :: l => if e_v e =? 0 then [] else (e_c e, e_v e) :: foreach_chain l
  end.

Definition table_foreach (t : table) : list (Z * Z) := concat (foreach_chain <$> entries t).
End Code.

(** ** Well-formed tables *)

Section Proofs.
Context {h : Heap} {ht : HeapTotal h}.
Context (key_function : Z -> Z) (equals_function : Z -> Z -> bool).
Context {kf : KeyFunctions key_function equals_function}.
Implicit Types (l : list entry) (e : entry) (t : table).
Local Notation matches c := (match_entry equals_function (key_function c) c).

Definition same_key e e' : Prop := equals_function (e_c e) (e_c e') = true.

(** No two entries of a list have equal keys. *)
Fixpoint distinct l : Prop :=
  match l with [] => True | e :: l' => Forall (fun e' => ~ same_key e e') l' /\ distinct l' end.

Record table_ok t : Prop := {
  tk_size : exists k, 0 <= k <= 17 /\ buckets t = 2 ^ k;
  tk_length : Z.of_nat (length (entries t)) = buckets t;
  tk_place : forall i l e, entries t !! i = Some l -> e ∈ l ->
    e_k e = key_function (e_c e) /\ position (buckets t) (e_k e) = Z.of_nat i;
  tk_distinct : distinct (concat (entries t));
  tk_count : count t = Z.of_nat (length (concat (entries t)));
  tk_values : Forall (fun e => e_v e <> 0) (concat (entries t));
}.

(** The value a list of entries gives to a key. *)
Fixpoint binding l (c : Z) : Z :=
  match l with [] => 0 | e :: l' => if equals_function (e_c e) c then e_v e else binding l' c end.

Lemma same_key_sym e e' : same_key e e' -> same_key e' e.
Proof. apply equals_sym. Qed.

#[export] Instance distinct_perm : Proper (Permutation ==> iff) distinct.
Proof.
  assert (H : forall l l', l ≡ₚ l' -> distinct l -> distinct l').
  { induction 1 as [|e l l' Hp IH|e e' l|l l' l'' _ IH1 _ IH2]; simpl; [done| | |auto].
    - intros [H1 H2]. split; [by rewrite <- Hp|auto].
    - intros [H1 [H2 H3]]. apply Forall_cons in H1 as [H0 H1]. split; [|done].
      constructor; [|done]. intros Hs. by apply H0, same_key_sym. }
  intros l l' Hp. split; apply H; done.
Qed.

Lemma binding_absent l c : Forall (fun e => equals_function (e_c e) c = false) l -> binding l c = 0.
Proof. induction 1 as [|e l He Hl IH]; simpl; [done|]. by rewrite He. Qed.

Lemma binding_perm l l' c : l ≡ₚ l' -> distinct l -> binding l c = binding l' c.
Proof.
  intros Hp. induction Hp as [|e l l' Hp IH|e e' l|l l' l'' Hp1 IH1 Hp2 IH2]; simpl; intros Hd; [done| | |].
  - destruct Hd as [_ Hd]. by rewrite IH.
  - destruct Hd as [H1 _]. apply Forall_cons in H1 as [H1 _]. unfold same_key in H1.
    destruct (equals_function (e_c e) c) eqn:E1, (equals_function (e_c e') c) eqn:E2; try done.
    exfalso. apply H1. eapply equals_trans; [exact E2|]. by apply equals_sym.
  - rewrite IH1 by done. apply IH2. by rewrite <- Hp1.
Qed.

Lemma binding_app_absent l l' c :
  Forall (fun e => equals_function (e_c e) c = false) l' -> binding (l ++ l') c = binding l c.
Proof.
  intros Hl'. induction l as [|e l IH]; simpl; [by apply binding_absent|]. by rewrite IH.
Qed.

(** ** Chains *)

Lemma match_spec c e : e_k e = key_function (e_c e) ->
  matches c e = equals_function (e_c e) c.
Proof.
  intros Hk. unfold match_entry. destruct (equals_function (e_c e) c) eqn:E; [|apply andb_false_r].
  rewrite Hk, (equals_key _ _ E), Z.eqb_refl. done.
Qed.

Lemma split_chain_spec c l : Forall (fun e => e_k e = key_function (e_c e)) l ->
  match split_chain equals_function (key_function c) c l with
  | (before, Some (e, after)) => l = before ++ e :: after /\ equals_function (e_c e) c = true
  | (before, None) => Forall (fun e => equals_function (e_c e) c = false) l
  end.
Proof.
  induction 1 as [|e l He Hl IH]; cbn [split_chain]; [constructor|].
  rewrite match_spec by done. destruct (equals_function (e_c e) c) eqn:E; [by split|].
  destruct (split_chain _ _ c l) as [before [[e' after]|]].
  - destruct IH as [-> IH]. by split.
  - by constructor.
Qed.

Lemma concat_chain (es : list (list entry)) i l : es !! i = Some l ->
  exists rest, concat es ≡ₚ l ++ rest /\ (forall l', concat (<[i := l']> es) ≡ₚ l' ++ rest) /\
    forall e, e ∈ rest -> exists j l', i <> j /\ es !! j = Some l' /\ e ∈ l'.
Proof.
  intros Hi. pose proof (lookup_lt_Some _ _ _ Hi) as Hlt.
  exists (concat (take i es) ++ concat (drop (S i) es)). split; [|split].
  - rewrite <- (take_drop_middle es i l Hi) at 1. rewrite concat_app. cbn [concat].
    rewrite Permutation_app_swap_app. done.
  - intros l'. rewrite insert_take_drop by done. rewrite concat_app. cbn [concat].
    rewrite Permutation_app_swap_app. done.
  - intros e He. apply elem_of_app in He as [He|He]; apply list_elem_of_In, in_concat in He as (l' & Hin & He);
      apply list_elem_of_In in He, Hin; apply list_elem_of_lookup in Hin as [j Hj].
    + apply lookup_take_Some in Hj as [Hj ?]. exists j, l'. split; [lia|done].
    + rewrite lookup_drop in Hj. exists (S i + j)%nat, l'. split; [lia|done].
Qed.

Lemma concat_elem (es : list (list entry)) e : e ∈ concat es <-> exists j l, es !! j = Some l /\ e ∈ l.
Proof.
  rewrite list_elem_of_In, in_concat. setoid_rewrite <- list_elem_of_In. split.
  - intros (l & [j Hj]%list_elem_of_lookup & He). eauto.
  - intros (j & l & Hj & He). exists l. split; [by eapply list_elem_of_lookup_2|done].
Qed.

Lemma position_range k x : 0 <= k <= 17 -> 0 <= x -> 0 <= position (2 ^ k) x < 2 ^ k.
Proof.
  intros Hk Hx. assert (1 <= 2 ^ k <= 2 ^ 17) by (split; [lia|apply Z.pow_le_mono_r; lia]).
  unfold position. rewrite u64_small by lia. replace (2 ^ k - 1) with (Z.ones k) by (rewrite Z.ones_equiv; lia).
  rewrite Z.land_ones by lia. apply Z.mod_pos_bound. lia.
Qed.

(** The bucket of a key holds all there is for it. *)
Lemma bucket_spec t c : table_ok t ->
  let p := position (buckets t) (key_function c) in
  exists l rest, chain_at t p = Some l /\ concat (entries t) ≡ₚ l ++ rest /\
    (forall l', concat (<[Z.to_nat p := l']> (entries t)) ≡ₚ l' ++ rest) /\
    Forall (fun e => e_k e = key_function (e_c e)) l /\
    Forall (fun e => equals_function (e_c e) c = false) rest /\
    binding (concat (entries t)) c = binding l c.
Proof.
  intros Hok p. pose proof (tk_size _ Hok) as (k & Hk & Ek). pose proof (key_word (KeyFunctions := kf) c) as Hw.
  pose proof (position_range k (key_function c) Hk ltac:(lia)) as Hp. rewrite <- Ek in Hp. fold p in Hp.
  pose proof (tk_length _ Hok) as Hl.
  destruct (lookup_lt_is_Some_2 (entries t) (Z.to_nat p)) as [l El]; [lia|].
  destruct (concat_chain _ _ _ El) as (rest & Hc & Hc' & Hrest). exists l, rest. split; [done|].
  split; [done|]. split; [done|].
  assert (Hr : Forall (fun e => equals_function (e_c e) c = false) rest).
  { apply Forall_forall. intros e He. destruct (Hrest e He) as (j & l' & Hne & Hj & Hel).
    destruct (tk_place _ Hok _ _ _ Hj Hel) as [Hke Hpe]. apply not_true_iff_false. intros Heq.
    apply Hne. rewrite Hke, (equals_key _ _ Heq) in Hpe. fold p in Hpe. lia. }
  split; [|split; [done|]].
  - apply Forall_forall. intros e He. by apply (tk_place _ Hok _ _ _ El He).
  - rewrite (binding_perm _ (l ++ rest)) by (done || apply Hok). by apply binding_app_absent.
Qed.

Lemma chain_binding c l : Forall (fun e => e_k e = key_function (e_c e)) l ->
  match snd (split_chain equals_function (key_function c) c l) with Some (e, _) => e_v e | None => EMPTY end =
  binding l c.
Proof.
  induction 1 as [|e l He Hl IH]; cbn [split_chain binding]; [done|].
  rewrite match_spec by done. destruct (equals_function (e_c e) c) eqn:E; [done|].
  destruct (split_chain _ _ c l) as [before r]. done.
Qed.

Lemma find_spec t c : table_ok t ->
  table_find key_function equals_function t c = Some (binding (concat (entries t)) c).
Proof.
  intros Hok. destruct (bucket_spec t c Hok) as (l & rest & El & _ & _ & Hk & _ & Eb).
  unfold table_find. rewrite El. cbn [mbind option_bind]. by rewrite Eb, chain_binding.
Qed.

(** Putting another chain in the bucket of a key. *)
Lemma set_chain_ok t c l rest l' cnt : table_ok t ->
  let p := position (buckets t) (key_function c) in
  chain_at t p = Some l -> (forall l', concat (<[Z.to_nat p := l']> (entries t)) ≡ₚ l' ++ rest) ->
  (forall e, e ∈ l' -> e_k e = key_function (e_c e) /\ position (buckets t) (e_k e) = p) ->
  distinct (l' ++ rest) -> cnt = Z.of_nat (length (l' ++ rest)) ->
  Forall (fun e => e_v e <> 0) (l' ++ rest) -> table_ok (set_chain t p l' cnt).
Proof.
  intros Hok p El Hc Hpl Hd Hcnt Hv. pose proof Hok as [H1 H2 H3 H4 H5 H6]. split; simpl.
  - done.
  - by rewrite length_insert.
  - intros i lx e Hi He. destruct (decide (i = Z.to_nat p)) as [->|Hne].
    + rewrite list_lookup_insert_eq in Hi by (eapply lookup_lt_Some, El). injection Hi as <-.
      destruct (Hpl e He) as [Hk Hp]. split; [done|]. rewrite Hp.
      destruct H1 as (k & Hk' & Ek). pose proof (key_word (KeyFunctions := kf) c).
      pose proof (position_range k (key_function c) Hk' ltac:(lia)) as Hr. rewrite <- Ek in Hr. fold p in Hr. lia.
    + rewrite list_lookup_insert_ne in Hi by done. by eapply H3.
  - by rewrite Hc.
  - by rewrite Hc.
  - by rewrite Hc.
Qed.

(** ** Resizing *)

Definition placed (nb : Z) (es : list (list entry)) : Prop :=
  forall i l e, es !! i = Some l -> e ∈ l -> e_k e = key_function (e_c e) /\ position nb (e_k e) = Z.of_nat i.

(** [ne'] has the entries [l] besides those of [ne], each in its bucket. *)
Definition moved (nb : Z) (ne ne' : list (list entry)) l : Prop :=
  Z.of_nat (length ne') = nb /\ placed nb ne' /\ concat ne' ≡ₚ l ++ concat ne.

Lemma rehash_chain_spec k l : 0 <= k <= 17 -> forall ne,
  Forall (fun e => e_k e = key_function (e_c e)) l -> Z.of_nat (length ne) = 2 ^ k -> placed (2 ^ k) ne ->
  exists ne', rehash_chain (2 ^ k) ne l = Some ne' /\ moved (2 ^ k) ne ne' l.
Proof.
  intros Hk. induction l as [|e l IH]; intros ne Hl Hlen Hpl; cbn [rehash_chain].
  { exists ne. by split. }
  apply Forall_cons in Hl as [He Hl]. pose proof (key_word (KeyFunctions := kf) (e_c e)) as Hw.
  pose proof (position_range k (e_k e) Hk ltac:(lia)) as Hp. unfold rehash_entry.
  set (p := position (2 ^ k) (e_k e)) in *.
  destruct (lookup_lt_is_Some_2 ne (Z.to_nat p)) as [lp Elp]; [lia|]. rewrite Elp. cbn [mbind option_bind].
  destruct (concat_chain _ _ _ Elp) as (rest & Hc & Hc' & _).
  destruct (IH (<[Z.to_nat p := e :: lp]> ne)) as (ne' & -> & Hlen' & Hpl' & Hcc); [done|by rewrite length_insert| |].
  - intros i lx x Hi Hx. destruct (decide (i = Z.to_nat p)) as [->|Hne].
    + rewrite list_lookup_insert_eq in Hi by (by eapply lookup_lt_Some). injection Hi as <-.
      apply elem_of_cons in Hx as [->|Hx]; [|by eapply Hpl]. split; [done|]. fold p. lia.
    + rewrite list_lookup_insert_ne in Hi by done. by eapply Hpl.
  - exists ne'. split; [done|]. split; [done|]. split; [done|]. rewrite Hcc, Hc', Hc. simpl.
    by rewrite <- Permutation_middle.
Qed.

Lemma rehash_spec k old : 0 <= k <= 17 -> forall ne,
  (forall e, e ∈ concat old -> e_k e = key_function (e_c e)) ->
  Z.of_nat (length ne) = 2 ^ k -> placed (2 ^ k) ne ->
  exists ne', rehash (2 ^ k) ne old = Some ne' /\ moved (2 ^ k) ne ne' (concat old).
Proof.
  intros Hk. induction old as [|l old IH]; intros ne Hold Hlen Hpl; cbn [rehash concat]; [exists ne; by split|].
  cbn [concat] in Hold. setoid_rewrite elem_of_app in Hold.
  destruct (rehash_chain_spec k l Hk ne) as (ne1 & -> & Hl1 & Hp1 & Hc1); [|done|done|].
  { apply Forall_forall. intros e He. apply Hold. by left. }
  cbn [mbind option_bind]. destruct (IH ne1) as (ne' & -> & Hl' & Hp' & Hc'); [intros e He; apply Hold; by right|done..|].
  exists ne'. split; [done|]. split; [done|]. split; [done|]. rewrite Hc', Hc1.
  by rewrite !app_assoc, (Permutation_app_comm (concat old) l).
Qed.

Lemma concat_replicate_nil n : concat (replicate n ([] : list entry)) = [].
Proof. by induction n. Qed.

Lemma resize_spec t k : table_ok t -> h_is_eh t = true -> 0 <= k <= 17 ->
  exists t', resize_table t (2 ^ k) = Some t' /\ table_ok t' /\ concat (entries t') ≡ₚ concat (entries t) /\
    h_is_eh t' = h_is_eh t /\ count t' = count t /\ buckets t' = 2 ^ k.
Proof.
  intros Hok Heh Hk. assert (Hpow : 1 <= 2 ^ k <= 2 ^ 17) by (split; [lia|apply Z.pow_le_mono_r; lia]).
  unfold resize_table, kassert, TABLE_MAX_BUCKETS.
  assert (Hland : Z.land (2 ^ k) (2 ^ k - 1) = 0).
  { replace (2 ^ k - 1) with (Z.ones k) by (rewrite Z.ones_equiv; lia). rewrite Z.land_ones by lia.
    apply Z.mod_same. lia. }
  rewrite Hland, Heh. cbn [mbind option_bind Z.eqb]. destruct (Z.leb_spec (2 ^ k) 131072); [|lia].
  cbn [mbind option_bind].
  destruct (allocate (2 ^ k * 8)) as [mem|] eqn:Ea; [|by destruct (ht (2 ^ k * 8)); [lia|]]. cbn [mbind option_bind].
  destruct (rehash_spec k (entries t) Hk (replicate (Z.to_nat (2 ^ k)) [])) as (ne & -> & Hl & Hp & Hc).
  - intros e (j & l & Hj & He)%concat_elem. by eapply (tk_place _ Hok).
  - rewrite length_replicate. lia.
  - intros i l e Hi He. apply lookup_replicate in Hi as [-> _]. by apply not_elem_of_nil in He.
  - rewrite concat_replicate_nil, app_nil_r in Hc. cbn [mbind option_bind]. eexists. split; [done|].
    split; [|done]. destruct Hok as [H1 H2 H3 H4 H5 H6]. split; simpl; [by exists k|done|done|..]; by rewrite Hc.
Qed.

(** ** Insertion and removal *)

(** [binding] of the entries of a table. *)
Definition value_of t (c : Z) : Z := binding (concat (entries t)) c.

Lemma entry_place t c : table_ok t ->
  let p := position (buckets t) (key_function c) in
  forall l e, chain_at t p = Some l -> e ∈ l -> e_k e = key_function (e_c e) /\ position (buckets t) (e_k e) = p.
Proof.
  intros Hok p l e El He. destruct (tk_place _ Hok _ _ _ El He) as [Hk Hp]. split; [done|].
  pose proof (tk_size _ Hok) as (k & Hk' & Ek). pose proof (key_word (KeyFunctions := kf) c).
  pose proof (position_range k (key_function c) Hk' ltac:(lia)) as Hr. rewrite <- Ek in Hr. fold p in Hr. lia.
Qed.

Lemma insert_internal_spec t c v l : table_ok t -> count t < 2 ^ 31 - 2 -> v <> 0 -> h_is_eh t = true ->
  let p := position (buckets t) (key_function c) in
  chain_at t p = Some l -> Forall (fun e => equals_function (e_c e) c = false) l ->
  exists t', table_insert_internal t (key_function c) p l c v = Some t' /\ table_ok t' /\
    h_is_eh t' = true /\ count t' = count t + 1 /\
    forall d, value_of t' d = if equals_function c d then v else value_of t d.
Proof.
  intros Hok Hcnt Hv Heh p El Hno. set (n := {| e_v := v; e_k := key_function c; e_c := c |}).
  destruct (bucket_spec t c Hok) as (l0 & rest & El0 & Hc & Hc' & Hk & Hr & _). fold p in El0, Hc'.
  assert (l0 = l) as -> by congruence.
  pose proof (tk_count _ Hok) as Ec. rewrite Hc in Ec.
  assert (Hperm : (l ++ [n]) ++ rest ≡ₚ n :: concat (entries t)).
  { rewrite Hc, <- app_assoc. simpl. by rewrite <- Permutation_middle. }
  assert (Hdn : distinct (n :: concat (entries t))).
  { split; [|apply Hok]. rewrite Hc. apply Forall_app. split.
    - apply (Forall_impl _ _ _ Hno). simpl. intros e He Hs. apply equals_sym in Hs. simpl in Hs. congruence.
    - apply (Forall_impl _ _ _ Hr). simpl. intros e He Hs. apply equals_sym in Hs. simpl in Hs. congruence. }
  assert (Hok1 : table_ok (set_chain t p (l ++ [n]) (count t + 1))).
  { apply (set_chain_ok t c l rest); [done|done|done| | | |].
    - intros e [He| ->%list_elem_of_singleton]%elem_of_app; [by apply (entry_place t c Hok l)|done].
    - by rewrite Hperm.
    - rewrite Ec, !length_app. simpl. lia.
    - rewrite Hperm. constructor; [done|apply Hok]. }
  unfold table_insert_internal.
  destruct (allocate sizeof_entry) as [mem|] eqn:Ea; [|by destruct (ht sizeof_entry)]. cbn [mbind option_bind]. fold n.
  rewrite s32_small by (rewrite Ec in *; lia). set (t1 := set_chain t p (l ++ [n]) (count t + 1)) in *.
  assert (Hval : forall d, value_of t1 d = if equals_function c d then v else value_of t d).
  { intros d. unfold value_of. rewrite (binding_perm _ (n :: concat (entries t))); [done| |apply Hok1].
    unfold t1. simpl. by rewrite Hc', Hperm. }
  destruct (buckets t1 <? count t) eqn:E1, (buckets t1 <=? TABLE_MAX_BUCKETS / 2) eqn:E2; cbn [andb];
    try (exists t1; split; [done|]; split; [done|]; split; [done|]; split; [done|exact Hval]).
  pose proof (tk_size _ Hok1) as (k & Hk1 & Ek). breflect.
  assert (Hk17 : k < 17).
  { apply (Z.pow_lt_mono_r_iff 2); [lia|lia|]. rewrite <- Ek. change (TABLE_MAX_BUCKETS / 2) with (2 ^ 16) in E2. lia. }
  replace (buckets t1 * 2) with (2 ^ (k + 1)) by (rewrite Z.pow_add_r, Ek; lia).
  destruct (resize_spec t1 (k + 1) Hok1 Heh) as (t' & -> & Hok' & Hp & He' & Hc2 & _); [lia|].
  exists t'. split; [done|]. split; [done|]. split; [by rewrite He'|]. split; [by rewrite Hc2|].
  intros d. rewrite <- Hval. unfold value_of. apply binding_perm; [done|apply Hok'].
Qed.

(** Replacing the entry of a key, by one with another value or by none. *)
Lemma change_entry_spec t c before e after new : table_ok t ->
  let p := position (buckets t) (key_function c) in
  chain_at t p = Some (before ++ e :: after) -> equals_function (e_c e) c = true ->
  match new with Some v => v <> 0 | None => True end ->
  let l' := before ++ match new with Some v => [{| e_v := v; e_k := e_k e; e_c := e_c e |}] | None => [] end ++ after in
  let cnt := match new with Some _ => count t | None => count t - 1 end in
  0 < count t /\ table_ok (set_chain t p l' cnt) /\ value_of t c = e_v e /\
  forall d, value_of (set_chain t p l' cnt) d = if equals_function c d then default 0 new else value_of t d.
Proof.
  intros Hok p El Heq Hnew l' cnt.
  destruct (bucket_spec t c Hok) as (l0 & rest & El0 & Hc & Hc' & Hk & Hr & _). fold p in El0, Hc'.
  assert (l0 = before ++ e :: after) as -> by congruence.
  pose proof (tk_count _ Hok) as Ec. rewrite Hc in Ec.
  set (R := before ++ after ++ rest).
  assert (Hall : concat (entries t) ≡ₚ e :: R).
  { rewrite Hc, <- app_assoc. simpl. by rewrite <- Permutation_middle. }
  set (ne := match new with Some v => [{| e_v := v; e_k := e_k e; e_c := e_c e |}] | None => [] end) in *.
  assert (Hall' : l' ++ rest ≡ₚ ne ++ R).
  { unfold l', R. rewrite <- !app_assoc. by rewrite Permutation_app_swap_app. }
  pose proof (tk_distinct _ Hok) as Hd. rewrite Hall in Hd. destruct Hd as [HdR Hd].
  pose proof (tk_values _ Hok) as Hv. rewrite Hall in Hv. apply Forall_cons in Hv as [Hve HvR].
  assert (Hd' : distinct (ne ++ R)) by (unfold ne; destruct new; simpl; [by split|done]).
  assert (Hok' : table_ok (set_chain t p l' cnt)).
  { apply (set_chain_ok t c (before ++ e :: after) rest); [done|done|done| | | |].
    - intros x Hx. unfold l' in Hx. rewrite !elem_of_app in Hx.
      pose proof (fun y => entry_place t c Hok _ y El0) as Hpl. setoid_rewrite elem_of_app in Hpl.
      setoid_rewrite elem_of_cons in Hpl. destruct Hx as [Hx|[Hx|Hx]]; [auto| |auto].
      unfold ne in Hx. destruct new as [v|]; [|by apply not_elem_of_nil in Hx].
      apply list_elem_of_singleton in Hx as ->. simpl. apply (Hpl e). auto.
    - by rewrite Hall'.
    - rewrite Hall', <- Hc, Hall in *. unfold cnt, ne. rewrite Ec. destruct new; simpl; lia.
    - rewrite Hall'. apply Forall_app. split; [|done]. unfold ne. destruct new; [by constructor|constructor]. }
  split; [rewrite Ec, !length_app; cbn [length]; lia|]. split; [done|].
  assert (Hcd : forall d, equals_function (e_c e) d = equals_function c d).
  { intros d. destruct (equals_function c d) eqn:E.
    - by eapply equals_trans.
    - apply not_true_iff_false. intros E'. apply not_true_iff_false in E. apply E.
      eapply equals_trans; [|exact E']. by apply equals_sym. }
  unfold value_of. split.
  - rewrite (binding_perm _ (e :: R)) by (done || apply Hok). simpl. by rewrite Heq.
  - intros d. rewrite (binding_perm _ (ne ++ R)); [|simpl; by rewrite Hc', Hall'|apply Hok'].
    rewrite (binding_perm (concat (entries t)) (e :: R)) by (done || apply Hok). simpl. rewrite Hcd.
    unfold ne. destruct new as [v|]; simpl; [rewrite Hcd; by destruct (equals_function c d)|].
    destruct (equals_function c d) eqn:E; [|done]. apply binding_absent.
    apply (Forall_impl _ _ _ HdR). unfold same_key. simpl. intros x Hx. apply not_true_iff_false. intros Hxd.
    apply Hx. rewrite <- Hcd in E. eapply equals_trans; [exact E|]. by apply equals_sym.
Qed.

(** Equal keys have one binding. *)
Lemma binding_equal l c d : equals_function c d = true -> binding l d = binding l c.
Proof.
  intros E. induction l as [|e l IH]; simpl; [done|]. rewrite IH.
  assert (equals_function (e_c e) d = equals_function (e_c e) c) as ->; [|done].
  apply eq_true_iff_eq. split; intros H; eapply equals_trans; [exact H| |exact H|]; [by apply equals_sym|done].
Qed.

Lemma absent_key t c d l : Forall (fun e => equals_function (e_c e) c = false) l ->
  value_of t c = binding l c -> value_of t d = if equals_function c d then 0 else value_of t d.
Proof.
  intros Hl Hb. destruct (equals_function c d) eqn:E; [|done].
  unfold value_of in *. rewrite (binding_equal _ c d E), Hb. by apply binding_absent.
Qed.

Lemma set_spec t c v : table_ok t -> count t < 2 ^ 31 - 2 -> h_is_eh t = true ->
  exists t', table_set key_function equals_function t c v = Some t' /\ table_ok t' /\ h_is_eh t' = true /\
    count t' <= count t + 1 /\ forall d, value_of t' d = if equals_function c d then v else value_of t d.
Proof.
  intros Hok Hcnt Heh. destruct (bucket_spec t c Hok) as (l & rest & El & _ & _ & Hk & _ & Hb).
  unfold table_set. rewrite El. cbn [mbind option_bind].
  pose proof (split_chain_spec c l Hk) as Hs.
  destruct (split_chain equals_function (key_function c) c l) as [before [[e after]|]].
  - destruct Hs as [-> Heq]. unfold EMPTY. destruct (Z.eqb_spec v 0) as [->|Hv].
    + destruct (change_entry_spec t c before e after None Hok El Heq) as (Hpos & Hok' & _ & Hval); [done|].
      unfold table_remove_internal, kassert. destruct (Z.ltb_spec 0 (count t)); [|lia]. cbn [mbind option_bind].
      eexists. split; [done|]. split; [exact Hok'|]. split; [done|]. split; [simpl; lia|exact Hval].
    + destruct (change_entry_spec t c before e after (Some v) Hok El Heq Hv) as (Hpos & Hok' & _ & Hval).
      eexists. split; [done|]. split; [exact Hok'|]. split; [done|]. split; [simpl; lia|exact Hval].
  - unfold EMPTY. destruct (Z.eqb_spec v 0) as [->|Hv]; cbn [negb].
    + exists t. split; [done|]. split; [done|]. split; [done|]. split; [lia|]. intros d. by apply (absent_key t c d l).
    + destruct (insert_internal_spec t c v l Hok Hcnt Hv Heh El Hs) as (t' & -> & Hok' & He' & Hc' & Hval).
      exists t'. split; [done|]. split; [done|]. split; [done|]. split; [lia|done].
Qed.

Lemma noreplace_spec t c v : table_ok t -> count t < 2 ^ 31 - 2 -> h_is_eh t = true -> v <> 0 ->
  exists t', table_set_noreplace key_function equals_function t c v = Some (t', value_of t c =? 0) /\
    table_ok t' /\ h_is_eh t' = true /\ count t' <= count t + 1 /\
    forall d, value_of t' d = if (value_of t c =? 0) && equals_function c d then v else value_of t d.
Proof.
  intros Hok Hcnt Heh Hv. destruct (bucket_spec t c Hok) as (l & rest & El & _ & _ & Hk & _ & Hb).
  unfold table_set_noreplace. rewrite El. cbn [mbind option_bind]. fold (value_of t c) in Hb.
  pose proof (split_chain_spec c l Hk) as Hs.
  destruct (split_chain equals_function (key_function c) c l) as [before [[e after]|]]; cbn [snd].
  - destruct Hs as [-> Heq].
    destruct (change_entry_spec t c before e after None Hok El Heq) as (_ & _ & Hval & _); [done|].
    pose proof (tk_values _ Hok) as Hvs. rewrite Forall_forall in Hvs.
    assert (He : e_v e <> 0).
    { apply Hvs, concat_elem. exists (Z.to_nat (position (buckets t) (key_function c))), (before ++ e :: after).
      split; [done|]. rewrite elem_of_app, elem_of_cons. auto. }
    rewrite Hval. destruct (Z.eqb_spec (e_v e) 0); [done|]. exists t. split; [done|]. split; [done|].
    split; [done|]. split; [lia|done].
  - destruct (insert_internal_spec t c v l Hok Hcnt Hv Heh El Hs) as (t' & -> & Hok' & He' & Hc' & Hval).
    rewrite Hb, (binding_absent l) by done. exists t'. split; [done|]. split; [done|]. split; [done|].
    split; [lia|done].
Qed.

Lemma remove_spec t c : table_ok t -> h_is_eh t = true ->
  exists t', table_remove key_function equals_function t c = Some (t', value_of t c) /\ table_ok t' /\
    h_is_eh t' = true /\ count t' <= count t /\
    forall d, value_of t' d = if equals_function c d then 0 else value_of t d.
Proof.
  intros Hok Heh. destruct (bucket_spec t c Hok) as (l & rest & El & _ & _ & Hk & _ & Hb).
  unfold table_remove. rewrite El. cbn [mbind option_bind].
  pose proof (split_chain_spec c l Hk) as Hs. fold (value_of t c) in Hb.
  destruct (split_chain equals_function (key_function c) c l) as [before [[e after]|]].
  - destruct Hs as [-> Heq].
    destruct (change_entry_spec t c before e after None Hok El Heq) as (Hpos & Hok' & -> & Hval); [done|].
    unfold table_remove_internal, kassert. destruct (Z.ltb_spec 0 (count t)); [|lia]. cbn [mbind option_bind].
    eexists. split; [done|]. split; [exact Hok'|]. split; [done|]. split; [simpl; lia|exact Hval].
  - rewrite Hb, (binding_absent l) by done. exists t. split; [done|]. split; [done|]. split; [done|].
    split; [lia|]. intros d. by apply (absent_key t c d l).
Qed.

Lemma clear_spec t : table_ok t ->
  table_ok (table_clear t) /\ forall d, value_of (table_clear t) d = 0.
Proof.
  intros [H1 H2 H3 H4 H5 H6].
  assert (E : forall es : list (list entry), concat ((fun _ => []) <$> es) = ([] : list entry)).
  { intros es. by induction es. }
  split; [|intros d; unfold value_of; simpl; by rewrite E].
  split; simpl; try rewrite E; simpl; try done.
  - by rewrite length_fmap.
  - intros i l e Hi He. rewrite list_lookup_fmap in Hi. destruct (entries t !! i); [|done].
    injection Hi as <-. by apply not_elem_of_nil in He.
Qed.
End Proofs.

(** ** Sequences of operations *)

Inductive op :=
| Find (c : Z)
| Set_ (c v : Z)
| SetNoreplace (c v : Z)
| Remove (c : Z)
| Clear.

Inductive result := Value (v : Z) | Inserted (b : bool) | Done.

Section Sequences.
Context {h : Heap} (key_function : Z -> Z) (equals_function : Z -> Z -> bool).

Definition perform (t : table) (o : op) : option (table * result) :=
  match o with
  | Find c => v ← table_find key_function equals_function t c; Some (t, Value v)
  | Set_ c v => t ← table_set key_function equals_function t c v; Some (t, Done)
  | SetNoreplace c v =>
      '(t, b) ← table_set_noreplace key_function equals_function t c v; Some (t, Inserted b)
  | Remove c => '(t, v) ← table_remove key_function equals_function t c; Some (t, Value v)
  | Clear => Some (table_clear t, Done)
  end.

Fixpoint perform_all (t : table) (os : list op) : option (table * list result) :=
  match os with
  | [] => Some (t, [])
  | o :: os => '(t, r) ← perform t o; '(t, rs) ← perform_all t os; Some (t, r :: rs)
  end.

(** The same on a function from keys to values, with 0 for absent. *)
Definition abs_set (m : Z -> Z) (c v : Z) : Z -> Z := fun d => if equals_function c d then v else m d.

Definition abs_perform (m : Z -> Z) (o : op) : (Z -> Z) * result :=
  match o with
  | Find c => (m, Value (m c))
  | Set_ c v => (abs_set m c v, Done)
  | SetNoreplace c v => if m c =? 0 then (abs_set m c v, Inserted true) else (m, Inserted false)
  | Remove c => (abs_set m c 0, Value (m c))
  | Clear => (fun _ => 0, Done)
  end.

Fixpoint abs_perform_all (m : Z -> Z) (os : list op) : list result :=
  match os with
  | [] => []
  | o :: os => let '(m, r) := abs_perform m o in r :: abs_perform_all m os
  end.

(** [table_set_noreplace] is used with values. *)
Definition op_ok (o : op) : Prop := match o with SetNoreplace _ v => v <> 0 | _ => True end.
End Sequences.

Section Refinement.
Context {h : Heap} {ht : HeapTotal h}.
Context (key_function : Z -> Z) (equals_function : Z -> Z -> bool).
Context {kf : KeyFunctions key_function equals_function}.
Implicit Types (t : table).

(** A table stands for a map. *)
Record stands_for t (m : Z -> Z) : Prop := {
  sf_ok : table_ok key_function equals_function t;
  sf_eh : h_is_eh t = true;
  sf_map : forall c, value_of equals_function t c = m c;
}.

Lemma table_perform_spec t m o : stands_for t m -> count t < 2 ^ 31 - 2 -> op_ok o ->
  exists t', perform key_function equals_function t o = Some (t', (abs_perform equals_function m o).2) /\
    stands_for t' (abs_perform equals_function m o).1 /\ count t' <= count t + 1.
Proof.
  intros [Hok Heh Hm] Hc Ho. destruct o as [c|c v|c v|c|]; cbn [perform abs_perform].
  - rewrite find_spec by done. cbn [mbind option_bind]. exists t. rewrite <- Hm. split; [done|]. split; [done|lia].
  - destruct (set_spec key_function equals_function t c v) as (t' & -> & H1 & H2 & H3 & H4); [done..|].
    exists t'. split; [done|]. split; [|done]. split; [done|done|]. intros d. simpl. unfold abs_set. by rewrite H4, Hm.
  - destruct (noreplace_spec key_function equals_function t c v) as (t' & -> & H1 & H2 & H3 & H4); [done..|].
    exists t'. rewrite Hm in H4 |- *. cbn [mbind option_bind]. destruct (m c =? 0); (split; [done|]); (split; [|done]);
      (split; [done|done|]); intros d; simpl; unfold abs_set; by rewrite H4, Hm.
  - destruct (remove_spec key_function equals_function t c) as (t' & -> & H1 & H2 & H3 & H4); [done..|].
    exists t'. rewrite Hm. split; [done|]. split; [|simpl; lia]. split; [done|done|].
    intros d. simpl. unfold abs_set. by rewrite H4, Hm.
  - destruct (clear_spec key_function equals_function t Hok) as [H1 H2]. exists (table_clear t).
    split; [done|]. split; [by split|]. simpl. rewrite (tk_count _ _ _ Hok). lia.
Qed.

Lemma perform_all_refines os : forall t m, stands_for t m -> count t + Z.of_nat (length os) < 2 ^ 31 - 2 ->
  Forall op_ok os ->
  exists t', perform_all key_function equals_function t os = Some (t', abs_perform_all equals_function m os) /\
    table_ok key_function equals_function t'.
Proof.
  induction os as [|o os IH]; intros t m Hs Hc Ho; cbn [perform_all abs_perform_all].
  { exists t. split; [done|apply Hs]. }
  apply Forall_cons in Ho as [Ho Hos]. cbn [length] in Hc.
  destruct (table_perform_spec t m o Hs) as (t1 & -> & Hs1 & Hc1); [lia|done|]. cbn [mbind option_bind].
  destruct (abs_perform equals_function m o) as [m1 r]. cbn [fst snd] in *.
  destruct (IH t1 m1 Hs1) as (t' & -> & Hok'); [lia|done|]. cbn [mbind option_bind]. by exists t'.
Qed.

Lemma allocate_table_spec sizeof_table : 0 <= sizeof_table ->
  exists t, allocate_table sizeof_table = Some t /\ stands_for t (fun _ => 0) /\ count t = 0.
Proof.
  intros Hs. unfold allocate_table, allocate_table_internal.
  destruct (allocate sizeof_table) as [mem|] eqn:Ea; [|by destruct (ht _ Hs)]. cbn [mbind option_bind negb Z.eqb].
  destruct (allocate (4 * 8)) as [mem'|] eqn:Eb; [|by destruct (ht (4 * 8))]. cbn [mbind option_bind].
  eexists. split; [done|]. split; [|done]. split; [|done|done].
  split; simpl; try done; [by exists 2|]. intros i l e Hi He.
  change [[]; []; []; []] with (replicate 4 ([] : list entry)) in Hi.
  apply lookup_replicate in Hi as [-> _]. by apply not_elem_of_nil in He.
Qed.
End Refinement.

Section Foreach.
Context (key_function : Z -> Z) (equals_function : Z -> Z -> bool).
Context {kf : KeyFunctions key_function equals_function}.
Implicit Types (t : table) (l : list entry).

Lemma foreach_chain_full l : Forall (fun e => e_v e <> 0) l ->
  foreach_chain l = (fun e => (e_c e, e_v e)) <$> l.
Proof. induction 1 as [|e l He Hl IH]; simpl; [done|]. rewrite IH. by destruct (Z.eqb_spec (e_v e) 0). Qed.

Lemma table_foreach_full t : table_ok key_function equals_function t ->
  table_foreach t = (fun e => (e_c e, e_v e)) <$> concat (entries t).
Proof.
  intros Hok. pose proof (tk_values _ _ _ Hok) as Hv. unfold table_foreach. clear Hok.
  induction (entries t) as [|l es IH]; [done|]. rewrite fmap_cons. cbn [concat] in *. apply Forall_app in Hv as [Hl Hes].
  by rewrite IH, foreach_chain_full, fmap_app by done.
Qed.

Lemma binding_elem l c v : distinct equals_function l -> v <> 0 ->
  binding equals_function l c = v <-> exists e, e ∈ l /\ equals_function (e_c e) c = true /\ e_v e = v.
Proof.
  intros Hd Hv. induction l as [|e l IH]; simpl.
  { split; [by intros <-|]. intros (e & He & _). by apply not_elem_of_nil in He. }
  simpl in Hd. destruct Hd as [He Hd]. destruct (equals_function (e_c e) c) eqn:E.
  - split; [intros <-; exists e; rewrite elem_of_cons; auto|]. intros (e' & He' & Eq & <-).
    apply elem_of_cons in He' as [->|He']; [done|]. rewrite Forall_forall in He. exfalso. apply (He e' He').
    unfold same_key. eapply equals_trans; [exact E|]. by apply equals_sym.
  - rewrite IH by done. split; intros (e' & He' & Eq & Ev); exists e'; (split; [|done]);
      rewrite elem_of_cons in *; [auto|]. destruct He' as [->|]; [congruence|done].
Qed.

Lemma distinct_lookup l i j e e' : distinct equals_function l -> l !! i = Some e -> l !! j = Some e' ->
  equals_function (e_c e) (e_c e') = true -> i = j.
Proof.
  revert i j. induction l as [|x l IH]; intros i j Hd Hi Hj E; [done|]. simpl in Hd. destruct Hd as [Hx Hd].
  rewrite Forall_forall in Hx. destruct i as [|i], j as [|j]; simpl in *; [done| | |f_equal; by eapply IH].
  - injection Hi as <-. apply list_elem_of_lookup_2 in Hj. by destruct (Hx e' Hj).
  - injection Hj as <-. apply list_elem_of_lookup_2 in Hi. destruct (Hx e Hi). by apply equals_sym.
Qed.
End Foreach.

(** * Properties *)

(** C26: a table behaves as a map.  Any sequence of finds, sets, sets without
    replacement, removals and clearings on a new table, of fewer than 2^31 - 2
    operations with values other than [EMPTY] given to [table_set_noreplace], runs
    without a failed assertion and returns what the same sequence returns on a
    function from keys to values, whatever rehashings happen on the way. *)
Theorem table_refines_map {h : Heap} {ht : HeapTotal h} key_function equals_function
    (kf : KeyFunctions key_function equals_function) sizeof_table os :
  0 <= sizeof_table -> Z.of_nat (length os) < 2 ^ 31 - 2 -> Forall op_ok os ->
  exists t t', allocate_table sizeof_table = Some t /\
    perform_all key_function equals_function t os =
      Some (t', abs_perform_all equals_function (fun _ => 0) os) /\
    table_ok key_function equals_function t'.
Proof.
  intros Hs Hn Ho.
  destruct (allocate_table_spec key_function equals_function sizeof_table Hs) as (t & Et & Hst & Hc).
  destruct (perform_all_refines key_function equals_function os t _ Hst) as (t' & Et' & Hok); [lia|done|].
  by exists t, t'.
Qed.

Definition sample_table_ops : list op :=
  ((fun i => Set_ (Z.of_nat i) (Z.of_nat i + 100)) <$> seq 0 12) ++
  [SetNoreplace 3 9; SetNoreplace 44 9; Set_ 2 0; Find 2; Find 3; Find 44; Remove 5; Find 5; Clear; Find 44].

Lemma table_refines_map_witness :
  exists t t' : table,
    allocate_table (h := zero_heap) 64 = Some t /\
    perform_all (h := zero_heap) (fun a => u64 a) (fun a b => u64 a =? u64 b) t sample_table_ops =
      Some (t', replicate 12 Done ++ [Inserted false; Inserted true; Done; Value 0; Value 103; Value 9;
                                      Value 105; Value 0; Done; Value 0]) /\
    table_ok (fun a => u64 a) (fun a b => u64 a =? u64 b) t'.
Proof.
  apply (table_refines_map (ht := zero_heap_total) (fun a => u64 a) (fun a b => u64 a =? u64 b)
           pointer_functions 64 sample_table_ops); [lia|done|].
  by repeat constructor.
Defined.

(** [table_foreach] visits the bindings of a table, each once: as many visits
    as [table_elements] says, no two with equal keys, and a value is visited with a
    key equal to [c] exactly when [table_find] of [c] returns it. *)
Theorem table_foreach_bindings {h : Heap} key_function equals_function
    (kf : KeyFunctions key_function equals_function) t :
  table_ok key_function equals_function t ->
  Z.of_nat (length (table_foreach t)) = table_elements t /\
  (forall i j c d v w, table_foreach t !! i = Some (c, v) -> table_foreach t !! j = Some (d, w) ->
     equals_function c d = true -> i = j) /\
  (forall c v, v <> 0 -> table_find key_function equals_function t c = Some v <->
     exists d, (d, v) ∈ table_foreach t /\ equals_function d c = true).
Proof.
  intros Hok. rewrite (table_foreach_full key_function equals_function t Hok).
  split; [|split].
  - unfold table_elements. by rewrite length_fmap, (tk_count _ _ _ Hok).
  - intros i j c d v w Hi Hj E. rewrite list_lookup_fmap in Hi, Hj.
    destruct (concat (entries t) !! i) as [e|] eqn:Ei; [|done].
    destruct (concat (entries t) !! j) as [e'|] eqn:Ej; [|done]. injection Hi as <- <-. injection Hj as <- <-.
    by apply (distinct_lookup key_function equals_function (concat (entries t)) i j e e'); [apply Hok|..].
  - intros c v Hv. rewrite (find_spec key_function equals_function) by done.
    pose proof (binding_elem key_function equals_function (concat (entries t)) c v (tk_distinct _ _ _ Hok) Hv) as Hb.
    split.
    + intros [=Ev]. apply Hb in Ev as (e & He & Eq & <-). exists (e_c e). split; [|done].
      apply list_elem_of_fmap. by exists e.
    + intros (d & Hd & Eq). apply list_elem_of_fmap in Hd as (e & [= -> ->] & He). f_equal. apply Hb. by exists e.
Qed.

Definition sample_table : table :=
  default {| buckets := 0; count := 0; entries := []; h_is_eh := true |}
    (t ← allocate_table (h := zero_heap) 64;
     fst <$> perform_all (h := zero_heap) (fun a => u64 a) (fun a b => u64 a =? u64 b) t
       [Set_ 1 10; Set_ 5 50; Set_ 9 90; Remove 5]).
