(* ===== verification/Circular.v ===== *)
(** Circular arrays of [2 ^ o] elements: positions that grow without bound and the
    slots they fall on.  Shared by the queues and the ring buffers. *)

From S2P Require Import Prelude.

Definition slot (o i : Z) : nat := Z.to_nat (i mod 2 ^ o).

Lemma mod_near a b m : 0 < m -> a mod m = b mod m -> a - m < b < a + m -> a = b.
Proof.
  intros Hm He Hab. pose proof (Z.div_mod a m ltac:(lia)). pose proof (Z.div_mod b m ltac:(lia)).
  assert (a / m = b / m) by nia. nia.
Qed.

Lemma slot_near o i j : 0 <= o -> slot o i = slot o j -> i - 2 ^ o < j < i + 2 ^ o -> i = j.
Proof.
  intros Ho He. apply mod_near; [lia|]. unfold slot in He.
  pose proof (Z.mod_pos_bound i (2 ^ o) ltac:(lia)). pose proof (Z.mod_pos_bound j (2 ^ o) ltac:(lia)). lia.
Qed.

Lemma slot_lt o i : 0 <= o -> (Z.of_nat (slot o i) < 2 ^ o).
Proof. intros Ho. unfold slot. pose proof (Z.mod_pos_bound i (2 ^ o) ltac:(lia)). lia. Qed.

Lemma slot_block o n i j : 0 <= o -> (n | 2 ^ o) -> (n | i) -> 0 <= j < n -> 0 <= i ->
  i mod 2 ^ o + n <= 2 ^ o /\ (i + j) mod 2 ^ o = i mod 2 ^ o + j.
Proof.
  intros Ho [a Ha] [b Hb] Hj Hi.
  assert (Hpos : 0 < a) by nia. assert (Hm : i mod 2 ^ o = (b mod a) * n).
  { rewrite Hb, Ha. apply Z.mul_mod_distr_r; nia. }
  pose proof (Z.mod_pos_bound b a ltac:(lia)). split; [rewrite Hm, Ha; nia|].
  rewrite <- Zplus_mod_idemp_l, Hm. apply Z.mod_small. nia.
Qed.
