(* ===== verification/Queue.v ===== *)
(** Queues of words: [kernel/src/runtime/queue.h] and [queue.c].

    A queue is a ring of [2 ^ order] words with four 32-bit counters that only grow,
    modulo [2 ^ 32].  [_enqueue_common] and [_dequeue_common] are run by several
    processors at once, so each is a sequence of steps with one access to the shared
    counters or slots per step: the load of a pair of counters, the compare and swap
    that claims slots, the copy, and the wait for earlier operations to commit.  An
    operation in progress is a value of [thread]; [step_thread] is its next step.
    The operations run alone are the iteration of the steps.  Memory is sequentially
    consistent, which is what the barriers of the code are for. *)

From S2P Require Import Prelude Words Heap Circular.

Definition INVALID_ADDRESS : Z := infinity.

Record queue := {
  prod_head : Z; cons_tail : Z;
  cons_head : Z; prod_tail : Z;
  d : list Z;
  order : Z;
}.

Definition queue_size (q : queue) : Z := u64 (Z.shiftl 1 (order q)).
Definition queue_idx (q : queue) (i : Z) : Z := Z.land i (MASK (order q)).

Definition set_prod_head (q : queue) (x : Z) : queue :=
  {| prod_head := x; cons_tail := cons_tail q; cons_head := cons_head q; prod_tail := prod_tail q;
     d := d q; order := order q |}.
Definition set_prod_tail (q : queue) (x : Z) : queue :=
  {| prod_head := prod_head q; cons_tail := cons_tail q; cons_head := cons_head q; prod_tail := x;
     d := d q; order := order q |}.
Definition set_cons_head (q : queue) (x : Z) : queue :=
  {| prod_head := prod_head q; cons_tail := cons_tail q; cons_head := x; prod_tail := prod_tail q;
     d := d q; order := order q |}.
Definition set_cons_tail (q : queue) (x : Z) : queue :=
  {| prod_head := prod_head q; cons_tail := x; cons_head := cons_head q; prod_tail := prod_tail q;
     d := d q; order := order q |}.
Definition set_d (q : queue) (l : list Z) : queue :=
  {| prod_head := prod_head q; cons_tail := cons_tail q; cons_head := cons_head q; prod_tail := prod_tail q;
     d := l; order := order q |}.

(** ** The steps of an operation *)

(** The arguments: a word, the memory it points to when [n] is not 1, and the flags. *)
Record ecall := Ecall { e_p : Z; e_block : list Z; e_multi : bool; e_n : Z }.
Record dcall := Dcall { d_multi : bool; d_n : Z }.

Inductive thread :=
| EnqStart (c : ecall)
| EnqLoaded (c : ecall) (head : Z)
| EnqClaimed (c : ecall) (head : Z)
| EnqWritten (c : ecall) (head : Z)
| EnqDone (c : ecall) (r : bool)
| DeqStart (c : dcall)
| DeqLoaded (c : dcall) (head : Z)
| DeqClaimed (c : dcall) (head : Z)
| DeqRead (c : dcall) (head : Z) (ws : list Z)
| DeqDone (c : dcall) (ws : list Z)
| Crashed.

Definition unit_ok (n : Z) : bool := (0 <? n) && (Z.land n (n - 1) =? 0).

Definition enq_load (q : queue) (c : ecall) : thread :=
  if e_p c =? INVALID_ADDRESS then EnqDone c false else
  let size := u32 (queue_size q) in
  if negb (unit_ok (e_n c)) then Crashed else
  let used := u32 (prod_head q - cons_tail q) in
  if used =? size then EnqDone c false else
  if negb (used <? size) then Crashed else EnqLoaded c (prod_head q).

Definition enq_claim (q : queue) (c : ecall) (head : Z) : queue * thread :=
  let next := u32 (head + e_n c) in
  if e_multi c then
    if prod_head q =? head then (set_prod_head q next, EnqClaimed c head) else (q, EnqStart c)
  else (set_prod_head q next, EnqClaimed c head).

Definition enq_words (c : ecall) : list Z :=
  if e_n c =? 1 then [e_p c] else take (Z.to_nat (e_n c)) (e_block c).

Definition enq_write (q : queue) (c : ecall) (head : Z) : queue * thread :=
  match write_bytes (d q) (queue_idx q head) (enq_words c) with
  | Some l => (set_d q l, EnqWritten c head)
  | None => (q, Crashed)
  end.

Definition enq_commit (q : queue) (c : ecall) (head : Z) : queue * thread :=
  if e_multi c && negb (prod_tail q =? head) then (q, EnqWritten c head)
  else (set_prod_tail q (u32 (head + e_n c)), EnqDone c true).

Definition deq_load (q : queue) (c : dcall) : thread :=
  let size := u32 (queue_size q) in
  if negb (unit_ok (d_n c)) then Crashed else
  if cons_head q =? prod_tail q then DeqDone c [INVALID_ADDRESS] else
  if negb (u32 (prod_tail q - cons_head q) <=? size) then Crashed else DeqLoaded c (cons_head q).

Definition deq_claim (q : queue) (c : dcall) (head : Z) : queue * thread :=
  let next := u32 (head + d_n c) in
  if d_multi c then
    if cons_head q =? head then (set_cons_head q next, DeqClaimed c head) else (q, DeqStart c)
  else (set_cons_head q next, DeqClaimed c head).

Definition deq_read (q : queue) (c : dcall) (head : Z) : thread :=
  match read_bytes (d q) (queue_idx q head) (d_n c) with
  | Some ws => DeqRead c head ws
  | None => Crashed
  end.

Definition deq_commit (q : queue) (c : dcall) (head : Z) (ws : list Z) : queue * thread :=
  if d_multi c && negb (cons_tail q =? head) then (q, DeqRead c head ws)
  else (set_cons_tail q (u32 (head + d_n c)), DeqDone c ws).

Definition step_thread (q : queue) (th : thread) : queue * thread :=
  match th with
  | EnqStart c => (q, enq_load q c)
  | EnqLoaded c head => enq_claim q c head
  | EnqClaimed c head => enq_write q c head
  | EnqWritten c head => enq_commit q c head
  | DeqStart c => (q, deq_load q c)
  | DeqLoaded c head => deq_claim q c head
  | DeqClaimed c head => (q, deq_read q c head)
  | DeqRead c head ws => deq_commit q c head ws
  | EnqDone _ _ | DeqDone _ _ | Crashed => (q, th)
  end.

(** ** Operations run alone *)

(** Nothing else runs, so the compare and swap succeeds and a wait that is not over
    at once never is: four steps are all an operation takes. *)
Definition alone (q : queue) (th : thread) : queue * thread :=
  let '(q, th) := step_thread q th in
  let '(q, th) := step_thread q th in
  let '(q, th) := step_thread q th in
  step_thread q th.

Definition enqueue_common (q : queue) (p : Z) (block : list Z) (multi : bool) (n : Z) : option (queue * bool) :=
  match alone q (EnqStart (Ecall p block multi n)) with
  | (q, EnqDone _ r) => Some (q, r)
  | _ => None
  end.

Definition dequeue_common (q : queue) (multi : bool) (n : Z) : option (queue * list Z) :=
  match alone q (DeqStart (Dcall multi n)) with
  | (q, DeqDone _ ws) => Some (q, ws)
  | _ => None
  end.

Definition enqueue (q : queue) (p : Z) : option (queue * bool) := enqueue_common q p [] true 1.
Definition enqueue_single (q : queue) (p : Z) : option (queue * bool) := enqueue_common q p [] false 1.
Definition dequeue (q : queue) : option (queue * Z) :=
  '(q, ws) ← dequeue_common q true 1; p ← ws !! 0%nat; Some (q, p).
Definition dequeue_single (q : queue) : option (queue * Z) :=
  '(q, ws) ← dequeue_common q false 1; p ← ws !! 0%nat; Some (q, p).

Definition enqueue_n (q : queue) (p : Z) (block : list Z) (n : Z) : option (queue * bool) :=
  enqueue_common q p block true n.
Definition enqueue_n_single (q : queue) (p : Z) (block : list Z) (n : Z) : option (queue * bool) :=
  enqueue_common q p block false n.

(** The words that were copied and whether the first is not [INVALID_ADDRESS]. *)
Definition dequeue_n (q : queue) (n : Z) : option (queue * list Z * bool) :=
  '(q, ws) ← dequeue_common q true n; p ← ws !! 0%nat; Some (q, ws, negb (p =? INVALID_ADDRESS)).
Definition dequeue_n_single (q : queue) (n : Z) : option (queue * list Z * bool) :=
  '(q, ws) ← dequeue_common q false n; p ← ws !! 0%nat; Some (q, ws, negb (p =? INVALID_ADDRESS)).

Definition queue_length (q : queue) : Z := u32 (prod_tail q - cons_head q).
Definition queue_empty (q : queue) : bool := prod_tail q =? cons_head q.
Definition queue_full (q : queue) : bool := u32 (prod_tail q - cons_head q) =? queue_size q.

Definition queue_peek_at (q : queue) (idx : Z) : option Z :=
  if u32 (cons_head q + idx) <? prod_tail q
  then d q !! Z.to_nat (queue_idx q (u32 (cons_head q + idx)))
  else Some INVALID_ADDRESS.

Definition queue_peek (q : queue) : option Z := queue_peek_at q 0.

Definition queue_data_size (order : Z) : Z := u64 (u64 (Z.shiftl 1 order) * 8).

Definition queue_init (order : Z) : queue :=
  {| prod_head := 0; prod_tail := 0; cons_head := 0; cons_tail := 0; order := order;
     d := replicate (Z.to_nat (queue_data_size order / 8)) 0 |}.

(** [None] is [INVALID_ADDRESS]. *)
Definition allocate_queue {h : Heap} (queue_buf_offset size : Z) : option queue :=
  if size =? 0 then None else
  let order := find_order size in
  _ ← allocate (u64 (queue_buf_offset + queue_data_size order));
  Some (queue_init order).

(** ** Positions

    The counters stand for positions that do not wrap.  A queue whose operations are
    all over holds the words [ws] from position [s]. *)

Record holds (q : queue) (s : Z) (ws : list Z) : Prop := {
  ho_order : 0 <= order q <= 31;
  ho_slots : Z.of_nat (length (d q)) = 2 ^ order q;
  ho_start : 0 <= s;
  ho_fits : Z.of_nat (length ws) <= 2 ^ order q;
  ho_heads : cons_head q = u32 s /\ cons_tail q = u32 s;
  ho_tails : prod_head q = u32 (s + Z.of_nat (length ws)) /\ prod_tail q = u32 (s + Z.of_nat (length ws));
  ho_words : forall i w, ws !! i = Some w -> d q !! slot (order q) (s + Z.of_nat i) = Some w;
}.

Lemma u32_sub a b : 0 <= a - b < 2 ^ 32 -> u32 (u32 a - u32 b) = a - b.
Proof. intros H. unfold u32. rewrite <- Zminus_mod. by apply Z.mod_small. Qed.

Lemma u32_add a n : u32 (u32 a + n) = u32 (a + n).
Proof. unfold u32. apply Zplus_mod_idemp_l. Qed.

Lemma u32_near a b : u32 a = u32 b -> a - 2 ^ 32 < b < a + 2 ^ 32 -> a = b.
Proof. intros He. by apply mod_near. Qed.

Section Sizes.
Context (q : queue) (Ho : 0 <= order q <= 31).

Lemma order_pow : 1 <= 2 ^ order q <= 2 ^ 31.
Proof. split; [lia|]. apply Z.pow_le_mono_r; lia. Qed.

Lemma queue_size_pow : queue_size q = 2 ^ order q.
Proof. unfold queue_size. pose proof order_pow. rewrite Z.shiftl_1_l. apply u64_small. lia. Qed.

Lemma queue_size_u32 : u32 (queue_size q) = 2 ^ order q.
Proof. rewrite queue_size_pow. pose proof order_pow. apply u32_small. lia. Qed.

Lemma queue_idx_mod i : queue_idx q (u32 i) = i mod 2 ^ order q.
Proof.
  unfold queue_idx. rewrite MASK_ones, Z.land_ones by lia. unfold u32.
  rewrite Z.mod_mod_divide; [done|]. exists (2 ^ (32 - order q)). rewrite <- Z.pow_add_r by lia. f_equal. lia.
Qed.
End Sizes.

(** ** Operations run alone *)

(** Sizes of the blocks of a queue: a power of two that fits. *)
Definition block_size (q : queue) (n : Z) : Prop := exists k, 0 <= k <= order q /\ n = 2 ^ k.

Lemma block_size_unit q n : block_size q n -> unit_ok n = true /\ (n | 2 ^ order q) /\ 0 < n.
Proof.
  intros (k & Hk & ->). split; [|split; [|lia]].
  - unfold unit_ok. destruct (Z.ltb_spec 0 (2 ^ k)); [|lia]. cbn [andb]. apply Z.eqb_eq.
    rewrite Z.sub_1_r, <- Z.ones_equiv, Z.land_ones, Z.mod_same; lia.
  - exists (2 ^ (order q - k)). rewrite <- Z.pow_add_r by lia. f_equal. lia.
Qed.

Section Alone.
Context (q : queue) (s : Z) (ws : list Z) (n : Z) (multi : bool).
Context (Hq : holds q s ws) (Hn : block_size q n) (Hs : (n | s)) (Hws : (n | Z.of_nat (length ws))).

Lemma enqueue_full p block : p <> INVALID_ADDRESS -> Z.of_nat (length ws) = 2 ^ order q ->
  enqueue_common q p block multi n = Some (q, false).
Proof.
  intros Hp Hfull. destruct Hq as [Ho Hd Hs0 Hf [Hh1 Hh2] [Ht1 Ht2] Hw].
  pose proof (order_pow q Ho). destruct (block_size_unit q n Hn) as (Hu & _ & _).
  unfold enqueue_common, alone. cbn [step_thread]. unfold enq_load. cbn [e_p e_n].
  destruct (Z.eqb_spec p INVALID_ADDRESS); [done|]. rewrite Hu. cbn [negb].
  rewrite Ht1, Hh2, u32_sub, queue_size_u32 by lia.
  destruct (Z.eqb_spec (s + Z.of_nat (length ws) - s) (2 ^ order q)); [|lia]. done.
Qed.

(** Less than full, by whole blocks, leaves a block. *)
Lemma room : Z.of_nat (length ws) <> 2 ^ order q -> Z.of_nat (length ws) + n <= 2 ^ order q.
Proof.
  intros Hne. destruct (block_size_unit q n Hn) as (_ & [a Ha] & Hpos). destruct Hws as [b Hb].
  pose proof (ho_fits _ _ _ Hq). assert (b < a) by nia. rewrite Hb, Ha. nia.
Qed.

Lemma enqueue_run p block l : p <> INVALID_ADDRESS -> Z.of_nat (length ws) <> 2 ^ order q ->
  let c := Ecall p block multi n in let e := s + Z.of_nat (length ws) in
  write_bytes (d q) (e mod 2 ^ order q) (enq_words c) = Some l ->
  enqueue_common q p block multi n =
    Some (set_prod_tail (set_d (set_prod_head q (u32 (e + n))) l) (u32 (e + n)), true).
Proof.
  intros Hp Hne c e El. destruct Hq as [Ho Hd Hs0 Hf [Hh1 Hh2] [Ht1 Ht2] Hw]. pose proof (order_pow q Ho).
  destruct (block_size_unit q n Hn) as (Hu & _ & _). fold e in Ht1, Ht2.
  unfold enqueue_common, alone. fold c. cbn [step_thread]. unfold enq_load. cbn [e_p e_n c].
  destruct (Z.eqb_spec p INVALID_ADDRESS); [done|]. rewrite Hu. cbn [negb].
  rewrite Ht1, Hh2, u32_sub, queue_size_u32 by lia.
  destruct (Z.eqb_spec (e - s) (2 ^ order q)); [lia|]. destruct (Z.ltb_spec (e - s) (2 ^ order q)); [|lia].
  cbn [negb step_thread]. unfold enq_claim. cbn [e_multi e_n c]. rewrite Ht1, Z.eqb_refl, u32_add.
  replace (if multi then (set_prod_head q (u32 (e + n)), EnqClaimed c (u32 e))
           else (set_prod_head q (u32 (e + n)), EnqClaimed c (u32 e)))
    with (set_prod_head q (u32 (e + n)), EnqClaimed c (u32 e)) by by destruct multi.
  cbn [step_thread]. unfold enq_write. change (d (set_prod_head q (u32 (e + n)))) with (d q).
  change (queue_idx (set_prod_head q (u32 (e + n))) (u32 e)) with (queue_idx q (u32 e)).
  rewrite queue_idx_mod, El by done. cbn [step_thread]. unfold enq_commit. cbn [e_multi e_n c].
  change (prod_tail (set_d (set_prod_head q (u32 (e + n))) l)) with (prod_tail q).
  by rewrite Ht2, Z.eqb_refl, andb_false_r, u32_add.
Qed.

(** The slots of the block after the words. *)
Lemma block_slot j : 0 <= j < n -> let e := s + Z.of_nat (length ws) in
  (e + j) mod 2 ^ order q = e mod 2 ^ order q + j /\ e mod 2 ^ order q + n <= 2 ^ order q.
Proof.
  intros Hj e. destruct (block_size_unit q n Hn) as (_ & Hdiv & _).
  pose proof (ho_order _ _ _ Hq). pose proof (ho_start _ _ _ Hq).
  destruct (slot_block (order q) n e j); try done; try lia. by apply Z.divide_add_r.
Qed.

Lemma enqueue_room p block : p <> INVALID_ADDRESS -> (n = 1 \/ n <= Z.of_nat (length block)) ->
  Z.of_nat (length ws) <> 2 ^ order q ->
  exists q', enqueue_common q p block multi n = Some (q', true) /\ order q' = order q /\
    holds q' s (ws ++ enq_words (Ecall p block multi n)).
Proof.
  intros Hp Hb Hne. pose proof (room Hne) as Hr. set (c := Ecall p block multi n).
  destruct (block_size_unit q n Hn) as (_ & _ & Hpos).
  assert (Hlen : Z.of_nat (length (enq_words c)) = n).
  { unfold enq_words. cbn [e_n e_block c]. destruct (Z.eqb_spec n 1); [simpl; lia|]. rewrite length_take. lia. }
  pose proof (enqueue_run p block) as Hrun. pose proof block_slot as Hblock. fold c in Hrun.
  destruct Hq as [Ho Hd Hs0 Hf [Hh1 Hh2] [Ht1 Ht2] Hw]. pose proof (order_pow q Ho). cbn zeta in Hrun, Hblock.
  set (e := s + Z.of_nat (length ws)) in *.
  pose proof (Z.mod_pos_bound e (2 ^ order q) ltac:(lia)). destruct (Hblock 0 ltac:(lia)) as [_ Hb1].
  destruct (write_bytes_spec (d q) (e mod 2 ^ order q) (enq_words c)) as (l & El & Hl & Hlook); [lia..|].
  rewrite (Hrun l Hp Hne El). eexists. split; [done|]. split; [done|].
  split; cbn [set_prod_tail set_d set_prod_head order d cons_head cons_tail prod_head prod_tail];
    try done; rewrite ?length_app, ?Nat2Z.inj_add, ?Hlen, ?Hl, ?Z.add_assoc; try done; try lia.
  intros i w Hi. rewrite Hlook. apply lookup_app_Some in Hi as [Hi|[Hge Hi]]; pose proof (lookup_lt_Some _ _ _ Hi).
  - rewrite <- (Hw i w Hi). case_decide as Hc; [|done]. exfalso.
    set (j := Z.of_nat (slot (order q) (s + Z.of_nat i)) - e mod 2 ^ order q) in *.
    destruct (Hblock j) as [Hj _]; [lia|].
    assert (Ej : slot (order q) (s + Z.of_nat i) = slot (order q) (e + j)) by (unfold slot at 2; rewrite Hj; lia).
    apply slot_near in Ej; lia.
  - replace (s + Z.of_nat i) with (e + Z.of_nat (i - length ws)) by lia. unfold slot.
    destruct (Hblock (Z.of_nat (i - length ws))) as [-> _]; [lia|].
    case_decide; [|lia]. rewrite <- Hi. f_equal. lia.
Qed.

Lemma dequeue_empty : ws = [] -> dequeue_common q multi n = Some (q, [INVALID_ADDRESS]).
Proof.
  intros ->. destruct Hq as [Ho Hd Hs0 Hf [Hh1 Hh2] [Ht1 Ht2] Hw]. destruct (block_size_unit q n Hn) as (Hu & _ & _).
  unfold dequeue_common, alone. cbn [step_thread]. unfold deq_load. cbn [d_n]. rewrite Hu. cbn [negb].
  rewrite Hh1, Ht2, Z.add_0_r, Z.eqb_refl. done.
Qed.

Lemma dequeue_run l : ws <> [] -> read_bytes (d q) (s mod 2 ^ order q) n = Some l ->
  dequeue_common q multi n = Some (set_cons_tail (set_cons_head q (u32 (s + n))) (u32 (s + n)), l).
Proof.
  intros Hne El. destruct Hq as [Ho Hd Hs0 Hf [Hh1 Hh2] [Ht1 Ht2] Hw]. pose proof (order_pow q Ho).
  destruct (block_size_unit q n Hn) as (Hu & _ & _). set (c := Dcall multi n).
  assert (Z.of_nat (length ws) <> 0) by by destruct ws.
  unfold dequeue_common, alone. fold c. cbn [step_thread]. unfold deq_load. cbn [d_n c]. rewrite Hu. cbn [negb].
  rewrite Hh1, Ht2, u32_sub, queue_size_u32 by lia.
  destruct (Z.eqb_spec (u32 s) (u32 (s + Z.of_nat (length ws)))) as [E|_].
  { apply u32_near in E; lia. }
  destruct (Z.leb_spec (s + Z.of_nat (length ws) - s) (2 ^ order q)); [|lia].
  cbn [negb step_thread]. unfold deq_claim. cbn [d_multi d_n c]. rewrite Hh1, Z.eqb_refl, u32_add.
  replace (if multi then (set_cons_head q (u32 (s + n)), DeqClaimed c (u32 s))
           else (set_cons_head q (u32 (s + n)), DeqClaimed c (u32 s)))
    with (set_cons_head q (u32 (s + n)), DeqClaimed c (u32 s)) by by destruct multi.
  cbn [step_thread]. unfold deq_read. change (d (set_cons_head q (u32 (s + n)))) with (d q).
  change (queue_idx (set_cons_head q (u32 (s + n))) (u32 s)) with (queue_idx q (u32 s)).
  rewrite queue_idx_mod by done. cbn [d_n c]. rewrite El. cbn [step_thread]. unfold deq_commit. cbn [d_multi d_n c].
  change (cons_tail (set_cons_head q (u32 (s + n)))) with (cons_tail q).
  by rewrite Hh2, Z.eqb_refl, andb_false_r, u32_add.
Qed.

(** What is not empty has a block. *)
Lemma block_first : ws <> [] -> n <= Z.of_nat (length ws).
Proof.
  intros Hne. destruct (block_size_unit q n Hn) as (_ & _ & Hpos). apply Z.divide_pos_le; [|done].
  destruct ws; [done|simpl; lia].
Qed.

Lemma dequeue_some : ws <> [] ->
  exists q', dequeue_common q multi n = Some (q', take (Z.to_nat n) ws) /\ order q' = order q /\
    holds q' (s + n) (drop (Z.to_nat n) ws).
Proof.
  intros Hne. pose proof (block_first Hne) as Hle. destruct (block_size_unit q n Hn) as (_ & Hdiv & Hpos).
  pose proof (dequeue_run (take (Z.to_nat n) ws) Hne) as Hrun.
  destruct Hq as [Ho Hd Hs0 Hf [Hh1 Hh2] [Ht1 Ht2] Hw]. pose proof (order_pow q Ho).
  pose proof (Z.mod_pos_bound s (2 ^ order q) ltac:(lia)).
  destruct (slot_block (order q) n s 0) as [Hb _]; try done; try lia.
  rewrite Hrun.
  - eexists. split; [done|]. split; [done|].
    split; cbn [set_cons_tail set_cons_head order d cons_head cons_tail prod_head prod_tail];
      try done; rewrite ?length_drop; try lia.
    + by replace (s + n + Z.of_nat (length ws - Z.to_nat n)) with (s + Z.of_nat (length ws)) by lia.
    + intros i w Hi. rewrite lookup_drop in Hi. rewrite <- (Hw _ _ Hi). f_equal. f_equal. lia.
  - apply read_bytes_Some. split; [lia|]. split; [lia|]. split; [lia|]. symmetry.
    apply list_eq. intros i. destruct (decide (i < Z.to_nat n)%nat).
    + rewrite !lookup_take_lt, lookup_drop by done. destruct (lookup_lt_is_Some_2 ws i) as [w Hi]; [lia|].
      rewrite Hi, <- (Hw i w Hi). f_equal. unfold slot.
      destruct (slot_block (order q) n s (Z.of_nat i)) as [_ ->]; try done; lia.
    + rewrite !lookup_take_ge by lia. done.
Qed.
End Alone.

Lemma lengths q s ws : holds q s ws ->
  queue_length q = Z.of_nat (length ws) /\ queue_empty q = bool_decide (ws = []) /\
  queue_full q = (Z.of_nat (length ws) =? 2 ^ order q).
Proof.
  intros [Ho Hd Hs0 Hf [Hh1 Hh2] [Ht1 Ht2] Hw]. pose proof (order_pow q Ho).
  unfold queue_length, queue_empty, queue_full. rewrite queue_size_pow, Hh1, Ht2, u32_sub by (done || lia).
  replace (s + Z.of_nat (length ws) - s) with (Z.of_nat (length ws)) by lia. split; [done|]. split; [|done].
  apply eq_true_iff_eq. rewrite Z.eqb_eq, bool_decide_eq_true. split; [|by intros ->; rewrite Z.add_0_r].
  intros E. apply u32_near in E; [|lia]. destruct ws; [done|]. simpl in *. lia.
Qed.

Lemma queue_init_holds o : 0 <= o <= 31 -> holds (queue_init o) 0 [].
Proof.
  intros Ho. assert (1 <= 2 ^ o <= 2 ^ 31) by (split; [lia|apply Z.pow_le_mono_r; lia]).
  split; simpl; try done; try lia. rewrite length_replicate. unfold queue_data_size.
  rewrite Z.shiftl_1_l, (u64_small (2 ^ o)), u64_small, Z.div_mul by lia. lia.
Qed.

(** * Properties *)

(** C30: a queue is a bounded queue of blocks of words.  A new queue is empty and
    holds between [size] and [2 * size] words.  On a queue that holds [ws], however
    often its counters have wrapped, an enqueue of a block run alone appends it, or
    changes nothing and fails when the queue is full; a dequeue takes the first block,
    or returns [INVALID_ADDRESS] when the queue is empty; and the length, emptiness
    and fullness are those of [ws].  Neither fails an assertion, waits for ever or
    leaves the slots. *)
Theorem queue_refines_fifo {h : Heap} (ht : HeapTotal h) offset size q s ws n multi p block :
  0 <= offset < 2 ^ 32 -> 1 <= size <= 2 ^ 31 ->
  holds q s ws -> block_size q n -> (n | s) -> (n | Z.of_nat (length ws)) ->
  p <> INVALID_ADDRESS -> n = 1 \/ n <= Z.of_nat (length block) ->
  (exists q0, allocate_queue offset size = Some q0 /\ holds q0 0 [] /\ size <= 2 ^ order q0 < 2 * size) /\
  (if Z.of_nat (length ws) =? 2 ^ order q then enqueue_common q p block multi n = Some (q, false)
   else exists q', enqueue_common q p block multi n = Some (q', true) /\ order q' = order q /\
     holds q' s (ws ++ enq_words (Ecall p block multi n))) /\
  (if bool_decide (ws = []) then dequeue_common q multi n = Some (q, [INVALID_ADDRESS])
   else exists q', dequeue_common q multi n = Some (q', take (Z.to_nat n) ws) /\ order q' = order q /\
     holds q' (s + n) (drop (Z.to_nat n) ws)) /\
  queue_length q = Z.of_nat (length ws) /\ queue_empty q = bool_decide (ws = []) /\
  queue_full q = (Z.of_nat (length ws) =? 2 ^ order q).
Proof.
  intros Hoff Hsize Hq Hn Hs Hws Hp Hb. split; [|split; [|split; [|by eapply lengths]]].
  - destruct (find_order_pow size 31 ltac:(lia) Hsize) as [Ho Hpow]. exists (queue_init (find_order size)).
    split; [|split; [by apply queue_init_holds|done]]. unfold allocate_queue.
    destruct (Z.eqb_spec size 0); [lia|].
    destruct (allocate (u64 (offset + queue_data_size (find_order size)))) as [mem|] eqn:E; [done|].
    by destruct (ht _ (proj1 (u64_range _)) E).
  - destruct (Z.eqb_spec (Z.of_nat (length ws)) (2 ^ order q)).
    + by apply (enqueue_full q s ws).
    + by apply enqueue_room.
  - case_bool_decide as He; [by apply (dequeue_empty q s ws)|by apply dequeue_some].
Qed.

(** Four words in blocks of two, two of them used, the counters about to wrap. *)
Definition sample_queue : queue :=
  {| prod_head := 0; cons_tail := 2 ^ 32 - 2; cons_head := 2 ^ 32 - 2; prod_tail := 0; d := [0; 0; 7; 8]; order := 2 |}.

Lemma queue_refines_fifo_witness :
  (exists q', enqueue_common sample_queue 4096 [5; 6] true 2 = Some (q', true) /\ order q' = 2 /\
     holds q' (2 ^ 32 - 2) [7; 8; 5; 6]) /\
  (exists q', dequeue_common sample_queue true 2 = Some (q', [7; 8]) /\ order q' = 2 /\ holds q' (2 ^ 32) []) /\
  queue_length sample_queue = 2.
Proof.
  destruct (queue_refines_fifo zero_heap_total 64 5 sample_queue (2 ^ 32 - 2) [7; 8] 2 true 4096 [5; 6])
    as (_ & H1 & H2 & H3 & _); try done; try lia.
  - split; simpl; try done. intros [|[|i]] w Hi; simpl in Hi; [by injection Hi as <-..|done].
  - by exists 1.
  - by exists (2 ^ 31 - 1).
  - simpl. lia.
Defined.

(** [queue_peek_at] compares counters without regard to their wrapping: here the
    queue holds two words and the first is reported absent. *)
Lemma peek_at_wrapped : queue_length sample_queue = 2 /\ queue_peek sample_queue = Some INVALID_ADDRESS.
Proof. by vm_compute. Qed.
