(* ===== verification/QueueConc.v ===== *)
(** Queues shared by processors: any interleaving of the steps of [enqueue] and
    [dequeue] on one queue.

    The operations are a list; the schedule is a list of indices of it, one step
    each.  The logs are not part of the program: they record, in the order of the
    compare and swaps, which operation claimed a position, and [elog] with which
    word.  The invariant relates the counters to positions that do not wrap. *)

From S2P Require Import Prelude Words Heap Circular Queue.

Create HintDb queue.

Record system := { sq : queue; threads : list thread; elog : list (nat * Z); dlog : list nat }.

Definition start_of (o : option Z) : thread :=
  match o with
  | Some p => EnqStart (Ecall p [] true 1)
  | None => DeqStart (Dcall true 1)
  end.

(** The operations: [Some p] enqueues [p], [None] dequeues. *)
Definition initial (q : queue) (ops : list (option Z)) : system :=
  {| sq := q; threads := start_of <$> ops; elog := []; dlog := [] |}.

Definition step (s : system) (t : nat) : system :=
  match threads s !! t with
  | None => s
  | Some th =>
      let '(q, th') := step_thread (sq s) th in
      {| sq := q; threads := <[t := th']> (threads s);
         elog := match th, th' with
                 | EnqLoaded c _, EnqClaimed _ _ => elog s ++ [(t, e_p c)]
                 | _, _ => elog s
                 end;
         dlog := match th, th' with
                 | DeqLoaded _ _, DeqClaimed _ _ => dlog s ++ [t]
                 | _, _ => dlog s
                 end |}
  end.

Definition run (s : system) (schedule : list nat) : system := foldl step s schedule.

(** ** The invariant *)

Section Invariant.
(** The queue held [ws] from position [b] at the start. *)
Context (b : Z) (ws : list Z) (o : Z) (ops : list (option Z)).

Definition values (el : list (nat * Z)) : list Z := ws ++ el.*2.

(** Positions: of the next claim of a producer and of a consumer. *)
Definition Hpos (el : list (nat * Z)) : Z := b + Z.of_nat (length (values el)).
Definition Cpos (dl : list nat) : Z := b + Z.of_nat (length dl).

(** Who claimed a position, and the word at a position. *)
Definition producer (el : list (nat * Z)) (i : Z) (t : nat) (p : Z) : Prop :=
  b + Z.of_nat (length ws) <= i /\ el !! Z.to_nat (i - b - Z.of_nat (length ws)) = Some (t, p).
Definition consumer (dl : list nat) (i : Z) (t : nat) : Prop :=
  b <= i /\ dl !! Z.to_nat (i - b) = Some t.
Definition word_at (el : list (nat * Z)) (i w : Z) : Prop :=
  b <= i /\ values el !! Z.to_nat (i - b) = Some w.

Definition ecall_of (p : Z) : ecall := Ecall p [] true 1.
Definition dcall_of : dcall := Dcall true 1.

(** What holds of the thread [t], with [CT] and [PT] the positions committed by
    consumers and producers and [l] the slots. *)
Definition thread_inv (CT PT : Z) (el : list (nat * Z)) (dl : list nat) (l : list Z) (t : nat) (th : thread) : Prop :=
  match th with
  | EnqStart c => exists p, ops !! t = Some (Some p) /\ c = ecall_of p /\ (t ∉ el.*1)
  | EnqLoaded c h => exists p i, ops !! t = Some (Some p) /\ c = ecall_of p /\ p <> INVALID_ADDRESS /\ (t ∉ el.*1) /\
      h = u32 i /\ b <= i <= Hpos el /\ i - CT < 2 ^ o
  | EnqClaimed c h => exists p i, ops !! t = Some (Some p) /\ c = ecall_of p /\ p <> INVALID_ADDRESS /\
      h = u32 i /\ PT <= i /\ producer el i t p
  | EnqWritten c h => exists p i, ops !! t = Some (Some p) /\ c = ecall_of p /\ p <> INVALID_ADDRESS /\
      h = u32 i /\ PT <= i /\ producer el i t p /\ l !! slot o i = Some p
  | EnqDone c r => exists p, ops !! t = Some (Some p) /\ c = ecall_of p /\
      if r then exists i, i < PT /\ producer el i t p else (t ∉ el.*1)
  | DeqStart c => ops !! t = Some None /\ c = dcall_of /\ t ∉ dl
  | DeqLoaded c h => ops !! t = Some None /\ c = dcall_of /\ (t ∉ dl) /\
      exists i, h = u32 i /\ b <= i <= Cpos dl /\ i < PT
  | DeqClaimed c h => ops !! t = Some None /\ c = dcall_of /\
      exists i, h = u32 i /\ CT <= i /\ consumer dl i t
  | DeqRead c h vs => ops !! t = Some None /\ c = dcall_of /\
      exists i w, h = u32 i /\ CT <= i /\ consumer dl i t /\ word_at el i w /\ vs = [w]
  | DeqDone c vs => ops !! t = Some None /\ c = dcall_of /\
      ((vs = [INVALID_ADDRESS] /\ t ∉ dl) \/
       exists i w, i < CT /\ consumer dl i t /\ word_at el i w /\ vs = [w])
  | Crashed => False
  end.

(** The position a thread has claimed, while it is in progress. *)
Definition eclaim (th : thread) : option Z :=
  match th with EnqClaimed _ h | EnqWritten _ h => Some h | _ => None end.
Definition dclaim (th : thread) : option Z :=
  match th with DeqClaimed _ h | DeqRead _ h _ => Some h | _ => None end.

Record inv (s : system) (CT PT : Z) : Prop := {
  in_order : order (sq s) = o;
  in_slots : Z.of_nat (length (d (sq s))) = 2 ^ o;
  in_positions : b <= CT <= Cpos (dlog s) /\ Cpos (dlog s) <= PT <= Hpos (elog s) /\ Hpos (elog s) - CT <= 2 ^ o;
  in_prod_head : prod_head (sq s) = u32 (Hpos (elog s));
  in_prod_tail : prod_tail (sq s) = u32 PT;
  in_cons_head : cons_head (sq s) = u32 (Cpos (dlog s));
  in_cons_tail : cons_tail (sq s) = u32 CT;
  in_committed : b + Z.of_nat (length ws) <= PT;
  in_words : forall i w, CT <= i < PT -> word_at (elog s) i w -> d (sq s) !! slot o i = Some w;
  in_producers : forall i t p, PT <= i -> producer (elog s) i t p -> threads s !! t ≫= eclaim = Some (u32 i);
  in_consumers : forall i t, CT <= i -> consumer (dlog s) i t -> threads s !! t ≫= dclaim = Some (u32 i);
  in_length : length (threads s) = length ops;
  in_elog_lt : Forall (fun t => (t < length ops)%nat) (elog s).*1;
  in_elog_ops : Forall (fun x => ops !! x.1 = Some (Some x.2)) (elog s);
  in_dlog_ops : Forall (fun t => ops !! t = Some None) (dlog s);
  in_elog : NoDup (elog s).*1;
  in_dlog : NoDup (dlog s);
  in_threads : forall t th, threads s !! t = Some th -> thread_inv CT PT (elog s) (dlog s) (d (sq s)) t th;
}.

(** ** Logs that grow *)

Lemma Hpos_snoc el x : Hpos (el ++ [x]) = Hpos el + 1.
Proof. unfold Hpos, values. rewrite fmap_app, !length_app. simpl. lia. Qed.

Lemma Cpos_snoc dl t : Cpos (dl ++ [t]) = Cpos dl + 1.
Proof. unfold Cpos. rewrite length_app. simpl. lia. Qed.

Lemma Hpos_elog el : Hpos el = b + Z.of_nat (length ws) + Z.of_nat (length el).
Proof. unfold Hpos, values. rewrite length_app, length_fmap. lia. Qed.

Lemma producer_snoc el x i t p : producer el i t p -> producer (el ++ [x]) i t p.
Proof. intros [H1 H2]. split; [done|]. by apply lookup_app_l_Some. Qed.

Lemma producer_snoc_inv el x i t p : producer (el ++ [x]) i t p ->
  producer el i t p \/ (i = Hpos el /\ x = (t, p)).
Proof.
  intros [H1 H2]. apply lookup_app_Some in H2 as [H2|[Hge H2]]; [left; by split|right].
  apply list_lookup_singleton_Some in H2 as [Hi ->]. rewrite Hpos_elog. split; [lia|done].
Qed.

Lemma producer_new el t p : producer (el ++ [(t, p)]) (Hpos el) t p.
Proof.
  rewrite Hpos_elog. split; [lia|]. rewrite lookup_app_r by lia. by rewrite list_lookup_singleton_Some; split; [lia|].
Qed.

Lemma producer_lt el i t p : producer el i t p -> i < Hpos el.
Proof. intros [H1 H2]. apply lookup_lt_Some in H2. rewrite Hpos_elog. lia. Qed.

Lemma producer_elem el i t p : producer el i t p -> t ∈ el.*1.
Proof. intros [_ H]. apply list_elem_of_lookup_2 in H. apply (list_elem_of_fmap_2 fst) in H. done. Qed.

Lemma producer_inj el i j t p p' : NoDup el.*1 -> producer el i t p -> producer el j t p' -> i = j.
Proof.
  intros Hd [H1 H2] [H3 H4].
  enough (Z.to_nat (i - b - Z.of_nat (length ws)) = Z.to_nat (j - b - Z.of_nat (length ws))) by lia.
  eapply (NoDup_lookup el.*1); [done|rewrite list_lookup_fmap, H2|rewrite list_lookup_fmap, H4]; done.
Qed.

Lemma producer_fun el i t t' p p' : producer el i t p -> producer el i t' p' -> t = t' /\ p = p'.
Proof. intros [_ H] [_ H']. rewrite H in H'. by injection H'. Qed.

Lemma producer_word el i t p : producer el i t p -> word_at el i p.
Proof.
  intros [H1 H2]. split; [lia|]. unfold values. rewrite lookup_app_r by lia. rewrite list_lookup_fmap.
  replace (Z.to_nat (i - b) - length ws)%nat with (Z.to_nat (i - b - Z.of_nat (length ws))) by lia. by rewrite H2.
Qed.

Lemma producer_ex el i : b + Z.of_nat (length ws) <= i < Hpos el -> exists t p, producer el i t p.
Proof.
  intros Hi. rewrite Hpos_elog in Hi.
  destruct (lookup_lt_is_Some_2 el (Z.to_nat (i - b - Z.of_nat (length ws)))) as [[t p] H]; [lia|].
  exists t, p. split; [lia|done].
Qed.

Lemma word_at_snoc el x i w : word_at el i w -> word_at (el ++ [x]) i w.
Proof. intros [H1 H2]. split; [done|]. unfold values. rewrite fmap_app, app_assoc. by apply lookup_app_l_Some. Qed.

Lemma word_at_snoc_inv el x i w : word_at (el ++ [x]) i w -> i < Hpos el -> word_at el i w.
Proof.
  intros [H1 H2] Hi. split; [done|]. unfold values in *. rewrite fmap_app, app_assoc in H2.
  apply lookup_app_Some in H2 as [H2|[Hge _]]; [done|]. unfold Hpos, values in Hi. lia.
Qed.

Lemma word_at_fun el i w w' : word_at el i w -> word_at el i w' -> w = w'.
Proof. intros [_ H] [_ H']. congruence. Qed.

Lemma word_at_ex el i : b <= i < Hpos el -> exists w, word_at el i w.
Proof.
  intros Hi. unfold Hpos in Hi. destruct (lookup_lt_is_Some_2 (values el) (Z.to_nat (i - b))) as [w H]; [lia|].
  exists w. split; [lia|done].
Qed.

Lemma consumer_snoc dl x i t : consumer dl i t -> consumer (dl ++ [x]) i t.
Proof. intros [H1 H2]. split; [done|]. by apply lookup_app_l_Some. Qed.

Lemma consumer_snoc_inv dl x i t : consumer (dl ++ [x]) i t -> consumer dl i t \/ (i = Cpos dl /\ x = t).
Proof.
  intros [H1 H2]. apply lookup_app_Some in H2 as [H2|[Hge H2]]; [left; by split|right].
  apply list_lookup_singleton_Some in H2 as [Hi ->]. unfold Cpos. split; [lia|done].
Qed.

Lemma consumer_new dl t : consumer (dl ++ [t]) (Cpos dl) t.
Proof.
  unfold Cpos. split; [lia|]. rewrite lookup_app_r by lia. by rewrite list_lookup_singleton_Some; split; [lia|].
Qed.

Lemma consumer_lt dl i t : consumer dl i t -> i < Cpos dl.
Proof. intros [H1 H2]. apply lookup_lt_Some in H2. unfold Cpos. lia. Qed.

Lemma consumer_elem dl i t : consumer dl i t -> t ∈ dl.
Proof. intros [_ H]. by apply list_elem_of_lookup_2 in H. Qed.

Lemma consumer_inj dl i j t : NoDup dl -> consumer dl i t -> consumer dl j t -> i = j.
Proof.
  intros Hd [H1 H2] [H3 H4]. enough (Z.to_nat (i - b) = Z.to_nat (j - b)) by lia. by eapply NoDup_lookup.
Qed.

Lemma consumer_fun dl i t t' : consumer dl i t -> consumer dl i t' -> t = t'.
Proof. intros [_ H] [_ H']. congruence. Qed.

Context (Ho : 0 <= o <= 31) (Hb : 0 <= b) (Hws : Z.of_nat (length ws) <= 2 ^ o).
Context (Hops : Z.of_nat (length ops) < 2 ^ 31).

(** ** What other threads do keeps what holds of a thread *)

#[local] Hint Resolve producer_snoc consumer_snoc word_at_snoc : queue.

Lemma thread_inv_elog CT PT el dl l t p t' th : t' <> t ->
  thread_inv CT PT el dl l t' th -> thread_inv CT PT (el ++ [(t, p)]) dl l t' th.
Proof.
  intros Hne. assert (Hel : t' ∉ el.*1 -> t' ∉ (el ++ [(t, p)]).*1).
  { rewrite fmap_app; simpl; rewrite elem_of_app, list_elem_of_singleton. naive_solver. }
  pose proof (Hpos_snoc el (t, p)).
  destruct th as [c|c h|c h|c h|c []|c|c h|c h|c h vs|c vs|]; simpl; try naive_solver eauto with queue.
  intros (p' & i & ? & ? & ? & ? & ? & ? & ?). exists p', i. repeat split; try done; [by apply Hel|lia..].
Qed.

Lemma thread_inv_dlog CT PT el dl l t t' th : t' <> t ->
  thread_inv CT PT el dl l t' th -> thread_inv CT PT el (dl ++ [t]) l t' th.
Proof.
  intros Hne. assert (Hdl : t' ∉ dl -> t' ∉ dl ++ [t]).
  { rewrite elem_of_app, list_elem_of_singleton. naive_solver. }
  pose proof (Cpos_snoc dl t).
  destruct th as [c|c h|c h|c h|c []|c|c h|c h|c h vs|c vs|]; simpl; try naive_solver eauto with queue.
  - intros (? & ? & ? & i & ? & ? & ?). repeat split; try done; [by apply Hdl|]. exists i. repeat split; try done; lia.
Qed.

Lemma thread_inv_slots CT PT el dl l t i p t' th : t' <> t -> NoDup el.*1 ->
  CT <= PT -> Hpos el - CT <= 2 ^ o -> PT <= i -> producer el i t p ->
  thread_inv CT PT el dl l t' th -> thread_inv CT PT el dl (<[slot o i := p]> l) t' th.
Proof.
  intros Hne Hd HCT HH Hi Hp. destruct th as [c|c h|c h|c h|c []|c|c h|c h|c h vs|c vs|]; simpl; try done.
  intros (p' & j & ? & ? & ? & ? & ? & Hp' & Hl). exists p', j. repeat split; try done; try apply Hp'.
  rewrite list_lookup_insert_ne; [done|]. intros E.
  pose proof (producer_lt _ _ _ _ Hp). pose proof (producer_lt _ _ _ _ Hp').
  apply slot_near in E; [|lia..]. subst j. by destruct (producer_fun _ _ _ _ _ _ Hp Hp').
Qed.

Lemma thread_inv_PT CT PT el dl l t p t' th : t' <> t -> producer el PT t p ->
  thread_inv CT PT el dl l t' th -> thread_inv CT (PT + 1) el dl l t' th.
Proof.
  intros Hne Hp. destruct th as [c|c h|c h|c h|c []|c|c h|c h|c h vs|c vs|]; simpl; try done.
  - intros (p' & i & ? & ? & ? & ? & ? & Hp'). exists p', i. repeat split; try done; try apply Hp'.
    assert (i <> PT) by (intros ->; by destruct (producer_fun _ _ _ _ _ _ Hp Hp')). lia.
  - intros (p' & i & ? & ? & ? & ? & ? & Hp' & ?). exists p', i. repeat split; try done; try apply Hp'.
    assert (i <> PT) by (intros ->; by destruct (producer_fun _ _ _ _ _ _ Hp Hp')). lia.
  - intros (p' & ? & ? & i & ? & Hp'). exists p'. repeat split; try done. exists i. split; [lia|done].
  - intros (? & ? & ? & i & ? & ? & ?). repeat split; try done. exists i. repeat split; try done; lia.
Qed.

Lemma thread_inv_CT CT PT el dl l t t' th : t' <> t -> consumer dl CT t ->
  thread_inv CT PT el dl l t' th -> thread_inv (CT + 1) PT el dl l t' th.
Proof.
  intros Hne Hc. assert (Hk : forall i, CT <= i -> consumer dl i t' -> CT + 1 <= i).
  { intros i Hi Hc'. assert (i <> CT) by (intros ->; by destruct (consumer_fun _ _ _ _ Hc Hc')). lia. }
  destruct th as [c|c h|c h|c h|c []|c|c h|c h|c h vs|c vs|]; simpl; try naive_solver.
  - intros (p' & i & ? & ? & ? & ? & ? & ? & ?). exists p', i. repeat split; try done; lia.
  - intros (? & ? & [?|(i & w & ? & ? & ? & ?)]); repeat split; try done; [by left|right].
    exists i, w. repeat split; try done; [lia|apply H2|apply H2|apply H3|apply H3].
Qed.

(** ** The steps *)

Implicit Types (s : system) (t : nat) (th : thread).

(** A step of a thread that leaves its claim, the counters, the slots and the logs alone. *)
Lemma local_step s CT PT t th th' : inv s CT PT -> threads s !! t = Some th ->
  eclaim th' = eclaim th -> dclaim th' = dclaim th ->
  thread_inv CT PT (elog s) (dlog s) (d (sq s)) t th' ->
  inv {| sq := sq s; threads := <[t := th']> (threads s); elog := elog s; dlog := dlog s |} CT PT.
Proof.
  intros [] Ht He Hd Hth. assert (t < length (threads s))%nat by by apply lookup_lt_Some in Ht.
  split; simpl; try done.
  - intros i t' p Hi Hp. specialize (in_producers0 i t' p Hi Hp). destruct (decide (t = t')) as [<-|Hne].
    + rewrite list_lookup_insert_eq by done. rewrite Ht in in_producers0. simpl in *. by rewrite He.
    + by rewrite list_lookup_insert_ne.
  - intros i t' Hi Hp. specialize (in_consumers0 i t' Hi Hp). destruct (decide (t = t')) as [<-|Hne].
    + rewrite list_lookup_insert_eq by done. rewrite Ht in in_consumers0. simpl in *. by rewrite Hd.
    + by rewrite list_lookup_insert_ne.
  - by rewrite length_insert.
  - intros t' th'' Ht'. destruct (decide (t = t')) as [<-|Hne].
    + rewrite list_lookup_insert_eq in Ht' by done. by injection Ht' as <-.
    + rewrite list_lookup_insert_ne in Ht' by done. by apply in_threads0.
Qed.

(** ** Steps that change the queue *)

Lemma insert_threads (P : nat -> thread -> Prop) (ths : list thread) t th' :
  (forall t' th, ths !! t' = Some th -> t' <> t -> P t' th) -> P t th' ->
  forall t' th, <[t := th']> ths !! t' = Some th -> P t' th.
Proof.
  intros Hold Hnew t' th Ht'. destruct (decide (t = t')) as [<-|Hne].
  - assert (t < length ths)%nat by (apply lookup_lt_Some in Ht'; by rewrite length_insert in Ht').
    rewrite list_lookup_insert_eq in Ht' by done. by injection Ht' as <-.
  - rewrite list_lookup_insert_ne in Ht' by done. by apply Hold.
Qed.

(** The claim of a thread after another one moved, or this one kept it. *)
Lemma insert_claim (f : thread -> option Z) (ths : list thread) t th th' t' x : ths !! t = Some th ->
  ths !! t' ≫= f = Some x -> (t = t' -> f th = Some x -> f th' = Some x) ->
  <[t := th']> ths !! t' ≫= f = Some x.
Proof.
  intros Ht Hx Hf. destruct (decide (t = t')) as [<-|Hne].
  - rewrite list_lookup_insert_eq by by apply lookup_lt_Some in Ht. rewrite Ht in Hx. by apply Hf.
  - by rewrite list_lookup_insert_ne.
Qed.

Lemma new_claim (f : thread -> option Z) (ths : list thread) t th th' x : ths !! t = Some th ->
  f th' = Some x -> <[t := th']> ths !! t ≫= f = Some x.
Proof. intros Ht Hf. by rewrite list_lookup_insert_eq by by apply lookup_lt_Some in Ht. Qed.

Lemma elog_length (el : list (nat * Z)) : NoDup el.*1 -> Forall (fun t => (t < length ops)%nat) el.*1 ->
  (length el <= length ops)%nat.
Proof.
  intros Hd Hl. rewrite <- (length_fmap fst el), <- (length_seq (length ops) 0).
  apply submseteq_length, NoDup_submseteq; [done|]. intros t Ht. rewrite Forall_forall in Hl.
  apply elem_of_seq. specialize (Hl t Ht). lia.
Qed.

Lemma pow_o : 1 <= 2 ^ o <= 2 ^ 31.
Proof. split; [lia|]. apply Z.pow_le_mono_r; lia. Qed.

Lemma enq_claim_step s CT PT t p : inv s CT PT ->
  threads s !! t = Some (EnqLoaded (ecall_of p) (prod_head (sq s))) ->
  inv {| sq := set_prod_head (sq s) (u32 (prod_head (sq s) + 1));
         threads := <[t := EnqClaimed (ecall_of p) (prod_head (sq s))]> (threads s);
         elog := elog s ++ [(t, p)]; dlog := dlog s |} CT PT.
Proof.
  intros [] Ht. destruct (in_threads0 _ _ Ht) as (p' & i & Hop & [= <-] & Hp & Hnew & Ei & Hi & Hroom).
  pose proof (elog_length _ in_elog0 in_elog_lt0). pose proof pow_o.
  rewrite in_prod_head0 in Ei. apply u32_near in Ei; [|revert Hi; rewrite Hpos_elog; lia]. subst i.
  split; simpl; rewrite ?Hpos_snoc; try done.
  - lia.
  - by rewrite in_prod_head0, u32_add.
  - intros j w Hj Hw. apply in_words0; [done|]. eapply word_at_snoc_inv; [done|lia].
  - intros j t' p' Hj Hpr. apply producer_snoc_inv in Hpr as [Hpr|[-> [= <- <-]]].
    + by eapply insert_claim; eauto.
    + eapply new_claim; [done|]. simpl. by rewrite in_prod_head0.
  - intros j t' Hj Hc. by eapply insert_claim; eauto.
  - by rewrite length_insert.
  - rewrite fmap_app. apply Forall_app. split; [done|]. repeat constructor. simpl.
    rewrite <- in_length0. by apply lookup_lt_Some in Ht.
  - apply Forall_app. split; [done|]. by repeat constructor.
  - rewrite fmap_app. apply NoDup_app. split; [done|]. split; [|apply NoDup_singleton].
    intros t' Ht'. simpl. rewrite list_elem_of_singleton. by intros ->.
  - apply insert_threads.
    + intros t' th Ht' Hne. by apply thread_inv_elog; [|apply in_threads0].
    + exists p, (Hpos (elog s)). repeat split; try done; try lia; apply producer_new.
Qed.

Lemma enq_write_step s CT PT t p h : inv s CT PT ->
  threads s !! t = Some (EnqClaimed (ecall_of p) h) ->
  exists l, write_bytes (d (sq s)) (queue_idx (sq s) h) (enq_words (ecall_of p)) = Some l /\
  inv {| sq := set_d (sq s) l; threads := <[t := EnqWritten (ecall_of p) h]> (threads s);
         elog := elog s; dlog := dlog s |} CT PT.
Proof.
  intros [] Ht. destruct (in_threads0 _ _ Ht) as (p' & i & Hop & [= <-] & Hp & -> & Hi & Hpr).
  pose proof pow_o. rewrite queue_idx_mod by lia. rewrite in_order0. change (enq_words (ecall_of p)) with [p].
  pose proof (Z.mod_pos_bound i (2 ^ o) ltac:(lia)). pose proof (producer_lt _ _ _ _ Hpr).
  rewrite write_bytes_one by lia. eexists. split; [done|]. change (Z.to_nat (i mod 2 ^ o)) with (slot o i).
  split; simpl; try done.
  - by rewrite length_insert.
  - intros j w Hj Hw. rewrite list_lookup_insert_ne; [by apply in_words0|]. intros E. apply slot_near in E; lia.
  - intros j t' p' Hj Hpr'. eapply insert_claim; eauto.
  - intros j t' Hj Hc. eapply insert_claim; eauto.
  - by rewrite length_insert.
  - apply insert_threads.
    + intros t' th Ht' Hne. by eapply thread_inv_slots; [..|apply in_threads0]; try done; try lia.
    + exists p, i. repeat split; try done; try apply Hpr. rewrite list_lookup_insert_eq; [done|].
      pose proof (slot_lt o i ltac:(lia)). lia.
Qed.

(** A producer whose turn it is has claimed the first position not committed. *)
Lemma producer_turn s CT PT t i p : inv s CT PT -> PT <= i -> producer (elog s) i t p ->
  u32 PT = u32 i -> i = PT.
Proof.
  intros [] Hi Hpr E. pose proof pow_o. pose proof (producer_lt _ _ _ _ Hpr). apply u32_near in E; lia.
Qed.

Lemma enq_commit_step s CT PT t p : inv s CT PT ->
  threads s !! t = Some (EnqWritten (ecall_of p) (prod_tail (sq s))) ->
  inv {| sq := set_prod_tail (sq s) (u32 (prod_tail (sq s) + 1));
         threads := <[t := EnqDone (ecall_of p) true]> (threads s);
         elog := elog s; dlog := dlog s |} CT (PT + 1).
Proof.
  intros Hinv Ht. pose proof Hinv as []. destruct (in_threads0 _ _ Ht) as (p' & i & Hop & [= <-] & Hp & Ei & Hi & Hpr & Hl).
  rewrite in_prod_tail0 in Ei. apply (producer_turn _ _ _ _ _ _ Hinv Hi Hpr) in Ei as ->.
  pose proof (producer_lt _ _ _ _ Hpr). split; simpl; try done; try lia.
  - by rewrite in_prod_tail0, u32_add.
  - intros j w Hj Hw. destruct (decide (j = PT)) as [->|]; [|apply in_words0; [lia|done]].
    by rewrite (word_at_fun _ _ _ _ Hw (producer_word _ _ _ _ Hpr)).
  - intros j t' p' Hj Hpr'. eapply insert_claim; [done|apply (in_producers0 j t' p'); [lia|done]|].
    intros <-. pose proof (producer_inj _ _ _ _ _ _ in_elog0 Hpr Hpr'). lia.
  - intros j t' Hj Hc. by eapply insert_claim; eauto.
  - by rewrite length_insert.
  - apply insert_threads.
    + intros t' th Ht' Hne. by eapply thread_inv_PT; [..|apply in_threads0].
    + exists p. repeat split; try done. exists PT. split; [lia|done].
Qed.

Lemma deq_claim_step s CT PT t : inv s CT PT ->
  threads s !! t = Some (DeqLoaded dcall_of (cons_head (sq s))) ->
  inv {| sq := set_cons_head (sq s) (u32 (cons_head (sq s) + 1));
         threads := <[t := DeqClaimed dcall_of (cons_head (sq s))]> (threads s);
         elog := elog s; dlog := dlog s ++ [t] |} CT PT.
Proof.
  intros [] Ht. destruct (in_threads0 _ _ Ht) as (Hop & _ & Hnew & i & Ei & Hi & HiPT).
  pose proof (elog_length _ in_elog0 in_elog_lt0). pose proof pow_o.
  rewrite in_cons_head0 in Ei. apply u32_near in Ei; [|revert in_positions0; rewrite Hpos_elog; lia]. subst i.
  split; simpl; rewrite ?Cpos_snoc; try done.
  - lia.
  - by rewrite in_cons_head0, u32_add.
  - intros j t' p Hj Hpr. by eapply insert_claim; eauto.
  - intros j t' Hj Hc. apply consumer_snoc_inv in Hc as [Hc|[-> <-]].
    + by eapply insert_claim; eauto.
    + eapply new_claim; [done|]. simpl. by rewrite in_cons_head0.
  - by rewrite length_insert.
  - apply Forall_app. split; [done|]. by repeat constructor.
  - apply NoDup_app. split; [done|]. split; [|apply NoDup_singleton].
    intros t' Ht'. rewrite list_elem_of_singleton. by intros ->.
  - apply insert_threads.
    + intros t' th Ht' Hne. by apply thread_inv_dlog; [|apply in_threads0].
    + repeat split; try done. exists (Cpos (dlog s)). split; [done|]. split; [lia|]. apply consumer_new.
Qed.

Lemma deq_read_step s CT PT t h : inv s CT PT -> threads s !! t = Some (DeqClaimed dcall_of h) ->
  exists w, read_bytes (d (sq s)) (queue_idx (sq s) h) 1 = Some [w] /\
  inv {| sq := sq s; threads := <[t := DeqRead dcall_of h [w]]> (threads s); elog := elog s; dlog := dlog s |} CT PT.
Proof.
  intros Hinv Ht. pose proof Hinv as []. destruct (in_threads0 _ _ Ht) as (Hop & _ & i & -> & Hi & Hc).
  pose proof (consumer_lt _ _ _ Hc). pose proof pow_o. destruct (word_at_ex (elog s) i ltac:(lia)) as [w Hw].
  exists w. rewrite queue_idx_mod by lia. rewrite in_order0, (read_bytes_one _ _ w) by (apply Z.mod_pos_bound || apply (in_words0 i w); done || lia).
  split; [done|].
  eapply local_step; try done. simpl. repeat split; try done. by exists i, w.
Qed.

Lemma deq_commit_step s CT PT t vs : inv s CT PT ->
  threads s !! t = Some (DeqRead dcall_of (cons_tail (sq s)) vs) ->
  inv {| sq := set_cons_tail (sq s) (u32 (cons_tail (sq s) + 1));
         threads := <[t := DeqDone dcall_of vs]> (threads s);
         elog := elog s; dlog := dlog s |} (CT + 1) PT.
Proof.
  intros [] Ht. destruct (in_threads0 _ _ Ht) as (Hop & _ & i & w & Ei & Hi & Hc & Hw & ->).
  pose proof pow_o. pose proof (consumer_lt _ _ _ Hc).
  rewrite in_cons_tail0 in Ei. apply u32_near in Ei; [|lia]. subst i.
  split; simpl; try done; try lia.
  - by rewrite in_cons_tail0, u32_add.
  - intros j v Hj Hv. apply in_words0; [lia|done].
  - intros j t' p Hj Hpr. by eapply insert_claim; eauto.
  - intros j t' Hj Hc'. eapply insert_claim; [done|apply in_consumers0; [|done]; lia|].
    intros <-. pose proof (consumer_inj _ _ _ _ in_dlog0 Hc Hc'). lia.
  - by rewrite length_insert.
  - apply insert_threads.
    + intros t' th Ht' Hne. by eapply thread_inv_CT; [..|apply in_threads0].
    + repeat split; try done. right. exists CT, w. repeat split; try done; try apply Hc; try apply Hw; lia.
Qed.

Lemma enq_load_step s CT PT t p : inv s CT PT -> threads s !! t = Some (EnqStart (ecall_of p)) ->
  inv {| sq := sq s; threads := <[t := enq_load (sq s) (ecall_of p)]> (threads s);
         elog := elog s; dlog := dlog s |} CT PT.
Proof.
  intros Hinv Ht. pose proof Hinv as []. destruct (in_threads0 _ _ Ht) as (p' & Hop & [= <-] & Hnew). pose proof pow_o.
  unfold enq_load. cbn [ecall_of e_p e_n].
  destruct (Z.eqb_spec p INVALID_ADDRESS) as [|Hp]; [eapply local_step; try done; by exists p|].
  cbn [unit_ok Z.ltb Z.compare andb Z.sub negb]. rewrite queue_size_u32 by lia.
  rewrite in_order0, in_prod_head0, in_cons_tail0, u32_sub by lia. change (negb (unit_ok 1)) with false. cbn iota.
  destruct (Z.eqb_spec (Hpos (elog s) - CT) (2 ^ o)); [eapply local_step; try done; by exists p|].
  destruct (Z.ltb_spec (Hpos (elog s) - CT) (2 ^ o)); [|lia]. cbn [negb].
  eapply local_step; try done. exists p, (Hpos (elog s)). repeat split; try done; lia.
Qed.

Lemma deq_load_step s CT PT t : inv s CT PT -> threads s !! t = Some (DeqStart dcall_of) ->
  inv {| sq := sq s; threads := <[t := deq_load (sq s) dcall_of]> (threads s); elog := elog s; dlog := dlog s |} CT PT.
Proof.
  intros Hinv Ht. pose proof Hinv as []. destruct (in_threads0 _ _ Ht) as (Hop & _ & Hnew). pose proof pow_o.
  unfold deq_load. change (negb (unit_ok (d_n dcall_of))) with false. cbn iota.
  rewrite queue_size_u32 by lia. rewrite in_order0, in_prod_tail0, in_cons_head0, u32_sub by lia.
  destruct (Z.eqb_spec (u32 (Cpos (dlog s))) (u32 PT)) as [E|E].
  { eapply local_step; try done. repeat split; try done. by left. }
  destruct (Z.leb_spec (PT - Cpos (dlog s)) (2 ^ o)); [|lia]. cbn [negb].
  eapply local_step; try done. repeat split; try done. exists (Cpos (dlog s)). split; [done|]. split; [lia|].
  destruct (decide (Cpos (dlog s) = PT)); [congruence|lia].
Qed.

(** ** Progress *)

Definition is_done th : bool := match th with EnqDone _ _ | DeqDone _ _ => true | _ => false end.
Definition finished s : Prop := Forall (fun th => is_done th = true) (threads s).

(** How much a thread has still to do, among [n]: one that lost a race for a
    position is further away than one that did not start, and a claim outweighs all
    the races it makes others lose. *)
Definition weight (n : nat) (q : queue) th : nat :=
  match th with
  | EnqStart _ | DeqStart _ => 2 * n + 6
  | EnqLoaded _ h => if h =? prod_head q then 2 * n + 5 else 2 * n + 7
  | DeqLoaded _ h => if h =? cons_head q then 2 * n + 5 else 2 * n + 7
  | EnqClaimed _ _ | DeqClaimed _ _ => 2
  | EnqWritten _ _ | DeqRead _ _ _ => 1
  | EnqDone _ _ | DeqDone _ _ | Crashed => 0
  end.

Definition work s : nat := sum_list_with (weight (length (threads s)) (sq s)) (threads s).

Lemma sum_insert (f : thread -> nat) (ths : list thread) t th th' : ths !! t = Some th ->
  (sum_list_with f (<[t := th']> ths) + f th = sum_list_with f ths + f th')%nat.
Proof.
  revert t. induction ths as [|x ths IH]; intros [|t] Ht; simpl in *; [done..|injection Ht as ->; lia|].
  specialize (IH t Ht). lia.
Qed.

Lemma sum_le (f g : thread -> nat) k (ths : list thread) : (forall th, f th <= g th + k)%nat ->
  (sum_list_with f ths <= sum_list_with g ths + k * length ths)%nat.
Proof. intros Hfg. induction ths as [|x ths IH]; simpl; [lia|]. specialize (Hfg x). lia. Qed.

(** The steps that leave the heads alone. *)
Lemma work_local s q t th th' el dl : threads s !! t = Some th ->
  prod_head q = prod_head (sq s) -> cons_head q = cons_head (sq s) ->
  (weight (length (threads s)) (sq s) th' < weight (length (threads s)) (sq s) th)%nat ->
  (work {| sq := q; threads := <[t := th']> (threads s); elog := el; dlog := dl |} < work s)%nat.
Proof.
  intros Ht Hp Hc Hw. unfold work. simpl. rewrite length_insert.
  assert (E : forall ths, sum_list_with (weight (length (threads s)) q) ths =
                sum_list_with (weight (length (threads s)) (sq s)) ths).
  { induction ths as [|x ths IH]; simpl; [done|]. rewrite IH. f_equal. unfold weight. by rewrite Hp, Hc. }
  rewrite E. pose proof (sum_insert (weight (length (threads s)) (sq s)) _ _ _ th' Ht). lia.
Qed.

(** A claim moves one of them. *)
Lemma work_claim s q t th th' el dl : threads s !! t = Some th ->
  (2 * length (threads s) + 5 <= weight (length (threads s)) (sq s) th)%nat -> weight (length (threads s)) q th' = 2%nat ->
  (work {| sq := q; threads := <[t := th']> (threads s); elog := el; dlog := dl |} < work s)%nat.
Proof.
  intros Ht Hw Hw'. unfold work. simpl. rewrite length_insert. set (n := length (threads s)) in *.
  pose proof (sum_insert (weight n q) _ _ _ th' Ht). pose proof (sum_insert (weight n (sq s)) _ _ _ th' Ht).
  assert (Hle : forall x, (weight n q x <= weight n (sq s) x + 2)%nat).
  { intros []; simpl; repeat case_match; lia. }
  pose proof (sum_le _ _ 2 (threads s) Hle) as Hs. fold n in Hs.
  assert (weight n (sq s) th <= weight n q th + 2)%nat by (destruct th; simpl; repeat case_match; lia).
  lia.
Qed.

Definition moves (q : queue) th : bool :=
  match th with
  | EnqWritten _ h => prod_tail q =? h
  | DeqRead _ h _ => cons_tail q =? h
  | EnqDone _ _ | DeqDone _ _ | Crashed => false
  | _ => true
  end.

(** What a step of a thread has to show. *)
Definition good_step s t th : Prop :=
  (exists CT PT, inv (step s t) CT PT) /\ if moves (sq s) th then (work (step s t) < work s)%nat else step s t = s.

Lemma stay s t th : threads s !! t = Some th ->
  {| sq := sq s; threads := <[t := th]> (threads s); elog := elog s; dlog := dlog s |} = s.
Proof. intros Ht. destruct s. simpl in *. f_equal. by apply list_insert_id. Qed.

Lemma good_stay s CT PT t th : inv s CT PT -> step s t = s -> moves (sq s) th = false -> good_step s t th.
Proof. intros Hinv Hs Hm. split; rewrite ?Hm, Hs; [by exists CT, PT|done]. Qed.

Lemma good_enq_start s CT PT t p : inv s CT PT -> threads s !! t = Some (EnqStart (ecall_of p)) ->
  good_step s t (EnqStart (ecall_of p)).
Proof.
  intros Hinv Ht. pose proof (enq_load_step _ _ _ _ _ Hinv Ht) as Hn.
  unfold good_step, step. rewrite Ht. cbn [step_thread moves]. split; [by exists CT, PT|].
  eapply work_local; [done..|]. unfold enq_load. repeat case_match; simpl; rewrite ?Z.eqb_refl; lia.
Qed.

Lemma good_enq_loaded s CT PT t p h : inv s CT PT -> threads s !! t = Some (EnqLoaded (ecall_of p) h) ->
  good_step s t (EnqLoaded (ecall_of p) h).
Proof.
  intros Hinv Ht. unfold good_step, step. rewrite Ht. cbn [step_thread moves]. unfold enq_claim. cbn [ecall_of e_multi e_n].
  destruct (Z.eqb_spec (prod_head (sq s)) h) as [<-|Hne]; split.
  - exists CT, PT. by apply enq_claim_step.
  - eapply work_claim; [done| |done]. simpl. by rewrite Z.eqb_refl.
  - exists CT, PT. eapply local_step; try done.
    destruct (in_threads _ _ _ Hinv _ _ Ht) as (p' & i & Hop & [= <-] & _ & Hnew & _). by exists p.
  - eapply work_local; [done..|]. simpl. destruct (Z.eqb_spec h (prod_head (sq s))); [congruence|lia].
Qed.

Lemma good_enq_claimed s CT PT t p h : inv s CT PT -> threads s !! t = Some (EnqClaimed (ecall_of p) h) ->
  good_step s t (EnqClaimed (ecall_of p) h).
Proof.
  intros Hinv Ht. destruct (enq_write_step _ _ _ _ _ _ Hinv Ht) as (l & El & Hn).
  unfold good_step, step. rewrite Ht. cbn [step_thread moves]. unfold enq_write. rewrite El.
  split; [by exists CT, PT|]. eapply work_local; [done..|]. simpl. lia.
Qed.

Lemma good_enq_written s CT PT t p h : inv s CT PT -> threads s !! t = Some (EnqWritten (ecall_of p) h) ->
  good_step s t (EnqWritten (ecall_of p) h).
Proof.
  intros Hinv Ht. destruct (Z.eqb_spec (prod_tail (sq s)) h) as [<-|Hne].
  - unfold good_step, step. rewrite Ht. cbn [step_thread moves]. unfold enq_commit. cbn [ecall_of e_multi e_n].
    rewrite Z.eqb_refl. cbn [negb andb].
    split; [exists CT, (PT + 1); by apply enq_commit_step|]. eapply work_local; [done..|]. simpl. lia.
  - apply (good_stay s CT PT); [done| |by apply Z.eqb_neq]. unfold step. rewrite Ht. cbn [step_thread].
    unfold enq_commit. cbn [ecall_of e_multi]. destruct (Z.eqb_spec (prod_tail (sq s)) h); [done|]. by apply stay.
Qed.

Lemma good_deq_start s CT PT t : inv s CT PT -> threads s !! t = Some (DeqStart dcall_of) ->
  good_step s t (DeqStart dcall_of).
Proof.
  intros Hinv Ht. pose proof (deq_load_step _ _ _ _ Hinv Ht) as Hn.
  unfold good_step, step. rewrite Ht. cbn [step_thread moves]. split; [by exists CT, PT|].
  eapply work_local; [done..|]. unfold deq_load. repeat case_match; simpl; rewrite ?Z.eqb_refl; lia.
Qed.

Lemma good_deq_loaded s CT PT t h : inv s CT PT -> threads s !! t = Some (DeqLoaded dcall_of h) ->
  good_step s t (DeqLoaded dcall_of h).
Proof.
  intros Hinv Ht. unfold good_step, step. rewrite Ht. cbn [step_thread moves]. unfold deq_claim. cbn [dcall_of d_multi d_n].
  destruct (Z.eqb_spec (cons_head (sq s)) h) as [<-|Hne]; split.
  - exists CT, PT. by apply deq_claim_step.
  - eapply work_claim; [done| |done]. simpl. by rewrite Z.eqb_refl.
  - exists CT, PT. eapply local_step; try done.
    by destruct (in_threads _ _ _ Hinv _ _ Ht) as (Hop & _ & Hnew & _).
  - eapply work_local; [done..|]. simpl. destruct (Z.eqb_spec h (cons_head (sq s))); [congruence|lia].
Qed.

Lemma good_deq_claimed s CT PT t h : inv s CT PT -> threads s !! t = Some (DeqClaimed dcall_of h) ->
  good_step s t (DeqClaimed dcall_of h).
Proof.
  intros Hinv Ht. destruct (deq_read_step _ _ _ _ _ Hinv Ht) as (w & El & Hn).
  unfold good_step, step. rewrite Ht. cbn [step_thread moves]. unfold deq_read. cbn [dcall_of d_n]. rewrite El.
  split; [by exists CT, PT|]. eapply work_local; [done..|]. simpl. lia.
Qed.

Lemma good_deq_read s CT PT t h vs : inv s CT PT -> threads s !! t = Some (DeqRead dcall_of h vs) ->
  good_step s t (DeqRead dcall_of h vs).
Proof.
  intros Hinv Ht. destruct (Z.eqb_spec (cons_tail (sq s)) h) as [<-|Hne].
  - unfold good_step, step. rewrite Ht. cbn [step_thread moves]. unfold deq_commit. cbn [dcall_of d_multi d_n].
    rewrite Z.eqb_refl. cbn [negb andb].
    split; [exists (CT + 1), PT; by apply deq_commit_step|]. eapply work_local; [done..|]. simpl. lia.
  - apply (good_stay s CT PT); [done| |by apply Z.eqb_neq]. unfold step. rewrite Ht. cbn [step_thread].
    unfold deq_commit. cbn [dcall_of d_multi]. destruct (Z.eqb_spec (cons_tail (sq s)) h); [done|]. by apply stay.
Qed.

Lemma step_good s CT PT t th : inv s CT PT -> threads s !! t = Some th -> good_step s t th.
Proof.
  intros Hinv Ht. pose proof (in_threads _ _ _ Hinv _ _ Ht) as Hth.
  assert (Hd : is_done th = true -> good_step s t th).
  { intros Hd. apply (good_stay s CT PT); [done| |by destruct th].
    unfold step. rewrite Ht. by destruct th; try done; apply stay. }
  destruct th; simpl in Hth; try (by apply Hd); try done.
  - destruct Hth as (p & _ & -> & _). by eapply good_enq_start.
  - destruct Hth as (p & i & _ & -> & _). by eapply good_enq_loaded.
  - destruct Hth as (p & i & _ & -> & _). by eapply good_enq_claimed.
  - destruct Hth as (p & i & _ & -> & _). by eapply good_enq_written.
  - destruct Hth as (_ & -> & _). by eapply good_deq_start.
  - destruct Hth as (_ & -> & _). by eapply good_deq_loaded.
  - destruct Hth as (_ & -> & _). by eapply good_deq_claimed.
  - destruct Hth as (_ & -> & _). by eapply good_deq_read.
Qed.

Lemma step_inv s CT PT t : inv s CT PT -> exists CT' PT', inv (step s t) CT' PT'.
Proof.
  intros Hinv. destruct (threads s !! t) as [th|] eqn:Ht.
  - by destruct (step_good _ _ _ _ _ Hinv Ht).
  - exists CT, PT. unfold step. by rewrite Ht.
Qed.

Lemma run_inv schedule : forall s CT PT, inv s CT PT -> exists CT' PT', inv (run s schedule) CT' PT'.
Proof.
  induction schedule as [|t schedule IH]; intros s CT PT Hinv; simpl; [by exists CT, PT|].
  destruct (step_inv s CT PT t Hinv) as (CT1 & PT1 & H1). by eapply IH.
Qed.

(** Some thread moves until all are done. *)
Lemma some_moves s CT PT : inv s CT PT -> ~ finished s ->
  exists t th, threads s !! t = Some th /\ moves (sq s) th = true.
Proof.
  intros Hinv Hnf. pose proof Hinv as [].
  apply not_Forall_Exists in Hnf; [|intros th; apply _]. apply Exists_exists in Hnf as (th & Hin & Hd).
  apply list_elem_of_lookup in Hin as [t Ht]. pose proof (in_threads0 _ _ Ht) as Hth.
  destruct (moves (sq s) th) eqn:Hm; [by exists t, th|]. destruct th; simpl in Hth, Hd, Hm; try done.
  - destruct Hth as (p & i & _ & _ & _ & _ & Hi & Hpr & _). pose proof (producer_lt _ _ _ _ Hpr).
    destruct (producer_ex (elog s) PT ltac:(lia)) as (t' & p' & Hpr').
    specialize (in_producers0 PT t' p' ltac:(lia) Hpr'). destruct (threads s !! t') as [th'|] eqn:Ht'; [|done].
    exists t', th'. split; [done|]. destruct th'; simpl in *; try done. injection in_producers0 as ->. by apply Z.eqb_eq.
  - destruct Hth as (_ & _ & i & w & _ & Hi & Hc & _). pose proof (consumer_lt _ _ _ Hc).
    assert (Hex : exists t', consumer (dlog s) CT t').
    { destruct (lookup_lt_is_Some_2 (dlog s) (Z.to_nat (CT - b))) as [t' E]; [unfold Cpos in *; lia|].
      exists t'. split; [lia|done]. }
    destruct Hex as [t' Hc']. specialize (in_consumers0 CT t' ltac:(lia) Hc').
    destruct (threads s !! t') as [th'|] eqn:Ht'; [|done].
    exists t', th'. split; [done|]. destruct th'; simpl in *; try done. injection in_consumers0 as ->. by apply Z.eqb_eq.
Qed.

(** A part of a schedule that changes nothing has let no one move. *)
Lemma run_work sched : forall s CT PT, inv s CT PT ->
  (run s sched = s /\ forall t, t ∈ sched -> step s t = s) \/ (work (run s sched) < work s)%nat.
Proof.
  induction sched as [|t sched IH]; intros s CT PT Hinv; simpl.
  { left. split; [done|]. intros t Ht. by apply not_elem_of_nil in Ht. }
  destruct (step_inv s CT PT t Hinv) as (CT1 & PT1 & H1).
  assert (Hs : step s t = s \/ (work (step s t) < work s)%nat).
  { destruct (threads s !! t) as [th|] eqn:Ht.
    - destruct (step_good _ _ _ _ _ Hinv Ht) as [_ Hg]. destruct (moves (sq s) th); auto.
    - left. unfold step. by rewrite Ht. }
  destruct Hs as [Hs|Hs].
  - rewrite Hs. destruct (IH s CT PT Hinv) as [[Hr Ha]|Hr]; [left|by right].
    split; [done|]. intros t' Ht'. apply elem_of_cons in Ht' as [->|Ht']; [done|by apply Ha].
  - right. destruct (IH (step s t) CT1 PT1 H1) as [[-> _]|Hr]; lia.
Qed.

Lemma step_length s t : length (threads (step s t)) = length (threads s).
Proof. unfold step. destruct (threads s !! t) as [th|]; [|done]. destruct (step_thread (sq s) th). apply length_insert. Qed.

Lemma finished_step s t : finished s -> step s t = s.
Proof.
  intros Hf. unfold step. destruct (threads s !! t) as [th|] eqn:Ht; [|done].
  assert (Hd : is_done th = true) by (unfold finished in Hf; rewrite Forall_forall in Hf; apply Hf; by eapply list_elem_of_lookup_2).
  by destruct th; try done; apply stay.
Qed.

Lemma fair_finishes rounds : forall s CT PT, inv s CT PT ->
  Forall (fun r => forall t, (t < length ops)%nat -> t ∈ r) rounds -> (work s <= length rounds)%nat ->
  finished (run s (concat rounds)).
Proof.
  induction rounds as [|r rounds IH]; intros s CT PT Hinv Hf Hw.
  - destruct (decide (Forall (fun th => is_done th = true) (threads s))) as [|Hnf]; [done|]. exfalso.
    destruct (some_moves s CT PT Hinv Hnf) as (t & th & Ht & Hm).
    destruct (step_good _ _ _ _ _ Hinv Ht) as [_ Hg]. rewrite Hm in Hg. simpl in Hw. lia.
  - apply Forall_cons in Hf as [Hr Hf]. simpl concat. unfold run. rewrite foldl_app. fold (run s r).
    fold (run (run s r) (concat rounds)). destruct (run_inv r s CT PT Hinv) as (CT1 & PT1 & H1). simpl in Hw.
    destruct (run_work r s CT PT Hinv) as [[Hs Ha]|Hlt]; [|eapply IH; [done|done|lia]].
    rewrite Hs. destruct (decide (Forall (fun th => is_done th = true) (threads s))) as [Hfin|Hnf].
    + clear -Hfin. induction (concat rounds) as [|t l IHl]; [done|]. simpl. by rewrite finished_step.
    + destruct (some_moves s CT PT Hinv Hnf) as (t & th & Ht & Hm).
      destruct (step_good _ _ _ _ _ Hinv Ht) as [_ Hg]. rewrite Hm, Ha in Hg; [lia|]. apply Hr.
      rewrite <- (in_length _ _ _ Hinv). by apply lookup_lt_Some in Ht.
Qed.
End Invariant.

Lemma initial_inv q b ws ops : holds q b ws -> inv b ws (order q) ops (initial q ops) b (b + Z.of_nat (length ws)).
Proof.
  intros [Ho Hd Hs0 Hf [Hh1 Hh2] [Ht1 Ht2] Hw].
  assert (HH : Hpos b ws [] = b + Z.of_nat (length ws)) by (unfold Hpos, values; simpl; by rewrite app_nil_r).
  split; simpl; rewrite ?HH; unfold Cpos; simpl; rewrite ?Z.add_0_r; try done; try lia.
  - intros i w Hi [Hb Hv]. unfold values in Hv. simpl in Hv. rewrite app_nil_r in Hv.
    rewrite <- (Hw _ _ Hv). f_equal. f_equal. lia.
  - by intros i t p _ [_ Hp].
  - by intros i t _ [_ Hp].
  - by rewrite length_fmap.
  - constructor.
  - constructor.
  - intros t th Ht. rewrite list_lookup_fmap in Ht. destruct (ops !! t) as [[p|]|] eqn:E; [| |done];
      injection Ht as <-; simpl; [exists p|]; repeat split; try done; apply not_elem_of_nil.
Qed.

(** When all are done the queue holds what was enqueued and not dequeued. *)
Lemma finished_holds b ws o ops s CT PT : 0 <= o <= 31 -> 0 <= b -> inv b ws o ops s CT PT -> finished s ->
  holds (sq s) (b + Z.of_nat (length (dlog s))) (drop (length (dlog s)) (ws ++ (elog s).*2)).
Proof.
  intros Ho Hb [] Hf. unfold finished in Hf. rewrite Forall_forall in Hf. unfold Cpos in *.
  assert (HPT : PT = Hpos b ws (elog s)).
  { destruct (decide (PT = Hpos b ws (elog s))) as [|Hne]; [done|].
    destruct (producer_ex b ws (elog s) PT ltac:(lia)) as (t & p & Hp).
    specialize (in_producers0 PT t p ltac:(lia) Hp). destruct (threads s !! t) as [th|] eqn:Ht; [|done].
    apply list_elem_of_lookup_2, Hf in Ht. by destruct th. }
  assert (HCT : CT = b + Z.of_nat (length (dlog s))).
  { destruct (decide (CT = b + Z.of_nat (length (dlog s)))) as [|Hne]; [done|].
    destruct (lookup_lt_is_Some_2 (dlog s) (Z.to_nat (CT - b))) as [t Et]; [lia|].
    assert (Hc : consumer b (dlog s) CT t) by (split; [lia|done]).
    specialize (in_consumers0 CT t ltac:(lia) Hc). destruct (threads s !! t) as [th|] eqn:Ht; [|done].
    apply list_elem_of_lookup_2, Hf in Ht. by destruct th. }
  assert (HH : Hpos b ws (elog s) = b + Z.of_nat (length (ws ++ (elog s).*2))) by done.
  split; rewrite ?length_drop, ?in_order0; try done; try lia.
  - split; [done|]. by rewrite in_cons_tail0, HCT.
  - replace (b + Z.of_nat (length (dlog s)) + Z.of_nat (length (ws ++ (elog s).*2) - length (dlog s)))
      with (Hpos b ws (elog s)) by lia. split; [done|]. by rewrite in_prod_tail0, HPT.
  - intros i w Hi. rewrite lookup_drop in Hi. pose proof (lookup_lt_Some _ _ _ Hi). apply in_words0; [lia|].
    split; [lia|]. unfold values. rewrite <- Hi. f_equal. lia.
Qed.

Lemma initial_work q ops : work (initial q ops) = (length ops * (2 * length ops + 6))%nat.
Proof.
  unfold work, initial. cbn [sq threads]. rewrite length_fmap. generalize (length ops) at 1 3. intros n.
  induction ops as [|op l IH]; [done|]. rewrite fmap_cons. cbn [sum_list_with length]. rewrite IH. by destruct op.
Qed.

(** * Properties *)

(** C3: concurrent operations on a queue keep the order of a queue.  Whatever the
    interleaving of fewer than 2^31 operations on a queue that held [ws]: no
    assertion fails and no slot outside the array is used; each operation claims at
    most one position, an enqueue one for its own word; and the [k]th dequeue to
    claim a position returns the [k]th word of [ws] followed by the words enqueued,
    in the order of their claims, so no word is lost, overwritten or returned twice.
    A dequeue that reports an empty queue and an enqueue that reports a full one
    have claimed nothing. *)
Theorem concurrent_fifo q b ws ops schedule :
  holds q b ws -> Z.of_nat (length ops) < 2 ^ 31 ->
  let s := run (initial q ops) schedule in
  (forall t, threads s !! t <> Some Crashed) /\
  NoDup (elog s).*1 /\ NoDup (dlog s) /\ (length (dlog s) <= length ws + length (elog s))%nat /\
  (forall t p, (t, p) ∈ elog s -> ops !! t = Some (Some p)) /\
  (forall t c r, threads s !! t = Some (EnqDone c r) -> if r then (t, e_p c) ∈ elog s else t ∉ (elog s).*1) /\
  (forall t c vs, threads s !! t = Some (DeqDone c vs) ->
     (vs = [INVALID_ADDRESS] /\ t ∉ dlog s) \/
     exists k w, dlog s !! k = Some t /\ (ws ++ (elog s).*2) !! k = Some w /\ vs = [w]).
Proof.
  intros Hq Hops s. pose proof (initial_inv q b ws ops Hq) as Hinit. destruct Hq as [Ho _ Hb Hws _ _ _].
  destruct (run_inv b ws (order q) ops Ho Hws Hops schedule _ _ _ Hinit) as (CT & PT & Hinv).
  fold s in Hinv. destruct Hinv. split; [|split; [done|split; [done|split; [|split; [|split]]]]].
  - intros t Ht. by apply in_threads0 in Ht.
  - revert in_positions0. rewrite Hpos_elog. unfold Cpos. lia.
  - intros t p Hin. rewrite Forall_forall in in_elog_ops0. by apply (in_elog_ops0 (t, p)).
  - intros t c r Ht. destruct (in_threads0 _ _ Ht) as (p & _ & -> & Hr). destruct r; [|done].
    destruct Hr as (i & _ & _ & Hl). by apply list_elem_of_lookup_2 in Hl.
  - intros t c vs Ht. destruct (in_threads0 _ _ Ht) as (_ & _ & [Hn|Hs]); [by left|right].
    destruct Hs as (i & w & _ & [_ Hc] & [_ Hw] & ->). by exists (Z.to_nat (i - b)), w.
Qed.

Definition sample_schedule : list nat := [0; 1; 1; 0; 1; 1; 0; 0; 2; 3; 3; 2; 0; 0; 0; 2; 2; 3; 2; 2; 3; 3; 2; 2]%nat.

Lemma concurrent_fifo_witness :
  let s := run (initial (queue_init 2) [Some 7; Some 8; None; None]) sample_schedule in
  threads s !! 2%nat = Some (DeqDone dcall_of [7]) /\
  ((@cons Z 7 [] = [INVALID_ADDRESS] /\ 2%nat ∉ dlog s) \/
   exists k w, dlog s !! k = Some 2%nat /\ ([] ++ (elog s).*2) !! k = Some w /\ @cons Z 7 [] = [w]).
Proof.
  intros s. split; [by vm_compute|].
  refine (proj2 (proj2 (proj2 (proj2 (proj2 (proj2
    (concurrent_fifo (queue_init 2) 0 [] [Some 7; Some 8; None; None] sample_schedule _ _)))))) 2%nat dcall_of [7] _).
  - by apply queue_init_holds.
  - done.
  - by vm_compute.
Defined.

(** C19: every operation completes under a fair schedule.  With [n] operations, a
    schedule of [n * (2 * n + 6)] parts in each of which every operation is given a
    step brings all of them to their end, whatever the order and the number of steps
    in a part, and leaves a queue that holds the words enqueued and not dequeued. *)
Theorem fair_completion q b ws ops rounds :
  holds q b ws -> Z.of_nat (length ops) < 2 ^ 31 ->
  Forall (fun r => forall t, (t < length ops)%nat -> t ∈ r) rounds ->
  (length ops * (2 * length ops + 6) <= length rounds)%nat ->
  let s := run (initial q ops) (concat rounds) in
  finished s /\
  holds (sq s) (b + Z.of_nat (length (dlog s))) (drop (length (dlog s)) (ws ++ (elog s).*2)).
Proof.
  intros Hq Hops Hf Hr s. pose proof (initial_inv q b ws ops Hq) as Hinit. destruct Hq as [Ho _ Hb Hws _ _ _].
  assert (Hfin : finished s).
  { eapply (fair_finishes b ws (order q) ops); try done. etransitivity; [|exact Hr]. by rewrite initial_work. }
  split; [done|].
  destruct (run_inv b ws (order q) ops Ho Hws Hops (concat rounds) _ _ _ Hinit) as (CT & PT & Hinv).
  by eapply finished_holds.
Qed.

Lemma fair_completion_witness :
  let s := run (initial (queue_init 2) [Some 7; Some 8; None; None]) (concat (replicate 56 [3; 0; 2; 1]%nat)) in
  finished s /\ holds (sq s) (0 + Z.of_nat (length (dlog s))) (drop (length (dlog s)) ([] ++ (elog s).*2)).
Proof.
  apply (fair_completion (queue_init 2) 0 [] [Some 7; Some 8; None; None] (replicate 56 [3; 0; 2; 1]%nat)).
  - by apply queue_init_holds.
  - done.
  - apply Forall_replicate. intros t Ht. simpl in Ht. rewrite !elem_of_cons. lia.
  - simpl. lia.
Defined.
