(* ===== verification/Mutex.v ===== *)
(** Mutexes: [kernel/src/kernel/mutex.c].

    A mutex is taken in two phases.  A context that wants it joins a queue of
    processors (an MCS lock), in which each spins on a flag of its own; the first of
    the queue spins on the mutex itself ([turn]).  A processor that has spun long
    enough leaves the queue from wherever it is, and its context joins the list of
    waiters and is suspended, to be resumed by an unlock.

    Any number of contexts run [mutex_lock], [mutex_try_lock] and [mutex_unlock] on one
    mutex, a step for each access to memory that others may change ([step]); the place of a context in
    the code, with its local variables, is a [pc].  The fields [mcs_next], [mcs_prev] and
    [mcs_waiting] belong to processors; a context that enters runs on any processor that
    is not in the queue, since contexts move between processors when they are
    suspended, but not while they are in the queue.  Memory is sequentially consistent,
    which is what the barriers and the atomic operations of the code are for.  The list
    of waiters is accessed under its spinlock only and is a list of contexts; a context
    is resumed as soon as its return is scheduled.  The counters of statistics are left
    out. *)

From stdpp Require Import functions.
From S2P Require Import Prelude.

Abbreviation cpu := nat (only parsing).
Abbreviation ctx := nat (only parsing).

(** ** The program *)

(** What follows [mcs_unlock]: the lock is held, [mutex_try_lock] returns false, or the
    context joins the waiters. *)
Inductive after := ThenHeld | ThenFail | ThenWait.

(** The two callers of [mutex_get_next]: one that leaves the queue behind [p], and [mcs_unlock]. *)
Inductive caller := Leave (p : cpu) | Release (k : after).

Inductive pc :=
  | Idle | Crit
  (* mutex_lock_internal, wait false *)
  | TryTail (c : cpu) | TryTurn (c : cpu)
  (* wait true *)
  | LWaiting (c : cpu) | LSwap (c : cpu) | LAlone (c : cpu) | LPrev (c p : cpu) | LNext (c p : cpu) | LSpin (c p : cpu) (n : Z)
  (* step A *)
  | AGet (c p : cpu) | ACas (c p : cpu) | AFlag (c : cpu) | APrev (c : cpu)
  (* mutex_get_next, steps B and C *)
  | GTail (c : cpu) (g : caller) | GCas (c : cpu) (g : caller) | GNext (c : cpu) (g : caller) | GSwap (c : cpu) (g : caller)
  | CPrev (c p n : cpu) | CNext (c p n : cpu) | COut (c : cpu)
  (* wait *)
  | WMark | WLock | WTurn | WHeld | WDone | WInsert | WFree | WSuspend | Suspended
  (* acquire; on the queue with processor [c], or not *)
  | QGet (c : option cpu) (n : Z) | QCas (c : option cpu) (n : Z)
  (* mcs_unlock *)
  | UTail (c : cpu) (k : after) | USwap (c : cpu) (k : after) | UGrant (c n : cpu) (k : after)
  (* mutex_unlock *)
  | VTurn | VLock | VPop | VFree (n : option ctx) | VMark (n : ctx) | VFrame (n : ctx) | VReturn (n : ctx).

Record state := {
  turn : option ctx;
  mcs_tail : option cpu;
  mcs_next : cpu -> option cpu;
  mcs_prev : cpu -> option cpu;
  mcs_waiting : cpu -> bool;
  waiters_lock : bool;
  waiters : list ctx;
  waiting_on : ctx -> bool;
  pcs : list pc;
}.

(** The processor a context occupies while it is in the queue, entering it or leaving it. *)
Definition cpu_of (p : pc) : option cpu :=
  match p with
  | TryTail c | TryTurn c | LWaiting c | LSwap c | LAlone c | LPrev c _ | LNext c _ | LSpin c _ _ | AGet c _ | ACas c _
  | AFlag c | APrev c | GTail c _ | GCas c _ | GNext c _ | GSwap c _ | CPrev c _ _ | CNext c _ _ | COut c
  | UTail c _ | USwap c _ | UGrant c _ _ => Some c
  | QGet c _ | QCas c _ => c
  | _ => None
  end.

(** What a context does next: the entries of the interface, or the next step of one. *)
Inductive action := Lock (c : cpu) | TryLock (c : cpu) | Unlock | Go.

Inductive result := Next (s : state) | Disabled | Failed.

Section Steps.
Context (spin_iterations MUTEX_ACQUIRE_SPIN_LIMIT : Z).

Definition goto (s : state) (t : ctx) (p : pc) : state :=
  {| turn := turn s; mcs_tail := mcs_tail s; mcs_next := mcs_next s; mcs_prev := mcs_prev s; mcs_waiting := mcs_waiting s;
     waiters_lock := waiters_lock s; waiters := waiters s; waiting_on := waiting_on s; pcs := <[t := p]> (pcs s) |}.
Definition set_turn (s : state) (x : option ctx) : state :=
  {| turn := x; mcs_tail := mcs_tail s; mcs_next := mcs_next s; mcs_prev := mcs_prev s; mcs_waiting := mcs_waiting s;
     waiters_lock := waiters_lock s; waiters := waiters s; waiting_on := waiting_on s; pcs := pcs s |}.
Definition set_tail (s : state) (x : option cpu) : state :=
  {| turn := turn s; mcs_tail := x; mcs_next := mcs_next s; mcs_prev := mcs_prev s; mcs_waiting := mcs_waiting s;
     waiters_lock := waiters_lock s; waiters := waiters s; waiting_on := waiting_on s; pcs := pcs s |}.
Definition set_next (s : state) (c : cpu) (x : option cpu) : state :=
  {| turn := turn s; mcs_tail := mcs_tail s; mcs_next := <[c := x]> (mcs_next s); mcs_prev := mcs_prev s;
     mcs_waiting := mcs_waiting s; waiters_lock := waiters_lock s; waiters := waiters s; waiting_on := waiting_on s; pcs := pcs s |}.
Definition set_prev (s : state) (c : cpu) (x : option cpu) : state :=
  {| turn := turn s; mcs_tail := mcs_tail s; mcs_next := mcs_next s; mcs_prev := <[c := x]> (mcs_prev s);
     mcs_waiting := mcs_waiting s; waiters_lock := waiters_lock s; waiters := waiters s; waiting_on := waiting_on s; pcs := pcs s |}.
Definition set_waiting (s : state) (c : cpu) (x : bool) : state :=
  {| turn := turn s; mcs_tail := mcs_tail s; mcs_next := mcs_next s; mcs_prev := mcs_prev s;
     mcs_waiting := <[c := x]> (mcs_waiting s); waiters_lock := waiters_lock s; waiters := waiters s;
     waiting_on := waiting_on s; pcs := pcs s |}.
Definition set_waiters (s : state) (lock : bool) (l : list ctx) : state :=
  {| turn := turn s; mcs_tail := mcs_tail s; mcs_next := mcs_next s; mcs_prev := mcs_prev s; mcs_waiting := mcs_waiting s;
     waiters_lock := lock; waiters := l; waiting_on := waiting_on s; pcs := pcs s |}.
Definition set_waiting_on (s : state) (t : ctx) (x : bool) : state :=
  {| turn := turn s; mcs_tail := mcs_tail s; mcs_next := mcs_next s; mcs_prev := mcs_prev s; mcs_waiting := mcs_waiting s;
     waiters_lock := waiters_lock s; waiters := waiters s; waiting_on := <[t := x]> (waiting_on s); pcs := pcs s |}.

(** The label [acquire], with or without a place in the queue. *)
Definition acquire (c : option cpu) : pc := QGet c MUTEX_ACQUIRE_SPIN_LIMIT.

Definition after_unlock (k : after) : pc := match k with ThenHeld => Crit | ThenFail => Idle | ThenWait => WMark end.

(** Where [mutex_get_next] returns to. *)
Definition got_none (c : cpu) (g : caller) : pc := match g with Leave _ => COut c | Release k => after_unlock k end.
Definition got_next (c : cpu) (g : caller) (n : cpu) : pc :=
  match g with Leave p => CPrev c p n | Release k => UGrant c n k end.
Definition rewind (g : caller) : option cpu := match g with Leave p => Some p | Release _ => None end.

(** The entry of [mutex_lock_internal], on a processor that no context in the queue occupies. *)
Definition enter (s : state) (t : ctx) (c : cpu) (p : pc) : result :=
  if bool_decide (Forall (fun q => cpu_of q <> Some c) (pcs s)) then
    if bool_decide (turn s = Some t) then Failed
    else if waiting_on s t then Failed
    else Next (goto s t p)
  else Disabled.

Definition frame_is_full (s : state) (n : ctx) : bool := match pcs s !! n with Some Suspended => true | _ => false end.

(** [mutex_get_next]. *)
Definition get_next_step (s : state) (t : ctx) (p : pc) : result :=
  match p with
  | GTail c g => Next (goto s t (if bool_decide (mcs_tail s = Some c) then GCas c g else GNext c g))
  | GCas c g =>
      if bool_decide (mcs_tail s = Some c) then Next (goto (set_tail s (rewind g)) t (got_none c g)) else Next (goto s t (GNext c g))
  | GNext c g => Next (goto s t (match mcs_next s c with Some _ => GSwap c g | None => GTail c g end))
  | GSwap c g => Next (goto (set_next s c None) t (match mcs_next s c with Some n => got_next c g n | None => GTail c g end))
  | _ => Disabled
  end.

(** [mcs_unlock]. *)
Definition mcs_unlock_step (s : state) (t : ctx) (p : pc) : result :=
  match p with
  | UTail c k =>
      if bool_decide (mcs_tail s = Some c) then Next (goto (set_tail s None) t (after_unlock k)) else Next (goto s t (USwap c k))
  | USwap c k =>
      Next (goto (set_next s c None) t (match mcs_next s c with Some n => UGrant c n k | None => GTail c (Release k) end))
  | UGrant c n k => Next (goto (set_waiting s n false) t (after_unlock k))
  | _ => Disabled
  end.

(** [mutex_lock_internal]. *)
Definition lock_step (s : state) (t : ctx) (p : pc) : result :=
  match p with
  (* the lock is only tried *)
  | TryTail c =>
      match mcs_tail s with
      | Some _ => Next (goto s t Idle)
      | None => Next (goto (set_tail s (Some c)) t (TryTurn c))
      end
  | TryTurn c =>
      match turn s with
      | Some _ => Next (goto s t (UTail c ThenFail))
      | None => Next (goto (set_turn s (Some t)) t (UTail c ThenHeld))
      end
  (* joining the queue *)
  | LWaiting c => Next (goto (set_waiting s c true) t (LSwap c))
  | LSwap c => Next (goto (set_tail s (Some c)) t (match mcs_tail s with None => LAlone c | Some p => LPrev c p end))
  | LAlone c => Next (goto (set_waiting s c false) t (acquire (Some c)))
  | LPrev c p => Next (goto (set_prev s c (Some p)) t (LNext c p))
  | LNext c p => Next (goto (set_next s p (Some c)) t (LSpin c p spin_iterations))
  | LSpin c p n =>
      if 0 <? n then Next (goto s t (if mcs_waiting s c then LSpin c p (n - 1) else acquire (Some c)))
      else Next (goto s t (AGet c p))
  (* leaving it *)
  | AGet c p => Next (goto s t (if bool_decide (mcs_next s p = Some c) then ACas c p else AFlag c))
  | ACas c p =>
      if bool_decide (mcs_next s p = Some c) then Next (goto (set_next s p None) t (GTail c (Leave p))) else Next (goto s t (AFlag c))
  | AFlag c => Next (goto s t (if mcs_waiting s c then APrev c else acquire (Some c)))
  | APrev c => match mcs_prev s c with Some p => Next (goto s t (AGet c p)) | None => Failed end
  | CPrev c p n => Next (goto (set_prev s n (Some p)) t (CNext c p n))
  | CNext c p n => Next (goto (set_next s p (Some n)) t (COut c))
  | COut c => Next (goto (set_waiting s c false) t WMark)
  (* waiting *)
  | WMark => Next (goto (set_waiting_on s t true) t WLock)
  | WLock => if waiters_lock s then Next s else Next (goto (set_waiters s true (waiters s)) t WTurn)
  | WTurn =>
      match turn s with Some _ => Next (goto s t WInsert) | None => Next (goto (set_turn s (Some t)) t WHeld) end
  | WHeld => Next (goto (set_waiting_on s t false) t WDone)
  | WDone => Next (goto (set_waiters s false (waiters s)) t Crit)
  | WInsert => Next (goto (set_waiters s true (waiters s ++ [t])) t WFree)
  | WFree => Next (goto (set_waiters s false (waiters s)) t WSuspend)
  | WSuspend => Next (goto s t Suspended)
  (* taking the mutex *)
  | QGet c n =>
      if 0 <? n then Next (goto s t (match turn s with Some _ => QGet c (n - 1) | None => QCas c n end))
      else Next (goto s t (match c with Some c => UTail c ThenWait | None => acquire None end))
  | QCas c n =>
      match turn s with
      | Some _ => Next (goto s t (QGet c (n - 1)))
      | None => Next (goto (set_turn s (Some t)) t (match c with Some c => UTail c ThenHeld | None => Crit end))
      end
  | _ => Disabled
  end.

(** [mutex_unlock]. *)
Definition unlock_step (s : state) (t : ctx) (p : pc) : result :=
  match p with
  | VTurn => Next (goto (set_turn s None) t VLock)
  | VLock => if waiters_lock s then Next s else Next (goto (set_waiters s true (waiters s)) t VPop)
  | VPop =>
      match waiters s with
      | [] => Next (goto s t (VFree None))
      | n :: l => Next (goto (set_waiters s true l) t (VFree (Some n)))
      end
  | VFree n => Next (goto (set_waiters s false (waiters s)) t (match n with Some n => VMark n | None => Idle end))
  | VMark n => if waiting_on s n then Next (goto (set_waiting_on s n false) t (VFrame n)) else Failed
  | VFrame n => if frame_is_full s n then Next (goto s t (VReturn n)) else Next s
  | VReturn n => Next (goto (goto s n (acquire None)) t Idle)
  | _ => Disabled
  end.

Definition go (s : state) (t : ctx) (p : pc) : result :=
  match p with
  | GTail _ _ | GCas _ _ | GNext _ _ | GSwap _ _ => get_next_step s t p
  | UTail _ _ | USwap _ _ | UGrant _ _ _ => mcs_unlock_step s t p
  | VTurn | VLock | VPop | VFree _ | VMark _ | VFrame _ | VReturn _ => unlock_step s t p
  | _ => lock_step s t p
  end.

(** One step of context [t].  The assertion at the start of [mutex_unlock] is part of its entry. *)
Definition step (s : state) (t : ctx) (a : action) : result :=
  match pcs s !! t, a with
  | Some Idle, Lock c => enter s t c (LWaiting c)
  | Some Idle, TryLock c => enter s t c (TryTail c)
  | Some Crit, Unlock => if bool_decide (turn s = Some t) then Next (goto s t VTurn) else Failed
  | Some p, Go => go s t p
  | _, _ => Disabled
  end.

(** [mutex_init], with [n] contexts. *)
Definition mutex_init (n : nat) : state :=
  {| turn := None; mcs_tail := None; mcs_next := fun _ => None; mcs_prev := fun _ => None; mcs_waiting := fun _ => false;
     waiters_lock := false; waiters := []; waiting_on := fun _ => false; pcs := replicate n Idle |}.

(** The states that some interleaving leads to. *)
Inductive reachable (n : nat) : state -> Prop :=
  | reach_init : reachable n (mutex_init n)
  | reach_step s t a s' : reachable n s -> step s t a = Next s' -> reachable n s'.
End Steps.
