(* ===== verification/MutexSafe.v ===== *)
(** Mutexes: the queue of processors, mutual exclusion and wake-ups.

    The invariant of the queue is about the roles contexts have in it, which forget
    what the queue does not depend on; the queue itself is a list of processors that
    no variable of the program holds. *)

From stdpp Require Import functions.
From S2P Require Import Prelude Mutex.

(** ** Neighbours in a list *)

Definition adj (Q : list nat) (x y : nat) : Prop := exists i, Q !! i = Some x /\ Q !! S i = Some y.

Lemma adj_pred Q x x' y : NoDup Q -> adj Q x y -> adj Q x' y -> x = x'.
Proof.
  intros Hnd (i & Hx & Hy) (j & Hx' & Hy'). assert (S i = S j) as [= <-] by (by eapply NoDup_lookup). congruence.
Qed.

Lemma adj_succ Q x y y' : NoDup Q -> adj Q x y -> adj Q x y' -> y = y'.
Proof. intros Hnd (i & Hx & Hy) (j & Hx' & Hy'). assert (i = j) as <- by (by eapply NoDup_lookup). congruence. Qed.

Lemma adj_head Q x y : NoDup Q -> adj Q x y -> head Q <> Some y.
Proof.
  intros Hnd (i & Hx & Hy) Hh. rewrite head_lookup in Hh. by assert (S i = 0%nat) by (by eapply NoDup_lookup).
Qed.

Lemma adj_ne Q x y : NoDup Q -> adj Q x y -> x <> y.
Proof. intros Hnd (i & Hx & Hy) ->. assert (i = S i) by (by eapply NoDup_lookup). lia. Qed.

Lemma adj_in Q x y : adj Q x y -> x ∈ Q /\ y ∈ Q.
Proof. intros (i & Hx & Hy). split; by eapply list_elem_of_lookup_2. Qed.

Lemma adj_last Q x y : NoDup Q -> adj Q x y -> last Q <> Some x.
Proof.
  intros Hnd (i & Hx & Hy) Hl. rewrite last_lookup in Hl. assert (i = pred (length Q)) as -> by (by eapply NoDup_lookup).
  apply lookup_lt_Some in Hy. lia.
Qed.

Lemma adj_nil x y : ~ adj [] x y.
Proof. by intros (i & ? & ?). Qed.

Lemma adj_snoc Q c x y : adj Q x y -> adj (Q ++ [c]) x y.
Proof. intros (i & Hx & Hy). exists i. split; by apply lookup_app_l_Some. Qed.

Lemma adj_snoc_last Q c x : last Q = Some x -> adj (Q ++ [c]) x c.
Proof.
  intros Hl. rewrite last_lookup in Hl. exists (pred (length Q)). split; [by apply lookup_app_l_Some|].
  apply lookup_lt_Some in Hl. rewrite lookup_app_r by lia. by replace (S (pred (length Q)) - length Q)%nat with 0%nat by lia.
Qed.

(** Every member but the first has a predecessor. *)
Lemma adj_exists Q c : c ∈ Q -> head Q = Some c \/ exists p, adj Q p c.
Proof.
  intros (i & Hi)%list_elem_of_lookup. destruct i as [|i]; [left; by rewrite head_lookup|]. right.
  destruct (lookup_lt_is_Some_2 Q i) as [p Hp]; [apply lookup_lt_Some in Hi; lia|]. by exists p, i.
Qed.

(** *** Taking a member out *)

Definition remove (c : nat) (Q : list nat) : list nat := filter (fun x => x <> c) Q.

Lemma remove_in c Q x : x ∈ remove c Q <-> x ∈ Q /\ x <> c.
Proof. unfold remove. rewrite list_elem_of_filter. tauto. Qed.

Lemma remove_nodup c Q : NoDup Q -> NoDup (remove c Q).
Proof. apply NoDup_filter. Qed.

Lemma remove_absent c Q : c ∉ Q -> remove c Q = Q.
Proof.
  induction Q as [|x Q IH]; [done|]. intros [Hx HQ]%not_elem_of_cons. unfold remove in *.
  rewrite filter_cons_True by congruence. by rewrite IH.
Qed.

Lemma remove_split Q1 c Q2 : NoDup (Q1 ++ c :: Q2) -> remove c (Q1 ++ c :: Q2) = Q1 ++ Q2.
Proof.
  intros Hnd. apply NoDup_app in Hnd as (_ & Hd & Hnd). apply NoDup_cons in Hnd as [Hc _].
  unfold remove. rewrite filter_app, filter_cons_False by tauto. fold (remove c Q1) (remove c Q2).
  rewrite !remove_absent; [done|done|]. intros Hx. apply (Hd c Hx). by left.
Qed.

Lemma adj_split Q x y : adj Q x y <-> exists Q1 Q2, Q = Q1 ++ x :: y :: Q2.
Proof.
  split.
  - intros (i & Hx & Hy). exists (take i Q), (drop (S (S i)) Q).
    by rewrite <- (drop_S Q y (S i)), <- (drop_S Q x i), take_drop.
  - intros (Q1 & Q2 & ->). exists (length Q1). split.
    + by rewrite list_lookup_middle.
    + rewrite lookup_app_r by lia. by replace (S (length Q1) - length Q1)%nat with 1%nat by lia.
Qed.

(** Pairs without [c] stay neighbours. *)
Lemma adj_remove c Q x y : adj Q x y -> x <> c -> y <> c -> adj (remove c Q) x y.
Proof.
  rewrite !adj_split. intros (Q1 & Q2 & ->) Hx Hy. exists (remove c Q1), (remove c Q2). unfold remove.
  by rewrite filter_app, !filter_cons_True.
Qed.

(** The neighbours of [c] become neighbours. *)
Lemma adj_remove_middle Q p c n : NoDup Q -> adj Q p c -> adj Q c n -> adj (remove c Q) p n.
Proof.
  intros Hnd Hpc Hcn. pose proof (adj_ne _ _ _ Hnd Hpc). apply adj_split in Hpc as (Q1 & Q2 & ->).
  destruct Q2 as [|n' Q2].
  { exfalso. apply (adj_last _ _ _ Hnd Hcn). by rewrite last_app. }
  assert (n = n') as <-.
  { eapply adj_succ; [exact Hnd|done|]. apply adj_split. exists (Q1 ++ [p]), Q2. by rewrite <- app_assoc. }
  change (Q1 ++ p :: c :: n :: Q2) with (Q1 ++ [p] ++ c :: n :: Q2) in *. rewrite app_assoc in Hnd |- *.
  rewrite remove_split by done. apply adj_split. exists Q1, Q2. by rewrite <- app_assoc.
Qed.

Lemma remove_cons c Q : NoDup (c :: Q) -> remove c (c :: Q) = Q.
Proof. apply (remove_split []). Qed.

Lemma remove_last Q p c : NoDup Q -> adj Q p c -> last Q = Some c -> last (remove c Q) = Some p.
Proof.
  intros Hnd Hpc Hl. apply adj_split in Hpc as (Q1 & Q2 & ->). destruct Q2 as [|n Q2].
  - change (Q1 ++ [p; c]) with (Q1 ++ [p] ++ [c]) in *. rewrite app_assoc in Hnd |- *. rewrite remove_split by done.
    by rewrite app_nil_r, last_snoc.
  - exfalso. eapply (adj_last _ c n); [exact Hnd| |done]. apply adj_split. exists (Q1 ++ [p]), Q2. by rewrite <- app_assoc.
Qed.

Lemma remove_other_last Q c x : last Q = Some x -> x <> c -> last (remove c Q) = Some x.
Proof.
  intros Hl Hx. apply last_Some in Hl as [Q1 ->]. unfold remove. rewrite filter_app, filter_cons_True, filter_nil by done. by rewrite last_snoc.
Qed.

Lemma remove_other_head Q c x : head Q = Some x -> x <> c -> head (remove c Q) = Some x.
Proof. destruct Q as [|y Q]; [done|]. intros [= ->] Hx. unfold remove. by rewrite filter_cons_True. Qed.

Lemma remove_head Q c n : NoDup Q -> head Q = Some c -> adj Q c n -> head (remove c Q) = Some n.
Proof.
  intros Hnd Hh Hcn. destruct Q as [|y Q]; [done|]. injection Hh as ->. rewrite remove_cons by done.
  destruct Hcn as (i & Hi & Hn). assert (i = 0%nat) as -> by (by eapply (NoDup_lookup _ _ 0)). by rewrite head_lookup.
Qed.

Lemma remove_only Q c : NoDup Q -> head Q = Some c -> last Q = Some c -> remove c Q = [].
Proof.
  intros Hnd Hh Hl. destruct Q as [|y [|n Q]]; [done| |].
  - injection Hh as ->. by rewrite remove_cons.
  - injection Hh as ->. exfalso. eapply (adj_last _ c n); [done|by exists 0%nat|done].
Qed.

(** ** The queue *)

(** The role of a processor: outside; claimed by a context but not in the queue (the flag:
    its [mcs_waiting] is set); first of the queue; not yet linked to its predecessor [p] (the
    flag: the back link is written); waiting; cut off from its predecessor, to leave;
    joining its neighbours after it left (the flag: the back link is written); handing
    the first place to the next. *)
Inductive role :=
  | ROut | RHeld (ready : bool) | ROwner | RNotYet (p : nat) (linked : bool) | RWaiter
  | RCut (p : nat) | RRelink (p n : nat) (linked : bool) | RGrant (n : nat).

#[export] Instance role_eq_dec : EqDecision role.
Proof. solve_decision. Defined.

Definition queued (r : role) : bool := match r with ROwner | RNotYet _ _ | RWaiter | RCut _ => true | _ => false end.

Definition role_of (p : pc) : role :=
  match p with
  | TryTail _ | LWaiting _ | COut _ => RHeld false
  | LSwap _ => RHeld true
  | TryTurn _ | LAlone _ | UTail _ _ | USwap _ _ | QGet (Some _) _ | QCas (Some _) _
  | GTail _ (Release _) | GCas _ (Release _) | GNext _ (Release _) | GSwap _ (Release _) => ROwner
  | LPrev _ p => RNotYet p false
  | LNext _ p => RNotYet p true
  | LSpin _ _ _ | AGet _ _ | ACas _ _ | AFlag _ | APrev _ => RWaiter
  | GTail _ (Leave p) | GCas _ (Leave p) | GNext _ (Leave p) | GSwap _ (Leave p) => RCut p
  | CPrev _ p n => RRelink p n false
  | CNext _ p n => RRelink p n true
  | UGrant _ n _ => RGrant n
  | _ => ROut
  end.

(** A processor that waits is the first, with the place given to it or about to be, or it is
    linked to its predecessor, or about to be. *)
Definition waiter_ok (Q : list nat) (next prev : nat -> option nat) (waiting : nat -> bool) (ro : nat -> role) (c : nat) : Prop :=
  is_Some (prev c) /\
  (head Q = Some c /\ (waiting c = false \/ exists x, ro x = RGrant c) \/
   exists p, adj Q p c /\ waiting c = true /\ (next p = Some c /\ prev c = Some p \/ exists x b, ro x = RRelink p c b)).

Record queue_ok (Q : list nat) (tail : option nat) (next prev : nat -> option nat) (waiting : nat -> bool) (ro : nat -> role) : Prop := {
  qo_nodup : NoDup Q;
  qo_tail : tail = last Q;
  qo_in : forall c, c ∈ Q <-> queued (ro c) = true;
  qo_next : forall x y, next x = Some y -> adj Q x y;
  qo_held : forall c, ro c = RHeld true -> waiting c = true;
  qo_owner : forall c, ro c = ROwner -> head Q = Some c;
  qo_notyet : forall c p b, ro c = RNotYet p b -> adj Q p c /\ next p = None /\ waiting c = true /\ (b = true -> prev c = Some p);
  qo_cut : forall c p, ro c = RCut p -> adj Q p c /\ next p = None /\ waiting c = true;
  qo_relink : forall x p n b, ro x = RRelink p n b ->
    adj Q p n /\ next p = None /\ waiting n = true /\ ro n = RWaiter /\ (b = true -> prev n = Some p);
  qo_relink_one : forall x1 x2 p1 p2 n b1 b2, ro x1 = RRelink p1 n b1 -> ro x2 = RRelink p2 n b2 -> x1 = x2;
  qo_grant : forall x n, ro x = RGrant n -> head Q = Some n /\ waiting n = true /\ ro n = RWaiter;
  qo_grant_one : forall x1 x2 n1 n2, ro x1 = RGrant n1 -> ro x2 = RGrant n2 -> x1 = x2;
  qo_waiter : forall c, ro c = RWaiter -> waiter_ok Q next prev waiting ro c;
}.

Lemma waiter_mono Q Q' next next' prev prev' waiting waiting' ro ro' c : waiter_ok Q next prev waiting ro c ->
  (head Q = Some c -> head Q' = Some c) -> (forall p, adj Q p c -> adj Q' p c) -> (forall p, next p = Some c -> next' p = Some c) ->
  prev' c = prev c -> waiting' c = waiting c -> (forall x, ro x = RGrant c -> ro' x = RGrant c) ->
  (forall x p b, ro x = RRelink p c b -> ro' x = RRelink p c b) -> waiter_ok Q' next' prev' waiting' ro' c.
Proof.
  intros [Hp Hw] Hh Ha Hn Ep Ew Hg Hr. split; [by rewrite Ep|]. rewrite Ew, Ep. destruct Hw as [[E Hw]|(p & Hadj & E & Hl)].
  - left. split; [auto|]. destruct Hw as [Hw|[x Hx]]; [by left|right; eauto].
  - right. exists p. split; [auto|]. split; [done|]. destruct Hl as [[]|(x & b & Hx)]; [left; auto|right; eauto].
Qed.

(** Which role, flag or link of a changed function is the new one. *)
Ltac fn :=
  repeat match goal with
  | H : context [<[?a := _]> _ ?x] |- _ =>
      destruct (decide (a = x)) as [?|?];
      [subst; rewrite fn_lookup_insert in H|rewrite (fn_lookup_insert_ne _ a) in H by done]
  | |- context [<[?a := _]> _ ?x] =>
      destruct (decide (a = x)) as [?|?]; [subst; rewrite fn_lookup_insert|rewrite (fn_lookup_insert_ne _ a) by done]
  end; simplify_eq/=.

Create HintDb mutex.
#[export] Hint Resolve adj_snoc adj_remove remove_other_head : mutex.

(** What the invariant says of the roles and links in sight. *)
Ltac q_facts HQ :=
  repeat match goal with
  | E : _ = RHeld true |- _ => learn_hyp (qo_held _ _ _ _ _ _ HQ _ E)
  | E : _ = ROwner |- _ => learn_hyp (qo_owner _ _ _ _ _ _ HQ _ E)
  | E : _ = RNotYet _ _ |- _ => learn_hyp (qo_notyet _ _ _ _ _ _ HQ _ _ _ E)
  | E : _ = RCut _ |- _ => learn_hyp (qo_cut _ _ _ _ _ _ HQ _ _ E)
  | E : _ = RRelink _ _ _ |- _ => learn_hyp (qo_relink _ _ _ _ _ _ HQ _ _ _ _ E)
  | E : _ = RGrant _ |- _ => learn_hyp (qo_grant _ _ _ _ _ _ HQ _ _ E)
  | E : _ = Some _ |- _ => learn_hyp (qo_next _ _ _ _ _ _ HQ _ _ E)
  end; destruct_and?.

(** Neighbours are unique, and the first has no predecessor. *)
Ltac q_unify HQ :=
  let Hnd := fresh in pose proof (qo_nodup _ _ _ _ _ _ HQ) as Hnd;
  repeat match goal with
  | A : adj ?Q ?x ?y, B : adj ?Q ?x' ?y |- _ =>
      lazymatch x with x' => fail | _ => assert (x = x') by exact (adj_pred _ _ _ _ Hnd A B); simplify_eq end
  | A : adj ?Q ?x ?y, B : adj ?Q ?x ?y' |- _ =>
      lazymatch y with y' => fail | _ => assert (y = y') by exact (adj_succ _ _ _ _ Hnd A B); simplify_eq end
  | A : adj ?Q _ ?y, B : head ?Q = Some ?y |- _ => destruct (adj_head _ _ _ Hnd A B)
  | A : adj ?Q _ ?y, B : Some ?y = head ?Q |- _ => destruct (adj_head _ _ _ Hnd A (eq_sym B))
  | A : adj ?Q ?x ?x |- _ => destruct (adj_ne _ _ _ Hnd A eq_refl)
  | A : adj [] _ _ |- _ => destruct (adj_nil _ _ A)
  end; try congruence.

Ltac q_one HQ :=
  match goal with
  | E1 : _ = RRelink _ ?n _, E2 : _ = RRelink _ ?n _ |- _ => exact (qo_relink_one _ _ _ _ _ _ HQ _ _ _ _ _ _ _ E1 E2)
  | E1 : _ = RGrant _, E2 : _ = RGrant _ |- _ => exact (qo_grant_one _ _ _ _ _ _ HQ _ _ _ _ E1 E2)
  | |- _ = last _ => exact (qo_tail _ _ _ _ _ _ HQ)
  | |- ?c ∈ _ <-> _ => rewrite (qo_in _ _ _ _ _ _ HQ c); by repeat match goal with E : ?f c = _ |- _ => rewrite E end
  end.

(** The fields that a change leaves to the invariant there was. *)
Ltac q_keep HQ := intros; fn; q_facts HQ; q_unify HQ; try done; try (q_one HQ);
  try (by split_and?; eauto with mutex).

(** A processor that keeps waiting. *)
Ltac q_wait HQ :=
  eapply waiter_mono; [eapply (qo_waiter _ _ _ _ _ _ HQ); eassumption|..]; try done; intros; fn; q_facts HQ; q_unify HQ.

Section Transitions.
Context (Q : list nat) (tail : option nat) (next prev : nat -> option nat) (waiting : nat -> bool) (ro : nat -> role).
Context (H : queue_ok Q tail next prev waiting ro).

Lemma in_queue c : queued (ro c) = true -> c ∈ Q.
Proof using H. apply (qo_in _ _ _ _ _ _ H). Qed.

Lemma not_in_queue c : queued (ro c) = false -> c ∉ Q.
Proof using H. rewrite (qo_in _ _ _ _ _ _ H). by intros ->. Qed.

(** *** Outside the queue *)

Lemma q_enter c : ro c = ROut -> queue_ok Q tail next prev waiting (<[c := RHeld false]> ro).
Proof using H. intros E. split; q_keep H. q_wait H. Qed.

Lemma q_exit c b : ro c = RHeld b -> queue_ok Q tail next prev waiting (<[c := ROut]> ro).
Proof using H. intros E. split; q_keep H. q_wait H. Qed.

Lemma q_flag c b x : ro c = RHeld b -> queue_ok Q tail next prev (<[c := x]> waiting) (<[c := RHeld x]> ro).
Proof using H. intros E. split; q_keep H. q_wait H. Qed.

Lemma q_flag_exit c b x : ro c = RHeld b -> queue_ok Q tail next prev (<[c := x]> waiting) (<[c := ROut]> ro).
Proof using H. intros E. split; q_keep H. q_wait H. Qed.

(** *** Joining it *)

Lemma in_join c r : queued r = true -> forall x, x ∈ Q ++ [c] <-> queued (<[c := r]> ro x) = true.
Proof using H.
  intros Hr x. rewrite elem_of_app, list_elem_of_singleton, (qo_in _ _ _ _ _ _ H x). fn; [by rewrite Hr; intuition|].
  split; [by intros [?| ->]|by left].
Qed.

Lemma q_join_first c b : ro c = RHeld b -> tail = None -> queue_ok (Q ++ [c]) (Some c) next prev waiting (<[c := ROwner]> ro).
Proof using H.
  intros E Et. pose proof (in_join c ROwner eq_refl) as Hin. rewrite (qo_tail _ _ _ _ _ _ H) in Et. apply last_None in Et. subst Q.
  split; [apply NoDup_singleton|done|exact Hin|..]; q_keep H.
  match goal with E : ro ?x = RWaiter |- _ => pose proof (proj2 (qo_in _ _ _ _ _ _ H x)) as Hx; rewrite E in Hx end.
  by destruct (not_elem_of_nil _ (Hx eq_refl)).
Qed.

Lemma q_join c p : ro c = RHeld true -> tail = Some p -> queue_ok (Q ++ [c]) (Some c) next prev waiting (<[c := RNotYet p false]> ro).
Proof using H.
  intros E Et. pose proof (in_join c (RNotYet p false) eq_refl) as Hin.
  assert (Hc : c ∉ Q) by (apply not_in_queue; by rewrite E).
  rewrite (qo_tail _ _ _ _ _ _ H) in Et. pose proof (adj_snoc_last Q c p Et) as Hadj.
  assert (Hh : forall x, head Q = Some x -> head (Q ++ [c]) = Some x) by (by destruct Q).
  assert (Hn : next p = None).
  { destruct (next p) as [y|] eqn:Ey; [|done]. apply (qo_next _ _ _ _ _ _ H) in Ey.
    by destruct (adj_last _ _ _ (qo_nodup _ _ _ _ _ _ H) Ey). }
  assert (Hnd : NoDup (Q ++ [c])).
  { apply NoDup_app. split; [apply H|]. split; [set_solver|apply NoDup_singleton]. }
  split; [done|by rewrite last_snoc|exact Hin|..]; q_keep H.
  q_wait H; eauto with mutex.
Qed.

Lemma q_alone c x : ro c = ROwner -> queue_ok Q tail next prev (<[c := x]> waiting) (<[c := ROwner]> ro).
Proof using H. intros E. split; q_keep H. q_wait H. Qed.

Lemma q_back c p : ro c = RNotYet p false -> queue_ok Q tail next (<[c := Some p]> prev) waiting (<[c := RNotYet p true]> ro).
Proof using H. intros E. split; q_keep H. q_wait H. Qed.

Lemma q_link c p : ro c = RNotYet p true -> queue_ok Q tail (<[p := Some c]> next) prev waiting (<[c := RWaiter]> ro).
Proof using H.
  intros E. destruct (qo_notyet _ _ _ _ _ _ H _ _ _ E) as (Hadj & Hn & Hw & Hp). specialize (Hp eq_refl). split; q_keep H.
  - split; [by rewrite Hp|]. right. exists p. rewrite fn_lookup_insert. auto.
  - q_wait H.
Qed.

(** *** Waiting in it *)

Lemma q_own c : ro c = RWaiter -> waiting c = false -> queue_ok Q tail next prev waiting (<[c := ROwner]> ro).
Proof using H.
  intros E Hw. destruct (qo_waiter _ _ _ _ _ _ H c E) as [_ [[Hh _]|(p & _ & Hw' & _)]]; [|congruence].
  split; q_keep H. q_wait H.
Qed.

Lemma q_cut c p : ro c = RWaiter -> next p = Some c -> queue_ok Q tail (<[p := None]> next) prev waiting (<[c := RCut p]> ro).
Proof using H.
  intros E Hn. pose proof (qo_next _ _ _ _ _ _ H _ _ Hn) as Hadj.
  assert (Hw : waiting c = true).
  { destruct (qo_waiter _ _ _ _ _ _ H c E) as [_ [[Hh _]|(p' & _ & Hw' & _)]]; [|done]. q_unify H. }
  split; q_keep H. q_wait H.
Qed.

(** A processor that another points to waits. *)
Lemma linked_waiter p c : next p = Some c -> ro c = RWaiter /\ waiting c = true.
Proof using H.
  intros Hn. pose proof (qo_next _ _ _ _ _ _ H _ _ Hn) as Hadj. destruct (adj_in _ _ _ Hadj) as [_ Hc].
  apply (qo_in _ _ _ _ _ _ H) in Hc. destruct (ro c) eqn:E; try done; q_facts H; q_unify H.
  split; [done|]. destruct (qo_waiter _ _ _ _ _ _ H c E) as [_ [[Hh _]|(p' & _ & Hw' & _)]]; [q_unify H|done].
Qed.

(** *** Leaving it *)

Lemma in_leave c r : queued r = false -> forall x, x ∈ remove c Q <-> queued (<[c := r]> ro x) = true.
Proof using H. intros Hr x. rewrite remove_in, (qo_in _ _ _ _ _ _ H x). fn; [rewrite Hr; intuition done|]. intuition. Qed.

Lemma q_cut_last c p : ro c = RCut p -> tail = Some c ->
  queue_ok (remove c Q) (Some p) next prev waiting (<[c := RHeld false]> ro).
Proof using H.
  intros E Et. pose proof (in_leave c (RHeld false) eq_refl) as Hin. rewrite (qo_tail _ _ _ _ _ _ H) in Et.
  destruct (qo_cut _ _ _ _ _ _ H _ _ E) as (Hadj & Hn & Hw). pose proof (qo_nodup _ _ _ _ _ _ H) as Hnd.
  assert (Hlast : forall x y, adj Q x y -> x <> c) by (intros x y Hxy ->; by destruct (adj_last _ _ _ Hnd Hxy)).
  split; [by apply remove_nodup|symmetry; by apply remove_last|exact Hin|..]; q_keep H.
  - apply adj_remove; [done|eauto|intros ->; q_unify H].
  - q_wait H; eauto with mutex.
Qed.

Lemma q_cut_take c p n : ro c = RCut p -> next c = Some n ->
  queue_ok (remove c Q) tail (<[c := None]> next) prev waiting (<[c := RRelink p n false]> ro).
Proof using H.
  intros E En. pose proof (in_leave c (RRelink p n false) eq_refl) as Hin. pose proof (qo_tail _ _ _ _ _ _ H) as Et.
  destruct (qo_cut _ _ _ _ _ _ H _ _ E) as (Hadj & Hn & Hw). pose proof (qo_nodup _ _ _ _ _ _ H) as Hnd.
  pose proof (qo_next _ _ _ _ _ _ H _ _ En) as Hadj'. pose proof (adj_remove_middle _ _ _ _ Hnd Hadj Hadj') as Hmid.
  destruct (linked_waiter c n En) as [Ew Hwn].
  assert (Hother : forall x y, adj Q x y -> y <> n -> x <> c) by (intros x y Hxy Hyn ->; q_unify H).
  assert (Htail : last (remove c Q) = tail).
  { rewrite Et. destruct (last Q) as [l|] eqn:El.
    - apply remove_other_last; [done|]. intros ->. by destruct (adj_last _ _ _ Hnd Hadj').
    - apply last_None in El. subst Q. by destruct (adj_nil _ _ Hadj). }
  split; [by apply remove_nodup|done|exact Hin|..]; q_keep H.
  - apply adj_remove; [done|done|intros ->; q_unify H].
  - match goal with E : ro ?x = RWaiter |- _ => destruct (decide (x = n)) as [->|] end.
    + split; [by apply (qo_waiter _ _ _ _ _ _ H n)|]. right. exists p. split; [done|]. split; [done|]. right.
      exists c, false. by rewrite fn_lookup_insert.
    + q_wait H; eauto with mutex.
Qed.

Lemma q_relink_back c p n : ro c = RRelink p n false ->
  queue_ok Q tail next (<[n := Some p]> prev) waiting (<[c := RRelink p n true]> ro).
Proof using H.
  intros E. split; q_keep H. match goal with E : ro ?x = RWaiter |- _ => destruct (decide (x = n)) as [->|] end; [|q_wait H].
  split; [by rewrite fn_lookup_insert|]. right. exists p. split; [done|]. split; [done|]. right.
  exists c, true. by rewrite fn_lookup_insert.
Qed.

Lemma q_relink c p n : ro c = RRelink p n true ->
  queue_ok Q tail (<[p := Some n]> next) prev waiting (<[c := RHeld false]> ro).
Proof using H.
  intros E. destruct (qo_relink _ _ _ _ _ _ H _ _ _ _ E) as (Hadj & Hn & Hw & Ew & Hp). specialize (Hp eq_refl). split; q_keep H.
  - match goal with E' : ro ?x = RRelink _ _ _ |- _ => assert (c = x) by q_one H end. congruence.
  - match goal with E : ro ?x = RWaiter |- _ => destruct (decide (x = n)) as [->|] end; [|q_wait H].
    split; [by rewrite Hp|]. right. exists p. rewrite fn_lookup_insert. auto.
Qed.

(** *** Giving up the first place *)

Lemma q_release_last c : ro c = ROwner -> tail = Some c -> queue_ok (remove c Q) None next prev waiting (<[c := ROut]> ro).
Proof using H.
  intros E Et. pose proof (in_leave c ROut eq_refl) as Hin. rewrite (qo_tail _ _ _ _ _ _ H) in Et.
  pose proof (qo_owner _ _ _ _ _ _ H _ E) as Hh. pose proof (qo_nodup _ _ _ _ _ _ H) as Hnd.
  rewrite (remove_only Q c) in * by done.
  assert (Hx : forall x, c <> x -> queued (ro x) = true -> False).
  { intros x Hne Hq. apply (not_elem_of_nil x), Hin. by rewrite fn_lookup_insert_ne. }
  assert (Ha : forall x y, adj Q x y -> False).
  { intros x y Hxy. assert (y = c) as ->; [|by apply (adj_head _ _ _ Hnd Hxy)]. destruct (decide (c = y)) as [|Hne]; [done|].
    destruct (Hx y Hne). apply (qo_in _ _ _ _ _ _ H). by apply adj_in in Hxy as [_ ?]. }
  split; [apply NoDup_nil_2|done|exact Hin|..]; q_keep H; try (by exfalso; eauto).
  match goal with E : ro ?x = RWaiter |- _ => exfalso; apply (Hx x); [done|by rewrite E] end.
Qed.

Lemma q_release c n : ro c = ROwner -> next c = Some n ->
  queue_ok (remove c Q) tail (<[c := None]> next) prev waiting (<[c := RGrant n]> ro).
Proof using H.
  intros E En. pose proof (in_leave c (RGrant n) eq_refl) as Hin. pose proof (qo_tail _ _ _ _ _ _ H) as Et.
  pose proof (qo_owner _ _ _ _ _ _ H _ E) as Hh. pose proof (qo_nodup _ _ _ _ _ _ H) as Hnd.
  pose proof (qo_next _ _ _ _ _ _ H _ _ En) as Hadj. pose proof (remove_head _ _ _ Hnd Hh Hadj) as Hh'.
  destruct (linked_waiter c n En) as [Ew Hwn].
  assert (Hother : forall x y, adj Q x y -> y <> n -> x <> c) by (intros x y Hxy Hyn ->; q_unify H).
  assert (Htail : last (remove c Q) = tail).
  { rewrite Et. destruct (last Q) as [l|] eqn:El.
    - apply remove_other_last; [done|]. intros ->. by destruct (adj_last _ _ _ Hnd Hadj).
    - apply last_None in El. subst Q. done. }
  split; [by apply remove_nodup|done|exact Hin|..]; q_keep H.
  - apply adj_remove; [done|done|intros ->; q_unify H].
  - match goal with E : ro ?x = RWaiter |- _ => destruct (decide (x = n)) as [->|] end.
    + split; [by apply (qo_waiter _ _ _ _ _ _ H n)|]. left. split; [done|]. right. exists c. by rewrite fn_lookup_insert.
    + q_wait H; eauto with mutex.
Qed.

Lemma q_granted c n : ro c = RGrant n -> queue_ok Q tail next prev (<[n := false]> waiting) (<[c := ROut]> ro).
Proof using H.
  intros E. split; q_keep H.
  - match goal with E' : ro ?x = RGrant _ |- _ => assert (c = x) by q_one H end. congruence.
  - match goal with E : ro ?x = RWaiter |- _ => destruct (decide (x = n)) as [->|] end; [|q_wait H].
    split; [by apply (qo_waiter _ _ _ _ _ _ H n)|]. left. split; [done|]. left. by rewrite fn_lookup_insert.
Qed.

Lemma q_ext next' prev' waiting' ro' : (forall x, next' x = next x) -> (forall x, prev' x = prev x) ->
  (forall x, waiting' x = waiting x) -> (forall x, ro' x = ro x) -> queue_ok Q tail next' prev' waiting' ro'.
Proof using H.
  intros En Ep Ew Er. destruct H. split; intros *; rewrite ?En, ?Ep, ?Ew, ?Er; eauto.
  intros Hc. eapply waiter_mono; [by apply qo_waiter0|..]; intros; rewrite ?En, ?Ep, ?Ew, ?Er; done.
Qed.
End Transitions.

(** ** Contexts and the queue *)

Record contexts_ok (P : list pc) (ro : nat -> role) : Prop := {
  co_role : forall t p c, P !! t = Some p -> cpu_of p = Some c -> ro c = role_of p;
  co_cpu : forall t1 t2 p1 p2 c, P !! t1 = Some p1 -> P !! t2 = Some p2 -> cpu_of p1 = Some c -> cpu_of p2 = Some c -> t1 = t2;
  co_out : forall c, ro c <> ROut -> exists t p, P !! t = Some p /\ cpu_of p = Some c;
}.

Definition mcs_ok (tail : option nat) (next prev : nat -> option nat) (waiting : nat -> bool) (P : list pc) : Prop :=
  exists Q ro, queue_ok Q tail next prev waiting ro /\ contexts_ok P ro.

Lemma no_cpu_role p : cpu_of p = None -> role_of p = ROut.
Proof. destruct p; try done; by destruct c. Qed.

(** A context with a processor takes a step. *)
Lemma mcs_step tail next prev waiting tail' next' prev' waiting' P t p p' c :
  mcs_ok tail next prev waiting P -> P !! t = Some p -> cpu_of p = Some c -> (cpu_of p' = Some c \/ cpu_of p' = None) ->
  (forall Q ro, queue_ok Q tail next prev waiting ro -> ro c = role_of p ->
    exists Q', queue_ok Q' tail' next' prev' waiting' (<[c := role_of p']> ro)) ->
  mcs_ok tail' next' prev' waiting' (<[t := p']> P).
Proof.
  intros (Q & ro & HQ & [Hr Hc Ho]) E C C' Hstep. destruct (Hstep Q ro HQ (Hr _ _ _ E C)) as [Q' HQ'].
  exists Q', (<[c := role_of p']> ro). split; [done|]. pose proof (lookup_lt_Some _ _ _ E) as Hlt. split.
  - intros t1 p1 c1 E1 C1. apply list_lookup_insert_Some in E1 as [(<- & <- & _)|[Hne E1]].
    + assert (c1 = c) as -> by (destruct C'; congruence). by rewrite fn_lookup_insert.
    + rewrite fn_lookup_insert_ne; [by eapply Hr|]. intros <-. apply Hne. by eapply Hc.
  - intros t1 t2 p1 p2 c1 E1 E2 C1 C2.
    apply list_lookup_insert_Some in E1 as [(<- & <- & _)|[Hne1 E1]], E2 as [(<- & <- & _)|[Hne2 E2]]; [done| | |by eapply Hc].
    + assert (c1 = c) as -> by (destruct C'; congruence). by eapply Hc.
    + assert (c1 = c) as -> by (destruct C'; congruence). by eapply Hc.
  - intros c1 H1. destruct (decide (c = c1)) as [<-|Hne].
    + rewrite fn_lookup_insert in H1. exists t, p'. rewrite list_lookup_insert_eq by done. split; [done|].
      destruct C' as [|C']; [done|]. by rewrite no_cpu_role in H1.
    + rewrite fn_lookup_insert_ne in H1 by done. destruct (Ho c1 H1) as (t1 & p1 & E1 & C1). exists t1, p1.
      rewrite list_lookup_insert_ne; [done|]. intros <-. congruence.
Qed.

(** A step that the queue does not see. *)
Lemma mcs_local tail next prev waiting P t p p' : mcs_ok tail next prev waiting P -> P !! t = Some p ->
  cpu_of p' = cpu_of p -> role_of p' = role_of p -> mcs_ok tail next prev waiting (<[t := p']> P).
Proof.
  intros Hm E C Er. destruct (cpu_of p) as [c|] eqn:Ec.
  - eapply mcs_step; [done|done|done|by left|]. intros Q ro HQ Hro. exists Q. eapply q_ext; [exact HQ|done..|].
    intros x. rewrite Er, <- Hro. by fn.
  - destruct Hm as (Q & ro & HQ & [Hr Hc Ho]). exists Q, ro. split; [done|]. split.
    + intros t1 p1 c1 E1 C1. apply list_lookup_insert_Some in E1 as [(<- & <- & _)|[Hne E1]]; [congruence|by eapply Hr].
    + intros t1 t2 p1 p2 c1 E1 E2 C1 C2.
      apply list_lookup_insert_Some in E1 as [(<- & <- & _)|[Hne1 E1]], E2 as [(<- & <- & _)|[Hne2 E2]]; try congruence. by eapply Hc.
    + intros c1 H1. destruct (Ho c1 H1) as (t1 & p1 & E1 & C1). exists t1, p1. rewrite list_lookup_insert_ne; [done|].
      intros <-. congruence.
Qed.

Lemma mcs_enter tail next prev waiting P t p p' c : mcs_ok tail next prev waiting P -> P !! t = Some p ->
  cpu_of p = None -> cpu_of p' = Some c -> role_of p' = RHeld false -> Forall (fun q => cpu_of q <> Some c) P ->
  mcs_ok tail next prev waiting (<[t := p']> P).
Proof.
  intros (Q & ro & HQ & [Hr Hc Ho]) E C C' Er Hfree. rewrite Forall_lookup in Hfree.
  assert (Eo : ro c = ROut).
  { destruct (decide (ro c = ROut)) as [|Hne]; [done|]. destruct (Ho c Hne) as (t1 & p1 & E1 & C1). by destruct (Hfree t1 p1 E1). }
  pose proof (lookup_lt_Some _ _ _ E) as Hlt.
  exists Q, (<[c := RHeld false]> ro). split; [by apply q_enter|]. split.
  - intros t1 p1 c1 E1 C1. apply list_lookup_insert_Some in E1 as [(<- & <- & _)|[Hne E1]].
    + assert (c1 = c) as -> by congruence. by rewrite fn_lookup_insert.
    + rewrite fn_lookup_insert_ne; [by eapply Hr|]. intros <-. by destruct (Hfree t1 p1 E1).
  - intros t1 t2 p1 p2 c1 E1 E2 C1 C2.
    apply list_lookup_insert_Some in E1 as [(<- & <- & _)|[Hne1 E1]], E2 as [(<- & <- & _)|[Hne2 E2]]; [done| | |by eapply Hc].
    + assert (c1 = c) as -> by congruence. by destruct (Hfree t2 p2 E2).
    + assert (c1 = c) as -> by congruence. by destruct (Hfree t1 p1 E1).
  - intros c1 H1. destruct (decide (c = c1)) as [<-|Hne].
    + exists t, p'. by rewrite list_lookup_insert_eq.
    + rewrite fn_lookup_insert_ne in H1 by done. destruct (Ho c1 H1) as (t1 & p1 & E1 & C1). exists t1, p1.
      rewrite list_lookup_insert_ne; [done|]. intros <-. congruence.
Qed.

(** ** Steps keep the queue *)

Section Invariant.
Context (spin_iterations limit : Z).

Definition mcs_inv (s : state) : Prop := mcs_ok (mcs_tail s) (mcs_next s) (mcs_prev s) (mcs_waiting s) (pcs s).

(** Storing what is there. *)
Lemma q_store_none Q tail next prev waiting ro c r : queue_ok Q tail next prev waiting ro -> next c = None -> ro c = r ->
  queue_ok Q tail (<[c := None]> next) prev waiting (<[c := r]> ro).
Proof. intros HQ En <-. eapply q_ext; [exact HQ|..]; intros x; by fn. Qed.

Lemma mcs_go s t p s' : mcs_inv s -> pcs s !! t = Some p ->
  (forall n, p = VReturn n -> pcs s !! n = Some Suspended) ->
  go spin_iterations limit s t p = Next s' -> mcs_inv s'.
Proof.
  intros Hm E Hret G.
  destruct p; cbn [go get_next_step mcs_unlock_step lock_step unlock_step] in G; repeat case_match; simplify_eq; unfold mcs_inv in *; cbn;
    try done; try (by eapply mcs_local; [exact Hm|exact E|..]).
  all: repeat match goal with B : bool_decide _ = true |- _ => apply bool_decide_eq_true in B end.
  all: try (eapply mcs_step; [exact Hm|exact E|reflexivity|by (left + right)|cbn; intros Q ro HQ Hro]).
  - exists Q. by eapply q_exit.
  - eexists. by eapply q_join_first.
  - eexists. by eapply q_flag.
  - eexists. by eapply q_join.
  - eexists. by eapply q_join_first.
  - eexists. by eapply q_alone.
  - eexists. by eapply q_back.
  - eexists. by eapply q_link.
  - eexists. by eapply q_own.
  - eexists. by eapply q_cut.
  - eexists. by eapply q_own.
  - destruct g as [p|k]; (eapply mcs_step; [exact Hm|exact E|reflexivity| |cbn; intros Q ro HQ Hro]).
    + by left.
    + eexists. by eapply q_cut_last.
    + right. by destruct k.
    + eexists. replace (role_of (after_unlock k)) with ROut by by destruct k. by eapply q_release_last.
  - destruct g as [p|k]; (eapply mcs_step; [exact Hm|exact E|reflexivity|by left|cbn; intros Q ro HQ Hro]).
    + eexists. by eapply q_cut_take.
    + eexists. by eapply q_release.
  - eexists. by apply q_store_none.
  - eexists. by eapply q_relink_back.
  - eexists. by eapply q_relink.
  - eexists. by eapply q_flag_exit.
  - eapply mcs_step; [exact Hm|exact E|reflexivity|right; by destruct k|cbn; intros Q ro HQ Hro].
    eexists. replace (role_of (after_unlock k)) with ROut by by destruct k. by eapply q_release_last.
  - eexists. by eapply q_release.
  - eexists. by apply q_store_none.
  - eapply mcs_step; [exact Hm|exact E|reflexivity|right; by destruct k|cbn; intros Q ro HQ Hro].
    eexists. replace (role_of (after_unlock k)) with ROut by by destruct k. by eapply q_granted.
  - specialize (Hret n eq_refl). eapply (mcs_local _ _ _ _ _ t (VReturn n)); [eapply mcs_local; [exact Hm|exact Hret|done..]| |done..].
    rewrite list_lookup_insert_ne; [exact E|]. congruence.
Qed.

Lemma mcs_enter_step s t c p s' : mcs_inv s -> pcs s !! t = Some Idle -> cpu_of p = Some c -> role_of p = RHeld false ->
  enter s t c p = Next s' -> mcs_inv s'.
Proof.
  intros Hm E C Hr. unfold enter. destruct (bool_decide_reflect (Forall (fun q => cpu_of q <> Some c) (pcs s))) as [Hf|]; [|done].
  destruct (bool_decide _); [done|]. destruct (waiting_on s t); [done|]. intros [= <-]. unfold mcs_inv in *. cbn. by eapply mcs_enter.
Qed.

(** A waiting processor has a predecessor to look at. *)
Lemma mcs_prev_set s t c : mcs_inv s -> pcs s !! t = Some (APrev c) -> is_Some (mcs_prev s c).
Proof.
  intros (Q & ro & HQ & Hc) E. eapply (qo_waiter _ _ _ _ _ _ HQ), (co_role _ _ Hc _ _ _ E eq_refl).
Qed.

(** At most one context has the first place. *)
Lemma mcs_owner_one s t1 t2 p1 p2 : mcs_inv s -> pcs s !! t1 = Some p1 -> pcs s !! t2 = Some p2 ->
  role_of p1 = ROwner -> role_of p2 = ROwner -> t1 = t2.
Proof.
  intros (Q & ro & HQ & Hc) E1 E2 R1 R2.
  destruct (cpu_of p1) as [c1|] eqn:C1; [|by rewrite no_cpu_role in R1].
  destruct (cpu_of p2) as [c2|] eqn:C2; [|by rewrite no_cpu_role in R2].
  assert (H1 : head Q = Some c1) by (eapply (qo_owner _ _ _ _ _ _ HQ); by rewrite (co_role _ _ Hc _ _ _ E1 C1)).
  assert (H2 : head Q = Some c2) by (eapply (qo_owner _ _ _ _ _ _ HQ); by rewrite (co_role _ _ Hc _ _ _ E2 C2)).
  simplify_eq. by eapply (co_cpu _ _ Hc).
Qed.
End Invariant.

(** ** The turn and the waiters *)

(** What the turn and the list of waiters depend on in the place of a context. *)
Inductive class :=
  | KOther | KHolds | KTries | KMarked | KLocked | KGot | KDone | KInserts | KFrees | KSleeps | KFull
  | KUnlocks | KPops | KNone | KTook (n : nat) | KMarks (n : nat) | KFrame (n : nat) | KReturns (n : nat).

Definition class_of (p : pc) : class :=
  match p with
  | Crit | VTurn | UTail _ ThenHeld | USwap _ ThenHeld | UGrant _ _ ThenHeld
  | GTail _ (Release ThenHeld) | GCas _ (Release ThenHeld) | GNext _ (Release ThenHeld) | GSwap _ (Release ThenHeld) => KHolds
  | QGet None _ | QCas None _ => KTries
  | WLock => KMarked | WTurn => KLocked | WHeld => KGot | WDone => KDone | WInsert => KInserts | WFree => KFrees
  | WSuspend => KSleeps | Suspended => KFull
  | VLock => KUnlocks | VPop => KPops | VFree None => KNone | VFree (Some n) => KTook n
  | VMark n => KMarks n | VFrame n => KFrame n | VReturn n => KReturns n
  | _ => KOther
  end.

Definition holds (k : class) : bool := match k with KHolds | KGot | KDone => true | _ => false end.
Definition locks (k : class) : bool :=
  match k with KLocked | KGot | KDone | KInserts | KFrees | KPops | KNone | KTook _ => true | _ => false end.
Definition asleep (k : class) : bool := match k with KFrees | KSleeps | KFull => true | _ => false end.
Definition marked (k : class) : bool :=
  match k with KMarked | KLocked | KGot | KInserts | KFrees | KSleeps | KFull => true | _ => false end.
Definition early (k : class) : bool := match k with KMarked | KLocked | KGot | KInserts => true | _ => false end.
(** Which context it is about to resume. *)
Definition waking (k : class) : option nat := match k with KTook n | KMarks n | KFrame n | KReturns n => Some n | _ => None end.
(** About to take the turn, or to look for a waiter. *)
Definition active (k : class) : bool :=
  match k with KTries | KUnlocks | KPops | KTook _ | KMarks _ | KFrame _ | KReturns _ => true | _ => false end.

Record wait_ok (turn : option nat) (wl : bool) (ws : list nat) (won : nat -> bool) (K : nat -> class) : Prop := {
  wo_turn : forall t, turn = Some t <-> holds (K t) = true;
  wo_lock : forall t, locks (K t) = true -> wl = true;
  wo_lock_one : forall t1 t2, locks (K t1) = true -> locks (K t2) = true -> t1 = t2;
  wo_nodup : NoDup ws;
  wo_in : forall t, t ∈ ws -> asleep (K t) = true /\ won t = true;
  wo_free : forall t, K t = KFrees -> t ∈ ws;
  wo_wake : forall u n, waking (K u) = Some n -> (n ∉ ws) /\ (K n = KSleeps \/ K n = KFull);
  wo_took : forall u n, K u = KTook n \/ K u = KMarks n -> won n = true;
  wo_cleared : forall u n, K u = KFrame n \/ K u = KReturns n -> won n = false;
  wo_return : forall u n, K u = KReturns n -> K n = KFull;
  wo_wake_one : forall u1 u2 n, waking (K u1) = Some n -> waking (K u2) = Some n -> u1 = u2;
  wo_sleep : forall t, asleep (K t) = true -> t ∈ ws \/ exists u, waking (K u) = Some t;
  wo_on : forall t, won t = true -> marked (K t) = true;
  wo_early : forall t, early (K t) = true -> won t = true;
  wo_lost : ws <> [] \/ (exists t, K t = KInserts) -> turn <> None \/ exists u, active (K u) = true;
}.

Lemma waking_at turn wl ws won K u k n : wait_ok turn wl ws won K -> K u = k -> waking k = Some n ->
  (n ∉ ws) /\ (K n = KSleeps \/ K n = KFull).
Proof. intros HW <-. apply (wo_wake _ _ _ _ _ HW). Qed.

(** What the invariant says of the contexts in sight. *)
Ltac w_facts HW :=
  repeat match goal with
  | E : ?t ∈ _ |- _ => learn_hyp (wo_in _ _ _ _ _ HW t E)
  | E : _ = KFrees |- _ => learn_hyp (wo_free _ _ _ _ _ HW _ E)
  | E : waking _ = Some _ |- _ => learn_hyp (wo_wake _ _ _ _ _ HW _ _ E)
  | E : _ = KTook ?n |- _ => learn_hyp (waking_at _ _ _ _ _ _ _ n HW E eq_refl)
  | E : _ = KMarks ?n |- _ => learn_hyp (waking_at _ _ _ _ _ _ _ n HW E eq_refl)
  | E : _ = KFrame ?n |- _ => learn_hyp (waking_at _ _ _ _ _ _ _ n HW E eq_refl)
  | E : _ = KReturns ?n |- _ => learn_hyp (waking_at _ _ _ _ _ _ _ n HW E eq_refl)
  | E : _ = KTook _ |- _ => learn_hyp (wo_took _ _ _ _ _ HW _ _ (or_introl E))
  | E : _ = KMarks _ |- _ => learn_hyp (wo_took _ _ _ _ _ HW _ _ (or_intror E))
  | E : _ = KFrame _ |- _ => learn_hyp (wo_cleared _ _ _ _ _ HW _ _ (or_introl E))
  | E : _ = KReturns _ |- _ => learn_hyp (wo_cleared _ _ _ _ _ HW _ _ (or_intror E))
  | E : _ = KReturns _ |- _ => learn_hyp (wo_return _ _ _ _ _ HW _ _ E)
  | E : asleep _ = true |- _ => learn_hyp (wo_sleep _ _ _ _ _ HW _ E)
  | E : _ = true |- _ => learn_hyp (wo_on _ _ _ _ _ HW _ E)
  | E : early _ = true |- _ => learn_hyp (wo_early _ _ _ _ _ HW _ E)
  end; destruct_and?.

(** The class of a context, where it is known. *)
Ltac w_class :=
  repeat match goal with
  | E : ?K ?t = ?k, F : context [?K ?t] |- _ =>
      lazymatch type of k with class => idtac end; lazymatch F with E => fail | _ => rewrite E in F end
  | E : ?K ?t = ?k |- context [?K ?t] => lazymatch type of k with class => rewrite E end
  end; simplify_eq/=.

(** A property of the class of a context, known or assumed. *)
Ltac w_by := first [assumption | match goal with E : ?K ?t = _ |- _ (?K ?t) = _ => by rewrite E end].

Ltac w_one HW :=
  match goal with
  | |- NoDup _ => exact (wo_nodup _ _ _ _ _ HW)
  | |- _ = Some ?t <-> _ =>
      let Ht := fresh in pose proof (wo_turn _ _ _ _ _ HW t) as Ht; w_class;
      solve [tauto | rewrite <- Ht; split; congruence]
  | K : nat -> class |- _ = true => solve [match goal with t : nat |- _ => apply (wo_lock _ _ _ _ _ HW t); w_by end]
  | L : locks (_ ?t) = true |- _ => by pose proof (wo_lock _ _ _ _ _ HW t L)
  | Hne : ?t1 <> ?t2 |- _ => solve [destruct Hne; apply (wo_lock_one _ _ _ _ _ HW); w_by]
  | |- ?t1 = ?t2 => solve [apply (wo_lock_one _ _ _ _ _ HW t1 t2); w_by]
  | Hne : ?t1 <> ?t2, n : nat |- _ => solve [destruct Hne; apply (wo_wake_one _ _ _ _ _ HW t1 t2 n); w_by]
  | E1 : waking (_ ?t1) = Some ?n |- ?t1 = ?t2 => solve [apply (wo_wake_one _ _ _ _ _ HW t1 t2 n); w_by]
  | E1 : waking (_ ?t2) = Some ?n |- ?t1 = ?t2 => solve [apply (wo_wake_one _ _ _ _ _ HW t1 t2 n); w_by]
  | |- ?won ?t = true => apply (wo_early _ _ _ _ _ HW t); w_by
  | E : exists u, waking _ = Some _ |- _ \/ exists u, waking _ = Some _ =>
      let u := fresh "u" in let Hu := fresh "Hu" in destruct E as [u Hu]; right; exists u; fn; w_class; done
  | |- _ <> None \/ exists u, active _ = true =>
      let u := fresh "u" in let Hu := fresh "Hu" in
      destruct (wo_lost _ _ _ _ _ HW) as [?|[u Hu]];
      [first [by left | right; match goal with E : exists _, _ |- _ => destruct E as [? ?]; fn; w_class; by eauto end]
      |by left|right; exists u; fn; w_class; done]
  end.

(** The fields that a change leaves to the invariant there was. *)
Ltac w_keep HW :=
  intros; destruct_or?; fn; w_facts HW; w_class; try done; destruct_or?; w_class; try done; try (w_one HW); eauto.

Section WaitTransitions.
Context (turn : option nat) (wl : bool) (ws : list nat) (won : nat -> bool) (K : nat -> class).
Context (H : wait_ok turn wl ws won K).

Lemma w_acquire t : K t = KOther \/ K t = KTries -> turn = None -> wait_ok (Some t) wl ws won (<[t := KHolds]> K).
Proof using H. intros [E|E] ->; split; w_keep H. Qed.

Lemma w_drop t : K t = KHolds -> wait_ok None wl ws won (<[t := KUnlocks]> K).
Proof using H.
  intros E. assert (Et : turn = Some t) by (apply (wo_turn _ _ _ _ _ H); by rewrite E). split; w_keep H.
  all: right; exists t; by rewrite fn_lookup_insert.
Qed.

Lemma w_mark t : K t = KOther -> wait_ok turn wl ws (<[t := true]> won) (<[t := KMarked]> K).
Proof using H. intros E. split; w_keep H. Qed.

Lemma w_lock t : K t = KMarked -> wl = false -> wait_ok turn true ws won (<[t := KLocked]> K).
Proof using H. intros E El. split; w_keep H. Qed.

Lemma w_got t : K t = KLocked -> turn = None -> wait_ok (Some t) wl ws won (<[t := KGot]> K).
Proof using H. intros E Et. split; w_keep H. Qed.

Lemma w_inserts t : K t = KLocked -> turn <> None -> wait_ok turn wl ws won (<[t := KInserts]> K).
Proof using H. intros E Et. split; w_keep H. Qed.

Lemma w_unmark t : K t = KGot -> wait_ok turn wl ws (<[t := false]> won) (<[t := KDone]> K).
Proof using H. intros E. split; w_keep H. Qed.

Lemma w_done t : K t = KDone -> wait_ok turn false ws won (<[t := KHolds]> K).
Proof using H. intros E. split; w_keep H. Qed.

Lemma w_insert t : K t = KInserts -> wait_ok turn wl (ws ++ [t]) won (<[t := KFrees]> K).
Proof using H.
  intros E. assert (Ht : t ∉ ws) by (intros Hin; w_facts H; w_class).
  assert (Hon : won t = true) by (apply (wo_early _ _ _ _ _ H); by rewrite E).
  split; w_keep H.
  - apply NoDup_app. split; [apply H|]. split; [set_solver|apply NoDup_singleton].
  - match goal with Hin : _ ∈ ws ++ [t] |- _ => apply elem_of_app in Hin as [Hin|Hin%list_elem_of_singleton] end; [|congruence].
    by apply (wo_in _ _ _ _ _ H).
  - set_solver.
  - split; [set_solver|by left].
  - split; [set_solver|by right].
  - left. set_solver.
  - left. set_solver.
  - destruct (wo_lost _ _ _ _ _ H) as [|[u Hu]]; [right; eauto|by left|]. right. exists u. fn; w_class; done.
Qed.

Lemma w_free t : K t = KFrees -> wait_ok turn false ws won (<[t := KSleeps]> K).
Proof using H. intros E. split; w_keep H. Qed.

Lemma w_suspend t : K t = KSleeps -> wait_ok turn wl ws won (<[t := KFull]> K).
Proof using H.
  intros E. split; w_keep H. destruct (wo_sleep _ _ _ _ _ H t0) as [|[u Hu]]; [by rewrite E|by left|].
  right. exists u. fn; w_class; done.
Qed.

Lemma w_unlock_lock t : K t = KUnlocks -> wl = false -> wait_ok turn true ws won (<[t := KPops]> K).
Proof using H. intros E El. split; w_keep H. Qed.

Lemma w_pop_none t : K t = KPops -> ws = [] -> wait_ok turn wl ws won (<[t := KNone]> K).
Proof using H.
  intros E El. split; w_keep H. match goal with Hx : exists _, _ |- _ => destruct Hx as [u Hu] end. fn.
  assert (t = u) by (apply (wo_lock_one _ _ _ _ _ H); w_by). congruence.
Qed.

Lemma w_pop t n l : K t = KPops -> ws = n :: l -> wait_ok turn wl l won (<[t := KTook n]> K).
Proof using H.
  intros E El. pose proof (wo_nodup _ _ _ _ _ H) as Hnd. rewrite El in Hnd. apply NoDup_cons in Hnd as [Hnl Hnd].
  assert (Hin : forall x, x ∈ l -> x ∈ ws) by (rewrite El; set_solver).
  assert (Hn : n ∈ ws) by (rewrite El; set_solver).
  destruct (wo_in _ _ _ _ _ H n Hn) as [Ha Hon].
  assert (Hc : K n = KSleeps \/ K n = KFull).
  { destruct (K n) eqn:En; try done; [|by left|by right]. assert (n = t) by (apply (wo_lock_one _ _ _ _ _ H); w_by). congruence. }
  assert (Hw : forall u, waking (K u) <> Some n) by (by intros u [? _]%(wo_wake _ _ _ _ _ H)).
  assert (Ht : t ∉ ws) by (intros Hx%(wo_in _ _ _ _ _ H); w_class; naive_solver).
  assert (Hout : forall x, x ∉ ws -> x ∉ l) by (intros x Hx Hl; by apply Hx, Hin).
  split; w_keep H.
  all: try (exfalso; by apply Ht, Hin).
  all: try (apply (wo_in _ _ _ _ _ H); by auto).
  all: destruct (decide (t0 = n)) as [->|]; [right; exists t; by rewrite fn_lookup_insert|].
  all: destruct (wo_sleep _ _ _ _ _ H t0) as [Hx|[u Hu]]; [done|left; set_solver|].
  all: right; exists u; fn; w_class; done.
Qed.

Lemma w_free_none t : K t = KNone -> wait_ok turn false ws won (<[t := KOther]> K).
Proof using H. intros E. split; w_keep H. Qed.

Lemma w_free_took t n : K t = KTook n -> wait_ok turn false ws won (<[t := KMarks n]> K).
Proof using H. intros E. split; w_keep H. Qed.

Lemma w_clear t n : K t = KMarks n -> wait_ok turn wl ws (<[n := false]> won) (<[t := KFrame n]> K).
Proof using H. intros E. split; w_keep H. Qed.

Lemma w_frame t n : K t = KFrame n -> K n = KFull -> wait_ok turn wl ws won (<[t := KReturns n]> K).
Proof using H. intros E En. split; w_keep H. Qed.

Lemma w_return t n : K t = KReturns n -> wait_ok turn wl ws won (<[t := KOther]> (<[n := KTries]> K)).
Proof using H.
  intros E. assert (Hne : n <> t) by (intros ->; pose proof (wo_return _ _ _ _ _ H t t E); congruence). split; w_keep H.
  all: try (right; exists n; rewrite fn_lookup_insert_ne, fn_lookup_insert by done; done).
Qed.

Lemma w_ext won' K' : (forall x, won' x = won x) -> (forall x, K' x = K x) -> wait_ok turn wl ws won' K'.
Proof using H.
  intros Ew Ek. destruct H. split; intros *; rewrite ?Ew, ?Ek; eauto; try (setoid_rewrite Ek; eauto).
Qed.
End WaitTransitions.

Definition classes (P : list pc) (t : nat) : class := match P !! t with Some p => class_of p | None => KOther end.

Lemma classes_insert P t p p' x : P !! t = Some p -> classes (<[t := p']> P) x = <[t := class_of p']> (classes P) x.
Proof.
  intros E. apply lookup_lt_Some in E. unfold classes. fn; [by rewrite list_lookup_insert_eq|by rewrite list_lookup_insert_ne].
Qed.

Lemma classes_at P t p : P !! t = Some p -> classes P t = class_of p.
Proof. intros E. unfold classes. by rewrite E. Qed.

Definition wait_inv (s : state) : Prop := wait_ok (turn s) (waiters_lock s) (waiters s) (waiting_on s) (classes (pcs s)).

(** A context takes a step. *)
Lemma wait_step turn wl ws won won' P t p p' : P !! t = Some p ->
  wait_ok turn wl ws won' (<[t := class_of p']> (classes P)) -> (forall x, won x = won' x) ->
  wait_ok turn wl ws won (classes (<[t := p']> P)).
Proof. intros E H Hw. eapply w_ext; [exact H|done|]. intros x. by eapply classes_insert. Qed.

Lemma wait_local turn wl ws won P t p p' : wait_ok turn wl ws won (classes P) -> P !! t = Some p -> class_of p' = class_of p ->
  wait_ok turn wl ws won (classes (<[t := p']> P)).
Proof.
  intros H E Ec. eapply wait_step; [exact E| |done]. eapply w_ext; [exact H|done|]. intros x. rewrite Ec. fn; [|done].
  symmetry. by apply classes_at.
Qed.

Section WaitInvariant.
Context (spin_iterations limit : Z).

Lemma full_suspended P n : classes P n = KFull -> P !! n = Some Suspended.
Proof.
  unfold classes. destruct (P !! n) as [p|]; [|done]. destruct p; try done; try (by destruct c); try (by destruct n0);
    try (by destruct k); destruct g as [|k]; try done; by destruct k.
Qed.

Lemma wait_go s t p s' : wait_inv s -> pcs s !! t = Some p -> go spin_iterations limit s t p = Next s' -> wait_inv s'.
Proof.
  intros Hm E G. pose proof (classes_at _ _ _ E) as Ek.
  assert (Hl : locks (class_of p) = true -> waiters_lock s = true).
  { intros Hl. apply (wo_lock _ _ _ _ _ Hm t). by rewrite Ek. }
  destruct p; cbn [go get_next_step mcs_unlock_step lock_step unlock_step] in G; repeat case_match; simplify_eq; unfold wait_inv in *; cbn;
    try done; try (by eapply wait_local; [exact Hm|exact E|]);
    try (by eapply wait_local; [exact Hm|exact E|destruct k]);
    try (by eapply wait_local; [exact Hm|exact E|destruct g as [|[]]]).
  all: try (eapply wait_step; [exact E| |done]; cbn in * ).
  - apply w_acquire with (turn := None); [congruence|by left|done].
  - by apply w_mark.
  - by eapply w_lock.
  - apply w_inserts; [done|done|congruence].
  - eapply w_got; [|done|done]. congruence.
  - by apply w_unmark.
  - by eapply w_done.
  - rewrite <- (Hl eq_refl). by apply w_insert.
  - by eapply w_free.
  - by apply w_suspend.
  - apply w_acquire with (turn := None); [congruence|by left|done].
  - apply w_acquire with (turn := None); [congruence|by right|done].
  - by eapply w_drop.
  - by eapply w_unlock_lock.
  - by eapply w_pop_none.
  - rewrite <- (Hl eq_refl). by eapply w_pop.
  - by eapply w_free_took.
  - by eapply w_free_none.
  - by apply w_clear.
  - apply w_frame; [done|done|]. unfold frame_is_full in *. unfold classes. by repeat case_match.
  - pose proof (wo_return _ _ _ _ _ Hm t n Ek) as Hn. apply full_suspended in Hn.
    eapply w_ext; [by eapply w_return|done|]. intros x. rewrite (classes_insert _ t (VReturn n)).
    + destruct (decide (t = x)) as [->|]; [by rewrite !fn_lookup_insert|].
      rewrite !(fn_lookup_insert_ne _ t) by done. by rewrite (classes_insert _ n Suspended).
    + rewrite list_lookup_insert_ne by congruence. done.
Qed.

(** ** The mutex *)

Definition mutex_inv (s : state) : Prop := mcs_inv s /\ wait_inv s.

Lemma mutex_inv_init n : mutex_inv (mutex_init n).
Proof.
  assert (Hp : forall t p, replicate n Idle !! t = Some p -> p = Idle) by (intros t p [-> _]%lookup_replicate; done).
  assert (Hk : forall t, classes (replicate n Idle) t = KOther).
  { intros t. unfold classes. destruct (_ !! _) eqn:E; [|done]. by apply Hp in E as ->. }
  split.
  - exists [], (fun _ => ROut). split; [by split; try (by constructor); try done; set_solver|].
    split; [by intros t p c ->%Hp|by intros t1 t2 p1 p2 c ->%Hp|done].
  - eapply (w_ext _ _ _ _ (fun _ => KOther)); [|done|exact Hk].
    split; cbn; try done; try (by constructor); try set_solver; try naive_solver.
Qed.

Lemma mutex_inv_step s t a s' : mutex_inv s -> step spin_iterations limit s t a = Next s' -> mutex_inv s'.
Proof.
  intros [Hm Hw] G. unfold step in G. destruct (pcs s !! t) as [p|] eqn:E; [|done].
  assert (Hgo : go spin_iterations limit s t p = Next s' -> mutex_inv s').
  { intros Hg. split; [|by eapply wait_go]. eapply mcs_go; [done|done| |done]. intros n ->. apply full_suspended.
    exact (wo_return _ _ _ _ _ Hw t n (classes_at _ _ _ E)). }
  assert (Henter : forall c q, p = Idle -> cpu_of q = Some c -> role_of q = RHeld false -> class_of q = KOther ->
    enter s t c q = Next s' -> mutex_inv s').
  { intros c q -> C R Hk Hg. split; [by eapply mcs_enter_step|]. unfold enter in Hg. destruct (bool_decide (Forall _ _)); [|done].
    destruct (bool_decide _); [done|]. destruct (waiting_on s t); [done|]. injection Hg as <-. by eapply wait_local. }
  destruct a as [c|c| |]; [| | |by apply Hgo; destruct p].
  - destruct p; try done. by apply (Henter c (LWaiting c)).
  - destruct p; try done. by apply (Henter c (TryTail c)).
  - destruct p; try done. destruct (bool_decide _); [|done]. injection G as <-. split; [by eapply mcs_local|by eapply wait_local].
Qed.

Lemma mutex_inv_reachable n s : reachable spin_iterations limit n s -> mutex_inv s.
Proof. induction 1; [apply mutex_inv_init|by eapply mutex_inv_step]. Qed.

(** No assertion fails and no null pointer is followed. *)
Lemma mutex_no_failure s t a : mutex_inv s -> step spin_iterations limit s t a <> Failed.
Proof.
  intros [Hm Hw]. unfold step. destruct (pcs s !! t) as [p|] eqn:E; [|done]. pose proof (classes_at _ _ _ E) as Ek.
  pose proof (wo_turn _ _ _ _ _ Hw t) as Ht. rewrite Ek in Ht.
  assert (Henter : forall c q, p = Idle -> enter s t c q <> Failed).
  { intros c q ->. unfold enter. cbn in *. destruct (bool_decide _); [|done]. rewrite bool_decide_eq_false_2 by naive_solver.
    destruct (waiting_on s t) eqn:Eo; [|done]. apply (wo_on _ _ _ _ _ Hw) in Eo. by rewrite Ek in Eo. }
  destruct a; destruct p; try done; try (by apply Henter); cbn [go get_next_step mcs_unlock_step lock_step unlock_step]; repeat case_match; try done.
  - by rewrite bool_decide_eq_true_2 in * by naive_solver.
  - destruct (mcs_prev_set s t c Hm E). congruence.
  - pose proof (wo_took _ _ _ _ _ Hw t n (or_intror Ek)). congruence.
Qed.

(** C2: for any number of contexts that lock, try and unlock one mutex, in every interleaving: a context in its critical
    section is the one that [turn] names, so there is at most one; at most one context with a place in the queue
    contends for the turn, the others spinning each on its own processor, even while processors leave the queue from
    any position; and no assertion of the code fails and no null pointer is followed. *)
Theorem mutex_exclusive (n : nat) (s : state) : reachable spin_iterations limit n s ->
  (forall t, pcs s !! t = Some Crit -> turn s = Some t) /\
  (forall t1 t2 p1 p2, pcs s !! t1 = Some p1 -> pcs s !! t2 = Some p2 -> role_of p1 = ROwner -> role_of p2 = ROwner -> t1 = t2) /\
  (forall t a, step spin_iterations limit s t a <> Failed).
Proof.
  intros Hr. apply mutex_inv_reachable in Hr as Hi. destruct Hi as [Hm Hw]. split; [|split].
  - intros t E. apply (wo_turn _ _ _ _ _ Hw). by rewrite (classes_at _ _ _ E).
  - intros t1 t2 p1 p2. by apply mcs_owner_one.
  - intros t a. by apply mutex_no_failure.
Qed.

(** C18: no wake-up is lost: in every interleaving, a suspended context is in the list of waiters, or another context is
    about to resume it, and then no third one is; and while there are waiters the mutex is held, or some context is on its
    way to take it or to resume one of them. *)
Theorem mutex_no_lost_wakeup (n : nat) (s : state) (t : nat) : reachable spin_iterations limit n s ->
  pcs s !! t = Some Suspended ->
  (t ∈ waiters s /\ ((exists u, turn s = Some u) \/ exists u q, pcs s !! u = Some q /\ active (class_of q) = true)) \/
  exists u q, pcs s !! u = Some q /\ waking (class_of q) = Some t /\
    forall u' q', pcs s !! u' = Some q' -> waking (class_of q') = Some t -> u' = u.
Proof.
  intros Hr E. apply mutex_inv_reachable in Hr as [_ Hw].
  assert (Hex : forall u, classes (pcs s) u <> KOther -> exists q, pcs s !! u = Some q /\ classes (pcs s) u = class_of q).
  { intros u Hne. unfold classes in *. destruct (pcs s !! u) as [q|]; [by exists q|done]. }
  destruct (wo_sleep _ _ _ _ _ Hw t) as [Hin|[u Hu]]; [by rewrite (classes_at _ _ _ E)| |].
  - left. split; [done|]. destruct (wo_lost _ _ _ _ _ Hw) as [Ht|[u Hu]].
    + left. intros Hws. rewrite Hws in Hin. by apply not_elem_of_nil in Hin.
    + left. destruct (turn s) as [u|]; [by exists u|done].
    + right. destruct (Hex u) as (q & Eq & Ec); [by intros Ek; rewrite Ek in Hu|]. exists u, q. by rewrite <- Ec.
  - right. destruct (Hex u) as (q & Eq & Ec); [by intros Ek; rewrite Ek in Hu|]. exists u, q. rewrite <- Ec. split; [done|].
    split; [done|]. intros u' q' Eq' Hq'. eapply (wo_wake_one _ _ _ _ _ Hw); [|exact Hu]. by rewrite (classes_at _ _ _ Eq').
Qed.
End WaitInvariant.

(** ** A run *)

Fixpoint run (spin limit : Z) (s : state) (l : list (nat * action)) : option state :=
  match l with
  | [] => Some s
  | (t, a) :: l => match step spin limit s t a with Next s => run spin limit s l | _ => None end
  end.

Lemma run_reachable spin limit n l : forall s s', reachable spin limit n s -> run spin limit s l = Some s' -> reachable spin limit n s'.
Proof.
  induction l as [|[t a] l IH]; intros s s' Hr; simpl; [by intros [= <-]|].
  destruct (step spin limit s t a) as [s1| |] eqn:E; [|done|done]. apply IH. by eapply reach_step.
Qed.

(** Context 0 holds the mutex and context 1 contends for it; context 2, behind it, leaves the queue and is suspended. *)
Definition run_example : list (nat * action) :=
  (0%nat, Lock 0%nat) :: replicate 6 (0%nat, Go) ++ (1%nat, Lock 1%nat) :: replicate 3 (1%nat, Go) ++
  (2%nat, Lock 2%nat) :: replicate 17 (2%nat, Go).

Lemma mutex_exclusive_witness : exists s, run 1 5 (mutex_init 3) run_example = Some s /\ pcs s !! 0%nat = Some Crit /\
  turn s = Some 0%nat /\ forall t a, step 1 5 s t a <> Failed.
Proof.
  eexists. split; [by vm_compute|]. split; [done|]. split; [done|].
  apply (mutex_exclusive 1 5 3). eapply (run_reachable 1 5 3 run_example); [apply reach_init|by vm_compute].
Defined.

Lemma mutex_no_lost_wakeup_witness : exists s, run 1 5 (mutex_init 3) run_example = Some s /\ pcs s !! 2%nat = Some Suspended /\
  ((2%nat ∈ waiters s /\ ((exists u, turn s = Some u) \/ exists u q, pcs s !! u = Some q /\ active (class_of q) = true)) \/
   exists u q, pcs s !! u = Some q /\ waking (class_of q) = Some 2%nat /\
     forall u' q', pcs s !! u' = Some q' -> waking (class_of q') = Some 2%nat -> u' = u).
Proof.
  eexists. split; [by vm_compute|]. split; [done|].
  apply (mutex_no_lost_wakeup 1 5 3); [|done]. eapply (run_reachable 1 5 3 run_example); [apply reach_init|by vm_compute].
Defined.
