(* ===== verification/Ringbuf.v ===== *)
(** Ring buffers: [kernel/src/runtime/ringbuf.c] and [ringbuf.h].

    A ring buffer is a buffer whose length is a power of two and whose [start] and
    [end] grow, as 64-bit words, past it.  The bytes a read or a peek stores at its
    destination are its result; [None] is an access outside the array. *)

From S2P Require Import Prelude Words Heap Circular Buffer.

(** ** The code *)

Section Code.
Context {h : Heap}.

Definition allocate_ringbuf (sizeof_buffer len : Z) : option buffer :=
  allocate_buffer sizeof_buffer (U64_FROM_BIT (find_order len)).

Definition ringbuf_produce (b : buffer) (len : Z) : buffer := set_window b (b_start b) (u64 (b_end b + len)).
Definition ringbuf_consume (b : buffer) (len : Z) : buffer := set_window b (u64 (b_start b + len)) (b_end b).
Definition ringbuf_unconsume (b : buffer) (len : Z) : buffer := set_window b (u64 (b_start b - len)) (b_end b).
Definition ringbuf_space (b : buffer) : Z := u64 (b_length b - buffer_length b).

(** The offset in the array of a position. *)
Definition ring_offset (b : buffer) (pos : Z) : Z := Z.land pos (u64 (b_length b - 1)).

Definition ringbuf_write_at (b : buffer) (dest_offset : Z) (src : list Z) : option buffer :=
  let len := Z.of_nat (length src) in
  let dest := ring_offset b dest_offset in
  let avail := Z.min len (b_length b - dest) in
  c ← write_bytes (b_contents b) dest (take (Z.to_nat avail) src);
  if avail <? len then c ← write_bytes c 0 (drop (Z.to_nat avail) src); Some (set_contents b c)
  else Some (set_contents b c).

(** The bytes, or [None] for a result of [false]. *)
Definition ringbuf_peek (b : buffer) (len : Z) : option (option (list Z)) :=
  if buffer_length b <? len then Some None else
  let start := ring_offset b (b_start b) in
  let avail := Z.min len (b_length b - start) in
  l ← read_bytes (b_contents b) start avail;
  if avail <? len then l' ← read_bytes (b_contents b) 0 (len - avail); Some (Some (l ++ l'))
  else Some (Some l).

Definition ringbuf_read (b : buffer) (len : Z) : option (buffer * option (list Z)) :=
  r ← ringbuf_peek b len;
  match r with
  | None => Some (b, None)
  | Some l => Some (ringbuf_consume b len, Some l)
  end.

Definition ringbuf_set_capacity (b : buffer) (len : Z) : option (buffer * Z) :=
  let len := if len <? buffer_length b then buffer_length b else len in
  let len := U64_FROM_BIT (find_order len) in
  if negb (len =? b_length b) then
    match allocate len with
    | None => Some (b, b_length b)
    | Some new =>
        r ← ringbuf_peek b (buffer_length b);
        new ← write_bytes new 0 (default [] r);
        Some ({| b_start := 0; b_end := u64 (b_end b - b_start b); b_length := len; b_wrapped := b_wrapped b;
                 b_contents := new |}, len)
    end
  else Some (b, len).

Definition ringbuf_extend (b : buffer) (len : Z) : option (buffer * bool) :=
  if ringbuf_space b <? len then
    let new_len := if len <=? b_length b then u64 (2 * b_length b) else U64_FROM_BIT (find_order len + 1) in
    '(b, r) ← ringbuf_set_capacity b new_len; Some (b, r =? new_len)
  else Some (b, true).

Definition ringbuf_write (b : buffer) (src : list Z) : option (buffer * bool) :=
  '(b, ok) ← ringbuf_extend b (Z.of_nat (length src));
  if (ok : bool) then b ← ringbuf_write_at b (b_end b) src; Some (ringbuf_produce b (Z.of_nat (length src)), true)
  else Some (b, false).

Definition ringbuf_memset (b : buffer) (c len : Z) : option (buffer * bool) :=
  '(b, ok) ← ringbuf_extend b len;
  if (ok : bool) then
    let e := ring_offset b (b_end b) in
    let avail := Z.min len (b_length b - e) in
    m ← write_bytes (b_contents b) e (replicate (Z.to_nat avail) (u8 c));
    m ← (if avail <? len then write_bytes m 0 (replicate (Z.to_nat (len - avail)) (u8 c)) else Some m);
    Some (ringbuf_produce (set_contents b m) len, true)
  else Some (b, false).

Definition ringbuf_overwrite (b : buffer) (offset : Z) (src : list Z) : option buffer :=
  ringbuf_write_at b (u64 (b_start b + offset)) src.
End Code.

(** ** What a ring buffer holds *)

(** The bytes [ws] from position [s], in an array of [2 ^ k] bytes. *)
Record ring (b : buffer) (k s : Z) (ws : list Z) : Prop := {
  ri_order : 0 <= k <= 60;
  ri_length : b_length b = 2 ^ k;
  ri_array : Z.of_nat (length (b_contents b)) = 2 ^ k;
  ri_fits : Z.of_nat (length ws) <= 2 ^ k;
  ri_start : b_start b = u64 s;
  ri_end : b_end b = u64 (s + Z.of_nat (length ws));
  ri_bytes : forall i w, ws !! i = Some w -> b_contents b !! slot k (s + Z.of_nat i) = Some w;
}.

Lemma u64_sub a b : 0 <= a - b < 2 ^ 64 -> u64 (u64 a - u64 b) = a - b.
Proof. intros H. unfold u64. rewrite <- Zminus_mod. by apply Z.mod_small. Qed.

Section Ring.
Context {b : buffer} {k s : Z} {ws : list Z} (Hb : ring b k s ws).

Lemma ring_pow : 1 <= 2 ^ k <= 2 ^ 60.
Proof. pose proof (ri_order _ _ _ _ Hb). split; [lia|]. apply Z.pow_le_mono_r; lia. Qed.

Lemma ring_buffer_length : buffer_length b = Z.of_nat (length ws).
Proof.
  pose proof ring_pow. destruct Hb. unfold buffer_length. rewrite ri_start0, ri_end0, u64_sub; lia.
Qed.

Lemma ring_offset_mod pos : ring_offset b (u64 pos) = pos mod 2 ^ k.
Proof.
  pose proof ring_pow. destruct Hb. unfold ring_offset. rewrite ri_length0, (u64_small (2 ^ k - 1)) by lia.
  replace (2 ^ k - 1) with (Z.ones k) by by rewrite Z.ones_equiv, Z.sub_1_r. rewrite Z.land_ones by lia.
  unfold u64. apply Z.mod_mod_divide. exists (2 ^ (64 - k)). rewrite <- Z.pow_add_r by lia. f_equal. lia.
Qed.

(** What wraps is at the start of the array. *)
Lemma wrap_split pos j : 0 <= j < 2 ^ k ->
  (pos + j) mod 2 ^ k = if decide (j < 2 ^ k - pos mod 2 ^ k) then pos mod 2 ^ k + j else j - (2 ^ k - pos mod 2 ^ k).
Proof.
  intros Hj. pose proof (Z.mod_pos_bound pos (2 ^ k) ltac:(pose proof ring_pow; lia)) as Hm.
  rewrite <- Zplus_mod_idemp_l. case_decide; [apply Z.mod_small; lia|].
  replace (pos mod 2 ^ k + j) with (j - (2 ^ k - pos mod 2 ^ k) + 1 * 2 ^ k) by lia.
  rewrite Z_mod_plus_full. apply Z.mod_small. lia.
Qed.

(** The slot [i] is the one of position [pos + j] for some [j] below [n]. *)
Lemma slot_hit pos n (i : nat) : 0 <= n <= 2 ^ k -> Z.of_nat i < 2 ^ k ->
  (exists j, 0 <= j < n /\ slot k (pos + j) = i) <->
  pos mod 2 ^ k <= Z.of_nat i < pos mod 2 ^ k + n \/ Z.of_nat i < pos mod 2 ^ k + n - 2 ^ k.
Proof.
  intros Hn Hi. pose proof (Z.mod_pos_bound pos (2 ^ k) ltac:(pose proof ring_pow; lia)) as Hm. unfold slot. split.
  - intros (j & Hj & <-). rewrite wrap_split by lia. case_decide; lia.
  - intros [H|H].
    + exists (Z.of_nat i - pos mod 2 ^ k). split; [lia|]. rewrite wrap_split by lia. case_decide; lia.
    + exists (Z.of_nat i + (2 ^ k - pos mod 2 ^ k)). split; [lia|]. rewrite wrap_split by lia. case_decide; lia.
Qed.

(** A copy into the array at a position, in one piece or two. *)
Lemma ring_copy pos src : Z.of_nat (length src) <= 2 ^ k ->
  let dest := pos mod 2 ^ k in
  let avail := Z.min (Z.of_nat (length src)) (2 ^ k - dest) in
  exists m c, write_bytes (b_contents b) dest (take (Z.to_nat avail) src) = Some m /\
    (if avail <? Z.of_nat (length src) then write_bytes m 0 (drop (Z.to_nat avail) src) else Some m) = Some c /\
    length c = length (b_contents b) /\
    (forall j w, src !! j = Some w -> c !! slot k (pos + Z.of_nat j) = Some w) /\
    (forall i : nat, (forall j, 0 <= j < Z.of_nat (length src) -> slot k (pos + j) <> i) -> c !! i = b_contents b !! i).
Proof.
  intros Hlen dest avail. pose proof ring_pow as Hpow. pose proof (ri_array _ _ _ _ Hb) as Harr.
  pose proof (Z.mod_pos_bound pos (2 ^ k) ltac:(lia)) as Hm. fold dest in Hm.
  assert (Ht : Z.of_nat (length (take (Z.to_nat avail) src)) = avail) by (rewrite length_take; lia).
  assert (Hd : Z.of_nat (length (drop (Z.to_nat avail) src)) = Z.of_nat (length src) - avail) by (rewrite length_drop; lia).
  destruct (write_bytes_spec (b_contents b) dest (take (Z.to_nat avail) src)) as (m & Em & Hml & Hmj); [lia..|].
  rewrite Ht in Hmj. exists m.
  assert (Hsrc : forall j w, src !! j = Some w -> Z.of_nat j < avail -> m !! slot k (pos + Z.of_nat j) = Some w).
  { intros j w Hj Ha. unfold slot. rewrite wrap_split by lia. fold dest. case_decide; [|lia]. rewrite Hmj.
    case_decide; [|lia]. rewrite lookup_take_lt by lia. rewrite <- Hj. f_equal. lia. }
  destruct (Z.ltb_spec avail (Z.of_nat (length src))) as [Hlt|Hge].
  - destruct (write_bytes_spec m 0 (drop (Z.to_nat avail) src)) as (c & Ec & Hcl & Hcj); [lia..|].
    rewrite Hd in Hcj. exists c. split; [done|]. split; [done|]. split; [lia|]. split.
    + intros j w Hj. pose proof (lookup_lt_Some _ _ _ Hj). rewrite Hcj. destruct (decide (Z.of_nat j < avail)).
      * rewrite <- (Hsrc j w Hj) by lia. case_decide as Hc; [|done]. exfalso. revert Hc. unfold slot.
        rewrite wrap_split by lia. fold dest. case_decide; lia.
      * assert (Es : Z.of_nat (slot k (pos + Z.of_nat j)) = Z.of_nat j - (2 ^ k - dest)).
        { unfold slot. rewrite wrap_split by lia. fold dest. case_decide; lia. }
        case_decide; [|lia]. rewrite lookup_drop, <- Hj. f_equal. lia.
    + intros i Hi. destruct (decide (Z.of_nat i < 2 ^ k)) as [Hik|]; [|rewrite !lookup_ge_None_2; [done|lia..]].
      pose proof (proj2 (slot_hit pos (Z.of_nat (length src)) i ltac:(lia) Hik)) as Hh. fold dest in Hh.
      rewrite Hcj, Hmj. case_decide; [destruct Hh as (j & ? & ?); [lia|by destruct (Hi j)]|].
      case_decide; [destruct Hh as (j & ? & ?); [lia|by destruct (Hi j)]|done].
  - exists m. split; [done|]. split; [done|]. split; [done|]. split.
    + intros j w Hj. apply Hsrc; [done|]. apply lookup_lt_Some in Hj. lia.
    + intros i Hi. destruct (decide (Z.of_nat i < 2 ^ k)) as [Hik|]; [|rewrite !lookup_ge_None_2; [done|lia..]].
      pose proof (proj2 (slot_hit pos (Z.of_nat (length src)) i ltac:(lia) Hik)) as Hh. fold dest in Hh.
      rewrite Hmj. case_decide; [destruct Hh as (j & ? & ?); [lia|by destruct (Hi j)]|done].
Qed.

Lemma write_at_ok pos src : Z.of_nat (length src) <= 2 ^ k ->
  exists c, ringbuf_write_at b (u64 pos) src = Some (set_contents b c) /\ length c = length (b_contents b) /\
    (forall j w, src !! j = Some w -> c !! slot k (pos + Z.of_nat j) = Some w) /\
    (forall i : nat, (forall j, 0 <= j < Z.of_nat (length src) -> slot k (pos + j) <> i) -> c !! i = b_contents b !! i).
Proof.
  intros Hlen. destruct (ring_copy pos src Hlen) as (m & c & Em & Ec & H). exists c. split; [|done].
  unfold ringbuf_write_at. rewrite ring_offset_mod, (ri_length _ _ _ _ Hb), Em. cbn [mbind option_bind].
  destruct (_ <? _); [by rewrite Ec|by injection Ec as ->].
Qed.

(** Bytes of the window outside a range of positions. *)
Lemma other_slot i n pos : 0 <= i < Z.of_nat (length ws) -> 0 <= n -> s <= pos -> pos + n <= s + 2 ^ k ->
  s + i < pos \/ pos + n <= s + i -> forall j, 0 <= j < n -> slot k (pos + j) <> slot k (s + i).
Proof.
  intros Hi Hn Hp Hpn Hout j Hj E. pose proof (ri_order _ _ _ _ Hb). pose proof (ri_fits _ _ _ _ Hb).
  apply slot_near in E; lia.
Qed.

Lemma append_ok src c : Z.of_nat (length ws) + Z.of_nat (length src) <= 2 ^ k ->
  length c = length (b_contents b) ->
  (forall j w, src !! j = Some w -> c !! slot k (s + Z.of_nat (length ws) + Z.of_nat j) = Some w) ->
  (forall i : nat, (forall j, 0 <= j < Z.of_nat (length src) -> slot k (s + Z.of_nat (length ws) + j) <> i) ->
     c !! i = b_contents b !! i) ->
  ring (ringbuf_produce (set_contents b c) (Z.of_nat (length src))) k s (ws ++ src).
Proof.
  intros Hfit Hlen Hin Hout. destruct Hb.
  split; simpl; rewrite ?length_app, ?Nat2Z.inj_add; try done; try lia.
  - by rewrite ri_end0, u64_add_l, Z.add_assoc.
  - intros i w Hi. apply lookup_app_Some in Hi as [Hi|[Hge Hi]].
    + pose proof (lookup_lt_Some _ _ _ Hi). rewrite Hout; [by apply ri_bytes0|]. intros j Hj.
      apply (other_slot (Z.of_nat i) (Z.of_nat (length src))); lia.
    + rewrite <- (Hin _ _ Hi). f_equal. f_equal. lia.
Qed.

Lemma overwrite_ok off src : 0 <= off -> off + Z.of_nat (length src) <= Z.of_nat (length ws) ->
  exists b', ringbuf_overwrite b off src = Some b' /\
    ring b' k s (take (Z.to_nat off) ws ++ src ++ drop (Z.to_nat off + length src) ws).
Proof.
  intros Hoff Hfit. pose proof (ri_fits _ _ _ _ Hb).
  destruct (write_at_ok (s + off) src ltac:(lia)) as (c & Ec & Hlen & Hin & Hout).
  exists (set_contents b c). unfold ringbuf_overwrite. rewrite (ri_start _ _ _ _ Hb), u64_add_l. split; [done|].
  assert (Hl : length (take (Z.to_nat off) ws ++ src ++ drop (Z.to_nat off + length src) ws) = length ws).
  { rewrite !length_app, length_take, length_drop. lia. }
  destruct Hb. split; simpl; rewrite ?Hl; try done; try lia. intros i w Hi.
  apply lookup_app_Some in Hi as [Hi|[Hge Hi]]; [|apply lookup_app_Some in Hi as [Hi|[Hge' Hi]]].
  - apply lookup_take_Some in Hi as [Hi Hlt]. rewrite Hout; [by apply ri_bytes0|]. intros j Hj.
    pose proof (lookup_lt_Some _ _ _ Hi). apply (other_slot (Z.of_nat i) (Z.of_nat (length src))); lia.
  - rewrite <- (Hin _ _ Hi). f_equal. f_equal. rewrite length_take in *. lia.
  - rewrite lookup_drop in Hi. rewrite length_take in *. pose proof (lookup_lt_Some _ _ _ Hi).
    replace (Z.to_nat off + length src + (i - Z.to_nat off `min` length ws - length src))%nat with i in * by lia.
    rewrite Hout; [by apply ri_bytes0|]. intros j Hj.
    apply (other_slot (Z.of_nat i) (Z.of_nat (length src))); lia.
Qed.

Lemma peek_ok len : 0 <= len <= Z.of_nat (length ws) -> ringbuf_peek b len = Some (Some (take (Z.to_nat len) ws)).
Proof.
  intros Hlen. pose proof ring_pow. unfold ringbuf_peek. rewrite ring_buffer_length.
  destruct (Z.ltb_spec (Z.of_nat (length ws)) len); [lia|].
  rewrite (ri_start _ _ _ _ Hb), ring_offset_mod, (ri_length _ _ _ _ Hb).
  pose proof (Z.mod_pos_bound s (2 ^ k) ltac:(lia)) as Hm. set (st := s mod 2 ^ k) in *.
  set (avail := Z.min len (2 ^ k - st)).
  assert (Hat : forall i : nat, Z.of_nat i < len -> ws !! i = b_contents b !! Z.to_nat
            (if decide (Z.of_nat i < 2 ^ k - st) then st + Z.of_nat i else Z.of_nat i - (2 ^ k - st))).
  { intros i Hi. destruct (lookup_lt_is_Some_2 ws i) as [w Hw]; [lia|]. pose proof (ri_fits _ _ _ _ Hb).
    rewrite Hw, <- (ri_bytes _ _ _ _ Hb i w Hw). unfold slot. rewrite wrap_split by lia. done. }
  pose proof (ri_array _ _ _ _ Hb) as Harr. pose proof (ri_fits _ _ _ _ Hb).
  rewrite (proj2 (read_bytes_Some (b_contents b) st avail (take (Z.to_nat avail) ws))); cbn [mbind option_bind].
  - destruct (Z.ltb_spec avail len); [|by replace len with avail by lia].
    rewrite (proj2 (read_bytes_Some (b_contents b) 0 (len - avail)
               (take (Z.to_nat (len - avail)) (drop (Z.to_nat avail) ws)))); cbn [mbind option_bind].
    + do 2 f_equal. rewrite take_take_drop. f_equal. lia.
    + split; [lia|]. split; [lia|]. split; [lia|]. apply list_eq. intros i.
      destruct (decide (i < Z.to_nat (len - avail))%nat); [|rewrite !lookup_take_ge by lia; done].
      rewrite !lookup_take_lt, !lookup_drop by lia. rewrite Hat by lia. case_decide; [lia|]. f_equal. lia.
  - split; [lia|]. split; [lia|]. split; [lia|]. apply list_eq. intros i.
    destruct (decide (i < Z.to_nat avail)%nat); [|rewrite !lookup_take_ge by lia; done].
    rewrite !lookup_take_lt, lookup_drop by lia. rewrite Hat by lia. case_decide; [|lia]. f_equal. lia.
Qed.

Lemma consume_ok len : 0 <= len <= Z.of_nat (length ws) ->
  ring (ringbuf_consume b len) k (s + len) (drop (Z.to_nat len) ws).
Proof.
  intros Hlen. destruct Hb. split; simpl; rewrite ?length_drop; try done; try lia.
  - by rewrite ri_start0, u64_add_l.
  - rewrite ri_end0. f_equal. lia.
  - intros i w Hi. rewrite lookup_drop in Hi. rewrite <- (ri_bytes0 _ _ Hi). f_equal. f_equal. lia.
Qed.
End Ring.

(** ** Growing *)

Section Growing.
Context {h : Heap} {hl : HeapLaws h}.

(** A change of capacity that succeeds or leaves the buffer as it was. *)
Lemma set_capacity_ok b k s ws len : ring b k s ws -> 1 <= len <= 2 ^ 60 ->
  let k' := find_order (Z.max len (Z.of_nat (length ws))) in
  (exists b' s', ringbuf_set_capacity b len = Some (b', 2 ^ k') /\ ring b' k' s' ws) \/
  (allocate (2 ^ k') = None /\ k' <> k /\ ringbuf_set_capacity b len = Some (b, 2 ^ k)).
Proof.
  intros Hb Hlen k'. pose proof (ring_pow Hb) as Hpow. pose proof (ri_fits _ _ _ _ Hb) as Hfit.
  destruct (find_order_pow (Z.max len (Z.of_nat (length ws))) 60 ltac:(lia) ltac:(lia)) as [Hk' Hp']. fold k' in Hk', Hp'.
  unfold ringbuf_set_capacity. rewrite (ring_buffer_length Hb).
  replace (if len <? Z.of_nat (length ws) then Z.of_nat (length ws) else len) with (Z.max len (Z.of_nat (length ws)))
    by (destruct (Z.ltb_spec len (Z.of_nat (length ws))); lia).
  fold k'. rewrite U64_FROM_BIT_pow, (ri_length _ _ _ _ Hb) by lia.
  destruct (Z.eqb_spec (2 ^ k') (2 ^ k)) as [E|E]; cbn [negb].
  - left. exists b, s. apply Z.pow_inj_r in E as ->; [|lia|lia|pose proof (ri_order _ _ _ _ Hb); lia]. done.
  - destruct (allocate (2 ^ k')) as [new|] eqn:Ea; [left|right; split; [done|]; split; [congruence|done]].
    rewrite (peek_ok Hb) by lia. cbn [mbind option_bind default id]. rewrite take_ge by lia.
    pose proof (allocate_length _ _ Ea) as Hn.
    destruct (write_bytes_spec new 0 ws) as (c & -> & Hc & Hj); [lia..|]. cbn [mbind option_bind].
    eexists _, 0. split; [done|]. split; simpl; try done; try lia.
    + rewrite (ri_end _ _ _ _ Hb), (ri_start _ _ _ _ Hb), u64_sub, u64_small by lia. lia.
    + intros i w Hi. pose proof (lookup_lt_Some _ _ _ Hi). unfold slot. rewrite Z.mod_small by lia.
      rewrite Hj. case_decide; [|lia]. rewrite <- Hi. f_equal. lia.
Qed.

(** Room for [len] more bytes, or the buffer as it was when memory ran out. *)
Lemma extend_ok b k s ws len : ring b k s ws -> 0 <= len -> Z.of_nat (length ws) + len <= 2 ^ 58 ->
  (exists b' k' s', ringbuf_extend b len = Some (b', true) /\ ring b' k' s' ws /\ Z.of_nat (length ws) + len <= 2 ^ k') \/
  (ringbuf_extend b len = Some (b, false) /\ exists n, 0 <= n /\ allocate n = None).
Proof.
  intros Hb Hlen Hmax. pose proof (ring_pow Hb) as Hpow. pose proof (ri_fits _ _ _ _ Hb) as Hfit.
  unfold ringbuf_extend, ringbuf_space. rewrite (ring_buffer_length Hb), (ri_length _ _ _ _ Hb).
  rewrite (u64_small (2 ^ k - Z.of_nat (length ws))) by lia.
  destruct (Z.ltb_spec (2 ^ k - Z.of_nat (length ws)) len) as [Hlt|Hge].
  2: { left. exists b, k, s. split; [done|]. split; [done|lia]. }
  set (new_len := if len <=? 2 ^ k then u64 (2 * 2 ^ k) else U64_FROM_BIT (find_order len + 1)).
  assert (Hnew : exists m, 0 <= m <= 60 /\ new_len = 2 ^ m /\ Z.of_nat (length ws) + len <= 2 ^ m /\ m <> k).
  { unfold new_len. destruct (Z.leb_spec len (2 ^ k)).
    - exists (k + 1). pose proof (ri_order _ _ _ _ Hb). assert (k < 58) by (apply (Z.pow_lt_mono_r_iff 2); lia).
      rewrite u64_small, Z.pow_add_r by lia. lia.
    - destruct (find_order_pow len 58 ltac:(lia) ltac:(lia)) as [Ho Hp]. exists (find_order len + 1).
      rewrite U64_FROM_BIT_pow by lia. split; [lia|]. split; [done|]. rewrite Z.pow_add_r by lia. split; [lia|].
      intros <-. rewrite Z.pow_add_r in * by lia. lia. }
  destruct Hnew as (m & Hm & -> & Hroom & Hne).
  assert (Hmp : 1 <= 2 ^ m <= 2 ^ 60) by (split; [lia|apply Z.pow_le_mono_r; lia]).
  destruct (set_capacity_ok b k s ws (2 ^ m) Hb Hmp) as [(b' & s' & -> & Hb')|(Ea & _ & ->)]; cbn [mbind option_bind];
    rewrite Z.max_l, find_order_exact in * by lia.
  - rewrite Z.eqb_refl. left. exists b', m, s'. done.
  - right. split; [|exists (2 ^ m); split; [lia|done]]. destruct (Z.eqb_spec (2 ^ k) (2 ^ m)) as [E|]; [|done].
    apply Z.pow_inj_r in E; [done|lia|pose proof (ri_order _ _ _ _ Hb); lia|lia].
Qed.
Lemma write_ok b k s ws src : ring b k s ws -> Z.of_nat (length ws) + Z.of_nat (length src) <= 2 ^ 58 ->
  (exists b' k' s', ringbuf_write b src = Some (b', true) /\ ring b' k' s' (ws ++ src)) \/
  (ringbuf_write b src = Some (b, false) /\ ~ HeapTotal h).
Proof.
  intros Hb Hsrc.
  unfold ringbuf_write. destruct (extend_ok b k s ws (Z.of_nat (length src)) Hb ltac:(lia) Hsrc)
    as [(b' & k' & s' & -> & Hb' & Hroom)|(-> & n & Hn & En)]; cbn [mbind option_bind].
  - left. rewrite (ri_end _ _ _ _ Hb'). destruct (write_at_ok Hb' (s' + Z.of_nat (length ws)) src ltac:(lia))
      as (m & -> & Hm & Hin & Hout). cbn [mbind option_bind]. eexists _, k', s'. split; [done|]. by apply append_ok.
  - right. split; [done|]. intros Ht. by destruct (Ht n Hn).
Qed.

Lemma memset_ok b k s ws c len : ring b k s ws -> 0 <= len -> Z.of_nat (length ws) + len <= 2 ^ 58 ->
  (exists b' k' s', ringbuf_memset b c len = Some (b', true) /\ ring b' k' s' (ws ++ replicate (Z.to_nat len) (u8 c))) \/
  (ringbuf_memset b c len = Some (b, false) /\ ~ HeapTotal h).
Proof.
  intros Hb Hlen Hmax.
  unfold ringbuf_memset. destruct (extend_ok b k s ws len Hb Hlen Hmax)
    as [(b' & k' & s' & -> & Hb' & Hroom)|(-> & n & Hn & En)]; cbn [mbind option_bind].
  - left. set (bs := replicate (Z.to_nat len) (u8 c)). assert (Hbs : Z.of_nat (length bs) = len) by (unfold bs; rewrite length_replicate; lia).
    destruct (ring_copy Hb' (s' + Z.of_nat (length ws)) bs ltac:(lia)) as (m & m' & Em & Em' & Hm & Hin & Hout).
    rewrite Hbs in *. pose proof (ring_pow Hb'). 
    rewrite (ri_end _ _ _ _ Hb'), (ring_offset_mod Hb'), (ri_length _ _ _ _ Hb').
    pose proof (Z.mod_pos_bound (s' + Z.of_nat (length ws)) (2 ^ k') ltac:(lia)).
    unfold bs in Em, Em'. rewrite take_replicate, drop_replicate in *.
    replace (Z.to_nat (Z.min len (2 ^ k' - (s' + Z.of_nat (length ws)) mod 2 ^ k')) `min` Z.to_nat len)%nat
      with (Z.to_nat (Z.min len (2 ^ k' - (s' + Z.of_nat (length ws)) mod 2 ^ k'))) in Em by lia.
    rewrite Em. cbn [mbind option_bind].
    replace (Z.to_nat (len - Z.min len (2 ^ k' - (s' + Z.of_nat (length ws)) mod 2 ^ k')))
      with (Z.to_nat len - Z.to_nat (Z.min len (2 ^ k' - (s' + Z.of_nat (length ws)) mod 2 ^ k')))%nat by lia.
    rewrite Em'. cbn [mbind option_bind]. eexists _, k', s'. split; [done|]. rewrite <- Hbs.
    apply append_ok; rewrite ?Hbs; done.
  - right. split; [done|]. intros Ht. by destruct (Ht n Hn).
Qed.
End Growing.

(** * Properties *)


(** Three bytes around the end of four, the positions about to wrap. *)
Definition sample_ring : buffer :=
  {| b_start := 2 ^ 64 - 1; b_end := 2; b_length := 4; b_wrapped := false; b_contents := [8; 9; 0; 7] |}.

