(* ===== verification/Text.v ===== *)
(** Text: [kernel/src/runtime/text.h], [string.c] and the printing of numbers in
    [runtime_init.c].

    A character is a 32-bit word, UTF-8 encoded in buffers.  An [sstring] is the list
    of its bytes; [char] is signed, as on x86_64.  [None] is a failed assertion or an
    access outside the bytes. *)

From S2P Require Import Prelude Words Heap Buffer.

Definition CHARACTER_INVALID : Z := 0xffffffff.

Definition s8 (x : Z) : Z := (x + 2 ^ 7) mod 2 ^ 8 - 2 ^ 7.

(** ** Digits *)

Definition digit_of (x : Z) : Z :=
  if (x <=? 102) && (97 <=? x) then s8 (x - 97 + 10)
  else if (x <=? 70) && (65 <=? x) then s8 (x - 65 + 10)
  else if (x <=? 57) && (48 <=? x) then s8 (x - 48)
  else -1.

Definition byte_from_hex (msn lsn : Z) : Z :=
  let n1 := digit_of msn in
  if n1 <? 0 then -1 else
  let n2 := digit_of lsn in
  if n2 <? 0 then -1 else Z.lor (Z.shiftl n1 4) n2.

(** [hex] as characters, that is, sign-extended bytes. *)
Fixpoint buf_hex_cmp (buf hex : list Z) (n : nat) : option Z :=
  match n with
  | O => Some 0
  | S n =>
      match buf, hex with
      | x :: buf, m :: l :: hex =>
          let b := byte_from_hex (u32 (s8 m)) (u32 (s8 l)) in
          if b <? 0 then Some b
          else if negb (u8 b =? x) then Some (x - b)
          else buf_hex_cmp buf hex n
      | _, _ => None
      end
  end.

(** ** UTF-8 *)

Definition utf8_length (x : Z) : Z :=
  if negb (Z.land (Z.lnot x) 0x80 =? 0) then 1
  else if Z.land x 0xe0 =? 0xc0 then 2
  else if Z.land x 0xf0 =? 0xe0 then 3
  else if Z.land x 0xf8 =? 0xf0 then 4
  else 1.

(** The bytes of a string up to its terminating zero. *)
Fixpoint string_character_length (s : list Z) : option Z :=
  match s with
  | [] => None
  | x :: s =>
      if x =? 0 then Some 0
      else n ← string_character_length s; Some (if negb (Z.land x 0xc0 =? 0x80) then n + 1 else n)
  end.

Fixpoint utf8_tail (c : Z) (l : list Z) : Z :=
  match l with
  | [] => c
  | x :: l => utf8_tail (Z.lor (u32 (Z.shiftl c 6)) (Z.land x 0x3f)) l
  end.

(** The character and the count of bytes. *)
Definition utf8_decode (x : list Z) : Z * Z :=
  match x with
  | [] => (CHARACTER_INVALID, 0)
  | x0 :: rest =>
      let len := utf8_length x0 in
      if Z.of_nat (length x) <? len then (CHARACTER_INVALID, 0) else
      let c := if len =? 1 then u32 (s8 x0)
               else if len =? 2 then Z.land x0 0x3f
               else if len =? 3 then Z.land x0 0x1f
               else Z.land x0 0xf in
      (utf8_tail c (take (Z.to_nat (len - 1)) rest), len)
  end.

Section Characters.
Context {h : Heap}.

(** [&&] over writes of bytes. *)
Fixpoint write_each (b : buffer) (l : list Z) : option (buffer * bool) :=
  match l with
  | [] => Some (b, true)
  | x :: l => '(b, ok) ← buffer_write_byte b x; if (ok : bool) then write_each b l else Some (b, false)
  end.

Definition utf8_bytes (c : Z) : list Z :=
  if c <? 0x80 then [c]
  else if c <? 0x800 then [Z.lor 0xc0 (Z.shiftr c 6); Z.lor 0x80 (Z.land c 0x3f)]
  else if c <? 0x10000 then
    [Z.lor 0xe0 (Z.shiftr c 12); Z.lor 0x80 (Z.land (Z.shiftr c 6) 0x3f); Z.lor 0x80 (Z.land c 0x3f)]
  else
    [Z.lor 0xf0 (Z.shiftr c 18); Z.lor 0x80 (Z.land (Z.shiftr c 12) 0x3f);
     Z.lor 0x80 (Z.land (Z.shiftr c 6) 0x3f); Z.lor 0x80 (Z.land c 0x3f)].

Definition push_character (s : buffer) (c : Z) : option (buffer * bool) :=
  if c <? 0x110000 then write_each s (utf8_bytes c) else Some (s, false).

(** The bytes of a buffer. *)
Definition buffer_to_sstring (b : buffer) : option (list Z) :=
  off ← buffer_ref b 0; read_bytes (b_contents b) off (buffer_length b).

Definition pop_character (b : buffer) : option (buffer * Z) :=
  x ← buffer_to_sstring b;
  let '(c, z) := utf8_decode x in
  Some (set_window b (u64 (b_start b + z)) (b_end b), c).

(** The first byte of a buffer. *)
Definition first_byte (b : buffer) : option Z :=
  off ← buffer_ref b 0; l ← read_bytes (b_contents b) off 1; head l.

(** The bytes stored at [dest]; each iteration reads at least one byte. *)
Fixpoint read_cstring_loop (fuel : nat) (b : buffer) (maxlen count : Z) (dest : list Z) : option (buffer * list Z * bool) :=
  match fuel with
  | O => None
  | S fuel =>
      if buffer_length b =? 0 then Some (b, dest, false) else
      c ← first_byte b;
      let len := utf8_length c in
      if u64 (maxlen - count) <? len then Some (b, dest, false) else
      '(b, ok, bs) ← buffer_read b len;
      if negb ok then Some (b, dest, false)
      else if c =? 0 then Some (b, dest ++ bs, true)
      else read_cstring_loop fuel b maxlen (u64 (count + len)) (dest ++ bs)
  end.

Definition read_cstring (b : buffer) (maxlen : Z) : option (buffer * list Z * bool) :=
  read_cstring_loop (S (Z.to_nat (buffer_length b))) b maxlen 0 [].

(** ** Numbers *)

Fixpoint parse_int_loop (fuel : nat) (b : buffer) (base result : Z) (st : bool) : option (buffer * Z * bool) :=
  match fuel with
  | O => None
  | S fuel =>
      if buffer_length b =? 0 then Some (b, result, st) else
      c ← first_byte b;
      let v := digit_of c in
      if (0 <=? v) && (v <? base) then
        '(b, _) ← pop_u8 b; parse_int_loop fuel b base (u64 (u64 (result * base) + v)) true
      else Some (b, result, st)
  end.

Definition parse_int (b : buffer) (base : Z) : option (buffer * Z * bool) :=
  parse_int_loop (S (Z.to_nat (buffer_length b))) b base 0 false.

Definition is_signed_int_string (b : buffer) : option bool :=
  if 0 <? buffer_length b then c ← first_byte b; Some (c =? 45) else Some false.

Definition parse_signed_int (b : buffer) (base : Z) : option (buffer * Z * bool) :=
  neg ← is_signed_int_string b;
  b ← (if (neg : bool) then '(b, _) ← pop_u8 b; Some b else Some b);
  '(b, r, ok) ← parse_int b base;
  if negb ok then Some (b, s64 r, false) else Some (b, s64 (s64 r * (if (neg : bool) then -1 else 1)), true).

Definition digit_char (upper : bool) (r : Z) : Z :=
  if r <? 10 then 48 + r else (if upper then 65 else 97) + (r - 10).

(** [q] is the quotient and [r] the remainder; every call divides or counts down [pad]. *)
Fixpoint print_number_loop (fuel : nat) (s : buffer) (x base pad : Z) (upper : bool) : option buffer :=
  match fuel with
  | O => None
  | S fuel =>
      let q := x / base in
      let r := x mod base in
      s ← (if (0 <? q) || (1 <? pad) then print_number_loop fuel s q base (s32 (pad - 1)) upper else Some s);
      push_u8 s (digit_char upper r)
  end.

Definition print_number (s : buffer) (x base pad : Z) (upper : bool) : option buffer :=
  print_number_loop (65 + Z.to_nat pad) s x base pad upper.

Definition print_signed_number (s : buffer) (x base pad : Z) (upper : bool) : option buffer :=
  if x <? 0 then s ← push_u8 s 45; print_number s (u64 (s64 (- x))) base pad upper
  else print_number s (u64 x) base pad upper.
End Characters.

(** The offset of the last occurrence of a character; each iteration decodes at
    least one byte. *)
Fixpoint utf8_find_r_loop (fuel : nat) (x : list Z) (offset : nat) (c : Z) (found : option nat) : option (option nat) :=
  match fuel with
  | O => None
  | S fuel =>
      let '(decoded, nbytes) := utf8_decode (drop offset x) in
      if decoded =? CHARACTER_INVALID then Some found
      else utf8_find_r_loop fuel x (offset + Z.to_nat nbytes) c (if decoded =? c then Some offset else found)
  end.

Definition utf8_find_r (x : list Z) (c : Z) : option (option nat) :=
  utf8_find_r_loop (S (length x)) x 0 c None.

(** ** Encoding and decoding *)

(** A test on a range of small numbers, decided by running it. *)
Lemma all_below (n : Z) (P : Z -> bool) : forallb P (seqZ 0 n) = true -> forall y, 0 <= y < n -> P y = true.
Proof. intros H y Hy. rewrite forallb_forall in H. apply H, list_elem_of_In, elem_of_seqZ. lia. Qed.

Definition lead (base mask len y : Z) : bool :=
  (utf8_length (Z.lor base y) =? len) && (Z.land (Z.lor base y) mask =? y) && (0 <=? Z.lor base y) && (Z.lor base y <? 256).

Lemma lead_spec n base mask len y : forallb (lead base mask len) (seqZ 0 n) = true -> 0 <= y < n ->
  utf8_length (Z.lor base y) = len /\ Z.land (Z.lor base y) mask = y /\ is_byte (Z.lor base y).
Proof. intros H Hy. pose proof (all_below n _ H y Hy) as E. unfold lead in E. breflect. unfold is_byte. lia. Qed.

Definition tail (y : Z) : bool := (Z.land (Z.lor 0x80 y) 0x3f =? y) && (0 <=? Z.lor 0x80 y) && (Z.lor 0x80 y <? 256).

Lemma tail_spec x : Z.land (Z.lor 0x80 (Z.land x 0x3f)) 0x3f = x mod 64 /\ is_byte (Z.lor 0x80 (Z.land x 0x3f)).
Proof.
  assert (Ex : Z.land x 0x3f = x mod 64) by (change 0x3f with (Z.ones 6); by rewrite Z.land_ones by lia). rewrite Ex.
  pose proof (Z.mod_pos_bound x 64 ltac:(lia)) as Hx.
  pose proof (all_below 64 tail ltac:(by vm_compute) _ Hx) as E. unfold tail in E. breflect. unfold is_byte. lia.
Qed.

Lemma join6 a y : 0 <= a < 2 ^ 26 -> 0 <= y < 64 -> Z.lor (u32 (Z.shiftl a 6)) y = 64 * a + y.
Proof. intros Ha Hy. rewrite Z.shiftl_mul_pow2, u32_small, lor_pow2 by lia. lia. Qed.

Lemma utf8_bytes_decode c rest : 0 <= c < 0x110000 ->
  Forall is_byte (utf8_bytes c) /\
  utf8_decode (utf8_bytes c ++ rest) = (c, Z.of_nat (length (utf8_bytes c))).
Proof.
  intros Hc. unfold utf8_bytes. rewrite !Z.shiftr_div_pow2 by lia.
  change (2 ^ 6) with 64. change (2 ^ 12) with (64 * 64). change (2 ^ 18) with (64 * (64 * 64)).
  rewrite <- !Z.div_div by lia. remember (c / 64) as c1 eqn:E1. remember (c1 / 64) as c2 eqn:E2. remember (c2 / 64) as c3 eqn:E3.
  pose proof (Z.div_mod c 64 ltac:(lia)). pose proof (Z.div_mod c1 64 ltac:(lia)). pose proof (Z.div_mod c2 64 ltac:(lia)).
  pose proof (Z.mod_pos_bound c 64 ltac:(lia)). pose proof (Z.mod_pos_bound c1 64 ltac:(lia)).
  pose proof (Z.mod_pos_bound c2 64 ltac:(lia)). destruct (tail_spec c) as [T0 B0].
  destruct (tail_spec c1) as [T1 B1]. destruct (tail_spec c2) as [T2 B2].
  destruct (Z.ltb_spec c 0x80); [|destruct (Z.ltb_spec c 0x800); [|destruct (Z.ltb_spec c 0x10000)]].
  - split; [repeat constructor; unfold is_byte; lia|].
    pose proof (all_below 128 (fun y => (utf8_length y =? 1) && (u32 (s8 y) =? y)) ltac:(by vm_compute) c ltac:(lia)) as E.
    cbn beta in E. apply andb_true_iff in E as [L1%Z.eqb_eq L2%Z.eqb_eq]. unfold utf8_decode. cbn [app length]. rewrite L1.
    destruct (Z.ltb_spec (Z.of_nat (S (length rest))) 1); [lia|]. cbn. by rewrite L2.
  - destruct (lead_spec 32 0xc0 0x3f 2 c1 ltac:(by vm_compute) ltac:(lia)) as (L & M & B).
    split; [by repeat (apply Forall_cons_2; [done|])|]. unfold utf8_decode. cbn [app length]. rewrite L, M.
    destruct (Z.ltb_spec (Z.of_nat (S (S (length rest)))) 2); [lia|]. cbn [Z.eqb Pos.eqb].
    change (Z.to_nat (2 - 1)) with 1%nat. cbn [take utf8_tail]. rewrite take_0. cbn [utf8_tail]. rewrite T0, join6 by lia. f_equal. lia.
  - destruct (lead_spec 16 0xe0 0x1f 3 c2 ltac:(by vm_compute) ltac:(lia)) as (L & M & B).
    split; [by repeat (apply Forall_cons_2; [done|])|]. unfold utf8_decode. cbn [app length]. rewrite L, M.
    destruct (Z.ltb_spec (Z.of_nat (S (S (S (length rest))))) 3); [lia|]. cbn [Z.eqb Pos.eqb].
    change (Z.to_nat (3 - 1)) with 2%nat. cbn [take utf8_tail]. rewrite take_0. cbn [utf8_tail]. rewrite T0, T1.
    rewrite (join6 c2) by lia. replace (64 * c2 + c1 mod 64) with c1 by lia. rewrite join6 by lia. f_equal. lia.
  - destruct (lead_spec 8 0xf0 0xf 4 c3 ltac:(by vm_compute) ltac:(lia)) as (L & M & B).
    split; [by repeat (apply Forall_cons_2; [done|])|]. unfold utf8_decode. cbn [app length]. rewrite L, M.
    destruct (Z.ltb_spec (Z.of_nat (S (S (S (S (length rest)))))) 4); [lia|]. cbn [Z.eqb Pos.eqb].
    change (Z.to_nat (4 - 1)) with 3%nat. cbn [take utf8_tail]. rewrite take_0. cbn [utf8_tail]. rewrite T0, T1, T2.
    rewrite (join6 c3) by lia. replace (64 * c3 + c2 mod 64) with c2 by lia.
    rewrite (join6 c2) by lia. replace (64 * c2 + c1 mod 64) with c1 by lia. rewrite join6 by lia. f_equal. lia.
Qed.

Lemma utf8_bytes_lead c : 0 <= c < 0x110000 ->
  exists x l, utf8_bytes c = x :: l /\ utf8_length x = Z.of_nat (length (utf8_bytes c)).
Proof.
  intros Hc. destruct (utf8_bytes_decode c [] Hc) as [_ E]. rewrite app_nil_r in E.
  destruct (utf8_bytes c) as [|x l]; [injection E as <-; unfold CHARACTER_INVALID in Hc; lia|]. exists x, l. split; [done|]. unfold utf8_decode in E.
  destruct (_ <? _); [|by injection E]. injection E as _ E. simpl in E. lia.
Qed.

Section CharacterProofs.
Context {h : Heap} {hl : HeapLaws h}.
Implicit Types b : buffer.

Lemma write_byte_spec b x : buffer_ok b -> is_byte x -> b_end b - b_start b + 1 < 2 ^ 62 ->
  exists b' r, buffer_write_byte b x = Some (b', r) /\ buffer_ok b' /\
    if (r : bool) then payload b' = payload b ++ [x] else b' = b.
Proof.
  intros Hok Hx Hcap. unfold buffer_write_byte.
  destruct (extend_spec b 1 Hok) as (b1 & r & -> & Hok1 & Hp1 & Hr); [lia..|]. cbn [mbind option_bind].
  destruct r; cbn [negb]; [|subst b1; by exists b, false]. rewrite ref_end by done. cbn [mbind option_bind].
  assert (u8 x = x) as -> by (apply Z.mod_small, Hx).
  destruct (put_spec b1 [x] Hok1) as (c & -> & Hok2 & Hp2); [by repeat constructor; apply Hx|done|].
  cbn [mbind option_bind]. eexists _, true. split; [done|]. rewrite <- Hp1. by split.
Qed.

Lemma write_each_spec l : forall b, buffer_ok b -> Forall is_byte l -> b_end b - b_start b + Z.of_nat (length l) < 2 ^ 62 ->
  exists b' r, write_each b l = Some (b', r) /\ buffer_ok b' /\
    if (r : bool) then payload b' = payload b ++ l
    else exists k, (k < length l)%nat /\ payload b' = payload b ++ take k l.
Proof.
  induction l as [|x l IH]; intros b Hok Hl Hcap; cbn [write_each].
  { exists b, true. by rewrite app_nil_r. }
  apply Forall_cons in Hl as [Hx Hl]. cbn [length] in Hcap.
  destruct (write_byte_spec b x Hok Hx ltac:(lia)) as (b1 & r & -> & Hok1 & Hp1). cbn [mbind option_bind].
  destruct r; [|subst b1; exists b, false; split; [done|]; split; [done|]; exists 0%nat; by rewrite app_nil_r; split; [simpl; lia|]].
  pose proof (payload_length _ Hok) as L0. pose proof (payload_length _ Hok1) as L1. rewrite Hp1, length_app in L1. simpl in L1.
  destruct (IH b1 Hok1 Hl ltac:(lia)) as (b2 & r & -> & Hok2 & Hr). exists b2, r. split; [done|]. split; [done|].
  destruct r; [by rewrite Hr, Hp1, <- app_assoc|]. destruct Hr as (k & Hk & ->). exists (S k).
  split; [simpl; lia|]. by rewrite Hp1, <- app_assoc.
Qed.

Lemma to_sstring b : buffer_ok b -> buffer_to_sstring b = Some (payload b).
Proof.
  intros Hok. pose proof Hok as [Hw He Hl Hc Hb]. unfold buffer_to_sstring.
  rewrite ref_offset, Z.add_0_r by (done || lia). cbn [mbind option_bind]. rewrite buffer_length_ok, read_window by (done || lia).
  f_equal. apply take_ge. pose proof (payload_length b Hok). lia.
Qed.

Lemma pop_character_spec b : buffer_ok b -> let '(c, z) := utf8_decode (payload b) in
  0 <= z <= Z.of_nat (length (payload b)) ->
  exists b', pop_character b = Some (b', c) /\ buffer_ok b' /\ payload b' = drop (Z.to_nat z) (payload b).
Proof.
  intros Hok. destruct (utf8_decode (payload b)) as [c z] eqn:E. intros Hz. rewrite payload_length in Hz by done.
  unfold pop_character. rewrite to_sstring by done. cbn [mbind option_bind]. rewrite E.
  pose proof Hok as [Hw He Hl Hc Hb]. rewrite u64_small by lia. eexists. split; [done|]. by apply drop_payload.
Qed.
End CharacterProofs.

(** ** Numbers *)

(** Whether a character is a digit of a base, and the number a list of digits is. *)
Definition is_digit (base c : Z) : bool := (0 <=? digit_of c) && (digit_of c <? base).

Definition digits_value (base : Z) (acc : Z) (ds : list Z) : Z :=
  foldl (fun acc c => acc * base + digit_of c) acc ds.

Lemma digit_char_spec upper base r : 2 <= base <= 16 -> 0 <= r < base ->
  digit_of (digit_char upper r) = r /\ is_digit base (digit_char upper r) = true /\ u8 (digit_char upper r) = digit_char upper r.
Proof.
  intros Hb Hr.
  pose proof (all_below 16 (fun r => (digit_of (digit_char upper r) =? r) && (u8 (digit_char upper r) =? digit_char upper r))
                ltac:(by destruct upper; vm_compute) r ltac:(lia)) as E.
  cbn beta in E. apply andb_true_iff in E as [E1%Z.eqb_eq E2%Z.eqb_eq]. unfold is_digit. rewrite E1.
  split; [done|]. split; [|done]. destruct (Z.leb_spec 0 r), (Z.ltb_spec r base); lia || done.
Qed.

Section NumberProofs.
Context {h : Heap} {hl : HeapLaws h} {ht : HeapTotal h}.
Implicit Types b : buffer.

(** Buffers that can grow. *)
Definition growing b : Prop := buffer_ok b /\ b_start b = 0 /\ b_wrapped b = false.

Lemma push_u8_total b x : growing b -> b_end b + 1 < 2 ^ 62 ->
  exists b', push_u8 b x = Some b' /\ growing b' /\ payload b' = payload b ++ [u8 x] /\ b_end b' = b_end b + 1.
Proof.
  intros (Hok & Hs & Hw) Hcap. destruct (extend_spec b 1 Hok) as (b1 & r & E1 & Hok1 & Hp1 & Hr); [lia..|].
  destruct (buffer_extend_shape b 1 b1 r E1 Hok Hs ltac:(lia) ltac:(lia)) as (Hs1 & Hw1 & _ & Hf).
  destruct r; [|destruct (Hf eq_refl) as [?|(n & Hn & En)]; [congruence|by destruct (ht n Hn)]].
  destruct (put_spec b1 [u8 x] Hok1) as (c & Ec & Hok2 & Hp2);
    [repeat constructor; apply Z.mod_pos_bound; lia|done|].
  pose proof (payload_length _ Hok) as L0. pose proof (payload_length _ Hok1) as L1. rewrite Hp1 in L1.
  pose proof Hok1 as [W1 W2 W3 W4 W5]. eexists. split; [|split; [split; [exact Hok2|simpl; rewrite Hw1; done]|]].
  - unfold push_u8. rewrite E1. cbn [mbind option_bind kassert]. unfold kassert.
    destruct (Z.leb_spec (b_start b1) (b_end b1)); [|lia]. destruct (Z.ltb_spec (b_end b1) (b_length b1)); [|lia].
    cbn [mbind option_bind]. rewrite ref_end by done. cbn [mbind option_bind]. rewrite Ec. done.
  - split; [by rewrite Hp2, Hp1|]. simpl. rewrite u64_small by lia. lia.
Qed.

(** Printing appends digits of the number, at least [pad] of them. *)
Lemma print_loop_spec fuel : forall b x base pad upper, growing b -> 2 <= base <= 16 -> 0 <= x < 2 ^ (Z.of_nat fuel - 1) ->
  pad < Z.of_nat fuel -> - 2 ^ 31 + Z.of_nat fuel <= pad < 2 ^ 31 -> b_end b + Z.of_nat fuel < 2 ^ 62 -> (0 < fuel)%nat ->
  exists b' ds, print_number_loop fuel b x base pad upper = Some b' /\ growing b' /\ payload b' = payload b ++ ds /\
    ds <> [] /\ Forall (fun c => is_digit base c = true) ds /\ digits_value base 0 ds = x /\
    pad <= Z.of_nat (length ds) /\ b_end b' = b_end b + Z.of_nat (length ds) /\ Z.of_nat (length ds) <= Z.of_nat fuel.
Proof.
  induction fuel as [|fuel IH]; intros b x base pad upper Hg Hb Hx Hpf Hpad Hcap Hf; [lia|]. cbn [print_number_loop].
  pose proof (Z.div_mod x base ltac:(lia)) as Hdm. pose proof (Z.mod_pos_bound x base ltac:(lia)) as Hr.
  destruct (digit_char_spec upper base (x mod base) Hb Hr) as (Hd & Hisd & Hu8).
  destruct ((0 <? x / base) || (1 <? pad)) eqn:Emore.
  - assert (Hfp : (0 < fuel)%nat).
    { destruct fuel; [|lia]. change (2 ^ (Z.of_nat 1 - 1)) with 1 in Hx. assert (x = 0) as -> by lia.
      rewrite Z.div_0_l in Emore by lia. destruct (Z.ltb_spec 1 pad); [lia|done]. }
    assert (Hq : 0 <= x / base < 2 ^ (Z.of_nat fuel - 1)).
    { split; [apply Z.div_pos; lia|]. apply Z.div_lt_upper_bound; [lia|].
      replace (Z.of_nat (S fuel) - 1) with (1 + (Z.of_nat fuel - 1)) in Hx by lia. rewrite Z.pow_add_r in Hx by lia. nia. }
    assert (Es : s32 (pad - 1) = pad - 1).
    { unfold s32. rewrite Z.mod_small; lia. }
    rewrite Es. destruct (IH b (x / base) base (pad - 1) upper) as (b1 & ds & -> & Hg1 & Hp1 & Hne & Hds & Hv & Hlen & He & Hl2);
      [done|done|done|lia..|]. cbn [mbind option_bind].
    destruct (push_u8_total b1 (digit_char upper (x mod base)) Hg1 ltac:(lia)) as (b2 & -> & Hg2 & Hp2 & He2).
    exists b2, (ds ++ [digit_char upper (x mod base)]). rewrite Hu8 in Hp2. split; [done|]. split; [done|].
    split; [by rewrite Hp2, Hp1, app_assoc|]. split; [by destruct ds|]. split; [apply Forall_app; by repeat constructor|].
    rewrite length_app. cbn [length]. split; [|lia]. unfold digits_value in *. rewrite foldl_app. simpl. rewrite Hv, Hd. lia.
  - apply orb_false_iff in Emore as [Eq%Z.ltb_ge Ep%Z.ltb_ge]. cbn [mbind option_bind].
    destruct (push_u8_total b (digit_char upper (x mod base)) Hg ltac:(lia)) as (b2 & -> & Hg2 & Hp2 & He2).
    exists b2, [digit_char upper (x mod base)]. rewrite Hu8 in Hp2. split; [done|]. split; [done|]. split; [done|].
    split; [done|]. split; [by repeat constructor|]. cbn [length]. split; [|lia]. unfold digits_value. simpl. rewrite Hd.
    assert (0 <= x / base) by (apply Z.div_pos; lia). nia.
Qed.

Lemma first_byte_spec b x l : buffer_ok b -> payload b = x :: l -> first_byte b = Some x.
Proof.
  intros Hok Hp. pose proof (payload_length b Hok) as Hlen. rewrite Hp in Hlen. simpl in Hlen.
  pose proof Hok as [Hw He Hl Hc Hb]. unfold first_byte. rewrite ref_offset, Z.add_0_r by (done || lia).
  cbn [mbind option_bind]. rewrite read_window by (done || lia). by rewrite Hp.
Qed.

Lemma length_zero b : buffer_ok b -> (buffer_length b =? 0) = bool_decide (payload b = []).
Proof.
  intros Hok. rewrite buffer_length_ok by done. pose proof (payload_length b Hok). apply eq_true_iff_eq.
  rewrite Z.eqb_eq, bool_decide_eq_true. split; [|intros E; rewrite E in *; simpl in *; lia].
  intros E. apply nil_length_inv. lia.
Qed.

(** Parsing consumes the digits there are, up to one that is not of the base. *)
Lemma parse_loop_spec ds : forall fuel b base acc st rest, buffer_ok b -> 2 <= base <= 16 ->
  payload b = ds ++ rest -> Forall (fun c => is_digit base c = true) ds ->
  match rest with [] => True | c :: _ => is_digit base c = false end ->
  (length ds < fuel)%nat ->
  exists b', parse_int_loop fuel b base (u64 acc) st =
      Some (b', u64 (digits_value base acc ds), if decide (ds = []) then st else true) /\
    buffer_ok b' /\ payload b' = rest.
Proof.
  induction ds as [|c ds IH]; intros fuel b base acc st rest Hok Hb Hp Hds Hrest Hf; destruct fuel as [|fuel]; simpl in Hf; try lia;
    cbn [parse_int_loop]; rewrite length_zero, Hp by done.
  - destruct rest as [|c rest]; [by exists b|]. simpl. rewrite (first_byte_spec b c rest) by done.
    cbn [mbind option_bind]. unfold is_digit in Hrest. rewrite Hrest. by exists b.
  - apply Forall_cons in Hds as [Hc Hds]. cbn [app]. rewrite (bool_decide_eq_false_2 (c :: ds ++ rest = [])) by done.
    rewrite (first_byte_spec b c (ds ++ rest)) by done. cbn [mbind option_bind]. unfold is_digit in Hc. rewrite Hc.
    destruct (pop_u8_spec b c (ds ++ rest) Hok Hp) as (b1 & -> & Hok1 & Hp1). cbn [mbind option_bind].
    assert (E : u64 (u64 (u64 acc * base) + digit_of c) = u64 (acc * base + digit_of c)).
    { unfold u64. by rewrite Zplus_mod_idemp_l, Zplus_mod, Zmult_mod_idemp_l, <- Zplus_mod. }
    rewrite E. destruct (IH fuel b1 base (acc * base + digit_of c) true rest) as (b' & -> & Hok' & Hp'); [done..|lia|].
    exists b'. split; [|done]. by destruct (decide (ds = [])).
Qed.

Lemma print_number_spec b x base pad upper : growing b -> 2 <= base <= 16 -> 0 <= x < 2 ^ 64 ->
  - 2 ^ 31 + 65 <= pad < 2 ^ 31 -> b_end b + 65 + Z.max pad 0 < 2 ^ 62 ->
  exists b' ds, print_number b x base pad upper = Some b' /\ growing b' /\ payload b' = payload b ++ ds /\
    ds <> [] /\ Forall (fun c => is_digit base c = true) ds /\ digits_value base 0 ds = x /\ pad <= Z.of_nat (length ds).
Proof.
  intros Hg Hb Hx Hpad Hcap. unfold print_number.
  destruct (print_loop_spec (65 + Z.to_nat pad) b x base pad upper) as (b' & ds & E & H1 & H2 & H3 & H4 & H5 & H6 & _);
    [done|done| |lia..|by exists b', ds].
  split; [lia|]. apply Z.lt_le_trans with (2 ^ 64); [lia|]. apply Z.pow_le_mono_r; lia.
Qed.

Lemma parse_int_spec b base ds rest : buffer_ok b -> 2 <= base <= 16 -> payload b = ds ++ rest -> ds <> [] ->
  Forall (fun c => is_digit base c = true) ds -> 0 <= digits_value base 0 ds < 2 ^ 64 ->
  match rest with [] => True | c :: _ => is_digit base c = false end ->
  exists b', parse_int b base = Some (b', digits_value base 0 ds, true) /\ buffer_ok b' /\ payload b' = rest.
Proof.
  intros Hok Hb Hp Hne Hds Hv Hrest. unfold parse_int. pose proof (payload_length b Hok) as Hl. rewrite Hp, length_app in Hl.
  destruct (parse_loop_spec ds (S (Z.to_nat (buffer_length b))) b base 0 false rest) as (b' & E & Hok' & Hp');
    [done..|rewrite buffer_length_ok by done; lia|]. change (u64 0) with 0 in E.
  rewrite u64_small in E by done. destruct (decide (ds = [])); [done|]. by exists b'.
Qed.

Lemma minus_not_digit base : is_digit base 45 = false.
Proof. done. Qed.

Lemma signed_round_trip b y base pad upper : growing b -> 2 <= base <= 16 -> - 2 ^ 63 <= y < 2 ^ 63 ->
  - 2 ^ 31 + 65 <= pad < 2 ^ 31 -> b_end b + 66 + Z.max pad 0 < 2 ^ 62 ->
  exists b' ds, print_signed_number b y base pad upper = Some b' /\ growing b' /\ payload b' = payload b ++ ds /\
    forall s rest, buffer_ok s -> payload s = ds ++ rest ->
      match rest with [] => True | c :: _ => is_digit base c = false end ->
      is_signed_int_string s = Some (y <? 0) /\ exists s', parse_signed_int s base = Some (s', y, true) /\ buffer_ok s' /\ payload s' = rest.
Proof.
  intros Hg Hb Hy Hpad Hcap. unfold print_signed_number. destruct (Z.ltb_spec y 0) as [Hneg|Hpos].
  - destruct (push_u8_total b 45 Hg ltac:(lia)) as (b1 & -> & Hg1 & Hp1 & He1). cbn [mbind option_bind].
    assert (Ev : u64 (s64 (- y)) = - y).
    { unfold u64, s64. destruct (decide (y = - 2 ^ 63)) as [->|]; [done|].
      rewrite (Z.mod_small (- y + 2 ^ 63)) by lia. rewrite Z.mod_small; lia. }
    rewrite Ev. destruct (print_number_spec b1 (- y) base pad upper) as (b' & ds & E & Hg' & Hp & Hne & Hds & Hv & Hlen);
      [done|done|lia|done|lia|].
    exists b', (45 :: ds). split; [done|]. split; [done|]. split; [by rewrite Hp, Hp1, <- app_assoc|].
    intros s rest Hs Hps Hr. cbn [app] in Hps.
    pose proof (payload_length s Hs) as Hl. rewrite Hps in Hl. cbn [length] in Hl.
    assert (Esg : is_signed_int_string s = Some true).
    { unfold is_signed_int_string. rewrite buffer_length_ok by done. destruct (Z.ltb_spec 0 (b_end s - b_start s)); [|lia].
      by rewrite (first_byte_spec s 45 (ds ++ rest)). }
    destruct (Z.ltb_spec y 0); [|lia]. split; [done|]. unfold parse_signed_int. rewrite Esg. cbn [mbind option_bind].
    destruct (pop_u8_spec s 45 (ds ++ rest) Hs Hps) as (s1 & -> & Hs1 & Hps1). cbn [mbind option_bind].
    destruct (parse_int_spec s1 base ds rest) as (s' & -> & Hs' & Hp'); rewrite ?Hv; try done; try lia.
    cbn [mbind option_bind negb]. exists s'. split; [|done]. do 3 f_equal. unfold s64.
    destruct (decide (y = - 2 ^ 63)) as [->|]; [done|]. rewrite (Z.mod_small (- y + 2 ^ 63)) by lia. rewrite Z.mod_small; lia.
  - rewrite (u64_small y) by lia. destruct (print_number_spec b y base pad upper) as (b' & ds & E & Hg' & Hp & Hne & Hds & Hv & Hlen);
      [done|done|lia|done|lia|].
    exists b', ds. repeat (split; [done|]). intros s rest Hs Hps Hr.
    destruct ds as [|c ds]; [done|]. pose proof (payload_length s Hs) as Hl. rewrite Hps in Hl. cbn [app length] in Hl.
    assert (Esg : is_signed_int_string s = Some false).
    { unfold is_signed_int_string. rewrite buffer_length_ok by done. destruct (Z.ltb_spec 0 (b_end s - b_start s)); [|lia].
      rewrite (first_byte_spec s c (ds ++ rest)) by done. cbn [mbind option_bind].
      destruct (Z.eqb_spec c 45) as [->|_]; [apply Forall_cons in Hds as [Hd _]; by rewrite minus_not_digit in Hd|done]. }
    destruct (Z.ltb_spec y 0); [lia|]. split; [done|]. unfold parse_signed_int. rewrite Esg. cbn [mbind option_bind].
    destruct (parse_int_spec s base (c :: ds) rest) as (s' & -> & Hs' & Hp'); rewrite ?Hv; try done; try lia.
    cbn [mbind option_bind negb]. exists s'. split; [|done]. do 3 f_equal. unfold s64.
    rewrite (Z.mod_small (y + 2 ^ 63)) by lia. rewrite Z.mod_small; lia.
Qed.
End NumberProofs.

(** ** Loops that decode end *)

Lemma utf8_length_range x : 1 <= utf8_length x <= 4.
Proof. unfold utf8_length. repeat case_match; lia. Qed.

Lemma utf8_decode_count l : let '(c, z) := utf8_decode l in
  (z = 0 /\ c = CHARACTER_INVALID) \/ 1 <= z <= Z.of_nat (length l).
Proof.
  unfold utf8_decode. destruct l as [|x l]; [by left|]. pose proof (utf8_length_range x).
  destruct (Z.ltb_spec (Z.of_nat (length (x :: l))) (utf8_length x)); [by left|right; lia].
Qed.

Lemma utf8_find_r_total x c : utf8_find_r x c <> None.
Proof.
  unfold utf8_find_r. assert (H : forall fuel off found, (off <= length x)%nat -> (length x - off < fuel)%nat ->
    utf8_find_r_loop fuel x off c found <> None); [|apply H; lia].
  induction fuel as [|fuel IH]; intros off found Hoff Hf; [lia|]. cbn [utf8_find_r_loop].
  pose proof (utf8_decode_count (drop off x)) as Hd. destruct (utf8_decode (drop off x)) as [dc z].
  destruct (Z.eqb_spec dc CHARACTER_INVALID); [done|]. rewrite length_drop in Hd. apply IH; lia.
Qed.

Lemma read_cstring_total {h : Heap} {hl : HeapLaws h} b maxlen : buffer_ok b -> read_cstring b maxlen <> None.
Proof.
  unfold read_cstring. intros Hok. rewrite buffer_length_ok by done.
  assert (H : forall fuel b count dest, buffer_ok b -> (length (payload b) < fuel)%nat ->
    read_cstring_loop fuel b maxlen count dest <> None).
  { clear b Hok. induction fuel as [|fuel IH]; intros b count dest Hok Hf; [lia|]. cbn [read_cstring_loop].
    rewrite length_zero by done. case_bool_decide; [done|]. destruct (payload b) as [|x l] eqn:Hp; [done|].
    rewrite (first_byte_spec b x l) by done. cbn [mbind option_bind]. pose proof (utf8_length_range x).
    destruct (_ <? _); [done|]. destruct (read_spec b (utf8_length x) Hok ltac:(lia)) as (b' & Hok' & Hr).
    destruct (_ <=? _); [|by rewrite Hr]. destruct Hr as [-> Hp']. cbn [mbind option_bind negb].
    destruct (x =? 0); [done|]. apply IH; [done|]. rewrite Hp', Hp, length_drop. simpl in *. lia. }
  apply H; [done|]. pose proof (payload_length b Hok). lia.
Qed.

(** * Properties *)

(** Characters survive UTF-8.  Below 0x110000 [push_character] appends the
    encoding of the character, or reports failure after a prefix of it when memory
    runs out; above, it refuses and writes nothing.  [pop_character] returns the
    character whose encoding starts the buffer and leaves what follows, and on an
    encoding cut short it returns [CHARACTER_INVALID] and consumes nothing. *)
Theorem utf8_round_trip {h : Heap} {hl : HeapLaws h} b c : buffer_ok b -> b_end b - b_start b + 4 < 2 ^ 62 -> 0 <= c ->
  if c <? 0x110000 then
    (exists b' r, push_character b c = Some (b', r) /\ buffer_ok b' /\
       if (r : bool) then payload b' = payload b ++ utf8_bytes c
       else exists k, (k < length (utf8_bytes c))%nat /\ payload b' = payload b ++ take k (utf8_bytes c)) /\
    (forall s rest, buffer_ok s -> payload s = utf8_bytes c ++ rest ->
       exists s', pop_character s = Some (s', c) /\ buffer_ok s' /\ payload s' = rest) /\
    (forall s k, buffer_ok s -> (k < length (utf8_bytes c))%nat -> payload s = take k (utf8_bytes c) ->
       pop_character s = Some (s, CHARACTER_INVALID))
  else push_character b c = Some (b, false).
Proof.
  intros Hok Hcap Hc. unfold push_character. destruct (Z.ltb_spec c 0x110000) as [Hlt|]; [|done].
  destruct (utf8_bytes_decode c [] (conj Hc Hlt)) as [Hb _]. split; [|split].
  - apply write_each_spec; [done|done|]. unfold utf8_bytes. repeat case_match; simpl; lia.
  - intros s rest Hs Hp. pose proof (pop_character_spec s Hs) as Hpop.
    destruct (utf8_bytes_decode c rest (conj Hc Hlt)) as [_ E]. rewrite Hp, E in Hpop.
    destruct Hpop as (s' & Es & Hs' & Ep); [rewrite length_app; lia|]. exists s'. split; [done|]. split; [done|].
    by rewrite Ep, Nat2Z.id, drop_app_length.
  - intros s k Hs Hk Hp. unfold pop_character. rewrite to_sstring by done. cbn [mbind option_bind]. rewrite Hp.
    destruct (utf8_bytes_lead c (conj Hc Hlt)) as (x & l & E & Hlen). rewrite E in Hk, Hlen |- *.
    pose proof Hs as [Hw He Hl _ _]. unfold utf8_decode. destruct k as [|k]; cbn [take]; rewrite ?Hlen.
    + rewrite Z.add_0_r, u64_small by lia. by destruct s.
    + destruct (Z.ltb_spec (Z.of_nat (length (x :: take k l))) (Z.of_nat (length (x :: l)))) as [_|Hge].
      * rewrite Z.add_0_r, u64_small by lia. by destruct s.
      * simpl in Hge, Hk. rewrite length_take in Hge. lia.
Qed.

(** A printed number parses as itself.  In every base from 2 to 16 and with any
    padding, [print_number] appends at least [pad] characters that [parse_int] reads
    as the same 64-bit number, up to a character that is no digit of the base; and
    the same holds of [print_signed_number] and [parse_signed_int] on every signed
    64-bit number.  Printing ends whatever the number, on a heap that does not run out. *)
Theorem print_parse_number {h : Heap} {hl : HeapLaws h} {ht : HeapTotal h} b x y base pad upper :
  growing b -> 2 <= base <= 16 -> 0 <= x < 2 ^ 64 -> - 2 ^ 63 <= y < 2 ^ 63 ->
  - 2 ^ 31 + 65 <= pad < 2 ^ 31 -> b_end b + 66 + Z.max pad 0 < 2 ^ 62 ->
  (exists b' ds, print_number b x base pad upper = Some b' /\ growing b' /\ payload b' = payload b ++ ds /\
     pad <= Z.of_nat (length ds) /\
     forall s rest, buffer_ok s -> payload s = ds ++ rest ->
       match rest with [] => True | c :: _ => is_digit base c = false end ->
       exists s', parse_int s base = Some (s', x, true) /\ buffer_ok s' /\ payload s' = rest) /\
  (exists b' ds, print_signed_number b y base pad upper = Some b' /\ growing b' /\ payload b' = payload b ++ ds /\
     forall s rest, buffer_ok s -> payload s = ds ++ rest ->
       match rest with [] => True | c :: _ => is_digit base c = false end ->
       exists s', parse_signed_int s base = Some (s', y, true) /\ buffer_ok s' /\ payload s' = rest).
Proof.
  intros Hg Hb Hx Hy Hpad Hcap. split.
  - destruct (print_number_spec b x base pad upper) as (b' & ds & E & Hg' & Hp & Hne & Hds & Hv & Hlen); [done..|lia|].
    exists b', ds. repeat (split; [done|]). intros s rest Hs Hps Hr. rewrite <- Hv.
    apply (parse_int_spec s base ds rest); rewrite ?Hv; done.
  - destruct (signed_round_trip b y base pad upper) as (b' & ds & E & Hg' & Hp & Hparse); [done..|lia|].
    exists b', ds. repeat (split; [done|]). intros s rest Hs Hps Hr. by apply Hparse.
Qed.

Definition empty_buffer : buffer := {| b_start := 0; b_end := 0; b_length := 0; b_wrapped := false; b_contents := [] |}.

Lemma empty_growing : growing empty_buffer.
Proof. by repeat split. Qed.
