(* ===== verification/Value.v ===== *)
(** Values and the headers of their encoding: the integers of [tuple.h] and
    [x86_64/machine.h], and [push_header], [pop_header] and [encode_integer] of
    [tuple.c].

    An integer is tagged in the low bits of its pointer when it fits in 62 bits and
    a buffer of decimal digits otherwise.  The encoding is a sequence of bytes; that
    the operations of buffers append to and take from one is the subject of
    Buffer.v.  [None] is a failed assertion or a halt. *)

From S2P Require Import Prelude Words Heap Buffer Text.

Definition loc := positive.

(** Values by their tag: immediate words, buffers of digits, strings, untyped
    buffers, symbols by name (they are interned), and references to tuples and
    vectors.  [VNull] is the pointer 0; [null_value] is the untyped buffer of
    one zero byte. *)
Inductive value :=
| VNull
| VImm (w : Z)
| VIndirect (ds : list Z)
| VString (bs : list Z)
| VBuffer (bs : list Z)
| VSym (name : list Z)
| VTuple (l : loc)
| VVector (l : loc).

(** ** Integers *)

Definition IMMASK : Z := 2 ^ 62 - 1.
Definition IMM_UINT_MAX : Z := 2 ^ 61.
Definition IMM_SINT_MAX : Z := 2 ^ 61.
Definition IMM_SINT_MIN : Z := - 2 ^ 61.

Definition tagged_immediate_unsigned (n : Z) : Z := Z.lor (u64 (Z.shiftl (Z.land n IMMASK) 2)) 1.
Definition tagged_immediate_signed (n : Z) : Z := Z.lor (u64 (Z.shiftl (Z.land (u64 n) IMMASK) 2)) 1.
Definition u64_from_tagged_immediate (w : Z) : Z := Z.shiftr w 2.
Definition s64_from_tagged_immediate (w : Z) : Z := Z.shiftr (s64 w) 2.

Section Integers.
Context {h : Heap}.

Definition sizeof_buffer : Z := 48.

(** The digits in a new buffer. *)
Definition indirect_integer_from_u64 (n : Z) : option value :=
  b ← allocate_buffer sizeof_buffer 10; b ← print_number b n 10 0 false; Some (VIndirect (payload b)).

Definition indirect_integer_from_s64 (n : Z) : option value :=
  b ← allocate_buffer sizeof_buffer 10; b ← print_signed_number b n 10 0 false; Some (VIndirect (payload b)).

Definition value_from_u64 (n : Z) : option value :=
  if IMM_UINT_MAX <? n then indirect_integer_from_u64 n else Some (VImm (tagged_immediate_unsigned n)).

Definition value_from_s64 (n : Z) : option value :=
  if (IMM_SINT_MAX <? n) || (n <? IMM_SINT_MIN) then indirect_integer_from_s64 n
  else Some (VImm (tagged_immediate_signed n)).

(** The bytes of the values that are buffers of digits for these functions. *)
Definition digits_of (v : value) : option (list Z) :=
  match v with VIndirect bs | VString bs | VBuffer bs => Some bs | _ => None end.

Definition wrap (bs : list Z) : buffer := wrap_buffer bs (Z.of_nat (length bs)).

(** The number and whether there is one. *)
Definition u64_from_value (v : value) : option (Z * bool) :=
  match v with
  | VImm w => Some (u64_from_tagged_immediate w, true)
  | _ =>
      match digits_of v with
      | None => Some (0, false)
      | Some bs => '(_, r, ok) ← parse_int (wrap bs) 10; Some (r, ok)
      end
  end.

Definition s64_from_value (v : value) : option (Z * bool) :=
  match v with
  | VImm w => Some (s64_from_tagged_immediate w, true)
  | _ =>
      match digits_of v with
      | None => Some (0, false)
      | Some bs => '(_, r, ok) ← parse_signed_int (wrap bs) 10; Some (r, ok)
      end
  end.

Definition is_signed_integer_value (v : value) : option bool :=
  match v with
  | VImm w => Some (s64_from_tagged_immediate w <? 0)
  | _ =>
      match digits_of v with
      | None => Some false
      | Some bs => is_signed_int_string (wrap bs)
      end
  end.

(** ** Headers *)

Definition type_buffer : Z := 0.
Definition type_tuple : Z := 1.
Definition type_vector : Z := 2.
Definition type_integer : Z := 3.
Definition type_string : Z := 4.

Definition immediate : bool := true.
Definition reference : bool := false.

(** The loop over [i], which is one less than [n]. *)
Fixpoint header_words (n : nat) (length : Z) : list Z :=
  match n with
  | O => []
  | S i => u8 (Z.lor (Z.land (Z.shiftr length (Z.of_nat i * 7)) 0x7f) (if (i =? 0)%nat then 0 else 0x80))
           :: header_words i length
  end.

Definition push_header (b : list Z) (imm : bool) (type length : Z) : option (list Z) :=
  let bits := s32 (u64 (msb length + 1)) in
  let words := if 3 <? bits then (bits - 3 + (7 - 1)) / 7 else 0 in
  _ ← kassert (type <? 8);
  let first := u8 (Z.lor (Z.lor (Z.lor (Z.shiftl (if imm then 1 else 0) 7) (Z.shiftl type 4))
                                (Z.shiftl (if words =? 0 then 0 else 1) 3)) (Z.shiftr length (words * 7))) in
  Some (b ++ first :: header_words (Z.to_nat words) length).

Fixpoint pop_header_words (f : list Z) (len : Z) : option (list Z * Z) :=
  match f with
  | [] => None
  | a :: f =>
      let len := Z.lor (u64 (Z.shiftl len 7)) (Z.land a 0x7f) in
      if Z.land a 0x80 =? 0 then Some (f, len) else pop_header_words f len
  end.

(** What is left, whether immediate, the type and the length. *)
Definition pop_header (f : list Z) (old_encoding : bool) : option (list Z * bool * Z * Z) :=
  match f with
  | [] => None
  | a :: f =>
      let imm := negb (Z.shiftr a 7 =? 0) in
      let type := if old_encoding then Z.land (Z.shiftr a 6) 1 else Z.land (Z.shiftr a 4) 0x7 in
      let len := Z.land a (if old_encoding then 0x1f else 0x7) in
      if negb (Z.land a (if old_encoding then Z.shiftl 1 5 else Z.shiftl 1 3) =? 0) then
        '(f, len) ← pop_header_words f len; Some (f, imm, type, len)
      else Some (f, imm, type, len)
  end.

Definition encode_integer (dest : list Z) (v : value) : option (list Z) :=
  neg ← is_signed_integer_value v;
  abs ← (if (neg : bool) then '(x, ok) ← s64_from_value v; _ ← kassert (ok : bool); Some (u64 (- x))
         else '(x, ok) ← u64_from_value v; _ ← kassert (ok : bool); Some x);
  dest ← push_header dest immediate type_integer (if (neg : bool) then 1 else 0);
  Some (dest ++ varint_bytes abs).

(** The integer after its header. *)
Definition decode_integer (source : list Z) (len : Z) (imm : bool) : option (list Z * value) :=
  let neg := 0 <? len in
  _ ← kassert (Bool.eqb imm immediate);
  '(n, source) ← decode_varint source 0;
  v ← (if neg then value_from_s64 (s64 (- s64 n)) else value_from_u64 n);
  Some (source, v).
End Integers.

(** ** Headers read back *)

Definition header_byte (i t e x : Z) : Z := u8 (Z.lor (Z.lor (Z.lor (Z.shiftl i 7) (Z.shiftl t 4)) (Z.shiftl e 3)) x).

Lemma header_byte_spec i t e x : 0 <= i < 2 -> 0 <= t < 8 -> 0 <= e < 2 -> 0 <= x < 8 ->
  Z.shiftr (header_byte i t e x) 7 = i /\ Z.land (Z.shiftr (header_byte i t e x) 4) 7 = t /\
  Z.land (header_byte i t e x) 8 = 8 * e /\ Z.land (header_byte i t e x) 7 = x.
Proof.
  intros Hi Ht He Hx.
  set (P := fun i t e x => (Z.shiftr (header_byte i t e x) 7 =? i) && (Z.land (Z.shiftr (header_byte i t e x) 4) 7 =? t) &&
              (Z.land (header_byte i t e x) 8 =? 8 * e) && (Z.land (header_byte i t e x) 7 =? x)).
  pose proof (all_below 2 (fun i => forallb (fun t => forallb (fun e => forallb (P i t e) (seqZ 0 8)) (seqZ 0 2)) (seqZ 0 8))
                ltac:(by vm_compute) i Hi) as H1.
  pose proof (all_below 8 _ H1 t Ht) as H2. pose proof (all_below 2 _ H2 e He) as H3. pose proof (all_below 8 _ H3 x Hx) as H4.
  unfold P in H4. breflect. done.
Qed.

Lemma header_word_spec x (last : bool) : 0 <= x < 128 ->
  let a := u8 (Z.lor x (if last then 0 else 0x80)) in
  Z.land a 0x7f = x /\ (Z.land a 0x80 =? 0) = last.
Proof.
  intros Hx. pose proof (all_below 128 (fun x => let a := u8 (Z.lor x (if last then 0 else 0x80)) in
    (Z.land a 0x7f =? x) && Bool.eqb (Z.land a 0x80 =? 0) last) ltac:(by destruct last; vm_compute) x Hx) as H.
  cbn zeta in H |- *. apply andb_true_iff in H as [H1%Z.eqb_eq H2%eqb_prop]. done.
Qed.

Lemma pop_header_words_spec n length rest : 0 <= length < 2 ^ 64 -> (0 < n)%nat -> 7 * Z.of_nat n < 64 ->
  pop_header_words (header_words n length ++ rest) (Z.shiftr length (7 * Z.of_nat n)) = Some (rest, length).
Proof.
  intros Hl. induction n as [|n IH]; intros Hn H64; [lia|]. cbn [header_words app pop_header_words].
  replace (Z.of_nat n * 7) with (7 * Z.of_nat n) by lia. set (y := Z.shiftr length (7 * Z.of_nat n)).
  assert (Hx : Z.land y 0x7f = y mod 128) by (change 0x7f with (Z.ones 7); rewrite Z.land_ones by lia; done).
  pose proof (Z.mod_pos_bound y 128 ltac:(lia)) as Hm. rewrite Hx.
  destruct (header_word_spec (y mod 128) (n =? 0)%nat Hm) as [Ha Hb]. rewrite Ha, Hb.
  assert (Hy : 0 <= y <= length).
  { unfold y. rewrite Z.shiftr_div_pow2 by lia. split; [apply Z.div_pos; lia|]. apply Z.div_le_upper_bound; [lia|].
    assert (1 <= 2 ^ (7 * Z.of_nat n)) by lia. nia. }
  assert (Hj : Z.lor (u64 (Z.shiftl (Z.shiftr length (7 * Z.of_nat (S n))) 7)) (y mod 128) = y).
  { replace (7 * Z.of_nat (S n)) with (7 * Z.of_nat n + 7) by lia. rewrite <- Z.shiftr_shiftr by lia. fold y.
    rewrite (Z.shiftr_div_pow2 y) by lia. rewrite Z.shiftl_mul_pow2 by lia. change (2 ^ 7) with 128.
    pose proof (Z.div_mod y 128 ltac:(lia)). pose proof (Z.div_pos y 128 ltac:(lia) ltac:(lia)).
    rewrite u64_small by lia. change 128 with (2 ^ 7) at 2. rewrite lor_pow2 by lia. lia. }
  rewrite Hj. destruct n as [|n]; cbn [Nat.eqb].
  - cbn [header_words app]. unfold y. by rewrite Z.mul_0_r, Z.shiftr_0_r.
  - apply IH; lia.
Qed.

(** The number of words after the first byte. *)
Definition extra_words (length : Z) : Z :=
  let bits := s32 (u64 (msb length + 1)) in if 3 <? bits then (bits - 3 + (7 - 1)) / 7 else 0.

Lemma extra_words_spec length : 0 <= length < 2 ^ 64 ->
  0 <= extra_words length /\ 7 * extra_words length < 64 /\ 0 <= Z.shiftr length (extra_words length * 7) < 8.
Proof.
  intros Hl. unfold extra_words. set (bits := s32 (u64 (msb length + 1))).
  assert (Hbits : 0 <= bits <= 64 /\ length < 2 ^ bits).
  { unfold bits, msb. destruct (Z.eqb_spec length 0) as [->|]; [done|].
    pose proof (Z.log2_spec length ltac:(lia)) as Hlog. pose proof (Z.log2_nonneg length).
    assert (Z.log2 length < 64) by (apply Z.log2_lt_pow2; lia). unfold s32.
    rewrite u64_small, Z.mod_small by lia. rewrite <- Z.add_1_r in Hlog. split; [lia|].
    replace (Z.log2 length + 1 + 2 ^ 31 - 2 ^ 31) with (Z.log2 length + 1) by lia. lia. }
  set (words := if 3 <? bits then (bits - 3 + (7 - 1)) / 7 else 0).
  assert (Hw : 0 <= words /\ 7 * words < 64 /\ bits <= 7 * words + 3).
  { unfold words. destruct (Z.ltb_spec 3 bits); [|lia].
    pose proof (Z.div_mod (bits - 3 + (7 - 1)) 7 ltac:(lia)). pose proof (Z.mod_pos_bound (bits - 3 + (7 - 1)) 7 ltac:(lia)). lia. }
  split; [lia|]. split; [lia|]. rewrite Z.shiftr_div_pow2 by lia. split; [apply Z.div_pos; lia|].
  apply Z.div_lt_upper_bound; [lia|]. eapply Z.lt_le_trans; [apply Hbits|]. change 8 with (2 ^ 3).
  rewrite <- Z.pow_add_r by lia. apply Z.pow_le_mono_r; lia.
Qed.

(** The bytes of a header. *)
Definition header_bytes (imm : bool) (type length : Z) : list Z := default [] (push_header [] imm type length).

Lemma header_spec imm type length b rest : 0 <= type < 8 -> 0 <= length < 2 ^ 64 ->
  push_header b imm type length = Some (b ++ header_bytes imm type length) /\
  pop_header (header_bytes imm type length ++ rest) false = Some (rest, imm, type, length) /\
  header_bytes imm type length <> [].
Proof.
  intros Ht Hl. destruct (extra_words_spec length Hl) as (Hw0 & Hw1 & Htop). set (words := extra_words length) in *.
  set (e := if words =? 0 then 0 else 1).
  assert (He : 0 <= e < 2) by (unfold e; destruct (words =? 0); lia).
  set (a := header_byte (if imm then 1 else 0) type e (Z.shiftr length (words * 7))).
  assert (Ep : forall b, push_header b imm type length = Some (b ++ a :: header_words (Z.to_nat words) length)).
  { intros b'. unfold push_header, kassert. destruct (Z.ltb_spec type 8); [done|lia]. }
  assert (Eh : header_bytes imm type length = a :: header_words (Z.to_nat words) length) by (unfold header_bytes; by rewrite Ep).
  rewrite Eh, Ep. split; [done|]. split; [|done].
  destruct (header_byte_spec (if imm then 1 else 0) type e (Z.shiftr length (words * 7))) as (A1 & A2 & A3 & A4);
    [destruct imm; lia|lia|done|done|]. fold a in A1, A2, A3, A4.
  cbn [app pop_header]. change (Z.shiftl 1 3) with 8. rewrite A1, A2, A3, A4.
  replace (negb ((if imm then 1 else 0) =? 0)) with imm by by destruct imm.
  unfold e. destruct (Z.eqb_spec words 0) as [E0|E0]; cbn [Z.mul negb Z.eqb].
  - rewrite E0 in *. change (Z.to_nat 0) with 0%nat. cbn [header_words app]. rewrite Z.mul_0_l, Z.shiftr_0_r. done.
  - replace (words * 7) with (7 * Z.of_nat (Z.to_nat words)) by lia. rewrite pop_header_words_spec by lia. done.
Qed.

(** ** Integers read back *)

Section IntegerProofs.
Context {h : Heap} {hl : HeapLaws h} {ht : HeapTotal h}.

Lemma imm_unsigned n : 0 <= n < 2 ^ 61 ->
  u64_from_tagged_immediate (tagged_immediate_unsigned n) = n /\ s64_from_tagged_immediate (tagged_immediate_unsigned n) = n.
Proof.
  intros Hn. unfold tagged_immediate_unsigned, u64_from_tagged_immediate, s64_from_tagged_immediate, IMMASK.
  replace (2 ^ 62 - 1) with (Z.ones 62) by done. rewrite Z.land_ones, (Z.mod_small n) by lia.
  rewrite Z.shiftl_mul_pow2, u64_small, lor_pow2 by lia. unfold s64. rewrite Z.mod_small by lia.
  rewrite !Z.shiftr_div_pow2 by lia. change (2 ^ 2) with 4.
  replace (n * 4 + 1 + 2 ^ 63 - 2 ^ 63) with (n * 4 + 1) by lia. rewrite Z.div_add_l by lia. change (1 / 4) with 0. lia.
Qed.

Lemma imm_signed n : - 2 ^ 61 <= n < 0 -> s64_from_tagged_immediate (tagged_immediate_signed n) = n.
Proof.
  intros Hn. unfold tagged_immediate_signed, s64_from_tagged_immediate, IMMASK.
  replace (2 ^ 62 - 1) with (Z.ones 62) by done. rewrite Z.land_ones by lia.
  assert (E : u64 n mod 2 ^ 62 = n + 2 ^ 62).
  { unfold u64. replace n with (n + 2 ^ 64 + -1 * 2 ^ 64) at 1 by lia. rewrite Z_mod_plus_full, (Z.mod_small (n + 2 ^ 64)) by lia.
    replace (n + 2 ^ 64) with (n + 2 ^ 62 + 3 * 2 ^ 62) by lia. rewrite Z_mod_plus_full, Z.mod_small; lia. }
  rewrite E, Z.shiftl_mul_pow2, u64_small, lor_pow2 by lia. unfold s64.
  replace ((n + 2 ^ 62) * 2 ^ 2 + 1 + 2 ^ 63) with (n * 4 + 1 + 2 ^ 63 + 1 * 2 ^ 64) by lia.
  rewrite Z_mod_plus_full, Z.mod_small by lia. rewrite Z.shiftr_div_pow2 by lia. change (2 ^ 2) with 4.
  replace (n * 4 + 1 + 2 ^ 63 - 2 ^ 63) with (n * 4 + 1) by lia. rewrite Z.div_add_l by lia. change (1 / 4) with 0. lia.
Qed.

Lemma fresh_growing n b : 0 < n < 2 ^ 62 -> allocate_buffer sizeof_buffer n = Some b ->
  growing b /\ payload b = [] /\ b_end b = 0.
Proof.
  unfold allocate_buffer. intros Hn E. inv_bind. destruct (Z.eqb_spec n 0); [lia|]. cbn [negb] in *.
  match goal with H : allocate n = Some ?c |- _ => pose proof (allocate_length _ _ H); pose proof (allocate_bytes _ _ H) end.
  repeat split; simpl; try done; lia.
Qed.

Lemma wrap_spec bs : Forall is_byte bs -> Z.of_nat (length bs) < 2 ^ 63 -> buffer_ok (wrap bs) /\ payload (wrap bs) = bs.
Proof.
  intros Hb Hl. split; [split; simpl; lia || done|]. unfold payload, wrap, wrap_buffer. simpl.
  rewrite drop_0. apply take_ge. lia.
Qed.

(** The number a value made by one of the constructors stands for. *)
Definition int_value (n : Z) (v : value) : Prop :=
  (0 <= n < 2 ^ 64 /\ n <> 2 ^ 61 /\ value_from_u64 n = Some v) \/ (- 2 ^ 63 <= n < 0 /\ value_from_s64 n = Some v).

Lemma unsigned_digits n v : 0 <= n < 2 ^ 64 -> indirect_integer_from_u64 n = Some v ->
  is_signed_integer_value v = Some false /\ u64_from_value v = Some (n, true).
Proof.
  unfold indirect_integer_from_u64. intros Hn E. inv_bind.
  match goal with H : allocate_buffer _ _ = Some ?b |- _ => destruct (fresh_growing 10 b ltac:(lia) H) as (Hg & Hp & He) end.
  match goal with H : print_number ?b _ _ _ _ = Some ?b' |- _ =>
    destruct (print_number_spec b n 10 0 false) as (b1 & ds & Eq & Hg1 & Hp1 & Hne & Hd & Hv & _); [done|lia|done|lia|lia|];
    rewrite Eq in H; injection H as <- end.
  rewrite Hp in Hp1. cbn [app] in Hp1. pose proof (payload_bytes _ (proj1 Hg1)) as Hb.
  pose proof (payload_length _ (proj1 Hg1)) as Hlen. pose proof (ok_length _ (proj1 Hg1)). pose proof (ok_end _ (proj1 Hg1)). pose proof (ok_window _ (proj1 Hg1)).
  rewrite Hp1 in *. destruct (wrap_spec ds Hb ltac:(lia)) as [Hw Hpw].
  destruct (parse_int_spec (wrap ds) 10 ds [] Hw) as (b2 & Ep & _); [lia|by rewrite app_nil_r|done|done|lia|done|].
  split.
  - unfold is_signed_integer_value, is_signed_int_string. cbn [digits_of]. rewrite buffer_length_ok by done.
    pose proof (payload_length _ Hw) as Hl2. rewrite Hpw in Hl2. destruct ds as [|c ds]; [done|]. cbn [length] in Hl2.
    destruct (Z.ltb_spec 0 (b_end (wrap (c :: ds)) - b_start (wrap (c :: ds)))); [|lia].
    rewrite (first_byte_spec _ c ds) by done. cbn [mbind option_bind]. apply Forall_cons in Hd as [Hc _].
    destruct (Z.eqb_spec c 45) as [->|]; [|done]. by rewrite minus_not_digit in Hc.
  - unfold u64_from_value. cbn [digits_of]. rewrite Ep. cbn [mbind option_bind]. by rewrite Hv.
Qed.

Lemma signed_digits n v : - 2 ^ 63 <= n < 0 -> indirect_integer_from_s64 n = Some v ->
  is_signed_integer_value v = Some true /\ s64_from_value v = Some (n, true).
Proof.
  unfold indirect_integer_from_s64. intros Hn E. inv_bind.
  match goal with H : allocate_buffer _ _ = Some ?b |- _ => destruct (fresh_growing 10 b ltac:(lia) H) as (Hg & Hp & He) end.
  match goal with H : print_signed_number ?b _ _ _ _ = Some ?b' |- _ => rename H into Epr;
    destruct (signed_round_trip b n 10 0 false) as (b1 & ds & Eq & Hg1 & Hp1 & Hparse); [done|lia|lia|lia|lia|];
    rewrite Eq in Epr; injection Epr as <- end.
  rewrite Hp in Hp1. cbn [app] in Hp1. pose proof (payload_bytes _ (proj1 Hg1)) as Hb.
  pose proof (payload_length _ (proj1 Hg1)) as Hlen. pose proof (ok_length _ (proj1 Hg1)). pose proof (ok_end _ (proj1 Hg1)).
  pose proof (ok_window _ (proj1 Hg1)). rewrite Hp1 in *. destruct (wrap_spec ds Hb ltac:(lia)) as [Hw Hpw].
  destruct (Hparse (wrap ds) [] Hw) as (Es & b2 & Ep & _); [by rewrite app_nil_r|done|]. split.
  - unfold is_signed_integer_value. cbn [digits_of]. rewrite Es. destruct (Z.ltb_spec n 0); [done|lia].
  - unfold s64_from_value. cbn [digits_of]. by rewrite Ep.
Qed.

(** The encoding of an integer and what reading it back gives. *)
Definition integer_bytes (n : Z) : list Z := header_bytes immediate type_integer (if n <? 0 then 1 else 0) ++ varint_bytes (Z.abs n).

Lemma encode_integer_spec n v dest : int_value n v -> encode_integer dest v = Some (dest ++ integer_bytes n).
Proof.
  intros Hv. assert (H : (n < 0 -> is_signed_integer_value v = Some true /\ s64_from_value v = Some (n, true)) /\
    (0 <= n -> is_signed_integer_value v = Some false /\ u64_from_value v = Some (n, true))).
  { destruct Hv as [(Hn & Hne & E)|[Hn E]]; (split; intros Hs; [|]); try lia.
    - unfold value_from_u64, IMM_UINT_MAX in E. destruct (Z.ltb_spec (2 ^ 61) n); [by apply unsigned_digits|].
      injection E as <-. destruct (imm_unsigned n ltac:(lia)) as [E1 E2]. simpl. rewrite E1, E2.
      destruct (Z.ltb_spec n 0); [lia|done].
    - unfold value_from_s64, IMM_SINT_MAX, IMM_SINT_MIN in E. destruct (Z.ltb_spec (2 ^ 61) n); [lia|]. cbn [orb] in E.
      destruct (Z.ltb_spec n (- 2 ^ 61)); [apply signed_digits; [lia|done]|]. injection E as <-. simpl.
      rewrite (imm_signed n) by lia. destruct (Z.ltb_spec n 0); [done|lia]. }
  assert (Hr : - 2 ^ 63 <= n < 2 ^ 64) by (destruct Hv; lia).
  unfold encode_integer, integer_bytes. destruct (Z.ltb_spec n 0) as [Hs|Hs].
  - destruct (proj1 H Hs) as [-> ->]. cbn [mbind option_bind]. unfold kassert. cbn [mbind option_bind].
    rewrite (proj1 (header_spec immediate type_integer 1 dest [] ltac:(done) ltac:(done))). cbn [mbind option_bind].
    rewrite u64_small, Z.abs_neq, app_assoc by lia. done.
  - destruct (proj2 H Hs) as [-> ->]. cbn [mbind option_bind]. unfold kassert. cbn [mbind option_bind].
    rewrite (proj1 (header_spec immediate type_integer 0 dest [] ltac:(done) ltac:(done))). cbn [mbind option_bind].
    rewrite Z.abs_eq, app_assoc by lia. done.
Qed.

Lemma decode_integer_spec n v rest : int_value n v ->
  exists source, pop_header (integer_bytes n ++ rest) false = Some (source, immediate, type_integer, if n <? 0 then 1 else 0) /\
    decode_integer source (if n <? 0 then 1 else 0) immediate = Some (rest, v).
Proof.
  intros Hv. assert (Hr : - 2 ^ 63 <= n < 2 ^ 64) by (destruct Hv; lia).
  unfold integer_bytes. rewrite <- app_assoc.
  destruct (header_spec immediate type_integer (if n <? 0 then 1 else 0) [] (varint_bytes (Z.abs n) ++ rest)) as (_ & Hp & _);
    [done|by destruct (n <? 0)|].
  eexists. split; [exact Hp|]. unfold decode_integer, kassert. cbn [Bool.eqb immediate]. cbn [mbind option_bind].
  destruct (varint_bytes_spec (Z.abs n) ltac:(lia)) as (_ & _ & _ & Hd). rewrite Hd. cbn [mbind option_bind].
  destruct Hv as [(Hn & Hne & E)|[Hn E]].
  - destruct (Z.ltb_spec n 0); [lia|]. cbn [Z.ltb Z.compare]. rewrite Z.abs_eq, E by lia. done.
  - destruct (Z.ltb_spec n 0); [|lia]. cbn [Z.ltb Z.compare].
    assert (Es : s64 (- s64 (Z.abs n)) = n).
    { rewrite Z.abs_neq by lia. unfold s64. destruct (decide (n = - 2 ^ 63)) as [->|]; [done|].
      rewrite (Z.mod_small (- n + 2 ^ 63)) by lia. rewrite Z.mod_small; lia. }
    rewrite Es, E. done.
Qed.
End IntegerProofs.

(** The limits of immediate integers are one too large: 2^61 is given an immediate
    whose sign bit is set, so it reads back, and survives encoding, as its negation. *)
Lemma immediate_limit :
  value_from_u64 (h := zero_heap) (2 ^ 61) = value_from_s64 (h := zero_heap) (- 2 ^ 61) /\
  (v ← value_from_s64 (h := zero_heap) (2 ^ 61); s64_from_value v) = Some (- 2 ^ 61, true).
Proof. by vm_compute. Qed.
