(* ===== verification/Tuple.v ===== *)
(** Tuples and vectors and their encoding: [kernel/src/runtime/tuple.c].

    Tuples and vectors live in a store, by location, so that sharing and cycles are
    those of the code; the attributes of a tuple are a map, which is what its table
    implements (Table.v), iterated in an order [iter] that the hash functions decide.
    A source has fewer than 2^31 bytes, so the [int] counters of the loops do not overflow.
    The dictionaries of the encoder and the decoder are maps too.  Memory is not
    exhausted while decoding.  Tuples backed by functions are not modelled.

    Decoding an arbitrary sequence of bytes ends in one of three ways: with a value,
    in a failed assertion or halt, or in an access outside the bytes or to memory the
    code did not initialise ([Wild]); [OutOfFuel] is the bound of the definitions. *)

From stdpp Require Import gmap.
From S2P Require Import Prelude Words Heap Buffer Text Value.

Abbreviation name := (list Z).

Inductive obj := OTuple (m : gmap name value) | OVector (vs : list value).

Abbreviation store := (gmap loc obj).

Inductive outcome (A : Type) := Done (a : A) | Halted | Wild | OutOfFuel.
Arguments Done {A} a.
Arguments Halted {A}.
Arguments Wild {A}.
Arguments OutOfFuel {A}.

Definition obind {A B} (m : outcome A) (f : A -> outcome B) : outcome B :=
  match m with Done a => f a | Halted => Halted | Wild => Wild | OutOfFuel => OutOfFuel end.

Declare Scope outcome_scope.
Delimit Scope outcome_scope with outcome.
Notation "x <- m ; k" := (obind m (fun x => k)) (at level 20, m at level 100, k at level 200, only parsing) : outcome_scope.
Notation "' p <- m ; k" := (obind m (fun p => k)) (at level 20, p pattern, m at level 100, k at level 200, only parsing) : outcome_scope.
Open Scope outcome_scope.

Definition halt_if_none {A} (m : option A) : outcome A := match m with Some a => Done a | None => Halted end.

Section Code.
Context {h : Heap} (iter : gmap name value -> list (name * value)).

(** ** Attributes *)

(** [intern_u64]: the symbol named by the decimal digits. *)
Definition intern_u64 (u : Z) : option name :=
  b ← allocate_buffer sizeof_buffer 20; b ← print_number b u 10 0 false; Some (payload b).

Definition sym_from_attribute (a : value) : option (option name) :=
  match a with
  | VSym s => Some (Some s)
  | _ => '(x, ok) ← u64_from_value a; if (ok : bool) then s ← intern_u64 x; Some (Some s) else Some None
  end.

Definition u64_from_attribute (a : value) : option (Z * bool) :=
  match a with
  | VImm _ => u64_from_value a
  | VSym bs | VIndirect bs => '(_, r, ok) ← parse_int (wrap bs) 10; Some (r, ok)
  | _ => Some (0, false)
  end.

(** [vector_get] takes an [int]; outside there is nothing. *)
Definition vget (vs : list value) (i : Z) : value :=
  let i := s32 i in if i <? 0 then VNull else default VNull (vs !! Z.to_nat i).

(** Past the end [vector_set] leaves a gap of what the memory held. *)
Definition vset (vs : list value) (i : Z) (v : value) : outcome (list value) :=
  let i := s32 i in
  if i <? 0 then Wild
  else if i <? Z.of_nat (length vs) then Done (<[Z.to_nat i := v]> vs)
  else if i =? Z.of_nat (length vs) then Done (vs ++ [v])
  else Wild.

Definition get (s : store) (e a : value) : outcome value :=
  match e with
  | VTuple l =>
      match s !! l with
      | Some (OTuple m) =>
          n <- halt_if_none (sym_from_attribute a);
          Done (match n with Some n => default VNull (m !! n) | None => VNull end)
      | _ => Halted
      end
  | VVector l =>
      match s !! l with
      | Some (OVector vs) =>
          '(i, ok) <- halt_if_none (u64_from_attribute a);
          Done (if (ok : bool) then vget vs i else VNull)
      | _ => Halted
      end
  | _ => Halted
  end.

Definition is_null (v : value) : bool := match v with VNull => true | _ => false end.

Definition set (s : store) (e a v : value) : outcome store :=
  match e with
  | VTuple l =>
      match s !! l with
      | Some (OTuple m) =>
          n <- halt_if_none (sym_from_attribute a);
          match n with
          | Some n => Done (<[l := OTuple (if is_null v then delete n m else <[n := v]> m)]> s)
          | None => Halted
          end
      | _ => Halted
      end
  | VVector l =>
      match s !! l with
      | Some (OVector vs) =>
          '(i, ok) <- halt_if_none (u64_from_attribute a);
          if (ok : bool) then vs <- vset vs i v; Done (<[l := OVector vs]> s) else Halted
      | _ => Halted
      end
  | _ => Halted
  end.

(** ** Encoding *)

Definition dkey : Type := name + loc.

Record estate := { e_dest : list Z; e_dict : gmap dkey Z; e_visited : gset loc; e_total : Z }.

Definition emit (st : estate) (bs : list Z) : estate :=
  {| e_dest := e_dest st ++ bs; e_dict := e_dict st; e_visited := e_visited st; e_total := e_total st |}.
Definition with_header (st : estate) (imm : bool) (type length : Z) : option estate :=
  dest ← push_header (e_dest st) imm type length;
  Some {| e_dest := dest; e_dict := e_dict st; e_visited := e_visited st; e_total := e_total st |}.
Definition srecord (st : estate) (x : dkey) : estate :=
  {| e_dest := e_dest st; e_dict := <[x := Z.of_nat (size (e_dict st)) + 1]> (e_dict st);
     e_visited := e_visited st; e_total := e_total st |}.
Definition visit (st : estate) (l : loc) : estate :=
  {| e_dest := e_dest st; e_dict := e_dict st; e_visited := {[l]} ∪ e_visited st; e_total := e_total st |}.
Definition count_one (st : estate) : estate :=
  {| e_dest := e_dest st; e_dict := e_dict st; e_visited := e_visited st; e_total := e_total st + 1 |}.

Definition encode_symbol (st : estate) (s : name) : option estate :=
  match e_dict st !! inl s with
  | Some ind => with_header st reference type_buffer ind
  | None =>
      st ← with_header st immediate type_buffer (Z.of_nat (length s));
      Some (srecord (emit st s) (inl s))
  end.

Definition encode_string (st : estate) (s : list Z) : option estate :=
  st ← with_header st immediate type_string (Z.of_nat (length s)); Some (emit st s).

Definition sym_no_encode : name := [110; 111; 95; 101; 110; 99; 111; 100; 101].

Definition no_encode (s : store) (v : value) : bool :=
  match v with
  | VTuple l => match s !! l with Some (OTuple m) => negb (is_null (default VNull (m !! sym_no_encode))) | _ => false end
  | _ => false
  end.

(** The reference or the definition of a tuple or a vector. *)
Definition encode_reference (st : estate) (type : Z) (l : loc) (count : Z) : option estate :=
  match e_dict st !! inr l with
  | Some d => st ← with_header st reference type count; Some (emit st (varint_bytes d))
  | None => st ← with_header st immediate type count; Some (srecord st (inr l))
  end.

Section Internal.
Context (s : store) (encode : estate -> value -> option estate).

Fixpoint encode_tuple_each (st : estate) (l : list (name * value)) : option estate :=
  match l with
  | [] => Some st
  | (a, v) :: l =>
      if no_encode s v then encode_tuple_each st l
      else
        st ← encode_symbol st a;
        st ← encode st v;
        encode_tuple_each (count_one st) l
  end.

Definition encode_tuple_internal (st : estate) (l : loc) (m : gmap name value) : option estate :=
  let count :=
    if bool_decide (l ∈ e_visited st) then 0
    else Z.of_nat (length (filter (fun x => no_encode s x.2 = false) (iter m))) in
  st ← encode_reference st type_tuple l count;
  if 0 <? count then encode_tuple_each (visit st l) (iter m) else Some st.

Fixpoint encode_vector_each (st : estate) (l : list value) : option estate :=
  match l with
  | [] => Some st
  | v :: l =>
      st ← encode st (if no_encode s v then VNull else v);
      encode_vector_each (count_one st) l
  end.

Definition encode_vector_internal (st : estate) (l : loc) (vs : list value) : option estate :=
  let count := if bool_decide (l ∈ e_visited st) then 0 else Z.of_nat (length vs) in
  st ← encode_reference st type_vector l count;
  if 0 <? count then encode_vector_each (visit st l) vs else Some st.
End Internal.

(** The recursion enters each tuple or vector once. *)
Fixpoint encode_value_internal (fuel : nat) (s : store) (st : estate) (v : value) : option estate :=
  match fuel with
  | O => None
  | S fuel =>
      match v with
      | VNull => with_header st immediate type_buffer 0
      | VTuple l =>
          match s !! l with
          | Some (OTuple m) => encode_tuple_internal s (encode_value_internal fuel s) st l m
          | _ => None
          end
      | VVector l =>
          match s !! l with
          | Some (OVector vs) => encode_vector_internal s (encode_value_internal fuel s) st l vs
          | _ => None
          end
      | VImm _ | VIndirect _ =>
          dest ← encode_integer (e_dest st) v;
          Some {| e_dest := dest; e_dict := e_dict st; e_visited := e_visited st; e_total := e_total st |}
      | VString bs => encode_string st bs
      | VBuffer bs => st ← with_header st immediate type_buffer (Z.of_nat (length bs)); Some (emit st bs)
      | VSym _ => None
      end
  end.

Definition encode_value (dest : list Z) (dictionary : gmap dkey Z) (s : store) (v : value) (total : Z) : option estate :=
  encode_value_internal (S (S (size s))) s {| e_dest := dest; e_dict := dictionary; e_visited := ∅; e_total := total |} v.
Definition encode_tuple (dest : list Z) (dictionary : gmap dkey Z) (s : store) (l : loc) (total : Z) : option estate :=
  encode_value dest dictionary s (VTuple l) total.

(** One attribute of a tuple; the count of obsolete entries comes back too. *)
Definition encode_eav (dest : list Z) (dictionary : gmap dkey Z) (s : store) (e : loc) (a : name) (v : value)
    (obsolete : Z) : outcome (estate * Z) :=
  let st := {| e_dest := dest; e_dict := dictionary; e_visited := {[e]}; e_total := 0 |} in
  st <- halt_if_none (encode_reference st type_tuple e 1);
  st <- halt_if_none (encode_symbol st a);
  st <- halt_if_none (encode_value_internal (S (S (size s))) s st v);
  old <- get s (VTuple e) (VSym a);
  Done (st, if is_null old then obsolete else obsolete + 1 + (if is_null v then 1 else 0)).

(** ** Decoding *)

Record dstate := { d_src : list Z; d_dict : gmap Z value; d_store : store; d_next : loc; d_total : Z; d_obsolete : Z }.

Definition with_src (st : dstate) (src : list Z) : dstate :=
  {| d_src := src; d_dict := d_dict st; d_store := d_store st; d_next := d_next st; d_total := d_total st;
     d_obsolete := d_obsolete st |}.

Definition drecord (st : dstate) (x : value) : dstate :=
  {| d_src := d_src st; d_dict := <[Z.of_nat (size (d_dict st)) + 1 := x]> (d_dict st); d_store := d_store st;
     d_next := d_next st; d_total := d_total st; d_obsolete := d_obsolete st |}.

(** A new tuple or vector. *)
Definition new_object (st : dstate) (o : obj) : dstate :=
  {| d_src := d_src st; d_dict := d_dict st; d_store := <[d_next st := o]> (d_store st); d_next := Pos.succ (d_next st);
     d_total := d_total st; d_obsolete := d_obsolete st |}.

(** Bytes taken without regard to how many there are. *)
Definition take_bytes (st : dstate) (n : Z) : outcome (dstate * list Z) :=
  if n <=? Z.of_nat (length (d_src st))
  then Done (with_src st (drop (Z.to_nat n) (d_src st)), take (Z.to_nat n) (d_src st)) else Wild.

Definition lookup_index (st : dstate) (i : Z) : outcome value := halt_if_none (d_dict st !! i).

Definition pop_indirect_value (st : dstate) : outcome (dstate * value) :=
  '(e, src) <- halt_if_none (decode_varint (d_src st) 0);
  v <- lookup_index st e;
  Done (with_src st src, v).

(** An integer, a string or a buffer, after the header. *)
Definition decode_leaf (st : dstate) (imm : bool) (type len : Z) : outcome (dstate * value) :=
  if type =? type_integer then
    '(src, v) <- halt_if_none (decode_integer (d_src st) len imm); Done (with_src st src, v)
  else if type =? type_string then
    if imm then '(st, bs) <- take_bytes st len; Done (st, VString bs)
    else v <- lookup_index st len; Done (st, v)
  else if len =? 0 then Done (st, VNull)
  else if imm then '(st, bs) <- take_bytes st len; Done (st, VBuffer bs)
  else v <- lookup_index st len; Done (st, v).

(** The tuple or the vector that a header starts. *)
Definition decode_target (st : dstate) (imm : bool) (o : obj) (v : loc -> value) : outcome (dstate * value) :=
  if imm then Done (drecord (new_object st o) (v (d_next st)), v (d_next st)) else pop_indirect_value st.

(** The name of an attribute. *)
Definition decode_name (st : dstate) (old_encoding : bool) : outcome (dstate * value) :=
  '(src, imm, _, nlen) <- halt_if_none (pop_header (d_src st) old_encoding);
  let st := with_src st src in
  if (imm : bool) then '(st, bs) <- take_bytes st nlen; Done (drecord st (VSym bs), VSym bs)
  else v <- lookup_index st nlen; Done (st, v).

(** [set_new_value] once the value is decoded. *)
Definition store_value (st : dstate) (e a nv : value) : outcome dstate :=
  old <- get (d_store st) e a;
  s <- set (d_store st) e a nv;
  Done {| d_src := d_src st; d_dict := d_dict st; d_store := s; d_next := d_next st; d_total := d_total st + 1;
          d_obsolete := if is_null old then d_obsolete st else d_obsolete st + 1 + (if is_null nv then 1 else 0) |}.

(** Every call reads a header, so the bytes bound the depth and the iterations. *)
Fixpoint decode_value (fuel : nat) (st : dstate) (old_encoding : bool) : outcome (dstate * value) :=
  match fuel with
  | O => OutOfFuel
  | S fuel =>
      '(src, imm, type, len) <- halt_if_none (pop_header (d_src st) old_encoding);
      let st := with_src st src in
      if type =? type_tuple then
        '(st, t) <- decode_target st imm (OTuple ∅) VTuple;
        st <- decode_attributes fuel st t len old_encoding;
        Done (st, t)
      else if type =? type_vector then
        '(st, v) <- decode_target st imm (OVector []) VVector;
        st <- decode_elements fuel st v 0 len old_encoding;
        Done (st, v)
      else decode_leaf st imm type len
  end
with decode_attributes (fuel : nat) (st : dstate) (t : value) (len : Z) (old_encoding : bool) : outcome dstate :=
  match fuel with
  | O => OutOfFuel
  | S fuel =>
      if len <=? 0 then Done st
      else
        '(st, a) <- decode_name st old_encoding;
        '(st, nv) <- decode_value fuel st old_encoding;
        st <- store_value st t a nv;
        decode_attributes fuel st t (len - 1) old_encoding
  end
with decode_elements (fuel : nat) (st : dstate) (v : value) (i len : Z) (old_encoding : bool) : outcome dstate :=
  match fuel with
  | O => OutOfFuel
  | S fuel =>
      if len <=? i then Done st
      else
        '(st, nv) <- decode_value fuel st old_encoding;
        a <- halt_if_none (value_from_u64 i);
        st <- store_value st v a nv;
        decode_elements fuel st v (i + 1) len old_encoding
  end.

(** The decoder on a source. *)
Definition decode (st : dstate) (old_encoding : bool) : outcome (dstate * value) :=
  decode_value (2 * length (d_src st) + 1) st old_encoding.
End Code.
