(* ===== verification/TupleDecode.v ===== *)
(** Decoding arbitrary bytes: it ends, and what it builds is well typed. *)

From stdpp Require Import gmap.
From S2P Require Import Prelude Words Heap Buffer Text Value Tuple.

(** ** A logic of outcomes *)

(** [m] does not run out of fuel, and its result, if any, satisfies [P]. *)
Definition ends {A} (m : outcome A) (P : A -> Prop) : Prop :=
  match m with Done a => P a | Halted | Wild => True | OutOfFuel => False end.

Lemma ends_bind {A B} (m : outcome A) (f : A -> outcome B) P Q :
  ends m P -> (forall a, P a -> ends (f a) Q) -> ends (obind m f) Q.
Proof. destruct m; simpl; auto. Qed.

Lemma ends_weaken {A} (m : outcome A) P Q : ends m P -> (forall a, P a -> Q a) -> ends m Q.
Proof. destruct m; simpl; auto. Qed.

Lemma ends_option {A} (m : option A) (P : A -> Prop) : (forall a, m = Some a -> P a) -> ends (halt_if_none m) P.
Proof. destruct m; simpl; auto. Qed.

(** ** Types *)

(** The references of a value are to objects of their kind. *)
Definition value_ok (s : store) (v : value) : Prop :=
  match v with
  | VTuple l => exists m, s !! l = Some (OTuple m)
  | VVector l => exists vs, s !! l = Some (OVector vs)
  | _ => True
  end.

(** Tuples do not hold null values. *)
Definition obj_ok (s : store) (o : obj) : Prop :=
  match o with
  | OTuple m => map_Forall (fun _ v => value_ok s v /\ v <> VNull) m
  | OVector vs => Forall (value_ok s) vs
  end.

Record dstate_ok (st : dstate) : Prop := {
  ds_objects : map_Forall (fun l o => (l < d_next st)%positive /\ obj_ok (d_store st) o) (d_store st);
  ds_dict : map_Forall (fun i v => 1 <= i <= Z.of_nat (size (d_dict st)) /\ value_ok (d_store st) v) (d_dict st);
}.

(** Objects stay, and keep their kind. *)
Definition same_kind (o o' : obj) : Prop :=
  match o, o' with OTuple _, OTuple _ | OVector _, OVector _ => True | _, _ => False end.
Definition grows (s s' : store) : Prop := forall l o, s !! l = Some o -> exists o', s' !! l = Some o' /\ same_kind o o'.

#[export] Instance grows_preorder : PreOrder grows.
Proof.
  split.
  - intros s l o E. exists o. by destruct o.
  - intros s s1 s2 H1 H2 l o E. destruct (H1 l o E) as (o1 & E1 & K1). destruct (H2 l o1 E1) as (o2 & E2 & K2).
    exists o2. split; [done|]. by destruct o, o1, o2.
Qed.

Lemma value_ok_grows s s' v : grows s s' -> value_ok s v -> value_ok s' v.
Proof.
  intros Hg. destruct v; simpl; try done; intros [x E]; destruct (Hg _ _ E) as (o & E' & K); destruct o; try done; eauto.
Qed.

Lemma obj_ok_grows s s' o : grows s s' -> obj_ok s o -> obj_ok s' o.
Proof.
  intros Hg. destruct o as [m|vs]; simpl.
  - intros H. eapply map_Forall_impl; [exact H|]. intros a v [H1 H2]. split; [by eapply value_ok_grows|done].
  - intros H. eapply Forall_impl; [exact H|]. intros v. by apply value_ok_grows.
Qed.

(** What a step of the decoder keeps: fewer bytes, types, objects. *)
Record steps (st st' : dstate) : Prop := {
  sp_src : (length (d_src st') <= length (d_src st))%nat;
  sp_ok : dstate_ok st';
  sp_grows : grows (d_store st) (d_store st');
}.

Definition steps_value (st : dstate) (r : dstate * value) : Prop := steps st r.1 /\ value_ok (d_store r.1) r.2.

Lemma steps_trans st st1 st2 : steps st st1 -> steps st1 st2 -> steps st st2.
Proof. intros [] []. split; [lia|done|by etransitivity]. Qed.

Lemma steps_refl st : dstate_ok st -> steps st st.
Proof. intros H. by split. Qed.

Lemma with_src_ok st src : dstate_ok st -> (length src <= length (d_src st))%nat -> steps st (with_src st src).
Proof. intros [] Hl. split; [done|by split|apply grows_preorder]. Qed.

(** ** The parts of the decoder *)

Lemma pop_header_words_src f : forall len f' l, pop_header_words f len = Some (f', l) -> (length f' < length f)%nat.
Proof.
  induction f as [|a f IH]; intros len f' l; simpl; [done|]. destruct (_ =? _); [by intros [= <- _]; lia|].
  intros E. apply IH in E. lia.
Qed.

Lemma pop_header_src f old f' imm type len : pop_header f old = Some (f', imm, type, len) -> (length f' < length f)%nat.
Proof.
  unfold pop_header. destruct f as [|a f]; [done|]. destruct (negb _).
  - destruct (pop_header_words f _) as [[f1 l1]|] eqn:E; simpl; [|done]. intros [= <- _ _ _].
    apply pop_header_words_src in E. simpl. lia.
  - intros [= <- _ _ _]. simpl. lia.
Qed.

Lemma decode_varint_src l : forall out v l', decode_varint l out = Some (v, l') -> (length l' < length l)%nat.
Proof.
  induction l as [|m l IH]; intros out v l'; simpl; [done|]. destruct (negb _).
  - intros E. apply IH in E. lia.
  - intros [= _ <-]. lia.
Qed.

Section Parts.
Context {h : Heap}.
Implicit Types (st : dstate) (v : value).

Lemma take_bytes_ends st n : dstate_ok st -> ends (take_bytes st n) (fun r => steps st r.1).
Proof.
  intros Hok. unfold take_bytes. destruct (n <=? _); [|done]. simpl. apply with_src_ok; [done|]. rewrite length_drop. lia.
Qed.

Lemma lookup_index_ends st i : dstate_ok st -> ends (lookup_index st i) (value_ok (d_store st)).
Proof. intros [_ Hd]. apply ends_option. intros v E. by apply (Hd i v E). Qed.

Lemma pop_indirect_ends st : dstate_ok st -> ends (pop_indirect_value st) (steps_value st).
Proof.
  intros Hok. unfold pop_indirect_value. apply ends_bind with (P := fun r => (length r.2 < length (d_src st))%nat).
  - apply ends_option. intros [e src]. apply decode_varint_src.
  - intros [e src] Hs. eapply ends_bind; [by apply lookup_index_ends|]. intros v Hv. split; [|done].
    apply with_src_ok; [done|]. simpl in *. lia.
Qed.

Lemma decode_integer_ends st len imm : dstate_ok st ->
  ends (halt_if_none (decode_integer (d_src st) len imm))
    (fun r => (length r.1 <= length (d_src st))%nat /\ value_ok (d_store st) r.2).
Proof.
  intros Hok. apply ends_option. intros [src v] E. unfold decode_integer in E. inv_bind.
  apply decode_varint_src in E1. simpl. split; [lia|].
  destruct (0 <? len); unfold value_from_s64, value_from_u64, indirect_integer_from_s64, indirect_integer_from_u64 in E2;
    case_match; inv_bind; done.
Qed.

Lemma decode_leaf_ends st imm type len : dstate_ok st -> ends (decode_leaf st imm type len) (steps_value st).
Proof.
  intros Hok. unfold decode_leaf. destruct (_ =? _); [|destruct (_ =? _); [|destruct (_ =? _)]].
  - eapply ends_bind; [by apply decode_integer_ends|]. intros [src v] [Hs Hv]. split; [|done]. by apply with_src_ok.
  - destruct imm; eapply ends_bind; [by apply take_bytes_ends| |by apply lookup_index_ends|].
    + intros [st' bs] Hs. by split.
    + intros v Hv. split; [by apply steps_refl|done].
  - split; [by apply steps_refl|done].
  - destruct imm; eapply ends_bind; [by apply take_bytes_ends| |by apply lookup_index_ends|].
    + intros [st' bs] Hs. by split.
    + intros v Hv. split; [by apply steps_refl|done].
Qed.

(** A new object, empty, and its entry in the dictionary. *)
Lemma new_object_steps st o v : dstate_ok st -> (o = OTuple ∅ /\ v = VTuple (d_next st) \/ o = OVector [] /\ v = VVector (d_next st)) ->
  steps st (drecord (new_object st o) v) /\ value_ok (<[d_next st := o]> (d_store st)) v.
Proof.
  intros [Hobj Hd] Hv.
  assert (Hfresh : d_store st !! d_next st = None).
  { destruct (d_store st !! d_next st) as [o'|] eqn:E; [|done]. destruct (Hobj _ _ E). lia. }
  assert (Hg : grows (d_store st) (<[d_next st := o]> (d_store st))).
  { intros l o' E. exists o'. rewrite lookup_insert_ne by congruence. split; [done|by destruct o']. }
  assert (Hok : value_ok (<[d_next st := o]> (d_store st)) v).
  { destruct Hv as [[-> ->]|[-> ->]]; simpl; rewrite lookup_insert_eq; eauto. }
  split; [|done]. split; [done| |done]. split; simpl.
  - apply map_Forall_insert_2; [split; [lia|]|].
    + destruct Hv as [[-> _]|[-> _]]; [apply map_Forall_empty|constructor].
    + eapply map_Forall_impl; [exact Hobj|]. intros l o' [Hl Ho]. split; [lia|by eapply obj_ok_grows].
  - assert (Hnew : d_dict st !! (Z.of_nat (size (d_dict st)) + 1) = None).
    { destruct (d_dict st !! _) eqn:E; [|done]. destruct (Hd _ _ E). lia. }
    rewrite map_size_insert_None by done. apply map_Forall_insert_2; [split; [lia|done]|].
    eapply map_Forall_impl; [exact Hd|]. intros i v' [Hi Hv']. split; [lia|by eapply value_ok_grows].
Qed.

Lemma decode_target_ends st imm o f : dstate_ok st -> o = OTuple ∅ /\ f = VTuple \/ o = OVector [] /\ f = VVector ->
  ends (decode_target st imm o f) (steps_value st).
Proof.
  intros Hok Hf. unfold decode_target. destruct imm; [|by apply pop_indirect_ends].
  destruct (new_object_steps st o (f (d_next st)) Hok) as [H1 H2]; [naive_solver|]. by split.
Qed.

(** A new name in the dictionary. *)
Lemma drecord_ok st v : dstate_ok st -> value_ok (d_store st) v -> steps st (drecord st v).
Proof.
  intros [Hobj Hd] Hv. split; [done| |apply grows_preorder]. split; [done|]. simpl.
  assert (Hnew : d_dict st !! (Z.of_nat (size (d_dict st)) + 1) = None).
  { destruct (d_dict st !! _) eqn:E; [|done]. destruct (Hd _ _ E). lia. }
  rewrite map_size_insert_None by done. apply map_Forall_insert_2; [split; [lia|done]|].
  eapply map_Forall_impl; [exact Hd|]. intros i v' [Hi Hv']. split; [lia|done].
Qed.

Lemma decode_name_ends st old : dstate_ok st ->
  ends (decode_name st old) (fun r => steps st r.1 /\ (length (d_src r.1) < length (d_src st))%nat).
Proof.
  intros Hok. unfold decode_name.
  apply ends_bind with (P := fun r => (length r.1.1.1 < length (d_src st))%nat).
  { apply ends_option. intros [[[src imm] type] len]. apply pop_header_src. }
  intros [[[src imm] type] len] Hs. simpl in Hs.
  assert (Hst : steps st (with_src st src)) by (apply with_src_ok; [done|lia]).
  destruct imm; eapply ends_bind; [by apply take_bytes_ends, Hst| |by apply lookup_index_ends, Hst|].
  - intros [st' bs] H. simpl in *. pose proof (sp_src _ _ H). split; [|simpl in *; lia].
    eapply steps_trans, drecord_ok; [by eapply steps_trans|apply H|done].
  - intros v Hv. by split.
Qed.

(** Replacing an object by one of its kind. *)
Lemma replace_object st l o o' f : dstate_ok st -> d_store st !! l = Some o -> same_kind o o' -> obj_ok (d_store st) o' ->
  d_src f = d_src st -> d_dict f = d_dict st -> d_next f = d_next st -> d_store f = <[l := o']> (d_store st) -> steps st f.
Proof.
  intros [Hobj Hd] El Hk Ho' Es Ed En Ef.
  assert (Hg : grows (d_store st) (d_store f)).
  { intros l' x E. rewrite Ef. destruct (decide (l = l')) as [<-|].
    - rewrite lookup_insert_eq. simplify_eq. eauto.
    - rewrite lookup_insert_ne by done. exists x. by destruct x. }
  split; [by rewrite Es| |done]. split.
  - intros l' x E. rewrite En. rewrite Ef in E. apply lookup_insert_Some in E as [[<- <-]|[_ E]].
    + split; [by apply (Hobj l o)|by eapply obj_ok_grows].
    + destruct (Hobj l' x E). split; [done|by eapply obj_ok_grows].
  - rewrite Ed. eapply map_Forall_impl; [exact Hd|]. intros i v [Hi Hv]. split; [done|by eapply value_ok_grows].
Qed.

Lemma store_value_ends st e a nv : dstate_ok st -> value_ok (d_store st) nv -> ends (store_value st e a nv) (steps st).
Proof.
  intros Hok Hnv. unfold store_value. apply ends_bind with (P := fun _ => True).
  { unfold get, obind, halt_if_none. repeat case_match; by simplify_eq. }
  intros old _. unfold set. destruct e as [| | | | | |l|l]; try done; simpl.
  - destruct (d_store st !! l) as [[m|]|] eqn:El; try done. destruct (halt_if_none _) as [[n|]| | |] eqn:E; simpl; try done.
    + pose proof (proj2 (ds_objects st Hok l _ El)) as Hm. simpl in Hm.
      eapply (replace_object st l (OTuple m) (OTuple _)); [done|done|done| |reflexivity..]. simpl.
      destruct (is_null nv) eqn:En; [by apply map_Forall_delete|]. apply map_Forall_insert_2; [|done].
      split; [done|by intros ->].
    + by destruct (sym_from_attribute a).
  - destruct (d_store st !! l) as [[|vs]|] eqn:El; try done. destruct (halt_if_none _) as [[i ok]| | |] eqn:E; simpl; try done.
    + pose proof (proj2 (ds_objects st Hok l _ El)) as Hm. simpl in Hm.
      destruct ok; simpl; [|done]. unfold vset. destruct (_ <? 0); [done|].
      destruct (_ <? _); [|destruct (_ =? _); [|done]]; simpl;
        (eapply (replace_object st l (OVector vs) (OVector _)); [done|done|done| |reflexivity..]; simpl).
      * by apply Forall_insert.
      * apply Forall_app. split; [done|]. by apply Forall_singleton.
    + by destruct (u64_from_attribute a).
Qed.
End Parts.

(** ** The decoder *)

Section Decoder.
Context {h : Heap}.
Implicit Types (st : dstate) (v : value).

Lemma decode_ends (fuel : nat) (old : bool) :
  (forall st, dstate_ok st -> (2 * length (d_src st) + 1 <= fuel)%nat ->
    ends (decode_value fuel st old) (fun r => steps_value st r /\ (length (d_src r.1) < length (d_src st))%nat)) /\
  (forall st t len, dstate_ok st -> (2 * length (d_src st) + 2 <= fuel)%nat -> ends (decode_attributes fuel st t len old) (steps st)) /\
  (forall st v i len, dstate_ok st -> (2 * length (d_src st) + 2 <= fuel)%nat -> ends (decode_elements fuel st v i len old) (steps st)).
Proof.
  induction fuel as [|fuel (IHv & IHa & IHe)]; [repeat split; intros; lia|]. repeat split.
  - intros st Hok Hf. cbn [decode_value]. apply ends_bind with (P := fun r => (length r.1.1.1 < length (d_src st))%nat).
    { apply ends_option. intros [[[src imm] type] len]. apply pop_header_src. }
    intros [[[src imm] type] len] Hs. simpl in Hs.
    assert (Hst : steps st (with_src st src)) by (apply with_src_ok; [done|lia]). pose proof (sp_ok _ _ Hst) as Hok1.
    assert (Hfin : forall st1 st2 v, steps (with_src st src) st1 -> value_ok (d_store st1) v -> steps st1 st2 ->
      steps_value st (st2, v) /\ (length (d_src st2) < length (d_src st))%nat).
    { intros st1 st2 v H1 Hv H2. pose proof (sp_src _ _ H1). pose proof (sp_src _ _ H2). simpl in *. split; [|lia]. split.
      - by do 2 (eapply steps_trans; [eassumption|]).
      - eapply value_ok_grows, Hv. apply H2. }
    destruct (_ =? _); [|destruct (_ =? _)].
    + eapply ends_bind; [apply decode_target_ends; [done|by left]|]. intros [st1 t] [H1 Hv]. simpl in *.
      pose proof (sp_src _ _ H1). eapply ends_bind; [apply IHa; [apply H1|simpl in *; lia]|]. intros st2 H2. by eapply Hfin.
    + eapply ends_bind; [apply decode_target_ends; [done|by right]|]. intros [st1 t] [H1 Hv]. simpl in *.
      pose proof (sp_src _ _ H1). eapply ends_bind; [apply IHe; [apply H1|simpl in *; lia]|]. intros st2 H2. by eapply Hfin.
    + eapply ends_weaken; [by apply decode_leaf_ends|]. intros [st1 v] [H1 Hv]. eapply Hfin; [done|done|by apply steps_refl, H1].
  - intros st t len Hok Hf. cbn [decode_attributes]. destruct (_ <=? _); [by apply steps_refl|].
    eapply ends_bind; [by apply decode_name_ends|]. intros [st1 a] [H1 L1]. simpl in *.
    eapply ends_bind; [apply IHv; [apply H1|lia]|]. intros [st2 nv] [[H2 Hv] L2]. simpl in *.
    eapply ends_bind; [apply store_value_ends; [apply H2|done]|]. intros st3 H3. pose proof (sp_src _ _ H3).
    eapply ends_weaken; [apply IHa; [apply H3|lia]|]. intros st4 H4. by do 3 (eapply steps_trans; [eassumption|]).
  - intros st v i len Hok Hf. cbn [decode_elements]. destruct (_ <=? _); [by apply steps_refl|].
    eapply ends_bind; [apply IHv; [done|lia]|]. intros [st2 nv] [[H2 Hv] L2]. simpl in *.
    eapply ends_bind; [by apply (ends_option _ (fun _ => True))|]. intros a _.
    eapply ends_bind; [apply store_value_ends; [apply H2|done]|]. intros st3 H3. pose proof (sp_src _ _ H3).
    eapply ends_weaken; [apply IHe; [apply H3|lia]|]. intros st4 H4. by do 2 (eapply steps_trans; [eassumption|]).
Qed.

Lemma obind_stable {A B} (m m' : outcome A) (f f' : A -> outcome B) :
  (m <> OutOfFuel -> m' = m) -> (forall a, f a <> OutOfFuel -> f' a = f a) -> obind m f <> OutOfFuel -> obind m' f' = obind m f.
Proof. intros Hm Hf H. destruct m; simpl in *; rewrite ?Hm by done; simpl; auto. Qed.

(** More fuel does not change a result. *)
Lemma fuel_stable (fuel : nat) (old : bool) : forall fuel', (fuel <= fuel')%nat ->
  (forall st, decode_value fuel st old <> OutOfFuel -> decode_value fuel' st old = decode_value fuel st old) /\
  (forall st t len, decode_attributes fuel st t len old <> OutOfFuel ->
    decode_attributes fuel' st t len old = decode_attributes fuel st t len old) /\
  (forall st v i len, decode_elements fuel st v i len old <> OutOfFuel ->
    decode_elements fuel' st v i len old = decode_elements fuel st v i len old).
Proof.
  induction fuel as [|fuel IH]; [done|]. intros [|fuel'] Hle; [lia|]. destruct (IH fuel' ltac:(lia)) as (IHv & IHa & IHe).
  repeat split.
  - intros st. cbn [decode_value]. apply obind_stable; [done|]. intros [[[src imm] type] len].
    destruct (_ =? _); [|destruct (_ =? _); [|done]]; (apply obind_stable; [done|]; intros [st1 t]; apply obind_stable; auto).
  - intros st t len. cbn [decode_attributes]. destruct (_ <=? _); [done|]. apply obind_stable; [done|]. intros [st1 a].
    apply obind_stable; [auto|]. intros [st2 nv]. apply obind_stable; auto.
  - intros st v i len. cbn [decode_elements]. destruct (_ <=? _); [done|]. apply obind_stable; [auto|]. intros [st2 nv].
    apply obind_stable; [done|]. intros a. apply obind_stable; auto.
Qed.


End Decoder.

(** A tuple with an attribute whose value is the tuple itself. *)
Definition decode_example : dstate :=
  {| d_src := [145; 129; 120; 16; 1; 9]; d_dict := ∅; d_store := ∅; d_next := 1%positive; d_total := 0; d_obsolete := 0 |}.

Lemma decode_example_ok : dstate_ok decode_example.
Proof. split; apply map_Forall_empty. Qed.


