(* ===== verification/TupleRound.v ===== *)
(** Encoding a graph of tuples and vectors and decoding it gives the graph back. *)

From stdpp Require Import gmap.
From S2P Require Import Prelude Words Heap Buffer Text Value Tuple TupleDecode.

(** ** What is encoded *)

(** The values that have an encoding: symbols do not, and an empty buffer reads back as null. *)
Definition value_enc {h : Heap} (s : store) (v : value) : Prop :=
  match v with
  | VNull => True
  | VImm _ | VIndirect _ => exists n, int_value n v
  | VString bs => Z.of_nat (length bs) < 2 ^ 64
  | VBuffer bs => bs <> [] /\ Z.of_nat (length bs) < 2 ^ 64
  | VSym _ => False
  | VTuple _ | VVector _ => value_ok s v
  end.

Definition obj_enc {h : Heap} (s : store) (o : obj) : Prop :=
  match o with
  | OTuple m => Z.of_nat (size m) < 2 ^ 64 /\
      map_Forall (fun a v => Z.of_nat (length a) < 2 ^ 64 /\ v <> VNull /\ value_enc s v) m
  | OVector vs => Z.of_nat (length vs) < 2 ^ 31 /\ Forall (value_enc s) vs
  end.

Definition store_enc {h : Heap} (s : store) : Prop := map_Forall (fun _ => obj_enc s) s.

(** ** The decoded graph *)

(** The same value, the objects renamed by [f]. *)
Inductive val_rel (f : gmap loc loc) : value -> value -> Prop :=
  | vr_tuple l l' : f !! l = Some l' -> val_rel f (VTuple l) (VTuple l')
  | vr_vector l l' : f !! l = Some l' -> val_rel f (VVector l) (VVector l')
  | vr_leaf v : (forall l, v <> VTuple l /\ v <> VVector l) -> val_rel f v v.

(** Attributes with [no_encode] tuples are left out; such elements become null. *)
Definition pruned (s : store) (m : gmap name value) : gmap name value := filter (fun x => no_encode s x.2 = false) m.
Definition prune (s : store) (v : value) : value := if no_encode s v then VNull else v.

Definition tuple_rel (f : gmap loc loc) (m m' : gmap name value) : Prop :=
  forall a, option_Forall2 (val_rel f) (m !! a) (m' !! a).

Definition obj_rel (s : store) (f : gmap loc loc) (o o' : obj) : Prop :=
  match o, o' with
  | OTuple m, OTuple m' => tuple_rel f (pruned s m) m'
  | OVector vs, OVector vs' => Forall2 (val_rel f) (prune s <$> vs) vs'
  | _, _ => False
  end.

Lemma val_rel_mono f f' v v' : f ⊆ f' -> val_rel f v v' -> val_rel f' v v'.
Proof. intros Hf. destruct 1; [apply vr_tuple|apply vr_vector|by apply vr_leaf]; by eapply lookup_weaken. Qed.

Lemma tuple_rel_mono f f' m m' : f ⊆ f' -> tuple_rel f m m' -> tuple_rel f' m m'.
Proof. intros Hf H a. destruct (H a); constructor. by eapply val_rel_mono. Qed.

Lemma obj_rel_mono s f f' o o' : f ⊆ f' -> obj_rel s f o o' -> obj_rel s f' o o'.
Proof.
  intros Hf. destruct o, o'; simpl; try done; [by apply tuple_rel_mono|].
  intros H. eapply Forall2_impl; [exact H|]. intros ? ?. by apply val_rel_mono.
Qed.

Lemma tuple_rel_insert f m m' a v v' : tuple_rel f m m' -> val_rel f v v' -> tuple_rel f (<[a := v]> m) (<[a := v']> m').
Proof.
  intros H Hv b. destruct (decide (a = b)) as [<-|]; [rewrite !lookup_insert_eq; by constructor|].
  rewrite !lookup_insert_ne by done. apply H.
Qed.

(** ** The encoder appends *)

Record enc_le (st st' : estate) : Prop := {
  el_dest : e_dest st `prefix_of` e_dest st';
  el_dict : e_dict st ⊆ e_dict st';
  el_visited : e_visited st ⊆ e_visited st';
}.

#[export] Instance enc_le_preorder : PreOrder enc_le.
Proof. split; [by split|]. intros ??? [] []. split; by etransitivity. Qed.

Lemma enc_le_header st st' imm type len : with_header st imm type len = Some st' -> enc_le st st'.
Proof.
  unfold with_header, push_header. intros E. inv_bind. split; simpl; [|done..]. eexists. done.
Qed.

Lemma enc_le_emit st bs : enc_le st (emit st bs).
Proof. split; simpl; [by eexists|done..]. Qed.

Lemma enc_le_srecord st x : e_dict st !! x = None -> enc_le st (srecord st x).
Proof. intros E. split; simpl; [done|by apply insert_subseteq|done]. Qed.

Lemma enc_le_visit st l : enc_le st (visit st l).
Proof. split; simpl; [done|done|set_solver]. Qed.

Lemma enc_le_count st : enc_le st (count_one st).
Proof. by split. Qed.

Lemma with_header_dict st st' imm type len : with_header st imm type len = Some st' -> e_dict st' = e_dict st.
Proof. unfold with_header. intros E. by inv_bind. Qed.

Lemma enc_le_symbol st st' a : encode_symbol st a = Some st' -> enc_le st st'.
Proof.
  unfold encode_symbol. destruct (_ !! _) eqn:El; [apply enc_le_header|]. intros E. inv_bind.
  etransitivity; [by eapply enc_le_header|]. etransitivity; [apply enc_le_emit|]. apply enc_le_srecord. simpl.
  by erewrite with_header_dict.
Qed.

Lemma enc_le_reference st st' type l count : encode_reference st type l count = Some st' -> enc_le st st'.
Proof.
  unfold encode_reference. destruct (_ !! _) eqn:El; intros E; inv_bind; (etransitivity; [by eapply enc_le_header|]).
  - apply enc_le_emit.
  - apply enc_le_srecord. by erewrite with_header_dict.
Qed.

Section Appends.
Context {h : Heap} (iter : gmap name value -> list (name * value)) (s : store).

Section Each.
Context (encode : estate -> value -> option estate) (Henc : forall st v st', encode st v = Some st' -> enc_le st st').

Lemma enc_le_tuple_each l : forall st st', encode_tuple_each s encode st l = Some st' -> enc_le st st'.
Proof using Henc.
  induction l as [|[a v] l IH]; intros st st'; cbn [encode_tuple_each]; [by intros [= <-]|].
  destruct (no_encode s v); [apply IH|]. intros E. inv_bind. etransitivity; [by eapply enc_le_symbol|].
  etransitivity; [by eapply Henc|]. etransitivity; [apply enc_le_count|]. by apply IH.
Qed.

Lemma enc_le_vector_each l : forall st st', encode_vector_each s encode st l = Some st' -> enc_le st st'.
Proof using Henc.
  induction l as [|v l IH]; intros st st'; cbn [encode_vector_each]; [by intros [= <-]|]. intros E. inv_bind.
  etransitivity; [by eapply Henc|]. etransitivity; [apply enc_le_count|]. by apply IH.
Qed.
End Each.

Lemma encode_integer_prefix dest v dest' : encode_integer dest v = Some dest' -> dest `prefix_of` dest'.
Proof.
  unfold encode_integer, push_header. intros E. inv_bind. rewrite <- app_assoc. by eexists.
Qed.

Lemma enc_le_value fuel : forall st v st', encode_value_internal iter fuel s st v = Some st' -> enc_le st st'.
Proof.
  induction fuel as [|fuel IH]; intros st v st'; cbn [encode_value_internal]; [done|].
  destruct v as [| | |bs|bs| |l|l]; try done.
  - apply enc_le_header.
  - intros E. inv_bind. split; [by eapply encode_integer_prefix|done..].
  - intros E. inv_bind. split; [by eapply encode_integer_prefix|done..].
  - unfold encode_string. intros E. inv_bind. etransitivity; [by eapply enc_le_header|]. apply enc_le_emit.
  - intros E. inv_bind. etransitivity; [by eapply enc_le_header|]. apply enc_le_emit.
  - destruct (s !! l) as [[m|]|]; try done. unfold encode_tuple_internal. intros E. inv_bind.
    etransitivity; [by eapply enc_le_reference|]. destruct (0 <? _); [|by simplify_eq].
    etransitivity; [apply enc_le_visit|]. by eapply enc_le_tuple_each.
  - destruct (s !! l) as [[|vs]|]; try done. unfold encode_vector_internal. intros E. inv_bind.
    etransitivity; [by eapply enc_le_reference|]. destruct (0 <? _); [|by simplify_eq].
    etransitivity; [apply enc_le_visit|]. by eapply enc_le_vector_each.
Qed.
End Appends.

(** ** The encoder succeeds *)

Lemma with_header_total st imm type len : type < 8 -> is_Some (with_header st imm type len).
Proof. intros H. unfold with_header, push_header, kassert. destruct (Z.ltb_spec type 8); [by eexists|lia]. Qed.

Lemma encode_symbol_total st a : is_Some (encode_symbol st a).
Proof.
  unfold encode_symbol. destruct (_ !! _); [by apply with_header_total|].
  destruct (with_header_total st immediate type_buffer (Z.of_nat (length a))) as [st' ->]; [done|by eexists].
Qed.

Lemma encode_reference_total st type l count : type < 8 -> is_Some (encode_reference st type l count).
Proof.
  intros H. unfold encode_reference. destruct (_ !! _).
  - destruct (with_header_total st reference type count H) as [st' ->]. by eexists.
  - destruct (with_header_total st immediate type count H) as [st' ->]. by eexists.
Qed.

Lemma encode_reference_visited st type l count st' : encode_reference st type l count = Some st' -> e_visited st' = e_visited st.
Proof. unfold encode_reference, with_header. destruct (_ !! _); intros E; by inv_bind. Qed.

Section Total.
Context {h : Heap} (s : store).

Section Each.
Context (encode : estate -> value -> option estate) (X : gset loc).
Context (Hle : forall st v st', encode st v = Some st' -> enc_le st st').
Context (Htotal : forall st v, value_enc s v -> X ⊆ e_visited st -> is_Some (encode st v)).

Lemma tuple_each_total l : forall st, X ⊆ e_visited st -> Forall (fun x => value_enc s x.2) l ->
  is_Some (encode_tuple_each s encode st l).
Proof using Hle Htotal.
  induction l as [|[a v] l IH]; intros st HX Hl; [by eexists|]. apply Forall_cons in Hl as [Hv Hl].
  cbn [encode_tuple_each]. destruct (no_encode s v); [by apply IH|].
  destruct (encode_symbol_total st a) as [st1 E1]. rewrite E1. cbn [mbind option_bind].
  pose proof (el_visited _ _ (enc_le_symbol _ _ _ E1)).
  destruct (Htotal st1 v Hv ltac:(set_solver)) as [st2 E2]. rewrite E2. cbn [mbind option_bind].
  pose proof (el_visited _ _ (Hle _ _ _ E2)). apply IH; [simpl; set_solver|done].
Qed.

Lemma vector_each_total l : forall st, X ⊆ e_visited st -> Forall (value_enc s) l -> is_Some (encode_vector_each s encode st l).
Proof using Hle Htotal.
  induction l as [|v l IH]; intros st HX Hl; [by eexists|]. apply Forall_cons in Hl as [Hv Hl]. cbn [encode_vector_each].
  destruct (Htotal st (if no_encode s v then VNull else v)) as [st2 E2]; [by destruct (no_encode s v)|done|].
  rewrite E2. cbn [mbind option_bind]. pose proof (el_visited _ _ (Hle _ _ _ E2)). apply IH; [simpl; set_solver|done].
Qed.
End Each.

Context {HL : HeapLaws h} {HT : HeapTotal h} (iter : gmap name value -> list (name * value)).
Context (Hiter : forall m, iter m ≡ₚ map_to_list m) (Hs : store_enc s).

Lemma iter_elem m a v : (a, v) ∈ iter m -> m !! a = Some v.
Proof using Hiter. rewrite Hiter. apply elem_of_map_to_list. Qed.

(** Each object entered is one fewer to enter. *)
Lemma encode_total fuel : forall st v, value_enc s v -> (size (dom s ∖ e_visited st) < fuel)%nat ->
  is_Some (encode_value_internal iter fuel s st v).
Proof using HL HT Hiter Hs.
  induction fuel as [|fuel IH]; intros st v Hv Hf; [lia|]. cbn [encode_value_internal].
  assert (Hnext : forall l st1 st2 w, l ∈ dom s -> l ∉ e_visited st -> e_visited st1 = e_visited st -> value_enc s w ->
    e_visited (visit st1 l) ⊆ e_visited st2 -> is_Some (encode_value_internal iter fuel s st2 w)).
  { intros l st1 st2 w Hl Hnv E1 Hw H2. apply IH; [done|]. simpl in H2. rewrite E1 in H2.
    assert (dom s ∖ e_visited st2 ⊂ dom s ∖ e_visited st) as Hlt%subset_size by set_solver. lia. }
  destruct v as [| | |bs|bs| |l|l]; simpl in Hv; [by apply with_header_total| | | | |done| |].
  - destruct Hv as [n Hn]. rewrite (encode_integer_spec n) by done. by eexists.
  - destruct Hv as [n Hn]. rewrite (encode_integer_spec n) by done. by eexists.
  - unfold encode_string. destruct (with_header_total st immediate type_string (Z.of_nat (length bs))) as [st' ->]; [done|by eexists].
  - destruct (with_header_total st immediate type_buffer (Z.of_nat (length bs))) as [st' ->]; [done|by eexists].
  - destruct Hv as [m El]. rewrite El. pose proof (proj2 (Hs l _ El)) as Hm. unfold encode_tuple_internal.
    destruct (bool_decide_reflect (l ∈ e_visited st)) as [|Hnv].
    { destruct (encode_reference_total st type_tuple l 0) as [st1 ->]; [done|by eexists]. }
    edestruct (encode_reference_total st type_tuple l) as [st1 E1]; [done|]. rewrite E1. cbn [mbind option_bind].
    destruct (0 <? _); [|by eexists]. apply tuple_each_total with (X := e_visited (visit st1 l)); [by apply enc_le_value| |done|].
    + intros st2 w Hw H2. eapply Hnext; [by apply elem_of_dom_2 in El|done| |done|done]. by eapply encode_reference_visited.
    + apply Forall_forall. intros [a w] Hin%iter_elem. by apply (Hm a w).
  - destruct Hv as [vs El]. rewrite El. pose proof (proj2 (Hs l _ El)) as Hm. unfold encode_vector_internal.
    destruct (bool_decide_reflect (l ∈ e_visited st)) as [|Hnv].
    { destruct (encode_reference_total st type_vector l 0) as [st1 ->]; [done|by eexists]. }
    edestruct (encode_reference_total st type_vector l) as [st1 E1]; [done|]. rewrite E1. cbn [mbind option_bind].
    destruct (0 <? _); [|by eexists]. apply vector_each_total with (X := e_visited (visit st1 l)); [by apply enc_le_value| |done|done].
    intros st2 w Hw H2. eapply Hnext; [by apply elem_of_dom_2 in El|done| |done|done]. by eapply encode_reference_visited.
Qed.
End Total.

(** ** The decoder follows the encoder *)

Section Simulation.
Context (iter : gmap name value -> list (name * value)) (s : store) (W : list Z).
Implicit Types (st : estate) (f : gmap loc loc).

Definition ref_to (o : obj) : loc -> value := match o with OTuple _ => VTuple | OVector _ => VVector end.
Definition empty_of (o : obj) : obj := match o with OTuple _ => OTuple ∅ | OVector _ => OVector [] end.
Definition type_of (o : obj) : Z := match o with OTuple _ => type_tuple | OVector _ => type_vector end.

(** How many entries an object is encoded with. *)
Definition entries (o : obj) : nat :=
  match o with
  | OTuple m => length (filter (fun x => no_encode s x.2 = false) (iter m))
  | OVector vs => length vs
  end.

(** The encoder has written what the decoder has read of [W], and [f] names, in the decoder's
    store, the objects of the dictionary. *)
Record sim f (st : estate) (dst : dstate) : Prop := {
  sm_pos : W = e_dest st ++ d_src dst;
  sm_sym : forall n i, e_dict st !! inl n = Some i -> d_dict dst !! i = Some (VSym n);
  sm_loc : forall l i, e_dict st !! inr l = Some i ->
    exists l' o, f !! l = Some l' /\ s !! l = Some o /\ d_dict dst !! i = Some (ref_to o l');
  sm_size : size (e_dict st) = size (d_dict dst);
  sm_dom : forall l l', f !! l = Some l' -> is_Some (e_dict st !! inr l);
  sm_inj : forall l1 l2 l', f !! l1 = Some l' -> f !! l2 = Some l' -> l1 = l2;
  sm_next : forall l l', f !! l = Some l' -> (l' < d_next dst)%positive;
  sm_keys : forall i v, d_dict dst !! i = Some v -> 1 <= i <= Z.of_nat (size (d_dict dst));
  sm_visited : forall l, l ∈ e_visited st -> is_Some (f !! l);
  sm_unvisited : forall l l', f !! l = Some l' -> l ∉ e_visited st ->
    exists o, s !! l = Some o /\ entries o = 0%nat /\ d_store dst !! l' = Some (empty_of o);
}.

(** From one pair of states to a later one: the objects already visited stay, the others
    visited meanwhile are complete, those of [X] apart. *)
Record ext (X : gset loc) f st dst f' st' dst' : Prop := {
  x_f : f ⊆ f';
  x_visited : e_visited st ⊆ e_visited st';
  x_keep : forall l l', l ∈ e_visited st -> l ∉ X -> f !! l = Some l' -> d_store dst' !! l' = d_store dst !! l';
  x_new : forall l l', l ∈ e_visited st' -> l ∉ e_visited st -> l ∉ X -> f' !! l = Some l' ->
    exists o o', s !! l = Some o /\ d_store dst' !! l' = Some o' /\ obj_rel s f' o o';
  x_total : e_total st' - e_total st = d_total dst' - d_total dst;
  x_obsolete : d_obsolete dst' = d_obsolete dst;
}.

Lemma ext_trans X f st dst f1 st1 dst1 f2 st2 dst2 : sim f1 st1 dst1 ->
  ext X f st dst f1 st1 dst1 -> ext X f1 st1 dst1 f2 st2 dst2 -> ext X f st dst f2 st2 dst2.
Proof.
  intros Hsim [] []. split; [by etransitivity|by etransitivity| | |lia|congruence].
  - intros l l' Hl HX El. rewrite (x_keep1 l l'); [by apply (x_keep0 l l')|set_solver|done|by eapply lookup_weaken].
  - intros l l' Hl Hnv HX El. destruct (decide (l ∈ e_visited st1)) as [H1|H1]; [|by apply x_new1].
    destruct (sm_visited _ _ _ Hsim l H1) as [l1 E1]. assert (l1 = l') as ->.
    { apply (lookup_weaken _ f2) in E1; [congruence|done]. }
    destruct (x_new0 l l' H1 Hnv HX E1) as (o & o' & Eo & Eo' & Hr). exists o, o'. split; [done|].
    rewrite (x_keep1 l l') by done. split; [done|by eapply obj_rel_mono].
Qed.

Lemma ext_weaken X f st dst f' st' dst' : ext ∅ f st dst f' st' dst' -> ext X f st dst f' st' dst'.
Proof. intros []. split; try done; intros; [eapply x_keep0|eapply x_new0]; eauto; set_solver. Qed.

(** An object entered meanwhile and complete at the end. *)
Lemma ext_close l l' o o' f st dst f' st' dst' : ext {[l]} f st dst f' st' dst' -> l ∉ e_visited st -> f' !! l = Some l' ->
  s !! l = Some o -> d_store dst' !! l' = Some o' -> obj_rel s f' o o' -> ext ∅ f st dst f' st' dst'.
Proof.
  intros [] Hl El Eo Eo' Hr. split; try done.
  - intros l1 l1' H1 _. apply (x_keep0 l1 l1'); set_solver.
  - intros l1 l1' H1 Hn _ E1. destruct (decide (l1 = l)) as [->|]; [simplify_eq; eauto|]. apply x_new0; set_solver.
Qed.

Lemma ext_same X f st dst st' dst' : e_visited st' = e_visited st -> e_total st' = e_total st -> d_store dst' = d_store dst ->
  d_total dst' = d_total dst -> d_obsolete dst' = d_obsolete dst -> ext X f st dst f st' dst'.
Proof. intros Ev Et Es Ed Eo. split; rewrite ?Ev, ?Et, ?Es, ?Ed; [done|done|done|set_solver|lia|done]. Qed.

(** Reading what the encoder writes next. *)
Lemma next_bytes f st dst bs : sim f st dst -> e_dest st ++ bs `prefix_of` W -> exists rest, d_src dst = bs ++ rest.
Proof.
  intros Hsim [rest E]. rewrite (sm_pos _ _ _ Hsim), <- app_assoc in E. apply app_inv_head in E. by exists rest.
Qed.

(** Reading what the encoder wrote, nothing else changed. *)
Lemma sim_read f st dst st' dst' bs rest : sim f st dst -> e_dest st' = e_dest st ++ bs -> d_src dst = bs ++ rest ->
  e_dict st' = e_dict st -> e_visited st' = e_visited st ->
  d_src dst' = rest -> d_dict dst' = d_dict dst -> d_store dst' = d_store dst -> d_next dst' = d_next dst -> sim f st' dst'.
Proof.
  intros [] Ed Es Edi Ev Es' Edd Est En. split; rewrite ?Ed, ?Edi, ?Ev, ?Es', ?Edd, ?Est, ?En; try done.
  by rewrite <- app_assoc, <- Es.
Qed.

Lemma header_next f st dst imm type len st1 : with_header st imm type len = Some st1 -> e_dest st1 `prefix_of` W ->
  sim f st dst -> 0 <= type < 8 -> 0 <= len < 2 ^ 64 ->
  st1 = emit st (header_bytes imm type len) /\
  exists src, pop_header (d_src dst) false = Some (src, imm, type, len) /\ (length src < length (d_src dst))%nat /\
    sim f st1 (with_src dst src).
Proof.
  intros E Hp Hsim Ht Hl. unfold with_header in E.
  destruct (header_spec imm type len (e_dest st) [] Ht Hl) as (Eh & _ & Hne). rewrite Eh in E. injection E as <-.
  split; [done|]. destruct (next_bytes f st dst _ Hsim Hp) as [src Es]. exists src.
  destruct (header_spec imm type len [] src Ht Hl) as (_ & Ep & _). rewrite Es. split; [done|]. split.
  - rewrite length_app. destruct (header_bytes imm type len); [done|simpl; lia].
  - by eapply sim_read.
Qed.

Lemma bytes_next f st dst bs : e_dest st ++ bs `prefix_of` W -> sim f st dst ->
  exists src, take_bytes dst (Z.of_nat (length bs)) = Done (with_src dst src, bs) /\
    (length src <= length (d_src dst))%nat /\ sim f (emit st bs) (with_src dst src).
Proof.
  intros Hp Hsim. destruct (next_bytes f st dst _ Hsim Hp) as [src Es]. exists src. split; [|split].
  - unfold take_bytes. rewrite Es, length_app, Nat2Z.id, take_app_length, drop_app_length.
    destruct (Z.leb_spec (Z.of_nat (length bs)) (Z.of_nat (length bs + length src))); [done|lia].
  - rewrite Es, length_app. lia.
  - by eapply sim_read.
Qed.

Lemma fresh_index f st dst : sim f st dst -> d_dict dst !! (Z.of_nat (size (e_dict st)) + 1) = None.
Proof.
  intros []. rewrite sm_size0. destruct (d_dict dst !! _) as [v|] eqn:E; [|done]. apply sm_keys0 in E. lia.
Qed.

Lemma keys_insert f st dst v : sim f st dst -> forall i w,
  <[Z.of_nat (size (e_dict st)) + 1 := v]> (d_dict dst) !! i = Some w ->
  1 <= i <= Z.of_nat (size (<[Z.of_nat (size (e_dict st)) + 1 := v]> (d_dict dst))).
Proof.
  intros Hsim i w E. rewrite map_size_insert_None by by eapply fresh_index. destruct Hsim.
  apply lookup_insert_Some in E as [[<- <-]|[_ E]]; [lia|]. apply sm_keys0 in E. lia.
Qed.

Lemma sim_srecord f st dst n : sim f st dst -> e_dict st !! inl n = None -> sim f (srecord st (inl n)) (drecord dst (VSym n)).
Proof.
  intros Hsim En. pose proof (fresh_index _ _ _ Hsim) as Hf. pose proof (keys_insert _ _ _ (VSym n) Hsim) as Hk.
  destruct Hsim. unfold srecord, drecord. rewrite <- sm_size0. split; simpl; try done.
  - intros n' i E. apply lookup_insert_Some in E as [[[= <-] <-]|[_ E]]; [by rewrite lookup_insert_eq|].
    apply sm_sym0 in E. rewrite lookup_insert_ne by congruence. done.
  - intros l i. rewrite lookup_insert_ne by done. intros E. destruct (sm_loc0 l i E) as (l' & o & ? & ? & Ed). exists l', o.
    rewrite lookup_insert_ne by congruence. done.
  - rewrite !map_size_insert_None by done. lia.
  - intros l l'. rewrite lookup_insert_ne by done. apply sm_dom0.
Qed.

(** The name of an attribute. *)
Lemma symbol_sim f st dst a st1 : encode_symbol st a = Some st1 -> e_dest st1 `prefix_of` W -> sim f st dst ->
  Z.of_nat (length a) < 2 ^ 64 -> Z.of_nat (size (e_dict st1)) < 2 ^ 64 ->
  exists dst1, decode_name dst false = Done (dst1, VSym a) /\ sim f st1 dst1 /\ ext ∅ f st dst f st1 dst1 /\
    (length (d_src dst1) < length (d_src dst))%nat.
Proof.
  intros E Hp Hsim Ha Hsz. pose proof (map_subseteq_size _ _ (el_dict _ _ (enc_le_symbol _ _ _ E))) as Hle.
  unfold encode_symbol in E. unfold decode_name. destruct (e_dict st !! inl a) as [ind|] eqn:Ei.
  - pose proof (sm_sym _ _ _ Hsim _ _ Ei) as Ed. pose proof (sm_keys _ _ _ Hsim _ _ Ed). pose proof (sm_size _ _ _ Hsim).
    destruct (header_next f st dst _ _ _ _ E Hp Hsim) as (-> & src & -> & Hl & Hs1); [done|lia|]. simpl.
    unfold lookup_index. simpl. rewrite Ed. simpl. eexists. split; [done|]. split; [done|]. split; [by apply ext_same|done].
  - apply bind_Some in E as (st0 & E0 & [= <-]). simpl in Hp.
    destruct (header_next f st dst _ _ _ _ E0) as (E1 & src & -> & Hl & Hs1); [|done|done|lia|].
    { etransitivity; [|done]. by eexists. }
    simpl. destruct (bytes_next f st0 (with_src dst src) a Hp Hs1) as (src1 & -> & Hl1 & Hs2). simpl in *.
    eexists. split; [done|]. split; [|split; [subst st0; by apply ext_same|simpl; lia]].
    apply (sim_srecord f (emit st0 a) _ a Hs2). by subst st0.
Qed.

(** A new object: entered if it has entries, complete otherwise. *)
Definition entered (st : estate) (l : loc) (count : Z) : estate := if 0 <? count then visit st l else st.

Lemma sim_new f st dst l o : sim f st dst -> e_dict st !! inr l = None -> s !! l = Some o ->
  let l' := d_next dst in
  sim (<[l := l']> f) (entered (srecord st (inr l)) l (Z.of_nat (entries o))) (drecord (new_object dst (empty_of o)) (ref_to o l')).
Proof.
  intros Hsim Ed Eo l'. pose proof (fresh_index _ _ _ Hsim) as Hf. pose proof (keys_insert _ _ _ (ref_to o l') Hsim) as Hk.
  destruct Hsim. assert (Ef : f !! l = None).
  { destruct (f !! l) as [x|] eqn:E; [|done]. destruct (sm_dom0 _ _ E). congruence. }
  assert (Hdict : e_dict (entered (srecord st (inr l)) l (Z.of_nat (entries o))) = e_dict (srecord st (inr l)))
    by (unfold entered; by destruct (0 <? _)).
  assert (Hdest : e_dest (entered (srecord st (inr l)) l (Z.of_nat (entries o))) = e_dest st)
    by (unfold entered; by destruct (0 <? _)).
  assert (Hneq : forall k k', f !! k = Some k' -> k' <> l') by (intros k k' E ->; apply sm_next0 in E; lia).
  split; rewrite ?Hdict, ?Hdest; unfold srecord, drecord; simpl; rewrite <- ?sm_size0; try done.
  - intros n i. rewrite lookup_insert_ne by done. intros E%sm_sym0. rewrite lookup_insert_ne by congruence. done.
  - intros k i E. apply lookup_insert_Some in E as [[[= <-] <-]|[Hne E]].
    + exists l', o. by rewrite !lookup_insert_eq.
    + destruct (sm_loc0 k i E) as (k' & o' & ? & ? & ?). exists k', o'. rewrite !lookup_insert_ne by congruence. done.
  - rewrite !map_size_insert_None by done. lia.
  - intros k k' E. apply lookup_insert_Some in E as [[<- <-]|[Hne E]]; [rewrite lookup_insert_eq; by eexists|].
    rewrite lookup_insert_ne by congruence. by eapply sm_dom0.
  - intros k1 k2 k' E1 E2. apply lookup_insert_Some in E1 as [[<- <-]|[Hne1 E1]], E2 as [[Hk2 H2]|[Hne2 E2]]; try done.
    + by apply Hneq in E2.
    + subst. by apply Hneq in E1.
    + by eapply sm_inj0.
  - intros k k' E. apply lookup_insert_Some in E as [[<- <-]|[Hne E]]; [lia|]. apply sm_next0 in E. lia.
  - intros k Hk'. destruct (decide (k = l)) as [->|]; [rewrite lookup_insert_eq; by eexists|]. rewrite lookup_insert_ne by done.
    apply sm_visited0. unfold entered in Hk'. destruct (0 <? _); simpl in Hk'; set_solver.
  - intros k k' E Hnv. apply lookup_insert_Some in E as [[<- <-]|[Hne E]].
    + exists o. rewrite lookup_insert_eq. split; [done|]. split; [|done]. unfold entered in Hnv.
      destruct (Z.ltb_spec 0 (Z.of_nat (entries o))); [simpl in Hnv; set_solver|lia].
    + rewrite lookup_insert_ne by (symmetry; by eapply Hneq). apply (sm_unvisited0 k); [done|]. unfold entered in Hnv.
      destruct (0 <? _); simpl in Hnv; set_solver.
Qed.

(** What the decoder does with the entry in the dictionary, or the header, that introduces an object. *)
Definition introduces f st dst (l : loc) (o : obj) (count : Z) st1 : Prop := exists src imm f1 dst1 l',
  pop_header (d_src dst) false = Some (src, imm, type_of o, count) /\
  decode_target (with_src dst src) imm (empty_of o) (ref_to o) = Done (dst1, ref_to o l') /\
  sim f1 (entered st1 l count) dst1 /\ f1 !! l = Some l' /\ (length (d_src dst1) < length (d_src dst))%nat /\
  ext (if 0 <? count then {[l]} else ∅) f st dst f1 (entered st1 l count) dst1 /\
  (0 < count -> l ∉ e_visited st /\ d_store dst1 !! l' = Some (empty_of o)).

(** An object already in the dictionary has no entries left to write. *)
Lemma reference_seen f st dst l l' o d st0 : f !! l = Some l' -> d_dict dst !! d = Some (ref_to o l') ->
  with_header st reference (type_of o) 0 = Some st0 -> e_dest (emit st0 (varint_bytes d)) `prefix_of` W ->
  sim f st dst -> Z.of_nat (size (d_dict dst)) < 2 ^ 64 -> introduces f st dst l o 0 (emit st0 (varint_bytes d)).
Proof.
  intros El Ei E0 Hp Hsim Hsz. pose proof (sm_keys _ _ _ Hsim _ _ Ei). simpl in Hp.
  destruct (header_next f st dst _ _ _ _ E0) as (E1 & src & Eh & Hl & Hs1); [|done|by destruct o|done|].
  { etransitivity; [|done]. by eexists. }
  destruct (next_bytes _ _ _ _ Hs1 Hp) as [src1 Es1]. simpl in Es1.
  exists src, reference, f, (with_src dst src1), l'. split; [done|]. cbn [decode_target reference].
  split; [|split; [|split; [done|split]]].
  - unfold pop_indirect_value, lookup_index. simpl. rewrite Es1.
    destruct (varint_bytes_spec d ltac:(lia)) as (_ & _ & _ & ->). simpl. by rewrite Ei.
  - eapply sim_read; [exact Hs1|done|exact Es1|done..].
  - simpl. subst src. rewrite length_app in Hl. lia.
  - split; [subst st0; by apply ext_same|lia].
Qed.

Lemma reference_new f st dst l o st0 : let count := Z.of_nat (entries o) in
  s !! l = Some o -> e_dict st !! inr l = None -> f !! l = None -> l ∉ e_visited st ->
  with_header st immediate (type_of o) count = Some st0 -> e_dest st0 `prefix_of` W -> sim f st dst -> count < 2 ^ 64 ->
  introduces f st dst l o count (srecord st0 (inr l)).
Proof.
  intros count Eo Ed Ef Hnv E0 Hp Hsim Hc.
  destruct (header_next f st dst _ _ _ _ E0) as (E1 & src & Eh & Hl & Hs1); [done|done|by destruct o|lia|].
  exists src, immediate, (<[l := d_next dst]> f), (drecord (new_object (with_src dst src) (empty_of o)) (ref_to o (d_next dst))), (d_next dst).
  split; [done|]. split; [done|]. split; [|split; [by rewrite lookup_insert_eq|split; [done|split]]].
  - apply (sim_new f st0 (with_src dst src)); [done|by subst st0|done].
  - unfold entered. assert (Hkeep : forall k k', f !! k = Some k' -> <[d_next dst := empty_of o]> (d_store dst) !! k' = d_store dst !! k').
    { intros k k' Ek. apply (sm_next _ _ _ Hsim) in Ek. rewrite lookup_insert_ne by lia. done. }
    split; [by apply insert_subseteq|subst st0; destruct (0 <? _); simpl; set_solver|by intros; eapply Hkeep| | |done].
    + intros k k' H1 H2 H3. subst st0. destruct (0 <? _); simpl in H1; set_solver.
    + subst st0. destruct (0 <? _); simpl; lia.
  - intros _. split; [done|]. simpl. by rewrite lookup_insert_eq.
Qed.

Lemma reference_sim f st dst l o count st1 : s !! l = Some o ->
  count = (if bool_decide (l ∈ e_visited st) then 0 else Z.of_nat (entries o)) ->
  encode_reference st (type_of o) l count = Some st1 -> e_dest st1 `prefix_of` W -> sim f st dst ->
  Z.of_nat (size (e_dict st1)) < 2 ^ 64 -> count < 2 ^ 64 -> introduces f st dst l o count st1.
Proof.
  intros Eo Ec E Hp Hsim Hsz Hc. pose proof (map_subseteq_size _ _ (el_dict _ _ (enc_le_reference _ _ _ _ _ E))) as Hle.
  unfold encode_reference in E. destruct (e_dict st !! inr l) as [d|] eqn:Ed.
  - destruct (sm_loc _ _ _ Hsim l d Ed) as (l' & o' & El & Eo' & Ei). rewrite Eo in Eo'. injection Eo' as <-.
    assert (count = 0) as E0.
    { subst count. destruct (bool_decide_reflect (l ∈ e_visited st)) as [|Hnv]; [done|].
      destruct (sm_unvisited _ _ _ Hsim l l' El Hnv) as (o' & Eo' & En & _). simplify_eq. lia. }
    clear Ec. subst count. apply bind_Some in E as (st0 & E0 & [= <-]). pose proof (sm_size _ _ _ Hsim).
    eapply reference_seen; [done..|lia].
  - assert (Ef : f !! l = None).
    { destruct (f !! l) as [x|] eqn:Ex; [|done]. destruct (sm_dom _ _ _ Hsim _ _ Ex). congruence. }
    assert (Hnv : l ∉ e_visited st) by (intros [l' El]%(sm_visited _ _ _ Hsim); congruence).
    rewrite bool_decide_eq_false_2 in Ec by done. subst count. apply bind_Some in E as (st0 & E0 & [= <-]).
    by apply reference_new.
Qed.

(** A visited object replaced, and an entry counted. *)
Lemma sim_replace f st dst dst' l l' o : sim f st dst -> l ∈ e_visited st -> f !! l = Some l' ->
  d_src dst' = d_src dst -> d_dict dst' = d_dict dst -> d_next dst' = d_next dst -> d_store dst' = <[l' := o]> (d_store dst) ->
  d_total dst' = d_total dst + 1 -> d_obsolete dst' = d_obsolete dst ->
  sim f (count_one st) dst' /\ ext {[l]} f st dst f (count_one st) dst'.
Proof.
  intros Hsim Hv El E1 E2 E3 E4 E5 E6. assert (Hne : forall k k', f !! k = Some k' -> k <> l -> k' <> l').
  { intros k k' Ek Hkl ->. apply Hkl. by eapply (sm_inj _ _ _ Hsim). }
  split.
  - destruct Hsim. split; rewrite ?E1, ?E2, ?E3, ?E4; try done. simpl. intros k k' Ek Hk.
    rewrite lookup_insert_ne by (symmetry; eapply Hne; [done|by intros ->]). by apply sm_unvisited0.
  - split; simpl; [done|done| | |lia|done].
    + intros k k' Hk HX Ek. rewrite E4. rewrite lookup_insert_ne; [done|]. symmetry. eapply Hne; [done|set_solver].
    + set_solver.
Qed.

Context {h : Heap}.

Lemma not_null f v v' : val_rel f v v' -> v <> VNull -> is_null v' = false.
Proof. destruct 1 as [| |v]; try done. by destruct v. Qed.

Lemma attribute_step f st dst l l' m m' a v v' : sim f st dst -> l ∈ e_visited st -> f !! l = Some l' ->
  d_store dst !! l' = Some (OTuple m') -> tuple_rel f m m' -> m !! a = None -> val_rel f v v' -> v <> VNull ->
  exists dst', store_value dst (VTuple l') (VSym a) v' = Done dst' /\ d_src dst' = d_src dst /\
    sim f (count_one st) dst' /\ ext {[l]} f st dst f (count_one st) dst' /\
    d_store dst' !! l' = Some (OTuple (<[a := v']> m')).
Proof.
  intros Hsim Hv El Em Hr Ea Hval Hnn. pose proof (Hr a) as Ha. rewrite Ea in Ha. inversion Ha as [|Ea' Hx]. clear Ha.
  unfold store_value, get, set. rewrite Em. simpl. rewrite <- Hx. simpl. rewrite (not_null f v v') by done.
  eexists. split; [done|]. split; [done|].
  apply and_assoc. split; [by eapply sim_replace|simpl; by rewrite lookup_insert_eq].
Qed.

Lemma element_step f st dst l l' vs' v' : sim f st dst -> l ∈ e_visited st -> f !! l = Some l' ->
  d_store dst !! l' = Some (OVector vs') -> Z.of_nat (length vs') < 2 ^ 31 ->
  exists a dst', value_from_u64 (Z.of_nat (length vs')) = Some a /\ store_value dst (VVector l') a v' = Done dst' /\
    d_src dst' = d_src dst /\ sim f (count_one st) dst' /\ ext {[l]} f st dst f (count_one st) dst' /\
    d_store dst' !! l' = Some (OVector (vs' ++ [v'])).
Proof.
  intros Hsim Hv El Em Hlen. set (i := Z.of_nat (length vs')) in *.
  destruct (imm_unsigned i ltac:(lia)) as [Ei _]. assert (Es : s32 i = i) by (unfold s32; rewrite Z.mod_small; lia).
  exists (VImm (tagged_immediate_unsigned i)). unfold value_from_u64, IMM_UINT_MAX. destruct (Z.ltb_spec (2 ^ 61) i); [lia|].
  unfold store_value, get, set. rewrite Em. simpl. rewrite Ei. simpl. unfold vget, vset. rewrite Es. fold i.
  destruct (Z.ltb_spec i 0); [lia|]. rewrite Z.ltb_irrefl, Z.eqb_refl. simpl.
  rewrite (lookup_ge_None_2 vs') by lia. eexists. split; [done|]. split; [done|]. split; [done|].
  apply and_assoc. split; [by eapply sim_replace|simpl; by rewrite lookup_insert_eq].
Qed.

(** ** The loops *)

(** What one call of the encoder and the matching call of the decoder do. *)
Definition follows (encode : estate -> value -> option estate) : Prop := forall f st dst v st' fuel,
  encode st v = Some st' -> value_enc s v -> sim f st dst -> e_dest st' `prefix_of` W ->
  Z.of_nat (size (e_dict st')) < 2 ^ 64 -> (2 * length (d_src dst) + 1 <= fuel)%nat ->
  exists f' dst' v', decode_value fuel dst false = Done (dst', v') /\ sim f' st' dst' /\ val_rel f' v v' /\
    ext ∅ f st dst f' st' dst' /\ (length (d_src dst') < length (d_src dst))%nat.

Section Loops.
Context (encode : estate -> value -> option estate) (Hle : forall st v st', encode st v = Some st' -> enc_le st st').
Context (Hfollows : follows encode).

(** One attribute. *)
Lemma attribute_sim l l' a v f st dst st1 st2 m m' fuel : encode_symbol st a = Some st1 -> encode st1 v = Some st2 ->
  Z.of_nat (length a) < 2 ^ 64 -> v <> VNull -> value_enc s v -> m !! a = None -> sim f st dst -> l ∈ e_visited st -> f !! l = Some l' ->
  d_store dst !! l' = Some (OTuple m') -> tuple_rel f m m' -> e_dest st2 `prefix_of` W ->
  Z.of_nat (size (e_dict st2)) < 2 ^ 64 -> (2 * length (d_src dst) + 1 <= fuel)%nat ->
  exists f' dst1 dst2 dst3 v', decode_name dst false = Done (dst1, VSym a) /\ decode_value fuel dst1 false = Done (dst2, v') /\
    store_value dst2 (VTuple l') (VSym a) v' = Done dst3 /\ sim f' (count_one st2) dst3 /\ val_rel f' v v' /\
    ext {[l]} f st dst f' (count_one st2) dst3 /\ (length (d_src dst3) < length (d_src dst))%nat /\
    d_store dst3 !! l' = Some (OTuple (<[a := v']> m')).
Proof using Hle Hfollows.
  intros E1 E2 Ha Hnn Hve Hma Hsim Hv El Em Hr Hp Hsz Hf. pose proof (Hle _ _ _ E2) as L2.
  pose proof (map_subseteq_size _ _ (el_dict _ _ L2)).
  destruct (symbol_sim f st dst a st1) as (dst1 & D1 & Hs1 & X1 & Hl1); [done|by etransitivity; [apply L2|]|done|done|lia|].
  destruct (Hfollows f st1 dst1 v st2 fuel) as (f2 & dst2 & v' & D2 & Hs2 & Hval & X2 & Hl2); [done|done|done|done|lia|lia|].
  assert (Hv1 : l ∈ e_visited st1) by (apply X1, Hv). assert (Hv2 : l ∈ e_visited st2) by (apply X2, Hv1).
  assert (El2 : f2 !! l = Some l') by (eapply lookup_weaken; [exact El|apply X2]).
  assert (Em2 : d_store dst2 !! l' = Some (OTuple m')).
  { rewrite (x_keep _ _ _ _ _ _ _ X2 l l'), (x_keep _ _ _ _ _ _ _ X1 l l'); done. }
  assert (Hr2 : tuple_rel f2 m m') by (eapply tuple_rel_mono, Hr; apply X2).
  destruct (attribute_step f2 st2 dst2 l l' m m' a v v') as (dst3 & D3 & Es3 & Hs3 & X3 & Em3); [done..|].
  exists f2, dst1, dst2, dst3, v'. do 5 (split; [done|]). split; [|split; [rewrite Es3; lia|done]].
  eapply ext_trans; [exact Hs1|by apply ext_weaken|]. eapply ext_trans; [exact Hs2|by apply ext_weaken|done].
Qed.

Lemma tuple_each_sim l l' todo : forall f st dst st' m m' fuel, encode_tuple_each s encode st todo = Some st' ->
  Forall (fun x => Z.of_nat (length x.1) < 2 ^ 64 /\ x.2 <> VNull /\ value_enc s x.2) todo -> NoDup todo.*1 ->
  (forall a, a ∈ todo.*1 -> m !! a = None) -> sim f st dst -> l ∈ e_visited st -> f !! l = Some l' ->
  d_store dst !! l' = Some (OTuple m') -> tuple_rel f m m' -> e_dest st' `prefix_of` W ->
  Z.of_nat (size (e_dict st')) < 2 ^ 64 -> (2 * length (d_src dst) + 2 <= fuel)%nat ->
  let todo' := filter (fun x => no_encode s x.2 = false) todo in
  exists f' dst' m'', decode_attributes fuel dst (VTuple l') (Z.of_nat (length todo')) false = Done dst' /\ sim f' st' dst' /\
    ext {[l]} f st dst f' st' dst' /\ (length (d_src dst') <= length (d_src dst))%nat /\
    d_store dst' !! l' = Some (OTuple m'') /\ tuple_rel f' (list_to_map todo' ∪ m) m''.
Proof using Hle Hfollows.
  induction todo as [|[a v] todo IH]; intros f st dst st' m m' fuel E Hall Hnd Hm Hsim Hv El Em Hr Hp Hsz Hf todo'.
  { destruct fuel as [|fuel]; [lia|]. injection E as <-. exists f, dst, m'. split; [done|]. split; [done|].
    split; [by apply ext_same|]. split; [done|]. split; [done|]. unfold todo'. cbn. by rewrite (left_id_L ∅ (∪)). }
  apply Forall_cons in Hall as [(Ha & Hnn & Hve) Hall]. apply NoDup_cons in Hnd as [Hna Hnd]. cbn [encode_tuple_each] in E.
  unfold todo'. rewrite filter_cons. cbn [snd]. destruct (no_encode s v) eqn:En.
  { rewrite decide_False by done. apply (IH f st dst st' m m'); try done. intros b Hb. apply Hm. by right. }
  rewrite decide_True by done. cbn [length]. set (todo1 := filter _ todo) in *.
  apply bind_Some in E as (st1 & E1 & E). apply bind_Some in E as (st2 & E2 & E3).
  assert (L2 : enc_le st2 st') by (etransitivity; [apply enc_le_count|by eapply enc_le_tuple_each]).
  pose proof (map_subseteq_size _ _ (el_dict _ _ L2)).
  destruct fuel as [|fuel]; [lia|]. cbn [decode_attributes]. destruct (Z.leb_spec (Z.of_nat (S (length todo1))) 0); [lia|].
  destruct (attribute_sim l l' a v f st dst st1 st2 m m' fuel) as (f2 & dst1 & dst2 & dst3 & v' & -> & D2 & D3 & Hs3 & Hval & X3 & Hl3 & Em3);
    [done..|apply Hm; by left|done|done|done|done|done|by etransitivity; [apply L2|]|lia|lia|].
  cbn [obind]. rewrite D2. cbn [obind]. rewrite D3. cbn [obind].
  replace (Z.of_nat (S (length todo1)) - 1) with (Z.of_nat (length todo1)) by lia.
  destruct (IH f2 (count_one st2) dst3 st' (<[a := v]> m) (<[a := v']> m') fuel) as (f4 & dst4 & m4 & Ed & Hs4 & X4 & Hl4 & Em4 & Hr4);
    [done|done|done| |done|by apply X3|by eapply lookup_weaken; [|apply X3]|done| |done|done|lia|].
  { intros b Hb. rewrite lookup_insert_ne by (by intros ->). apply Hm. by right. }
  { apply tuple_rel_insert; [|done]. eapply tuple_rel_mono, Hr. apply X3. }
  exists f4, dst4, m4. split; [exact Ed|]. split; [done|]. split; [by eapply ext_trans; [exact Hs3|..]|].
  split; [lia|]. split; [done|].
  assert (Hn : (list_to_map todo1 : gmap name value) !! a = None).
  { apply not_elem_of_list_to_map_1. intros Hin. apply Hna. apply list_elem_of_fmap in Hin as (x & -> & Hx).
    apply list_elem_of_fmap. exists x. split; [done|]. by apply list_elem_of_filter in Hx as [_ Hx]. }
  change (tuple_rel f4 (<[a := v]> (list_to_map todo1) ∪ m) m4). by rewrite <- insert_union_l, insert_union_r.
Qed.

Lemma vector_each_sim l l' todo : forall f st dst st' vs vs' fuel, encode_vector_each s encode st todo = Some st' ->
  Forall (value_enc s) todo -> sim f st dst -> l ∈ e_visited st -> f !! l = Some l' ->
  d_store dst !! l' = Some (OVector vs') -> Forall2 (val_rel f) vs vs' -> e_dest st' `prefix_of` W ->
  Z.of_nat (size (e_dict st')) < 2 ^ 64 -> (2 * length (d_src dst) + 2 <= fuel)%nat ->
  Z.of_nat (length vs' + length todo) < 2 ^ 31 ->
  exists f' dst' vs'',
    decode_elements fuel dst (VVector l') (Z.of_nat (length vs')) (Z.of_nat (length vs' + length todo)) false = Done dst' /\
    sim f' st' dst' /\ ext {[l]} f st dst f' st' dst' /\ (length (d_src dst') <= length (d_src dst))%nat /\
    d_store dst' !! l' = Some (OVector vs'') /\ Forall2 (val_rel f') (vs ++ (prune s <$> todo)) vs''.
Proof using Hle Hfollows.
  induction todo as [|v todo IH]; intros f st dst st' vs vs' fuel E Hall Hsim Hv El Em Hr Hp Hsz Hf Hlen;
    (destruct fuel as [|fuel]; [lia|]); cbn [decode_elements length].
  { injection E as <-. exists f, dst, vs'. rewrite Nat.add_0_r, Z.leb_refl. split; [done|]. split; [done|].
    split; [by apply ext_same|]. split; [done|]. split; [done|]. cbn. by rewrite app_nil_r. }
  apply Forall_cons in Hall as [Hve Hall]. cbn [encode_vector_each] in E. apply bind_Some in E as (st2 & E2 & E3).
  fold (prune s v) in E2. cbn [length] in Hlen.
  assert (Hve' : value_enc s (prune s v)) by (unfold prune; by destruct (no_encode s v)).
  assert (L2 : enc_le st2 st') by (etransitivity; [apply enc_le_count|by eapply enc_le_vector_each]).
  pose proof (map_subseteq_size _ _ (el_dict _ _ L2)).
  destruct (Z.leb_spec (Z.of_nat (length vs' + S (length todo))) (Z.of_nat (length vs'))); [lia|].
  destruct (Hfollows f st dst (prune s v) st2 fuel) as (f2 & dst2 & v' & -> & Hs2 & Hval & X2 & Hl2);
    [done|done|done|by etransitivity; [apply L2|]|lia|lia|]. cbn [obind].
  assert (Hv2 : l ∈ e_visited st2) by (apply X2, Hv).
  assert (El2 : f2 !! l = Some l') by (eapply lookup_weaken; [exact El|apply X2]).
  assert (Em2 : d_store dst2 !! l' = Some (OVector vs')) by (by rewrite (x_keep _ _ _ _ _ _ _ X2 l l')).
  destruct (element_step f2 st2 dst2 l l' vs' v') as (a & dst3 & -> & D3 & Es3 & Hs3 & X3 & Em3); [done..|lia|].
  cbn [halt_if_none obind]. rewrite D3. cbn [obind].
  destruct (IH f2 (count_one st2) dst3 st' (vs ++ [prune s v]) (vs' ++ [v']) fuel) as (f4 & dst4 & vs4 & Ed & Hs4 & X4 & Hl4 & Em4 & Hr4);
    [done|done|done|done|done|done| |done|done|rewrite Es3; lia|rewrite length_app; cbn [length]; lia|].
  { apply Forall2_app; [|by constructor]. eapply Forall2_impl; [exact Hr|]. intros ??. apply val_rel_mono, X2. }
  rewrite length_app in Ed. cbn [length] in Ed.
  replace (Z.of_nat (length vs' + 1 + length todo)) with (Z.of_nat (length vs' + S (length todo))) in Ed by lia.
  replace (Z.of_nat (length vs' + 1)) with (Z.of_nat (length vs') + 1) in Ed by lia.
  exists f4, dst4, vs4. split; [exact Ed|]. split; [done|].
  split; [eapply ext_trans; [exact Hs2|by apply ext_weaken|by eapply ext_trans; [exact Hs3|..]]|].
  split; [rewrite Es3 in Hl4; lia|]. split; [done|]. by rewrite <- app_assoc in Hr4.
Qed.
End Loops.

(** ** Values *)

Context {HL : HeapLaws h} {HT : HeapTotal h} (Hiter : forall m, iter m ≡ₚ map_to_list m) (Hs : store_enc s).

Lemma entries_bound l o : s !! l = Some o -> Z.of_nat (entries o) < 2 ^ 64.
Proof using Hiter Hs.
  intros E. destruct o as [m|vs]; cbn [entries]; pose proof (proj1 (Hs l _ E)); [|lia].
  assert (Hl : length (iter m) = size m) by by rewrite (Hiter m), length_map_to_list.
  pose proof (length_filter (fun x => no_encode s x.2 = false) (iter m)). lia.
Qed.

Lemma attributes_pruned m : list_to_map (filter (fun x => no_encode s x.2 = false) (iter m)) = pruned s m.
Proof using Hiter.
  unfold pruned. rewrite map_filter_alt. apply list_to_map_proper; [|by rewrite Hiter].
  eapply sublist_NoDup; [|apply fmap_sublist, sublist_filter]. rewrite Hiter. apply NoDup_fst_map_to_list.
Qed.

Lemma attributes_enc l m : s !! l = Some (OTuple m) ->
  Forall (fun x => Z.of_nat (length x.1) < 2 ^ 64 /\ x.2 <> VNull /\ value_enc s x.2) (iter m) /\ NoDup (iter m).*1.
Proof using Hiter Hs.
  intros El. split; [|rewrite Hiter; apply NoDup_fst_map_to_list].
  apply Forall_forall. intros [a v] Hin%iter_elem; [|done]. by apply (Hs l _ El).
Qed.

(** The bytes of a string or a buffer. *)
Lemma bytes_sim f st dst type bs st' : type = type_string \/ type = type_buffer /\ bs <> [] -> Z.of_nat (length bs) < 2 ^ 64 ->
  (st ← with_header st immediate type (Z.of_nat (length bs)); Some (emit st bs)) = Some st' ->
  sim f st dst -> e_dest st' `prefix_of` W ->
  exists src dst', pop_header (d_src dst) false = Some (src, immediate, type, Z.of_nat (length bs)) /\
    decode_leaf (with_src dst src) immediate type (Z.of_nat (length bs)) =
      Done (dst', if type =? type_string then VString bs else VBuffer bs) /\
    sim f st' dst' /\ ext ∅ f st dst f st' dst' /\ (length (d_src dst') < length (d_src dst))%nat.
Proof.
  intros Ht Hb E Hsim Hp. apply bind_Some in E as (st0 & E0 & [= <-]).
  destruct (header_next f st dst immediate type (Z.of_nat (length bs)) st0) as (E1 & src & Eh & Hl & Hs1);
    [done| |done|destruct Ht as [->|[-> _]]; done|lia|].
  { etransitivity; [|exact Hp]. by eexists. }
  destruct (bytes_next f st0 (with_src dst src) bs Hp Hs1) as (src1 & Et & Hl1 & Hs2).
  exists src, (with_src dst src1). split; [done|]. split; [|split; [done|split; [subst st0; by apply ext_same|simpl in *; lia]]].
  unfold decode_leaf. cbn [immediate]. rewrite Et. destruct Ht as [->|[-> Hne]]; [done|]. cbn [type_buffer type_string type_integer Z.eqb].
  destruct (Z.eqb_spec (Z.of_nat (length bs)) 0); [|done]. by destruct bs.
Qed.

Lemma leaf_sim fuel f st dst v st' dfuel : (forall l, v <> VTuple l /\ v <> VVector l) ->
  encode_value_internal iter (S fuel) s st v = Some st' -> value_enc s v -> sim f st dst -> e_dest st' `prefix_of` W ->
  (2 * length (d_src dst) + 1 <= dfuel)%nat ->
  exists dst', decode_value dfuel dst false = Done (dst', v) /\ sim f st' dst' /\ ext ∅ f st dst f st' dst' /\
    (length (d_src dst') < length (d_src dst))%nat.
Proof using HL HT.
  intros Hleaf E Hv Hsim Hp Hf. destruct dfuel as [|dfuel]; [lia|]. cbn [decode_value].
  assert (Hint : forall n, int_value n v ->
    (dest ← encode_integer (e_dest st) v;
     Some {| e_dest := dest; e_dict := e_dict st; e_visited := e_visited st; e_total := e_total st |}) = Some st' ->
    exists src dst' len, pop_header (d_src dst) false = Some (src, immediate, type_integer, len) /\
      decode_leaf (with_src dst src) immediate type_integer len = Done (dst', v) /\ sim f st' dst' /\
      ext ∅ f st dst f st' dst' /\ (length (d_src dst') < length (d_src dst))%nat).
  { intros n Hn E'. rewrite (encode_integer_spec n) in E' by done. injection E' as <-.
    destruct (next_bytes f st dst _ Hsim Hp) as [rest Es]. destruct (decode_integer_spec n v rest Hn) as (src & Eh & Ei).
    exists src, (with_src dst rest), (if n <? 0 then 1 else 0). rewrite Es. split; [exact Eh|].
    apply pop_header_src in Eh. split; [|split; [|split; [by apply ext_same|]]].
    - unfold decode_leaf. cbn [type_integer Z.eqb]. cbn [with_src d_src]. by rewrite Ei.
    - by eapply sim_read.
    - simpl. unfold integer_bytes. pose proof (header_spec immediate type_integer (if n <? 0 then 1 else 0) [] []) as (_ & _ & Hne); [done|by destruct (n <? 0)|].
      rewrite !length_app. destruct (header_bytes _ _ _); [done|simpl; lia]. }
  destruct v as [|w|ds|bs|bs| |l|l]; simpl in Hv; try done; cbn [encode_value_internal] in E.
  - destruct (header_next f st dst _ _ _ _ E Hp Hsim) as (-> & src & -> & Hl & Hs1); [done|done|]. simpl.
    eexists. split; [done|]. split; [done|]. split; [by apply ext_same|done].
  - destruct Hv as [n Hn]. destruct (Hint n Hn E) as (src & dst' & len & -> & D & H). simpl. exists dst'. by rewrite D.
  - destruct Hv as [n Hn]. destruct (Hint n Hn E) as (src & dst' & len & -> & D & H). simpl. exists dst'. by rewrite D.
  - destruct (bytes_sim f st dst type_string bs st') as (src & dst' & -> & D & H); [by left|done..|]. simpl. exists dst'. by rewrite D.
  - destruct Hv as [Hne Hb].
    destruct (bytes_sim f st dst type_buffer bs st') as (src & dst' & -> & D & H); [by right|done..|]. simpl. exists dst'. by rewrite D.
  - by destruct (Hleaf l).
  - by destruct (Hleaf l).
Qed.

Lemma tuple_sim encode l m : (forall st v st', encode st v = Some st' -> enc_le st st') -> follows encode ->
  s !! l = Some (OTuple m) -> forall f st dst st' dfuel,
  encode_tuple_internal iter s encode st l m = Some st' -> sim f st dst -> e_dest st' `prefix_of` W ->
  Z.of_nat (size (e_dict st')) < 2 ^ 64 -> (2 * length (d_src dst) + 1 <= dfuel)%nat ->
  exists f' dst' v', decode_value dfuel dst false = Done (dst', v') /\ sim f' st' dst' /\ val_rel f' (VTuple l) v' /\
    ext ∅ f st dst f' st' dst' /\ (length (d_src dst') < length (d_src dst))%nat.
Proof using HL HT Hiter Hs.
  intros Hle Hfol El f st dst st' dfuel E Hsim Hp Hsz Hf. unfold encode_tuple_internal in E.
  set (count := if bool_decide (l ∈ e_visited st) then 0 else _) in E. apply bind_Some in E as (st1 & E1 & E).
  assert (L1 : enc_le st1 st').
  { destruct (0 <? count); [|by simplify_eq]. etransitivity; [apply enc_le_visit|by eapply enc_le_tuple_each]. }
  pose proof (map_subseteq_size _ _ (el_dict _ _ L1)). pose proof (entries_bound l _ El) as Hent. cbn [entries] in Hent.
  destruct (reference_sim f st dst l (OTuple m) count st1) as (src & imm & f1 & dst1 & l' & Eh & Et & Hs1 & El' & Hl1 & X1 & Hnew);
    [done|done|done|by etransitivity; [apply L1|]|done|lia|unfold count; destruct (bool_decide _); lia|].
  destruct dfuel as [|dfuel]; [lia|]. cbn [decode_value]. rewrite Eh. cbn [halt_if_none obind type_of type_tuple Z.eqb Pos.eqb].
  cbn [ref_to empty_of] in *. rewrite Et. cbn [obind]. unfold entered in *. destruct (Z.ltb_spec 0 count) as [Hc|Hc].
  - destruct (Hnew Hc) as [Hnv Em]. destruct (attributes_enc l m El) as [Hall Hnd].
    assert (Ec : count = Z.of_nat (length (filter (fun x => no_encode s x.2 = false) (iter m)))).
    { unfold count. by rewrite bool_decide_eq_false_2. }
    destruct (tuple_each_sim encode Hle Hfol l l' (iter m) f1 (visit st1 l) dst1 st' ∅ ∅ dfuel)
      as (f2 & dst2 & m2 & D2 & Hs2 & X2 & Hl2 & Em2 & Hr2);
      [done|done|done|done|done|simpl; set_solver|done|done|intros a; rewrite !lookup_empty; constructor|done|done|lia|].
    rewrite Ec, D2. cbn [obind]. exists f2, dst2, (VTuple l').
    assert (El2 : f2 !! l = Some l') by (eapply lookup_weaken; [exact El'|apply X2]).
    split; [done|]. split; [done|]. split; [by apply vr_tuple|]. split; [|lia].
    eapply (ext_close l l' (OTuple m) (OTuple m2)); [by eapply ext_trans; [exact Hs1|..]|done..|].
    simpl. by rewrite (right_id_L ∅ (∪)), attributes_pruned in Hr2.
  - injection E as <-. destruct dfuel as [|dfuel]; [lia|]. cbn [decode_attributes]. destruct (Z.leb_spec count 0); [|lia].
    exists f1, dst1, (VTuple l'). split; [done|]. split; [done|]. split; [by apply vr_tuple|]. done.
Qed.

Lemma vector_sim encode l vs : (forall st v st', encode st v = Some st' -> enc_le st st') -> follows encode ->
  s !! l = Some (OVector vs) -> forall f st dst st' dfuel,
  encode_vector_internal s encode st l vs = Some st' -> sim f st dst -> e_dest st' `prefix_of` W ->
  Z.of_nat (size (e_dict st')) < 2 ^ 64 -> (2 * length (d_src dst) + 1 <= dfuel)%nat ->
  exists f' dst' v', decode_value dfuel dst false = Done (dst', v') /\ sim f' st' dst' /\ val_rel f' (VVector l) v' /\
    ext ∅ f st dst f' st' dst' /\ (length (d_src dst') < length (d_src dst))%nat.
Proof using HL HT Hiter Hs.
  intros Hle Hfol El f st dst st' dfuel E Hsim Hp Hsz Hf. unfold encode_vector_internal in E.
  set (count := if bool_decide (l ∈ e_visited st) then 0 else _) in E. apply bind_Some in E as (st1 & E1 & E).
  assert (L1 : enc_le st1 st').
  { destruct (0 <? count); [|by simplify_eq]. etransitivity; [apply enc_le_visit|by eapply enc_le_vector_each]. }
  pose proof (map_subseteq_size _ _ (el_dict _ _ L1)). destruct (Hs l _ El) as [Hlen Hall].
  destruct (reference_sim f st dst l (OVector vs) count st1) as (src & imm & f1 & dst1 & l' & Eh & Et & Hs1 & El' & Hl1 & X1 & Hnew);
    [done|done|done|by etransitivity; [apply L1|]|done|lia|unfold count; destruct (bool_decide _); lia|].
  destruct dfuel as [|dfuel]; [lia|]. cbn [decode_value]. rewrite Eh.
  cbn [halt_if_none obind type_of type_tuple type_vector Z.eqb Pos.eqb].
  cbn [ref_to empty_of] in *. rewrite Et. cbn [obind]. unfold entered in *. destruct (Z.ltb_spec 0 count) as [Hc|Hc].
  - destruct (Hnew Hc) as [Hnv Em].
    assert (Ec : count = Z.of_nat (length vs)) by (unfold count; by rewrite bool_decide_eq_false_2).
    destruct (vector_each_sim encode Hle Hfol l l' vs f1 (visit st1 l) dst1 st' [] [] dfuel)
      as (f2 & dst2 & vs2 & D2 & Hs2 & X2 & Hl2 & Em2 & Hr2);
      [done|done|done|simpl; set_solver|done|done|constructor|done|done|lia|simpl; lia|].
    cbn [length Nat.add] in D2. rewrite Ec. change (Z.of_nat 0) with 0 in D2. rewrite D2. cbn [obind]. exists f2, dst2, (VVector l').
    assert (El2 : f2 !! l = Some l') by (eapply lookup_weaken; [exact El'|apply X2]).
    split; [done|]. split; [done|]. split; [by apply vr_vector|]. split; [|lia].
    eapply (ext_close l l' (OVector vs) (OVector vs2)); [by eapply ext_trans; [exact Hs1|..]|done..].
  - injection E as <-. destruct dfuel as [|dfuel]; [lia|]. cbn [decode_elements]. destruct (Z.leb_spec count 0); [|lia].
    exists f1, dst1, (VVector l'). split; [done|]. split; [done|]. split; [by apply vr_vector|]. done.
Qed.

Lemma value_sim fuel : follows (encode_value_internal iter fuel s).
Proof using HL HT Hiter Hs.
  induction fuel as [|fuel IH]; intros f st dst v st' dfuel E Hv Hsim Hp Hsz Hf; [done|].
  pose proof (enc_le_value iter s fuel) as Hle.
  assert (Hleaf : (forall l, v <> VTuple l /\ v <> VVector l) -> exists f' dst' v',
    decode_value dfuel dst false = Done (dst', v') /\ sim f' st' dst' /\ val_rel f' v v' /\
    ext ∅ f st dst f' st' dst' /\ (length (d_src dst') < length (d_src dst))%nat).
  { intros Hl. destruct (leaf_sim fuel f st dst v st' dfuel) as (dst' & D & Hs' & X & Hlt); [done..|].
    exists f, dst', v. split; [done|]. split; [done|]. split; [by apply vr_leaf|done]. }
  destruct v as [| | | | | |l|l]; [by apply Hleaf..| |]; cbn [encode_value_internal] in E; destruct Hv as [m El]; rewrite El in E.
  - by eapply tuple_sim.
  - by eapply vector_sim.
Qed.
End Simulation.

(** ** The round trip *)

Definition fresh_decoder (src : list Z) : dstate :=
  {| d_src := src; d_dict := ∅; d_store := ∅; d_next := 1%positive; d_total := 0; d_obsolete := 0 |}.

Section RoundTrip.
Context {h : Heap} (iter : gmap name value -> list (name * value)).

Lemma sim_fresh s src : sim iter s src ∅ {| e_dest := []; e_dict := ∅; e_visited := ∅; e_total := 0 |} (fresh_decoder src).
Proof. split; simpl; try done; try set_solver; intros *; rewrite lookup_empty; done. Qed.

Context {HL : HeapLaws h} {HT : HeapTotal h} (Hiter : forall m, iter m ≡ₚ map_to_list m).

Lemma empty_complete s f o : entries iter s o = 0%nat -> obj_rel s f o (empty_of o).
Proof using Hiter.
  destruct o as [m|[|v vs]]; simpl; [|constructor|done]. intros E%nil_length_inv.
  rewrite <- (attributes_pruned iter s Hiter m), E. intros a. rewrite !lookup_empty. constructor.
Qed.

(** C12: encoding a value with everything it reaches, cycles and shared objects included, and decoding the bytes gives
    the value back: the encoder succeeds, the decoder consumes exactly its bytes, counts as many entries and none
    obsolete, and the decoded objects are the encoded ones under an injective renaming, attribute for attribute and element
    for element, but for the tuples marked [no_encode], which are left out of tuples and are null in vectors. *)
Theorem encode_decode (s : store) (v : value) : store_enc s -> value_enc s v ->
  exists st', encode_value iter [] ∅ s v 0 = Some st' /\
    (Z.of_nat (size (e_dict st')) < 2 ^ 64 -> forall rest, exists f dst v',
      decode (fresh_decoder (e_dest st' ++ rest)) false = Done (dst, v') /\ d_src dst = rest /\
      d_total dst = e_total st' /\ d_obsolete dst = 0 /\
      (forall l1 l2 l', f !! l1 = Some l' -> f !! l2 = Some l' -> l1 = l2) /\ val_rel f v v' /\
      (forall l l', f !! l = Some l' ->
        exists o o', s !! l = Some o /\ d_store dst !! l' = Some o' /\ obj_rel s f o o')).
Proof using HL HT Hiter.
  intros Hs Hv. unfold encode_value. set (st := {| e_dest := [] |}).
  destruct (encode_total s iter Hiter Hs (S (S (size s))) st v Hv) as [st' E].
  { rewrite <- size_dom. assert (dom s ∖ e_visited st ⊆ dom s) as Hle%subseteq_size by set_solver. lia. }
  exists st'. split; [done|]. intros Hsz rest.
  destruct (value_sim iter s (e_dest st' ++ rest) Hiter Hs (S (S (size s))) ∅ st (fresh_decoder (e_dest st' ++ rest)) v st'
    (2 * length (e_dest st' ++ rest) + 1)%nat) as (f & dst & v' & D & Hsim & Hval & X & _);
    [done|done|apply sim_fresh|by apply prefix_app_r|done|done|].
  exists f, dst, v'. split; [done|]. split.
  { pose proof (sm_pos _ _ _ _ _ _ Hsim) as Hp. by apply app_inv_head in Hp. }
  pose proof (x_total _ _ _ _ _ _ _ _ X). simpl in *. split; [lia|]. split; [apply X|]. split; [apply Hsim|]. split; [done|].
  intros l l' El. destruct (decide (l ∈ e_visited st')) as [H1|H1]; [eapply X; [done|set_solver|set_solver|done]|].
  destruct (sm_unvisited _ _ _ _ _ _ Hsim l l' El H1) as (o & Eo & Hn & Eo'). exists o, (empty_of o).
  split; [done|]. split; [done|]. by apply empty_complete.
Qed.
End RoundTrip.

(** A tuple holding itself, a string, and a vector that refers back to it. *)
Definition graph_example : store :=
  {[ 1%positive := OTuple {[ [115] := VTuple 1%positive; [116] := VString [104; 105]; [118] := VVector 2%positive ]};
     2%positive := OVector [VImm (tagged_immediate_unsigned 7); VNull; VTuple 1%positive] ]}.

Lemma graph_example_enc : store_enc (h := zero_heap) graph_example.
Proof.
  apply map_Forall_insert_2; [|apply map_Forall_singleton].
  - split; [done|]. repeat (apply map_Forall_insert_2; [|try apply map_Forall_singleton]);
      (split; [done|split; [done|]]); [eexists; done|done|eexists; done].
  - split; [done|]. repeat (apply Forall_cons_2; [|try apply Forall_nil_2]); [|done|eexists; done].
    exists 7. left. done.
Qed.

Lemma encode_decode_witness : exists st' f dst v',
  encode_value map_to_list [] ∅ graph_example (VTuple 1%positive) 0 = Some st' /\
  decode (h := zero_heap) (fresh_decoder (e_dest st' ++ [9])) false = Done (dst, v') /\ d_src dst = [9] /\ val_rel f (VTuple 1%positive) v'.
Proof.
  destruct (encode_decode (h := zero_heap) (HL := zero_heap_laws) (HT := zero_heap_total) map_to_list (fun m => Permutation_refl _) graph_example (VTuple 1%positive)) as (st' & E & H).
  - apply graph_example_enc.
  - eexists. done.
  - destruct (H ltac:(vm_compute in E; injection E as <-; vm_compute; done) [9]) as (f & dst & v' & D & Hr & _ & _ & _ & Hv & _).
    exists st', f, dst, v'. exact (conj E (conj D (conj Hr Hv))).
Defined.
