(* ===== verification/Sha256.v ===== *)
(** SHA-256: [kernel/src/runtime/sha256.c].

    The code keeps a context with a block of 64 bytes being filled, hashes each block
    when it is full and pads at the end.  The specification is the one of FIPS 180-4:
    the constants are the fractional parts of roots of primes, rotations are
    arithmetic, the message schedule is a recursive function and the message is
    padded first and cut in blocks afterwards.  Arrays have the sizes of the code
    and [!!!] is indexing. *)

From S2P Require Import Prelude Words Heap Buffer.
From Equations Require Import Equations.

(** ** The code *)

Definition ROTRIGHT (a b : Z) : Z := Z.lor (Z.shiftr a b) (u32 (Z.shiftl a (32 - b))).
Definition not32 (x : Z) : Z := Z.lxor x 0xffffffff.
Definition CH (x y z : Z) : Z := Z.lxor (Z.land x y) (Z.land (not32 x) z).
Definition MAJ (x y z : Z) : Z := Z.lxor (Z.lxor (Z.land x y) (Z.land x z)) (Z.land y z).
Definition EP0 (x : Z) : Z := Z.lxor (Z.lxor (ROTRIGHT x 2) (ROTRIGHT x 13)) (ROTRIGHT x 22).
Definition EP1 (x : Z) : Z := Z.lxor (Z.lxor (ROTRIGHT x 6) (ROTRIGHT x 11)) (ROTRIGHT x 25).
Definition SIG0 (x : Z) : Z := Z.lxor (Z.lxor (ROTRIGHT x 7) (ROTRIGHT x 18)) (Z.shiftr x 3).
Definition SIG1 (x : Z) : Z := Z.lxor (Z.lxor (ROTRIGHT x 17) (ROTRIGHT x 19)) (Z.shiftr x 10).

(** The table of the code, row by row. *)
Definition k : list Z :=
  [0x428a2f98; 0x71374491; 0xb5c0fbcf; 0xe9b5dba5; 0x3956c25b; 0x59f111f1; 0x923f82a4; 0xab1c5ed5] ++
  [0xd807aa98; 0x12835b01; 0x243185be; 0x550c7dc3; 0x72be5d74; 0x80deb1fe; 0x9bdc06a7; 0xc19bf174] ++
  [0xe49b69c1; 0xefbe4786; 0x0fc19dc6; 0x240ca1cc; 0x2de92c6f; 0x4a7484aa; 0x5cb0a9dc; 0x76f988da] ++
  [0x983e5152; 0xa831c66d; 0xb00327c8; 0xbf597fc7; 0xc6e00bf3; 0xd5a79147; 0x06ca6351; 0x14292967] ++
  [0x27b70a85; 0x2e1b2138; 0x4d2c6dfc; 0x53380d13; 0x650a7354; 0x766a0abb; 0x81c2c92e; 0x92722c85] ++
  [0xa2bfe8a1; 0xa81a664b; 0xc24b8b70; 0xc76c51a3; 0xd192e819; 0xd6990624; 0xf40e3585; 0x106aa070] ++
  [0x19a4c116; 0x1e376c08; 0x2748774c; 0x34b0bcb5; 0x391c0cb3; 0x4ed8aa4a; 0x5b9cca4f; 0x682e6ff3] ++
  [0x748f82ee; 0x78a5636f; 0x84c87814; 0x8cc70208; 0x90befffa; 0xa4506ceb; 0xbef9a3f7; 0xc67178f2].

(** The eight words of the state, and the variables of the rounds. *)
Record words := Words { wa : Z; wb : Z; wc : Z; wd : Z; we : Z; wf : Z; wg : Z; wh : Z }.

Definition load_word (data : list Z) (i : nat) : Z :=
  let j := (4 * i)%nat in
  u32 (Z.lor (Z.lor (Z.lor (Z.shiftl (data !!! j) 24) (Z.shiftl (data !!! (j + 1)%nat) 16))
                    (Z.shiftl (data !!! (j + 2)%nat) 8)) (data !!! (j + 3)%nat)).

(** The second loop over [m], with the entries before [i] in [m]. *)
Fixpoint schedule_loop (n : nat) (m : list Z) : list Z :=
  match n with
  | O => m
  | S n =>
      let i := length m in
      schedule_loop n (m ++ [u32 (SIG1 (m !!! (i - 2)%nat) + m !!! (i - 7)%nat + SIG0 (m !!! (i - 15)%nat) + m !!! (i - 16)%nat)])
  end.

Definition schedule (data : list Z) : list Z := schedule_loop 48 (load_word data <$> seq 0 16).

Definition round (m : list Z) (v : words) (i : nat) : words :=
  let t1 := u32 (wh v + EP1 (we v) + CH (we v) (wf v) (wg v) + k !!! i + m !!! i) in
  let t2 := u32 (EP0 (wa v) + MAJ (wa v) (wb v) (wc v)) in
  Words (u32 (t1 + t2)) (wa v) (wb v) (wc v) (u32 (wd v + t1)) (we v) (wf v) (wg v).

Definition sha256_transform (state : words) (data : list Z) : words :=
  let v := foldl (round (schedule data)) state (seq 0 64) in
  Words (u32 (wa state + wa v)) (u32 (wb state + wb v)) (u32 (wc state + wc v)) (u32 (wd state + wd v))
        (u32 (we state + we v)) (u32 (wf state + wf v)) (u32 (wg state + wg v)) (u32 (wh state + wh v)).

Record sha256_ctx := { c_data : list Z; datalen : nat; bitlen : Z; c_state : words }.

(** The block is not initialised. *)
Definition sha256_init (data : list Z) : sha256_ctx :=
  {| c_data := data; datalen := 0; bitlen := 0;
     c_state := Words 0x6a09e667 0xbb67ae85 0x3c6ef372 0xa54ff53a 0x510e527f 0x9b05688c 0x1f83d9ab 0x5be0cd19 |}.

Definition update_byte (c : sha256_ctx) (x : Z) : sha256_ctx :=
  let data := <[datalen c := x]> (c_data c) in
  if (S (datalen c) =? 64)%nat then
    {| c_data := data; datalen := 0; bitlen := u64 (bitlen c + 512); c_state := sha256_transform (c_state c) data |}
  else {| c_data := data; datalen := S (datalen c); bitlen := bitlen c; c_state := c_state c |}.

(** The index is a [u32], so the loop ends for fewer than [2 ^ 32] bytes. *)
Definition sha256_update (c : sha256_ctx) (data : list Z) : sha256_ctx := foldl update_byte c data.

(** Writing zeros from [i] up to [limit]. *)
Fixpoint zero_fill (n : nat) (i : nat) (data : list Z) : list Z :=
  match n with O => data | S n => zero_fill n (S i) (<[i := 0]> data) end.

(** The bytes of the length, the last at 63. *)
Definition store_length (data : list Z) (bits : Z) : list Z :=
  <[56%nat := u8 (Z.shiftr bits 56)]> (<[57%nat := u8 (Z.shiftr bits 48)]> (<[58%nat := u8 (Z.shiftr bits 40)]>
    (<[59%nat := u8 (Z.shiftr bits 32)]> (<[60%nat := u8 (Z.shiftr bits 24)]> (<[61%nat := u8 (Z.shiftr bits 16)]>
      (<[62%nat := u8 (Z.shiftr bits 8)]> (<[63%nat := u8 bits]> data))))))).

Definition word_bytes (w : Z) : list Z := (fun i => Z.land (Z.shiftr w (24 - Z.of_nat i * 8)) 0xff) <$> seq 0 4.

Definition hash_bytes (w : words) : list Z :=
  word_bytes (wa w) ++ word_bytes (wb w) ++ word_bytes (wc w) ++ word_bytes (wd w) ++
  word_bytes (we w) ++ word_bytes (wf w) ++ word_bytes (wg w) ++ word_bytes (wh w).

Definition sha256_final (c : sha256_ctx) : list Z :=
  let i := datalen c in
  let '(data, state) :=
    if (i <? 56)%nat then (zero_fill (56 - S i) (S i) (<[i := 0x80]> (c_data c)), c_state c)
    else
      let data := zero_fill (64 - S i) (S i) (<[i := 0x80]> (c_data c)) in
      (replicate 56 0 ++ drop 56 data, sha256_transform (c_state c) data) in
  let bits := u64 (bitlen c + Z.of_nat (datalen c) * 8) in
  hash_bytes (sha256_transform state (store_length data bits)).

Definition sha256 {h : Heap} (garbage : list Z) (dest source : buffer) : option buffer :=
  '(dest, ok) ← buffer_extend dest 32;
  _ ← kassert ok;
  off ← buffer_ref source 0;
  msg ← read_bytes (b_contents source) off (buffer_length source);
  c ← write_bytes (b_contents dest) (b_end dest) (sha256_final (sha256_update (sha256_init garbage) msg));
  buffer_produce (set_contents dest c) 32.

(** ** FIPS 180-4 *)

Definition primes : list Z :=
  [2; 3; 5; 7; 11; 13; 17; 19; 23; 29; 31; 37; 41; 43; 47; 53; 59; 61; 67; 71; 73; 79; 83; 89; 97; 101; 103; 107; 109; 113;
   127; 131; 137; 139; 149; 151; 157; 163; 167; 173; 179; 181; 191; 193; 197; 199; 211; 223; 227; 229; 233; 239; 241; 251;
   257; 263; 269; 271; 277; 281; 283; 293; 307; 311].

(** The integer cube root, bit by bit from bit [n - 1]. *)
Fixpoint cbrt (n : nat) (x r : Z) : Z :=
  match n with
  | O => r
  | S n => let r' := r + 2 ^ Z.of_nat n in cbrt n x (if r' * r' * r' <=? x then r' else r)
  end.

(** The first 32 bits of the fractional parts of the cube and square roots. *)
Definition K (t : nat) : Z := cbrt 40 (primes !!! t * 2 ^ 96) 0 mod 2 ^ 32.
Definition H0 (i : nat) : Z := Z.sqrt (primes !!! i * 2 ^ 64) mod 2 ^ 32.

Definition ROTR (n x : Z) : Z := x / 2 ^ n + (x mod 2 ^ n) * 2 ^ (32 - n).
Definition SHR (n x : Z) : Z := x / 2 ^ n.
Definition Ch (x y z : Z) : Z := Z.lxor (Z.land x y) (Z.land (2 ^ 32 - 1 - x) z).
Definition Maj (x y z : Z) : Z := Z.lxor (Z.lxor (Z.land x y) (Z.land x z)) (Z.land y z).
Definition Sigma0 (x : Z) : Z := Z.lxor (Z.lxor (ROTR 2 x) (ROTR 13 x)) (ROTR 22 x).
Definition Sigma1 (x : Z) : Z := Z.lxor (Z.lxor (ROTR 6 x) (ROTR 11 x)) (ROTR 25 x).
Definition sigma0 (x : Z) : Z := Z.lxor (Z.lxor (ROTR 7 x) (ROTR 18 x)) (SHR 3 x).
Definition sigma1 (x : Z) : Z := Z.lxor (Z.lxor (ROTR 17 x) (ROTR 19 x)) (SHR 10 x).

Infix "+32" := (fun x y => (x + y) mod 2 ^ 32) (at level 50, left associativity).

Definition block_word (M : list Z) (t : nat) : Z :=
  M !!! (4 * t)%nat * 2 ^ 24 + M !!! (4 * t + 1)%nat * 2 ^ 16 + M !!! (4 * t + 2)%nat * 2 ^ 8 + M !!! (4 * t + 3)%nat.

Equations? W (M : list Z) (t : nat) : Z by wf t lt :=
  W M t with decide (t < 16)%nat => {
    | left _ := block_word M t;
    | right _ := sigma1 (W M (t - 2)) +32 W M (t - 7) +32 sigma0 (W M (t - 15)) +32 W M (t - 16) }.
Proof. all: lia. Defined.

Definition spec_round (M : list Z) (v : words) (t : nat) : words :=
  let T1 := wh v +32 Sigma1 (we v) +32 Ch (we v) (wf v) (wg v) +32 K t +32 W M t in
  let T2 := Sigma0 (wa v) +32 Maj (wa v) (wb v) (wc v) in
  Words (T1 +32 T2) (wa v) (wb v) (wc v) (wd v +32 T1) (we v) (wf v) (wg v).

Definition compress (H : words) (M : list Z) : words :=
  let v := foldl (spec_round M) H (seq 0 64) in
  Words (wa v +32 wa H) (wb v +32 wb H) (wc v +32 wc H) (wd v +32 wd H)
        (we v +32 we H) (wf v +32 wf H) (wg v +32 wg H) (wh v +32 wh H).

Definition initial_hash : words := Words (H0 0) (H0 1) (H0 2) (H0 3) (H0 4) (H0 5) (H0 6) (H0 7).

(** The message, a one bit, zeros, and the length in bits in 64 bits. *)
Definition be_bytes (n : nat) (x : Z) : list Z := rev (le_split n x).

Definition pad_message (msg : list Z) : list Z :=
  let l := Z.of_nat (length msg) in
  msg ++ [0x80] ++ replicate (Z.to_nat ((55 - l) mod 64)) 0 ++ be_bytes 8 (8 * l).

Fixpoint hash_blocks (n : nat) (H : words) (l : list Z) : words :=
  match n with
  | O => H
  | S n => hash_blocks n (compress H (take 64 l)) (drop 64 l)
  end.

Definition digest (H : words) : list Z :=
  be_bytes 4 (wa H) ++ be_bytes 4 (wb H) ++ be_bytes 4 (wc H) ++ be_bytes 4 (wd H) ++
  be_bytes 4 (we H) ++ be_bytes 4 (wf H) ++ be_bytes 4 (wg H) ++ be_bytes 4 (wh H).

Definition SHA256 (msg : list Z) : list Z :=
  let p := pad_message msg in digest (hash_blocks (length p / 64) initial_hash p).

(** ** Bits *)

Lemma land_word x y : is_u32 x -> 0 <= y -> is_u32 (Z.land x y).
Proof.
  unfold is_u32. intros Hx Hy. split; [apply Z.land_nonneg; lia|].
  destruct (decide (Z.land x y = 0)) as [->|Hne]; [done|].
  assert (0 <= Z.land x y) by (apply Z.land_nonneg; lia).
  apply Z.log2_lt_pow2; [lia|]. eapply Z.le_lt_trans; [apply Z.log2_land; lia|].
  eapply Z.le_lt_trans; [apply Z.le_min_l|]. destruct (decide (x = 0)) as [->|]; [done|]. apply Z.log2_lt_pow2; lia.
Qed.

Lemma rotright_rotr n x : is_u32 x -> 0 < n < 32 -> ROTRIGHT x n = ROTR n x /\ is_u32 (ROTR n x).
Proof.
  unfold is_u32. intros Hx Hn. unfold ROTRIGHT, ROTR, u32. rewrite Z.shiftl_mul_pow2, shiftr_div by lia.
  assert (H32 : 2 ^ 32 = 2 ^ n * 2 ^ (32 - n)) by (rewrite <- Z.pow_add_r by lia; f_equal; lia).
  assert (Hp : 0 < 2 ^ n /\ 0 < 2 ^ (32 - n)) by (split; lia).
  rewrite H32, Z.mul_mod_distr_r by lia.
  assert (Hq : 0 <= x / 2 ^ n < 2 ^ (32 - n)).
  { split; [apply Z.div_pos; lia|]. apply Z.div_lt_upper_bound; lia. }
  pose proof (Z.mod_pos_bound x (2 ^ n) ltac:(lia)). split; [|nia].
  rewrite Z.lor_comm, lor_pow2 by lia. lia.
Qed.

Lemma not32_sub x : is_u32 x -> not32 x = 2 ^ 32 - 1 - x.
Proof.
  intros Hx. unfold not32. change 0xffffffff with (Z.ones 32). change (2 ^ 32 - 1) with (Z.ones 32).
  assert (Hh : forall i, 32 <= i -> Z.testbit x i = false).
  { intros i Hi. rewrite <- (Z.mod_small x (2 ^ 32)) by apply Hx. apply Z.mod_pow2_bits_high. lia. }
  rewrite Z.sub_nocarry_ldiff.
  - apply Z.bits_inj'. intros i Hi. rewrite Z.lxor_spec, Z.ldiff_spec, Z.testbit_ones_nonneg by lia.
    destruct (Z.ltb_spec i 32); [by destruct (Z.testbit x i)|by rewrite Hh].
  - apply Z.bits_inj'. intros i Hi. rewrite Z.ldiff_spec, Z.testbit_ones_nonneg, Z.bits_0 by lia.
    destruct (Z.ltb_spec i 32); [by rewrite andb_false_r|by rewrite Hh].
Qed.

Lemma ch_spec x y z : is_u32 x -> is_u32 y -> is_u32 z -> CH x y z = Ch x y z /\ is_u32 (Ch x y z).
Proof.
  intros Hx Hy Hz. unfold CH, Ch. rewrite not32_sub by done. split; [done|].
  apply lxor_word; apply land_word; unfold is_u32 in *; lia.
Qed.

Lemma maj_word x y z : is_u32 x -> is_u32 y -> is_u32 z -> is_u32 (MAJ x y z).
Proof. intros Hx Hy Hz. unfold MAJ. repeat apply lxor_word; apply land_word; unfold is_u32 in *; lia. Qed.

Lemma sigma_spec x : is_u32 x ->
  (EP0 x = Sigma0 x /\ EP1 x = Sigma1 x /\ SIG0 x = sigma0 x /\ SIG1 x = sigma1 x) /\
  (is_u32 (Sigma0 x) /\ is_u32 (Sigma1 x) /\ is_u32 (sigma0 x) /\ is_u32 (sigma1 x)).
Proof.
  intros Hx. unfold EP0, EP1, SIG0, SIG1, Sigma0, Sigma1, sigma0, sigma1, SHR. rewrite !shiftr_div by lia.
  assert (Hs : forall n, 0 <= n -> is_u32 (x / 2 ^ n)).
  { intros n Hn. unfold is_u32 in *. split; [apply Z.div_pos; lia|]. apply Z.div_lt_upper_bound; nia. }
  repeat match goal with |- context [ROTRIGHT x ?n] =>
    let E := fresh in let R := fresh in destruct (rotright_rotr n x Hx ltac:(lia)) as [E R]; rewrite E end.
  split; [done|]. repeat split; try (repeat apply lxor_word; auto with lia; done || apply Hs; lia).
Qed.

(** ** The compression function *)

(** Sums modulo one number, however nested. *)
Ltac flatten_mod := repeat first [rewrite Zplus_mod_idemp_l | rewrite Zplus_mod_idemp_r | rewrite <- Z.add_assoc].

Definition words_ok (v : words) : Prop :=
  is_u32 (wa v) /\ is_u32 (wb v) /\ is_u32 (wc v) /\ is_u32 (wd v) /\
  is_u32 (we v) /\ is_u32 (wf v) /\ is_u32 (wg v) /\ is_u32 (wh v).

Lemma constants : k = K <$> seq 0 64.
Proof. by vm_compute. Qed.

Lemma initial_state data : c_state (sha256_init data) = initial_hash.
Proof. by vm_compute. Qed.

Lemma k_lookup t : (t < 64)%nat -> k !!! t = K t.
Proof.
  intros Ht. rewrite constants. apply list_lookup_total_correct.
  rewrite list_lookup_fmap, lookup_seq_lt by lia. done.
Qed.

Lemma load_word_spec data t : Forall is_byte data -> (t < 16)%nat -> length data = 64%nat ->
  load_word data t = block_word data t /\ is_u32 (block_word data t).
Proof.
  intros Hb Ht Hl. assert (Hx : forall i, (i < 64)%nat -> 0 <= data !!! i < 2 ^ 8).
  { intros i Hi. rewrite Forall_lookup in Hb. destruct (lookup_lt_is_Some_2 data i) as [x E]; [lia|].
    rewrite (list_lookup_total_correct _ _ _ E). apply (Hb _ _ E). }
  unfold load_word, block_word. rewrite !Z.shiftl_mul_pow2 by lia.
  pose proof (Hx (4 * t)%nat ltac:(lia)). pose proof (Hx (4 * t + 1)%nat ltac:(lia)).
  pose proof (Hx (4 * t + 2)%nat ltac:(lia)). pose proof (Hx (4 * t + 3)%nat ltac:(lia)).
  set (x0 := data !!! (4 * t)%nat) in *. set (x1 := data !!! (4 * t + 1)%nat) in *.
  set (x2 := data !!! (4 * t + 2)%nat) in *. set (x3 := data !!! (4 * t + 3)%nat) in *.
  rewrite (lor_pow2 x0 (x1 * 2 ^ 16) 24) by lia.
  replace (x0 * 2 ^ 24 + x1 * 2 ^ 16) with ((x0 * 2 ^ 8 + x1) * 2 ^ 16) by lia.
  rewrite (lor_pow2 _ (x2 * 2 ^ 8) 16) by lia.
  replace ((x0 * 2 ^ 8 + x1) * 2 ^ 16 + x2 * 2 ^ 8) with (((x0 * 2 ^ 8 + x1) * 2 ^ 8 + x2) * 2 ^ 8) by lia.
  rewrite lor_pow2 by lia. unfold is_u32. rewrite u32_small by lia. lia.
Qed.

Lemma W_small M t : (t < 16)%nat -> W M t = block_word M t.
Proof. intros Ht. simp W. destruct (decide (t < 16)%nat); [done|lia]. Qed.

Lemma W_large M t : (16 <= t)%nat ->
  W M t = sigma1 (W M (t - 2)) +32 W M (t - 7) +32 sigma0 (W M (t - 15)) +32 W M (t - 16).
Proof. intros Ht. rewrite W_equation_1 at 1. destruct (decide (t < 16)%nat); [lia|done]. Qed.

Lemma W_word M t : Forall is_byte M -> length M = 64%nat -> is_u32 (W M t).
Proof.
  intros Hb Hl. destruct (decide (t < 16)%nat).
  - rewrite W_small by done. by apply load_word_spec.
  - rewrite W_large by lia. apply u32_range.
Qed.

(** The list being built agrees with [W]. *)
Lemma schedule_loop_spec M n : forall m, Forall is_byte M -> length M = 64%nat -> (16 <= length m)%nat ->
  (forall t, (t < length m)%nat -> m !!! t = W M t) ->
  length (schedule_loop n m) = (length m + n)%nat /\
  forall t, (t < length m + n)%nat -> schedule_loop n m !!! t = W M t.
Proof.
  induction n as [|n IH]; intros m Hb Hl Hm Ht; cbn [schedule_loop].
  { rewrite Nat.add_0_r. done. }
  match goal with |- context [m ++ [?x]] => set (new := x) end.
  assert (Hnew : new = W M (length m)).
  { unfold new. rewrite !Ht by lia. rewrite (W_large M (length m)) by lia.
    destruct (sigma_spec (W M (length m - 2)) (W_word _ _ Hb Hl)) as [(_ & _ & _ & ->) _].
    destruct (sigma_spec (W M (length m - 15)) (W_word _ _ Hb Hl)) as [(_ & _ & -> & _) _].
    unfold u32. by flatten_mod. }
  destruct (IH (m ++ [new]) Hb Hl) as [IH1 IH2]; rewrite ?length_app; cbn [length]; [lia| |].
  - intros t Htl. destruct (decide (t < length m)%nat).
    + rewrite lookup_total_app_l by done. by apply Ht.
    + replace t with (length m) by lia. by rewrite lookup_total_app_r, Nat.sub_diag by lia.
  - rewrite length_app in IH1, IH2. cbn [length] in IH1, IH2. split; [lia|]. intros t Htl. apply IH2. lia.
Qed.

Lemma schedule_spec M t : Forall is_byte M -> length M = 64%nat -> (t < 64)%nat -> schedule M !!! t = W M t.
Proof.
  intros Hb Hl Ht. unfold schedule. apply (schedule_loop_spec M 48); rewrite ?length_fmap, ?length_seq; try done; try lia.
  intros t' Ht'. rewrite W_small by done. rewrite <- (proj1 (load_word_spec M t' Hb Ht' Hl)).
  apply list_lookup_total_correct. rewrite list_lookup_fmap, lookup_seq_lt by lia. done.
Qed.

Lemma round_spec M v t : Forall is_byte M -> length M = 64%nat -> (t < 64)%nat -> words_ok v ->
  round (schedule M) v t = spec_round M v t /\ words_ok (spec_round M v t).
Proof.
  intros Hb Hl Ht (Ha & Hb' & Hc & Hd & He & Hf & Hg & Hh). unfold round, spec_round.
  rewrite k_lookup, schedule_spec by done.
  destruct (sigma_spec (we v) He) as [(_ & -> & _) _]. destruct (sigma_spec (wa v) Ha) as [(-> & _) _].
  destruct (ch_spec (we v) (wf v) (wg v) He Hf Hg) as [-> _]. change (Maj (wa v) (wb v) (wc v)) with (MAJ (wa v) (wb v) (wc v)).
  assert (ET : u32 (wh v + Sigma1 (we v) + Ch (we v) (wf v) (wg v) + K t + W M t) =
               wh v +32 Sigma1 (we v) +32 Ch (we v) (wf v) (wg v) +32 K t +32 W M t) by (unfold u32; by flatten_mod).
  rewrite ET. split; [done|].
  unfold words_ok. cbn [wa wb wc wd we wf wg wh]. repeat (split; [done || apply u32_range|]). done.
Qed.

Lemma transform_spec H M : words_ok H -> Forall is_byte M -> length M = 64%nat ->
  sha256_transform H M = compress H M /\ words_ok (compress H M).
Proof.
  intros HH Hb Hl.
  assert (Hfold : forall ts v, Forall (fun t => (t < 64)%nat) ts -> words_ok v ->
    foldl (round (schedule M)) v ts = foldl (spec_round M) v ts).
  { induction ts as [|t ts IH]; intros v Ht Hv; [done|]. apply Forall_cons in Ht as [Ht Hts]. cbn [foldl].
    destruct (round_spec M v t Hb Hl Ht Hv) as [-> Hv']. by apply IH. }
  unfold sha256_transform, compress. rewrite Hfold; [|by apply Forall_seq; lia|done].
  generalize (foldl (spec_round M) H (seq 0 64)). intros v. split.
  - unfold u32. by rewrite (Z.add_comm (wa H)), (Z.add_comm (wb H)), (Z.add_comm (wc H)), (Z.add_comm (wd H)),
      (Z.add_comm (we H)), (Z.add_comm (wf H)), (Z.add_comm (wg H)), (Z.add_comm (wh H)).
  - repeat split; apply Z.mod_pos_bound; lia.
Qed.

(** ** Blocks *)

#[local] Opaque compress sha256_transform.

Lemma hash_blocks_app n : forall H l r, (64 * n <= length l)%nat -> hash_blocks n H (l ++ r) = hash_blocks n H l.
Proof.
  induction n as [|n IH]; intros H l r Hl; cbn [hash_blocks]; [done|].
  rewrite take_app_le, drop_app_le by lia. apply IH. rewrite length_drop. lia.
Qed.

Lemma hash_blocks_last n : forall H l, hash_blocks (S n) H l = compress (hash_blocks n H l) (take 64 (drop (64 * n) l)).
Proof.
  induction n as [|n IH]; intros H l.
  - rewrite Nat.mul_0_r, drop_0. done.
  - change (hash_blocks (S (S n)) H l) with (hash_blocks (S n) (compress H (take 64 l)) (drop 64 l)).
    rewrite IH. cbn [hash_blocks]. rewrite drop_drop. do 3 f_equal. lia.
Qed.

Lemma hash_blocks_ok n : forall H l, words_ok H -> Forall is_byte l -> (64 * n <= length l)%nat -> words_ok (hash_blocks n H l).
Proof.
  induction n as [|n IH]; intros H l HH Hb Hl; cbn [hash_blocks]; [done|].
  apply IH; [|by apply Forall_drop|rewrite length_drop; lia].
  apply transform_spec; [done|by apply Forall_take|rewrite length_take; lia].
Qed.

Lemma initial_ok : words_ok initial_hash.
Proof. repeat split; vm_compute; done. Qed.

(** ** Streaming *)

(** The context after the bytes [msg]. *)
Record after (c : sha256_ctx) (msg : list Z) : Prop := {
  af_length : length (c_data c) = 64%nat;
  af_bytes : Forall is_byte (c_data c);
  af_datalen : (datalen c < 64)%nat;
  af_count : length msg = (64 * (length msg / 64) + datalen c)%nat;
  af_bits : bitlen c = u64 (512 * Z.of_nat (length msg / 64));
  af_data : take (datalen c) (c_data c) = drop (64 * (length msg / 64)) msg;
  af_state : c_state c = hash_blocks (length msg / 64) initial_hash msg;
}.

Lemma insert_at (l : list Z) i x : (i < length l)%nat -> <[i := x]> l = take i l ++ x :: drop (S i) l.
Proof. intros Hi. by apply insert_take_drop. Qed.

Lemma div64 n q r : n = (64 * q + r)%nat -> (r < 64)%nat -> (n / 64 = q)%nat.
Proof. intros -> Hr. rewrite Nat.mul_comm, Nat.div_add_l, Nat.div_small; lia. Qed.

Lemma init_after garbage : length garbage = 64%nat -> Forall is_byte garbage -> after (sha256_init garbage) [].
Proof. intros Hl Hb. by split; try apply initial_state; simpl; try done; lia. Qed.

Lemma update_byte_after c msg x : after c msg -> Forall is_byte msg -> is_byte x -> after (update_byte c x) (msg ++ [x]).
Proof.
  intros [] Hm Hx. set (q := (length msg / 64)%nat) in *.
  assert (Hlen : length (msg ++ [x]) = (64 * q + S (datalen c))%nat) by (rewrite length_app; simpl; lia).
  assert (Hins : <[datalen c := x]> (c_data c) = (drop (64 * q) msg ++ [x]) ++ drop (S (datalen c)) (c_data c)).
  { rewrite insert_at, af_data0 by lia. by rewrite <- app_assoc. }
  assert (Hlr : length (drop (64 * q) msg ++ [x]) = S (datalen c)) by (rewrite length_app, length_drop; simpl; lia).
  assert (Hdx : drop (64 * q) (msg ++ [x]) = drop (64 * q) msg ++ [x]) by (rewrite drop_app_le by lia; done).
  assert (Hb' : Forall is_byte (<[datalen c := x]> (c_data c))) by (apply Forall_insert; done).
  unfold update_byte. destruct (Nat.eqb_spec (S (datalen c)) 64) as [E|E].
  - assert (Hq : (length (msg ++ [x]) / 64)%nat = S q) by (apply (div64 _ _ 0); lia).
    split; cbn [c_data datalen bitlen c_state]; rewrite ?Hq; rewrite ?length_insert; try done; try lia.
    + rewrite af_bits0. unfold u64. rewrite Zplus_mod_idemp_l. f_equal. lia.
    + rewrite take_0, drop_ge by lia. done.
    + rewrite hash_blocks_last, hash_blocks_app, Hdx by lia. rewrite Hins, af_state0.
      rewrite (drop_ge (c_data c)), app_nil_r by lia. rewrite (take_ge (drop _ _ ++ _)) by lia.
      apply transform_spec; [apply hash_blocks_ok; [apply initial_ok|done|lia]| |lia].
      rewrite Hins in Hb'. by apply Forall_app in Hb' as [? _].
  - assert (Hq : (length (msg ++ [x]) / 64)%nat = q) by (apply (div64 _ _ (S (datalen c))); lia).
    split; cbn [c_data datalen bitlen c_state]; rewrite ?Hq; rewrite ?length_insert; try done; try lia.
    + rewrite Hins, take_app_le by lia. rewrite take_ge by lia. done.
    + rewrite hash_blocks_app by lia. done.
Qed.

Lemma update_after msg c pre : after c pre -> Forall is_byte pre -> Forall is_byte msg -> after (sha256_update c msg) (pre ++ msg).
Proof.
  revert c pre. induction msg as [|x msg IH]; intros c pre Hc Hp Hm; [by rewrite app_nil_r|].
  apply Forall_cons in Hm as [Hx Hm]. change (sha256_update c (x :: msg)) with (sha256_update (update_byte c x) msg).
  replace (pre ++ x :: msg) with ((pre ++ [x]) ++ msg) by by rewrite <- app_assoc.
  apply IH; [by apply update_byte_after| |done]. apply Forall_app. by rewrite Forall_singleton.
Qed.

(** ** Padding *)

Lemma zero_fill_spec n : forall i data, (i + n <= length data)%nat ->
  zero_fill n i data = take i data ++ replicate n 0 ++ drop (i + n) data.
Proof.
  induction n as [|n IH]; intros i data Hi; cbn [zero_fill].
  - cbn [replicate app]. by rewrite Nat.add_0_r, take_drop.
  - rewrite IH by (rewrite length_insert; lia). rewrite insert_at by lia.
    rewrite (take_app_ge (take i data)) by (rewrite length_take; lia). rewrite length_take, (Nat.min_l i) by lia.
    replace (S i - i)%nat with 1%nat by lia. rewrite drop_app_ge by (rewrite length_take; lia).
    rewrite length_take, (Nat.min_l i) by lia. replace (S i + n - i)%nat with (S n) by lia.
    cbn [take drop]. rewrite take_0, drop_drop, <- app_assoc. cbn [app replicate]. do 4 f_equal. lia.
Qed.

Lemma byte_of w n : 0 <= n -> u8 (Z.shiftr w n) = (w / 2 ^ n) mod 256.
Proof. intros Hn. rewrite shiftr_div by done. done. Qed.

Lemma be_bytes_8 w : be_bytes 8 w = [(w / 2 ^ 56) mod 256; (w / 2 ^ 48) mod 256; (w / 2 ^ 40) mod 256; (w / 2 ^ 32) mod 256;
  (w / 2 ^ 24) mod 256; (w / 2 ^ 16) mod 256; (w / 2 ^ 8) mod 256; w mod 256].
Proof. unfold be_bytes. cbn [le_split rev app]. by rewrite !Z.div_div by lia. Qed.

Lemma word_bytes_spec w : word_bytes w = be_bytes 4 w.
Proof.
  unfold word_bytes, be_bytes. cbn [seq fmap list_fmap le_split rev app].
  change 0xff with (Z.ones 8). rewrite !Z.land_ones, !shiftr_div, !Z.div_div by lia. by rewrite Z.div_1_r.
Qed.

Lemma hash_bytes_digest w : hash_bytes w = digest w.
Proof. unfold hash_bytes, digest. by rewrite !word_bytes_spec. Qed.

Lemma store_length_spec data bits : length data = 64%nat -> store_length data bits = take 56 data ++ be_bytes 8 bits.
Proof.
  intros Hl. rewrite <- (take_drop 56 data) at 1. set (p := take 56 data).
  assert (Hp : length p = 56%nat) by (unfold p; rewrite length_take; lia).
  assert (Hd : length (drop 56 data) = 8%nat) by (rewrite length_drop; lia).
  destruct (drop 56 data) as [|x0 [|x1 [|x2 [|x3 [|x4 [|x5 [|x6 [|x7 [|]]]]]]]]]; try done.
  unfold store_length. rewrite !byte_of by lia. rewrite be_bytes_8.
  rewrite !insert_app_r_alt by (rewrite ?length_app; simpl; lia). by rewrite Hp.
Qed.

Lemma pad_length (msg : list Z) q i : length msg = (64 * q + i)%nat -> (i < 64)%nat ->
  Z.to_nat ((55 - Z.of_nat (length msg)) mod 64) = if decide (i < 56)%nat then (55 - i)%nat else (119 - i)%nat.
Proof.
  intros Hl Hi. rewrite Hl. replace (55 - Z.of_nat (64 * q + i)) with (55 - Z.of_nat i + - Z.of_nat q * 64) by lia.
  rewrite Z_mod_plus_full. case_decide; [rewrite Z.mod_small by lia; lia|].
  replace (55 - Z.of_nat i) with (119 - Z.of_nat i + -1 * 64) by lia. rewrite Z_mod_plus_full, Z.mod_small by lia. lia.
Qed.

(** The blocks of a padded message after its whole blocks. *)
Lemma hash_tail (msg : list Z) q tail n : length msg = (64 * q + length (drop (64 * q) msg))%nat ->
  length (drop (64 * q) msg ++ tail) = (64 * n)%nat ->
  hash_blocks (length (msg ++ tail) / 64) initial_hash (msg ++ tail) =
  hash_blocks n (hash_blocks q initial_hash msg) (drop (64 * q) msg ++ tail).
Proof.
  intros Hl Ht. rewrite length_app in Ht.
  assert (Hq : (length (msg ++ tail) / 64 = q + n)%nat) by (apply (div64 _ _ 0); rewrite ?length_app; lia).
  rewrite Hq. assert (H : forall m, (64 * q <= length m)%nat -> forall n, hash_blocks (q + n) initial_hash m =
    hash_blocks n (hash_blocks q initial_hash m) (drop (64 * q) m)).
  { intros m Hm n'. clear -Hm. revert m Hm. generalize initial_hash. induction q as [|q IH]; intros H m Hm.
    - by rewrite Nat.mul_0_r, drop_0.
    - cbn [hash_blocks Nat.add]. rewrite IH by (rewrite length_drop; lia). rewrite drop_drop. do 2 f_equal. lia. }
  rewrite H by (rewrite length_app; lia). rewrite hash_blocks_app, drop_app_le by lia. done.
Qed.

Section Final.
Context (c : sha256_ctx) (msg : list Z) (Hc : after c msg) (Hm : Forall is_byte msg) (Hlt : Z.of_nat (length msg) < 2 ^ 32).
Local Notation q := (length msg / 64)%nat.
Local Notation i := (datalen c).
Local Notation rest := (drop (64 * q) msg).
Local Notation L := (be_bytes 8 (8 * Z.of_nat (length msg))).

Lemma rest_length : length rest = i /\ Forall is_byte rest.
Proof. split; [rewrite length_drop; pose proof (af_count _ _ Hc); lia|by apply Forall_drop]. Qed.

Lemma final_bits : u64 (bitlen c + Z.of_nat i * 8) = 8 * Z.of_nat (length msg).
Proof.
  pose proof (af_count _ _ Hc). pose proof (af_datalen _ _ Hc).
  rewrite (af_bits _ _ Hc), (u64_small (512 * _)), u64_small by lia. lia.
Qed.

Lemma final_state : words_ok (hash_blocks q initial_hash msg).
Proof. apply hash_blocks_ok; [apply initial_ok|done|]. pose proof (af_count _ _ Hc). lia. Qed.

Lemma length_field : length L = 8%nat /\ Forall is_byte L.
Proof. unfold be_bytes. split; [by rewrite length_rev, length_le_split|apply Forall_rev, le_split_bytes]. Qed.

Lemma zeros_bytes n : Forall is_byte (replicate n 0).
Proof. by apply Forall_replicate. Qed.

Lemma final_fill n : (S i + n <= 64)%nat ->
  zero_fill n (S i) (<[i := 0x80]> (c_data c)) = rest ++ [0x80] ++ replicate n 0 ++ drop (S i + n) (c_data c).
Proof.
  intros Hn. destruct rest_length as [Hr _]. destruct Hc as [Hl _ Hd _ _ Hdata _].
  rewrite zero_fill_spec by (rewrite length_insert; lia). rewrite insert_at, Hdata by lia.
  rewrite take_app_ge, drop_app_ge by lia. rewrite Hr. replace (S i - i)%nat with 1%nat by lia.
  replace (S i + n - i)%nat with (S n) by lia. cbn [take drop]. by rewrite take_0, drop_drop, <- app_assoc.
Qed.

(** The length fits in the block. *)
Lemma final_short : (i < 56)%nat ->
  sha256_transform (c_state c) (store_length (zero_fill (56 - S i) (S i) (<[i := 0x80]> (c_data c))) (8 * Z.of_nat (length msg))) =
  hash_blocks 1 (hash_blocks q initial_hash msg) (rest ++ [0x80] ++ replicate (55 - i) 0 ++ L).
Proof.
  intros Hi. destruct rest_length as [Hr Hrb]. destruct length_field as [HL HLb]. pose proof (af_length _ _ Hc) as Hl.
  rewrite (af_state _ _ Hc), final_fill by lia. replace (56 - S i)%nat with (55 - i)%nat by lia.
  pose proof (af_count _ _ Hc). rewrite store_length_spec by (rewrite !length_app, length_replicate, !length_drop; cbn [length]; lia).
  set (blk := rest ++ [0x80] ++ replicate (55 - i) 0 ++ L).
  assert (Eb : take 56 (rest ++ [0x80] ++ replicate (55 - i) 0 ++ drop (S i + (55 - i)) (c_data c)) ++ L = blk).
  { unfold blk. rewrite (app_assoc [0x80]), (app_assoc rest), take_app_le, take_ge
      by (rewrite !length_app, length_replicate; cbn [length]; lia). by rewrite <- !app_assoc. }
  rewrite Eb. assert (Hblk : length blk = 64%nat) by (unfold blk; rewrite !length_app, length_replicate; cbn [length]; lia).
  cbn [hash_blocks]. rewrite (take_ge blk) by lia. apply transform_spec; [apply final_state| |done].
  unfold blk. rewrite !Forall_app, Forall_singleton. repeat split; try done. apply zeros_bytes.
Qed.

(** The length goes to a block of its own. *)
Lemma final_long : (56 <= i < 64)%nat ->
  let data := zero_fill (64 - S i) (S i) (<[i := 0x80]> (c_data c)) in
  sha256_transform (sha256_transform (c_state c) data)
    (store_length (replicate 56 0 ++ drop 56 data) (8 * Z.of_nat (length msg))) =
  hash_blocks 2 (hash_blocks q initial_hash msg) (rest ++ [0x80] ++ replicate (119 - i) 0 ++ L).
Proof.
  intros Hi. cbn zeta. destruct rest_length as [Hr Hrb]. destruct length_field as [HL HLb]. pose proof (af_length _ _ Hc) as Hl.
  rewrite (af_state _ _ Hc), final_fill by lia. rewrite (drop_ge (c_data c)), app_nil_r by lia.
  replace (64 - S i)%nat with (63 - i)%nat by lia. set (b1 := rest ++ [0x80] ++ replicate (63 - i) 0).
  assert (Hb1 : length b1 = 64%nat) by (unfold b1; rewrite !length_app, length_replicate; cbn [length]; lia).
  assert (Eb : rest ++ [0x80] ++ replicate (119 - i) 0 ++ L = b1 ++ replicate 56 0 ++ L).
  { unfold b1. replace (119 - i)%nat with (63 - i + 56)%nat by lia. by rewrite replicate_add, <- !app_assoc. }
  rewrite Eb. cbn [hash_blocks]. rewrite take_app_length', drop_app_length' by done.
  destruct (transform_spec (hash_blocks q initial_hash msg) b1) as [-> Hok]; [apply final_state| |done|].
  { unfold b1. rewrite !Forall_app, Forall_singleton. repeat split; try done. apply zeros_bytes. }
  rewrite store_length_spec by (rewrite length_app, length_replicate, length_drop; lia).
  rewrite take_app_length' by by rewrite length_replicate.
  rewrite (take_ge (replicate 56 0 ++ L)) by (rewrite length_app, length_replicate; lia).
  apply transform_spec; [done|apply Forall_app; split; [apply zeros_bytes|done]|rewrite length_app, length_replicate; lia].
Qed.

Lemma final_after : sha256_final c = SHA256 msg.
Proof.
  destruct rest_length as [Hr _]. destruct length_field as [HL _].
  pose proof (af_count _ _ Hc) as Hn. pose proof (af_datalen _ _ Hc) as Hi.
  unfold SHA256, pad_message. rewrite (pad_length msg q i) by lia. unfold sha256_final. rewrite final_bits.
  destruct (Nat.ltb_spec i 56) as [Hs|Hs]; case_decide; try lia; rewrite hash_bytes_digest.
  - rewrite (hash_tail msg q _ 1) by (rewrite ?length_app, ?length_replicate; cbn [length]; lia). by rewrite final_short.
  - rewrite (hash_tail msg q _ 2) by (rewrite ?length_app, ?length_replicate; cbn [length]; lia). by rewrite final_long.
Qed.
End Final.

Lemma digest_bytes H : Forall is_byte (digest H) /\ length (digest H) = 32%nat.
Proof.
  unfold digest, be_bytes. split; [|by rewrite !length_app, !length_rev, !length_le_split].
  rewrite !Forall_app. repeat (split; [apply Forall_rev, le_split_bytes|]). apply Forall_rev, le_split_bytes.
Qed.

Lemma updates_after pieces : forall c pre, after c pre -> Forall is_byte pre -> Forall (Forall is_byte) pieces ->
  after (foldl sha256_update c pieces) (pre ++ concat pieces) /\ Forall is_byte (pre ++ concat pieces).
Proof.
  induction pieces as [|p pieces IH]; intros c pre Hc Hp Hb; simpl; [by rewrite app_nil_r|].
  apply Forall_cons in Hb as [Hb Hbs]. rewrite app_assoc. apply IH; [by apply update_after| |done].
  by apply Forall_app.
Qed.

(** * Properties *)

(** C32: the code computes SHA-256.  However the message is cut into pieces given to
    [sha256_update], and whatever the block held before, [sha256_final] returns the
    digest of FIPS 180-4 of the whole message, of fewer than 2^32 bytes; and [sha256]
    appends the digest of the contents of a buffer to another, or fails its assertion
    when that cannot be extended. *)
Theorem sha256_correct {h : Heap} {hl : HeapLaws h} garbage pieces dest source :
  length garbage = 64%nat -> Forall is_byte garbage ->
  Forall (Forall is_byte) pieces -> Z.of_nat (length (concat pieces)) < 2 ^ 32 ->
  buffer_ok dest -> b_end dest - b_start dest + 32 < 2 ^ 62 -> buffer_ok source -> b_end source - b_start source < 2 ^ 32 ->
  sha256_final (foldl sha256_update (sha256_init garbage) pieces) = SHA256 (concat pieces) /\
  exists d r, buffer_extend dest 32 = Some (d, r) /\
    if (r : bool) then exists dest', sha256 garbage dest source = Some dest' /\ buffer_ok dest' /\
      payload dest' = payload dest ++ SHA256 (payload source)
    else sha256 garbage dest source = None.
Proof.
  intros Hg Hgb Hp Hlen Hd Hcap Hs Hslen. pose proof (init_after garbage Hg Hgb) as Hinit. split.
  { destruct (updates_after pieces _ [] Hinit (Forall_nil_2 _) Hp) as [Ha Hb]. by apply final_after. }
  destruct (extend_spec dest 32 Hd ltac:(lia) ltac:(lia)) as (d & r & E & Hd' & Hpd & Hr). exists d, r. split; [done|].
  unfold sha256. rewrite E. cbn [mbind option_bind]. destruct r; [|done]. unfold kassert at 1. cbn [mbind option_bind].
  pose proof (payload_length source Hs) as Hpl. pose proof Hs as [Hw _ _ _ _].
  rewrite ref_offset, Z.add_0_r by (done || lia). cbn [mbind option_bind].
  rewrite buffer_length_ok, read_window by (done || lia). rewrite take_ge by lia. cbn [mbind option_bind].
  assert (Ef : sha256_final (sha256_update (sha256_init garbage) (payload source)) = SHA256 (payload source)).
  { apply final_after; [|by apply payload_bytes|lia].
    apply (update_after (payload source) _ []); [done|by apply Forall_nil|by apply payload_bytes]. }
  rewrite Ef. destruct (digest_bytes (hash_blocks (length (pad_message (payload source)) / 64) initial_hash
                         (pad_message (payload source)))) as [Hdb Hdl]. fold (SHA256 (payload source)) in Hdb, Hdl.
  destruct (put_spec d (SHA256 (payload source)) Hd' Hdb) as (m & -> & Hok & Hpay); [rewrite Hdl; lia|].
  cbn [mbind option_bind]. rewrite Hdl in Hok, Hpay. pose proof Hd' as [Hw1 He1 Hl1 _ _].
  unfold buffer_produce. cbn [set_contents b_start b_end b_length]. unfold kassert.
  change (Z.of_nat 32) with 32 in *. rewrite (u64_small (b_end d + 32)) in * by lia.
  destruct (Z.leb_spec (b_start d) (b_end d)); [|lia]. destruct (Z.leb_spec (b_end d + 32) (b_length d)); [|lia].
  cbn [mbind option_bind]. eexists. split; [done|]. split; [exact Hok|]. by rewrite Hpay, Hpd.
Qed.

Definition abc : list Z := [97; 98; 99].

Lemma sha256_correct_witness :
  sha256_final (foldl sha256_update (sha256_init (replicate 64 7)) [[97]; [98; 99]]) = SHA256 abc.
Proof.
  refine (proj1 (sha256_correct (h := zero_heap) (hl := zero_heap_laws) (replicate 64 7) [[97]; [98; 99]]
                   sample_buffer sample_buffer _ _ _ _ sample_buffer_ok _ sample_buffer_ok _)); try done.
  - by apply Forall_replicate.
  - by repeat constructor.
Defined.

(** The digest of [abc] that the standard gives as an example. *)
Lemma sha256_abc : sha256_final (sha256_update (sha256_init (replicate 64 0)) abc) =
  [0xba; 0x78; 0x16; 0xbf; 0x8f; 0x01; 0xcf; 0xea; 0x41; 0x41; 0x40; 0xde; 0x5d; 0xae; 0x22; 0x23;
   0xb0; 0x03; 0x61; 0xa3; 0x96; 0x17; 0x7a; 0x9c; 0xb4; 0x10; 0xff; 0x61; 0xf2; 0x00; 0x15; 0xad].
Proof. by vm_compute. Qed.
