(* ===== verification/Page.v ===== *)
(** Page tables: [kernel/src/kernel/page.c] with [kernel/src/x86_64/page_machine.h].

    Page tables are words of memory ([mem]), by their physical addresses: the code reads
    and writes them where [pointer_from_pteaddr] says the physical address is mapped.
    Pages for new tables are cut from chunks that the page heap gives ([pageheap] holds
    the chunks it still has); a failed allocation is the value [None] of
    [allocate_table_page].  A function that can fail for lack of memory returns a boolean
    with the new state, as the code does, and the whole is [None] when an assertion fails
    or when [map_level] would go below the last level.

    Stale translations matter: the state has the flush entry ([fe_pages], [fe_flush])
    that collects the addresses to invalidate on every processor, and the addresses
    invalidated at once ([invalidated]), as [page_invalidate] of [kernel/flush.c] does. *)

From stdpp Require Import functions.
From S2P Require Import Prelude Range.

(** ** Entries *)

Definition VIRTUAL_ADDRESS_BITS : Z := 48.

Definition PAGE_NO_EXEC : Z := U64_FROM_BIT 63.
Definition PAGE_NO_PS : Z := 0x0200.
Definition PAGE_PS : Z := 0x0080.
Definition PAGE_USER : Z := 0x0004.
Definition PAGE_WRITABLE : Z := 0x0002.
Definition PAGE_PRESENT : Z := 0x0001.
Definition PAGE_FLAGS_MASK : Z := Z.lor PAGE_NO_EXEC PAGEMASK.

Definition PT_FIRST_LEVEL : Z := 1.
Definition PT_PTE_LEVEL : Z := 4.
Definition PTE_ENTRIES : Z := U64_FROM_BIT 9.
Definition INDEX_MASK : Z := Z.shiftr PAGEMASK 3.

(** [~x] on a word. *)
Definition not64 (x : Z) : Z := u64 (Z.lnot x).

Definition pt_level_shift (level : Z) : Z :=
  match level with 1 => 39 | 2 => 30 | 3 => 21 | 4 => 12 | _ => 0 end.

Definition has (x bit : Z) : bool := negb (Z.land x bit =? 0).

Definition pte_is_present (entry : Z) : bool := has entry PAGE_PRESENT.
Definition flags_has_minpage (flags : Z) : bool := has flags PAGE_NO_PS.
Definition pageflags_is_writable (flags : Z) : bool := has flags PAGE_WRITABLE.

(** The log of the size of the mapping, 0 if the entry is not one.  The assertion on the
    level holds at the levels of a table. *)
Definition pte_order (level entry : Z) : Z :=
  if (level =? 1) || negb (pte_is_present entry) || (negb (level =? 4) && negb (has entry PAGE_PS)) then 0
  else pt_level_shift level.

Definition pte_map_size (level entry : Z) : Z :=
  let order := pte_order level entry in
  if negb (order =? 0) then U64_FROM_BIT order else INVALID_PHYSICAL.

Definition pte_is_mapping (level entry : Z) : bool := negb (pte_map_size level entry =? INVALID_PHYSICAL).

Definition page_pte (phys flags : Z) : Z := Z.lor (Z.lor phys (Z.land flags (not64 PAGE_NO_PS))) PAGE_PRESENT.
Definition block_pte (phys flags : Z) : Z := Z.lor (Z.lor (Z.lor phys flags) PAGE_PRESENT) PAGE_PS.

(** [a = (a + mask + 1) & ~mask]. *)
Definition next_addr (a mask : Z) : Z := Z.land (u64 (a + mask + 1)) (not64 mask).

(** ** The state *)

Record pagemem := {
  current_phys : range;
  pageheap : list Z;
  mem : Z -> Z;
  fe_pages : list Z;
  fe_flush : bool;
  invalidated : list Z;
  phys_ranges : list range;
  room : nat;
  zeroed : list range;
}.

Definition set_alloc (s : pagemem) (r : range) (h : list Z) : pagemem :=
  {| current_phys := r; pageheap := h; mem := mem s; fe_pages := fe_pages s; fe_flush := fe_flush s;
     invalidated := invalidated s; phys_ranges := phys_ranges s; room := room s; zeroed := zeroed s |}.
Definition set_mem (s : pagemem) (m : Z -> Z) : pagemem :=
  {| current_phys := current_phys s; pageheap := pageheap s; mem := m; fe_pages := fe_pages s; fe_flush := fe_flush s;
     invalidated := invalidated s; phys_ranges := phys_ranges s; room := room s; zeroed := zeroed s |}.
Definition set_fe (s : pagemem) (l : list Z) (b : bool) : pagemem :=
  {| current_phys := current_phys s; pageheap := pageheap s; mem := mem s; fe_pages := l; fe_flush := b;
     invalidated := invalidated s; phys_ranges := phys_ranges s; room := room s; zeroed := zeroed s |}.
Definition set_invalidated (s : pagemem) (l : list Z) : pagemem :=
  {| current_phys := current_phys s; pageheap := pageheap s; mem := mem s; fe_pages := fe_pages s; fe_flush := fe_flush s;
     invalidated := l; phys_ranges := phys_ranges s; room := room s; zeroed := zeroed s |}.
Definition set_phys_ranges (s : pagemem) (l : list range) (n : nat) : pagemem :=
  {| current_phys := current_phys s; pageheap := pageheap s; mem := mem s; fe_pages := fe_pages s; fe_flush := fe_flush s;
     invalidated := invalidated s; phys_ranges := l; room := n; zeroed := zeroed s |}.
Definition set_zeroed (s : pagemem) (l : list range) : pagemem :=
  {| current_phys := current_phys s; pageheap := pageheap s; mem := mem s; fe_pages := fe_pages s; fe_flush := fe_flush s;
     invalidated := invalidated s; phys_ranges := phys_ranges s; room := room s; zeroed := l |}.

Definition pte_set (s : pagemem) (a w : Z) : pagemem := set_mem s (<[a := w]> (mem s)).

(** Entry [i] of the table at [table]. *)
Definition pte_at (table i : Z) : Z := table + 8 * i.

Definition zero_mem (m : Z -> Z) (p n : Z) : Z -> Z := fun a => if (p <=? a) && (a <? p + n) then 0 else m a.

Definition PAGEMEM_ALLOC_SIZE : Z := 2 ^ 20.

(** The physical address of a zeroed page. *)
Definition allocate_table_page (s : pagemem) : option (Z * pagemem) :=
  s ← (if range_span (current_phys s) =? 0 then
         match pageheap s with
         | [] => None
         | pa :: h => Some (set_alloc s (irangel pa PAGEMEM_ALLOC_SIZE) h)
         end
       else Some s);
  let phys := start (current_phys s) in
  let s := set_alloc s (irange (u64 (phys + PAGESIZE)) (end_ (current_phys s))) (pageheap s) in
  Some (phys, set_mem s (zero_mem (mem s) phys PAGESIZE)).

Definition FLUSH_THRESHOLD : Z := 32.

(** Taking a flush entry, which is cleared. *)
Definition get_page_flush_entry (s : pagemem) : pagemem := set_fe s [] false.

Section Tables.
(** The mask of encrypted memory, the top table, the levels that may have blocks, and
    whether flush entries are in use. *)
Context (page_encr_mask pagebase levelmask : Z) (initialized : bool).

Definition flags_from_pte (pte : Z) : Z :=
  Z.land pte (Z.lor (Z.land PAGE_FLAGS_MASK (not64 PAGE_PS)) page_encr_mask).

Definition new_level_pte (tp_phys : Z) : Z :=
  Z.lor (Z.lor (Z.lor (Z.lor tp_phys PAGE_WRITABLE) PAGE_USER) PAGE_PRESENT) page_encr_mask.

Definition page_from_pte (p : Z) : Z := Z.land p (Z.land (Z.land (MASK 52) (not64 PAGEMASK)) (not64 page_encr_mask)).

Definition page_invalidate (fe : bool) (s : pagemem) (p : Z) : pagemem :=
  if fe && initialized then
    if fe_flush s then s
    else let l := fe_pages s ++ [p] in set_fe s l (FLUSH_THRESHOLD <=? Z.of_nat (length l))
  else set_invalidated s (invalidated s ++ [p]).

(** ** Walking the tables *)

Definition pte_lookup_phys (table vaddr offset : Z) : Z :=
  u64 (table + Z.shiftl (Z.land (Z.shiftr vaddr offset) (MASK 9)) 3).

(** [None] is [INVALID_PHYSICAL]. *)
Definition __physical_from_virtual_locked (m : Z -> Z) (xt : Z) : option Z :=
  let l1 := m (pte_lookup_phys pagebase xt 39) in
  if negb (has l1 1) then None else
  let l2 := m (pte_lookup_phys (page_from_pte l1) xt 30) in
  if negb (has l2 1) then None else
  if has l2 PAGE_PS then Some (Z.lor (page_from_pte l2) (Z.land xt (MASK 30))) else
  let l3 := m (pte_lookup_phys (page_from_pte l2) xt 21) in
  if negb (has l3 1) then None else
  if has l3 PAGE_PS then Some (Z.lor (page_from_pte l3) (Z.land xt (MASK 21))) else
  let l4 := m (pte_lookup_phys (page_from_pte l3) xt 12) in
  if negb (has l4 1) then None else
  Some (Z.lor (page_from_pte l4) (Z.land xt (MASK 12))).

(** A handler is given the level, the virtual address and the address of an entry. *)
Definition entry_handler := pagemem -> Z -> Z -> Z -> option (bool * pagemem).

(** The loop of [recurse_ptes] over [n] entries from [i]. *)
Fixpoint ptes_loop (rec : pagemem -> Z -> Z -> option (bool * pagemem)) (ph : entry_handler)
    (pbase level vstart laddr : Z) (n : nat) (i offset : Z) (s : pagemem) : option (bool * pagemem) :=
  match n with
  | O => Some (true, s)
  | S n =>
      let shift := pt_level_shift level in
      let addr := u64 (Z.land vstart (not64 (MASK VIRTUAL_ADDRESS_BITS)) + laddr + Z.shiftl i shift) in
      let pteaddr := u64 (pbase + i * 8) in
      '(ok, s) ← ph s level addr pteaddr;
      if negb ok then Some (false, s) else
      let pte := mem s pteaddr in
      '(ok, s) ← (if pte_is_present pte && (level <? PT_PTE_LEVEL) &&
                     ((level =? PT_FIRST_LEVEL) || negb (pte_is_mapping level pte))
                  then rec s (page_from_pte pte) (u64 (laddr + offset)) else Some (true, s));
      if negb ok then Some (false, s) else
      ptes_loop rec ph pbase level vstart laddr n (i + 1) (u64 (offset + U64_FROM_BIT shift)) s
  end.

Fixpoint recurse_ptes (fuel : nat) (ph : entry_handler) (s : pagemem) (pbase level vstart len laddr : Z) :
    option (bool * pagemem) :=
  match fuel with
  | O => None
  | S fuel =>
      let shift := pt_level_shift level in
      let lsize := U64_FROM_BIT shift in
      let vaddr := Z.land vstart (MASK VIRTUAL_ADDRESS_BITS) in
      let start_idx := if laddr <? vaddr then Z.shiftr (vaddr - laddr) shift else 0 in
      let x := u64 (vaddr + len - laddr) in
      let end_idx := Z.min (Z.shiftr (pad x lsize) shift) PTE_ENTRIES in
      let offset := u64 (Z.shiftl start_idx shift) in
      _ ← kassert (start_idx <=? PTE_ENTRIES);
      _ ← kassert (end_idx <=? PTE_ENTRIES);
      ptes_loop (fun s pbase laddr => recurse_ptes fuel ph s pbase (level + 1) vstart len laddr) ph
        pbase level vstart laddr (Z.to_nat (end_idx - start_idx)) start_idx offset s
  end.

(** There are four levels. *)
Definition traverse_ptes (s : pagemem) (vaddr length : Z) (ph : entry_handler) : option (bool * pagemem) :=
  recurse_ptes 4 ph s pagebase PT_FIRST_LEVEL vaddr length 0.

Definition validate_entry : entry_handler := fun s _ _ entry => Some (pte_is_present (mem s entry), s).

Definition validate_virtual (s : pagemem) (base length : Z) : option (bool * pagemem) :=
  let p := Z.shiftr base VIRTUAL_ADDRESS_BITS in
  if negb (p =? 0) && negb (p =? MASK (64 - VIRTUAL_ADDRESS_BITS)) then Some (false, s)
  else traverse_ptes s base length validate_entry.

Definition validate_entry_writable : entry_handler := fun s level _ entry =>
  let pte := mem s entry in
  if negb (pte_is_present pte) then Some (false, s)
  else Some (negb (pte_is_mapping level pte) || pageflags_is_writable (flags_from_pte pte), s).

Definition validate_virtual_writable (s : pagemem) (base length : Z) : option (bool * pagemem) :=
  traverse_ptes s base length validate_entry_writable.

(** ** Splitting a block *)

(** The entries of the new table outside the gap. *)
Definition split_fill (new_page phys flags : Z) (gap : range) (m : Z -> Z) : Z -> Z :=
  foldl (fun m i => <[pte_at new_page i := page_pte (u64 (phys + Z.shiftl i PAGELOG)) flags]> m) m
    (seqZ 0 (start gap) ++ seqZ (end_ gap) (512 - end_ gap)).

(** The new entry; [None] is [INVALID_PHYSICAL]. *)
Definition pte_split (s : pagemem) (entry : Z) (gap : range) : option (Z * pagemem) :=
  '(new_page_phys, s) ← allocate_table_page s;
  let oldentry := mem s entry in
  let phys := page_from_pte oldentry in
  let flags := flags_from_pte oldentry in
  let s := set_mem s (split_fill new_page_phys phys flags gap (mem s)) in
  let new_pte := new_level_pte new_page_phys in
  Some (new_pte, pte_set s entry new_pte).

(** Where a mapping at [addr] and the range that starts at [vstart] begin to meet: the
    offset in the mapping and the offset in the range. *)
Definition map_offsets (addr vstart : Z) : Z * Z :=
  if vstart <=? addr then (0, u64 (addr - vstart)) else (u64 (vstart - addr), 0).

(** ** Handlers *)

Definition update_pte_flags (vstart len flags : Z) : entry_handler := fun s level addr entry =>
  let orig_pte := mem s entry in
  if negb (pte_is_present orig_pte) || negb (pte_is_mapping level orig_pte) then Some (true, s) else
  let map_len := pte_map_size level orig_pte in
  let '(map_offset, offset) := map_offsets addr vstart in
  let phys := page_from_pte orig_pte in
  let update_len := Z.min (u64 (map_len - map_offset)) (u64 (len - offset)) in
  if update_len =? map_len then
    let s := pte_set s entry (if level =? PT_PTE_LEVEL then page_pte phys flags else block_pte phys flags) in
    Some (true, page_invalidate true s addr)
  else
    match pte_split s entry (irange 0 0) with
    | None => Some (false, s)
    | Some (_, s) => Some (true, page_invalidate true s addr)
    end.

Definition update_map_flags (s : pagemem) (vaddr length flags : Z) : option pagemem :=
  '(_, s) ← traverse_ptes (get_page_flush_entry s) vaddr length (update_pte_flags vaddr length flags);
  Some s.

Definition zero_page : entry_handler := fun s level addr entry =>
  let e := mem s entry in
  if pte_is_present e && pte_is_mapping level e
  then Some (true, set_zeroed s (zeroed s ++ [irangel addr (pte_map_size level e)]))
  else Some (true, s).

Definition zero_mapped_pages (s : pagemem) (vaddr length : Z) : option pagemem :=
  '(_, s) ← traverse_ptes s vaddr length zero_page; Some s.

(** [want]: whether the physical ranges are collected.  The buffer that collects them
    has [room] for so many more. *)
Definition buffer_write_range (s : pagemem) (r : range) : bool * pagemem :=
  match room s with
  | O => (false, s)
  | S n => (true, set_phys_ranges s (phys_ranges s ++ [r]) n)
  end.

Definition unmap_page (vstart len : Z) (want : bool) : entry_handler := fun s level vaddr entry =>
  let old_entry := mem s entry in
  if pte_is_present old_entry && pte_is_mapping level old_entry then
    let map_len := pte_map_size level old_entry in
    let '(map_offset, offset) := map_offsets vaddr vstart in
    let unmap_len := Z.min (u64 (map_len - map_offset)) (u64 (len - offset)) in
    match (if unmap_len =? map_len then Some (pte_set s entry 0)
           else '(_, s) ← pte_split s entry (range_rshift (irangel map_offset unmap_len) PAGELOG); Some s) with
    | None => Some (false, s)
    | Some s =>
        let s := page_invalidate true s vaddr in
        if want then Some (buffer_write_range s (irangel (u64 (page_from_pte old_entry + map_offset)) unmap_len))
        else Some (true, s)
    end
  else Some (true, s).

Definition unmap (s : pagemem) (virtual length : Z) : option pagemem :=
  _ ← kassert (negb (has virtual PAGEMASK || has length PAGEMASK));
  '(_, s) ← traverse_ptes (get_page_flush_entry s) virtual length (unmap_page virtual length false);
  Some s.

(** ** Mapping *)

(** One entry of [map_level]: [rec] is the next level; the results are success, the next
    physical address and the state. *)
Definition map_entry (rec : pagemem -> Z -> range -> Z -> option (bool * Z * pagemem))
    (table level vmask vlbase flags : Z) (fe : bool) (i : Z) (v : range) (p : Z) (s : pagemem) :
    option (bool * Z * pagemem) :=
  let shift := pt_level_shift level in
  let mask := MASK shift in
  let a := pte_at table i in
  let pte := mem s a in
  let end' := Z.lor vlbase (u64 (Z.shiftl (i + 1) shift)) in
  let len := Z.min (range_span v) (u64 (end' - start v)) in
  let next := irangel (Z.lor (start v) vmask) len in
  if negb (pte_is_present pte) then
    if level =? PT_PTE_LEVEL then Some (true, next_addr p mask, pte_set s a (page_pte p flags))
    else if negb (flags_has_minpage flags) && (PT_FIRST_LEVEL <? level) && has levelmask (U64_FROM_BIT level) &&
            (Z.land (start v) mask =? 0) && (Z.land p mask =? 0) && (U64_FROM_BIT shift <=? range_span v)
    then Some (true, next_addr p mask, pte_set s a (block_pte p flags))
    else match allocate_table_page s with
         | None => Some (false, p, s)
         | Some (tp_phys, s) =>
             '(ok, p, s) ← rec s tp_phys next p;
             if (ok : bool) then Some (true, p, pte_set s a (new_level_pte tp_phys)) else Some (false, p, s)
         end
  else if pte_is_mapping level pte then
    if pte_map_size level pte <=? len then
      let s := pte_set s a (if level =? PT_PTE_LEVEL then page_pte p flags else block_pte p flags) in
      Some (true, next_addr p mask, page_invalidate fe s (Z.lor (start v) vmask))
    else
      let next_level_shift := pt_level_shift (level + 1) in
      match pte_split s a (irangel (Z.land (Z.shiftr (start v) next_level_shift) INDEX_MASK)
                                   (Z.shiftr len next_level_shift)) with
      | None => Some (false, p, s)
      | Some (pte, s) => rec s (page_from_pte pte) next p
      end
  else rec s (page_from_pte pte) next p.

(** The loop of [map_level] over [n] entries from [i]. *)
Fixpoint map_loop (rec : pagemem -> Z -> range -> Z -> option (bool * Z * pagemem))
    (table level vmask vlbase flags : Z) (fe : bool) (n : nat) (i : Z) (v : range) (p : Z) (s : pagemem) :
    option (bool * Z * pagemem) :=
  match n with
  | O => Some (true, p, s)
  | S n =>
      '(ok, p, s) ← map_entry rec table level vmask vlbase flags fe i v p s;
      if negb ok then Some (false, p, s) else
      map_loop rec table level vmask vlbase flags fe n (i + 1)
        (irange (next_addr (start v) (MASK (pt_level_shift level))) (end_ v)) p s
  end.

Fixpoint map_level (fuel : nat) (flags : Z) (fe : bool) (level : Z) (s : pagemem) (table : Z) (v : range) (p : Z) :
    option (bool * Z * pagemem) :=
  match fuel with
  | O => None
  | S fuel =>
      let shift := pt_level_shift level in
      let vmask := Z.land (start v) (not64 (MASK VIRTUAL_ADDRESS_BITS)) in
      let v := irange (Z.land (start v) (MASK VIRTUAL_ADDRESS_BITS)) (Z.land (end_ v) (MASK VIRTUAL_ADDRESS_BITS)) in
      let vlbase := if PT_FIRST_LEVEL <? level then Z.land (start v) (not64 (MASK (pt_level_shift (level - 1)))) else 0 in
      let first_index := Z.land (Z.shiftr (start v) shift) INDEX_MASK in
      let last_index := Z.land (Z.shiftr (u64 (end_ v - 1)) shift) INDEX_MASK in
      _ ← kassert (first_index <=? last_index);
      map_loop (map_level fuel flags fe (level + 1)) table level vmask vlbase flags fe
        (Z.to_nat (last_index - first_index + 1)) first_index v p s
  end.

(** The kernel halts when there is no memory for tables. *)
Definition map (s : pagemem) (v p length flags : Z) : option pagemem :=
  _ ← kassert (Z.land v PAGEMASK =? 0);
  _ ← kassert (Z.land p PAGEMASK =? 0);
  let r := irangel v (pad length PAGESIZE) in
  '(ok, _, s) ← map_level 4 flags true PT_FIRST_LEVEL (get_page_flush_entry s) pagebase r p;
  if (ok : bool) then Some s else None.

Definition map_nolock (s : pagemem) (v p length flags : Z) : option pagemem :=
  let r := irangel v (pad length PAGESIZE) in
  '(_, _, s) ← map_level 4 flags false PT_FIRST_LEVEL s pagebase r p; Some s.

(** ** Moving mappings *)

Definition remap_entry (new old len : Z) : entry_handler := fun s level curr entry =>
  let oldentry := mem s entry in
  if negb (pte_is_present oldentry) || negb (pte_is_mapping level oldentry) then Some (true, s) else
  let '(map_offset, offset) := map_offsets curr old in
  let new_curr := u64 (new + offset) in
  let phys := u64 (page_from_pte oldentry + map_offset) in
  let flags := flags_from_pte oldentry in
  let map_len := pte_map_size level oldentry in
  let remap_len := Z.min (u64 (map_len - map_offset)) (u64 (len - offset)) in
  '(ok, _, s) ← map_level 4 flags false PT_FIRST_LEVEL s pagebase (irangel new_curr remap_len) phys;
  _ ← kassert ok;
  match (if remap_len =? map_len then Some (pte_set s entry 0)
         else '(_, s) ← pte_split s entry (range_rshift (irangel map_offset remap_len) PAGELOG); Some s) with
  | None => Some (false, s)
  | Some s => Some (true, page_invalidate true s curr)
  end.

Definition remap_pages (s : pagemem) (vaddr_new vaddr_old length : Z) : option pagemem :=
  if vaddr_new =? vaddr_old then Some s else
  _ ← kassert (range_empty (range_intersection (irange vaddr_new (u64 (vaddr_new + length)))
                                               (irange vaddr_old (u64 (vaddr_old + length)))));
  '(_, s) ← traverse_ptes (get_page_flush_entry s) vaddr_old length (remap_entry vaddr_new vaddr_old length);
  Some s.
End Tables.
