(* ===== verification/PageTable.v ===== *)
(** What page tables mean: the fields of an entry, the translation that the tables at an
    address give, and the pages they are made of.

    The depth of a table counts the levels below it, so that tables of depth 0 have
    entries of 4 KiB and the top table has depth 3.  Offsets are relative to the
    addresses a table covers. *)

From stdpp Require Import functions.
From S2P Require Import Prelude Range Words Page.

(** ** Bits of an entry *)

Lemma has_pow2 x k : 0 <= k -> has x (2 ^ k) = Z.testbit x k.
Proof.
  intros Hk. unfold has. by rewrite land_pow2, negb_involutive.
Qed.

Lemma not64_spec x i : 0 <= i -> Z.testbit (not64 x) i = (i <? 64) && negb (Z.testbit x i).
Proof. intros Hi. unfold not64. by rewrite u64_testbit, Z.lnot_spec. Qed.

Lemma MASK_spec n i : 0 <= n < 64 -> 0 <= i -> Z.testbit (MASK n) i = (i <? n).
Proof.
  intros Hn Hi. rewrite MASK_ones, Z.testbit_ones by lia. by destruct (Z.leb_spec 0 i); [|lia].
Qed.

Lemma PAGE_FLAGS_MASK_spec i : 0 <= i -> Z.testbit PAGE_FLAGS_MASK i = (i <? 12) || (i =? 63).
Proof.
  intros Hi. unfold PAGE_FLAGS_MASK, PAGE_NO_EXEC, PAGEMASK, PAGELOG.
  rewrite Z.lor_spec, MASK_spec, U64_FROM_BIT_pow, Z.pow2_bits_eqb, orb_comm by lia. by rewrite (Z.eqb_sym 63).
Qed.

Lemma low_bits x n i : Z.land x (MASK n) = 0 -> 0 <= i < n -> n < 64 -> Z.testbit x i = false.
Proof.
  intros E Hi Hn. apply (f_equal (fun y => Z.testbit y i)) in E. rewrite Z.land_spec, MASK_spec, Z.bits_0 in E by lia.
  by destruct (Z.ltb_spec i n); [rewrite andb_true_r in E|lia].
Qed.

(** Prove an equation between words, or between tests of them, bit by bit. *)
Ltac bits_of_consts :=
  change PAGE_PRESENT with (2 ^ 0) in *; change PAGE_WRITABLE with (2 ^ 1) in *; change PAGE_USER with (2 ^ 2) in *;
  change PAGE_PS with (2 ^ 7) in *; change PAGE_NO_PS with (2 ^ 9) in *.

Ltac bit_specs :=
  rewrite ?Z.lor_spec, ?Z.land_spec, ?not64_spec, ?PAGE_FLAGS_MASK_spec, ?Z.pow2_bits_eqb, ?MASK_spec in * by lia;
  rewrite ?Z.lor_spec, ?Z.land_spec, ?not64_spec, ?PAGE_FLAGS_MASK_spec, ?Z.pow2_bits_eqb, ?MASK_spec in * by lia.

Ltac bit_cases :=
  repeat match goal with
  | |- context [?a <? ?b] => destruct (Z.ltb_spec a b)
  | |- context [?a =? ?b] => destruct (Z.eqb_spec a b)
  | H : context [?a <? ?b] |- _ => destruct (Z.ltb_spec a b)
  | H : context [?a =? ?b] |- _ => destruct (Z.eqb_spec a b)
  end.

Section Bits.
Context (encr : Z) (Hencr : Z.land encr (MASK 30) = 0).

(** The address of a page, and flags. *)
Definition good_page (x : Z) : Prop := page_from_pte encr x = x.
Definition good_flags (fl : Z) : Prop := flags_from_pte encr fl = fl.

(** What the flags of an entry grant. *)
Definition attr (e : Z) : Z := Z.land (flags_from_pte encr e) (not64 PAGE_NO_PS).
Definition attrs (fl : Z) : Z := Z.lor (Z.land fl (not64 PAGE_NO_PS)) PAGE_PRESENT.

Lemma good_page_bit x i : good_page x -> 0 <= i -> Z.testbit x i = true -> 12 <= i < 52 /\ Z.testbit encr i = false.
Proof.
  intros E Hi Hb. rewrite <- E in Hb. unfold page_from_pte, PAGEMASK, PAGELOG in Hb. bit_specs.
  destruct (Z.testbit x i), (Z.testbit encr i); bit_cases; simpl in *; try discriminate; lia || done.
Qed.

Lemma good_flags_bit fl i : good_flags fl -> 0 <= i -> Z.testbit fl i = true ->
  (i < 12 /\ i <> 7) \/ i = 63 \/ Z.testbit encr i = true.
Proof.
  intros E Hi Hb. rewrite <- E in Hb. unfold flags_from_pte in Hb. bits_of_consts. bit_specs.
  destruct (Z.testbit fl i), (Z.testbit encr i); bit_cases; simpl in *; try discriminate; auto with lia.
Qed.

Lemma encr_bit i : Z.testbit encr i = true -> 30 <= i.
Proof.
  intros Hb. destruct (decide (i < 0)); [by rewrite Z.testbit_neg_r in Hb by lia|].
  destruct (decide (30 <= i)); [done|]. by rewrite (low_bits _ 30) in Hb by (done || lia).
Qed.

(** Case on what is known of bit [i] of the page [x] and the flags [fl]. *)
Ltac know_bits x fl i :=
  try match goal with H : good_page x |- _ => pose proof (good_page_bit x i H ltac:(lia)) end;
  try match goal with H : good_flags fl |- _ => pose proof (good_flags_bit fl i H ltac:(lia)) end;
  pose proof (encr_bit i); destruct (Z.testbit x i), (Z.testbit fl i), (Z.testbit encr i); bit_cases; simpl;
  try done; exfalso; intuition (try lia; try discriminate).

Ltac entry_bits x fl :=
  intros; apply Z.bits_inj'; intros i Hi;
  unfold attr, attrs, page_from_pte, flags_from_pte, page_pte, block_pte, new_level_pte, PAGEMASK, PAGELOG; bits_of_consts;
  bit_specs; know_bits x fl i.

Ltac entry_test x fl k :=
  intros; unfold pte_is_present, page_pte, block_pte, new_level_pte; bits_of_consts;
  rewrite has_pow2 by lia; bit_specs; know_bits x fl k.

Lemma page_of_page_pte x fl : good_page x -> good_flags fl -> page_from_pte encr (page_pte x fl) = x.
Proof. entry_bits x fl. Qed.
Lemma page_of_block_pte x fl : good_page x -> good_flags fl -> page_from_pte encr (block_pte x fl) = x.
Proof. entry_bits x fl. Qed.
Lemma page_of_new_level x : good_page x -> page_from_pte encr (new_level_pte encr x) = x.
Proof. entry_bits x 0. Qed.

Lemma attr_page_pte x fl : good_page x -> good_flags fl -> attr (page_pte x fl) = attrs fl.
Proof. entry_bits x fl. Qed.
Lemma attr_block_pte x fl : good_page x -> good_flags fl -> attr (block_pte x fl) = attrs fl.
Proof. entry_bits x fl. Qed.

Lemma present_page_pte x fl : pte_is_present (page_pte x fl) = true.
Proof. unfold pte_is_present, page_pte. bits_of_consts. rewrite has_pow2 by lia. bit_specs. apply orb_true_r. Qed.
Lemma present_block_pte x fl : pte_is_present (block_pte x fl) = true.
Proof. unfold pte_is_present, block_pte. bits_of_consts. rewrite has_pow2 by lia. bit_specs. by rewrite orb_true_r. Qed.
Lemma present_new_level x : pte_is_present (new_level_pte encr x) = true.
Proof. unfold pte_is_present, new_level_pte. bits_of_consts. rewrite has_pow2 by lia. bit_specs. by rewrite orb_true_r. Qed.

Lemma block_block_pte x fl : has (block_pte x fl) PAGE_PS = true.
Proof. unfold block_pte. bits_of_consts. rewrite has_pow2 by lia. bit_specs. apply orb_true_r. Qed.
Lemma block_new_level x : good_page x -> has (new_level_pte encr x) PAGE_PS = false.
Proof. entry_test x 0 7. Qed.

Lemma flags_from_pte_good e : good_flags (flags_from_pte encr e).
Proof. unfold good_flags. entry_bits e 0. Qed.
Lemma page_from_pte_good e : good_page (page_from_pte encr e).
Proof. unfold good_page. entry_bits e 0. Qed.

(** A page of a split block has the attributes of the block. *)
Lemma attrs_of_entry e : pte_is_present e = true -> attrs (flags_from_pte encr e) = attr e.
Proof.
  intros He. unfold pte_is_present in He. bits_of_consts. rewrite has_pow2 in He by lia. apply Z.bits_inj'. intros i Hi.
  unfold attr, attrs, flags_from_pte. bits_of_consts. bit_specs. destruct (Z.eq_dec i 0) as [->|].
  - by rewrite He.
  - destruct (Z.eqb_spec 0 i); [lia|]. apply orb_false_r.
Qed.

Lemma good_page_range x : good_page x -> 0 <= x < 2 ^ 52 /\ x mod 4096 = 0.
Proof.
  intros E. assert (Hm : x mod 2 ^ 52 = x).
  { rewrite <- Z.land_ones by lia. apply Z.bits_inj'. intros i Hi. rewrite Z.land_spec, Z.testbit_ones by lia.
    pose proof (good_page_bit x i E Hi). destruct (Z.testbit x i); [|done].
    destruct (Z.leb_spec 0 i), (Z.ltb_spec i 52); simpl; intuition lia. }
  assert (H0 : x mod 2 ^ 12 = 0).
  { rewrite <- Z.land_ones by lia. apply Z.bits_inj'. intros i Hi. rewrite Z.land_spec, Z.testbit_ones, Z.bits_0 by lia.
    pose proof (good_page_bit x i E Hi). destruct (Z.testbit x i); [|done].
    destruct (Z.leb_spec 0 i), (Z.ltb_spec i 12); simpl; intuition lia. }
  pose proof (Z.mod_pos_bound x (2 ^ 52)). change 4096 with (2 ^ 12). lia.
Qed.

(** The pages of a block. *)
Lemma good_page_add x y k : good_page x -> 12 <= k <= 30 -> x mod 2 ^ k = 0 -> 0 <= y < 2 ^ k -> y mod 4096 = 0 -> good_page (x + y).
Proof.
  intros E Hk Hx Hy Hy0. pose proof (good_page_range x E).
  rewrite (Z.div_mod x (2 ^ k)), Hx, Z.add_0_r, (Z.mul_comm (2 ^ k)) by lia. rewrite <- lor_pow2 by lia.
  replace (x / 2 ^ k * 2 ^ k) with x by (rewrite (Z.div_mod x (2 ^ k)) at 1; lia).
  unfold good_page. apply Z.bits_inj'. intros i Hi. unfold page_from_pte, PAGEMASK, PAGELOG. bit_specs.
  pose proof (good_page_bit x i E Hi). assert (Hyb : Z.testbit y i = true -> 12 <= i < 30).
  { intros Hb. split.
    - destruct (decide (12 <= i)); [done|]. change 4096 with (2 ^ 12) in Hy0. rewrite <- Z.land_ones in Hy0 by lia.
      apply (f_equal (fun z => Z.testbit z i)) in Hy0. rewrite Z.land_spec, Hb, Z.testbit_ones, Z.bits_0 in Hy0 by lia.
      destruct (Z.leb_spec 0 i), (Z.ltb_spec i 12); simpl in Hy0; done || lia.
    - rewrite <- (Z.mod_small y (2 ^ k)) in Hb by lia. destruct (decide (i < 30)); [done|].
      rewrite Z.mod_pow2_bits_high in Hb by lia. done. }
  pose proof (encr_bit i).
  destruct (Z.testbit x i), (Z.testbit y i), (Z.testbit encr i); bit_cases; simpl; try done; exfalso; intuition (lia || discriminate).
Qed.
End Bits.

(** ** Sizes *)

Definition shift (d : nat) : Z := 12 + 9 * Z.of_nat d.
Definition size (d : nat) : Z := 2 ^ shift d.

Lemma size_S d : size (S d) = 512 * size d.
Proof.
  unfold size, shift. replace (12 + 9 * Z.of_nat (S d)) with (9 + (12 + 9 * Z.of_nat d)) by lia.
  rewrite Z.pow_add_r by lia. done.
Qed.

Lemma size_pos d : 4096 <= size d.
Proof. unfold size, shift. change 4096 with (2 ^ 12). apply Z.pow_le_mono_r; lia. Qed.

Lemma size_mod d : size d mod 4096 = 0.
Proof.
  unfold size, shift. rewrite Z.pow_add_r by lia. change (2 ^ 12) with 4096. rewrite Z.mul_comm. apply Z.mod_mul. lia.
Qed.

Lemma size_le d : (d <= 3)%nat -> size d <= 2 ^ 39.
Proof. intros Hd. unfold size, shift. apply Z.pow_le_mono_r; lia. Qed.

Lemma level_shift (d : nat) : (d <= 3)%nat -> pt_level_shift (4 - Z.of_nat d) = shift d.
Proof. intros Hd. by destruct d as [|[|[|[|]]]]; [..|lia]. Qed.

Definition index (d : nat) (x : Z) : Z := x / size d mod 512.

Lemma index_range d x : 0 <= index d x < 512.
Proof. apply Z.mod_pos_bound. lia. Qed.

Lemma index_mod d x : index d (x mod size (S d)) = index d x.
Proof.
  unfold index. rewrite size_S. pose proof (size_pos d). rewrite (Z.mul_comm 512).
  rewrite Z.rem_mul_r, (Z.mul_comm (size d) (_ mod 512)), Z.div_add by lia.
  rewrite (Z.div_small (x mod size d)) by (apply Z.mod_pos_bound; lia). by rewrite Z.add_0_l, Z.mod_mod by lia.
Qed.

(** Offsets of a table, entry by entry. *)
Lemma index_small d y : 0 <= y < size (S d) -> index d y = y / size d.
Proof.
  intros Hy. rewrite size_S in Hy. pose proof (size_pos d). unfold index. apply Z.mod_small.
  split; [apply Z.div_pos; lia|apply Z.div_lt_upper_bound; lia].
Qed.

Lemma div_entry d y i : i * size d <= y < (i + 1) * size d <-> y / size d = i.
Proof.
  pose proof (size_pos d). split.
  - intros Hy. symmetry. apply Z.div_unique with (y - i * size d); lia.
  - intros <-. pose proof (Z.div_mod y (size d)). pose proof (Z.mod_pos_bound y (size d)). lia.
Qed.

(** ** Translation *)

Inductive ekind := Absent | Leaf | Sub.

#[export] Instance ekind_eq_dec : EqDecision ekind.
Proof. solve_decision. Defined.

Definition kind (d : nat) (e : Z) : ekind :=
  if pte_is_present e then if pte_is_mapping (4 - Z.of_nat d) e then Leaf else Sub else Absent.

Lemma is_mapping_spec d e : (d <= 3)%nat ->
  pte_is_mapping (4 - Z.of_nat d) e = pte_is_present e && negb (bool_decide (d = 3%nat)) && (bool_decide (d = 0%nat) || has e PAGE_PS).
Proof.
  intros Hd. unfold pte_is_mapping, pte_map_size, pte_order.
  destruct (pte_is_present e), (has e PAGE_PS); by destruct d as [|[|[|[|]]]]; [..|lia].
Qed.

Lemma map_size_spec d e : (d <= 3)%nat -> kind d e = Leaf -> pte_map_size (4 - Z.of_nat d) e = size d.
Proof.
  intros Hd. unfold kind. rewrite is_mapping_spec by done. unfold pte_map_size, pte_order.
  destruct (pte_is_present e), (has e PAGE_PS); destruct d as [|[|[|[|]]]]; done || lia.
Qed.

Lemma kind_0 e : kind 0 e <> Sub.
Proof. unfold kind. rewrite is_mapping_spec by lia. by destruct (pte_is_present e). Qed.

Lemma kind_Sub_depth d e : kind d e = Sub -> exists d', d = S d'.
Proof. destruct d; [by intros ?%kind_0|eauto]. Qed.

Lemma kind_Leaf_depth d e : (d <= 3)%nat -> kind d e = Leaf -> (d <= 2)%nat.
Proof.
  intros Hd. unfold kind. rewrite is_mapping_spec by done. destruct (pte_is_present e); [|done].
  case_bool_decide; [by rewrite andb_false_r|lia].
Qed.

Lemma kind_present d e : kind d e <> Absent -> pte_is_present e = true.
Proof. unfold kind. by destruct (pte_is_present e). Qed.

Lemma kind_page_pte x fl : kind 0 (page_pte x fl) = Leaf.
Proof. unfold kind. rewrite is_mapping_spec, present_page_pte by lia. done. Qed.

Lemma kind_block_pte d x fl : (1 <= d <= 2)%nat -> kind d (block_pte x fl) = Leaf.
Proof.
  intros Hd. unfold kind. rewrite is_mapping_spec, present_block_pte, block_block_pte by lia.
  by destruct d as [|[|[|]]]; [lia|..|lia].
Qed.

Lemma kind_zero d : kind d 0 = Absent.
Proof. done. Qed.

Section Translation.
Context (encr : Z) (Hencr : Z.land encr (MASK 30) = 0).

Lemma kind_new_level d x : (1 <= d <= 3)%nat -> good_page encr x -> kind d (new_level_pte encr x) = Sub.
Proof.
  intros Hd Hx. unfold kind. rewrite is_mapping_spec, present_new_level, block_new_level by (done || lia).
  by destruct d as [|[|[|[|]]]]; [lia|..|lia].
Qed.

(** The entry for a page or block, as the code makes it for the level. *)
Lemma leaf_pte d p fl : (d <= 2)%nat -> good_page encr p -> good_flags encr fl ->
  let w := if 4 - Z.of_nat d =? PT_PTE_LEVEL then page_pte p fl else block_pte p fl in
  kind d w = Leaf /\ page_from_pte encr w = p /\ attr encr w = attrs fl.
Proof.
  intros Hd Hp Hfl. unfold PT_PTE_LEVEL. cbn zeta. destruct (Z.eqb_spec (4 - Z.of_nat d) 4).
  - replace d with 0%nat by lia. rewrite page_of_page_pte, attr_page_pte by done. auto using kind_page_pte.
  - rewrite page_of_block_pte, attr_block_pte by done. split; [|done]. apply kind_block_pte. lia.
Qed.

(** The entry that maps an offset, and its depth. *)
Fixpoint walk (d : nat) (m : Z -> Z) (t y : Z) : option (nat * Z) :=
  let e := m (pte_at t (index d y)) in
  match kind d e with
  | Absent => None
  | Leaf => Some (d, e)
  | Sub => match d with O => None | S d' => walk d' m (page_from_pte encr e) y end
  end.

(** What an entry of depth [d] maps. *)
Definition entry_walk (d : nat) (m : Z -> Z) (e y : Z) : option (nat * Z) :=
  match kind d e with
  | Absent => None
  | Leaf => Some (d, e)
  | Sub => match d with O => None | S d' => walk d' m (page_from_pte encr e) y end
  end.

Lemma walk_entry d m t y : walk d m t y = entry_walk d m (m (pte_at t (index d y))) y.
Proof. by destruct d. Qed.

Definition meaning (y : Z) (l : nat * Z) : Z * Z := (page_from_pte encr l.2 + y mod size l.1, attr encr l.2).

(** The physical address and the attributes of an offset. *)
Definition translate (d : nat) (m : Z -> Z) (t y : Z) : option (Z * Z) := meaning y <$> walk d m t y.

Lemma walk_depth d m t y k e : walk d m t y = Some (k, e) -> (k <= d)%nat /\ kind k e = Leaf.
Proof.
  revert t. induction d as [|d IH]; intros t; rewrite walk_entry; unfold entry_walk; case_match eqn:E; try done;
    try (intros [= <- <-]; auto).
  intros [? ?]%IH. auto.
Qed.

Lemma walk_ext d m t x y : (forall k, (k <= d)%nat -> index k x = index k y) -> walk d m t x = walk d m t y.
Proof.
  revert t. induction d as [|d IH]; intros t Hi; simpl; rewrite (Hi _ (le_n _)); [done|].
  destruct (kind _ _); [done..|]. apply IH. auto.
Qed.

Lemma mod_size_mod k d x : (k <= d)%nat -> (x mod size d) mod size k = x mod size k.
Proof.
  intros Hk. pose proof (size_pos k). replace d with (k + (d - k))%nat by lia. induction (d - k)%nat as [|n IH].
  - rewrite Nat.add_0_r. apply Z.mod_mod. lia.
  - rewrite <- IH. pose proof (size_pos (k + n)). rewrite <- plus_n_Sm, size_S, (Z.mul_comm 512).
    rewrite Z.rem_mul_r by lia. rewrite <- Z.add_mod_idemp_r by lia.
    assert (E : (size (k + n) * ((x / size (k + n)) mod 512)) mod size k = 0).
    { unfold size, shift. replace (12 + 9 * Z.of_nat (k + n)) with (9 * Z.of_nat n + (12 + 9 * Z.of_nat k)) by lia.
      rewrite Z.pow_add_r, <- Z.mul_assoc, (Z.mul_comm (2 ^ (12 + 9 * Z.of_nat k))), Z.mul_assoc by lia. apply Z.mod_mul.
      unfold size, shift in *. lia. }
    by rewrite E, Z.add_0_r.
Qed.

(** Only the offset in the table matters. *)
Lemma walk_mod d m t x : walk d m t (x mod size (S d)) = walk d m t x.
Proof.
  apply walk_ext. intros k Hk. rewrite <- (index_mod k x), <- (index_mod k (x mod _)). by rewrite mod_size_mod by lia.
Qed.

Lemma meaning_mod x d l : (l.1 <= d)%nat -> meaning (x mod size d) l = meaning x l.
Proof. intros Hl. unfold meaning. by rewrite mod_size_mod by lia. Qed.

Lemma translate_mod d m t x : translate d m t (x mod size (S d)) = translate d m t x.
Proof.
  unfold translate. rewrite walk_mod. destruct (walk d m t x) as [[k e]|] eqn:E; [|done].
  apply walk_depth in E as [Hk _]. simpl. f_equal. apply meaning_mod. simpl. lia.
Qed.

(** ** The pages of tables *)

(** The tables from [t] are the pages [f], each reached once; blocks are aligned. *)
Fixpoint tables (d : nat) (m : Z -> Z) (t : Z) (f : Z -> Prop) : Prop :=
  exists F : Z -> Z -> Prop,
    good_page encr t /\
    (forall x, f x <-> x = t \/ exists i, 0 <= i < 512 /\ F i x) /\
    (forall i, 0 <= i < 512 -> ~ F i t) /\
    (forall i j x, 0 <= i < 512 -> 0 <= j < 512 -> F i x -> F j x -> i = j) /\
    forall i, 0 <= i < 512 ->
      match kind d (m (pte_at t i)) with
      | Absent => forall x, ~ F i x
      | Leaf => page_from_pte encr (m (pte_at t i)) mod size d = 0 /\ forall x, ~ F i x
      | Sub => match d with O => False | S d' => tables d' m (page_from_pte encr (m (pte_at t i))) (F i) end
      end.

(** The same for what one entry of depth [d] leads to. *)
Definition entry_tables (d : nat) (m : Z -> Z) (e : Z) (g : Z -> Prop) : Prop :=
  match kind d e with
  | Absent => forall x, ~ g x
  | Leaf => page_from_pte encr e mod size d = 0 /\ forall x, ~ g x
  | Sub => match d with O => False | S d' => tables d' m (page_from_pte encr e) g end
  end.

Definition node (d : nat) (m : Z -> Z) (t : Z) (f : Z -> Prop) (F : Z -> Z -> Prop) : Prop :=
  good_page encr t /\
  (forall x, f x <-> x = t \/ exists i, 0 <= i < 512 /\ F i x) /\
  (forall i, 0 <= i < 512 -> ~ F i t) /\
  (forall i j x, 0 <= i < 512 -> 0 <= j < 512 -> F i x -> F j x -> i = j) /\
  forall i, 0 <= i < 512 -> entry_tables d m (m (pte_at t i)) (F i).

Lemma tables_node d m t f : tables d m t f <-> exists F, node d m t f F.
Proof. by destruct d. Qed.

(** Two memories agree on the pages [f]. *)
Definition agree (f : Z -> Prop) (m m' : Z -> Z) : Prop :=
  forall x i, f x -> 0 <= i < 512 -> m' (pte_at x i) = m (pte_at x i).

(** Only the pages [g] change. *)
Definition only (g : Z -> Prop) (m m' : Z -> Z) : Prop :=
  forall x i, good_page encr x -> ~ g x -> 0 <= i < 512 -> m' (pte_at x i) = m (pte_at x i).

Lemma pte_at_inj x y i j : good_page encr x -> good_page encr y -> 0 <= i < 512 -> 0 <= j < 512 ->
  pte_at x i = pte_at y j -> x = y /\ i = j.
Proof.
  intros [Hx Hx0]%good_page_range [Hy Hy0]%good_page_range Hi Hj. unfold pte_at.
  apply Z.mod_divide in Hx0 as [a ->]; [|lia]. apply Z.mod_divide in Hy0 as [b ->]; [|lia]. lia.
Qed.

Lemma tables_good d m t f x : tables d m t f -> f x -> good_page encr x.
Proof.
  revert t f. induction d as [|d IH]; intros t f (F & Ht & Hf & _ & _ & HF)%tables_node [->|(i & Hi & Hx)]%Hf; auto;
    specialize (HF i Hi); unfold entry_tables in HF; destruct (kind _ _) eqn:E.
  1, 2, 4, 5: naive_solver. - by apply kind_0 in E. - eauto.
Qed.

Lemma tables_top d m t f : tables d m t f -> f t.
Proof. intros (F & _ & Hf & _)%tables_node. apply Hf. by left. Qed.

Lemma tables_agree d m m' t f : agree f m m' -> tables d m t f -> tables d m' t f.
Proof.
  revert t f. induction d as [|d IH]; intros t f Ha Ht; pose proof (tables_top _ _ _ _ Ht) as Htop;
    apply tables_node in Ht as (F & Ht & Hf & Hn & Hd & HF); apply tables_node; exists F; do 4 (split; [done|]);
    intros i Hi; rewrite (Ha t i Htop Hi); specialize (HF i Hi); unfold entry_tables in *; destruct (kind _ _) eqn:E; auto.
  apply IH; [|done]. intros x j Hx Hj. apply Ha; [|done]. apply Hf. eauto.
Qed.

Lemma walk_agree d m m' t f y : agree f m m' -> tables d m t f -> walk d m' t y = walk d m t y.
Proof.
  revert t f. induction d as [|d IH]; intros t f Ha Ht; pose proof (tables_top _ _ _ _ Ht) as Htop;
    rewrite !walk_entry; rewrite (Ha t _ Htop) by apply index_range;
    apply tables_node in Ht as (F & Ht & Hf & Hn & Hd & HF); [done|].
  unfold entry_walk. specialize (HF _ (index_range (S d) y)). unfold entry_tables in HF. destruct (kind _ _) eqn:E; [done..|].
  apply IH with (F (index (S d) y)); [|done]. intros x j Hx Hj. apply Ha; [|done]. apply Hf. eauto using index_range.
Qed.

Lemma entry_tables_agree d m m' e g : agree g m m' -> entry_tables d m e g -> entry_tables d m' e g.
Proof. unfold entry_tables. destruct (kind d e), d; eauto using tables_agree. Qed.

Lemma entry_walk_agree d m m' e g y : agree g m m' -> entry_tables d m e g -> entry_walk d m' e y = entry_walk d m e y.
Proof. unfold entry_tables, entry_walk. destruct (kind d e), d; eauto using walk_agree. Qed.

Lemma entry_tables_good d m e g x : entry_tables d m e g -> g x -> good_page encr x.
Proof. unfold entry_tables. destruct (kind d e), d; naive_solver eauto using tables_good. Qed.

(** Changing what one entry leads to: its new tables are among its old ones and pages [u]
    that were not in use. *)
Lemma node_update d m m' t f F u i g : node d m t f F -> 0 <= i < 512 ->
  (forall x, u x -> ~ f x) -> (forall x, g x -> F i x \/ u x) ->
  (forall x j, good_page encr x -> 0 <= j < 512 -> ~ F i x -> ~ u x -> (x, j) <> (t, i) -> m' (pte_at x j) = m (pte_at x j)) ->
  entry_tables d m' (m' (pte_at t i)) g ->
  (exists f', tables d m' t f' /\ forall x, f' x -> f x \/ u x) /\
  forall y, index d y <> i -> walk d m' t y = walk d m t y.
Proof.
  intros (Ht & Hf & Hn & Hd & HF) Hi Hu Hg Hm He.
  assert (Htf : f t) by (apply Hf; by left).
  assert (HFf : forall j x, 0 <= j < 512 -> F j x -> f x) by (intros j x ? ?; apply Hf; eauto).
  assert (Hfr : forall j, 0 <= j < 512 -> j <> i -> m' (pte_at t j) = m (pte_at t j)).
  { intros j Hj Hne. apply Hm; [done..|naive_solver|naive_solver|congruence]. }
  assert (Ha : forall j, 0 <= j < 512 -> j <> i -> agree (F j) m m').
  { intros j Hj Hne x k Hx Hk. apply Hm; [by eapply entry_tables_good; [apply (HF j)|]|done|..].
    - intros Hx'. by apply Hne, (Hd j i x).
    - intros Hux. by apply (Hu x), (HFf j).
    - intros [= -> ->]. by apply (Hn j). }
  split.
  - exists (fun x => x = t \/ exists j, 0 <= j < 512 /\ (if decide (j = i) then g x else F j x)). split.
    + apply tables_node. exists (fun j x => if decide (j = i) then g x else F j x). split; [done|]. split; [done|].
      split; [|split].
      * intros j Hj. case_decide; [subst j|by apply Hn]. intros [?|?]%Hg; [by apply (Hn i)|by apply (Hu t)].
      * intros j k x Hj Hk. repeat case_decide; subst; [done|..].
        -- intros [?|?]%Hg Hx; [by apply (Hd i k x)|]. exfalso. by apply (Hu x), (HFf k).
        -- intros Hx [?|?]%Hg; [by apply (Hd j i x)|]. exfalso. by apply (Hu x), (HFf j).
        -- by apply Hd.
      * intros j Hj. case_decide; [by subst|]. rewrite Hfr by done. eapply entry_tables_agree; eauto.
    + intros x [->|(j & Hj & Hx)]; [by left|]. case_decide; [subst|by left; eapply HFf].
      apply Hg in Hx as [|]; [left; by eapply HFf|by right].
  - intros y Hy. rewrite !walk_entry, Hfr by auto using index_range. eapply entry_walk_agree; eauto using index_range.
Qed.
End Translation.

(** ** Pages for tables *)

Definition pages_of (r : range) : list Z := (fun k => start r + PAGESIZE * k) <$> seqZ 0 (range_span r / PAGESIZE).

(** The pages that allocations will return, in order. *)
Definition free_pages (s : pagemem) : list Z :=
  pages_of (current_phys s) ++ concat ((fun pa => pages_of (irangel pa PAGEMEM_ALLOC_SIZE)) <$> pageheap s).

Definition same_but_alloc (s s' : pagemem) : Prop :=
  fe_pages s' = fe_pages s /\ fe_flush s' = fe_flush s /\ invalidated s' = invalidated s /\
  phys_ranges s' = phys_ranges s /\ room s' = room s /\ zeroed s' = zeroed s.

Section Alloc.
Context (encr : Z) (Hencr : Z.land encr (MASK 30) = 0).

(** The page heap gives pages that exist and are given once. *)
Record alloc_wf (s : pagemem) : Prop := {
  alloc_span : range_span (current_phys s) mod PAGESIZE = 0;
  alloc_end : 0 <= start (current_phys s) <= end_ (current_phys s) /\ end_ (current_phys s) < 2 ^ 64;
  alloc_nodup : NoDup (free_pages s);
  alloc_good : Forall (good_page encr) (free_pages s);
}.

Lemma pages_of_cons r : 0 <= start r <= end_ r -> end_ r < 2 ^ 64 -> range_span r mod PAGESIZE = 0 -> range_span r <> 0 ->
  pages_of r = start r :: pages_of (irange (u64 (start r + PAGESIZE)) (end_ r)) /\
  0 <= u64 (start r + PAGESIZE) <= end_ r /\ range_span (irange (u64 (start r + PAGESIZE)) (end_ r)) = range_span r - PAGESIZE.
Proof.
  unfold range_span. cbn [start end_]. change PAGESIZE with 4096. intros Hr He Hm Hn. rewrite (u64_small (end_ r - start r)) in * by lia.
  pose proof (Z.div_mod (end_ r - start r) 4096). assert (4096 <= end_ r - start r) by (Z.to_euclidean_division_equations; lia).
  rewrite (u64_small (start r + 4096)) by lia. split; [|rewrite u64_small by lia; lia].
  unfold pages_of, range_span. cbn [start end_]. change PAGESIZE with 4096. rewrite !u64_small by lia.
  replace (end_ r - (start r + 4096)) with ((end_ r - start r) + (-1) * 4096) by lia. rewrite Z.div_add by lia.
  rewrite seqZ_cons by (Z.to_euclidean_division_equations; lia). cbn [fmap list_fmap]. f_equal; [lia|].
  replace ((end_ r - start r) / 4096 + -1) with (Z.pred ((end_ r - start r) / 4096)) by lia.
  change (Z.succ 0) with (1 + 0). rewrite <- fmap_add_seqZ, <- list_fmap_compose. apply list_fmap_ext. intros ? ? _. simpl. lia.
Qed.

Lemma pages_of_nil r : range_span r = 0 -> pages_of r = [].
Proof. intros E. unfold pages_of. by rewrite E. Qed.

Lemma irangel_span x n : 0 <= n < 2 ^ 64 -> range_span (irangel x n) = n.
Proof.
  intros Hn. unfold range_span, irangel, u64. cbn [start end_]. rewrite Zminus_mod_idemp_l.
  replace (x + n - x) with n by lia. by rewrite Z.mod_small.
Qed.

Lemma chunk_wf s pa h : alloc_wf s -> range_span (current_phys s) = 0 -> pageheap s = pa :: h ->
  alloc_wf (set_alloc s (irangel pa PAGEMEM_ALLOC_SIZE) h) /\
  free_pages (set_alloc s (irangel pa PAGEMEM_ALLOC_SIZE) h) = free_pages s /\
  range_span (irangel pa PAGEMEM_ALLOC_SIZE) <> 0.
Proof.
  intros [Hs He Hd Hg] E0 Eh.
  assert (Ef : free_pages (set_alloc s (irangel pa PAGEMEM_ALLOC_SIZE) h) = free_pages s).
  { unfold free_pages. by rewrite Eh, (pages_of_nil _ E0). }
  assert (Hp : good_page encr pa).
  { rewrite <- Ef in Hg. apply Forall_app in Hg as [Hg _]. rewrite Forall_forall in Hg.
    replace pa with (pa + PAGESIZE * 0) by lia. apply Hg. apply list_elem_of_fmap. exists 0. split; [done|].
    apply elem_of_seqZ. cbn [set_alloc current_phys]. rewrite irangel_span by done. done. }
  apply good_page_range in Hp as [Hp _]. rewrite irangel_span by done. split; [|done].
  split; [by cbn [current_phys set_alloc]; rewrite irangel_span| |by rewrite Ef..].
  cbn [current_phys set_alloc irangel start end_]. change PAGEMEM_ALLOC_SIZE with (2 ^ 20). rewrite u64_small by lia. lia.
Qed.

(** An allocation takes the first page that is free. *)
Lemma allocate_spec s : alloc_wf s ->
  (allocate_table_page s = None /\ free_pages s = []) \/
  exists x s', allocate_table_page s = Some (x, s') /\ free_pages s = x :: free_pages s' /\ alloc_wf s' /\
    mem s' = zero_mem (mem s) x PAGESIZE /\ same_but_alloc s s'.
Proof.
  assert (Hsome : forall s, alloc_wf s -> range_span (current_phys s) <> 0 -> exists x s',
    (let phys := start (current_phys s) in
     let s := set_alloc s (irange (u64 (phys + PAGESIZE)) (end_ (current_phys s))) (pageheap s) in
     Some (phys, set_mem s (zero_mem (mem s) phys PAGESIZE))) = Some (x, s') /\ free_pages s = x :: free_pages s' /\ alloc_wf s' /\
    mem s' = zero_mem (mem s) x PAGESIZE /\ same_but_alloc s s').
  { clear s. intros s [Hs He Hd Hg] Hn. destruct (pages_of_cons (current_phys s)) as (Ep & Hb & Hsp); [lia..|done|done|].
    eexists _, _. split; [reflexivity|]. assert (Ef : free_pages s = start (current_phys s) :: free_pages
      (set_alloc s (irange (u64 (start (current_phys s) + PAGESIZE)) (end_ (current_phys s))) (pageheap s))).
    { unfold free_pages. rewrite Ep. done. }
    split; [exact Ef|]. rewrite Ef in Hd, Hg. apply NoDup_cons in Hd as [_ Hd]. apply Forall_cons in Hg as [_ Hg].
    split; [|done]. split; cbn [set_mem set_alloc current_phys start end_]; [|lia|done..].
    rewrite Hsp, Zminus_mod, Hs. done. }
  intros Hw. unfold allocate_table_page. case_test.
  - destruct (pageheap s) as [|pa h] eqn:Eh.
    + left. split; [done|]. unfold free_pages. by rewrite Eh, pages_of_nil.
    + right. destruct (chunk_wf s pa h Hw E Eh) as (Hw' & Ef & Hn). rewrite <- Ef.
      destruct (Hsome _ Hw' Hn) as (x & s' & H1 & H2). exists x, s'. done.
  - right. by apply (Hsome s).
Qed.

(** *** Empty tables *)

Lemma zero_mem_page m x i : good_page encr x -> 0 <= i < 512 -> zero_mem m x PAGESIZE (pte_at x i) = 0.
Proof.
  intros Hx Hi. unfold zero_mem, pte_at. change PAGESIZE with 4096.
  destruct (Z.leb_spec x (x + 8 * i)), (Z.ltb_spec (x + 8 * i) (x + 4096)); done || lia.
Qed.

Lemma zero_mem_other m x : good_page encr x -> only encr (eq x) m (zero_mem m x PAGESIZE).
Proof.
  intros Hx y i Hy Hne Hi. unfold zero_mem, pte_at. change PAGESIZE with 4096.
  apply good_page_range in Hx as [Hx Hx0], Hy as [Hy Hy0].
  apply Z.mod_divide in Hx0 as [a ->]; [|lia]. apply Z.mod_divide in Hy0 as [b ->]; [|lia].
  destruct (Z.leb_spec (a * 4096) (b * 4096 + 8 * i)), (Z.ltb_spec (b * 4096 + 8 * i) (a * 4096 + 4096)); try done.
  destruct Hne. f_equal. lia.
Qed.

(** A table without subtables. *)
Lemma tables_flat d m x : good_page encr x ->
  (forall i, 0 <= i < 512 -> entry_tables encr d m (m (pte_at x i)) (fun _ => False)) -> tables encr d m x (eq x).
Proof.
  intros Hx He. apply tables_node. exists (fun _ _ => False). split; [done|]. split; [naive_solver|].
  split; [naive_solver|]. split; [naive_solver|done].
Qed.

Lemma zero_table d m x : good_page encr x -> (forall i, 0 <= i < 512 -> m (pte_at x i) = 0) ->
  tables encr d m x (eq x) /\ forall y, walk encr d m x y = None.
Proof.
  intros Hx H0. split; [apply tables_flat; [done|]; intros i Hi; rewrite H0 by done; unfold entry_tables; rewrite kind_zero; auto|].
  intros y. rewrite walk_entry, H0 by apply index_range. done.
Qed.

(** *** Split blocks *)

Lemma fill_miss {A} (k : Z -> Z) (v : Z -> A) (l : list Z) (m : Z -> A) a : (forall i, i ∈ l -> k i <> a) ->
  foldl (fun m i => <[k i := v i]> m) m l a = m a.
Proof.
  revert m. induction l as [|j l IH]; intros m Hl; [done|]. cbn [foldl]. rewrite IH by set_solver.
  rewrite fn_lookup_insert_ne; [done|]. apply Hl. set_solver.
Qed.

Lemma fill_hit {A} (k : Z -> Z) (v : Z -> A) (l : list Z) (m : Z -> A) i : (forall i j, k i = k j -> i = j) -> i ∈ l ->
  foldl (fun m i => <[k i := v i]> m) m l (k i) = v i.
Proof.
  intros Hk. revert m. induction l as [|j l IH]; intros m Hi; [set_solver|]. cbn [foldl].
  destruct (decide (i ∈ l)); [by apply IH|]. assert (i = j) as -> by set_solver.
  rewrite fill_miss; [apply fn_lookup_insert|]. intros j' Hj' ?%Hk. by subst.
Qed.

Lemma split_fill_spec np phys fl gap m j : 0 <= start gap -> 0 <= j < 512 ->
  split_fill np phys fl gap m (pte_at np j) =
    if (start gap <=? j) && (j <? end_ gap) then m (pte_at np j) else page_pte (u64 (phys + Z.shiftl j PAGELOG)) fl.
Proof.
  intros Hg Hj. unfold split_fill. case_test.
  - apply fill_miss. intros i. rewrite elem_of_app, !elem_of_seqZ. unfold pte_at. lia.
  - apply (fill_hit (pte_at np) (fun i => page_pte (u64 (phys + Z.shiftl i PAGELOG)) fl)); [unfold pte_at; lia|].
    rewrite elem_of_app, !elem_of_seqZ. apply andb_false_iff in E as [E|E]; breflect; lia.
Qed.

Lemma split_fill_other np phys fl gap m : good_page encr np -> start gap <= 512 -> 0 <= end_ gap ->
  only encr (eq np) m (split_fill np phys fl gap m).
Proof.
  intros Hnp Hg Hg' x j Hx Hne Hj. apply fill_miss. intros i. rewrite elem_of_app, !elem_of_seqZ. intros Hi E.
  apply pte_at_inj with (encr := encr) in E as [? _]; [done..|lia|done].
Qed.

(** Page [j] of the 2 MiB block of an entry. *)
Definition split_pte (e j : Z) : Z := page_pte (page_from_pte encr e + 4096 * j) (flags_from_pte encr e).

Section Split.
Context (e : Z) (He : kind 1 e = Leaf) (Hal : page_from_pte encr e mod size 1 = 0).

Lemma split_page_good j : 0 <= j < 512 -> good_page encr (page_from_pte encr e + 4096 * j).
Proof.
  intros Hj. apply (good_page_add encr Hencr _ _ 21); [by apply page_from_pte_good|lia|done|lia|].
  rewrite Z.mul_comm. apply Z.mod_mul. lia.
Qed.

Lemma split_pte_u64 j : 0 <= j < 512 ->
  page_pte (u64 (page_from_pte encr e + Z.shiftl j PAGELOG)) (flags_from_pte encr e) = split_pte e j.
Proof.
  intros Hj. unfold split_pte, PAGELOG. rewrite Z.shiftl_mul_pow2 by lia. rewrite (Z.mul_comm j). change (2 ^ 12) with 4096.
  rewrite u64_small; [done|]. pose proof (good_page_range _ _ (split_page_good j Hj)). lia.
Qed.

Lemma split_pte_leaf j : 0 <= j < 512 ->
  kind 0 (split_pte e j) = Leaf /\ page_from_pte encr (split_pte e j) = page_from_pte encr e + 4096 * j /\
  attr encr (split_pte e j) = attr encr e.
Proof.
  intros Hj. unfold split_pte. split; [apply kind_page_pte|].
  rewrite page_of_page_pte, attr_page_pte by auto using split_page_good, flags_from_pte_good.
  rewrite attrs_of_entry; [done|]. eapply kind_present. by rewrite He.
Qed.

Lemma split_meaning y : meaning encr y (0%nat, split_pte e (index 0 y)) = meaning encr y (1%nat, e).
Proof.
  unfold meaning. cbn [fst snd]. destruct (split_pte_leaf (index 0 y)) as (_ & -> & ->); [apply index_range|]. f_equal.
  unfold index. rewrite size_S. change (size 0) with 4096. rewrite (Z.mul_comm 512), Z.rem_mul_r by lia. lia.
Qed.

(** A table of depth 0 with the pages of the block, but for a gap. *)
Lemma split_table np m gs ge : good_page encr np ->
  (forall j, 0 <= j < 512 -> m (pte_at np j) = if (gs <=? j) && (j <? ge) then 0 else split_pte e j) ->
  entry_tables encr 1 m (new_level_pte encr np) (eq np) /\
  forall y, entry_walk encr 1 m (new_level_pte encr np) y =
    if (gs <=? index 0 y) && (index 0 y <? ge) then None else Some (0%nat, split_pte e (index 0 y)).
Proof.
  intros Hnp Hm. unfold entry_tables, entry_walk. rewrite kind_new_level, page_of_new_level by (done || lia). split.
  - apply tables_flat; [done|]. intros j Hj. rewrite Hm by done. unfold entry_tables. case_test.
    + rewrite kind_zero. auto.
    + destruct (split_pte_leaf j Hj) as (-> & -> & _). split; [|auto]. change (size 0) with 4096.
      by destruct (good_page_range _ _ (split_page_good j Hj)).
  - intros y. rewrite walk_entry, Hm by apply index_range. unfold entry_walk. case_test; [by rewrite kind_zero|].
    by destruct (split_pte_leaf (index 0 y)) as (-> & _); [apply index_range|].
Qed.
End Split.

Lemma pte_split_spec s t i gap : alloc_wf s -> good_page encr t -> 0 <= i < 512 -> t ∉ free_pages s ->
  kind 1 (mem s (pte_at t i)) = Leaf -> page_from_pte encr (mem s (pte_at t i)) mod size 1 = 0 ->
  0 <= start gap <= 512 -> 0 <= end_ gap ->
  (pte_split encr s (pte_at t i) gap = None /\ free_pages s = []) \/
  exists np s', pte_split encr s (pte_at t i) gap = Some (new_level_pte encr np, s') /\
    free_pages s = np :: free_pages s' /\ alloc_wf s' /\ same_but_alloc s s' /\ good_page encr np /\
    mem s' (pte_at t i) = new_level_pte encr np /\
    (forall x j, good_page encr x -> 0 <= j < 512 -> x <> np -> (x, j) <> (t, i) -> mem s' (pte_at x j) = mem s (pte_at x j)) /\
    entry_tables encr 1 (mem s') (new_level_pte encr np) (eq np) /\
    forall y, entry_walk encr 1 (mem s') (new_level_pte encr np) y =
      if (start gap <=? index 0 y) && (index 0 y <? end_ gap) then None else Some (0%nat, split_pte (mem s (pte_at t i)) (index 0 y)).
Proof.
  intros Hw Ht Hi Hfree Hk Hal Hg Hg'. set (e := mem s (pte_at t i)) in *. unfold pte_split.
  destruct (allocate_spec s Hw) as [[-> ->]|(np & s' & -> & Hf & Hw' & Hm & Hsame)]; [by left|right].
  assert (Hnp : good_page encr np). { pose proof (alloc_good s Hw) as H. rewrite Hf in H. by apply Forall_cons in H as [? _]. }
  assert (t <> np) by (intros ->; apply Hfree; rewrite Hf; set_solver).
  assert (Ee : mem s' (pte_at t i) = e). { rewrite Hm. by apply zero_mem_other. }
  exists np. eexists. cbn. split; [reflexivity|]. do 3 (split; [by destruct Hw'|]). split; [done|].
  split; [apply fn_lookup_insert|]. rewrite Ee. split.
  - intros x j Hx Hj Hne Hne'. cbn. rewrite fn_lookup_insert_ne.
    + rewrite split_fill_other by (done || lia || congruence). rewrite Hm. by apply zero_mem_other.
    + intros Heq. apply pte_at_inj with (encr := encr) in Heq as [<- <-]; done.
  - apply (split_table e Hk Hal np _ (start gap) (end_ gap) Hnp). intros j Hj. cbn. rewrite fn_lookup_insert_ne.
    + rewrite split_fill_spec, Hm, zero_mem_page, split_pte_u64 by (done || lia). done.
    + intros Heq. apply pte_at_inj with (encr := encr) in Heq as [<- <-]; done.
Qed.

(** ** Changing an entry *)

Lemma same_alloc s s' : current_phys s' = current_phys s -> pageheap s' = pageheap s -> alloc_wf s ->
  alloc_wf s' /\ free_pages s' = free_pages s.
Proof.
  intros E1 E2 [H1 H2 H3 H4]. assert (E : free_pages s' = free_pages s) by (unfold free_pages; by rewrite E1, E2).
  split; [|done]. split; by rewrite ?E, ?E1.
Qed.

Lemma fresh_step (s s' : pagemem) (f f' : Z -> Prop) used : alloc_wf s -> free_pages s = used ++ free_pages s' ->
  (forall x, f x -> x ∉ free_pages s) -> (forall x, f' x -> f x \/ x ∈ used) -> forall x, f' x -> x ∉ free_pages s'.
Proof.
  intros Hw Ef Hf Hf' x [Hx|Hx]%Hf' Hin.
  - apply (Hf x Hx). rewrite Ef. set_solver.
  - pose proof (alloc_nodup _ Hw) as Hd. rewrite Ef in Hd. apply NoDup_app in Hd as (_ & Hd & _). by apply (Hd x).
Qed.


(** The pages [used] were taken, and nothing outside them and [f] was written. *)
Record extends (s s' : pagemem) (f f' : Z -> Prop) (used : list Z) : Prop := {
  ext_free : free_pages s = used ++ free_pages s';
  ext_alloc : alloc_wf s';
  ext_only : only encr (fun x => f x \/ x ∈ used) (mem s) (mem s');
  ext_incl : forall x, f' x -> f x \/ x ∈ used;
}.

Lemma extends_trans s s1 s2 f f1 f2 u1 u2 : extends s s1 f f1 u1 -> extends s1 s2 f1 f2 u2 -> extends s s2 f f2 (u1 ++ u2).
Proof.
  intros [E1 W1 O1 I1] [E2 W2 O2 I2]. split; [|done|..].
  - by rewrite E1, E2, app_assoc.
  - intros x i Hx Hn Hi. rewrite elem_of_app in Hn. rewrite O2; [apply O1; [done|tauto|done]|done| |done].
    intros [?%I1|?]; tauto.
  - intros x [[?|?]%I1|?]%I2; rewrite elem_of_app; tauto.
Qed.

Lemma pte_set_other s a w t i : good_page encr t -> 0 <= i < 512 -> a = pte_at t i ->
  forall x j, good_page encr x -> 0 <= j < 512 -> (x, j) <> (t, i) -> mem (pte_set s a w) (pte_at x j) = mem s (pte_at x j).
Proof.
  intros Ht Hi -> x j Hx Hj Hne. cbn. apply fn_lookup_insert_ne. intros E. apply pte_at_inj with (encr := encr) in E as [-> ->]; done.
Qed.

Section Change.
Context (d : nat) (s : pagemem) (t : Z) (f : Z -> Prop) (F : Z -> Z -> Prop) (i : Z).
Context (Hnode : node encr d (mem s) t f F) (Hw : alloc_wf s) (Hfresh : forall x, f x -> x ∉ free_pages s) (Hi : 0 <= i < 512).

(** Entry [i] changed, and the others did not. *)
Definition entry_changed (s' : pagemem) (used : list Z) (f' : Z -> Prop) : Prop :=
  extends s s' f f' used /\ tables encr d (mem s') t f' /\
  forall y, index d y <> i -> walk encr d (mem s') t y = walk encr d (mem s) t y.

(** An entry that does not lead to a table. *)
Lemma write_changed s' w : mem s' = <[pte_at t i := w]> (mem s) -> current_phys s' = current_phys s -> pageheap s' = pageheap s ->
  kind d w <> Sub -> (kind d w = Leaf -> page_from_pte encr w mod size d = 0) ->
  mem s' (pte_at t i) = w /\ exists f', entry_changed s' [] f'.
Proof.
  intros Hm E1 E2 Hk Hal. destruct (same_alloc s s' E1 E2 Hw) as [Hw' Ef].
  assert (Hwr : mem s' (pte_at t i) = w) by (rewrite Hm; apply fn_lookup_insert). split; [done|].
  pose proof Hnode as (Ht & Hf & _).
  assert (Hoth : forall x j, good_page encr x -> 0 <= j < 512 -> (x, j) <> (t, i) -> mem s' (pte_at x j) = mem s (pte_at x j)).
  { intros x j Hx Hj Hne. rewrite Hm. by apply (pte_set_other s (pte_at t i) w t i). }
  destruct (node_update encr d (mem s) (mem s') t f F (fun _ => False) i (fun _ => False)) as [(f' & Hf' & Hincl) Hwalk];
    [done|done|tauto|tauto|auto|rewrite Hwr; unfold entry_tables; destruct (kind d w); naive_solver|].
  exists f'. split; [|done]. split; [done|done|..].
  - intros x j Hx Hn Hj. apply Hoth; [done..|]. intros [= -> ->]. apply Hn. left. apply Hf. by left.
  - intros x [|]%Hincl; [by left|done].
Qed.

(** An entry that leads to the tables at [t1], which were changed first: those that it led
    to before or new ones. *)
Lemma sub_changed d' s1 t1 f1 u1 s2 u2 f2 s3 : d = S d' -> free_pages s = u1 ++ free_pages s1 ->
  (forall x j, good_page encr x -> 0 <= j < 512 -> x ∉ u1 -> (x, j) <> (t, i) -> mem s1 (pte_at x j) = mem s (pte_at x j)) ->
  (forall x, f1 x -> F i x \/ x ∈ u1) ->
  extends s1 s2 f1 f2 u2 -> tables encr d' (mem s2) t1 f2 ->
  kind d (mem s3 (pte_at t i)) = Sub -> page_from_pte encr (mem s3 (pte_at t i)) = t1 ->
  (forall x j, good_page encr x -> 0 <= j < 512 -> (x, j) <> (t, i) -> mem s3 (pte_at x j) = mem s2 (pte_at x j)) ->
  current_phys s3 = current_phys s2 -> pageheap s3 = pageheap s2 ->
  (exists f', entry_changed s3 (u1 ++ u2) f') /\
  forall y, index d y = i -> walk encr d (mem s3) t y = walk encr d' (mem s2) t1 y.
Proof.
  intros Ed Ef1 Hm1 Hf1 [E2 W2 O2 I2] T2 Hk Hp Hm3 Ep Eh. destruct (same_alloc s2 s3 Ep Eh W2) as [W3 E3].
  pose proof Hnode as (Ht & Hf & Hn & _).
  assert (Eused : free_pages s = (u1 ++ u2) ++ free_pages s3) by (rewrite Ef1, E2, E3; apply app_assoc).
  assert (Hu : forall x, x ∈ u1 ++ u2 -> ~ f x) by (intros x Hx Hfx; apply (Hfresh x Hfx); rewrite Eused; set_solver).
  assert (Hf2 : forall x, f2 x -> F i x \/ x ∈ u1 ++ u2) by (intros x [[?|?]%Hf1|?]%I2; rewrite elem_of_app; tauto).
  assert (Ha : agree f2 (mem s2) (mem s3)).
  { intros x j Hx Hj. apply Hm3; [by eapply tables_good|done|]. intros [= -> ->].
    apply Hf2 in Hx as [?|Hx%Hu]; [by apply (Hn i)|apply Hx, Hf; by left]. }
  assert (T3 : tables encr d' (mem s3) t1 f2) by by eapply tables_agree.
  assert (Hch : forall x j, good_page encr x -> 0 <= j < 512 -> ~ F i x -> x ∉ u1 ++ u2 -> (x, j) <> (t, i) ->
    mem s3 (pte_at x j) = mem s (pte_at x j)).
  { intros x j Hx Hj HF Hxu Hne. rewrite elem_of_app in Hxu. rewrite Hm3, O2 by (done || naive_solver). apply Hm1; tauto. }
  destruct (node_update encr d (mem s) (mem s3) t f F (fun x => x ∈ u1 ++ u2) i f2) as [(f' & Hf' & Hincl) Hwalk];
    [done..|by unfold entry_tables; rewrite Hk, Hp; rewrite Ed|].
  split; [exists f'; split; [split|]; [done|done| |done|done]|].
  - intros x j Hx Hxn Hj. apply Hch; [done..| |tauto|].
    + intros HF. apply Hxn. left. apply Hf. eauto.
    + intros [= -> ->]. apply Hxn. left. apply Hf. by left.
  - intros y Hy. rewrite walk_entry, Hy. unfold entry_walk. rewrite Hk, Hp, Ed. by eapply walk_agree.
Qed.
End Change.
End Alloc.
