(* ===== verification/PageMap.v ===== *)
(** Mapping: [map_level] and [map] of [kernel/src/kernel/page.c] make the tables translate
    exactly the range they are given to the physical range, and leave every other
    translation as it was.

    This needs two conditions on blocks that are already mapped in the range
    ([compatible]): one that is only partly covered is of 2 MiB, and one that is covered
    is aligned with the physical range.  Examples at the end show what the code does
    without them, and that pages it remaps inside a block are not invalidated. *)

From stdpp Require Import functions.
From S2P Require Import Prelude Range Words Page PageTable.

Section Map.
Context (encr : Z) (Hencr : Z.land encr (MASK 30) = 0).
Context (levelmask : Z) (initialized : bool) (fl : Z) (Hfl : good_flags encr fl).

(** Blocks that meet [a, a + len) can be split or replaced. *)
Definition compatible (d : nat) (m : Z -> Z) (t a len p : Z) : Prop :=
  forall y k e, a <= y < a + len -> walk encr d m t y = Some (k, e) -> (1 <= k)%nat ->
    if decide (a <= y - y mod size k /\ y - y mod size k + size k <= a + len) then (p - a) mod size k = 0 else k = 1%nat.

Record map_pre (d : nat) (s : pagemem) (t : Z) (f : Z -> Prop) (a len p : Z) : Prop := {
  pre_tables : tables encr d (mem s) t f;
  pre_alloc : alloc_wf encr s;
  pre_fresh : forall x, f x -> x ∉ free_pages s;
  pre_range : 0 <= a /\ 0 < len /\ a + len <= size (S d);
  pre_align : a mod 4096 = 0 /\ len mod 4096 = 0;
  pre_phys : p mod 4096 = 0 /\ forall x, p <= x < p + len -> x mod 4096 = 0 -> good_page encr x;
  pre_compat : compatible d (mem s) t a len p;
}.

(** What a successful call does to the tables. *)
Record mapped (d : nat) (s s' : pagemem) (t : Z) (f : Z -> Prop) (a len p : Z) (used : list Z) (f' : Z -> Prop) : Prop := {
  mapped_ext : extends encr s s' f f' used;
  mapped_tables : tables encr d (mem s') t f';
  mapped_in : forall y, a <= y < a + len -> translate encr d (mem s') t y = Some (p + (y - a), attrs fl);
  mapped_out : forall y, 0 <= y < size (S d) -> ~ a <= y < a + len -> translate encr d (mem s') t y = translate encr d (mem s) t y;
}.

Definition map_post (d : nat) (s : pagemem) (t : Z) (f : Z -> Prop) (a len p : Z) (r : option (bool * Z * pagemem)) : Prop :=
  exists ok p' s', r = Some (ok, p', s') /\
    if ok : bool then p' = p + len /\ exists used f', mapped d s s' t f a len p used f' else free_pages s' = [].

(** One range after another. *)
Lemma mapped_app d s s1 s2 t f f1 f2 a l1 l2 p u1 u2 : 0 <= a -> 0 < l1 -> 0 < l2 -> a + l1 + l2 <= size (S d) ->
  mapped d s s1 t f a l1 p u1 f1 -> mapped d s1 s2 t f1 (a + l1) l2 (p + l1) u2 f2 ->
  mapped d s s2 t f a (l1 + l2) p (u1 ++ u2) f2.
Proof.
  intros Ha Hl1 Hl2 Hs [X1 T1 M1 N1] [X2 T2 M2 N2]. split; [by eapply extends_trans|done|..].
  - intros y Hy. destruct (decide (y < a + l1)).
    + rewrite N2 by lia. apply M1. lia.
    + rewrite M2 by lia. do 2 f_equal. lia.
  - intros y Hy Hn. rewrite N2, N1 by lia. done.
Qed.

(** *** One entry *)

Section Entry.
Context (d : nat) (Hd : (d <= 3)%nat) (s : pagemem) (t : Z) (f : Z -> Prop) (F : Z -> Z -> Prop).
Context (Hnode : node encr d (mem s) t f F) (Hw : alloc_wf encr s) (Hfresh : forall x, f x -> x ∉ free_pages s).
Context (i c len p : Z) (Hi : 0 <= i < 512) (Hc : i * size d <= c) (Hlen : 0 < len) (Hcl : c + len <= (i + 1) * size d).

(** The other entries do not change. *)
Definition entry_mapped (s' : pagemem) (used : list Z) (f' : Z -> Prop) : Prop :=
  mapped d s s' t f c len p used f' /\ forall y, index d y <> i -> walk encr d (mem s') t y = walk encr d (mem s) t y.

Lemma entry_index y : c <= y < c + len -> index d y = i.
Proof.
  intros Hy. pose proof (size_pos d). rewrite index_small; [apply div_entry; lia|]. rewrite size_S. nia.
Qed.

Lemma entry_translate m y : index d y = i -> translate encr d m t y = meaning encr y <$> entry_walk encr d m (m (pte_at t i)) y.
Proof. intros Hy. unfold translate. by rewrite walk_entry, Hy. Qed.

Lemma other_translate m m' y : walk encr d m' t y = walk encr d m t y -> translate encr d m' t y = translate encr d m t y.
Proof. unfold translate. by intros ->. Qed.

Lemma write_leaf s' w : mem s' = <[pte_at t i := w]> (mem s) -> current_phys s' = current_phys s -> pageheap s' = pageheap s ->
  kind d w = Leaf -> page_from_pte encr w = p -> p mod size d = 0 -> attr encr w = attrs fl -> c = i * size d -> len = size d ->
  exists used f', entry_mapped s' used f'.
Proof.
  intros Hm E1 E2 Hk Hp Hal Hat Ec El.
  destruct (write_changed encr d s t f F i Hnode Hw Hi s' w Hm E1 E2) as (Hwr & f' & Hx & Hf' & Hwalk); [congruence..|].
  exists [], f'. split; [|done]. split; [done|done|..].
  - intros y Hy. rewrite entry_translate, Hwr by by apply entry_index. unfold entry_walk. rewrite Hk. simpl. unfold meaning.
    cbn [fst snd]. rewrite Hp, Hat. do 2 f_equal. pose proof (size_pos d). rewrite <- (Z.mod_unique y (size d) i (y - c)); lia.
  - intros y Hy Hn. apply other_translate, Hwalk. intros E. rewrite index_small in E by done. apply div_entry in E. lia.
Qed.

Lemma entry_walk_sub d' m e y : d = S d' -> kind d e = Sub -> entry_walk encr d m e y = walk encr d' m (page_from_pte encr e) y.
Proof. intros Ed Hk. unfold entry_walk. by rewrite Hk, Ed. Qed.

(** The work is done by the next level. *)
Lemma sub_entry d' s1 t1 f1 u1 s2 u2 f2 s3 : d = S d' -> free_pages s = u1 ++ free_pages s1 ->
  (forall x j, good_page encr x -> 0 <= j < 512 -> x ∉ u1 -> (x, j) <> (t, i) -> mem s1 (pte_at x j) = mem s (pte_at x j)) ->
  (forall x, f1 x -> F i x \/ x ∈ u1) ->
  (forall y, index d y = i -> ~ c <= y < c + len -> 0 <= y < size (S d) ->
     translate encr d' (mem s1) t1 y = translate encr d (mem s) t y) ->
  mapped d' s1 s2 t1 f1 (c - i * size d) len p u2 f2 ->
  kind d (mem s3 (pte_at t i)) = Sub -> page_from_pte encr (mem s3 (pte_at t i)) = t1 ->
  (forall x j, good_page encr x -> 0 <= j < 512 -> (x, j) <> (t, i) -> mem s3 (pte_at x j) = mem s2 (pte_at x j)) ->
  current_phys s3 = current_phys s2 -> pageheap s3 = pageheap s2 ->
  exists used f', entry_mapped s3 used f'.
Proof.
  intros Ed Ef1 Hm1 Hf1 Hold [X2 T2 M2 N2] Hk Hp Hm3 Ep Eh.
  destruct (sub_changed encr Hencr d s t f F i Hnode Hw Hfresh Hi d' s1 t1 f1 u1 s2 u2 f2 s3) as [(f' & X & T & Hwalk) Hsub]; [done..|].
  assert (Htr : forall y, index d y = i -> translate encr d (mem s3) t y = translate encr d' (mem s2) t1 y).
  { intros y Hy. unfold translate. by rewrite Hsub. }
  pose proof (size_pos d) as Hsz.
  assert (Hmod : forall y, 0 <= y < size (S d) -> index d y = i -> y mod size (S d') = y - i * size d).
  { intros y Hy Ei. rewrite <- Ed. rewrite index_small in Ei by done. apply div_entry in Ei.
    symmetry. apply Z.mod_unique with i; lia. }
  assert (Hin : forall y, c <= y < c + len -> 0 <= y < size (S d)).
  { intros y Hy. rewrite size_S. nia. }
  exists (u1 ++ u2), f'. split; [|done]. split; [done|done|..].
  - intros y Hy. pose proof (entry_index y Hy) as Ei. rewrite Htr by done. rewrite <- translate_mod, (Hmod y (Hin y Hy) Ei), M2 by lia.
    do 2 f_equal. lia.
  - intros y Hy Hny. destruct (decide (index d y = i)) as [Ei|Ei]; [|by apply other_translate, Hwalk].
    rewrite Htr, <- Hold by done. rewrite <- translate_mod, <- (translate_mod encr d' (mem s1)), (Hmod y Hy Ei).
    apply N2; [|lia]. rewrite <- (Hmod y Hy Ei). apply Z.mod_pos_bound. rewrite <- Ed. lia.
Qed.
End Entry.

(** *** The arithmetic of [map_level] *)

Lemma kind_tests d e : match kind d e with
  | Absent => pte_is_present e = false
  | Leaf => pte_is_present e = true /\ pte_is_mapping (4 - Z.of_nat d) e = true
  | Sub => pte_is_present e = true /\ pte_is_mapping (4 - Z.of_nat d) e = false
  end.
Proof. unfold kind. by destruct (pte_is_present e), (pte_is_mapping (4 - Z.of_nat d) e). Qed.

Lemma shift_range d : (d <= 3)%nat -> 12 <= shift d <= 39.
Proof. unfold shift. lia. Qed.

Lemma MASK_size d : (d <= 3)%nat -> MASK (shift d) = size d - 1.
Proof. intros Hd. pose proof (shift_range d Hd). rewrite MASK_ones, Z.ones_equiv by lia. unfold size. lia. Qed.

Lemma land_mask_size x d : (d <= 3)%nat -> Z.land x (MASK (shift d)) = x mod size d.
Proof. intros Hd. pose proof (shift_range d Hd). rewrite MASK_ones, Z.land_ones by lia. done. Qed.

Lemma next_addr_size x d : (d <= 3)%nat -> 0 <= x -> x + size d < 2 ^ 64 ->
  next_addr x (MASK (shift d)) = size d * (x / size d + 1).
Proof.
  intros Hd Hx Hb. pose proof (size_pos d). pose proof (shift_range d Hd). unfold next_addr. rewrite MASK_size by done.
  replace (x + (size d - 1) + 1) with (x + 1 * size d) by lia. rewrite u64_small by lia.
  unfold not64, size at 2. rewrite land_clear_low by (fold (size d); lia). fold (size d). rewrite Z.div_add by lia. done.
Qed.

Lemma index_land x d : (d <= 3)%nat -> Z.land (Z.shiftr x (shift d)) INDEX_MASK = index d x.
Proof.
  intros Hd. change INDEX_MASK with (Z.ones 9). pose proof (shift_range d Hd).
  rewrite Z.land_ones, Z.shiftr_div_pow2 by lia. done.
Qed.

Lemma lor_size x d : x mod size d = 0 -> Z.lor x (size d) = x \/ Z.lor x (size d) = x + size d.
Proof.
  intros Hx. pose proof (size_pos d). apply Z.mod_divide in Hx as [k ->]; [|lia]. unfold size.
  assert (0 <= shift d) by (unfold shift; lia). replace (Z.lor (k * 2 ^ shift d) (2 ^ shift d)) with (Z.lor k 1 * 2 ^ shift d).
  2: { by rewrite <- (Z.shiftl_mul_pow2 (Z.lor k 1)), Z.shiftl_lor, !Z.shiftl_mul_pow2, Z.mul_1_l by done. }
  assert (E : Z.lor k 1 = k \/ Z.lor k 1 = k + 1).
  { destruct (Z.Even_or_Odd k) as [[q ->]|[q ->]]; rewrite (Z.mul_comm 2); change 2 with (2 ^ 1);
      rewrite <- (lor_pow2 q 1 1) by lia; [by right|left]. by rewrite <- Z.lor_assoc, Z.lor_diag. }
  destruct E as [->| ->]; [by left|right]. ring.
Qed.

Lemma lor_below x y d : x mod size d = 0 -> 0 <= y < size d -> Z.lor x y = x + y.
Proof.
  intros Hx Hy. pose proof (size_pos d). apply Z.mod_divide in Hx as [k ->]; [|lia]. apply lor_pow2; [unfold shift; lia|done].
Qed.

(** The end of an entry; the code joins bits, which loses the carry out of the last
    entry, but then the range ends first. *)
Lemma entry_len d b i c ce : (d <= 3)%nat -> 0 <= b -> b + size (S d) <= 2 ^ 48 -> b mod size (S d) = 0 -> 0 <= i < 512 ->
  i * size d <= c < (i + 1) * size d -> c < ce <= size (S d) ->
  Z.min (range_span (irange (b + c) (b + ce))) (u64 (Z.lor b (u64 (Z.shiftl (i + 1) (shift d))) - (b + c))) =
  Z.min (ce - c) ((i + 1) * size d - c).
Proof.
  intros Hd Hb Hbs Hb0 Hi Hc Hce. pose proof (size_pos d). pose proof (shift_range d Hd). pose proof (size_S d) as Hs.
  unfold range_span. cbn [start end_]. rewrite (u64_small (b + ce - _)) by lia.
  rewrite Z.shiftl_mul_pow2 by lia. fold (size d). rewrite (u64_small ((i + 1) * size d)) by nia.
  destruct (decide (i = 511)) as [->|].
  - replace ((511 + 1) * size d) with (size (S d)) by lia. destruct (lor_size b (S d) Hb0) as [->| ->].
    + unfold u64. rewrite <- (Z.mod_unique (b - (b + c)) (2 ^ 64) (-1) (2 ^ 64 - c)); lia.
    + rewrite u64_small; lia.
  - rewrite (lor_below _ _ (S d)) by (done || nia). rewrite u64_small by nia. lia.
Qed.

Section MapEntry.
Context (d : nat) (Hd : (d <= 3)%nat) (s : pagemem) (t : Z) (f : Z -> Prop) (c ce p : Z).
Context (Hpre : map_pre d s t f c (ce - c) p).
Context (rec : pagemem -> Z -> range -> Z -> option (bool * Z * pagemem)) (next : range).

Let i := c / size d.
Let len := Z.min (ce - c) ((i + 1) * size d - c).

(** The next level does its part. *)
Hypothesis Hrec : forall d', d = S d' -> forall s1 t1 f1, map_pre d' s1 t1 f1 (c - i * size d) len p ->
  map_post d' s1 t1 f1 (c - i * size d) len p (rec s1 t1 next p).

Definition entry_post (r : option (bool * Z * pagemem)) : Prop :=
  exists ok p' s', r = Some (ok, p', s') /\
    if ok : bool then p' = p + len /\ exists used f', entry_mapped d s t f i c len p s' used f' else free_pages s' = [].

Lemma entry_bounds : 0 <= i < 512 /\ i * size d <= c /\ 0 < len /\ c + len <= (i + 1) * size d /\ c + len <= ce.
Proof.
  destruct Hpre as [_ _ _ Hr _ _ _]. pose proof (size_pos d). rewrite size_S in Hr.
  pose proof (proj2 (div_entry d c i) eq_refl). assert (0 <= i < 512); [|subst len; lia].
  split; [apply Z.div_pos; lia|apply Z.div_lt_upper_bound; lia].
Qed.

Lemma c_entry : c - i * size d = c mod size d.
Proof. pose proof (size_pos d). unfold i. pose proof (Z.div_mod c (size d)). lia. Qed.

Lemma entry_aligned : c mod 4096 = 0 /\ len mod 4096 = 0 /\ (c - i * size d) mod 4096 = 0.
Proof.
  destruct Hpre as [_ _ _ _ [Ha Hl] _ _]. apply Z.mod_divide in Ha as [a Ea], Hl as [l El]; [|lia..].
  pose proof (size_mod d) as Hs. apply Z.mod_divide in Hs as [z Ez]; [|lia].
  assert (El' : len = 4096 * Z.min l ((i + 1) * z - a)) by (unfold len; rewrite El, Ea, Ez; lia).
  rewrite El'. split; [rewrite Ea; apply Z.mod_mul; lia|]. split; [rewrite Z.mul_comm; apply Z.mod_mul; lia|].
  rewrite Ea, Ez. replace (a * 4096 - i * (z * 4096)) with ((a - i * z) * 4096) by lia. apply Z.mod_mul. lia.
Qed.

(** At depth 0 an entry is a page. *)
Lemma entry_page : d = 0%nat -> len = size d.
Proof.
  intros E. destruct entry_aligned as (Ha & Hl & Hc). destruct entry_bounds as (_ & H1 & H2 & H3 & _).
  pose proof c_entry as H4. rewrite E in *. change (size 0) with 4096 in *. Z.to_euclidean_division_equations; lia.
Qed.

(** The whole entry is covered exactly when it starts with it. *)
Lemma entry_whole : len = size d -> c = i * size d.
Proof. destruct entry_bounds as (_ & H1 & H2 & H3 & _). lia. Qed.

Lemma pre_good x : p <= x < p + len -> x mod 4096 = 0 -> good_page encr x.
Proof. destruct Hpre as [_ _ _ _ _ [_ Hg] _], entry_bounds. intros. apply Hg; [lia|done]. Qed.

Lemma p_good : good_page encr p /\ p mod 4096 = 0.
Proof. destruct Hpre as [_ _ _ _ _ [Hp _] _], entry_bounds. split; [|done]. apply pre_good; [lia|done]. Qed.

Lemma next_p : p mod size d = 0 -> next_addr p (MASK (shift d)) = p + size d.
Proof.
  intros Hp. destruct p_good as [[Hr _]%good_page_range _]. pose proof (size_pos d). pose proof (size_le d Hd).
  rewrite next_addr_size by lia. pose proof (Z.div_mod p (size d)). lia.
Qed.

(** An entry for the whole range. *)
Lemma entry_write w s' : kind d w = Leaf -> page_from_pte encr w = p -> attr encr w = attrs fl -> len = size d -> p mod size d = 0 ->
  mem s' = <[pte_at t i := w]> (mem s) -> current_phys s' = current_phys s -> pageheap s' = pageheap s ->
  entry_post (Some (true, next_addr p (MASK (shift d)), s')).
Proof.
  intros Hk Hp Hat Hl Hp0 Hm E1 E2. eexists true, _, _. split; [reflexivity|]. split; [rewrite next_p, Hl by done; done|].
  destruct entry_bounds as (Hi & H1 & H2 & H3 & _). pose proof (entry_whole Hl).
  pose proof (pre_tables _ _ _ _ _ _ _ Hpre) as [F HF]%tables_node. eapply write_leaf; eauto using pre_alloc.
Qed.

Lemma leaf_of_flags : (d <= 2)%nat -> let w := if 4 - Z.of_nat d =? PT_PTE_LEVEL then page_pte p fl else block_pte p fl in
  kind d w = Leaf /\ page_from_pte encr w = p /\ attr encr w = attrs fl.
Proof.
  intros Hd2. destruct p_good as [Hg _]. by apply leaf_pte.
Qed.

Lemma sub_pre d' s1 t1 f1 : d = S d' -> tables encr d' (mem s1) t1 f1 -> alloc_wf encr s1 ->
  (forall x, f1 x -> x ∉ free_pages s1) -> compatible d' (mem s1) t1 (c - i * size d) len p ->
  map_pre d' s1 t1 f1 (c - i * size d) len p.
Proof.
  intros Ed Ht Hw Hf Hcomp. destruct entry_bounds as (Hi & H1 & H2 & H3 & _), entry_aligned as (Ha & Hl & Hc).
  split; [done|done|done| |done| |done].
  - rewrite <- Ed. lia.
  - split; [apply p_good|]. auto using pre_good.
Qed.

Lemma sub_compatible d' m : d = S d' -> m = mem s -> kind d (m (pte_at t i)) = Sub ->
  compatible d' m (page_from_pte encr (m (pte_at t i))) (c - i * size d) len p.
Proof.
  intros Ed -> Hk y k e Hy Hwalk Hk1. destruct entry_bounds as (Hi & H1 & H2 & H3 & H4). pose proof (size_pos d).
  destruct (walk_depth _ _ _ _ _ _ _ Hwalk) as [Hkd _].
  assert (Hmod : forall k, (k <= d')%nat -> (y + i * size d) mod size k = y mod size k).
  { intros k' Hk'. pose proof (size_pos k'). rewrite <- (mod_size_mod k' d) by lia.
    rewrite Z.mod_add, mod_size_mod by lia. done. }
  assert (Hy' : c <= y + i * size d < c + (ce - c)) by lia.
  assert (Hi' : index d (y + i * size d) = i).
  { rewrite index_small; [apply div_entry; lia|]. rewrite size_S. nia. }
  assert (Hw : walk encr d (mem s) t (y + i * size d) = Some (k, e)).
  { rewrite walk_entry, Hi'. unfold entry_walk. rewrite Hk, Ed, <- walk_mod, <- Ed, Z.mod_add, Ed, walk_mod by lia. done. }
  pose proof (pre_compat _ _ _ _ _ _ _ Hpre _ _ _ Hy' Hw Hk1) as Hc. rewrite Hmod in Hc by done.
  pose proof (size_pos k). pose proof (Z.mod_pos_bound y (size k)).
  assert (Hin : y - y mod size k + size k <= size d).
  { assert (0 <= y < size d) by lia. assert (Hdiv : (size k | size d)).
    { exists (2 ^ (9 * Z.of_nat (d - k))). unfold size, shift. rewrite <- Z.pow_add_r by lia. f_equal. lia. }
    destruct Hdiv as [z Ez]. pose proof (Z.div_mod y (size k)). assert (y / size k < z) by (apply Z.div_lt_upper_bound; lia). nia. }
  assert (Hdiff : (p - (c - i * size d)) mod size k = (p - c) mod size k).
  { replace (p - (c - i * size d)) with (p - c + i * size d) by lia. rewrite <- (mod_size_mod k d) by lia.
    by rewrite Z.mod_add, mod_size_mod by lia. }
  case_decide; case_decide; [by rewrite Hdiff|exfalso; lia|exfalso; lia|done].
Qed.

Lemma entry_sub : kind d (mem s (pte_at t i)) = Sub -> entry_post (rec s (page_from_pte encr (mem s (pte_at t i))) next p).
Proof.
  intros Hk. destruct entry_bounds as (Hi & H1 & H2 & H3 & H4).
  pose proof (pre_tables _ _ _ _ _ _ _ Hpre) as [F HF]%tables_node. pose proof HF as (Ht & Hf & Hn & _ & HFi).
  pose proof (pre_fresh _ _ _ _ _ _ _ Hpre) as Hfresh. specialize (HFi i Hi). unfold entry_tables in HFi. rewrite Hk in HFi.
  destruct (kind_Sub_depth _ _ Hk) as [d' Ed]. rewrite Ed in HFi.
  assert (Hsub : map_pre d' s (page_from_pte encr (mem s (pte_at t i))) (F i) (c - i * size d) len p).
  { apply sub_pre; [done|done|by eapply pre_alloc|..]; [|by apply sub_compatible]. intros x Hx. apply Hfresh, Hf. eauto. }
  destruct (Hrec d' Ed _ _ _ Hsub) as (ok & p' & s' & -> & Hok). exists ok, p', s'. split; [done|].
  destruct ok; [|done]. destruct Hok as (-> & u & f' & Hm). split; [done|].
  assert (Htu : forall j, 0 <= j < 512 -> mem s' (pte_at t j) = mem s (pte_at t j)).
  { intros j Hj. apply (ext_only _ _ _ _ _ _ (mapped_ext _ _ _ _ _ _ _ _ _ _ Hm)); [done| |done]. intros [?|?]; [by apply (Hn i)|].
    apply (Hfresh t); [apply Hf; by left|]. rewrite (ext_free _ _ _ _ _ _ (mapped_ext _ _ _ _ _ _ _ _ _ _ Hm)). set_solver. }
  eapply sub_entry with (F := F) (d' := d') (s1 := s) (u1 := []) (s2 := s') (t1 := page_from_pte encr (mem s (pte_at t i)));
    [by eauto using pre_alloc..|done|done|set_solver|by left| |done|by rewrite Htu|by rewrite Htu|done|done|done].
  intros y Hy _ _. rewrite entry_translate with (d := d) (i := i) by done. by erewrite entry_walk_sub.
Qed.

(** A page that is taken was not in use. *)
Lemma new_page x s1 : free_pages s = x :: free_pages s1 -> x <> t /\ (x ∉ free_pages s1) /\ (t ∉ free_pages s).
Proof.
  intros E. assert (Ht : t ∉ free_pages s).
  { eapply pre_fresh; [exact Hpre|]. eapply tables_top, pre_tables, Hpre. }
  split; [intros ->; apply Ht; rewrite E; set_solver|]. split; [|done].
  pose proof (alloc_nodup _ _ (pre_alloc _ _ _ _ _ _ _ Hpre)) as H. rewrite E in H. by apply NoDup_cons in H as [? _].
Qed.

Lemma entry_new : kind d (mem s (pte_at t i)) = Absent -> d <> 0%nat ->
  entry_post match allocate_table_page s with
             | None => Some (false, p, s)
             | Some (tp_phys, s) =>
                 '(ok, p, s) ← rec s tp_phys next p;
                 if (ok : bool) then Some (true, p, pte_set s (pte_at t i) (new_level_pte encr tp_phys)) else Some (false, p, s)
             end.
Proof.
  intros Hk Hd0. destruct entry_bounds as (Hi & H1 & H2 & H3 & H4).
  pose proof (pre_tables _ _ _ _ _ _ _ Hpre) as [F HF]%tables_node. pose proof HF as (Ht & Hf & Hn & _ & _).
  pose proof (pre_alloc _ _ _ _ _ _ _ Hpre) as Hw.
  destruct (allocate_spec encr s Hw) as [[-> E]|(x & s1 & -> & Ef & Hw1 & Hm1 & _)]; [by eexists false, _, _|].
  assert (Hx : good_page encr x). { pose proof (alloc_good _ s Hw) as H. rewrite Ef in H. by apply Forall_cons in H as [? _]. }
  destruct (new_page _ _ Ef) as (Hxt & Hxf & _). assert (exists d', d = S d') as [d' Ed] by (exists (pred d); lia).
  destruct (zero_table encr d' (mem s1) x Hx) as [Htab Hnone].
  { intros j Hj. rewrite Hm1. by eapply zero_mem_page. }
  assert (Hsub : map_pre d' s1 x (eq x) (c - i * size d) len p).
  { apply sub_pre; [done..|by intros ? <-|]. intros y k e _. by rewrite Hnone. }
  destruct (Hrec d' Ed _ _ _ Hsub) as (ok & p' & s' & -> & Hok). destruct ok; [|by exists false, p', s'].
  eexists true, _, _. split; [reflexivity|]. destruct Hok as (-> & u & f' & Hm). split; [done|].
  eapply sub_entry with (F := F) (d' := d') (s1 := s1) (u1 := [x]) (s2 := s') (t1 := x);
    [by eauto using pre_fresh..|done|done| |set_solver| |done| | | |done|done].
  - intros y j Hy Hj Hne _. rewrite Hm1. eapply zero_mem_other; [done..| |done]. set_solver.
  - intros y Hy _ _. unfold translate at 1. rewrite Hnone. unfold translate. by rewrite walk_entry, Hy; unfold entry_walk; rewrite Hk.
  - cbn. rewrite fn_lookup_insert. apply kind_new_level; [done|lia|done].
  - cbn. rewrite fn_lookup_insert. by apply page_of_new_level.
  - intros y j Hy Hj Hne. cbn. apply fn_lookup_insert_ne. intros E. apply pte_at_inj with (encr := encr) in E as [-> ->]; done.
Qed.

(** The pages of a block that the range covers. *)
Lemma split_gap y : d = 1%nat -> 0 <= y < size (S d) -> index d y = i ->
  (c <= y < c + len <-> index 0 c <= index 0 y < index 0 c + len / 4096) /\ index 0 c + len / 4096 <= 512.
Proof.
  intros Ed Hy Ei. destruct entry_bounds as (Hi & H1 & H2 & H3 & _), entry_aligned as (Ha & Hl & Hc0).
  assert (Hidx : forall z, 0 <= z < size (S d) -> z / size d = i -> index 0 z = (z - i * size d) / 4096).
  { intros z Hz Ez. apply div_entry in Ez. rewrite <- (index_mod 0 z). change (size 1) with (size (S 0)) in *.
    rewrite Ed in *. rewrite index_small by (apply Z.mod_pos_bound; pose proof (size_pos 1); lia).
    change (size 0) with 4096. f_equal. symmetry. apply Z.mod_unique with i; lia. }
  pose proof (size_pos d). rewrite index_small in Ei by done. rewrite (Hidx y), (Hidx c); [|rewrite size_S; nia|done|done|done].
  apply div_entry in Ei. rewrite Ed in *. change (size 1) with 2097152 in *. Z.to_euclidean_division_equations; lia.
Qed.

Lemma c_index : index d c = i.
Proof. destruct entry_bounds as (? & ? & ? & ? & _). apply entry_index with (c := c) (len := len); (done || lia). Qed.

Lemma c_walk : kind d (mem s (pte_at t i)) = Leaf -> walk encr d (mem s) t c = Some (d, mem s (pte_at t i)).
Proof. intros Hk. rewrite walk_entry, c_index. unfold entry_walk. by rewrite Hk. Qed.

(** Only blocks of 2 MiB are split. *)
Lemma partial_depth : kind d (mem s (pte_at t i)) = Leaf -> len <> size d -> d = 1%nat.
Proof.
  intros Hk Hl. destruct entry_bounds as (Hi & H1 & H2 & H3 & H4). pose proof (size_pos d). pose proof c_entry.
  assert (Hd0 : d <> 0%nat) by (intros E; by apply Hl, entry_page).
  pose proof (pre_compat _ _ _ _ _ _ _ Hpre c _ _ ltac:(lia) (c_walk Hk) ltac:(lia)) as Hc.
  case_decide; [|done]. exfalso. apply Hl. unfold len in *. lia.
Qed.

Lemma entry_split : kind d (mem s (pte_at t i)) = Leaf -> len <> size d ->
  entry_post match pte_split encr s (pte_at t i) (irangel (index 0 c) (Z.shiftr len 12)) with
             | None => Some (false, p, s)
             | Some (pte, s) => rec s (page_from_pte encr pte) next p
             end.
Proof.
  intros Hk Hl. destruct entry_bounds as (Hi & H1 & H2 & H3 & H4). pose proof (size_pos d).
  pose proof (pre_tables _ _ _ _ _ _ _ Hpre) as [F HF]%tables_node. pose proof HF as (Ht & Hf & Hn & _ & HFi).
  pose proof (pre_alloc _ _ _ _ _ _ _ Hpre) as Hw. specialize (HFi i Hi). unfold entry_tables in HFi. rewrite Hk in HFi.
  destruct HFi as [Hal _].
  assert (Hcr : 0 <= c < size (S d)) by (rewrite size_S; nia). pose proof c_index as Hci. pose proof (partial_depth Hk Hl) as Ed.
  destruct (split_gap c Ed Hcr Hci) as [_ Hg]. pose proof (index_range 0 c).
  assert (Hgap : irangel (index 0 c) (Z.shiftr len 12) = irange (index 0 c) (index 0 c + len / 4096)).
  { unfold irangel. rewrite Z.shiftr_div_pow2 by lia. change (2 ^ 12) with 4096. rewrite u64_small; [done|].
    pose proof (Z.div_pos len 4096). lia. }
  assert (Htf : t ∉ free_pages s) by (eapply pre_fresh; [exact Hpre|]; eapply tables_top, pre_tables, Hpre).
  rewrite Ed in Hk, Hal. pose proof (Z.div_pos len 4096).
  destruct (pte_split_spec encr Hencr s t i (irangel (index 0 c) (Z.shiftr len 12))) as
    [[-> E]|(x & s1 & -> & Ef & Hw1 & _ & Hx & Hent & Hoth & Htab & Hwalk)]; [rewrite ?Hgap; cbn [start end_]; done || lia..| |].
  { by eexists false, _, _. }
  rewrite page_of_new_level by done. destruct (new_page _ _ Ef) as (Hxt & Hxf & _).
  unfold entry_tables in Htab. unfold entry_walk in Hwalk.
  rewrite kind_new_level, page_of_new_level in Htab, Hwalk by (done || lia). rewrite Hgap in Hwalk. cbn [start end_] in Hwalk.
  assert (Hsub : map_pre 0 s1 x (eq x) (c - i * size d) len p).
  { apply sub_pre; [done..|by intros ? <-|]. intros y k e _ [? _]%walk_depth. lia. }
  destruct (Hrec 0%nat Ed _ _ _ Hsub) as (ok & p' & s' & -> & Hok). exists ok, p', s'. split; [done|].
  destruct ok; [|done]. destruct Hok as (-> & u & f' & Hm). split; [done|].
  assert (Htu : mem s' (pte_at t i) = new_level_pte encr x).
  { rewrite <- Hent. apply (ext_only _ _ _ _ _ _ (mapped_ext _ _ _ _ _ _ _ _ _ _ Hm)); [done| |done]. intros [?|?]; [done|].
    apply Htf. rewrite Ef, (ext_free _ _ _ _ _ _ (mapped_ext _ _ _ _ _ _ _ _ _ _ Hm)). set_solver. }
  eapply sub_entry with (F := F) (d' := 0%nat) (s1 := s1) (u1 := [x]) (s2 := s') (t1 := x);
    [by eauto using pre_fresh..|done|done| |set_solver| |done| | |done|done|done].
  - intros y j Hy Hj Hne Hne'. apply Hoth; [done..| |done]. set_solver.
  - intros y Hy Hny Hyr. destruct (split_gap y Ed Hyr Hy) as [Hiff _]. unfold translate. rewrite Hwalk, walk_entry, Hy.
    unfold entry_walk. rewrite Ed, Hk. case_test; [exfalso; lia|]. simpl. f_equal. by apply split_meaning.
  - rewrite Htu. apply kind_new_level; [done|lia|done].
  - rewrite Htu. by apply page_of_new_level.
Qed.

Lemma map_entry_ok b vmask fe : 0 <= b -> b + size (S d) <= 2 ^ 48 -> b mod size (S d) = 0 ->
  next = irangel (Z.lor (b + c) vmask) len ->
  entry_post (map_entry encr levelmask initialized rec t (4 - Z.of_nat d) vmask b fl fe i (irange (b + c) (b + ce)) p s).
Proof.
  intros Hb Hbs Hb0 Hnext. destruct entry_bounds as (Hi & H1 & H2 & H3 & H4). destruct p_good as [Hpg Hp0].
  destruct Hpre as [_ _ _ (Hc0 & Hcl & Hcs) _ _ Hcomp]. pose proof (size_pos d). pose proof (shift_range d Hd).
  unfold map_entry. rewrite level_shift by done. cbn [start end_]. rewrite entry_len by (done || lia). fold len.
  rewrite <- Hnext. pose proof (kind_tests d (mem s (pte_at t i))) as Hk. destruct (kind d _) eqn:Ek.
  - rewrite Hk. simpl negb. cbn iota. unfold PT_PTE_LEVEL. destruct (Z.eqb_spec (4 - Z.of_nat d) 4) as [E|E].
    + assert (Ed : d = 0%nat) by lia. destruct leaf_of_flags as (L1 & L2 & L3); [lia|]. revert L1 L2 L3.
      unfold PT_PTE_LEVEL. destruct (Z.eqb_spec (4 - Z.of_nat d) 4); [|lia]. intros.
      eapply entry_write; [done..|by apply entry_page|by rewrite Ed|done|done|done].
    + case_test; [|apply entry_new; [done|lia]]. rewrite !land_mask_size in * by done.
      unfold range_span in *. cbn [start end_] in *. rewrite u64_small, U64_FROM_BIT_pow in * by lia. fold (size d) in *.
      assert (Hc : c mod size d = 0).
      { pose proof (mod_size_mod d (S d) b ltac:(lia)) as E'. rewrite Hb0, Z.mod_0_l in E' by lia.
        rewrite <- Zplus_mod_idemp_l, <- E' in *. done. }
      pose proof c_entry. destruct leaf_of_flags as (L1 & L2 & L3); [unfold PT_FIRST_LEVEL in *; lia|]. revert L1 L2 L3.
      unfold PT_PTE_LEVEL. destruct (Z.eqb_spec (4 - Z.of_nat d) 4); [lia|]. intros.
      eapply entry_write; [done..|unfold len; lia|done|done|done|done].
  - destruct Hk as [-> ->]. simpl negb. cbn iota. rewrite map_size_spec by done. destruct (Z.leb_spec (size d) len).
    + assert (El : len = size d) by lia. pose proof (entry_whole El) as Ec.
      assert (Hpa : p mod size d = 0).
      { destruct (decide (d = 0%nat)) as [Ed|]; [by rewrite Ed|].
        pose proof (Hcomp c _ _ ltac:(lia) (c_walk Ek) ltac:(lia)) as Hcp. pose proof c_entry. rewrite decide_True in Hcp by lia.
        rewrite Ec in Hcp. rewrite <- Hcp. replace p with (p - i * size d + i * size d) at 1 by lia. by rewrite Z.mod_add by lia. }
      destruct leaf_of_flags as (L1 & L2 & L3); [by eapply kind_Leaf_depth|].
      eapply entry_write; [done..| | |]; unfold page_invalidate; by repeat case_match.
    + assert (Hl : len <> size d) by lia. pose proof (partial_depth Ek Hl) as Ed.
      replace (pt_level_shift (4 - Z.of_nat d + 1)) with (shift 0) by by rewrite Ed. rewrite index_land by lia.
      replace (index 0 (b + c)) with (index 0 c).
      2: { rewrite Ed in Hb0. rewrite <- (index_mod 0 (b + c)), <- (mod_size_mod 1 2), <- Zplus_mod_idemp_l, Hb0 by lia.
           by rewrite Z.add_0_l, mod_size_mod, index_mod by lia. }
      by apply entry_split.
  - destruct Hk as [-> ->]. simpl negb. cbn iota. by apply entry_sub.
Qed.

(** What is left after the entry. *)
Lemma rest_pre s' used f' : entry_mapped d s t f i c len p s' used f' -> c + len < ce ->
  map_pre d s' t f' (c + len) (ce - (c + len)) (p + len).
Proof.
  intros [Hm Hwalk] Hlt. destruct entry_bounds as (Hi & H1 & H2 & H3 & H4), entry_aligned as (Ha & Hl & _).
  destruct Hpre as [_ Hw Hfr (Hc0 & Hcl & Hcs) [_ Hce] [Hp0 Hpg] Hcomp]. destruct Hm as [[E W _ I] T _ _].
  assert (Elen : c + len = (i + 1) * size d) by (unfold len in *; lia). pose proof (size_pos d).
  split; [done|done|by eapply fresh_step|lia| | |].
  - split; [by rewrite Z.add_mod, Ha, Hl by lia|]. replace (ce - (c + len)) with (ce - c - len) by lia.
    by rewrite Zminus_mod, Hce, Hl.
  - split; [by rewrite Z.add_mod, Hp0, Hl by lia|]. intros x Hx. apply Hpg. lia.
  - intros y k e Hy Hwy Hk. destruct (walk_depth _ _ _ _ _ _ _ Hwy) as [Hkd _]. rewrite Hwalk in Hwy.
    2: { rewrite index_small by lia. pose proof (Z.div_le_lower_bound y (size d) (i + 1)). lia. }
    pose proof (Hcomp y k e ltac:(lia) Hwy Hk) as Hc. replace (p + len - (c + len)) with (p - c) by lia.
    assert (c + len <= y - y mod size k).
    { pose proof (size_pos k). assert (Hdiv : (size k | (i + 1) * size d)).
      { apply Z.divide_mul_r. exists (2 ^ (9 * Z.of_nat (d - k))). unfold size, shift. rewrite <- Z.pow_add_r by lia. f_equal. lia. }
      destruct Hdiv as [z Ez]. pose proof (Z.div_mod y (size k)). assert (z <= y / size k) by (apply Z.div_le_lower_bound; lia). nia. }
    repeat case_decide; lia || done.
Qed.
End MapEntry.

(** *** The loop and the levels *)

Definition level_ok (d : nat) (rec : pagemem -> Z -> range -> Z -> option (bool * Z * pagemem)) : Prop :=
  forall s t f vs len p, 0 <= vs < 2 ^ 64 -> vs mod 2 ^ 48 + len < 2 ^ 48 ->
    map_pre d s t f (vs mod 2 ^ 48 mod size (S d)) len p ->
    map_post d s t f (vs mod 2 ^ 48 mod size (S d)) len p (rec s t (irangel vs len) p).

Section Loop.
Context (d : nat) (Hd : (d <= 3)%nat) (rec : pagemem -> Z -> range -> Z -> option (bool * Z * pagemem)).
Hypothesis Hrec : forall d', d = S d' -> level_ok d' rec.
Context (t b ce q : Z) (fe : bool) (Hq : 0 <= q < 2 ^ 16).
Context (Hb : 0 <= b) (Hbs : b + size (S d) <= 2 ^ 48) (Hb0 : b mod size (S d) = 0) (Hbe : b + ce < 2 ^ 48).

Lemma rec_entry s f c p : map_pre d s t f c (ce - c) p ->
  let i := c / size d in let len := Z.min (ce - c) ((i + 1) * size d - c) in
  forall d', d = S d' -> forall s1 t1 f1, map_pre d' s1 t1 f1 (c - i * size d) len p ->
  map_post d' s1 t1 f1 (c - i * size d) len p (rec s1 t1 (irangel (Z.lor (b + c) (q * 2 ^ 48)) len) p).
Proof.
  intros Hpre i len d' Ed s1 t1 f1 Hsub. destruct Hpre as [_ _ _ (Hc0 & Hcl & Hcs) _ _ _].
  pose proof (size_pos d). pose proof (Z.div_mod c (size d)).
  rewrite Z.lor_comm, lor_pow2 by lia. assert (Hv : (q * 2 ^ 48 + (b + c)) mod 2 ^ 48 = b + c).
  { symmetry. apply Z.mod_unique with q; lia. }
  assert (Ho : (b + c) mod size (S d') = c - i * size d).
  { rewrite <- Ed. rewrite <- (mod_size_mod d (S d)) by lia. rewrite <- Zplus_mod_idemp_l, Hb0, Z.add_0_l, mod_size_mod by lia.
    unfold i. lia. }
  pose proof (Hrec d' Ed s1 t1 f1 (q * 2 ^ 48 + (b + c)) len p) as IH. rewrite Hv, Ho in IH. apply IH; [lia|lia|done].
Qed.

Lemma map_loop_ok n : forall s f c p, map_pre d s t f c (ce - c) p -> n = Z.to_nat ((ce - 1) / size d - c / size d + 1) ->
  map_post d s t f c (ce - c) p
    (map_loop encr levelmask initialized rec t (4 - Z.of_nat d) (q * 2 ^ 48) b fl fe n (c / size d) (irange (b + c) (b + ce)) p s).
Proof.
  induction n as [|n IH]; intros s f c p Hpre Hn; pose proof Hpre as [_ Hw Hfr (Hc0 & Hcl & Hcs) _ [_ Hpg] _]; pose proof (size_pos d).
  { pose proof (Z.div_le_mono c (ce - 1) (size d)). lia. }
  cbn [map_loop]. destruct (map_entry_ok d Hd s t f c ce p Hpre rec _ (rec_entry s f c p Hpre) b (q * 2 ^ 48) fe Hb Hbs Hb0 eq_refl)
    as (ok & p' & s' & -> & Hok). cbn. destruct ok; [|by exists false, p', s']. cbn. destruct Hok as (-> & u & f' & Hm).
  destruct (entry_bounds d Hd s t f c ce p Hpre) as (Hi & H1 & H2 & H3 & H4). 
  pose proof Hm as [Hmm _]. set (len := Z.min _ _) in *. destruct (decide (c + len = ce)) as [E|E].
  - assert (n = 0%nat) as ->.
    { assert ((ce - 1) / size d = c / size d); [|lia]. apply div_entry. lia. }
    eexists true, _, _. split; [reflexivity|]. replace (ce - c) with len by lia. eauto.
  - assert (Elen : c + len = (c / size d + 1) * size d) by lia.
    rewrite level_shift, next_addr_size by (done || lia || (pose proof (size_le d Hd); lia)).
    replace (size d * ((b + c) / size d + 1)) with (b + (c + len)).
    2: { rewrite Elen. assert (Hbd : b mod size d = 0).
         { rewrite <- (mod_size_mod d (S d)), Hb0 by lia. apply Z.mod_0_l. lia. }
         apply Z.mod_divide in Hbd as [z ->]; [|lia]. rewrite (Z.add_comm (z * size d) c), Z.div_add by lia. lia. }
    replace (c / size d + 1) with ((c + len) / size d) by (rewrite Elen; apply Z.div_mul; lia).
    destruct (IH s' f' (c + len) (p + len)) as (ok & p' & s2 & -> & Hok).
    { eapply rest_pre; [done|done|exact Hm|]. fold len. lia. }
    { replace ((c + len) / size d) with (c / size d + 1) by (rewrite Elen; symmetry; apply Z.div_mul; lia). lia. }
    exists ok, p', s2. split; [done|]. destruct ok; [|done]. destruct Hok as (-> & u2 & f2 & Hm2). split; [lia|].
    exists (u ++ u2), f2. replace (ce - c) with (len + (ce - (c + len))) by lia. eapply mapped_app; [..|exact Hmm|exact Hm2]; lia.
Qed.
End Loop.

Lemma land_MASK48 x : Z.land x (MASK VIRTUAL_ADDRESS_BITS) = x mod 2 ^ 48.
Proof. unfold VIRTUAL_ADDRESS_BITS. by rewrite MASK_ones, Z.land_ones by lia. Qed.

Lemma land_not_MASK x k : 0 <= x < 2 ^ 64 -> 0 <= k < 64 -> Z.land x (not64 (MASK k)) = x / 2 ^ k * 2 ^ k.
Proof.
  intros Hx Hk. rewrite MASK_ones, Z.ones_equiv by lia. unfold not64. rewrite <- Z.sub_1_r, land_clear_low by lia. lia.
Qed.

(** The addresses that precede those of a table. *)
Lemma vlbase_spec d o : (d <= 3)%nat -> 0 <= o < 2 ^ 48 ->
  (if PT_FIRST_LEVEL <? 4 - Z.of_nat d then Z.land o (not64 (MASK (pt_level_shift (4 - Z.of_nat d - 1)))) else 0) =
  o - o mod size (S d).
Proof.
  intros Hd Ho. pose proof (size_pos (S d)). pose proof (Z.div_mod o (size (S d))). unfold PT_FIRST_LEVEL. case_test.
  - replace (4 - Z.of_nat d - 1) with (4 - Z.of_nat (S d)) by lia. rewrite level_shift by lia.
    pose proof (shift_range (S d) ltac:(lia)). rewrite land_not_MASK by lia. fold (size (S d)). lia.
  - replace d with 3%nat in * by lia. change (size 4) with (2 ^ 48) in *. rewrite Z.mod_small by lia. lia.
Qed.

Lemma size_divides d : (d <= 3)%nat -> (size (S d) | 2 ^ 48).
Proof.
  intros Hd. exists (2 ^ (48 - shift (S d))). unfold size. rewrite <- Z.pow_add_r by (unfold shift; lia). f_equal. lia.
Qed.

Lemma map_level_step d fe fuel : (d <= 3)%nat ->
  (forall d', d = S d' -> level_ok d' (map_level encr levelmask initialized fuel fl fe (4 - Z.of_nat d + 1))) ->
  level_ok d (map_level encr levelmask initialized (S fuel) fl fe (4 - Z.of_nat d)).
Proof.
  intros Hd Hrec s t f vs len p Hvs Hlen Hpre. set (o := vs mod 2 ^ 48) in *. assert (Ho : 0 <= o < 2 ^ 48) by (apply Z.mod_pos_bound; lia).
  set (c := o mod size (S d)) in *. pose proof Hpre as [_ _ _ (Hc0 & Hl0 & Hcs) _ _ _]. pose proof (size_pos d).
  pose proof (Z.div_mod o (size (S d))) as Hdm. cbn [map_level]. unfold irangel. cbn [start end_]. rewrite !land_MASK48. fold o.
  replace (u64 (vs + len) mod 2 ^ 48) with (o + len).
  2: { unfold u64. replace ((vs + len) mod 2 ^ 64 mod 2 ^ 48) with ((vs + len) mod 2 ^ 48).
       - rewrite <- Zplus_mod_idemp_l. fold o. symmetry. apply Z.mod_small. lia.
       - change (2 ^ 64) with (2 ^ 48 * 2 ^ 16). rewrite Z.rem_mul_r, Z.mul_comm, Z.mod_add, Z.mod_mod by lia. done. }
  rewrite vlbase_spec by done. fold c. rewrite land_not_MASK by (done || unfold VIRTUAL_ADDRESS_BITS; lia).
  change (2 ^ VIRTUAL_ADDRESS_BITS) with (2 ^ 48). rewrite level_shift, !index_land by done. rewrite (u64_small (o + len - 1)) by lia.
  set (b := o - c). assert (Eb : o = b + c) by lia. assert (Hb0 : b mod size (S d) = 0).
  { replace b with (o / size (S d) * size (S d)) by (unfold b, c; lia). apply Z.mod_mul. lia. }
  assert (Hidx : forall z, 0 <= z < size (S d) -> index d (b + z) = z / size d).
  { intros z Hz. rewrite <- index_mod, <- Zplus_mod_idemp_l, Hb0, Z.add_0_l, index_mod. by apply index_small. }
  replace (index d o) with (c / size d) by (rewrite <- Hidx by lia; f_equal; lia).
  replace (o + len - 1) with (b + (c + len - 1)) by lia. rewrite Hidx by lia.
  pose proof (Z.div_le_mono c (c + len - 1) (size d)). unfold kassert. destruct (Z.leb_spec (c / size d) ((c + len - 1) / size d)); [|lia].
  cbn [mbind option_bind]. replace (irange o (o + len)) with (irange (b + c) (b + (c + len))) by (f_equal; lia).
  replace len with (c + len - c) at 1 by lia.
  assert (Hq : 0 <= vs / 2 ^ 48 < 2 ^ 16) by (split; [apply Z.div_pos; lia|apply Z.div_lt_upper_bound; lia]).
  apply (map_loop_ok d Hd _ Hrec); [done|unfold b, c; pose proof (Z.mod_le o (size (S d))); pose proof (size_pos (S d)); lia| |done|lia| |done].
  - destruct (size_divides d Hd) as [z Ez]. assert (o / size (S d) < z) by (apply Z.div_lt_upper_bound; lia).
    replace b with (o / size (S d) * size (S d)) by (unfold b, c; lia). nia.
  - replace (c + len - c) with len by lia. done.
Qed.

Lemma map_level_ok d fe : (d <= 3)%nat -> level_ok d (map_level encr levelmask initialized (S d) fl fe (4 - Z.of_nat d)).
Proof.
  induction d as [|d IH]; intros Hd; (apply map_level_step; [lia|]); intros d' [= <-].
  replace (4 - Z.of_nat (S d) + 1) with (4 - Z.of_nat d) by lia. apply IH. lia.
Qed.
End Map.

(** ** The interface *)

Section Top.
Context (encr : Z) (Hencr : Z.land encr (MASK 30) = 0) (pagebase : Z).

(** The page tables of the kernel: the tables from [pagebase] are the pages [f], and none
    of them is free. *)
Record pt_wf (s : pagemem) (f : Z -> Prop) : Prop := {
  pt_tables : tables encr 3 (mem s) pagebase f;
  pt_alloc : alloc_wf encr s;
  pt_fresh : forall x, f x -> x ∉ free_pages s;
}.

Definition pt_lookup (s : pagemem) (x : Z) : option (Z * Z) := translate encr 3 (mem s) pagebase x.

Lemma pte_lookup_spec t x d : (d <= 3)%nat -> good_page encr t -> pte_lookup_phys t x (shift d) = pte_at t (index d x).
Proof.
  intros Hd [Ht _]%good_page_range. unfold pte_lookup_phys, pte_at. change (MASK 9) with INDEX_MASK. rewrite index_land by done.
  rewrite Z.shiftl_mul_pow2 by lia. change (2 ^ 3) with 8. pose proof (index_range d x). rewrite u64_small by lia. lia.
Qed.

Lemma lor_leaf d e x : (d <= 3)%nat -> page_from_pte encr e mod size d = 0 ->
  Z.lor (page_from_pte encr e) (Z.land x (MASK (shift d))) = page_from_pte encr e + x mod size d.
Proof.
  intros Hd He. rewrite land_mask_size by done. apply (lor_below _ _ d He). apply Z.mod_pos_bound. pose proof (size_pos d). lia.
Qed.

(** The software walk, from an entry on. *)
Fixpoint walk_phys (d : nat) (m : Z -> Z) (x e : Z) : option Z :=
  if negb (has e 1) then None
  else match d with
       | O => Some (Z.lor (page_from_pte encr e) (Z.land x (MASK (shift d))))
       | S d' =>
           if negb (bool_decide (d = 3%nat)) && has e PAGE_PS then Some (Z.lor (page_from_pte encr e) (Z.land x (MASK (shift d))))
           else walk_phys d' m x (m (pte_lookup_phys (page_from_pte encr e) x (shift d')))
       end.

Lemma walk_phys_spec d m x e g : (d <= 3)%nat -> entry_tables encr d m e g ->
  walk_phys d m x e = fst <$> (meaning encr x <$> entry_walk encr d m e x).
Proof.
  revert e g. induction d as [|d IH]; intros e g Hd He; unfold entry_tables, entry_walk, kind in *;
    rewrite is_mapping_spec in * by done; cbn [walk_phys]; change (has e 1) with (pte_is_present e);
    destruct (pte_is_present e) eqn:Hp; cbn [negb andb orb] in *; try done.
  - destruct He as [He _]. simpl. by rewrite lor_leaf.
  - rewrite (bool_decide_false (S d = 0%nat)) in * by done. cbn [orb] in *.
    destruct (negb (bool_decide (S d = 3%nat)) && has e PAGE_PS) eqn:Hps.
    + destruct He as [He _]. simpl fmap. by rewrite lor_leaf.
    + pose proof He as (F & Hg & _ & _ & _ & HF)%tables_node. rewrite pte_lookup_spec by (done || lia).
      rewrite walk_entry. eapply IH; [lia|]. apply HF, index_range.
Qed.

(** The software walk of the tables is the translation. *)
Lemma physical_from_virtual_lookup s f x : pt_wf s f ->
  __physical_from_virtual_locked encr pagebase (mem s) x = fst <$> pt_lookup s x.
Proof.
  intros [Ht _ _]. apply tables_node in Ht as (F & Hg & _ & _ & _ & HF). unfold pt_lookup, translate. rewrite walk_entry.
  rewrite <- walk_phys_spec with (g := F (index 3 x)) by first [lia|apply HF, index_range].
  rewrite <- pte_lookup_spec by (done || lia). done.
Qed.

Lemma pad_4096 n : 0 < n < 2 ^ 48 -> 0 < pad n PAGESIZE /\ pad n PAGESIZE mod 4096 = 0 /\ n <= pad n PAGESIZE < n + 4096.
Proof.
  intros Hn. change PAGESIZE with (2 ^ 12). destruct (pad_pow2 n 12) as [Hd Hr]; [lia..|].
  split; [lia|]. split; [by apply Z.mod_divide|done].
Qed.

(** What may be mapped: a range of pages that ends below the end of its half of the
    addresses, and physical pages. *)
Record map_ok (s : pagemem) (v p length flags : Z) : Prop := {
  map_flags : good_flags encr flags;
  map_v : 0 <= v < 2 ^ 64 /\ v mod 4096 = 0;
  map_length : 0 < length < 2 ^ 48 /\ v mod 2 ^ 48 + pad length PAGESIZE < 2 ^ 48;
  map_p : p mod 4096 = 0 /\ forall x, p <= x < p + pad length PAGESIZE -> x mod 4096 = 0 -> good_page encr x;
  map_blocks : compatible encr 3 (mem s) pagebase (v mod 2 ^ 48) (pad length PAGESIZE) p;
}.

Lemma map_run levelmask initialized s f v p length flags : pt_wf s f -> map_ok s v p length flags ->
  exists ok p' s', map_level encr levelmask initialized 4 flags true PT_FIRST_LEVEL (get_page_flush_entry s) pagebase
      (irangel v (pad length PAGESIZE)) p = Some (ok, p', s') /\
    map encr pagebase levelmask initialized s v p length flags = (if ok then Some s' else None) /\
    if ok : bool then exists u f', mapped encr flags 3 s s' pagebase f (v mod 2 ^ 48) (pad length PAGESIZE) p u f' /\ pt_wf s' f'
    else free_pages s' = [].
Proof.
  intros [Ht Hw Hf] [Hfl [Hv Hv0] [Hlen Hfit] [Hp0 Hgood] Hcomp]. destruct (pad_4096 length Hlen) as (Hl0 & Hl & _).
  set (len := pad length PAGESIZE) in *. set (o := v mod 2 ^ 48) in *. assert (Ho : 0 <= o < 2 ^ 48) by (apply Z.mod_pos_bound; lia).
  assert (Ho' : o mod size 4 = o) by (apply Z.mod_small; done).
  assert (Hoa : o mod 4096 = 0) by (unfold o; Z.to_euclidean_division_equations; lia).
  set (s0 := get_page_flush_entry s).
  destruct (same_alloc encr s s0 eq_refl eq_refl Hw) as [Hw0 Ef0].
  assert (Hpre : map_pre encr 3 s0 pagebase f (o mod size 4) len p).
  { rewrite Ho'. split; [done|done|by rewrite Ef0|change (size 4) with (2 ^ 48); lia|done|done|done]. }
  unfold map, kassert, PAGEMASK, PAGELOG. change 12 with (shift 0). rewrite !land_mask_size by lia. change (size 0) with 4096.
  rewrite Hv0, Hp0. cbn [Z.eqb mbind option_bind]. fold len s0.
  destruct (map_level_ok encr Hencr levelmask initialized flags Hfl 3 true ltac:(lia) s0 pagebase f v len p Hv Hfit Hpre)
    as (ok & p' & s' & E & Hok). change (4 - Z.of_nat 3) with PT_FIRST_LEVEL in E. rewrite E. cbn [mbind option_bind].
  exists ok, p', s'. split; [done|]. split; [done|]. destruct ok; [|done].
  destruct Hok as (_ & u & f' & [[Eu W O I] T Hin Hout]). fold o in Hin, Hout. rewrite Ho' in Hin, Hout. exists u, f'. split.
  - split; [split; [by rewrite <- Ef0|done|done|done]|done|done|done].
  - split; [done|done|by eapply fresh_step with (s := s0) (f := f) (used := u); eauto; rewrite Ef0].
Qed.

(** C7: [map] makes the page tables translate the virtual range to the physical range with
    the attributes asked for, keeps the translation of every other address, and keeps
    the tables well formed; it halts only when the memory for tables is exhausted. *)
Theorem map_translates levelmask initialized s f v p length flags : pt_wf s f -> map_ok s v p length flags ->
  match map encr pagebase levelmask initialized s v p length flags with
  | Some s' =>
      (exists f', pt_wf s' f') /\
      forall x, pt_lookup s' x = (if decide (v mod 2 ^ 48 <= x mod 2 ^ 48 < v mod 2 ^ 48 + pad length PAGESIZE)
                              then Some (p + (x mod 2 ^ 48 - v mod 2 ^ 48), attrs flags) else pt_lookup s x) /\
                __physical_from_virtual_locked encr pagebase (mem s') x = fst <$> pt_lookup s' x
  | None => exists p' s', map_level encr levelmask initialized 4 flags true PT_FIRST_LEVEL (get_page_flush_entry s) pagebase
                           (irangel v (pad length PAGESIZE)) p = Some (false, p', s') /\ free_pages s' = []
  end.
Proof.
  intros Hwf Hok. destruct (map_run levelmask initialized s f v p length flags Hwf Hok) as (ok & p' & s' & E & -> & Hs').
  destruct ok; [|by eauto]. destruct Hs' as (u & f' & [_ _ Hin Hout] & Hwf').
  split; [eauto|]. intros x. split; [|by apply physical_from_virtual_lookup with f'].
  unfold pt_lookup. rewrite <- translate_mod, <- (translate_mod encr 3 (mem s)). change (size 4) with (2 ^ 48) in *.
  assert (0 <= x mod 2 ^ 48 < 2 ^ 48) by (apply Z.mod_pos_bound; lia). case_decide; [by apply Hin|by apply Hout].
Qed.
End Top.

(** ** A machine without encrypted memory *)

Lemma good_page_0 x : 0 <= x < 2 ^ 52 -> x mod 4096 = 0 -> good_page 0 x.
Proof.
  intros Hx Hx0. unfold good_page. apply Z.bits_inj'. intros i Hi. unfold page_from_pte, PAGEMASK, PAGELOG.
  rewrite !Z.land_spec, !not64_spec, !MASK_spec, Z.bits_0 by lia.
  destruct (Z.ltb_spec i 52).
  - destruct (Z.ltb_spec i 64); [|lia]. destruct (Z.ltb_spec i 12); [|by rewrite !andb_true_r].
    change 4096 with (2 ^ 12) in Hx0. rewrite <- Z.land_ones in Hx0 by lia. apply (f_equal (fun z => Z.testbit z i)) in Hx0.
    rewrite Z.land_spec, Z.testbit_ones, Z.bits_0 in Hx0 by lia. destruct (Z.leb_spec 0 i), (Z.ltb_spec i 12); try lia.
    rewrite andb_true_r in Hx0. by rewrite Hx0.
  - rewrite <- (Z.mod_small x (2 ^ 52)) by lia. by rewrite Z.mod_pow2_bits_high by lia.
Qed.

(** An empty top table at 1 MiB, and the second MiB for tables. *)
Definition boot : pagemem :=
  {| current_phys := irange 0x200000 0x300000; pageheap := []; mem := fun _ => 0; fe_pages := []; fe_flush := false;
     invalidated := []; phys_ranges := []; room := 0; zeroed := [] |}.

Lemma boot_wf : pt_wf 0 0x100000 boot (eq 0x100000).
Proof.
  split.
  - apply zero_table; [|done]. by apply good_page_0.
  - split; [done|done|..].
    + apply (bool_decide_unpack _); by vm_compute.
    + apply Forall_forall. intros x Hx. apply good_page_0; revert x Hx; apply Forall_forall; apply (bool_decide_unpack _); by vm_compute.
  - intros ? <-. apply (bool_decide_unpack _); by vm_compute.
Qed.

(** Two blocks and a page. *)
Lemma boot_map_ok : map_ok 0 0x100000 boot 0xffff800000400000 0x800000 0x401000 PAGE_WRITABLE.
Proof.
  split; [done|by vm_compute|by vm_compute| |].
  - split; [done|]. intros x Hx. change (pad 0x401000 PAGESIZE) with 0x401000 in Hx. apply good_page_0. lia.
  - intros y k e _ Hy. vm_compute in Hy. discriminate Hy.
Qed.

Lemma map_translates_witness :
  exists s', map 0 0x100000 0x18 true boot 0xffff800000400000 0x800000 0x401000 PAGE_WRITABLE = Some s' /\
    pt_lookup 0 0x100000 s' 0xffff800000600123 = Some (0xa00123, 3) /\ pt_lookup 0 0x100000 s' 0xffff800000801000 = None.
Proof.
  pose proof (map_translates 0 eq_refl 0x100000 0x18 true boot _ 0xffff800000400000 0x800000 0x401000 PAGE_WRITABLE boot_wf boot_map_ok) as H.
  destruct (map _ _ _ _ _ _ _ _) as [s'|] eqn:E.
  - exists s'. split; [done|]. destruct H as [_ H]. rewrite !(proj1 (H _)). vm_compute. auto.
  - exfalso. apply (f_equal (fun o : option pagemem => if o is Some _ then true else false)) in E. vm_compute in E. discriminate E.
Defined.

(** The tables then. *)
Definition two_blocks : pagemem :=
  if map 0 0x100000 0x18 true boot 0xffff800000400000 0x800000 0x401000 PAGE_WRITABLE is Some s then s else boot.

Lemma two_blocks_wf : exists f, pt_wf 0 0x100000 two_blocks f.
Proof.
  unfold two_blocks. destruct (map_run 0 eq_refl 0x100000 0x18 true boot _ _ _ _ _ boot_wf boot_map_ok) as (ok & p' & s' & _ & -> & Hok).
  destruct ok; [|eexists; apply boot_wf]. destruct Hok as (u & f' & _ & Hwf). eauto.
Qed.
