(* ===== verification/PageWalk.v ===== *)
(** Walking the page tables: [traverse_ptes] of [kernel/src/kernel/page.c] and what its
    handlers do: [unmap], [update_map_flags] and the validation of addresses.

    A handler changes the translation of the part of a mapping that is in the range by a
    function [g], either at once or after splitting a block into a table that the walk
    then visits.  What is proved of the walk is that the translation of exactly the
    addresses of the range changes by [g], that every mapping that changes was dealt with
    ([Q]: its address is invalidated, its memory collected), and that nothing else was
    collected ([sound]). *)

From stdpp Require Import functions.
From S2P Require Import Prelude Range Words Page PageTable PageMap.

(** When the walk descends. *)
Lemma rec_test d e : (d <= 3)%nat -> pte_is_present e && (4 - Z.of_nat d <? PT_PTE_LEVEL) &&
    ((4 - Z.of_nat d =? PT_FIRST_LEVEL) || negb (pte_is_mapping (4 - Z.of_nat d) e)) = bool_decide (kind d e = Sub).
Proof.
  intros Hd. unfold kind. rewrite is_mapping_spec by done. unfold PT_PTE_LEVEL, PT_FIRST_LEVEL.
  destruct (pte_is_present e), (has e PAGE_PS); by destruct d as [|[|[|[|]]]]; [..|lia].
Qed.

(** One round of the loop, without the bounds of words. *)
Lemma loop_unfold encr q va h rec d t laddr n i s : 0 <= q < 2 ^ 16 -> 0 <= va < 2 ^ 48 -> (d <= 3)%nat -> good_page encr t -> 0 <= laddr -> laddr + size (S d) <= 2 ^ 48 -> 0 <= i < 512 ->
  ptes_loop encr rec h t (4 - Z.of_nat d) (q * 2 ^ 48 + va) laddr (S n) i (i * size d) s =
  '(ok, s) ← ('(ok, s) ← h s (4 - Z.of_nat d) (q * 2 ^ 48 + laddr + i * size d) (pte_at t i);
              if negb ok then Some (false, s) else
              let pte := mem s (pte_at t i) in
              if pte_is_present pte && (4 - Z.of_nat d <? PT_PTE_LEVEL) &&
                 ((4 - Z.of_nat d =? PT_FIRST_LEVEL) || negb (pte_is_mapping (4 - Z.of_nat d) pte))
              then rec s (page_from_pte encr pte) (laddr + i * size d) else Some (true, s));
  if negb ok then Some (false, s) else
  ptes_loop encr rec h t (4 - Z.of_nat d) (q * 2 ^ 48 + va) laddr n (i + 1) ((i + 1) * size d) s.
Proof.
  intros Hq Hva Hd [Ht _]%good_page_range Hl Hls Hi. pose proof (size_pos d). pose proof (shift_range d Hd). pose proof (size_S d).
  cbn [ptes_loop]. rewrite level_shift by done. unfold VIRTUAL_ADDRESS_BITS. rewrite land_not_MASK by lia.
  replace ((q * 2 ^ 48 + va) / 2 ^ 48) with q by (apply Z.div_unique with va; lia).
  rewrite Z.shiftl_mul_pow2 by lia. fold (size d). rewrite U64_FROM_BIT_pow by lia. fold (size d).
  rewrite (u64_small (q * 2 ^ 48 + laddr + i * size d)), (u64_small (t + i * 8)), (u64_small (laddr + i * size d)) by nia.
  rewrite (u64_small (i * size d + size d)) by nia. replace (i * size d + size d) with ((i + 1) * size d) by lia.
  replace (t + i * 8) with (pte_at t i) by (unfold pte_at; lia).
  destruct (h s _ _ _) as [[[] s']|]; [|done|done]. cbn. done.
Qed.

Section Walk.
Context (encr : Z) (Hencr : Z.land encr (MASK 30) = 0).

(** The range, by its address in 48 bits, and the bits above. *)
Context (q va hi : Z) (Hq : 0 <= q < 2 ^ 16) (Hva : 0 <= va < hi) (Hhi : hi <= 2 ^ 48).

Context (h : entry_handler) (g : Z * Z -> option (Z * Z)) (fail : pagemem -> Prop).
Context (Q : pagemem -> nat * Z -> Z -> Prop) (sound : nat * Z -> Z -> range -> Prop).

Definition in_range (x : Z) : Prop := va <= x < hi.

#[local] Instance in_range_dec x : Decision (in_range x).
Proof. unfold in_range. apply _. Defined.

(** The translation at [x] after the walk. *)
Definition target (x : Z) (o : option (Z * Z)) : option (Z * Z) := if decide (in_range x) then o ≫= g else o.

(** Blocks that are partly in the range are of 2 MiB, in the entries [I]. *)
Definition splittable (I : Z -> Prop) (d : nat) (m : Z -> Z) (t laddr : Z) : Prop :=
  forall y k e, 0 <= y < size (S d) -> I (index d y) -> in_range (laddr + y) -> walk encr d m t y = Some (k, e) ->
    (va <= laddr + y - y mod size k /\ laddr + y - y mod size k + size k <= hi) \/ (k <= 1)%nat.

Record walk_pre (I : Z -> Prop) (d : nat) (s : pagemem) (t : Z) (f : Z -> Prop) (laddr : Z) : Prop := {
  wpre_tables : tables encr d (mem s) t f;
  wpre_alloc : alloc_wf encr s;
  wpre_fresh : forall x, f x -> x ∉ free_pages s;
  wpre_laddr : 0 <= laddr /\ laddr mod size (S d) = 0 /\ laddr + size (S d) <= 2 ^ 48;
  wpre_meets : laddr < hi /\ va < laddr + size (S d);
  wpre_split : splittable I d (mem s) t laddr;
}.

Record walked (d : nat) (s s' : pagemem) (t : Z) (f : Z -> Prop) (laddr : Z) (used : list Z) (f' : Z -> Prop) : Prop := {
  walked_ext : extends encr s s' f f' used;
  walked_tables : tables encr d (mem s') t f';
  walked_to : forall y, 0 <= y < size (S d) -> translate encr d (mem s') t y = target (laddr + y) (translate encr d (mem s) t y);
  walked_Q : forall y l, 0 <= y < size (S d) -> in_range (laddr + y) -> walk encr d (mem s) t y = Some l -> Q s' l (laddr + y);
  walked_mono : forall l x, Q s l x -> Q s' l x;
  walked_sound : forall r, r ∈ phys_ranges s' -> r ∈ phys_ranges s \/
    exists y l, 0 <= y < size (S d) /\ in_range (laddr + y) /\ walk encr d (mem s) t y = Some l /\ sound l (laddr + y) r;
}.

Definition walk_post (d : nat) (s : pagemem) (t : Z) (f : Z -> Prop) (laddr : Z) (r : option (bool * pagemem)) : Prop :=
  exists ok s', r = Some (ok, s') /\ if ok : bool then exists used f', walked d s s' t f laddr used f' else fail s'.

(** What a handler does to a mapping: entry [i], which maps the addresses from [laddr + i * size d]. *)
Record handled (d : nat) (s s' : pagemem) (t : Z) (f : Z -> Prop) (laddr i : Z) (used : list Z) (f' : Z -> Prop) : Prop := {
  handled_change : entry_changed encr d s t f i s' used f';
  handled_out : forall y, 0 <= y < size (S d) -> index d y = i -> ~ in_range (laddr + y) ->
    translate encr d (mem s') t y = translate encr d (mem s) t y;
  handled_in : forall y, 0 <= y < size (S d) -> index d y = i -> in_range (laddr + y) ->
    translate encr d (mem s') t y = translate encr d (mem s) t y ≫= g \/
    (kind d (mem s' (pte_at t i)) = Sub /\ translate encr d (mem s') t y = translate encr d (mem s) t y);
  handled_Q : forall y, 0 <= y < size (S d) -> index d y = i -> in_range (laddr + y) -> Q s' (d, mem s (pte_at t i)) (laddr + y);
  handled_mono : forall l x, Q s l x -> Q s' l x;
  handled_sound : forall r, r ∈ phys_ranges s' -> r ∈ phys_ranges s \/
    exists y, 0 <= y < size (S d) /\ index d y = i /\ in_range (laddr + y) /\ sound (d, mem s (pte_at t i)) (laddr + y) r;
  handled_split : kind d (mem s' (pte_at t i)) = Sub -> (d <= 1)%nat /\
    forall y l r, 0 <= y < size (S d) -> index d y = i -> in_range (laddr + y) -> walk encr d (mem s') t y = Some l -> ~ sound l (laddr + y) r;
}.

Hypothesis g_idempotent : forall x, g x ≫= g = g x.
Hypothesis handler_other : forall s level addr entry, pte_is_present (mem s entry) && pte_is_mapping level (mem s entry) = false ->
  h s level addr entry = Some (true, s).
Hypothesis handler_leaf : forall d s t f laddr i, (d <= 3)%nat -> walk_pre (eq i) d s t f laddr -> 0 <= i < 512 ->
  laddr + i * size d < hi -> va < laddr + (i + 1) * size d -> kind d (mem s (pte_at t i)) = Leaf ->
  exists ok s', h s (4 - Z.of_nat d) (q * 2 ^ 48 + laddr + i * size d) (pte_at t i) = Some (ok, s') /\
    if ok : bool then exists used f', handled d s s' t f laddr i used f' else fail s'.

(** *** Some of the entries *)

Record iwalked (d : nat) (s s' : pagemem) (t : Z) (f : Z -> Prop) (laddr : Z) (I : Z -> Prop) (used : list Z) (f' : Z -> Prop) : Prop := {
  iw_ext : extends encr s s' f f' used;
  iw_tables : tables encr d (mem s') t f';
  iw_same : forall y, ~ I (index d y) -> walk encr d (mem s') t y = walk encr d (mem s) t y;
  iw_to : forall y, 0 <= y < size (S d) -> I (index d y) ->
    translate encr d (mem s') t y = target (laddr + y) (translate encr d (mem s) t y);
  iw_Q : forall y l, 0 <= y < size (S d) -> I (index d y) -> in_range (laddr + y) -> walk encr d (mem s) t y = Some l -> Q s' l (laddr + y);
  iw_mono : forall l x, Q s l x -> Q s' l x;
  iw_sound : forall r, r ∈ phys_ranges s' -> r ∈ phys_ranges s \/
    exists y l, 0 <= y < size (S d) /\ I (index d y) /\ in_range (laddr + y) /\ walk encr d (mem s) t y = Some l /\ sound l (laddr + y) r;
}.

Lemma extends_refl s f : alloc_wf encr s -> extends encr s s f f [].
Proof. intros Hw. split; [done|done|by intros ?|auto]. Qed.

Lemma iwalked_none d s t f laddr : tables encr d (mem s) t f -> alloc_wf encr s -> iwalked d s s t f laddr (fun _ => False) [] f.
Proof. intros Ht Hw. split; auto using extends_refl; done. Qed.

Lemma iwalked_app d s s1 s2 t f f1 f2 laddr I1 I2 (I : Z -> Prop) u1 u2 : (forall i, I1 i -> ~ I2 i) -> (forall i, I i <-> I1 i \/ I2 i) ->
  (forall i, Decision (I1 i)) ->
  iwalked d s s1 t f laddr I1 u1 f1 -> iwalked d s1 s2 t f1 laddr I2 u2 f2 -> iwalked d s s2 t f laddr I (u1 ++ u2) f2.
Proof.
  intros Hdis HI HD [X1 T1 S1 M1 Q1 N1 D1] [X2 T2 S2 M2 Q2 N2 D2].
  assert (Htr : forall m m' y, walk encr d m' t y = walk encr d m t y -> translate encr d m' t y = translate encr d m t y)
    by (intros m m' y E; unfold translate; by rewrite E).
  split; [by eapply extends_trans|done|..].
  - intros y Hn. rewrite HI in Hn. rewrite S2, S1 by tauto. done.
  - intros y Hy [H1|H2]%HI.
    + rewrite (Htr _ _ _ (S2 y (Hdis _ H1))). auto.
    + rewrite M2 by done. f_equal. apply Htr, S1. intros H1. by apply (Hdis _ H1).
  - intros y l Hy [H1|H2]%HI Hin Hl; [by eapply N2, Q1|]. apply Q2; [done..|]. rewrite S1; [done|]. intros H1. by apply (Hdis _ H1).
  - auto.
  - intros r [[Hr|(y & l & ? & ? & ?)]%D1|(y & l & Hy & Hi & Hin & Hl & Hs)]%D2; [by left|right; exists y, l; rewrite HI; tauto|].
    right. exists y, l. rewrite HI. rewrite S1 in Hl; [tauto|]. intros H1. by apply (Hdis _ H1).
Qed.

(** *** One entry *)

Section Entry.
Context (d : nat) (Hd : (d <= 3)%nat) (rec : pagemem -> Z -> Z -> option (bool * pagemem)).
Hypothesis Hrec : forall d', d = S d' -> forall s1 t1 f1 laddr1, walk_pre (fun _ => True) d' s1 t1 f1 laddr1 ->
  walk_post d' s1 t1 f1 laddr1 (rec s1 t1 laddr1).
Context (t laddr i : Z) (Hi : 0 <= i < 512).
Context (Hmeet : laddr + i * size d < hi /\ va < laddr + (i + 1) * size d).

(** Descending from the entry. *)
Lemma sub_walked s f : walk_pre (eq i) d s t f laddr -> kind d (mem s (pte_at t i)) = Sub ->
  exists ok s', rec s (page_from_pte encr (mem s (pte_at t i))) (laddr + i * size d) = Some (ok, s') /\
    if ok : bool then exists used f', iwalked d s s' t f laddr (eq i) used f' else fail s'.
Proof.
  intros [Ht Hw Hf (Hl0 & Hl & Hls) Hm Hsp] Hk. pose proof Ht as [F HF]%tables_node. pose proof HF as (Htg & Hff & Hn & _ & HFi).
  specialize (HFi i Hi). unfold entry_tables in HFi. rewrite Hk in HFi. destruct (kind_Sub_depth _ _ Hk) as [d' Ed]. rewrite Ed in HFi.
  pose proof (size_pos d) as Hsz. set (t1 := page_from_pte encr _) in *.
  assert (Hy : forall y, 0 <= y < size d -> 0 <= i * size d + y < size (S d) /\ index d (i * size d + y) = i).
  { intros y Hy. split; [rewrite size_S; nia|]. rewrite index_small by (rewrite size_S; nia). apply div_entry. lia. }
  assert (Hsub : forall m y, 0 <= y < size d -> m (pte_at t i) = mem s (pte_at t i) ->
    walk encr d m t (i * size d + y) = walk encr d' m t1 y).
  { intros m y Hyr Em. destruct (Hy y Hyr) as [_ Ei]. rewrite walk_entry, Ei, Em. unfold entry_walk. rewrite Hk, Ed. fold t1.
    rewrite <- walk_mod, <- Ed. f_equal. symmetry. apply Z.mod_unique with i; lia. }
  assert (Hpre : walk_pre (fun _ => True) d' s t1 (F i) (laddr + i * size d)).
  { split; [done|done| | | |].
    - intros x Hx. apply Hf, Hff. eauto.
    - rewrite <- Ed. split; [nia|]. split; [|rewrite size_S in Hls; nia].
      rewrite Z.mod_add by lia. rewrite <- (mod_size_mod d (S d)), Hl by lia. apply Z.mod_0_l. lia.
    - rewrite <- Ed. lia.
    - intros y k e Hyr _ Hin Hwk. rewrite <- Ed in Hyr. destruct (Hy y Hyr) as [Hyr' Ei].
      destruct (walk_depth _ _ _ _ _ _ _ Hwk) as [Hkd _].
      destruct (Hsp (i * size d + y) k e Hyr') as [Hb|?]; [done|by rewrite Z.add_assoc|by rewrite Hsub| |by right].
      left. pose proof (size_pos k). replace ((i * size d + y) mod size k) with (y mod size k) in Hb; [lia|].
      rewrite Z.add_comm, <- (mod_size_mod k d (y + _)), Z.mod_add, mod_size_mod by lia. done. }
  destruct (Hrec d' Ed _ _ _ _ Hpre) as (ok & s' & -> & Hok). exists ok, s'. split; [done|]. destruct ok; [|done].
  destruct Hok as (u & f2 & [X T M1 Q1 N1 D1]). exists u.
  assert (Hent : mem s' (pte_at t i) = mem s (pte_at t i)).
  { apply (ext_only _ _ _ _ _ _ X); [done| |done]. intros [?|Hu]; [by apply (Hn i)|].
    apply (Hf t); [apply Hff; by left|]. rewrite (ext_free _ _ _ _ _ _ X). set_solver. }
  destruct (sub_changed encr Hencr d s t f F i HF Hw Hf Hi d' s t1 (F i) [] s' u f2 s') as [(f' & X' & T' & Hsame) Hwk];
    [done|done|done|by left|done|done|by rewrite Hent|by rewrite Hent|done|done|done|]. exists f'. cbn [app] in X'.
  assert (Hdec : forall y, 0 <= y < size (S d) -> i = index d y -> exists y', y = i * size d + y' /\ 0 <= y' < size d /\ 0 <= y' < size (S d')).
  { intros y Hyr Ei. exists (y - i * size d). rewrite index_small in Ei by done. symmetry in Ei. apply div_entry in Ei. rewrite <- Ed. lia. }
  split; [done|done|naive_solver| | |done|].
  - intros y Hyr Ei. destruct (Hdec y Hyr Ei) as (y' & -> & Hy' & Hy''). rewrite Z.add_assoc.
    unfold translate. rewrite !Hsub by done. specialize (M1 y' Hy''). unfold translate in M1.
    assert (Hme : forall o, (forall l, o = Some l -> (l.1 <= d')%nat) -> meaning encr (i * size d + y') <$> o = meaning encr y' <$> o).
    { intros [l|] Ho; [|done]. simpl. f_equal. rewrite <- (meaning_mod encr _ d), <- (meaning_mod encr y' d) by (specialize (Ho l eq_refl); lia).
      f_equal. rewrite Z.add_comm. apply Z.mod_add. lia. }
    rewrite !Hme; [done|intros [k e] E; apply walk_depth in E as [? _]; done..].
  - intros y l Hyr Ei Hin Hl'. destruct (Hdec y Hyr Ei) as (y' & -> & Hy' & Hy''). rewrite Z.add_assoc in *.
    apply Q1; [done|done|]. by rewrite Hsub in Hl'.
  - intros r [?|(y & l & Hyr & Hin & Hl' & Hs)]%D1; [by left|right]. rewrite <- Ed in Hyr. destruct (Hy y Hyr) as [Hyr' Ei].
    exists (i * size d + y), l. rewrite Hsub by done. rewrite Z.add_assoc. done.
Qed.

(** What the handler does, as far as it goes. *)
Lemma handled_walked s s' f u f' : handled d s s' t f laddr i u f' -> kind d (mem s (pte_at t i)) = Leaf ->
  kind d (mem s' (pte_at t i)) <> Sub -> iwalked d s s' t f laddr (eq i) u f'.
Proof.
  intros [(X & T & Hsame) Hout Hin HQ Hmono Hs _] Hk Hk'.
  assert (Hwi : forall y, i = index d y -> walk encr d (mem s) t y = Some (d, mem s (pte_at t i))).
  { intros y Ei. rewrite walk_entry, <- Ei. unfold entry_walk. by rewrite Hk. }
  split; [done|done|naive_solver| | |done|].
  - intros y Hy Ei. unfold target. case_decide as Hr; [|by apply Hout]. by destruct (Hin y) as [|[? _]].
  - intros y l Hy Ei Hr Hl. rewrite Hwi in Hl by done. injection Hl as <-. by apply HQ.
  - intros r [|(y & Hy & Ei & Hr & ?)]%Hs; [by left|right]. exists y, (d, mem s (pte_at t i)). rewrite Hwi by done. done.
Qed.

Lemma handled_sub s s1 s2 f u1 f1 u2 f2 : handled d s s1 t f laddr i u1 f1 -> kind d (mem s (pte_at t i)) = Leaf ->
  kind d (mem s1 (pte_at t i)) = Sub -> iwalked d s1 s2 t f1 laddr (eq i) u2 f2 -> iwalked d s s2 t f laddr (eq i) (u1 ++ u2) f2.
Proof.
  intros [(X1 & T1 & Hsame) Hout Hin HQ Hmono Hs Hsplit] Hk Hk1 [X2 T2 S2 M2 Q2 N2 D2]. destruct (Hsplit Hk1) as [_ Hnone].
  assert (Hwi : forall y, i = index d y -> walk encr d (mem s) t y = Some (d, mem s (pte_at t i))).
  { intros y Ei. rewrite walk_entry, <- Ei. unfold entry_walk. by rewrite Hk. }
  split; [by eapply extends_trans|done| | | |auto|].
  - intros y Hn. rewrite S2, Hsame by naive_solver. done.
  - intros y Hy Ei. rewrite M2 by done. unfold target. case_decide as Hr; [|by apply Hout].
    destruct (Hin y) as [->|[_ ->]]; [done..| |done]. destruct (translate _ _ _ _ _); simpl; [apply g_idempotent|done].
  - intros y l Hy Ei Hr Hl. rewrite Hwi in Hl by done. injection Hl as <-. apply N2. by apply HQ.
  - intros r [Hr|(y & l & Hy & Ei & Hr & Hl & Hso)]%D2; [|by destruct (Hnone y l r)].
    apply Hs in Hr as [|(y & Hy & Ei & Hr & ?)]; [by left|right]. exists y, (d, mem s (pte_at t i)). rewrite Hwi by done. done.
Qed.

Lemma extends_pre I I1 s s1 f u f1 : walk_pre I d s t f laddr -> extends encr s s1 f f1 u -> tables encr d (mem s1) t f1 ->
  splittable I1 d (mem s1) t laddr -> walk_pre I1 d s1 t f1 laddr.
Proof.
  intros [Ht Hw Hf Hl Hm Hsp] [E W O X] T Hs. split; [done|done| |done|done|done].
  eapply fresh_step with (s := s) (used := u); eauto.
Qed.

Lemma entry_step s f : walk_pre (eq i) d s t f laddr ->
  exists ok s', ('(ok, s) ← h s (4 - Z.of_nat d) (q * 2 ^ 48 + laddr + i * size d) (pte_at t i);
                 if negb ok then Some (false, s) else
                 let pte := mem s (pte_at t i) in
                 if pte_is_present pte && (4 - Z.of_nat d <? PT_PTE_LEVEL) &&
                    ((4 - Z.of_nat d =? PT_FIRST_LEVEL) || negb (pte_is_mapping (4 - Z.of_nat d) pte))
                 then rec s (page_from_pte encr pte) (laddr + i * size d) else Some (true, s)) = Some (ok, s') /\
    if ok : bool then exists used f', iwalked d s s' t f laddr (eq i) used f' else fail s'.
Proof.
  intros Hpre. pose proof Hpre as [Ht Hw Hf Hl Hm Hsp]. pose proof (kind_tests d (mem s (pte_at t i))) as Hk.
  destruct (kind d _) eqn:Ek.
  - rewrite handler_other by (by rewrite Hk). cbn. rewrite rec_test, bool_decide_false by (done || congruence).
    eexists true, _. split; [done|]. exists [], f.
    assert (Hwi : forall y, i = index d y -> walk encr d (mem s) t y = None).
    { intros y Ei. rewrite walk_entry, <- Ei. unfold entry_walk. by rewrite Ek. }
    split; [by apply extends_refl|done|done| | |done|by left].
    + intros y Hy Ei. unfold target, translate. rewrite Hwi by done. by case_decide.
    + intros y l Hy Ei _. by rewrite Hwi.
  - destruct (handler_leaf d s t f laddr i Hd Hpre Hi) as (ok & s1 & -> & Hok); [lia..|done|]. cbn.
    destruct ok; [|by exists false, s1]. cbn. destruct Hok as (u & f1 & Hh). rewrite rec_test by done. case_bool_decide as Hk1.
    + destruct (handled_split _ _ _ _ _ _ _ _ _ Hh Hk1) as [Hd1 _]. destruct (handled_change _ _ _ _ _ _ _ _ _ Hh) as (X1 & T1 & Hsame).
      destruct (sub_walked s1 f1) as (ok & s2 & -> & Hok); [|done|].
      * eapply extends_pre; [done..|]. intros y k e Hy _ Hin [Hkd _]%walk_depth. right. lia.
      * exists ok, s2. split; [done|]. destruct ok; [|done]. destruct Hok as (u2 & f2 & Hiw). eauto using handled_sub.
    + eexists true, _. split; [done|]. eauto using handled_walked.
  - rewrite handler_other by (by destruct Hk as [-> ->]). cbn. rewrite rec_test, bool_decide_true by done. by apply sub_walked.
Qed.
End Entry.

(** *** The loop and the levels *)

Section Loop.
Context (d : nat) (Hd : (d <= 3)%nat) (rec : pagemem -> Z -> Z -> option (bool * pagemem)).
Hypothesis Hrec : forall d', d = S d' -> forall s1 t1 f1 laddr1, walk_pre (fun _ => True) d' s1 t1 f1 laddr1 ->
  walk_post d' s1 t1 f1 laddr1 (rec s1 t1 laddr1).

Lemma loop_ok t laddr n : forall s f i, walk_pre (fun j => i <= j) d s t f laddr -> 0 <= i -> i + Z.of_nat n <= 512 ->
  (forall j, i <= j < i + Z.of_nat n -> laddr + j * size d < hi /\ va < laddr + (j + 1) * size d) ->
  exists ok s', ptes_loop encr rec h t (4 - Z.of_nat d) (q * 2 ^ 48 + va) laddr n i (i * size d) s = Some (ok, s') /\
    if ok : bool then exists used f', iwalked d s s' t f laddr (fun j => i <= j < i + Z.of_nat n) used f' else fail s'.
Proof.
  induction n as [|n IH]; intros s f i Hpre Hi Hn Hmeet; pose proof Hpre as [Ht Hw Hf (Hl0 & Hl & Hls) Hm Hsp].
  - eexists true, s. split; [done|]. exists [], f. destruct (iwalked_none d s t f laddr Ht Hw) as [X T S' M' Q' N' D'].
    split; [done|done|done|intros; lia|intros; lia|done|by left].
  - pose proof Ht as (F & Hg & _)%tables_node. rewrite loop_unfold by (done || lia).
    destruct (entry_step d Hd rec Hrec t laddr i ltac:(lia) (Hmeet i ltac:(lia)) s f) as (ok & s1 & -> & Hok).
    { split; try done. intros y k e Hy Ei. apply Hsp; [done|lia]. }
    cbn.
    destruct ok; [|by exists false, s1]. cbn. destruct Hok as (u1 & f1 & H1).
    destruct (IH s1 f1 (i + 1)) as (ok & s2 & -> & Hok); [|lia|lia|intros; apply Hmeet; lia|].
    + eapply extends_pre; [done|by eapply iw_ext|by eapply iw_tables|]. intros y k e Hy Hj Hin Hwk.
      rewrite (iw_same _ _ _ _ _ _ _ _ _ H1) in Hwk by lia. apply (Hsp y k e); [done|lia|done|done].
    + exists ok, s2. split; [done|]. destruct ok; [|done]. destruct Hok as (u2 & f2 & H2). exists (u1 ++ u2), f2.
      eapply iwalked_app; [..|exact H1|exact H2]; [intros ? <-; lia|intros; lia|apply _].
Qed.
End Loop.

(** The entries from [start_idx] to [end_idx] are those that meet the range. *)
Lemma index_bounds d laddr : (d <= 3)%nat -> 0 <= laddr -> laddr < hi -> va < laddr + size (S d) ->
  let start_idx := if laddr <? va then Z.shiftr (va - laddr) (shift d) else 0 in
  let end_idx := Z.min (Z.shiftr (pad (u64 (va + (hi - va) - laddr)) (U64_FROM_BIT (shift d))) (shift d)) PTE_ENTRIES in
  0 <= start_idx < end_idx /\ end_idx <= 512 /\
  (forall j, 0 <= j < 512 -> start_idx <= j < end_idx <-> laddr + j * size d < hi /\ va < laddr + (j + 1) * size d) /\
  forall y, 0 <= y < size (S d) -> in_range (laddr + y) -> start_idx <= index d y < end_idx.
Proof.
  intros Hd Hl0 Hl Hv. pose proof (size_pos d). pose proof (shift_range d Hd). pose proof (size_S d). change PTE_ENTRIES with 512.
  rewrite U64_FROM_BIT_pow, u64_small, !Z.shiftr_div_pow2 by lia. fold (size d).
  destruct (pad_pow2 (va + (hi - va) - laddr) (shift d)) as [[k Hk] Hb]; [lia..|]. fold (size d) in *. rewrite Hk in *.
  rewrite Z.div_mul by lia. cbn zeta. set (a := if laddr <? va then _ else 0).
  assert (Ha : 0 <= a < 512 /\ forall j, 0 <= j -> a <= j <-> va < laddr + (j + 1) * size d).
  { unfold a. destruct (Z.ltb_spec laddr va).
    - pose proof (Z.div_mod (va - laddr) (size d)). pose proof (Z.mod_pos_bound (va - laddr) (size d)). split; [nia|]. intros j Hj. split; nia.
    - split; [lia|]. intros j Hj. nia. }
  assert (Hkj : forall j, j < k <-> laddr + j * size d < hi) by (intros j; split; nia).
  destruct Ha as [Ha Hja].
  assert (a < k).
  { apply Hkj. destruct (decide (a = 0)) as [->|]; [lia|]. pose proof (proj1 (Hkj (a - 1))). 
    assert (~ (a <= a - 1)) by lia. rewrite Hja in * by lia. nia. }
  assert (Hj : forall j, 0 <= j < 512 -> a <= j < Z.min k 512 <-> laddr + j * size d < hi /\ va < laddr + (j + 1) * size d).
  { intros j Hj. rewrite <- Hja, <- Hkj by lia. lia. }
  split; [lia|]. split; [lia|]. split; [done|]. intros y Hy Hin. apply Hj; [apply index_range|].
  rewrite index_small by done. pose proof (proj2 (div_entry d y (y / size d)) eq_refl). unfold in_range in Hin. lia.
Qed.

Lemma walk_level_step d fuel : (d <= 3)%nat ->
  (forall d', d = S d' -> forall s1 t1 f1 laddr1, walk_pre (fun _ => True) d' s1 t1 f1 laddr1 -> walk_post d' s1 t1 f1 laddr1
     (recurse_ptes encr fuel h s1 t1 (4 - Z.of_nat d + 1) (q * 2 ^ 48 + va) (hi - va) laddr1)) ->
  forall s t f laddr, walk_pre (fun _ => True) d s t f laddr ->
    walk_post d s t f laddr (recurse_ptes encr (S fuel) h s t (4 - Z.of_nat d) (q * 2 ^ 48 + va) (hi - va) laddr).
Proof.
  intros Hd Hrec s t f laddr Hpre. pose proof Hpre as [Ht Hw Hf (Hl0 & Hl & Hls) [Hm1 Hm2] Hsp].
  destruct (index_bounds d laddr Hd Hl0 Hm1 Hm2) as (Hse & He & Hj & HI). cbn [recurse_ptes]. rewrite level_shift, land_MASK48 by done.
  replace ((q * 2 ^ 48 + va) mod 2 ^ 48) with va by (apply Z.mod_unique with q; lia).
  set (si := if laddr <? va then _ else 0) in *. set (ei := Z.min _ _) in *. change PTE_ENTRIES with 512.
  unfold kassert. destruct (Z.leb_spec si 512), (Z.leb_spec ei 512); try lia. cbn [mbind option_bind].
  pose proof (size_pos d). pose proof (shift_range d Hd). pose proof (size_S d).
  rewrite Z.shiftl_mul_pow2 by lia. fold (size d). rewrite (u64_small (si * size d)) by nia.
  destruct (loop_ok d Hd _ Hrec t laddr (Z.to_nat (ei - si)) s f si) as (ok & s' & -> & Hok).
  { split; try done. intros y k e Hy _. by apply Hsp. }
  { lia. } { lia. } { intros j Hjr. apply Hj; lia. }
  exists ok, s'. split; [done|]. destruct ok; [|done]. destruct Hok as (u & f' & [X T S' M' Q' N' D']). exists u, f'.
  rewrite Z2Nat.id, Zplus_minus in * by lia.
  split; [done|done| |auto|done|].
  - intros y Hy. destruct (decide (si <= index d y < ei)) as [Hi|Hi]; [by apply M'|].
    unfold target. rewrite decide_False by (intros Hin; by apply Hi, HI). unfold translate. by rewrite S'.
  - intros r [|(y & l & ? & ? & ? & ?)]%D'; [by left|]. right. by exists y, l.
Qed.

Lemma walk_level_ok d : (d <= 3)%nat -> forall s t f laddr, walk_pre (fun _ => True) d s t f laddr ->
  walk_post d s t f laddr (recurse_ptes encr (S d) h s t (4 - Z.of_nat d) (q * 2 ^ 48 + va) (hi - va) laddr).
Proof.
  induction d as [|d IH]; intros Hd; (apply walk_level_step; [lia|]); intros d' [= <-].
  replace (4 - Z.of_nat (S d) + 1) with (4 - Z.of_nat d) by lia. apply IH. lia.
Qed.
End Walk.

(** ** Handlers *)

Lemma div_add_small d x y : x mod size d = 0 -> 0 <= y < size d -> (x + y) / size d = x / size d.
Proof.
  intros Hx Hy. apply Z.mod_divide in Hx as [z ->]; [|lia]. by rewrite Z.add_comm, Z.div_add, Z.div_mul, Z.div_small by lia.
Qed.

Lemma size_mod_4096 d x : x mod size d = 0 -> x mod 4096 = 0.
Proof.
  intros Hx. pose proof (size_pos d). apply Z.mod_divide in Hx as [z ->]; [|lia]. by rewrite Z.mul_mod, size_mod, Z.mul_0_r by lia.
Qed.

Section Handlers.
Context (encr : Z) (Hencr : Z.land encr (MASK 30) = 0) (initialized : bool).

(** The translation of [x] by a mapping of depth [k] is invalidated. *)
Definition covered (s : pagemem) (k : nat) (x : Z) : Prop :=
  if initialized then fe_flush s = true \/ exists a, a ∈ fe_pages s /\ a mod 2 ^ 48 / size k = x / size k
  else exists a, a ∈ invalidated s /\ a mod 2 ^ 48 / size k = x / size k.

Lemma page_invalidate_same s a : let s' := page_invalidate initialized true s a in
  mem s' = mem s /\ current_phys s' = current_phys s /\ pageheap s' = pageheap s /\ phys_ranges s' = phys_ranges s /\ room s' = room s.
Proof. unfold page_invalidate. by repeat case_match. Qed.

Lemma page_invalidate_mono s a k x : covered s k x -> covered (page_invalidate initialized true s a) k x.
Proof.
  unfold covered, page_invalidate. destruct initialized; cbn [andb].
  - destruct (fe_flush s) eqn:E; cbn; [by left|]. intros [?|(b & Hb & ?)]; [done|]. right. exists b. set_solver.
  - cbn. intros (b & Hb & ?). exists b. set_solver.
Qed.

Lemma page_invalidate_covers s a k x : a mod 2 ^ 48 / size k = x / size k -> covered (page_invalidate initialized true s a) k x.
Proof.
  intros Ha. unfold covered, page_invalidate. destruct initialized; cbn [andb].
  - destruct (fe_flush s) eqn:E; cbn; [by left|]. right. exists a. set_solver.
  - cbn. exists a. set_solver.
Qed.

Lemma covered_same s s' k x : fe_pages s' = fe_pages s -> fe_flush s' = fe_flush s -> invalidated s' = invalidated s ->
  covered s k x -> covered s' k x.
Proof. unfold covered. by intros -> -> ->. Qed.

Lemma entry_changed_same d s t f i s1 s2 u f' : mem s2 = mem s1 -> current_phys s2 = current_phys s1 -> pageheap s2 = pageheap s1 ->
  entry_changed encr d s t f i s1 u f' -> entry_changed encr d s t f i s2 u f'.
Proof.
  intros Em E1 E2 ([Ef Hw Ho Hi] & T & Hsame). destruct (same_alloc encr s1 s2 E1 E2 Hw) as [Hw2 Ef2].
  unfold entry_changed. rewrite Em. split; [|done]. split; [by rewrite Ef2|done|by rewrite Em|done].
Qed.

(** Splitting a mapping of 2 MiB, but for a gap. *)
Lemma split_changed s t f F i gap : node encr 1 (mem s) t f F -> alloc_wf encr s -> (forall x, f x -> x ∉ free_pages s) -> 0 <= i < 512 ->
  kind 1 (mem s (pte_at t i)) = Leaf -> 0 <= start gap <= 512 -> 0 <= end_ gap ->
  (pte_split encr s (pte_at t i) gap = None /\ free_pages s = []) \/
  exists w s', pte_split encr s (pte_at t i) gap = Some (w, s') /\ same_but_alloc s s' /\
    kind 1 (mem s' (pte_at t i)) = Sub /\ (exists u f', entry_changed encr 1 s t f i s' u f') /\
    forall y, index 1 y = i -> walk encr 1 (mem s') t y =
      if (start gap <=? index 0 y) && (index 0 y <? end_ gap) then None else Some (0%nat, split_pte encr (mem s (pte_at t i)) (index 0 y)).
Proof.
  intros HF Hw Hf Hi Hk Hg Hg'. pose proof HF as (Htg & Hff & Hn & _ & HFi). specialize (HFi i Hi). unfold entry_tables in HFi.
  rewrite Hk in HFi. destruct HFi as [Hal _]. assert (Htf : t ∉ free_pages s) by (apply Hf, Hff; by left).
  destruct (pte_split_spec encr Hencr s t i gap Hw Htg Hi Htf Hk Hal Hg Hg') as
    [?|(np & s' & E & Ef & Hw' & Hsame & Hnp & Hent & Hoth & Htab & Hwk)]; [by left|right].
  exists (new_level_pte encr np), s'. split; [done|]. split; [done|]. rewrite Hent. split; [by apply kind_new_level; [|lia|]|].
  unfold entry_tables in Htab. unfold entry_walk in Hwk. rewrite kind_new_level, page_of_new_level in Htab, Hwk by (done || lia).
  destruct (sub_changed encr Hencr 1 s t f F i HF Hw Hf Hi 0 s' np (eq np) [np] s' [] (eq np) s') as [(f' & Hc) Hwi]; [done|done| |set_solver|..].
  { intros x j Hx Hj Hne Hne'. apply Hoth; [done..| |done]. set_solver. }
  { by apply extends_refl. } { done. } { by rewrite Hent; apply kind_new_level; [|lia|]. } { rewrite Hent. by apply page_of_new_level. }
  { done. } { done. } { done. }
  split; [eauto|]. intros y Hy. by rewrite Hwi, Hwk.
Qed.

(** *** The part of a mapping that is in the range *)

Context (q va hi : Z) (Hq : 0 <= q < 2 ^ 16) (Hva : 0 <= va < hi) (Hhi : hi <= 2 ^ 48) (Hva0 : va mod 4096 = 0) (Hhi0 : hi mod 4096 = 0).

Section Leaf.
Context (d : nat) (Hd : (d <= 3)%nat) (s : pagemem) (t : Z) (f : Z -> Prop) (laddr i : Z).
Context (Hpre : walk_pre encr va hi (eq i) d s t f laddr) (Hi : 0 <= i < 512).
Context (Hm1 : laddr + i * size d < hi) (Hm2 : va < laddr + (i + 1) * size d) (Hk : kind d (mem s (pte_at t i)) = Leaf).

Let base := laddr + i * size d.
Let lo := Z.max base va.
Let up := Z.min (base + size d) hi.

Lemma base_range : 0 <= base /\ base + size d <= 2 ^ 48 /\ base mod size d = 0.
Proof.
  destruct Hpre as [_ _ _ (Hl0 & Hl & Hls) _ _]. pose proof (size_pos d). pose proof (size_S d). unfold base.
  split; [nia|]. split; [nia|]. rewrite Z.mod_add by lia. rewrite <- (mod_size_mod d (S d)), Hl by lia. apply Z.mod_0_l. lia.
Qed.

#[local] Ltac leaf_lia := pose proof (size_pos d); unfold lo, up, base in *; lia.

Lemma offsets_spec : map_offsets (q * 2 ^ 48 + laddr + i * size d) (q * 2 ^ 48 + va) = (lo - base, lo - va) /\
  Z.min (u64 (size d - (lo - base))) (u64 (hi - va - (lo - va))) = up - lo.
Proof.
  pose proof base_range as (Hb0 & Hbs & _). unfold map_offsets. rewrite <- Z.add_assoc. fold base.
  split; [|rewrite !u64_small by leaf_lia; leaf_lia].
  destruct (Z.leb_spec (q * 2 ^ 48 + va) (q * 2 ^ 48 + base)); rewrite u64_small by leaf_lia; f_equal; leaf_lia.
Qed.

(** The offsets of the entry. *)
Lemma leaf_offset y : 0 <= y < size (S d) -> index d y = i -> laddr + y = base + y mod size d /\ 0 <= y mod size d < size d.
Proof.
  intros Hy Ei. pose proof (size_pos d). pose proof (Z.mod_pos_bound y (size d)). rewrite index_small in Ei by done.
  pose proof (Z.div_mod y (size d)). unfold base. leaf_lia.
Qed.

Lemma leaf_at z : 0 <= z < size d -> 0 <= i * size d + z < size (S d) /\ index d (i * size d + z) = i /\ (i * size d + z) mod size d = z.
Proof.
  intros Hz. pose proof (size_S d). assert (0 <= i * size d + z < size (S d)) by nia. split; [done|].
  rewrite index_small by done. split; [apply div_entry; leaf_lia|]. symmetry. apply Z.mod_unique with i; leaf_lia.
Qed.

Lemma leaf_in_range y : 0 <= y < size (S d) -> index d y = i -> in_range va hi (laddr + y) <-> lo - base <= y mod size d < up - base.
Proof. intros Hy Ei. destruct (leaf_offset y Hy Ei) as [-> Hr]. unfold in_range. leaf_lia. Qed.

Lemma leaf_walk y : index d y = i -> walk encr d (mem s) t y = Some (d, mem s (pte_at t i)).
Proof. intros Ei. rewrite walk_entry, Ei. unfold entry_walk. by rewrite Hk. Qed.

Lemma leaf_covered s' y : 0 <= y < size (S d) -> index d y = i ->
  covered (page_invalidate initialized true s' (q * 2 ^ 48 + laddr + i * size d)) d (laddr + y).
Proof.
  intros Hy Ei. destruct (leaf_offset y Hy Ei) as [-> Hr]. pose proof base_range as (Hb0 & Hbs & Hb). pose proof (size_pos d).
  apply page_invalidate_covers. rewrite <- Z.add_assoc. fold base.
  replace ((q * 2 ^ 48 + base) mod 2 ^ 48) with base by (apply Z.mod_unique with q; leaf_lia).
  symmetry. by apply div_add_small.
Qed.

Lemma leaf_aligned : lo mod 4096 = 0 /\ up mod 4096 = 0 /\ base mod 4096 = 0.
Proof.
  pose proof base_range as (_ & _ & Hb). pose proof (size_mod d) as Hs. pose proof (size_pos d).
  apply size_mod_4096 in Hb. assert (Hbs : (base + size d) mod 4096 = 0) by by rewrite Z.add_mod, Hb, Hs.
  split; [|split; [|done]].
  - unfold lo. destruct (Z.max_spec base va) as [[_ ->]|[_ ->]]; done.
  - unfold up. destruct (Z.min_spec (base + size d) hi) as [[_ ->]|[_ ->]]; done.
Qed.

(** Only mappings of 2 MiB are in the range in part. *)
Lemma leaf_partial : up - lo <> size d -> d = 1%nat.
Proof.
  intros Hne. pose proof (size_pos d). pose proof leaf_aligned as (Hlo & Hup & Hb). destruct (leaf_at (lo - base)) as (Hy & Ei & Hmod); [leaf_lia|].
  destruct (wpre_split _ _ _ _ _ _ _ _ _ Hpre (i * size d + (lo - base)) d (mem s (pte_at t i)) Hy) as [Hin|Hd1]; [done|..].
  - apply leaf_in_range; [done..|]. rewrite Hmod. leaf_lia.
  - by apply leaf_walk.
  - exfalso. rewrite Hmod in Hin. fold base in Hin. unfold base in *. leaf_lia.
  - destruct (decide (d = 0%nat)) as [E|]; [|leaf_lia]. exfalso. assert (Es : size d = 4096) by by rewrite E. apply Hne.
    unfold lo, up, base in *. replace (laddr + (i + 1) * size d) with (laddr + i * size d + size d) in Hm2 by lia.
    rewrite Es in *. generalize dependent (laddr + i * 4096). intros b. clear -Hva0 Hhi0. intros. Z.to_euclidean_division_equations; lia.
Qed.

Lemma leaf_gap y : d = 1%nat -> 0 <= y < size (S d) -> index d y = i ->
  in_range va hi (laddr + y) <-> (lo - base) / 4096 <= index 0 y < (up - base) / 4096.
Proof.
  intros E Hy Ei. rewrite leaf_in_range by done. pose proof leaf_aligned as (Hlo & Hup & Hb).
  assert (Hidx : index 0 y = (y mod size d) / 4096).
  { rewrite <- (index_mod 0 y), E. rewrite index_small by (apply Z.mod_pos_bound; done). done. }
  rewrite Hidx. unfold lo, up, base in *; Z.to_euclidean_division_equations; lia.
Qed.

(** The physical addresses of the part of the mapping that is in the range. *)
Definition leaf_phys : range :=
  irangel (u64 (page_from_pte encr (mem s (pte_at t i)) + (lo - base))) (up - lo).

Lemma leaf_phys_spec : start leaf_phys = page_from_pte encr (mem s (pte_at t i)) + (lo - base) /\
  end_ leaf_phys = page_from_pte encr (mem s (pte_at t i)) + (up - base).
Proof.
  pose proof (good_page_range _ _ (page_from_pte_good encr Hencr (mem s (pte_at t i)))) as [Hp _]. pose proof base_range as (Hb0 & Hbs & _).
  unfold leaf_phys, irangel. cbn [start end_]. rewrite (u64_small (_ + (lo - base))) by leaf_lia. rewrite u64_small by leaf_lia. leaf_lia.
Qed.

Lemma leaf_mod y : 0 <= y < size (S d) -> (laddr + y) mod size d = y mod size d.
Proof.
  intros Hy. destruct Hpre as [_ _ _ (_ & Hl & _) _ _]. pose proof (size_pos d). rewrite <- Zplus_mod_idemp_l.
  rewrite <- (mod_size_mod d (S d) laddr), Hl, Z.mod_0_l by lia. done.
Qed.

(** They come from the addresses of the range that the mapping maps. *)
Lemma leaf_phys_sound : exists y, 0 <= y < size (S d) /\ index d y = i /\ in_range va hi (laddr + y) /\
  forall p, start leaf_phys <= p < end_ leaf_phys ->
    exists x', in_range va hi x' /\ x' / size d = (laddr + y) / size d /\ p = page_from_pte encr (mem s (pte_at t i)) + x' mod size d.
Proof.
  destruct leaf_phys_spec as [-> ->]. pose proof base_range as (Hb0 & Hbs & Hb). destruct (leaf_at (lo - base)) as (Hy & Ei & Hmod); [leaf_lia|].
  exists (i * size d + (lo - base)). split; [done|]. split; [done|]. split; [unfold in_range; leaf_lia|]. intros p Hp.
  set (z := p - page_from_pte encr (mem s (pte_at t i))). exists (base + z). assert (Hz : 0 <= z < size d) by leaf_lia.
  split; [unfold in_range; leaf_lia|]. replace (laddr + (i * size d + (lo - base))) with (base + (lo - base)) by (unfold base; lia).
  rewrite !div_add_small by (done || leaf_lia). split; [done|]. rewrite <- Zplus_mod_idemp_l, Hb, Z.add_0_l, Z.mod_small by done. lia.
Qed.
End Leaf.

(** The walk starts at the top. *)
Lemma top_pre pagebase s f : pt_wf encr pagebase s f -> splittable encr va hi (fun _ => True) 3 (mem s) pagebase 0 ->
  walk_pre encr va hi (fun _ => True) 3 s pagebase f 0.
Proof. intros [Ht Hw Hf] Hsp. split; [done|done|done|by vm_compute|change (size 4) with (2 ^ 48); lia|done]. Qed.

(** *** Unmapping *)

Section Unmap.
Context (want : bool).

(** A mapping that was in the range is invalidated and its memory is collected. *)
Definition unmap_done (s : pagemem) (l : nat * Z) (x : Z) : Prop :=
  covered s l.1 x /\
  (want = true -> exists r, r ∈ phys_ranges s /\ start r <= page_from_pte encr l.2 + x mod size l.1 < end_ r).

(** A range that is collected is the memory of addresses of the range. *)
Definition unmap_sound (l : nat * Z) (x : Z) (r : range) : Prop :=
  want = true /\ forall p, start r <= p < end_ r ->
    exists x', in_range va hi x' /\ x' / size l.1 = x / size l.1 /\ p = page_from_pte encr l.2 + x' mod size l.1.

Definition unmap_fail (s : pagemem) : Prop := free_pages s = [] \/ (want = true /\ room s = 0%nat).

Lemma unmap_finish d s t f laddr i s1 u f' : (d <= 3)%nat -> walk_pre encr va hi (eq i) d s t f laddr -> 0 <= i < 512 ->
  laddr + i * size d < hi -> va < laddr + (i + 1) * size d -> kind d (mem s (pte_at t i)) = Leaf ->
  entry_changed encr d s t f i s1 u f' -> phys_ranges s1 = phys_ranges s -> (forall k x, covered s k x -> covered s1 k x) ->
  (forall y, 0 <= y < size (S d) -> index d y = i -> walk encr d (mem s1) t y <> None -> ~ in_range va hi (laddr + y)) ->
  (forall y, 0 <= y < size (S d) -> index d y = i -> ~ in_range va hi (laddr + y) ->
     translate encr d (mem s1) t y = translate encr d (mem s) t y) ->
  (kind d (mem s1 (pte_at t i)) = Sub -> (d <= 1)%nat) ->
  exists ok s', (let s2 := page_invalidate initialized true s1 (q * 2 ^ 48 + laddr + i * size d) in
    if want then Some (buffer_write_range s2 (leaf_phys d s t laddr i)) else Some (true, s2)) = Some (ok, s') /\
    if ok : bool then exists used f', handled encr va hi (fun _ => None) unmap_done unmap_sound d s s' t f laddr i used f' else unmap_fail s'.
Proof.
  intros Hd Hpre Hi Hm1 Hm2 Hk Hc Hph Hmono Hnone Hout Hsub.
  set (s2 := page_invalidate initialized true s1 _). destruct (page_invalidate_same s1 (q * 2 ^ 48 + laddr + i * size d)) as (E1 & E2 & E3 & E4 & E5).
  fold s2 in E1, E2, E3, E4, E5. cbn zeta.
  assert (Hcov : forall y, 0 <= y < size (S d) -> index d y = i -> covered s2 d (laddr + y)) by (intros y Hy Ei; by eapply leaf_covered).
  assert (Hgen : forall s', mem s' = mem s2 -> current_phys s' = current_phys s2 -> pageheap s' = pageheap s2 ->
    fe_pages s' = fe_pages s2 -> fe_flush s' = fe_flush s2 -> invalidated s' = invalidated s2 ->
    (if want then phys_ranges s' = phys_ranges s2 ++ [leaf_phys d s t laddr i] else phys_ranges s' = phys_ranges s2) ->
    handled encr va hi (fun _ => None) unmap_done unmap_sound d s s' t f laddr i u f').
  { intros s' F1 F2 F3 F4 F5 F6 F7. destruct (leaf_phys_spec d Hd s t f laddr i) as [Hst Hen]; [done..|].
    split; rewrite ?F1, ?E1.
    - eapply entry_changed_same; [..|exact Hc]; congruence.
    - done.
    - intros y Hy Ei Hin. left. unfold translate. destruct (walk encr d (mem s1) t y) eqn:Ew.
      + exfalso. eapply Hnone; [done..| |done]. by rewrite Ew.
      + simpl. by destruct (walk encr d (mem s) t y).
    - intros y Hy Ei Hin. split; [by eapply covered_same, Hcov|]. intros ->. exists (leaf_phys d s t laddr i). rewrite F7.
      split; [set_solver|]. cbn [fst snd]. erewrite leaf_mod by done.
      eapply leaf_in_range in Hin; [|done..]. lia.
    - intros l x [H1 H2]. split; [eapply covered_same; [done..|]; by apply page_invalidate_mono, Hmono|].
      intros Hwt. destruct (H2 Hwt) as (r & Hr & ?). exists r. split; [|done]. rewrite Hwt in F7. rewrite F7, E4, Hph. set_solver.
    - intros r Hr. destruct want eqn:Ew; rewrite F7, E4, Hph in Hr; [|by left]. apply elem_of_app in Hr as [|Hr%list_elem_of_singleton]; [by left|right]. subst r.
      destruct (leaf_phys_sound d Hd s t f laddr i) as (y & Hy & Ei & Hin & Hp); [done..|]. exists y. do 3 (split; [done|]). by split.
    - intros Hs1. split; [by apply Hsub|]. intros y l r Hy Ei Hin Hw. exfalso. eapply Hnone; [done..| |done]. by rewrite Hw. }
  destruct want eqn:Ewant.
  - unfold buffer_write_range. destruct (room s2) eqn:Er.
    + eexists false, _. split; [done|]. by right.
    + eexists true, _. split; [done|]. exists u, f'. by apply Hgen.
  - eexists true, _. split; [done|]. exists u, f'. by apply Hgen.
Qed.

Lemma covered_alloc s s' : same_but_alloc s s' -> forall k x, covered s k x -> covered s' k x.
Proof. intros (? & ? & ? & _) k x. by apply covered_same. Qed.

(** The pages of the gap are those of the range. *)
Lemma gap_shift d s t f laddr i : d = 1%nat -> walk_pre encr va hi (eq i) d s t f laddr -> 0 <= i < 512 ->
  laddr + i * size d < hi -> va < laddr + (i + 1) * size d ->
  let base := laddr + i * size d in let lo := Z.max base va in let up := Z.min (base + size d) hi in
  range_rshift (irangel (lo - base) (up - lo)) PAGELOG = irange ((lo - base) / 4096) ((up - base) / 4096) /\
  0 <= (lo - base) / 4096 <= 512 /\ 0 <= (up - base) / 4096.
Proof.
  intros Ed Hpre Hi Hm1 Hm2 base lo up. assert (Es : size d = 2097152) by by rewrite Ed.
  assert (Hr : 0 <= lo - base < 2097152 /\ 0 <= up - base <= 2097152 /\ up - lo = up - base - (lo - base)) by (unfold lo, up, base; lia).
  unfold range_rshift, irangel, PAGELOG. cbn [start end_]. rewrite u64_small by lia. rewrite !Z.shiftr_div_pow2 by lia. change (2 ^ 12) with 4096.
  replace (lo - base + (up - lo)) with (up - base) by lia. split; [done|]. Z.to_euclidean_division_equations; lia.
Qed.

Lemma unmap_leaf d s t f laddr i : (d <= 3)%nat -> walk_pre encr va hi (eq i) d s t f laddr -> 0 <= i < 512 ->
  laddr + i * size d < hi -> va < laddr + (i + 1) * size d -> kind d (mem s (pte_at t i)) = Leaf ->
  exists ok s', unmap_page encr initialized (q * 2 ^ 48 + va) (hi - va) want s (4 - Z.of_nat d) (q * 2 ^ 48 + laddr + i * size d) (pte_at t i) =
      Some (ok, s') /\
    if ok : bool then exists used f', handled encr va hi (fun _ => None) unmap_done unmap_sound d s s' t f laddr i used f' else unmap_fail s'.
Proof.
  intros Hd Hpre Hi Hm1 Hm2 Hk. pose proof Hpre as [[F HF]%tables_node Hw Hf _ _ _].
  pose proof (kind_tests d (mem s (pte_at t i))) as Hkt. rewrite Hk in Hkt. destruct Hkt as [Hp Hma].
  unfold unmap_page. rewrite Hp, Hma. cbn [andb]. rewrite map_size_spec by done.
  destruct (offsets_spec d Hd s t f laddr i) as [-> Hmin]; [done..|]. rewrite Hmin. destruct (Z.eqb_spec
    (Z.min (laddr + i * size d + size d) hi - Z.max (laddr + i * size d) va) (size d)) as [Ewh|Epart].
  - destruct (write_changed encr d s t f F i HF Hw Hi (pte_set s (pte_at t i) 0) 0) as (Hz & f' & Hc); [done..|].
    apply (unmap_finish d s t f laddr i (pte_set s (pte_at t i) 0) [] f'); [done..| | |by rewrite Hz].
    + intros y Hy Ei. by rewrite walk_entry, Ei, Hz.
    + intros y Hy Ei Hn. destruct Hn. eapply leaf_in_range; [done..|].
      pose proof (Z.mod_pos_bound y (size d)). pose proof (size_pos d). lia.
  - assert (Ed : d = 1%nat) by (eapply leaf_partial; done).
    destruct (gap_shift d s t f laddr i Ed Hpre Hi Hm1 Hm2) as (-> & Hg1 & Hg2).
    destruct (split_changed s t f F i (irange ((Z.max (laddr + i * size d) va - (laddr + i * size d)) / 4096)
      ((Z.min (laddr + i * size d + size d) hi - (laddr + i * size d)) / 4096))) as [[-> E]|(w & s1 & -> & Hsame & Hsub & (u & f' & Hc) & Hwk)];
      [by rewrite <- Ed|done|done|done|by rewrite <- Ed|done|done|by eexists false, _; split; [|left]|].
    cbn [mbind option_bind start end_] in *. rewrite <- Ed in Hwk, Hc.
    assert (Hin : forall y, 0 <= y < size (S d) -> index d y = i -> in_range va hi (laddr + y) <->
      (Z.max (laddr + i * size d) va - (laddr + i * size d)) / 4096 <= index 0 y <
      (Z.min (laddr + i * size d + size d) hi - (laddr + i * size d)) / 4096) by (intros y Hy Ei; by eapply leaf_gap).
    apply (unmap_finish d s t f laddr i s1 u f'); [done..| | | | |lia].
    + by destruct Hsame as (_ & _ & _ & ? & _).
    + by apply covered_alloc.
    + intros y Hy Ei. rewrite Hin, Hwk by done. case_test; [done|].
      intros _. apply andb_false_iff in E as [E|E]; breflect; lia.
    + intros y Hy Ei. rewrite Hin by done. intros Hn. unfold translate. rewrite (leaf_walk d s t i) by done.
      rewrite Hwk by done. case_test; [lia|]. simpl. f_equal. rewrite Ed. apply split_meaning; [done|by rewrite <- Ed|].
      destruct HF as (_ & _ & _ & _ & HFi). specialize (HFi i Hi). unfold entry_tables in HFi. rewrite Hk in HFi. rewrite <- Ed. by destruct HFi.
Qed.

Lemma traverse_unmap pagebase s f : pt_wf encr pagebase s f -> splittable encr va hi (fun _ => True) 3 (mem s) pagebase 0 ->
  exists ok s', traverse_ptes encr pagebase s (q * 2 ^ 48 + va) (hi - va)
      (unmap_page encr initialized (q * 2 ^ 48 + va) (hi - va) want) = Some (ok, s') /\
    if ok : bool then exists used f', walked encr va hi (fun _ => None) unmap_done unmap_sound 3 s s' pagebase f 0 used f' else unmap_fail s'.
Proof.
  intros Hwf Hsp. unfold traverse_ptes. change PT_FIRST_LEVEL with (4 - Z.of_nat 3).
  apply (walk_level_ok encr Hencr q va hi Hq Hva Hhi _ _ unmap_fail unmap_done unmap_sound); [done| | |lia|by apply top_pre].
  - intros s0 level addr entry Hn. unfold unmap_page. by rewrite Hn.
  - intros. by eapply unmap_leaf.
Qed.
End Unmap.

(** *** Changing flags *)

Section Update.
Context (flags : Z) (Hflags : good_flags encr flags).

Definition update_to (x : Z * Z) : option (Z * Z) := Some (x.1, attrs flags).
Definition update_done (s : pagemem) (l : nat * Z) (x : Z) : Prop := covered s l.1 x.
Definition update_fail (s : pagemem) : Prop := free_pages s = [].
Definition no_range (_ : nat * Z) (_ : Z) (_ : range) : Prop := False.

Lemma update_finish d s t f laddr i s1 u f' : (d <= 3)%nat -> walk_pre encr va hi (eq i) d s t f laddr -> 0 <= i < 512 ->
  laddr + i * size d < hi -> va < laddr + (i + 1) * size d -> kind d (mem s (pte_at t i)) = Leaf ->
  entry_changed encr d s t f i s1 u f' -> phys_ranges s1 = phys_ranges s -> (forall k x, covered s k x -> covered s1 k x) ->
  (forall y, 0 <= y < size (S d) -> index d y = i -> ~ in_range va hi (laddr + y) ->
     translate encr d (mem s1) t y = translate encr d (mem s) t y) ->
  (forall y, 0 <= y < size (S d) -> index d y = i -> in_range va hi (laddr + y) ->
     translate encr d (mem s1) t y = translate encr d (mem s) t y ≫= update_to \/
     (kind d (mem s1 (pte_at t i)) = Sub /\ translate encr d (mem s1) t y = translate encr d (mem s) t y)) ->
  (kind d (mem s1 (pte_at t i)) = Sub -> (d <= 1)%nat) ->
  handled encr va hi update_to update_done no_range d s (page_invalidate initialized true s1 (q * 2 ^ 48 + laddr + i * size d)) t f laddr i u f'.
Proof.
  intros Hd Hpre Hi Hm1 Hm2 Hk Hc Hph Hmono Hout Hin Hsub.
  destruct (page_invalidate_same s1 (q * 2 ^ 48 + laddr + i * size d)) as (E1 & E2 & E3 & E4 & E5). split; rewrite ?E1.
  - by eapply entry_changed_same.
  - done.
  - done.
  - intros y Hy Ei Hr. by eapply leaf_covered.
  - intros l x Hl. by apply page_invalidate_mono, Hmono.
  - intros r Hr. left. by rewrite E4, Hph in Hr.
  - intros Hs1. split; [by apply Hsub|]. by intros ? ? ? ? ? ? ? [].
Qed.

Lemma update_leaf d s t f laddr i : (d <= 3)%nat -> walk_pre encr va hi (eq i) d s t f laddr -> 0 <= i < 512 ->
  laddr + i * size d < hi -> va < laddr + (i + 1) * size d -> kind d (mem s (pte_at t i)) = Leaf ->
  exists ok s', update_pte_flags encr initialized (q * 2 ^ 48 + va) (hi - va) flags s (4 - Z.of_nat d) (q * 2 ^ 48 + laddr + i * size d)
      (pte_at t i) = Some (ok, s') /\
    if ok : bool then exists used f', handled encr va hi update_to update_done no_range d s s' t f laddr i used f' else update_fail s'.
Proof.
  intros Hd Hpre Hi Hm1 Hm2 Hk. pose proof Hpre as [[F HF]%tables_node Hw Hf _ _ _].
  pose proof (kind_tests d (mem s (pte_at t i))) as Hkt. rewrite Hk in Hkt. destruct Hkt as [Hp Hma].
  pose proof HF as (_ & _ & _ & _ & HFi). specialize (HFi i Hi). unfold entry_tables in HFi. rewrite Hk in HFi. destruct HFi as [Hal _].
  unfold update_pte_flags. rewrite Hp, Hma. cbn [negb orb]. rewrite map_size_spec by done.
  destruct (offsets_spec d Hd s t f laddr i) as [-> Hmin]; [done..|]. rewrite Hmin.
  destruct (Z.eqb_spec (Z.min (laddr + i * size d + size d) hi - Z.max (laddr + i * size d) va) (size d)) as [Ewh|Epart].
  - set (w := if 4 - Z.of_nat d =? PT_PTE_LEVEL then _ else _).
    destruct (leaf_pte encr Hencr d (page_from_pte encr (mem s (pte_at t i))) flags) as (L1 & L2 & L3);
      [by eapply kind_Leaf_depth|by apply page_from_pte_good|done|]. fold w in L1, L2, L3.
    destruct (write_changed encr d s t f F i HF Hw Hi (pte_set s (pte_at t i) w) w) as (Hz & f' & Hc); [done..|congruence|by rewrite L2|].
    eexists true, _. split; [done|]. exists [], f'. apply update_finish with (s1 := pte_set s (pte_at t i) w); [done..| | |rewrite Hz; congruence].
    + intros y Hy Ei Hn. destruct Hn. eapply leaf_in_range; [done..|]. pose proof (Z.mod_pos_bound y (size d)). pose proof (size_pos d). lia.
    + intros y Hy Ei _. left. unfold translate. rewrite (leaf_walk d s t i) by done. rewrite walk_entry, Ei, Hz. unfold entry_walk.
      rewrite L1. simpl. unfold meaning, update_to. cbn [fst snd]. by rewrite L2, L3.
  - assert (Ed : d = 1%nat) by (eapply leaf_partial; done).
    destruct (split_changed s t f F i (irange 0 0)) as [[-> E]|(w & s1 & -> & Hsame & Hsub & (u & f' & Hc) & Hwk)];
      [by rewrite <- Ed|done|done|done|by rewrite <- Ed|done|done|by eexists false, _|].
    rewrite <- Ed in Hwk, Hc, Hsub. eexists true, _. split; [done|]. exists u, f'.
    assert (Htr : forall y, index d y = i -> translate encr d (mem s1) t y = translate encr d (mem s) t y).
    { intros y Ei. unfold translate. rewrite (leaf_walk d s t i) by done. rewrite Hwk by done. cbn [start end_].
      case_test; [lia|]. simpl. f_equal. rewrite Ed. apply split_meaning; [done|by rewrite <- Ed|by rewrite <- Ed]. }
    apply update_finish with (s1 := s1); [done..| | | | |lia].
    + by destruct Hsame as (_ & _ & _ & ? & _).
    + by apply covered_alloc.
    + auto.
    + auto.
Qed.

Lemma traverse_update pagebase s f : pt_wf encr pagebase s f -> splittable encr va hi (fun _ => True) 3 (mem s) pagebase 0 ->
  exists ok s', traverse_ptes encr pagebase s (q * 2 ^ 48 + va) (hi - va)
      (update_pte_flags encr initialized (q * 2 ^ 48 + va) (hi - va) flags) = Some (ok, s') /\
    if ok : bool then exists used f', walked encr va hi update_to update_done no_range 3 s s' pagebase f 0 used f' else update_fail s'.
Proof.
  intros Hwf Hsp. unfold traverse_ptes. change PT_FIRST_LEVEL with (4 - Z.of_nat 3).
  apply (walk_level_ok encr Hencr q va hi Hq Hva Hhi _ _ update_fail update_done no_range); [done| | |lia|by apply top_pre].
  - intros s0 level addr entry Hn. unfold update_pte_flags. apply andb_false_iff in Hn as [-> | ->]; [done|]. by rewrite orb_true_r.
  - intros. by eapply update_leaf.
Qed.
End Update.
End Handlers.

(** ** Validation *)

Section Validate.
Context (encr q va hi : Z) (Hq : 0 <= q < 2 ^ 16) (Hva : 0 <= va < hi) (Hhi : hi <= 2 ^ 48).
Context (h : entry_handler) (ok : Z -> bool).

(** A handler that only looks: at each mapping, and for entries that are not present. *)
Hypothesis Hh : forall s d addr entry, (d <= 3)%nat -> h s (4 - Z.of_nat d) addr entry =
  Some (match kind d (mem s entry) with Absent => false | Leaf => ok (mem s entry) | Sub => true end, s).

(** The mappings at the offsets [y] are all there, and are as they should be. *)
Definition all_ok (d : nat) (m : Z -> Z) (t laddr : Z) (I : Z -> Prop) : Prop :=
  forall y, 0 <= y < size (S d) -> I (index d y) -> in_range va hi (laddr + y) -> exists l, walk encr d m t y = Some l /\ ok l.2 = true.

Definition validates (d : nat) (s : pagemem) (t laddr : Z) (I : Z -> Prop) (r : option (bool * pagemem)) : Prop :=
  exists b, r = Some (b, s) /\ (b = true <-> all_ok d (mem s) t laddr I).

Lemma all_ok_app d m t laddr I1 I2 (I : Z -> Prop) : (forall i, I i <-> I1 i \/ I2 i) ->
  all_ok d m t laddr I <-> all_ok d m t laddr I1 /\ all_ok d m t laddr I2.
Proof.
  intros HI. split.
  - intros H. split; intros y Hy Hi; (apply H; [done|]); apply HI; auto.
  - intros [H1 H2] y Hy [Hi|Hi]%HI; auto.
Qed.

Lemma validate_entry_ok d s t f F rec laddr i : (d <= 3)%nat -> node encr d (mem s) t f F -> 0 <= i < 512 -> 0 <= laddr ->
  laddr + size (S d) <= 2 ^ 48 -> laddr mod size (S d) = 0 ->
  laddr + i * size d < hi -> va < laddr + (i + 1) * size d ->
  (forall d' t1 f1 laddr1, d = S d' -> tables encr d' (mem s) t1 f1 -> 0 <= laddr1 -> laddr1 mod size d = 0 -> laddr1 + size d <= 2 ^ 48 ->
     laddr1 < hi -> va < laddr1 + size d -> validates d' s t1 laddr1 (fun _ => True) (rec s t1 laddr1)) ->
  validates d s t laddr (eq i)
    ('(ok, s) ← h s (4 - Z.of_nat d) (q * 2 ^ 48 + laddr + i * size d) (pte_at t i);
     if negb ok then Some (false, s) else
     let pte := mem s (pte_at t i) in
     if pte_is_present pte && (4 - Z.of_nat d <? PT_PTE_LEVEL) &&
        ((4 - Z.of_nat d =? PT_FIRST_LEVEL) || negb (pte_is_mapping (4 - Z.of_nat d) pte))
     then rec s (page_from_pte encr pte) (laddr + i * size d) else Some (true, s)).
Proof.
  intros Hd HF Hi Hl0 Hls Hl Hm1 Hm2 Hrec. pose proof (size_pos d) as Hsz. pose proof (size_S d) as HS.
  assert (Hex : exists y, 0 <= y < size (S d) /\ i = index d y /\ in_range va hi (laddr + y)).
  { exists (i * size d + Z.max 0 (va - (laddr + i * size d))). assert (0 <= i * size d + Z.max 0 (va - (laddr + i * size d)) < size (S d)) by nia.
    split; [done|]. split; [|unfold in_range; lia]. rewrite index_small by done. symmetry. apply div_entry. lia. }
  assert (Hwi : forall y, i = index d y -> walk encr d (mem s) t y = entry_walk encr d (mem s) (mem s (pte_at t i)) y).
  { intros y Ei. by rewrite walk_entry, <- Ei. }
  rewrite Hh by done. cbn [mbind option_bind]. rewrite rec_test by done. unfold entry_walk in Hwi. destruct (kind d _) eqn:Hk.
  - eexists false. split; [done|]. split; [done|]. intros Hall. destruct Hex as (y & Hy & Ei & Hin).
    destruct (Hall y Hy Ei Hin) as (l & Hl' & _). by rewrite Hwi in Hl'.
  - exists (ok (mem s (pte_at t i))). split; [by destruct (ok _)|]. split.
    + intros Hok y Hy Ei Hin. rewrite Hwi by done. eauto.
    + intros Hall. destruct Hex as (y & Hy & Ei & Hin). destruct (Hall y Hy Ei Hin) as (l & Hl' & Hok).
      rewrite Hwi in Hl' by done. by injection Hl' as <-.
  - destruct HF as (_ & _ & _ & _ & HFi). specialize (HFi i Hi). unfold entry_tables in HFi. rewrite Hk in HFi.
    destruct (kind_Sub_depth _ _ Hk) as [d' Ed]. rewrite Ed in HFi. cbn [negb]. rewrite bool_decide_true by done.
    destruct (Hrec d' _ _ (laddr + i * size d) Ed HFi) as (b & -> & Hb); [nia| |nia|done|lia|].
    { rewrite Z.mod_add by lia. rewrite <- (mod_size_mod d (S d)), Hl by lia. apply Z.mod_0_l. lia. }
    exists b. split; [done|]. rewrite Hb, Ed in *. clear Hb. split.
    + intros Hall y Hy Ei Hin. rewrite Hwi by done. rewrite <- walk_mod.
      rewrite index_small in Ei by done. symmetry in Ei. apply div_entry in Ei.
      assert (Em : y mod size (S d') = y - i * size (S d')) by (symmetry; apply Z.mod_unique with i; lia).
      rewrite Em. apply Hall; [lia|done|]. unfold in_range in *. lia.
    + intros Hall y Hy _ Hin. destruct (Hall (i * size (S d') + y)) as (l & Hl' & Hok); [nia| |unfold in_range in *; lia|].
      * rewrite index_small by nia. symmetry. apply div_entry. lia.
      * rewrite Hwi in Hl'; [|rewrite index_small by nia; symmetry; apply div_entry; lia].
        rewrite <- walk_mod, Z.add_comm, Z.mod_add, Z.mod_small in Hl' by lia. eauto.
Qed.

Lemma validate_loop d s t f F rec laddr : (d <= 3)%nat -> node encr d (mem s) t f F -> 0 <= laddr ->
  laddr + size (S d) <= 2 ^ 48 -> laddr mod size (S d) = 0 ->
  (forall d' t1 f1 laddr1, d = S d' -> tables encr d' (mem s) t1 f1 -> 0 <= laddr1 -> laddr1 mod size d = 0 -> laddr1 + size d <= 2 ^ 48 ->
     laddr1 < hi -> va < laddr1 + size d -> validates d' s t1 laddr1 (fun _ => True) (rec s t1 laddr1)) ->
  forall n i, 0 <= i -> i + Z.of_nat n <= 512 ->
  (forall j, i <= j < i + Z.of_nat n -> laddr + j * size d < hi /\ va < laddr + (j + 1) * size d) ->
  validates d s t laddr (fun j => i <= j < i + Z.of_nat n)
    (ptes_loop encr rec h t (4 - Z.of_nat d) (q * 2 ^ 48 + va) laddr n i (i * size d) s).
Proof.
  intros Hd HF Hl0 Hls Hl Hrec n. induction n as [|n IH]; intros i Hi Hn Hmeet.
  - eexists true. split; [done|]. split; [|done]. intros _ y Hy Hj. lia.
  - destruct (Hmeet i ltac:(lia)) as [Hm1 Hm2].
    rewrite loop_unfold by first [apply HF|lia].
    destruct (validate_entry_ok d s t f F rec laddr i) as (b & -> & Hb); [done|done|lia|done..|].
    destruct (IH (i + 1)) as (b' & E & Hb'); [lia|lia|intros; apply Hmeet; lia|]. cbn [mbind option_bind]. exists (b && b').
    split; [by destruct b; cbn; [rewrite E|]|]. rewrite andb_true_iff, Hb, Hb'. symmetry. apply all_ok_app. intros j. lia.
Qed.

Lemma validate_level d : (d <= 3)%nat -> forall s t f laddr, tables encr d (mem s) t f -> 0 <= laddr -> laddr mod size (S d) = 0 ->
  laddr + size (S d) <= 2 ^ 48 -> laddr < hi -> va < laddr + size (S d) ->
  validates d s t laddr (fun _ => True) (recurse_ptes encr (S d) h s t (4 - Z.of_nat d) (q * 2 ^ 48 + va) (hi - va) laddr).
Proof.
  induction d as [d IH] using lt_wf_ind. intros Hd s t f laddr [F HF]%tables_node Hl0 Hl Hls Hm1 Hm2.
  destruct (index_bounds va hi Hva Hhi d laddr Hd Hl0 Hm1 Hm2) as (Hse & He & Hj & HI). cbn [recurse_ptes]. rewrite level_shift, land_MASK48 by done.
  replace ((q * 2 ^ 48 + va) mod 2 ^ 48) with va by (apply Z.mod_unique with q; lia).
  set (si := if laddr <? va then _ else 0) in *. set (ei := Z.min _ _) in *. change PTE_ENTRIES with 512.
  unfold kassert. destruct (Z.leb_spec si 512), (Z.leb_spec ei 512); try lia. cbn [mbind option_bind].
  pose proof (size_pos d). pose proof (shift_range d Hd). pose proof (size_S d).
  rewrite Z.shiftl_mul_pow2 by lia. fold (size d). rewrite (u64_small (si * size d)) by nia.
  destruct (validate_loop d s t f F (fun s pbase laddr => recurse_ptes encr d h s pbase (4 - Z.of_nat d + 1) (q * 2 ^ 48 + va) (hi - va) laddr)
    laddr Hd HF Hl0 Hls Hl) with (n := Z.to_nat (ei - si)) (i := si) as (b & -> & Hb).
  { intros d' t1 f1 laddr1 Ed. replace (4 - Z.of_nat d + 1) with (4 - Z.of_nat d') by lia. rewrite Ed. intros. eapply IH; lia || done. }
  { lia. } { lia. } { intros j Hjr. apply Hj; lia. }
  exists b. split; [done|]. rewrite Hb, Z2Nat.id, Zplus_minus by lia. split; intros Hall y Hy _ Hin; apply Hall; auto.
Qed.
End Validate.
