(* ===== verification/PageOps.v ===== *)
(** The interface of [kernel/src/kernel/page.c] on ranges that are mapped: what [unmap],
    [update_map_flags] and the validation of addresses do to every address, what is left
    in the translation caches, and which physical memory [unmap_page] collects for
    [unmap_and_free_phys].

    The condition [splittable] on the range is that no mapping of 1 GiB is only partly in
    it; the last section shows what the code does without it and without the condition
    of [map_translates]. *)

From S2P Require Import Prelude Range Words Page PageTable PageMap PageWalk.

Section Ops.
Context (encr : Z) (Hencr : Z.land encr (MASK 30) = 0) (pagebase : Z) (initialized : bool).

(** The range [v, v + length) in 48 bits. *)
Definition va_in (v length x : Z) : Prop := in_range (v mod 2 ^ 48) (v mod 2 ^ 48 + length) (x mod 2 ^ 48).

#[global] Instance va_in_dec v length x : Decision (va_in v length x).
Proof. apply in_range_dec. Defined.

(** A range of pages that does not leave its half of the addresses, with no 1 GiB mapping partly in it. *)
Record range_ok (s : pagemem) (v length : Z) : Prop := {
  range_v : 0 <= v < 2 ^ 64;
  range_page : v mod 4096 = 0;
  range_length : 0 < length /\ length mod 4096 = 0;
  range_fits : v mod 2 ^ 48 + length <= 2 ^ 48;
  range_split : splittable encr (v mod 2 ^ 48) (v mod 2 ^ 48 + length) (fun _ => True) 3 (mem s) pagebase 0;
}.

(** The mapping that an address is translated by: its depth and its entry. *)
Definition mapping_at (s : pagemem) (x : Z) : option (nat * Z) := walk encr 3 (mem s) pagebase (x mod 2 ^ 48).

Lemma range_split_bits s v length : range_ok s v length ->
  v = v / 2 ^ 48 * 2 ^ 48 + v mod 2 ^ 48 /\ 0 <= v / 2 ^ 48 < 2 ^ 16 /\ 0 <= v mod 2 ^ 48 < v mod 2 ^ 48 + length /\
  v mod 2 ^ 48 mod 4096 = 0 /\ (v mod 2 ^ 48 + length) mod 4096 = 0 /\ v mod 2 ^ 48 + length - v mod 2 ^ 48 = length.
Proof.
  intros [Hv Hp [Hl0 Hl] Hf _]. pose proof (Z.div_mod v (2 ^ 48)). pose proof (Z.mod_pos_bound v (2 ^ 48)).
  split; [lia|]. split; [split; [apply Z.div_pos; lia|apply Z.div_lt_upper_bound; lia]|]. split; [lia|].
  assert (v mod 2 ^ 48 mod 4096 = 0) by (Z.to_euclidean_division_equations; lia).
  split; [done|]. split; [|lia]. rewrite Z.add_mod, Hl by lia. rewrite (Z.add_0_r (_ mod _)), Z.mod_mod by lia. done.
Qed.

(** What a walk says of an address. *)
Lemma walked_lookup g Q snd v length s s' f u f' : walked encr (v mod 2 ^ 48) (v mod 2 ^ 48 + length) g Q snd 3 s s' pagebase f 0 u f' ->
  pt_wf encr pagebase s f ->
  pt_wf encr pagebase s' f' /\
  (forall x, pt_lookup encr pagebase s' x = if decide (va_in v length x) then pt_lookup encr pagebase s x ≫= g else pt_lookup encr pagebase s x) /\
  forall x l, va_in v length x -> mapping_at s x = Some l -> Q s' l (x mod 2 ^ 48).
Proof.
  intros [X T Hto HQ _ _] [Ht Hw Hf]. change (size 4) with (2 ^ 48) in *.
  assert (Hx : forall x, 0 <= x mod 2 ^ 48 < 2 ^ 48) by (intros x; apply Z.mod_pos_bound; lia).
  split; [split; [done|by apply X|]|split].
  - destruct X as [E W _ I]. eapply fresh_step with (s := s) (used := u); eauto.
  - intros x. unfold pt_lookup. rewrite <- translate_mod, <- (translate_mod encr 3 (mem s)). change (size 4) with (2 ^ 48).
    rewrite Hto by done. unfold target, va_in. rewrite Z.add_0_l. by repeat case_decide.
  - intros x l Hin Hl. specialize (HQ (x mod 2 ^ 48) l (Hx x)). rewrite Z.add_0_l in HQ. auto.
Qed.

Lemma flush_entry_wf s f : pt_wf encr pagebase s f -> pt_wf encr pagebase (get_page_flush_entry s) f.
Proof.
  intros [Ht Hw Hf]. destruct (same_alloc encr s (get_page_flush_entry s) eq_refl eq_refl Hw) as [Hw0 Ef].
  split; [done|done|by rewrite Ef].
Qed.

(** C8: [unmap] removes the translation of exactly the range, keeps the tables well formed,
    and has every mapping it removed invalidated on the processors; it only stops early
    when a mapping must be split and there is no memory for a table. *)
Theorem unmap_unmaps s f v length : pt_wf encr pagebase s f -> range_ok s v length ->
  exists s', unmap encr pagebase initialized s v length = Some s' /\
    (free_pages s' = [] \/
     (exists f', pt_wf encr pagebase s' f') /\
     (forall x, pt_lookup encr pagebase s' x = if decide (va_in v length x) then None else pt_lookup encr pagebase s x) /\
     forall x k e, va_in v length x -> mapping_at s x = Some (k, e) -> covered initialized s' k (x mod 2 ^ 48)).
Proof.
  intros Hwf Hr. destruct (range_split_bits s v length Hr) as (Ev & Hq & Hva & Hva0 & Hhi0 & El).
  destruct Hr as [Hv Hp [Hl0 Hl] Hfit Hsp]. unfold unmap, has, PAGEMASK, PAGELOG, kassert. change 12 with (shift 0).
  rewrite !land_mask_size by lia. change (size 0) with 4096. rewrite Hp, Hl. cbn [Z.eqb negb orb mbind option_bind].
  set (s0 := get_page_flush_entry s). destruct (traverse_unmap encr Hencr initialized (v / 2 ^ 48) (v mod 2 ^ 48) (v mod 2 ^ 48 + length)
    Hq Hva Hfit Hva0 Hhi0 false pagebase s0 f) as (ok & s' & E & Hok).
  { by apply flush_entry_wf. }
  { done. }
  rewrite <- Ev, El in E. rewrite E. cbn [mbind option_bind]. exists s'. split; [done|]. destruct ok; [right|left; by destruct Hok as [?|[? _]]].
  destruct Hok as (u & f' & Hwk). destruct (walked_lookup _ _ _ _ _ _ _ _ _ _ Hwk) as (Hwf' & Hlk & HQ).
  { by apply flush_entry_wf. }
  split; [eauto|]. split.
  - intros x. rewrite Hlk. case_decide; [|done]. by destruct (pt_lookup encr pagebase s0 x).
  - intros x k e Hin He. by destruct (HQ x (k, e) Hin He).
Qed.

(** The addresses of one mapping. *)
Lemma walk_same_leaf d m t x y k e : walk encr d m t y = Some (k, e) -> x / size k = y / size k -> walk encr d m t x = Some (k, e).
Proof.
  intros Hw Hxy. destruct (walk_depth _ _ _ _ _ _ _ Hw) as [Hkd _]. revert t Hw.
  assert (Hidx : forall j, (k <= j)%nat -> index j x = index j y).
  { intros j Hj. unfold index. pose proof (size_pos k). assert (Es : size j = size k * 2 ^ (9 * Z.of_nat (j - k))).
    { unfold size, shift. rewrite <- Z.pow_add_r by lia. f_equal. lia. }
    rewrite Es, <- !Z.div_div, Hxy by lia. done. }
  induction d as [|d IH]; intros t; rewrite !walk_entry, Hidx by lia; unfold entry_walk; destruct (kind _ _); try done.
  intros Hw. destruct (walk_depth _ _ _ _ _ _ _ Hw) as [Hkd' _]. by apply IH.
Qed.

(** With a buffer for the physical ranges, the memory that is collected is exactly the
    physical memory that the range was mapped to; the walk stops early only when the
    buffer is full or there is no memory for a table. *)
Theorem unmap_collects s f v length : pt_wf encr pagebase s f -> range_ok s v length -> phys_ranges s = [] ->
  exists ok s', traverse_ptes encr pagebase s v length (unmap_page encr initialized v length true) = Some (ok, s') /\
    if ok : bool
    then forall p, (exists r, r ∈ phys_ranges s' /\ start r <= p < end_ r) <->
                   exists x, va_in v length x /\ fst <$> pt_lookup encr pagebase s x = Some p
    else free_pages s' = [] \/ room s' = 0%nat.
Proof.
  intros Hwf Hr Hnil. destruct (range_split_bits s v length Hr) as (Ev & Hq & Hva & Hva0 & Hhi0 & El).
  destruct Hr as [Hv Hp [Hl0 Hl] Hfit Hsp]. destruct (traverse_unmap encr Hencr initialized (v / 2 ^ 48) (v mod 2 ^ 48) (v mod 2 ^ 48 + length)
    Hq Hva Hfit Hva0 Hhi0 true pagebase s f Hwf Hsp) as (ok & s' & E & Hok).
  rewrite <- Ev, El in E. exists ok, s'. split; [done|]. destruct ok; [|by destruct Hok as [?|[_ ?]]; auto].
  destruct Hok as (u & f' & Hwk). pose proof (walked_sound _ _ _ _ _ _ _ _ _ _ _ _ _ _ Hwk) as Hsnd.
  destruct (walked_lookup _ _ _ _ _ _ _ _ _ _ Hwk Hwf) as (_ & _ & HQ). intros p. split.
  - intros (r & Hr & Hpr). apply Hsnd in Hr as [Hr|(y & [k e] & Hy & Hin & Hl' & _ & Hs)]; [rewrite Hnil in Hr; set_solver|].
    destruct (Hs p Hpr) as (x & Hx & Hxk & ->). rewrite Z.add_0_l in Hxk. exists x. assert (Hx48 : x mod 2 ^ 48 = x) by (apply Z.mod_small; unfold in_range in Hx; lia).
    split; [unfold va_in; by rewrite Hx48|]. unfold pt_lookup, translate. by rewrite (walk_same_leaf 3 _ _ x y k e).
  - intros (x & Hx & Hlk). unfold pt_lookup in Hlk. rewrite <- translate_mod in Hlk. change (size 4) with (2 ^ 48) in Hlk.
    unfold translate in Hlk. destruct (walk encr 3 (mem s) pagebase (x mod 2 ^ 48)) as [[k e]|] eqn:Ew; [|done].
    destruct (HQ x (k, e) Hx Ew) as [_ Hph]. simpl in Hlk. injection Hlk as <-. by apply Hph.
Qed.

(** C22: [update_map_flags] gives every mapping of the range the flags asked for, leaves
    physical addresses and everything else as it was, keeps the tables well formed, and
    has every mapping it changed invalidated on the processors; it only stops early when
    a mapping must be split and there is no memory for a table. *)
Theorem update_map_flags_protects s f v length flags : pt_wf encr pagebase s f -> range_ok s v length -> good_flags encr flags ->
  exists s', update_map_flags encr pagebase initialized s v length flags = Some s' /\
    (free_pages s' = [] \/
     (exists f', pt_wf encr pagebase s' f') /\
     (forall x, pt_lookup encr pagebase s' x =
        if decide (va_in v length x) then (fun o => (fst o, attrs flags)) <$> pt_lookup encr pagebase s x else pt_lookup encr pagebase s x) /\
     forall x k e, va_in v length x -> mapping_at s x = Some (k, e) -> covered initialized s' k (x mod 2 ^ 48)).
Proof.
  intros Hwf Hr Hfl. destruct (range_split_bits s v length Hr) as (Ev & Hq & Hva & Hva0 & Hhi0 & El).
  destruct Hr as [Hv Hp [Hl0 Hl] Hfit Hsp]. unfold update_map_flags. set (s0 := get_page_flush_entry s).
  destruct (traverse_update encr Hencr initialized (v / 2 ^ 48) (v mod 2 ^ 48) (v mod 2 ^ 48 + length)
    Hq Hva Hfit Hva0 Hhi0 flags Hfl pagebase s0 f) as (ok & s' & E & Hok); [by apply flush_entry_wf|done|].
  rewrite <- Ev, El in E. rewrite E. cbn [mbind option_bind]. exists s'. split; [done|]. destruct ok; [right|by left].
  destruct Hok as (u & f' & Hwk). destruct (walked_lookup _ _ _ _ _ _ _ _ _ _ Hwk) as (Hwf' & Hlk & HQ); [by apply flush_entry_wf|].
  split; [eauto|]. split.
  - intros x. rewrite Hlk. case_decide; [|done]. change (pt_lookup encr pagebase s0 x) with (pt_lookup encr pagebase s x). by destruct (pt_lookup encr pagebase s x).
  - intros x k e Hin He. by apply (HQ x (k, e)).
Qed.

Lemma writable_attr e : pageflags_is_writable (flags_from_pte encr e) = pageflags_is_writable (attr encr e).
Proof.
  unfold pageflags_is_writable, attr. change PAGE_WRITABLE with (2 ^ 1). rewrite !has_pow2 by lia. rewrite Z.land_spec, not64_spec by lia.
  change PAGE_NO_PS with (2 ^ 9). rewrite Z.pow2_bits_eqb by lia. simpl. by rewrite andb_true_r.
Qed.

Lemma validate_top h ok s f v length : pt_wf encr pagebase s f -> 0 <= v < 2 ^ 64 -> 0 < length -> v mod 2 ^ 48 + length <= 2 ^ 48 ->
  (forall s d addr entry, (d <= 3)%nat -> h s (4 - Z.of_nat d) addr entry =
     Some (match kind d (mem s entry) with Absent => false | Leaf => ok (mem s entry) | Sub => true end, s)) ->
  exists b, traverse_ptes encr pagebase s v length h = Some (b, s) /\
    (b = true <-> forall x, va_in v length x -> exists l, mapping_at s x = Some l /\ ok l.2 = true).
Proof.
  intros [Ht _ _] Hv Hl Hfit Hh. unfold traverse_ptes. change PT_FIRST_LEVEL with (4 - Z.of_nat 3).
  pose proof (Z.div_mod v (2 ^ 48)). pose proof (Z.mod_pos_bound v (2 ^ 48)).
  assert (Hq : 0 <= v / 2 ^ 48 < 2 ^ 16) by (split; [apply Z.div_pos; lia|apply Z.div_lt_upper_bound; lia]).
  destruct (validate_level encr (v / 2 ^ 48) (v mod 2 ^ 48) (v mod 2 ^ 48 + length) Hq ltac:(lia) Hfit h ok Hh 3 ltac:(lia) s pagebase f 0 Ht)
    as (b & E & Hb); [lia|done|done|lia|change (size 4) with (2 ^ 48); lia|].
  replace (v / 2 ^ 48 * 2 ^ 48 + v mod 2 ^ 48) with v in E by lia. rewrite Z.add_simpl_l in E. exists b. split; [done|]. rewrite Hb.
  split.
  - intros Hall x Hx. apply Hall; [change (size 4) with (2 ^ 48); apply Z.mod_pos_bound; lia|done|by rewrite Z.add_0_l].
  - intros Hall y Hy _ Hin. rewrite Z.add_0_l in Hin. specialize (Hall y). unfold va_in, mapping_at in Hall.
    rewrite (Z.mod_small y) in Hall by (change (size 4) with (2 ^ 48) in Hy; lia). by apply Hall.
Qed.

End Ops.

(** ** Examples *)

Lemma walk_page encr d m t y : walk encr d m t (y / 4096 * 4096) = walk encr d m t y.
Proof.
  apply walk_ext. intros k _. unfold index. replace (size k) with (4096 * 2 ^ (9 * Z.of_nat k)).
  - rewrite <- !Z.div_div, Z.div_mul by lia. done.
  - unfold size, shift. by rewrite Z.pow_add_r by lia.
Qed.

(** The condition on mappings, page by page. *)
Lemma splittable_check encr va hi m t : va mod 4096 = 0 -> hi mod 4096 = 0 ->
  forallb (fun n => match walk encr 3 m t (n * 4096) with Some (k, _) => (k <=? 1)%nat | None => true end)
    (seqZ (va / 4096) ((hi - va) / 4096)) = true ->
  splittable encr va hi (fun _ => True) 3 m t 0.
Proof.
  intros Hva Hhi Hall y k e Hy _ Hin Hw. right. rewrite forallb_forall in Hall. specialize (Hall (y / 4096)).
  rewrite walk_page, Hw in Hall. apply Nat.leb_le, Hall, list_elem_of_In, elem_of_seqZ. unfold in_range in Hin.
  Z.to_euclidean_division_equations; lia.
Qed.

(** Two pages inside of a block. *)
Lemma two_blocks_range : range_ok 0 0x100000 two_blocks 0xffff800000401000 0x2000.
Proof.
  split; [done|done|done|by vm_compute|]. apply splittable_check; [done|done|]. vm_compute. done.
Qed.

Lemma unmap_unmaps_witness : exists s', unmap 0 0x100000 true two_blocks 0xffff800000401000 0x2000 = Some s' /\
  pt_lookup 0 0x100000 s' 0xffff800000402000 = None /\ pt_lookup 0 0x100000 s' 0xffff800000403000 = Some (0x803000, 3) /\
  covered true s' 1 0x800000401000.
Proof.
  destruct two_blocks_wf as [f Hwf].
  destruct (unmap_unmaps 0 eq_refl 0x100000 true two_blocks f 0xffff800000401000 0x2000 Hwf two_blocks_range) as (s' & E & [H|(_ & H & Hc)]).
  - exfalso. apply (f_equal (fun o => if o is Some s then free_pages s else [0])) in E. rewrite H in E. vm_compute in E. discriminate E.
  - exists s'. split; [done|]. rewrite !H. split; [by vm_compute|]. split; [by vm_compute|].
    specialize (Hc 0x800000401000 1%nat 0x800083). replace (0x800000401000 mod 2 ^ 48) with 0x800000401000 in Hc by by vm_compute.
    apply Hc.
    + vm_compute. split; [discriminate|reflexivity].
    + vm_compute. reflexivity.
Defined.

Lemma update_map_flags_protects_witness : exists s', update_map_flags 0 0x100000 true two_blocks 0xffff800000401000 0x2000 0 = Some s' /\
  pt_lookup 0 0x100000 s' 0xffff800000402000 = Some (0x802000, 1) /\ pt_lookup 0 0x100000 s' 0xffff800000403000 = Some (0x803000, 3).
Proof.
  destruct two_blocks_wf as [f Hwf].
  destruct (update_map_flags_protects 0 eq_refl 0x100000 true two_blocks f 0xffff800000401000 0x2000 0 Hwf two_blocks_range eq_refl)
    as (s' & E & [H|(_ & H & _)]).
  - exfalso. apply (f_equal (fun o => if o is Some s then free_pages s else [0])) in E. rewrite H in E. vm_compute in E. discriminate E.
  - exists s'. split; [done|]. rewrite !H. split; by vm_compute.
Defined.


(** ** Where the conditions do not hold *)

(** A mapping of 1 GiB. *)
Definition huge : pagemem := if map 0 0x100000 0x1c true boot 0x40000000 0x80000000 0x40000000 PAGE_WRITABLE is Some s then s else boot.

Definition look (s : pagemem) (x : Z) : option Z := __physical_from_virtual_locked 0 0x100000 (mem s) x.

