(* ===== verification/Chacha.v ===== *)
(** The stream cipher: [kernel/src/runtime/crypto/chacha.c].

    The code keeps the sixteen words of the state in an array, runs its rounds on local
    copies of them, adds and encrypts word by word and writes the last block through a
    buffer on the stack.  The specification is the one of the cipher's definition: a
    matrix of four rows on which every column is transformed at once, a block for each
    value of a 64-bit counter, and a key stream that is combined with the message byte by
    byte.  The code is compiled without [KEYSTREAM_ONLY] and [CHACHA_NONCE0_CTR128].
    Arrays have the sizes of the code and [!!!] is indexing. *)

From S2P Require Import Prelude Words.

(** ** The code *)

Definition U8V (v : Z) : Z := Z.land (u8 v) 0xff.
Definition U32V (v : Z) : Z := Z.land (u32 v) 0xffffffff.

Definition ROTATE (v n : Z) : Z := Z.lor (U32V (Z.shiftl v n)) (Z.shiftr v (32 - n)).
Definition PLUS (v w : Z) : Z := U32V (v + w).
Definition PLUSONE (v : Z) : Z := PLUS v 1.

(** The word at [p + i]. *)
Definition U8TO32_LITTLE (p : list Z) (i : nat) : Z :=
  Z.lor (Z.lor (Z.lor (p !!! i) (Z.shiftl (p !!! (i + 1)%nat) 8))
               (Z.shiftl (p !!! (i + 2)%nat) 16)) (Z.shiftl (p !!! (i + 3)%nat) 24).

Definition U32TO8_LITTLE (v : Z) : list Z :=
  [U8V v; U8V (Z.shiftr v 8); U8V (Z.shiftr v 16); U8V (Z.shiftr v 24)].

(** The variables [x0] to [x15] are the elements of a list.  A line of the macro assigns
    to two of them, as in [a = PLUS(a,b); d = ROTATE(XOR(d,a),16);]. *)
Definition quarter_line (n : Z) (a b d : nat) (x : list Z) : list Z :=
  let x := <[a := PLUS (x !!! a) (x !!! b)]> x in
  <[d := ROTATE (Z.lxor (x !!! d) (x !!! a)) n]> x.

Definition QUARTERROUND (a b c d : nat) (x : list Z) : list Z :=
  let x := quarter_line 16 a b d x in
  let x := quarter_line 12 c d b x in
  let x := quarter_line 8 a b d x in
  quarter_line 7 c d b x.

(** The body of the loop over the rounds. *)
Definition two_rounds (x : list Z) : list Z :=
  let x := QUARTERROUND 0 4 8 12 x in
  let x := QUARTERROUND 1 5 9 13 x in
  let x := QUARTERROUND 2 6 10 14 x in
  let x := QUARTERROUND 3 7 11 15 x in
  let x := QUARTERROUND 0 5 10 15 x in
  let x := QUARTERROUND 1 6 11 12 x in
  let x := QUARTERROUND 2 7 8 13 x in
  QUARTERROUND 3 4 9 14 x.

(** [for (i = 20; i > 0; i -= 2)]. *)
Fixpoint rounds_loop (fuel : nat) (i : Z) (x : list Z) : option (list Z) :=
  match fuel with
  | O => None
  | S fuel => if 0 <? i then rounds_loop fuel (i - 2) (two_rounds x) else Some x
  end.

(** "expand 32-byte k" and "expand 16-byte k". *)
Definition sigma : list Z := [101; 120; 112; 97; 110; 100; 32; 51; 50; 45; 98; 121; 116; 101; 32; 107].
Definition tau : list Z := [101; 120; 112; 97; 110; 100; 32; 49; 54; 45; 98; 121; 116; 101; 32; 107].

(** [struct chacha_ctx] is its array [input]. *)
Definition chacha_keysetup (x k : list Z) (kbits : Z) : list Z :=
  let x := <[4%nat := U8TO32_LITTLE k 0]> x in
  let x := <[5%nat := U8TO32_LITTLE k 4]> x in
  let x := <[6%nat := U8TO32_LITTLE k 8]> x in
  let x := <[7%nat := U8TO32_LITTLE k 12]> x in
  let '(k, constants) := if kbits =? 256 then (drop 16 k, sigma) else (k, tau) in
  let x := <[8%nat := U8TO32_LITTLE k 0]> x in
  let x := <[9%nat := U8TO32_LITTLE k 4]> x in
  let x := <[10%nat := U8TO32_LITTLE k 8]> x in
  let x := <[11%nat := U8TO32_LITTLE k 12]> x in
  let x := <[0%nat := U8TO32_LITTLE constants 0]> x in
  let x := <[1%nat := U8TO32_LITTLE constants 4]> x in
  let x := <[2%nat := U8TO32_LITTLE constants 8]> x in
  <[3%nat := U8TO32_LITTLE constants 12]> x.

(** [counter] is [None] for a null pointer. *)
Definition chacha_ivsetup (x iv : list Z) (counter : option (list Z)) : list Z :=
  let x := <[12%nat := if counter is Some c then U8TO32_LITTLE c 0 else 0]> x in
  let x := <[13%nat := if counter is Some c then U8TO32_LITTLE c 4 else 0]> x in
  let x := <[14%nat := U8TO32_LITTLE iv 0]> x in
  <[15%nat := U8TO32_LITTLE iv 4]> x.

Definition next_counter (j : list Z) : list Z :=
  let j := <[12%nat := PLUSONE (j !!! 12%nat)]> j in
  if j !!! 12%nat =? 0 then <[13%nat := PLUSONE (j !!! 13%nat)]> j else j.

(** [m] is what is left of the message, [c] what is written of the output, [tmp] the
    buffer on the stack, which is not initialised. *)
Fixpoint encrypt_loop (fuel : nat) (tmp j m c : list Z) (bytes : Z) : option (list Z * list Z) :=
  match fuel with
  | O => None
  | S fuel =>
      let m := if bytes <? 64 then take (Z.to_nat bytes) m ++ drop (Z.to_nat bytes) tmp else m in
      x ← rounds_loop 11 20 j;
      let x := zip_with PLUS x j in
      let x := imap (fun i w => Z.lxor w (U8TO32_LITTLE m (4 * i))) x in
      let j := next_counter j in
      let out := x ≫= U32TO8_LITTLE in
      if bytes <=? 64 then Some (j, c ++ (if bytes <? 64 then take (Z.to_nat bytes) out else out))
      else encrypt_loop fuel tmp j (drop 64 m) (c ++ out) (u32 (bytes - 64))
  end.

(** The context and the bytes written to [c]. *)
Definition chacha_encrypt_bytes (tmp x m : list Z) (bytes : Z) : option (list Z * list Z) :=
  if bytes =? 0 then Some (x, [])
  else
    '(j, c) ← encrypt_loop (S (Z.to_nat (bytes / 64))) tmp x m [] bytes;
    Some (<[13%nat := j !!! 13%nat]> (<[12%nat := j !!! 12%nat]> x), c).

(** ** The specification *)

Record rows := Rows { ra : list Z; rb : list Z; rc : list Z; rd : list Z }.

Definition add32 (x y : Z) : Z := (x + y) mod 2 ^ 32.
Definition rotl (n x : Z) : Z := (x * 2 ^ n) mod 2 ^ 32 + x / 2 ^ (32 - n).

Definition half_round (n1 n2 : Z) (s : rows) : rows :=
  let a := zip_with add32 (ra s) (rb s) in
  let d := rotl n1 <$> zip_with Z.lxor (rd s) a in
  let c := zip_with add32 (rc s) d in
  let b := rotl n2 <$> zip_with Z.lxor (rb s) c in
  Rows a b c d.

Definition column_round (s : rows) : rows := half_round 8 7 (half_round 16 12 s).

(** The rows turned left, each by its own number of places. *)
Definition turn (n : nat) (l : list Z) : list Z := drop n l ++ take n l.
Definition turn_rows (i j k : nat) (s : rows) : rows := Rows (ra s) (turn i (rb s)) (turn j (rc s)) (turn k (rd s)).

Definition double_round (s : rows) : rows := turn_rows 3 2 1 (column_round (turn_rows 1 2 3 (column_round s))).

Definition rows_words (s : rows) : list Z := ra s ++ rb s ++ rc s ++ rd s.

(** The little-endian words of a sequence of bytes. *)
Definition words_of (l : list Z) : list Z := (fun i => le_join (take 4 (drop (4 * i) l))) <$> seq 0 (length l / 4).

Definition block_state (key nonce : list Z) (n : Z) : rows :=
  let constants := if (length key =? 32)%nat then sigma else tau in
  let keys := if (length key =? 32)%nat then words_of key else words_of (key ++ key) in
  Rows (words_of constants) (take 4 keys) (drop 4 keys) (words_of (le_split 8 n) ++ words_of nonce).

(** The block for the counter [n], which is taken modulo [2 ^ 64]. *)
Definition block (key nonce : list Z) (n : Z) : list Z :=
  let s := block_state key nonce n in
  zip_with add32 (rows_words (Nat.iter 10 double_round s)) (rows_words s) ≫= le_split 4.

(** The first [len] bytes of the key stream from block [n]. *)
Definition keystream (key nonce : list Z) (n : Z) (len : nat) : list Z :=
  (fun i => block key nonce (n + Z.of_nat (i / 64)) !!! (i mod 64)%nat) <$> seq 0 len.

(** The context of the code at block [n]. *)
Definition context (key nonce : list Z) (n : Z) : list Z := rows_words (block_state key nonce n).

(** ** Words *)

Lemma plus_add32 v w : PLUS v w = add32 v w.
Proof.
  unfold PLUS, U32V, u32, add32. change 0xffffffff with (Z.ones 32). rewrite Z.land_ones by lia. apply Z.mod_mod. lia.
Qed.

Lemma add32_u32 x y : is_u32 (add32 x y).
Proof. apply Z.mod_pos_bound. lia. Qed.

Lemma rotate_rotl v n : is_u32 v -> 0 < n < 32 -> ROTATE v n = rotl n v /\ is_u32 (rotl n v).
Proof.
  unfold is_u32. intros Hv Hn. unfold ROTATE, rotl, U32V, u32. change 0xffffffff with (Z.ones 32).
  rewrite Z.land_ones, Z.mod_mod, Z.shiftl_mul_pow2, shiftr_div by lia.
  assert (H32 : 2 ^ 32 = 2 ^ n * 2 ^ (32 - n)) by (rewrite <- Z.pow_add_r by lia; f_equal; lia).
  assert (Hp : 0 < 2 ^ n /\ 0 < 2 ^ (32 - n)) by (split; lia).
  rewrite H32, (Z.mul_comm (2 ^ n) (2 ^ (32 - n))), Z.mul_mod_distr_r by lia.
  assert (Hq : 0 <= v / 2 ^ (32 - n) < 2 ^ n).
  { split; [apply Z.div_pos; lia|]. apply Z.div_lt_upper_bound; lia. }
  pose proof (Z.mod_pos_bound v (2 ^ (32 - n)) ltac:(lia)). split; [|nia].
  rewrite lor_pow2 by lia. lia.
Qed.

(** ** Rounds *)

(** What a quarter round makes of its four words, the code's and the specification's. *)
Definition quarter (plus : Z -> Z -> Z) (rot : Z -> Z -> Z) (a b c d : Z) : Z * Z * Z * Z :=
  let a1 := plus a b in let d1 := rot 16 (Z.lxor d a1) in
  let c1 := plus c d1 in let b1 := rot 12 (Z.lxor b c1) in
  let a2 := plus a1 b1 in let d2 := rot 8 (Z.lxor d1 a2) in
  let c2 := plus c1 d2 in let b2 := rot 7 (Z.lxor b1 c2) in
  (a2, b2, c2, d2).

Definition quarter_code := quarter PLUS (fun n v => ROTATE v n).
Definition quarter_spec := quarter add32 rotl.

Lemma quarter_ok a b c d : is_u32 a -> is_u32 b -> is_u32 c -> is_u32 d ->
  exists a' b' c' d', quarter_code a b c d = (a', b', c', d') /\ quarter_spec a b c d = (a', b', c', d') /\
    is_u32 a' /\ is_u32 b' /\ is_u32 c' /\ is_u32 d'.
Proof.
  intros Ha Hb Hc Hd. unfold quarter_code, quarter_spec, quarter. rewrite !plus_add32.
  pose proof (add32_u32 a b) as Ha1. set (a1 := add32 a b) in *.
  destruct (rotate_rotl (Z.lxor d a1) 16) as [-> Hd1]; [by apply lxor_word|lia|]. set (d1 := rotl 16 _) in *.
  pose proof (add32_u32 c d1) as Hc1. set (c1 := add32 c d1) in *.
  destruct (rotate_rotl (Z.lxor b c1) 12) as [-> Hb1]; [by apply lxor_word|lia|]. set (b1 := rotl 12 _) in *.
  pose proof (add32_u32 a1 b1) as Ha2. set (a2 := add32 a1 b1) in *.
  destruct (rotate_rotl (Z.lxor d1 a2) 8) as [-> Hd2]; [by apply lxor_word|lia|]. set (d2 := rotl 8 _) in *.
  pose proof (add32_u32 c1 d2) as Hc2. set (c2 := add32 c1 d2) in *.
  destruct (rotate_rotl (Z.lxor b1 c2) 7) as [-> Hb2]; [by apply lxor_word|lia|].
  do 4 eexists. split; [reflexivity|]. split; [reflexivity|]. done.
Qed.

Definition rows_ok (s : rows) : Prop :=
  length (ra s) = 4%nat /\ length (rb s) = 4%nat /\ length (rc s) = 4%nat /\ length (rd s) = 4%nat /\
  Forall is_u32 (rows_words s).

Lemma list_eq_total (x y : list Z) : length x = length y ->
  (forall i, (i < length x)%nat -> x !!! i = y !!! i) -> x = y.
Proof.
  intros Hl H. apply (list_eq_same_length _ _ (length x)); [done..|]. intros i u v Hi Hu Hv.
  apply list_lookup_total_correct in Hu as <-, Hv as <-. by apply H.
Qed.

Lemma quarter_line_length n a b d x : length (quarter_line n a b d x) = length x.
Proof. unfold quarter_line. by rewrite !length_insert. Qed.

Lemma quarter_line_total n a b d x i : (i < length x)%nat -> (a < length x)%nat -> a <> d ->
  quarter_line n a b d x !!! i =
    if decide (i = d) then ROTATE (Z.lxor (x !!! d) (PLUS (x !!! a) (x !!! b))) n
    else if decide (i = a) then PLUS (x !!! a) (x !!! b) else x !!! i.
Proof.
  intros Hi Ha Hne. unfold quarter_line. rewrite list_lookup_total_insert_eq, (list_lookup_total_insert_ne _ a d) by done.
  repeat case_decide; subst; rewrite ?list_lookup_total_insert_eq, ?list_lookup_total_insert_ne, ?list_lookup_total_insert_eq
    by (rewrite ?length_insert; done); done.
Qed.

Section Four.
Context (x : list Z) (ia ib ic id : nat).
Hypothesis Hlt : (ia < length x)%nat /\ (ib < length x)%nat /\ (ic < length x)%nat /\ (id < length x)%nat.
Hypothesis Hne : ia <> ib /\ ia <> ic /\ ia <> id /\ ib <> ic /\ ib <> id /\ ic <> id.

(** [y] is [x] with other words at the four places. *)
Definition with_four (a b c d : Z) (y : list Z) : Prop :=
  length y = length x /\ y !!! ia = a /\ y !!! ib = b /\ y !!! ic = c /\ y !!! id = d /\
  forall i, (i < length x)%nat -> i <> ia -> i <> ib -> i <> ic -> i <> id -> y !!! i = x !!! i.

Lemma four_first n a b c d y : with_four a b c d y ->
  with_four (PLUS a b) b c (ROTATE (Z.lxor d (PLUS a b)) n) (quarter_line n ia ib id y).
Proof.
  intros (Hl & <- & <- & <- & <- & Ho). split; [by rewrite quarter_line_length|].
  repeat split; intros; rewrite quarter_line_total by lia; repeat case_decide; lia || auto.
Qed.

Lemma four_second n a b c d y : with_four a b c d y ->
  with_four a (ROTATE (Z.lxor b (PLUS c d)) n) (PLUS c d) d (quarter_line n ic id ib y).
Proof.
  intros (Hl & <- & <- & <- & <- & Ho). split; [by rewrite quarter_line_length|].
  repeat split; intros; rewrite quarter_line_total by lia; repeat case_decide; lia || auto.
Qed.

Lemma quarterround_list a b c d :
  quarter_code (x !!! ia) (x !!! ib) (x !!! ic) (x !!! id) = (a, b, c, d) ->
  QUARTERROUND ia ib ic id x = <[ia := a]> (<[ib := b]> (<[ic := c]> (<[id := d]> x))).
Proof.
  intros [= <- <- <- <-]. unfold QUARTERROUND. assert (H : with_four (x !!! ia) (x !!! ib) (x !!! ic) (x !!! id) x) by done.
  apply (four_first 16), (four_second 12), (four_first 8), (four_second 7) in H as (Hl & H1 & H2 & H3 & H4 & Ho).
  apply list_eq_total; [by rewrite Hl, !length_insert|]. intros i Hi. rewrite Hl in Hi.
  destruct (decide (i = ia)) as [->|]; [|destruct (decide (i = ib)) as [->|]; [|destruct (decide (i = ic)) as [->|];
    [|destruct (decide (i = id)) as [->|]]]];
    rewrite ?list_lookup_total_insert_ne by lia; rewrite ?list_lookup_total_insert_eq by (rewrite ?length_insert; lia); auto.
Qed.
End Four.

(** Replaces a quarter round on a list of variables by the list of its results, given by
    [E : quarter_code _ _ _ _ = (a', b', c', d')]. *)
Ltac quarter_step E :=
  match goal with
  | |- context [QUARTERROUND ?a ?b ?c ?d (?z :: ?l)] =>
      match type of E with
      | _ = (?a', ?b', ?c', ?d') =>
          let y := eval cbn in (<[a := a']> (<[b := b']> (<[c := c']> (<[d := d']> (z :: l))))) in
          replace (QUARTERROUND a b c d (z :: l)) with y
            by (symmetry; apply (quarterround_list (z :: l) a b c d ltac:(cbn; lia) ltac:(lia) _ _ _ _ E))
      end
  end.

(** Four quarter rounds on disjoint words, as the rows of the results. *)
Lemma columns_spec x0 x1 x2 x3 x4 x5 x6 x7 x8 x9 x10 x11 x12 x13 x14 x15 a0 a1 a2 a3 b0 b1 b2 b3 c0 c1 c2 c3 d0 d1 d2 d3 :
  quarter_spec x0 x4 x8 x12 = (a0, b0, c0, d0) -> quarter_spec x1 x5 x9 x13 = (a1, b1, c1, d1) ->
  quarter_spec x2 x6 x10 x14 = (a2, b2, c2, d2) -> quarter_spec x3 x7 x11 x15 = (a3, b3, c3, d3) ->
  column_round (Rows [x0; x1; x2; x3] [x4; x5; x6; x7] [x8; x9; x10; x11] [x12; x13; x14; x15]) =
  Rows [a0; a1; a2; a3] [b0; b1; b2; b3] [c0; c1; c2; c3] [d0; d1; d2; d3].
Proof.
  unfold quarter_spec, quarter. intros [= <- <- <- <-] [= <- <- <- <-] [= <- <- <- <-] [= <- <- <- <-]. reflexivity.
Qed.

Ltac list4 l H :=
  let a := fresh "x" in let b := fresh "x" in let c := fresh "x" in let d := fresh "x" in
  destruct l as [|a [|b [|c [|d [|]]]]]; try discriminate H; clear H.

Lemma two_rounds_spec s : rows_ok s -> two_rounds (rows_words s) = rows_words (double_round s) /\ rows_ok (double_round s).
Proof.
  destruct s as [a b c d]. intros (Ha & Hb & Hc & Hd & Hw). cbn [ra rb rc rd] in *.
  list4 a Ha. list4 b Hb. list4 c Hc. list4 d Hd. unfold rows_words in Hw. cbn [ra rb rc rd app] in Hw.
  decompose_Forall_hyps.
  destruct (quarter_ok x x3 x7 x11) as (a0 & b0 & c0 & d0 & E0 & S0 & ? & ? & ? & ?); try done.
  destruct (quarter_ok x0 x4 x8 x12) as (a1 & b1 & c1 & d1 & E1 & S1 & ? & ? & ? & ?); try done.
  destruct (quarter_ok x1 x5 x9 x13) as (a2 & b2 & c2 & d2 & E2 & S2 & ? & ? & ? & ?); try done.
  destruct (quarter_ok x2 x6 x10 x14) as (a3 & b3 & c3 & d3 & E3 & S3 & ? & ? & ? & ?); try done.
  destruct (quarter_ok a0 b1 c2 d3) as (e0 & f0 & g0 & h0 & E4 & S4 & ? & ? & ? & ?); try done.
  destruct (quarter_ok a1 b2 c3 d0) as (e1 & f1 & g1 & h1 & E5 & S5 & ? & ? & ? & ?); try done.
  destruct (quarter_ok a2 b3 c0 d1) as (e2 & f2 & g2 & h2 & E6 & S6 & ? & ? & ? & ?); try done.
  destruct (quarter_ok a3 b0 c1 d2) as (e3 & f3 & g3 & h3 & E7 & S7 & ? & ? & ? & ?); try done.
  unfold double_round. rewrite (columns_spec _ _ _ _ _ _ _ _ _ _ _ _ _ _ _ _ _ _ _ _ _ _ _ _ _ _ _ _ _ _ _ _ S0 S1 S2 S3).
  unfold turn_rows at 2 4, turn. cbn [ra rb rc rd drop take app].
  rewrite (columns_spec _ _ _ _ _ _ _ _ _ _ _ _ _ _ _ _ _ _ _ _ _ _ _ _ _ _ _ _ _ _ _ _ S4 S5 S6 S7).
  unfold turn_rows, turn. cbn [ra rb rc rd drop take app]. split.
  - unfold two_rounds, rows_words. cbv zeta. cbn [ra rb rc rd app].
    quarter_step E0. quarter_step E1. quarter_step E2. quarter_step E3.
    quarter_step E4. quarter_step E5. quarter_step E6. quarter_step E7. reflexivity.
  - unfold rows_ok, rows_words. cbn [ra rb rc rd app length]. repeat split. repeat (constructor; [done|]). constructor.
Qed.

Lemma rounds_spec s : rows_ok s ->
  rounds_loop 11 20 (rows_words s) = Some (rows_words (Nat.iter 10 double_round s)) /\ rows_ok (Nat.iter 10 double_round s).
Proof.
  intros Hs. assert (Hr : forall n x, rounds_loop (S n) (2 * Z.of_nat n) x = Some (Nat.iter n two_rounds x)).
  { induction n as [|n IH]; intros x; [done|]. cbn [rounds_loop] in *. rewrite (proj2 (Z.ltb_lt _ _)) by lia.
    replace (2 * Z.of_nat (S n) - 2) with (2 * Z.of_nat n) by lia. rewrite IH. f_equal. symmetry. apply Nat.iter_succ_r. }
  assert (H : forall n, Nat.iter n two_rounds (rows_words s) = rows_words (Nat.iter n double_round s) /\
    rows_ok (Nat.iter n double_round s)).
  { induction n as [|n [IH1 IH2]]; [done|]. cbn [Nat.iter nat_rect]. unfold Nat.iter in IH1. rewrite IH1. by apply two_rounds_spec. }
  destruct (H 10%nat) as [<- H2]. split; [apply (Hr 10%nat)|done].
Qed.

(** ** Bytes *)

Lemma lookup_total_drop_add (l : list Z) n i : drop n l !!! i = l !!! (n + i)%nat.
Proof. by rewrite !list_lookup_total_alt, lookup_drop. Qed.

Lemma u8to32_drop p n i : U8TO32_LITTLE (drop n p) i = U8TO32_LITTLE p (n + i).
Proof. unfold U8TO32_LITTLE. rewrite !lookup_total_drop_add, !Nat.add_assoc. done. Qed.

Lemma u8to32_join p i : Forall is_byte p -> (i + 4 <= length p)%nat -> U8TO32_LITTLE p i = le_join (take 4 (drop i p)).
Proof.
  intros Hp Hi. rewrite <- (Nat.add_0_r i) at 1. rewrite <- u8to32_drop.
  assert (Hd : Forall is_byte (drop i p)) by by apply Forall_drop. assert (Hl : (4 <= length (drop i p))%nat) by (rewrite length_drop; lia).
  destruct (drop i p) as [|a [|b [|c [|d l]]]]; try (cbn in Hl; lia). decompose_Forall_hyps.
  unfold U8TO32_LITTLE, is_byte in *. cbn [lookup_total list_lookup_total Nat.add take le_join].
  rewrite !Z.shiftl_mul_pow2 by lia. rewrite (Z.lor_comm a), (lor_pow2 b a) by lia.
  rewrite (Z.lor_comm _ (c * _)), (lor_pow2 c) by lia. rewrite (Z.lor_comm _ (d * _)), (lor_pow2 d) by lia. lia.
Qed.

Lemma u32to8_split v : U32TO8_LITTLE v = le_split 4 v.
Proof.
  assert (H : forall w, U8V w = w mod 256).
  { intros w. unfold U8V, u8. change 0xff with (Z.ones 8). rewrite Z.land_ones by lia. apply Z.mod_mod. lia. }
  unfold U32TO8_LITTLE. rewrite !H, !shiftr_div by lia. cbn [le_split]. rewrite !Z.div_div by lia. done.
Qed.

Lemma le_split_lxor n : forall v w, le_split n (Z.lxor v w) = zip_with Z.lxor (le_split n v) (le_split n w).
Proof.
  induction n as [|n IH]; intros v w; [done|]. cbn [le_split zip_with]. f_equal.
  - change 256 with (2 ^ 8). rewrite <- !Z.land_ones by lia. apply Z.bits_inj'. intros i Hi.
    rewrite !Z.land_spec, !Z.lxor_spec, !Z.land_spec. by destruct (Z.testbit v i), (Z.testbit w i), (Z.testbit (Z.ones 8) i).
  - change 256 with (2 ^ 8). rewrite <- !Z.shiftr_div_pow2 by lia. by rewrite Z.shiftr_lxor, IH.
Qed.

(** Combining words with the words of the message is combining their bytes. *)
Lemma xor_words x : forall m, Forall is_byte m -> (4 * length x <= length m)%nat ->
  imap (fun i w => Z.lxor w (U8TO32_LITTLE m (4 * i))) x ≫= U32TO8_LITTLE = zip_with Z.lxor (x ≫= le_split 4) m.
Proof.
  induction x as [|w x IH]; intros m Hm Hl; [done|]. rewrite imap_cons. cbn [mbind list_bind].
  transitivity (zip_with Z.lxor (le_split 4 w ++ (x ≫= le_split 4)) (take 4 m ++ drop 4 m)); [|by rewrite take_drop].
  rewrite zip_with_app by (rewrite length_le_split, length_take; cbn [length] in Hl; lia). f_equal.
  - rewrite u32to8_split, le_split_lxor, u8to32_join by (done || (cbn [length] in Hl; lia)). f_equal.
    rewrite drop_0. rewrite <- (le_split_join (take 4 m)) at 2 by by apply Forall_take.
    by rewrite length_take_le by (cbn [length] in Hl; lia).
  - rewrite <- IH by (by apply Forall_drop || (rewrite length_drop; cbn [length] in Hl; lia)).
    f_equal. apply imap_ext. intros i y _. cbn [compose]. rewrite u8to32_drop. do 2 f_equal. lia.
Qed.

Lemma words_of_u8 l n : Forall is_byte l -> length l = (4 * n)%nat ->
  words_of l = (fun i => U8TO32_LITTLE l (4 * i)) <$> seq 0 n.
Proof.
  intros Hl Hn. unfold words_of. rewrite Hn, Nat.mul_comm, Nat.div_mul by lia. apply list_fmap_ext. intros j i Hi.
  apply lookup_seq in Hi as [-> Hi]. rewrite u8to32_join by (done || lia). done.
Qed.

Lemma words_of_ok l : Forall is_byte l -> length (words_of l) = (length l / 4)%nat /\ Forall is_u32 (words_of l).
Proof.
  intros Hl. unfold words_of. rewrite length_fmap, length_seq. split; [done|]. apply Forall_fmap, Forall_true. intros i. cbn.
  pose proof (le_join_range (take 4 (drop (4 * i) l)) ltac:(by apply Forall_take, Forall_drop)) as H. unfold is_u32.
  rewrite length_take in H. split; [apply H|]. eapply Z.lt_le_trans; [apply H|].
  change (2 ^ 32) with (256 ^ 4). apply Z.pow_le_mono_r; lia.
Qed.

(** ** Contexts *)

Definition valid_key (key : list Z) : Prop := Forall is_byte key /\ (length key = 32%nat \/ length key = 16%nat).
Definition valid_nonce (nonce : list Z) : Prop := Forall is_byte nonce /\ length nonce = 8%nat.

Lemma counter_words n : words_of (le_split 8 n) = [n mod 2 ^ 32; n / 2 ^ 32 mod 2 ^ 32].
Proof.
  unfold words_of. rewrite length_le_split. cbn [Nat.div Nat.divmod fst seq fmap list_fmap].
  f_equal; [|f_equal].
  - change (take 4 (drop (4 * 0) (le_split 8 n))) with (le_split 4 n). by rewrite le_join_split.
  - change (take 4 (drop (4 * 1) (le_split 8 n))) with (le_split 4 (n / 256 / 256 / 256 / 256)).
    rewrite le_join_split, !Z.div_div by lia. done.
Qed.

Lemma constants_bytes : Forall is_byte sigma /\ Forall is_byte tau.
Proof. split; repeat (constructor; [unfold is_byte; lia|]); constructor. Qed.

Lemma block_state_ok key nonce n : valid_key key -> valid_nonce nonce -> rows_ok (block_state key nonce n).
Proof.
  intros [Hk Hl] [Hn Hnl]. unfold rows_ok, block_state, rows_words. cbn [ra rb rc rd].
  destruct (words_of_ok nonce Hn) as [N1 N2]. rewrite counter_words. rewrite Hnl in N1.
  set (keys := if (length key =? 32)%nat then words_of key else words_of (key ++ key)).
  assert (Hkeys : length keys = 8%nat /\ Forall is_u32 keys).
  { unfold keys. destruct Hl as [E|E]; rewrite E; cbn [Nat.eqb].
    - destruct (words_of_ok key Hk) as [-> ?]. by rewrite E.
    - destruct (words_of_ok (key ++ key)) as [-> ?]; [by apply Forall_app|]. by rewrite length_app, E. }
  set (con := if (length key =? 32)%nat then sigma else tau).
  assert (Hc : length (words_of con) = 4%nat /\ Forall is_u32 (words_of con)).
  { destruct constants_bytes, (words_of_ok con) as [-> ?]; unfold con; case_match; done. }
  rewrite !length_app, length_take, length_drop, N1. cbn [length]. destruct Hkeys as [K1 K2]. rewrite K1.
  repeat split; try apply Hc. repeat apply Forall_app_2; try apply Hc; try done.
  - by apply Forall_take.
  - by apply Forall_drop.
  - repeat constructor; apply Z.mod_pos_bound; lia.
Qed.

(** A context is twelve words of the key, two of the counter and two of the nonce. *)
Lemma context_split key nonce : valid_key key -> valid_nonce nonce ->
  exists p q0 q1, length p = 12%nat /\ forall n, context key nonce n = p ++ [n mod 2 ^ 32; n / 2 ^ 32 mod 2 ^ 32; q0; q1].
Proof.
  intros Hk Hn. destruct (block_state_ok key nonce 0 Hk Hn) as (Ha & Hb & Hc & Hd & _).
  unfold context, block_state, rows_words in *. cbn [ra rb rc rd] in *. rewrite counter_words in Hd.
  destruct (words_of nonce) as [|q0 [|q1 [|]]]; try discriminate Hd.
  set (c := words_of (if (length key =? 32)%nat then sigma else tau)) in *.
  set (keys := if (length key =? 32)%nat then words_of key else words_of (key ++ key)) in *.
  exists (c ++ take 4 keys ++ drop 4 keys), q0, q1. split; [by rewrite !length_app, Ha, Hb, Hc|].
  intros n. by rewrite counter_words, <- !app_assoc.
Qed.

Lemma next_context key nonce n : valid_key key -> valid_nonce nonce ->
  next_counter (context key nonce n) = context key nonce (n + 1).
Proof.
  intros Hk Hn. unfold next_counter. destruct (context_split key nonce Hk Hn) as (p & q0 & q1 & Hp & Hc). rewrite !Hc. cbv zeta.
  do 12 (destruct p as [|? p]; [discriminate Hp|]). destruct p; [|discriminate Hp]. clear Hp Hc.
  cbn [app lookup_total list_lookup_total insert list_insert]. unfold PLUSONE. rewrite !plus_add32. unfold add32.
  rewrite Zplus_mod_idemp_l. pose proof (Z.mod_pos_bound n (2 ^ 32) ltac:(lia)). pose proof (Z.div_mod n (2 ^ 32) ltac:(lia)).
  destruct (Z.eqb_spec ((n + 1) mod 2 ^ 32) 0) as [E|E].
  - rewrite Zplus_mod_idemp_l. replace ((n + 1) / 2 ^ 32) with (n / 2 ^ 32 + 1); [done|].
    pose proof (Z.div_mod (n + 1) (2 ^ 32) ltac:(lia)). nia.
  - replace ((n + 1) / 2 ^ 32) with (n / 2 ^ 32); [done|].
    pose proof (Z.div_mod (n + 1) (2 ^ 32) ltac:(lia)). pose proof (Z.mod_pos_bound (n + 1) (2 ^ 32) ltac:(lia)). nia.
Qed.

(** Encrypting writes nothing but the counter. *)
Lemma store_counter key nonce n n' : valid_key key -> valid_nonce nonce ->
  <[13%nat := context key nonce n' !!! 13%nat]> (<[12%nat := context key nonce n' !!! 12%nat]> (context key nonce n)) =
  context key nonce n'.
Proof.
  intros Hk Hn. destruct (context_split key nonce Hk Hn) as (p & q0 & q1 & Hp & Hc). rewrite !Hc.
  do 12 (destruct p as [|? p]; [discriminate Hp|]). by destruct p; [|discriminate Hp].
Qed.

(** The set-up of the code makes the context of the first block. *)
Lemma setup_context x key nonce counter kbits : length x = 16%nat -> valid_key key -> valid_nonce nonce ->
  Forall is_byte counter -> length counter = 8%nat -> kbits = 8 * Z.of_nat (length key) ->
  chacha_ivsetup (chacha_keysetup x key kbits) nonce (Some counter) = context key nonce (le_join counter).
Proof.
  intros Hx [Hk Hl] [Hn Hnl] Hc Hcl ->. unfold context, block_state, rows_words. cbn [ra rb rc rd].
  assert (le_split 8 (le_join counter) = counter) as -> by (rewrite <- Hcl at 1; by apply le_split_join).
  rewrite (words_of_u8 counter 2), (words_of_u8 nonce 2) by done.
  destruct constants_bytes. destruct Hl as [E|E]; rewrite E; cbn [Nat.eqb].
  - rewrite (words_of_u8 key 8), (words_of_u8 sigma 4) by done.
    do 16 (destruct x as [|? x]; [discriminate Hx|]). destruct x; [|discriminate Hx].
    unfold chacha_ivsetup, chacha_keysetup. change (8 * Z.of_nat 32 =? 256) with true. cbv iota beta zeta. rewrite !u8to32_drop. reflexivity.
  - rewrite (words_of_u8 (key ++ key) 8), (words_of_u8 tau 4) by (done || by apply Forall_app || by rewrite length_app, E).
    assert (Hr : forall i, (4 + i <= 16)%nat -> U8TO32_LITTLE (key ++ key) i = U8TO32_LITTLE key i /\
      U8TO32_LITTLE (key ++ key) (16 + i) = U8TO32_LITTLE key i).
    { intros i Hi. rewrite <- u8to32_drop, drop_app_length' by done. split; [|done].
      rewrite !u8to32_join; [|done|lia|by apply Forall_app|rewrite length_app; lia].
      by rewrite drop_app_le, take_app_le by (rewrite ?length_drop; lia). }
    do 16 (destruct x as [|? x]; [discriminate Hx|]). destruct x; [|discriminate Hx].
    unfold chacha_ivsetup, chacha_keysetup. change (8 * Z.of_nat 16 =? 256) with false. cbv iota beta zeta.
    cbn [seq fmap list_fmap take drop app insert list_insert Nat.mul Nat.add].
    destruct (Hr 0%nat), (Hr 4%nat), (Hr 8%nat), (Hr 12%nat); try lia. cbn [Nat.add] in *. congruence.
Qed.

(** ** The key stream *)

Section Stream.
Context (key nonce : list Z).
Hypothesis Hk : valid_key key.
Hypothesis Hn : valid_nonce nonce.

Lemma block_length n : length (block key nonce n) = 64%nat.
Proof.
  unfold block. destruct (block_state_ok key nonce n Hk Hn) as (Ha & Hb & Hc & Hd & _).
  destruct (rounds_spec _ (block_state_ok key nonce n Hk Hn)) as (_ & Ra & Rb & Rc & Rd & _).
  assert (H : forall l : list Z, length (l ≫= le_split 4) = (4 * length l)%nat).
  { induction l as [|w l IH]; [done|]. change (length (le_split 4 w ++ (l ≫= le_split 4)) = 4 * length (w :: l))%nat.
    rewrite length_app, length_le_split, IH. cbn [length]. lia. }
  rewrite H, length_zip_with. unfold rows_words. rewrite !length_app, Ha, Hb, Hc, Hd, Ra, Rb, Rc, Rd. done.
Qed.

Lemma keystream_short n k : (k <= 64)%nat -> keystream key nonce n k = take k (block key nonce n).
Proof.
  intros Hle. apply list_eq_total; unfold keystream; rewrite length_fmap, length_seq; [by rewrite length_take, block_length, Nat.min_l|].
  intros i Hi. apply list_lookup_total_correct. rewrite list_lookup_fmap, lookup_seq_lt by lia. cbn [fmap option_fmap option_map Nat.add].
  rewrite Nat.div_small, Nat.mod_small, Z.add_0_r, lookup_total_take, decide_True by lia. done.
Qed.

Lemma keystream_more n k : keystream key nonce n (64 + k) = block key nonce n ++ keystream key nonce (n + 1) k.
Proof.
  rewrite <- (firstn_all2 (n := 64) (block key nonce n)), <- keystream_short by (rewrite ?block_length; lia).
  unfold keystream. rewrite seq_app, fmap_app. f_equal. change (0 + 64)%nat with (64 + 0)%nat. rewrite <- (fmap_add_seq 64 0 k), <- list_fmap_compose.
  apply list_fmap_ext. intros j i _. cbn [compose]. replace (64 + i)%nat with (i + 1 * 64)%nat by lia.
  rewrite Nat.div_add, Nat.Div0.mod_add by lia. f_equal. f_equal. lia.
Qed.

Lemma keystream_length n k : length (keystream key nonce n k) = k.
Proof. unfold keystream. by rewrite length_fmap, length_seq. Qed.

Lemma zip_take k : forall (l m r : list Z), (k <= length m)%nat ->
  take k (zip_with Z.lxor l (take k m ++ r)) = zip_with Z.lxor (take k l) m.
Proof.
  induction k as [|k IH]; intros l m r Hk'; [done|]. destruct m as [|y m]; [cbn in Hk'; lia|]. destruct l as [|x l]; [done|].
  cbn [take app zip_with]. f_equal. apply IH. cbn in Hk'. lia.
Qed.

(** One turn of the loop produces the block combined with the message. *)
Lemma block_bytes n m : Forall is_byte m -> (64 <= length m)%nat ->
  exists x, rounds_loop 11 20 (context key nonce n) = Some x /\
    imap (fun i w => Z.lxor w (U8TO32_LITTLE m (4 * i))) (zip_with PLUS x (context key nonce n)) ≫= U32TO8_LITTLE =
    zip_with Z.lxor (block key nonce n) m.
Proof.
  intros Hm Hl. pose proof (block_state_ok key nonce n Hk Hn) as Hs. destruct (rounds_spec _ Hs) as [Hr Ho].
  unfold context. rewrite Hr. eexists. split; [reflexivity|]. unfold block.
  assert (Hz : forall u v, zip_with PLUS u v = zip_with add32 u v).
  { induction u as [|a u IH]; intros [|b v]; [done..|]. cbn [zip_with]. by rewrite plus_add32, IH. }
  rewrite Hz. apply xor_words; [done|]. rewrite length_zip_with. unfold rows_words.
  destruct Hs as (Ha & Hb' & Hc & Hd & _). rewrite !length_app, Ha, Hb', Hc, Hd. lia.
Qed.

Lemma encrypt_loop_ok tmp : Forall is_byte tmp -> length tmp = 64%nat -> forall fuel n m c bytes,
  0 < bytes < 2 ^ 32 -> bytes <= Z.of_nat (length m) -> Forall is_byte m -> bytes <= 64 * Z.of_nat fuel ->
  encrypt_loop fuel tmp (context key nonce n) m c bytes =
  Some (context key nonce (n + (bytes + 63) / 64), c ++ zip_with Z.lxor (keystream key nonce n (Z.to_nat bytes)) m).
Proof.
  intros Ht Htl. induction fuel as [|fuel IH]; intros n m c bytes Hb Hm Hmb Hf; [lia|]. cbn [encrypt_loop].
  set (m' := if bytes <? 64 then _ else _).
  assert (Hm' : Forall is_byte m' /\ (64 <= length m')%nat).
  { unfold m'. destruct (Z.ltb_spec bytes 64); [|split; [done|lia]]. split; [apply Forall_app; split; [by apply Forall_take|by apply Forall_drop]|].
    rewrite length_app, length_take, length_drop. lia. }
  destruct (block_bytes n m') as (x & -> & Hx); [apply Hm'..|]. cbn [mbind option_bind]. rewrite Hx.
  rewrite (next_context key nonce n Hk Hn). destruct (Z.leb_spec bytes 64).
  - assert ((bytes + 63) / 64 = 1) as -> by (symmetry; apply (Z.div_unique _ _ _ (bytes - 1)); lia).
    rewrite keystream_short by lia. do 3 f_equal. unfold m'. destruct (Z.ltb_spec bytes 64); [by rewrite zip_take by lia|].
    by rewrite firstn_all2 by (rewrite block_length; lia).
  - unfold m' in *. destruct (Z.ltb_spec bytes 64); [lia|]. rewrite u32_small by lia.
    rewrite IH by (rewrite ?length_drop; lia || by apply Forall_drop). do 2 f_equal.
    + f_equal. replace (bytes + 63) with (bytes - 64 + 63 + 1 * 64) by lia. rewrite Z.div_add by lia. lia.
    + replace (Z.to_nat bytes) with (64 + Z.to_nat (bytes - 64))%nat by lia. rewrite keystream_more, <- app_assoc. f_equal.
      rewrite <- (take_drop 64 m) at 3. rewrite zip_with_app by (rewrite block_length, length_take; lia). f_equal.
      rewrite <- (take_drop 64 m) at 1. rewrite <- (app_nil_r (block key nonce n)) at 1.
      rewrite zip_with_app by (rewrite block_length, length_take; lia). apply app_nil_r.
Qed.
End Stream.

Lemma encrypt_ok tmp key nonce n m bytes : Forall is_byte tmp -> length tmp = 64%nat -> valid_key key -> valid_nonce nonce ->
  0 <= bytes < 2 ^ 32 -> bytes <= Z.of_nat (length m) -> Forall is_byte m ->
  chacha_encrypt_bytes tmp (context key nonce n) m bytes =
  Some (context key nonce (n + (bytes + 63) / 64), zip_with Z.lxor (keystream key nonce n (Z.to_nat bytes)) m).
Proof.
  intros Ht Htl Hk Hn Hb Hm Hmb. unfold chacha_encrypt_bytes. destruct (Z.eqb_spec bytes 0) as [->|].
  - change ((0 + 63) / 64) with 0. by rewrite Z.add_0_r.
  - pose proof (Z.div_mod bytes 64 ltac:(lia)). pose proof (Z.mod_pos_bound bytes 64 ltac:(lia)).
    rewrite (encrypt_loop_ok key nonce Hk Hn tmp Ht Htl) by (done || nia). cbn [mbind option_bind].
    by rewrite store_counter.
Qed.

Lemma keystream_bytes key nonce n k : valid_key key -> valid_nonce nonce -> Forall is_byte (keystream key nonce n k).
Proof.
  intros Hk Hn. unfold keystream. apply Forall_fmap, Forall_true. intros i. cbn [compose].
  apply Forall_lookup_total_1; [|rewrite block_length by done; apply Nat.mod_upper_bound; lia].
  unfold block. apply Forall_bind, Forall_true. intros w. apply le_split_bytes.
Qed.

Lemma lxor_byte x y : is_byte x -> is_byte y -> is_byte (Z.lxor x y).
Proof.
  unfold is_byte. intros Hx Hy. assert (0 <= Z.lxor x y) by (apply Z.lxor_nonneg; lia).
  assert (E : Z.lxor x y = Z.lxor x y mod 2 ^ 8); [|pose proof (Z.mod_pos_bound (Z.lxor x y) (2 ^ 8)); lia].
  apply Z.bits_inj'. intros i Hi. destruct (Z.lt_ge_cases i 8).
  - by rewrite Z.mod_pow2_bits_low.
  - rewrite Z.mod_pow2_bits_high, Z.lxor_spec by lia.
    by rewrite <- (Z.mod_small x (2 ^ 8)), <- (Z.mod_small y (2 ^ 8)), !Z.mod_pow2_bits_high by lia.
Qed.

Lemma xor_twice (k : list Z) : forall m, length k = length m -> Forall is_byte k -> Forall is_byte m ->
  zip_with Z.lxor k (zip_with Z.lxor k m) = m /\ Forall is_byte (zip_with Z.lxor k m) /\ length (zip_with Z.lxor k m) = length m.
Proof.
  induction k as [|x k IH]; intros [|y m] Hl Hk Hm; try done. decompose_Forall_hyps. cbn [zip_with length] in *.
  destruct (IH m) as (-> & ? & ->); [lia|done..|]. rewrite <- Z.lxor_assoc, Z.lxor_nilpotent, Z.lxor_0_l.
  split; [done|]. split; [|done]. constructor; [by apply lxor_byte|done].
Qed.

(** ** The property *)

(** C33: from the set-up of the code with a key of 32 or 16 bytes, a nonce and a counter,
    encrypting a message combines it byte by byte with the key stream of the specification,
    a second message continues with the first whole block that the first did not touch,
    through the carry of the 64-bit counter, and encrypting the result from the same
    set-up gives the message back. *)
Theorem chacha_correct x tmp key nonce counter m m2 :
  length x = 16%nat -> Forall is_byte tmp -> length tmp = 64%nat -> valid_key key -> valid_nonce nonce ->
  Forall is_byte counter -> length counter = 8%nat ->
  Forall is_byte m -> Z.of_nat (length m) < 2 ^ 32 -> Forall is_byte m2 -> Z.of_nat (length m2) < 2 ^ 32 ->
  let n := le_join counter in
  let x0 := chacha_ivsetup (chacha_keysetup x key (8 * Z.of_nat (length key))) nonce (Some counter) in
  let c := zip_with Z.lxor (keystream key nonce n (length m)) m in
  exists x1 x2,
    chacha_encrypt_bytes tmp x0 m (Z.of_nat (length m)) = Some (x1, c) /\
    chacha_encrypt_bytes tmp x1 m2 (Z.of_nat (length m2)) =
      Some (x2, zip_with Z.lxor (keystream key nonce (n + (Z.of_nat (length m) + 63) / 64) (length m2)) m2) /\
    chacha_encrypt_bytes tmp x0 c (Z.of_nat (length m)) = Some (x1, m).
Proof.
  intros Hx Ht Htl Hk Hn Hc Hcl Hm Hml Hm2 Hml2. cbv zeta. rewrite setup_context by done.
  destruct (xor_twice (keystream key nonce (le_join counter) (length m)) m) as (Hd & Hb & Hl);
    [apply keystream_length|by apply keystream_bytes|done|].
  do 2 eexists. rewrite !encrypt_ok by (done || lia). rewrite !Nat2Z.id, Hd. done.
Qed.

Lemma chacha_correct_witness :
  let m := [72; 101; 108; 108; 111] in
  let x0 := chacha_ivsetup (chacha_keysetup (replicate 16 0) (seqZ 0 32) 256) (replicate 8 7) (Some (replicate 8 255)) in
  exists x1 x2 c, chacha_encrypt_bytes (replicate 64 1) x0 m 5 = Some (x1, c) /\
    chacha_encrypt_bytes (replicate 64 1) x1 [0] 1 = Some (x2, keystream (seqZ 0 32) (replicate 8 7) (2 ^ 64) 1) /\
    chacha_encrypt_bytes (replicate 64 1) x0 c 5 = Some (x1, m).
Proof.
  destruct (chacha_correct (replicate 16 0) (replicate 64 1) (seqZ 0 32) (replicate 8 7) (replicate 8 255) [72; 101; 108; 108; 111] [0])
    as (x1 & x2 & H1 & H2 & H3).
  4: split; [|by left]. 5: split; [|reflexivity].
  all: try reflexivity. all: try (apply (bool_decide_unpack _); vm_compute; exact I).
  exists x1, x2. eexists. split; [exact H1|]. split; [refine (eq_trans H2 _); vm_compute; reflexivity|exact H3].
Defined.

(** The first bytes of the key stream of the key and the nonce that are zero. *)
Lemma chacha_zero : take 8 (block (replicate 32 0) (replicate 8 0) 0) = [0x76; 0xb8; 0xe0; 0xad; 0xa0; 0xf1; 0x3d; 0x90].
Proof. vm_compute. reflexivity. Qed.
