(* ===== verification/Random.v ===== *)
(** Random numbers: [kernel/src/runtime/random.c], over the cipher of Chacha.v.

    The generator encrypts a buffer of zeros with a key drawn from a source of entropy,
    and draws a new key after 64 KiB and after five minutes.  The source of entropy is a
    state [E] with the instruction of the processor, [hw_get_seed], and possibly a device,
    [preferred_get_seed], which returns the bytes it has, up to those asked for.  The time
    that [now] returns is an argument of each request.  The mutex is held throughout each
    operation. *)

From S2P Require Import Prelude Words Chacha.

(** ** Time ([clock.h]) *)

Definition TIMESTAMP_SECOND : Z := 2 ^ 32.
Definition MILLION : Z := 1000000.
Definition truncate_seconds (t : Z) : Z := Z.land t (MASK 32).
Definition sec_from_timestamp (t : Z) : Z := t / TIMESTAMP_SECOND.
Definition usec_from_timestamp (t : Z) : Z :=
  let sec := sec_from_timestamp t in
  u64 (u64 (sec * MILLION) + u64 (truncate_seconds t * MILLION) / TIMESTAMP_SECOND).

(** ** The generator *)

Definition CHACHA20_RESEED_BYTES : Z := 65536.
Definition CHACHA20_RESEED_SECONDS : Z := 300.
Definition CHACHA20_KEYBYTES : Z := 32.
Definition CHACHA20_BUFFER_SIZE : Z := 64.

Record chacha20_s := { numbytes : Z; t_reseed : Z; m_buffer : list Z; ctx : list Z }.

(** The static variable before it is initialised. *)
Definition chacha20inst : chacha20_s := {| numbytes := 0; t_reseed := 0; m_buffer := replicate 64 0; ctx := replicate 16 0 |}.

Section Random.
Context {E : Type} (hw_get_seed : E -> Z * E) (preferred_get_seed : option (E -> Z -> list Z * E)).

Fixpoint fallback_loop (fuel : nat) (e : E) (seed : list Z) (remain : Z) : option (list Z * E) :=
  match fuel with
  | O => None
  | S fuel =>
      if 0 <? remain then
        let n := Z.min 8 remain in
        let '(s, e) := hw_get_seed e in
        fallback_loop fuel e (seed ++ take (Z.to_nat n) (le_split 8 s)) (remain - n)
      else Some (seed, e)
  end.

Definition fallback_get_seed (e : E) (len : Z) : option (list Z * E) := fallback_loop (S (Z.to_nat len)) e [] len.

Fixpoint get_seed_loop (fuel : nat) (e : E) (seed : list Z) (len : Z) : option (list Z * E) :=
  match fuel with
  | O => None
  | S fuel =>
      if 0 <? len then
        let '(l, e) := if preferred_get_seed is Some f then f e len else ([], e) in
        '(l, e) ← (if (length l =? 0)%nat then fallback_get_seed e len else Some (l, e));
        let s := Z.of_nat (length l) in
        _ ← kassert (s <=? len);
        get_seed_loop fuel e (seed ++ l) (len - s)
      else Some (seed, e)
  end.

Definition get_seed_complete (e : E) (len : Z) : option (list Z * E) := get_seed_loop (S (Z.to_nat len)) e [] len.

Definition chacha20_randomstir_locked (s : chacha20_s) (e : E) (t : Z) : option (chacha20_s * E) :=
  '(key, e) ← get_seed_complete e CHACHA20_KEYBYTES;
  let now_sec := sec_from_timestamp t in
  let now_usec := usec_from_timestamp (truncate_seconds t) in
  let x := chacha_keysetup (ctx s) key (CHACHA20_KEYBYTES * 8) in
  let x := chacha_ivsetup x (le_split 8 now_sec) (Some (le_split 8 now_usec)) in
  Some ({| numbytes := 0; t_reseed := u64 (now_sec + CHACHA20_RESEED_SECONDS); m_buffer := m_buffer s; ctx := x |}, e).

Definition init_random (e : E) (t : Z) : option (chacha20_s * E) := chacha20_randomstir_locked chacha20inst e t.
Definition random_reseed (s : chacha20_s) (e : E) (t : Z) : option (chacha20_s * E) := chacha20_randomstir_locked s e t.

(** [tmp] is the buffer on the stack of the cipher, [p] what is written. *)
Fixpoint arc4rand_loop (fuel : nat) (tmp : list Z) (s : chacha20_s) (e : E) (t : Z) (p : list Z) (len : Z) :
    option (list Z * chacha20_s * E) :=
  match fuel with
  | O => None
  | S fuel =>
      if len =? 0 then Some (p, s, e)
      else
        let length := Z.min CHACHA20_BUFFER_SIZE len in
        '(x, c) ← chacha_encrypt_bytes tmp (ctx s) (m_buffer s) (u32 length);
        let s := {| numbytes := s32 (numbytes s + length); t_reseed := t_reseed s; m_buffer := m_buffer s; ctx := x |} in
        '(s, e) ← (if CHACHA20_RESEED_BYTES <? numbytes s then chacha20_randomstir_locked s e t else Some (s, e));
        arc4rand_loop fuel tmp s e t (p ++ c) (len - length)
  end.

Definition arc4rand (tmp : list Z) (s : chacha20_s) (e : E) (t len : Z) : option (list Z * chacha20_s * E) :=
  let now_sec := sec_from_timestamp t in
  '(s, e) ← (if (CHACHA20_RESEED_BYTES <? numbytes s) || (t_reseed s <? now_sec)
             then chacha20_randomstir_locked s e t else Some (s, e));
  arc4rand_loop (S (S (Z.to_nat (len / CHACHA20_BUFFER_SIZE)))) tmp s e t [] len.

(** [retval] is not initialised. *)
Definition random_early_u64 (tmp : list Z) (s : chacha20_s) (e : E) (retval : Z) : option (Z * chacha20_s * E) :=
  '(key, e) ← get_seed_complete e CHACHA20_KEYBYTES;
  let x := chacha_keysetup (ctx s) key (CHACHA20_KEYBYTES * 8) in
  let x := chacha_ivsetup x (le_split 8 retval) (Some (le_split 8 retval)) in
  '(x, c) ← chacha_encrypt_bytes tmp x (m_buffer s) 8;
  Some (le_join c, {| numbytes := numbytes s; t_reseed := t_reseed s; m_buffer := m_buffer s; ctx := x |}, e).

Definition random_u64 (tmp : list Z) (s : chacha20_s) (e : E) (t : Z) : option (Z * chacha20_s * E) :=
  '(l, s, e) ← arc4rand tmp s e t 8; Some (le_join l, s, e).

(** ** The specification *)

(** The key that the [k]th seeding draws from the source [e], and the source after [k]. *)
Fixpoint key_at (e : E) (k : nat) : list Z :=
  match get_seed_complete e CHACHA20_KEYBYTES with
  | Some (key, e) => match k with O => key | S k => key_at e k end
  | None => []
  end.

Fixpoint after_seeds (e : E) (k : nat) : option E :=
  match k with O => Some e | S k => '(_, e) ← get_seed_complete e CHACHA20_KEYBYTES; after_seeds e k end.

(** One use of a block of the key stream: the seeding that the key is from, the time of
    this seeding in seconds, the counter of the block and the bytes taken of it. *)
Record draw := Draw { d_epoch : nat; d_sec : Z; d_ctr : Z; d_len : Z }.

Definition draw_bytes (e : E) (d : draw) : list Z :=
  take (Z.to_nat (d_len d)) (block (key_at e (d_epoch d)) (le_split 8 (d_sec d)) (d_ctr d)).

Definition taken (ds : list draw) : Z := foldr (fun d n => d_len d + n) 0 ds.

(** The initialisation at [t0] followed by requests, each with its time and length. *)
Fixpoint requests (tmp : list Z) (s : chacha20_s) (e : E) (reqs : list (Z * Z)) : option (list (list Z) * chacha20_s * E) :=
  match reqs with
  | [] => Some ([], s, e)
  | (t, len) :: reqs =>
      '(l, s, e) ← arc4rand tmp s e t len;
      '(outs, s, e) ← requests tmp s e reqs;
      Some (l :: outs, s, e)
  end.

Definition run (tmp : list Z) (e : E) (t0 : Z) (reqs : list (Z * Z)) : option (list (list Z) * chacha20_s * E) :=
  '(s, e) ← init_random e t0; requests tmp s e reqs.
End Random.

(** ** Seeds *)

Section Seeds.
Context {E : Type} (hw_get_seed : E -> Z * E) (preferred_get_seed : option (E -> Z -> list Z * E)).

(** The device writes bytes, and no more than those asked for. *)
Definition source_ok : Prop := forall f, preferred_get_seed = Some f -> forall e len, 0 < len ->
  Forall is_byte (f e len).1 /\ Z.of_nat (length (f e len).1) <= len.
Hypothesis Hsource : source_ok.

Notation fallback_loop := (fallback_loop hw_get_seed).
Notation fallback_get_seed := (fallback_get_seed hw_get_seed).
Notation get_seed_loop := (get_seed_loop hw_get_seed preferred_get_seed).
Notation get_seed_complete := (get_seed_complete hw_get_seed preferred_get_seed).
Notation key_at := (key_at hw_get_seed preferred_get_seed).
Notation after_seeds := (after_seeds hw_get_seed preferred_get_seed).

Definition seed_of (o : option (list Z * E)) (len : Z) : Prop :=
  exists l e, o = Some (l, e) /\ Forall is_byte l /\ Z.of_nat (length l) = len.

Lemma fallback_ok fuel : forall e seed remain, 0 <= remain < Z.of_nat fuel -> Forall is_byte seed ->
  seed_of (fallback_loop fuel e seed remain) (Z.of_nat (length seed) + remain).
Proof.
  induction fuel as [|fuel IH]; intros e seed remain Hr Hs; [lia|]. cbn [Random.fallback_loop].
  destruct (Z.ltb_spec 0 remain); [|exists seed, e; split; [done|]; split; [done|lia]].
  destruct (hw_get_seed e) as [s e'].
  destruct (IH e' (seed ++ take (Z.to_nat (Z.min 8 remain)) (le_split 8 s)) (remain - Z.min 8 remain)) as (l & e2 & -> & Hl & Hn);
    [lia|apply Forall_app; split; [done|apply Forall_take, le_split_bytes]|].
  exists l, e2. split; [done|]. split; [done|]. rewrite Hn, length_app, length_take, length_le_split. lia.
Qed.

Lemma get_seed_loop_ok fuel : forall e seed len, 0 <= len < Z.of_nat fuel -> Forall is_byte seed ->
  seed_of (get_seed_loop fuel e seed len) (Z.of_nat (length seed) + len).
Proof.
  induction fuel as [|fuel IH]; intros e seed len Hr Hs; [lia|]. cbn [Random.get_seed_loop].
  destruct (Z.ltb_spec 0 len); [|exists seed, e; split; [done|]; split; [done|lia]].
  set (o := if preferred_get_seed is Some f then f e len else ([], e)).
  assert (Ho : Forall is_byte o.1 /\ Z.of_nat (length o.1) <= len).
  { unfold o. destruct preferred_get_seed as [f|] eqn:Ef; [|split; [constructor|cbn; lia]]. by apply Hsource. }
  destruct o as [l e1]. cbn [fst] in Ho.
  assert (Hl : exists l' e', (if (length l =? 0)%nat then fallback_get_seed e1 len else Some (l, e1)) = Some (l', e') /\
    Forall is_byte l' /\ 0 < Z.of_nat (length l') <= len).
  { destruct (Nat.eqb_spec (length l) 0) as [E0|E0]; [|exists l, e1; split; [done|]; split; [apply Ho|lia]].
    destruct (fallback_ok (S (Z.to_nat len)) e1 [] len) as (l' & e' & El & Hb & Hn); [lia|constructor|].
    exists l', e'. split; [exact El|]. split; [done|]. cbn [length] in Hn. lia. }
  destruct Hl as (l' & e' & -> & Hb & Hn). cbn [mbind option_bind]. rewrite (proj2 (Z.leb_le _ _)) by lia. cbn [kassert mbind option_bind].
  destruct (IH e' (seed ++ l') (len - Z.of_nat (length l'))) as (r & e2 & -> & Hr2 & Hn2); [lia|by apply Forall_app|].
  exists r, e2. split; [done|]. split; [done|]. rewrite Hn2, length_app. lia.
Qed.

Lemma get_seed_ok e : exists key e', get_seed_complete e CHACHA20_KEYBYTES = Some (key, e') /\
  Forall is_byte key /\ length key = 32%nat.
Proof.
  destruct (get_seed_loop_ok (S (Z.to_nat 32)) e [] 32) as (key & e' & Hk & Hb & Hl); [lia|constructor|].
  exists key, e'. split; [exact Hk|]. split; [done|]. cbn [length] in Hl. lia.
Qed.

Lemma key_at_ok k : forall e, Forall is_byte (key_at e k) /\ length (key_at e k) = 32%nat.
Proof.
  induction k as [|k IH]; intros e; cbn [Random.key_at]; destruct (get_seed_ok e) as (key & e' & -> & Hb & Hl); [done|apply IH].
Qed.

Lemma after_seeds_next k : forall e0 e, after_seeds e0 k = Some e ->
  exists e', get_seed_complete e CHACHA20_KEYBYTES = Some (key_at e0 k, e') /\ after_seeds e0 (S k) = Some e'.
Proof.
  induction k as [|k IH]; intros e0 e He; cbn [Random.after_seeds Random.key_at] in *.
  - injection He as ->. destruct (get_seed_ok e) as (key & e' & -> & _ & _). by exists e'.
  - destruct (get_seed_ok e0) as (key & e1 & E1 & _ & _). rewrite E1 in *. cbn [mbind option_bind] in *. by apply IH.
Qed.
End Seeds.

(** ** Blocks in use *)

Definition in_epoch (k : nat) (ds : list draw) : list draw := filter (fun d => d_epoch d = k) ds.

Lemma taken_app ds1 ds2 : taken (ds1 ++ ds2) = taken ds1 + taken ds2.
Proof. unfold taken. induction ds1 as [|d ds IH]; [done|]. cbn [app foldr]. lia. Qed.

Lemma in_epoch_app k ds1 ds2 : in_epoch k (ds1 ++ ds2) = in_epoch k ds1 ++ in_epoch k ds2.
Proof. apply filter_app. Qed.

Lemma in_epoch_later k ds : Forall (fun d => (d_epoch d < k)%nat) ds -> in_epoch k ds = [].
Proof. intros H. apply filter_none. eapply Forall_impl; [exact H|]. cbn. lia. Qed.

(** What holds of the blocks used before the [k]th seeding: no block of one seeding is
    used twice, and no seeding gives more than 64 KiB and a block. *)
Definition used_ok (k : nat) (ds : list draw) : Prop :=
  Forall (fun d => (d_epoch d < k)%nat /\ 0 <= d_ctr d < 2 ^ 64 /\ 1 <= d_len d <= 64) ds /\
  NoDup ((fun d => (d_epoch d, d_ctr d)) <$> ds) /\
  forall j, taken (in_epoch j ds) <= CHACHA20_RESEED_BYTES + CHACHA20_BUFFER_SIZE.

Lemma taken_nonneg k j ds : used_ok k ds -> 0 <= taken (in_epoch j ds).
Proof.
  intros (Hf & _). induction ds as [|d ds IH]; [done|]. apply Forall_cons in Hf as [Hd Hf]. specialize (IH Hf).
  unfold in_epoch in *. rewrite filter_cons. case_decide; unfold taken in *; cbn [foldr]; lia.
Qed.

Lemma used_more k ds d n : used_ok (S k) ds -> Forall (fun d => d_epoch d = k -> d_ctr d < n) ds ->
  d_epoch d = k -> d_ctr d = n -> 0 <= n < 2 ^ 64 -> 1 <= d_len d <= 64 ->
  taken (in_epoch k ds) <= CHACHA20_RESEED_BYTES -> used_ok (S k) (ds ++ [d]).
Proof.
  intros (Hf & Hd & Ht) Hlt Hk Hc Hn Hl Hb. split_and!.
  - apply Forall_app. split; [done|]. constructor; [|done]. rewrite Hk, Hc. lia.
  - rewrite fmap_app. apply NoDup_app. split; [done|]. split; [|apply NoDup_singleton].
    intros p Hp Hq. apply list_elem_of_fmap in Hp as (d' & -> & Hd'). apply list_elem_of_singleton in Hq. injection Hq as He Hce.
    rewrite Forall_forall in Hlt. specialize (Hlt d' Hd'). rewrite He, Hk in Hlt. specialize (Hlt eq_refl). lia.
  - intros j. rewrite in_epoch_app, taken_app. unfold in_epoch at 2. rewrite filter_cons, filter_nil. case_decide as Hj.
    + cbn [taken foldr]. unfold CHACHA20_RESEED_BYTES, CHACHA20_BUFFER_SIZE in *. subst j. rewrite Hk in *. lia.
    + cbn [taken foldr]. specialize (Ht j). lia.
Qed.

Lemma usec_range t : 0 <= t -> 0 <= usec_from_timestamp (truncate_seconds t) < MILLION.
Proof.
  intros Ht. unfold usec_from_timestamp, sec_from_timestamp, truncate_seconds, TIMESTAMP_SECOND, MILLION.
  rewrite !MASK_ones, !Z.land_ones by lia. rewrite Z.mod_mod by lia. pose proof (Z.mod_pos_bound t (2 ^ 32) ltac:(lia)).
  rewrite (Z.div_small (t mod 2 ^ 32)) by lia. rewrite (u64_small (0 * 1000000)), (u64_small (t mod 2 ^ 32 * 1000000)), Z.add_0_l by lia.
  assert (0 <= t mod 2 ^ 32 * 1000000 / 2 ^ 32 < 1000000).
  { split; [apply Z.div_pos; lia|]. apply Z.div_lt_upper_bound; lia. }
  rewrite u64_small; lia.
Qed.

(** ** The generator's invariant *)

Section Generator.
Context {E : Type} (hw_get_seed : E -> Z * E) (preferred_get_seed : option (E -> Z -> list Z * E)).
Hypothesis Hsource : source_ok preferred_get_seed.
Context (tmp : list Z) (e0 : E).
Hypothesis Htmp : Forall is_byte tmp.
Hypothesis Htmpl : length tmp = 64%nat.

Notation key_at := (key_at hw_get_seed preferred_get_seed).
Notation after_seeds := (after_seeds hw_get_seed preferred_get_seed).
Notation stir := (chacha20_randomstir_locked hw_get_seed preferred_get_seed).
Notation draw_bytes := (draw_bytes hw_get_seed preferred_get_seed e0).

(** After the blocks [ds], the context is that of the next block of the last key. *)
Definition good (ds : list draw) (s : chacha20_s) (e : E) : Prop :=
  exists k sec n, after_seeds e0 (S k) = Some e /\ 0 <= sec < 2 ^ 32 /\
    ctx s = context (key_at e0 k) (le_split 8 sec) n /\ t_reseed s = sec + CHACHA20_RESEED_SECONDS /\
    m_buffer s = replicate 64 0 /\ numbytes s = taken (in_epoch k ds) /\ numbytes s <= CHACHA20_RESEED_BYTES /\
    0 <= n <= MILLION + taken (in_epoch k ds) /\ used_ok (S k) ds /\
    Forall (fun d => d_epoch d = k -> d_ctr d < n) ds.

Lemma valid_key_at k : valid_key (key_at e0 k).
Proof. destruct (key_at_ok hw_get_seed _ Hsource k e0). split; [done|by left]. Qed.

Lemma valid_sec sec : valid_nonce (le_split 8 sec).
Proof. split; [apply le_split_bytes|apply length_le_split]. Qed.

Lemma stir_ok k ds s e t : after_seeds e0 k = Some e -> used_ok k ds -> length (ctx s) = 16%nat ->
  m_buffer s = replicate 64 0 -> 0 <= t < 2 ^ 64 ->
  exists s' e', stir s e t = Some (s', e') /\ good ds s' e' /\ sec_from_timestamp t + 300 = t_reseed s'.
Proof.
  intros He Hu Hx Hm Ht. destruct (after_seeds_next hw_get_seed _ Hsource k e0 e He) as (e' & Hs & He').
  unfold chacha20_randomstir_locked. rewrite Hs. cbn [mbind option_bind]. do 2 eexists. split; [reflexivity|].
  assert (Hsec : 0 <= sec_from_timestamp t < 2 ^ 32).
  { unfold sec_from_timestamp, TIMESTAMP_SECOND. split; [apply Z.div_pos; lia|]. apply Z.div_lt_upper_bound; lia. }
  cbn [t_reseed]. rewrite u64_small by (unfold CHACHA20_RESEED_SECONDS; lia). split; [|done].
  destruct Hu as (Hf & Hd & Hb). destruct (usec_range t) as [Hu0 Hu1]; [lia|].
  assert (Hin : in_epoch k ds = []) by (apply in_epoch_later; eapply Forall_impl; [exact Hf|]; cbn; tauto).
  exists k, (sec_from_timestamp t), (usec_from_timestamp (truncate_seconds t)). cbn [ctx t_reseed m_buffer numbytes].
  rewrite Hin. cbn [taken foldr]. split; [done|]. split; [done|]. split.
  { destruct (key_at_ok hw_get_seed _ Hsource k e0) as [Hkb Hkl].
    replace (CHACHA20_KEYBYTES * 8) with (8 * Z.of_nat (length (key_at e0 k))) by by rewrite Hkl.
    rewrite setup_context; [|done|apply valid_key_at|apply valid_sec|apply le_split_bytes|apply length_le_split|done].
    rewrite le_join_split. f_equal. apply Z.mod_small. unfold MILLION in Hu1. split; [done|]. eapply Z.lt_trans; [exact Hu1|]. by vm_compute. }
  unfold CHACHA20_RESEED_BYTES. repeat split; try done; try lia.
  - eapply Forall_impl; [exact Hf|]. cbn. intros d (? & ? & ?). split; [lia|done].
  - eapply Forall_impl; [exact Hf|]. cbn. intros d (? & ? & ?). lia.
Qed.
Lemma xor_zeros (l : list Z) : forall n, (length l <= n)%nat -> zip_with Z.lxor l (replicate n 0) = l.
Proof. induction l as [|x l IH]; intros [|n] Hn; cbn [length] in Hn; [done..|lia|]. cbn [replicate zip_with]. by rewrite Z.lxor_0_r, IH by lia. Qed.

(** One block: the bytes of the specification, and the state after it. *)
Lemma draw_ok ds s e len : good ds s e -> 1 <= len <= 64 ->
  exists d x, chacha_encrypt_bytes tmp (ctx s) (m_buffer s) len = Some (x, draw_bytes d) /\ d_len d = len /\
    d_sec d + CHACHA20_RESEED_SECONDS = t_reseed s /\ length x = 16%nat /\ numbytes s + len <= 65600 /\ 0 <= numbytes s /\
    (exists k, after_seeds e0 (S k) = Some e /\ used_ok (S k) (ds ++ [d])) /\
    (numbytes s + len <= CHACHA20_RESEED_BYTES ->
      good (ds ++ [d]) {| numbytes := numbytes s + len; t_reseed := t_reseed s; m_buffer := m_buffer s; ctx := x |} e).
Proof.
  intros (k & sec & n & He & Hsec & Hx & Hr & Hm & Hnb & Hle & Hn & Hu & Hlt) Hl.
  pose proof (valid_key_at k) as Hk. pose proof (valid_sec sec) as Hs. set (key := key_at e0 k) in *.
  pose proof (taken_nonneg _ k _ Hu) as Hnn.
  exists (Draw k sec n len), (context key (le_split 8 sec) (n + 1)). cbn [d_len d_sec d_epoch d_ctr].
  rewrite Hx, Hm, encrypt_ok by (done || (rewrite ?length_replicate; lia) || (apply Forall_replicate; unfold is_byte; lia)).
  assert ((len + 63) / 64 = 1) as -> by (symmetry; apply (Z.div_unique _ _ _ (len - 1)); lia).
  rewrite xor_zeros by (rewrite keystream_length; lia). rewrite keystream_short by (done || lia).
  unfold CHACHA20_RESEED_BYTES, MILLION in *.
  assert (Hu' : used_ok (S k) (ds ++ [Draw k sec n len])).
  { apply (used_more k ds _ n); try done; cbn [d_len]; unfold CHACHA20_RESEED_BYTES; lia. }
  split; [done|]. split; [done|]. split; [done|]. split; [|split; [lia|split; [lia|split; [by exists k|]]]].
  - destruct (context_split key (le_split 8 sec) Hk Hs) as (p & q0 & q1 & Hp & ->). by rewrite length_app, Hp.
  - intros Hmore. exists k, sec, (n + 1). cbn [ctx t_reseed m_buffer numbytes].
    rewrite in_epoch_app, taken_app. unfold in_epoch at 2 4. rewrite filter_cons_True, filter_nil by done. cbn [taken foldr d_len].
    repeat split; try done; try (unfold MILLION, CHACHA20_RESEED_BYTES; lia); try apply Hu'.
    apply Forall_app. split; [|constructor; [cbn; lia|done]]. eapply Forall_impl; [exact Hlt|]. cbn. intros d Hd Hk'. specialize (Hd Hk'). lia.
Qed.

Lemma arc4rand_loop_ok t : 0 <= t < 2 ^ 64 -> forall fuel ds s e p len, good ds s e -> sec_from_timestamp t <= t_reseed s ->
  0 <= len -> len < 64 * Z.of_nat fuel - 63 ->
  exists new s' e', arc4rand_loop hw_get_seed preferred_get_seed fuel tmp s e t p len = Some (p ++ (new ≫= draw_bytes), s', e') /\
    good (ds ++ new) s' e' /\ taken new = len /\ Forall (fun d => sec_from_timestamp t <= d_sec d + CHACHA20_RESEED_SECONDS) new.
Proof.
  intros Ht. induction fuel as [|fuel IH]; intros ds s e p len Hg Hsec Hlen Hf; [lia|]. cbn [arc4rand_loop].
  destruct (Z.eqb_spec len 0) as [->|Hne]; [exists [], s, e; by rewrite !app_nil_r|].
  unfold CHACHA20_BUFFER_SIZE. set (l := Z.min 64 len). assert (Hl : 1 <= l <= 64) by lia. rewrite u32_small by lia.
  destruct (draw_ok ds s e l Hg Hl) as (d & x & -> & Hdl & Hds & Hxl & Hb1 & Hb0 & (k & He & Hu) & Hgood). cbn [mbind option_bind].
  rewrite s32_small by lia.
  assert (Hnext : exists s' e', (if CHACHA20_RESEED_BYTES <? numbytes s + l then
      stir {| numbytes := numbytes s + l; t_reseed := t_reseed s; m_buffer := m_buffer s; ctx := x |} e t
    else Some ({| numbytes := numbytes s + l; t_reseed := t_reseed s; m_buffer := m_buffer s; ctx := x |}, e)) = Some (s', e') /\
    good (ds ++ [d]) s' e' /\ sec_from_timestamp t <= t_reseed s').
  { destruct (Z.ltb_spec CHACHA20_RESEED_BYTES (numbytes s + l)).
    - destruct (stir_ok (S k) (ds ++ [d]) {| numbytes := numbytes s + l; t_reseed := t_reseed s; m_buffer := m_buffer s; ctx := x |} e t)
        as (s' & e' & Hst & Hg' & Hse); try done; [by destruct Hg as (? & ? & ? & _ & _ & _ & _ & ? & _)|].
      exists s', e'. split; [done|]. split; [done|lia].
    - do 2 eexists. split; [reflexivity|]. split; [by apply Hgood|done]. }
  destruct Hnext as (s' & e' & Hnx & Hg' & Hsec'). cbn [numbytes]. rewrite Hnx. cbn [mbind option_bind].
  destruct (IH (ds ++ [d]) s' e' (p ++ draw_bytes d) (len - l)) as (new & s2 & e2 & -> & Hg2 & Ht2 & Hf2); [done|done|lia|lia|].
  exists (d :: new), s2, e2. cbn [mbind list_bind]. rewrite <- app_assoc. split; [done|].
  rewrite <- app_assoc in Hg2. split; [done|]. split; [unfold taken in *; cbn [foldr]; lia|]. constructor; [lia|done].
Qed.

Lemma arc4rand_ok ds s e t len : good ds s e -> 0 <= t < 2 ^ 64 -> 0 <= len ->
  exists new s' e', arc4rand hw_get_seed preferred_get_seed tmp s e t len = Some (new ≫= draw_bytes, s', e') /\
    good (ds ++ new) s' e' /\ taken new = len /\ Forall (fun d => sec_from_timestamp t <= d_sec d + CHACHA20_RESEED_SECONDS) new.
Proof.
  intros Hg Ht Hlen. unfold arc4rand. unfold CHACHA20_BUFFER_SIZE.
  pose proof (Z.div_mod len 64 ltac:(lia)). pose proof (Z.mod_pos_bound len 64 ltac:(lia)).
  assert (Hnext : exists s' e', (if (CHACHA20_RESEED_BYTES <? numbytes s) || (t_reseed s <? sec_from_timestamp t) then stir s e t
    else Some (s, e)) = Some (s', e') /\ good ds s' e' /\ sec_from_timestamp t <= t_reseed s').
  { destruct (_ || _) eqn:Eb.
    - destruct Hg as (k & sec & n & He & Hs & Hx & Hr & Hm & _ & _ & _ & Hu & _).
      destruct (stir_ok (S k) ds s e t) as (s' & e' & Hst & Hg' & Hse); try done; [|exists s', e'; split; [done|]; split; [done|lia]].
      destruct (context_split (key_at e0 k) (le_split 8 sec) (valid_key_at k) (valid_sec sec)) as (p & q0 & q1 & Hp & Hc).
      by rewrite Hx, Hc, length_app, Hp.
    - do 2 eexists. split; [reflexivity|]. split; [done|]. apply orb_false_iff in Eb as [_ Eb]. apply Z.ltb_ge in Eb. done. }
  destruct Hnext as (s' & e' & -> & Hg' & Hsec). cbn [mbind option_bind].
  destruct (arc4rand_loop_ok t Ht (S (S (Z.to_nat (len / 64)))) ds s' e' [] len) as (new & s2 & e2 & Hl & Hrest); [done|done|lia|lia|].
  exists new, s2, e2. split; [exact Hl|done].
Qed.
Lemma requests_ok reqs : forall ds s e, good ds s e ->
  Forall (fun r => 0 <= r.1 < 2 ^ 64 /\ 0 <= r.2) reqs ->
  exists news s' e', requests hw_get_seed preferred_get_seed tmp s e reqs = Some ((fun new => new ≫= draw_bytes) <$> news, s', e') /\
    good (ds ++ concat news) s' e' /\
    Forall2 (fun r new => taken new = r.2 /\
      Forall (fun d => sec_from_timestamp r.1 <= d_sec d + CHACHA20_RESEED_SECONDS) new) reqs news.
Proof.
  induction reqs as [|[t len] reqs IH]; intros ds s e Hg Hr; cbn [requests].
  - exists [], s, e. by rewrite app_nil_r.
  - apply Forall_cons in Hr as [[Ht Hlen] Hr]. cbn [fst snd] in Ht, Hlen.
    destruct (arc4rand_ok ds s e t len Hg Ht Hlen) as (new & s1 & e1 & -> & Hg1 & Hn & Hs). cbn [mbind option_bind].
    destruct (IH (ds ++ new) s1 e1 Hg1 Hr) as (news & s2 & e2 & -> & Hg2 & Hf). cbn [mbind option_bind].
    exists (new :: news), s2, e2. split; [done|]. cbn [concat]. rewrite app_assoc. split; [done|]. by constructor.
Qed.
End Generator.

(** ** The property *)


(** A source that counts, with a device that gives at most 20 bytes at a time. *)
Definition count_seed (e : Z) : Z * Z := (e, e + 1).
Definition count_device (e len : Z) : list Z * Z := (replicate (Z.to_nat (Z.min 20 len)) (e mod 256), e + 1).

