(* ===== verification/Dlist.v ===== *)
(** Doubly linked lists: [kernel/src/runtime/list.h].

    A list is a ring of nodes embedded in other structures, one of which is its head.
    Memory is a function from addresses to the pair of pointers there, and a null pointer
    is 0.  The specification of a memory is the set of its lists, each a head with the
    sequence of its members, no node in two places. *)

From stdpp Require Import functions.
From S2P Require Import Prelude.

(** ** The code *)

Record link := Link { l_prev : Z; l_next : Z }.

Notation links := (Z -> link).

Definition set_prev (m : links) (a p : Z) : links := <[a := Link p (l_next (m a))]> m.
Definition set_next (m : links) (a n : Z) : links := <[a := Link (l_prev (m a)) n]> m.

Definition list_init (m : links) (head : Z) : links := set_prev (set_next m head head) head head.
Definition list_init_member (m : links) (p : Z) : links := set_prev (set_next m p 0) p 0.

Definition list_empty (m : links) (head : Z) : option bool :=
  _ ← kassert (negb (xorb (l_next (m head) =? head) (l_prev (m head) =? head)));
  Some (l_next (m head) =? head).

Definition list_singular (m : links) (head : Z) : bool :=
  negb (l_next (m head) =? head) && (l_next (m head) =? l_prev (m head)).

Definition list_get_next (m : links) (head : Z) : Z := if l_next (m head) =? head then 0 else l_next (m head).

Definition list_delete (m : links) (p : Z) : option links :=
  _ ← kassert (negb (l_prev (m p) =? 0) && negb (l_next (m p) =? 0));
  let m := set_next m (l_prev (m p)) (l_next (m p)) in
  let m := set_prev m (l_next (m p)) (l_prev (m p)) in
  Some (set_prev (set_next m p 0) p 0).

Definition list_inserted (m : links) (p : Z) : bool := negb (l_next (m p) =? 0).

Definition list_insert_after (m : links) (pos new : Z) : links :=
  let m := set_prev m new pos in
  let m := set_next m new (l_next (m pos)) in
  let m := set_prev m (l_next (m pos)) new in
  set_next m pos new.

Definition list_insert_before (m : links) (pos new : Z) : links :=
  let m := set_prev m new (l_prev (m pos)) in
  let m := set_next m new pos in
  let m := set_next m (l_prev (m pos)) new in
  set_prev m pos new.

Definition list_replace (m : links) (old new : Z) : links :=
  let m := set_next m new (l_next (m old)) in
  let m := set_prev m (l_next (m new)) new in
  let m := set_prev m new (l_prev (m old)) in
  set_next m (l_prev (m new)) new.

Definition list_begin (m : links) (head : Z) : Z := l_next (m head).
Definition list_end (head : Z) : Z := head.

Definition list_push (m : links) (l elem : Z) : links := list_insert_after m (list_end l) elem.

Definition list_pop (m : links) (l : Z) : option (Z * links) :=
  let first := list_begin m l in
  m ← list_delete m first; Some (first, m).

Definition list_push_back (m : links) (l elem : Z) : links := list_insert_before m (list_end l) elem.

Definition list_pop_back (m : links) (l : Z) : option (Z * links) :=
  let back := l_prev (m (list_end l)) in
  m ← list_delete m back; Some (back, m).

(** [list_foreach] over a state that contains the memory; the successor of an element is
    read before the body runs on it.  The body may end the loop with a result. *)
Fixpoint list_foreach {S R} (fuel : nat) (mem : S -> links) (head : Z) (body : S -> Z -> option (S + R))
    (s : S) (e : Z) : option (S + R) :=
  match fuel with
  | O => None
  | S fuel =>
      let next := l_next (mem s e) in
      if e =? list_end head then Some (inl s)
      else
        r ← body s e;
        match r with inl s => list_foreach fuel mem head body s next | inr x => Some (inr x) end
  end.

Definition list_find (fuel : nat) (m : links) (head elem : Z) : option bool :=
  r ← list_foreach fuel (fun m => m) head (fun m e => if e =? elem then Some (inr tt) else Some (inl m)) m (list_begin m head);
  match r with inr tt => Some true | inl _ => Some false end.

Definition list_move (m : links) (dest src : Z) : option links :=
  e ← list_empty m src;
  if (e : bool) then Some (list_init m dest)
  else Some (list_init (list_replace m src dest) src).

(** ** Rings *)

(** From [a] through [l] to [z]. *)
Fixpoint linked (m : links) (a : Z) (l : list Z) (z : Z) : Prop :=
  match l with
  | [] => l_next (m a) = z /\ l_prev (m z) = a
  | b :: l => l_next (m a) = b /\ l_prev (m b) = a /\ linked m b l z
  end.

(** The lists of a memory, each a head with its members. *)
Definition nodes (L : list (Z * list Z)) : list Z := L ≫= (fun r => r.1 :: r.2).

Definition lists (m : links) (L : list (Z * list Z)) : Prop :=
  NoDup (0 :: nodes L) /\ Forall (fun r => linked m r.1 r.2 r.1) L.

Lemma linked_app m l1 : forall a b l2 z, linked m a (l1 ++ b :: l2) z <-> linked m a l1 b /\ linked m b l2 z.
Proof. induction l1 as [|c l1 IH]; intros a b l2 z; cbn [app linked]; [tauto|]. rewrite IH. tauto. Qed.

Lemma linked_ext m m' l : forall a z, linked m a l z ->
  (forall x, x = a \/ x ∈ l -> l_next (m' x) = l_next (m x)) ->
  (forall x, x ∈ l \/ x = z -> l_prev (m' x) = l_prev (m x)) -> linked m' a l z.
Proof.
  induction l as [|b l IH]; intros a z; cbn [linked].
  - intros [H1 H2] Hn Hp. rewrite Hn, Hp by auto. done.
  - intros (H1 & H2 & H3) Hn Hp. rewrite Hn, Hp by set_solver. split; [done|]. split; [done|].
    apply IH; [done|intros x Hx; apply Hn; set_solver|intros x Hx; apply Hp; set_solver].
Qed.

(** The last node of [a :: l]. *)
Definition last_node (a : Z) (l : list Z) : Z := foldl (fun _ b => b) a l.

Lemma linked_last m l : forall a z, linked m a l z -> l_prev (m z) = last_node a l /\ l_next (m (last_node a l)) = z.
Proof.
  induction l as [|b l IH]; intros a z; cbn [linked last_node foldl]; [tauto|]. intros (_ & _ & H). apply IH in H. exact H.
Qed.

Lemma last_node_elem l : forall a, last_node a l ∈ a :: l.
Proof. induction l as [|b l IH]; intros a; [left|]. right. apply IH. Qed.

Lemma last_node_snoc a l b : last_node a (l ++ [b]) = b.
Proof. unfold last_node. by rewrite foldl_app. Qed.

Lemma linked_head m l a z : linked m a l z -> l_next (m a) = hd z l /\ l_prev (m (hd z l)) = a.
Proof. destruct l; cbn [linked hd]; tauto. Qed.

(** ** The operations on a segment *)

Lemma set_prev_next m a p x : l_next (set_prev m a p x) = l_next (m x).
Proof. unfold set_prev. destruct (decide (a = x)) as [->|]; [by rewrite fn_lookup_insert|by rewrite fn_lookup_insert_ne]. Qed.
Lemma set_prev_prev m a p x : l_prev (set_prev m a p x) = if decide (x = a) then p else l_prev (m x).
Proof. unfold set_prev. case_decide; [subst; by rewrite fn_lookup_insert|by rewrite fn_lookup_insert_ne]. Qed.
Lemma set_next_prev m a p x : l_prev (set_next m a p x) = l_prev (m x).
Proof. unfold set_next. destruct (decide (a = x)) as [->|]; [by rewrite fn_lookup_insert|by rewrite fn_lookup_insert_ne]. Qed.
Lemma set_next_next m a p x : l_next (set_next m a p x) = if decide (x = a) then p else l_next (m x).
Proof. unfold set_next. case_decide; [subst; by rewrite fn_lookup_insert|by rewrite fn_lookup_insert_ne]. Qed.
Create Rewrite HintDb links.
#[export] Hint Rewrite set_prev_next set_prev_prev set_next_prev set_next_next : links.

(** Decides the tests whose outcome is among the hypotheses. *)
Ltac decided := repeat first [rewrite decide_False by done | rewrite decide_True by done].

(** Inserting [x] between [a] and [b]: the pointers afterwards. *)
Definition between (m : links) (a x b : Z) (m' : links) : Prop :=
  (forall y, l_next (m' y) = if decide (y = a) then x else if decide (y = x) then b else l_next (m y)) /\
  (forall y, l_prev (m' y) = if decide (y = b) then x else if decide (y = x) then a else l_prev (m y)).

Lemma insert_after_between m a b x : l_next (m a) = b -> x <> a -> x <> b -> between m a x b (list_insert_after m a x).
Proof.
  intros Hb Ha Hxb. unfold list_insert_after. split; intros y; autorewrite with links; rewrite ?Hb;
    repeat case_decide; subst; try done; lia.
Qed.

Lemma insert_before_between m a b x : l_prev (m b) = a -> x <> a -> x <> b -> between m a x b (list_insert_before m b x).
Proof.
  intros Hb Ha Hxb. unfold list_insert_before. split; intros y; autorewrite with links; rewrite ?Hb;
    repeat case_decide; subst; try done; lia.
Qed.

(** [x] takes the place of [old] between [a] and [b]. *)
Lemma replace_between m old a b x : l_prev (m old) = a -> l_next (m old) = b -> x <> old -> b <> old -> x <> a -> x <> b ->
  between m a x b (list_replace m old x).
Proof.
  intros Ha Hb Hx Hbo Hxa Hxb. unfold list_replace. split; intros y; autorewrite with links; rewrite ?Ha, ?Hb;
    repeat case_decide; subst; try done; try lia; autorewrite with links; repeat case_decide; subst; done.
Qed.

(** Taking [p] out from between [a] and [b]. *)
Definition removed (m : links) (a p b : Z) (m' : links) : Prop :=
  (forall y, l_next (m' y) = if decide (y = p) then 0 else if decide (y = a) then b else l_next (m y)) /\
  (forall y, l_prev (m' y) = if decide (y = p) then 0 else if decide (y = b) then a else l_prev (m y)).

Lemma delete_removed m a p b : l_prev (m p) = a -> l_next (m p) = b -> a <> 0 -> b <> 0 -> a <> p -> b <> p ->
  exists m', list_delete m p = Some m' /\ removed m a p b m'.
Proof.
  intros Ha Hb Ha0 Hb0 Hap Hbp. unfold list_delete. rewrite Ha, Hb.
  rewrite (proj2 (Z.eqb_neq a 0)), (proj2 (Z.eqb_neq b 0)) by done. cbn [negb andb kassert mbind option_bind].
  eexists. split; [reflexivity|]. split; intros y; autorewrite with links; rewrite ?Ha, ?Hb;
    repeat case_decide; subst; try done; lia.
Qed.

Lemma linked_insert m m' x z xs1 : forall a xs2, linked m a (xs1 ++ xs2) z -> NoDup (a :: xs1 ++ xs2) -> z ∉ xs1 ++ xs2 ->
  x ∉ a :: xs1 ++ xs2 -> x <> z -> between m (last_node a xs1) x (hd z xs2) m' -> linked m' a (xs1 ++ x :: xs2) z.
Proof.
  induction xs1 as [|b l IH]; intros a xs2 Hl Hd Hz Hx Hxz [Hn Hp].
  - cbn [app last_node foldl linked] in *. rewrite Hn, Hp, decide_True by done. split; [done|].
    destruct xs2 as [|b l]; cbn [hd linked] in *; rewrite ?Hn, ?Hp.
    + split_and!; repeat case_decide; set_solver.
    + destruct Hl as (H1 & H2 & H3). apply NoDup_cons in Hd as [Ha Hd]. apply NoDup_cons in Hd as [Hb Hd].
      split; [repeat case_decide; set_solver|]. split; [repeat case_decide; set_solver|]. split; [repeat case_decide; set_solver|].
      apply (linked_ext m); [done|intros y Hy; rewrite Hn|intros y Hy; rewrite Hp]; repeat case_decide; set_solver.
  - cbn [app linked] in *. destruct Hl as (H1 & H2 & H3). pose proof (last_node_elem l b) as He. cbn [last_node foldl] in Hn, Hp.
    change (foldl _ b l) with (last_node b l) in Hn, Hp. apply NoDup_cons in Hd as [Ha Hd].
    assert (hd z xs2 = z \/ hd z xs2 ∈ xs2) as Hh by (destruct xs2; [left|right]; set_solver).
    assert (a <> last_node b l) by (intros E; apply Ha; rewrite E; apply (elem_of_app (b :: l) xs2); by left).
    assert (a <> x /\ b <> x) as [? ?] by set_solver.
    assert (b <> hd z xs2).
    { intros E. apply NoDup_cons in Hd as [Hb Hd]. destruct Hh as [Hh|Hh]; rewrite <- E in Hh; set_solver. }
    rewrite Hn, Hp, !decide_False by done. split; [done|]. split; [done|]. apply IH; [done|done|set_solver..|done].
Qed.

Lemma linked_delete m m' p z xs1 : forall a xs2, linked m a (xs1 ++ p :: xs2) z -> NoDup (a :: xs1 ++ p :: xs2) ->
  z ∉ xs1 ++ p :: xs2 -> removed m (last_node a xs1) p (hd z xs2) m' -> linked m' a (xs1 ++ xs2) z.
Proof.
  induction xs1 as [|b l IH]; intros a xs2 Hl Hd Hz [Hn Hp]; apply NoDup_cons in Hd as [Ha Hd].
  - cbn [app last_node foldl linked] in *. destruct Hl as (H1 & H2 & H3). apply NoDup_cons in Hd as [Hb Hd].
    assert (a <> p /\ z <> p) as [? ?] by set_solver. assert (hd z xs2 <> p) by (destruct xs2; set_solver).
    destruct xs2 as [|c l]; cbn [hd linked] in *; rewrite Hn, Hp; decided; [done|].
    destruct H3 as (_ & _ & Hr). apply NoDup_cons in Hd as [Hc Hd]. split; [done|]. split; [done|].
    apply (linked_ext m); [done|intros y Hy; rewrite Hn|intros y Hy; rewrite Hp]; rewrite !decide_False; set_solver.
  - cbn [app linked] in *. destruct Hl as (H1 & H2 & H3). pose proof (last_node_elem l b) as He. cbn [last_node foldl] in Hn, Hp.
    change (foldl _ b l) with (last_node b l) in Hn, Hp.
    assert (hd z xs2 = z \/ hd z xs2 ∈ xs2) as Hh by (destruct xs2; [left|right]; set_solver).
    assert (a <> last_node b l) by (intros E; apply Ha; rewrite E; apply (elem_of_app (b :: l)); by left).
    assert (a <> p) by set_solver. assert (b <> p) by (apply NoDup_cons in Hd as [Hb Hd]; set_solver).
    assert (b <> hd z xs2).
    { intros E. apply NoDup_cons in Hd as [Hb Hd]. destruct Hh as [Hh|Hh]; rewrite <- E in Hh; set_solver. }
    rewrite Hn, Hp, !decide_False by done. split; [done|]. split; [done|]. apply IH; [done|done|set_solver|done].
Qed.

(** ** The lists of a memory *)

#[export] Instance lists_proper m : Proper ((≡ₚ) ==> iff) (lists m).
Proof.
  assert (H : forall L L', L ≡ₚ L' -> lists m L -> lists m L').
  { intros L L' HL [Hd Hf]. split; [|by rewrite <- HL]. unfold nodes in *. by rewrite <- HL. }
  intros L L' HL. split; apply H; [done|by symmetry].
Qed.

Lemma nodes_cons h xs L : nodes ((h, xs) :: L) = h :: xs ++ nodes L.
Proof. done. Qed.

Lemma lists_ext m m' L : lists m L -> (forall x, x ∈ nodes L -> m' x = m x) -> lists m' L.
Proof.
  intros [Hd Hf] Hx. split; [done|]. rewrite Forall_forall in *. intros [h xs] Hin. specialize (Hf _ Hin). cbn [fst snd] in *.
  assert (Hn : forall y, y = h \/ y ∈ xs -> y ∈ nodes L).
  { intros y Hy. apply list_elem_of_bind. exists (h, xs). split; [cbn; set_solver|done]. }
  eapply linked_ext; [exact Hf|intros y Hy; rewrite Hx; [done|apply Hn; tauto]..].
Qed.

(** The memory outside of one list. *)
Lemma lists_frame m m' h xs xs' L : lists m ((h, xs) :: L) -> linked m' h xs' h ->
  (forall x, x ∉ 0 :: h :: xs -> x ∈ xs' -> x ∉ nodes L) ->
  (forall x, x ∈ nodes L -> l_next (m' x) = l_next (m x) /\ l_prev (m' x) = l_prev (m x)) ->
  NoDup (0 :: h :: xs') -> lists m' ((h, xs') :: L).
Proof.
  intros [Hd Hf] Hl Hfr Hx Hnd. apply Forall_cons in Hf as [_ Hf]. split.
  - rewrite nodes_cons in *. apply NoDup_cons in Hd as [H0 Hd]. apply NoDup_cons in Hnd as [H0' Hnd].
    apply NoDup_cons in Hd as [Hh Hd]. apply NoDup_cons in Hnd as [Hh' Hnd]. apply NoDup_app in Hd as (Hd1 & Hd2 & Hd3).
    apply NoDup_cons. split; [set_solver|]. apply NoDup_cons. split; [set_solver|]. apply NoDup_app. split; [done|]. split; [|done].
    intros x Hx1. destruct (decide (x ∈ xs)); [by apply Hd2|]. destruct (decide (x = 0 \/ x = h)) as [[-> | ->]|]; [set_solver..|].
    apply Hfr; set_solver.
  - constructor; [done|]. rewrite Forall_forall in *. intros [h2 ys] Hin. specialize (Hf _ Hin). cbn [fst snd] in *.
    assert (Hn : forall y, y = h2 \/ y ∈ ys -> y ∈ nodes L).
    { intros y Hy. apply list_elem_of_bind. exists (h2, ys). split; [cbn; set_solver|done]. }
    eapply linked_ext; [exact Hf|intros y Hy; apply Hx, Hn; tauto..].
Qed.

Lemma lists_ring m h xs L : lists m ((h, xs) :: L) ->
  linked m h xs h /\ NoDup (0 :: h :: xs) /\ forall x, x ∈ h :: xs -> x ∉ nodes L.
Proof.
  intros [Hd Hf]. apply Forall_cons in Hf as [Hl _]. split; [done|]. rewrite nodes_cons in Hd.
  change (0 :: h :: xs ++ nodes L) with ((0 :: h :: xs) ++ nodes L) in Hd. apply NoDup_app in Hd as (H1 & H2 & _).
  split; [done|]. intros x Hx. apply H2. by right.
Qed.

Lemma lists_insert m m' h xs1 xs2 x L : lists m ((h, xs1 ++ xs2) :: L) -> x ∉ 0 :: nodes ((h, xs1 ++ xs2) :: L) ->
  between m (last_node h xs1) x (hd h xs2) m' -> lists m' ((h, xs1 ++ x :: xs2) :: L).
Proof.
  intros HL Hx Hb. destruct (lists_ring _ _ _ _ HL) as (Hl & Hnd & Hdj). rewrite nodes_cons in Hx.
  assert (Ha : last_node h xs1 ∈ h :: xs1) by apply last_node_elem.
  assert (Hh : hd h xs2 ∈ h :: xs2) by (destruct xs2; set_solver).
  apply NoDup_cons in Hnd as [H0 Hnd]. pose proof Hnd as Hnd'. apply NoDup_cons in Hnd' as [Hhn Hnd'].
  apply (lists_frame m m' h (xs1 ++ xs2)); [done|..].
  - apply (linked_insert m); [done|done|set_solver..|done].
  - intros y Hy Hin. assert (y = x) as -> by set_solver. set_solver.
  - intros y Hy. assert (Hy' : y ∉ h :: xs1 ++ xs2) by (intros Hin; by apply (Hdj y)). assert (y <> x) by (clear - Hx Hy; set_solver).
    assert (y <> last_node h xs1) by (intros ->; clear - Ha Hy'; set_solver).
    assert (y <> hd h xs2) by (intros ->; clear - Hh Hy'; set_solver).
    destruct Hb as [Hbn Hbp]. rewrite Hbn, Hbp. decided. done.
  - rewrite <- Permutation_middle. apply NoDup_cons. split; [set_solver|]. rewrite perm_swap. apply NoDup_cons. split; [set_solver|done].
Qed.

Lemma lists_delete m m' h xs1 p xs2 L : lists m ((h, xs1 ++ p :: xs2) :: L) -> removed m (last_node h xs1) p (hd h xs2) m' ->
  lists m' ((h, xs1 ++ xs2) :: L).
Proof.
  intros HL Hb. destruct (lists_ring _ _ _ _ HL) as (Hl & Hnd & Hdj).
  assert (Ha : last_node h xs1 ∈ h :: xs1) by apply last_node_elem.
  assert (Hh : hd h xs2 ∈ h :: xs2) by (destruct xs2; set_solver).
  pose proof Hnd as Hnd'. apply NoDup_cons in Hnd' as [H0 Hnd']. pose proof Hnd' as Hhn. apply NoDup_cons in Hhn as [Hhn _].
  apply (lists_frame m m' h (xs1 ++ p :: xs2)); [done|..].
  - by apply (linked_delete m m' p).
  - clear. intros y Hy Hin. set_solver.
  - intros y Hy. assert (Hy' : y ∉ h :: xs1 ++ p :: xs2) by (intros Hin; by apply (Hdj y)). assert (y <> p) by (clear - Hy'; set_solver).
    assert (y <> last_node h xs1) by (intros ->; clear - Ha Hy'; set_solver).
    assert (y <> hd h xs2) by (intros ->; clear - Hh Hy'; set_solver).
    destruct Hb as [Hbn Hbp]. rewrite Hbn, Hbp. decided. done.
  - eapply sublist_NoDup; [exact Hnd|]. do 2 apply sublist_skip. apply sublist_app; [done|]. by apply sublist_cons.
Qed.

Lemma lists_init m h L : lists m L -> h ∉ 0 :: nodes L -> lists (list_init m h) ((h, []) :: L).
Proof.
  intros HL Hh. assert (lists (list_init m h) L) as [Hd Hf].
  { eapply lists_ext; [exact HL|]. intros x Hx. unfold list_init, set_prev, set_next.
    rewrite !fn_lookup_insert_ne by (intros ->; apply Hh; by right). done. }
  split; [rewrite nodes_cons; cbn [app]|].
  - rewrite perm_swap. apply NoDup_cons. split; [done|done].
  - constructor; [|done]. cbn [fst snd linked]. unfold list_init. autorewrite with links. decided. done.
Qed.

(** The ring of the source, opened at its head, is that of the destination. *)
Lemma lists_replace m m' s d xs L : lists m ((s, xs) :: L) -> xs <> [] -> d ∉ 0 :: nodes ((s, xs) :: L) ->
  between m (last_node s xs) d (hd s xs) m' -> lists m' ((d, xs) :: L).
Proof.
  intros HL Hne Hx [Hbn Hbp]. destruct (lists_ring _ _ _ _ HL) as (Hl & Hnd & Hdj). rewrite nodes_cons in Hx.
  destruct xs as [|b l]; [done|]. clear Hne. cbn [hd linked] in *. destruct Hl as (H1 & H2 & H3).
  assert (Ha : last_node s (b :: l) ∈ b :: l) by apply (last_node_elem l b).
  destruct HL as [Hd Hf]. apply Forall_cons in Hf as [_ Hf]. rewrite nodes_cons in Hd.
  apply NoDup_cons in Hd as [H0 Hd]. apply NoDup_cons in Hd as [Hs Hd]. split.
  - rewrite nodes_cons. apply NoDup_cons. split; [set_solver|]. apply NoDup_cons. split; [set_solver|done].
  - constructor; [|rewrite Forall_forall in *; intros [h2 ys] Hin; specialize (Hf _ Hin)]; cbn [fst snd linked] in *.
    + apply NoDup_app in Hd as (Hd & _ & _). apply NoDup_cons in Hd as [Hb Hd].
      assert (d <> b /\ d <> last_node s (b :: l)) as [? ?] by (split; intros ->; set_solver).
      rewrite Hbn, Hbp. decided. split; [done|]. split; [done|].
      destruct l as [|c l _] using rev_ind.
      * cbn [linked] in *. rewrite Hbn, Hbp. cbn [last_node foldl] in *. decided. done.
      * apply linked_app in H3 as [H3 [HL1 HL2]]. change (last_node s (b :: l ++ [c])) with (last_node b (l ++ [c])) in *.
        rewrite last_node_snoc in *. apply linked_app. cbn [linked]. rewrite Hbn, Hbp. decided. split; [|done].
        assert (Hc : c ∉ b :: l) by (apply NoDup_app in Hd as (_ & Hd & _); intros [->|Hc]%elem_of_cons; [|apply (Hd c Hc)]; set_solver).
        assert (Hdn : d ∉ b :: l ++ [c]) by (clear - Hx; set_solver).
        apply (linked_ext m); [done|intros y Hy; rewrite Hbn|intros y Hy; rewrite Hbp].
        -- assert (y <> c /\ y <> d) as [? ?] by (clear - Hy Hc Hdn; set_solver). by decided.
        -- assert (y <> b /\ y <> d) as [? ?] by (clear - Hy Hb Hdn; set_solver). by decided.
    + assert (Hn : forall y, y = h2 \/ y ∈ ys -> y ∈ nodes L).
      { intros y Hy. apply list_elem_of_bind. exists (h2, ys). split; [cbn; set_solver|done]. }
      assert (Hne : forall y, y ∈ nodes L -> y <> d /\ y <> b /\ y <> last_node s (b :: l)).
      { intros y Hy. split; [intros ->; clear - Hx Hy; set_solver|]. split; intros Ey; apply (Hdj y); try exact Hy; rewrite Ey; clear - Ha; set_solver. }
      apply (linked_ext m); [done|intros y Hy; rewrite Hbn|intros y Hy; rewrite Hbp];
        destruct (Hne y) as (? & ? & ?); try (apply Hn; tauto); decided; done.
Qed.

(** ** The operations on a list *)

Section Ring.
Context (m : links) (h : Z) (L : list (Z * list Z)).

Lemma insert_after_ok xs1 xs2 x : lists m ((h, xs1 ++ xs2) :: L) -> x ∉ 0 :: nodes ((h, xs1 ++ xs2) :: L) ->
  lists (list_insert_after m (last_node h xs1) x) ((h, xs1 ++ x :: xs2) :: L).
Proof.
  intros HL Hx. destruct (lists_ring _ _ _ _ HL) as (Hl & _ & _). apply (lists_insert m); [done|done|].
  assert (Ha : last_node h xs1 ∈ h :: xs1) by apply last_node_elem. assert (Hh : hd h xs2 ∈ h :: xs2) by (destruct xs2; set_solver).
  rewrite nodes_cons in Hx. apply insert_after_between; [|intros ->; clear - Ha Hx; set_solver|intros ->; clear - Hh Hx; set_solver].
  destruct xs1 as [|b l _] using rev_ind; [exact (proj1 (linked_head _ _ _ _ Hl))|]. rewrite last_node_snoc.
  rewrite <- app_assoc in Hl. apply linked_app in Hl as [_ Hl]. by apply linked_head in Hl as [-> _].
Qed.

Lemma insert_before_ok xs1 xs2 x : lists m ((h, xs1 ++ xs2) :: L) -> x ∉ 0 :: nodes ((h, xs1 ++ xs2) :: L) ->
  lists (list_insert_before m (hd h xs2) x) ((h, xs1 ++ x :: xs2) :: L).
Proof.
  intros HL Hx. destruct (lists_ring _ _ _ _ HL) as (Hl & _ & _). apply (lists_insert m); [done|done|].
  assert (Ha : last_node h xs1 ∈ h :: xs1) by apply last_node_elem. assert (Hh : hd h xs2 ∈ h :: xs2) by (destruct xs2; set_solver).
  rewrite nodes_cons in Hx. apply insert_before_between; [|intros ->; clear - Ha Hx; set_solver|intros ->; clear - Hh Hx; set_solver].
  destruct xs2 as [|b l]; [|apply linked_app in Hl as [Hl _]]; cbn [hd] in *.
  - rewrite app_nil_r in Hl. by apply linked_last in Hl as [-> _].
  - by apply linked_last in Hl as [-> _].
Qed.

Lemma delete_ok xs1 p xs2 : lists m ((h, xs1 ++ p :: xs2) :: L) ->
  exists m', list_delete m p = Some m' /\ lists m' ((h, xs1 ++ xs2) :: L) /\ l_next (m' p) = 0.
Proof.
  intros HL. destruct (lists_ring _ _ _ _ HL) as (Hl & Hnd & _). apply linked_app in Hl as [Hl1 Hl2].
  apply linked_last in Hl1 as [Hp _]. apply linked_head in Hl2 as [Hn _].
  assert (Ha : last_node h xs1 ∈ h :: xs1) by apply last_node_elem. assert (Hh : hd h xs2 ∈ h :: xs2) by (destruct xs2; set_solver).
  apply NoDup_cons in Hnd as [H0 Hnd]. apply NoDup_cons in Hnd as [H1 Hnd]. apply NoDup_app in Hnd as (_ & H2 & H3). apply NoDup_cons in H3 as [H3 _].
  destruct (delete_removed m (last_node h xs1) p (hd h xs2)) as (m' & Hm & Hr); try done.
  - intros E. rewrite E in Ha. clear - H0 Ha. set_solver.
  - intros E. rewrite E in Hh. clear - H0 Hh. set_solver.
  - intros E. rewrite E in Ha. apply elem_of_cons in Ha as [->|Ha]; [|apply (H2 _ Ha)]; set_solver.
  - intros E. rewrite E in Hh. clear - H1 H3 Hh. set_solver.
  - exists m'. split; [done|]. split; [by apply (lists_delete m m' h xs1 p)|]. destruct Hr as [-> _]. by decided.
Qed.

Lemma empty_ok xs : lists m ((h, xs) :: L) -> list_empty m h = Some (bool_decide (xs = [])).
Proof.
  intros HL. destruct (lists_ring _ _ _ _ HL) as (Hl & Hnd & _). pose proof (linked_head _ _ _ _ Hl) as [Hn _].
  apply linked_last in Hl as [Hp _]. unfold list_empty. rewrite Hn, Hp. apply NoDup_cons in Hnd as [_ Hnd]. apply NoDup_cons in Hnd as [Hh Hnd].
  destruct xs as [|b l]; [by rewrite !Z.eqb_refl|]. cbn [hd].
  assert (Ha : last_node h (b :: l) ∈ b :: l) by apply (last_node_elem l b).
  rewrite (proj2 (Z.eqb_neq b h)), (proj2 (Z.eqb_neq _ h)); [done|intros E; by rewrite E in Ha|intros ->; apply Hh; left].
Qed.

Lemma singular_ok xs : lists m ((h, xs) :: L) -> list_singular m h = (length xs =? 1)%nat.
Proof.
  intros HL. destruct (lists_ring _ _ _ _ HL) as (Hl & Hnd & _). pose proof (linked_head _ _ _ _ Hl) as [Hn _].
  apply linked_last in Hl as [Hp _]. unfold list_singular. rewrite Hn, Hp. apply NoDup_cons in Hnd as [_ Hnd]. apply NoDup_cons in Hnd as [Hh Hnd].
  destruct xs as [|b [|c l]]; cbn [hd length].
  - by rewrite Z.eqb_refl.
  - rewrite Z.eqb_refl, (proj2 (Z.eqb_neq b h)); [done|set_solver].
  - apply NoDup_cons in Hnd as [Hb Hnd]. assert (Ha : last_node h (b :: c :: l) ∈ c :: l) by apply (last_node_elem l c).
    rewrite (proj2 (Z.eqb_neq b (last_node _ _))), andb_false_r; [done|]. intros E. by rewrite <- E in Ha.
Qed.

Lemma get_next_ok xs : lists m ((h, xs) :: L) -> list_get_next m h = hd 0 xs.
Proof.
  intros HL. destruct (lists_ring _ _ _ _ HL) as (Hl & Hnd & _). apply linked_head in Hl as [Hn _]. unfold list_get_next. rewrite Hn.
  apply NoDup_cons in Hnd as [_ Hnd]. apply NoDup_cons in Hnd as [Hh _].
  destruct xs as [|b l]; cbn [hd]; [by rewrite Z.eqb_refl|]. rewrite (proj2 (Z.eqb_neq b h)); [done|set_solver].
Qed.

(** A loop whose body does not change the list visits its members in order. *)
Lemma find_ok elem : forall fuel a l, linked m a l h -> h ∉ l -> (length l < fuel)%nat ->
  list_foreach fuel (fun m => m) h (fun m e => if e =? elem then Some (inr tt) else Some (inl m)) m (hd h l) =
  Some (if decide (elem ∈ l) then inr tt else inl m).
Proof.
  induction fuel as [|fuel IH]; intros a l Hl Hh Hf; [lia|]. cbn [list_foreach]. unfold list_end.
  destruct l as [|b l]; cbn [hd length linked] in *; [by rewrite Z.eqb_refl|].
  rewrite (proj2 (Z.eqb_neq b h)) by set_solver. destruct Hl as (_ & _ & Hl). destruct (Z.eqb_spec b elem) as [->|Hne]; cbn [mbind option_bind].
  - rewrite decide_True by left. done.
  - pose proof (linked_head _ _ _ _ Hl) as [-> _]. rewrite (IH b l Hl) by (set_solver || lia).
    f_equal. repeat case_decide; set_solver.
Qed.
End Ring.

(** ** Refinement *)

Inductive list_op : Type :=
  | Init (h : Z) | InsertAfter (pos x : Z) | InsertBefore (pos x : Z) | Delete (p : Z)
  | Pop (h : Z) | PopBack (h : Z) | Move (dest src : Z).

(** The code: the memory and the node that a removal returns. *)
Definition run_op (m : links) (o : list_op) : option (Z * links) :=
  match o with
  | Init h => Some (0, list_init m h)
  | InsertAfter pos x => Some (0, list_insert_after m pos x)
  | InsertBefore pos x => Some (0, list_insert_before m pos x)
  | Delete p => m ← list_delete m p; Some (0, m)
  | Pop h => list_pop m h
  | PopBack h => list_pop_back m h
  | Move dest src => m ← list_move m dest src; Some (0, m)
  end.

(** What an operation does to the lists; the order in which they are given is immaterial. *)
Inductive spec_op : list_op -> list (Z * list Z) -> Z -> list (Z * list Z) -> Prop :=
  | spec_init h L : h ∉ 0 :: nodes L -> spec_op (Init h) L 0 ((h, []) :: L)
  | spec_after h xs1 xs2 x L : x ∉ 0 :: nodes ((h, xs1 ++ xs2) :: L) ->
      spec_op (InsertAfter (last_node h xs1) x) ((h, xs1 ++ xs2) :: L) 0 ((h, xs1 ++ x :: xs2) :: L)
  | spec_before h xs1 xs2 x L : x ∉ 0 :: nodes ((h, xs1 ++ xs2) :: L) ->
      spec_op (InsertBefore (hd h xs2) x) ((h, xs1 ++ xs2) :: L) 0 ((h, xs1 ++ x :: xs2) :: L)
  | spec_delete h xs1 p xs2 L : spec_op (Delete p) ((h, xs1 ++ p :: xs2) :: L) 0 ((h, xs1 ++ xs2) :: L)
  | spec_pop h x xs L : spec_op (Pop h) ((h, x :: xs) :: L) x ((h, xs) :: L)
  | spec_pop_back h x xs L : spec_op (PopBack h) ((h, xs ++ [x]) :: L) x ((h, xs) :: L)
  | spec_move dest src xs L : dest ∉ 0 :: nodes ((src, xs) :: L) ->
      spec_op (Move dest src) ((src, xs) :: L) 0 ((src, []) :: (dest, xs) :: L)
  | spec_perm o L1 L2 r L' : L1 ≡ₚ L2 -> spec_op o L2 r L' -> spec_op o L1 r L'.

Fixpoint run_ops (m : links) (os : list list_op) : option (list Z * links) :=
  match os with
  | [] => Some ([], m)
  | o :: os => '(r, m) ← run_op m o; '(rs, m) ← run_ops m os; Some (r :: rs, m)
  end.

Inductive spec_ops : list list_op -> list (Z * list Z) -> list Z -> list (Z * list Z) -> Prop :=
  | spec_nil L : spec_ops [] L [] L
  | spec_cons o os L r L1 rs L2 : spec_op o L r L1 -> spec_ops os L1 rs L2 -> spec_ops (o :: os) L (r :: rs) L2.

Lemma move_ok m dest src xs L : lists m ((src, xs) :: L) -> dest ∉ 0 :: nodes ((src, xs) :: L) ->
  exists m', list_move m dest src = Some m' /\ lists m' ((src, []) :: (dest, xs) :: L).
Proof.
  intros HL Hx. unfold list_move. rewrite (empty_ok _ _ _ _ HL). cbn [mbind option_bind]. case_bool_decide as He.
  - subst xs. eexists. split; [reflexivity|]. rewrite perm_swap. by apply lists_init.
  - eexists. split; [reflexivity|]. destruct (lists_ring _ _ _ _ HL) as (Hl & Hnd & Hdj).
    pose proof (linked_head _ _ _ _ Hl) as [Hn _]. pose proof (linked_last _ _ _ _ Hl) as [Hp _]. rewrite nodes_cons in Hx.
    apply NoDup_cons in Hnd as [H0 Hnd]. apply NoDup_cons in Hnd as [Hs _].
    destruct xs as [|b l]; [done|]. assert (Ha : last_node src (b :: l) ∈ b :: l) by apply (last_node_elem l b).
    apply lists_init.
    + apply (lists_replace m _ src); [done|done|done|]. apply replace_between; [done|done|cbn [hd]..].
      1, 2, 4: clear - Hx Hs; set_solver. intros ->. clear - Ha Hx. set_solver.
    + rewrite nodes_cons. specialize (Hdj src ltac:(left)). set_solver.
Qed.

Lemma op_ok o L r L' : spec_op o L r L' -> forall m, lists m L -> exists m', run_op m o = Some (r, m') /\ lists m' L'.
Proof.
  induction 1 as [h L Hh|h xs1 xs2 x L Hx|h xs1 xs2 x L Hx|h xs1 p xs2 L|h x xs L|h x xs L|dest src xs L Hd|o L1 L2 r L' Hp Ho IH];
    intros m HL; cbn [run_op].
  - eexists. split; [reflexivity|]. by apply lists_init.
  - eexists. split; [reflexivity|]. by apply insert_after_ok.
  - eexists. split; [reflexivity|]. by apply insert_before_ok.
  - destruct (delete_ok _ _ _ _ _ _ HL) as (m' & -> & HL' & _). by exists m'.
  - destruct (lists_ring _ _ _ _ HL) as (Hl & _ & _). apply linked_head in Hl as [Hn _]. unfold list_pop, list_begin. rewrite Hn. cbn [hd].
    destruct (delete_ok m h L [] x xs HL) as (m' & -> & HL' & _). by exists m'.
  - destruct (lists_ring _ _ _ _ HL) as (Hl & _ & _). apply linked_last in Hl as [Hp _]. unfold list_pop_back, list_end.
    rewrite Hp, last_node_snoc. destruct (delete_ok m h L xs x [] HL) as (m' & -> & HL' & _). rewrite app_nil_r in HL'. by exists m'.
  - destruct (move_ok m dest src xs L HL Hd) as (m' & -> & HL'). by exists m'.
  - apply IH. by rewrite <- Hp.
Qed.

Lemma ops_ok os L rs L' : spec_ops os L rs L' -> forall m, lists m L -> exists m', run_ops m os = Some (rs, m') /\ lists m' L'.
Proof.
  induction 1 as [L|o os L r L1 rs L2 Ho Hs IH]; intros m HL; cbn [run_ops]; [by exists m|].
  destruct (op_ok _ _ _ _ Ho m HL) as (m1 & -> & HL1). cbn [mbind option_bind]. destruct (IH m1 HL1) as (m2 & -> & HL2). by exists m2.
Qed.

(** C29: from any memory, every sequence of operations on lists that respects their
    rules (a node that is inserted is in no list, a node that is deleted is in one, only
    lists that are not empty are popped) succeeds without a failed assertion, returns the
    nodes that it returns on sequences, and leaves the memory with exactly the lists of
    the specification, each of which the tests and the search then see as its sequence. *)
Theorem lists_refine_sequences m os rs L : spec_ops os [] rs L ->
  exists m', run_ops m os = Some (rs, m') /\ lists m' L /\
    forall h xs, (h, xs) ∈ L ->
      list_empty m' h = Some (bool_decide (xs = [])) /\ list_singular m' h = (length xs =? 1)%nat /\
      list_get_next m' h = hd 0 xs /\ linked m' h xs h /\
      forall e fuel, (length xs < fuel)%nat -> list_find fuel m' h e = Some (bool_decide (e ∈ xs)).
Proof.
  intros Hs. assert (H0 : lists m []) by (split; [apply NoDup_singleton|constructor]).
  destruct (ops_ok _ _ _ _ Hs m H0) as (m' & Hr & HL). exists m'. split; [done|]. split; [done|].
  intros h xs Hin. apply elem_of_Permutation in Hin as [L' HL']. rewrite HL' in HL.
  rewrite (empty_ok _ _ _ _ HL), (singular_ok _ _ _ _ HL), (get_next_ok _ _ _ _ HL). destruct (lists_ring _ _ _ _ HL) as (Hl & Hnd & _).
  do 4 (split; [done|]). intros e fuel Hf. unfold list_find, list_begin. destruct (linked_head _ _ _ _ Hl) as [-> _].
  apply NoDup_cons in Hnd as [_ Hnd]. apply NoDup_cons in Hnd as [Hh _]. rewrite (find_ok m' h e fuel h xs Hl Hh Hf). cbn [mbind option_bind].
  destruct (decide (e ∈ xs)); [by rewrite bool_decide_true|by rewrite bool_decide_false].
Qed.

Lemma lists_refine_sequences_witness :
  exists m', run_ops (fun _ => Link 0 0) [Init 1; InsertAfter 1 2; InsertBefore 1 3; Move 4 1; Pop 4] = Some ([0; 0; 0; 0; 2], m') /\
    list_find 3 m' 4 3 = Some true /\ list_empty m' 1 = Some true.
Proof.
  assert (Hf : forall (x : Z) (l : list Z), bool_decide (x ∈ l) = false -> x ∉ l) by (intros x l; apply bool_decide_eq_false_1).
  destruct (lists_refine_sequences (fun _ => Link 0 0) [Init 1; InsertAfter 1 2; InsertBefore 1 3; Move 4 1; Pop 4] [0; 0; 0; 0; 2]
    [(4, [3]); (1, [])]) as (m' & H1 & _ & H2).
  - eapply spec_cons; [apply spec_init, Hf; reflexivity|]. eapply spec_cons; [apply (spec_after 1 [] []), Hf; reflexivity|].
    eapply spec_cons; [apply (spec_before 1 [2] []), Hf; reflexivity|]. eapply spec_cons; [apply spec_move, Hf; reflexivity|].
    eapply spec_cons; [|apply spec_nil]. eapply spec_perm; [apply perm_swap|]. apply spec_pop.
  - exists m'. split; [exact H1|]. destruct (H2 4 [3]) as (_ & _ & _ & _ & H3); [left|]. destruct (H2 1 []) as (H4 & _); [right; left|].
    split; [|exact H4]. rewrite H3 by (cbn; lia). reflexivity.
Defined.
