(* ===== verification/Objcache.v ===== *)
(** The object cache: [kernel/src/runtime/heap/objcache.c].

    A cache cuts pages of its parent heap into objects of one size.  Each page ends in a
    footer, which is a member of the list of pages with free objects or of that of full
    ones; the objects freed in a page are a list of indices threaded through the objects
    themselves, and those never used are the ones from [f_head] on.

    The memory is kept in parts: the pointers of the lists (Dlist.v), the other fields
    of the footers by their address, and the first 16 bits of each object, which the
    cache writes into an object that is free and its owner may overwrite while it is
    allocated.  The parent heap is the class [PageHeap]. *)

From stdpp Require Import functions.
From S2P Require Import Prelude Words Dlist.

(** ** The parent heap *)

(** A heap as the cache uses it.  [in_use] tells the bytes that are allocated. *)
Class PageHeap (P : Type) := {
  allocate_u64 : P -> Z -> Z * P;
  deallocate_u64 : P -> Z -> Z -> P;
  heap_ok : P -> Prop;
  in_use : P -> Z -> Prop;
}.

(** What it promises for blocks of [size] bytes, inside the memory [managed]. *)
Class PageHeapLaws {P} (H : PageHeap P) (size : Z) (managed : Z -> Prop) : Prop := {
  allocate_u64_ok s a s' : heap_ok s -> allocate_u64 s size = (a, s') -> heap_ok s' /\
    (if a =? INVALID_PHYSICAL then forall x, in_use s' x <-> in_use s x
     else (size | a) /\ 0 <= a /\ a + size < 2 ^ 64 /\
       (forall x, a <= x < a + size -> managed x /\ ~ in_use s x) /\
       forall x, in_use s' x <-> in_use s x \/ a <= x < a + size);
  deallocate_u64_ok s a : heap_ok s -> (size | a) -> (forall x, a <= x < a + size -> in_use s x) ->
    heap_ok (deallocate_u64 s a size) /\
    forall x, in_use (deallocate_u64 s a size) x <-> in_use s x /\ ~ a <= x < a + size;
}.

(** ** The code *)

Definition FOOTER_MAGIC : Z := 0xcafe.
Definition sizeof_footer : Z := 32.
Definition invalid_index : Z := u16 (-1).
Definition is_valid_index (i : Z) : bool := negb (u16 i =? invalid_index).

Record footer := Footer { magic : Z; free : Z; head : Z; avail : Z; cache : Z }.

Section Objcache.
Context {P : Type} {H : PageHeap P}.

(** [self] is the address of the structure, [free_list] and [full_list] those of its two
    list heads; [lk], [ft] and [nx] are the memory. *)
Record objcache := Objcache {
  self : Z; free_list : Z; full_list : Z;
  object_size : Z; page_size : Z; objs_per_page : Z;
  total_objs : Z; alloced_objs : Z; wrapper_heap : Z; prealloc_only : bool;
  lk : links; ft : Z -> footer; nx : Z -> Z; parent : P }.

Definition set_mem (o : objcache) (l : links) (f : Z -> footer) (n : Z -> Z) (p : P) : objcache :=
  Objcache (self o) (free_list o) (full_list o) (object_size o) (page_size o) (objs_per_page o)
    (total_objs o) (alloced_objs o) (wrapper_heap o) (prealloc_only o) l f n p.
Definition set_lk (o : objcache) (l : links) : objcache := set_mem o l (ft o) (nx o) (parent o).
Definition set_ft (o : objcache) (a : Z) (f : footer) : objcache := set_mem o (lk o) (<[a := f]> (ft o)) (nx o) (parent o).
Definition set_nx (o : objcache) (a w : Z) : objcache := set_mem o (lk o) (ft o) (<[a := w]> (nx o)) (parent o).
Definition set_parent (o : objcache) (p : P) : objcache := set_mem o (lk o) (ft o) (nx o) p.
Definition set_counts (o : objcache) (total alloced : Z) : objcache :=
  Objcache (self o) (free_list o) (full_list o) (object_size o) (page_size o) (objs_per_page o)
    total alloced (wrapper_heap o) (prealloc_only o) (lk o) (ft o) (nx o) (parent o).

Definition page_from_obj (o : objcache) (a : Z) : Z := Z.land (u64 (Z.lnot (page_size o - 1))) a.
Definition page_from_footer (o : objcache) (f : Z) : Z := page_from_obj o f.
Definition footer_from_page (o : objcache) (p : Z) : Z := u64 (p + page_size o - sizeof_footer).
Definition obj_from_index (o : objcache) (p i : Z) : Z := u64 (p + u64 (i * object_size o)).

Definition index_from_obj (o : objcache) (p obj : Z) : option Z :=
  _ ← kassert (p <=? obj);
  _ ← kassert (obj <? u64 (p + page_size o));
  let offset := u64 (obj - p) in
  _ ← kassert (offset mod object_size o =? 0);
  Some (u16 (offset / object_size o)).

(** The member [list] of a footer, at offset 16. *)
Definition list_of (f : Z) : Z := f + 16.
Definition footer_from_list (l : Z) : Z := l - 16.

(** Returns the footer, or 0. *)
Definition objcache_addpage (o : objcache) : option (Z * objcache) :=
  let '(p, par) := allocate_u64 (parent o) (page_size o) in
  let o := set_parent o par in
  if p =? INVALID_PHYSICAL then Some (0, o)
  else
    _ ← kassert (Z.land p (page_size o - 1) =? 0);
    let f := footer_from_page o p in
    let o := set_ft o f {| magic := FOOTER_MAGIC; free := invalid_index; head := 0; avail := u16 (objs_per_page o);
                           cache := if wrapper_heap o =? 0 then self o else wrapper_heap o |} in
    let o := set_lk o (list_insert_after (lk o) (free_list o) (list_of f)) in
    Some (f, set_counts o (u64 (total_objs o + objs_per_page o)) (alloced_objs o)).

Definition objcache_removepage (o : objcache) (f : Z) : option objcache :=
  l ← list_delete (lk o) (list_of f);
  let o := set_lk o l in
  let o := set_parent o (deallocate_u64 (parent o) (page_from_footer o f) (page_size o)) in
  Some (set_counts o (u64 (total_objs o - objs_per_page o)) (alloced_objs o)).

Definition validate_page (o : objcache) (f : Z) : bool :=
  let f := ft o f in
  if negb (magic f =? FOOTER_MAGIC) then false
  else if negb (cache f =? self o) && (negb (wrapper_heap o =? 0) && negb (cache f =? wrapper_heap o)) then false
  else true.

Definition objcache_deallocate (o : objcache) (x size : Z) : option objcache :=
  let p := page_from_obj o x in
  let f := footer_from_page o p in
  if negb (size =? object_size o) then Some o
  else if negb (validate_page o f) then Some o
  else
    o ← (if avail (ft o f) =? 0 then
           _ ← kassert (negb (is_valid_index (free (ft o f))));
           l ← list_delete (lk o) (list_of f);
           Some (set_lk o (list_insert_after l (free_list o) (list_of f)))
         else Some o);
    let o := set_nx o x (free (ft o f)) in
    i ← index_from_obj o p x;
    let t := ft o f in
    let o := set_ft o f {| magic := magic t; free := i; head := head t; avail := u16 (avail t + 1); cache := cache t |} in
    _ ← kassert (avail (ft o f) <=? objs_per_page o);
    _ ← kassert (0 <? alloced_objs o);
    Some (set_counts o (total_objs o) (u64 (alloced_objs o - 1))).

(** The object taken from the page of the footer [f], and its new fields. *)
Definition take_object (o : objcache) (p f : Z) : option (Z * footer) :=
  let t := ft o f in
  if is_valid_index (free t) then
    let obj := obj_from_index o p (free t) in
    Some (obj, {| magic := magic t; free := nx o obj; head := head t; avail := avail t; cache := cache t |})
  else
    _ ← kassert (is_valid_index (head t));
    _ ← kassert (head t <? objs_per_page o);
    Some (obj_from_index o p (head t),
          {| magic := magic t; free := free t; head := u16 (head t + 1); avail := avail t; cache := cache t |}).

(** The part of [objcache_allocate] with a page in hand. *)
Definition allocate_from (o : objcache) (f : Z) : option (Z * objcache) :=
  if negb (validate_page o f) then Some (INVALID_PHYSICAL, o)
  else
    let p := page_from_footer o f in
    '(obj, t) ← take_object o p f;
    _ ← kassert (0 <? avail t);
    let o := set_ft o f {| magic := magic t; free := free t; head := head t; avail := avail t - 1; cache := cache t |} in
    o ← (if avail (ft o f) =? 0 then
           l ← list_delete (lk o) (list_of f);
           Some (set_lk o (list_insert_before l (full_list o) (list_of f)))
         else Some o);
    _ ← kassert (alloced_objs o <=? total_objs o);
    Some (obj, set_counts o (total_objs o) (u64 (alloced_objs o + 1))).

Definition objcache_allocate (o : objcache) (size : Z) : option (Z * objcache) :=
  if negb (size =? object_size o) then Some (INVALID_PHYSICAL, o)
  else
    let next_free := list_get_next (lk o) (free_list o) in
    if negb (next_free =? 0) then allocate_from o (footer_from_list next_free)
    else if prealloc_only o then Some (INVALID_PHYSICAL, o)
    else
      '(f, o) ← objcache_addpage o;
      if f =? 0 then Some (INVALID_PHYSICAL, o) else allocate_from o f.

(** [foreach_page_footer] is [list_foreach] on the footers of a list. *)
Definition foreach_page_footer {S R} (fuel : nat) (mem : S -> links) (l : Z) (body : S -> Z -> option (S + R)) (s : S) :
    option (S + R) :=
  list_foreach fuel mem l (fun s e => body s (footer_from_list e)) s (l_next (mem s l)).

Definition release_pages (fuel : nat) (o : objcache) (l : Z) : option objcache :=
  r ← foreach_page_footer (R := Empty_set) fuel lk l
        (fun o f => Some (inl (set_parent o (deallocate_u64 (parent o) (page_from_footer o f) (page_size o))))) o;
  match r with inl o => Some o | inr e => match (e : Empty_set) with end end.

(** The structure itself is released to another heap. *)
Definition objcache_destroy (fuel : nat) (o : objcache) : option objcache :=
  o ← release_pages fuel o (free_list o); release_pages fuel o (full_list o).

Definition objcache_allocated (o : objcache) : Z := u64 (alloced_objs o * object_size o).
Definition objcache_total (o : objcache) : Z := u64 (total_objs o * object_size o).

Definition objcache_from_object (o : objcache) (obj parent_pagesize : Z) : Z :=
  let f := ft o (u64 (Z.land obj (u64 (Z.lnot (parent_pagesize - 1))) + (parent_pagesize - sizeof_footer))) in
  if negb (magic f =? FOOTER_MAGIC) then INVALID_PHYSICAL else cache f.

(** The tally of the free objects from [next] on; [None] inside when an index is invalid. *)
Fixpoint walk_free (fuel : nat) (o : objcache) (p next free_tally : Z) : option (option Z) :=
  match fuel with
  | O => None
  | S fuel =>
      if objs_per_page o <=? next then Some None
      else
        let obj := obj_from_index o p next in
        let free_tally := free_tally + 1 in
        let next := nx o obj in
        if is_valid_index next && (free_tally <=? invalid_index) then walk_free fuel o p next free_tally
        else Some (Some free_tally)
  end.

(** What is checked of a page on the free list. *)
Definition validate_free_page (o : objcache) (f : Z) : option bool :=
  let t := ft o f in
  let p := page_from_footer o f in
  if negb (validate_page o f) then Some false
  else if avail t =? 0 then Some false
  else if negb (is_valid_index (free t)) && (head t =? objs_per_page o) then Some false
  else
    r ← (if is_valid_index (free t) then walk_free (Z.to_nat (invalid_index + 2)) o p (free t) 0 else Some (Some 0));
    match r with
    | None => Some false
    | Some free_tally =>
        if invalid_index <? free_tally then Some false
        else if objs_per_page o <? head t then Some false
        else
          let uninit_count := s32 (objs_per_page o - head t) in
          Some (s32 (free_tally + uninit_count) =? avail t)
    end.

Definition validate_full_page (o : objcache) (f : Z) : bool :=
  let t := ft o f in
  if negb (validate_page o f) then false
  else if negb (avail t =? 0) then false
  else if is_valid_index (free t) then false
  else if head t <? objs_per_page o then false
  else true.

Definition objcache_validate (fuel : nat) (o : objcache) : option bool :=
  r ← foreach_page_footer fuel (fun _ => lk o) (free_list o)
        (fun '(pages, av) f => ok ← validate_free_page o f;
           Some (if (ok : bool) then inl (u64 (pages + 1), u64 (av + avail (ft o f))) else inr false)) (0, 0);
  match r with
  | inr b => Some b
  | inl (pages, total_avail) =>
      r ← foreach_page_footer fuel (fun _ => lk o) (full_list o)
            (fun pages f => Some (if validate_full_page o f then inl (u64 (pages + 1)) else inr false)) pages;
      match r with
      | inr b => Some b
      | inl total_pages =>
          if negb (u64 (total_pages * objs_per_page o) =? total_objs o) then Some false
          else if negb (u64 (total_objs o - total_avail) =? alloced_objs o) then Some false
          else Some true
      end
  end.

(** The first loop: the state is the cache, the retained and the drained amount. *)
Definition drain_first (size retain : Z) (s : objcache * Z * Z) (f : Z) : option (objcache * Z * Z + objcache * Z) :=
  let '(o, retained, drained) := s in
  if (retain <=? retained) && (avail (ft o f) =? objs_per_page o) then
    o ← objcache_removepage o f;
    let drained := u64 (drained + page_size o) in
    if size <=? drained then Some (inr (o, drained)) else Some (inl (o, retained, drained))
  else Some (inl (o, u64 (retained + u64 (avail (ft o f) * object_size o)), drained)).

Definition drain_second (size retain : Z) (s : objcache * Z * Z) (f : Z) : option (objcache * Z * Z + objcache * Z) :=
  let '(o, retained, drained) := s in
  if retained <? u64 (retain + page_size o) then Some (inr (o, drained))
  else if avail (ft o f) =? objs_per_page o then
    o ← objcache_removepage o f;
    let drained := u64 (drained + page_size o) in
    if size <=? drained then Some (inr (o, drained)) else Some (inl (o, u64 (retained - page_size o), drained))
  else Some (inl s).

Definition objcache_drain (fuel : nat) (o : objcache) (size retain : Z) : option (Z * objcache) :=
  r ← foreach_page_footer fuel (fun '(o, _, _) => lk o) (free_list o) (drain_first size retain) (o, 0, 0);
  match r with
  | inr (o, drained) => Some (drained, o)
  | inl s =>
      r ← foreach_page_footer fuel (fun '(o, _, _) => lk o) (free_list o) (drain_second size retain) s;
      match r with inr (o, drained) | inl (o, _, drained) => Some (drained, o) end
  end.

(** [parent_pagesize] is that of the parent; [a] the address that [meta] gives.  The inner
    [None] is [INVALID_ADDRESS].  The list heads are at [free_l] and [full_l]. *)
Definition allocate_objcache (a free_l full_l : Z) (l : links) (f : Z -> footer) (n : Z -> Z) (par : P)
    (parent_pagesize objsize pagesize : Z) : option (option objcache) :=
  if objsize <? 2 then Some None
  else if (pagesize <? parent_pagesize) || negb (Z.land (u64 (pagesize - 1)) pagesize =? 0) then Some None
  else
    let objs := u64 (pagesize - sizeof_footer) / objsize in
    if objs =? 0 then Some None
    else
      let objs := if U64_FROM_BIT 16 <=? objs then U64_FROM_BIT 16 - 1 else objs in
      _ ← kassert (negb (a =? INVALID_PHYSICAL));
      Some (Some {| self := a; free_list := free_l; full_list := full_l; object_size := objsize; page_size := pagesize;
                    objs_per_page := objs; total_objs := 0; alloced_objs := 0; wrapper_heap := 0; prealloc_only := false;
                    lk := list_init (list_init l free_l) full_l; ft := f; nx := n; parent := par |}).

Fixpoint preallocate (n : nat) (o : objcache) : option objcache :=
  match n with
  | O => Some o
  | S n => '(f, o) ← objcache_addpage o; _ ← kassert (negb (f =? INVALID_PHYSICAL)); preallocate n o
  end.

Definition with_flags (o : objcache) (wrapper : Z) (only : bool) : objcache :=
  Objcache (self o) (free_list o) (full_list o) (object_size o) (page_size o) (objs_per_page o)
    (total_objs o) (alloced_objs o) wrapper only (lk o) (ft o) (nx o) (parent o).

Definition allocate_wrapped_objcache (a free_l full_l : Z) (l : links) (f : Z -> footer) (n : Z -> Z) (par : P)
    (parent_pagesize objsize pagesize wrapper : Z) : option (option objcache) :=
  r ← allocate_objcache a free_l full_l l f n par parent_pagesize objsize pagesize;
  match r with None => Some None | Some o => Some (Some (with_flags o wrapper (prealloc_only o))) end.

Definition allocate_objcache_preallocated (a free_l full_l : Z) (l : links) (f : Z -> footer) (n : Z -> Z) (par : P)
    (parent_pagesize objsize pagesize prealloc_count : Z) (only : bool) : option (option objcache) :=
  r ← allocate_objcache a free_l full_l l f n par parent_pagesize objsize pagesize;
  match r with
  | None => Some None
  | Some o =>
      let npages := prealloc_count / objs_per_page o + (if prealloc_count mod objs_per_page o =? 0 then 0 else 1) in
      o ← preallocate (Z.to_nat npages) o;
      Some (Some (with_flags o (wrapper_heap o) only))
  end.
End Objcache.

Arguments objcache : clear implicits.
