(* ===== verification/ObjcacheSafe.v ===== *)
(** The object cache of Objcache.v: its invariant, and what follows from it. *)

From stdpp Require Import functions.
From S2P Require Import Prelude Words Dlist Objcache.

(** ** Lists of numbers *)

(** Taking one number out of those that are left out. *)
Lemma filter_release (i : Z) c l : NoDup l -> i ∈ l -> i ∉ c ->
  filter (fun x => x ∉ c) l ≡ₚ i :: filter (fun x => x ∉ i :: c) l.
Proof.
  intros Hd Hi Hc. apply NoDup_Permutation; [by apply NoDup_filter|apply NoDup_cons; split; [|by apply NoDup_filter]|].
  - rewrite list_elem_of_filter. intros [Hn _]. apply Hn. left.
  - intros x. rewrite elem_of_cons, !list_elem_of_filter, elem_of_cons. destruct (decide (x = i)) as [->|]; naive_solver.
Qed.

Lemma filter_left_length c n : NoDup c -> Forall (fun x => 0 <= x < n) c ->
  Z.of_nat (length (filter (fun x => x ∉ c) (seqZ 0 n))) = Z.max 0 n - Z.of_nat (length c).
Proof.
  intros Hd. induction Hd as [|i c Hi Hd IH]; intros Hf.
  - rewrite filter_all by (apply Forall_true; set_solver). rewrite length_seqZ. cbn [length]. lia.
  - apply Forall_cons in Hf as [Hin Hf]. specialize (IH Hf).
    rewrite (filter_release i c) in IH by (done || apply NoDup_seqZ || (apply elem_of_seqZ; lia)). cbn [length] in *. lia.
Qed.

Lemma concat_fmap_perm {A} (f g : Z -> list A) l : (forall x, x ∈ l -> f x ≡ₚ g x) -> l ≫= f ≡ₚ l ≫= g.
Proof.
  induction l as [|x l IH]; intros Hl; [done|]. cbn [mbind list_bind].
  apply Permutation_app; [apply Hl; left|apply IH; intros y Hy; apply Hl; by right].
Qed.

(** ** Addresses *)

Section Safe.
Context {P : Type} {H : PageHeap P} (size : Z) (managed : Z -> Prop) {HL : PageHeapLaws H size managed}.
Implicit Types o : objcache P.

(** What a cache is set up with, and no operation changes. *)
Definition static o : Z * Z * Z * Z * Z * Z * Z * bool :=
  (self o, free_list o, full_list o, object_size o, page_size o, objs_per_page o, wrapper_heap o, prealloc_only o).

Record config_ok o : Prop := {
  co_page : page_size o = size;
  co_pow : exists k, 0 <= k < 64 /\ size = 2 ^ k;
  co_size : 2 <= object_size o;
  co_objs : 0 < objs_per_page o < 65536;
  co_fit : objs_per_page o * object_size o <= size - sizeof_footer;
  co_free : ~ managed (free_list o) /\ free_list o <> 0;
  co_full : ~ managed (full_list o) /\ full_list o <> 0;
  co_heads : free_list o <> full_list o;
}.

(** An aligned block of the parent. *)
Definition is_page (p : Z) : Prop := (size | p) /\ 0 <= p /\ p + size < 2 ^ 64 /\ forall x, p <= x < p + size -> managed x.

Definition footer_at (p : Z) : Z := p + size - sizeof_footer.
Definition node (p : Z) : Z := p + size - 16.

Section Config.
Context o (Hc : config_ok o).

Lemma size_bounds : 34 <= size < 2 ^ 64.
Proof.
  destruct Hc as [_ (k & Hk & Hs) Hz Ho Hf _ _ _]. unfold sizeof_footer in Hf. split; [nia|]. rewrite Hs. apply Z.pow_lt_mono_r; lia.
Qed.

Lemma page_of p x : is_page p -> p <= x < p + size -> page_from_obj o x = p.
Proof.
  intros (Hd & Hp & Hb & _) Hx. unfold page_from_obj. rewrite (co_page _ Hc), Z.land_comm. destruct (co_pow _ Hc) as (k & Hk & Hs).
  rewrite Hs. rewrite land_clear_low by lia. rewrite <- Hs. destruct Hd as [q ->]. pose proof size_bounds.
  assert (x / size = q) as -> by (symmetry; apply (Z.div_unique _ _ _ (x - q * size)); lia). lia.
Qed.

Lemma footer_from_page_at p : is_page p -> footer_from_page o p = footer_at p.
Proof.
  intros (Hd & Hp & Hb & _). pose proof size_bounds. unfold footer_from_page, footer_at, sizeof_footer. rewrite (co_page _ Hc).
  apply u64_small. lia.
Qed.

Lemma page_of_footer p : is_page p -> page_from_footer o (footer_at p) = p.
Proof. intros Hp. pose proof size_bounds. unfold page_from_footer. apply page_of; [done|]. unfold footer_at, sizeof_footer. lia. Qed.

Lemma obj_bounds i : 0 <= i < objs_per_page o -> 0 <= i * object_size o /\ i * object_size o + object_size o <= size - sizeof_footer.
Proof. intros Hi. pose proof (co_fit _ Hc). pose proof (co_size _ Hc). nia. Qed.

Lemma obj_at p i : is_page p -> 0 <= i < objs_per_page o -> obj_from_index o p i = p + i * object_size o.
Proof.
  intros (Hd & Hp & Hb & _) Hi. pose proof size_bounds. destruct (obj_bounds i Hi). pose proof (co_size _ Hc).
  unfold obj_from_index, sizeof_footer in *. rewrite (u64_small (i * _)) by lia. apply u64_small. lia.
Qed.

Lemma page_of_obj p i : is_page p -> 0 <= i < objs_per_page o -> page_from_obj o (p + i * object_size o) = p.
Proof.
  intros Hp Hi. destruct (obj_bounds i Hi). pose proof (co_size _ Hc). apply page_of; [done|]. unfold sizeof_footer in *. lia.
Qed.

Lemma index_of_obj p i : is_page p -> 0 <= i < objs_per_page o -> index_from_obj o p (p + i * object_size o) = Some i.
Proof.
  intros (Hd & Hp & Hb & _) Hi. pose proof size_bounds. destruct (obj_bounds i Hi). pose proof (co_size _ Hc). pose proof (co_objs _ Hc).
  unfold index_from_obj, sizeof_footer in *. rewrite (co_page _ Hc), (u64_small (p + size)) by lia.
  rewrite (proj2 (Z.leb_le _ _)), (proj2 (Z.ltb_lt _ _)) by lia. cbn [kassert mbind option_bind].
  rewrite (u64_small (_ - p)) by lia. replace (p + i * object_size o - p) with (i * object_size o) by lia.
  rewrite Z.mod_mul, Z.div_mul by lia. cbn [Z.eqb kassert mbind option_bind]. unfold u16. by rewrite Z.mod_small by lia.
Qed.

Lemma page_eq p q : is_page p -> is_page q -> p - size < q < p + size -> p = q.
Proof. intros ([a ->] & _) ([b ->] & _) Hq. pose proof size_bounds. assert (a = b); nia. Qed.
(** Pages fit in the address space, so their objects can be counted. *)
Lemma count_pages l : NoDup l -> Forall is_page l -> Z.of_nat (length l) * size < 2 ^ 64.
Proof.
  intros Hd Hp. pose proof size_bounds as Hs. rewrite Forall_forall in Hp.
  assert (Hd' : NoDup ((fun p => p / size) <$> l)).
  { apply NoDup_fmap_2_strong; [|done]. intros p q Hip Hiq E. destruct (Hp p Hip) as ([a ->] & _), (Hp q Hiq) as ([b ->] & _).
    rewrite !Z.div_mul in E by lia. by rewrite E. }
  pose proof (NoDup_bounded _ ((2 ^ 64 - 1) / size) Hd') as Hb. rewrite length_fmap in Hb.
  assert (Z.of_nat (length l) <= Z.max 0 ((2 ^ 64 - 1) / size)).
  { apply Hb. apply Forall_fmap, Forall_forall. intros p Hip. destruct (Hp p Hip) as ([a ->] & ? & ? & _). cbn [compose].
    rewrite Z.div_mul by lia. split; [nia|]. apply Z.lt_le_trans with (a + 1); [lia|]. apply Z.div_le_lower_bound; [lia|]. nia. }
  assert (0 <= (2 ^ 64 - 1) / size) by (apply Z.div_pos; lia). pose proof (Z.mul_div_le (2 ^ 64 - 1) size). nia.
Qed.
End Config.

(** ** The invariant *)

(** The indices [c] of the free objects of a page, from [i] on. *)
Fixpoint chain (n : Z -> Z) (osz p i : Z) (c : list Z) : Prop :=
  match c with
  | [] => i = invalid_index
  | j :: c => i = j /\ chain n osz p (n (p + j * osz)) c
  end.

Notation foot o p := (ft o (footer_at p)).

Record page_ok o (p : Z) (c : list Z) : Prop := {
  po_page : is_page p;
  po_use : forall x, p <= x < p + size -> in_use (parent o) x;
  po_magic : magic (foot o p) = FOOTER_MAGIC;
  po_cache : cache (foot o p) = if wrapper_heap o =? 0 then self o else wrapper_heap o;
  po_head : 0 <= head (foot o p) <= objs_per_page o;
  po_chain : chain (nx o) (object_size o) p (free (foot o p)) c;
  po_nodup : NoDup c;
  po_below : Forall (fun i => 0 <= i < head (foot o p)) c;
  po_avail : avail (foot o p) = Z.of_nat (length c) + objs_per_page o - head (foot o p);
}.

(** The allocated objects of a page. *)
Definition page_objs o (p : Z) (c : list Z) : list Z :=
  (fun i => p + i * object_size o) <$> filter (fun i => i ∉ c) (seqZ 0 (head (foot o p))).

(** The pages [fs] with free objects and the full ones [gs], the free objects [ch] of each,
    and all the allocated objects [A]. *)
Record layout o (A fs gs : list Z) (ch : Z -> list Z) : Prop := {
  ly_config : config_ok o;
  ly_heap : heap_ok (parent o);
  ly_lists : lists (lk o) [(free_list o, node <$> fs); (full_list o, node <$> gs)];
  ly_free : Forall (fun p => page_ok o p (ch p) /\ 0 < avail (foot o p)) fs;
  ly_full : Forall (fun p => page_ok o p (ch p) /\ avail (foot o p) = 0) gs;
  ly_objs : A ≡ₚ (fs ++ gs) ≫= (fun p => page_objs o p (ch p));
  ly_total : total_objs o = objs_per_page o * Z.of_nat (length (fs ++ gs));
  ly_alloced : alloced_objs o = Z.of_nat (length A);
}.

Definition inv o (A : list Z) : Prop := exists fs gs ch, layout o A fs gs ch.

Lemma chain_ext n n' osz p c : forall i, chain n osz p i c -> (forall j, j ∈ c -> n' (p + j * osz) = n (p + j * osz)) -> chain n' osz p i c.
Proof.
  induction c as [|j c IH]; intros i Hc Hn; [done|]. destruct Hc as [-> Hc]. split; [done|]. rewrite Hn by left.
  apply IH; [done|]. intros k Hk. apply Hn. by right.
Qed.

Lemma chain_valid o p c i : config_ok o -> page_ok o p c -> chain (nx o) (object_size o) p i c ->
  is_valid_index i = (if c is [] then false else true).
Proof.
  intros Hc Hp Hi. destruct c as [|j c]; cbn [chain] in Hi; [by rewrite Hi|]. destruct Hi as [-> _].
  pose proof (po_below _ _ _ Hp) as Hb. apply Forall_cons in Hb as [Hb _]. pose proof (po_head _ _ _ Hp). pose proof (co_objs _ Hc).
  unfold is_valid_index, u16, invalid_index. rewrite Z.mod_small by lia. change (u16 (-1)) with 65535.
  rewrite (proj2 (Z.eqb_neq j 65535)) by lia. done.
Qed.

(** A page is not affected by what happens elsewhere. *)
Lemma page_ok_ext o o' p c : page_ok o p c -> static o' = static o -> foot o' p = foot o p ->
  (forall i, i ∈ c -> nx o' (p + i * object_size o) = nx o (p + i * object_size o)) ->
  (forall x, p <= x < p + size -> in_use (parent o) x -> in_use (parent o') x) -> page_ok o' p c.
Proof.
  intros Hp Hs Hf Hn Hu. injection Hs as E1 E2 E3 E4 E5 E6 E7 E8. destruct Hp. split; rewrite ?Hf, ?E1, ?E4, ?E6, ?E7; auto.
  by apply (chain_ext (nx o)).
Qed.

Lemma page_objs_ext o o' p c : static o' = static o -> foot o' p = foot o p -> page_objs o' p c = page_objs o p c.
Proof. intros Hs Hf. injection Hs as E1 E2 E3 E4 E5 E6 E7 E8. unfold page_objs. by rewrite Hf, E4. Qed.

Lemma config_ext o o' : config_ok o -> static o' = static o -> config_ok o'.
Proof. intros Hc Hs. injection Hs as E1 E2 E3 E4 E5 E6 E7 E8. destruct Hc. split; rewrite ?E2, ?E3, ?E4, ?E5, ?E6; auto. Qed.

Section Layout.
Context o A fs gs ch (Hl : layout o A fs gs ch).

Lemma pages_ok : Forall (fun p => page_ok o p (ch p)) (fs ++ gs).
Proof. apply Forall_app. split; (eapply Forall_impl; [apply Hl|]); cbn; tauto. Qed.

Lemma page_in p : p ∈ fs ++ gs -> page_ok o p (ch p).
Proof. intros Hp. pose proof pages_ok as Ho. rewrite Forall_forall in Ho. by apply Ho. Qed.

Lemma pages_nodup : NoDup (fs ++ gs).
Proof.
  pose proof (ly_lists _ _ _ _ _ Hl) as [Hd _]. apply NoDup_cons in Hd as [_ Hd]. rewrite !nodes_cons in Hd. change (nodes []) with (@nil Z) in Hd.
  rewrite app_nil_r in Hd. apply NoDup_cons in Hd as [_ Hd]. rewrite <- Permutation_middle in Hd. apply NoDup_cons in Hd as [_ Hd].
  rewrite <- fmap_app in Hd. by apply NoDup_fmap_1 in Hd.
Qed.

Lemma pages_count : Z.of_nat (length (fs ++ gs)) * size < 2 ^ 64.
Proof.
  apply (count_pages o (ly_config _ _ _ _ _ Hl)); [apply pages_nodup|]. eapply Forall_impl; [apply pages_ok|]. intros p Hp. apply Hp.
Qed.

Lemma total_bound : 0 <= total_objs o < 2 ^ 64 /\ (forall n, n <= Z.of_nat (length (fs ++ gs)) -> 0 <= n -> n * objs_per_page o < 2 ^ 64).
Proof.
  pose proof pages_count. pose proof (co_fit _ (ly_config _ _ _ _ _ Hl)). pose proof (co_objs _ (ly_config _ _ _ _ _ Hl)).
  pose proof (co_size _ (ly_config _ _ _ _ _ Hl)). unfold sizeof_footer in *. rewrite (ly_total _ _ _ _ _ Hl). split; [nia|]. intros n Hn Hn0. nia.
Qed.

(** Each page has its capacity less what is available of it. *)
Lemma page_objs_length p : p ∈ fs ++ gs -> Z.of_nat (length (page_objs o p (ch p))) = objs_per_page o - avail (foot o p).
Proof.
  intros Hp. pose proof (page_in p Hp) as Hok. unfold page_objs. rewrite length_fmap, filter_left_length by apply Hok.
  rewrite (po_avail _ _ _ Hok). pose proof (po_head _ _ _ Hok). lia.
Qed.

Lemma footer_ne p q : p ∈ fs ++ gs -> q ∈ fs ++ gs -> p <> q -> footer_at p <> footer_at q.
Proof. unfold footer_at. lia. Qed.
End Layout.

(** ** Allocation *)

(** A page whose footer is [t] and whose free objects are [c]. *)
Definition with_footer o (p : Z) (t : footer) : objcache P := set_ft o (footer_at p) t.

Lemma foot_same o p t : foot (with_footer o p t) p = t.
Proof. unfold with_footer, set_ft. cbn [ft set_mem]. apply fn_lookup_insert. Qed.

Lemma foot_other o p q t : p <> q -> foot (with_footer o p t) q = foot o q.
Proof. intros Hne. unfold with_footer, set_ft. cbn [ft set_mem]. apply fn_lookup_insert_ne. unfold footer_at. lia. Qed.

Lemma validate_page_ok o p c : page_ok o p c -> validate_page o (footer_at p) = true.
Proof.
  intros Hp. unfold validate_page. rewrite (po_magic _ _ _ Hp), (po_cache _ _ _ Hp).
  destruct (Z.eqb_spec (wrapper_heap o) 0); rewrite !Z.eqb_refl; cbn [negb andb]; [done|]. by rewrite andb_false_r.
Qed.

Lemma take_object_ok o p c : config_ok o -> page_ok o p c -> 0 < avail (foot o p) ->
  exists i t c', take_object o p (footer_at p) = Some (p + i * object_size o, t) /\ 0 <= i < objs_per_page o /\
    avail t = avail (foot o p) /\
    page_ok (with_footer o p {| magic := magic t; free := free t; head := head t; avail := avail t - 1; cache := cache t |}) p c' /\
    page_objs (with_footer o p {| magic := magic t; free := free t; head := head t; avail := avail t - 1; cache := cache t |}) p c' ≡ₚ
      (p + i * object_size o) :: page_objs o p c.
Proof.
  intros Hc Hp Ha. unfold take_object. rewrite (chain_valid o p c _ Hc Hp (po_chain _ _ _ Hp)).
  pose proof (po_page _ _ _ Hp) as Hpage. pose proof (po_head _ _ _ Hp) as Hh. pose proof (po_avail _ _ _ Hp) as Hav. pose proof (co_objs _ Hc) as Hob.
  pose proof (po_below _ _ _ Hp) as Hb. pose proof (po_nodup _ _ _ Hp) as Hd. pose proof (po_chain _ _ _ Hp) as Hch.
  destruct c as [|i c]; cbn [chain length] in *.
  - unfold is_valid_index, u16. rewrite (Z.mod_small (head _)) by lia. change invalid_index with 65535.
    rewrite (proj2 (Z.eqb_neq (head _) 65535)), (proj2 (Z.ltb_lt _ _)) by lia. cbn [negb kassert mbind option_bind].
    rewrite obj_at by (done || lia). do 2 eexists. exists []. split; [reflexivity|]. split; [lia|]. cbn [avail]. split; [done|].
    rewrite (Z.mod_small (head _ + 1)) by lia. split.
    + split; rewrite ?foot_same; cbn [magic cache head free avail length]; try apply Hp; try done;
        change (objs_per_page (with_footer _ _ _)) with (objs_per_page o); lia.
    + unfold page_objs. rewrite foot_same. cbn [head]. rewrite !filter_all by (apply Forall_true; set_solver).
      rewrite seqZ_app, fmap_app, Permutation_app_comm by lia. cbn [seqZ fmap list_fmap app]. done.
  - destruct Hch as [-> Hch]. apply Forall_cons in Hb as [Hi Hb]. apply NoDup_cons in Hd as [Hni Hd].
    rewrite obj_at by (done || lia). do 2 eexists. exists c. split; [reflexivity|]. split; [lia|]. cbn [avail]. split; [done|]. split.
    + split; rewrite ?foot_same; cbn [magic cache head free avail length]; try apply Hp; try done;
        change (objs_per_page (with_footer _ _ _)) with (objs_per_page o); lia.
    + unfold page_objs. rewrite foot_same. cbn [head]. rewrite (filter_release i c); [done|apply NoDup_seqZ|apply elem_of_seqZ; lia|done].
Qed.

(** The other pages, when one page and its chain change. *)
Lemma frame_pages o o' p c' ch (R : Z -> Prop) l : static o' = static o -> (forall q, q <> p -> foot o' q = foot o q) ->
  (forall q i, q ∈ l -> i ∈ ch q -> nx o' (q + i * object_size o) = nx o (q + i * object_size o)) ->
  (forall q x, q ∈ l -> q <= x < q + size -> in_use (parent o) x -> in_use (parent o') x) -> p ∉ l ->
  Forall (fun q => page_ok o q (ch q) /\ R (avail (foot o q))) l ->
  Forall (fun q => page_ok o' q (<[p := c']> ch q) /\ R (avail (foot o' q))) l /\
  l ≫= (fun q => page_objs o' q (<[p := c']> ch q)) ≡ₚ l ≫= (fun q => page_objs o q (ch q)).
Proof.
  intros Hs Hf Hn Hu Hp Hl. split.
  - rewrite Forall_forall in *. intros q Hq. specialize (Hl q Hq) as [Hok HR]. assert (q <> p) by (intros ->; done).
    rewrite fn_lookup_insert_ne by done. rewrite Hf by done. split; [|done].
    apply (page_ok_ext o); [done|done|auto|intros i Hi; by apply Hn|intros x Hx; by apply (Hu q)].
  - apply concat_fmap_perm. intros q Hq. assert (q <> p) by (intros ->; done). rewrite fn_lookup_insert_ne by done.
    by rewrite (page_objs_ext o) by auto.
Qed.

Lemma list_of_footer p : list_of (footer_at p) = node p.
Proof. unfold list_of, footer_at, node, sizeof_footer. lia. Qed.

Lemma lists_fresh o A fs gs ch p : layout o A fs gs ch -> is_page p -> p ∉ fs ++ gs ->
  node p ∉ 0 :: nodes [(free_list o, node <$> fs); (full_list o, node <$> gs)].
Proof.
  intros Hl Hp Hn. pose proof (ly_config _ _ _ _ _ Hl) as Hc. pose proof (size_bounds o Hc). destruct Hp as (_ & Hp0 & _ & Hm).
  assert (Hmn : managed (node p)) by (apply Hm; unfold node; lia).
  rewrite !nodes_cons. change (nodes []) with (@nil Z). rewrite app_nil_r.
  assert (Hi : forall l : list Z, node p ∈ node <$> l -> p ∈ l).
  { intros l (q & E & Hq)%list_elem_of_fmap. assert (p = q) as -> by (unfold node in E; lia). done. }
  intros Hin. apply elem_of_cons in Hin as [Hin|Hin]; [unfold node in Hin; lia|].
  apply elem_of_cons in Hin as [Hin|Hin]; [rewrite Hin in Hmn; by destruct (co_free _ Hc)|].
  apply elem_of_app in Hin as [Hin|Hin]; [apply Hi in Hin; set_solver|].
  apply elem_of_cons in Hin as [Hin|Hin]; [rewrite Hin in Hmn; by destruct (co_full _ Hc)|]. apply Hi in Hin. set_solver.
Qed.

(** Moving a page from the free to the full list. *)
Lemma move_to_full m fl gl p fs gs : lists m [(fl, node <$> p :: fs); (gl, node <$> gs)] ->
  exists m', list_delete m (node p) = Some m' /\ lists (list_insert_before m' gl (node p)) [(fl, node <$> fs); (gl, node <$> gs ++ [p])].
Proof.
  intros Hl. destruct (delete_ok m fl _ [] (node p) _ Hl) as (m' & Hd & Hl' & _). exists m'. split; [done|].
  rewrite perm_swap in Hl'. rewrite perm_swap. rewrite fmap_app. cbn [app fmap list_fmap] in *.
  apply (insert_before_ok m' gl _ (list_fmap _ _ node gs) []); rewrite app_nil_r; [done|].
  destruct Hl as [Hnd _]. rewrite !nodes_cons in *. change (nodes []) with (@nil Z) in *. rewrite !app_nil_r in *.
  apply NoDup_cons in Hnd as [H0 Hnd]. apply NoDup_cons in Hnd as [H1 Hnd]. cbn [app] in *. apply NoDup_cons in Hnd as [H2 Hnd].
  clear - H0 H1 H2. set_solver.
Qed.

(** Moving a page from the full to the free list. *)
Lemma move_to_free m fl gl p fs gs1 gs2 : lists m [(fl, node <$> fs); (gl, node <$> gs1 ++ p :: gs2)] ->
  exists m', list_delete m (node p) = Some m' /\ lists (list_insert_after m' fl (node p)) [(fl, node <$> p :: fs); (gl, node <$> gs1 ++ gs2)].
Proof.
  intros Hl. pose proof Hl as [Hnd _]. rewrite perm_swap, fmap_app in Hl. cbn [fmap list_fmap] in Hl.
  destruct (delete_ok m gl _ _ (node p) _ Hl) as (m' & Hd & Hl' & _). exists m'. split; [done|].
  rewrite perm_swap in Hl'. rewrite fmap_app. cbn [app fmap list_fmap] in *.
  apply (insert_after_ok m' fl _ [] (list_fmap _ _ node fs)); [done|].
  rewrite !nodes_cons in *. change (nodes []) with (@nil Z) in *. rewrite !app_nil_r in *. rewrite fmap_app in Hnd. cbn [app fmap list_fmap] in *.
  assert (Hp : 0 :: fl :: (node <$> fs) ++ gl :: (node <$> gs1) ++ node p :: (node <$> gs2) ≡ₚ
    node p :: 0 :: fl :: (node <$> fs) ++ gl :: (node <$> gs1) ++ (node <$> gs2)) by solve_Permutation.
  rewrite Hp in Hnd. by apply NoDup_cons in Hnd as [Hnd _].
Qed.

(** The place of an object: in a page of the parent's, below the footer. *)
Definition slot o (x : Z) : Prop := exists p i, is_page p /\ 0 <= i < objs_per_page o /\ x = p + i * object_size o.

Lemma objs_slot o A x : inv o A -> x ∈ A -> slot o x /\ forall y, x <= y < x + object_size o -> in_use (parent o) y.
Proof.
  intros (fs & gs & ch & Hl) Hx. rewrite (ly_objs _ _ _ _ _ Hl) in Hx. apply list_elem_of_bind in Hx as (p & Hx & Hp).
  apply list_elem_of_fmap in Hx as (i & -> & Hi). apply list_elem_of_filter in Hi as [_ Hi]. apply elem_of_seqZ in Hi.
  pose proof (page_in _ _ _ _ _ Hl p Hp) as Hok. pose proof (po_head _ _ _ Hok). pose proof (ly_config _ _ _ _ _ Hl) as Hc.
  destruct (obj_bounds o Hc i ltac:(lia)) as [? ?]. unfold sizeof_footer in *. split.
  - exists p, i. split; [apply Hok|]. split; [lia|done].
  - intros y Hy. apply (po_use _ _ _ Hok). lia.
Qed.

(** Objects do not overlap. *)
Lemma slots_disjoint o x y : config_ok o -> slot o x -> slot o y -> x <> y -> x + object_size o <= y \/ y + object_size o <= x.
Proof.
  intros Hc (p & i & Hp & Hi & ->) (q & j & Hq & Hj & ->) Hne.
  destruct (obj_bounds o Hc i Hi), (obj_bounds o Hc j Hj). pose proof (co_size _ Hc). unfold sizeof_footer in *.
  destruct (decide (p = q)) as [->|Hpq]; [assert (i <> j) by (intros ->; done); nia|].
  assert (~ p - size < q < p + size) by (intros Hr; apply Hpq; by apply (page_eq o Hc)). lia.
Qed.

Lemma live_nodup o A : inv o A -> NoDup A.
Proof.
  intros (fs & gs & ch & Hl). rewrite (ly_objs _ _ _ _ _ Hl). pose proof (ly_config _ _ _ _ _ Hl) as Hc. pose proof (co_size _ Hc).
  pose proof (pages_nodup _ _ _ _ _ Hl) as Hd. pose proof (pages_ok _ _ _ _ _ Hl) as Hok. induction Hd as [|p l Hp Hd IH]; [constructor|].
  apply Forall_cons in Hok as [Hpo Hok]. cbn [mbind list_bind]. apply NoDup_app. split; [|split; [|by apply IH]].
  - apply NoDup_fmap_2_strong; [intros i j _ _ E; nia|apply NoDup_filter, NoDup_seqZ].
  - intros x Hx Hy. apply list_elem_of_bind in Hy as (q & Hy & Hq). rewrite Forall_forall in Hok. specialize (Hok q Hq).
    apply list_elem_of_fmap in Hx as (i & -> & Hi), Hy as (j & E & Hj). apply list_elem_of_filter in Hi as [_ Hi], Hj as [_ Hj].
    apply elem_of_seqZ in Hi, Hj. pose proof (po_head _ _ _ Hpo). pose proof (po_head _ _ _ Hok).
    destruct (obj_bounds o Hc i ltac:(lia)), (obj_bounds o Hc j ltac:(lia)). unfold sizeof_footer in *.
    assert (p = q) as -> by (apply (page_eq o Hc); [apply Hpo|apply Hok|lia]). done.
Qed.

Lemma alloced_le o A fs gs ch : layout o A fs gs ch -> 0 <= alloced_objs o <= total_objs o /\
  (forall p, p ∈ fs ++ gs -> 0 < avail (foot o p) -> alloced_objs o < total_objs o).
Proof.
  intros Hl. rewrite (ly_alloced _ _ _ _ _ Hl), (ly_total _ _ _ _ _ Hl), (Permutation_length (ly_objs _ _ _ _ _ Hl)).
  assert (Hlen : forall p, p ∈ fs ++ gs -> Z.of_nat (length (page_objs o p (ch p))) = objs_per_page o - avail (foot o p) /\ 0 <= avail (foot o p)).
  { intros p Hp. split; [by apply (page_objs_length _ _ _ _ _ Hl)|]. pose proof (page_in _ _ _ _ _ Hl p Hp) as Hok.
    rewrite (po_avail _ _ _ Hok). pose proof (po_head _ _ _ Hok). lia. }
  induction (fs ++ gs) as [|p l IH]; [cbn [length mbind list_bind]; split; [lia|set_solver]|].
  destruct IH as [IH1 IH2]; [intros q Hq; apply Hlen; by right|]. cbn [mbind list_bind length]. rewrite length_app, Nat2Z.inj_add, Nat2Z.inj_succ, Z.mul_succ_r.
  destruct (Hlen p ltac:(left)) as [E1 E2]. split; [lia|]. intros q [->|Hq]%elem_of_cons Ha; [lia|]. specialize (IH2 q Hq Ha). lia.
Qed.

(** A step that changes one page, and moves it between the lists when it has to. *)
Lemma layout_change o o' A A' p c fs gs fs' gs' ch : layout o A fs gs ch -> p ∈ fs ++ gs ->
  static o' = static o -> parent o' = parent o -> (forall q, q <> p -> foot o' q = foot o q) ->
  (forall q i, q ∈ fs ++ gs -> q <> p -> i ∈ ch q -> nx o' (q + i * object_size o) = nx o (q + i * object_size o)) ->
  page_ok o' p c -> lists (lk o') [(free_list o, node <$> fs'); (full_list o, node <$> gs')] -> fs' ++ gs' ≡ₚ fs ++ gs ->
  (forall q, q ∈ fs' -> if decide (q = p) then 0 < avail (foot o' p) else q ∈ fs) ->
  (forall q, q ∈ gs' -> if decide (q = p) then avail (foot o' p) = 0 else q ∈ gs) ->
  page_objs o' p c ++ A ≡ₚ page_objs o p (ch p) ++ A' ->
  total_objs o' = total_objs o -> alloced_objs o' = Z.of_nat (length A') -> layout o' A' fs' gs' (<[p := c]> ch).
Proof.
  intros Hl Hp Hst Hpar Hfo Hnx Hok Hli Hperm Hfs Hgs Hobj Htot Hal. pose proof Hst as Hst'. injection Hst' as _ E2 E3 _ _ E6 _ _.
  assert (Hpg : forall q, q ∈ fs ++ gs -> q <> p -> page_ok o' q (<[p := c]> ch q) /\ foot o' q = foot o q).
  { intros q Hq Hne. rewrite fn_lookup_insert_ne by done. split; [|by apply Hfo]. apply (page_ok_ext o); [by apply (page_in _ _ _ _ _ Hl)|done|by apply Hfo|by auto|].
    by rewrite Hpar. }
  assert (Hokp : page_ok o' p (<[p := c]> ch p)) by by rewrite fn_lookup_insert.
  split; rewrite ?Hpar, ?E2, ?E3; try apply Hl; try done.
  - by apply (config_ext o); [apply Hl|].
  - apply Forall_forall. intros q Hq. specialize (Hfs q Hq). case_decide as Hqp; [subst q; done|].
    destruct (Hpg q ltac:(apply elem_of_app; by left) Hqp) as [Hk ->]. split; [done|]. pose proof (ly_free _ _ _ _ _ Hl) as Hf. rewrite Forall_forall in Hf. by apply Hf.
  - apply Forall_forall. intros q Hq. specialize (Hgs q Hq). case_decide as Hqp; [subst q; done|].
    destruct (Hpg q ltac:(apply elem_of_app; by right) Hqp) as [Hk ->]. split; [done|]. pose proof (ly_full _ _ _ _ _ Hl) as Hf. rewrite Forall_forall in Hf. by apply Hf.
  - rewrite Hperm. apply elem_of_Permutation in Hp as [l Hpl]. pose proof (pages_nodup _ _ _ _ _ Hl) as Hd. rewrite Hpl in Hd |- *. apply NoDup_cons in Hd as [Hn _].
    rewrite (ly_objs _ _ _ _ _ Hl), Hpl in Hobj. cbn [mbind list_bind] in *. rewrite fn_lookup_insert.
    change (list_bind _ _ ?f l) with (l ≫= f) in *. rewrite (concat_fmap_perm (fun q => page_objs o' q (<[p := c]> ch q)) (fun q => page_objs o q (ch q)) l).
    + apply (Permutation_app_inv_l (page_objs o p (ch p))). rewrite <- Hobj. rewrite !app_assoc. apply Permutation_app_tail, Permutation_app_comm.
    + intros q Hq. assert (q <> p) by (intros ->; done). rewrite fn_lookup_insert_ne by done. by rewrite (page_objs_ext o) by auto.
  - rewrite Htot, E6, (ly_total _ _ _ _ _ Hl). by rewrite Hperm.
Qed.

Lemma allocate_from_ok o A p fs gs ch : layout o A (p :: fs) gs ch ->
  exists x o', allocate_from o (footer_at p) = Some (x, o') /\ inv o' (x :: A) /\ static o' = static o /\ parent o' = parent o.
Proof.
  intros Hl. pose proof (ly_config _ _ _ _ _ Hl) as Hc. pose proof (ly_free _ _ _ _ _ Hl) as Hf. pose proof (pages_nodup _ _ _ _ _ Hl) as Hd.
  pose proof (alloced_le _ _ _ _ _ Hl) as [Hal Hlt]. pose proof (total_bound _ _ _ _ _ Hl) as [Htb _].
  apply Forall_cons in Hf as [[Hp Ha] Hf]. cbn [app] in Hd. apply NoDup_cons in Hd as [Hn Hd]. unfold allocate_from.
  rewrite (validate_page_ok _ _ _ Hp), (page_of_footer o Hc p (po_page _ _ _ Hp)). cbn [negb].
  destruct (take_object_ok o p (ch p) Hc Hp Ha) as (i & t & c & -> & Hi & Hav & Hok & Hobj). cbn [mbind option_bind].
  rewrite (proj2 (Z.ltb_lt 0 (avail t))) by lia. cbn [kassert mbind option_bind]. fold (with_footer o p (Footer (magic t) (free t) (head t) (avail t - 1) (cache t))).
  set (t' := Footer (magic t) (free t) (head t) (avail t - 1) (cache t)) in *.
  assert (Hfp : foot (with_footer o p t') p = t') by apply foot_same. rewrite Hfp. unfold t' at 1. cbn [avail].
  assert (Hobj' : page_objs (with_footer o p t') p c ++ A ≡ₚ page_objs o p (ch p) ++ (p + i * object_size o) :: A).
  { rewrite Hobj. cbn [app]. apply Permutation_middle. }
  assert (Hfree : forall q, q ∈ fs -> q <> p) by set_solver. assert (Hfull : forall q, q ∈ gs -> q <> p) by set_solver.
  specialize (Hlt p ltac:(left) Ha).
  assert (Hend : exists l fs' gs', (if avail t - 1 =? 0 then l ← list_delete (lk (with_footer o p t')) (list_of (footer_at p));
       Some (set_lk (with_footer o p t') (list_insert_before l (full_list (with_footer o p t')) (list_of (footer_at p))))
     else Some (with_footer o p t')) = Some (set_lk (with_footer o p t') l) /\
    lists l [(free_list o, node <$> fs'); (full_list o, node <$> gs')] /\ fs' ++ gs' ≡ₚ p :: fs ++ gs /\
    (forall q, q ∈ fs' -> if decide (q = p) then 0 < avail t' else q ∈ p :: fs) /\
    (forall q, q ∈ gs' -> if decide (q = p) then avail t' = 0 else q ∈ gs)).
  { rewrite list_of_footer. pose proof (ly_lists _ _ _ _ _ Hl) as Hli. destruct (Z.eqb_spec (avail t - 1) 0) as [E|E].
    - destruct (move_to_full _ _ _ _ _ _ Hli) as (l & Hdel & Hl'). change (lk (with_footer o p t')) with (lk o). rewrite Hdel. cbn [mbind option_bind].
      eexists _, fs, (gs ++ [p]). split; [reflexivity|]. split; [done|]. split; [by rewrite app_assoc, Permutation_app_comm|].
      split; intros q Hq; case_decide; subst; try done; set_solver.
    - exists (lk o), (p :: fs), gs. split; [done|]. split; [done|]. split; [done|]. unfold t'. cbn [avail].
      split; intros q Hq; case_decide; subst; try lia; set_solver. }
  destruct Hend as (l & fs' & gs' & -> & Hli & Hperm & Hq1 & Hq2). cbn [mbind option_bind set_lk set_mem with_footer set_ft alloced_objs total_objs].
  rewrite (proj2 (Z.leb_le _ _)) by lia. cbn [kassert mbind option_bind].
  do 2 eexists. split; [reflexivity|]. split; [|done]. exists fs', gs', (<[p := c]> ch).
  apply (layout_change o _ A _ p c (p :: fs) gs fs' gs' ch); try done.
  - left.
  - intros q Hq. by apply foot_other.
  - by apply (page_ok_ext (with_footer o p t')).
  - intros q Hq. specialize (Hq1 q Hq). case_decide; [by rewrite <- Hfp in Hq1|done].
  - intros q Hq. specialize (Hq2 q Hq). case_decide; [by rewrite <- Hfp in Hq2|done].
  - cbn [set_counts alloced_objs length]. rewrite u64_small by lia. rewrite (ly_alloced _ _ _ _ _ Hl). lia.
Qed.

(** A page that the parent gives is none of those of the cache. *)
Lemma addpage_ok o A fs gs ch : layout o A fs gs ch ->
  exists f o', objcache_addpage o = Some (f, o') /\ static o' = static o /\
    ((f = 0 /\ layout o' A fs gs ch /\ allocate_u64 (parent o) size = (INVALID_PHYSICAL, parent o')) \/
     exists p ch', f = footer_at p /\ f <> 0 /\ layout o' A (p :: fs) gs ch').
Proof.
  intros Hl. pose proof (ly_config _ _ _ _ _ Hl) as Hc. pose proof (size_bounds o Hc) as Hs. unfold objcache_addpage. rewrite (co_page _ Hc).
  destruct (allocate_u64 (parent o) size) as [p par] eqn:Ea. destruct (allocate_u64_ok _ _ _ (ly_heap _ _ _ _ _ Hl) Ea) as [Hh Hu].
  destruct (Z.eqb_spec p INVALID_PHYSICAL) as [->|Hne].
  { do 2 eexists. split; [reflexivity|]. split; [done|]. left. split; [done|]. split; [|done].
    assert (Hx : forall q, page_ok o q (ch q) -> page_ok (set_parent o par) q (ch q)).
    { intros q Hq. apply (page_ok_ext o); try done. intros x _ Hx. by apply Hu. }
    split; [by apply (config_ext o)|done|apply (ly_lists _ _ _ _ _ Hl)| | |apply (ly_objs _ _ _ _ _ Hl)|apply Hl|apply Hl];
      (eapply Forall_impl; [apply Hl|]); cbn; intros q [Hq1 Hq2]; split; auto. }
  destruct Hu as (Hdv & Hp0 & Hpb & Hfresh & Hu). assert (Hp : is_page p) by (split; [done|]; split; [done|]; split; [done|]; intros x Hx; by apply Hfresh).
  assert (Hland : Z.land p (size - 1) = 0).
  { destruct (co_pow _ Hc) as (k & Hk & ->). replace (2 ^ k - 1) with (Z.ones k) by (rewrite Z.ones_equiv; lia).
    rewrite Z.land_ones by lia. apply Z.mod_divide; [lia|done]. }
  change (page_size (set_parent o par)) with (page_size o). rewrite (co_page _ Hc), Hland. cbn [Z.eqb kassert mbind option_bind].
  assert (Hn : p ∉ fs ++ gs).
  { intros Hin. pose proof (po_use _ _ _ (page_in _ _ _ _ _ Hl p Hin) p ltac:(lia)). by apply (Hfresh p ltac:(lia)). }
  rewrite (footer_from_page_at (set_parent o par)) by (done || by apply (config_ext o)).
  do 2 eexists. split; [reflexivity|]. split; [done|]. right. exists p, (<[p := []]> ch). split; [done|].
  split; [unfold footer_at, sizeof_footer; lia|]. set (o' := set_counts _ _ _).
  pose proof (co_objs _ Hc) as Hob. pose proof (co_size _ Hc) as Hsz. pose proof (co_fit _ Hc) as Hft.
  assert (Hfp : foot o' p = Footer FOOTER_MAGIC invalid_index 0 (u16 (objs_per_page o)) (if wrapper_heap o =? 0 then self o else wrapper_heap o))
    by apply (foot_same (set_parent o par)).
  unfold u16 in Hfp. rewrite Z.mod_small in Hfp by lia.
  assert (Hfr : forall q, q <> p -> foot o' q = foot o q) by (intros q Hq; by apply (foot_other (set_parent o par))).
  assert (Hin : forall x, in_use (parent o) x -> in_use (parent o') x) by (intros x Hx; apply Hu; by left).
  apply not_elem_of_app in Hn as [Hn1 Hn2].
  destruct (frame_pages o o' p [] ch (fun a => 0 < a) fs) as [Hf Hof]; [done|done|done|intros q x _ _; apply Hin|done|apply Hl|].
  destruct (frame_pages o o' p [] ch (fun a => a = 0) gs) as [Hg Hog]; [done|done|done|intros q x _ _; apply Hin|done|apply Hl|].
  assert (Hcount : Z.of_nat (length (p :: fs ++ gs)) * size < 2 ^ 64).
  { apply (count_pages o Hc); [constructor; [set_solver|apply (pages_nodup _ _ _ _ _ Hl)]|]. constructor; [done|].
    eapply Forall_impl; [apply (pages_ok _ _ _ _ _ Hl)|]. intros q Hq. apply Hq. }
  split; try apply Hl; try done.
  - by apply (config_ext o).
  - change (lists (list_insert_after (lk o) (free_list o) (list_of (footer_at p))) [(free_list o, node <$> p :: fs); (full_list o, node <$> gs)]).
    rewrite list_of_footer. apply (insert_after_ok (lk o) (free_list o) _ [] (list_fmap _ _ node fs)); [apply (ly_lists _ _ _ _ _ Hl)|].
    apply (lists_fresh o A fs gs ch p Hl Hp). set_solver.
  - constructor; [|done]. rewrite fn_lookup_insert, Hfp. cbn [avail]. split; [|lia].
    split; rewrite ?Hfp; cbn [magic free head avail cache length]; try done; try lia.
    + intros x Hx. apply Hu. by right.
    + change (objs_per_page o') with (objs_per_page o). lia.
    + constructor.
    + change (objs_per_page o') with (objs_per_page o). lia.
  - cbn [app mbind list_bind]. rewrite fn_lookup_insert. unfold page_objs at 1. rewrite Hfp. cbn [head]. cbn [seqZ filter fmap list_fmap app].
    change (list_bind _ _ ?f (fs ++ gs)) with ((fs ++ gs) ≫= f). rewrite bind_app, Hof, Hog, <- bind_app. apply Hl.
  - change (total_objs o') with (u64 (total_objs o + objs_per_page o)). change (objs_per_page o') with (objs_per_page o).
    rewrite (ly_total _ _ _ _ _ Hl). cbn [app length] in *. rewrite Nat2Z.inj_succ in *. unfold sizeof_footer in *. rewrite u64_small by nia. lia.
Qed.

(** The objects available in the pages of a list. *)
Definition sum_avail o (l : list Z) : Z := foldr (fun p n => avail (foot o p) + n) 0 l.

Lemma sum_avail_app o l1 l2 : sum_avail o (l1 ++ l2) = sum_avail o l1 + sum_avail o l2.
Proof. unfold sum_avail. induction l1 as [|p l IH]; [done|]. cbn [app foldr]. lia. Qed.

Lemma count_free o l : forall pages av,
  foldl (fun '(pages, av) p => (u64 (pages + 1), u64 (av + avail (foot o p)))) (u64 pages, u64 av) l =
  (u64 (pages + Z.of_nat (length l)), u64 (av + sum_avail o l)).
Proof.
  induction l as [|p l IH]; intros pages av; cbn [foldl length]; [by rewrite !Z.add_0_r|]. rewrite !u64_add_l, IH. unfold sum_avail. cbn [foldr].
  f_equal; f_equal; lia.
Qed.

Lemma sum_alloced o A fs gs ch : layout o A fs gs ch -> alloced_objs o = total_objs o - sum_avail o fs.
Proof.
  intros Hl. assert (Hg : sum_avail o gs = 0).
  { generalize (ly_full _ _ _ _ _ Hl). unfold sum_avail. clear. induction 1 as [|p l [_ Hp] Hf IH]; [done|]. cbn [foldr]. lia. }
  rewrite (ly_alloced _ _ _ _ _ Hl), (ly_total _ _ _ _ _ Hl), (Permutation_length (ly_objs _ _ _ _ _ Hl)).
  enough (Z.of_nat (length ((fs ++ gs) ≫= (fun p => page_objs o p (ch p)))) = objs_per_page o * Z.of_nat (length (fs ++ gs)) - sum_avail o (fs ++ gs))
    by (rewrite sum_avail_app in *; lia).
  assert (Hlen : forall p, p ∈ fs ++ gs -> Z.of_nat (length (page_objs o p (ch p))) = objs_per_page o - avail (foot o p)) by apply (page_objs_length _ _ _ _ _ Hl).
  clear Hg. induction (fs ++ gs) as [|p l IH]; [cbn; lia|]. unfold sum_avail in *. cbn [mbind list_bind length foldr]. rewrite length_app, Nat2Z.inj_add, Nat2Z.inj_succ, Z.mul_succ_r.
  rewrite (Hlen p) by left. change (list_bind _ _ ?f l) with (l ≫= f). rewrite IH; [lia|]. intros q Hq. apply Hlen. by right.
Qed.

Lemma allocate_ok o A : inv o A ->
  exists x o', objcache_allocate o (object_size o) = Some (x, o') /\ static o' = static o /\
    ((x = INVALID_PHYSICAL /\ inv o' A /\ alloced_objs o = total_objs o /\
        (prealloc_only o = true \/ allocate_u64 (parent o) size = (INVALID_PHYSICAL, parent o'))) \/
     (x <> INVALID_PHYSICAL /\ inv o' (x :: A))).
Proof.
  intros (fs & gs & ch & Hl). pose proof (ly_config _ _ _ _ _ Hl) as Hc. pose proof (size_bounds o Hc) as Hs. unfold objcache_allocate. rewrite Z.eqb_refl. cbn [negb].
  assert (Hfrom : forall o1 p fs1 ch1, static o1 = static o -> layout o1 A (p :: fs1) gs ch1 ->
    exists x o', allocate_from o1 (footer_at p) = Some (x, o') /\ static o' = static o /\
      x <> INVALID_PHYSICAL /\ inv o' (x :: A)).
  { intros o1 p fs1 ch1 Hst H1. destruct (allocate_from_ok _ _ _ _ _ _ H1) as (x & o' & -> & Hi & Hst' & _). exists x, o'. split; [done|]. split; [congruence|].
    split; [|done]. destruct (objs_slot o' (x :: A) x Hi ltac:(left)) as [(q & i & (_ & Hq0 & Hqb & _) & Hi2 & ->) _].
    assert (Hc' : config_ok o') by (apply (config_ext o); [done|congruence]). destruct (obj_bounds o' Hc' i Hi2). pose proof (co_size _ Hc').
    unfold INVALID_PHYSICAL, infinity, sizeof_footer in *. lia. }
  rewrite (get_next_ok _ _ _ _ (ly_lists _ _ _ _ _ Hl)). destruct fs as [|p fs]; cbn [fmap list_fmap hd].
  - pose proof (sum_alloced _ _ _ _ _ Hl) as Hsum. cbn [sum_avail foldr] in Hsum. rewrite Z.sub_0_r in Hsum. cbn [Z.eqb negb]. destruct (prealloc_only o) eqn:Epre.
    + do 2 eexists. split; [reflexivity|]. split; [done|]. left. split; [done|]. split; [by exists [], gs, ch|]. split; [done|by left].
    + destruct (addpage_ok _ _ _ _ _ Hl) as (f & o1 & -> & Hst & [(-> & H1 & Hfail)|(p & ch' & -> & Hne & H1)]); cbn [mbind option_bind].
      * cbn [Z.eqb]. do 2 eexists. split; [reflexivity|]. split; [done|]. left. split; [done|]. split; [by exists [], gs, ch|]. split; [done|by right].
      * rewrite (proj2 (Z.eqb_neq _ 0)) by done. destruct (Hfrom o1 p [] ch' Hst H1) as (x & o' & Hx & Hst' & Hi). exists x, o'. auto.
  - pose proof (page_in _ _ _ _ _ Hl p ltac:(left)) as Hp. destruct (po_page _ _ _ Hp) as (_ & Hp0 & _).
    rewrite (proj2 (Z.eqb_neq (node p) 0)) by (unfold node; lia). cbn [negb].
    replace (footer_from_list (node p)) with (footer_at p) by (unfold footer_from_list, node, footer_at, sizeof_footer; lia).
    destruct (Hfrom o p fs ch eq_refl Hl) as (x & o' & Hx & Hst' & Hi). exists x, o'. auto.
Qed.

(** ** Deallocation *)

(** The page of an allocated object, and the lists with this page among the free ones. *)
Lemma find_page o A fs gs ch x : layout o A fs gs ch -> x ∈ A ->
  exists p i, p ∈ fs ++ gs /\ 0 <= i < head (foot o p) /\ i ∉ ch p /\ x = p + i * object_size o.
Proof.
  intros Hl Hx. rewrite (ly_objs _ _ _ _ _ Hl) in Hx. apply list_elem_of_bind in Hx as (p & Hx & Hp).
  apply list_elem_of_fmap in Hx as (i & -> & Hi). apply list_elem_of_filter in Hi as [Hn Hi]. apply elem_of_seqZ in Hi. exists p, i. split; [done|]. split; [lia|done].
Qed.

Lemma reopen_page o A fs gs ch p : layout o A fs gs ch -> p ∈ fs ++ gs ->
  exists l fs' gs', (if avail (foot o p) =? 0 then
        _ ← kassert (negb (is_valid_index (free (foot o p))));
        l ← list_delete (lk o) (list_of (footer_at p));
        Some (set_lk o (list_insert_after l (free_list o) (list_of (footer_at p))))
      else Some o) = Some (set_lk o l) /\
    lists l [(free_list o, node <$> fs'); (full_list o, node <$> gs')] /\ fs' ++ gs' ≡ₚ fs ++ gs /\
    (forall q, q ∈ fs' -> q = p \/ q ∈ fs) /\ (forall q, q ∈ gs' -> q <> p /\ q ∈ gs).
Proof.
  intros Hl Hp. pose proof (page_in _ _ _ _ _ Hl p Hp) as Hok. pose proof (pages_nodup _ _ _ _ _ Hl) as Hd. rewrite list_of_footer.
  pose proof (ly_free _ _ _ _ _ Hl) as Hf. pose proof (ly_full _ _ _ _ _ Hl) as Hg. rewrite Forall_forall in Hf, Hg.
  destruct (Z.eqb_spec (avail (foot o p)) 0) as [E|E].
  - assert (Hgp : p ∈ gs). { apply elem_of_app in Hp as [Hp|Hp]; [|done]. destruct (Hf p Hp). lia. }
    rewrite (chain_valid o p (ch p) _ (ly_config _ _ _ _ _ Hl) Hok (po_chain _ _ _ Hok)).
    assert (ch p = []) as ->. { pose proof (po_avail _ _ _ Hok). pose proof (po_head _ _ _ Hok). destruct (ch p); [done|cbn [length] in *; lia]. }
    cbn [negb kassert mbind option_bind]. apply list_elem_of_split in Hgp as (gs1 & gs2 & ->).
    destruct (move_to_free _ _ _ _ _ _ _ (ly_lists _ _ _ _ _ Hl)) as (l & -> & Hli). cbn [mbind option_bind].
    eexists _, (p :: fs), (gs1 ++ gs2). split; [reflexivity|]. split; [done|]. split; [cbn [app]; by rewrite <- Permutation_middle, <- Permutation_middle|].
    split; [set_solver|]. intros q Hq. split; [|set_solver]. intros ->. apply NoDup_app in Hd as (_ & _ & Hd). rewrite <- Permutation_middle in Hd.
    by apply NoDup_cons in Hd as [Hd _].
  - exists (lk o), fs, gs. split; [by destruct o|]. split; [apply Hl|]. split; [done|]. split; [auto|]. intros q Hq. split; [|done].
    intros ->. by destruct (Hg p Hq).
Qed.

(** Two objects of the cache are at different addresses unless they are the same. *)
Lemma obj_eq o p q i j : config_ok o -> is_page p -> is_page q -> 0 <= i < objs_per_page o -> 0 <= j < objs_per_page o ->
  p + i * object_size o = q + j * object_size o -> p = q /\ i = j.
Proof.
  intros Hc Hp Hq Hi Hj E. destruct (obj_bounds o Hc i Hi), (obj_bounds o Hc j Hj). pose proof (co_size _ Hc). unfold sizeof_footer in *.
  assert (p = q) as -> by (apply (page_eq o Hc); [done|done|lia]). split; [done|nia].
Qed.

(** The page after one of its objects is put on its free list. *)
Lemma put_object_ok o o' p c i : config_ok o -> page_ok o p c -> 0 <= i < head (foot o p) -> i ∉ c -> static o' = static o -> parent o' = parent o ->
  foot o' p = Footer (magic (foot o p)) i (head (foot o p)) (avail (foot o p) + 1) (cache (foot o p)) ->
  nx o' = <[p + i * object_size o := free (foot o p)]> (nx o) ->
  page_ok o' p (i :: c) /\ page_objs o p c ≡ₚ (p + i * object_size o) :: page_objs o' p (i :: c) /\ avail (foot o p) < objs_per_page o.
Proof.
  intros Hc Hp Hi Hn Hst Hpar Hf Hnx. injection Hst as E1 E2 E3 E4 E5 E6 E7 E8. pose proof (po_head _ _ _ Hp). pose proof (co_size _ Hc).
  assert (Hb : Forall (fun j => 0 <= j < head (foot o p)) (i :: c)) by (constructor; [done|apply Hp]).
  assert (Hd : NoDup (i :: c)) by (constructor; [done|apply Hp]).
  split; [|split].
  - split; rewrite ?Hf, ?Hpar, ?E1, ?E4, ?E6, ?E7; cbn [magic free head avail cache]; try apply Hp; try done.
    + cbn [chain]. split; [done|]. rewrite Hnx, fn_lookup_insert. apply (chain_ext (nx o)); [apply Hp|]. intros j Hj.
      rewrite fn_lookup_insert_ne; [done|]. assert (i <> j) by (intros ->; done). nia.
    + rewrite (po_avail _ _ _ Hp). cbn [length]. lia.
  - unfold page_objs. rewrite Hf, E4. cbn [head]. rewrite (filter_release i c); [done|apply NoDup_seqZ|apply elem_of_seqZ; lia|done].
  - rewrite (po_avail _ _ _ Hp). pose proof (NoDup_bounded _ _ Hd Hb). cbn [length] in *. lia.
Qed.

Lemma deallocate_ok o A A' x : inv o A -> A ≡ₚ x :: A' ->
  exists o', objcache_deallocate o x (object_size o) = Some o' /\ static o' = static o /\ inv o' A'.
Proof.
  intros (fs & gs & ch & Hl) HA. pose proof (ly_config _ _ _ _ _ Hl) as Hc. pose proof (co_objs _ Hc) as Hob.
  destruct (find_page o A fs gs ch x Hl) as (p & i & Hp & Hi & Hn & ->); [rewrite HA; left|].
  pose proof (page_in _ _ _ _ _ Hl p Hp) as Hok. pose proof (po_page _ _ _ Hok) as Hpg. pose proof (po_head _ _ _ Hok) as Hh.
  unfold objcache_deallocate. rewrite Z.eqb_refl, (page_of_obj o Hc p i Hpg) by lia. rewrite (footer_from_page_at o Hc p Hpg), (validate_page_ok _ _ _ Hok). cbn [negb].
  destruct (reopen_page _ _ _ _ _ p Hl Hp) as (l & fs' & gs' & -> & Hli & Hperm & Hq1 & Hq2). cbn [mbind option_bind].
  change (free (ft (set_lk o l) (footer_at p))) with (free (foot o p)).
  set (x := p + i * object_size o) in *. set (o1 := set_nx (set_lk o l) x (free (foot o p))).
  assert (index_from_obj o1 p x = Some i) as -> by (apply (index_of_obj o); [done|done|lia]). cbn [mbind option_bind].
  change (ft o1 (footer_at p)) with (foot o p). set (t := Footer _ _ _ _ _). fold (with_footer o1 p t). rewrite foot_same. cbn [t avail].
  pose proof (alloced_le _ _ _ _ _ Hl) as [Hal _]. pose proof (total_bound _ _ _ _ _ Hl) as [Htb _].
  pose proof (ly_alloced _ _ _ _ _ Hl) as Eal. rewrite HA in Eal. cbn [length] in Eal.
  assert (Hav : 0 <= avail (foot o p)) by (rewrite (po_avail _ _ _ Hok); lia).
  set (o' := set_counts (with_footer o1 p t) (total_objs o) (u64 (alloced_objs o - 1))).
  assert (Hav2 : avail (foot o p) < objs_per_page o).
  { rewrite (po_avail _ _ _ Hok). pose proof (NoDup_bounded (i :: ch p) (head (foot o p)) ltac:(constructor; [done|apply Hok]) ltac:(constructor; [done|apply Hok])).
    cbn [length] in *. lia. }
  assert (Et : t = Footer (magic (foot o p)) i (head (foot o p)) (avail (foot o p) + 1) (cache (foot o p))).
  { unfold t, u16. rewrite Z.mod_small by lia. done. }
  destruct (put_object_ok o o' p (ch p) i Hc Hok Hi Hn) as (Hok' & Hobj & _); [done|done|rewrite <- Et; apply foot_same|done|].
  unfold u16. rewrite (Z.mod_small (_ + 1)) by lia. change (objs_per_page (with_footer o1 p t)) with (objs_per_page o).
  change (alloced_objs (with_footer o1 p t)) with (alloced_objs o). rewrite (proj2 (Z.leb_le _ _)), (proj2 (Z.ltb_lt _ _)) by lia. cbn [kassert mbind option_bind].
  exists o'. split; [done|]. split; [done|]. exists fs', gs', (<[p := i :: ch p]> ch).
  assert (Hfp : foot o' p = t) by apply foot_same.
  apply (layout_change o o' A A' p (i :: ch p) fs gs fs' gs' ch); try done.
  - intros q Hq. by apply (foot_other o1).
  - intros q j Hq Hne Hj. pose proof (page_in _ _ _ _ _ Hl q Hq) as Hoq. pose proof (po_below _ _ _ Hoq) as Hb. rewrite Forall_forall in Hb. specialize (Hb j Hj).
    pose proof (po_head _ _ _ Hoq). cbn. apply fn_lookup_insert_ne. intros E. apply Hne.
    destruct (obj_eq o p q i j Hc Hpg (po_page _ _ _ Hoq) ltac:(lia) ltac:(lia) E). done.
  - intros q Hq. case_decide; [rewrite Hfp, Et; cbn [avail]; lia|]. by destruct (Hq1 q Hq).
  - intros q Hq. destruct (Hq2 q Hq). by case_decide.
  - rewrite HA, Hobj. cbn [app]. by rewrite Permutation_middle.
  - cbn. rewrite u64_small by lia. lia.
Qed.

(** ** Writes by the owners of objects *)

Lemma client_write_ok o A x y w : inv o A -> x ∈ A -> x <= y < x + object_size o -> inv (set_nx o y w) A.
Proof.
  intros (fs & gs & ch & Hl) Hx Hy. pose proof (ly_config _ _ _ _ _ Hl) as Hc. destruct (find_page o A fs gs ch x Hl Hx) as (p & i & Hp & Hi & Hn & ->).
  pose proof (page_in _ _ _ _ _ Hl p Hp) as Hop. pose proof (po_head _ _ _ Hop). pose proof (co_size _ Hc).
  assert (Hpg : forall q, q ∈ fs ++ gs -> page_ok (set_nx o y w) q (ch q)).
  { intros q Hq. pose proof (page_in _ _ _ _ _ Hl q Hq) as Hoq. apply (page_ok_ext o); [done..| |done]. intros j Hj. cbn. apply fn_lookup_insert_ne. intros ->.
    pose proof (po_below _ _ _ Hoq) as Hb. rewrite Forall_forall in Hb. specialize (Hb j Hj). pose proof (po_head _ _ _ Hoq).
    destruct (decide (p + i * object_size o = q + j * object_size o)) as [E|E].
    - destruct (obj_eq o p q i j Hc (po_page _ _ _ Hop) (po_page _ _ _ Hoq) ltac:(lia) ltac:(lia) E) as [-> ->]. done.
    - assert (Sp : slot o (p + i * object_size o)) by (exists p, i; split; [apply Hop|]; split; [lia|done]).
      assert (Sq : slot o (q + j * object_size o)) by (exists q, j; split; [apply Hoq|]; split; [lia|done]).
      destruct (slots_disjoint o _ _ Hc Sp Sq E); lia. }
  exists fs, gs, ch. split; [by apply (config_ext o)|apply Hl|apply (ly_lists _ _ _ _ _ Hl)| | |apply (ly_objs _ _ _ _ _ Hl)|apply Hl|apply Hl].
  - pose proof (ly_free _ _ _ _ _ Hl) as Hf. rewrite Forall_forall in *. intros q Hq. split; [apply Hpg; set_solver|by apply Hf].
  - pose proof (ly_full _ _ _ _ _ Hl) as Hf. rewrite Forall_forall in *. intros q Hq. split; [apply Hpg; set_solver|by apply Hf].
Qed.

(** ** Loops over the pages *)

Lemma foreach_fold {S R} (mem : S -> links) (m : links) h (body : S -> Z -> option (S + R)) (g : S -> Z -> S) (Q : S -> Prop) :
  (forall s, Q s -> mem s = m) -> forall rest a s fuel, linked m a (node <$> rest) h -> h ∉ node <$> rest -> (length rest < fuel)%nat ->
  (forall s p, p ∈ rest -> Q s -> body s (footer_at p) = Some (inl (g s p)) /\ Q (g s p)) -> Q s ->
  list_foreach fuel mem h (fun s e => body s (footer_from_list e)) s (hd h (node <$> rest)) = Some (inl (foldl g s rest)).
Proof.
  intros Hm. induction rest as [|p rest IH]; intros a s fuel Hl Hh Hf Hb Hq; (destruct fuel as [|fuel]; [lia|]); cbn [list_foreach fmap list_fmap hd].
  - unfold list_end. by rewrite Z.eqb_refl.
  - cbn [fmap list_fmap linked length] in *. unfold list_end. rewrite (proj2 (Z.eqb_neq (node p) h)) by set_solver.
    destruct Hl as (_ & _ & Hl). replace (footer_from_list (node p)) with (footer_at p) by (unfold footer_from_list, node, footer_at, sizeof_footer; lia).
    destruct (Hb s p ltac:(left) Hq) as [-> Hq']. cbn [mbind option_bind foldl]. rewrite (Hm s Hq), (proj1 (linked_head _ _ _ _ Hl)).
    apply (IH (node p)); [done|set_solver|lia| |done]. intros s' q Hin. apply Hb. by right.
Qed.

Section Validate.
Context o A fs gs ch (Hl : layout o A fs gs ch).

Lemma free_ring : linked (lk o) (free_list o) (node <$> fs) (free_list o) /\ free_list o ∉ node <$> fs.
Proof.
  destruct (lists_ring _ _ _ _ (ly_lists _ _ _ _ _ Hl)) as (H1 & H2 & _). split; [done|]. apply NoDup_cons in H2 as [_ H2]. by apply NoDup_cons in H2 as [H2 _].
Qed.

Lemma full_ring : linked (lk o) (full_list o) (node <$> gs) (full_list o) /\ full_list o ∉ node <$> gs.
Proof.
  pose proof (ly_lists _ _ _ _ _ Hl) as Hli. rewrite perm_swap in Hli.
  destruct (lists_ring _ _ _ _ Hli) as (H1 & H2 & _). split; [done|]. apply NoDup_cons in H2 as [_ H2]. by apply NoDup_cons in H2 as [H2 _].
Qed.

Lemma valid_free p j : p ∈ fs ++ gs -> j ∈ ch p -> 0 <= j < objs_per_page o /\ is_valid_index j = true.
Proof.
  intros Hp Hj. pose proof (page_in _ _ _ _ _ Hl p Hp) as Hok. pose proof (po_below _ _ _ Hok) as Hb. rewrite Forall_forall in Hb. specialize (Hb j Hj).
  pose proof (po_head _ _ _ Hok). pose proof (co_objs _ (ly_config _ _ _ _ _ Hl)). split; [lia|]. unfold is_valid_index, u16.
  rewrite Z.mod_small by lia. change invalid_index with 65535. by rewrite (proj2 (Z.eqb_neq j 65535)) by lia.
Qed.

Lemma walk_free_ok p c : p ∈ fs ++ gs -> forall i t fuel, chain (nx o) (object_size o) p i c -> Forall (fun j => j ∈ ch p) c -> c <> [] ->
  (length c <= fuel)%nat -> 0 <= t -> t + Z.of_nat (length c) <= invalid_index ->
  walk_free fuel o p i t = Some (Some (t + Z.of_nat (length c))).
Proof.
  intros Hp. pose proof (page_in _ _ _ _ _ Hl p Hp) as Hok. pose proof (ly_config _ _ _ _ _ Hl) as Hc.
  induction c as [|j c IH]; intros i t fuel Hch Hin Hne Hf Ht Hle; [done|]. destruct fuel as [|fuel]; [cbn [length] in Hf; lia|].
  destruct Hch as [-> Hch]. apply Forall_cons in Hin as [Hj Hin]. cbn [walk_free]. destruct (valid_free p j Hp Hj) as [Hjb _].
  rewrite (proj2 (Z.leb_gt _ _)) by lia. rewrite obj_at by (done || apply Hok). cbn [length] in *. rewrite Nat2Z.inj_succ in *.
  destruct c as [|k c]; cbn [chain] in Hch.
  - rewrite Hch. unfold is_valid_index. change (u16 invalid_index =? invalid_index) with true. done.
  - destruct Hch as [E Hch]. rewrite E. pose proof Hin as Hin'. apply Forall_cons in Hin' as [Hk _].
    destruct (valid_free p k Hp Hk) as [_ ->]. rewrite (proj2 (Z.leb_le _ _)) by lia. cbn [andb].
    rewrite (IH k (t + 1) fuel) by (done || lia || by split). do 2 f_equal. lia.
Qed.

Lemma validate_free_ok p : p ∈ fs -> validate_free_page o (footer_at p) = Some true.
Proof.
  intros Hp. assert (Hpin : p ∈ fs ++ gs) by (apply elem_of_app; by left). pose proof (page_in _ _ _ _ _ Hl p Hpin) as Hok.
  pose proof (ly_free _ _ _ _ _ Hl) as Hf. rewrite Forall_forall in Hf. destruct (Hf p Hp) as [_ Ha]. pose proof (ly_config _ _ _ _ _ Hl) as Hc.
  pose proof (co_objs _ Hc). pose proof (po_head _ _ _ Hok). pose proof (po_avail _ _ _ Hok) as Hav. pose proof (NoDup_bounded _ _ (po_nodup _ _ _ Hok) (po_below _ _ _ Hok)).
  unfold validate_free_page. rewrite (validate_page_ok _ _ _ Hok), (proj2 (Z.eqb_neq (avail _) 0)) by lia. cbn [negb].
  rewrite (page_of_footer o Hc p (po_page _ _ _ Hok)), (chain_valid o p (ch p) _ Hc Hok (po_chain _ _ _ Hok)).
  assert (Hw : (if match ch p with [] => false | _ => true end then walk_free (Z.to_nat (invalid_index + 2)) o p (free (foot o p)) 0 else Some (Some 0)) =
    Some (Some (Z.of_nat (length (ch p))))).
  { destruct (ch p) as [|j c] eqn:Ech; [done|]. change invalid_index with 65535. rewrite (walk_free_ok p (j :: c) Hpin); [done|apply Hok| |done| |lia|].
    - rewrite Ech. apply Forall_forall. auto.
    - lia.
    - change invalid_index with 65535. lia. }
  rewrite Hw. cbn [mbind option_bind]. change invalid_index with 65535.
  assert ((negb (match ch p with [] => false | _ => true end) && (head (foot o p) =? objs_per_page o)) = false) as ->.
  { destruct (ch p); cbn [negb andb length] in *; [|done]. apply Z.eqb_neq. lia. }
  rewrite !(proj2 (Z.ltb_ge _ _)) by lia. rewrite (s32_small (objs_per_page o - _)), s32_small by lia. f_equal. apply Z.eqb_eq. lia.
Qed.

Lemma validate_full_ok p : p ∈ gs -> validate_full_page o (footer_at p) = true.
Proof.
  intros Hp. assert (Hpin : p ∈ fs ++ gs) by (apply elem_of_app; by right). pose proof (page_in _ _ _ _ _ Hl p Hpin) as Hok.
  pose proof (ly_full _ _ _ _ _ Hl) as Hf. rewrite Forall_forall in Hf. destruct (Hf p Hp) as [_ Ha]. pose proof (ly_config _ _ _ _ _ Hl) as Hc.
  pose proof (po_head _ _ _ Hok). pose proof (po_avail _ _ _ Hok) as Hav. unfold validate_full_page.
  rewrite (validate_page_ok _ _ _ Hok), Ha, (chain_valid o p (ch p) _ Hc Hok (po_chain _ _ _ Hok)). cbn [negb Z.eqb].
  destruct (ch p); cbn [length] in *; [|lia]. rewrite (proj2 (Z.ltb_ge _ _)) by lia. done.
Qed.
End Validate.

Lemma validate_ok o A fuel : inv o A -> total_objs o < Z.of_nat fuel -> objcache_validate fuel o = Some true.
Proof.
  intros (fs & gs & ch & Hl) Hfuel. unfold objcache_validate, foreach_page_footer. pose proof (co_objs _ (ly_config _ _ _ _ _ Hl)) as Hob.
  pose proof (ly_total _ _ _ _ _ Hl) as Htot. rewrite length_app in Htot. pose proof (total_bound _ _ _ _ _ Hl) as [Htb Hcnt]. rewrite length_app in Hcnt.
  destruct (free_ring _ _ _ _ _ Hl) as [Hr1 Hn1]. destruct (full_ring _ _ _ _ _ Hl) as [Hr2 Hn2].
  rewrite (proj1 (linked_head _ _ _ _ Hr1)).
  rewrite (foreach_fold (fun _ => lk o) (lk o) (free_list o) _ (fun '(pages, av) p => (u64 (pages + 1), u64 (av + avail (foot o p)))) (fun _ => True))
    with (a := free_list o); [|done|done|done|nia| |done].
  2: { intros [pages av] p Hp _. split; [|done]. cbn beta iota. by rewrite (validate_free_ok _ _ _ _ _ Hl p Hp). }
  cbn [mbind option_bind]. change (0, 0) with (u64 0, u64 0). rewrite count_free. cbn [fst snd].
  rewrite (proj1 (linked_head _ _ _ _ Hr2)).
  pose proof (foreach_fold (fun _ : Z => lk o) (lk o) (full_list o) (fun pages f => Some (if validate_full_page o f then inl (u64 (pages + 1)) else inr false))
    (fun pages p => u64 (pages + 1)) (fun _ => True)) as Hfull. cbn beta in Hfull. rewrite Hfull with (a := full_list o); [|done|done|done|nia| |done].
  2: { intros pages p Hp _. split; [|done]. cbn beta. by rewrite (validate_full_ok _ _ _ _ _ Hl p Hp). }
  cbn [mbind option_bind].
  assert (Hfold : forall (l : list Z) n, foldl (fun pages (_ : Z) => u64 (pages + 1)) (u64 n) l = u64 (n + Z.of_nat (length l))).
  { induction l as [|p l IH]; intros n; cbn [foldl length]; [by rewrite Z.add_0_r|]. rewrite u64_add_l, IH. f_equal. lia. }
  rewrite Hfold, !Z.add_0_l. rewrite (u64_small (_ + _)) by nia. rewrite u64_small by nia. rewrite Htot.
  replace ((Z.of_nat (length fs) + Z.of_nat (length gs)) * objs_per_page o) with (objs_per_page o * Z.of_nat (length fs + length gs)) by lia.
  rewrite Z.eqb_refl. cbn [negb]. pose proof (sum_alloced _ _ _ _ _ Hl) as Hsum. pose proof (alloced_le _ _ _ _ _ Hl) as [Hal _].
  rewrite (u64_small (sum_avail o fs)) by lia. rewrite <- Htot, u64_small by lia. rewrite <- Hsum, Z.eqb_refl. done.
Qed.

(** ** Giving pages back *)

Lemma removepage_ok o A fs1 p fs2 gs ch : layout o A (fs1 ++ p :: fs2) gs ch -> avail (foot o p) = objs_per_page o ->
  exists o', objcache_removepage o (footer_at p) = Some o' /\ static o' = static o /\ layout o' A (fs1 ++ fs2) gs ch.
Proof.
  intros Hl Ha. pose proof (ly_config _ _ _ _ _ Hl) as Hc. pose proof (co_objs _ Hc). assert (Hp : p ∈ (fs1 ++ p :: fs2) ++ gs) by set_solver.
  pose proof (page_in _ _ _ _ _ Hl p Hp) as Hok. pose proof (pages_nodup _ _ _ _ _ Hl) as Hd.
  assert (Hperm : (fs1 ++ p :: fs2) ++ gs ≡ₚ p :: (fs1 ++ fs2) ++ gs) by solve_Permutation. rewrite Hperm in Hd. apply NoDup_cons in Hd as [Hn _].
  pose proof (ly_lists _ _ _ _ _ Hl) as Hli. rewrite fmap_app in Hli. unfold objcache_removepage. rewrite list_of_footer.
  destruct (delete_ok _ _ _ _ (node p) _ Hli) as (l & -> & Hli' & _). cbn [mbind option_bind]. eexists. split; [reflexivity|]. split; [done|].
  change (page_from_footer (set_lk o l) (footer_at p)) with (page_from_footer o (footer_at p)). rewrite (page_of_footer o Hc p (po_page _ _ _ Hok)).
  change (page_size (set_lk o l)) with (page_size o). change (parent (set_lk o l)) with (parent o). rewrite (co_page _ Hc).
  destruct (deallocate_u64_ok _ p (ly_heap _ _ _ _ _ Hl) (proj1 (po_page _ _ _ Hok)) (po_use _ _ _ Hok)) as [Hh Hu].
  set (o' := set_counts _ _ _). assert (Hpg : forall q, q ∈ (fs1 ++ fs2) ++ gs -> page_ok o' q (ch q)).
  { intros q Hq. assert (Hq' : q ∈ (fs1 ++ p :: fs2) ++ gs) by (rewrite Hperm; by right). pose proof (page_in _ _ _ _ _ Hl q Hq') as Hoq.
    apply (page_ok_ext o); [done..|]. intros x Hx Hin. apply Hu. split; [done|]. intros Hx2. apply Hn.
    rewrite (page_eq o Hc p q (po_page _ _ _ Hok) (po_page _ _ _ Hoq)) by lia. done. }
  pose proof (total_bound _ _ _ _ _ Hl) as [Htb _]. pose proof (ly_total _ _ _ _ _ Hl) as Htot. rewrite Hperm in Htot. cbn [length] in Htot. rewrite Nat2Z.inj_succ in Htot.
  split; [by apply (config_ext o)|done|by rewrite fmap_app| | | | |apply Hl].
  - pose proof (ly_free _ _ _ _ _ Hl) as Hf. rewrite Forall_forall in *. intros q Hq. split; [apply Hpg; set_solver|apply (Hf q); set_solver].
  - pose proof (ly_full _ _ _ _ _ Hl) as Hf. rewrite Forall_forall in *. intros q Hq. split; [apply Hpg; set_solver|by apply (Hf q)].
  - rewrite (ly_objs _ _ _ _ _ Hl), Hperm. cbn [mbind list_bind]. pose proof (page_objs_length _ _ _ _ _ Hl p Hp) as Hlen.
    destruct (page_objs o p (ch p)); [done|cbn [length] in Hlen; lia].
  - change (total_objs o') with (u64 (total_objs o - objs_per_page o)). change (objs_per_page o') with (objs_per_page o). rewrite u64_small by lia. lia.
Qed.

(** Where a loop of [objcache_drain] leaves the cache and the amount drained. *)
Definition drain_state (r : objcache P * Z * Z + objcache P * Z) : objcache P * Z :=
  match r with inl (o, _, d) => (o, d) | inr s => s end.

(** From [o], giving back [d - d0] bytes of pages. *)
Definition drained A gs ch o (d0 n : Z) (r : objcache P * Z) : Prop :=
  static r.1 = static o /\ exists fs, layout r.1 A fs gs ch /\ r.2 + size * Z.of_nat (length fs) = d0 + size * n /\ d0 <= r.2.

Section Drain.
Context (A gs : list Z) (ch : Z -> list Z) (body : objcache P * Z * Z -> Z -> option (objcache P * Z * Z + objcache P * Z)).
Hypothesis Hbody : forall o r d fs1 p fs2, layout o A (fs1 ++ p :: fs2) gs ch -> 0 <= d -> d + size * Z.of_nat (length (fs1 ++ p :: fs2)) < 2 ^ 64 ->
  exists res, body (o, r, d) (footer_at p) = Some res /\
    (drain_state res = (o, d) \/ exists o', drain_state res = (o', d + size) /\ static o' = static o /\ layout o' A (fs1 ++ fs2) gs ch).

Lemma drain_loop rest : forall fs1 o r d fuel, layout o A (fs1 ++ rest) gs ch -> 0 <= d -> d + size * Z.of_nat (length (fs1 ++ rest)) < 2 ^ 64 ->
  (length rest < fuel)%nat ->
  exists res, list_foreach fuel (fun '(o, _, _) => lk o) (free_list o) (fun s e => body s (footer_from_list e)) (o, r, d) (hd (free_list o) (node <$> rest)) = Some res /\
    drained A gs ch o d (Z.of_nat (length (fs1 ++ rest))) (drain_state res).
Proof.
  induction rest as [|p rest IH]; intros fs1 o r d fuel Hl Hd Hb Hf; (destruct fuel as [|fuel]; [lia|]); cbn [list_foreach fmap list_fmap hd].
  - unfold list_end. rewrite Z.eqb_refl. eexists. split; [reflexivity|]. split; [done|]. exists (fs1 ++ []). split; [done|]. cbn [drain_state snd]. lia.
  - destruct (free_ring _ _ _ _ _ Hl) as [Hr Hn]. rewrite fmap_app in Hr, Hn. cbn [fmap list_fmap] in Hr, Hn. apply linked_app in Hr as [_ Hr].
    unfold list_end. rewrite (proj2 (Z.eqb_neq (node p) _)) by set_solver. rewrite (proj1 (linked_head _ _ _ _ Hr)).
    replace (footer_from_list (node p)) with (footer_at p) by (unfold footer_from_list, node, footer_at, sizeof_footer; lia).
    destruct (Hbody o r d fs1 p rest Hl Hd Hb) as (res & -> & Hres). cbn [mbind option_bind]. cbn [length] in Hf.
    pose proof (size_bounds o (ly_config _ _ _ _ _ Hl)) as Hsz. rewrite length_app in *. cbn [length] in *. rewrite Nat2Z.inj_add, Nat2Z.inj_succ in *.
    assert (Hsame : layout o A ((fs1 ++ [p]) ++ rest) gs ch) by by rewrite <- app_assoc.
    destruct res as [[[o' r'] d']|[o' d']]; cbn [drain_state] in Hres.
    + destruct Hres as [[= -> ->]|(o'' & [= -> ->] & Hst & Hl')].
      * destruct (IH (fs1 ++ [p]) o r' d fuel Hsame Hd) as (res & Hfe & Hdr); [rewrite !length_app; cbn [length]; lia|lia|].
        exists res. split; [exact Hfe|]. rewrite !length_app in Hdr. cbn [length] in Hdr.
        replace (Z.of_nat (length fs1) + Z.succ (Z.of_nat (length rest))) with (Z.of_nat (length fs1 + 1 + length rest)) by lia. exact Hdr.
      * destruct (IH fs1 o'' r' (d + size) fuel Hl') as (res & Hfe & Hst2 & fs' & Hl2 & He & Hle); [lia|rewrite length_app; lia|lia|].
        exists res. pose proof Hst as Hst'. injection Hst' as _ E2 _ _ _ _ _ _. rewrite E2 in Hfe. split; [exact Hfe|]. split; [congruence|]. exists fs'. split; [done|].
        rewrite length_app in He. lia.
    + eexists. split; [reflexivity|]. cbn [drain_state]. destruct Hres as [[= -> ->]|(o'' & [= -> ->] & Hst & Hl')]; (split; [done|]).
      * exists (fs1 ++ p :: rest). split; [done|]. cbn [snd]. rewrite length_app. cbn [length]. lia.
      * exists (fs1 ++ rest). split; [done|]. cbn [snd]. rewrite length_app. lia.
Qed.
End Drain.

Lemma drain_first_ok A gs ch sz retain o r d fs1 p fs2 : layout o A (fs1 ++ p :: fs2) gs ch -> 0 <= d ->
  d + size * Z.of_nat (length (fs1 ++ p :: fs2)) < 2 ^ 64 ->
  exists res, drain_first sz retain (o, r, d) (footer_at p) = Some res /\
    (drain_state res = (o, d) \/ exists o', drain_state res = (o', d + size) /\ static o' = static o /\ layout o' A (fs1 ++ fs2) gs ch).
Proof.
  intros Hl Hd Hb. unfold drain_first. destruct (_ && _) eqn:E; [|eexists; split; [reflexivity|by left]].
  apply andb_true_iff in E as [_ E]. apply Z.eqb_eq in E. destruct (removepage_ok _ _ _ _ _ _ _ Hl E) as (o' & -> & Hst & Hl'). cbn [mbind option_bind].
  rewrite (co_page _ (ly_config _ _ _ _ _ Hl')). rewrite length_app in Hb. cbn [length] in Hb. pose proof (size_bounds o (ly_config _ _ _ _ _ Hl)).
  rewrite u64_small by nia. destruct (sz <=? d + size); (eexists; split; [reflexivity|]; right; exists o'; done).
Qed.

Lemma drain_second_ok A gs ch sz retain o r d fs1 p fs2 : layout o A (fs1 ++ p :: fs2) gs ch -> 0 <= d ->
  d + size * Z.of_nat (length (fs1 ++ p :: fs2)) < 2 ^ 64 ->
  exists res, drain_second sz retain (o, r, d) (footer_at p) = Some res /\
    (drain_state res = (o, d) \/ exists o', drain_state res = (o', d + size) /\ static o' = static o /\ layout o' A (fs1 ++ fs2) gs ch).
Proof.
  intros Hl Hd Hb. unfold drain_second. destruct (r <? _); [eexists; split; [reflexivity|by left]|].
  destruct (Z.eqb_spec (avail (foot o p)) (objs_per_page o)) as [E|E]; [|eexists; split; [reflexivity|by left]].
  destruct (removepage_ok _ _ _ _ _ _ _ Hl E) as (o' & -> & Hst & Hl'). cbn [mbind option_bind].
  rewrite (co_page _ (ly_config _ _ _ _ _ Hl')). rewrite length_app in Hb. cbn [length] in Hb. pose proof (size_bounds o (ly_config _ _ _ _ _ Hl)).
  rewrite u64_small by nia. destruct (sz <=? d + size); (eexists; split; [reflexivity|]; right; exists o'; done).
Qed.

Lemma drain_ok o A sz retain fuel : inv o A -> total_objs o < Z.of_nat fuel ->
  exists d o', objcache_drain fuel o sz retain = Some (d, o') /\ static o' = static o /\ inv o' A /\
    d * objs_per_page o = (total_objs o - total_objs o') * size /\ 0 <= d.
Proof.
  intros (fs & gs & ch & Hl) Hf. unfold objcache_drain, foreach_page_footer.
  pose proof (pages_count _ _ _ _ _ Hl) as Hcnt. pose proof (ly_total _ _ _ _ _ Hl) as Htot. rewrite length_app in Hcnt, Htot. rewrite Nat2Z.inj_add in Hcnt, Htot.
  pose proof (co_objs _ (ly_config _ _ _ _ _ Hl)) as Hob. destruct (free_ring _ _ _ _ _ Hl) as [Hr _]. rewrite (proj1 (linked_head _ _ _ _ Hr)).
  pose proof (size_bounds o (ly_config _ _ _ _ _ Hl)) as Hsz.
  destruct (drain_loop A gs ch (drain_first sz retain) (drain_first_ok A gs ch sz retain) fs [] o 0 0 fuel) as (res & -> & Hst & fs1 & Hl1 & He & Hd); [done|lia|cbn [app]; nia|nia|].
  cbn [mbind option_bind app] in *.
  assert (Hend : forall o' d' fs', static o' = static o -> layout o' A fs' gs ch -> d' + size * Z.of_nat (length fs') = size * Z.of_nat (length fs) -> 0 <= d' ->
    static o' = static o /\ inv o' A /\ d' * objs_per_page o = (total_objs o - total_objs o') * size /\ 0 <= d').
  { intros o' d' fs' Hst' Hl' He' Hd'. split; [done|]. split; [by exists fs', gs, ch|]. split; [|done]. pose proof (ly_total _ _ _ _ _ Hl') as Ht'.
    injection Hst' as _ _ _ _ _ E6 _ _. rewrite E6, length_app, Nat2Z.inj_add in Ht'. rewrite Htot, Ht'. nia. }
  destruct res as [[[o1 r1] d1]|[o1 d1]]; cbn [drain_state fst snd] in *; [|do 2 eexists; split; [reflexivity|by eapply Hend]].
  pose proof Hst as Hst'. injection Hst' as _ E2 _ _ _ _ _ _. destruct (free_ring _ _ _ _ _ Hl1) as [Hr1 _]. rewrite <- E2, (proj1 (linked_head _ _ _ _ Hr1)).
  destruct (drain_loop A gs ch (drain_second sz retain) (drain_second_ok A gs ch sz retain) fs1 [] o1 r1 d1 fuel) as (res & -> & Hst2 & fs2 & Hl2 & He2 & Hd2);
    [done|lia|cbn [app]; nia|nia|].
  cbn [mbind option_bind app] in *. destruct res as [[[o2 r2] d2]|[o2 d2]]; cbn [drain_state fst snd] in *;
    (do 2 eexists; split; [reflexivity|eapply (Hend _ _ fs2); [congruence|done|lia|lia]]).
Qed.

Definition release (par : P) (pages : list Z) : P := foldl (fun par p => deallocate_u64 par p size) par pages.

Lemma release_in_use pages : forall par, heap_ok par -> NoDup pages -> Forall is_page pages -> (forall p x, p ∈ pages -> p <= x < p + size -> in_use par x) ->
  (forall p q, p ∈ pages -> q ∈ pages -> p - size < q < p + size -> p = q) ->
  heap_ok (release par pages) /\ forall x, in_use (release par pages) x <-> in_use par x /\ forall p, p ∈ pages -> ~ p <= x < p + size.
Proof.
  induction pages as [|p l IH]; intros par Hh Hd Hp Hu Hdj; [cbn [release foldl]; split; [done|]; intros x; split; [intros Hx; split; [done|]; intros q Hq; by apply not_elem_of_nil in Hq|tauto]|].
  apply NoDup_cons in Hd as [Hn Hd]. apply Forall_cons in Hp as [[Hdv Hp0] Hp]. cbn [release foldl].
  destruct (deallocate_u64_ok par p Hh Hdv) as [Hh1 Hu1]; [intros x; apply Hu; left|].
  destruct (IH (deallocate_u64 par p size) Hh1 Hd Hp) as [Hh2 Hu2].
  - intros q x Hq Hx. apply Hu1. split; [apply (Hu q); [by right|done]|]. intros Hx2. apply Hn. rewrite (Hdj p q); [done|left|by right|lia].
  - intros q1 q2 H1 H2. apply Hdj; by right.
  - split; [done|]. intros x. change (foldl _ ?a l) with (release a l). rewrite Hu2, Hu1. split.
    + intros [[H1 H2] H3]. split; [done|]. intros q [->|Hq]%elem_of_cons; [done|by apply H3].
    + intros [H1 H2]. split; [split; [done|apply H2; left]|]. intros q Hq. apply H2. by right.
Qed.

Lemma release_pages_ok o l pages fuel : config_ok o -> Forall is_page pages -> linked (lk o) l (node <$> pages) l -> l ∉ node <$> pages -> (length pages < fuel)%nat ->
  release_pages fuel o l = Some (set_parent o (release (parent o) pages)).
Proof.
  intros Hc Hp Hr Hn Hf. unfold release_pages, foreach_page_footer. rewrite (proj1 (linked_head _ _ _ _ Hr)). rewrite Forall_forall in Hp.
  rewrite (foreach_fold (R := Empty_set) lk (lk o) l
    (fun o' f => Some (inl (set_parent o' (deallocate_u64 (parent o') (page_from_footer o' f) (page_size o')))))
    (fun o' p => set_parent o' (deallocate_u64 (parent o') p size)) (fun o' => lk o' = lk o /\ static o' = static o)) with (a := l); try done; [|by intros s []|].
  - cbn [mbind option_bind]. f_equal. clear. revert o. induction pages as [|p l IH]; intros o; [by destruct o|]. cbn [foldl release]. rewrite IH. done.
  - intros s p Hin [Hlk Hst]. assert (Hcs : config_ok s) by by apply (config_ext o). split; [|done].
    rewrite (page_of_footer s Hcs p (Hp p Hin)), (co_page _ Hcs). done.
Qed.

(** Destroying a cache gives all its pages back to the parent, and nothing else. *)
Lemma destroy_ok o A fuel : inv o A -> total_objs o < Z.of_nat fuel ->
  exists pages o', objcache_destroy fuel o = Some o' /\ heap_ok (parent o') /\ total_objs o = objs_per_page o * Z.of_nat (length pages) /\
    (forall x, x ∈ A -> exists p, p ∈ pages /\ p <= x < p + size) /\
    (forall p x, p ∈ pages -> p <= x < p + size -> in_use (parent o) x) /\
    forall x, in_use (parent o') x <-> in_use (parent o) x /\ forall p, p ∈ pages -> ~ p <= x < p + size.
Proof.
  intros (fs & gs & ch & Hl) Hf. pose proof (ly_config _ _ _ _ _ Hl) as Hc. pose proof (co_objs _ Hc). pose proof (ly_total _ _ _ _ _ Hl) as Htot.
  pose proof (pages_nodup _ _ _ _ _ Hl) as Hd. assert (Hpg : Forall is_page (fs ++ gs)) by (eapply Forall_impl; [apply (pages_ok _ _ _ _ _ Hl)|]; intros p Hp; apply Hp).
  destruct (free_ring _ _ _ _ _ Hl) as [Hr1 Hn1]. destruct (full_ring _ _ _ _ _ Hl) as [Hr2 Hn2]. pose proof Hpg as Hpg'. apply Forall_app in Hpg' as [Hp1 Hp2].
  rewrite length_app in Htot. exists (fs ++ gs). unfold objcache_destroy.
  rewrite (release_pages_ok o (free_list o) fs) by (done || nia). cbn [mbind option_bind].
  rewrite (release_pages_ok (set_parent o (release (parent o) fs)) (full_list o) gs) by (done || (by apply (config_ext o)) || nia).
  eexists. split; [reflexivity|]. change (parent (set_parent _ ?par)) with par. change (parent (set_parent o ?par)) with par.
  replace (release (release (parent o) fs) gs) with (release (parent o) (fs ++ gs)) by (unfold release; by rewrite foldl_app).
  assert (Huse : forall p x, p ∈ fs ++ gs -> p <= x < p + size -> in_use (parent o) x) by (intros p x Hp Hx; by apply (po_use _ _ _ (page_in _ _ _ _ _ Hl p Hp))).
  destruct (release_in_use (fs ++ gs) (parent o) (ly_heap _ _ _ _ _ Hl) Hd Hpg Huse) as [Hh Hu].
  { rewrite Forall_forall in Hpg. intros p q Hp Hq. apply (page_eq o Hc); by apply Hpg. }
  split; [done|]. split; [by rewrite length_app|]. split; [|done].
  intros x Hx. destruct (find_page _ _ _ _ _ x Hl Hx) as (p & i & Hp & Hi & _ & ->). exists p. split; [done|]. pose proof (page_in _ _ _ _ _ Hl p Hp) as Hok.
  pose proof (po_head _ _ _ Hok). destruct (obj_bounds o Hc i ltac:(lia)). pose proof (co_size _ Hc). unfold sizeof_footer in *. lia.
Qed.

(** ** Creation *)

Lemma power_of_two x : 0 < x -> Z.land (x - 1) x = 0 -> exists k, 0 <= k /\ x = 2 ^ k.
Proof.
  intros Hx Hl. exists (Z.log2 x). pose proof (Z.log2_nonneg x). split; [done|]. destruct (Z.log2_spec x Hx) as [H1 H2].
  destruct (Z.eq_dec x (2 ^ Z.log2 x)) as [E|E]; [done|]. exfalso.
  assert (Hb : Z.testbit (Z.land (x - 1) x) (Z.log2 x) = true).
  { rewrite Z.land_spec, Z.bit_log2 by done. rewrite andb_true_r. assert (E2 : Z.log2 (x - 1) = Z.log2 x) by (apply Z.log2_unique; lia).
    rewrite <- E2. apply Z.bit_log2. lia. }
  rewrite Hl, Z.testbit_0_l in Hb. done.
Qed.

(** What the caller provides: a parent in order, and list heads outside of its memory. *)
Definition set_up (free_l full_l : Z) (par : P) (parent_pagesize objsize : Z) : Prop :=
  heap_ok par /\ sizeof_footer <= parent_pagesize /\ 0 <= objsize /\ size < 2 ^ 64 /\
  ~ managed free_l /\ ~ managed full_l /\ free_l <> 0 /\ full_l <> 0 /\ free_l <> full_l.

Lemma new_ok a free_l full_l l f n par parent_pagesize objsize o : set_up free_l full_l par parent_pagesize objsize ->
  allocate_objcache a free_l full_l l f n par parent_pagesize objsize size = Some (Some o) -> inv o [] /\ prealloc_only o = false /\ total_objs o = 0.
Proof.
  intros (Hh & Hpp & Hos & Hs64 & Hm1 & Hm2 & Hf0 & Hg0 & Hne). unfold allocate_objcache, sizeof_footer in *. destruct (Z.ltb_spec objsize 2); [done|].
  destruct (Z.ltb_spec size parent_pagesize); [done|]. cbn [orb]. rewrite (u64_small (size - 1)) by lia.
  destruct (Z.eqb_spec (Z.land (size - 1) size) 0) as [Hpow|]; [|done]. cbn [negb]. apply power_of_two in Hpow as (k & Hk & Hpow); [|lia].
  rewrite u64_small by lia. destruct (Z.eqb_spec ((size - 32) / objsize) 0) as [|Hz]; [done|].
  assert (Hq : 0 < (size - 32) / objsize) by (pose proof (Z.div_pos (size - 32) objsize); lia).
  pose proof (Z.mul_div_le (size - 32) objsize ltac:(lia)) as Hmul.
  assert (Hk64 : k < 64) by (apply (Z.pow_lt_mono_r_iff 2); lia).
  change (U64_FROM_BIT 16) with 65536. set (objs := if _ <=? _ then _ else _). assert (Hobjs : 0 < objs < 65536 /\ objs * objsize <= size - 32).
  { unfold objs. destruct (Z.leb_spec 65536 ((size - 32) / objsize)); nia. }
  destruct (negb _); [|done]. cbn [kassert mbind option_bind]. intros [= <-]. split; [|done]. exists [], [], (fun _ => []).
  assert (Hli : lists (list_init (list_init l free_l) full_l) [(full_l, []); (free_l, [])]).
  { apply lists_init; [apply lists_init; [split; [apply NoDup_singleton|constructor]|]|]; cbn; set_solver. }
  split; cbn [parent lk free_list full_list total_objs alloced_objs objs_per_page]; try done; [|by rewrite perm_swap|by rewrite Z.mul_0_r].
  split; cbn [page_size object_size objs_per_page free_list full_list]; try done; try lia; [by exists k|unfold sizeof_footer; lia].
Qed.

Lemma preallocate_ok n : forall o A, inv o A -> exists o', preallocate n o = Some o' /\ static o' = static o /\ inv o' A.
Proof.
  induction n as [|n IH]; intros o A Hi; cbn [preallocate]; [by exists o|]. destruct Hi as (fs & gs & ch & Hl).
  destruct (addpage_ok _ _ _ _ _ Hl) as (f & o1 & -> & Hst & Hcase). cbn [mbind option_bind].
  assert (Hf : f <> INVALID_PHYSICAL /\ inv o1 A).
  { destruct Hcase as [(-> & Hl1 & _)|(p & ch' & -> & _ & Hl1)]; [split; [done|by exists fs, gs, ch]|]. split; [|by exists (p :: fs), gs, ch'].
    destruct (po_page _ _ _ (page_in _ _ _ _ _ Hl1 p ltac:(left))) as (_ & Hp0 & Hpb & _). unfold footer_at, sizeof_footer, INVALID_PHYSICAL, infinity. lia. }
  rewrite (proj2 (Z.eqb_neq f _)) by apply Hf. cbn [negb kassert mbind option_bind]. destruct (IH o1 A) as (o2 & -> & Hst2 & Hi2); [apply Hf|].
  exists o2. split; [done|]. split; [congruence|done].
Qed.

Lemma with_flags_ok o wrapper only : inv o [] -> wrapper = wrapper_heap o \/ total_objs o = 0 -> inv (with_flags o wrapper only) [].
Proof.
  intros (fs & gs & ch & Hl) Hw. exists fs, gs, ch. pose proof (co_objs _ (ly_config _ _ _ _ _ Hl)) as Hob.
  assert (Hp : forall p, p ∈ fs ++ gs -> page_ok (with_flags o wrapper only) p (ch p)).
  { intros p Hp. pose proof (page_in _ _ _ _ _ Hl p Hp) as Hok. destruct Hw as [->|Hw].
    - destruct Hok. by split.
    - rewrite (ly_total _ _ _ _ _ Hl) in Hw. destruct (fs ++ gs); [by apply not_elem_of_nil in Hp|cbn [length] in Hw; lia]. }
  split; [destruct (ly_config _ _ _ _ _ Hl); by split|apply (ly_heap _ _ _ _ _ Hl)|apply (ly_lists _ _ _ _ _ Hl)| | |
    apply (ly_objs _ _ _ _ _ Hl)|apply (ly_total _ _ _ _ _ Hl)|apply (ly_alloced _ _ _ _ _ Hl)].
  - pose proof (ly_free _ _ _ _ _ Hl) as Hf. rewrite Forall_forall in *. intros q Hq. split; [apply Hp; set_solver|by apply Hf].
  - pose proof (ly_full _ _ _ _ _ Hl) as Hf. rewrite Forall_forall in *. intros q Hq. split; [apply Hp; set_solver|by apply Hf].
Qed.

Lemma wrapped_ok a free_l full_l l f n par parent_pagesize objsize wrapper o : set_up free_l full_l par parent_pagesize objsize ->
  allocate_wrapped_objcache a free_l full_l l f n par parent_pagesize objsize size wrapper = Some (Some o) -> inv o [].
Proof.
  intros Hs. unfold allocate_wrapped_objcache. destruct (allocate_objcache _ _ _ _ _ _ _ _ _ _) as [[o1|]|] eqn:E; [|done..].
  destruct (new_ok _ _ _ _ _ _ _ _ _ _ Hs E) as (Hi & _ & Ht). intros [= <-]. apply with_flags_ok; [done|by right].
Qed.

Lemma preallocated_ok a free_l full_l l f n par parent_pagesize objsize count only o : set_up free_l full_l par parent_pagesize objsize ->
  allocate_objcache_preallocated a free_l full_l l f n par parent_pagesize objsize size count only = Some (Some o) -> inv o [].
Proof.
  intros Hs. unfold allocate_objcache_preallocated. destruct (allocate_objcache _ _ _ _ _ _ _ _ _ _) as [[o1|]|] eqn:E; [|done..].
  destruct (new_ok _ _ _ _ _ _ _ _ _ _ Hs E) as (Hi & _). cbn [mbind option_bind]. set (m := Z.to_nat _).
  destruct (preallocate_ok m o1 [] Hi) as (o2 & -> & _ & Hi2). intros [= <-]. apply with_flags_ok; [done|by left].
Qed.

(** ** The properties *)

(** The states of a cache with its allocated objects: created, possibly with a wrapper or
    with pages allocated ahead, and used by clients that free what they have and write
    into what they have. *)
Inductive reach : objcache P -> list Z -> Prop :=
  | reach_new a free_l full_l l f n par parent_pagesize objsize o : set_up free_l full_l par parent_pagesize objsize ->
      allocate_objcache a free_l full_l l f n par parent_pagesize objsize size = Some (Some o) -> reach o []
  | reach_wrapped a free_l full_l l f n par parent_pagesize objsize wrapper o : set_up free_l full_l par parent_pagesize objsize ->
      allocate_wrapped_objcache a free_l full_l l f n par parent_pagesize objsize size wrapper = Some (Some o) -> reach o []
  | reach_preallocated a free_l full_l l f n par parent_pagesize objsize count only o : set_up free_l full_l par parent_pagesize objsize ->
      allocate_objcache_preallocated a free_l full_l l f n par parent_pagesize objsize size count only = Some (Some o) -> reach o []
  | reach_allocate o A x o' : reach o A -> objcache_allocate o (object_size o) = Some (x, o') ->
      reach o' (if x =? INVALID_PHYSICAL then A else x :: A)
  | reach_deallocate o A x A' o' : reach o A -> A ≡ₚ x :: A' -> objcache_deallocate o x (object_size o) = Some o' -> reach o' A'
  | reach_write o A x y w : reach o A -> x ∈ A -> x <= y < x + object_size o -> reach (set_nx o y w) A
  | reach_drain o A sz retain fuel d o' : reach o A -> total_objs o < Z.of_nat fuel -> objcache_drain fuel o sz retain = Some (d, o') -> reach o' A.

Lemma reach_inv o A : reach o A -> inv o A.
Proof.
  induction 1 as [a free_l full_l l f n par pp osz o Hs Hn|a free_l full_l l f n par pp osz w o Hs Hn|a free_l full_l l f n par pp osz c only o Hs Hn|
    o A x o' Hr IH Ha|o A x A' o' Hr IH HA Hd|o A x y w Hr IH Hx Hy|o A sz rt fuel d o' Hr IH Hf Hd].
  - by apply (new_ok a free_l full_l l f n par pp osz).
  - by apply (wrapped_ok a free_l full_l l f n par pp osz w).
  - by apply (preallocated_ok a free_l full_l l f n par pp osz c only).
  - destruct (allocate_ok o A IH) as (x' & o1 & E & _ & Hc). rewrite E in Ha. injection Ha as <- <-.
    destruct Hc as [(-> & Hi & _)|[Hne Hi]]; [by rewrite Z.eqb_refl|by rewrite (proj2 (Z.eqb_neq _ _))].
  - destruct (deallocate_ok o A A' x IH HA) as (o1 & E & _ & Hi). rewrite E in Hd. by injection Hd as <-.
  - by apply (client_write_ok o A x).
  - destruct (drain_ok o A sz rt fuel IH Hf) as (d1 & o1 & E & _ & Hi & _). rewrite E in Hd. by injection Hd as <- <-.
Qed.

(** C6: whatever its clients do, the objects a cache has handed out and not got back are
    distinct slots of pages it holds, no two of them overlap, and [alloced_objs] is their
    number.  Allocation never fails an assertion: it gives one more such object unless
    every object is taken and the cache may not or can not get a page.  Giving an object
    back never fails an assertion either, and takes just that object off. *)
Theorem objcache_safe o A : reach o A ->
  NoDup A /\ alloced_objs o = Z.of_nat (length A) /\
  (forall x, x ∈ A -> slot o x /\ forall y, x <= y < x + object_size o -> in_use (parent o) y) /\
  (forall x y, x ∈ A -> y ∈ A -> x <> y -> x + object_size o <= y \/ y + object_size o <= x) /\
  (exists x o', objcache_allocate o (object_size o) = Some (x, o') /\
     if x =? INVALID_PHYSICAL then reach o' A /\ alloced_objs o = total_objs o /\
       (prealloc_only o = true \/ allocate_u64 (parent o) size = (INVALID_PHYSICAL, parent o'))
     else reach o' (x :: A) /\ x ∉ A) /\
  (forall x A', A ≡ₚ x :: A' -> exists o', objcache_deallocate o x (object_size o) = Some o' /\ reach o' A').
Proof.
  intros Hr. pose proof (reach_inv o A Hr) as Hi. pose proof (live_nodup o A Hi) as Hd. pose proof Hi as (fs & gs & ch & Hl).
  split; [done|]. split; [apply (ly_alloced _ _ _ _ _ Hl)|]. split; [intros x Hx; by apply (objs_slot o A)|]. split; [|split].
  - intros x y Hx Hy. apply slots_disjoint; [apply (ly_config _ _ _ _ _ Hl)|by apply (objs_slot o A x)|by apply (objs_slot o A y)].
  - destruct (allocate_ok o A Hi) as (x & o' & E & _ & Hc). exists x, o'. split; [done|]. pose proof (reach_allocate _ _ _ _ Hr E) as Hr'.
    destruct (Z.eqb_spec x INVALID_PHYSICAL); [destruct Hc as [(_ & _ & Hc)|[? _]]; [by split|done]|]. split; [done|].
    apply reach_inv, live_nodup in Hr'. by apply NoDup_cons in Hr' as [? _].
  - intros x A' HA. destruct (deallocate_ok o A A' x Hi HA) as (o' & E & _). exists o'. split; [done|]. by apply (reach_deallocate o A x A').
Qed.

End Safe.

(** ** A parent with two pages *)

Module TwoPages.
Definition is_managed (x : Z) : Prop := 4096 <= x < 12288.

#[export] Instance heap : PageHeap (list Z) := {|
  allocate_u64 s _ := match s with [] => (INVALID_PHYSICAL, []) | a :: s => (a, s) end;
  deallocate_u64 s a _ := a :: s;
  heap_ok s := NoDup s /\ Forall (fun a => a = 4096 \/ a = 8192) s;
  in_use s x := is_managed x /\ Forall (fun a => ~ a <= x < a + 4096) s;
|}.

#[export] Instance laws : PageHeapLaws heap 4096 is_managed.
Proof.
  split; cbn.
  - intros [|b s] a s' [Hd Hs] [= <- <-]; [done|]. apply NoDup_cons in Hd as [Hb Hd]. apply Forall_cons in Hs as [Hv Hs].
    split; [done|]. rewrite (proj2 (Z.eqb_neq _ _)) by (unfold INVALID_PHYSICAL, infinity; lia). rewrite Forall_forall in Hs.
    split; [destruct Hv as [-> | ->]; [by exists 1|by exists 2]|]. split; [lia|]. split; [lia|]. split; [intros x Hx; split; [unfold is_managed; lia|]|].
    + intros [_ Hn]. by apply Forall_cons in Hn as [? _].
    + intros x. rewrite Forall_cons, !Forall_forall. split; [intros [Hm Hn]; destruct (decide (b <= x < b + 4096)); naive_solver|].
      intros [(Hm & _ & Hn)|Hx]; [done|]. split; [unfold is_managed; lia|]. intros c Hc. destruct (decide (c = b)) as [-> |]; [done|].
      specialize (Hs c Hc). lia.
  - intros s a [Hd Hs] [q ->] Hu. destruct (Hu (q * 4096) ltac:(lia)) as [Hm Hn]. unfold is_managed in Hm. split.
    + split; [apply NoDup_cons; split; [|done]|constructor; [lia|done]]. intros Hin. rewrite Forall_forall in Hn. apply (Hn _ Hin). lia.
    + intros x. rewrite Forall_cons. tauto.
Qed.

Definition fresh : option (option (objcache (list Z))) :=
  allocate_objcache 100 200 216 (fun _ => {| l_prev := 0; l_next := 0 |}) (fun _ => {| magic := 0; free := 0; head := 0; avail := 0; cache := 0 |})
    (fun _ => 0) [4096; 8192] 4096 1024 4096.
Definition start : option (objcache (list Z)) := o ← fresh; o.
Definition used : option (Z * objcache (list Z)) := o ← start; objcache_allocate o 1024.

Lemma start_reach : exists o, start = Some o /\ reach 4096 is_managed o [].
Proof.
  eexists. split; [reflexivity|]. eapply (reach_new _ _ 100 200 216 _ _ _ [4096; 8192] 4096 1024); [|reflexivity].
  split; [split; [by apply (bool_decide_unpack _)|repeat constructor; lia]|]. unfold is_managed, sizeof_footer. lia.
Qed.

Lemma used_reach : exists o, used = Some (4096, o) /\ reach 4096 is_managed o [4096].
Proof.
  destruct start_reach as (o0 & E0 & Hr). unfold used. rewrite E0. cbn [mbind option_bind].
  assert (E : exists o, objcache_allocate o0 (object_size o0) = Some (4096, o)) by (injection E0 as <-; by eexists).
  destruct E as [o E]. exists o. split; [by injection E0 as <-|]. by apply (reach_allocate _ _ o0 [] 4096).
Qed.
End TwoPages.
Import TwoPages.

Lemma objcache_safe_witness : exists (o : objcache (list Z)) x o', reach 4096 is_managed o [4096] /\ objcache_allocate o 1024 = Some (x, o') /\ x = 5120.
Proof.
  destruct used_reach as (o & E & Hr). pose proof (objcache_safe 4096 is_managed o [4096] Hr) as Ht.
  destruct Ht as (_ & _ & _ & _ & (x & o' & Ea & _) & _). vm_compute in E. injection E as <-. eexists _, x, o'. split; [exact Hr|]. split; [exact Ea|].
  vm_compute in Ea. by injection Ea as <-.
Defined.

