(* ===== verification/Buddy.v ===== *)
(** The page heap, a buddy allocator: [kernel/src/runtime/heap/page.c].

    Memory is added in ranges of pages.  The heap turns a range into areas as it needs
    them: an area starts with a header, which has a bit for each pair of buddies of each
    order and a list of the free blocks of each order, and the pages that follow are
    handed out in blocks of a power of two.  The areas with free blocks are in a list for
    the order of their largest one.

    The lists of free blocks are threaded through an array of 16-bit indices in the
    header.  Reading or writing beyond the header is [None], and so is following the
    pointer [INVALID_ADDRESS].  The headers are kept by their address, the links of the
    lists of areas are those of Dlist.v, and the ranges are a range map whose nodes have
    the extra field [inited]. *)

From stdpp Require Import functions.
From S2P Require Import Prelude Range Rbtree RbWalk Rangemap Dlist.

(** ** Areas *)

Definition PAGEHEAP_MAX_ORDER : Z := 9.
Definition PAGEHEAP_AREA_MAX_PAGES : Z := U64_FROM_BIT 16.
Definition PAGE_INDEX_INVALID : Z := 0xffff.

Definition U32_FROM_BIT (x : Z) : Z := U64_FROM_BIT x.
Definition MASK32 (x : Z) : Z := u64 (U32_FROM_BIT x - 1).

Record page_list_elem := Elem { e_prev : Z; e_next : Z }.

(** The links of the area, its first member, are kept apart. *)
Record pageheap_area := Area {
  buddies : Z -> Z; page_count : Z; first : Z -> Z; free_pages : Z -> page_list_elem }.

Definition set_buddies (a : pageheap_area) (b : Z -> Z) : pageheap_area := Area b (page_count a) (first a) (free_pages a).
Definition set_firsts (a : pageheap_area) (f : Z -> Z) : pageheap_area := Area (buddies a) (page_count a) f (free_pages a).
Definition set_pages (a : pageheap_area) (p : Z -> page_list_elem) : pageheap_area := Area (buddies a) (page_count a) (first a) p.

Definition sizeof_area : Z := 8232.
Definition sizeof_elem : Z := 4.
Definition pageheap_header_size (page_count : Z) : Z := pad (u64 (sizeof_area + u64 (sizeof_elem * page_count))) PAGESIZE.
Definition PAGEHEAP_AREA_MIN_SIZE : Z := u64 (pageheap_header_size 1 + PAGESIZE).

(** The arrays of a header. *)
Definition get_word (a : pageheap_area) (i : Z) : option Z :=
  if (0 <=? i) && (i <? PAGEHEAP_AREA_MAX_PAGES / 64) then Some (buddies a i) else None.
Definition set_word (a : pageheap_area) (i w : Z) : option pageheap_area :=
  if (0 <=? i) && (i <? PAGEHEAP_AREA_MAX_PAGES / 64) then Some (set_buddies a (<[i := w]> (buddies a))) else None.
Definition get_first (a : pageheap_area) (o : Z) : option Z :=
  if (0 <=? o) && (o <=? PAGEHEAP_MAX_ORDER) then Some (first a o) else None.
Definition set_first (a : pageheap_area) (o i : Z) : option pageheap_area :=
  if (0 <=? o) && (o <=? PAGEHEAP_MAX_ORDER) then Some (set_firsts a (<[o := i]> (first a))) else None.
Definition get_elem (a : pageheap_area) (i : Z) : option page_list_elem :=
  if (0 <=? i) && (i <? page_count a) then Some (free_pages a i) else None.
Definition set_elem (a : pageheap_area) (i : Z) (e : page_list_elem) : option pageheap_area :=
  if (0 <=? i) && (i <? page_count a) then Some (set_pages a (<[i := e]> (free_pages a))) else None.

Definition page_buddy_index (i order : Z) : Z := Z.lxor i (U32_FROM_BIT order).
Definition page_buddy_first (i order : Z) : Z := Z.land i (u64 (Z.lnot (U32_FROM_BIT order))).

Definition page_buddy_bit (index order : Z) : Z :=
  let index := u16 index in
  foldl (fun base o => base + Z.shiftr PAGEHEAP_AREA_MAX_PAGES (o + 1)) 0 (seqZ 0 order) + Z.shiftr index (order + 1).

Definition page_buddy_set (a : pageheap_area) (index order : Z) : option pageheap_area :=
  let bit := page_buddy_bit index order in
  let mask := u64 (Z.shiftl 1 (Z.land bit 63)) in
  p ← get_word a (bit / 64);
  set_word a (bit / 64) (Z.lor p mask).

Definition page_buddy_clear (a : pageheap_area) (index order : Z) : option pageheap_area :=
  let bit := page_buddy_bit index order in
  let mask := u64 (Z.shiftl 1 (Z.land bit 63)) in
  p ← get_word a (bit / 64);
  set_word a (bit / 64) (Z.land p (u64 (Z.lnot mask))).

Definition page_buddy_toggle (a : pageheap_area) (index order : Z) : option (bool * pageheap_area) :=
  let bit := page_buddy_bit index order in
  let mask := u64 (Z.shiftl 1 (Z.land bit 63)) in
  p ← get_word a (bit / 64);
  let is_set := negb (Z.land p mask =? 0) in
  a ← set_word a (bit / 64) (if is_set then Z.land p (u64 (Z.lnot mask)) else Z.lor p mask);
  Some (is_set, a).

(** Whether the list was empty. *)
Definition pageheap_add_free (a : pageheap_area) (page_index order : Z) : option (bool * pageheap_area) :=
  next ← get_first a order;
  a ← set_elem a page_index (Elem PAGE_INDEX_INVALID next);
  a ← set_first a order page_index;
  if negb (next =? PAGE_INDEX_INVALID) then
    e ← get_elem a next;
    a ← set_elem a next (Elem page_index (e_next e));
    Some (false, a)
  else Some (true, a).

(** Whether the list is empty now. *)
Definition pageheap_remove_free (a : pageheap_area) (page_index order : Z) : option (bool * pageheap_area) :=
  e ← get_elem a page_index;
  let prev := e_prev e in
  let next := e_next e in
  a ← (if negb (next =? PAGE_INDEX_INVALID) then
         n ← get_elem a next; set_elem a next (Elem prev (e_next n))
       else Some a);
  if negb (prev =? PAGE_INDEX_INVALID) then
    p ← get_elem a prev;
    a ← set_elem a prev (Elem (e_prev p) next);
    Some (false, a)
  else
    a ← set_first a order next;
    Some (next =? PAGE_INDEX_INVALID, a).

(** ** Blocks of an area *)

(** The loop of [pageheap_dealloc_page]: the area, the block, its order, and the order of
    the last list that became empty or stopped being so. *)
Fixpoint dealloc_loop (fuel : nat) (max_order : Z) (a : pageheap_area) (index page_order updated_order : Z) :
    option (pageheap_area * Z * Z * Z) :=
  match fuel with
  | O => None
  | S fuel =>
      if negb (page_order <? max_order) then Some (a, index, page_order, updated_order)
      else
        '(buddy_is_free, a) ← page_buddy_toggle a index page_order;
        if (buddy_is_free : bool) then
          let buddy_index := u16 (page_buddy_index index page_order) in
          '(empty, a) ← pageheap_remove_free a buddy_index page_order;
          dealloc_loop fuel max_order a (if buddy_index <? index then buddy_index else index) (page_order + 1)
            (if (empty : bool) then page_order else updated_order)
        else
          '(empty, a) ← pageheap_add_free a index page_order;
          Some (a, index, page_order, if (empty : bool) then page_order else updated_order)
  end.

Definition pageheap_dealloc_page (max_order : Z) (a : pageheap_area) (index page_order : Z) : option (Z * pageheap_area) :=
  let index := u16 index in
  '(a, index, page_order, updated_order) ← dealloc_loop (S (Z.to_nat (max_order - page_order))) max_order a index page_order (-1);
  if page_order =? max_order then
    '(empty, a) ← pageheap_add_free a index page_order;
    Some (if (empty : bool) then page_order else updated_order, a)
  else Some (updated_order, a).

(** The order of the next block to free. *)
Definition dealloc_order (index end_index : Z) : Z :=
  let index_order := s32 (lsb index) in
  let page_order := find_order (u32 (end_index - index)) in
  let page_order := if (0 <=? index_order) && (index_order <? page_order) then index_order else page_order in
  if end_index <? u64 (index + U32_FROM_BIT page_order) then page_order - 1 else page_order.

Fixpoint dealloc_blocks (fuel : nat) (max_order : Z) (a : pageheap_area) (index end_index updated_order : Z) :
    option (Z * pageheap_area) :=
  match fuel with
  | O => None
  | S fuel =>
      let page_order := dealloc_order index end_index in
      '(u, a) ← pageheap_dealloc_page max_order a index page_order;
      let updated_order := Z.max updated_order u in
      let index := u32 (index + U32_FROM_BIT page_order) in
      if index <? end_index then dealloc_blocks fuel max_order a index end_index updated_order
      else Some (updated_order, a)
  end.

Definition pageheap_dealloc_locked (max_order : Z) (a : pageheap_area) (index page_count : Z) : option (Z * pageheap_area) :=
  let page_count := u16 page_count in
  dealloc_blocks (S (Z.to_nat page_count)) max_order a index (u32 (index + page_count)) (-1).

(** The first of [n] orders from [order] on with a free block, and the block. *)
Fixpoint find_free (n : nat) (a : pageheap_area) (order : Z) : option (Z * Z) :=
  match n with
  | O => Some (PAGE_INDEX_INVALID, order)
  | S n =>
      page_index ← get_first a order;
      if negb (page_index =? PAGE_INDEX_INVALID) then Some (page_index, order) else find_free n a (order + 1)
  end.

(** The highest order from [order] down with a free block, of [n] orders. *)
Fixpoint find_top (n : nat) (a : pageheap_area) (order : Z) : option (option Z) :=
  match n with
  | O => Some None
  | S n =>
      page_index ← get_first a order;
      if negb (page_index =? PAGE_INDEX_INVALID) then Some (Some order) else find_top n a (order - 1)
  end.

(** Splitting the block [page_index] from [n] orders above [page_order] down to it. *)
Fixpoint split_block (n : nat) (a : pageheap_area) (page_index page_order : Z) : option pageheap_area :=
  match n with
  | O => Some a
  | S n =>
      let free_order := page_order + Z.of_nat n in
      a ← page_buddy_set a page_index free_order;
      '(_, a) ← pageheap_add_free a (u16 (page_buddy_index page_index free_order)) free_order;
      split_block n a page_index page_order
  end.

(** ** The heap *)

(** The fields of [page_heap], with the address of its array of lists [areas], the links
    of these lists, the headers by their address, and [inited] of each node of the map. *)
Record page_heap := Pageheap {
  ph_ranges : rangemap; ph_inited : Z -> Z; ph_total : Z; ph_allocated : Z; virt_base : Z; max_order : Z;
  areas_addr : Z; ph_lk : links; area_at : Z -> pageheap_area }.

Definition set_ph_inited (h : page_heap) (r i : Z) : page_heap :=
  Pageheap (ph_ranges h) (<[r := i]> (ph_inited h)) (ph_total h) (ph_allocated h) (virt_base h) (max_order h) (areas_addr h) (ph_lk h) (area_at h).
Definition set_ph_lk (h : page_heap) (l : links) : page_heap :=
  Pageheap (ph_ranges h) (ph_inited h) (ph_total h) (ph_allocated h) (virt_base h) (max_order h) (areas_addr h) l (area_at h).
Definition set_area (h : page_heap) (p : Z) (a : pageheap_area) : page_heap :=
  Pageheap (ph_ranges h) (ph_inited h) (ph_total h) (ph_allocated h) (virt_base h) (max_order h) (areas_addr h) (ph_lk h) (<[p := a]> (area_at h)).
Definition set_ph_allocated (h : page_heap) (n : Z) : page_heap :=
  Pageheap (ph_ranges h) (ph_inited h) (ph_total h) n (virt_base h) (max_order h) (areas_addr h) (ph_lk h) (area_at h).

(** The address of [page_heap.areas[order]]. *)
Definition areas (h : page_heap) (order : Z) : Z := areas_addr h + 16 * order.

Definition pageheap_area_base (h : page_heap) (area : Z) : Z :=
  Z.land (u64 (area + pageheap_header_size (page_count (area_at h area)) - virt_base h)) (u64 (Z.lnot (MASK (PAGELOG + max_order h)))).

Definition pageheap_index (h : page_heap) (area p : Z) : Z := u64 (p - pageheap_area_base h area) / PAGESIZE.

(** *** A new area *)

(** The room for an area in the range of the node [r], which it may move on to the next
    boundary: its start and its end. *)
Definition room_in (h : page_heap) (r end_ : Z) : option (Z * Z) * page_heap :=
  let start := ph_inited h r in
  let min_area_size := PAGEHEAP_AREA_MIN_SIZE / PAGESIZE in
  if u64 (start + min_area_size) <=? end_ then
    let area_limit := pad (u64 (start + 1)) PAGEHEAP_AREA_MAX_PAGES in
    let '(start, area_limit, h) :=
      if area_limit <? u64 (start + min_area_size)
      then (area_limit, u64 (area_limit + PAGEHEAP_AREA_MAX_PAGES), set_ph_inited h r area_limit)
      else (start, area_limit, h) in
    if u64 (start + min_area_size) <=? end_ then (Some (start, if area_limit <? end_ then area_limit else end_), h)
    else (None, h)
  else (None, h).

Fixpoint find_room (fuel : nat) (h : page_heap) (r : option Z) : option (option (Z * Z * Z) * page_heap) :=
  match fuel with
  | O => None
  | S fuel =>
      match r with
      | None => Some (None, h)
      | Some r =>
          n ← rm_deref (ph_ranges h) r;
          match room_in h r (end_ (n_r n)) with
          | (Some (start, end'), h) => Some (Some (r, start, end'), h)
          | (None, h) => next ← rangemap_next_node (ph_ranges h) r; find_room fuel h next
          end
      end
  end.

(** The loop at [check_area_size]: the number of pages, the index of the first and the size
    of the header. *)
Fixpoint check_area_size (fuel : nat) (max_order start end_ page_count : Z) : option (Z * Z * Z) :=
  match fuel with
  | O => None
  | S fuel =>
      let page_align := u16 (MASK32 max_order) in
      let header_size := pageheap_header_size page_count in
      let page_start := u64 (start + header_size / PAGESIZE) in
      let page_offset := u16 (Z.land page_start page_align) in
      let area_end := u64 (page_start - page_offset + page_count) in
      if end_ <? area_end then
        let page_diff := u32 (area_end - end_) in
        if page_count <=? page_diff then
          check_area_size fuel max_order start end_ (u32 (page_align + header_size / PAGESIZE))
        else
          let header_diff := u64 (header_size - pageheap_header_size (u32 (page_count - page_diff))) in
          let page_diff :=
            if negb (header_diff =? 0) then
              let page_diff := u32 (page_diff - header_diff / PAGESIZE) in
              if page_align <? page_diff then u32 (page_diff - page_align) else 1
            else page_diff in
          check_area_size fuel max_order start end_ (u32 (page_count - page_diff))
      else Some (page_count, page_offset, header_size)
  end.

(** The two loops that choose the order of the block at [index], with [last_index]. *)
Fixpoint order_up (fuel : nat) (max_order index order last_index : Z) : option (Z * Z) :=
  match fuel with
  | O => None
  | S fuel =>
      if (order <? max_order) && (Z.land index (MASK32 (order + 1)) =? 0)
      then order_up fuel max_order index (order + 1) PAGE_INDEX_INVALID
      else Some (order, last_index)
  end.

Fixpoint order_down (fuel : nat) (max_order : Z) (a : pageheap_area) (index order last_index : Z) : option (pageheap_area * Z * Z) :=
  match fuel with
  | O => None
  | S fuel =>
      if (0 <? order) && (u32 (page_count a - index) <? U32_FROM_BIT order) then
        a ← (if (order <? max_order) && negb (index =? page_buddy_first index order) then page_buddy_set a index order else Some a);
        order_down fuel max_order a index (order - 1) PAGE_INDEX_INVALID
      else Some (a, order, last_index)
  end.

(** The last element of the list from [next] on. *)
Fixpoint last_free (fuel : nat) (a : pageheap_area) (next last_index : Z) : option Z :=
  match fuel with
  | O => None
  | S fuel =>
      if negb (next =? PAGE_INDEX_INVALID) then e ← get_elem a next; last_free fuel a (e_next e) next
      else Some last_index
  end.

(** One block of a new area. *)
Definition init_block (max_order : Z) (a : pageheap_area) (index order last_index : Z) : option (pageheap_area * Z) :=
  '(order, last_index) ← order_up (S (Z.to_nat (max_order - order))) max_order index order last_index;
  '(a, order, last_index) ← order_down (S (Z.to_nat order)) max_order a index order last_index;
  a ← (if (order <? max_order) && ((last_index =? PAGE_INDEX_INVALID) && negb (index =? page_buddy_first index order))
       then page_buddy_set a index order else Some a);
  last_index ← (if last_index =? PAGE_INDEX_INVALID then
                  next ← get_first a order; last_free (S (Z.to_nat (page_count a))) a next last_index
                else Some last_index);
  a ← set_elem a index (Elem last_index PAGE_INDEX_INVALID);
  a ← (if negb (last_index =? PAGE_INDEX_INVALID)
       then e ← get_elem a last_index; set_elem a last_index (Elem (e_prev e) (u16 index))
       else set_first a order (u16 index));
  Some (a, order).

Fixpoint init_blocks (fuel : nat) (max_order : Z) (a : pageheap_area) (index order last_index : Z) : option (pageheap_area * Z) :=
  match fuel with
  | O => None
  | S fuel =>
      if index <? page_count a then
        '(a, order) ← init_block max_order a index order last_index;
        init_blocks fuel max_order a (u32 (index + U32_FROM_BIT order)) order (u16 index)
      else Some (a, order)
  end.

(** The header of a new area, over what the memory holds. *)
Definition init_area (max_order : Z) (a : pageheap_area) (page_count page_offset : Z) : option pageheap_area :=
  let a := Area (fun _ => 0) page_count (foldl (fun f o => <[o := PAGE_INDEX_INVALID]> f) (first a) (seqZ 0 (max_order + 1))) (free_pages a) in
  '(a, order) ← init_blocks (S (Z.to_nat page_count)) max_order a page_offset 0 PAGE_INDEX_INVALID;
  if (order <? max_order) && negb (page_count =? page_buddy_first page_count order)
  then page_buddy_set a page_count order else Some a.

(** The address of the area, or [None] for 0. *)
Definition pageheap_area_new (h : page_heap) : option (option Z * page_heap) :=
  r ← rangemap_first_node (ph_ranges h);
  '(room, h) ← find_room (map_fuel (ph_ranges h)) h r;
  match room with
  | None => Some (None, h)
  | Some (r, start, end_) =>
      '(page_count, page_offset, header_size) ←
        check_area_size (Z.to_nat (2 * PAGEHEAP_AREA_MAX_PAGES)) (max_order h) start end_ PAGEHEAP_AREA_MAX_PAGES;
      let area := u64 (virt_base h + start * PAGESIZE) in
      a ← init_area (max_order h) (area_at h area) page_count page_offset;
      let h := set_area h area a in
      top ← find_top (S (Z.to_nat (max_order h))) a (max_order h);
      let h := match top with Some order => set_ph_lk h (list_push (ph_lk h) (areas h order) area) | None => h end in
      Some (Some area, set_ph_inited h r (u64 (ph_inited h r + header_size / PAGESIZE + page_count - page_offset)))
  end.

(** *** Releasing and allocating *)

Definition pageheap_area_from_page (h : page_heap) (p : Z) : option Z :=
  let base := Z.land p (u64 (Z.lnot (PAGEHEAP_AREA_MAX_PAGES * PAGESIZE - 1))) in
  r ← rangemap_lookup (ph_ranges h) (Z.shiftr p PAGELOG);
  r ← r;
  n ← rm_deref (ph_ranges h) r;
  let range_start := u64 (Z.shiftl (start (n_r n)) PAGELOG) in
  Some (u64 ((if base <? range_start then range_start else base) + virt_base h)).

Definition pageheap_dealloc (h : page_heap) (p size : Z) : option page_heap :=
  area ← pageheap_area_from_page h p;
  '(updated_order, a) ← pageheap_dealloc_locked (max_order h) (area_at h area) (u32 (pageheap_index h area p)) (size / PAGESIZE);
  let h := set_area h area a in
  h ← (if 0 <=? updated_order then
         top ← find_top (Z.to_nat (max_order h - updated_order + 1)) a (max_order h);
         let max_free_order := default 0 top in
         if max_free_order =? updated_order then
           l ← (if list_inserted (ph_lk h) area then list_delete (ph_lk h) area else Some (ph_lk h));
           Some (set_ph_lk h (list_push l (areas h max_free_order) area))
         else Some h
       else Some h);
  Some (set_ph_allocated h (u64 (ph_allocated h - size))).

(** The first area in the lists of [n] orders from [order] on, and its order. *)
Fixpoint find_area (n : nat) (h : page_heap) (order : Z) : option (Z * Z) :=
  match n with
  | O => None
  | S n => let l := list_get_next (ph_lk h) (areas h order) in
           if negb (l =? 0) then Some (l, order) else find_area n h (order + 1)
  end.

(** New areas, until one has a block of [page_order]. *)
Fixpoint new_areas (fuel : nat) (h : page_heap) (page_order : Z) : option (option (Z * Z) * page_heap) :=
  match fuel with
  | O => None
  | S fuel =>
      '(new_area, h) ← pageheap_area_new h;
      match new_area with
      | None => Some (None, h)
      | Some area =>
          top ← find_top (Z.to_nat (max_order h - page_order + 1)) (area_at h area) (max_order h);
          match top with
          | Some list_order => Some (Some (area, list_order), h)
          | None => new_areas fuel h page_order
          end
      end
  end.

(** The part of [pageheap_alloc] with an area [a] in hand, but for the lists of areas: the
    index, the order of the block it is cut from, and whether that was the last one. *)
Definition take_pages (max_order : Z) (a : pageheap_area) (page_order requested : Z) : option (Z * Z * bool * pageheap_area) :=
  '(page_index, free_order) ← find_free (Z.to_nat (max_order - page_order + 1)) a page_order;
  a ← (if free_order <? max_order then page_buddy_clear a page_index free_order else Some a);
  '(empty, a) ← pageheap_remove_free a page_index free_order;
  a ← split_block (Z.to_nat (free_order - page_order)) a page_index page_order;
  let page_count := U64_FROM_BIT page_order in
  a ← (if requested <? page_count
       then '(_, a) ← pageheap_dealloc_locked max_order a (u32 (page_index + requested)) (page_count - requested); Some a
       else Some a);
  Some (page_index, free_order, empty, a).

Definition alloc_from_area (h : page_heap) (area list_order page_order size : Z) : option (Z * page_heap) :=
  '(page_index, free_order, empty, a) ← take_pages (max_order h) (area_at h area) page_order (size / PAGESIZE);
  let p := u64 (pageheap_area_base h area + page_index * PAGESIZE) in
  let list_deleted := (empty : bool) && (free_order =? list_order) in
  l ← (if list_deleted then list_delete (ph_lk h) area else Some (ph_lk h));
  top ← (if list_deleted then find_top (Z.to_nat list_order) a (list_order - 1) else Some None);
  let l := match top with Some order => list_push_back l (areas h order) area | None => l end in
  let h := set_ph_lk (set_area h area a) l in
  Some (p, set_ph_allocated h (u64 (ph_allocated h + size))).

Definition pageheap_alloc (h : page_heap) (size : Z) : option (Z * page_heap) :=
  let page_order := find_order size - PAGELOG in
  if max_order h <? page_order then Some (INVALID_PHYSICAL, h)
  else
    '(l, h) ← match find_area (Z.to_nat (max_order h - page_order + 1)) h page_order with
              | Some l => Some (Some l, h)
              | None => new_areas (S (Z.to_nat (ph_total h / PAGEHEAP_AREA_MIN_SIZE))) h page_order
              end;
    match l with
    | Some (area, list_order) => alloc_from_area h area list_order page_order size
    | None => Some (INVALID_PHYSICAL, h)
    end.

(** *** Set-up *)

(** [alloc] is the address that [meta] gives for the node. *)
Definition pageheap_add_range (h : page_heap) (alloc base length : Z) : option (bool * page_heap) :=
  let page_start := Z.shiftr base PAGELOG in
  let pages := Z.shiftr length PAGELOG in
  _ ← kassert (negb (alloc =? INVALID_PHYSICAL));
  '(rm, ok) ← rangemap_insert (ph_ranges h) {| n_addr := alloc; n_r := irangel page_start pages |};
  if (ok : bool) then
    Some (true, Pageheap rm (<[alloc := page_start]> (ph_inited h)) (u64 (ph_total h + length)) (ph_allocated h) (virt_base h) (max_order h)
                  (areas_addr h) (ph_lk h) (area_at h))
  else Some (false, h).

Definition pageheap_init_done (h : page_heap) (vbase max_page_size : Z) : page_heap :=
  let order := find_order max_page_size - PAGELOG in
  let l := foldl (fun l o => list_init l (areas h o)) (ph_lk h) (seqZ 0 (order + 1)) in
  Pageheap (ph_ranges h) (ph_inited h) (ph_total h) (ph_allocated h) vbase order (areas_addr h) l (area_at h).

(** What [pageheap_init] leaves of a structure that starts as zeroes. *)
Definition pageheap_init (addr : Z) (l : links) (mem : Z -> pageheap_area) : page_heap :=
  Pageheap init_rangemap (fun _ => 0) 0 0 0 0 addr l mem.

Definition pageheap_max_pagesize (h : page_heap) : Z := U64_FROM_BIT (max_order h + PAGELOG).

(** [rh] is the handler, over a state of its own. *)
Definition pageheap_rmnode_handler {H} (rh : H -> range -> H) (s : H) (n : rmnode) : H * bool := (rh s (range_lshift (n_r n) PAGELOG), true).

Definition pageheap_range_foreach {H} (h : page_heap) (rh : H -> range -> H) (s : H) : option H :=
  '(s, _) ← rangemap_range_lookup (ph_ranges h) (irange 0 infinity) (pageheap_rmnode_handler rh) s; Some s.

Definition pageheap_allocated (h : page_heap) : Z := ph_allocated h.
Definition pageheap_total (h : page_heap) : Z := ph_total h.
