(* ===== verification/BuddyArea.v ===== *)
(** The areas of the page heap of Buddy.v: the blocks of an area and their bits. *)

From stdpp Require Import functions.
From S2P Require Import Prelude Words Dlist Buddy.

#[export] Instance divide_dec a b : Decision (a | b) := Znumtheory.Zdivide_dec a b.

(** ** Pairs of blocks *)

(** The other block of the pair of the block [i] of order [o]. *)
Definition buddy (i o : Z) : Z := if Z.even (i / 2 ^ o) then i + 2 ^ o else i - 2 ^ o.

Lemma pow2_pos o : 0 <= o -> 0 < 2 ^ o.
Proof. intros Ho. apply Z.pow_pos_nonneg; lia. Qed.

Lemma pow2_succ o : 0 <= o -> 2 ^ (o + 1) = 2 * 2 ^ o.
Proof. intros Ho. rewrite Z.pow_add_r by lia. lia. Qed.

Lemma page_order_pow o : 0 <= o <= 9 -> 1 <= 2 ^ o <= 512.
Proof. intros Ho. pose proof (pow2_pos o). pose proof (Z.pow_le_mono_r 2 o 9). lia. Qed.

Lemma from_bit o : 0 <= o <= 16 -> U32_FROM_BIT o = 2 ^ o.
Proof. intros Ho. apply U64_FROM_BIT_pow. lia. Qed.

Lemma buddy_index i o : 0 <= i -> 0 <= o <= 9 -> (2 ^ o | i) -> page_buddy_index i o = buddy i o.
Proof.
  intros Hi Ho [k ->]. pose proof (pow2_pos o). unfold page_buddy_index, buddy. rewrite from_bit, Z.div_mul by lia.
  replace (Z.lxor (k * 2 ^ o) (2 ^ o)) with (Z.lxor k 1 * 2 ^ o).
  - destruct (Z.even k) eqn:E.
    + replace (Z.lxor k 1) with (k + 1); [lia|]. apply Z.even_spec in E as [j ->]. symmetry. apply Z.bits_inj'. intros n Hn.
      rewrite Z.lxor_spec. destruct (Z.eq_dec n 0) as [-> |]; [by rewrite Z.testbit_odd_0, Z.testbit_even_0|].
      replace n with (Z.succ (n - 1)) by lia. rewrite Z.testbit_odd_succ, Z.testbit_even_succ, (Z.bits_above_log2 1) by (cbn; lia). by rewrite xorb_false_r.
    + replace (Z.lxor k 1) with (k - 1); [lia|]. rewrite <- Z.negb_odd in E. apply negb_false_iff, Z.odd_spec in E as [j ->]. symmetry. apply Z.bits_inj'. intros n Hn.
      replace (2 * j + 1 - 1) with (2 * j) by lia. rewrite Z.lxor_spec. destruct (Z.eq_dec n 0) as [-> |]; [by rewrite Z.testbit_odd_0, Z.testbit_even_0|].
      replace n with (Z.succ (n - 1)) by lia. rewrite Z.testbit_odd_succ, Z.testbit_even_succ, (Z.bits_above_log2 1) by (cbn; lia). by rewrite xorb_false_r.
  - rewrite <- !Z.shiftl_mul_pow2 by lia. rewrite Z.shiftl_lxor. by rewrite Z.shiftl_1_l.
Qed.

(** The even number of a pair, and the odd one. *)
Lemma buddy_cases i o : 0 <= o -> (2 ^ o | i) ->
  ((2 ^ (o + 1) | i) /\ buddy i o = i + 2 ^ o) \/ ((2 ^ (o + 1) | i - 2 ^ o) /\ buddy i o = i - 2 ^ o).
Proof.
  intros Ho [k ->]. pose proof (pow2_pos o). unfold buddy. rewrite Z.div_mul, pow2_succ by lia. destruct (Z.even k) eqn:E.
  - left. apply Z.even_spec in E as [j ->]. split; [|done]. exists j. lia.
  - right. rewrite <- Z.negb_odd in E. apply negb_false_iff, Z.odd_spec in E as [j ->]. split; [|done]. exists j. lia.
Qed.

Lemma buddy_aligned i o : 0 <= o -> (2 ^ o | i) -> (2 ^ o | buddy i o).
Proof.
  intros Ho Hd. destruct (buddy_cases i o Ho Hd) as [[_ ->]|[_ ->]]; [apply Z.divide_add_r|apply Z.divide_sub_r]; done || apply Z.divide_refl.
Qed.

Lemma odd_half a b p : 0 < p -> a * (2 * p) <> b * (2 * p) + p.
Proof. intros Hp E. assert (H : (2 * (a - b) - 1) * p = 0) by lia. apply Z.mul_eq_0 in H. lia. Qed.

Lemma buddy_buddy i o : 0 <= o -> (2 ^ o | i) -> buddy (buddy i o) o = i.
Proof.
  intros Ho Hd. pose proof (pow2_pos o Ho). pose proof (buddy_aligned i o Ho Hd) as Hb. pose proof (pow2_succ o Ho) as Hs.
  destruct (buddy_cases i o Ho Hd) as [[[j Hj] E]|[[j Hj] E]]; destruct (buddy_cases _ o Ho Hb) as [[[k Hk] E']|[[k Hk] E']]; rewrite E' in *;
    rewrite ?E, Hs in *; try lia; exfalso.
  - apply (odd_half k j (2 ^ o)); lia.
  - apply (odd_half j k (2 ^ o)); lia.
Qed.

Lemma buddy_ne i o : 0 <= o -> (2 ^ o | i) -> buddy i o <> i.
Proof. intros Ho Hd. pose proof (pow2_pos o Ho). destruct (buddy_cases i o Ho Hd) as [[_ ->]|[_ ->]]; lia. Qed.

(** Two blocks of one order are a pair, or the same, when they have the same bit. *)
Lemma same_pair i j o : 0 <= o -> (2 ^ o | i) -> (2 ^ o | j) -> i / 2 ^ (o + 1) = j / 2 ^ (o + 1) <-> j = i \/ j = buddy i o.
Proof.
  intros Ho Hi Hj. pose proof (pow2_pos o Ho). pose proof (pow2_succ o Ho) as Hs.
  assert (Hq : forall x, (2 ^ o | x) -> exists q, x / 2 ^ (o + 1) = q /\ ((x = q * 2 ^ (o + 1) /\ buddy x o = x + 2 ^ o) \/ (x = q * 2 ^ (o + 1) + 2 ^ o /\ buddy x o = x - 2 ^ o))).
  { intros x Hx. destruct (buddy_cases x o Ho Hx) as [[[q Hq] E]|[[q Hq] E]]; exists q; (split; [symmetry; apply (Z.div_unique _ _ _ (x - q * 2 ^ (o + 1))); lia|]); [left|right]; lia. }
  destruct (Hq i Hi) as (q & -> & Ei), (Hq j Hj) as (r & -> & Ej). rewrite Hs in *. split; [intros <-; lia|].
  intros E. apply (Z.mul_cancel_r _ _ (2 * 2 ^ o)); [lia|]. destruct E as [-> |E]; destruct Ei as [[]|[]], Ej as [[]|[]]; try lia; exfalso;
    first [apply (odd_half q r (2 ^ o)); lia|apply (odd_half r q (2 ^ o)); lia].
Qed.

(** ** The bits of the pairs *)

Lemma buddy_base o : 0 <= o <= 9 ->
  foldl (fun base p => base + Z.shiftr PAGEHEAP_AREA_MAX_PAGES (p + 1)) 0 (seqZ 0 o) = 2 ^ 16 - 2 ^ (16 - o).
Proof. intros Ho. assert (o = 0 \/ o = 1 \/ o = 2 \/ o = 3 \/ o = 4 \/ o = 5 \/ o = 6 \/ o = 7 \/ o = 8 \/ o = 9) as E by lia. by repeat destruct E as [-> |E]; subst. Qed.

Definition valid_index (i : Z) : Prop := 0 <= i < 65536.

Lemma buddy_bit i o : valid_index i -> 0 <= o <= 9 -> page_buddy_bit i o = 2 ^ 16 - 2 ^ (16 - o) + i / 2 ^ (o + 1) /\ 0 <= i / 2 ^ (o + 1) < 2 ^ (15 - o).
Proof.
  intros Hi Ho. unfold page_buddy_bit, valid_index in *. rewrite buddy_base by lia. rewrite shiftr_div by lia. unfold u16. rewrite Z.mod_small by lia.
  split; [done|]. pose proof (pow2_pos (o + 1)). split; [apply Z.div_pos; lia|]. apply Z.div_lt_upper_bound; [lia|].
  rewrite <- Z.pow_add_r by lia. replace (o + 1 + (15 - o)) with 16 by lia. lia.
Qed.

Lemma buddy_bit_range i o : valid_index i -> 0 <= o <= 9 -> 0 <= page_buddy_bit i o < 65536.
Proof.
  intros Hi Ho. destruct (buddy_bit i o Hi Ho) as [-> Hb]. assert (2 ^ (16 - o) = 2 * 2 ^ (15 - o)) by (rewrite <- pow2_succ by lia; f_equal; lia).
  pose proof (pow2_pos (15 - o)). pose proof (Z.pow_le_mono_r 2 (16 - o) 16). lia.
Qed.

(** Different pairs have different bits. *)
Lemma buddy_bit_inj i o j p : valid_index i -> valid_index j -> 0 <= o <= 9 -> 0 <= p <= 9 ->
  page_buddy_bit i o = page_buddy_bit j p <-> o = p /\ i / 2 ^ (o + 1) = j / 2 ^ (o + 1).
Proof.
  intros Hi Hj Ho Hp. destruct (buddy_bit i o Hi Ho) as [-> Hb], (buddy_bit j p Hj Hp) as [-> Hc]. split; [|by intros [<- ->]].
  assert (H2 : forall q, 0 <= q <= 9 -> 2 ^ (16 - q) = 2 * 2 ^ (15 - q)) by (intros q Hq; rewrite <- pow2_succ by lia; f_equal; lia).
  pose proof (H2 o Ho). pose proof (H2 p Hp). pose proof (pow2_pos (15 - o)). pose proof (pow2_pos (15 - p)). intros E.
  assert (o = p) as <-; [|lia]. destruct (Z.lt_total o p) as [Hlt|[?|Hlt]]; [|done|]; exfalso.
  - pose proof (Z.pow_le_mono_r 2 (16 - p) (15 - o)). lia.
  - pose proof (Z.pow_le_mono_r 2 (16 - o) (15 - p)). lia.
Qed.

(** The bit of the pair of a block. *)
Definition bbit (a : pageheap_area) (i o : Z) : bool := Z.testbit (buddies a (page_buddy_bit i o / 64)) (page_buddy_bit i o mod 64).

(** [a'] is [a] but for the bit of the pair of [i], which is [v]. *)
Definition bit_set (a : pageheap_area) (i o : Z) (v : bool) (a' : pageheap_area) : Prop :=
  page_count a' = page_count a /\ first a' = first a /\ free_pages a' = free_pages a /\
  forall j p, valid_index j -> 0 <= p <= 9 -> bbit a' j p = if decide (o = p /\ i / 2 ^ (o + 1) = j / 2 ^ (o + 1)) then v else bbit a j p.

Lemma set_word_bit a i o w v : valid_index i -> 0 <= o <= 9 ->
  (forall k, 0 <= k < 64 -> Z.testbit w k = if decide (k = page_buddy_bit i o mod 64) then v else Z.testbit (buddies a (page_buddy_bit i o / 64)) k) ->
  exists a', set_word a (page_buddy_bit i o / 64) w = Some a' /\ bit_set a i o v a'.
Proof.
  intros Hi Ho Hw. pose proof (buddy_bit_range i o Hi Ho) as Hr. unfold set_word. change (PAGEHEAP_AREA_MAX_PAGES / 64) with 1024. rewrite (proj2 (Z.leb_le _ _)) by (apply Z.div_pos; lia).
  rewrite (proj2 (Z.ltb_lt _ _)) by (apply Z.div_lt_upper_bound; lia). eexists. split; [done|]. split; [done|]. split; [done|]. split; [done|].
  intros j p Hj Hp. unfold bbit. cbn [buddies set_buddies]. pose proof (buddy_bit_inj i o j p Hi Hj Ho Hp) as Hin.
  pose proof (Z.mod_pos_bound (page_buddy_bit j p) 64). pose proof (Z.div_mod (page_buddy_bit j p) 64). pose proof (Z.div_mod (page_buddy_bit i o) 64).
  destruct (decide (page_buddy_bit j p / 64 = page_buddy_bit i o / 64)) as [E|E].
  - rewrite E, fn_lookup_insert, Hw by lia. destruct (decide (o = p /\ _)) as [Hs|Hs]; [rewrite decide_True; [done|]|rewrite decide_False; [done|]].
    + by rewrite (proj2 Hin Hs).
    + intros Em. apply Hs, Hin. lia.
  - rewrite fn_lookup_insert_ne by done. rewrite decide_False; [done|]. intros Hs. apply Hin in Hs. by rewrite Hs in E.
Qed.

Section Bits.
Context (a : pageheap_area) (i o : Z) (Hi : valid_index i) (Ho : 0 <= o <= 9).

Lemma bit_mask : u64 (Z.shiftl 1 (Z.land (page_buddy_bit i o) 63)) = 2 ^ (page_buddy_bit i o mod 64) /\ 0 <= page_buddy_bit i o mod 64 < 64.
Proof.
  pose proof (Z.mod_pos_bound (page_buddy_bit i o) 64 ltac:(lia)). split; [|done]. change 63 with (Z.ones 6). rewrite Z.land_ones by lia. change (2 ^ 6) with 64.
  rewrite Z.shiftl_1_l. apply u64_small. split; [lia|]. apply Z.pow_lt_mono_r; lia.
Qed.

Lemma get_word_bit : get_word a (page_buddy_bit i o / 64) = Some (buddies a (page_buddy_bit i o / 64)).
Proof.
  pose proof (buddy_bit_range i o Hi Ho) as Hr. unfold get_word. change (PAGEHEAP_AREA_MAX_PAGES / 64) with 1024. rewrite (proj2 (Z.leb_le _ _)) by (apply Z.div_pos; lia).
  by rewrite (proj2 (Z.ltb_lt _ _)) by (apply Z.div_lt_upper_bound; lia).
Qed.

Lemma testbit_lor_pow w k b : 0 <= k < 64 -> 0 <= b -> Z.testbit (Z.lor w (2 ^ b)) k = if decide (k = b) then true else Z.testbit w k.
Proof.
  intros Hk Hb. rewrite Z.lor_spec, Z.pow2_bits_eqb by lia. destruct (decide (k = b)) as [-> |Hn]; [by rewrite Z.eqb_refl, orb_true_r|].
  rewrite (proj2 (Z.eqb_neq _ _)) by lia. apply orb_false_r.
Qed.

Lemma testbit_clear_pow w k b : 0 <= k < 64 -> 0 <= b -> Z.testbit (Z.land w (u64 (Z.lnot (2 ^ b)))) k = if decide (k = b) then false else Z.testbit w k.
Proof.
  intros Hk Hb. rewrite Z.land_spec, u64_testbit, Z.lnot_spec, Z.pow2_bits_eqb by lia. rewrite (proj2 (Z.ltb_lt _ _)) by lia. cbn [andb].
  destruct (decide (k = b)) as [-> |Hn]; [by rewrite Z.eqb_refl, andb_false_r|]. rewrite (proj2 (Z.eqb_neq _ _)) by lia. apply andb_true_r.
Qed.

Lemma buddy_set_ok : exists a', page_buddy_set a i o = Some a' /\ bit_set a i o true a'.
Proof.
  destruct bit_mask as [Em Hm]. unfold page_buddy_set. rewrite Em, get_word_bit. cbn [mbind option_bind]. apply set_word_bit; [done..|].
  intros k Hk. apply testbit_lor_pow; lia.
Qed.

Lemma buddy_clear_ok : exists a', page_buddy_clear a i o = Some a' /\ bit_set a i o false a'.
Proof.
  destruct bit_mask as [Em Hm]. unfold page_buddy_clear. rewrite Em, get_word_bit. cbn [mbind option_bind]. apply set_word_bit; [done..|].
  intros k Hk. apply testbit_clear_pow; lia.
Qed.

Lemma buddy_toggle_ok : exists a', page_buddy_toggle a i o = Some (bbit a i o, a') /\ bit_set a i o (negb (bbit a i o)) a'.
Proof.
  destruct bit_mask as [Em Hm]. unfold page_buddy_toggle. rewrite Em, get_word_bit. cbn [mbind option_bind].
  assert (Eb : negb (Z.land (buddies a (page_buddy_bit i o / 64)) (2 ^ (page_buddy_bit i o mod 64)) =? 0) = bbit a i o).
  { rewrite land_pow2 by lia. apply negb_involutive. }
  rewrite Eb. set (w := if bbit a i o then _ else _). destruct (set_word_bit a i o w (negb (bbit a i o)) Hi Ho) as (a' & -> & Hs); [|by exists a'].
  intros k Hk. unfold w. destruct (bbit a i o); cbn [negb]; [apply testbit_clear_pow|apply testbit_lor_pow]; lia.
Qed.
End Bits.

(** ** The lists of free blocks *)

(** The elements [l] linked one after the other: [i] leads to the first, [prev] is before
    it, and [nxt] after the last. *)
Fixpoint seg (fp : Z -> page_list_elem) (prev i : Z) (l : list Z) (nxt : Z) : Prop :=
  match l with
  | [] => i = nxt
  | x :: l => i = x /\ e_prev (fp x) = prev /\ seg fp x (e_next (fp x)) l nxt
  end.

Lemma seg_app fp prev i l1 l2 nxt : seg fp prev i (l1 ++ l2) nxt <-> exists m, seg fp prev i l1 m /\ seg fp (last_node prev l1) m l2 nxt.
Proof.
  revert prev i. induction l1 as [|x l1 IH]; intros prev i; cbn [seg app last_node foldl].
  - split; [by exists i|]. by intros (m & -> & Hm).
  - rewrite IH. split; [intros (E & Ep & m & H1 & H2); by exists m|]. intros (m & (E & Ep & H1) & H2). split; [done|]. split; [done|]. by exists m.
Qed.

Lemma seg_ext fp fp' l : forall prev i nxt, seg fp prev i l nxt -> (forall x, x ∈ l -> fp' x = fp x) -> seg fp' prev i l nxt.
Proof.
  induction l as [|x l IH]; intros prev i nxt Hs He; [done|]. destruct Hs as (E & Ep & Hs). cbn [seg]. rewrite (He x) by left.
  split; [done|]. split; [done|]. apply IH; [done|]. intros y Hy. apply He. by right.
Qed.

(** What comes before the elements. *)
Lemma seg_prev fp prev prev' i l nxt : NoDup l -> seg fp prev i l nxt ->
  seg (match l with [] => fp | y :: _ => <[y := Elem prev' (e_next (fp y))]> fp end) prev' i l nxt.
Proof.
  destruct l as [|y l]; [done|]. intros Hd (-> & _ & Hs). cbn [seg]. rewrite fn_lookup_insert. split; [done|]. split; [done|]. cbn [e_next].
  apply (seg_ext fp); [done|]. intros x Hx. apply fn_lookup_insert_ne. intros ->. by apply NoDup_cons in Hd as [? _].
Qed.

(** What comes after them. *)
Lemma seg_next fp prev i l y nxt nxt' : NoDup (l ++ [y]) -> seg fp prev i (l ++ [y]) nxt -> seg (<[y := Elem (e_prev (fp y)) nxt']> fp) prev i (l ++ [y]) nxt'.
Proof.
  intros Hd Hs. apply seg_app in Hs as (m & H1 & -> & Ep & _). apply seg_app. exists y. split.
  - apply (seg_ext fp); [done|]. intros x Hx. apply fn_lookup_insert_ne. intros ->. apply NoDup_app in Hd as (_ & Hd & _). apply (Hd x Hx). by left.
  - cbn [seg]. by rewrite fn_lookup_insert.
Qed.

Lemma first_of_seg fp prev i l : seg fp prev i l PAGE_INDEX_INVALID -> (forall x, x ∈ l -> x <> PAGE_INDEX_INVALID) -> (i =? PAGE_INDEX_INVALID) = bool_decide (l = []).
Proof.
  destruct l as [|x l]; [intros -> _; by rewrite Z.eqb_refl|]. intros (-> & _) Hx. rewrite (proj2 (Z.eqb_neq _ _)) by (apply Hx; left). by rewrite bool_decide_false.
Qed.

(** The lists [fl] of the orders up to [m]. *)
Definition listed (m : Z) (a : pageheap_area) (fl : Z -> list Z) : Prop :=
  forall o, 0 <= o <= m -> seg (free_pages a) PAGE_INDEX_INVALID (first a o) (fl o) PAGE_INDEX_INVALID.

(** They have no element in common, and an entry of the array for each. *)
Record separate (m n : Z) (fl : Z -> list Z) : Prop := {
  sp_nodup : forall o, 0 <= o <= m -> NoDup (fl o);
  sp_range : forall o i, 0 <= o <= m -> i ∈ fl o -> 0 <= i < n;
  sp_other : forall o p i, 0 <= o <= m -> 0 <= p <= m -> i ∈ fl o -> i ∈ fl p -> o = p;
}.

Section Lists.
Context (m : Z) (a : pageheap_area) (fl : Z -> list Z) (Hm : 0 <= m <= 9) (Hn : page_count a <= PAGE_INDEX_INVALID).
Context (Hl : listed m a fl) (Hs : separate m (page_count a) fl).

Lemma listed_valid o i : 0 <= o <= m -> i ∈ fl o -> i <> PAGE_INDEX_INVALID.
Proof. intros Ho Hi. pose proof (sp_range _ _ _ Hs o i Ho Hi). lia. Qed.

Lemma get_first_ok (b : pageheap_area) o : 0 <= o <= m -> get_first b o = Some (first b o).
Proof. intros Ho. unfold get_first, PAGEHEAP_MAX_ORDER. by rewrite (proj2 (Z.leb_le _ _)), (proj2 (Z.leb_le _ _)) by lia. Qed.

Lemma set_first_ok (b : pageheap_area) o i : 0 <= o <= m -> set_first b o i = Some (set_firsts b (<[o := i]> (first b))).
Proof. intros Ho. unfold set_first, PAGEHEAP_MAX_ORDER. by rewrite (proj2 (Z.leb_le _ _)), (proj2 (Z.leb_le _ _)) by lia. Qed.

Lemma get_elem_ok (b : pageheap_area) i : 0 <= i < page_count b -> get_elem b i = Some (free_pages b i).
Proof. intros Hi. unfold get_elem. by rewrite (proj2 (Z.leb_le _ _)), (proj2 (Z.ltb_lt _ _)) by lia. Qed.

Lemma set_elem_ok (b : pageheap_area) i e : 0 <= i < page_count b -> set_elem b i e = Some (set_pages b (<[i := e]> (free_pages b))).
Proof. intros Hi. unfold set_elem. by rewrite (proj2 (Z.leb_le _ _)), (proj2 (Z.ltb_lt _ _)) by lia. Qed.

(** A change to the elements of one list and to its first. *)
Lemma relist o l a' : 0 <= o <= m -> page_count a' = page_count a -> seg (free_pages a') PAGE_INDEX_INVALID (first a' o) l PAGE_INDEX_INVALID ->
  (forall p, p <> o -> first a' p = first a p) -> (forall p i, 0 <= p <= m -> p <> o -> i ∈ fl p -> free_pages a' i = free_pages a i) ->
  listed m a' (<[o := l]> fl).
Proof.
  intros Ho Hc Hsg Hf Hp p Hpm. destruct (decide (p = o)) as [-> |Hne]; [by rewrite fn_lookup_insert|]. rewrite fn_lookup_insert_ne, Hf by done.
  apply (seg_ext (free_pages a)); [by apply Hl|]. intros i Hi. by apply (Hp p).
Qed.

(** What an operation on the lists leaves alone. *)
Definition same_bits (b b' : pageheap_area) : Prop := page_count b' = page_count b /\ buddies b' = buddies b.

Lemma add_free_ok i o : 0 <= o <= m -> 0 <= i < page_count a -> (forall p, 0 <= p <= m -> i ∉ fl p) ->
  exists a', pageheap_add_free a i o = Some (bool_decide (fl o = []), a') /\ same_bits a a' /\ listed m a' (<[o := i :: fl o]> fl).
Proof.
  intros Ho Hi Hf. unfold pageheap_add_free. rewrite get_first_ok by done. cbn [mbind option_bind].
  rewrite set_elem_ok by done. cbn [mbind option_bind]. rewrite set_first_ok by done. cbn [mbind option_bind].
  pose proof (Hl o Ho) as Hso. rewrite (first_of_seg _ _ _ _ Hso) by (intros x; by apply listed_valid).
  pose proof (sp_nodup _ _ _ Hs o Ho) as Hd. destruct (fl o) as [|y l] eqn:E.
  - rewrite bool_decide_true by done. cbn [negb]. eexists. split; [done|]. split; [done|]. apply relist; [done|done|..]; cbn.
    + by rewrite !fn_lookup_insert.
    + intros p Hp. by apply fn_lookup_insert_ne.
    + intros p x Hp _ Hx. apply fn_lookup_insert_ne. intros ->. by apply (Hf p).
  - rewrite bool_decide_false by done. cbn [negb]. destruct Hso as (Ey & Ep & Hso). rewrite Ey.
    assert (Hy : 0 <= y < page_count a) by (apply (sp_range _ _ _ Hs o); [done|rewrite E; left]).
    assert (Hyi : y <> i) by (intros ->; apply (Hf o Ho); rewrite E; left).
    rewrite get_elem_ok by done. cbn [mbind option_bind]. rewrite set_elem_ok by done. cbn [mbind option_bind].
    eexists. split; [done|]. split; [done|]. apply relist; [done|done|..]; cbn.
    + repeat (rewrite fn_lookup_insert || rewrite fn_lookup_insert_ne by congruence). cbn [e_prev e_next].
      split; [done|]. split; [done|]. split; [done|]. split; [done|]. apply (seg_ext (free_pages a)); [done|]. intros x Hx.
      rewrite !fn_lookup_insert_ne; [done|..]; [intros ->; apply (Hf o Ho); rewrite E; by right|intros ->; by apply NoDup_cons in Hd as [? _]].
    + intros p Hp. by apply fn_lookup_insert_ne.
    + intros p x Hp Hpo Hx. rewrite !fn_lookup_insert_ne; [done|..]; [intros ->; by apply (Hf p)|intros ->; apply Hpo, (sp_other _ _ _ Hs p o x); [done|done|done|rewrite E; left]].
Qed.

(** The first part of a removal: what follows is linked to what comes before. *)
Lemma relink_next prev x nxt l2 : seg (free_pages a) x nxt l2 PAGE_INDEX_INVALID -> NoDup l2 -> (forall y, y ∈ l2 -> 0 <= y < page_count a) ->
  exists a', (if negb (nxt =? PAGE_INDEX_INVALID) then n ← get_elem a nxt; set_elem a nxt (Elem prev (e_next n)) else Some a) = Some a' /\
    same_bits a a' /\ first a' = first a /\ seg (free_pages a') prev nxt l2 PAGE_INDEX_INVALID /\ forall z, z ∉ l2 -> free_pages a' z = free_pages a z.
Proof.
  intros Hsg Hd Hr. rewrite (first_of_seg _ _ _ _ Hsg) by (intros y Hy; specialize (Hr y Hy); lia). pose proof (seg_prev _ _ prev _ _ _ Hd Hsg) as Hp.
  destruct l2 as [|y l2]; [rewrite bool_decide_true by done; by exists a|]. rewrite bool_decide_false by done. cbn [negb].
  destruct Hsg as (-> & _ & _). assert (Hy : 0 <= y < page_count a) by (apply Hr; left). rewrite get_elem_ok by done. cbn [mbind option_bind].
  rewrite set_elem_ok by done. eexists. split; [done|]. split; [done|]. split; [done|]. split; [done|]. intros z Hz. cbn. apply fn_lookup_insert_ne.
  intros ->. apply Hz. left.
Qed.

Lemma remove_free_ok i o l1 l2 : 0 <= o <= m -> fl o = l1 ++ i :: l2 ->
  exists a', pageheap_remove_free a i o = Some (bool_decide (l1 ++ l2 = []), a') /\ same_bits a a' /\ listed m a' (<[o := l1 ++ l2]> fl).
Proof.
  intros Ho E. pose proof (Hl o Ho) as Hso. rewrite E in Hso. apply seg_app in Hso as (m0 & H1 & -> & Ep & H2).
  pose proof (sp_nodup _ _ _ Hs o Ho) as Hd. rewrite E in Hd. apply NoDup_app in Hd as (Hd1 & Hd12 & Hd2). apply NoDup_cons in Hd2 as [Hi2 Hd2].
  assert (Hr : forall x, x ∈ l1 ++ i :: l2 -> 0 <= x < page_count a) by (intros x Hx; apply (sp_range _ _ _ Hs o); [done|by rewrite E]).
  assert (Hoth : forall p x, 0 <= p <= m -> p <> o -> x ∈ fl p -> x ∉ l1 ++ i :: l2) by (intros p x Hp Hne Hx Hin; apply Hne, (sp_other _ _ _ Hs p o x); [done..|by rewrite E]).
  unfold pageheap_remove_free. rewrite get_elem_ok by (apply Hr; set_solver). cbn [mbind option_bind].
  destruct (relink_next (e_prev (free_pages a i)) i _ l2 H2 Hd2) as (a1 & -> & [Hc1 Hb1] & Hf1 & H2' & Hz1); [intros y Hy; apply Hr; set_solver|]. cbn [mbind option_bind].
  assert (H1' : seg (free_pages a1) PAGE_INDEX_INVALID (first a o) l1 i).
  { apply (seg_ext (free_pages a)); [done|]. intros x Hx. apply Hz1. intros Hx2. apply (Hd12 x Hx). by right. }
  destruct l1 as [|x l1 _] using rev_ind.
  - rewrite Ep. cbn [last_node foldl]. rewrite Z.eqb_refl. cbn [negb]. rewrite set_first_ok by done. cbn [mbind option_bind app].
    rewrite (first_of_seg _ _ _ _ H2) by (intros y Hy; apply (listed_valid o); [done|rewrite E; set_solver]).
    eexists. split; [done|]. split; [done|]. apply relist; [done|done|..]; cbn.
    + rewrite fn_lookup_insert. by rewrite Ep in H2'.
    + intros p Hp. by rewrite fn_lookup_insert_ne, Hf1.
    + intros p x Hp Hne Hx. apply Hz1. intros Hx2. apply (Hoth p x Hp Hne Hx). by right.
  - rewrite last_node_snoc in Ep. rewrite Ep in *. assert (Hx : 0 <= x < page_count a) by (apply Hr; set_solver).
    rewrite (proj2 (Z.eqb_neq _ _)) by lia. cbn [negb]. rewrite get_elem_ok by lia. cbn [mbind option_bind]. rewrite set_elem_ok by lia. cbn [mbind option_bind].
    rewrite bool_decide_false by (by destruct l1). eexists. split; [done|]. split; [done|]. apply relist; [done|done|..]; cbn.
    + rewrite Hf1. apply seg_app. exists (e_next (free_pages a i)). rewrite last_node_snoc. split; [by apply (seg_next _ _ _ _ _ i)|].
      apply (seg_ext (free_pages a1)); [done|]. intros y Hy. apply fn_lookup_insert_ne. intros ->. apply (Hd12 y); [set_solver|by right].
    + intros p Hp. by rewrite Hf1.
    + intros p y Hp Hne Hy. specialize (Hoth p y Hp Hne Hy). rewrite fn_lookup_insert_ne by (intros ->; apply Hoth; set_solver). apply Hz1. set_solver.
Qed.
End Lists.

(** ** The blocks *)

Lemma insert_elem (fl : Z -> list Z) o l p j : j ∈ (<[o := l]> fl) p <-> (p = o /\ j ∈ l) \/ (p <> o /\ j ∈ fl p).
Proof.
  destruct (decide (p = o)) as [-> |Hne]; [rewrite fn_lookup_insert|rewrite fn_lookup_insert_ne by done]; naive_solver.
Qed.

Section Blocks.
Context (m off : Z) (Hm : 0 <= m <= 9) (Hoff : 0 <= off).

(** A block of the area: its pages are [off] to [n - 1]. *)
Definition in_area (n i o : Z) : Prop := 0 <= o <= m /\ (2 ^ o | i) /\ off <= i /\ i + 2 ^ o <= n.

#[export] Instance in_area_dec n i o : Decision (in_area n i o).
Proof. unfold in_area. apply _. Defined.

Definition page_free (fl : Z -> list Z) (x : Z) : Prop := exists o i, 0 <= o <= m /\ i ∈ fl o /\ i <= x < i + 2 ^ o.

(** The free blocks are disjoint blocks of the area, and no two of them are a pair. *)
Record blocks_ok (n : Z) (fl : Z -> list Z) : Prop := {
  bk_in : forall o i, 0 <= o <= m -> i ∈ fl o -> in_area n i o;
  bk_nodup : forall o, 0 <= o <= m -> NoDup (fl o);
  bk_uniq : forall x o i p j, 0 <= o <= m -> 0 <= p <= m -> i ∈ fl o -> j ∈ fl p -> i <= x < i + 2 ^ o -> j <= x < j + 2 ^ p -> o = p /\ i = j;
  bk_merged : forall o i, 0 <= o < m -> i ∈ fl o -> buddy i o ∉ fl o;
}.

Record area_ok (a : pageheap_area) (fl : Z -> list Z) : Prop := {
  ao_count : page_count a <= PAGE_INDEX_INVALID;
  ao_lists : listed m a fl;
  ao_blocks : blocks_ok (page_count a) fl;
  ao_bits : forall o i, 0 <= o < m -> in_area (page_count a) i o -> bbit a i o = bool_decide (i ∈ fl o \/ buddy i o ∈ fl o);
}.

(** A block that is not free. *)
Definition in_hand (n : Z) (fl : Z -> list Z) (i o : Z) : Prop := in_area n i o /\ forall x, i <= x < i + 2 ^ o -> ~ page_free fl x.

Lemma blocks_separate n fl : blocks_ok n fl -> separate m n fl.
Proof.
  intros Hb. assert (Hin : forall o i, 0 <= o <= m -> i ∈ fl o -> i <= i < i + 2 ^ o) by (intros o i Ho _; pose proof (pow2_pos o); lia).
  split; [apply (bk_nodup _ _ Hb)| |].
  - intros o i Ho Hi. destruct (bk_in _ _ Hb o i Ho Hi) as (_ & _ & H1 & H2). specialize (Hin o i Ho Hi). lia.
  - intros o p i Ho Hp Hi Hj. by destruct (bk_uniq _ _ Hb i o i p i Ho Hp Hi Hj (Hin o i Ho Hi) (Hin p i Hp Hj)).
Qed.

Lemma in_area_valid n i o : n <= PAGE_INDEX_INVALID -> in_area n i o -> valid_index i /\ 0 <= i.
Proof. intros Hn (Ho & _ & H1 & H2). pose proof (pow2_pos o). unfold valid_index, PAGE_INDEX_INVALID in *. lia. Qed.

Lemma hand_fresh n fl i o : in_hand n fl i o -> forall p, 0 <= p <= m -> i ∉ fl p.
Proof.
  intros [(Ho & _) Hf] p Hp Hi. pose proof (pow2_pos o). pose proof (pow2_pos p). apply (Hf i); [lia|]. exists p, i. split; [done|]. split; [done|lia].
Qed.

(** Taking a free block. *)
Lemma blocks_remove n fl o i l1 l2 : blocks_ok n fl -> 0 <= o <= m -> fl o = l1 ++ i :: l2 ->
  blocks_ok n (<[o := l1 ++ l2]> fl) /\ in_hand n (<[o := l1 ++ l2]> fl) i o /\
  forall x, page_free (<[o := l1 ++ l2]> fl) x <-> page_free fl x /\ ~ i <= x < i + 2 ^ o.
Proof.
  intros Hb Ho E. pose proof (bk_nodup _ _ Hb o Ho) as Hd. rewrite E in Hd. rewrite NoDup_app, NoDup_cons in Hd. destruct Hd as (Hd1 & Hd12 & Hi2 & Hd2).
  assert (Hio : i ∈ fl o) by (rewrite E; set_solver).
  assert (Hel : forall p j, j ∈ (<[o := l1 ++ l2]> fl) p <-> j ∈ fl p /\ ~ (p = o /\ j = i)).
  { intros p j. rewrite insert_elem. destruct (decide (p = o)) as [-> |]; [|naive_solver]. rewrite E, !elem_of_app, elem_of_cons. split; [|naive_solver].
    intros [[_ Hj]|[? _]]; [|done]. split; [naive_solver|]. intros [_ ->]. destruct Hj as [Hj|Hj]; [|done]. apply (Hd12 i Hj). by left. }
  assert (Hfree : forall x, page_free (<[o := l1 ++ l2]> fl) x <-> page_free fl x /\ ~ i <= x < i + 2 ^ o).
  { intros x. split.
    - intros (p & j & Hp & Hj & Hx). apply Hel in Hj as [Hj Hne]. split; [by exists p, j|]. intros Hix. apply Hne.
      destruct (bk_uniq _ _ Hb x p j o i Hp Ho Hj Hio Hx Hix). done.
    - intros [(p & j & Hp & Hj & Hx) Hnx]. exists p, j. split; [done|]. split; [|done]. apply Hel. split; [done|]. intros [-> ->]. done. }
  split; [|split; [|done]].
  - split.
    + intros p j Hp Hj. apply Hel in Hj as [Hj _]. by apply (bk_in _ _ Hb).
    + intros p Hp. destruct (decide (p = o)) as [-> |]; [rewrite fn_lookup_insert|rewrite fn_lookup_insert_ne by done; by apply (bk_nodup _ _ Hb)].
      apply NoDup_app. split; [done|]. split; [|done]. intros x Hx Hx2. apply (Hd12 x Hx). by right.
    + intros x p j q k Hp Hq Hj Hk. apply Hel in Hj as [Hj _], Hk as [Hk _]. by apply (bk_uniq _ _ Hb).
    + intros p j Hp Hj. apply Hel in Hj as [Hj _]. rewrite Hel. intros [Hbj _]. by apply (bk_merged _ _ Hb p j).
  - split; [by apply (bk_in _ _ Hb)|]. intros x Hx. rewrite Hfree. tauto.
Qed.

(** Adding one. *)
Lemma blocks_insert n fl o i : blocks_ok n fl -> in_hand n fl i o -> (o < m -> buddy i o ∉ fl o) ->
  blocks_ok n (<[o := i :: fl o]> fl) /\ forall x, page_free (<[o := i :: fl o]> fl) x <-> page_free fl x \/ i <= x < i + 2 ^ o.
Proof.
  intros Hb Hh Hbud. pose proof Hh as [Hin Hf]. pose proof (hand_fresh _ _ _ _ Hh) as Hfr. pose proof Hin as (Ho & Hd & _).
  assert (Hel : forall p j, j ∈ (<[o := i :: fl o]> fl) p <-> j ∈ fl p \/ (p = o /\ j = i)).
  { intros p j. rewrite insert_elem. destruct (decide (p = o)) as [-> |]; [rewrite elem_of_cons|]; naive_solver. }
  split; [split|].
  - intros p j Hp Hj. apply Hel in Hj as [Hj|[-> ->]]; [by apply (bk_in _ _ Hb)|done].
  - intros p Hp. destruct (decide (p = o)) as [-> |]; [rewrite fn_lookup_insert|rewrite fn_lookup_insert_ne by done; by apply (bk_nodup _ _ Hb)].
    apply NoDup_cons. split; [by apply Hfr|by apply (bk_nodup _ _ Hb)].
  - intros x p j q k Hp Hq Hj Hk Hx Hy. apply Hel in Hj, Hk. destruct Hj as [Hj|[-> ->]], Hk as [Hk|[-> ->]]; [by apply (bk_uniq _ _ Hb x)|..|done]; exfalso; apply (Hf x); try done.
    + by exists p, j.
    + by exists q, k.
  - intros p j Hp Hj. rewrite Hel. apply Hel in Hj as [Hj|[-> ->]].
    + intros [Hk|[-> E]]; [by apply (bk_merged _ _ Hb p j)|]. apply Hbud; [lia|]. rewrite <- E, buddy_buddy; [done|lia|]. by apply (bk_in _ _ Hb o j Ho).
    + intros [Hk|[_ E]]; [apply Hbud; [lia|done]|]. apply (buddy_ne i o) in E; [done|lia|done].
  - intros x. split.
    + intros (p & j & Hp & Hj & Hx). apply Hel in Hj as [Hj|[-> ->]]; [left; by exists p, j|by right].
    + intros [(p & j & Hp & Hj & Hx)|Hx]; [exists p, j|exists o, i]; (split; [done|]); (split; [apply Hel; tauto|done]).
Qed.

(** *** With their bits *)

Lemma bit_set_buddy a i o v a' : 0 <= o <= 9 -> (2 ^ o | i) -> valid_index i -> bit_set a i o v a' -> bit_set a (buddy i o) o v a'.
Proof.
  intros Ho Hd Hi (Hc & Hf & Hp & Hb). split; [done|]. split; [done|]. split; [done|]. intros j p Hj Hp'. rewrite Hb by done.
  assert (E : buddy i o / 2 ^ (o + 1) = i / 2 ^ (o + 1)) by (symmetry; apply same_pair; [lia|done|apply buddy_aligned; [lia|done]|by right]). by rewrite E.
Qed.

(** Blocks of another pair are free as before when only [i] changes. *)
Lemma other_pairs n (fl fl' : Z -> list Z) i o j p : in_area n i o -> in_area n j p -> ~ (o = p /\ i / 2 ^ (o + 1) = j / 2 ^ (o + 1)) ->
  (forall q k, k <> i \/ q <> o -> k ∈ fl' q <-> k ∈ fl q) ->
  bool_decide (j ∈ fl' p \/ buddy j p ∈ fl' p) = bool_decide (j ∈ fl p \/ buddy j p ∈ fl p).
Proof.
  intros (Ho & Hi & _) (Hp & Hj & _) Hne Hfl. apply bool_decide_ext. rewrite !Hfl; [done|..].
  - destruct (decide (p = o)) as [-> |]; [left|by right]. intros E. apply Hne. split; [done|]. apply same_pair; [lia|done|done|]. right. rewrite <- E, buddy_buddy; done || lia.
  - destruct (decide (p = o)) as [-> |]; [left|by right]. intros ->. by apply Hne.
Qed.

(** The lists of [a1], which has [a]'s but for a bit, become [fl']. *)
Lemma area_change a a1 a2 (fl fl' : Z -> list Z) i o v : area_ok a fl -> in_area (page_count a) i o -> (if o <? m then bit_set a i o v a1 else a1 = a) ->
  same_bits a1 a2 -> listed m a2 fl' -> blocks_ok (page_count a) fl' -> (forall q k, k <> i \/ q <> o -> k ∈ fl' q <-> k ∈ fl q) ->
  (o < m -> v = bool_decide (i ∈ fl' o \/ buddy i o ∈ fl' o)) ->
  page_count a2 = page_count a /\ area_ok a2 fl'.
Proof.
  intros Ha Hin Hbit [Hc2 Hb2] Hl Hbk Hfl Hv. assert (Hc1 : page_count a1 = page_count a) by (destruct (o <? m); [apply Hbit|by subst]).
  rewrite Hc1 in Hc2. split; [done|]. split; [rewrite Hc2; apply (ao_count _ _ Ha)|done|by rewrite Hc2|]. intros p j Hp Hj. rewrite Hc2 in Hj.
  assert (E : bbit a2 j p = bbit a1 j p) by (unfold bbit; by rewrite Hb2). rewrite E. destruct (in_area_valid _ _ _ (ao_count _ _ Ha) Hj) as [Hvj _].
  pose proof Hin as (Ho & Hd & _). pose proof Hj as (_ & Hdj & _). destruct (Z.ltb_spec o m) as [Hom|Hom].
  - destruct Hbit as (_ & _ & _ & Hbit). rewrite Hbit by (done || lia). destruct (decide (o = p /\ _)) as [[<- Hs]|Hne].
    + rewrite Hv by done. apply same_pair in Hs; [|lia|done|done]. destruct Hs as [-> | ->]; [done|]. rewrite buddy_buddy by (done || lia). apply bool_decide_ext. tauto.
    + rewrite (ao_bits _ _ Ha) by done. symmetry. by apply (other_pairs (page_count a) fl fl' i o j p).
  - subst a1. rewrite (ao_bits _ _ Ha) by done. apply bool_decide_ext. rewrite !Hfl; [done|right; lia..].
Qed.

Lemma bit_lists a a1 fl i o v : listed m a fl -> (if o <? m then bit_set a i o v a1 else a1 = a) -> listed m a1 fl /\ page_count a1 = page_count a.
Proof.
  intros Hl Hb. destruct (o <? m); [|by subst]. destruct Hb as (Hc & Hf & Hp & _). split; [|done]. intros q Hq. rewrite Hf, Hp. by apply Hl.
Qed.

Lemma area_take a a1 fl i o l1 l2 : area_ok a fl -> 0 <= o <= m -> fl o = l1 ++ i :: l2 -> (if o <? m then bit_set a i o false a1 else a1 = a) ->
  exists a2, pageheap_remove_free a1 i o = Some (bool_decide (l1 ++ l2 = []), a2) /\ page_count a2 = page_count a /\ area_ok a2 (<[o := l1 ++ l2]> fl).
Proof.
  intros Ha Ho E Hb. pose proof (ao_blocks _ _ Ha) as Hbk. destruct (bit_lists _ _ _ _ _ _ (ao_lists _ _ Ha) Hb) as [Hl1 Hc1].
  assert (Hio : i ∈ fl o) by (rewrite E; set_solver). pose proof (bk_in _ _ Hbk o i Ho Hio) as Hin.
  destruct (remove_free_ok m a1 fl Hm ltac:(rewrite Hc1; apply (ao_count _ _ Ha)) Hl1 ltac:(rewrite Hc1; by apply blocks_separate) i o l1 l2 Ho E) as (a2 & -> & Hs & Hl2).
  exists a2. split; [done|]. destruct (blocks_remove _ _ _ _ _ _ Hbk Ho E) as (Hbk' & Hh & _). pose proof (bk_nodup _ _ Hbk o Ho) as Hd. rewrite E in Hd.
  apply (area_change a a1 a2 fl _ i o false); [done..| |].
  - intros q k Hne. rewrite insert_elem. destruct (decide (q = o)) as [-> |]; [|naive_solver]. rewrite E, !elem_of_app, elem_of_cons. naive_solver.
  - intros Hom. symmetry. apply bool_decide_eq_false_2. pose proof (bk_merged _ _ Hbk o i ltac:(lia) Hio) as Hb'. rewrite E in Hb'. rewrite fn_lookup_insert.
    pose proof (hand_fresh _ _ _ _ Hh o Ho) as Hfr. rewrite fn_lookup_insert in Hfr. set_solver.
Qed.

Lemma area_put a a1 fl i o : area_ok a fl -> in_hand (page_count a) fl i o -> (o < m -> buddy i o ∉ fl o) -> (if o <? m then bit_set a i o true a1 else a1 = a) ->
  exists a2, pageheap_add_free a1 i o = Some (bool_decide (fl o = []), a2) /\ page_count a2 = page_count a /\ area_ok a2 (<[o := i :: fl o]> fl).
Proof.
  intros Ha Hh Hbud Hb. pose proof (ao_blocks _ _ Ha) as Hbk. destruct (bit_lists _ _ _ _ _ _ (ao_lists _ _ Ha) Hb) as [Hl1 Hc1].
  pose proof Hh as [Hin _]. pose proof Hin as (Ho & _ & H1 & H2). pose proof (pow2_pos o ltac:(lia)).
  destruct (add_free_ok m a1 fl Hm ltac:(rewrite Hc1; apply (ao_count _ _ Ha)) Hl1 ltac:(rewrite Hc1; by apply blocks_separate) i o Ho ltac:(lia)
    (hand_fresh _ _ _ _ Hh)) as (a2 & -> & Hs & Hl2).
  exists a2. split; [done|]. destruct (blocks_insert _ _ _ _ Hbk Hh Hbud) as (Hbk' & _).
  apply (area_change a a1 a2 fl _ i o true); [done..| |].
  - intros q k Hne. rewrite insert_elem. destruct (decide (q = o)) as [-> |]; [|naive_solver]. rewrite elem_of_cons. naive_solver.
  - intros Hom. symmetry. apply bool_decide_eq_true_2. left. rewrite fn_lookup_insert. left.
Qed.

(** *** Releasing a block *)

(** The block at [i] of order [o] is merged with its buddies into one of order [q], and
    [u] is the order of the last list that became empty or stopped being so, or less. *)
Definition released (fl : Z -> list Z) (i o : Z) (fl' : Z -> list Z) (u : Z) : Prop :=
  (exists q b, o <= q <= m /\ b ∈ fl' q /\ b <= i /\ i + 2 ^ o <= b + 2 ^ q /\ (2 ^ q | b) /\ (forall p, q < p -> fl' p = fl p) /\ u <= q /\ (fl q = [] -> u = q)) /\
  forall x, page_free fl' x <-> page_free fl x \/ i <= x < i + 2 ^ o.

(** The block and its buddy together. *)
Lemma merged_block n fl i o l1 l2 : blocks_ok n fl -> in_hand n fl i o -> o < m -> fl o = l1 ++ buddy i o :: l2 ->
  in_hand n (<[o := l1 ++ l2]> fl) (Z.min i (buddy i o)) (o + 1) /\ forall x, Z.min i (buddy i o) <= x < Z.min i (buddy i o) + 2 ^ (o + 1) <-> i <= x < i + 2 ^ o \/ buddy i o <= x < buddy i o + 2 ^ o.
Proof.
  intros Hbk [(Ho & Hd & H1 & H2) Hf] Hom E. destruct (blocks_remove _ _ _ _ _ _ Hbk Ho E) as (_ & [(_ & Hdb & B1 & B2) _] & Hfr).
  pose proof (pow2_succ o ltac:(lia)) as H2s. pose proof (pow2_pos o ltac:(lia)).
  assert (Hx : forall x, Z.min i (buddy i o) <= x < Z.min i (buddy i o) + 2 ^ (o + 1) <-> i <= x < i + 2 ^ o \/ buddy i o <= x < buddy i o + 2 ^ o).
  { intros x. rewrite H2s. destruct (buddy_cases i o ltac:(lia) Hd) as [[_ ->]|[_ ->]]; lia. }
  split; [|done]. split.
  - destruct (buddy_cases i o ltac:(lia) Hd) as [[Hda Eb]|[Hda Eb]]; rewrite Eb in *; rewrite ?Z.min_l, ?Z.min_r by lia; (split; [lia|]); (split; [done|lia]).
  - intros x Hx'. apply Hx in Hx'. rewrite Hfr. intros [Hfx Hnx]. destruct Hx' as [Hx'|]; [|done]. by apply (Hf x).
Qed.

(** What follows the loop. *)
Definition dealloc_rest (r : pageheap_area * Z * Z * Z) : option (Z * pageheap_area) :=
  let '(a, index, page_order, updated_order) := r in
  if page_order =? m then
    '(empty, a) ← pageheap_add_free a index page_order;
    Some (if (empty : bool) then page_order else updated_order, a)
  else Some (updated_order, a).

Lemma put_released a a1 fl i o u : area_ok a fl -> in_hand (page_count a) fl i o -> (o < m -> buddy i o ∉ fl o) -> (if o <? m then bit_set a i o true a1 else a1 = a) -> u <= o ->
  exists a2 fl', pageheap_add_free a1 i o = Some (bool_decide (fl o = []), a2) /\ page_count a2 = page_count a /\ area_ok a2 fl' /\
    released fl i o fl' (if bool_decide (fl o = []) then o else u).
Proof.
  intros Ha Hh Hbud Hb Hu. destruct (area_put _ _ _ _ _ Ha Hh Hbud Hb) as (a2 & E & Hc & Ha2). exists a2, (<[o := i :: fl o]> fl).
  split; [done|]. split; [done|]. split; [done|]. destruct (blocks_insert _ _ _ _ (ao_blocks _ _ Ha) Hh Hbud) as [_ Hfr]. split; [|done].
  destruct Hh as [(Ho & Hd & _) _]. exists o, i. rewrite fn_lookup_insert. split; [lia|]. split; [left|]. split; [lia|]. split; [lia|]. split; [done|]. split; [|split].
  - intros p Hp. by rewrite fn_lookup_insert_ne by lia.
  - destruct (bool_decide _); lia.
  - intros E0. by rewrite bool_decide_true.
Qed.

Lemma dealloc_loop_ok fuel : forall a fl i o u, area_ok a fl -> in_hand (page_count a) fl i o -> m - o < Z.of_nat fuel -> u <= o ->
  exists a' fl' u', (dealloc_loop fuel m a i o u ≫= dealloc_rest) = Some (u', a') /\ page_count a' = page_count a /\ area_ok a' fl' /\ released fl i o fl' u' /\ u <= u'.
Proof.
  induction fuel as [|fuel IH]; intros a fl i o u Ha Hh Hfu Hu; [pose proof Hh as [(? & _) _]; lia|]. pose proof Hh as [Hin Hfree]. pose proof Hin as (Ho & Hd & H1 & H2).
  cbn [dealloc_loop]. destruct (Z.ltb_spec o m) as [Hom|Hom]; cbn [negb].
  - destruct (in_area_valid _ _ _ (ao_count _ _ Ha) Hin) as [Hv Hi0]. destruct (buddy_toggle_ok a i o Hv ltac:(lia)) as (a1 & -> & Hbs). cbn [mbind option_bind].
    pose proof (ao_bits _ _ Ha o i ltac:(lia) Hin) as Hbit. pose proof (hand_fresh _ _ _ _ Hh o Ho) as Hfr. destruct (bbit a i o) eqn:Eb; cbn [negb] in Hbs.
    + symmetry in Hbit. apply bool_decide_eq_true in Hbit as [?|Hbud]; [done|]. apply list_elem_of_split in Hbud as (l1 & l2 & E). pose proof (ao_blocks _ _ Ha) as Hbk.
      rewrite buddy_index by (done || lia). assert (Hbv : u16 (buddy i o) = buddy i o).
      { apply Z.mod_small. destruct (bk_in _ _ Hbk o (buddy i o) Ho ltac:(rewrite E; set_solver)) as (_ & _ & B1 & B2). pose proof (ao_count _ _ Ha). pose proof (pow2_pos o). unfold PAGE_INDEX_INVALID in *. lia. }
      rewrite Hbv. destruct (area_take a a1 fl (buddy i o) o l1 l2 Ha Ho E) as (a2 & -> & Hc2 & Ha2); [rewrite (proj2 (Z.ltb_lt _ _)) by lia; apply bit_set_buddy; done || lia|]. cbn [mbind option_bind].
      destruct (merged_block _ _ _ _ _ _ Hbk Hh Hom E) as [Hh2 Hx]. replace (if buddy i o <? i then buddy i o else i) with (Z.min i (buddy i o)) by (destruct (Z.ltb_spec (buddy i o) i); lia).
      rewrite <- Hc2 in Hh2. set (u2 := if bool_decide _ then o else u). destruct (IH a2 _ _ (o + 1) u2 Ha2 Hh2 ltac:(lia) ltac:(unfold u2; destruct (bool_decide _); lia)) as (a' & fl' & u' & -> & Hc' & Ha' & [Hq Hfr'] & Hu').
      exists a', fl', u'. split; [done|]. split; [congruence|]. split; [done|]. split; [|unfold u2 in Hu'; destruct (bool_decide _); lia]. split.
      * destruct Hq as (q & b & Hq & Hb & Hbi & Hbe & Hdb & Hp & Huq & Huq'). exists q, b. pose proof (Hx i) as Hxi. pose proof (Hx (i + 2 ^ o - 1)) as Hxe. pose proof (pow2_pos o ltac:(lia)).
        split; [lia|]. split; [done|]. split; [lia|]. split; [lia|]. split; [done|]. split; [intros p Hpq; rewrite Hp by lia; by apply fn_lookup_insert_ne; lia|].
        split; [done|]. intros Eq. apply Huq'. by rewrite fn_lookup_insert_ne by lia.
      * intros x. rewrite Hfr', Hx. destruct (blocks_remove _ _ _ _ _ _ Hbk Ho E) as (_ & _ & Hrm). rewrite Hrm.
        assert (Hbx : buddy i o <= x < buddy i o + 2 ^ o -> page_free fl x) by (intros Hbx; exists o, (buddy i o); split; [done|]; split; [rewrite E; set_solver|done]).
        destruct (decide (buddy i o <= x < buddy i o + 2 ^ o)); tauto.
    + symmetry in Hbit. apply bool_decide_eq_false in Hbit. destruct (put_released a a1 fl i o u Ha Hh ltac:(intros _ ?; apply Hbit; by right) ltac:(by rewrite (proj2 (Z.ltb_lt _ _)) by lia) Hu) as (a2 & fl' & -> & Hc2 & Ha2 & Hr).
      cbn [mbind option_bind dealloc_rest]. rewrite (proj2 (Z.eqb_neq _ _)) by lia. exists a2, fl', (if bool_decide (fl o = []) then o else u). split; [done|]. split; [done|]. split; [done|].
      split; [done|]. destruct (bool_decide _); lia.
  - cbn [mbind option_bind dealloc_rest]. rewrite (proj2 (Z.eqb_eq o m)) by lia.
    destruct (put_released a a fl i o u Ha Hh ltac:(lia) ltac:(by rewrite (proj2 (Z.ltb_ge _ _)) by lia) Hu) as (a2 & fl' & -> & Hc2 & Ha2 & Hr). cbn [mbind option_bind].
    exists a2, fl', (if bool_decide (fl o = []) then o else u). split; [done|]. split; [done|]. split; [done|]. split; [done|]. destruct (bool_decide _); lia.
Qed.

Lemma dealloc_page_ok a fl i o : area_ok a fl -> in_hand (page_count a) fl i o ->
  exists a' fl' u, pageheap_dealloc_page m a i o = Some (u, a') /\ page_count a' = page_count a /\ area_ok a' fl' /\ released fl i o fl' u /\ -1 <= u.
Proof.
  intros Ha Hh. pose proof Hh as [Hin _]. pose proof Hin as (Ho & _). destruct (in_area_valid _ _ _ (ao_count _ _ Ha) Hin) as [Hv _].
  unfold pageheap_dealloc_page. assert (u16 i = i) as -> by (by apply Z.mod_small). apply dealloc_loop_ok; [done|done|lia|lia].
Qed.

(** *** Releasing pages *)

Lemma pos_lsb_divides q : 0 <= pos_lsb q /\ (2 ^ pos_lsb q | Z.pos q).
Proof.
  induction q as [q _|q [IH1 [k IH2]]|]; cbn [pos_lsb]; [split; [lia|apply Z.divide_1_l]| |split; [lia|apply Z.divide_1_l]].
  split; [lia|]. exists k. rewrite pow2_succ by lia. rewrite (Pos2Z.inj_xO q), IH2. lia.
Qed.

Lemma pow_divides o p i : 0 <= o <= p -> (2 ^ p | i) -> (2 ^ o | i).
Proof. intros Ho Hi. apply (Z.divide_trans _ (2 ^ p)); [|done]. exists (2 ^ (p - o)). rewrite <- Z.pow_add_r by lia. f_equal. lia. Qed.

Lemma dealloc_order_ok i e : 0 <= i < e -> e <= 65536 -> e - i <= 2 ^ m ->
  0 <= dealloc_order i e <= m /\ (2 ^ dealloc_order i e | i) /\ i + 2 ^ dealloc_order i e <= e.
Proof.
  intros Hi He Hlen. unfold dealloc_order. rewrite (u32_small (e - i)) by lia. destruct (find_order_pow (e - i) m) as [Hf Hfp]; [lia..|]. set (f := find_order (e - i)) in *.
  assert (Hend : forall o, 0 <= o <= f -> (2 ^ o | i) -> (o = f \/ i + 2 ^ o <= e) ->
    0 <= (if e <? u64 (i + U32_FROM_BIT o) then o - 1 else o) <= m /\ (2 ^ (if e <? u64 (i + U32_FROM_BIT o) then o - 1 else o) | i) /\ i + 2 ^ (if e <? u64 (i + U32_FROM_BIT o) then o - 1 else o) <= e).
  { intros o Ho Hd Hor. rewrite from_bit by lia. pose proof (page_order_pow o). rewrite u64_small by lia. destruct (Z.ltb_spec e (i + 2 ^ o)) as [Hlt|]; [|split; [lia|]; split; [done|lia]].
    destruct Hor as [-> |]; [|lia]. assert (0 < f) by (destruct (Z.eq_dec f 0) as [E|]; [rewrite E in Hlt; change (2 ^ 0) with 1 in Hlt; lia|lia]).
    assert (2 ^ f = 2 * 2 ^ (f - 1)) by (rewrite <- pow2_succ by lia; f_equal; lia). split; [lia|]. split; [apply (pow_divides _ f); [lia|done]|lia]. }
  destruct i as [|q|]; [|..|lia].
  - change (s32 (lsb 0)) with (-1). cbn [Z.leb andb Z.compare]. apply Hend; [lia|apply Z.divide_0_r|by left].
  - cbn [lsb]. destruct (pos_lsb_divides q) as [Hq Hd]. assert (Hq16 : pos_lsb q < 17).
    { apply Z.divide_pos_le in Hd as Hle; [|lia]. apply (Z.pow_lt_mono_r_iff 2); lia. }
    rewrite s32_small by lia. rewrite (proj2 (Z.leb_le _ _)) by lia. cbn [andb]. destruct (Z.ltb_spec (pos_lsb q) f) as [Hlt|Hge].
    + apply Hend; [lia|done|]. right. pose proof (Z.pow_le_mono_r 2 (pos_lsb q + 1) f). rewrite pow2_succ in * by lia. lia.
    + apply Hend; [lia|apply (pow_divides _ (pos_lsb q)); [lia|done]|by left].
Qed.

(** The order of the largest free block, or -1. *)
Definition is_top (fl : Z -> list Z) (k : Z) : Prop := -1 <= k <= m /\ (forall p, k < p <= m -> fl p = []) /\ (0 <= k -> fl k <> []).

Lemma top_unique fl j k : is_top fl j -> is_top fl k -> j = k.
Proof.
  intros (Hj & Hj1 & Hj2) (Hk & Hk1 & Hk2). destruct (Z.lt_total j k) as [|[|]]; [|done|]; exfalso; [apply Hk2; [lia|apply Hj1; lia]|apply Hj2; [lia|apply Hk1; lia]].
Qed.

(** [u] tells whether the largest order has changed. *)
Definition top_moves (fl fl' : Z -> list Z) (u : Z) : Prop :=
  forall k, is_top fl k -> exists k', is_top fl' k' /\ k <= k' /\ u <= k' /\ (k' = k \/ u = k').

Lemma released_top fl i o fl' u : 0 <= o -> released fl i o fl' u -> top_moves fl fl' u.
Proof.
  intros Ho [(q & b & Hq & Hb & _ & _ & _ & Hp & Hu & Hu') _] k (Hk & Hk1 & Hk2). assert (Hne : fl' q <> []) by (intros E; rewrite E in Hb; by apply not_elem_of_nil in Hb).
  destruct (Z.le_gt_cases k q) as [Hkq|Hkq].
  - exists q. split; [split; [lia|]; split; [intros p Hpq; rewrite Hp by lia; apply Hk1; lia|done]|]. split; [done|]. split; [done|].
    destruct (Z.eq_dec k q) as [|Hn]; [by left|]. right. apply Hu', Hk1. lia.
  - exists k. split; [split; [lia|]; split; [intros p Hpk; rewrite Hp by lia; apply Hk1; lia|intros _; rewrite Hp by lia; apply Hk2; lia]|]. split; [lia|]. split; [lia|by left].
Qed.

Lemma top_moves_trans fl fl1 fl2 u1 u2 : top_moves fl fl1 u1 -> top_moves fl1 fl2 u2 -> top_moves fl fl2 (Z.max u1 u2).
Proof.
  intros H1 H2 k Hk. destruct (H1 k Hk) as (k1 & Hk1 & L1 & U1 & C1). destruct (H2 k1 Hk1) as (k2 & Hk2 & L2 & U2 & C2). exists k2. split; [done|]. lia.
Qed.

(** The lists of the orders from [c] on do not change when a page that shares its block of
    order [c] with the released ones stays in use. *)
Definition kept (fl fl' : Z -> list Z) (i e : Z) : Prop :=
  forall c z, 0 <= c <= m -> (forall x, i <= x < e -> x / 2 ^ c = z / 2 ^ c) -> ~ page_free fl' z -> forall p, c <= p <= m -> fl' p = fl p.

Lemma released_kept fl i o fl' u : 0 <= o -> released fl i o fl' u -> kept fl fl' i (i + 2 ^ o).
Proof.
  intros Ho [(q & b & Hq & Hb & Hbi & Hbe & Hdb & Hp & _) _] c z Hc Hz Hnf p Hpc. apply Hp. destruct (Z.lt_ge_cases q p) as [|Hge]; [done|]. exfalso. apply Hnf.
  exists q, b. split; [lia|]. split; [done|]. pose proof (pow2_pos o Ho). pose proof (pow2_pos q ltac:(lia)). pose proof (pow2_pos c ltac:(lia)).
  specialize (Hz i ltac:(lia)). destruct Hdb as [j ->]. assert (Ei : i / 2 ^ q = j) by (symmetry; apply (Z.div_unique _ _ _ (i - j * 2 ^ q)); lia).
  assert (Ez : z / 2 ^ q = j).
  { replace q with (c + (q - c)) by lia. rewrite Z.pow_add_r, <- Z.div_div by (lia || apply pow2_pos; lia). rewrite <- Hz. rewrite Z.div_div by (lia || apply pow2_pos; lia).
    rewrite <- Z.pow_add_r by lia. by replace (c + (q - c)) with q by lia. }
  pose proof (Z.div_mod z (2 ^ q)). pose proof (Z.mod_pos_bound z (2 ^ q)). lia.
Qed.

Lemma dealloc_blocks_ok fuel : forall a fl i e u, area_ok a fl -> off <= i < e -> e <= page_count a -> e - i <= 2 ^ m -> (forall x, i <= x < e -> ~ page_free fl x) ->
  e - i <= Z.of_nat fuel -> -1 <= u ->
  exists a' fl' u', dealloc_blocks fuel m a i e u = Some (Z.max u u', a') /\ page_count a' = page_count a /\ area_ok a' fl' /\ -1 <= u' /\
    (forall x, page_free fl' x <-> page_free fl x \/ i <= x < e) /\ top_moves fl fl' u' /\ kept fl fl' i e.
Proof.
  induction fuel as [|fuel IH]; intros a fl i e u Ha Hi He Hlen Hf Hfu Hu; [lia|]. cbn [dealloc_blocks]. pose proof (ao_count _ _ Ha) as Hcnt. unfold PAGE_INDEX_INVALID in Hcnt.
  destruct (dealloc_order_ok i e ltac:(lia) ltac:(lia) Hlen) as (Ho & Hd & Hie). set (o := dealloc_order i e) in *. pose proof (pow2_pos o ltac:(lia)).
  destruct (dealloc_page_ok a fl i o Ha) as (a1 & fl1 & u1 & -> & Hc1 & Ha1 & Hr & Hu1); [split; [split; [lia|split; [done|lia]]|intros x Hx; apply Hf; lia]|]. cbn [mbind option_bind].
  rewrite from_bit by lia. rewrite u32_small by lia. pose proof (released_top fl i o fl1 u1 ltac:(lia) Hr) as Ht. pose proof (released_kept fl i o fl1 u1 ltac:(lia) Hr) as Hk. destruct Hr as [_ Hfr].
  destruct (Z.ltb_spec (i + 2 ^ o) e) as [Hlt|Hge].
  - destruct (IH a1 fl1 (i + 2 ^ o) e (Z.max u u1)) as (a' & fl' & u' & -> & Hc' & Ha' & Hu' & Hfr' & Ht' & Hk'); [done|lia|lia|lia|intros x Hx; rewrite Hfr; intros [Hx'|]; [by apply (Hf x); [lia|]|lia]|lia|lia|].
    exists a', fl', (Z.max u1 u'). split; [by rewrite Z.max_assoc|]. split; [congruence|]. split; [done|]. split; [lia|]. split.
    { intros x. rewrite Hfr', Hfr. split; [intros [[|]|]; [by left|right; lia..]|]. intros [|]; [by left; left|]. destruct (Z.lt_ge_cases x (i + 2 ^ o)); [left; right|right]; lia. }
    split; [by apply (top_moves_trans fl fl1)|]. intros c z Hc Hz Hnf p Hp.
    rewrite (Hk' c z Hc ltac:(intros x Hx; apply Hz; lia) Hnf p Hp). apply (Hk c z Hc); [intros x Hx; apply Hz; lia| |done]. intros Hz1. apply Hnf, Hfr'. by left.
  - exists a1, fl1, u1. replace (i + 2 ^ o) with e in * by lia. split; [done|]. split; [done|]. split; [done|]. split; [done|]. split; [done|]. split; [done|done].
Qed.

Lemma dealloc_locked_ok a fl i c : area_ok a fl -> off <= i -> 0 < c <= 2 ^ m -> i + c <= page_count a -> (forall x, i <= x < i + c -> ~ page_free fl x) ->
  exists a' fl' u, pageheap_dealloc_locked m a i c = Some (u, a') /\ page_count a' = page_count a /\ area_ok a' fl' /\ -1 <= u /\
    (forall x, page_free fl' x <-> page_free fl x \/ i <= x < i + c) /\ top_moves fl fl' u /\ kept fl fl' i (i + c).
Proof.
  intros Ha Hi Hc He Hf. pose proof (page_order_pow m Hm). pose proof (ao_count _ _ Ha) as Hcnt. unfold PAGE_INDEX_INVALID in Hcnt. unfold pageheap_dealloc_locked.
  assert (u16 c = c) as -> by (apply Z.mod_small; lia). rewrite u32_small by lia.
  destruct (dealloc_blocks_ok (S (Z.to_nat c)) a fl i (i + c) (-1)) as (a' & fl' & u & -> & Hr); [done|lia|lia|lia|done|lia|lia|]. exists a', fl', u.
  destruct Hr as (Hc' & Ha' & Hu & Hr). split; [by rewrite Z.max_r by lia|done].
Qed.

(** *** Allocating pages *)

Lemma first_empty a fl o : area_ok a fl -> 0 <= o <= m -> (first a o =? PAGE_INDEX_INVALID) = bool_decide (fl o = []).
Proof.
  intros Ha Ho. apply (first_of_seg (free_pages a) PAGE_INDEX_INVALID); [by apply (ao_lists _ _ Ha)|]. intros x Hx.
  pose proof (sp_range _ _ _ (blocks_separate _ _ (ao_blocks _ _ Ha)) o x Ho Hx). pose proof (ao_count _ _ Ha). lia.
Qed.

Lemma find_top_ok a fl k n : forall o, area_ok a fl -> is_top fl k -> k <= o <= m -> Z.of_nat n <= o + 1 ->
  find_top n a o = Some (if o - Z.of_nat n <? k then Some k else None).
Proof.
  induction n as [|n IH]; intros o Ha Hk Ho Hn; cbn [find_top]; [by rewrite (proj2 (Z.ltb_ge _ _)) by lia|].
  pose proof Hk as (Hk0 & Hk1 & Hk2). rewrite (get_first_ok m Hm) by lia. cbn [mbind option_bind]. rewrite (first_empty a fl) by (done || lia).
  destruct (decide (o = k)) as [-> |Hne].
  - rewrite bool_decide_false by (apply Hk2; lia). cbn [negb]. by rewrite (proj2 (Z.ltb_lt _ _)) by lia.
  - rewrite bool_decide_true by (apply Hk1; lia). cbn [negb]. rewrite IH by (done || lia). by replace (o - 1 - Z.of_nat n) with (o - Z.of_nat (S n)) by lia.
Qed.

Lemma find_free_ok a fl k n : forall o, area_ok a fl -> is_top fl k -> 0 <= o <= k -> k - o < Z.of_nat n ->
  exists i f l, find_free n a o = Some (i, f) /\ o <= f <= k /\ fl f = i :: l.
Proof.
  induction n as [|n IH]; intros o Ha Hk Ho Hn; [lia|]. cbn [find_free]. pose proof Hk as (Hk0 & Hk1 & Hk2). rewrite (get_first_ok m Hm) by lia. cbn [mbind option_bind].
  rewrite (first_empty a fl) by (done || lia). destruct (fl o) as [|i l] eqn:E.
  - rewrite bool_decide_true by done. cbn [negb]. assert (o <> k) by (intros ->; by apply Hk2; [lia|]).
    destruct (IH (o + 1)) as (i & f & l & -> & Hf & El); [done|done|lia|lia|]. exists i, f, l. split; [done|]. split; [lia|done].
  - rewrite bool_decide_false by done. cbn [negb]. exists i, o, l. pose proof (ao_lists _ _ Ha o ltac:(lia)) as Hs. rewrite E in Hs. destruct Hs as (-> & _). split; [done|]. split; [lia|done].
Qed.

Lemma split_block_ok n : forall a fl i o, area_ok a fl -> 0 <= o -> in_hand (page_count a) fl i (o + Z.of_nat n) ->
  exists a' fl', split_block n a i o = Some a' /\ page_count a' = page_count a /\ area_ok a' fl' /\
    (forall x, page_free fl' x <-> page_free fl x \/ i + 2 ^ o <= x < i + 2 ^ (o + Z.of_nat n)) /\ forall p, o + Z.of_nat n <= p -> fl' p = fl p.
Proof.
  induction n as [|n IH]; intros a fl i o Ha Ho Hh; cbn [split_block].
  { exists a, fl. split; [done|]. split; [done|]. split; [done|]. split; [|done]. intros x. rewrite Z.add_0_r. split; [by left|intros [|]; [done|lia]]. }
  set (f := o + Z.of_nat n) in *. replace (o + Z.of_nat (S n)) with (f + 1) in * by (unfold f; lia). pose proof Hh as [Hin Hf]. pose proof Hin as (Hfm & Hd & H1 & H2).
  pose proof (pow2_succ f ltac:(lia)) as H2f. pose proof (pow2_pos f ltac:(lia)). assert (Hdf : (2 ^ f | i)) by (apply (pow_divides _ (f + 1)); [lia|done]).
  assert (Eb : buddy i f = i + 2 ^ f).
  { destruct (buddy_cases i f ltac:(lia) Hdf) as [[_ E]|[[j Hj] _]]; [done|]. destruct Hd as [l El]. exfalso. rewrite H2f in *. apply (odd_half l j (2 ^ f)); lia. }
  destruct (in_area_valid _ _ _ (ao_count _ _ Ha) Hin) as [Hv Hi0]. destruct (buddy_set_ok a i f Hv ltac:(lia)) as (a1 & -> & Hbs). cbn [mbind option_bind].
  rewrite buddy_index, Eb by (done || lia). pose proof (ao_count _ _ Ha) as Hcnt. unfold PAGE_INDEX_INVALID in Hcnt. assert (u16 (i + 2 ^ f) = i + 2 ^ f) as -> by (apply Z.mod_small; lia).
  assert (Hbb : buddy (i + 2 ^ f) f = i) by (rewrite <- Eb; apply buddy_buddy; [lia|done]).
  assert (Hh' : in_hand (page_count a) fl (i + 2 ^ f) f) by (split; [split; [lia|]; split; [rewrite <- Eb; apply buddy_aligned; [lia|done]|lia]|intros x Hx; apply Hf; lia]).
  destruct (area_put a a1 fl (i + 2 ^ f) f Ha Hh') as (a2 & -> & Hc2 & Ha2); [rewrite Hbb; intros _; apply (hand_fresh _ _ _ _ Hh); lia|rewrite (proj2 (Z.ltb_lt _ _)) by lia; rewrite <- Eb; apply bit_set_buddy; done || lia|].
  destruct (blocks_insert _ _ f (i + 2 ^ f) (ao_blocks _ _ Ha) Hh') as [_ Hfr]; [rewrite Hbb; intros _; apply (hand_fresh _ _ _ _ Hh); lia|]. cbn [mbind option_bind].
  destruct (IH a2 (<[f := (i + 2 ^ f) :: fl f]> fl) i o Ha2 Ho) as (a' & fl' & -> & Hc' & Ha' & Hfr' & Hp').
  { fold f. rewrite Hc2. split; [split; [lia|split; [done|lia]]|]. intros x Hx. rewrite Hfr. intros [Hx'|]; [apply (Hf x); [lia|done]|lia]. }
  fold f in Hfr', Hp'. exists a', fl'. split; [done|]. split; [congruence|]. split; [done|]. pose proof (Z.pow_le_mono_r 2 o f ltac:(lia) ltac:(lia)). split.
  - intros x. rewrite Hfr', Hfr. split; [intros [[|]|]; [by left|right; lia..]|]. intros [|]; [by left; left|]. destruct (Z.lt_ge_cases x (i + 2 ^ f)); [right|left; right]; lia.
  - intros p Hp. rewrite Hp' by lia. by rewrite fn_lookup_insert_ne by lia.
Qed.

(** What is left of a block when [c] pages at its start are taken. *)
Lemma trim_ok a fl i o c : area_ok a fl -> in_hand (page_count a) fl i o -> 0 < c <= 2 ^ o ->
  exists a' fl', (if c <? 2 ^ o then '(_, a) ← pageheap_dealloc_locked m a (u32 (i + c)) (2 ^ o - c); Some a else Some a) = Some a' /\ page_count a' = page_count a /\ area_ok a' fl' /\
    (forall x, page_free fl' x <-> page_free fl x \/ i + c <= x < i + 2 ^ o) /\ forall p, o <= p <= m -> fl' p = fl p.
Proof.
  intros Ha [(Ho & Hd & H1 & H2) Hf] Hc. pose proof (ao_count _ _ Ha) as Hcnt. unfold PAGE_INDEX_INVALID in Hcnt. destruct (Z.ltb_spec c (2 ^ o)) as [Hlt|Hge].
  - rewrite u32_small by lia. pose proof (Z.pow_le_mono_r 2 o m ltac:(lia) ltac:(lia)).
    destruct (dealloc_locked_ok a fl (i + c) (2 ^ o - c)) as (a' & fl' & u & -> & Hc' & Ha' & _ & Hfr & _ & Hk); [done|lia|lia|lia|intros x Hx; apply Hf; lia|]. cbn [mbind option_bind].
    replace (i + c + (2 ^ o - c)) with (i + 2 ^ o) in * by lia. exists a', fl'. split; [done|]. split; [done|]. split; [done|]. split; [done|]. apply (Hk o i Ho).
    + intros x Hx. destruct Hd as [j ->]. rewrite Z.div_mul by lia. symmetry. apply (Z.div_unique _ _ _ (x - j * 2 ^ o)); lia.
    + rewrite Hfr. intros [Hx|]; [|lia]. apply (Hf i); [lia|done].
  - exists a, fl. split; [done|]. split; [done|]. split; [done|]. split; [|done]. intros x. split; [by left|intros [|]; [done|lia]].
Qed.

Lemma take_pages_ok a fl k o c : area_ok a fl -> is_top fl k -> 0 <= o <= k -> 0 < c <= 2 ^ o ->
  exists i f l a' fl', take_pages m a o c = Some (i, f, bool_decide (l = []), a') /\ page_count a' = page_count a /\ area_ok a' fl' /\
    o <= f <= k /\ fl f = i :: l /\ fl' f = l /\ (forall p, f < p <= m -> fl' p = fl p) /\
    (2 ^ o | i) /\ off <= i /\ i + c <= page_count a /\ (forall x, i <= x < i + c -> page_free fl x) /\
    forall x, page_free fl' x <-> page_free fl x /\ ~ i <= x < i + c.
Proof.
  intros Ha Hk Ho Hc. pose proof Hk as (Hkm & _). unfold take_pages. destruct (find_free_ok a fl k (Z.to_nat (m - o + 1)) o Ha Hk Ho ltac:(lia)) as (i & f & l & -> & Hf & El). cbn [mbind option_bind].
  pose proof (ao_blocks _ _ Ha) as Hbk. pose proof (bk_in _ _ Hbk f i ltac:(lia) ltac:(rewrite El; left)) as Hin. destruct (in_area_valid _ _ _ (ao_count _ _ Ha) Hin) as [Hv _].
  assert (H1 : exists a1, (if f <? m then page_buddy_clear a i f else Some a) = Some a1 /\ if f <? m then bit_set a i f false a1 else a1 = a).
  { destruct (f <? m); [apply buddy_clear_ok; [done|lia]|by exists a]. }
  destruct H1 as (a1 & -> & Hbit). cbn [mbind option_bind]. destruct (area_take a a1 fl i f [] l Ha ltac:(lia) El Hbit) as (a2 & -> & Hc2 & Ha2). cbn [mbind option_bind app] in *.
  destruct (blocks_remove _ _ f i [] l Hbk ltac:(lia) El) as (_ & Hh & Hfr2). cbn [app] in *. set (fl2 := <[f := l]> fl) in *.
  destruct (split_block_ok (Z.to_nat (f - o)) a2 fl2 i o Ha2 ltac:(lia)) as (a3 & fl3 & -> & Hc3 & Ha3 & Hfr3 & Hp3); [replace (o + Z.of_nat (Z.to_nat (f - o))) with f by lia; by rewrite Hc2|].
  replace (o + Z.of_nat (Z.to_nat (f - o))) with f in * by lia. cbn [mbind option_bind]. rewrite U64_FROM_BIT_pow by lia. pose proof Hin as (_ & Hd & I1 & I2).
  pose proof (Z.pow_le_mono_r 2 o f ltac:(lia) ltac:(lia)). assert (Hh3 : in_hand (page_count a3) fl3 i o).
  { split; [split; [lia|]; split; [apply (pow_divides _ f); [lia|done]|lia]|]. intros x Hx. rewrite Hfr3. intros [Hx'|]; [|lia]. destruct Hh as [_ Hh]. by apply (Hh x); [lia|]. }
  destruct (trim_ok a3 fl3 i o c Ha3 Hh3 Hc) as (a' & fl' & -> & Hc' & Ha' & Hfr' & Hp'). cbn [mbind option_bind].
  exists i, f, l, a', fl'. split; [done|]. split; [congruence|]. split; [done|]. split; [done|]. split; [done|].
  split; [rewrite Hp', Hp3 by lia; by apply fn_lookup_insert|]. split; [intros p Hp; rewrite Hp', Hp3 by lia; apply fn_lookup_insert_ne; lia|].
  split; [apply Hh3|]. split; [done|]. split; [lia|]. assert (Hall : forall x, i <= x < i + 2 ^ f -> page_free fl x) by (intros x Hx; exists f, i; split; [lia|]; split; [rewrite El; left|done]).
  split; [intros x Hx; apply Hall; lia|]. intros x. rewrite Hfr', Hfr3, Hfr2. split.
  - intros [[[? ?]|?]|?]; [split; [done|lia]|split; [apply Hall; lia|lia]..].
  - intros [Hx Hn]. destruct (decide (i <= x < i + 2 ^ f)); [|by left; left]. destruct (Z.lt_ge_cases x (i + 2 ^ o)); [right; lia|left; right; lia].
Qed.
End Blocks.
