(* ===== verification/BuddyInit.v ===== *)
(** New areas of the page heap of Buddy.v: their size, their first blocks. *)

From stdpp Require Import functions.
From S2P Require Import Prelude Words Dlist Buddy BuddyArea.

(** ** The size of an area *)

(** The pages of a header. *)
Definition header_pages (n : Z) : Z := (8232 + 4 * n - 1) / 4096 + 1.

Lemma header_size n : 0 <= n <= 2 ^ 20 -> pageheap_header_size n = 4096 * header_pages n.
Proof.
  intros Hn. unfold pageheap_header_size, sizeof_area, sizeof_elem. rewrite (u64_small (4 * n)), (u64_small (8232 + 4 * n)) by lia. change PAGESIZE with (2 ^ 12).
  unfold pad. rewrite (u64_small (_ - 1)) by lia. rewrite land_clear_low by lia. change (2 ^ 12) with 4096. unfold header_pages.
  pose proof (Z.mul_div_le (8232 + 4 * n - 1) 4096). pose proof (Z.div_pos (8232 + 4 * n - 1) 4096). rewrite u64_small; lia.
Qed.

Lemma header_mono n n' : n <= n' -> header_pages n <= header_pages n'.
Proof. intros Hn. unfold header_pages. apply Z.add_le_mono_r, Z.div_le_mono; lia. Qed.

Lemma header_min n : 1 <= n <= 1014 -> header_pages n = 3.
Proof. intros Hn. pose proof (header_mono 1 n ltac:(lia)). pose proof (header_mono n 1014 ltac:(lia)). change (header_pages 1) with 3 in *. change (header_pages 1014) with 3 in *. lia. Qed.

Lemma header_max n : 1 <= n <= 65536 -> 3 <= header_pages n <= 67.
Proof. intros Hn. pose proof (header_mono 1 n ltac:(lia)). pose proof (header_mono n 65536 ltac:(lia)). change (header_pages 1) with 3 in *. change (header_pages 65536) with 67 in *. lia. Qed.

Lemma header_step n d : 1 <= d -> header_pages n - header_pages (n - d) <= d.
Proof.
  intros Hd. unfold header_pages. replace (8232 + 4 * n - 1) with (8232 + 4 * (n - d) - 1 + 4 * d) by lia. set (x := 8232 + 4 * (n - d) - 1).
  pose proof (Z.div_mod x 4096). pose proof (Z.mod_pos_bound x 4096). assert ((x + 4 * d) / 4096 < x / 4096 + d + 1); [|lia]. apply Z.div_lt_upper_bound; lia.
Qed.

Section Size.
Context (m start end' : Z) (Hm : 0 <= m <= 9) (Hs : 0 <= start) (He : start + 4 <= end') (He' : end' < 2 ^ 52).

(** The first page after the header of an area of [n] pages, and its index. *)
Definition first_page (n : Z) : Z := start + header_pages n.
Definition first_index (n : Z) : Z := first_page n mod 2 ^ m.

Lemma first_index_bound n : 0 <= first_index n < 2 ^ m.
Proof. apply Z.mod_pos_bound, pow2_pos. lia. Qed.

Lemma align_mask : u16 (MASK32 m) = 2 ^ m - 1.
Proof.
  unfold MASK32. rewrite from_bit by lia. pose proof (page_order_pow m Hm). rewrite u64_small by lia. apply Z.mod_small. lia.
Qed.

Lemma page_offset n : 1 <= n <= 65536 -> u16 (Z.land (u64 (start + header_pages n)) (2 ^ m - 1)) = first_index n.
Proof.
  intros Hn. pose proof (header_max n Hn). rewrite u64_small by lia. replace (2 ^ m - 1) with (Z.ones m) by (rewrite Z.ones_equiv; lia). rewrite Z.land_ones by lia.
  pose proof (first_index_bound n). pose proof (page_order_pow m Hm). apply Z.mod_small. unfold first_index, first_page in *. lia.
Qed.

(** The result fits, and has a page. *)
Definition fits (n : Z) : Prop := first_index n < n <= 65536 /\ first_page n - first_index n + n <= end'.

(** One round: what is tried next is smaller, or the header is. *)
Definition next_count (n d : Z) : Z :=
  let hd := header_pages n - header_pages (n - d) in
  if hd =? 0 then n - d else if 2 ^ m - 1 <? d - hd then n - (d - hd - (2 ^ m - 1)) else n - 1.

Lemma next_count_ok n d : first_index n < n <= 65536 -> d = first_page n - first_index n + n - end' -> 1 <= d < n ->
  first_index (next_count n d) < next_count n d /\ next_count n d < n.
Proof.
  intros Hn Ed Hd. pose proof (header_step n d ltac:(lia)). pose proof (header_mono (n - d) n ltac:(lia)). pose proof (first_index_bound n) as Hfi. pose proof (page_order_pow m Hm).
  unfold next_count. destruct (Z.eqb_spec (header_pages n - header_pages (n - d)) 0) as [E0|E0].
  - split; [|lia]. unfold first_index, first_page in *. replace (header_pages (n - d)) with (header_pages n) by lia. destruct (Z.le_gt_cases (n - d) 511) as [Hle|]; [|lia].
    assert (Eh : header_pages (n - d) = 3) by (apply header_min; lia). lia.
  - destruct (Z.ltb_spec (2 ^ m - 1) (d - (header_pages n - header_pages (n - d)))) as [Hlt|Hge].
    + split; [|lia]. pose proof (first_index_bound (n - (d - (header_pages n - header_pages (n - d)) - (2 ^ m - 1)))). lia.
    + split; [|lia]. destruct (Z.le_gt_cases n 512) as [Hle|]; [|pose proof (first_index_bound (n - 1)); lia]. exfalso. rewrite (header_min n), (header_min (n - d)) in E0 by lia. lia.
Qed.

Lemma check_area_size_ok fuel : forall n, first_index n < n <= 65536 -> n + (if header_pages n =? 3 then 0 else 1024) < Z.of_nat fuel ->
  exists n', check_area_size fuel m start end' n = Some (n', first_index n', pageheap_header_size n') /\ fits n'.
Proof.
  induction fuel as [|fuel IH]; intros n Hn Hfu; [pose proof (first_index_bound n); destruct (_ =? 3); lia|]. pose proof (first_index_bound n) as Hfi. pose proof (page_order_pow m Hm) as H2m.
  pose proof (header_max n ltac:(lia)) as Hh. cbn [check_area_size]. rewrite align_mask, header_size by lia. change PAGESIZE with 4096. rewrite (Z.mul_comm 4096 (header_pages n)), Z.div_mul by lia.
  rewrite page_offset by lia. change (start + header_pages n) with (first_page n). rewrite (u64_small (first_page n)) by (unfold first_page in *; lia).
  rewrite (u64_small (_ + n)) by (unfold first_page in *; lia). set (d := first_page n - first_index n + n - end') in *. destruct (Z.ltb_spec end' (first_page n - first_index n + n)) as [Hlt|Hge].
  - assert (Hd : 1 <= d < 2 ^ 32) by (unfold d, first_page in *; lia). rewrite (u32_small d) by lia. destruct (Z.leb_spec n d) as [Hnd|Hnd].
    + assert (Hne : header_pages n <> 3) by (intros E3; unfold d, first_page in *; lia). rewrite (proj2 (Z.eqb_neq _ _)) in Hfu by done.
      rewrite u32_small by lia. apply IH; [pose proof (first_index_bound (2 ^ m - 1 + header_pages n)); lia|]. rewrite (header_min (2 ^ m - 1 + header_pages n)) by lia. cbn [Z.eqb Pos.eqb]. lia.
    + destruct (next_count_ok n d Hn eq_refl ltac:(lia)) as [Hn1 Hn2]. pose proof (first_index_bound (next_count n d)).
      assert (E : forall x, x = next_count n d -> (exists n', check_area_size fuel m start end' (u32 x) = Some (n', first_index n', pageheap_header_size n') /\ fits n')).
      { intros x ->. rewrite u32_small by lia. apply IH; [lia|]. pose proof (header_mono (next_count n d) n ltac:(lia)). pose proof (header_max (next_count n d) ltac:(lia)).
        destruct (Z.eqb_spec (header_pages (next_count n d)) 3), (Z.eqb_spec (header_pages n) 3); lia. }
      pose proof (header_step n d ltac:(lia)). pose proof (header_mono (n - d) n ltac:(lia)). apply E. unfold next_count.
      rewrite (u32_small (n - d)), header_size by lia. rewrite u64_small by (pose proof (header_max (n - d) ltac:(lia)); lia).
      replace (header_pages n * 4096 - 4096 * header_pages (n - d)) with ((header_pages n - header_pages (n - d)) * 4096) by lia. rewrite Z.div_mul by lia.
      destruct (Z.eqb_spec (header_pages n - header_pages (n - d)) 0) as [-> |Hhd]; [done|]. rewrite (proj2 (Z.eqb_neq _ _)) by lia. cbn [negb].
      rewrite (u32_small (d - _)) by lia. destruct (Z.ltb_spec (2 ^ m - 1) (d - (header_pages n - header_pages (n - d)))); [|done]. by rewrite u32_small by lia.
  - exists n. rewrite header_size by lia. split; [by rewrite Z.mul_comm|]. split; [done|lia].
Qed.

Lemma area_size : exists n, check_area_size (Z.to_nat (2 * PAGEHEAP_AREA_MAX_PAGES)) m start end' PAGEHEAP_AREA_MAX_PAGES = Some (n, first_index n, pageheap_header_size n) /\ fits n.
Proof.
  apply check_area_size_ok; [pose proof (first_index_bound PAGEHEAP_AREA_MAX_PAGES); pose proof (page_order_pow m Hm); change PAGEHEAP_AREA_MAX_PAGES with 65536 in *; lia|].
  change PAGEHEAP_AREA_MAX_PAGES with 65536. cbn [Z.eqb]. destruct (_ =? 3); lia.
Qed.
End Size.

(** ** The largest blocks of an area *)

Lemma dyadic_nested i o j p x : 0 <= o <= p -> (2 ^ o | i) -> (2 ^ p | j) -> i <= x < i + 2 ^ o -> j <= x < j + 2 ^ p -> j <= i /\ i + 2 ^ o <= j + 2 ^ p.
Proof.
  intros Ho [a ->] Hj Hi Hx. pose proof (pow2_pos o ltac:(lia)). destruct (pow_divides o p j Ho Hj) as [c ->]. replace (2 ^ p) with (2 ^ (p - o) * 2 ^ o) in * by (rewrite <- Z.pow_add_r by lia; f_equal; lia).
  assert (c <= a) by nia. assert (a < c + 2 ^ (p - o)) by nia. nia.
Qed.

(** Whether a block is the first of its pair. *)
Definition is_first (i o : Z) : bool := i mod 2 ^ (o + 1) =? 0.

Lemma is_first_spec i o : 0 <= o -> is_first i o = true <-> (2 ^ (o + 1) | i).
Proof. intros Ho. unfold is_first. rewrite Z.eqb_eq. apply Z.mod_divide. pose proof (pow2_pos (o + 1)). lia. Qed.

Lemma buddy_is_first i o : 0 <= o -> (2 ^ o | i) -> buddy i o = if is_first i o then i + 2 ^ o else i - 2 ^ o.
Proof.
  intros Ho Hd. pose proof (pow2_pos o Ho). destruct (is_first i o) eqn:E.
  - apply is_first_spec in E; [|done]. destruct (buddy_cases i o Ho Hd) as [[_ ->]|[[k Hk] _]]; [done|]. destruct E as [l El]. exfalso. rewrite pow2_succ in * by done. apply (odd_half l k (2 ^ o)); lia.
  - destruct (buddy_cases i o Ho Hd) as [[Hk _]|[_ ->]]; [|done]. apply is_first_spec in Hk; [congruence|done].
Qed.

Lemma buddy_first_eq i o : 0 <= i < 2 ^ 32 -> 0 <= o <= 9 -> (2 ^ o | i) -> (i =? page_buddy_first i o) = is_first i o.
Proof.
  intros Hi Ho Hd. pose proof (page_order_pow o Ho). unfold page_buddy_first. rewrite from_bit by lia.
  assert (Ht : Z.testbit i o = negb (is_first i o)).
  { destruct Hd as [k ->]. rewrite Z.testbit_odd, Z.shiftr_div_pow2, Z.div_mul by lia. unfold is_first. rewrite pow2_succ by lia. rewrite Z.mul_mod_distr_r by lia. rewrite Zmod_odd. by destruct (Z.odd k); destruct (2 ^ o) eqn:E2; try lia. }
  assert (Hb : forall n, 0 <= n -> Z.testbit (Z.land i (u64 (Z.lnot (2 ^ o)))) n = if decide (n = o) then false else Z.testbit i n).
  { intros n Hn. destruct (Z.lt_ge_cases n 64) as [Hlt|Hge]; [apply testbit_clear_pow; lia|]. rewrite Z.land_spec, (testbit_above i) by lia. by destruct (decide (n = o)). }
  destruct (is_first i o); cbn [negb] in Ht; [apply Z.eqb_eq|apply Z.eqb_neq].
  - apply Z.bits_inj'. intros n Hn. rewrite Hb by done. by destruct (decide (n = o)) as [-> |].
  - intros E. rewrite E, Hb, decide_True in Ht by (done || lia). done.
Qed.

Section Init.
Context (m off n : Z) (Hm : 0 <= m <= 9) (Hoff : 0 <= off < n) (Hn : n <= PAGE_INDEX_INVALID).

Notation in_area := (in_area m off n).

(** The block of the next order with [i] in it. *)
Definition parent_of (i o : Z) : Z := Z.min i (buddy i o).

Lemma parent_spec i o : 0 <= o -> (2 ^ o | i) -> (2 ^ (o + 1) | parent_of i o) /\ parent_of i o <= i /\ i + 2 ^ o <= parent_of i o + 2 ^ (o + 1) /\
  parent_of i o <= buddy i o /\ buddy i o + 2 ^ o <= parent_of i o + 2 ^ (o + 1).
Proof.
  intros Ho Hd. pose proof (pow2_pos o Ho). pose proof (pow2_succ o Ho). unfold parent_of. destruct (buddy_cases i o Ho Hd) as [[Hk E]|[Hk E]]; rewrite E; rewrite ?Z.min_l, ?Z.min_r by lia; (split; [done|lia]).
Qed.

(** The blocks that are in no larger one. *)
Definition maximal (i o : Z) : Prop := in_area i o /\ (o < m -> ~ in_area (parent_of i o) (o + 1)).

Lemma maximal_over i o j p x : maximal i o -> in_area j p -> i <= x < i + 2 ^ o -> j <= x < j + 2 ^ p -> p <= o /\ i <= j /\ j + 2 ^ p <= i + 2 ^ o.
Proof.
  intros [(Ho & Hd & H1 & H2) Hmax] (Hp & Hdj & J1 & J2) Hx Hy. destruct (Z.le_gt_cases p o) as [Hle|Hgt].
  - split; [done|]. apply (dyadic_nested j p i o x); [lia|done..].
  - exfalso. destruct (parent_spec i o ltac:(lia) Hd) as (Hdp & P1 & P2 & _). destruct (dyadic_nested (parent_of i o) (o + 1) j p x) as [Q1 Q2]; [lia|done|done|lia|done|].
    apply Hmax; [lia|]. split; [lia|]. split; [done|lia].
Qed.

Lemma maximal_unique i o j p x : maximal i o -> maximal j p -> i <= x < i + 2 ^ o -> j <= x < j + 2 ^ p -> o = p /\ i = j.
Proof.
  intros Hi Hj Hx Hy. destruct (maximal_over i o j p x Hi (proj1 Hj) Hx Hy) as (H1 & H2 & H3). destruct (maximal_over j p i o x Hj (proj1 Hi) Hy Hx) as (H4 & H5 & H6). lia.
Qed.

Lemma both_in_area i o : o < m -> in_area i o -> in_area (buddy i o) o -> in_area (parent_of i o) (o + 1).
Proof.
  intros Hom (Ho & Hd & H1 & H2) (_ & _ & B1 & B2). destruct (parent_spec i o ltac:(lia) Hd) as (Hdp & _). split; [lia|]. split; [done|]. pose proof (pow2_succ o ltac:(lia)). unfold parent_of.
  destruct (buddy_cases i o ltac:(lia) Hd) as [[_ E]|[_ E]]; rewrite E in *; rewrite ?Z.min_l, ?Z.min_r by (pose proof (pow2_pos o); lia); lia.
Qed.

(** A block without its buddy in the area is maximal, and not otherwise. *)
Lemma maximal_buddy i o : o < m -> in_area i o -> maximal i o <-> ~ in_area (buddy i o) o.
Proof.
  intros Hom Hin. split.
  - intros [_ Hmax] Hb. apply Hmax; [done|]. by apply both_in_area.
  - intros Hb. split; [done|]. intros _ (_ & _ & P1 & P2). apply Hb. destruct Hin as (Ho & Hd & _). destruct (parent_spec i o ltac:(lia) Hd) as (_ & _ & _ & Q1 & Q2).
    split; [lia|]. split; [apply buddy_aligned; [lia|done]|lia].
Qed.

Lemma maximal_exists k : forall i o, in_area i o -> m - o = Z.of_nat k -> exists j p, maximal j p /\ j <= i /\ i + 2 ^ o <= j + 2 ^ p.
Proof.
  induction k as [|k IH]; intros i o Hin Hk.
  - exists i, o. split; [split; [done|lia]|lia].
  - destruct (decide (in_area (buddy i o) o)) as [Hb|Hb].
    + destruct (IH (parent_of i o) (o + 1)) as (j & p & Hj & J1 & J2); [by apply both_in_area; [lia|..]|lia|]. destruct Hin as (Ho & Hd & _). destruct (parent_spec i o ltac:(lia) Hd) as (_ & P1 & P2 & _).
      exists j, p. split; [done|lia].
    + exists i, o. split; [|lia]. apply maximal_buddy; [lia|done|done].
Qed.

Lemma page_in_maximal x : off <= x < n -> exists i o, maximal i o /\ i <= x < i + 2 ^ o.
Proof.
  intros Hx. destruct (maximal_exists (Z.to_nat m) x 0) as (j & p & Hj & J1 & J2); [split; [lia|]; split; [apply Z.divide_1_l|change (2 ^ 0) with 1; lia]|lia|].
  change (2 ^ 0) with 1 in J2. exists j, p. split; [done|lia].
Qed.

(** ** The first blocks *)

Lemma mask32_low i o : 0 <= i < 2 ^ 32 -> 0 <= o <= 9 -> (Z.land i (MASK32 (o + 1)) =? 0) = is_first i o.
Proof.
  intros Hi Ho. unfold MASK32, is_first. rewrite from_bit by lia. rewrite u64_small by (pose proof (pow2_pos (o + 1)); pose proof (Z.pow_le_mono_r 2 (o + 1) 10); lia).
  replace (2 ^ (o + 1) - 1) with (Z.ones (o + 1)) by (rewrite Z.ones_equiv; lia). by rewrite Z.land_ones by lia.
Qed.

Lemma order_up_ok fuel : forall i o last, 0 <= i < 2 ^ 32 -> 0 <= o <= m -> (2 ^ o | i) -> m - o < Z.of_nat fuel ->
  exists o1, order_up fuel m i o last = Some (o1, if o1 =? o then last else PAGE_INDEX_INVALID) /\ o <= o1 <= m /\ (2 ^ o1 | i) /\ (o1 < m -> is_first i o1 = false).
Proof.
  induction fuel as [|fuel IH]; intros i o last Hi Ho Hd Hfu; [lia|]. cbn [order_up]. rewrite mask32_low by lia. destruct (Z.ltb_spec o m) as [Hom|Hom]; cbn [andb].
  - destruct (is_first i o) eqn:E.
    + destruct (IH i (o + 1) PAGE_INDEX_INVALID) as (o1 & -> & Ho1 & Hd1 & Hf); [done|lia|apply is_first_spec; [lia|done]|lia|]. exists o1. split; [|split; [lia|done]].
      rewrite (proj2 (Z.eqb_neq o1 o)) by lia. by destruct (o1 =? o + 1).
    + exists o. rewrite Z.eqb_refl. split; [done|]. split; [lia|done].
  - exists o. rewrite Z.eqb_refl. split; [done|]. split; [lia|]. split; [done|lia].
Qed.

(** Going down from an order for which the block would be the first of its pair changes no
    bit. *)
Lemma order_down_first fuel : forall a i o last, page_count a = n -> off <= i < n -> 0 <= o <= m -> (2 ^ (o + 1) | i) -> o < Z.of_nat fuel ->
  exists o2, order_down fuel m a i o last = Some (a, o2, if o2 =? o then last else PAGE_INDEX_INVALID) /\ 0 <= o2 <= o /\ 2 ^ o2 <= n - i /\ (o2 < o -> n - i < 2 ^ (o2 + 1)).
Proof.
  unfold PAGE_INDEX_INVALID in Hn. induction fuel as [|fuel IH]; intros a i o last Hc Hi Ho Hd Hfu; [lia|]. cbn [order_down]. rewrite Hc, u32_small, from_bit by lia.
  destruct (Z.ltb_spec 0 o) as [H0|H0]; cbn [andb]; [destruct (Z.ltb_spec (n - i) (2 ^ o)) as [Hlt|Hge]|].
  - assert (Hdo : (2 ^ o | i)) by (apply (pow_divides _ (o + 1)); [lia|done]). rewrite buddy_first_eq by (done || lia). rewrite (proj2 (is_first_spec i o ltac:(lia)) Hd).
    rewrite andb_false_r. cbn [mbind option_bind]. destruct (IH a i (o - 1) PAGE_INDEX_INVALID Hc Hi ltac:(lia) ltac:(by replace (o - 1 + 1) with o by lia) ltac:(lia)) as (o2 & -> & Ho2 & Hfit & Hnext).
    exists o2. rewrite (proj2 (Z.eqb_neq o2 o)) by lia. split; [by destruct (o2 =? o - 1)|]. split; [lia|]. split; [done|]. intros _. destruct (Z.eq_dec o2 (o - 1)) as [-> |]; [by replace (o - 1 + 1) with o by lia|apply Hnext; lia].
  - exists o. rewrite Z.eqb_refl. split; [done|]. split; [lia|]. split; [done|lia].
  - exists o. rewrite Z.eqb_refl. split; [done|]. split; [lia|]. replace o with 0 by lia. change (2 ^ 0) with 1. split; lia.
Qed.

(** Going down from the order of [order_up]. *)
Lemma order_down_ok a i o last : page_count a = n -> off <= i < n -> 0 <= o <= m -> (2 ^ o | i) -> (o < m -> is_first i o = false) ->
  exists a1 o2, order_down (S (Z.to_nat o)) m a i o last = Some (a1, o2, if o2 =? o then last else PAGE_INDEX_INVALID) /\ 0 <= o2 <= o /\ 2 ^ o2 <= n - i /\ (o2 < o -> n - i < 2 ^ (o2 + 1)) /\
    if (o2 <? o) && (o <? m) then bit_set a i o true a1 else a1 = a.
Proof.
  pose proof Hn as Hn'. unfold PAGE_INDEX_INVALID in Hn'. intros Hc Hi Ho Hd Hs. cbn [order_down]. rewrite Hc, u32_small, from_bit by lia. destruct (Z.ltb_spec 0 o) as [H0|H0]; cbn [andb].
  - destruct (Z.ltb_spec (n - i) (2 ^ o)) as [Hlt|Hge].
    + rewrite buddy_first_eq by (done || lia).
      assert (H1 : exists a1, (if (o <? m) && negb (is_first i o) then page_buddy_set a i o else Some a) = Some a1 /\ page_count a1 = n /\ if o <? m then bit_set a i o true a1 else a1 = a).
      { destruct (Z.ltb_spec o m) as [Hom|Hom]; cbn [andb]; [|by exists a]. rewrite Hs by done. cbn [negb]. destruct (buddy_set_ok a i o) as (a1 & -> & Hb); [unfold valid_index; lia|lia|].
        exists a1. split; [done|]. split; [|done]. destruct Hb as (-> & _). done. }
      destruct H1 as (a1 & -> & Hc1 & Hb). cbn [mbind option_bind].
      destruct (order_down_first (Z.to_nat o) a1 i (o - 1) PAGE_INDEX_INVALID Hc1 Hi ltac:(lia) ltac:(by replace (o - 1 + 1) with o by lia) ltac:(lia)) as (o2 & -> & Ho2 & Hfit & Hnext).
      exists a1, o2. rewrite (proj2 (Z.eqb_neq o2 o)), (proj2 (Z.ltb_lt o2 o)) by lia. cbn [andb]. split; [by destruct (o2 =? o - 1)|]. split; [lia|]. split; [done|]. split; [|done].
      intros _. destruct (Z.eq_dec o2 (o - 1)) as [-> |]; [by replace (o - 1 + 1) with o by lia|apply Hnext; lia].
    + exists a, o. rewrite Z.eqb_refl, Z.ltb_irrefl. split; [done|]. split; [lia|]. split; [done|]. split; [lia|done].
  - exists a, o. rewrite Z.eqb_refl, Z.ltb_irrefl. split; [done|]. split; [lia|]. replace o with 0 by lia. change (2 ^ 0) with 1. split; [lia|]. split; [lia|done].
Qed.

Lemma last_free_ok (a : pageheap_area) l : forall fuel prev i, page_count a = n -> seg (free_pages a) prev i l PAGE_INDEX_INVALID -> (forall x, x ∈ l -> 0 <= x < n) -> (length l < fuel)%nat ->
  last_free fuel a i prev = Some (last_node prev l).
Proof.
  induction l as [|x l IH]; intros fuel prev i Hc Hs Hr Hfu; (destruct fuel as [|fuel]; [cbn in Hfu; lia|]); cbn [last_free].
  - cbn in Hs. subst i. by rewrite Z.eqb_refl.
  - destruct Hs as (-> & _ & Hs). pose proof (Hr x ltac:(left)). rewrite (proj2 (Z.eqb_neq _ _)) by lia. cbn [negb]. rewrite get_elem_ok by lia. cbn [mbind option_bind].
    apply IH; [done|done|intros y Hy; apply Hr; by right|cbn in Hfu; lia].
Qed.

(** Putting a block at the end of a list. *)
Lemma append_free_ok (a : pageheap_area) fl i o : page_count a = n -> listed m a fl -> separate m n fl -> 0 <= o <= m -> 0 <= i < n -> (forall p, 0 <= p <= m -> i ∉ fl p) ->
  let last := last_node PAGE_INDEX_INVALID (fl o) in
  exists a', (a ← set_elem a i (Elem last PAGE_INDEX_INVALID);
      if negb (last =? PAGE_INDEX_INVALID) then e ← get_elem a last; set_elem a last (Elem (e_prev e) (u16 i)) else set_first a o (u16 i)) = Some a' /\
    same_bits a a' /\ listed m a' (<[o := fl o ++ [i]]> fl).
Proof.
  intros Hc Hl Hs Ho Hi Hf. cbn zeta. rewrite set_elem_ok by lia. cbn [mbind option_bind]. unfold PAGE_INDEX_INVALID in Hn. assert (u16 i = i) as -> by (apply Z.mod_small; lia).
  pose proof (Hl o Ho) as Hso. pose proof (sp_nodup _ _ _ Hs o Ho) as Hd. assert (Hr : forall x, x ∈ fl o -> 0 <= x < n) by (intros x; by apply (sp_range _ _ _ Hs)).
  assert (Hne : forall p x, 0 <= p <= m -> x ∈ fl p -> x <> i) by (intros p x Hp Hx ->; by apply (Hf p)).
  destruct (fl o) as [|x l _] eqn:E using rev_ind.
  - cbn [last_node foldl app]. rewrite Z.eqb_refl. cbn [negb]. rewrite (set_first_ok m Hm) by done. eexists. split; [done|]. split; [done|]. apply (relist m a fl Hl o); [done|done|..]; cbn.
    + by rewrite !fn_lookup_insert.
    + intros p Hp. by apply fn_lookup_insert_ne.
    + intros p y Hp _ Hy. apply fn_lookup_insert_ne. intros ->. by apply (Hne p y).
  - rewrite last_node_snoc. pose proof (Hr x ltac:(set_solver)) as Hx. unfold PAGE_INDEX_INVALID. rewrite (proj2 (Z.eqb_neq _ _)) by lia. cbn [negb].
    rewrite get_elem_ok by (cbn; lia). cbn [mbind option_bind]. rewrite set_elem_ok by (cbn; lia). assert (Hxi : x <> i) by (apply (Hne o); [done|rewrite E; set_solver]).
    eexists. split; [done|]. split; [done|]. apply (relist m a fl Hl o); [done|done|..]; cbn.
    + apply seg_app. exists i. rewrite last_node_snoc. cbn [seg]. rewrite (fn_lookup_insert_ne _ x i), fn_lookup_insert by done. cbn [e_prev e_next]. split; [|done].
      apply (seg_next _ _ _ _ _ PAGE_INDEX_INVALID); [done|]. apply (seg_ext (free_pages a)); [done|]. intros y Hy. apply fn_lookup_insert_ne. intros ->. apply (Hne o y Ho); [by rewrite E|done].
    + done.
    + intros p y Hp Hpo Hy. rewrite !fn_lookup_insert_ne; [done|intros ->; by apply (Hne p y)|]. intros ->. apply Hpo, (sp_other _ _ _ Hs p o y); [done..|]. rewrite E. set_solver.
Qed.

(** The bits that are set when the blocks up to [x] have been entered. *)
Definition bit_due (x i o : Z) : Prop := ~ in_area (buddy i o) o /\ if is_first i o then i + 2 ^ o < x else i + 2 ^ o <= x.

#[local] Instance bit_due_dec x i o : Decision (bit_due x i o).
Proof. unfold bit_due. destruct (is_first i o); apply _. Defined.

(** The state of the loop at the page [x]: [o] is the order of the last block, [last] its
    index if it is known. *)
Record filled (a : pageheap_area) (fl : Z -> list Z) (x o last : Z) : Prop := {
  fi_count : page_count a = n;
  fi_range : off <= x <= n;
  fi_order : 0 <= o <= m /\ (2 ^ o | x);
  fi_lists : listed m a fl;
  fi_elem : forall p i, 0 <= p <= m -> i ∈ fl p <-> maximal i p /\ i < x;
  fi_nodup : forall p, 0 <= p <= m -> NoDup (fl p);
  fi_cut : forall i p, maximal i p -> i < x -> i + 2 ^ p <= x;
  fi_last : (last = PAGE_INDEX_INVALID /\ x = off) \/ (last = x - 2 ^ o /\ maximal last o /\ last_node PAGE_INDEX_INVALID (fl o) = last);
  fi_bits : forall p i, 0 <= p < m -> in_area i p -> bbit a i p = bool_decide (bit_due x i p);
}.

Lemma filled_separate a fl x o last : filled a fl x o last -> separate m n fl.
Proof.
  intros Hf. split; [apply (fi_nodup _ _ _ _ _ Hf)| |].
  - intros p i Hp Hi. apply (fi_elem _ _ _ _ _ Hf p i Hp) in Hi as [[(_ & _ & H1 & H2) _] _]. pose proof (pow2_pos p). lia.
  - intros p q i Hp Hq Hi Hj. apply (fi_elem _ _ _ _ _ Hf) in Hi as [Hi _], Hj as [Hj _]; [|done..]. pose proof (pow2_pos p). pose proof (pow2_pos q). by destruct (maximal_unique i p i q i Hi Hj); [lia..|].
Qed.

Section Step.
Context (a : pageheap_area) (fl : Z -> list Z) (x o last o1 o2 : Z) (Hf : filled a fl x o last) (Hx : x < n).
Context (Ho1 : o <= o1 <= m) (Hd1 : (2 ^ o1 | x)) (Hs1 : o1 < m -> is_first x o1 = false).
Context (Ho2 : 0 <= o2 <= o1) (Hfit : 2 ^ o2 <= n - x) (Hnext : o2 < o1 -> n - x < 2 ^ (o2 + 1)).

Lemma step_divides : (2 ^ o2 | x).
Proof. apply (pow_divides _ o1); [lia|done]. Qed.

Lemma step_first : o2 < o1 -> is_first x o2 = true.
Proof. intros Hlt. apply is_first_spec; [lia|]. apply (pow_divides _ o1); [lia|done]. Qed.

Lemma step_maximal : maximal x o2.
Proof.
  pose proof (fi_range _ _ _ _ _ Hf). split; [split; [lia|]; split; [apply step_divides|lia]|]. intros Hom Hp. destruct (Z.eq_dec o2 o1) as [E|Hne].
  - assert (Efirst : is_first x o2 = false) by (rewrite E; apply Hs1; lia). pose proof (pow2_pos o2 ltac:(lia)). pose proof (pow2_succ o2 ltac:(lia)).
    assert (Epar : parent_of x o2 = x - 2 ^ o2) by (unfold parent_of; rewrite (buddy_is_first x o2), Efirst by (lia || apply step_divides); lia). rewrite Epar in Hp.
    destruct (maximal_exists (Z.to_nat (m - (o2 + 1))) (x - 2 ^ o2) (o2 + 1) Hp ltac:(lia)) as (j & p & Hj & J1 & J2). pose proof (fi_cut _ _ _ _ _ Hf j p Hj ltac:(lia)). lia.
  - assert (Epar : parent_of x o2 = x) by (unfold parent_of; rewrite (buddy_is_first x o2), step_first by (lia || apply step_divides); pose proof (pow2_pos o2); lia).
    rewrite Epar in Hp. destruct Hp as (_ & _ & _ & Hp). specialize (Hnext ltac:(lia)). lia.
Qed.

(** A maximal block that starts before the end of the new one. *)
Lemma step_new i p : maximal i p -> i < x + 2 ^ o2 -> i < x \/ (p = o2 /\ i = x).
Proof.
  intros Hi Hlt. destruct (Z.lt_ge_cases i x); [by left|]. right. pose proof Hi as [(Hp & _) _]. pose proof (pow2_pos p ltac:(lia)). destruct (maximal_unique i p x o2 i Hi step_maximal); [lia..|]. done.
Qed.

(** The bits that fall due: the pair of the block before [x] if it has no second, and that
    of [x] if it has no first. *)
Lemma step_due i p : 0 <= p < m -> in_area i p ->
  bit_due (x + 2 ^ o2) i p <-> bit_due x i p \/ (o2 < o1 /\ p = o1 /\ i = x - 2 ^ o1) \/ (o2 = o1 /\ p = o1 /\ i = x /\ ~ in_area (x - 2 ^ o1) o1).
Proof.
  intros Hp Hin. pose proof (pow2_pos o2 ltac:(lia)). pose proof (fi_range _ _ _ _ _ Hf). pose proof Hin as (_ & Hdi & I1 & I2). pose proof (pow2_pos p ltac:(lia)). unfold bit_due. split.
  - intros [Hb Hc]. destruct (decide (bit_due x i p)) as [Hdue|Hdue]; [by left|right]. assert (Hmax : maximal i p) by (apply maximal_buddy; [lia|done|done]).
    unfold bit_due in Hdue. destruct (is_first i p) eqn:Ef.
    + left. assert (Ei : i + 2 ^ p = x).
      { destruct (step_new i p Hmax ltac:(lia)) as [Hlt|[-> ->]]; [|lia]. pose proof (fi_cut _ _ _ _ _ Hf i p Hmax Hlt). destruct (Z.eq_dec (i + 2 ^ p) x); [done|]. exfalso. apply Hdue. split; [done|lia]. }
      destruct (fi_last _ _ _ _ _ Hf) as [[_ Exo]|(El & Hml & _)]; [lia|]. destruct (fi_order _ _ _ _ _ Hf) as [Hom Hdo]. pose proof (pow2_pos o ltac:(lia)).
      destruct (maximal_unique i p last o (x - 1) Hmax Hml ltac:(lia) ltac:(lia)) as [-> Eil].
      rewrite (buddy_is_first i o), Ef in Hb by (done || lia). replace (i + 2 ^ o) with x in Hb by lia.
      assert (Eo : o1 = o). { destruct (Z.eq_dec o1 o); [done|]. exfalso. assert (Hdx : (2 ^ (o + 1) | x)) by (apply (pow_divides _ o1); [lia|done]). apply is_first_spec in Ef as [k Ek]; [|lia].
        destruct Hdx as [j Ej]. rewrite pow2_succ in * by lia. apply (odd_half j k (2 ^ o)); lia. }
      split; [|split; [done|rewrite Eo; lia]]. destruct (Z.eq_dec o2 o1) as [E2|]; [|lia]. exfalso. apply Hb. replace o with o2 by lia. apply step_maximal.
    + right. destruct (step_new i p Hmax ltac:(lia)) as [Hlt|[-> ->]]; [exfalso; apply Hdue; split; [done|]; by apply (fi_cut _ _ _ _ _ Hf)|].
      destruct (Z.eq_dec o2 o1) as [E|Hne]; [|rewrite step_first in Ef by lia; done]. split; [done|]. split; [done|]. split; [done|].
      rewrite (buddy_is_first x o2), Ef in Hb by (lia || apply step_divides). by rewrite E in Hb.
  - intros [[Hb Hc]|[(Hlt & -> & ->)|(E & -> & -> & Hb)]].
    + split; [done|]. destruct (is_first i p); lia.
    + assert (Ef : is_first (x - 2 ^ o1) o1 = true).
      { pose proof (Hs1 ltac:(lia)) as Hs. destruct (is_first (x - 2 ^ o1) o1) eqn:Ef; [done|]. exfalso. pose proof (buddy_cases x o1 ltac:(lia) Hd1) as Hbc.
        destruct Hbc as [[Hk _]|[Hk _]]; apply is_first_spec in Hk; congruence || lia. }
      rewrite Ef. split; [|lia]. rewrite (buddy_is_first (x - 2 ^ o1) o1), Ef by (done || lia). intros (_ & _ & _ & Hb). specialize (Hnext Hlt).
      pose proof (Z.pow_le_mono_r 2 (o2 + 1) o1 ltac:(lia) ltac:(lia)). lia.
    + rewrite Hs1 by lia. split; [|rewrite E; lia]. rewrite (buddy_is_first x o1), Hs1 by (done || lia). done.
Qed.

Lemma step_bits_down a1 : (if (o2 <? o1) && (o1 <? m) then bit_set a x o1 true a1 else a1 = a) ->
  (page_count a1 = n /\ first a1 = first a /\ free_pages a1 = free_pages a) /\
  forall p i, 0 <= p < m -> in_area i p -> bbit a1 i p = bool_decide (bit_due x i p \/ (o2 < o1 /\ p = o1 /\ i = x - 2 ^ o1)).
Proof.
  intros Hb. pose proof (fi_count _ _ _ _ _ Hf) as Hc. pose proof Hn as Hn'. unfold PAGE_INDEX_INVALID in Hn'.
  destruct (Z.ltb_spec o2 o1) as [Hlt|Hge]; [destruct (Z.ltb_spec o1 m) as [Hom|Hom]|]; cbn [andb] in Hb.
  - destruct Hb as (Hcb & Hfb & Hpb & Hbb). split; [by rewrite Hcb|]. intros p i Hp Hin. destruct (in_area_valid m off ltac:(lia) n i p Hn Hin) as [Hv _]. rewrite Hbb by (done || lia).
    rewrite (fi_bits _ _ _ _ _ Hf) by done. destruct (decide (o1 = p /\ _)) as [[<- Hs]|Hne].
    + symmetry. apply bool_decide_eq_true_2. right. split; [done|]. split; [done|]. apply same_pair in Hs; [|lia|done|apply Hin]. rewrite (buddy_is_first x o1), Hs1 in Hs by (done || lia).
      destruct Hs as [-> |]; [|done]. destruct Hin as (_ & _ & _ & Hin). specialize (Hnext Hlt). pose proof (Z.pow_le_mono_r 2 (o2 + 1) o1 ltac:(lia) ltac:(lia)). lia.
    + apply bool_decide_ext. split; [by left|]. intros [|(_ & -> & ->)]; [done|]. exfalso. apply Hne. split; [done|]. apply same_pair; [lia|done|apply Hin|]. right. by rewrite (buddy_is_first x o1), Hs1 by (done || lia).
  - subst a1. split; [done|]. intros p i Hp Hin. rewrite (fi_bits _ _ _ _ _ Hf) by done. apply bool_decide_ext. split; [by left|]. intros [|(_ & -> & _)]; [done|lia].
  - subst a1. split; [done|]. intros p i Hp Hin. rewrite (fi_bits _ _ _ _ _ Hf) by done. apply bool_decide_ext. split; [by left|]. intros [|(? & _)]; [done|lia].
Qed.

(** [last_index] after the two loops. *)
Definition step_last : Z := if o2 =? o1 then (if o1 =? o then last else PAGE_INDEX_INVALID) else PAGE_INDEX_INVALID.

Lemma step_last_cases : step_last = PAGE_INDEX_INVALID \/ (step_last = last /\ o2 = o1 /\ o1 = o /\ last = x - 2 ^ o /\ maximal last o /\ last_node PAGE_INDEX_INVALID (fl o) = last /\ last <> PAGE_INDEX_INVALID).
Proof.
  unfold step_last. destruct (Z.eqb_spec o2 o1); [|by left]. destruct (Z.eqb_spec o1 o); [|by left]. destruct (fi_last _ _ _ _ _ Hf) as [[-> _]|(El & Hml & Hll)]; [by left|right].
  pose proof (fi_range _ _ _ _ _ Hf). destruct (fi_order _ _ _ _ _ Hf) as [? _]. pose proof (pow2_pos o). split_and!; try done. lia.
Qed.

Lemma step_bits a1 : (if (o2 <? o1) && (o1 <? m) then bit_set a x o1 true a1 else a1 = a) ->
  exists a2, (if (o2 <? m) && ((step_last =? PAGE_INDEX_INVALID) && negb (x =? page_buddy_first x o2)) then page_buddy_set a1 x o2 else Some a1) = Some a2 /\
    (page_count a2 = n /\ first a2 = first a /\ free_pages a2 = free_pages a) /\
    forall p i, 0 <= p < m -> in_area i p -> bbit a2 i p = bool_decide (bit_due (x + 2 ^ o2) i p).
Proof.
  intros Hb. destruct (step_bits_down a1 Hb) as [(Hc1 & Hf1 & Hp1) Hb1]. pose proof (fi_range _ _ _ _ _ Hf) as Hr. pose proof Hn as Hn'. unfold PAGE_INDEX_INVALID in Hn'.
  pose proof step_divides as Hd2. rewrite buddy_first_eq by (done || lia). pose proof step_maximal as Hmx.
  assert (Hnb : o2 < m -> is_first x o2 = false -> ~ in_area (x - 2 ^ o2) o2).
  { intros Hom Ef Hin. apply (maximal_buddy x o2) in Hmx; [|done|apply Hmx]. apply Hmx. by rewrite (buddy_is_first x o2), Ef by (done || lia). }
  assert (Eo : is_first x o2 = false -> o2 = o1) by (intros Ef; destruct (Z.eq_dec o2 o1); [done|]; rewrite step_first in Ef by lia; done).
  destruct (Z.ltb_spec o2 m) as [Hom|Hom]; cbn [andb]; [destruct (Z.eqb_spec step_last PAGE_INDEX_INVALID) as [El|El]; cbn [andb]; [destruct (is_first x o2) eqn:Ef; cbn [negb]|]|].
  - exists a1. split; [done|]. split; [done|]. intros p i Hp Hin. rewrite Hb1 by done. apply bool_decide_ext. rewrite step_due by done. split; [tauto|]. intros [|[|(E & _ & _ & _)]]; [by left|by right|].
    rewrite E in Ef. rewrite Hs1 in Ef by lia. done.
  - destruct (buddy_set_ok a1 x o2) as (a2 & -> & Hc2 & Hf2 & Hp2 & Hb2); [unfold valid_index; lia|lia|]. exists a2. split; [done|]. split; [split_and!; congruence|].
    intros p i Hp Hin. destruct (in_area_valid m off ltac:(lia) n i p Hn Hin) as [Hv _]. rewrite Hb2, Hb1 by (done || lia). pose proof (Eo eq_refl) as E. destruct (decide (o2 = p /\ _)) as [[<- Hs]|Hne].
    + symmetry. apply bool_decide_eq_true_2. rewrite step_due by done. right; right. apply same_pair in Hs; [|lia|done|apply Hin]. rewrite (buddy_is_first x o2), Ef in Hs by (done || lia).
      destruct Hs as [-> | ->]; [|exfalso; by apply Hnb]. split; [done|]. split; [done|]. split; [done|]. rewrite <- E. by apply Hnb.
    + apply bool_decide_ext. rewrite step_due by done. split; [tauto|]. intros [|[|(_ & -> & -> & _)]]; [by left|by right|]. exfalso. by apply Hne.
  - exists a1. split; [done|]. split; [done|]. intros p i Hp Hin. rewrite Hb1 by done. apply bool_decide_ext. rewrite step_due by done. split; [tauto|]. intros [|[|(_ & -> & -> & Hni)]]; [by left|by right|].
    exfalso. destruct step_last_cases as [|(_ & _ & -> & El' & [Hin' _] & _)]; [done|]. rewrite El' in Hin'. done.
  - exists a1. split; [done|]. split; [done|]. intros p i Hp Hin. rewrite Hb1 by done. apply bool_decide_ext. rewrite step_due by done. split; [tauto|]. intros [|[|(E & -> & _)]]; [by left|by right|lia].
Qed.
End Step.

(** The next state of the loop. *)
Lemma filled_next a fl x o last o1 o2 a' : filled a fl x o last -> x < n -> o <= o1 <= m -> (2 ^ o1 | x) -> (o1 < m -> is_first x o1 = false) ->
  0 <= o2 <= o1 -> 2 ^ o2 <= n - x -> (o2 < o1 -> n - x < 2 ^ (o2 + 1)) -> page_count a' = n -> listed m a' (<[o2 := fl o2 ++ [x]]> fl) ->
  (forall p i, 0 <= p < m -> in_area i p -> bbit a' i p = bool_decide (bit_due (x + 2 ^ o2) i p)) ->
  filled a' (<[o2 := fl o2 ++ [x]]> fl) (x + 2 ^ o2) o2 x.
Proof.
  intros Hf Hx Ho1 Hd1 Hs1 Ho2 Hfit Hnext Hc' Hl' Hb'. pose proof (fi_range _ _ _ _ _ Hf). pose proof (pow2_pos o2 ltac:(lia)).
  pose proof (step_maximal a fl x o last o1 o2 Hf Ho1 Hd1 Hs1 Ho2 Hfit Hnext) as Hmx. pose proof (step_new a fl x o last o1 o2 Hf Ho1 Hd1 Hs1 Ho2 Hfit Hnext) as Hnew.
  pose proof (fun p i Hp => fi_elem _ _ _ _ _ Hf p i Hp) as He.
  split; [done|lia| |done| | | | |done].
  - split; [lia|]. apply Z.divide_add_r; [apply Hmx|apply Z.divide_refl].
  - intros p i Hp. rewrite insert_elem, elem_of_app, list_elem_of_singleton. split.
    + intros [(-> & [Hi| ->])|[_ Hi]]; [apply He in Hi as [Hi ?]; [split; [done|lia]|lia]|split; [done|lia]|apply He in Hi as [Hi ?]; [split; [done|lia]|done]].
    + intros [Hi Hlt]. destruct (Hnew i p Hi Hlt) as [Hlt'|[-> ->]]; [|left; split; [done|by right]]. assert (Hip : i ∈ fl p) by (by apply He). destruct (decide (p = o2)) as [-> |Hne]; [left; split; [done|by left]|by right].
  - intros p Hp. destruct (decide (p = o2)) as [-> |]; [rewrite fn_lookup_insert|rewrite fn_lookup_insert_ne by done; by apply (fi_nodup _ _ _ _ _ Hf)].
    apply NoDup_app. split; [by apply (fi_nodup _ _ _ _ _ Hf)|]. split; [|apply NoDup_singleton]. intros i Hi Hix. apply list_elem_of_singleton in Hix as ->. apply He in Hi as [_ ?]; lia.
  - intros i p Hi Hlt. destruct (Hnew i p Hi Hlt) as [Hlt'|[-> ->]]; [|lia]. pose proof (fi_cut _ _ _ _ _ Hf i p Hi Hlt'). lia.
  - right. split; [lia|]. split; [done|]. rewrite fn_lookup_insert. apply last_node_snoc.
Qed.

Lemma init_block_ok a fl x o last : filled a fl x o last -> x < n ->
  exists a' fl' o', init_block m a x o last = Some (a', o') /\ filled a' fl' (x + 2 ^ o') o' x.
Proof.
  intros Hf Hx. pose proof (fi_range _ _ _ _ _ Hf). pose proof (fi_count _ _ _ _ _ Hf) as Hc. destruct (fi_order _ _ _ _ _ Hf) as [Hom Hdo]. pose proof Hn as Hn'. unfold PAGE_INDEX_INVALID in Hn'.
  unfold init_block. destruct (order_up_ok (S (Z.to_nat (m - o))) x o last ltac:(lia) ltac:(lia) Hdo ltac:(lia)) as (o1 & -> & Ho1 & Hd1 & Hs1). cbn [mbind option_bind].
  destruct (order_down_ok a x o1 (if o1 =? o then last else PAGE_INDEX_INVALID) Hc ltac:(lia) ltac:(lia) Hd1 Hs1) as (a1 & o2 & -> & Ho2 & Hfit & Hnext & Hb). cbn [mbind option_bind].
  fold (step_last o last o1 o2). destruct (step_bits a fl x o last o1 o2 Hf Hx Ho1 Hd1 Hs1 Ho2 Hfit Hnext a1 Hb) as (a2 & -> & (Hc2 & Hf2 & Hp2) & Hb2). cbn [mbind option_bind].
  assert (Hl2 : listed m a2 fl) by (intros p Hp; rewrite Hf2, Hp2; by apply (fi_lists _ _ _ _ _ Hf)). pose proof (filled_separate _ _ _ _ _ Hf) as Hsep.
  assert (El : (if step_last o last o1 o2 =? PAGE_INDEX_INVALID then next ← get_first a2 o2; last_free (S (Z.to_nat (page_count a2))) a2 next (step_last o last o1 o2) else Some (step_last o last o1 o2)) = Some (last_node PAGE_INDEX_INVALID (fl o2))).
  { destruct (step_last_cases a fl x o last o1 o2 Hf Hx Ho2) as [-> |(-> & E21 & E1 & _ & _ & Ell & Hne)]; [|rewrite (proj2 (Z.eqb_neq _ _)) by done; by rewrite E21, E1, Ell]. rewrite Z.eqb_refl, (get_first_ok m Hm) by lia. cbn [mbind option_bind].
    apply last_free_ok; [done|apply Hl2; lia|intros y; apply (sp_range _ _ _ Hsep); lia|].
    pose proof (sp_nodup _ _ _ Hsep o2 ltac:(lia)) as Hd. apply (NoDup_bounded (fl o2) n) in Hd; [lia|]. apply Forall_forall. intros y. apply (sp_range _ _ _ Hsep). lia. }
  rewrite El. cbn [mbind option_bind]. destruct (append_free_ok a2 fl x o2 Hc2 Hl2 Hsep ltac:(lia) ltac:(lia)) as (a' & Ea & [Hc' Hbu'] & Hl').
  { intros p Hp Hi. apply (fi_elem _ _ _ _ _ Hf) in Hi as [_ ?]; lia. }
  apply bind_Some in Ea as (a3 & -> & Ea). cbn [mbind option_bind]. rewrite Ea. cbn [mbind option_bind]. exists a', (<[o2 := fl o2 ++ [x]]> fl), o2. split; [done|].
  apply (filled_next a fl x o last o1 o2); [done..|congruence|done|]. intros p i Hp Hin. rewrite <- Hb2 by done. unfold bbit. by rewrite Hbu'.
Qed.

Lemma init_blocks_ok fuel : forall a fl x o last, filled a fl x o last -> n - x < Z.of_nat fuel ->
  exists a' fl' o' last', init_blocks fuel m a x o last = Some (a', o') /\ filled a' fl' n o' last'.
Proof.
  induction fuel as [|fuel IH]; intros a fl x o last Hf Hfu; [pose proof (fi_range _ _ _ _ _ Hf); lia|]. cbn [init_blocks]. rewrite (fi_count _ _ _ _ _ Hf). pose proof (fi_range _ _ _ _ _ Hf).
  destruct (Z.ltb_spec x n) as [Hx|Hx]; [|replace n with x by lia; by exists a, fl, o, last].
  destruct (init_block_ok a fl x o last Hf Hx) as (a1 & fl1 & o1 & -> & Hf1). cbn [mbind option_bind]. unfold PAGE_INDEX_INVALID in Hn. pose proof (fi_range _ _ _ _ _ Hf1). destruct (fi_order _ _ _ _ _ Hf1) as [Ho1 _].
  pose proof (pow2_pos o1 ltac:(lia)). rewrite from_bit, u32_small by lia. assert (u16 x = x) as -> by (apply Z.mod_small; lia). apply (IH a1 fl1); [done|lia].
Qed.

(** ** The finished area *)

Section Finish.
Context (a : pageheap_area) (fl : Z -> list Z) (o last : Z) (Hf : filled a fl n o last).

Lemma last_block : 0 <= o <= m /\ (2 ^ o | n) /\ maximal (n - 2 ^ o) o.
Proof. destruct (fi_order _ _ _ _ _ Hf) as [Ho Hd]. destruct (fi_last _ _ _ _ _ Hf) as [[_ ?]|(-> & Hml & _)]; [lia|done]. Qed.

(** The bits that are missing. *)
Lemma bits_left p i : 0 <= p < m -> in_area i p -> ~ in_area (buddy i p) p <-> bit_due n i p \/ (p = o /\ i = n - 2 ^ o /\ is_first n o = false).
Proof.
  destruct last_block as (Ho & Hd & Hml). pose proof (pow2_pos o ltac:(lia)) as Hpo. intros Hp Hin. unfold bit_due. pose proof Hin as (_ & Hdi & _ & I2). split.
  - intros Hb. destruct (is_first i p) eqn:Ef; [|left; split; [done|lia]]. destruct (Z.eq_dec (i + 2 ^ p) n) as [E|]; [|left; split; [done|lia]]. right.
    assert (Hmi : maximal i p) by (apply maximal_buddy; [lia|done|done]). pose proof (pow2_pos p ltac:(lia)). destruct (maximal_unique i p (n - 2 ^ o) o (n - 1) Hmi Hml) as [-> Ei]; [lia..|]. split; [done|]. split; [done|].
    apply not_true_iff_false. intros Hk. apply is_first_spec in Hk as [j Hj], Ef as [k Hk]; [|lia..]. rewrite pow2_succ in * by lia. apply (odd_half j k (2 ^ o)); lia.
  - intros [[Hb _]|(-> & -> & Ef)]; [done|]. destruct (buddy_cases (n - 2 ^ o) o ltac:(lia) Hdi) as [[_ ->]|[[k Hk] _]]; [intros (_ & _ & _ & ?); lia|].
    exfalso. apply not_true_iff_false in Ef. apply Ef, is_first_spec; [lia|]. rewrite pow2_succ in * by lia. exists (k + 1). lia.
Qed.

Lemma last_pair_bit : exists a', (if (o <? m) && negb (n =? page_buddy_first n o) then page_buddy_set a n o else Some a) = Some a' /\
  (page_count a' = n /\ first a' = first a /\ free_pages a' = free_pages a) /\ forall p i, 0 <= p < m -> in_area i p -> bbit a' i p = bool_decide (~ in_area (buddy i p) p).
Proof.
  destruct last_block as (Ho & Hd & Hml). pose proof (fi_count _ _ _ _ _ Hf) as Hc. pose proof Hn as Hn'. unfold PAGE_INDEX_INVALID in Hn'. rewrite buddy_first_eq by (done || lia).
  destruct (Z.ltb_spec o m) as [Hom|Hom]; cbn [andb]; [destruct (is_first n o) eqn:Ef; cbn [negb]|].
  - exists a. split; [done|]. split; [done|]. intros p i Hp Hin. rewrite (fi_bits _ _ _ _ _ Hf) by done. apply bool_decide_ext. rewrite bits_left by done. split; [by left|]. intros [|(_ & _ & Ef')]; [done|congruence].
  - destruct (buddy_set_ok a n o) as (a' & -> & Hc' & Hf' & Hp' & Hb'); [unfold valid_index; lia|lia|]. exists a'. split; [done|]. split; [by rewrite Hc'|]. intros p i Hp Hin.
    destruct (in_area_valid m off ltac:(lia) n i p Hn Hin) as [Hv _]. rewrite Hb', (fi_bits _ _ _ _ _ Hf) by (done || lia). destruct (decide (o = p /\ _)) as [[<- Hs]|Hne].
    + symmetry. apply bool_decide_eq_true_2. apply bits_left; [done|done|]. right. apply same_pair in Hs; [|lia|done|apply Hin]. rewrite (buddy_is_first n o), Ef in Hs by (done || lia).
      destruct Hs as [-> | ->]; [destruct Hin as (_ & _ & _ & ?); pose proof (pow2_pos o); lia|done].
    + apply bool_decide_ext. rewrite bits_left by done. split; [by left|]. intros [|(-> & -> & _)]; [done|]. exfalso. apply Hne. split; [done|]. apply same_pair; [lia|done|apply Hin|]. right. by rewrite (buddy_is_first n o), Ef by (done || lia).
  - exists a. split; [done|]. split; [done|]. intros p i Hp Hin. rewrite (fi_bits _ _ _ _ _ Hf) by done. apply bool_decide_ext. rewrite bits_left by done. split; [by left|]. intros [|(-> & _)]; [done|lia].
Qed.

Lemma all_maximal p i : 0 <= p <= m -> i ∈ fl p <-> maximal i p.
Proof.
  intros Hp. rewrite (fi_elem _ _ _ _ _ Hf) by done. split; [tauto|]. intros Hi. split; [done|]. destruct Hi as [(_ & _ & _ & ?) _]. pose proof (pow2_pos p). lia.
Qed.

Lemma filled_area : exists a', (if (o <? m) && negb (n =? page_buddy_first n o) then page_buddy_set a n o else Some a) = Some a' /\
  page_count a' = n /\ area_ok m off a' fl /\ forall x, page_free m fl x <-> off <= x < n.
Proof.
  destruct last_pair_bit as (a' & -> & (Hc' & Hf' & Hp') & Hb'). exists a'. split; [done|]. split; [done|]. split.
  - split; [by rewrite Hc'|intros p Hp; rewrite Hf', Hp'; by apply (fi_lists _ _ _ _ _ Hf)| |]; rewrite Hc'.
    + split; [intros p i Hp Hi; apply all_maximal in Hi; [apply Hi|done]|apply (fi_nodup _ _ _ _ _ Hf)| |].
      * intros x p i q j Hp Hq Hi Hj. apply all_maximal in Hi, Hj; [|done..]. by apply (maximal_unique i p j q x).
      * intros p i Hp Hi Hj. apply all_maximal in Hi, Hj; [|lia..]. apply (maximal_buddy i p) in Hi; [|lia|apply Hi]. apply Hi, Hj.
    + intros p i Hp Hin. rewrite Hb' by done. apply bool_decide_ext. rewrite !all_maximal by lia. rewrite <- maximal_buddy by (done || lia). split; [by left|]. intros [|Hj]; [done|].
      exfalso. pose proof Hj as [Hjin _]. apply (maximal_buddy (buddy i p) p) in Hj; [|lia|done]. rewrite buddy_buddy in Hj by (lia || apply Hin). done.
  - intros x. split.
    + intros (p & i & Hp & Hi & Hx). apply all_maximal in Hi as [(_ & _ & H1 & H2) _]; [lia|done].
    + intros Hx. destruct (page_in_maximal x Hx) as (i & p & Hi & Hxi). pose proof Hi as [(Hp & _) _]. exists p, i. split; [done|]. split; [by apply all_maximal|done].
Qed.
End Finish.

Lemma foldl_insert_const (c : Z) l : forall (f : Z -> Z) x, foldl (fun f o => <[o := c]> f) f l x = if decide (x ∈ l) then c else f x.
Proof.
  induction l as [|y l IH]; intros f x; cbn [foldl]; [by rewrite decide_False by apply not_elem_of_nil|]. rewrite IH. destruct (decide (x ∈ l)); [by rewrite decide_True by (by right)|].
  destruct (decide (x = y)) as [-> |Hne]; [rewrite fn_lookup_insert, decide_True by left|rewrite fn_lookup_insert_ne, decide_False by set_solver]; done.
Qed.

Lemma init_area_ok a : exists a' fl, init_area m a n off = Some a' /\ page_count a' = n /\ area_ok m off a' fl /\ forall x, page_free m fl x <-> off <= x < n.
Proof.
  unfold init_area. set (a0 := Area _ _ _ _). assert (Hf : filled a0 (fun _ => []) off 0 PAGE_INDEX_INVALID).
  { split; [done|lia|split; [lia|apply Z.divide_1_l]| | |intros; apply NoDup_nil_2| |by left|].
    - intros p Hp. cbn. rewrite foldl_insert_const, decide_True; [done|]. apply elem_of_seqZ. lia.
    - intros p i Hp. split; [by intros ?%not_elem_of_nil|]. intros [[(_ & _ & ? & _) _] ?]. lia.
    - intros i p [(_ & _ & ? & _) _] ?. lia.
    - intros p i Hp (_ & _ & H1 & _). unfold bbit, a0. cbn [buddies]. rewrite Z.testbit_0_l. symmetry. apply bool_decide_eq_false_2. intros [_ Hd]. pose proof (pow2_pos p). destruct (is_first i p); lia. }
  destruct (init_blocks_ok (S (Z.to_nat n)) a0 _ off 0 PAGE_INDEX_INVALID Hf ltac:(lia)) as (a1 & fl & o & last & -> & Hf1). cbn [mbind option_bind].
  destruct (filled_area a1 fl o last Hf1) as (a' & -> & Hr). by exists a', fl.
Qed.
End Init.
