(* ===== verification/BuddyHeap.v ===== *)
(** The page heap of Buddy.v: the lists of areas, what an area owns, and the invariant of the
    heap. *)

From stdpp Require Import functions.
From S2P Require Import Prelude Words Range Rbtree RbWalk Rangemap Dlist Buddy BuddyArea BuddyInit.

(** ** The lists of areas *)

Section Pool.
Context (m : Z) (hd_of : Z -> Z).

Definition rings (L : Z -> list Z) (os : list Z) : list (Z * list Z) := (fun o => (hd_of o, L o)) <$> os.

Definition orders : list Z := seqZ 0 (m + 1).

(** The areas [S], of which those in the lists [L] are linked and the others are not. *)
Record pooled (l : links) (L : Z -> list Z) (S : list Z) : Prop := {
  pl_lists : lists l (rings L orders);
  pl_in : forall o x, 0 <= o <= m -> x ∈ L o -> x ∈ S;
  pl_zero : 0 ∉ S;
  pl_heads : forall o, 0 <= o <= m -> hd_of o ∉ S;
  pl_out : forall x, x ∈ S -> (forall o, 0 <= o <= m -> x ∉ L o) -> l_next (l x) = 0;
}.

Lemma orders_split o : 0 <= o <= m -> orders ≡ₚ o :: filter (fun p => p <> o) orders.
Proof.
  intros Ho. apply NoDup_Permutation; [apply NoDup_seqZ|apply NoDup_cons; split; [rewrite list_elem_of_filter; tauto|apply NoDup_filter, NoDup_seqZ]|].
  intros x. rewrite elem_of_cons, list_elem_of_filter. unfold orders. rewrite elem_of_seqZ. destruct (decide (x = o)); [|naive_solver]. subst. split; [by left|]. intros _. lia.
Qed.

Lemma rings_split L o : 0 <= o <= m -> rings L orders ≡ₚ (hd_of o, L o) :: rings L (filter (fun p => p <> o) orders).
Proof. intros Ho. unfold rings. by rewrite (orders_split o Ho) at 1. Qed.

Lemma rings_other L o l : rings (<[o := l]> L) (filter (fun p => p <> o) orders) = rings L (filter (fun p => p <> o) orders).
Proof. apply list_fmap_ext. intros i p Hp. apply list_elem_of_lookup_2, list_elem_of_filter in Hp as [Hp _]. by rewrite fn_lookup_insert_ne. Qed.

Lemma rings_nodes L x : x ∈ nodes (rings L orders) <-> exists o, 0 <= o <= m /\ (x = hd_of o \/ x ∈ L o).
Proof.
  unfold nodes, rings. rewrite list_elem_of_bind. split.
  - intros ([h l] & Hx & Hin). apply list_elem_of_fmap in Hin as (o & [= -> ->] & Ho). apply elem_of_seqZ in Ho. exists o. split; [lia|]. by apply elem_of_cons in Hx.
  - intros (o & Ho & Hx). exists (hd_of o, L o). split; [by apply elem_of_cons|]. apply list_elem_of_fmap. exists o. split; [done|]. apply elem_of_seqZ. lia.
Qed.

Section Ops.
Context (l : links) (L : Z -> list Z) (S : list Z) (Hp : pooled l L S).

Lemma pool_next o : 0 <= o <= m -> list_get_next l (hd_of o) = hd 0 (L o).
Proof. intros Ho. pose proof (pl_lists _ _ _ Hp) as Hl. rewrite (rings_split L o Ho) in Hl. exact (get_next_ok l (hd_of o) _ (L o) Hl). Qed.

(** A new member between [l1] and [l2]. *)
Lemma pool_insert S' o x l1 l2 l' : 0 <= o <= m -> L o = l1 ++ l2 -> (forall y, y ∈ S' <-> y = x \/ y ∈ S) -> x <> 0 -> (forall p, 0 <= p <= m -> x <> hd_of p /\ x ∉ L p) ->
  lists l' ((hd_of o, l1 ++ x :: l2) :: rings L (filter (fun p => p <> o) orders)) -> (forall y, y <> x -> y <> hd_of o -> y ∉ L o -> l_next (l' y) = l_next (l y)) ->
  pooled l' (<[o := l1 ++ x :: l2]> L) S'.
Proof.
  intros Ho E HS Hx0 Hx Hl' Hfr. split.
  - rewrite (rings_split _ o Ho), rings_other, fn_lookup_insert. done.
  - intros p y Hpm Hy. apply HS. apply insert_elem in Hy as [[-> Hy]|[_ Hy]]; [|right; by apply (pl_in _ _ _ Hp p)].
    destruct (decide (y = x)); [by left|]. right. apply (pl_in _ _ _ Hp o); [done|]. rewrite E. set_solver.
  - rewrite HS. intros [?|?]; [done|by apply (pl_zero _ _ _ Hp)].
  - intros p Hpm. rewrite HS. intros [E'|?]; [destruct (Hx p Hpm); congruence|by apply (pl_heads _ _ _ Hp p)].
  - intros y Hy Hout. apply HS in Hy as [-> |Hy]; [exfalso; apply (Hout o Ho); rewrite fn_lookup_insert; set_solver|].
    assert (Hy' : forall p, 0 <= p <= m -> y ∉ L p).
    { intros p Hpm Hin. apply (Hout p Hpm). apply insert_elem. destruct (decide (p = o)) as [-> |]; [left; split; [done|]; rewrite E in Hin; set_solver|by right]. }
    rewrite Hfr; [by apply (pl_out _ _ _ Hp)|intros ->; apply (Hout o Ho); rewrite fn_lookup_insert; set_solver|intros ->; by apply (pl_heads _ _ _ Hp o)|by apply Hy'].
Qed.

Lemma pool_fresh x : x <> 0 -> (forall p, 0 <= p <= m -> x <> hd_of p /\ x ∉ L p) -> forall o, 0 <= o <= m -> x ∉ 0 :: nodes ((hd_of o, L o) :: rings L (filter (fun p => p <> o) orders)).
Proof.
  intros Hx0 Hx o' Ho' [?|Hn]%elem_of_cons; [done|]. assert (Hn' : x ∈ nodes (rings L orders)).
  { apply list_elem_of_bind in Hn as (r & Hr & Hin). apply list_elem_of_bind. exists r. split; [done|]. by rewrite (rings_split L o' Ho'). }
  clear Hn. rename Hn' into Hn. apply rings_nodes in Hn as (o & Ho & [?|?]); by destruct (Hx o Ho).
Qed.

Lemma pool_push S' o x : 0 <= o <= m -> (forall y, y ∈ S' <-> y = x \/ y ∈ S) -> x <> 0 -> (forall p, 0 <= p <= m -> x <> hd_of p /\ x ∉ L p) ->
  pooled (list_push l (hd_of o) x) (<[o := x :: L o]> L) S'.
Proof.
  intros Ho HS Hx0 Hx. pose proof (pl_lists _ _ _ Hp) as Hl. pose proof (pool_fresh x Hx0 Hx o Ho) as Hf. rewrite (rings_split L o Ho) in Hl.
  apply (pool_insert S' o x [] (L o)); [done..|apply (insert_after_ok l (hd_of o) _ [] (L o) x Hl Hf)|].
  intros y Hyx Hyh Hyo. destruct (Hx o Ho) as [Hxh Hxo]. destruct (lists_ring _ _ _ _ Hl) as (Hr & _ & _). apply linked_head in Hr as [Hn _].
  destruct (insert_after_between l (hd_of o) _ x Hn Hxh) as [-> _]; [intros ->; destruct (L o); [done|set_solver]|]. by rewrite !decide_False.
Qed.

Lemma pool_push_back S' o x : 0 <= o <= m -> (forall y, y ∈ S' <-> y = x \/ y ∈ S) -> x <> 0 -> (forall p, 0 <= p <= m -> x <> hd_of p /\ x ∉ L p) ->
  pooled (list_push_back l (hd_of o) x) (<[o := L o ++ [x]]> L) S'.
Proof.
  intros Ho HS Hx0 Hx. pose proof (pl_lists _ _ _ Hp) as Hl. pose proof (pool_fresh x Hx0 Hx o Ho) as Hf. rewrite (rings_split L o Ho) in Hl.
  rewrite <- (app_nil_r (L o)) in Hl, Hf at 1. apply (pool_insert S' o x (L o) []); [done|by rewrite app_nil_r|done..|apply (insert_before_ok l (hd_of o) _ (L o) [] x Hl Hf)|].
  intros y Hyx Hyh Hyo. destruct (lists_ring _ _ _ _ Hl) as (Hr & _ & _). rewrite app_nil_r in Hr. apply linked_last in Hr as [Hn _]. pose proof (last_node_elem (L o) (hd_of o)) as Hin.
  assert (Hl' : forall z, z <> hd_of o -> z ∉ L o -> z <> last_node (hd_of o) (L o)) by (intros z Hz Hzo ->; set_solver). destruct (Hx o Ho) as [Hxh Hxo].
  destruct (insert_before_between l _ (hd_of o) x Hn) as [-> _]; [by apply Hl'|done|]. rewrite !decide_False; [done|done|by apply Hl'].
Qed.

Lemma pool_delete o x l1 l2 : 0 <= o <= m -> L o = l1 ++ x :: l2 -> exists l', list_delete l x = Some l' /\ pooled l' (<[o := l1 ++ l2]> L) S.
Proof.
  intros Ho E. pose proof (pl_lists _ _ _ Hp) as Hl. rewrite (rings_split L o Ho), E in Hl. destruct (delete_ok l (hd_of o) _ l1 x l2 Hl) as (l' & Ed & Hl' & Hx'). exists l'. split; [done|].
  destruct (lists_ring _ _ _ _ Hl) as (Hr & Hnd & _). split.
  - rewrite (rings_split _ o Ho), rings_other, fn_lookup_insert. done.
  - intros p y Hpm Hy. apply insert_elem in Hy as [[-> Hy]|[_ Hy]]; [|by apply (pl_in _ _ _ Hp p)]. apply (pl_in _ _ _ Hp o); [done|]. rewrite E. set_solver.
  - apply (pl_zero _ _ _ Hp).
  - apply (pl_heads _ _ _ Hp).
  - intros y Hy Hout. destruct (decide (y = x)) as [-> |Hne]; [done|].
    assert (Hy' : forall p, 0 <= p <= m -> y ∉ L p).
    { intros p Hpm Hin. apply (Hout p Hpm). apply insert_elem. destruct (decide (p = o)) as [-> |]; [left; split; [done|]; rewrite E in Hin; set_solver|by right]. }
    rewrite <- (pl_out _ _ _ Hp y Hy Hy'). apply linked_app in Hr as [Hr1 Hr2]. apply linked_last in Hr1 as [Hpv _]. apply linked_head in Hr2 as [Hnx _].
    pose proof (last_node_elem l1 (hd_of o)) as Hin. assert (Hyh : y <> hd_of o) by (intros ->; by apply (pl_heads _ _ _ Hp o)). specialize (Hy' o Ho). rewrite E in Hy'.
    unfold list_delete in Ed. destruct (kassert _) as [[]|]; [|done]. cbn [mbind option_bind] in Ed. injection Ed as <-. autorewrite with links. rewrite Hpv.
    repeat (rewrite decide_False by (try done; intros ->; set_solver)). done.
Qed.
End Ops.

(** [x] is in the list of the order [k] alone, or in none. *)
Definition placed_at (L : Z -> list Z) (x k : Z) : Prop := forall o, 0 <= o <= m -> x ∈ L o <-> o = k.

(** The others are where they were. *)
Definition others_same (L L' : Z -> list Z) (x : Z) : Prop := forall y o, y <> x -> 0 <= o <= m -> y ∈ L' o <-> y ∈ L o.

Section Moves.
Context (l : links) (L : Z -> list Z) (S : list Z) (x k : Z) (Hp : pooled l L S) (Hx : x ∈ S) (Hk : placed_at L x k) (Hkm : -1 <= k <= m).

Lemma pool_ring o : 0 <= o <= m -> linked l (hd_of o) (L o) (hd_of o) /\ NoDup (0 :: hd_of o :: L o).
Proof.
  intros Ho. pose proof (pl_lists _ _ _ Hp) as Hl. rewrite (rings_split L o Ho) in Hl. destruct (lists_ring _ _ _ _ Hl) as (Hr & Hnd & _). split; [done|].
  apply NoDup_cons in Hnd as [Hz Hnd]. apply NoDup_cons. split; [|done]. done.
Qed.

Lemma pool_inserted : list_inserted l x = (0 <=? k).
Proof.
  unfold list_inserted. destruct (Z.leb_spec 0 k) as [H0|H0].
  - destruct (pool_ring k ltac:(lia)) as [Hr Hnd]. assert (Hin : x ∈ L k) by (apply Hk; [lia|done]). apply list_elem_of_split in Hin as (l1 & l2 & E). rewrite E in *.
    apply linked_app in Hr as [_ Hr]. apply linked_head in Hr as [-> _]. apply negb_true_iff, Z.eqb_neq. apply NoDup_cons in Hnd as [Hz _]. intros E0. apply Hz. rewrite <- E0. destruct l2; cbn; set_solver.
  - rewrite (pl_out _ _ _ Hp x Hx); [done|]. intros o Ho Hin. apply Hk in Hin; lia.
Qed.

Lemma pool_take : 0 <= k -> exists l' L', list_delete l x = Some l' /\ pooled l' L' S /\ placed_at L' x (-1) /\ others_same L L' x.
Proof.
  intros H0. destruct (pool_ring k ltac:(lia)) as [_ Hnd]. assert (Hin : x ∈ L k) by (apply Hk; [lia|done]). apply list_elem_of_split in Hin as (l1 & l2 & E). rewrite E in *.
  destruct (pool_delete l L S Hp k x l1 l2 ltac:(lia) E) as (l' & Ed & Hp'). exists l', (<[k := l1 ++ l2]> L). split; [done|]. split; [done|]. split.
  - intros o Ho. rewrite insert_elem. split; [|lia]. intros [[-> Hin]|[Hne Hin]]; [|apply Hk in Hin; [done|done]]. exfalso. apply NoDup_cons in Hnd as [_ Hnd]. apply NoDup_cons in Hnd as [_ Hnd].
    apply NoDup_app in Hnd as (_ & H1 & H2). apply NoDup_cons in H2 as [H2 _]. apply elem_of_app in Hin as [Hin|Hin]; [|done]. apply (H1 x Hin). left.
  - intros y o Hy Ho. rewrite insert_elem. destruct (decide (o = k)) as [-> |]; [rewrite E|]; set_solver.
Qed.

Lemma pool_back o : k = -1 -> 0 <= o <= m -> exists L', pooled (list_push_back l (hd_of o) x) L' S /\ placed_at L' x o /\ others_same L L' x.
Proof.
  intros -> Ho. exists (<[o := L o ++ [x]]> L). split; [|split].
  - apply (pool_push_back l L S); [done|done|intros y; split; [by right|by intros [-> |]]|intros ->; by apply (pl_zero _ _ _ Hp)|].
    intros p Hpm. split; [intros ->; by apply (pl_heads _ _ _ Hp p)|]. intros Hin. apply Hk in Hin; lia.
  - intros p Hpm. rewrite insert_elem, elem_of_app, list_elem_of_singleton. split; [|intros ->; left; split; [done|by right]]. intros [[-> _]|[_ Hin]]; [done|]. apply Hk in Hin; lia.
  - intros y p Hy Hpm. rewrite insert_elem, elem_of_app, list_elem_of_singleton. destruct (decide (p = o)) as [-> |]; naive_solver.
Qed.
End Moves.

Lemma pool_front l L S x k S' o : pooled l L S -> placed_at L x (-1) -> -1 <= k <= m -> 0 <= o <= m -> (forall y, y ∈ S' <-> y = x \/ y ∈ S) -> x <> 0 -> (forall p, 0 <= p <= m -> x <> hd_of p) ->
  exists L', pooled (list_push l (hd_of o) x) L' S' /\ placed_at L' x o /\ others_same L L' x.
Proof.
  intros Hp Hk Hkm Ho HS Hx0 Hxh. exists (<[o := x :: L o]> L). split; [|split].
  - apply (pool_push l L S); [done..|]. intros p Hpm. split; [by apply Hxh|]. intros Hin. apply Hk in Hin; lia.
  - intros p Hpm. rewrite insert_elem, elem_of_cons. split; [|intros ->; left; split; [done|by left]]. intros [[-> _]|[_ Hin]]; [done|]. apply Hk in Hin; lia.
  - intros y p Hy Hpm. rewrite insert_elem, elem_of_cons. destruct (decide (p = o)) as [-> |]; naive_solver.
Qed.

(** Moving an area to the front of another list, or of its own. *)
Lemma pool_move l L S x k o : pooled l L S -> x ∈ S -> placed_at L x k -> -1 <= k <= m -> 0 <= o <= m ->
  exists l1 L', (if list_inserted l x then list_delete l x else Some l) = Some l1 /\ pooled (list_push l1 (hd_of o) x) L' S /\ placed_at L' x o /\ others_same L L' x.
Proof.
  intros Hp Hx Hk Hkm Ho. rewrite (pool_inserted l L S x k Hp Hx Hk Hkm).
  assert (H1 : exists l1 L1, (if 0 <=? k then list_delete l x else Some l) = Some l1 /\ pooled l1 L1 S /\ placed_at L1 x (-1) /\ others_same L L1 x).
  { destruct (Z.leb_spec 0 k) as [H0|H0]; [by apply (pool_take l L S x k)|]. exists l, L. split; [done|]. split; [done|]. split; [by replace (-1) with k by lia|done]. }
  destruct H1 as (l1 & L1 & -> & Hp1 & Hk1 & Hs1).
  destruct (pool_front l1 L1 S x (-1) S o Hp1 Hk1 ltac:(lia) Ho) as (L' & Hp' & Hk' & Hs'); [intros y; split; [by right|by intros [-> |]]|intros ->; by apply (pl_zero _ _ _ Hp)|intros p Hpm ->; by apply (pl_heads _ _ _ Hp p)|].
  exists l1, L'. split; [done|]. split; [done|]. split; [done|]. intros y p Hy Hpm. by rewrite (Hs' y p Hy Hpm), (Hs1 y p Hy Hpm).
Qed.
End Pool.

(** ** The areas of a heap *)

Definition limit (s : Z) : Z := 65536 * (s / 65536 + 1).

(** The page of index 0 of an area with its header at the page [s] and [n] pages. *)
Definition area_base (m s n : Z) : Z := first_page s n - first_index m s n.

(** Where the header of an area of a range can be: at its start, or at a boundary. *)
Definition candidate (r : range) (s : Z) : Prop := start r <= s /\ (s = start r \/ (65536 | s)) /\ s + 4 <= end_ r /\ s + 4 <= limit s.

(** [n] is the number of pages of the area of the range [r] with its header at the page [s]. *)
Definition sized (m : Z) (r : range) (s n : Z) : Prop :=
  check_area_size (Z.to_nat (2 * PAGEHEAP_AREA_MAX_PAGES)) m s (Z.min (end_ r) (limit s)) PAGEHEAP_AREA_MAX_PAGES = Some (n, first_index m s n, pageheap_header_size n).

(** An area takes all its room but for less than the smallest area, and its indices are
    below [PAGE_INDEX_INVALID]. *)
Definition well_placed (m : Z) (r : range) : Prop :=
  forall s n, candidate r s -> sized m r s n -> n <= PAGE_INDEX_INVALID /\ Z.min (end_ r) (limit s) < area_base m s n + n + 4.

(** An area: where its header is, and the lists of its free blocks. *)
Record garea := Garea { g_start : Z; g_fl : Z -> list Z }.

Definition g_addr (h : page_heap) (g : garea) : Z := virt_base h + 4096 * g_start g.
Definition g_area (h : page_heap) (g : garea) : pageheap_area := area_at h (g_addr h g).
Definition g_count (h : page_heap) (g : garea) : Z := page_count (g_area h g).
Definition g_off (h : page_heap) (g : garea) : Z := first_index (max_order h) (g_start g) (g_count h g).
Definition g_base (h : page_heap) (g : garea) : Z := area_base (max_order h) (g_start g) (g_count h g).

Record area_inv (h : page_heap) (g : garea) (a : rmnode) : Prop := {
  ai_start : candidate (n_r a) (g_start g);
  ai_sized : sized (max_order h) (n_r a) (g_start g) (g_count h g);
  ai_inited : g_base h g + g_count h g <= ph_inited h (n_addr a);
  ai_ok : area_ok (max_order h) (g_off h g) (g_area h g) (g_fl g);
}.

Definition range_pages (l : list rmnode) : Z := foldr (fun a n => end_ (n_r a) - start (n_r a) + n) 0 l.

(** Where the next area of a range starts, or that there is none. *)
Definition next_ok (r : range) (i : Z) : Prop :=
  start r <= i <= end_ r /\ (i = start r \/ (65536 | i) \/ end_ r < i + 4 \/ limit i < i + 4).

(** What the memory that is added, and the address of the lists, have to be like. *)
Record layout (h : page_heap) : Prop := {
  ly_order : 0 <= max_order h <= 9;
  ly_base : 0 < virt_base h;
  ly_fit : forall a, a ∈ rm_contents (ph_ranges h) -> virt_base h + 4096 * end_ (n_r a) < 2 ^ 64;
  ly_exact : forall a, a ∈ rm_contents (ph_ranges h) -> well_placed (max_order h) (n_r a);
  ly_heads : forall o, 0 <= o <= max_order h -> areas h o <> 0 /\
    forall a, a ∈ rm_contents (ph_ranges h) -> ~ virt_base h + 4096 * start (n_r a) <= areas h o < virt_base h + 4096 * end_ (n_r a);
}.

Record placement (h : page_heap) : Prop := {
  hp_layout : layout h;
  hp_rm : rm_wf (ph_ranges h);
  hp_total : 4096 * range_pages (rm_contents (ph_ranges h)) <= ph_total h;
}.

Definition hp_order h (H : placement h) := ly_order h (hp_layout h H).
Definition hp_base h (H : placement h) := ly_base h (hp_layout h H).
Definition hp_fit h (H : placement h) := ly_fit h (hp_layout h H).
Definition hp_exact h (H : placement h) := ly_exact h (hp_layout h H).
Definition hp_heads h (H : placement h) := ly_heads h (hp_layout h H).

Record heap_inv (h : page_heap) (Gs : list garea) (L : Z -> list Z) : Prop := {
  hv_place : placement h;
  hv_next : forall a, a ∈ rm_contents (ph_ranges h) -> next_ok (n_r a) (ph_inited h (n_addr a));
  hv_area : forall g, g ∈ Gs -> exists a, a ∈ rm_contents (ph_ranges h) /\ area_inv h g a;
  hv_starts : forall a s, a ∈ rm_contents (ph_ranges h) -> candidate (n_r a) s -> s < ph_inited h (n_addr a) -> s ∈ g_start <$> Gs;
  hv_nodup : NoDup (g_start <$> Gs);
  hv_pool : pooled (max_order h) (areas h) (ph_lk h) L (g_addr h <$> Gs);
  hv_top : forall g k, g ∈ Gs -> is_top (max_order h) (g_fl g) k -> placed_at (max_order h) L (g_addr h g) k;
}.

(** The page [x] of physical memory is handed out. *)
Definition page_used (h : page_heap) (Gs : list garea) (x : Z) : Prop :=
  exists g, g ∈ Gs /\ g_off h g <= x - g_base h g < g_count h g /\ ~ page_free (max_order h) (g_fl g) (x - g_base h g).

(** The pages that the areas of the heap have when all of them are there. *)
Definition usable (h : page_heap) (x : Z) : Prop :=
  exists a s n, a ∈ rm_contents (ph_ranges h) /\ candidate (n_r a) s /\ sized (max_order h) (n_r a) s n /\ first_page s n <= x < area_base (max_order h) s n + n.

Lemma limit_spec s : s < limit s <= s + 65536 /\ (65536 | limit s).
Proof. unfold limit. pose proof (Z.div_mod s 65536). pose proof (Z.mod_pos_bound s 65536). split; [lia|]. exists (s / 65536 + 1). lia. Qed.

Lemma limit_least s t : s < t -> (65536 | t) -> limit s <= t.
Proof. intros Hs [k ->]. unfold limit. pose proof (Z.div_lt_upper_bound s 65536 k). lia. Qed.

Lemma limit_same s t : s <= t < limit s -> limit t = limit s.
Proof.
  unfold limit. intros Ht. pose proof (Z.div_mod s 65536). pose proof (Z.mod_pos_bound s 65536).
  assert (t / 65536 = s / 65536) as ->; [|done]. symmetry. apply (Z.div_unique _ _ _ (t - 65536 * (s / 65536))); lia.
Qed.

Lemma top_exists m fl : -1 <= m -> exists k, is_top m fl k.
Proof.
  intros Hm. assert (H : forall n : nat, Z.of_nat n <= m + 1 -> exists k, -1 <= k < Z.of_nat n /\ (forall p, k < p < Z.of_nat n -> fl p = []) /\ (0 <= k -> fl k <> [])).
  { induction n as [|n IH]; intros Hn; [exists (-1); split; [lia|]; split; [lia|lia]|]. destruct (fl (Z.of_nat n)) eqn:E; [|exists (Z.of_nat n); split; [lia|]; split; [lia|congruence]].
    destruct IH as (k & Hk & Hk1 & Hk2); [lia|]. exists k. split; [lia|]. split; [|done]. intros p Hp. destruct (Z.eq_dec p (Z.of_nat n)) as [-> |]; [done|apply Hk1; lia]. }
  destruct (H (Z.to_nat (m + 1)) ltac:(lia)) as (k & Hk & Hk1 & Hk2). exists k. split; [lia|]. split; [|done]. intros p Hp. apply Hk1. lia.
Qed.

(** *** One area *)

Section One.
Context (m : Z) (r : range) (s n : Z) (Hm : 0 <= m <= 9) (Hr : 0 <= start r) (He : end_ r < 2 ^ 52) (Hc : candidate r s) (Hn : sized m r s n).

Lemma area_fits : fits m s (Z.min (end_ r) (limit s)) n.
Proof.
  destruct Hc as (H1 & _ & H2 & H3). destruct (area_size m s (Z.min (end_ r) (limit s)) Hm) as (n' & E & Hf); [lia..|]. unfold sized in Hn. rewrite Hn in E. by injection E as <- _.
Qed.

Lemma area_numbers : s + 3 <= first_page s n /\ first_page s n < area_base m s n + n /\ area_base m s n + n <= end_ r /\ area_base m s n + n <= limit s /\
  0 <= area_base m s n /\ (2 ^ m | area_base m s n) /\ 1 <= n <= 65536 /\ 0 <= first_index m s n < n /\ first_page s n <= s + 67.
Proof.
  destruct area_fits as [H1 H2]. pose proof (first_index_bound m s Hm n). pose proof (header_max n ltac:(lia)). destruct Hc as (Hc1 & _). unfold area_base, first_page in *.
  split; [lia|]. split; [lia|]. split; [lia|]. split; [lia|]. pose proof (pow2_pos m). pose proof (Z.div_mod (s + header_pages n) (2 ^ m)) as Ed. pose proof (Z.mod_le (s + header_pages n) (2 ^ m)).
  unfold first_index, first_page in *. split; [lia|]. split; [|lia]. exists ((s + header_pages n) / 2 ^ m). lia.
Qed.

End One.

(** The header is where the window of the page starts, or its range. *)
Lemma area_owner r s x : candidate r s -> s <= x < limit s -> s = Z.max (start r) (65536 * (x / 65536)).
Proof.
  intros Hc Hx. destruct Hc as (H1 & H2 & _). assert (E : 65536 * (x / 65536) = limit s - 65536) by (rewrite <- (limit_same s x Hx); unfold limit; lia). pose proof (limit_spec s) as [Hl _]. rewrite E.
  destruct H2 as [->|Hd]; [lia|]. assert (limit s = s + 65536); [|lia]. destruct Hd as [k ->]. unfold limit. rewrite Z.div_mul; lia.
Qed.

Lemma area_base_address (h : page_heap) x (s n : Z) : 0 <= max_order h <= 9 -> page_count (area_at h x) = n -> x = virt_base h + 4096 * s -> 0 <= s -> 1 <= n <= 65536 -> 4096 * first_page s n < 2 ^ 64 -> 
  pageheap_area_base h x = 4096 * area_base (max_order h) s n.
Proof.
  intros Hm En -> Hs Hn Hb. unfold pageheap_area_base. rewrite En, header_size by lia. pose proof (header_max n Hn). unfold first_page in Hb.
  replace (virt_base h + 4096 * s + 4096 * header_pages n - virt_base h) with (4096 * (s + header_pages n)) by lia. rewrite u64_small by lia.
  change PAGELOG with 12. rewrite MASK_ones by lia. rewrite Z.ones_equiv, <- Z.sub_1_r, land_clear_low by lia. rewrite Z.pow_add_r by lia. change (2 ^ 12) with 4096. pose proof (pow2_pos (max_order h)).
  rewrite Z.div_mul_cancel_l by lia. unfold area_base, first_index, first_page. pose proof (Z.div_mod (s + header_pages n) (2 ^ max_order h)). lia.
Qed.

(** *** The ranges *)

Lemma ranges_disjoint l a b x : wf_nodes l -> a ∈ l -> b ∈ l -> in_range (n_r a) x -> in_range (n_r b) x -> a = b.
Proof.
  intros Hwf Ha Hb Hxa Hxb. unfold in_range in *. apply list_elem_of_split in Ha as (l1 & l2 & ->). destruct Hwf as [_ Hs _ _]. apply StronglySorted_app in Hs as (H12 & _ & Hs2). apply StronglySorted_cons in Hs2 as [Hs2 _].
  rewrite Forall_forall in Hs2. apply elem_of_app in Hb as [Hb|[->|Hb]%elem_of_cons]; [|done|].
  - specialize (H12 b a Hb ltac:(left)). unfold precedes in H12. lia.
  - specialize (Hs2 b Hb). unfold precedes in Hs2. lia.
Qed.

Lemma ranges_valid rm a : rm_wf rm -> a ∈ rm_contents rm -> valid_range (n_r a) /\ rm_deref rm (n_addr a) = Some a /\ n_addr a <> 0.
Proof.
  intros Hwf Ha. pose proof (wf_contents _ Hwf) as [Hv _ _ Hn]. rewrite Forall_forall in Hv, Hn. split; [by apply Hv|]. split; [|by apply Hn].
  apply list_elem_of_split in Ha as (l1 & l2 & E). apply (rm_deref_spec rm l1 a l2); [by apply wf_ok|done].
Qed.

Lemma ranges_lookup rm a x : rm_wf rm -> a ∈ rm_contents rm -> in_range (n_r a) x -> x < 2 ^ 64 - 1 -> rangemap_lookup rm x = Some (Some (n_addr a)).
Proof.
  intros Hwf Ha Hx Hb. destruct (ranges_valid rm a Hwf Ha) as ([Hv _] & _). pose proof Hx as Hx'. unfold in_range in Hx. rewrite (lookup_spec rm x Hwf) by lia.
  assert (Hpt : forall b, overlap (irange x (x + 1)) (n_r b) = true <-> in_range (n_r b) x) by (intros b; unfold overlap, in_range; cbn; rewrite Z.ltb_lt; lia).
  destruct (first_overlap _ _) as [b|] eqn:Ef.
  - apply first_overlap_some in Ef as [Hb' Ho]. apply Hpt in Ho. by rewrite (ranges_disjoint _ a b x (wf_contents _ Hwf)).
  - pose proof (first_overlap_none _ _ (wf_contents _ Hwf) Ef) as Hno. rewrite Forall_forall in Hno. specialize (Hno a Ha). apply Hpt in Hx'. congruence.
Qed.

Section Placed.
Context (h : page_heap) (Hh : placement h).

Lemma range_bounds a : a ∈ rm_contents (ph_ranges h) -> 0 <= start (n_r a) /\ start (n_r a) < end_ (n_r a) /\ end_ (n_r a) < 2 ^ 52 /\ virt_base h + 4096 * end_ (n_r a) < 2 ^ 64 /\ 0 < virt_base h.
Proof.
  intros Ha. destruct (ranges_valid _ a (hp_rm _ Hh) Ha) as ((Hv & _) & _). pose proof (hp_fit _ Hh a Ha). pose proof (hp_base _ Hh). lia.
Qed.

(** The area that owns a page. *)
Lemma from_page_ok a s n p : a ∈ rm_contents (ph_ranges h) -> candidate (n_r a) s -> sized (max_order h) (n_r a) s n -> s <= p / 4096 < area_base (max_order h) s n + n ->
  pageheap_area_from_page h p = Some (virt_base h + 4096 * s).
Proof.
  intros Ha Hc Hn Hp. destruct (range_bounds a Ha) as (B1 & B2 & B3 & B4 & B5). destruct (area_numbers _ _ s n (hp_order _ Hh) B1 B3 Hc Hn) as (N1 & N2 & N3 & N4 & _). pose proof Hc as (C1 & _).
  pose proof (Z.div_mod p 4096). pose proof (Z.mod_pos_bound p 4096). unfold pageheap_area_from_page. change (PAGEHEAP_AREA_MAX_PAGES * PAGESIZE - 1) with (2 ^ 28 - 1). rewrite land_clear_low by lia.
  rewrite Z.shiftr_div_pow2 by done. change (2 ^ PAGELOG) with 4096. rewrite (ranges_lookup _ a) by (try apply Hh; unfold in_range; done || lia). cbn [mbind option_bind].
  destruct (ranges_valid _ a (hp_rm _ Hh) Ha) as (_ & -> & _). cbn [mbind option_bind]. rewrite Z.shiftl_mul_pow2 by done. change (2 ^ PAGELOG) with 4096. rewrite (u64_small (_ * 4096)) by lia.
  replace (2 ^ 28) with (4096 * 65536) by done. rewrite <- Z.div_div by lia. pose proof (area_owner _ s (p / 4096) Hc ltac:(lia)) as Es.
  f_equal. rewrite u64_small; destruct (Z.ltb_spec (4096 * 65536 * (p / 4096 / 65536)) (start (n_r a) * 4096)); lia.
Qed.

(** Areas do not meet. *)
Lemma areas_apart a s n b t k x : a ∈ rm_contents (ph_ranges h) -> candidate (n_r a) s -> sized (max_order h) (n_r a) s n -> s <= x < area_base (max_order h) s n + n ->
  b ∈ rm_contents (ph_ranges h) -> candidate (n_r b) t -> sized (max_order h) (n_r b) t k -> t <= x < area_base (max_order h) t k + k -> a = b /\ s = t /\ n = k.
Proof.
  intros Ha Hc Hn Hx Hb Ht Hk Hx'. destruct (range_bounds a Ha) as (B1 & B2 & B3 & B4 & B5). destruct (area_numbers _ _ s n (hp_order _ Hh) B1 B3 Hc Hn) as (N1 & N2 & N3 & N4 & _). pose proof Hc as (C1 & _).
  destruct (range_bounds b Hb) as (B1' & B2' & B3' & _). destruct (area_numbers _ _ t k (hp_order _ Hh) B1' B3' Ht Hk) as (M1 & M2 & M3 & M4 & _). pose proof Ht as (C1' & _).
  assert (a = b) as ->. { apply (ranges_disjoint _ a b x (wf_contents _ (hp_rm _ Hh))); unfold in_range; done || lia. }
  split; [done|]. assert (s = t) as ->; [by rewrite (area_owner _ s x Hc), (area_owner _ t x Ht) by lia|]. split; [done|]. unfold sized in Hn, Hk. congruence.
Qed.
End Placed.
