(* ===== verification/BuddyAlloc.v ===== *)
(** The page heap of Buddy.v: what releasing pages and taking them from an area do to the
    invariant of BuddyHeap.v. *)

From stdpp Require Import functions.
From S2P Require Import Prelude Words Range Rbtree RbWalk Rangemap Dlist Buddy BuddyArea BuddyInit BuddyHeap.

Lemma fmap_inj_on {A B} (f : A -> B) l x y : NoDup (f <$> l) -> x ∈ l -> y ∈ l -> f x = f y -> x = y.
Proof.
  intros Hd Hx Hy E. apply list_elem_of_lookup in Hx as [i Hi], Hy as [j Hj]. assert (i = j) as ->; [|congruence].
  apply (NoDup_lookup _ i j (f x) Hd); rewrite list_lookup_fmap; [by rewrite Hi|by rewrite Hj, E].
Qed.

(** The page [x] is one of the area. *)
Definition own (h : page_heap) (g : garea) (x : Z) : Prop := g_off h g <= x - g_base h g < g_count h g.

#[export] Instance own_dec h g x : Decision (own h g x).
Proof. unfold own. apply _. Defined.

(** ** A heap with its areas *)

Section Heap.
Context (h : page_heap) (Gs : list garea) (L : Z -> list Z) (Hv : heap_inv h Gs L).
Notation m := (max_order h).

Lemma garea_numbers g : g ∈ Gs -> exists a, a ∈ rm_contents (ph_ranges h) /\ area_inv h g a /\ g_base h g + g_off h g = first_page (g_start g) (g_count h g) /\
  g_start g + 3 <= g_base h g + g_off h g <= g_start g + 67 /\ 0 <= g_off h g < g_count h g /\ g_base h g + g_count h g <= end_ (n_r a) /\ g_base h g + g_count h g <= limit (g_start g) /\
  0 <= g_base h g /\ (2 ^ m | g_base h g) /\ 1 <= g_count h g <= PAGE_INDEX_INVALID /\ virt_base h + 4096 * end_ (n_r a) < 2 ^ 64 /\ 0 < virt_base h /\ 0 <= start (n_r a) <= g_start g.
Proof.
  intros Hg. destruct (hv_area _ _ _ Hv g Hg) as (a & Ha & Hi). exists a. split; [done|]. split; [done|]. pose proof (hv_place _ _ _ Hv) as Hp. destruct (range_bounds h Hp a Ha) as (B1 & B2 & B3 & B4 & B5).
  destruct (area_numbers _ _ _ _ (hp_order _ Hp) B1 B3 (ai_start _ _ _ Hi) (ai_sized _ _ _ Hi)) as (N1 & N2 & N3 & N4 & N5 & N6 & N7 & N8 & N9). pose proof (ao_count _ _ _ _ (ai_ok _ _ _ Hi)) as Hc.
  destruct (ai_start _ _ _ Hi) as (C1 & _). unfold g_base, g_off, area_base in *. fold (g_count h g) in *. unfold g_count in *. split_and!; try lia. done.
Qed.

Lemma own_unique g1 g2 x : g1 ∈ Gs -> g2 ∈ Gs -> own h g1 x -> own h g2 x -> g1 = g2.
Proof.
  unfold own. intros H1 H2 O1 O2. destruct (garea_numbers g1 H1) as (a & Ha & Hi & E1 & N1 & _). destruct (garea_numbers g2 H2) as (b & Hb & Hj & E2 & N2 & _).
  destruct (areas_apart h (hv_place _ _ _ Hv) a (g_start g1) (g_count h g1) b (g_start g2) (g_count h g2) x) as (_ & Es & _); [done|apply Hi|apply Hi|fold (g_base h g1); lia|done|apply Hj|apply Hj|fold (g_base h g2); lia|].
  apply (fmap_inj_on g_start Gs); [apply Hv|done..].
Qed.

Lemma used_in g x : g ∈ Gs -> own h g x -> page_used h Gs x <-> ~ page_free m (g_fl g) (x - g_base h g).
Proof.
  intros Hg Ho. split; [|intros Hf; exists g; done]. intros (g' & Hg' & Ho' & Hf). by rewrite (own_unique g g' x).
Qed.

Lemma addr_inj g1 g2 : g1 ∈ Gs -> g2 ∈ Gs -> g_addr h g1 = g_addr h g2 -> g1 = g2.
Proof. intros H1 H2 E. apply (fmap_inj_on g_start Gs); [apply Hv|done..|unfold g_addr in E; lia]. Qed.

Lemma area_index g i : g ∈ Gs -> 0 <= i < g_count h g -> pageheap_area_base h (g_addr h g) = 4096 * g_base h g /\
  pageheap_index h (g_addr h g) (4096 * (g_base h g + i)) = i /\ u64 (pageheap_area_base h (g_addr h g) + i * PAGESIZE) = 4096 * (g_base h g + i) /\ 4096 * (g_base h g + i) < 2 ^ 64 - 4096.
Proof.
  intros Hg Hi. destruct (garea_numbers g Hg) as (a & Ha & Hia & E & N1 & N2 & N3 & N4 & N5 & N6 & N7 & N8 & N9 & N10). pose proof (hv_place _ _ _ Hv) as Hp.
  assert (Eb : pageheap_area_base h (g_addr h g) = 4096 * g_base h g). { apply area_base_address; [apply Hp|done|done|lia|unfold PAGE_INDEX_INVALID in *; lia|rewrite <- E; lia]. }
  unfold pageheap_index. rewrite Eb. change PAGESIZE with 4096. split; [done|]. split; [|split; [rewrite u64_small; lia|lia]].
  rewrite u64_small by lia. replace (4096 * (g_base h g + i) - 4096 * g_base h g) with (i * 4096) by lia. by apply Z.div_mul.
Qed.

Lemma area_of_page g p : g ∈ Gs -> own h g (p / 4096) -> pageheap_area_from_page h p = Some (g_addr h g).
Proof.
  unfold own. intros Hg Ho. destruct (garea_numbers g Hg) as (a & Ha & Hi & E & N1 & _). apply (from_page_ok h (hv_place _ _ _ Hv) a (g_start g) (g_count h g)); [done|apply Hi|apply Hi|fold (g_base h g); lia].
Qed.
End Heap.

(** ** A change of one area *)

Section Update.
Context (h : page_heap) (G1 : list garea) (g : garea) (G2 : list garea) (L : Z -> list Z) (Hv : heap_inv h (G1 ++ g :: G2) L).
Context (a' : pageheap_area) (fl' : Z -> list Z) (l' : links) (L' : Z -> list Z) (al k : Z).
Notation m := (max_order h).
Notation x := (g_addr h g).
Context (Hc : page_count a' = g_count h g) (Ha' : area_ok m (g_off h g) a' fl') (Hp' : pooled m (areas h) l' L' (g_addr h <$> G1 ++ g :: G2)).
Context (Hk : is_top m fl' k) (Hk' : placed_at m L' x k) (Hs : others_same m L L' x).

Definition changed : page_heap := set_ph_allocated (set_ph_lk (set_area h x a') l') al.
Definition g' : garea := Garea (g_start g) fl'.

Lemma other_area b : b ∈ G1 ++ G2 -> b ∈ G1 ++ g :: G2 /\ g_addr h b <> x /\ g_area changed b = g_area h b.
Proof.
  intros Hb. assert (Hin : b ∈ G1 ++ g :: G2) by set_solver. split; [done|]. assert (Hne : g_addr h b <> x).
  { intros E. pose proof (hv_nodup _ _ _ Hv) as Hd. rewrite fmap_app, fmap_cons in Hd. apply NoDup_app in Hd as (_ & H1 & H2). apply NoDup_cons in H2 as [H2 _].
    assert (Es : g_start b = g_start g) by (unfold g_addr in E; lia). apply elem_of_app in Hb as [Hb|Hb]; apply (list_elem_of_fmap_2 g_start) in Hb; rewrite Es in Hb; [|done]. apply (H1 _ Hb). left. }
  split; [done|]. unfold g_area, changed. cbn. change (g_addr _ b) with (g_addr h b). by rewrite fn_lookup_insert_ne.
Qed.

Lemma this_area : g_area changed g' = a'.
Proof. unfold g_area, changed, g'. cbn. change (g_addr _ _) with x. by rewrite fn_lookup_insert. Qed.

Lemma this_numbers : g_count changed g' = g_count h g /\ g_off changed g' = g_off h g /\ g_base changed g' = g_base h g.
Proof. assert (E : g_count changed g' = g_count h g) by (unfold g_count at 1; by rewrite this_area). unfold g_off, g_base. by rewrite E. Qed.

Lemma other_numbers b : b ∈ G1 ++ G2 -> g_count changed b = g_count h b /\ g_off changed b = g_off h b /\ g_base changed b = g_base h b.
Proof. intros Hb. assert (E : g_count changed b = g_count h b) by (unfold g_count; by destruct (other_area b Hb) as (_ & _ & ->)). unfold g_off, g_base. by rewrite E. Qed.

Lemma split_member b : b ∈ G1 ++ g' :: G2 <-> b = g' \/ b ∈ G1 ++ G2.
Proof. set_solver. Qed.

Lemma heap_update : heap_inv changed (G1 ++ g' :: G2) L'.
Proof.
  assert (Es : g_start <$> G1 ++ g' :: G2 = g_start <$> G1 ++ g :: G2) by by rewrite !fmap_app, !fmap_cons.
  assert (Ea : g_addr changed <$> G1 ++ g' :: G2 = g_addr h <$> G1 ++ g :: G2) by by rewrite !fmap_app, !fmap_cons.
  split.
  - destruct (hv_place _ _ _ Hv) as [[] ? ?]. by split.
  - apply (hv_next _ _ _ Hv).
  - intros b [->|Hb]%split_member.
    + destruct (hv_area _ _ _ Hv g ltac:(set_solver)) as (a & Ha & Hi). exists a. split; [done|]. destruct this_numbers as (E1 & E2 & E3). split.
      * apply Hi.
      * rewrite E1. apply Hi.
      * rewrite E1, E3. apply Hi.
      * rewrite E2, this_area. done.
    + destruct (other_area b Hb) as (Hin & _ & E). destruct (hv_area _ _ _ Hv b Hin) as (a & Ha & Hi). exists a. split; [done|]. destruct (other_numbers b Hb) as (E1 & E2 & E3). split.
      * apply Hi.
      * rewrite E1. apply Hi.
      * rewrite E1, E3. apply Hi.
      * rewrite E2, E. apply Hi.
  - rewrite Es. apply (hv_starts _ _ _ Hv).
  - rewrite Es. apply (hv_nodup _ _ _ Hv).
  - rewrite Ea. done.
  - intros b j [->|Hb]%split_member Hj.
    + by rewrite (top_unique m fl' j k).
    + destruct (other_area b Hb) as (Hin & Hne & _). intros o Ho. change (g_addr changed b) with (g_addr h b). rewrite (Hs _ o Hne Ho). by apply (hv_top _ _ _ Hv).
Qed.

Lemma used_here y : own h g y -> page_used changed (G1 ++ g' :: G2) y <-> ~ page_free m fl' (y - g_base h g).
Proof.
  intros Ho. destruct this_numbers as (E1 & E2 & E3). rewrite (used_in changed _ L' heap_update g' y); [by rewrite E3|set_solver|]. unfold own. by rewrite E1, E2, E3.
Qed.

Lemma used_elsewhere y : ~ own h g y -> page_used changed (G1 ++ g' :: G2) y <-> page_used h (G1 ++ g :: G2) y.
Proof.
  intros Ho. destruct this_numbers as (E1 & E2 & E3). split; intros (b & Hb & Hin & Hf).
  - apply split_member in Hb as [->|Hb]; [rewrite E1, E2, E3 in Hin; by destruct Ho|]. destruct (other_numbers b Hb) as (F1 & F2 & F3). rewrite F1, F2, F3 in Hin. rewrite F3 in Hf. exists b. split; [set_solver|]. done.
  - assert (b = g \/ b ∈ G1 ++ G2) as [-> |Hb'] by (clear -Hb; set_solver); [done|]. destruct (other_numbers b Hb') as (F1 & F2 & F3). exists b. split; [set_solver|]. by rewrite F1, F2, F3.
Qed.
End Update.

(** ** Releasing pages *)

(** What stays the same. *)
Definition same_place (h h' : page_heap) : Prop :=
  ph_ranges h' = ph_ranges h /\ max_order h' = max_order h /\ virt_base h' = virt_base h /\ areas_addr h' = areas_addr h /\ ph_total h' = ph_total h.

Section Dealloc.
Context (h : page_heap) (Gs : list garea) (L : Z -> list Z) (Hv : heap_inv h Gs L).
Notation m := (max_order h).

(** Pages next to one another that are in use are of one area. *)
Lemma used_run g i c : g ∈ Gs -> own h g i -> (forall x, i <= x < i + Z.of_nat c -> page_used h Gs x) -> forall x, i <= x < i + Z.of_nat c -> own h g x.
Proof.
  intros Hg Hi. induction c as [|c IH]; intros Hu x Hx; [lia|]. destruct (decide (x < i + Z.of_nat c)) as [Hlt|Hge]; [apply IH; [intros y Hy; apply Hu; lia|lia]|].
  destruct (Hu x Hx) as (g2 & Hg2 & Ho2 & _). destruct (decide (x = i)) as [->|Hne]; [done|]. assert (Hp : own h g (x - 1)) by (apply IH; [intros y Hy; apply Hu; lia|lia]). unfold own in *.
  destruct (garea_numbers h Gs L Hv g Hg) as (a & Ha & Hia & E1 & N1 & _). destruct (garea_numbers h Gs L Hv g2 Hg2) as (b & Hb & Hib & E2 & N2 & _).
  destruct (areas_apart h (hv_place _ _ _ Hv) a (g_start g) (g_count h g) b (g_start g2) (g_count h g2) (x - 1)) as (_ & Es & _); [done|apply Hia|apply Hia|fold (g_base h g); lia|done|apply Hib|apply Hib|fold (g_base h g2); lia|].
  assert (g = g2) as ->; [|done]. apply (fmap_inj_on g_start Gs); [apply Hv|done..].
Qed.

Lemma area_top g : g ∈ Gs -> exists k, is_top m (g_fl g) k /\ placed_at m L (g_addr h g) k /\ -1 <= k <= m.
Proof.
  intros Hg. pose proof (hp_order _ (hv_place _ _ _ Hv)). destruct (top_exists m (g_fl g) ltac:(lia)) as [k Hk]. exists k. split; [done|]. split; [by apply (hv_top _ _ _ Hv)|apply Hk].
Qed.

(** The place of the area in the lists after a release. *)
Lemma dealloc_lists g a' fl' u : g ∈ Gs -> area_ok m (g_off h g) a' fl' -> -1 <= u -> top_moves m (g_fl g) fl' u -> let h1 := set_area h (g_addr h g) a' in
  exists l' L' k, (if 0 <=? u then
      top ← find_top (Z.to_nat (max_order h1 - u + 1)) a' (max_order h1);
      if default 0 top =? u then
        l ← (if list_inserted (ph_lk h1) (g_addr h g) then list_delete (ph_lk h1) (g_addr h g) else Some (ph_lk h1));
        Some (set_ph_lk h1 (list_push l (areas h1 (default 0 top)) (g_addr h g)))
      else Some h1
    else Some h1) = Some (set_ph_lk h1 l') /\
    pooled m (areas h) l' L' (g_addr h <$> Gs) /\ is_top m fl' k /\ placed_at m L' (g_addr h g) k /\ others_same m L L' (g_addr h g).
Proof.
  intros Hg Ha' Hu Ht h1. destruct (area_top g Hg) as (k & Hk & Hpl & Hkm). destruct (Ht k Hk) as (k' & Hk' & Hkk & Huk & Hor). pose proof (hv_pool _ _ _ Hv) as Hp. pose proof (hp_order _ (hv_place _ _ _ Hv)) as Hm.
  change (max_order h1) with m. change (ph_lk h1) with (ph_lk h). change (areas h1) with (areas h). pose proof Hk' as (Hk'm & _).
  destruct (Z.leb_spec 0 u) as [H0|H0]; [|exists (ph_lk h), L, k'; split; [done|]; split; [done|]; split; [done|]; split; [by replace k' with k by lia|done]].
  destruct (garea_numbers h Gs L Hv g Hg) as (_ & _ & _ & _ & _ & [Hoff _] & _). rewrite (find_top_ok m (g_off h g) Hm Hoff a' fl' k') by (done || lia). rewrite (proj2 (Z.ltb_lt _ _)) by lia. cbn [mbind option_bind default]. unfold id.
  destruct (Z.eqb_spec k' u) as [->|Hne]; [|exists (ph_lk h), L, k'; split; [done|]; split; [done|]; split; [done|]; split; [by replace k' with k by lia|done]].
  destruct (pool_move m (areas h) (ph_lk h) L (g_addr h <$> Gs) (g_addr h g) k u) as (l1 & L' & -> & Hp' & Hpl' & Hs'); [done|by apply list_elem_of_fmap_2|done|lia|lia|]. cbn [mbind option_bind].
  eexists _, L', u. done.
Qed.

Lemma dealloc_ok i c : 0 < c <= 2 ^ m -> (forall x, i <= x < i + c -> page_used h Gs x) ->
  exists h' Gs' L', pageheap_dealloc h (4096 * i) (4096 * c) = Some h' /\ heap_inv h' Gs' L' /\ same_place h h' /\ ph_allocated h' = u64 (ph_allocated h - 4096 * c) /\
    forall x, page_used h' Gs' x <-> page_used h Gs x /\ ~ i <= x < i + c.
Proof.
  intros Hc Hu. destruct (Hu i ltac:(lia)) as (g & Hg & Ho & _). change (own h g i) in Ho. pose proof (used_run g i (Z.to_nat c) Hg Ho) as Hrun. rewrite Z2Nat.id in Hrun by lia. specialize (Hrun Hu).
  pose proof (Hrun (i + c - 1) ltac:(lia)) as Ho2. pose proof (hp_order _ (hv_place _ _ _ Hv)) as Hm. pose proof (page_order_pow m Hm). destruct (garea_numbers h Gs L Hv g Hg) as (a & Ha & Hia & _ & _ & Hoff & _ & _ & _ & _ & Hcnt & _).
  unfold PAGE_INDEX_INVALID in Hcnt. assert (Ho' := Ho). assert (Ho2' := Ho2). unfold own in Ho', Ho2'. unfold pageheap_dealloc. rewrite (area_of_page h Gs L Hv g) by (done || by rewrite Z.mul_comm, Z.div_mul). cbn [mbind option_bind].
  destruct (area_index h Gs L Hv g (i - g_base h g) Hg ltac:(lia)) as (_ & Ei & _). replace (g_base h g + (i - g_base h g)) with i in Ei by lia. rewrite Ei, u32_small by lia.
  change PAGESIZE with 4096. replace (4096 * c / 4096) with c by (rewrite Z.mul_comm, Z.div_mul; lia). fold (g_area h g).
  destruct (dealloc_locked_ok m (g_off h g) Hm ltac:(lia) (g_area h g) (g_fl g) (i - g_base h g) c) as (a' & fl' & u & -> & Ec & Ha' & Hu1 & Hf' & Ht & _);
    [apply Hia|lia|lia|fold (g_count h g); lia| |].
  { intros y Hy. replace y with (y + g_base h g - g_base h g) by lia. rewrite <- (used_in h Gs L Hv g) by (done || apply Hrun; lia). apply Hu. lia. }
  cbn [mbind option_bind]. destruct (dealloc_lists g a' fl' u Hg Ha' Hu1 Ht) as (l' & L' & k & E & Hp' & Hk & Hpl & Hs). cbv zeta in E |- *. rewrite E. cbn [mbind option_bind].
  pose proof Hg as (G1 & G2 & EG)%list_elem_of_split. subst Gs. exists (changed h g a' l' (u64 (ph_allocated h - 4096 * c))), (G1 ++ g' g fl' :: G2), L'. split; [done|].
  split; [by apply (heap_update h G1 g G2 L Hv a' fl' l' L' (u64 (ph_allocated h - 4096 * c)) k)|]. split; [done|]. split; [done|]. intros x.
  destruct (decide (own h g x)) as [Hx|Hx].
  - rewrite (used_here h G1 g G2 L Hv a' fl' l' L' _ k) by done. rewrite Hf'. rewrite (used_in h _ L Hv g) by done. split; [intros Hn; split; [tauto|]; intros ?; apply Hn; right; lia|]. intros [Hn Hn'] [?|?]; [done|lia].
  - rewrite (used_elsewhere h G1 g G2 L Hv a' fl' l' L') by done. split; [|tauto]. intros Hx'. split; [done|]. intros Hin. by apply Hx, Hrun.
Qed.
End Dealloc.

(** ** Taking pages of an area *)

Section Take.
Context (h : page_heap) (Gs : list garea) (L : Z -> list Z) (Hv : heap_inv h Gs L) (g : garea) (k : Z) (Hg : g ∈ Gs) (Hk : is_top (max_order h) (g_fl g) k) (Hk0 : 0 <= k).
Notation m := (max_order h).

(** The place of the area in the lists when the block was of the order [f], with the blocks
    [l] after it. *)
Lemma alloc_lists a' fl' f i l : area_ok m (g_off h g) a' fl' -> 0 <= f <= k -> g_fl g f = i :: l -> fl' f = l -> (forall p, f < p <= m -> fl' p = g_fl g p) ->
  let deleted := bool_decide (l = []) && (f =? k) in
  exists l1 top L' k', (if deleted then list_delete (ph_lk h) (g_addr h g) else Some (ph_lk h)) = Some l1 /\
    (if deleted then find_top (Z.to_nat k) a' (k - 1) else Some None) = Some top /\
    pooled m (areas h) (match top with Some order => list_push_back l1 (areas h order) (g_addr h g) | None => l1 end) L' (g_addr h <$> Gs) /\
    is_top m fl' k' /\ placed_at m L' (g_addr h g) k' /\ others_same m L L' (g_addr h g).
Proof.
  intros Ha' Hf El El' Hab deleted. pose proof (hv_top _ _ _ Hv g k Hg Hk) as Hpl. pose proof (hv_pool _ _ _ Hv) as Hp. pose proof (hp_order _ (hv_place _ _ _ Hv)) as Hm. pose proof Hk as (Hkm & Hk1 & Hk2).
  assert (Hx : g_addr h g ∈ g_addr h <$> Gs) by by apply list_elem_of_fmap_2. destruct (garea_numbers h Gs L Hv g Hg) as (_ & _ & _ & _ & _ & [Hoff _] & _). destruct deleted eqn:Ed; unfold deleted in Ed.
  - apply andb_true_iff in Ed as [El0%bool_decide_eq_true ->%Z.eqb_eq]. destruct (pool_take m (areas h) (ph_lk h) L _ _ k Hp Hx Hpl Hkm Hk0) as (l1 & L1 & -> & Hp1 & Hpl1 & Hs1).
    destruct (top_exists m fl' ltac:(lia)) as (k' & Hk'). pose proof Hk' as (Hk'm & Hk'1 & Hk'2). assert (Hlt : k' < k).
    { destruct (Z.lt_total k' k) as [|[->|]]; [done|exfalso; apply Hk'2; [lia|congruence]|exfalso; apply Hk'2; [lia|]; rewrite Hab by lia; apply Hk1; lia]. }
    rewrite (find_top_ok m (g_off h g) Hm Hoff a' fl' k') by (done || lia). destruct (Z.ltb_spec (k - 1 - Z.of_nat (Z.to_nat k)) k') as [H0|H0].
    + destruct (pool_back m (areas h) l1 L1 _ _ (-1) Hp1 Hx Hpl1 ltac:(lia) k' eq_refl ltac:(lia)) as (L' & Hp' & Hpl' & Hs'). eexists l1, _, L', k'. do 2 (split; [done|]). split; [done|]. split; [done|]. split; [done|].
      intros y o Hy Ho. by rewrite (Hs' y o Hy Ho), (Hs1 y o Hy Ho).
    + eexists l1, _, L1, k'. do 2 (split; [done|]). split; [done|]. split; [done|]. split; [by replace k' with (-1) by lia|done].
  - eexists (ph_lk h), _, L, k. do 2 (split; [done|]). split; [done|]. split; [|done]. split; [lia|]. apply andb_false_iff in Ed. split; [intros p Hpk; rewrite Hab by lia; apply Hk1; lia|]. intros _.
    destruct (decide (f = k)) as [->|Hne]; [|rewrite Hab by lia; by apply Hk2]. rewrite El'. destruct Ed as [Ed%bool_decide_eq_false|Ed%Z.eqb_neq]; done.
Qed.

Lemma alloc_from_area_ok o c : 0 <= o <= k -> 0 < c <= 2 ^ o ->
  exists i h' Gs' L', alloc_from_area h (g_addr h g) k o (4096 * c) = Some (4096 * i, h') /\ heap_inv h' Gs' L' /\ same_place h h' /\ ph_allocated h' = u64 (ph_allocated h + 4096 * c) /\
    (2 ^ o | i) /\ 0 <= i /\ 4096 * i < 2 ^ 64 - 4096 /\ (forall x, i <= x < i + c -> own h g x /\ ~ page_used h Gs x) /\
    forall x, page_used h' Gs' x <-> page_used h Gs x \/ i <= x < i + c.
Proof.
  intros Ho Hc. destruct (hv_area _ _ _ Hv g Hg) as (ar & Har & Hi). pose proof (hp_order _ (hv_place _ _ _ Hv)) as Hm. pose proof Hk as (Hkm & _).
  destruct (garea_numbers h Gs L Hv g Hg) as (_ & _ & _ & _ & _ & [Hoff _] & _ & _ & Hb0 & Hbd & _). unfold alloc_from_area. fold (g_area h g). change PAGESIZE with 4096. replace (4096 * c / 4096) with c by (rewrite Z.mul_comm, Z.div_mul; lia).
  destruct (take_pages_ok m (g_off h g) Hm Hoff (g_area h g) (g_fl g) k o c (ai_ok _ _ _ Hi) Hk Ho Hc) as (i & f & l & a' & fl' & -> & Ec & Ha' & Hf & El & El' & Hab & Hd & Hi1 & Hi2 & Hfr & Hfr'). cbn [mbind option_bind].
  fold (g_count h g) in *. destruct (area_index h Gs L Hv g i Hg ltac:(lia)) as (_ & _ & Ep & Hb). change PAGESIZE with 4096 in Ep. rewrite Ep.
  destruct (alloc_lists a' fl' f i l Ha' ltac:(lia) El El' Hab) as (l1 & top & L' & k' & E1 & E2 & Hp' & Hk' & Hpl' & Hs'). cbv zeta in E1, E2 |- *. rewrite E1. cbn [mbind option_bind]. rewrite E2. cbn [mbind option_bind].
  pose proof Hg as (G1 & G2 & EG)%list_elem_of_split. set (l' := match top with Some order => _ | None => _ end) in *.
  exists (g_base h g + i), (changed h g a' l' (u64 (ph_allocated h + 4096 * c))), (G1 ++ g' g fl' :: G2), L'. assert (Hrun : forall x, g_base h g + i <= x < g_base h g + i + c -> own h g x) by (intros x Hx; unfold own; lia).
  assert (Hv' := Hv). rewrite EG in Hv'. assert (Hp2 := Hp'). rewrite EG in Hp2. split; [done|]. split; [by apply (heap_update h G1 g G2 L Hv' a' fl' l' L' (u64 (ph_allocated h + 4096 * c)) k')|]. split; [done|]. split; [done|].
  split; [apply Z.divide_add_r; [|done]; by apply (pow_divides o m); [lia|]|]. split; [lia|]. split; [lia|]. split.
  - intros x Hx. split; [by apply Hrun|]. rewrite (used_in h Gs L Hv g) by (done || by apply Hrun). intros Hn. apply Hn, Hfr. lia.
  - intros x. destruct (decide (own h g x)) as [Hx|Hx].
    + rewrite (used_here h G1 g G2 L Hv' a' fl' l' L' _ k') by done. rewrite Hfr', (used_in h _ L Hv g) by done. destruct (decide (i <= x - g_base h g < i + c)); [|split; [intros Hn; left; tauto|intros [?|?]; [tauto|lia]]].
      split; [intros _; right; lia|tauto].
    + rewrite (used_elsewhere h G1 g G2 L Hv' a' fl' l' L'), <- EG by done. split; [by left|]. intros [?|Hin]; [done|]. by destruct Hx; apply Hrun.
Qed.
End Take.
