(* ===== verification/BuddyRoom.v ===== *)
(** The page heap of Buddy.v: new areas, and that there are enough of them. *)

From stdpp Require Import functions.
From S2P Require Import Prelude Words Range Rbtree RbWalk Rangemap Dlist Buddy BuddyArea BuddyInit BuddyHeap BuddyAlloc.

(** ** Room for an area *)

(** Only where the next areas are looked for has moved on. *)
Record moved (h h' : page_heap) : Prop := {
  mv_place : same_place h h';
  mv_lk : ph_lk h' = ph_lk h;
  mv_areas : area_at h' = area_at h;
  mv_allocated : ph_allocated h' = ph_allocated h;
  mv_inited : forall r, ph_inited h r <= ph_inited h' r;
}.

Lemma moved_refl h : moved h h.
Proof. split; try done. Qed.

Lemma moved_trans h1 h2 h3 : moved h1 h2 -> moved h2 h3 -> moved h1 h3.
Proof.
  intros [(? & ? & ? & ? & ?) ? ? ? Hi1] [(? & ? & ? & ? & ?) ? ? ? Hi2]. split; try congruence; [|intros r; specialize (Hi1 r); specialize (Hi2 r); lia]. unfold same_place. split_and!; congruence.
Qed.

Lemma range_addr_inj rm a b : rm_wf rm -> a ∈ rm_contents rm -> b ∈ rm_contents rm -> n_addr a = n_addr b -> a = b.
Proof. intros [_ [_ _ Hd _]]. by apply fmap_inj_on. Qed.

Section Room.
Context (h : page_heap) (Gs : list garea) (L : Z -> list Z) (Hv : heap_inv h Gs L) (a : rmnode) (Ha : a ∈ rm_contents (ph_ranges h)).
Notation i := (ph_inited h (n_addr a)).

Lemma move_on i' : i <= i' -> next_ok (n_r a) i' -> (forall s, candidate (n_r a) s -> i <= s < i' -> False) ->
  heap_inv (set_ph_inited h (n_addr a) i') Gs L /\ moved h (set_ph_inited h (n_addr a) i').
Proof.
  intros Hi Hn Hc. set (h1 := set_ph_inited h (n_addr a) i').
  assert (Hne : forall b, b ∈ rm_contents (ph_ranges h) -> b = a \/ ph_inited h1 (n_addr b) = ph_inited h (n_addr b)).
  { intros b Hb. destruct (decide (n_addr b = n_addr a)) as [E|E]; [left; by apply (range_addr_inj (ph_ranges h)); [apply Hv|..]|right; cbn; by rewrite fn_lookup_insert_ne]. }
  assert (Hmv : moved h h1) by (split; try done; intros r; cbn; destruct (decide (r = n_addr a)) as [->|]; [by rewrite fn_lookup_insert|by rewrite fn_lookup_insert_ne]).
  split; [|done]. split.
  - destruct (hv_place _ _ _ Hv) as [[] ? ?]. by split.
  - intros b Hb. destruct (Hne b Hb) as [->|E]; [cbn; by rewrite fn_lookup_insert|]. rewrite E. by apply (hv_next _ _ _ Hv).
  - intros g Hg. destruct (hv_area _ _ _ Hv g Hg) as (b & Hb & [H1 H2 H3 H4]). exists b. split; [done|]. split; [done|done| |done]. pose proof (mv_inited _ _ Hmv (n_addr b)). unfold g_base, g_count, g_area in *. cbn -[Z.le] in *. etrans; [exact H3|done].
  - intros b s Hb Hs Hlt. destruct (Hne b Hb) as [->|E]; [|rewrite E in Hlt; by apply (hv_starts _ _ _ Hv b)]. cbn in Hlt. rewrite fn_lookup_insert in Hlt.
    apply (hv_starts _ _ _ Hv a); [done|done|]. destruct (Z.lt_ge_cases s i); [done|]. destruct (Hc s Hs). lia.
  - apply (hv_nodup _ _ _ Hv).
  - apply (hv_pool _ _ _ Hv).
  - apply (hv_top _ _ _ Hv).
Qed.

(** Near a boundary there is no room before it. *)
Lemma boundary_gap s : limit i < i + 4 -> candidate (n_r a) s -> i <= s < limit i -> False.
Proof. intros Hl (C1 & C2 & C3 & C4) Hs. pose proof (limit_same i s Hs) as E. lia. Qed.

Lemma area_limit : 0 <= i < 2 ^ 52 -> pad (u64 (i + 1)) PAGEHEAP_AREA_MAX_PAGES = limit i.
Proof.
  intros Hi. rewrite u64_small by lia. unfold pad, limit. change PAGEHEAP_AREA_MAX_PAGES with (2 ^ 16). replace (i + 1 - 1) with i by lia.
  rewrite (u64_small i), land_clear_low by lia. pose proof (Z.mul_div_le i (2 ^ 16)). pose proof (Z.div_pos i (2 ^ 16)). change (2 ^ 16) with 65536 in *. rewrite u64_small by lia. lia.
Qed.

Lemma room_in_ok : exists room h1, room_in h (n_addr a) (end_ (n_r a)) = (room, h1) /\ heap_inv h1 Gs L /\ moved h h1 /\
  match room with
  | Some (s, e) => s = ph_inited h1 (n_addr a) /\ candidate (n_r a) s /\ e = Z.min (end_ (n_r a)) (limit s)
  | None => forall s, candidate (n_r a) s -> s < ph_inited h1 (n_addr a)
  end.
Proof.
  destruct (range_bounds h (hv_place _ _ _ Hv) a Ha) as (B1 & B2 & B3 & _). destruct (hv_next _ _ _ Hv a Ha) as [Hi Hor]. unfold room_in. change (PAGEHEAP_AREA_MIN_SIZE / PAGESIZE) with 4. rewrite area_limit by lia. rewrite (u64_small (i + 4)) by lia. pose proof (limit_spec i) as [Hl1 Hl2].
  destruct (Z.leb_spec (i + 4) (end_ (n_r a))) as [H4|H4]; [|exists None, h; split; [done|]; split; [done|]; split; [apply moved_refl|]; intros s (? & ? & ? & ?); lia].
  destruct (Z.ltb_spec (limit i) (i + 4)) as [Hg|Hg].
  - destruct (move_on (limit i)) as [Hv1 Hmv]; [lia|split; [lia|tauto]|by intros s; apply boundary_gap|]. rewrite (u64_small (limit i + 4)) by lia. change PAGEHEAP_AREA_MAX_PAGES with 65536. rewrite (u64_small (limit i + 65536)) by lia.
    assert (Ei : ph_inited (set_ph_inited h (n_addr a) (limit i)) (n_addr a) = limit i) by (cbn; by rewrite fn_lookup_insert).
    assert (El : limit (limit i) = limit i + 65536) by (destruct Hl2 as [q ->]; unfold limit; rewrite Z.div_mul; lia).
    destruct (Z.leb_spec (limit i + 4) (end_ (n_r a))) as [H5|H5]; eexists _, _; (split; [done|]; split; [done|]; split; [done|]).
    + split; [done|]. split; [split; [lia|]; split; [by right|lia]|]. destruct (Z.ltb_spec (limit i + 65536) (end_ (n_r a))); lia.
    + rewrite Ei. intros s (? & ? & ? & ?). lia.
  - rewrite (u64_small (i + 4)) by lia. rewrite (proj2 (Z.leb_le _ _)) by lia. eexists _, _. split; [done|]. split; [done|]. split; [apply moved_refl|]. split; [done|].
    split; [split; [lia|]; split; [|lia]; destruct Hor as [?|[?|[?|?]]]; [by left|by right|lia|lia]|]. destruct (Z.ltb_spec (limit i) (end_ (n_r a))); lia.
Qed.
End Room.

Lemma find_room_ok fuel : forall h Gs L l1 l2, heap_inv h Gs L -> rm_contents (ph_ranges h) = l1 ++ l2 -> (length l2 < fuel)%nat ->
  exists room h1, find_room fuel h (n_addr <$> head l2) = Some (room, h1) /\ heap_inv h1 Gs L /\ moved h h1 /\
    match room with
    | Some (r, s, e) => exists a, a ∈ l2 /\ r = n_addr a /\ s = ph_inited h1 r /\ candidate (n_r a) s /\ e = Z.min (end_ (n_r a)) (limit s)
    | None => forall a s, a ∈ l2 -> candidate (n_r a) s -> s < ph_inited h1 (n_addr a)
    end.
Proof.
  induction fuel as [|fuel IH]; intros h Gs L l1 l2 Hv El Hf; [lia|]. destruct l2 as [|a l2]; cbn [head fmap option_fmap option_map find_room].
  { exists None, h. split; [done|]. split; [done|]. split; [apply moved_refl|]. intros a s Ha. by apply not_elem_of_nil in Ha. }
  assert (Ha : a ∈ rm_contents (ph_ranges h)) by (rewrite El; set_solver). pose proof (hp_rm _ (hv_place _ _ _ Hv)) as Hwf. destruct (ranges_valid _ a Hwf Ha) as (_ & -> & _). cbn [mbind option_bind].
  destruct (room_in_ok h Gs L Hv a Ha) as (room & h1 & -> & Hv1 & Hmv & Hr). destruct room as [[s e]|].
  - exists (Some (n_addr a, s, e)), h1. split; [done|]. split; [done|]. split; [done|]. exists a. split; [left|]. done.
  - pose proof (mv_place _ _ Hmv) as (Er & _). rewrite Er, (next_node_spec _ l1 a l2) by (done || by apply wf_ok). cbn [mbind option_bind].
    destruct (IH h1 Gs L (l1 ++ [a]) l2 Hv1) as (room & h2 & E & Hv2 & Hmv2 & Hr2); [by rewrite Er, El, <- app_assoc|cbn in Hf; lia|]. exists room, h2. split; [exact E|]. split; [done|]. split; [by apply (moved_trans h h1)|].
    destruct room as [[[r s] e]|]; [destruct Hr2 as (b & Hb & Hr2); exists b; split; [by right|done]|]. intros b s [->|Hb]%elem_of_cons Hs; [|by apply Hr2]. pose proof (Hr s Hs). pose proof (mv_inited _ _ Hmv2 (n_addr a)). lia.
Qed.

(** ** A new area *)

Section New.
Context (h : page_heap) (Gs : list garea) (L : Z -> list Z) (Hv : heap_inv h Gs L) (a : rmnode) (Ha : a ∈ rm_contents (ph_ranges h)).
Notation m := (max_order h).
Notation s := (ph_inited h (n_addr a)).
Notation x := (virt_base h + 4096 * s).
Context (Hc : candidate (n_r a) s) (n : Z) (Hn : sized m (n_r a) s n).
Context (ar : pageheap_area) (fl : Z -> list Z) (Hcnt : page_count ar = n) (Hok : area_ok m (first_index m s n) ar fl) (Hfree : forall y, page_free m fl y <-> first_index m s n <= y < n).

Definition extended (k : Z) : page_heap :=
  set_ph_inited (set_ph_lk (set_area h x ar) (list_push (ph_lk h) (areas h k) x)) (n_addr a) (area_base m s n + n).
Definition new_g : garea := Garea s fl.

Lemma new_bounds : 0 <= s /\ s + 4 <= area_base m s n + n /\ area_base m s n + n <= end_ (n_r a) /\ area_base m s n + n <= limit s /\ first_index m s n < n /\ virt_base h + 4096 * end_ (n_r a) < 2 ^ 64.
Proof.
  destruct (range_bounds h (hv_place _ _ _ Hv) a Ha) as (B1 & B2 & B3 & B4 & B5). destruct (area_numbers _ _ s n (hp_order _ (hv_place _ _ _ Hv)) B1 B3 Hc Hn) as (N1 & N2 & N3 & N4 & N5 & N6 & N7 & N8 & N9). destruct Hc as (C1 & _). lia.
Qed.

Lemma new_start g : g ∈ Gs -> g_start g <> s.
Proof.
  intros Hg E. destruct (garea_numbers h Gs L Hv g Hg) as (b & Hb & Hi & _ & N1 & N2 & N3 & _). pose proof (ai_start _ _ _ Hi) as (C1 & _ & C3 & _). destruct Hc as (D1 & _ & D3 & _). rewrite E in C1, C3.
  assert (b = a) as -> by (apply (ranges_disjoint _ b a s (wf_contents _ (hp_rm _ (hv_place _ _ _ Hv)))); unfold in_range; done || lia). pose proof (ai_inited _ _ _ Hi). lia.
Qed.

Lemma new_address : x ∉ g_addr h <$> Gs /\ x <> 0 /\ forall p, 0 <= p <= m -> x <> areas h p.
Proof.
  destruct (range_bounds h (hv_place _ _ _ Hv) a Ha) as (B1 & B2 & B3 & B4 & B5). destruct Hc as (C1 & _ & C3 & _). split; [|split; [lia|]].
  - intros (g & E & Hg)%list_elem_of_fmap. apply (new_start g Hg). unfold g_addr in E. lia.
  - intros p Hp E. destruct (hp_heads _ (hv_place _ _ _ Hv) p Hp) as [_ Hd]. apply (Hd a Ha). lia.
Qed.

Lemma new_top : exists k, is_top m fl k /\ 0 <= k <= m.
Proof.
  pose proof (hp_order _ (hv_place _ _ _ Hv)). destruct (top_exists m fl ltac:(lia)) as [k Hk]. exists k. split; [done|]. destruct Hk as (Hk & Hk1 & _). destruct new_bounds as (_ & _ & _ & _ & Hlt & _).
  destruct (proj2 (Hfree (first_index m s n)) ltac:(lia)) as (o & i & Ho & Hi & _). destruct (Z.lt_ge_cases k 0) as [H0|]; [|lia]. rewrite Hk1 in Hi by lia. by apply not_elem_of_nil in Hi.
Qed.

Lemma old_numbers k g : g ∈ Gs -> g_area (extended k) g = g_area h g /\ g_count (extended k) g = g_count h g /\ g_off (extended k) g = g_off h g /\ g_base (extended k) g = g_base h g.
Proof.
  intros Hg. assert (E : g_area (extended k) g = g_area h g).
  { unfold g_area, extended. cbn. change (g_addr _ g) with (g_addr h g). apply fn_lookup_insert_ne. intros E. apply (new_start g Hg). unfold g_addr in E. lia. }
  assert (E' : g_count (extended k) g = g_count h g) by (unfold g_count; by rewrite E). unfold g_off, g_base. by rewrite E'.
Qed.

Lemma new_numbers k : g_area (extended k) new_g = ar /\ g_count (extended k) new_g = n /\ g_off (extended k) new_g = first_index m s n /\ g_base (extended k) new_g = area_base m s n.
Proof.
  assert (E : g_area (extended k) new_g = ar) by (unfold g_area, extended; cbn; apply fn_lookup_insert). assert (E' : g_count (extended k) new_g = n) by (unfold g_count; by rewrite E). unfold g_off, g_base. by rewrite E'.
Qed.

Lemma next_inited : next_ok (n_r a) (area_base m s n + n).
Proof.
  destruct new_bounds as (B1 & B2 & B3 & B4 & _). destruct (hp_exact _ (hv_place _ _ _ Hv) a Ha s n Hc Hn) as [_ He]. destruct Hc as (C1 & _). split; [lia|].
  destruct (decide (area_base m s n + n = limit s)) as [->|Hne]; [right; left; apply limit_spec|]. destruct (limit_same s (area_base m s n + n) ltac:(lia)). right. right. lia.
Qed.

Lemma heap_extend k : is_top m fl k -> 0 <= k <= m -> exists L', heap_inv (extended k) (new_g :: Gs) L'.
Proof.
  intros Hk Hkm. destruct new_address as (X1 & X2 & X3). destruct new_bounds as (B1 & B2 & B3 & B4 & _). set (h2 := extended k).
  assert (Hpl : placed_at m L x (-1)). { intros o Ho. split; [|lia]. intros Hin. destruct X1. by apply (pl_in _ _ _ _ _ (hv_pool _ _ _ Hv) o). }
  destruct (pool_front m (areas h) (ph_lk h) L (g_addr h <$> Gs) x (-1) (x :: (g_addr h <$> Gs)) k (hv_pool _ _ _ Hv) Hpl ltac:(lia) Hkm) as (L' & Hp' & Hpl' & Hs'); [intros y; apply elem_of_cons|done|done|]. exists L'.
  assert (Hin : forall b, b ∈ rm_contents (ph_ranges h) -> b = a /\ ph_inited h2 (n_addr b) = area_base m s n + n \/ b <> a /\ ph_inited h2 (n_addr b) = ph_inited h (n_addr b)).
  { intros b Hb. destruct (decide (n_addr b = n_addr a)) as [E|E]; [left; split; [by apply (range_addr_inj (ph_ranges h)); [apply Hv|..]|cbn; by rewrite E, fn_lookup_insert]|right; split; [congruence|cbn; by rewrite fn_lookup_insert_ne]]. }
  split.
  - destruct (hv_place _ _ _ Hv) as [[] ? ?]. by split.
  - intros b Hb. destruct (Hin b Hb) as [[-> ->]|[_ ->]]; [apply next_inited|by apply (hv_next _ _ _ Hv)].
  - intros g [->|Hg]%elem_of_cons.
    + exists a. split; [done|]. destruct (new_numbers k) as (E1 & E2 & E3 & E4). fold h2 in E1, E2, E3, E4. split; [done|by rewrite E2|rewrite E2, E4; by destruct (Hin a Ha) as [[_ ->]|[? _]]|by rewrite E1, E3].
    + destruct (hv_area _ _ _ Hv g Hg) as (b & Hb & Hi). exists b. split; [done|]. destruct (old_numbers k g Hg) as (E1 & E2 & E3 & E4). fold h2 in E1, E2, E3, E4. split; [apply Hi|rewrite E2; apply Hi|rewrite E2, E4|rewrite E1, E3; apply Hi].
      pose proof (ai_inited _ _ _ Hi). destruct (Hin b Hb) as [[-> E]|[_ E]]; rewrite E; lia.
  - intros b t Hb Ht Hlt. rewrite fmap_cons. destruct (Hin b Hb) as [[-> E]|[_ E]]; rewrite E in Hlt; [|right; by apply (hv_starts _ _ _ Hv b)].
    destruct (Z.lt_total t s) as [Hts|[->|Hts]]; [right; by apply (hv_starts _ _ _ Hv a)|left|]. exfalso. destruct Ht as (T1 & T2 & _). destruct Hc as (C1 & _). destruct T2 as [T2|T2]; [lia|]. pose proof (limit_least s t Hts T2). lia.
  - rewrite fmap_cons. apply NoDup_cons. split; [|apply Hv]. intros (g & E & Hg)%list_elem_of_fmap. by apply (new_start g Hg).
  - exact Hp'.
  - intros g j [->|Hg]%elem_of_cons Hj; [by rewrite (top_unique m fl j k)|]. intros o Ho. change (g_addr h2 g) with (g_addr h g). rewrite (Hs' _ o) by (done || intros E; apply X1; rewrite <- E; by apply list_elem_of_fmap_2). by apply (hv_top _ _ _ Hv).
Qed.

Lemma used_extend k y : page_used (extended k) (new_g :: Gs) y <-> page_used h Gs y.
Proof.
  destruct (new_numbers k) as (E1 & E2 & E3 & E4). split.
  - intros (g & [->|Hg]%elem_of_cons & Hin & Hf).
    + rewrite E2, E3, E4 in Hin. rewrite E4 in Hf. destruct Hf. by apply Hfree.
    + destruct (old_numbers k g Hg) as (F1 & F2 & F3 & F4). rewrite F2, F3, F4 in Hin. rewrite F4 in Hf. exists g. done.
  - intros (g & Hg & Hin & Hf). exists g. split; [by right|]. destruct (old_numbers k g Hg) as (F1 & F2 & F3 & F4). by rewrite F2, F3, F4.
Qed.
End New.

Lemma used_moved h h' Gs y : moved h h' -> page_used h' Gs y <-> page_used h Gs y.
Proof.
  intros [(_ & Em & Ev & _) _ Ea _ _]. unfold page_used, g_off, g_base, g_count, g_area, g_addr. by rewrite Em, Ev, Ea.
Qed.

(** The pages of the ranges that are not in areas yet. *)
Definition pages_left (i : Z -> Z) (l : list rmnode) : Z := foldr (fun a n => end_ (n_r a) - i (n_addr a) + n) 0 l.

Lemma pages_left_mono i i' l : (forall r, i r <= i' r) -> pages_left i' l <= pages_left i l.
Proof. intros Hi. induction l as [|a l IH]; cbn [pages_left foldr]; [done|]. specialize (Hi (n_addr a)). unfold pages_left in IH. lia. Qed.

Lemma pages_left_less i i' l a d : (forall r, i r <= i' r) -> a ∈ l -> i (n_addr a) + d <= i' (n_addr a) -> pages_left i' l + d <= pages_left i l.
Proof.
  intros Hi. induction l as [|b l IH]; intros Ha Hd; [by apply not_elem_of_nil in Ha|]. cbn [pages_left foldr]. apply elem_of_cons in Ha as [<-|Ha].
  - pose proof (pages_left_mono i i' l Hi) as Hl. unfold pages_left in Hl. lia.
  - specialize (IH Ha Hd). specialize (Hi (n_addr b)). unfold pages_left in IH. lia.
Qed.

Lemma pages_left_bounds h Gs L : heap_inv h Gs L -> 0 <= pages_left (ph_inited h) (rm_contents (ph_ranges h)) <= range_pages (rm_contents (ph_ranges h)).
Proof.
  intros Hv. pose proof (hv_next _ _ _ Hv) as Hn. induction (rm_contents (ph_ranges h)) as [|a l IH]; cbn [pages_left range_pages foldr]; [done|]. destruct (Hn a ltac:(left)) as [Ha _]. specialize (IH ltac:(intros b Hb; apply Hn; by right)).
  unfold pages_left, range_pages in IH. lia.
Qed.

Definition initialised (h : page_heap) : Prop := forall a s, a ∈ rm_contents (ph_ranges h) -> candidate (n_r a) s -> s < ph_inited h (n_addr a).

Lemma area_new_ok h Gs L : heap_inv h Gs L -> exists r h', pageheap_area_new h = Some (r, h') /\ same_place h h' /\ ph_allocated h' = ph_allocated h /\
  match r with
  | None => heap_inv h' Gs L /\ initialised h' /\ forall y, page_used h' Gs y <-> page_used h Gs y
  | Some x => exists g L', heap_inv h' (g :: Gs) L' /\ x = g_addr h' g /\ (forall y, page_used h' (g :: Gs) y <-> page_used h Gs y) /\
      pages_left (ph_inited h') (rm_contents (ph_ranges h)) + 4 <= pages_left (ph_inited h) (rm_contents (ph_ranges h))
  end.
Proof.
  intros Hv. unfold pageheap_area_new. rewrite (first_node_spec _ (hp_rm _ (hv_place _ _ _ Hv))). cbn [mbind option_bind].
  destruct (find_room_ok (map_fuel (ph_ranges h)) h Gs L [] (rm_contents (ph_ranges h)) Hv eq_refl) as (room & h1 & -> & Hv1 & Hmv & Hr); [unfold map_fuel; rewrite tree_size_inorder; unfold rm_contents, contents; lia|]. cbn [mbind option_bind].
  pose proof (mv_place _ _ Hmv) as Hpl. pose proof Hpl as (Er & _). destruct room as [[[r s] e]|].
  2:{ exists None, h1. split; [done|]. split; [done|]. split; [apply Hmv|]. split; [done|]. split; [intros a s; rewrite Er; apply Hr|]. intros y. by apply used_moved. }
  destruct Hr as (a & Ha & -> & -> & Hc & ->). rewrite <- Er in Ha. destruct (range_bounds h1 (hv_place _ _ _ Hv1) a Ha) as (B1 & B2 & B3 & B4 & B5). pose proof Hc as (C1 & C2 & C3 & C4). pose proof (hp_order _ (hv_place _ _ _ Hv1)) as Hm.
  destruct (area_size (max_order h1) (ph_inited h1 (n_addr a)) (Z.min (end_ (n_r a)) (limit (ph_inited h1 (n_addr a)))) Hm) as (n & Hn & _); [lia..|]. rewrite Hn. cbn [mbind option_bind].
  pose proof (new_bounds h1 Gs L Hv1 a Ha Hc n Hn) as (N1 & N2 & N3 & N4 & N5 & N6). destruct (hp_exact _ (hv_place _ _ _ Hv1) a Ha _ n Hc Hn) as [Hn16 _].
  destruct (area_numbers _ _ _ n Hm B1 B3 Hc Hn) as (M1 & M2 & M3 & M4 & M5 & M6 & M7 & M8 & M9). change PAGESIZE with 4096. rewrite (u64_small (virt_base h1 + _)) by lia. rewrite (Z.mul_comm _ 4096).
  destruct (init_area_ok (max_order h1) (first_index (max_order h1) (ph_inited h1 (n_addr a)) n) n Hm ltac:(lia) Hn16 (area_at h1 (virt_base h1 + 4096 * ph_inited h1 (n_addr a)))) as (ar & fl & -> & Hcnt & Hok & Hfree). cbn [mbind option_bind].
  destruct (new_top h1 Gs L Hv1 a Ha Hc n Hn fl Hfree) as (k & Hk & Hkm). cbn [max_order set_area]. rewrite (find_top_ok (max_order h1) _ Hm (proj1 M8) ar fl k) by (done || lia). rewrite (proj2 (Z.ltb_lt _ _)) by lia. cbn [mbind option_bind].
  destruct (heap_extend h1 Gs L Hv1 a Ha Hc n Hn ar fl Hcnt Hok k Hk Hkm) as (L' & Hv2). exists (Some (virt_base h1 + 4096 * ph_inited h1 (n_addr a))), (extended h1 a n ar k).
  assert (Ei : u64 (ph_inited h1 (n_addr a) + pageheap_header_size n / 4096 + n - first_index (max_order h1) (ph_inited h1 (n_addr a)) n) = area_base (max_order h1) (ph_inited h1 (n_addr a)) n + n).
  { rewrite header_size by lia. rewrite (Z.mul_comm 4096), Z.div_mul by lia. unfold area_base, first_page in *. rewrite u64_small; lia. }
  split; [unfold extended; by rewrite <- Ei|]. split; [done|]. split; [apply Hmv|]. exists (new_g h1 a fl), L'. split; [done|]. split; [done|]. split.
  - intros y. rewrite (used_extend h1 Gs L Hv1 a Ha Hc n ar fl Hcnt Hfree). by apply used_moved.
  - rewrite <- Er. pose proof (pages_left_mono (ph_inited h) (ph_inited h1) (rm_contents (ph_ranges h1)) (mv_inited _ _ Hmv)).
    enough (pages_left (ph_inited (extended h1 a n ar k)) (rm_contents (ph_ranges h1)) + 4 <= pages_left (ph_inited h1) (rm_contents (ph_ranges h1))) by lia. apply (pages_left_less _ _ _ a); [|done|cbn; rewrite fn_lookup_insert; lia].
    intros r. cbn. destruct (decide (r = n_addr a)) as [->|]; [rewrite fn_lookup_insert; lia|by rewrite fn_lookup_insert_ne].
Qed.

(** New areas until one has a block of the order [o]; there are enough of them. *)
Lemma new_areas_ok fuel : forall h Gs L o, heap_inv h Gs L -> 0 <= o <= max_order h -> pages_left (ph_inited h) (rm_contents (ph_ranges h)) < 4 * Z.of_nat fuel ->
  exists r h' Gs' L', new_areas fuel h o = Some (r, h') /\ heap_inv h' Gs' L' /\ same_place h h' /\ ph_allocated h' = ph_allocated h /\ (forall y, page_used h' Gs' y <-> page_used h Gs y) /\
    match r with
    | None => initialised h' /\ forall g, g ∈ Gs' -> g ∈ Gs \/ exists k, is_top (max_order h') (g_fl g) k /\ k < o
    | Some (x, k) => exists g, g ∈ Gs' /\ x = g_addr h' g /\ is_top (max_order h') (g_fl g) k /\ o <= k
    end.
Proof.
  induction fuel as [|fuel IH]; intros h Gs L o Hv Ho Hf; [pose proof (pages_left_bounds h Gs L Hv); lia|]. cbn [new_areas].
  destruct (area_new_ok h Gs L Hv) as (r & h1 & -> & Hs & Hal & Hr). cbn [mbind option_bind]. pose proof Hs as (Er & Em & Ev & Eh & Et). destruct r as [x|].
  2:{ destruct Hr as (Hv1 & Hin & Hu). exists None, h1, Gs, L. split_and!; try done. intros g Hg. by left. }
  destruct Hr as (g & L1 & Hv1 & -> & Hu & Hless). destruct (area_top h1 (g :: Gs) L1 Hv1 g ltac:(left)) as (k & Hk & _ & Hkm). pose proof (hp_order _ (hv_place _ _ _ Hv1)) as Hm.
  destruct (garea_numbers h1 _ L1 Hv1 g ltac:(left)) as (a & _ & Hi & _ & _ & [Hoff _] & _). fold (g_area h1 g). rewrite (find_top_ok (max_order h1) (g_off h1 g) Hm Hoff (g_area h1 g) (g_fl g) k _ _ (ai_ok _ _ _ Hi)) by (done || lia). cbn [mbind option_bind].
  destruct (Z.ltb_spec (max_order h1 - Z.of_nat (Z.to_nat (max_order h1 - o + 1))) k) as [Hlt|Hge].
  - exists (Some (g_addr h1 g, k)), h1, (g :: Gs), L1. split_and!; try done. exists g. split; [left|]. split; [done|]. split; [done|lia].
  - destruct (IH h1 (g :: Gs) L1 o Hv1 ltac:(lia)) as (r & h2 & Gs2 & L2 & E & Hv2 & Hs2 & Hal2 & Hu2 & Hr2); [rewrite Er; lia|]. exists r, h2, Gs2, L2. pose proof Hs2 as (Er2 & Em2 & Ev2 & Eh2 & Et2).
    split; [done|]. split; [done|]. split; [unfold same_place; split_and!; congruence|]. split; [congruence|]. split; [intros y; by rewrite Hu2, Hu|]. destruct r as [[x j]|]; [done|]. destruct Hr2 as [Hi2 Hold]. split; [done|].
    intros b Hb. destruct (Hold b Hb) as [[->|Hb']%elem_of_cons|?]; [|by left|by right]. right. exists k. rewrite Em2. split; [done|lia].
Qed.
