(* ===== verification/BuddyPages.v ===== *)
(** The page heap of Buddy.v as the set of the pages it has handed out: its operations keep
    to it, a block is found whenever there is one, and where the code goes wrong. *)

From stdpp Require Import functions gmap.
From S2P Require Import Prelude Words Range Rbtree RbWalk Rangemap Dlist Objcache Buddy BuddyArea BuddyInit BuddyHeap BuddyAlloc BuddyRoom.

(** ** Free blocks are as large as they can be *)

Lemma merged_cover m off n fl (o : nat) : forall i, blocks_ok m off n fl -> Z.of_nat o <= m -> (2 ^ Z.of_nat o | i) -> (forall x, i <= x < i + 2 ^ Z.of_nat o -> page_free m fl x) ->
  exists p j, Z.of_nat o <= p <= m /\ j ∈ fl p /\ j <= i /\ i + 2 ^ Z.of_nat o <= j + 2 ^ p.
Proof.
  induction o as [|o IH]; intros i Hb Ho Hd Hf.
  { destruct (Hf i ltac:(cbn; lia)) as (p & j & Hp & Hj & Hx). exists p, j. change (2 ^ Z.of_nat 0) with 1. change (Z.of_nat 0) with 0. split; [lia|]. split; [done|lia]. }
  replace (Z.of_nat (S o)) with (Z.of_nat o + 1) in * by lia. pose proof (pow2_succ (Z.of_nat o) ltac:(lia)) as E2. pose proof (pow2_pos (Z.of_nat o) ltac:(lia)) as Hp0. pose proof (pow_divides (Z.of_nat o) (Z.of_nat o + 1) i ltac:(lia) Hd) as Hd0.
  destruct (IH i Hb ltac:(lia) Hd0) as (p & j & Hp & Hj & J1 & J2); [intros x Hx; apply Hf; lia|]. destruct (IH (i + 2 ^ Z.of_nat o) Hb ltac:(lia)) as (p' & j' & Hp' & Hj' & J1' & J2'); [by apply Z.divide_add_r|intros x Hx; apply Hf; lia|].
  destruct (bk_in _ _ _ _ Hb p j ltac:(lia) Hj) as (_ & Dj & _). destruct (bk_in _ _ _ _ Hb p' j' ltac:(lia) Hj') as (_ & Dj' & _).
  destruct (Z.le_gt_cases (Z.of_nat o + 1) p) as [Hle|Hgt]; [exists p, j; destruct (dyadic_nested i (Z.of_nat o + 1) j p i) as [Q1 Q2]; [lia|done|done|lia|lia|]; split; [lia|]; split; [done|lia]|].
  destruct (Z.le_gt_cases (Z.of_nat o + 1) p') as [Hle'|Hgt']; [exists p', j'; destruct (dyadic_nested i (Z.of_nat o + 1) j' p' (i + 2 ^ Z.of_nat o)) as [Q1 Q2]; [lia|done|done|lia|lia|]; split; [lia|]; split; [done|lia]|].
  assert (p = Z.of_nat o) as -> by lia. assert (p' = Z.of_nat o) as -> by lia. assert (j = i) as -> by lia. assert (j' = i + 2 ^ Z.of_nat o) as -> by lia. exfalso. apply (bk_merged _ _ _ _ Hb (Z.of_nat o) i); [lia|done|].
  rewrite buddy_is_first by (done || lia). by rewrite (proj2 (is_first_spec i (Z.of_nat o) ltac:(lia))).
Qed.

#[export] Instance page_free_dec m fl x : Decision (page_free m fl x).
Proof.
  refine (cast_if (decide (Exists (fun o => Exists (fun i => i <= x < i + 2 ^ o) (fl o)) (seqZ 0 (m + 1))))).
  - abstract (rewrite Exists_exists in *; destruct e as (o & Ho & (i & Hi & Hx)%Exists_exists); exists o, i; apply elem_of_seqZ in Ho; split; [lia|done]).
  - abstract (intros (o & i & Ho & Hi & Hx); apply n; apply Exists_exists; exists o; split; [apply elem_of_seqZ; lia|apply Exists_exists; by exists i]).
Defined.

(** ** Looking for an area *)

Section Find.
Context (h : page_heap) (Gs : list garea) (L : Z -> list Z) (Hv : heap_inv h Gs L).
Notation m := (max_order h).

Lemma find_area_ok n : forall o, 0 <= o -> o + Z.of_nat n <= m + 1 ->
  match find_area n h o with
  | Some (x, k) => o <= k <= m /\ exists g, g ∈ Gs /\ x = g_addr h g /\ is_top m (g_fl g) k
  | None => forall g k, g ∈ Gs -> is_top m (g_fl g) k -> ~ o <= k < o + Z.of_nat n
  end.
Proof.
  induction n as [|n IH]; intros o Ho Hn; cbn [find_area]; [intros; lia|]. pose proof (hv_pool _ _ _ Hv) as Hp. rewrite (pool_next m (areas h) _ L _ Hp o) by lia. destruct (L o) as [|x l] eqn:E; cbn [hd].
  - cbn [negb Z.eqb]. specialize (IH (o + 1) ltac:(lia) ltac:(lia)). destruct (find_area n h (o + 1)) as [[x k]|]; [destruct IH as [? IH]; split; [lia|done]|]. intros g k Hg Hk Hin.
    destruct (decide (k = o)) as [->|Hne]; [|apply (IH g k Hg Hk); lia]. pose proof (proj2 (hv_top _ _ _ Hv g o Hg Hk o ltac:(lia)) eq_refl) as Hx. rewrite E in Hx. by apply not_elem_of_nil in Hx.
  - assert (Hx : x ∈ L o) by (rewrite E; left). pose proof (pl_in _ _ _ _ _ Hp o x ltac:(lia) Hx) as Hin. destruct (Z.eqb_spec x 0) as [->|_]; [by destruct (pl_zero _ _ _ _ _ Hp)|]. cbn [negb]. split; [lia|].
    apply list_elem_of_fmap in Hin as (g & -> & Hg). exists g. split; [done|]. split; [done|]. destruct (area_top h Gs L Hv g Hg) as (k & Hk & Hpl & _). apply Hpl in Hx; [by subst k|lia].
Qed.

(** Pages next to one another are of one area. *)
Lemma usable_run i (c : nat) : (forall x, i <= x <= i + Z.of_nat c -> usable h x) ->
  exists a s n, a ∈ rm_contents (ph_ranges h) /\ candidate (n_r a) s /\ sized m (n_r a) s n /\ forall x, i <= x <= i + Z.of_nat c -> first_page s n <= x < area_base m s n + n.
Proof.
  induction c as [|c IH]; intros Hu.
  - destruct (Hu i ltac:(lia)) as (a & s & n & Ha & Hc & Hn & Hx). exists a, s, n. split_and!; try done. intros x Hx'. replace x with i by lia. done.
  - destruct IH as (a & s & n & Ha & Hc & Hn & Hx); [intros x Hx; apply Hu; lia|]. exists a, s, n. split_and!; try done. intros x Hx'. destruct (decide (x <= i + Z.of_nat c)); [apply Hx; lia|].
    destruct (Hu x ltac:(lia)) as (b & t & k & Hb & Ht & Hk & Hy). specialize (Hx (x - 1) ltac:(lia)). pose proof (hv_place _ _ _ Hv) as Hp. destruct (range_bounds h Hp a Ha) as (A1 & _ & A3 & _). destruct (range_bounds h Hp b Hb) as (B1 & _ & B3 & _).
    pose proof (area_numbers _ _ _ _ (hp_order _ Hp) A1 A3 Hc Hn) as (N1 & _). pose proof (area_numbers _ _ _ _ (hp_order _ Hp) B1 B3 Ht Hk) as (M1 & _).
    destruct (areas_apart h Hp a s n b t k (x - 1)) as (-> & -> & ->); [done|done|done|lia|done|done|done|lia|]. done.
Qed.

(** When every area is there and none has a block of the order, there is none. *)
Lemma none_free o i : initialised h -> 0 <= o <= m -> (forall g k, g ∈ Gs -> is_top m (g_fl g) k -> k < o) -> (2 ^ o | i) -> (forall x, i <= x < i + 2 ^ o -> usable h x /\ ~ page_used h Gs x) -> False.
Proof.
  intros Hin Ho Htop Hd Hx. pose proof (pow2_pos o ltac:(lia)). destruct (usable_run i (Z.to_nat (2 ^ o - 1))) as (a & s & n & Ha & Hc & Hn & Hr); [intros x Hx'; apply Hx; lia|].
  pose proof (hv_starts _ _ _ Hv a s Ha Hc (Hin a s Ha Hc)) as (g & -> & Hg)%list_elem_of_fmap. destruct (garea_numbers h Gs L Hv g Hg) as (b & Hb & Hi & E & N1 & N2 & N3 & N4 & N5 & N6 & N7 & N8). pose proof Hc as (C1 & _ & C3 & _). pose proof (ai_start _ _ _ Hi) as (D1 & _ & D3 & _).
  assert (a = b) as -> by (apply (ranges_disjoint _ a b (g_start g) (wf_contents _ (hp_rm _ (hv_place _ _ _ Hv)))); unfold in_range; done || lia). pose proof (ai_sized _ _ _ Hi) as Hn'. unfold sized in Hn, Hn'. rewrite Hn in Hn'. injection Hn' as -> _ _.
  fold (g_base h g) in Hr. assert (Hown : forall x, i <= x < i + 2 ^ o -> own h g x) by (intros x Hx'; specialize (Hr x ltac:(lia)); unfold own; lia).
  destruct (merged_cover m (g_off h g) (g_count h g) (g_fl g) (Z.to_nat o) (i - g_base h g)) as (p & j & Hp & Hj & _); rewrite ?Z2Nat.id by lia.
  - apply (ai_ok _ _ _ Hi).
  - lia.
  - apply Z.divide_sub_r; [done|]. apply (pow_divides o m); [lia|done].
  - intros x Hx'. destruct (decide (page_free m (g_fl g) x)) as [|Hnf]; [done|]. destruct (Hx (x + g_base h g) ltac:(lia)) as [_ []]. rewrite (used_in h Gs L Hv g) by (done || apply Hown; lia). by replace (x + g_base h g - g_base h g) with x by lia.
  - destruct (area_top h Gs L Hv g Hg) as (k & Hk & _ & _). pose proof (Htop g k Hg Hk). destruct Hk as (_ & Hk & _). rewrite Hk in Hj by lia. by apply not_elem_of_nil in Hj.
Qed.
End Find.

(** ** Allocation *)

Lemma find_order_pages c : 0 < c <= 2 ^ 51 -> find_order (4096 * c) - PAGELOG = find_order c.
Proof.
  intros Hc. destruct (find_order_pow c 51) as [F1 F2]; [lia..|]. destruct (find_order_pow (4096 * c) 63) as [F3 F4]; [lia..|]. change PAGELOG with 12. set (f := find_order c) in *. set (f' := find_order (4096 * c)) in *.
  assert (E : 2 ^ (f + 12) = 2 ^ f * 4096) by (rewrite Z.pow_add_r; lia). destruct (Z.lt_total f' (f + 12)) as [Hlt|[|Hlt]]; [|lia|].
  - pose proof (Z.pow_le_mono_r 2 (f' + 1) (f + 12) ltac:(lia) ltac:(lia)). rewrite pow2_succ in * by lia. lia.
  - pose proof (Z.pow_le_mono_r 2 (f + 12 + 1) f' ltac:(lia) ltac:(lia)). rewrite pow2_succ in * by lia. lia.
Qed.

Lemma own_usable h Gs L g x : heap_inv h Gs L -> g ∈ Gs -> own h g x -> usable h x.
Proof.
  intros Hv Hg Ho. destruct (garea_numbers h Gs L Hv g Hg) as (a & Ha & Hi & E & _). exists a, (g_start g), (g_count h g). split; [done|]. split; [apply Hi|]. split; [apply Hi|]. unfold own in Ho. rewrite <- E. fold (g_base h g). lia.
Qed.

Lemma usable_same h h' x : same_place h h' -> usable h' x <-> usable h x.
Proof. intros (Er & Em & _). unfold usable. by rewrite Er, Em. Qed.

(** What [pageheap_alloc] answers for [c] pages when the pages [used] are handed out. *)
Definition answer_ok (h : page_heap) (used : Z -> Prop) (c p : Z) : Prop :=
  p <> INVALID_PHYSICAL /\ (exists i, p = 4096 * i /\ 0 <= i /\ (2 ^ find_order c | i) /\ forall x, i <= x < i + c -> usable h x /\ ~ used x) \/
  p = INVALID_PHYSICAL /\ (max_order h < find_order c \/ forall i, (2 ^ find_order c | i) -> ~ forall x, i <= x < i + 2 ^ find_order c -> usable h x /\ ~ used x).

(** An area with a block of the order, or that there is none. *)
Lemma area_for h Gs L o : heap_inv h Gs L -> 0 <= o <= max_order h ->
  exists l h1 Gs1 L1, match find_area (Z.to_nat (max_order h - o + 1)) h o with
                      | Some l => Some (Some l, h)
                      | None => new_areas (S (Z.to_nat (ph_total h / PAGEHEAP_AREA_MIN_SIZE))) h o
                      end = Some (l, h1) /\ heap_inv h1 Gs1 L1 /\ same_place h h1 /\ ph_allocated h1 = ph_allocated h /\ (forall y, page_used h1 Gs1 y <-> page_used h Gs y) /\
    match l with
    | Some (x, k) => exists g, g ∈ Gs1 /\ x = g_addr h1 g /\ is_top (max_order h1) (g_fl g) k /\ o <= k
    | None => initialised h1 /\ forall g k, g ∈ Gs1 -> is_top (max_order h1) (g_fl g) k -> k < o
    end.
Proof.
  intros Hv Ho. pose proof (find_area_ok h Gs L Hv (Z.to_nat (max_order h - o + 1)) o ltac:(lia) ltac:(lia)) as Hf. destruct (find_area _ _ _) as [[x k]|].
  { destruct Hf as (Hk & g & Hg & -> & Ht). exists (Some (g_addr h g, k)), h, Gs, L. split_and!; try done. exists g. split_and!; try done. lia. }
  destruct (new_areas_ok (S (Z.to_nat (ph_total h / PAGEHEAP_AREA_MIN_SIZE))) h Gs L o Hv Ho) as (l & h1 & Gs1 & L1 & E & Hv1 & Hs & Hal & Hu & Hl).
  { pose proof (pages_left_bounds h Gs L Hv). pose proof (hp_total _ (hv_place _ _ _ Hv)). change PAGEHEAP_AREA_MIN_SIZE with 16384. pose proof (Z.div_mod (ph_total h) 16384). pose proof (Z.mod_pos_bound (ph_total h) 16384). pose proof (Z.div_pos (ph_total h) 16384). lia. }
  exists l, h1, Gs1, L1. split_and!; try done. destruct l as [[x k]|]; [done|]. destruct Hl as [Hi Hg]. split; [done|]. intros g k Hin Hk. destruct Hs as (_ & Em & _). destruct (Hg g Hin) as [Hold|(j & Hj & Hjo)].
  - rewrite Em in Hk. specialize (Hf g k Hold Hk). destruct Hk as (Hk & _). lia.
  - by rewrite (top_unique _ _ k j Hk Hj).
Qed.

Lemma alloc_ok h Gs L c : heap_inv h Gs L -> 0 < c <= 2 ^ 51 -> exists p h' Gs' L', pageheap_alloc h (4096 * c) = Some (p, h') /\ heap_inv h' Gs' L' /\ same_place h h' /\ answer_ok h (page_used h Gs) c p /\
  (if decide (p = INVALID_PHYSICAL) then ph_allocated h' = ph_allocated h /\ forall x, page_used h' Gs' x <-> page_used h Gs x
   else ph_allocated h' = u64 (ph_allocated h + 4096 * c) /\ forall x, page_used h' Gs' x <-> page_used h Gs x \/ p / 4096 <= x < p / 4096 + c).
Proof.
  intros Hv Hc. unfold pageheap_alloc. rewrite find_order_pages by done. destruct (find_order_pow c 51) as [F1 F2]; [lia..|]. set (o := find_order c) in *.
  destruct (Z.ltb_spec (max_order h) o) as [Hlt|Hge]; [exists INVALID_PHYSICAL, h, Gs, L; do 3 (split; [done|]); rewrite decide_True by done; split; [right; split; [done|by left]|done]|].
  destruct (area_for h Gs L o Hv ltac:(lia)) as (l & h1 & Gs1 & L1 & -> & Hv1 & Hs1 & Hal1 & Hu1 & Hl). cbn [mbind option_bind]. pose proof Hs1 as (Er & Em & Ev & Eh & Et). destruct l as [[x k]|].
  - destruct Hl as (g & Hg & -> & Hk & Hok). destruct (alloc_from_area_ok h1 Gs1 L1 Hv1 g k Hg Hk ltac:(lia) o c ltac:(lia) ltac:(lia)) as (i & h2 & Gs2 & L2 & -> & Hv2 & Hs2 & Hal2 & Hd & Hi0 & Hi1 & Hnew & Hu2).
    pose proof Hs2 as (Er2 & Em2 & Ev2 & Eh2 & Et2). assert (Hne : 4096 * i <> INVALID_PHYSICAL) by (unfold INVALID_PHYSICAL, infinity; lia). exists (4096 * i), h2, Gs2, L2. split; [done|]. split; [done|]. split; [unfold same_place; split_and!; congruence|].
    rewrite decide_False by done. split; [left; split; [done|]; exists i; split_and!; try done|].
    + intros x Hx. destruct (Hnew x Hx) as [Ho Hn]. split; [|by rewrite <- Hu1]. rewrite <- (usable_same h h1) by done. by apply (own_usable h1 Gs1 L1 g).
    + split; [by rewrite Hal2, Hal1|]. replace (4096 * i / 4096) with i by (rewrite Z.mul_comm, Z.div_mul; lia). intros x. by rewrite Hu2, Hu1.
  - destruct Hl as [Hin Htop]. exists INVALID_PHYSICAL, h1, Gs1, L1. do 3 (split; [done|]). rewrite decide_True by done. split; [|done]. right. split; [done|]. right. intros i Hd Hx.
    apply (none_free h1 Gs1 L1 Hv1 o i Hin ltac:(lia) Htop Hd). intros x Hx'. rewrite (usable_same h h1), Hu1 by done. by apply Hx.
Qed.

(** ** Set-up *)

(** The heap while memory is added to it. *)
Inductive added : page_heap -> Prop :=
  | added_none addr l mem : added (pageheap_init addr l mem)
  | added_range h alloc base length ok h' : added h -> alloc <> 0 -> alloc ∉ n_addr <$> rm_contents (ph_ranges h) -> 0 <= base -> 4096 <= length -> base + length < 2 ^ 64 ->
      ph_total h + length < 2 ^ 64 -> pageheap_add_range h alloc base length = Some (ok, h') -> added h'.

Record added_inv (h : page_heap) : Prop := {
  ad_rm : rm_wf (ph_ranges h);
  ad_inited : forall a, a ∈ rm_contents (ph_ranges h) -> ph_inited h (n_addr a) = start (n_r a);
  ad_total : 4096 * range_pages (rm_contents (ph_ranges h)) <= ph_total h < 2 ^ 64;
  ad_allocated : ph_allocated h = 0;
}.

Lemma range_pages_perm l l' : l ≡ₚ l' -> range_pages l = range_pages l'.
Proof. induction 1; cbn [range_pages foldr]; unfold range_pages in *; lia. Qed.

Lemma range_pages_length l : wf_nodes l -> Z.of_nat (length l) <= range_pages l.
Proof.
  intros [Hv _ _ _]. induction Hv as [|a l [Ha _] _ IH]; cbn [range_pages foldr length]; [done|]. unfold range_pages in IH. lia.
Qed.

Lemma added_ok h : added h -> added_inv h.
Proof.
  induction 1 as [addr l mem|h alloc base length ok h' _ [Hwf Hi Ht Ha] H0 Hfresh Hb Hl Hbl Htl E].
  { split; [|by intros a Ha%not_elem_of_nil|done|done]. split; [apply init_rbtree_inv|]. split; constructor. }
  unfold pageheap_add_range in E. destruct (kassert _); [|done]. cbn [mbind option_bind] in E. rewrite !Z.shiftr_div_pow2 in E by done. change (2 ^ PAGELOG) with 4096 in E.
  pose proof (Z.div_mod base 4096). pose proof (Z.mod_pos_bound base 4096). pose proof (Z.div_mod length 4096). pose proof (Z.mod_pos_bound length 4096). pose proof (Z.div_pos base 4096).
  set (node := {| n_addr := alloc; n_r := irangel (base / 4096) (length / 4096) |}) in E. assert (Er : n_r node = irange (base / 4096) (base / 4096 + length / 4096)) by (cbn; unfold irangel; by rewrite u64_small by lia).
  assert (Hvn : valid_range (n_r node)) by (rewrite Er; split; cbn; lia). pose proof (range_pages_length _ (wf_contents _ Hwf)) as Hlen.
  assert (Hcnt : rangemap_count (ph_ranges h) < 2 ^ 64 - 1) by (unfold rangemap_count, rbtree_get_count; rewrite (inv_count _ (wf_tree _ Hwf)); fold (rm_contents (ph_ranges h)); lia).
  pose proof (insert_spec (ph_ranges h) node Hwf Hvn H0 Hfresh Hcnt) as Hins. destruct (first_overlap _ _); [rewrite Hins in E; by injection E as <- <-|]. destruct Hins as (rm' & Ei & Hwf' & Hc & _ & Hk). rewrite Ei in E. injection E as <- <-.
  pose proof (insert_sorted_perm node _ Hk) as Hp. rewrite <- Hc in Hp. split; cbn [ph_ranges ph_inited ph_total ph_allocated]; [done| | |done].
  - intros a. rewrite Hp, elem_of_cons. intros [->|Hin]; [rewrite fn_lookup_insert; by rewrite Er|]. rewrite fn_lookup_insert_ne; [by apply Hi|]. intros Ea. apply Hfresh. cbn in Ea. rewrite Ea. by apply list_elem_of_fmap_2.
  - rewrite (range_pages_perm _ _ Hp). cbn [range_pages foldr]. fold (range_pages (rm_contents (ph_ranges h))). rewrite Er. cbn [start end_]. rewrite u64_small by lia. lia.
Qed.

Lemma init_lists (f : Z -> Z) os : forall l L, lists l L -> NoDup os -> (forall o p, o ∈ os -> p ∈ os -> f o = f p -> o = p) -> (forall o, o ∈ os -> f o ∉ 0 :: nodes L) ->
  exists R, R ≡ₚ ((fun o => (f o, [])) <$> os) ++ L /\ lists (foldl (fun l o => list_init l (f o)) l os) R.
Proof.
  induction os as [|o os IH]; intros l L HL Hd Hinj Hf; [by exists L|]. apply NoDup_cons in Hd as [Ho Hd].
  destruct (IH (list_init l (f o)) ((f o, []) :: L)) as (R & HR & Hl); [apply lists_init; [done|apply Hf; left]|done|intros p q Hp Hq; apply Hinj; by right| |].
  - intros p Hp. specialize (Hf p ltac:(by right)). change (nodes ((f o, []) :: L)) with (f o :: nodes L). rewrite !not_elem_of_cons in *. split; [tauto|]. split; [|tauto].
    intros E. apply Ho. rewrite <- (Hinj p o); [done|by right|left|done].
  - exists R. split; [|done]. rewrite HR. cbn [fmap list_fmap app]. by rewrite Permutation_middle.
Qed.

Lemma set_up_ok h vbase max_page_size : added h -> let h0 := pageheap_init_done h vbase max_page_size in layout h0 -> heap_inv h0 [] (fun _ => []).
Proof.
  intros Had h0 Hl. destruct (added_ok h Had) as [Hwf Hi [Ht _] _]. split.
  - by split.
  - intros a Ha. cbn. rewrite Hi by done. destruct (ranges_valid _ a Hwf Ha) as ([Hv _] & _). split; [lia|by left].
  - intros g Hg. by apply not_elem_of_nil in Hg.
  - intros a s Ha (C1 & _) Hlt. cbn in Hlt. rewrite Hi in Hlt by done. lia.
  - apply NoDup_nil_2.
  - set (m := max_order h0) in *. destruct (init_lists (areas h) (seqZ 0 (m + 1)) (ph_lk h) []) as (R & HR & HRl).
    + split; [apply NoDup_cons; split; [by intros ?%not_elem_of_nil|apply NoDup_nil_2]|constructor].
    + apply NoDup_seqZ.
    + intros o p _ _. unfold areas. lia.
    + intros o Ho%elem_of_seqZ. destruct (ly_heads _ Hl o ltac:(lia)) as [Hz _]. by apply not_elem_of_cons; split; [|apply not_elem_of_nil].
    + split; [|by intros ? ? _ ?%not_elem_of_nil|by intros ?%not_elem_of_nil|by intros ? _ ?%not_elem_of_nil|by intros ? ?%not_elem_of_nil]. rewrite app_nil_r in HR. unfold rings, orders. change (areas h0) with (areas h). by rewrite <- HR.
  - intros g k Hg. by apply not_elem_of_nil in Hg.
Qed.

(** ** The heap as the set of its pages in use *)

Definition pages (i c : Z) : gset Z := list_to_set (seqZ i c).

Lemma elem_of_pages i c x : x ∈ pages i c <-> i <= x < i + c.
Proof. unfold pages. rewrite elem_of_list_to_set. apply elem_of_seqZ. Qed.

Lemma size_pages i c : 0 <= c -> Z.of_nat (size (pages i c)) = c.
Proof. intros Hc. unfold pages. rewrite size_list_to_set by apply NoDup_seqZ. rewrite length_seqZ. lia. Qed.

(** The heaps that the operations give, with the pages in use: memory is added, the heap is
    set up, and then pages are allocated and released, the latter in any pieces. *)
Inductive reach : page_heap -> gset Z -> Prop :=
  | reach_start h vbase max_page_size : added h -> layout (pageheap_init_done h vbase max_page_size) -> reach (pageheap_init_done h vbase max_page_size) ∅
  | reach_alloc h U c p h' : reach h U -> 0 < c <= 2 ^ 51 -> pageheap_alloc h (4096 * c) = Some (p, h') -> p <> INVALID_PHYSICAL -> reach h' (U ∪ pages (p / 4096) c)
  | reach_fail h U c h' : reach h U -> 0 < c <= 2 ^ 51 -> pageheap_alloc h (4096 * c) = Some (INVALID_PHYSICAL, h') -> reach h' U
  | reach_dealloc h U i c h' : reach h U -> 0 < c <= 2 ^ max_order h -> pages i c ⊆ U -> pageheap_dealloc h (4096 * i) (4096 * c) = Some h' -> reach h' (U ∖ pages i c).

Definition repr (h : page_heap) (U : gset Z) : Prop :=
  exists Gs L, heap_inv h Gs L /\ (forall x, x ∈ U <-> page_used h Gs x) /\ ph_allocated h = u64 (4096 * Z.of_nat (size U)).

Lemma repr_alloc h U c : repr h U -> 0 < c <= 2 ^ 51 -> exists p h', pageheap_alloc h (4096 * c) = Some (p, h') /\ same_place h h' /\ answer_ok h (.∈ U) c p /\
  if decide (p = INVALID_PHYSICAL) then repr h' U else repr h' (U ∪ pages (p / 4096) c).
Proof.
  intros (Gs & L & Hv & HU & Hal) Hc. destruct (alloc_ok h Gs L c Hv Hc) as (p & h' & Gs' & L' & E & Hv' & Hs & Hans & Hp). exists p, h'. split; [done|]. split; [done|].
  assert (Hans' : answer_ok h (.∈ U) c p). { unfold answer_ok in *. by setoid_rewrite HU. }
  split; [done|]. destruct (decide (p = INVALID_PHYSICAL)) as [Ep|Ep]; destruct Hp as [Ha Hu].
  - exists Gs', L'. split; [done|]. split; [intros x; by rewrite Hu|]. by rewrite Ha.
  - exists Gs', L'. split; [done|]. split; [intros x; by rewrite Hu, elem_of_union, elem_of_pages, HU|]. rewrite Ha, Hal. rewrite size_union.
    + rewrite Nat2Z.inj_add, size_pages by lia. unfold u64. rewrite Zplus_mod_idemp_l. f_equal. lia.
    + intros x Hx Hx'%elem_of_pages. destruct Hans' as [(_ & i & -> & _ & _ & Hd)|[? _]]; [|done]. replace (4096 * i / 4096) with i in Hx' by (rewrite Z.mul_comm, Z.div_mul; lia). by apply (Hd x Hx').
Qed.

Lemma repr_dealloc h U i c : repr h U -> 0 < c <= 2 ^ max_order h -> pages i c ⊆ U -> exists h', pageheap_dealloc h (4096 * i) (4096 * c) = Some h' /\ same_place h h' /\ repr h' (U ∖ pages i c).
Proof.
  intros (Gs & L & Hv & HU & Hal) Hc Hsub. destruct (dealloc_ok h Gs L Hv i c Hc) as (h' & Gs' & L' & E & Hv' & Hs & Ha & Hu); [intros x Hx; apply HU, Hsub, elem_of_pages; lia|]. exists h'. split; [done|]. split; [done|].
  exists Gs', L'. split; [done|]. split; [intros x; by rewrite Hu, elem_of_difference, elem_of_pages, HU|]. rewrite Ha, Hal. pose proof (size_pages i c ltac:(lia)) as Hsz. pose proof (subseteq_size _ _ Hsub).
  rewrite size_difference by done. rewrite Nat2Z.inj_sub, Hsz by done. unfold u64. rewrite Zminus_mod_idemp_l. f_equal. lia.
Qed.

Lemma reach_repr h U : reach h U -> repr h U.
Proof.
  induction 1 as [h vbase mps Had Hl|h U c p h' _ IH Hc E Hp|h U c h' _ IH Hc E|h U i c h' _ IH Hc Hsub E].
  - exists [], (fun _ => []). split; [by apply set_up_ok|]. split; [|destruct (added_ok h Had); by rewrite size_empty]. intros x. split; [set_solver|]. intros (g & Hg & _). by apply not_elem_of_nil in Hg.
  - destruct (repr_alloc h U c IH Hc) as (p' & h1 & E' & _ & _ & Hr). rewrite E in E'. injection E' as <- <-. by rewrite decide_False in Hr.
  - destruct (repr_alloc h U c IH Hc) as (p' & h1 & E' & _ & _ & Hr). rewrite E in E'. injection E' as <- <-. by rewrite decide_True in Hr.
  - destruct (repr_dealloc h U i c IH Hc Hsub) as (h1 & E' & _ & Hr). rewrite E in E'. by injection E' as <-.
Qed.



(** ** What the object caches rely on *)

Section Interface.
Context (h0 : page_heap).

(** The page heap with the pages in use beside it. *)
#[export] Instance buddy_heap : PageHeap (page_heap * gset Z) := {
  allocate_u64 s size :=
    match pageheap_alloc s.1 size with
    | Some (p, h') => (p, (h', if p =? INVALID_PHYSICAL then s.2 else s.2 ∪ pages (p / 4096) (size / 4096)))
    | None => (INVALID_PHYSICAL, s)
    end;
  deallocate_u64 s p size :=
    match pageheap_dealloc s.1 p size with Some h' => (h', s.2 ∖ pages (p / 4096) (size / 4096)) | None => s end;
  heap_ok s := repr s.1 s.2 /\ same_place h0 s.1;
  in_use s x := x / 4096 ∈ s.2;
}.

Lemma usable_bound h Gs L x : heap_inv h Gs L -> usable h x -> 4096 * x + 4096 < 2 ^ 64.
Proof.
  intros Hv (a & s & n & Ha & Hc & Hn & Hx). destruct (range_bounds h (hv_place _ _ _ Hv) a Ha) as (B1 & B2 & B3 & B4 & B5). destruct (area_numbers _ _ s n (hp_order _ (hv_place _ _ _ Hv)) B1 B3 Hc Hn) as (_ & _ & N3 & _). lia.
Qed.

Lemma same_place_trans h1 h2 : same_place h0 h1 -> same_place h1 h2 -> same_place h0 h2.
Proof. intros (? & ? & ? & ? & ?) (? & ? & ? & ? & ?). unfold same_place. split_and!; congruence. Qed.

Lemma block_page i c x : 4096 * i <= x < 4096 * i + 4096 * c <-> i <= x / 4096 < i + c.
Proof. pose proof (Z.div_mod x 4096). pose proof (Z.mod_pos_bound x 4096). lia. Qed.

Lemma repr_order s : heap_ok s -> repr s.1 s.2 /\ same_place h0 s.1 /\ max_order s.1 = max_order h0 /\ max_order h0 <= 9.
Proof. intros [Hr Hs]. split; [done|]. split; [done|]. destruct Hs as (_ & Em & _). split; [done|]. destruct Hr as (Gs & L & Hv & _). pose proof (hp_order _ (hv_place _ _ _ Hv)). lia. Qed.

Lemma buddy_allocate o s a s' : 0 <= o <= max_order h0 -> heap_ok s -> allocate_u64 s (4096 * 2 ^ o) = (a, s') -> heap_ok s' /\
  (if a =? INVALID_PHYSICAL then forall x, in_use s' x <-> in_use s x
   else (4096 * 2 ^ o | a) /\ 0 <= a /\ a + 4096 * 2 ^ o < 2 ^ 64 /\ (forall x, a <= x < a + 4096 * 2 ^ o -> usable h0 (x / 4096) /\ ~ in_use s x) /\
     forall x, in_use s' x <-> in_use s x \/ a <= x < a + 4096 * 2 ^ o).
Proof.
  intros Ho (Hr & Hs & Em & Hm)%repr_order E. pose proof (page_order_pow o ltac:(lia)) as Hp. destruct (repr_alloc s.1 s.2 (2 ^ o) Hr ltac:(lia)) as (p & h' & Ea & Hs' & Ha & Hr').
  cbn [allocate_u64 buddy_heap] in E. rewrite Ea in E. injection E as <- <-. unfold answer_ok in Ha; rewrite find_order_exact in Ha by lia. replace (4096 * 2 ^ o / 4096) with (2 ^ o) by (rewrite Z.mul_comm, Z.div_mul; lia). cbn [heap_ok in_use buddy_heap fst snd].
  destruct (Z.eqb_spec p INVALID_PHYSICAL) as [->|Hne]; [rewrite decide_True in Hr' by done|rewrite decide_False in Hr' by done]; (split; [split; [done|by apply (same_place_trans s.1)]|]); [done|].
  destruct Ha as [(_ & i & -> & Hi & Hd & Hx)|[? _]]; [|done]. replace (4096 * i / 4096) with i in * by (rewrite Z.mul_comm, Z.div_mul; lia). destruct Hr as (Gs & L & Hv & _). pose proof (usable_bound s.1 Gs L (i + 2 ^ o - 1) Hv (proj1 (Hx (i + 2 ^ o - 1) ltac:(lia)))).
  split; [by apply Z.mul_divide_mono_l|]. split; [lia|]. split; [lia|]. split.
  - intros x Hx'%block_page. rewrite <- (usable_same h0 s.1) by done. by apply Hx.
  - intros x. by rewrite elem_of_union, elem_of_pages, block_page.
Qed.

Lemma buddy_deallocate o s a : 0 <= o <= max_order h0 -> heap_ok s -> (4096 * 2 ^ o | a) -> (forall x, a <= x < a + 4096 * 2 ^ o -> in_use s x) ->
  heap_ok (deallocate_u64 s a (4096 * 2 ^ o)) /\ forall x, in_use (deallocate_u64 s a (4096 * 2 ^ o)) x <-> in_use s x /\ ~ a <= x < a + 4096 * 2 ^ o.
Proof.
  intros Ho (Hr & Hs & Em & Hm)%repr_order [q ->] Hx. pose proof (page_order_pow o ltac:(lia)) as Hp. set (i := q * 2 ^ o). replace (q * (4096 * 2 ^ o)) with (4096 * i) in * by lia. cbn [in_use buddy_heap] in Hx.
  destruct (repr_dealloc s.1 s.2 i (2 ^ o) Hr) as (h' & E & Hs' & Hr').
  - rewrite Em. pose proof (Z.pow_le_mono_r 2 o (max_order h0) ltac:(lia) ltac:(lia)). lia.
  - intros y Hy%elem_of_pages. specialize (Hx (4096 * y) ltac:(lia)). by rewrite Z.mul_comm, Z.div_mul in Hx by lia.
  - cbn [deallocate_u64 buddy_heap heap_ok in_use]. rewrite E. replace (4096 * 2 ^ o / 4096) with (2 ^ o) by (rewrite Z.mul_comm, Z.div_mul; lia). replace (4096 * i / 4096) with i by (rewrite Z.mul_comm, Z.div_mul; lia). cbn [fst snd].
    split; [split; [done|by apply (same_place_trans s.1)]|]. intros x. by rewrite elem_of_difference, elem_of_pages, block_page.
Qed.

End Interface.

(** ** A concrete heap *)

(** A range of [count] pages from [first] on, with pages of 2 MiB as the largest blocks. *)
Definition blank : page_heap := pageheap_init 1000 (fun _ => {| l_prev := 0; l_next := 0 |}) (fun _ => Area (fun _ => 7) 0 (fun _ => 3) (fun _ => Elem 5 5)).

Definition boot (first count : Z) : option page_heap :=
  '(_, h) ← pageheap_add_range blank 77 (4096 * first) (4096 * count); Some (pageheap_init_done h (2 ^ 47) (2 ^ 21)).

Module Demo.
Definition ranged : page_heap := default blank (snd <$> pageheap_add_range blank 77 (4096 * 256) (4096 * 1024)).
Definition demo : page_heap := pageheap_init_done ranged (2 ^ 47) (2 ^ 21).
(** The heap with three pages taken. *)
Definition demo3 : page_heap := default blank (snd <$> pageheap_alloc demo (4096 * 3)).

Lemma demo_contents : rm_contents (ph_ranges demo) = [{| n_addr := 77; n_r := irange 256 1280 |}].
Proof. by vm_compute. Qed.

Lemma demo_added : added ranged.
Proof.
  destruct (pageheap_add_range blank 77 (4096 * 256) (4096 * 1024)) as [[ok h']|] eqn:E; [|by vm_compute in E]. assert (ranged = h') as -> by (unfold ranged; by rewrite E).
  apply (added_range blank 77 (4096 * 256) (4096 * 1024) ok); [apply added_none|done|by intros ?%not_elem_of_nil|lia|lia|lia|cbn; lia|done].
Qed.

Lemma demo_placed : well_placed 9 (irange 256 1280).
Proof.
  intros s n (C1 & C2 & C3 & _) Hn. cbn [start end_] in *. assert (s = 256) as -> by (destruct C2 as [|[k ->]]; lia). unfold sized in Hn.
  assert (E : check_area_size (Z.to_nat (2 * PAGEHEAP_AREA_MAX_PAGES)) 9 256 (Z.min (end_ (irange 256 1280)) (limit 256)) PAGEHEAP_AREA_MAX_PAGES = Some (1280, 260, 16384)) by by vm_compute.
  rewrite E in Hn. injection Hn as <- _ _. split; [done|]. by vm_compute.
Qed.

Lemma demo_layout : layout demo.
Proof.
  split; rewrite ?demo_contents.
  - split; by vm_compute.
  - done.
  - intros a ->%list_elem_of_singleton. by vm_compute.
  - intros a ->%list_elem_of_singleton. exact demo_placed.
  - intros o Ho. assert (E : areas demo o = 1000 + 16 * o) by done. assert (Hm : max_order demo = 9) by by vm_compute. split; [lia|]. intros a ->%list_elem_of_singleton. change (virt_base demo) with (2 ^ 47). cbn [n_r start end_]. lia.
Qed.

Lemma demo_reach : reach demo ∅.
Proof. apply reach_start; [apply demo_added|apply demo_layout]. Qed.

Lemma demo3_reach : reach demo3 (∅ ∪ pages 260 3).
Proof.
  destruct (pageheap_alloc demo (4096 * 3)) as [[p h']|] eqn:E; [|by vm_compute in E]. assert (demo3 = h') as -> by (unfold demo3; by rewrite E).
  assert (Ep : p = 4096 * 260). { assert (Ef : fst <$> pageheap_alloc demo (4096 * 3) = Some (4096 * 260)) by by vm_compute. rewrite E in Ef. by injection Ef. }
  subst p. apply (reach_alloc demo ∅ 3 (4096 * 260) h'); [apply demo_reach|lia|done|done].
Qed.

Lemma demo3_usable x : 260 <= x < 1280 -> usable demo3 x.
Proof.
  intros Hx. exists {| n_addr := 77; n_r := irange 256 1280 |}, 256, 1280. assert (rm_contents (ph_ranges demo3) = [{| n_addr := 77; n_r := irange 256 1280 |}]) as -> by by vm_compute.
  assert (max_order demo3 = 9) as -> by by vm_compute. split; [by left|]. split; [split_and!; [done|by left|done|by vm_compute]|]. split; [by vm_compute|]. split; [change (first_page 256 1280) with 260; lia|]. change (area_base 9 256 1280) with 0. lia.
Qed.
End Demo.
Import Demo.




(** ** Where the code goes wrong *)

(** Blocks of the sizes of a list, in pages: their pages. *)
Fixpoint allocs (h : page_heap) (sizes : list Z) : option (list Z * page_heap) :=
  match sizes with
  | [] => Some ([], h)
  | c :: sizes => '(p, h) ← pageheap_alloc h (4096 * c); '(ps, h) ← allocs h sizes; Some (p / 4096 :: ps, h)
  end.

Definition frees (h : page_heap) (i c : Z) : option page_heap := pageheap_dealloc h (4096 * i) (4096 * c).

(** 256 MiB from 0 on: an area of 65536 pages. All its memory is taken but for one block of
    four pages, then blocks of three pages come and go at both of its ends. *)
Definition full_area : option (list Z) :=
  h ← boot 0 65536;
  '(p, h) ← allocs h [3];
  '(_, h) ← allocs h (replicate 126 512 ++ [8; 16; 32; 128; 256; 256; 128; 64; 32; 16; 8; 4]);
  '(q, h) ← allocs h [3];
  h ← frees h 68 3;
  '(r, h) ← allocs h [4];
  h ← frees h 65532 3;
  '(s, h) ← allocs h [1];
  Some (p ++ q ++ r ++ s).

(** 1018 pages from the page 508 on, in which two areas are made: a block of each of them, and
    whether the second can be released. *)
Definition two_areas : option (list Z * bool) :=
  h ← boot 508 1018;
  '(ps, h) ← allocs h [256; 256];
  Some (ps, bool_decide (is_Some (frees h 1024 256))).

