(* ===== verification/Compose.v ===== *)
(** The order in which the services of a compose file are started:
    [internal/compose/graph.go], with the types of [internal/compose/types.go].

    [TopologicalSort] is Kahn's algorithm over maps, which Go visits in any order: the
    orders of its three loops are arguments.  It gives the least order that respects the
    dependencies, or fails when there is none. *)

From stdpp Require Import gmap strings sorting.
From S2P Require Import Prelude.

(** ** The code *)

Record Service := {
  Image : string; Memory : string; CPUs : Z; DependsOn : list string; Networks : list string; IP : string;
  Environment : list string; Ports : list string; Volumes : list string; HealthCheck : string; Restart : string }.

(** [sort.Strings]. *)
Definition sort_strings (l : list string) : list string := merge_sort String.le l.

(** An element of a map of integers or of slices; one that is missing is zero. *)
Definition int_at (m : gmap string Z) (k : string) : Z := default 0 (m !! k).
Definition strings_at (m : gmap string (list string)) (k : string) : list string := default [] (m !! k).

Definition add_dependency (name : string) (st : gmap string Z * gmap string (list string)) (dep : string) : gmap string Z * gmap string (list string) :=
  let '(inDegree, dependents) := st in
  (<[name := int_at inDegree name + 1]> inDegree, <[dep := strings_at dependents dep ++ [name]]> dependents).

Definition add_service (st : gmap string Z * gmap string (list string)) (e : string * Service) : gmap string Z * gmap string (list string) :=
  foldl (add_dependency e.1) st (DependsOn e.2).

(** A service that one of its dependencies no longer holds up. *)
Definition release_dependent (st : gmap string Z * list string) (dep : string) : gmap string Z * list string :=
  let '(inDegree, queue) := st in
  let inDegree := <[dep := int_at inDegree dep - 1]> inDegree in
  (inDegree, if int_at inDegree dep =? 0 then queue ++ [dep] else queue).

Fixpoint drain_queue (fuel : nat) (inDegree : gmap string Z) (dependents : gmap string (list string)) (queue order : list string) : option (list string) :=
  match fuel with
  | O => None
  | S fuel =>
      match queue with
      | [] => Some order
      | n :: queue =>
          let order := order ++ [n] in
          let deps := sort_strings (strings_at dependents n) in
          let dependents := <[n := deps]> dependents in
          let '(inDegree, queue) := foldl release_dependent (inDegree, queue) deps in
          drain_queue fuel inDegree dependents (sort_strings queue) order
      end
  end.

(** [names], [entries] and [degrees] are the orders in which the loops visit the maps. *)
Definition TopologicalSort (services : gmap string Service) (names : list string) (entries : list (string * Service)) (degrees : list string) : option (string + list string) :=
  let inDegree := foldl (fun m name => <[name := 0]> m) ∅ names in
  let '(inDegree, dependents) := foldl add_service (inDegree, ∅) entries in
  let queue := sort_strings (filter (fun name => int_at inDegree name = 0) degrees) in
  order ← drain_queue (S (size services)) inDegree dependents queue [];
  Some (if negb (Z.of_nat (length order) =? Z.of_nat (size services)) then inl "compose: dependency cycle detected"%string else inr order).

(** ** What it computes *)

Definition deps_of (services : gmap string Service) (x : string) : list string := match services !! x with Some s => DependsOn s | None => [] end.

(** All services, each after those it depends on. *)
Definition valid_order (services : gmap string Service) (o : list string) : Prop :=
  o ≡ₚ (map_to_list services).*1 /\ forall p x r, o = p ++ x :: r -> forall d, d ∈ deps_of services x -> d ∈ p.

Fixpoint lex_le (l l' : list string) : Prop :=
  match l, l' with
  | [], _ => True
  | x :: l, y :: l' => (x <> y /\ String.le x y) \/ (x = y /\ lex_le l l')
  | _ :: _, [] => False
  end.

(** *** Counting *)

Definition occ (x : string) (l : list string) : Z := Z.of_nat (length (filter (fun y => y = x) l)).

Lemma occ_cons x y l : occ x (y :: l) = (if decide (y = x) then 1 else 0) + occ x l.
Proof. unfold occ. rewrite filter_cons. destruct (decide (y = x)); cbn [length]; lia. Qed.

Lemma occ_app x l l' : occ x (l ++ l') = occ x l + occ x l'.
Proof. unfold occ. rewrite filter_app, length_app. lia. Qed.

Lemma occ_perm x l l' : l ≡ₚ l' -> occ x l = occ x l'.
Proof. intros Hp. unfold occ. by rewrite Hp. Qed.

Lemma occ_pos x l : 0 < occ x l <-> x ∈ l.
Proof.
  induction l as [|y l IH]; [split; [by cbn|by intros ?%not_elem_of_nil]|]. rewrite occ_cons, elem_of_cons, <- IH. pose proof (Nat2Z.is_nonneg (length (filter (fun z => z = x) l))). fold (occ x l) in *. destruct (decide (y = x)); split; intros; subst; naive_solver lia.
Qed.

Lemma occ_nonneg x l : 0 <= occ x l.
Proof. unfold occ. lia. Qed.

(** The entries of [l] that are not in [done]. *)
Definition pending (done l : list string) : Z := Z.of_nat (length (filter (fun y => y ∉ done) l)).

Lemma pending_cons done y l : pending done (y :: l) = (if decide (y ∈ done) then 0 else 1) + pending done l.
Proof. unfold pending. rewrite filter_cons. destruct (decide (y ∉ done)) as [H|H], (decide (y ∈ done)); cbn [length]; try lia; done. Qed.

Lemma pending_snoc done n l : n ∉ done -> pending (done ++ [n]) l = pending done l - occ n l.
Proof.
  intros Hn. induction l as [|y l IH]; [done|]. rewrite !pending_cons, occ_cons, IH.
  destruct (decide (y = n)) as [->|Hne].
  - destruct (decide (n ∈ done)), (decide (n ∈ done ++ [n])); try lia; set_solver.
  - destruct (decide (y ∈ done)), (decide (y ∈ done ++ [n])); try lia; set_solver.
Qed.

Lemma pending_zero done l : pending done l = 0 <-> forall d, d ∈ l -> d ∈ done.
Proof.
  induction l as [|y l IH]; [split; [by intros _ d ?%not_elem_of_nil|done]|]. rewrite pending_cons. assert (0 <= pending done l) by (unfold pending; lia). setoid_rewrite elem_of_cons. destruct (decide (y ∈ done)) as [Hy|Hy].
  - rewrite Z.add_0_l, IH. naive_solver.
  - split; [lia|]. intros H'. destruct Hy. apply H'. by left.
Qed.

Lemma pending_nil l : pending [] l = Z.of_nat (length l).
Proof. induction l as [|y l IH]; [done|]. rewrite pending_cons, IH, decide_False by apply not_elem_of_nil. cbn [length]. lia. Qed.

(** *** The loops before the queue *)

Lemma int_at_insert m k v k' : int_at (<[k := v]> m) k' = if decide (k = k') then v else int_at m k'.
Proof. unfold int_at. destruct (decide (k = k')) as [->|H]; [by rewrite lookup_insert_eq|by rewrite lookup_insert_ne]. Qed.

Lemma strings_at_insert m k v k' : strings_at (<[k := v]> m) k' = if decide (k = k') then v else strings_at m k'.
Proof. unfold strings_at. destruct (decide (k = k')) as [->|H]; [by rewrite lookup_insert_eq|by rewrite lookup_insert_ne]. Qed.

(** The sum of [f] over the entries with the name [n]. *)
Definition sum_for (n : string) (f : Service -> Z) (es : list (string * Service)) : Z := foldr (fun e acc => (if decide (e.1 = n) then f e.2 else 0) + acc) 0 es.

Lemma sum_for_map services n f es : es ≡ₚ map_to_list services -> sum_for n f es = match services !! n with Some s => f s | None => 0 end.
Proof.
  intros Hp. assert (Hd : NoDup es.*1) by (rewrite Hp; apply NoDup_fst_map_to_list). assert (Hin : forall s, (n, s) ∈ es <-> services !! n = Some s) by (intros s; by rewrite Hp, elem_of_map_to_list).
  assert (Hsum : sum_for n f es = match services !! n with Some s => if decide ((n, s).1 ∈ es.*1) then f s else 0 | None => 0 end).
  { clear Hp. revert Hin. generalize (services !! n) as o. induction es as [|[n' s'] es IH]; intros o Hin; [destruct o as [s|]; [by rewrite decide_False by apply not_elem_of_nil|done]|].
    cbn [fmap list_fmap] in Hd. apply NoDup_cons in Hd as [Hn' Hd]. cbn [sum_for foldr fst snd]. fold (sum_for n f es). destruct (decide (n' = n)) as [->|Hne].
    - assert (o = Some s') as -> by (apply Hin; left). rewrite decide_True by (cbn; left). rewrite (IH Hd None); [lia|]. intros s. split; [|done]. intros Hs. destruct Hn'. apply (list_elem_of_fmap_2' fst _ (n, s)); done.
    - rewrite (IH Hd o); [|intros s; rewrite <- Hin, elem_of_cons; split; [intros; by right|by intros [[= -> _]|?]]]. destruct o as [s|]; [|done]. assert (Hiff : n ∈ ((n', s') :: es).*1 <-> n ∈ es.*1) by (rewrite fmap_cons, elem_of_cons; cbn; naive_solver). cbn [fst]. destruct (decide (n ∈ es.*1)), (decide (n ∈ ((n', s') :: es).*1)); tauto || lia. }
  rewrite Hsum. destruct (services !! n) as [s|] eqn:E; [|done]. rewrite decide_True; [done|]. apply (list_elem_of_fmap_2' fst _ (n, s)); [by apply Hin|done].
Qed.

Lemma add_dependencies_ok name ds : forall d0 m0, let '(d, m) := foldl (add_dependency name) (d0, m0) ds in
  (forall x, int_at d x = int_at d0 x + (if decide (name = x) then Z.of_nat (length ds) else 0)) /\
  (forall x y, occ y (strings_at m x) = occ y (strings_at m0 x) + (if decide (name = y) then occ x ds else 0)).
Proof.
  induction ds as [|dep ds IH]; intros d0 m0; cbn [foldl].
  { split; intros; [destruct (decide _); cbn [length]; lia|destruct (decide _); [change (occ x []) with 0|]; lia]. }
  cbn [add_dependency]. set (d1 := <[_ := _]> d0). set (m1 := <[_ := _]> m0). specialize (IH d1 m1). destruct (foldl _ _ ds) as [d m]. destruct IH as [H1 H2]. split.
  - intros x. rewrite H1. unfold d1. rewrite int_at_insert. destruct (decide (name = x)) as [->|]; cbn [length]; lia.
  - intros x y. rewrite H2. unfold m1. rewrite strings_at_insert, occ_cons. destruct (decide (dep = x)) as [->|]; rewrite ?occ_app, ?occ_cons; change (occ y []) with 0; destruct (decide (name = y)); lia.
Qed.

Lemma add_services_ok es : forall d0 m0, let '(d, m) := foldl add_service (d0, m0) es in
  (forall x, int_at d x = int_at d0 x + sum_for x (fun s => Z.of_nat (length (DependsOn s))) es) /\
  (forall x y, occ y (strings_at m x) = occ y (strings_at m0 x) + sum_for y (fun s => occ x (DependsOn s)) es).
Proof.
  induction es as [|[name s] es IH]; intros d0 m0; cbn [foldl sum_for foldr]; [split; intros; lia|]. unfold add_service at 2. cbn [fst snd]. pose proof (add_dependencies_ok name (DependsOn s) d0 m0) as Ha.
  destruct (foldl (add_dependency name) _ _) as [d1 m1]. destruct Ha as [A1 A2]. specialize (IH d1 m1). destruct (foldl add_service _ es) as [d m]. destruct IH as [H1 H2]. split.
  - intros x. rewrite H1, A1. fold (sum_for x (fun s => Z.of_nat (length (DependsOn s))) es). lia.
  - intros x y. rewrite H2, A2. fold (sum_for y (fun s => occ x (DependsOn s)) es). lia.
Qed.

Lemma zero_degrees names : forall m, (forall x, int_at m x = 0) -> forall x, int_at (foldl (fun m name => <[name := 0]> m) m names) x = 0.
Proof. induction names as [|n names IH]; intros m Hm x; cbn [foldl]; [done|]. apply IH. intros y. rewrite int_at_insert. by destruct (decide _). Qed.

(** *** The queue *)

Lemma release_ok ds : forall d0 q0, (forall x, occ x ds <= int_at d0 x) -> exists d add, foldl release_dependent (d0, q0) ds = (d, q0 ++ add) /\ NoDup add /\
  (forall x, int_at d x = int_at d0 x - occ x ds) /\ forall x, x ∈ add <-> 0 < occ x ds /\ int_at d0 x = occ x ds.
Proof.
  induction ds as [|dep ds IH]; intros d0 q0 Hle; cbn [foldl].
  { exists d0, []. split; [by rewrite app_nil_r|]. split; [apply NoDup_nil_2|]. split; [intros x; change (occ x []) with 0; lia|]. intros x. change (occ x []) with 0. split; [by intros ?%not_elem_of_nil|lia]. }
  cbn [release_dependent]. set (d1 := <[_ := _]> d0). set (q1 := if int_at d1 dep =? 0 then q0 ++ [dep] else q0). assert (E1 : forall x, int_at d1 x = int_at d0 x - (if decide (dep = x) then 1 else 0)) by (intros x; unfold d1; rewrite int_at_insert; destruct (decide (dep = x)) as [->|]; lia).
  assert (Hle1 : forall x, occ x ds <= int_at d1 x) by (intros x; rewrite E1; specialize (Hle x); rewrite occ_cons in Hle; lia). destruct (IH d1 q1 Hle1) as (d & add & -> & Hnd & Hd & Hadd). exists d.
  assert (Hd' : forall x, int_at d x = int_at d0 x - occ x (dep :: ds)) by (intros x; rewrite Hd, E1, occ_cons; lia). pose proof (Hle1 dep) as Hdep. rewrite E1, decide_True in Hdep by done. pose proof (occ_nonneg dep ds).
  unfold q1. destruct (Z.eqb_spec (int_at d1 dep) 0) as [Hz|Hz]; rewrite E1, decide_True in Hz by done.
  - exists (dep :: add). split; [by rewrite <- app_assoc|]. split; [apply NoDup_cons; split; [rewrite Hadd; lia|done]|]. split; [done|]. intros x. rewrite elem_of_cons, Hadd, E1, occ_cons. destruct (decide (dep = x)) as [->|Hne]; [split; [lia|by left]|]. split; [intros [->|?]; [done|lia]|intros ?; right; lia].
  - exists add. split; [done|]. split; [done|]. split; [done|]. intros x. rewrite Hadd, E1, occ_cons. destruct (decide (dep = x)) as [->|Hne]; [|lia]. lia.
Qed.

Section Loop.
Context (services : gmap string Service).
Notation deps := (deps_of services).

Definition ready (done : list string) (x : string) : Prop := is_Some (services !! x) /\ x ∉ done /\ pending done (deps x) = 0.

(** Each element is the least that could be next. *)
Definition greedy (order : list string) : Prop := forall p x r, order = p ++ x :: r -> ready p x /\ forall y, ready p y -> String.le x y.

Record loop_inv (d : gmap string Z) (m : gmap string (list string)) (queue order : list string) : Prop := {
  li_nodup : NoDup order;
  li_greedy : greedy order;
  li_degree : forall x, int_at d x = pending order (deps x);
  li_dependents : forall x y, occ y (strings_at m x) = occ x (deps y);
  li_queue : forall x, x ∈ queue <-> ready order x;
  li_distinct : NoDup queue;
  li_sorted : StronglySorted String.le queue;
}.

Lemma greedy_deps order x d : greedy order -> x ∈ order -> d ∈ deps x -> d ∈ order.
Proof.
  intros Hg (p & r & ->)%list_elem_of_split Hd. destruct (Hg p x r eq_refl) as [(_ & _ & Hp) _]. rewrite pending_zero in Hp. specialize (Hp d Hd). set_solver.
Qed.

Lemma greedy_member order x : greedy order -> x ∈ order -> is_Some (services !! x).
Proof. intros Hg (p & r & ->)%list_elem_of_split. by destruct (Hg p x r eq_refl) as [(? & _) _]. Qed.

Lemma greedy_snoc order n : greedy order -> ready order n -> (forall y, ready order y -> String.le n y) -> greedy (order ++ [n]).
Proof.
  intros Hg Hn Hleast p x r E. destruct r as [|z r _] using rev_ind; [apply app_inj_tail in E as [-> ->]; done|]. rewrite app_comm_cons, app_assoc in E. apply app_inj_tail in E as [-> _]. by apply (Hg p x r).
Qed.

Lemma sort_strings_sorted l : StronglySorted String.le (sort_strings l).
Proof. apply StronglySorted_merge_sort; apply _. Qed.

Lemma sort_strings_perm l : sort_strings l ≡ₚ l.
Proof. apply merge_sort_Permutation. Qed.

Lemma loop_step d m n queue order : loop_inv d m (n :: queue) order -> let ds := sort_strings (strings_at m n) in
  exists d' q', foldl release_dependent (d, queue) ds = (d', q') /\ loop_inv d' (<[n := ds]> m) (sort_strings q') (order ++ [n]).
Proof.
  intros [Hnd Hg Hdeg Hdep Hq Hdq Hs] ds. assert (Hn : ready order n) by (apply Hq; left). pose proof Hn as (Hns & Hno & Hnp). assert (Hocc : forall x, occ x ds = occ n (deps x)) by (intros x; unfold ds; by rewrite (occ_perm x _ _ (sort_strings_perm _)), Hdep).
  assert (Hpend : forall x, pending (order ++ [n]) (deps x) = pending order (deps x) - occ n (deps x)) by (intros x; by apply pending_snoc). assert (Hpos : forall l x, 0 <= pending l (deps x)) by (intros; unfold pending; lia).
  destruct (release_ok ds d queue) as (d' & add & E & Hadd & Hd' & Hin); [intros x; rewrite Hocc, Hdeg; specialize (Hpend x); specialize (Hpos (order ++ [n]) x); lia|]. exists d', (queue ++ add). split; [done|]. apply NoDup_cons in Hdq as [Hnq Hdq].
  assert (Hin' : forall x, x ∈ add <-> 0 < occ n (deps x) /\ pending (order ++ [n]) (deps x) = 0) by (intros x; rewrite Hin, Hocc, Hdeg, Hpend; lia).
  split.
  - apply NoDup_app. split; [done|]. split; [|apply NoDup_singleton]. intros x Hx ->%list_elem_of_singleton. done.
  - apply greedy_snoc; [done..|]. intros y Hy%Hq. apply StronglySorted_cons in Hs as [Hs _]. apply elem_of_cons in Hy as [->|Hy]; [done|]. rewrite Forall_forall in Hs. by apply Hs.
  - intros x. by rewrite Hd', Hdeg, Hocc, Hpend.
  - intros x y. rewrite strings_at_insert. destruct (decide (n = x)) as [->|]; [apply Hocc|apply Hdep].
  - intros x. rewrite sort_strings_perm, elem_of_app, Hin'. unfold ready. rewrite not_elem_of_app, not_elem_of_cons. split.
    + intros [Hx|[Hx Hz]].
      * destruct (proj1 (Hq x) ltac:(by right)) as (? & ? & Hz). split; [done|]. split; [split; [done|]; split; [intros ->; done|apply not_elem_of_nil]|]. pose proof (Hpos (order ++ [n]) x). pose proof (occ_nonneg n (deps x)). rewrite Hpend in *. lia.
      * assert (Hnx : n ∈ deps x) by by apply occ_pos. split; [unfold deps_of in Hnx; destruct (services !! x); [done|by apply not_elem_of_nil in Hnx]|]. split; [|done]. split; [intros Hxo; apply Hno; by apply (greedy_deps order x)|]. split; [intros ->|apply not_elem_of_nil].
        apply Hno. by apply (proj1 (pending_zero order (deps n)) Hnp).
    + intros (Hxs & (Hxo & Hxn & _) & Hz). destruct (Z.lt_ge_cases 0 (occ n (deps x))) as [Ho|Ho]; [by right|]. left. assert (Hr : ready order x) by (split; [done|]; split; [done|]; specialize (Hpend x); pose proof (occ_nonneg n (deps x)); lia).
      apply Hq, elem_of_cons in Hr as [->|?]; done.
  - rewrite sort_strings_perm. apply NoDup_app. split; [done|]. split; [|done]. intros x Hx [Ho _]%Hin'. destruct (proj1 (Hq x) ltac:(by right)) as (_ & _ & Hz). specialize (Hpos (order ++ [n]) x). rewrite Hpend in Hpos. lia.
  - apply sort_strings_sorted.
Qed.

Lemma order_bound order : NoDup order -> greedy order -> (length order <= size services)%nat.
Proof.
  intros Hnd Hg. assert (Hsub : order ⊆+ (map_to_list services).*1).
  { apply NoDup_submseteq; [done|]. intros x Hx. destruct (greedy_member order x Hg Hx) as [s Hs]. apply (list_elem_of_fmap_2' fst _ (x, s)); [by apply elem_of_map_to_list|done]. }
  apply submseteq_length in Hsub. rewrite length_fmap, length_map_to_list in Hsub. done.
Qed.

Lemma drain_queue_ok fuel : forall d m queue order, loop_inv d m queue order -> (size services < fuel + length order)%nat ->
  exists o, drain_queue fuel d m queue order = Some o /\ NoDup o /\ greedy o /\ forall x, ~ ready o x.
Proof.
  induction fuel as [|fuel IH]; intros d m queue order Hi Hf; [pose proof (order_bound order (li_nodup _ _ _ _ Hi) (li_greedy _ _ _ _ Hi)); lia|]. cbn [drain_queue]. destruct queue as [|n queue].
  - exists order. split; [done|]. split; [apply Hi|]. split; [apply Hi|]. intros x Hx%(li_queue _ _ _ _ Hi). by apply not_elem_of_nil in Hx.
  - destruct (loop_step d m n queue order Hi) as (d' & q' & -> & Hi'). apply (IH _ _ _ _ Hi'). rewrite length_app. cbn [length]. lia.
Qed.
End Loop.

Section Result.
Context (services : gmap string Service) (names : list string) (entries : list (string * Service)) (degrees : list string).
Context (Hentries : entries ≡ₚ map_to_list services) (Hdegrees : degrees ≡ₚ (map_to_list services).*1).

Lemma keys_spec x : x ∈ (map_to_list services).*1 <-> is_Some (services !! x).
Proof.
  rewrite list_elem_of_fmap. split; [intros ([y s] & -> & Hs%elem_of_map_to_list); by exists s|]. intros [s Hs]. exists (x, s). split; [done|]. by apply elem_of_map_to_list.
Qed.

Lemma loop_start : let '(d, m) := foldl add_service (foldl (fun m name => <[name := 0]> m) ∅ names, ∅) entries in
  loop_inv services d m (sort_strings (filter (fun name => int_at d name = 0) degrees)) [].
Proof.
  pose proof (add_services_ok entries (foldl (fun m name => <[name := 0]> m) ∅ names) ∅) as Ha. destruct (foldl add_service _ entries) as [d m]. destruct Ha as [Hd Hm].
  assert (Hdeg : forall x, int_at d x = pending [] (deps_of services x)).
  { intros x. rewrite Hd, zero_degrees by done. rewrite (sum_for_map services) by done. rewrite pending_nil. unfold deps_of. by destruct (services !! x). }
  split; [apply NoDup_nil_2|by intros [] ? ?|done| | | |apply sort_strings_sorted].
  - intros x y. rewrite Hm, (sum_for_map services) by done. change (occ y (strings_at ∅ x)) with 0. unfold deps_of. by destruct (services !! y).
  - intros x. rewrite sort_strings_perm, list_elem_of_filter, Hdegrees, keys_spec, Hdeg. unfold ready. split; [intros [? ?]; split; [done|]; split; [apply not_elem_of_nil|done]|tauto].
  - rewrite sort_strings_perm. apply NoDup_filter. rewrite Hdegrees. apply NoDup_fst_map_to_list.
Qed.

Lemma sort_result : exists o, NoDup o /\ greedy services o /\ (forall x, ~ ready services o x) /\
  TopologicalSort services names entries degrees = Some (if negb (Z.of_nat (length o) =? Z.of_nat (size services)) then inl "compose: dependency cycle detected"%string else inr o).
Proof.
  pose proof loop_start as Hl. unfold TopologicalSort. destruct (foldl add_service _ entries) as [d m]. destruct (drain_queue_ok services (S (size services)) _ _ _ _ Hl) as (o & -> & Hnd & Hg & Hr); [cbn; lia|]. exists o. done.
Qed.
End Result.

Lemma greedy_least services l : forall p l', greedy services (p ++ l) -> valid_order services (p ++ l') -> (length l <= length l')%nat -> lex_le l l'.
Proof.
  induction l as [|x l IH]; intros p l' Hg Hv Hlen; [done|]. destruct l' as [|y l']; [cbn in Hlen; lia|]. cbn [lex_le]. destruct (decide (x = y)) as [->|Hne].
  - right. split; [done|]. apply (IH (p ++ [y])); rewrite <- ?app_assoc; [done|done|cbn in Hlen; lia].
  - left. split; [done|]. destruct (Hg p x l eq_refl) as [_ Hleast]. apply Hleast. destruct Hv as [Hp Hd]. split; [apply keys_spec; rewrite <- Hp; set_solver|]. split; [|apply pending_zero; by apply (Hd p y l')].
    assert (Hnd : NoDup (p ++ y :: l')) by (rewrite Hp; apply NoDup_fst_map_to_list). apply NoDup_app in Hnd as (_ & Hnd & _). intros Hin. apply (Hnd y Hin). left.
Qed.

(** A valid order has nothing that the greedy one has not. *)
Lemma greedy_covers services o o' : greedy services o -> (forall x, ~ ready services o x) -> valid_order services o' -> forall x, x ∈ o' -> x ∈ o.
Proof.
  intros Hg Hr [Hp Hd] x Hx. assert (H : forall p r, o' = p ++ r -> forall y, y ∈ p -> y ∈ o); [|by apply (H o' [] ltac:(by rewrite app_nil_r))].
  induction p as [|z p IH] using rev_ind; intros r E y Hy; [by apply not_elem_of_nil in Hy|]. rewrite <- app_assoc in E. specialize (IH ([z] ++ r) E). apply elem_of_app in Hy as [Hy|Hy%list_elem_of_singleton]; [by apply IH|subst y].
  destruct (decide (z ∈ o)) as [|Hn]; [done|]. destruct (Hr z). split; [apply keys_spec; rewrite <- Hp, E; set_solver|]. split; [done|]. apply pending_zero. intros d Hdz. apply IH. by apply (Hd p z r).
Qed.

Lemma greedy_valid services o : NoDup o -> greedy services o -> length o = size services -> valid_order services o.
Proof.
  intros Hnd Hg Hlen. split.
  - apply submseteq_length_Permutation; [|by rewrite length_fmap, length_map_to_list, Hlen]. apply NoDup_submseteq; [done|]. intros x Hx. apply keys_spec. by apply (greedy_member services o).
  - intros p x r E d Hd. destruct (Hg p x r E) as [(_ & _ & Hz) _]. by apply (proj1 (pending_zero p _) Hz).
Qed.

(** C11: Whatever the order in which Go visits the maps, services are sorted so that each comes
    after those it depends on, in the least such order; the sort fails only when there is no such
    order, and then, if all dependencies are services, some services wait for one another. *)
Theorem topological_sort_least services names entries degrees :
  names ≡ₚ (map_to_list services).*1 -> entries ≡ₚ map_to_list services -> degrees ≡ₚ (map_to_list services).*1 ->
  match TopologicalSort services names entries degrees with
  | Some (inr order) => valid_order services order /\ forall o, valid_order services o -> lex_le order o
  | Some (inl _) => (forall o, ~ valid_order services o) /\
      ((forall x d, d ∈ deps_of services x -> is_Some (services !! d)) ->
       exists C, C <> [] /\ forall x, x ∈ C -> is_Some (services !! x) /\ exists d, d ∈ deps_of services x /\ d ∈ C)
  | None => False
  end.
Proof.
  intros _ He Hd. destruct (sort_result services names entries degrees He Hd) as (o & Hnd & Hg & Hr & ->). destruct (Z.eqb_spec (Z.of_nat (length o)) (Z.of_nat (size services))) as [Hl|Hl]; cbn [negb].
  - assert (Hv : valid_order services o) by (apply greedy_valid; [done..|lia]). split; [done|]. intros o' Hv'. apply (greedy_least services o []); [done..|]. destruct Hv as [Hp _], Hv' as [Hp' _]. by rewrite Hp, Hp'.
  - assert (Hlt : (length o < size services)%nat) by (pose proof (order_bound services o Hnd Hg); lia). split.
    + intros o' Hv'. pose proof (greedy_covers services o o' Hg Hr Hv') as Hc. destruct Hv' as [Hp' _]. assert (Hs : o' ⊆+ o) by (apply NoDup_submseteq; [rewrite Hp'; apply NoDup_fst_map_to_list|done]). apply submseteq_length in Hs. rewrite Hp', length_fmap, length_map_to_list in Hs. lia.
    + intros Hclosed. exists (filter (fun x => x ∉ o) (map_to_list services).*1). split.
      * intros E. apply Hl. f_equal. assert (Hs : (map_to_list services).*1 ⊆+ o). { apply NoDup_submseteq; [apply NoDup_fst_map_to_list|]. intros x Hx. destruct (decide (x ∈ o)) as [|Hn]; [done|]. assert (Hin : x ∈ filter (fun x => x ∉ o) (map_to_list services).*1) by by apply list_elem_of_filter. rewrite E in Hin. by apply not_elem_of_nil in Hin. }
        apply submseteq_length in Hs. rewrite length_fmap, length_map_to_list in Hs. lia.
      * intros x [Hx Hk]%list_elem_of_filter. rewrite keys_spec in Hk. split; [done|]. destruct (decide (pending o (deps_of services x) = 0)) as [Hz|Hz]; [by destruct (Hr x)|].
        destruct (filter (fun d => d ∉ o) (deps_of services x)) as [|d l] eqn:E; [by unfold pending in Hz; rewrite E in Hz|]. assert (Hin : d ∈ filter (fun d => d ∉ o) (deps_of services x)) by (rewrite E; left). apply list_elem_of_filter in Hin as [Hdo Hdx].
        exists d. split; [done|]. apply list_elem_of_filter. split; [done|]. apply keys_spec. by apply (Hclosed x).
Qed.

(** ** An example *)

Definition service (deps : list string) : Service := {|
  Image := "app"; Memory := "256M"; CPUs := 1; DependsOn := deps; Networks := []; IP := ""; Environment := []; Ports := []; Volumes := []; HealthCheck := ""; Restart := "" |}.

Definition sample_services : gmap string Service :=
  list_to_map [("web", service ["api"; "cache"]); ("api", service ["db"; "cache"]); ("db", service []); ("cache", service [])]%string.

Lemma topological_sort_least_witness :
  TopologicalSort sample_services (map_to_list sample_services).*1 (map_to_list sample_services) (map_to_list sample_services).*1 = Some (inr ["cache"; "db"; "api"; "web"]%string) /\
  valid_order sample_services ["cache"; "db"; "api"; "web"]%string.
Proof.
  assert (E : TopologicalSort sample_services (map_to_list sample_services).*1 (map_to_list sample_services) (map_to_list sample_services).*1 = Some (inr ["cache"; "db"; "api"; "web"]%string)) by by vm_compute.
  split; [done|]. pose proof (topological_sort_least sample_services (map_to_list sample_services).*1 (map_to_list sample_services) (map_to_list sample_services).*1 ltac:(done) ltac:(done) ltac:(done)) as H. rewrite E in H. apply H.
Defined.
