(* ===== verification/Netip.v ===== *)
(** Addresses and subnets as Go's package [net] has them, as far as [internal/network] uses it:
    [IP.To4], [IPNet.Contains], [CIDRMask], [ParseIP], [ParseCIDR] and the printing of both.

    A string is its bytes, and an address a slice of 4 or 16 bytes.  The text of IPv6 addresses
    is left to two functions, about which nothing is assumed but that parsing gives 16 bytes. *)

From stdpp Require Import base list.
From Stdlib Require Import Ascii String.
From S2P Require Import Prelude Words.

(** The bytes of a literal. *)
Definition str (s : string) : list Z := (fun c => Z.of_nat (nat_of_ascii c)) <$> list_ascii_of_string s.

Definition DOT : Z := 46.
Definition SLASH : Z := 47.
Definition COLON : Z := 58.
Definition PERCENT : Z := 37.

Record IPNet := { net_IP : list Z; net_Mask : list Z }.

Definition v4InV6Prefix : list Z := repeat 0 10 ++ [0xff; 0xff].

Definition To4 (ip : list Z) : option (list Z) :=
  if decide (length ip = 4%nat) then Some ip
  else if decide (length ip = 16%nat /\ take 12 ip = v4InV6Prefix) then Some (drop 12 ip)
  else None.

(** The number and the mask of a subnet, both of the same length. *)
Definition networkNumberAndMask (n : IPNet) : option (list Z * list Z) :=
  ip ← (match To4 (net_IP n) with
        | Some ip => Some ip
        | None => if decide (length (net_IP n) = 16%nat) then Some (net_IP n) else None
        end);
  if decide (length (net_Mask n) = 4%nat) then (if decide (length ip = 4%nat) then Some (ip, net_Mask n) else None)
  else if decide (length (net_Mask n) = 16%nat) then Some (ip, if decide (length ip = 4%nat) then drop 12 (net_Mask n) else net_Mask n)
  else None.

Fixpoint masked_equal (nn m ip : list Z) : bool :=
  match nn, m, ip with
  | a :: nn, b :: m, c :: ip => (Z.land a b =? Z.land c b) && masked_equal nn m ip
  | _, _, _ => true
  end.

Definition Contains (n : IPNet) (ip : list Z) : bool :=
  match networkNumberAndMask n with
  | None => bool_decide (ip = [])
  | Some (nn, m) =>
      let ip := default ip (To4 ip) in
      bool_decide (length ip = length nn) && masked_equal nn m ip
  end.

(** [bytes] bytes with [ones] bits at the front. *)
Fixpoint CIDRMask (ones : Z) (bytes : nat) : list Z :=
  match bytes with
  | O => []
  | S bytes => if 8 <=? ones then 0xff :: CIDRMask (ones - 8) bytes
               else (255 - Z.shiftr 0xff ones) :: CIDRMask 0 bytes
  end.

#[global] Arguments CIDRMask : simpl never.

Definition mask_ip (ip m : list Z) : option (list Z) :=
  let ip := if decide (length m = 4%nat /\ length ip = 16%nat /\ take 12 ip = v4InV6Prefix) then drop 12 ip else ip in
  if decide (length ip = length m) then Some (zip_with Z.land ip m) else None.

(** *** Printing *)

Definition decimal (x : Z) : list Z :=
  (if 100 <=? x then [48 + x / 100] else []) ++ (if 10 <=? x then [48 + x / 10 mod 10] else []) ++ [48 + x mod 10].

Definition print4 (ip : list Z) : list Z :=
  match ip with
  | [a; b; c; d] => decimal a ++ DOT :: decimal b ++ DOT :: decimal c ++ DOT :: decimal d
  | _ => []
  end.

(** The number of ones at the front of a mask, if nothing but zeros follows. *)
Fixpoint leading_ones (n : nat) (b : Z) : Z :=
  match n with O => 0 | S n => if Z.testbit b (Z.of_nat n) then 1 + leading_ones n b else 0 end.

Fixpoint simpleMaskLength (m : list Z) : option Z :=
  match m with
  | [] => Some 0
  | 0xff :: m => n ← simpleMaskLength m; Some (8 + n)
  | b :: m => let n := leading_ones 8 b in
              if (b =? Z.land (Z.shiftl 0xff (8 - n)) 0xff) && forallb (fun c => c =? 0) m then Some n else None
  end.

Definition hex_digit (x : Z) : Z := if x <? 10 then 48 + x else 87 + x.
Definition hex (l : list Z) : list Z := l ≫= (fun b => [hex_digit (b / 16); hex_digit (b mod 16)]).

(** *** Reading *)

(** The fields of an IPv4 address: [prev] is the byte before, [digLen] and [val] are about the
    field that is being read, [fields] are those before it. *)
Fixpoint parseIPv4Fields (s : list Z) (prev : option Z) (digLen val : Z) (fields : list Z) : option (list Z) :=
  match s with
  | [] => if decide (length fields < 3)%nat then None else Some (fields ++ [val])
  | c :: s =>
      if (48 <=? c) && (c <=? 57) then
        if (digLen =? 1) && (val =? 0) then None
        else
          let val := val * 10 + c - 48 in
          if 255 <? val then None else parseIPv4Fields s (Some c) (digLen + 1) val fields
      else if c =? DOT then
        if bool_decide (prev = None \/ s = [] \/ prev = Some DOT) then None
        else if bool_decide (length fields = 3%nat) then None
        else parseIPv4Fields s (Some c) 0 0 (fields ++ [val])
      else None
  end.

(** What decides between the two kinds of addresses. *)
Definition first_mark (s : list Z) : option Z := head (filter (fun c => c = DOT \/ c = COLON \/ c = PERCENT) s).

Fixpoint cut (sep : Z) (s : list Z) : option (list Z * list Z) :=
  match s with
  | [] => None
  | c :: s => if c =? sep then Some ([], s) else '(before, after) ← cut sep s; Some (c :: before, after)
  end.

(** Digits, up to something else: the number and the bytes that are left. *)
Fixpoint dtoi (s : list Z) (n : Z) (i : nat) : option (Z * list Z) :=
  match s with
  | c :: s' =>
      if (48 <=? c) && (c <=? 57) then
        let n := n * 10 + c - 48 in
        if 0xFFFFFF <=? n then None else dtoi s' n (S i)
      else if decide (i = 0%nat) then None else Some (n, s)
  | [] => if decide (i = 0%nat) then None else Some (n, s)
  end.

Section Text.
Context (parseIPv6 : list Z -> option (list Z)) (print6 : list Z -> list Z).

(** An address without a zone: 4 bytes, or 16. *)
Definition ParseAddr (s : list Z) : option (list Z) :=
  mark ← first_mark s;
  if mark =? DOT then parseIPv4Fields s None 0 0 [] else if mark =? COLON then parseIPv6 s else None.

Definition ParseIP (s : list Z) : option (list Z) :=
  a ← ParseAddr s; Some (if decide (length a = 4%nat) then v4InV6Prefix ++ a else a).

Definition ParseCIDR (s : list Z) : option IPNet :=
  '(addr, mask) ← cut SLASH s;
  a ← ParseAddr addr;
  '(n, rest) ← dtoi mask 0 0;
  if bool_decide (rest <> []) || (8 * Z.of_nat (length a) <? n) then None
  else
    let m := CIDRMask n (length a) in
    ip ← mask_ip (if decide (length a = 4%nat) then v4InV6Prefix ++ a else a) m;
    Some {| net_IP := ip; net_Mask := m |}.

Definition IP_String (ip : list Z) : list Z := match To4 ip with Some ip => print4 ip | None => print6 ip end.

Definition IPNet_String (n : IPNet) : list Z :=
  match networkNumberAndMask n with
  | None => str "<nil>"
  | Some (nn, m) =>
      match simpleMaskLength m with
      | None => IP_String nn ++ SLASH :: hex m
      | Some l => IP_String nn ++ SLASH :: decimal l
      end
  end.
End Text.

(** ** Subnets of IPv4 *)

Definition quad (ip : list Z) : Prop := length ip = 4%nat /\ Forall is_byte ip.

(** The subnet of [ip] with [k] bits. *)
Definition subnet (ip : list Z) (k : Z) : IPNet := {| net_IP := ip; net_Mask := CIDRMask k 4 |}.

Definition canonical (ip : list Z) (k : Z) : Prop := quad ip /\ 0 <= k <= 32 /\ zip_with Z.land ip (CIDRMask k 4) = ip.

(** What holds of all lengths of a prefix, by trying them. *)
Lemma by_prefix (P : Z -> Prop) : Forall P (seqZ 0 33) -> forall k, 0 <= k <= 32 -> P k.
Proof. intros H k Hk. rewrite Forall_forall in H. apply H, elem_of_seqZ. lia. Qed.

Lemma mask_quad k : 0 <= k <= 32 -> quad (CIDRMask k 4).
Proof.
  revert k. apply by_prefix. apply (bool_decide_unpack _). by vm_compute.
Qed.

(** The address as a number. *)
Definition num (ip : list Z) : Z := match ip with [a; b; c; d] => ((a * 256 + b) * 256 + c) * 256 + d | _ => 0 end.

Lemma land_high x j : 0 <= x < 256 -> 0 <= j <= 8 -> Z.land x (256 - 2 ^ j) = x / 2 ^ j * 2 ^ j.
Proof.
  intros Hx Hj. rewrite <- Z.shiftr_div_pow2, <- Z.shiftl_mul_pow2 by lia. apply Z.bits_inj'. intros i Hi. rewrite Z.land_spec, Z.shiftl_spec by lia.
  replace (256 - 2 ^ j) with (Z.shiftl (Z.ones (8 - j)) j) by (rewrite Z.shiftl_mul_pow2, Z.ones_equiv, <- Z.sub_1_r, Z.mul_sub_distr_r, <- Z.pow_add_r by lia; replace (8 - j + j) with 8 by lia; lia).
  rewrite Z.shiftl_spec by lia. destruct (Z.ltb_spec i j).
  - rewrite (Z.testbit_neg_r _ (i - j)), (Z.testbit_neg_r _ (i - j)) by lia. apply andb_false_r.
  - rewrite Z.shiftr_spec by lia. replace (i - j + j) with i by lia. rewrite Z.testbit_ones by lia. rewrite (proj2 (Z.leb_le _ _)) by lia. cbn [andb].
    destruct (Z.ltb_spec (i - j) (8 - j)); [apply andb_true_r|]. rewrite andb_false_r. symmetry. apply Z.bits_above_log2; [lia|]. destruct (Z.eq_dec x 0) as [->|]; [cbn; lia|]. apply Z.log2_lt_pow2; [lia|]. apply (Z.lt_le_trans _ (2 ^ 8)); [lia|]. apply Z.pow_le_mono_r; lia.
Qed.

Lemma quad_cases ip : quad ip -> exists a b c d, ip = [a; b; c; d] /\ is_byte a /\ is_byte b /\ is_byte c /\ is_byte d.
Proof.
  intros [Hl Hb]. destruct ip as [|a [|b [|c [|d [|]]]]]; try done. rewrite !Forall_cons in Hb. exists a, b, c, d. tauto.
Qed.

Ltac byte_masks :=
  repeat match goal with |- context [Z.land ?x ?m] => first
    [rewrite (land_high x 0 : _ -> _ -> Z.land x 255 = _) by lia|rewrite (land_high x 8 : _ -> _ -> Z.land x 0 = _) by lia
    |rewrite (land_high x 1 : _ -> _ -> Z.land x 254 = _) by lia|rewrite (land_high x 2 : _ -> _ -> Z.land x 252 = _) by lia
    |rewrite (land_high x 3 : _ -> _ -> Z.land x 248 = _) by lia|rewrite (land_high x 4 : _ -> _ -> Z.land x 240 = _) by lia
    |rewrite (land_high x 5 : _ -> _ -> Z.land x 224 = _) by lia|rewrite (land_high x 6 : _ -> _ -> Z.land x 192 = _) by lia
    |rewrite (land_high x 7 : _ -> _ -> Z.land x 128 = _) by lia] end.

Lemma masked_num x y k : quad x -> quad y -> 0 <= k <= 32 -> masked_equal x (CIDRMask k 4) y = true <-> num x / 2 ^ (32 - k) = num y / 2 ^ (32 - k).
Proof.
  intros (a & b & c & d & -> & Ha & Hb & Hc & Hd)%quad_cases (a' & b' & c' & d' & -> & Ha' & Hb' & Hc' & Hd')%quad_cases. unfold is_byte in *. revert k. apply by_prefix. cbn [seqZ seq fmap list_fmap]. 
  repeat (apply Forall_cons; split); [..|constructor]. all: match goal with |- context [CIDRMask ?k 4] => let m := eval vm_compute in (CIDRMask k 4) in change (CIDRMask k 4) with m end.
  all: cbn [masked_equal]; rewrite !andb_true_iff, !Z.eqb_eq; byte_masks.
  all: match goal with |- context [2 ^ (32 - ?k)] => let p := eval vm_compute in (2 ^ (32 - k)) in change (2 ^ (32 - k)) with p end.
  all: cbn -[Z.div Z.mul Z.add]; change (2 ^ 0) with 1; change (2 ^ 1) with 2; change (2 ^ 2) with 4; change (2 ^ 3) with 8; change (2 ^ 4) with 16; change (2 ^ 5) with 32; change (2 ^ 6) with 64; change (2 ^ 7) with 128; change (2 ^ 8) with 256.
  all: split; [intros (? & ? & ? & ? & _)|intros ?; split_and!; [..|done]]; Z.to_euclidean_division_equations; lia.
Qed.

Lemma To4_quad ip : length ip = 4%nat -> To4 ip = Some ip.
Proof. intros H. unfold To4. by rewrite decide_True. Qed.

Lemma subnet_number ip k : quad ip -> 0 <= k <= 32 -> networkNumberAndMask (subnet ip k) = Some (ip, CIDRMask k 4).
Proof.
  intros [Hl _] Hk. unfold networkNumberAndMask, subnet. cbn [net_IP net_Mask]. rewrite To4_quad by done. cbn [mbind option_bind]. destruct (mask_quad k Hk) as [Hm _]. by rewrite !decide_True by done.
Qed.

Lemma contains_num ip k x : quad ip -> quad x -> 0 <= k <= 32 -> Contains (subnet ip k) x = true <-> num ip / 2 ^ (32 - k) = num x / 2 ^ (32 - k).
Proof.
  intros Hi Hx Hk. unfold Contains. rewrite subnet_number by done. destruct Hx as [Hl Hb]. rewrite (To4_quad x Hl). cbn [default]. unfold id. rewrite bool_decide_true by (destruct Hi as [-> _]; done). cbn [andb]. by apply masked_num.
Qed.

Lemma num_bound ip : quad ip -> 0 <= num ip < 2 ^ 32.
Proof. intros (a & b & c & d & -> & Ha & Hb & Hc & Hd)%quad_cases. unfold is_byte, num in *. lia. Qed.

Lemma num_inj x y : quad x -> quad y -> num x = num y -> x = y.
Proof.
  intros (a & b & c & d & -> & Ha & Hb & Hc & Hd)%quad_cases (a' & b' & c' & d' & -> & Ha' & Hb' & Hc' & Hd')%quad_cases. unfold is_byte, num in *. intros E. f_equal; [|f_equal; [|f_equal; [|f_equal]]]; lia.
Qed.

(** Two subnets that share an address: one of them has the number of the other. *)
Lemma overlap_contains a j b k x : quad a -> quad b -> quad x -> 0 <= j <= 32 -> 0 <= k <= 32 -> Contains (subnet a j) x = true -> Contains (subnet b k) x = true ->
  Contains (subnet a j) b = true \/ Contains (subnet b k) a = true.
Proof.
  intros Ha Hb Hx Hj Hk. rewrite !contains_num by done. assert (Hdiv : forall u v s t, 0 <= s <= t -> u / 2 ^ s = v / 2 ^ s -> u / 2 ^ t = v / 2 ^ t).
  { intros u v s t Hst E. replace t with (s + (t - s)) by lia. rewrite Z.pow_add_r by lia. rewrite <- !Z.div_div by (try apply Z.pow_nonzero; try apply Z.pow_pos_nonneg; lia). by rewrite E. }
  intros E1 E2. destruct (Z.le_ge_cases j k); [left|right].
  - rewrite E1. symmetry. apply (Hdiv _ _ (32 - k)); [lia|done].
  - rewrite E2. symmetry. apply (Hdiv _ _ (32 - j)); [lia|done].
Qed.

(** *** Printed addresses read back *)

Lemma digit_step d s prev l v f : 0 <= d <= 9 -> ~ (l = 1 /\ v = 0) -> 0 <= v -> v * 10 + d <= 255 ->
  parseIPv4Fields ((48 + d) :: s) prev l v f = parseIPv4Fields s (Some (48 + d)) (l + 1) (v * 10 + d) f.
Proof.
  intros Hd Hz Hv Hle. cbn [parseIPv4Fields]. rewrite (proj2 (Z.leb_le 48 (48 + d))), (proj2 (Z.leb_le (48 + d) 57)) by lia. cbn [andb].
  destruct (Z.eqb_spec l 1), (Z.eqb_spec v 0); cbn [andb]; try tauto; replace (v * 10 + (48 + d) - 48) with (v * 10 + d) by lia; rewrite (proj2 (Z.ltb_ge _ _)) by lia; done.
Qed.

Lemma decimal_step b s prev f : is_byte b -> exists c l, 48 <= c <= 57 /\ parseIPv4Fields (decimal b ++ s) prev 0 0 f = parseIPv4Fields s (Some c) l b f.
Proof.
  unfold is_byte. intros Hb. unfold decimal. assert (Hm : 0 <= b mod 10 < 10 /\ b = 10 * (b / 10) + b mod 10) by (Z.to_euclidean_division_equations; lia). assert (Hm' : 0 <= b / 10 mod 10 < 10 /\ b / 10 = 10 * (b / 100) + b / 10 mod 10) by (Z.to_euclidean_division_equations; lia).
  exists (48 + b mod 10). destruct (Z.leb_spec 100 b), (Z.leb_spec 10 b); cbn [app]; try lia.
  - eexists. split; [lia|]. rewrite !digit_step by lia. f_equal; lia.
  - eexists. split; [lia|]. rewrite !digit_step by lia. f_equal; lia.
  - eexists. split; [lia|]. rewrite digit_step by lia. f_equal; lia.
Qed.

Lemma dot_step c s l v f : 48 <= c <= 57 -> s <> [] -> (length f < 3)%nat -> parseIPv4Fields (DOT :: s) (Some c) l v f = parseIPv4Fields s (Some DOT) 0 0 (f ++ [v]).
Proof.
  intros Hc Hs Hf. cbn [parseIPv4Fields]. change ((48 <=? DOT) && (DOT <=? 57)) with false. change (DOT =? DOT) with true. cbn iota.
  rewrite bool_decide_false by (intros [?|[?|[= ->]]]; [done|done|unfold DOT in Hc; lia]). by rewrite bool_decide_false by lia.
Qed.

Lemma decimal_digits b : is_byte b -> Forall (fun c => 48 <= c <= 57) (decimal b) /\ decimal b <> [].
Proof.
  unfold is_byte, decimal. intros Hb. split; [|by destruct (_ <=? _), (_ <=? _)]. rewrite !Forall_app. split_and!; [destruct (Z.leb_spec 100 b)|destruct (Z.leb_spec 10 b)|]; repeat constructor; Z.to_euclidean_division_equations; lia.
Qed.

Lemma print4_parse ip : quad ip -> parseIPv4Fields (print4 ip) None 0 0 [] = Some ip.
Proof.
  intros (a & b & c & d & -> & Ha & Hb & Hc & Hd)%quad_cases. cbn [print4]. destruct (decimal_digits b Hb) as [_ Nb], (decimal_digits c Hc) as [_ Nc], (decimal_digits d Hd) as [_ Nd]. assert (Hne : forall l l', l <> [] -> l ++ l' <> ([] : list Z)) by (intros [] ? ?; done).
  destruct (decimal_step a (DOT :: decimal b ++ DOT :: decimal c ++ DOT :: decimal d) None [] Ha) as (? & ? & ? & ->). rewrite dot_step by (try apply Hne; done || (cbn; lia)).
  destruct (decimal_step b (DOT :: decimal c ++ DOT :: decimal d) (Some DOT) ([] ++ [a]) Hb) as (? & ? & ? & ->). rewrite dot_step by (try apply Hne; done || (cbn; lia)).
  destruct (decimal_step c (DOT :: decimal d) (Some DOT) (([] ++ [a]) ++ [b]) Hc) as (? & ? & ? & ->). rewrite dot_step by (done || (cbn; lia)).
  rewrite <- (app_nil_r (decimal d)). destruct (decimal_step d [] (Some DOT) ((([] ++ [a]) ++ [b]) ++ [c]) Hd) as (? & ? & ? & ->). done.
Qed.

Lemma print4_mark ip : quad ip -> first_mark (print4 ip) = Some DOT.
Proof.
  intros (a & b & c & d & -> & Ha & Hb & Hc & Hd)%quad_cases. unfold first_mark, print4. rewrite filter_app. destruct (decimal_digits a Ha) as [Hda _].
  assert (filter (fun c => c = DOT \/ c = COLON \/ c = PERCENT) (decimal a) = []) as ->. { induction Hda as [|x l Hx _ IH]; [done|]. rewrite filter_cons_False; [done|]. unfold DOT, COLON, PERCENT. lia. }
  cbn [app]. rewrite filter_cons_True by by left. done.
Qed.

Lemma cut_digits s t : Forall (fun c => c <> SLASH) s -> cut SLASH (s ++ SLASH :: t) = Some (s, t).
Proof. induction 1 as [|c s Hc _ IH]; cbn [app cut]; [by rewrite Z.eqb_refl|]. destruct (Z.eqb_spec c SLASH); [done|]. by rewrite IH. Qed.

Lemma print4_slash ip : quad ip -> Forall (fun c => c <> SLASH) (print4 ip).
Proof.
  intros (a & b & c & d & -> & Ha & Hb & Hc & Hd)%quad_cases. cbn [print4]. assert (H : forall x, is_byte x -> Forall (fun c => c <> SLASH) (decimal x)) by (intros x [Hx _]%decimal_digits; apply (Forall_impl _ _ _ Hx); unfold SLASH; lia).
  repeat first [apply Forall_app; split; [by apply H|]|apply Forall_cons; split; [done|]]. by apply H.
Qed.

Lemma prefix_text k : 0 <= k <= 32 -> dtoi (decimal k) 0 0 = Some (k, []) /\ simpleMaskLength (CIDRMask k 4) = Some k.
Proof. revert k. apply by_prefix. apply (bool_decide_unpack _). by vm_compute. Qed.

Lemma print_subnet p6 ip k : quad ip -> 0 <= k <= 32 -> IPNet_String p6 (subnet ip k) = print4 ip ++ SLASH :: decimal k.
Proof.
  intros Hi Hk. unfold IPNet_String. rewrite subnet_number by done. rewrite (proj2 (prefix_text k Hk)). unfold IP_String. by rewrite To4_quad by apply Hi.
Qed.

Lemma mask_mapped ip m : length ip = 4%nat -> length m = 4%nat -> mask_ip (v4InV6Prefix ++ ip) m = Some (zip_with Z.land ip m).
Proof.
  intros Hi Hm. assert (H : length m = 4%nat /\ length (v4InV6Prefix ++ ip) = 16%nat /\ take 12 (v4InV6Prefix ++ ip) = v4InV6Prefix) by (split; [done|]; split; [by rewrite length_app, Hi|by rewrite take_app_length']).
  unfold mask_ip. cbv zeta. rewrite (decide_True _ _ H). rewrite drop_app_length' by done. by rewrite decide_True by lia.
Qed.

Lemma mask_long ip m : length ip = 16%nat -> length m = 16%nat -> mask_ip ip m = Some (zip_with Z.land ip m).
Proof.
  intros Hi Hm. assert (H : ~ (length m = 4%nat /\ length ip = 16%nat /\ take 12 ip = v4InV6Prefix)) by (intros [? _]; lia). unfold mask_ip. cbv zeta. rewrite (decide_False _ _ H). by rewrite decide_True by congruence.
Qed.

Lemma parse_quad q6 s : quad s -> ParseAddr q6 (print4 s) = Some s.
Proof. intros Hs. unfold ParseAddr. rewrite print4_mark by done. cbn [mbind option_bind]. change (DOT =? DOT) with true. by apply print4_parse. Qed.

(** Subnets are stored as text and read back. *)
Lemma parse_subnet q6 p6 ip k : canonical ip k -> ParseCIDR q6 (IPNet_String p6 (subnet ip k)) = Some (subnet ip k).
Proof.
  intros (Hi & Hk & Hm). rewrite print_subnet by done. unfold ParseCIDR. rewrite cut_digits by by apply print4_slash. cbn [mbind option_bind]. rewrite parse_quad by done. cbn [mbind option_bind]. destruct (prefix_text k Hk) as [-> _]. cbn [mbind option_bind].
  rewrite bool_decide_false by tauto. cbn [orb]. pose proof Hi as [Hl _]. rewrite Hl. rewrite (proj2 (Z.ltb_ge _ _)) by lia. rewrite decide_True by done. rewrite mask_mapped by (try apply mask_quad; done). cbn [mbind option_bind]. by rewrite Hm.
Qed.

Lemma print4_inj x y : quad x -> quad y -> print4 x = print4 y -> x = y.
Proof. intros Hx Hy E. apply print4_parse in Hx, Hy. rewrite E in Hx. congruence. Qed.

(** *** What parsing gives *)

Lemma fields_quad s : forall prev l v f ip, parseIPv4Fields s prev l v f = Some ip -> 0 <= v <= 255 -> (length f <= 3)%nat -> Forall is_byte f -> quad ip.
Proof.
  induction s as [|c s IH]; intros prev l v f ip; cbn [parseIPv4Fields].
  - destruct (decide _) as [|Hl]; [done|]. intros [= <-] Hv Hf Hb. split; [rewrite length_app; cbn; lia|]. apply Forall_app. split; [done|]. repeat constructor; lia.
  - destruct (Z.leb_spec 48 c), (Z.leb_spec c 57); cbn [andb].
    1: destruct (_ && _); [done|]; destruct (Z.ltb_spec 255 (v * 10 + c - 48)); [done|]; intros E Hv; apply (IH _ _ _ _ _ E); lia.
    all: destruct (c =? DOT); [|done]; destruct (bool_decide _); [done|]; destruct (bool_decide_reflect (length f = 3%nat)); [done|]; intros E Hv Hf Hb; apply (IH _ _ _ _ _ E); [lia|rewrite length_app; cbn; lia|apply Forall_app; split; [done|]; repeat constructor; lia].
Qed.

Lemma land_byte x y : is_byte x -> 0 <= y -> is_byte (Z.land x y) /\ Z.land x y <= y.
Proof.
  intros Hx Hy. assert (H : forall a b, 0 <= a -> 0 <= b -> 0 <= Z.land a b <= a). { intros a b Ha Hb. split; [apply Z.land_nonneg; lia|]. assert (0 <= Z.ldiff a b) by (apply Z.ldiff_nonneg; lia). enough (a = Z.land a b + Z.ldiff a b) by lia. rewrite <- (Z.lor_ldiff_and a b) at 1. rewrite Z.lor_comm. symmetry. rewrite Z.add_nocarry_lxor, Z.lxor_lor; try done; apply Z.bits_inj'; intros i Hi; rewrite Z.land_spec, Z.land_spec, Z.ldiff_spec, Z.bits_0; by destruct (Z.testbit a i), (Z.testbit b i). }
  unfold is_byte in *. pose proof (H x y ltac:(lia) Hy). pose proof (H y x Hy ltac:(lia)) as H'. rewrite Z.land_comm in H'. lia.
Qed.

Lemma masked_quad ip k : quad ip -> 0 <= k <= 32 -> canonical (zip_with Z.land ip (CIDRMask k 4)) k.
Proof.
  intros Hi Hk. destruct (mask_quad k Hk) as [Hml Hmb]. apply quad_cases in Hi as (a & b & c & d & -> & Ha & Hb & Hc & Hd). assert (Hm : quad (CIDRMask k 4)) by by apply mask_quad. apply quad_cases in Hm as (e & f & g & i & Em & He & Hf & Hg & Hi). unfold canonical. rewrite Em. cbn [zip_with].
  split; [split; [done|]; repeat constructor; apply land_byte; done || (unfold is_byte in *; lia)|]. split; [done|]. by rewrite <- !Z.land_assoc, !Z.land_diag.
Qed.

Lemma dtoi_nonneg s : forall n i k r, dtoi s n i = Some (k, r) -> 0 <= n -> 0 <= k.
Proof.
  induction s as [|c s IH]; intros n i k r; cbn [dtoi]; [destruct (decide _); [done|by intros [= <- _]]|]. destruct (Z.leb_spec 48 c), (Z.leb_spec c 57); cbn [andb].
  1: destruct (_ <=? _); [done|]; intros E Hn; apply (IH _ _ _ _ E); lia. all: destruct (decide _); [done|by intros [= <- _]].
Qed.

(** [n] is the subnet of [ip] with [k] bits. *)
Definition denotes (n : IPNet) (ip : list Z) (k : Z) : Prop := canonical ip k /\ networkNumberAndMask n = Some (ip, CIDRMask k 4) /\ To4 (net_IP n) = Some ip.

Lemma denotes_subnet ip k : canonical ip k -> denotes (subnet ip k) ip k.
Proof. intros (Hi & Hk & Hm). split; [done|]. split; [by apply subnet_number|]. by apply To4_quad, Hi. Qed.

Lemma denotes_contains n ip k x : denotes n ip k -> Contains n x = Contains (subnet ip k) x.
Proof. intros ((Hi & Hk & _) & E & _). unfold Contains. by rewrite E, subnet_number. Qed.

Lemma denotes_string p6 n ip k : denotes n ip k -> IPNet_String p6 n = IPNet_String p6 (subnet ip k).
Proof. intros ((Hi & Hk & _) & E & _). unfold IPNet_String. by rewrite E, subnet_number. Qed.

Lemma contains_to4 n x y : To4 x = Some y -> Contains n x = Contains n y.
Proof.
  intros E. assert (Hy : To4 y = Some y). { apply To4_quad. unfold To4 in E. destruct (decide _); [by injection E as <-|]. destruct (decide _) as [[Hl _]|]; [|done]. injection E as <-. rewrite length_drop. lia. }
  unfold Contains. rewrite E, Hy. cbn [default]. destruct (networkNumberAndMask n) as [[nn m]|]; [done|].
  assert (x <> []) by (intros ->; done). assert (y <> []) by (intros ->; done). by rewrite !bool_decide_false by done.
Qed.

(** By trying all lengths of a prefix of IPv6. *)
Lemma mask16 n : 0 <= n <= 128 -> length (CIDRMask n 16) = 16%nat /\ (if 96 <=? n then drop 12 (CIDRMask n 16) = CIDRMask (n - 96) 4 else 0 <= CIDRMask n 16 !!! 11%nat < 255).
Proof.
  assert (H : Forall (fun n => length (CIDRMask n 16) = 16%nat /\ (if 96 <=? n then drop 12 (CIDRMask n 16) = CIDRMask (n - 96) 4 else 0 <= CIDRMask n 16 !!! 11%nat < 255)) (seqZ 0 129)).
  { repeat (apply Forall_cons; split; [split; [done|]; by vm_compute|]). constructor. }
  intros Hn. rewrite Forall_forall in H. apply H, elem_of_seqZ. lia.
Qed.

Definition ipv6_text (parseIPv6 : list Z -> option (list Z)) : Prop := forall s a, parseIPv6 s = Some a -> length a = 16%nat /\ Forall is_byte a.

Lemma parse_addr q6 s a : ipv6_text q6 -> ParseAddr q6 s = Some a -> quad a \/ (length a = 16%nat /\ Forall is_byte a).
Proof.
  intros H6. unfold ParseAddr. destruct (first_mark s) as [m|]; [|done]. cbn [mbind option_bind]. destruct (m =? DOT); [|destruct (m =? COLON); [intros E; right; by apply (H6 s)|done]].
  intros E. left. apply (fields_quad _ _ _ _ _ _ E); [lia|cbn; lia|constructor].
Qed.

Lemma parse_denotes q6 s n ip : ipv6_text q6 -> ParseCIDR q6 s = Some n -> To4 (net_IP n) = Some ip -> exists k, denotes n ip k.
Proof.
  intros H6 E E4. unfold ParseCIDR in E. destruct (cut SLASH s) as [[addr mask]|]; [|done]. cbn [mbind option_bind] in E. destruct (ParseAddr q6 addr) as [a|] eqn:Ea; [|done]. cbn [mbind option_bind] in E. destruct (dtoi mask 0 0) as [[k r]|] eqn:Ed; [|done]. cbn [mbind option_bind] in E.
  destruct (_ || _) eqn:Eo; [done|]. apply orb_false_iff in Eo as [_ Hk%Z.ltb_ge]. pose proof (dtoi_nonneg _ _ _ _ _ Ed ltac:(lia)) as Hk0. destruct (parse_addr q6 addr a H6 Ea) as [Hq|[Hl Hb]].
  - pose proof Hq as [Hl _]. rewrite Hl in *. rewrite decide_True in E by done. destruct (mask_quad k ltac:(lia)) as [Hm _]. rewrite mask_mapped in E by done. injection E as <-. cbn [net_IP] in *. pose proof (masked_quad a k Hq ltac:(lia)) as Hc. pose proof Hc as ([Hc4 _] & _).
    rewrite To4_quad in E4 by done. injection E4 as <-. exists k. by apply denotes_subnet.
  - rewrite Hl in *. rewrite decide_False in E by done. destruct (mask16 k ltac:(lia)) as [Hm16 Hm]. rewrite mask_long in E by done. injection E as <-. cbn [net_IP] in E4. set (ip16 := zip_with Z.land a (CIDRMask k 16)) in *.
    assert (Hl16 : length ip16 = 16%nat) by (unfold ip16; rewrite length_zip_with; lia). unfold To4 in E4. case_decide; [lia|]. case_decide as Hpre; [|done]. destruct Hpre as [_ Hpre]. injection E4 as <-.
    destruct (Z.leb_spec 96 k) as [Hk96|Hk96].
    + assert (Hd : drop 12 ip16 = zip_with Z.land (drop 12 a) (CIDRMask (k - 96) 4)) by (unfold ip16; by rewrite zip_with_drop, Hm). exists (k - 96). assert (Hq : quad (drop 12 a)) by (split; [rewrite length_drop; lia|by apply Forall_drop]).
      rewrite Hd. pose proof (masked_quad _ (k - 96) Hq ltac:(lia)) as Hc. split; [done|]. pose proof Hc as ([Hc4 _] & _). assert (Ht : To4 ip16 = Some (zip_with Z.land (drop 12 a) (CIDRMask (k - 96) 4))) by (unfold To4; rewrite decide_False by lia; rewrite decide_True by done; by rewrite Hd).
      split; [|done]. unfold networkNumberAndMask. cbn [net_IP net_Mask]. rewrite Ht. cbn [mbind option_bind]. rewrite Hm16. rewrite decide_False by done. rewrite decide_True by done. rewrite decide_True by done. by rewrite Hm.
    + exfalso. assert (Hpre11 : take 12 ip16 !! 11%nat = Some 255) by by rewrite Hpre. rewrite lookup_take_lt in Hpre11 by lia. unfold ip16 in Hpre11. rewrite lookup_zip_with in Hpre11.
      destruct (a !! 11%nat) as [x|] eqn:Ex; [|done]. cbn [mbind option_bind] in Hpre11. destruct (CIDRMask k 16 !! 11%nat) as [y|] eqn:Ey; [|done]. cbn in Hpre11. injection Hpre11 as Hxy. rewrite (list_lookup_total_correct _ _ _ Ey) in Hm.
      rewrite Forall_lookup in Hb. pose proof (land_byte x y (Hb _ _ Ex) ltac:(lia)). lia.
Qed.

(** *** The addresses of a subnet in turn *)

(** [copy] and four additions of bytes, from the last one on. *)
Definition add_bytes (ip : list Z) (index : Z) : list Z :=
  fst (foldl (fun st i => (alter (fun b => (b + Z.land st.2 255) mod 256) i st.1, Z.shiftr st.2 8)) (ip, index) [3%nat; 2%nat; 1%nat; 0%nat]).

Lemma add_bytes_quad a b c d i : add_bytes [a; b; c; d] i = [(a + i / 2 ^ 24 mod 256) mod 256; (b + i / 2 ^ 16 mod 256) mod 256; (c + i / 2 ^ 8 mod 256) mod 256; (d + i mod 256) mod 256].
Proof.
  unfold add_bytes. cbn -[Z.modulo Z.land Z.shiftr Z.div Z.pow]. rewrite !Z.shiftr_shiftr by lia. change 255 with (Z.ones 8). rewrite !Z.land_ones, !Z.shiftr_div_pow2 by lia. done.
Qed.

Lemma byte_added b i j : is_byte b -> is_byte i -> 0 <= j <= 8 -> Z.land b (256 - 2 ^ j) = b -> (Z.land b (256 - 2 ^ j) = Z.land ((b + i) mod 256) (256 - 2 ^ j) <-> i < 2 ^ j) /\ (i < 2 ^ j -> (b + i) mod 256 = b + i).
Proof.
  unfold is_byte. intros Hb Hi Hj Hc. rewrite Hc. rewrite land_high in * by (try apply Z.mod_pos_bound; lia). assert (Hp : 0 < 2 ^ j) by (apply Z.pow_pos_nonneg; lia). assert (Hd : exists q, 256 = q * 2 ^ j) by (exists (2 ^ (8 - j)); rewrite <- Z.pow_add_r by lia; by replace (8 - j + j) with 8 by lia).
  destruct Hd as [q Eq]. set (p := 2 ^ j) in *. pose proof (Z.div_mod b p ltac:(lia)) as Eb. set (h := b / p) in *. assert (Eb' : b = h * p) by lia. clear Eb Hc. assert (Hh : 0 <= h < q) by nia.
  assert (Hsmall : i < p -> (b + i) mod 256 = b + i) by (intros; apply Z.mod_small; nia). split; [|done]. split.
  - intros E. destruct (Z.lt_ge_cases i p) as [|Hge]; [done|]. exfalso. pose proof (Z.div_mod ((b + i) mod 256) p ltac:(lia)) as Em. pose proof (Z.mod_pos_bound ((b + i) mod 256) p ltac:(lia)). set (h' := (b + i) mod 256 / p) in *. assert (h' = h) as -> by nia.
    destruct (Z.lt_ge_cases (b + i) 256) as [Hlt|Hge']; [rewrite (Z.mod_small (b + i)) in * by lia; nia|]. assert (E2 : (b + i) mod 256 = b + i - 256) by (symmetry; apply (Z.mod_unique _ _ 1); lia). rewrite E2 in *. nia.
  - intros Hlt. rewrite Hsmall by done. assert ((b + i) / p = h) as ->; [|lia]. symmetry. apply (Z.div_unique _ _ _ i); lia.
Qed.

(** The bits of the byte [t] that are not in the prefix. *)
Definition host_bits (k t : Z) : Z := Z.max 0 (Z.min 8 (8 * (t + 1) - k)).

Lemma mask_bytes k : 0 <= k <= 32 -> CIDRMask k 4 = [256 - 2 ^ host_bits k 0; 256 - 2 ^ host_bits k 1; 256 - 2 ^ host_bits k 2; 256 - 2 ^ host_bits k 3].
Proof. revert k. apply by_prefix. apply (bool_decide_unpack _). by vm_compute. Qed.

Lemma small_index k i0 i1 i2 i3 : 0 <= k <= 32 -> is_byte i0 -> is_byte i1 -> is_byte i2 -> is_byte i3 ->
  ((i0 * 256 + i1) * 256 + i2) * 256 + i3 < 2 ^ (32 - k) <-> i0 < 2 ^ host_bits k 0 /\ i1 < 2 ^ host_bits k 1 /\ i2 < 2 ^ host_bits k 2 /\ i3 < 2 ^ host_bits k 3.
Proof.
  unfold is_byte. intros Hk H0 H1 H2 H3. revert k Hk. apply by_prefix. cbn [seqZ seq fmap list_fmap].
  repeat (apply Forall_cons; split); [..|constructor]; match goal with |- context [_ < 2 ^ (32 - ?k) <-> _] =>
    let p := eval vm_compute in (2 ^ (32 - k)) in let p0 := eval vm_compute in (2 ^ host_bits k 0) in let p1 := eval vm_compute in (2 ^ host_bits k 1) in let p2 := eval vm_compute in (2 ^ host_bits k 2) in let p3 := eval vm_compute in (2 ^ host_bits k 3) in
    change (2 ^ (32 - k)) with p; change (2 ^ host_bits k 0) with p0; change (2 ^ host_bits k 1) with p1; change (2 ^ host_bits k 2) with p2; change (2 ^ host_bits k 3) with p3 end; lia.
Qed.

(** The [index]th address, if the subnet has it. *)
Lemma add_bytes_spec ip k i : canonical ip k -> 0 <= i < 2 ^ 32 -> quad (add_bytes ip i) /\
  (Contains (subnet ip k) (add_bytes ip i) = true <-> i < 2 ^ (32 - k)) /\ (i < 2 ^ (32 - k) -> num (add_bytes ip i) = num ip + i).
Proof.
  intros (Hi & Hk & Hc) Hib. assert (Hq : quad (add_bytes ip i)). { apply quad_cases in Hi as (a & b & c & d & -> & _). rewrite add_bytes_quad. split; [done|]. unfold is_byte. repeat constructor; apply Z.mod_pos_bound; lia. }
  split; [done|]. unfold Contains. rewrite subnet_number by done. destruct Hq as [Hl _]. rewrite (To4_quad _ Hl). cbn [default]. unfold id. rewrite bool_decide_true by (destruct Hi as [-> _]; done). cbn [andb]. clear Hl.
  apply quad_cases in Hi as (a & b & c & d & -> & Ha & Hb & Hc' & Hd). rewrite add_bytes_quad. set (i0 := i / 2 ^ 24 mod 256). set (i1 := i / 2 ^ 16 mod 256). set (i2 := i / 2 ^ 8 mod 256). set (i3 := i mod 256).
  assert (Ei : i = ((i0 * 256 + i1) * 256 + i2) * 256 + i3) by (unfold i0, i1, i2, i3; Z.to_euclidean_division_equations; lia). assert (B0 : is_byte i0) by (apply Z.mod_pos_bound; lia). assert (B1 : is_byte i1) by (apply Z.mod_pos_bound; lia). assert (B2 : is_byte i2) by (apply Z.mod_pos_bound; lia). assert (B3 : is_byte i3) by (apply Z.mod_pos_bound; lia).
  clearbody i0 i1 i2 i3. clear Hib. rewrite Ei, small_index by done. rewrite mask_bytes in * by done. assert (Hj : forall t, 0 <= host_bits k t <= 8) by (intros t; unfold host_bits; lia). cbn [zip_with] in Hc. injection Hc as E0 E1 E2 E3.
  destruct (byte_added a i0 _ Ha B0 (Hj 0) E0) as [P0 Q0], (byte_added b i1 _ Hb B1 (Hj 1) E1) as [P1 Q1], (byte_added c i2 _ Hc' B2 (Hj 2) E2) as [P2 Q2], (byte_added d i3 _ Hd B3 (Hj 3) E3) as [P3 Q3].
  split; [cbn [masked_equal]; rewrite !andb_true_iff, !Z.eqb_eq, P0, P1, P2, P3; tauto|]. intros (L0 & L1 & L2 & L3). rewrite Q0, Q1, Q2, Q3 by done. unfold num. lia.
Qed.
