(* ===== verification/Netstore.v ===== *)
(** Networks and their addresses: [internal/network/store.go], with the names of
    [internal/naming/naming.go].

    A store is a directory with a directory for each network, which holds the network and
    what of its subnet is taken.  Here it is a map from names; files are read back as they were
    written, and the lock that every operation takes is left out.  Bridges, which the store
    destroys when it removes a network, are not in it. *)

From stdpp Require Import gmap sorting.
From Stdlib Require Import String.
From S2P Require Import Prelude Words Sha256 Netip.

(** ** Names *)

Definition MaxResourceNameLen : nat := 64.

Definition is_upper (c : Z) : bool := (65 <=? c) && (c <=? 90).
Definition is_lower (c : Z) : bool := (97 <=? c) && (c <=? 122).
Definition is_number (c : Z) : bool := (48 <=? c) && (c <=? 57).
Definition is_alnum (c : Z) : bool := is_upper c || is_lower c || is_number c.
Definition to_upper (s : list Z) : list Z := (fun c => if is_lower c then c - 32 else c) <$> s.

(** [^\[a-zA-Z0-9\]\[a-zA-Z0-9_.-\]*$] *)
Definition resourceNameRe (name : list Z) : bool :=
  match name with
  | [] => false
  | c :: name => is_alnum c && forallb (fun c => is_alnum c || (c =? 95) || (c =? 46) || (c =? 45)) name
  end.

Definition windowsReserved : list (list Z) :=
  str <$> ["CON"; "PRN"; "AUX"; "NUL"; "COM1"; "COM2"; "COM3"; "COM4"; "COM5"; "COM6"; "COM7"; "COM8"; "COM9";
           "LPT1"; "LPT2"; "LPT3"; "LPT4"; "LPT5"; "LPT6"; "LPT7"; "LPT8"; "LPT9"]%string.

Fixpoint two_dots (s : list Z) : bool :=
  match s with
  | a :: (b :: _) as s' => ((a =? 46) && (b =? 46)) || two_dots s'
  | _ => false
  end.

(** Whether there is no error. *)
Definition ValidateResourceName (name : list Z) : bool :=
  if decide (name = []) then false
  else if decide (MaxResourceNameLen < length name)%nat then false
  else if existsb (fun c => (c =? 47) || (c =? 92)) name || two_dots name then false
  else if negb (resourceNameRe name) then false
  else if decide (last name = Some 46) then false
  else
    let base := match cut 46 name with Some (before, _) => before | None => name end in
    if decide (to_upper base ∈ windowsReserved) then false else true.

(** ** The store *)

Definition bridgePrefix : list Z := str "jerboa-br-".
Definition maxIfaceNameLen : nat := 15.

Definition deriveBridgeName (name : list Z) : list Z :=
  let candidate := bridgePrefix ++ name in
  if decide (length candidate <= maxIfaceNameLen)%nat then candidate
  else bridgePrefix ++ take (maxIfaceNameLen - length bridgePrefix) (hex (SHA256 name)).

Record Network := { ID : list Z; Name : list Z; Subnet : list Z; Gateway : list Z; Bridge : list Z; Driver : list Z; CreatedAt : Z }.
Record networkState := { AllocatedIPs : list (list Z); NextIndex : Z }.

Notation Store := (gmap (list Z) (Network * networkState)).

Inductive neterr :=
  | InvalidName | AlreadyExists | NotFound | NoSubnet | InvalidSubnet | SubnetOverlaps (other : list Z)
  | BridgeCollides (other : list Z) | InvalidIP | OutsideSubnet | NetworkOrBroadcast | IPAlreadyAllocated | NoAvailableIPs.

(** The order of [os.ReadDir]. *)
Fixpoint bytes_leb (a b : list Z) : bool :=
  match a, b with
  | [], _ => true
  | _ :: _, [] => false
  | x :: a, y :: b => (x <? y) || ((x =? y) && bytes_leb a b)
  end.
Definition bytes_le (a b : list Z) : Prop := bytes_leb a b = true.
#[export] Instance bytes_le_dec a b : Decision (bytes_le a b) := decide (bytes_leb a b = true).

Definition readDir (s : Store) : list (list Z) := merge_sort bytes_le (map_to_list s).*1.

Section Operations.
Context (parseIPv6 : list Z -> option (list Z)) (print6 : list Z -> list Z).
#[local] Notation ParseCIDR := (ParseCIDR parseIPv6).
#[local] Notation ParseIP := (ParseIP parseIPv6).
#[local] Notation IP_String := (IP_String print6).
#[local] Notation IPNet_String := (IPNet_String print6).

Definition readMeta (s : Store) (name : list Z) : neterr + Network :=
  if negb (ValidateResourceName name) then inl InvalidName
  else match s !! name with Some (n, _) => inr n | None => inl NotFound end.

Definition readState (s : Store) (name : list Z) : neterr + networkState :=
  if negb (ValidateResourceName name) then inl InvalidName
  else match s !! name with Some (_, st) => inr st | None => inl NotFound end.

(** The networks whose records can be read. *)
Definition networks (s : Store) : list Network := omap (fun name => match readMeta s name with inr n => Some n | inl _ => None end) (readDir s).

Definition allocatedSubnetsLocked (s : Store) : list (IPNet * list Z) :=
  omap (fun n => match ParseCIDR (Subnet n) with Some ipNet => Some (ipNet, Name n) | None => None end) (networks s).

Definition subnetsOverlap (a b : IPNet) : bool := Contains a (net_IP b) || Contains b (net_IP a).

(** The name of the first network that overlaps, or nothing. *)
Definition overlappingSubnet (candidate : IPNet) (allocated : list (IPNet * list Z)) : list Z :=
  match List.find (fun a => subnetsOverlap candidate a.1) allocated with Some a => a.2 | None => [] end.

Definition ensureBridgeAvailableLocked (s : Store) (name bridge : list Z) : option neterr :=
  match List.find (fun n => bool_decide (Name n <> name) && bool_decide (Bridge n = bridge)) (networks s) with
  | Some n => Some (BridgeCollides (Name n))
  | None => None
  end.

Definition parseSubnet (cidr : list Z) : option (IPNet * list Z) :=
  ipNet ← ParseCIDR cidr;
  _ ← To4 (net_IP ipNet);
  Some (ipNet, <[3%nat := 1]> (net_IP ipNet)).

Fixpoint try_subnets (n : nat) (i : Z) (baseIP : list Z) (allocated : list (IPNet * list Z)) : option (IPNet * list Z) :=
  match n with
  | O => None
  | S n =>
      let subnetIP := <[3%nat := 0]> (<[2%nat := i mod 256]> baseIP) in
      let cidr := {| net_IP := subnetIP; net_Mask := CIDRMask 24 4 |} in
      if decide (overlappingSubnet cidr allocated = []) then Some (cidr, <[3%nat := 1]> subnetIP)
      else try_subnets n (i + 1) baseIP allocated
  end.

Definition allocateSubnet (baseNet : IPNet) (allocated : list (IPNet * list Z)) : option (IPNet * list Z) :=
  baseIP ← To4 (net_IP baseNet); try_subnets 256 0 baseIP allocated.

Definition defaultSubnetCIDR : IPNet := {| net_IP := [10; 100; 0; 0]; net_Mask := CIDRMask 16 4 |}.

Definition Create (s : Store) (name subnet driver : list Z) (now : Z) : neterr + (Network * Store) :=
  if negb (ValidateResourceName name) then inl InvalidName
  else if decide (is_Some (s !! name)) then inl AlreadyExists
  else
    let driver := if decide (driver = []) then str "bridge" else driver in
    let allocated := allocatedSubnetsLocked s in
    let found :=
      if decide (subnet = []) then match allocateSubnet defaultSubnetCIDR allocated with Some f => inr f | None => inl NoSubnet end
      else
        match parseSubnet subnet with
        | None => inl InvalidSubnet
        | Some (ipNet, gatewayIP) =>
            let conflict := overlappingSubnet ipNet allocated in
            if decide (conflict = []) then inr (ipNet, gatewayIP) else inl (SubnetOverlaps conflict)
        end in
    match found with
    | inl e => inl e
    | inr (ipNet, gatewayIP) =>
        let n := {| ID := name; Name := name; Subnet := IPNet_String ipNet; Gateway := IP_String gatewayIP;
                    Bridge := deriveBridgeName name; Driver := driver; CreatedAt := now |} in
        match ensureBridgeAvailableLocked s name (Bridge n) with
        | Some e => inl e
        | None => inr (n, <[name := (n, {| AllocatedIPs := [IP_String gatewayIP]; NextIndex := 2 |})]> s)
        end
    end.

Definition Get (s : Store) (name : list Z) : neterr + Network := readMeta s name.

Definition List_ (s : Store) : list Network := networks s.

Definition Remove (s : Store) (name : list Z) : neterr + Store :=
  if negb (ValidateResourceName name) then inl InvalidName
  else if decide (s !! name = None) then inl NotFound
  else inr (delete name s).

Definition networkOrBroadcast (ipNet : IPNet) (ip : list Z) : bool :=
  match To4 (net_IP ipNet), To4 ip with
  | Some base, Some v4 =>
      if decide (length (net_Mask ipNet) <> 4%nat) then false
      else bool_decide (v4 = base) || bool_decide (v4 = zip_with (fun b m => Z.lor b (255 - m)) base (net_Mask ipNet))
  | _, _ => false
  end.

Definition ReserveIP (s : Store) (name ip : list Z) : neterr + Store :=
  match readMeta s name with
  | inl e => inl e
  | inr n =>
      match parsed ← ParseIP ip; _ ← To4 parsed; Some parsed with
      | None => inl InvalidIP
      | Some parsed =>
          match ParseCIDR (Subnet n) with
          | None => inl InvalidSubnet
          | Some ipNet =>
              if negb (Contains ipNet parsed) then inl OutsideSubnet
              else if networkOrBroadcast ipNet parsed then inl NetworkOrBroadcast
              else
                match readState s name with
                | inl e => inl e
                | inr st =>
                    let want := IP_String parsed in
                    if decide (want ∈ AllocatedIPs st) then inl IPAlreadyAllocated
                    else inr (<[name := (n, {| AllocatedIPs := AllocatedIPs st ++ [want]; NextIndex := NextIndex st |})]> s)
                end
          end
      end
  end.

Definition nextIP (ipNet : IPNet) (index : Z) : option (list Z) :=
  let ip := add_bytes (net_IP ipNet) index in
  if negb (Contains ipNet ip) then None else Some ip.

(** The address and the index after it; [Some None] when the subnet is used up. *)
Fixpoint next_free (fuel : nat) (ipNet : IPNet) (index : Z) (allocated : list (list Z)) : option (option (list Z * Z)) :=
  match fuel with
  | O => None
  | S fuel =>
      match nextIP ipNet index with
      | None => Some None
      | Some candidate =>
          let index := index + 1 in
          if decide (IP_String candidate ∈ allocated) then next_free fuel ipNet index allocated
          else Some (Some (candidate, index))
      end
  end.

(** [None] only for a search that does not end. *)
Definition AllocateIP (s : Store) (name : list Z) : option (neterr + (list Z * Store)) :=
  match readMeta s name with
  | inl e => Some (inl e)
  | inr n =>
      match readState s name with
      | inl e => Some (inl e)
      | inr st =>
          match ParseCIDR (Subnet n) with
          | None => Some (inl InvalidSubnet)
          | Some ipNet =>
              found ← next_free (S (length (AllocatedIPs st))) ipNet (NextIndex st) (AllocatedIPs st);
              match found with
              | None => Some (inl NoAvailableIPs)
              | Some (ip, next) =>
                  Some (inr (ip, <[name := (n, {| AllocatedIPs := AllocatedIPs st ++ [IP_String ip]; NextIndex := next |})]> s))
              end
          end
      end
  end.

(** The list without the first [ip] in it. *)
Fixpoint remove_first (ip : list Z) (l : list (list Z)) : option (list (list Z)) :=
  match l with
  | [] => None
  | a :: l => if decide (a = ip) then Some l else l ← remove_first ip l; Some (a :: l)
  end.

Definition ReleaseIP (s : Store) (name ip : list Z) : neterr + Store :=
  if negb (ValidateResourceName name) then inl InvalidName
  else
    match s !! name with
    | None => inl NotFound
    | Some (n, st) =>
        match remove_first ip (AllocatedIPs st) with
        | None => inr s
        | Some l => inr (<[name := (n, {| AllocatedIPs := l; NextIndex := NextIndex st |})]> s)
        end
    end.
End Operations.

(** ** The invariant *)

Section Invariant.
Context (q6 : list Z -> option (list Z)) (p6 : list Z -> list Z) (H6 : ipv6_text q6).

(** The network [n] has the subnet of [ip] with [k] bits. *)
Definition has_subnet (n : Network) (ip : list Z) (k : Z) : Prop := canonical ip k /\ Subnet n = IPNet_String p6 (subnet ip k).

Definition in_network (n : Network) (x : list Z) : Prop := exists ip k, has_subnet n ip k /\ Contains (subnet ip k) x = true.

Record net_ok (name : list Z) (n : Network) (st : networkState) : Prop := {
  no_name : Name n = name;
  no_valid : ValidateResourceName name = true;
  no_subnet : exists ip k, has_subnet n ip k /\ 2 <= NextIndex st /\ (1 <= k -> NextIndex st <= Z.max 2 (2 ^ (32 - k)));
  no_distinct : NoDup (AllocatedIPs st);
  no_inside : forall a, a ∈ AllocatedIPs st -> a = Gateway n \/ exists x, quad x /\ a = print4 x /\ in_network n x;
}.

Record store_ok (s : Store) : Prop := {
  so_nets : forall name n st, s !! name = Some (n, st) -> net_ok name n st;
  so_apart : forall a b n st n' st', s !! a = Some (n, st) -> s !! b = Some (n', st') -> a <> b -> forall x, quad x -> in_network n x -> in_network n' x -> False;
  so_bridges : forall a b n st n' st', s !! a = Some (n, st) -> s !! b = Some (n', st') -> a <> b -> Bridge n <> Bridge n';
}.

Lemma has_subnet_parse n ip k : has_subnet n ip k -> ParseCIDR q6 (Subnet n) = Some (subnet ip k).
Proof. intros [Hc ->]. by apply parse_subnet. Qed.

Lemma subnet_inj ip k ip' k' : canonical ip k -> canonical ip' k' -> subnet ip k = subnet ip' k' -> ip = ip' /\ k = k'.
Proof. intros (_ & Hk & _) (_ & Hk' & _) [= -> Em]. split; [done|]. destruct (prefix_text k Hk) as [_ E], (prefix_text k' Hk') as [_ E']. rewrite Em in E. congruence. Qed.

Lemma has_subnet_unique n ip k ip' k' : has_subnet n ip k -> has_subnet n ip' k' -> ip = ip' /\ k = k'.
Proof. intros H H'. pose proof (has_subnet_parse _ _ _ H) as E. rewrite (has_subnet_parse _ _ _ H') in E. apply subnet_inj; [apply H|apply H'|congruence]. Qed.

(** *** Reading the store *)

Lemma read_meta s name n st : store_ok s -> s !! name = Some (n, st) -> readMeta s name = inr n /\ readState s name = inr st.
Proof. intros Hs E. unfold readMeta, readState. rewrite (no_valid _ _ _ (so_nets _ Hs _ _ _ E)), E. done. Qed.

Lemma elem_of_networks s n : store_ok s -> n ∈ networks s <-> exists name st, s !! name = Some (n, st).
Proof.
  intros Hs. unfold networks. rewrite list_elem_of_omap. split.
  - intros (name & _ & E). unfold readMeta in E. destruct (negb _); [done|]. destruct (s !! name) as [[n' st]|] eqn:En; [|done]. injection E as ->. by exists name, st.
  - intros (name & st & E). exists name. split; [|by destruct (read_meta s name n st Hs E) as [-> _]]. unfold readDir. rewrite merge_sort_Permutation, list_elem_of_fmap. exists (name, (n, st)). split; [done|]. by apply elem_of_map_to_list.
Qed.

Lemma name_nonempty name : ValidateResourceName name = true -> name <> [].
Proof. unfold ValidateResourceName. by intros H ->. Qed.

(** When no overlap is reported there is none. *)
Lemma no_overlap s ipNet ip k : store_ok s -> denotes ipNet ip k -> overlappingSubnet ipNet (allocatedSubnetsLocked q6 s) = [] ->
  forall name n st x, s !! name = Some (n, st) -> quad x -> in_network n x -> Contains (subnet ip k) x = true -> False.
Proof.
  intros Hs Hd Hno name n st x En Hx (ip' & k' & Hn & Hin') Hin. pose proof Hn as [Hc' _]. pose proof Hc' as (Hq' & Hk' & _). pose proof Hd as ((Hq & Hk & _) & _ & E4).
  assert (Hall : (subnet ip' k', name) ∈ allocatedSubnetsLocked q6 s).
  { unfold allocatedSubnetsLocked. apply list_elem_of_omap. exists n. split; [apply (elem_of_networks s n Hs); by exists name, st|]. rewrite (has_subnet_parse n ip' k' Hn). by rewrite (no_name _ _ _ (so_nets _ Hs _ _ _ En)). }
  unfold overlappingSubnet in Hno. destruct (List.find _ _) as [[o on]|] eqn:Ef.
  - apply List.find_some in Ef as [Hin2 _]. apply list_elem_of_In in Hin2. unfold allocatedSubnetsLocked in Hin2. apply list_elem_of_omap in Hin2 as (n2 & (name2 & st2 & E2)%(elem_of_networks s n2 Hs) & Ep). destruct (ParseCIDR q6 (Subnet n2)); [|done]. injection Ep as _ <-. cbn [snd] in Hno.
    rewrite (no_name _ _ _ (so_nets _ Hs _ _ _ E2)) in Hno. by apply (name_nonempty name2 (no_valid _ _ _ (so_nets _ Hs _ _ _ E2))).
  - apply list_elem_of_In in Hall. pose proof (List.find_none _ _ Ef _ Hall) as Ho. cbn [fst] in Ho. unfold subnetsOverlap in Ho. apply orb_false_iff in Ho as [Ho1 Ho2]. rewrite (denotes_contains _ _ _ _ Hd) in Ho1. rewrite (contains_to4 _ _ _ E4) in Ho2. cbn [net_IP subnet] in Ho1.
    destruct (overlap_contains ip k ip' k' x Hq Hq' Hx Hk Hk' Hin Hin'); congruence.
Qed.

Lemma bridge_free s name n st bridge : store_ok s -> ensureBridgeAvailableLocked s name bridge = None -> s !! Name n = Some (n, st) -> Name n <> name -> Bridge n <> bridge.
Proof.
  intros Hs He En Hne Hb. unfold ensureBridgeAvailableLocked in He. destruct (List.find _ _) as [o|] eqn:Ef; [done|]. assert (Hin : n ∈ networks s) by (apply elem_of_networks; [done|by exists (Name n), st]). apply list_elem_of_In in Hin. pose proof (List.find_none _ _ Ef _ Hin) as H. cbn beta in H. by rewrite !bool_decide_true in H by done.
Qed.

(** *** Each operation *)

Lemma store_update s name n st st' : store_ok s -> s !! name = Some (n, st) -> net_ok name n st' -> store_ok (<[name := (n, st')]> s).
Proof.
  intros Hs En Hn. assert (H : forall a m mt, <[name := (n, st')]> s !! a = Some (m, mt) -> exists mt', s !! a = Some (m, mt')).
  { intros a m mt. destruct (decide (a = name)) as [->|Hne]; [rewrite lookup_insert_eq; intros [= <- <-]; by exists st|rewrite lookup_insert_ne by done; intros E; by exists mt]. }
  split.
  - intros a m mt. destruct (decide (a = name)) as [->|Hne]; [rewrite lookup_insert_eq; by intros [= <- <-]|rewrite lookup_insert_ne by done; apply (so_nets _ Hs)].
  - intros a b m mt m' mt' (? & Ea)%H (? & Eb)%H. by apply (so_apart _ Hs a b _ _ _ _ Ea Eb).
  - intros a b m mt m' mt' (? & Ea)%H (? & Eb)%H. by apply (so_bridges _ Hs a b _ _ _ _ Ea Eb).
Qed.

Lemma store_add s name n st : store_ok s -> s !! name = None -> net_ok name n st ->
  (forall a m mt x, s !! a = Some (m, mt) -> quad x -> in_network n x -> in_network m x -> False) -> (forall a m mt, s !! a = Some (m, mt) -> Bridge m <> Bridge n) -> store_ok (<[name := (n, st)]> s).
Proof.
  intros Hs En Hn Hap Hbr. split.
  - intros a m mt. destruct (decide (a = name)) as [->|Hne]; [rewrite lookup_insert_eq; by intros [= <- <-]|rewrite lookup_insert_ne by done; apply (so_nets _ Hs)].
  - intros a b m mt m' mt'. destruct (decide (a = name)) as [->|Ha], (decide (b = name)) as [->|Hb]; rewrite ?lookup_insert_eq, ?lookup_insert_ne by done; [done| | |apply (so_apart _ Hs)].
    + intros [= <- <-] Eb _ x Hx H1 H2. by apply (Hap b m' mt' x).
    + intros Ea [= <- <-] _ x Hx H1 H2. by apply (Hap a m mt x).
  - intros a b m mt m' mt'. destruct (decide (a = name)) as [->|Ha], (decide (b = name)) as [->|Hb]; rewrite ?lookup_insert_eq, ?lookup_insert_ne by done; [done| | |apply (so_bridges _ Hs)].
    + intros [= <- <-] Eb _ E. by apply (Hbr b m' mt').
    + intros Ea [= <- <-] _. by apply (Hbr a m mt).
Qed.

Lemma try_subnets_ok allocated n : forall i ipNet gw, try_subnets n i [10; 100; 0; 0] allocated = Some (ipNet, gw) -> overlappingSubnet ipNet allocated = [] /\ exists ip k, denotes ipNet ip k.
Proof.
  induction n as [|n IH]; intros i ipNet gw; cbn [try_subnets]; [done|]. destruct (decide _) as [E|E]; [|apply IH]. intros [= <- <-]. split; [done|]. exists [10; 100; i mod 256; 0], 24. apply denotes_subnet.
  pose proof (Z.mod_pos_bound i 256). split; [split; [done|]; unfold is_byte; repeat constructor; lia|]. split; [lia|]. change (CIDRMask 24 4) with [255; 255; 255; 0]. cbn [zip_with]. rewrite Z.land_0_r. change 255 with (Z.ones 8). rewrite !Z.land_ones by lia. by rewrite Zmod_mod.
Qed.

Lemma create_ok s name sub driver now m0 s' : store_ok s -> Create q6 p6 s name sub driver now = inr (m0, s') -> store_ok s'.
Proof.
  intros Hs. unfold Create. destruct (ValidateResourceName name) eqn:Ev; [|done]. cbn [negb]. destruct (decide (is_Some (s !! name))) as [|Hnone]; [done|]. rewrite <- eq_None_not_Some in Hnone. set (found := if decide (sub = []) then _ else _).
  assert (Hf : forall ipNet gw, found = inr (ipNet, gw) -> overlappingSubnet ipNet (allocatedSubnetsLocked q6 s) = [] /\ exists ip k, denotes ipNet ip k).
  { intros ipNet gw. unfold found. destruct (decide (sub = [])).
    - unfold allocateSubnet. change (To4 (net_IP defaultSubnetCIDR)) with (Some [10; 100; 0; 0]). cbn [mbind option_bind]. destruct (try_subnets _ _ _ _) as [[ipNet' gw']|] eqn:Et; [|done]. intros [= <- <-]. by apply (try_subnets_ok _ _ _ _ _ Et).
    - destruct (parseSubnet q6 sub) as [[ipNet' gw']|] eqn:Ep; [|done]. destruct (decide _) as [Eo|]; [|done]. intros [= <- <-]. split; [done|]. unfold parseSubnet in Ep. destruct (ParseCIDR q6 sub) as [net|] eqn:Ec; [|done]. cbn [mbind option_bind] in Ep.
      destruct (To4 (net_IP net)) as [ip|] eqn:E4; [|done]. injection Ep as <- <-. exists ip. by apply (parse_denotes q6 sub). }
  destruct found as [|[ipNet gw]]; [done|]. destruct (Hf ipNet gw eq_refl) as (Hno & ip & k & Hd). cbn [Bridge]. destruct (ensureBridgeAvailableLocked _ _ _) eqn:Eb; [done|]. intros [= <- <-]. set (n := {| ID := name |}). assert (Hsub : has_subnet n ip k) by (split; [apply Hd|by apply denotes_string]).
  apply store_add; [done|done| | |].
  - split; [done|done| |apply NoDup_singleton|intros a ->%list_elem_of_singleton; by left]. exists ip, k. split; [done|]. cbn [NextIndex]. lia.
  - intros a m mt x Ea Hx (ip' & k' & Hn' & Hin) Hm. destruct (has_subnet_unique n ip k ip' k' Hsub Hn') as [<- <-]. by apply (no_overlap s ipNet ip k Hs Hd Hno a m mt x).
  - intros a m mt Ea. pose proof (so_nets _ Hs _ _ _ Ea) as Hm. apply (bridge_free s name m mt); [done|done|by rewrite (no_name _ _ _ Hm)|]. rewrite (no_name _ _ _ Hm). intros ->. congruence.
Qed.

Lemma remove_ok s name s' : store_ok s -> Remove s name = inr s' -> store_ok s'.
Proof.
  intros Hs. unfold Remove. destruct (negb _); [done|]. destruct (decide _) as [|_]; [done|]. intros [= <-]. split.
  - intros a n st [_ E]%lookup_delete_Some. by apply (so_nets _ Hs).
  - intros a b n st n' st' [_ Ea]%lookup_delete_Some [_ Eb]%lookup_delete_Some. by apply (so_apart _ Hs a b _ _ _ _ Ea Eb).
  - intros a b n st n' st' [_ Ea]%lookup_delete_Some [_ Eb]%lookup_delete_Some. by apply (so_bridges _ Hs a b _ _ _ _ Ea Eb).
Qed.

Lemma remove_first_ok ip l l' : remove_first ip l = Some l' -> exists l1 l2, l = l1 ++ ip :: l2 /\ l' = l1 ++ l2.
Proof.
  revert l'. induction l as [|a l IH]; intros l'; cbn [remove_first]; [done|]. destruct (decide (a = ip)) as [->|]; [intros [= <-]; by exists [], l|]. destruct (remove_first ip l) as [l0|]; [|done]. intros [= <-]. destruct (IH l0 eq_refl) as (l1 & l2 & -> & ->). by exists (a :: l1), l2.
Qed.

Lemma release_ip_ok s name ip s' : store_ok s -> ReleaseIP s name ip = inr s' -> store_ok s'.
Proof.
  intros Hs. unfold ReleaseIP. destruct (negb _); [done|]. destruct (s !! name) as [[n st]|] eqn:En; [|done]. destruct (remove_first _ _) as [l|] eqn:Er; [|by intros [= <-]]. intros [= <-]. pose proof (so_nets _ Hs _ _ _ En) as [H1 H2 H3 H4 H5].
  destruct (remove_first_ok _ _ _ Er) as (l1 & l2 & E & ->). rewrite E in H4, H5. apply (store_update s name n st); [done..|]. split; [done|done|done| |].
  - cbn [AllocatedIPs]. apply NoDup_app in H4 as (? & Hd & H4). apply NoDup_cons in H4 as [? ?]. apply NoDup_app. split; [done|]. split; [|done]. intros x Hx Hx'. apply (Hd x Hx). by right.
  - intros a Ha. apply H5. cbn [AllocatedIPs] in Ha. set_solver.
Qed.

(** A new address of a network. *)
Lemma add_address s name n st x next : store_ok s -> s !! name = Some (n, st) -> quad x -> in_network n x -> print4 x ∉ AllocatedIPs st -> 2 <= next -> (forall ip k, has_subnet n ip k -> 1 <= k -> next <= Z.max 2 (2 ^ (32 - k))) ->
  store_ok (<[name := (n, {| AllocatedIPs := AllocatedIPs st ++ [print4 x]; NextIndex := next |})]> s).
Proof.
  intros Hs En Hx Hin Hnew H2 Hb. pose proof (so_nets _ Hs _ _ _ En) as [N1 N2 (ip & k & Hsub & _) N4 N5]. apply (store_update s name n st); [done..|]. split; [done|done| | |].
  - exists ip, k. split; [done|]. split; [done|]. by apply (Hb ip k).
  - cbn [AllocatedIPs]. apply NoDup_app. split; [done|]. split; [intros y Hy ->%list_elem_of_singleton; done|apply NoDup_singleton].
  - intros a [Ha|Ha%list_elem_of_singleton]%elem_of_app; [by apply N5|subst a]. right. by exists x.
Qed.

Lemma reserve_ok s name ip s' : store_ok s -> ReserveIP q6 p6 s name ip = inr s' -> exists n st x, s !! name = Some (n, st) /\ quad x /\ in_network n x /\ print4 x ∉ AllocatedIPs st /\
  (forall base k, has_subnet n base k -> networkOrBroadcast (subnet base k) x = false) /\
  s' = <[name := (n, {| AllocatedIPs := AllocatedIPs st ++ [print4 x]; NextIndex := NextIndex st |})]> s /\ store_ok s'.
Proof.
  intros Hs. unfold ReserveIP. destruct (readMeta s name) as [|n0] eqn:Em; [done|]. unfold readMeta in Em. destruct (negb _); [done|]. destruct (s !! name) as [[n st]|] eqn:En; [|done]. injection Em as <-.
  destruct (ParseIP q6 ip) as [parsed|] eqn:Ep; [|done]. cbn [mbind option_bind]. destruct (To4 parsed) as [x|] eqn:E4; [|done]. cbn [mbind option_bind]. pose proof (so_nets _ Hs _ _ _ En) as Hn. destruct (no_subnet _ _ _ Hn) as (base & k & Hsub & H2 & Hmax).
  rewrite (has_subnet_parse n base k Hsub). destruct (Contains (subnet base k) parsed) eqn:Ec; [|done]. cbn [negb]. destruct (networkOrBroadcast _ _) eqn:Enb; [done|]. destruct (read_meta s name n st Hs En) as [_ ->]. unfold IP_String. rewrite E4. destruct (decide _) as [|Hnew]; [done|]. intros [= <-].
  assert (Hx : quad x).
  { unfold ParseIP in Ep. destruct (ParseAddr q6 ip) as [a|] eqn:Ea; [|done]. cbn [mbind option_bind] in Ep. apply (inj Some) in Ep. subst parsed. destruct (parse_addr q6 ip a H6 Ea) as [Hq|[Hl Hb]].
    - rewrite decide_True in E4 by apply Hq. assert (To4 (v4InV6Prefix ++ a) = Some a) as E. { destruct Hq as [Hl _]. unfold To4. assert (Hl16 : length (v4InV6Prefix ++ a) = 16%nat) by (rewrite length_app, Hl; done). rewrite decide_False by lia. rewrite decide_True by (split; [done|by rewrite take_app_length']). by rewrite drop_app_length'. }
      rewrite E in E4. by injection E4 as <-.
    - rewrite decide_False in E4 by lia. unfold To4 in E4. case_decide; [lia|]. case_decide; [|done]. injection E4 as <-. split; [rewrite length_drop; lia|by apply Forall_drop]. }
  assert (Hin : in_network n x) by (exists base, k; split; [done|]; by rewrite <- (contains_to4 _ parsed x)).
  assert (Hnb : networkOrBroadcast (subnet base k) x = false) by (unfold networkOrBroadcast in Enb |- *; rewrite E4 in Enb; by rewrite (To4_quad x) by apply Hx).
  exists n, st, x. do 4 (split; [done|]). split; [intros base' k' Hsub'; by destruct (has_subnet_unique n base k base' k' Hsub Hsub') as [<- <-]|]. split; [done|]. apply add_address; try done. intros base' k' Hsub' Hk. by destruct (has_subnet_unique n base k base' k' Hsub Hsub') as [<- <-]; apply Hmax.
Qed.

(** The search for an address. *)
Lemma next_free_sound fuel base k : forall index allocated x next, canonical base k -> next_free p6 fuel (subnet base k) index allocated = Some (Some (x, next)) ->
  quad x /\ Contains (subnet base k) x = true /\ print4 x ∉ allocated /\ index < next.
Proof.
  induction fuel as [|fuel IH]; intros index allocated x next Hc; cbn [next_free]; [done|]. unfold nextIP. cbn [net_IP subnet]. destruct (Contains _ _) eqn:Ec; [|done]. cbn [negb]. pose proof Hc as (Hq & _). apply quad_cases in Hq as (a & b & c & d & -> & _).
  assert (Hq : quad (add_bytes [a; b; c; d] index)) by (rewrite add_bytes_quad; split; [done|]; unfold is_byte; repeat constructor; apply Z.mod_pos_bound; lia). unfold IP_String. rewrite To4_quad by apply Hq.
  destruct (decide _) as [|Hnew]; [|intros [= <- <-]; split; [done|]; split; [done|]; split; [done|lia]]. intros E. destruct (IH _ _ _ _ Hc E) as (? & ? & ? & ?). split; [done|]; split; [done|]; split; [done|lia].
Qed.

Section Search.
Context (base : list Z) (k : Z) (Hc : canonical base k) (Hk : 1 <= k) (start : Z) (Hs0 : 0 <= start <= Z.max 2 (2 ^ (32 - k))) (allocated : list (list Z)).
Notation addr i := (print4 (add_bytes base i)).

Lemma pow_small : 1 <= 2 ^ (32 - k) <= 2 ^ 31.
Proof. destruct Hc as (_ & Hk32 & _). pose proof (Z.pow_le_mono_r 2 (32 - k) 31 ltac:(lia) ltac:(lia)). pose proof (Z.pow_pos_nonneg 2 (32 - k)). lia. Qed.

Lemma host_addr_inj i j : 0 <= i < 2 ^ (32 - k) -> 0 <= j < 2 ^ (32 - k) -> addr i = addr j -> i = j.
Proof.
  intros Hi Hj E. pose proof pow_small. destruct (add_bytes_spec base k i Hc ltac:(lia)) as (Qi & _ & Ni). destruct (add_bytes_spec base k j Hc ltac:(lia)) as (Qj & _ & Nj). apply (print4_inj _ _ Qi Qj) in E. rewrite E in Ni. specialize (Ni ltac:(lia)). specialize (Nj ltac:(lia)). lia.
Qed.

Lemma next_free_ok fuel : forall index, start <= index -> (index < 2 ^ 32) -> (forall j, start <= j < index -> j < 2 ^ (32 - k) /\ addr j ∈ allocated) -> Z.of_nat (length allocated) < index - start + Z.of_nat fuel ->
  exists r, next_free p6 fuel (subnet base k) index allocated = Some r /\
    match r with
    | Some (x, next) => exists i, x = add_bytes base i /\ next = i + 1 /\ start <= i < 2 ^ (32 - k) /\ addr i ∉ allocated /\ forall j, start <= j < i -> addr j ∈ allocated
    | None => forall j, start <= j < 2 ^ (32 - k) -> addr j ∈ allocated
    end.
Proof.
  induction fuel as [|fuel IH]; intros index Hi Hi32 Hseen Hf; pose proof pow_small as Hp.
  - exfalso. assert (Hsub : ((fun j => addr j) <$> seqZ start (index - start)) ⊆+ allocated).
    { apply NoDup_submseteq; [|intros y (j & -> & Hj%elem_of_seqZ)%list_elem_of_fmap; apply Hseen; lia]. apply NoDup_fmap_2_strong; [|apply NoDup_seqZ]. intros i j Hi'%elem_of_seqZ Hj%elem_of_seqZ E. destruct (Hseen i ltac:(lia)), (Hseen j ltac:(lia)). apply host_addr_inj; [lia..|done]. }
    apply submseteq_length in Hsub. rewrite length_fmap, length_seqZ in Hsub. lia.
  - cbn [next_free]. unfold nextIP. cbn [net_IP subnet]. destruct (add_bytes_spec base k index Hc ltac:(lia)) as (Hq & Hin & _). fold (subnet base k). destruct (Contains (subnet base k) (add_bytes base index)) eqn:Ec; cbn [negb].
    2:{ exists None. split; [done|]. intros j Hj. apply Hseen. split; [lia|]. destruct (Z.lt_ge_cases j index); [done|]. assert (index < 2 ^ (32 - k)) as Hlt%Hin by lia. done. }
    assert (Hlt : index < 2 ^ (32 - k)) by by apply Hin. unfold IP_String. rewrite To4_quad by apply Hq. destruct (decide _) as [Hal|Hnew].
    + apply IH; [lia|lia| |lia]. intros j Hj. destruct (decide (j = index)) as [->|]; [done|]. apply Hseen. lia.
    + eexists. split; [done|]. exists index. split_and!; try done. intros j Hj. by apply Hseen.
Qed.
End Search.

Lemma allocate_cases s name n st : store_ok s -> s !! name = Some (n, st) -> exists base k, has_subnet n base k /\ 2 <= NextIndex st /\ (1 <= k -> NextIndex st <= Z.max 2 (2 ^ (32 - k))) /\
  AllocateIP q6 p6 s name = (found ← next_free p6 (S (length (AllocatedIPs st))) (subnet base k) (NextIndex st) (AllocatedIPs st);
    match found with
    | None => Some (inl NoAvailableIPs)
    | Some (ip, next) => Some (inr (ip, <[name := (n, {| AllocatedIPs := AllocatedIPs st ++ [IP_String p6 ip]; NextIndex := next |})]> s))
    end).
Proof.
  intros Hs En. destruct (no_subnet _ _ _ (so_nets _ Hs _ _ _ En)) as (base & k & Hsub & H2 & Hmax). exists base, k. split; [done|]. split; [done|]. split; [done|]. unfold AllocateIP. destruct (read_meta s name n st Hs En) as [-> ->]. by rewrite (has_subnet_parse n base k Hsub).
Qed.

Lemma allocate_ip_ok s name x s' : store_ok s -> AllocateIP q6 p6 s name = Some (inr (x, s')) -> store_ok s'.
Proof.
  intros Hs E. destruct (s !! name) as [[n st]|] eqn:En; [|unfold AllocateIP, readMeta in E; rewrite En in E; by destruct (negb _)]. destruct (allocate_cases s name n st Hs En) as (base & k & Hsub & H2 & Hmax & Ea). rewrite Ea in E.
  destruct (next_free _ _ _ _ _) as [[[x' next]|]|] eqn:Ef; cbn [mbind option_bind] in E; [|done..]. injection E as -> <-. pose proof Hsub as [Hc _]. destruct (next_free_sound _ _ _ _ _ _ _ Hc Ef) as (Hq & Hin & Hnew & Hlt). unfold IP_String. rewrite To4_quad by apply Hq.
  apply add_address; [done|done|done|by exists base, k|done|lia|]. intros base' k' Hsub' Hk. destruct (has_subnet_unique n base k base' k' Hsub Hsub') as [<- <-]. specialize (Hmax Hk).
  pose proof (pow_small base k Hc Hk). destruct (next_free_ok base k Hc Hk (NextIndex st) ltac:(lia) (AllocatedIPs st) (S (length (AllocatedIPs st))) (NextIndex st)) as (r & Er & Hr); [lia|lia|intros; lia|lia|]. rewrite Ef in Er. injection Er as <-. destruct Hr as (i & _ & -> & Hi & _). lia.
Qed.

(** The stores that the operations give. *)
Inductive reach_store : Store -> Prop :=
  | reach_empty : reach_store ∅
  | reach_create s name sub driver now n s' : reach_store s -> Create q6 p6 s name sub driver now = inr (n, s') -> reach_store s'
  | reach_remove s name s' : reach_store s -> Remove s name = inr s' -> reach_store s'
  | reach_reserve s name ip s' : reach_store s -> ReserveIP q6 p6 s name ip = inr s' -> reach_store s'
  | reach_allocate s name ip s' : reach_store s -> AllocateIP q6 p6 s name = Some (inr (ip, s')) -> reach_store s'
  | reach_release s name ip s' : reach_store s -> ReleaseIP s name ip = inr s' -> reach_store s'.

Lemma reach_ok s : reach_store s -> store_ok s.
Proof.
  induction 1 as [|s name sub driver now n s' _ IH E|s name s' _ IH E|s name ip s' _ IH E|s name ip s' _ IH E|s name ip s' _ IH E].
  - split; intros; by rewrite lookup_empty in *.
  - by apply (create_ok s name sub driver now n).
  - by apply (remove_ok s name).
  - by destruct (reserve_ok s name ip s' IH E) as (? & ? & ? & _ & _ & _ & _ & _ & _ & ?).
  - by apply (allocate_ip_ok s name ip).
  - by apply (release_ip_ok s name ip).
Qed.
End Invariant.

(** ** Theorems *)

Lemma lor_low b j : is_byte b -> 0 <= j <= 8 -> Z.land b (256 - 2 ^ j) = b -> Z.lor b (255 - (256 - 2 ^ j)) = b + (2 ^ j - 1).
Proof.
  intros Hb Hj Hc. rewrite land_high in Hc by (unfold is_byte in Hb; lia). assert (0 < 2 ^ j) by (apply Z.pow_pos_nonneg; lia). replace (255 - (256 - 2 ^ j)) with (Z.ones j) by (rewrite Z.ones_equiv; lia). rewrite <- Hc.
  rewrite <- Z.shiftl_mul_pow2 by lia. rewrite <- Z.lxor_lor, <- Z.add_nocarry_lxor; [rewrite Z.ones_equiv; lia|..]; apply Z.bits_inj'; intros i Hi; rewrite Z.land_spec, Z.bits_0, Z.shiftl_spec, Z.testbit_ones by lia;
    (destruct (Z.ltb_spec i j); [rewrite Z.testbit_neg_r by lia; done|by rewrite andb_false_r, andb_false_r]).
Qed.

Lemma host_sum k : 0 <= k <= 32 -> (((2 ^ host_bits k 0 - 1) * 256 + (2 ^ host_bits k 1 - 1)) * 256 + (2 ^ host_bits k 2 - 1)) * 256 + (2 ^ host_bits k 3 - 1) = 2 ^ (32 - k) - 1.
Proof. revert k. apply by_prefix. apply (bool_decide_unpack _). by vm_compute. Qed.

(** The first and the last address of a subnet. *)
Lemma broadcast_num base k x : canonical base k -> quad x -> networkOrBroadcast (subnet base k) x = true <-> num x = num base \/ num x = num base + 2 ^ (32 - k) - 1.
Proof.
  intros (Hq & Hk & Hc) Hx. unfold networkOrBroadcast. cbn [net_IP net_Mask subnet]. rewrite To4_quad by apply Hq. rewrite To4_quad by apply Hx. destruct (mask_quad k Hk) as [Hm _]. rewrite decide_False by (intros H; by apply H). rewrite orb_true_iff, !bool_decide_eq_true.
  assert (Hb : quad (zip_with (fun b m => Z.lor b (255 - m)) base (CIDRMask k 4)) /\ num (zip_with (fun b m => Z.lor b (255 - m)) base (CIDRMask k 4)) = num base + 2 ^ (32 - k) - 1).
  { pose proof (host_sum k Hk) as Hsum. pose proof Hq as (a & b & c & d & -> & Ha & Hb & Hc' & Hd)%quad_cases. rewrite mask_bytes in * by done. cbn [zip_with] in *. injection Hc as E0 E1 E2 E3. assert (Hj : forall t, 0 <= host_bits k t <= 8) by (intros t; unfold host_bits; lia).
    assert (Hle : forall b t, is_byte b -> Z.land b (256 - 2 ^ host_bits k t) = b -> b + (2 ^ host_bits k t - 1) < 256).
    { intros y t Hy Ey. pose proof (land_byte y (256 - 2 ^ host_bits k t) Hy) as Hl. pose proof (Z.pow_le_mono_r 2 (host_bits k t) 8 ltac:(lia) ltac:(apply Hj)). specialize (Hl ltac:(lia)). lia. }
    assert (Hpos : forall t, 0 < 2 ^ host_bits k t) by (intros t; apply Z.pow_pos_nonneg; [lia|apply Hj]). pose proof (Hle _ _ Ha E0). pose proof (Hle _ _ Hb E1). pose proof (Hle _ _ Hc' E2). pose proof (Hle _ _ Hd E3). rewrite !lor_low by done.
    pose proof (Hpos 0). pose proof (Hpos 1). pose proof (Hpos 2). pose proof (Hpos 3). unfold is_byte in *. split; [split; [done|]; repeat constructor; unfold is_byte; lia|]. unfold num. lia. }
  destruct Hb as [Hbq Hbn]. split.
  - intros [->|E]; [by left|right; by rewrite E].
  - intros [E|E]; [left; by apply num_inj|right; apply num_inj; [done|done|congruence]].
Qed.

(** The number of a subnet has no bits after the prefix: its last address has the same prefix. *)
Lemma canonical_base base k : canonical base k -> exists q, num base = q * 2 ^ (32 - k).
Proof.
  intros Hc. pose proof Hc as (Hq & Hk & _). assert (Hp : 0 < 2 ^ (32 - k)) by (apply Z.pow_pos_nonneg; lia). assert (Hle : 2 ^ (32 - k) <= 2 ^ 32) by (apply Z.pow_le_mono_r; lia).
  destruct (add_bytes_spec base k (2 ^ (32 - k) - 1) Hc ltac:(lia)) as (Hqx & [_ Hin] & Hn). specialize (Hin ltac:(lia)). apply contains_num in Hin; [|done..]. rewrite Hn in Hin by lia. exists (num base / 2 ^ (32 - k)).
  clear Hn Hle. set (p := 2 ^ (32 - k)) in *. pose proof (Z.div_mod (num base) p ltac:(lia)). pose proof (Z.div_mod (num base + (p - 1)) p ltac:(lia)). pose proof (Z.mod_pos_bound (num base) p Hp). pose proof (Z.mod_pos_bound (num base + (p - 1)) p Hp). nia.
Qed.

(** The addresses that have the prefix of a subnet. *)
Lemma canonical_range base k y : canonical base k -> num base / 2 ^ (32 - k) = num y / 2 ^ (32 - k) <-> num base <= num y < num base + 2 ^ (32 - k).
Proof.
  intros Hc. destruct (canonical_base base k Hc) as [q Hq]. pose proof Hc as (_ & Hk & _). assert (Hp : 0 < 2 ^ (32 - k)) by (apply Z.pow_pos_nonneg; lia). rewrite Hq, Z.div_mul by lia. split.
  - intros ->. pose proof (Z.div_mod (num y) (2 ^ (32 - k))). pose proof (Z.mod_pos_bound (num y) (2 ^ (32 - k))). lia.
  - intros H. apply (Z.div_unique_pos _ _ q (num y - q * 2 ^ (32 - k))); lia.
Qed.

(** C9: Whatever networks are created, removed and used, two networks of the store share no
    address, and not the name of a bridge. *)
Theorem networks_disjoint q6 p6 s a b n st n' st' : ipv6_text q6 -> reach_store q6 p6 s -> s !! a = Some (n, st) -> s !! b = Some (n', st') -> a <> b ->
  Bridge n <> Bridge n' /\ exists sub sub', ParseCIDR q6 (Subnet n) = Some sub /\ ParseCIDR q6 (Subnet n') = Some sub' /\ forall x, quad x -> Contains sub x = true -> Contains sub' x = false.
Proof.
  intros H6 Hr%reach_ok Ea Eb Hne; [|done]. split; [by apply (so_bridges _ _ Hr a b _ _ _ _ Ea Eb)|]. destruct (no_subnet _ _ _ _ (so_nets _ _ Hr _ _ _ Ea)) as (ip & k & Hsub & _), (no_subnet _ _ _ _ (so_nets _ _ Hr _ _ _ Eb)) as (ip' & k' & Hsub' & _).
  exists (subnet ip k), (subnet ip' k'). split; [by apply (has_subnet_parse q6 p6)|]. split; [by apply (has_subnet_parse q6 p6)|]. intros x Hx Hin. apply not_true_is_false. intros Hin'. apply (so_apart _ _ Hr a b _ _ _ _ Ea Eb Hne x Hx); [by exists ip, k|by exists ip', k'].
Qed.

(** C10: In a network with a prefix of at least one bit, [AllocateIP] comes back with the first
    address from [NextIndex] on that is not taken, records it and goes on after it, or fails when
    all of these are taken.  [ReserveIP] takes only an address of the network that is not taken,
    and neither its first nor its last. *)
Theorem addresses_assigned q6 p6 s name n st : ipv6_text q6 -> reach_store q6 p6 s -> s !! name = Some (n, st) ->
  exists base k, ParseCIDR q6 (Subnet n) = Some (subnet base k) /\ canonical base k /\ NoDup (AllocatedIPs st) /\
    (1 <= k -> match AllocateIP q6 p6 s name with
      | Some (inr (x, s')) => exists i, NextIndex st <= i < 2 ^ (32 - k) /\ quad x /\ num x = num base + i /\ print4 x ∉ AllocatedIPs st /\
          (forall y, quad y -> num base + NextIndex st <= num y < num x -> print4 y ∈ AllocatedIPs st) /\
          s' = <[name := (n, {| AllocatedIPs := AllocatedIPs st ++ [print4 x]; NextIndex := i + 1 |})]> s
      | Some (inl e) => e = NoAvailableIPs /\ forall y, quad y -> num base + NextIndex st <= num y < num base + 2 ^ (32 - k) -> print4 y ∈ AllocatedIPs st
      | None => False
      end) /\
    (forall ip s', ReserveIP q6 p6 s name ip = inr s' -> exists x, quad x /\ num base < num x < num base + 2 ^ (32 - k) - 1 /\ print4 x ∉ AllocatedIPs st /\
      s' = <[name := (n, {| AllocatedIPs := AllocatedIPs st ++ [print4 x]; NextIndex := NextIndex st |})]> s).
Proof.
  intros H6 Hr%reach_ok En; [|done]. destruct (allocate_cases q6 p6 s name n st Hr En) as (base & k & Hsub & H2 & Hmax & Ea). pose proof Hsub as [Hc _]. pose proof Hc as (Hqb & Hk32 & _). exists base, k. split; [by apply (has_subnet_parse q6 p6)|]. split; [done|]. split; [apply (so_nets _ _ Hr _ _ _ En)|]. split.
  - intros Hk. specialize (Hmax Hk). pose proof (pow_small base k Hc Hk) as Hp. destruct (next_free_ok p6 base k Hc Hk (NextIndex st) ltac:(lia) (AllocatedIPs st) (S (length (AllocatedIPs st))) (NextIndex st)) as (r & Er & Hres); [lia|lia|intros; lia|lia|]. rewrite Ea, Er. cbn [mbind option_bind].
    assert (Hy : forall y, quad y -> num base + NextIndex st <= num y < num base + 2 ^ (32 - k) -> print4 y = print4 (add_bytes base (num y - num base))).
    { intros y Hq Hn. f_equal. destruct (add_bytes_spec base k (num y - num base) Hc ltac:(lia)) as (Hq' & _ & Hn'). apply num_inj; [done|done|]. rewrite Hn' by lia. lia. }
    destruct r as [[x next]|].
    + destruct Hres as (i & -> & -> & Hi & Hnew & Hseen). destruct (add_bytes_spec base k i Hc ltac:(lia)) as (Hq & _ & Hn). specialize (Hn ltac:(lia)). exists i. split; [done|]. split; [done|]. split; [done|]. split; [done|]. split; [intros y Hqy Hny; rewrite Hy by (done || lia); apply Hseen; lia|].
      unfold IP_String. by rewrite To4_quad by apply Hq.
    + split; [done|]. intros y Hqy Hny. rewrite Hy by done. apply Hres. lia.
  - intros ip s' E. destruct (reserve_ok q6 p6 H6 s name ip s' Hr E) as (n0 & st0 & x & En0 & Hx & (base' & k' & Hsub' & Hin) & Hnew & Hnb & -> & _). rewrite En in En0. injection En0 as <- <-. exists x. split; [done|]. split; [|done].
    destruct (has_subnet_unique q6 p6 n base k base' k' Hsub Hsub') as [<- <-]. specialize (Hnb base k Hsub). assert (Hno : ~ (num x = num base \/ num x = num base + 2 ^ (32 - k) - 1)) by (rewrite <- broadcast_num by done; congruence).
    apply contains_num in Hin; [|done..]. rewrite canonical_range in Hin by done. lia.
Qed.

(** ** Runs *)

Section Runs.
(** No IPv6 in these runs. *)
#[local] Notation q := (fun _ : list Z => @None (list Z)).
#[local] Notation p := (fun _ : list Z => @nil Z).
#[local] Notation app := (str "app").
#[local] Notation db := (str "db").

Definition created (r : neterr + (Network * Store)) : Store := match r with inr (_, s) => s | inl _ => ∅ end.
Definition one_network : Store := Eval vm_compute in created (Create q p ∅ app [] [] 0).
Definition two_networks : Store := Eval vm_compute in created (Create q p one_network db (str "10.100.2.0/23") [] 0).

Definition allocate_in (s : Store) : Store := match AllocateIP q p s app with Some (inr (_, s)) => s | _ => s end.

(** An address is allocated and given back. *)
Definition use_address (s : Store) : Store :=
  match AllocateIP q p s app with
  | Some (inr (x, s)) => match ReleaseIP s app (IP_String p x) with inr s => s | inl _ => s end
  | _ => s
  end.

Lemma no_ipv6 : ipv6_text q.
Proof. by intros s a. Qed.

Lemma one_network_reached : reach_store q p one_network.
Proof. eapply (reach_create q p ∅ app [] [] 0); [constructor|]. vm_compute. reflexivity. Qed.

Lemma two_networks_reached : reach_store q p two_networks.
Proof. eapply (reach_create q p one_network db (str "10.100.2.0/23") [] 0); [apply one_network_reached|]. vm_compute. reflexivity. Qed.

Lemma networks_disjoint_witness : exists n st n' st', two_networks !! app = Some (n, st) /\ two_networks !! db = Some (n', st') /\
  Bridge n <> Bridge n' /\ exists sub sub', ParseCIDR q (Subnet n) = Some sub /\ ParseCIDR q (Subnet n') = Some sub' /\ forall x, quad x -> Contains sub x = true -> Contains sub' x = false.
Proof.
  eexists _, _, _, _. split; [vm_compute; reflexivity|]. split; [vm_compute; reflexivity|].
  eapply (networks_disjoint q p two_networks app db _ _ _ _ no_ipv6 two_networks_reached); [vm_compute; reflexivity|vm_compute; reflexivity|discriminate].
Defined.

Lemma addresses_assigned_witness : exists n st base, one_network !! app = Some (n, st) /\ ParseCIDR q (Subnet n) = Some (subnet base 24) /\ NoDup (AllocatedIPs st) /\
  exists x s', AllocateIP q p one_network app = Some (inr (x, s')) /\ quad x /\ print4 x ∉ AllocatedIPs st.
Proof.
  destruct (one_network !! app) as [[n st]|] eqn:E; [|by vm_compute in E]. destruct (addresses_assigned q p one_network app n st no_ipv6 one_network_reached E) as (base & k & H1 & H2 & H3 & Ha & _).
  assert (k = 24) as ->. { vm_compute in E. injection E as <- <-. apply (subnet_inj base k [10; 100; 0; 0] 24 H2); [by repeat constructor|]. apply (inj Some). rewrite <- H1. by vm_compute. }
  specialize (Ha ltac:(lia)). exists n, st, base. split; [done|]. split; [done|]. split; [done|]. destruct (AllocateIP q p one_network app) as [[e|[x s']]|] eqn:Ea; [by vm_compute in Ea| |done]. exists x, s'. split; [done|]. by destruct Ha as (i & _ & Hq & _ & Hn & _).
Defined.

(** C38: Three things that the store does to addresses.  In a network of 24 bits [AllocateIP] comes
    to the broadcast address, which [ReserveIP] refuses because no host can use it.  Addresses
    that are given back are not allocated again: after 254 virtual machines, one after the other,
    only the gateway is taken and there is no address left.  And the gateway of a subnet of more than
    24 bits can be outside it. *)
Theorem network_store_defects :
  (reach_store q p one_network /\ ReserveIP q p one_network app (str "10.100.0.255") = inl NetworkOrBroadcast /\
    exists s, AllocateIP q p (Nat.iter 253 allocate_in one_network) app = Some (inr ([10; 100; 0; 255], s))) /\
  (exists n st, Nat.iter 254 use_address one_network !! app = Some (n, st) /\ AllocatedIPs st = [Gateway n] /\
    AllocateIP q p (Nat.iter 254 use_address one_network) app = Some (inl NoAvailableIPs)) /\
  (exists n s sub gw, Create q p ∅ app (str "10.0.0.128/25") [] 0 = inr (n, s) /\ ParseCIDR q (Subnet n) = Some sub /\ ParseIP q (Gateway n) = Some gw /\ Contains sub gw = false).
Proof.
  split; [split; [apply one_network_reached|split; [by vm_compute|eexists; vm_compute; reflexivity]]|]. split.
  - eexists _, _. split; [vm_compute; reflexivity|]. split; vm_compute; reflexivity.
  - eexists _, _, _, _. split; [vm_compute; reflexivity|]. split; [vm_compute; reflexivity|]. split; vm_compute; reflexivity.
Qed.
End Runs.
